(* ===== verification/_CoqProject ===== *)
-Q . S2P
Prelude.v
External.v
Topics.v
ScheduleDay.v
ConnectionInfo.v
Timers.v
Message.v
GridCache.v
ThriftModel.v
ThriftConverter.v
Intrusive.v
ObjectPool.v
DatastoreIterator.v
Datastore.v
Handler.v
QueueUtils.v
ReaderWriterQueue.v
ReaderWriterThreads.v
Semaphore.v
BlockingQueue.v
FreeList.v
QueueTraits.v
QueueBlock.v
QueueProducer.v
BlockPool.v
ProducerMemory.v
ProducerFifo.v
ProducerHash.v
HashThreads.v
ProducerList.v
ProducerThreads.v
LockFreeQueue.v
LockFreeSpec.v
BlockContents.v
BlockMemory.v
BlockChains.v
ExplicitProducer.v
ExplicitRing.v
ExplicitIndex.v
ExplicitSpec.v
ExplicitBulk.v
ExplicitLife.v
ExplicitQueue.v
ImplicitProducer.v
ImplicitIndex.v
ImplicitSpec.v
ImplicitBulk.v
ImplicitLife.v
ImplicitQueue.v
BlockOrigin.v
QueueStore.v
BlockingStore.v
QueueMove.v
DataDump.v
