(* ===== verification/Prelude.v ===== *)
(** * ApiPack2: a verification library

    ApiPack2 serves media metadata over HTTP. A request comes in on an IO
    thread of the proxygen server, is handed through queues to a few logic
    threads, and is answered from a PostgreSQL store whose rows are Thrift
    structures. The sources are under src/source; this library models the C++
    code in its own terms and proves what makes each part correct. Where the
    code does something else than it means to, the theorems say what it does.

    ** Files, and the sources they model

    - Prelude (this file): machine words as integers with an explicit [wrap],
      bit-fields, the tactics [width] and [bitwise] with the rewrite database
      [bits], reachability, strings, and sums over lists.
    - External: interfaces of folly, boost::gregorian and the exceptions, each
      a class of operations, a class of the laws relied on, and an instance
      that shows the laws can hold.
    - Topics, ScheduleDay, ConnectionInfo, ThriftConverter (datastore/): the
      topics and their names; the packed schedule-day identifier; the rotation
      of the connection strings; the creation of Thrift objects from bytes.
    - ThriftModel (thriftHelpers/): the orders of the generated structures.
    - Message (pipeline/, memorystore/CacheEntry.h), GridCache (memorystore/):
      bit-fields and lock counts; the arrays of cache entries, with the memory
      that [array] writes to.
    - Timers, ObjectPool, Intrusive (utils/): the timers; the pool with its
      caches and free list; the intrusive smart pointers with the counts, the
      temporaries of the assignments, and the end of an object.
    - DatastoreIterator, Datastore (datastore/): a query as a server-side
      cursor, over libpq as an interface, with the results libpq has allocated;
      the datastore that lends its only iterator through smart pointers and is
      told when the last one goes. Datastore puts Intrusive and
      DatastoreIterator together.
    - Handler (handler/, server/main.cpp): the IO handler of a request, the
      loop of a logic thread, and the server as a step relation of both.
    - QueueUtils, ReaderWriterQueue, ReaderWriterThreads
      (utils/readerwriterqueue.h, and the integer utilities of
      utils/concurrentqueue.h): the queue of one producer and one consumer as a
      ring of circular blocks from [malloc], operation by operation; and its
      two threads side by side, access by access.
    - Semaphore, BlockingQueue (utils/blockingconcurrentqueue.h): the
      semaphores, with every atomic access a step of one of any number of
      threads; the blocking queue on top of them. The inner lock-free queue is
      the class [ConcurrentQueue]; BlockingStore puts the real one there.
    - The lock-free queue of many producers and consumers
      (utils/concurrentqueue.h), in three layers. What threads do to each
      other, access by access: FreeList (the free list with its reference
      counts), QueueProducer (how consumers and the producer claim elements),
      HashThreads (threads that look for their producers and enlarge the hash),
      ProducerThreads (threads that add producers, take them over and give them
      up).
      What one producer does, call by call: QueueTraits (constants, indices),
      QueueBlock (blocks and how they know that they are empty), BlockPool (the
      pool of blocks, [malloc]), ProducerMemory (what both kinds of producer do
      to a block), ExplicitProducer and ImplicitProducer (all operations, with
      their block indices). What the queue does with its producers:
      ProducerHash (the hash of implicit producers by thread), ProducerList
      (the list of producers, the producer tokens, and the class [SubQueues]
      of what a producer's queue does), LockFreeQueue (the methods of the
      queue, consumer tokens), QueueStore (the producers as the instance of
      [SubQueues] in the memory of the queue, its constructors and its
      destructor), QueueMove (queues as objects that are moved and swapped,
      with the hash tables and producers that point back to them; the blocking
      queue too).
    - Proofs about the lock-free queue: BlockContents, BlockMemory,
      BlockChains (which block holds which element, who owns a block), then
      ExplicitRing, ExplicitIndex, ExplicitSpec, ExplicitBulk, ExplicitLife for
      explicit producers and ImplicitIndex, ImplicitSpec, ImplicitBulk,
      ImplicitLife for implicit ones; ProducerFifo, ExplicitQueue and
      ImplicitQueue run them as queues; LockFreeSpec runs programs over a whole
      queue; BlockOrigin follows where each block came from.
    - DataDump (tools/dataDump/dataDump.cpp): the tool, a client of Datastore
      and ThriftConverter.

    ** How the code is rendered

    A class is a Record of its members and a method a function on it, named as
    in the source, in a Module named after the class. Undefined behaviour and
    failed assertions are [None] (or [Undefined]), exceptions are values of
    [outcome]. Objects that are shared live in a store indexed by their
    addresses. Methods that change much state are written in a state-and-option
    monad of their own file. Threads are program counters with their local
    variables; an interleaving is a schedule that is run, or a path of a step
    relation. Code that is not in the repository (libpq, boost, folly, proxygen,
    the Thrift runtime, malloc, the C library, atomicops.h) is a class or a
    parameter; its documented behaviour is a class of laws or a named
    hypothesis, with an instance at which the witnesses evaluate.

    ** What the theorems show

    - Queries: [query_drains] (the client sees exactly the rows of the query,
      in order), [iterator_safe] and [transactions_balanced] (any calls,
      whatever the server answers), [query_outcomes], [object_lifetime],
      [query_text_exact], [construct_hides_failure].
    - The datastore: [open_iterator_is_held], [data_one_query_at_a_time],
      [store_destruction]; and the tool, [tests_leak_rows], [main_runs]. The
      constructor of the datastore reads its member [mDataIter] before anything
      has set it ([constructor_reads_uninitialised]); the theorems are about the
      datastores it makes where that member points to a new iterator.
    - The server: [server_stalls] (it reaches a state from which it takes no
      request any more), [notifications_sync], [drain_spec],
      [request_map_bounded], [stop_exits].
    - Synchronisation: [tokens_never_exceeded], [no_lost_wakeup],
      [timed_wait_deadline]; [elements_conserved], [blocked_means_empty]
      (against the laws of the inner queue), and of the whole, over the
      lock-free queue in memory, [blocking_queue_in_memory]. A timed wait whose
      deadline is refused goes on without a token ([refused_deadline_forges]);
      the theorems count how often.
    - The single-producer queue: [queue_refines_list] (a list with a capacity,
      for every sequence of operations), [queue_destruction],
      [blocking_queue_refines_list], [make_block_in_bounds]; with its two
      threads interleaved in any way, [threads_keep_order] (what is taken is
      what was put in, in order, and the memory is in order throughout) and
      [calls_end] (no thread waits for the other).
    - The lock-free queue: [nodes_in_one_place], [claims_are_sound],
      [dequeue_alone], [threads_share_the_hash], [producers_have_one_owner] (any
      interleaving of accesses), [only_the_lock_is_waited_for];
      [emptiness_tracking_agrees]; [explicit_producer_is_fifo],
      [explicit_destruction], [implicit_producer_is_fifo],
      [implicit_destruction] (a producer is a first-in first-out queue, for
      sequences of any length, and its destructor gives everything back);
      [threads_keep_their_producers], [tokens_own_producers],
      [consumers_spread]; [queue_keeps_promises] (programs over the queue and
      its tokens, against the laws of [SubQueues]), and of the whole, from the
      methods down to the blocks, [queue_in_memory] and
      [queue_destruction_frees_all]; [moves_give_contents] and
      [blocking_moves_give_contents] for queues that are moved. What goes wrong:
      [refused_bulk_breaks_order], [thrown_bulk_breaks_destruction],
      [no_index_is_fatal]. The theorems on explicit producers follow a run up to
      the first refused bulk operation or throwing constructor, those on whole
      queues up to the first refused bulk enqueue, with constructors that do not
      throw and the first index of each implicit producer allocated.
    - Memory: [reference_counts_exact], [release_exactly_last],
      [pool_accounting], [destructor_frees_all].
    - Data: round trips and bounds of the packed fields, rounding to powers of
      two, the injective hash, the orders of the Thrift structures.

    ** Bounds and fuel

    Machine integers keep their width; where a theorem needs a size to stay
    below it (fewer than 2^64 smart pointers, 2^31 threads, 2^63 tokens of a
    semaphore, a capacity below 2^63, 2^32 operations of a program over a
    queue) that is a hypothesis. The loops over a ring of blocks have the number
    of blocks as their fuel and those over a block its slots, and the theorems
    show that it is enough. The loops of clients that go on for as long as the
    server gives rows have a fuel of their own and say when it has run out.
    The operations of the lock-free queue have the number of blocks, of slots or
    of elements that they go over as their fuel. [malloc] is a function from the
    number of the call to its outcome; there is less memory than there are
    indices ([enough_indices]), so that an index that has wrapped around cannot
    meet itself, and no more than 2^63 elements are put in at once.

    ** Not modelled

    Logging and flags; the Windows and Mach semaphores; weak memory orders
    (threads are sequentially consistent); the casts between kinds of smart
    pointers; SerializedDataObject and CacheStatistics, which do nothing. Of
    the lock-free queue: the thread exit listeners and the debugging code that
    are compiled on request, and [is_lock_free]. Its operations on blocks and
    indices are shown for calls that run one at a time: the interleaving of its
    accesses is modelled for the free list, for the claims on a producer's
    elements, for the emptiness of blocks, for the hash of implicit producers
    and for the list of producers; that of all accesses for the semaphore and
    for the queue of one producer and one consumer. In BlockingConcurrentQueue an operation of the
    inner queue is one step of its thread; BlockingReaderWriterQueue is shown
    for operations that run one at a time. The guards of the single-producer queue
    against elements whose constructors use the queue are not modelled. *)

From stdpp Require Export base numbers list gmap strings relations sorting.
From Stdlib Require Export ZArith Lia Bool Btauto.

#[global] Set Default Goal Selector "!".
#[local] Open Scope Z_scope.
#[global] Arguments Nat.min : simpl never.
#[global] Arguments Z.of_nat : simpl never.
#[global] Arguments Z.pow : simpl never.

(** * Machine words *)

(** A [w]-bit unsigned value is a [Z] in [[0, 2^w)]; arithmetic on it is
    integer arithmetic followed by [wrap w]. *)
Definition wrap (w x : Z) : Z := x `mod` 2 ^ w.

Definition in_width (w x : Z) : Prop := 0 <= x < 2 ^ w.

(** A [w]-bit two's complement value read from its unsigned pattern. *)
Definition to_signed (w x : Z) : Z :=
  if wrap w x <? 2 ^ (w - 1) then wrap w x else wrap w x - 2 ^ w.

Declare Scope word_scope.
Delimit Scope word_scope with w.
Abbreviation u16 := (wrap 16).
Abbreviation u32 := (wrap 32).
Abbreviation u64 := (wrap 64).
Abbreviation s32 := (to_signed 32).
Abbreviation s64 := (to_signed 64).
Infix ".&" := Z.land (at level 40, left associativity) : word_scope.
Infix ".|" := Z.lor (at level 50, left associativity) : word_scope.
Infix ".^" := Z.lxor (at level 50, left associativity) : word_scope.
Notation "~64 x" := (wrap 64 (Z.lnot x)) (at level 30, x at level 30) : word_scope.
Open Scope word_scope.

Lemma wrap_range w x : 0 <= w -> in_width w (wrap w x).
Proof. intros Hw. apply Z.mod_pos_bound. lia. Qed.

Lemma wrap_small w x : in_width w x -> wrap w x = x.
Proof. intros H. by apply Z.mod_small. Qed.

Lemma wrap_wrap w x : 0 <= w -> wrap w (wrap w x) = wrap w x.
Proof. intros Hw. apply wrap_small, wrap_range, Hw. Qed.

Lemma wrap_add_l w x y : wrap w (wrap w x + y) = wrap w (x + y).
Proof. apply Zplus_mod_idemp_l. Qed.
Lemma wrap_add_r w x y : wrap w (x + wrap w y) = wrap w (x + y).
Proof. apply Zplus_mod_idemp_r. Qed.
Lemma wrap_sub_l w x y : wrap w (wrap w x - y) = wrap w (x - y).
Proof. apply Zminus_mod_idemp_l. Qed.
Lemma wrap_sub_r w x y : wrap w (x - wrap w y) = wrap w (x - y).
Proof. apply Zminus_mod_idemp_r. Qed.

Lemma to_signed_id w x : 0 < w -> - 2 ^ (w - 1) <= x < 2 ^ (w - 1) -> to_signed w x = x.
Proof.
  intros Hw Hx. unfold to_signed, wrap. assert (2 ^ w = 2 * 2 ^ (w - 1)) as Ew.
  { rewrite <- (Z.pow_succ_r 2 (w - 1)) by lia. f_equal. lia. }
  destruct (Z.leb_spec 0 x).
  - rewrite Z.mod_small by lia. by rewrite (proj2 (Z.ltb_lt _ _)) by lia.
  - replace (x `mod` 2 ^ w) with (x + 2 ^ w); [rewrite (proj2 (Z.ltb_ge _ _)) by lia; lia|].
    apply Z.mod_unique with (-1); lia.
Qed.

Lemma wrap_period w x k : wrap w (x + k * 2 ^ w) = wrap w x.
Proof. unfold wrap. apply Z_mod_plus_full. Qed.

Lemma in_width_wrap w x : 0 <= w -> wrap w x = x -> in_width w x.
Proof. intros Hw <-. by apply wrap_range. Qed.

Lemma in_width_le v w x : 0 <= v <= w -> in_width v x -> in_width w x.
Proof.
  intros Hvw [H0 H1]. split; [done|].
  pose proof (Z.pow_le_mono_r 2 v w). lia.
Qed.

(** [width] proves [in_width w x] from a narrower width or by computation. *)
Ltac width :=
  solve [ eassumption
        | unfold in_width in *; lia
        | eapply in_width_le; [|eassumption]; lia ].

Lemma testbit_wrap w x i :
  0 <= w -> Z.testbit (wrap w x) i = (i <? w) && Z.testbit x i.
Proof.
  intros Hw. unfold wrap. destruct (Z.ltb_spec i w); cbn.
  - destruct (decide (0 <= i)); [by apply Z.mod_pow2_bits_low|].
    rewrite !Z.testbit_neg_r by lia. done.
  - apply Z.mod_pow2_bits_high. lia.
Qed.

Lemma testbit_ones n i :
  0 <= n -> Z.testbit (Z.ones n) i = (0 <=? i) && (i <? n).
Proof.
  intros Hn. destruct (Z.leb_spec 0 i); cbn; [|by rewrite Z.testbit_neg_r by lia].
  destruct (Z.ltb_spec i n).
  - apply Z.ones_spec_low. lia.
  - apply Z.ones_spec_high. lia.
Qed.

(** The database [bits] pushes [Z.testbit] through the word operations. *)
Create Rewrite HintDb bits.
#[export] Hint Rewrite Z.land_spec Z.lor_spec Z.lxor_spec Z.bits_0 : bits.
#[export] Hint Rewrite Z.shiftl_spec Z.shiftr_spec Z.lnot_spec testbit_wrap testbit_ones
  using lia : bits.

(** [bitwise] proves an equality of words by comparing their bits. Each
    comparison of bit positions left in the goal is settled by [lia] or split. *)
Ltac bit_cases :=
  repeat match goal with
  | |- context [Z.testbit ?x ?i] =>
      match i with _ - _ => rewrite (Z.testbit_neg_r x i) by lia end
  | |- context [?a <? ?b] =>
      first [ rewrite (proj2 (Z.ltb_lt a b)) by lia
            | rewrite (proj2 (Z.ltb_ge a b)) by lia
            | destruct (Z.ltb_spec a b) ]
  | |- context [?a <=? ?b] =>
      first [ rewrite (proj2 (Z.leb_le a b)) by lia
            | rewrite (proj2 (Z.leb_gt a b)) by lia
            | destruct (Z.leb_spec a b) ]
  end.

Ltac bit_simpl :=
  rewrite ?andb_true_l, ?andb_false_l, ?andb_true_r, ?andb_false_r,
    ?orb_false_l, ?orb_false_r.

Ltac bit_done := solve [ reflexivity | btauto | repeat (f_equal; try lia) ].

Ltac bitwise :=
  apply Z.bits_inj'; let i := fresh "i" in intros i ?;
  do 4 (autorewrite with bits; bit_cases; bit_simpl; try bit_done).

(** * Bit-fields *)

(** The [n]-bit field at position [lo] of a word. A store to a bit-field keeps
    the low [n] bits of the value. *)
Definition get_bits (lo n x : Z) : Z := (x ≫ lo) .& Z.ones n.
Definition set_bits (lo n v x : Z) : Z :=
  (x .& Z.lnot (Z.ones n ≪ lo)) .| ((v .& Z.ones n) ≪ lo).

Lemma get_set_bits_same lo n v x :
  0 <= lo -> 0 <= n -> get_bits lo n (set_bits lo n v x) = wrap n v.
Proof. intros Hlo Hn. unfold get_bits, set_bits. bitwise. Qed.

Lemma get_set_bits_other lo n lo' n' v x :
  0 <= lo -> 0 <= n -> 0 <= lo' -> 0 <= n' -> lo + n <= lo' \/ lo' + n' <= lo ->
  get_bits lo n (set_bits lo' n' v x) = get_bits lo n x.
Proof. intros. unfold get_bits, set_bits. bitwise. Qed.

Lemma set_set_bits lo n v v' x :
  0 <= lo -> 0 <= n -> set_bits lo n v (set_bits lo n v' x) = set_bits lo n v x.
Proof. intros. unfold set_bits. bitwise. Qed.

Lemma set_get_bits lo n x :
  0 <= lo -> 0 <= n -> set_bits lo n (get_bits lo n x) x = x.
Proof. intros. unfold set_bits, get_bits. bitwise. Qed.

Lemma set_bits_wrap lo n v x :
  0 <= lo -> 0 <= n -> set_bits lo n (wrap n v) x = set_bits lo n v x.
Proof. intros. unfold set_bits. bitwise. Qed.

Lemma set_bits_width w lo n v x :
  0 <= lo -> 0 <= n -> lo + n <= w -> in_width w x -> in_width w (set_bits lo n v x).
Proof.
  intros Hlo Hn Hw Hx. apply in_width_wrap; [lia|].
  rewrite <- (wrap_small w x) by done. unfold set_bits. bitwise.
Qed.

Lemma get_bits_width lo n x : 0 <= lo -> 0 <= n -> in_width n (get_bits lo n x).
Proof. intros. apply in_width_wrap; [lia|]. unfold get_bits. bitwise. Qed.

(** * Reachability *)

(** A property that holds initially and is kept by each step holds in every
    reachable state. *)
Lemma rtc_invariant {A} (step : A -> A -> Prop) (I : A -> Prop) x y :
  (forall a b, I a -> step a b -> I b) -> rtc step x y -> I x -> I y.
Proof. intros Hstep. induction 1; eauto. Qed.

(** * Strings *)

Lemma string_app_cons c s t : String c s +:+ t = String c (s +:+ t).
Proof. done. Qed.

Lemma string_app_nil_r s : s +:+ "" = s.
Proof. induction s as [|c s IH]; [done|]. by rewrite string_app_cons, IH. Qed.

Lemma string_app_assoc a b c : (a +:+ b) +:+ c = a +:+ (b +:+ c).
Proof. induction a as [|x a IH]; [done|]. by rewrite !string_app_cons, IH. Qed.

Lemma string_length_app a b : String.length (a +:+ b) = (String.length a + String.length b)%nat.
Proof. induction a as [|x a IH]; [done|]. rewrite string_app_cons. cbn. by rewrite IH. Qed.

Lemma string_app_inv_tail t a b : a +:+ t = b +:+ t -> a = b.
Proof.
  revert b. induction a as [|x a IH]; intros [|y b] E; [done| | |].
  - apply (f_equal String.length) in E. rewrite !string_length_app in E. cbn in E. lia.
  - apply (f_equal String.length) in E. rewrite !string_length_app in E. cbn in E. lia.
  - rewrite !string_app_cons in E. injection E as -> E. by rewrite (IH b E).
Qed.

(** * Sums over a list *)

Definition zsum {A} (f : A -> Z) (l : list A) : Z := foldr (fun x n => f x + n) 0 l.

Lemma zsum_cons {A} (f : A -> Z) x l : zsum f (x :: l) = f x + zsum f l.
Proof. done. Qed.

Lemma zsum_insert {A} (f : A -> Z) l i x y :
  l !! i = Some x -> zsum f (<[i := y]> l) = zsum f l - f x + f y.
Proof.
  revert i. induction l as [|x0 l IH]; intros [|i] Hi; try done.
  - injection Hi as ->. change (<[0%nat := y]> (x :: l)) with (y :: l). rewrite !zsum_cons. lia.
  - specialize (IH i Hi). change (<[S i := y]> (x0 :: l)) with (x0 :: <[i := y]> l).
    rewrite !zsum_cons. lia.
Qed.

Lemma zsum_nonneg {A} (f : A -> Z) l : Forall (fun x => 0 <= f x) l -> 0 <= zsum f l.
Proof. induction 1; [done|]. rewrite zsum_cons. lia. Qed.

Lemma zsum_member {A} (f : A -> Z) l i x :
  Forall (fun x => 0 <= f x) l -> l !! i = Some x -> f x <= zsum f l.
Proof.
  intros Hf. revert i. induction Hf as [|x0 l H0 Hl IH]; intros i Hi; [done|]. rewrite zsum_cons.
  destruct i as [|i]; [injection Hi as ->; pose proof (zsum_nonneg f l Hl); lia|].
  specialize (IH i Hi). lia.
Qed.

Lemma zsum_two {A} (f : A -> Z) l i j x y :
  (forall x, 0 <= f x) -> i <> j -> l !! i = Some x -> l !! j = Some y -> f x + f y <= zsum f l.
Proof.
  intros Hf. assert (forall l, Forall (fun x => 0 <= f x) l) as Hall by (intros; apply Forall_forall; auto).
  revert i j. induction l as [|z l IH]; intros [|i] [|j] Hne Hi Hj; try done; rewrite zsum_cons.
  - injection Hi as ->. pose proof (zsum_member f l j y (Hall l) Hj). lia.
  - injection Hj as ->. pose proof (zsum_member f l i x (Hall l) Hi). lia.
  - specialize (IH i j ltac:(congruence) Hi Hj). specialize (Hf z). lia.
Qed.

Lemma zsum_bounds {A} (f : A -> Z) l : (forall x, 0 <= f x <= 1) -> 0 <= zsum f l <= Z.of_nat (length l).
Proof.
  intros Hf. induction l as [|x l IH]; [done|]. specialize (Hf x). rewrite zsum_cons. cbn [length]. lia.
Qed.

Lemma zsum_repeat {A} (f : A -> Z) x n : f x = 0 -> zsum f (repeat x n) = 0.
Proof. intros Hf. induction n as [|n IH]; [done|]. cbn [repeat]. rewrite zsum_cons. lia. Qed.

Lemma zsum_zero {A} (f : A -> Z) l : Forall (fun x => f x = 0) l -> zsum f l = 0.
Proof. induction 1 as [|x l E _ IH]; [done|]. rewrite zsum_cons. lia. Qed.

Lemma zsum_add {A} (f g : A -> Z) l : zsum (fun x => f x + g x) l = zsum f l + zsum g l.
Proof. induction l as [|x l IH]; [done|]. rewrite !zsum_cons. lia. Qed.

Lemma zsum_app {A} (f : A -> Z) l l' : zsum f (l ++ l') = zsum f l + zsum f l'.
Proof. induction l as [|x l IH]; [done|]. rewrite <- app_comm_cons, !zsum_cons. lia. Qed.

Lemma zsum_replicate {A} (f : A -> Z) n x : zsum f (replicate n x) = Z.of_nat n * f x.
Proof. induction n as [|n IH]; [done|]. cbn [replicate]. rewrite zsum_cons. lia. Qed.

Lemma zsum_mono {A} (f : A -> Z) l l' : Forall2 (fun x y => f x <= f y) l l' -> zsum f l <= zsum f l'.
Proof. induction 1 as [|x y l l' Hxy _ IH]; [done|]. rewrite !zsum_cons. lia. Qed.

Lemma zsum_take_mono {A} (f : A -> Z) l i j :
  (forall x, 0 <= f x) -> (i <= j)%nat -> zsum f (take i l) <= zsum f (take j l).
Proof.
  intros Hf Hij. rewrite <- (take_drop i (take j l)), take_take, Nat.min_l, zsum_app by done.
  pose proof (zsum_nonneg f (drop i (take j l))) as Hn. rewrite Forall_forall in Hn. specialize (Hn ltac:(auto)). lia.
Qed.

(** * Ranges of a list *)

(** The list has [x] at the [n] places from [k] on; these places set to [x]. *)
Definition range {A} (l : list A) (k n : nat) (x : A) : Prop :=
  forall j, (k <= j < k + n)%nat -> l !! j = Some x.
Definition set_range {A} (k n : nat) (x : A) (l : list A) : list A :=
  take k l ++ replicate n x ++ drop (k + n) l.

Lemma range_bound {A} (l : list A) k n x : (1 <= n)%nat -> range l k n x -> (k + n <= length l)%nat.
Proof. intros Hn Hr. specialize (Hr (k + n - 1)%nat ltac:(lia)). apply lookup_lt_Some in Hr. lia. Qed.

Lemma range_split {A} (l : list A) k n x : range l k n x -> (k <= length l)%nat -> l = set_range k n x l.
Proof.
  intros Hr Hk. unfold set_range. rewrite <- (take_drop k l) at 1. f_equal.
  rewrite <- (take_drop n (drop k l)) at 1. rewrite drop_drop. f_equal.
  apply list_eq. intros j. destruct (decide (j < n)%nat) as [Hj|Hj].
  - rewrite lookup_take_lt, lookup_drop, (Hr (k + j)%nat) by lia. symmetry. by apply lookup_replicate_2.
  - rewrite lookup_take_ge by lia. symmetry. apply lookup_ge_None. rewrite length_replicate. lia.
Qed.

Lemma lookup_set_range {A} (l : list A) k n x j :
  (k + n <= length l)%nat ->
  set_range k n x l !! j = if decide (k <= j < k + n)%nat then Some x else l !! j.
Proof.
  intros Hl. unfold set_range. destruct (decide (j < k)%nat) as [Hj|Hj].
  - rewrite lookup_app_l, lookup_take_lt by (rewrite ?length_take; lia). by rewrite decide_False by lia.
  - rewrite lookup_app_r by (rewrite length_take; lia). rewrite length_take, Nat.min_l by lia.
    case_decide as Hr.
    + rewrite lookup_app_l by (rewrite length_replicate; lia). apply lookup_replicate_2. lia.
    + rewrite lookup_app_r by (rewrite length_replicate; lia). rewrite length_replicate, lookup_drop. f_equal. lia.
Qed.

Lemma length_set_range {A} (l : list A) k n x : (k + n <= length l)%nat -> length (set_range k n x l) = length l.
Proof. intros Hl. unfold set_range. rewrite !length_app, length_take, length_replicate, length_drop. lia. Qed.

Lemma zsum_set_range {A} (f : A -> Z) l k n x y :
  range l k n y -> (k + n <= length l)%nat -> zsum f (set_range k n x l) = zsum f l + Z.of_nat n * (f x - f y).
Proof.
  intros Hr Hl. rewrite (range_split l k n y Hr) at 2 by lia. unfold set_range.
  rewrite !zsum_app, !zsum_replicate. lia.
Qed.

Lemma zsum_take_set_range {A} (f : A -> Z) l k n x y j :
  range l k n y -> (k + n <= length l)%nat -> f y <= f x ->
  zsum f (take j l) <= zsum f (take j (set_range k n x l)).
Proof.
  intros Hr Hl Hf. apply zsum_mono, Forall2_take. rewrite (range_split l k n y Hr) at 1 by lia. unfold set_range.
  apply Forall2_app; [|apply Forall2_app]; [|by apply Forall2_replicate|]; (apply Forall_Forall2_diag, Forall_forall; lia).
Qed.
