(* ===== verification/External.v ===== *)
(** Interfaces of the code the repository calls but does not contain: folly's
    string conversions and boost's Gregorian dates. Each is a class of
    operations, a class of the documented laws the repository relies on, and
    one concrete instance, used only to show that the laws can hold. *)

From stdpp Require Import pretty.
From S2P Require Import Prelude.
#[local] Open Scope Z_scope.

(** * C++ exceptions that the code tells apart *)

Inductive exn :=
| out_of_range          (* std::out_of_range and the classes derived from it *)
| transport_exception   (* apache::thrift::transport::TTransportException *)
| type_error            (* folly::TypeError *)
| other_exception.

#[global] Instance exn_eq_dec : EqDecision exn.
Proof. solve_decision. Defined.

(** The outcome of a call that may throw. *)
Inductive outcome (A : Type) :=
| Returns (a : A)
| Throws (e : exn).
Arguments Returns {A} a.
Arguments Throws {A} e.

#[export] Instance outcome_ret : MRet outcome := @Returns.
#[export] Instance outcome_bind : MBind outcome := fun A B f x =>
  match x with Returns a => f a | Throws e => Throws e end.

(** * folly::toAppend on integers *)

Class FollyConv := { toAppend_uint : Z -> string }.

Definition is_digit (c : Ascii.ascii) : bool :=
  let n := Ascii.N_of_ascii c in ((48 <=? n) && (n <=? 57))%N.

Fixpoint string_forallb (p : Ascii.ascii -> bool) (s : string) : bool :=
  match s with
  | EmptyString => true
  | String c s => p c && string_forallb p s
  end.

(** An unsigned integer is written as its non-empty sequence of decimal
    digits, and different integers are written differently. *)
Class FollyConvLaws `{FollyConv} := {
  toAppend_uint_digits n : 0 <= n -> string_forallb is_digit (toAppend_uint n) = true;
  toAppend_uint_nonempty n : 0 <= n -> toAppend_uint n <> "";
  toAppend_uint_inj n m :
    0 <= n -> 0 <= m -> toAppend_uint n = toAppend_uint m -> n = m
}.

(** * boost::gregorian::date *)

Class Gregorian := {
  date : Type;
  from_simple_string : string -> outcome date;
  make_date : Z -> Z -> Z -> outcome date;   (* year, month, day *)
  date_year : date -> Z;
  date_month : date -> Z;
  date_day : date -> Z;
  day_of_year : date -> Z
}.

(** Boost's documented ranges, and that a date built from its three parts
    has these parts. *)
Class GregorianLaws `{Gregorian} := {
  date_year_range d : 1400 <= date_year d <= 9999;
  date_month_range d : 1 <= date_month d <= 12;
  date_day_range d : 1 <= date_day d <= 31;
  day_of_year_range d : 1 <= day_of_year d <= 366;
  make_date_year y m d dt : make_date y m d = Returns dt -> date_year dt = y
}.

(** * Concrete instances *)

#[export] Instance pretty_conv : FollyConv := { toAppend_uint n := pretty (Z.to_N n) }.

Lemma pretty_N_char_digit x : is_digit (pretty_N_char x) = true.
Proof.
  unfold pretty_N_char. repeat case_match; reflexivity.
Qed.

Lemma pretty_N_go_digits x s :
  string_forallb is_digit s = true ->
  string_forallb is_digit (pretty_N_go x s) = true.
Proof.
  revert s. induction (N.lt_wf_0 x) as [x _ IH]; intros s Hs.
  destruct (decide (x = 0)%N) as [->|]; [by rewrite pretty_N_go_0|].
  rewrite pretty_N_go_step by lia. apply IH; [by apply N.div_lt; lia|].
  cbn -[is_digit]. by rewrite pretty_N_char_digit.
Qed.

Lemma pretty_N_go_nonempty x s : s <> "" -> pretty_N_go x s <> "".
Proof.
  revert s. induction (N.lt_wf_0 x) as [x _ IH]; intros s Hs.
  destruct (decide (x = 0)%N) as [->|]; [by rewrite pretty_N_go_0|].
  rewrite pretty_N_go_step by lia. apply IH; [by apply N.div_lt; lia|done].
Qed.

#[export] Instance pretty_conv_laws : FollyConvLaws.
Proof.
  split; unfold toAppend_uint, pretty_conv.
  - intros n _. unfold pretty, pretty_N. case_decide; [done|].
    by apply pretty_N_go_digits.
  - intros n _. unfold pretty, pretty_N. case_decide; [done|].
    rewrite pretty_N_go_step by lia. by apply pretty_N_go_nonempty.
  - intros n m Hn Hm Heq%(inj pretty). lia.
Qed.

(** A calendar of (year, month, day) triples. *)
Module Calendar.

Definition leap (y : Z) : bool :=
  (y `mod` 4 =? 0) && (negb (y `mod` 100 =? 0) || (y `mod` 400 =? 0)).

Definition month_lengths (y : Z) : list Z :=
  [31; if leap y then 29 else 28; 31; 30; 31; 30; 31; 31; 30; 31; 30; 31].

Definition month_length (y m : Z) : Z :=
  nth (Z.to_nat (m - 1)) (month_lengths y) 0.

Definition valid (y m d : Z) : bool :=
  (1400 <=? y) && (y <=? 9999) && (1 <=? m) && (m <=? 12)
  && (1 <=? d) && (d <=? 31) && (d <=? month_length y m).

Definition ymd : Type := { t : Z * Z * Z | Is_true (valid t.1.1 t.1.2 t.2) }.

Definition make (y m d : Z) : outcome ymd :=
  match decide (Is_true (valid y m d)) with
  | left H => Returns (exist _ (y, m, d) H)
  | right _ => Throws out_of_range
  end.

(** "YYYY-MM-DD" with one digit per position. *)
Definition digit (c : Ascii.ascii) : Z := Z.of_N (Ascii.N_of_ascii c) - 48.
Definition parse (s : string) : outcome ymd :=
  match s with
  | String a (String b (String c (String e (String _ (String f (String g
      (String _ (String h (String i EmptyString))))))))) =>
      make (1000 * digit a + 100 * digit b + 10 * digit c + digit e)
           (10 * digit f + digit g) (10 * digit h + digit i)
  | _ => Throws other_exception
  end.

Definition doy (t : ymd) : Z :=
  let '(y, m, d) := proj1_sig t in
  Z.min 366 (fold_right Z.add d (take (Z.to_nat (m - 1)) (month_lengths y))).

End Calendar.

#[export] Instance calendar : Gregorian := {
  date := Calendar.ymd;
  from_simple_string := Calendar.parse;
  make_date := Calendar.make;
  date_year t := (proj1_sig t).1.1;
  date_month t := (proj1_sig t).1.2;
  date_day t := (proj1_sig t).2;
  day_of_year := Calendar.doy
}.

Lemma calendar_valid (t : Calendar.ymd) :
  1400 <= (proj1_sig t).1.1 <= 9999 /\ 1 <= (proj1_sig t).1.2 <= 12
  /\ 1 <= (proj1_sig t).2 <= 31.
Proof.
  destruct t as [[[y m] d] H]. cbn in *. unfold Calendar.valid in H.
  rewrite !andb_True, !Is_true_true, !Z.leb_le in H. lia.
Qed.

Lemma fold_add_nonneg l d :
  Forall (fun x => 0 <= x) l -> d <= fold_right Z.add d l.
Proof. induction 1; cbn; lia. Qed.

#[export] Instance calendar_laws : GregorianLaws.
Proof.
  split; cbn.
  - intros t. apply (calendar_valid t).
  - intros t. apply (calendar_valid t).
  - intros t. apply (calendar_valid t).
  - intros t. pose proof (calendar_valid t) as Hv. revert Hv. unfold Calendar.doy.
    destruct t as [[[y m] d] H]. cbn [proj1_sig fst snd]. intros Hv.
    pose proof (fold_add_nonneg (take (Z.to_nat (m - 1)) (Calendar.month_lengths y)) d) as Hf.
    assert (Forall (fun x => 0 <= x) (Calendar.month_lengths y)) as Hall.
    { unfold Calendar.month_lengths. repeat constructor; try lia. by destruct (Calendar.leap y). }
    specialize (Hf (Forall_take _ _ _ Hall)). lia.
  - intros y m d dt. unfold Calendar.make. case_decide; [|done]. by intros [= <-].
Qed.
