(* ===== verification/Topics.v ===== *)
(** [Topic]: the kinds of entity the data store holds, and their external
    names (source/datastore/Topics.h and Topics.cpp). *)

From S2P Require Import Prelude.
#[local] Open Scope Z_scope.

Inductive Topic :=
| Metamorphosis_Station
| Metamorphosis_Linuep
| Metamorphosis_Image
| Metamorphosis_Person
| Metamorphosis_Program_TmsId
| Metamorphosis_Affiliation
| Metamorphosis_Market
| Metamorphosis_Schedule_Day
| Metamorphosis_Provider
| Metamorphosis_Headend
| Metamorphosis_Rating_Body
| Metamorphosis_Rating_Value
| Metamorphosis_Animation
| Metamorphosis_Award_Type
| Metamorphosis_Award_Body
| Metamorphosis_Genre
| Metamorphosis_Production_Company
| Metamorphosis_Advisory
| Metamorphosis_Holiday
| Metamorphosis_Playoff
| Metamorphosis_Team
| Metamorphosis_Venue
| Metamorphosis_Warning
| Metamorphosis_Conference
| Metamorphosis_University.

#[export] Instance Topic_eq_dec : EqDecision Topic.
Proof. solve_decision. Defined.

(** The enumerators in order; the underlying [size_t] is the position. *)
Definition all_topics : list Topic :=
  [ Metamorphosis_Station; Metamorphosis_Linuep; Metamorphosis_Image;
    Metamorphosis_Person; Metamorphosis_Program_TmsId; Metamorphosis_Affiliation;
    Metamorphosis_Market; Metamorphosis_Schedule_Day; Metamorphosis_Provider;
    Metamorphosis_Headend; Metamorphosis_Rating_Body; Metamorphosis_Rating_Value;
    Metamorphosis_Animation; Metamorphosis_Award_Type; Metamorphosis_Award_Body;
    Metamorphosis_Genre; Metamorphosis_Production_Company; Metamorphosis_Advisory;
    Metamorphosis_Holiday; Metamorphosis_Playoff; Metamorphosis_Team;
    Metamorphosis_Venue; Metamorphosis_Warning; Metamorphosis_Conference;
    Metamorphosis_University ].

Definition topic_value (t : Topic) : Z :=
  match list_find (eq t) all_topics with Some (i, _) => Z.of_nat i | None => 0 end.

(** [TopicConversion::toChar] *)
Definition toChar (t : Topic) : string :=
  match t with
  | Metamorphosis_Station => "metamorphosis.station"
  | Metamorphosis_Linuep => "metamorphosis.lineup"
  | Metamorphosis_Image => "metamorphosis.image"
  | Metamorphosis_Person => "metamorphosis.person"
  | Metamorphosis_Program_TmsId => "metamorphosis.program.tmsId"
  | Metamorphosis_Affiliation => "metamorphosis.affiliation"
  | Metamorphosis_Market => "metamorphosis.market"
  | Metamorphosis_Schedule_Day => "metamorphosis.schedule.day"
  | Metamorphosis_Provider => "metamorphosis.provider"
  | Metamorphosis_Headend => "metamorphosis.headend"
  | Metamorphosis_Rating_Body => "metamorphosis.rating.body"
  | Metamorphosis_Rating_Value => "metamorphosis.rating.value"
  | Metamorphosis_Animation => "metamorphosis.animation"
  | Metamorphosis_Award_Type => "metamorphosis.award.type"
  | Metamorphosis_Award_Body => "metamorphosis.award.body"
  | Metamorphosis_Genre => "metamorphosis.genre"
  | Metamorphosis_Production_Company => "metamorphosis.production.company"
  | Metamorphosis_Advisory => "metamorphosis.advisory"
  | Metamorphosis_Holiday => "metamorphosis.holiday"
  | Metamorphosis_Playoff => "metamorphosis.playoff"
  | Metamorphosis_Team => "metamorphosis.team"
  | Metamorphosis_Venue => "metamorphosis.venue"
  | Metamorphosis_Warning => "metamorphosis.warning"
  | Metamorphosis_Conference => "metamorphosis.conference"
  | Metamorphosis_University => "metamorphosis.university"
  end.

(** [operator<<] on a stream, here the text written so far. *)
Definition ostream_topic (os : string) (t : Topic) : string := os +:+ toChar t.

(** [folly::FormatValue<Topic>::format]: what a "{}" placeholder becomes. *)
Definition format_topic (t : Topic) : string := toChar t.

(** The inverse of [toChar], for reading a topic back from its name. *)
Definition topic_of_name (s : string) : option Topic :=
  snd <$> list_find (fun t => toChar t = s) all_topics.

Lemma topic_of_name_toChar t : topic_of_name (toChar t) = Some t.
Proof. by destruct t. Qed.

#[export] Instance toChar_inj : Inj (=) (=) toChar.
Proof. intros t t' H. apply (inj Some). by rewrite <- !topic_of_name_toChar, H. Qed.

#[export] Instance topic_value_inj : Inj (=) (=) topic_value.
Proof.
  assert (forall t, all_topics !! Z.to_nat (topic_value t) = Some t) as Hl by by intros [].
  intros t t' H. apply (inj Some). by rewrite <- !Hl, H.
Qed.

Lemma topic_value_nonneg t : 0 <= topic_value t.
Proof. by destruct t. Qed.
