(* ===== verification/ScheduleDay.v ===== *)
(** [ScheduleDay]: the packed 64-bit identifier of a station's schedule for
    one day (source/datastore/ScheduleDay.h and ScheduleDay.cpp). *)

From S2P Require Import Prelude External.
#[local] Open Scope Z_scope.

Definition mPackWidth : Z := 21.
Definition mPackedMask : Z := 0xFFFFF.

Module ScheduleDay.

Record t := Make { mId : Z }.

(** ** Accessors *)

Definition stationId (o : t) : Z := u32 (mId o .& mPackedMask).
Definition day (o : t) : Z := u32 ((mId o ≫ (mPackWidth * 2)) .& mPackedMask).
Definition year (o : t) : Z := u32 ((mId o ≫ mPackWidth) .& mPackedMask).
Definition id (o : t) : Z := mId o.
Definition isValid (o : t) : bool := negb (mId o =? 0).

(** ** The three [create] overloads *)

(** [val = (val & ~(mask << sh)) | ((uint64_t)field << sh)] *)
Definition set_field (sh val field : Z) : Z :=
  (val .& ~64 (u64 (mPackedMask ≪ sh))) .| u64 (u64 field ≪ sh).

Definition create_day_year (station day year : Z) : Z :=
  let val := u64 station .& mPackedMask in
  let val := set_field (mPackWidth * 2) val day in
  set_field mPackWidth val year.

Section with_dates.
Context `{Gregorian}.

(** [catch(...)]: whatever is thrown, the id is 0. *)
Definition create_date_string (station : Z) (s : string) : Z :=
  match from_simple_string s with
  | Returns d => 
      let val := u64 station .& mPackedMask in
      let val := set_field (mPackWidth * 2) val (day_of_year d) in
      set_field mPackWidth val (date_year d)
  | Throws _ => 0
  end.

(** [catch (std::out_of_range&)]: any other exception escapes. *)
Definition create_day_month_year (station day month year : Z) : outcome Z :=
  match make_date year month day with
  | Returns d =>
      let val := u64 station .& mPackedMask in
      let val := set_field (mPackWidth * 2) val (day_of_year d) in
      Returns (set_field mPackWidth val year)
  | Throws out_of_range => Returns 0
  | Throws e => Throws e
  end.

(** ** Constructors *)

Definition of_date_string (station : Z) (s : string) : t :=
  Make (create_date_string station s).
Definition of_day_month_year (station day month year : Z) : outcome t :=
  match create_day_month_year station day month year with
  | Returns v => Returns (Make v)
  | Throws e => Throws e
  end.

(** [formatDay]: year-month-day without leading zeros, appended to the buffer. *)
Definition formatDay `{FollyConv} (d : date) (buffer : string) : string :=
  buffer +:+ toAppend_uint (u16 (date_year d)) +:+ "-" +:+
    toAppend_uint (u16 (date_month d)) +:+ "-" +:+ toAppend_uint (u16 (date_day d)).

End with_dates.

Definition of_day_year (station day year : Z) : t := Make (create_day_year station day year).
Definition of_id (compoundId : Z) : t := Make compoundId.

(** ** What is packed *)

Lemma mask_ones : mPackedMask = Z.ones 20.
Proof. reflexivity. Qed.

Lemma create_in_width s d y :
  in_width 32 s -> in_width 32 d -> in_width 32 y ->
  in_width 64 (create_day_year s d y).
Proof.
  intros Hs Hd Hy. apply in_width_wrap; [done|].
  rewrite <- (wrap_small 32 s), <- (wrap_small 32 d), <- (wrap_small 32 y) by done.
  unfold create_day_year, set_field, mPackWidth. rewrite mask_ones. bitwise.
Qed.

(** What the masks and shifts amount to for every 32-bit argument: the
    station and the year are cut to 20 bits, and the bits of a year from 21 on
    are or'ed into the day. *)
Lemma fields_of_create s d y :
  in_width 32 s -> in_width 32 d -> in_width 32 y ->
  let o := of_day_year s d y in
  stationId o = wrap 20 s /\ year o = wrap 20 y /\
  day o = wrap 20 (d .| (y ≫ 21)).
Proof.
  intros Hs Hd Hy o. subst o.
  rewrite <- (wrap_small 32 s), <- (wrap_small 32 d), <- (wrap_small 32 y) by done.
  unfold stationId, day, year, of_day_year, create_day_year, set_field, mPackWidth; cbn [mId].
  rewrite mask_ones. split; [|split]; bitwise.
Qed.

Lemma fields_of_small s d y :
  in_width 20 s -> in_width 20 d -> in_width 20 y ->
  let o := of_day_year s d y in
  stationId o = s /\ year o = y /\ day o = d.
Proof.
  intros Hs Hd Hy o. subst o.
  destruct (fields_of_create s d y) as (-> & -> & ->); [width..|].
  rewrite Z.shiftr_div_pow2, (Z.div_small y) by (done || (destruct Hy; lia)).
  by rewrite Z.lor_0_r, !wrap_small.
Qed.

(** The field range of a date that Boost accepts. *)
Lemma date_fields_small `{GregorianLaws} d :
  in_width 20 (day_of_year d) /\ in_width 20 (date_year d).
Proof.
  pose proof (day_of_year_range d). pose proof (date_year_range d).
  unfold in_width. lia.
Qed.

Lemma isValid_of_day o : day o <> 0 -> isValid o = true.
Proof.
  unfold isValid, day. destruct (Z.eqb_spec (mId o) 0) as [->|]; [|done].
  by rewrite Z.shiftr_0_l.
Qed.

(** ** Properties *)

(** Packing station, day and year below 2^20 and reading the three
    accessors gives back what was packed, the id fits 64 bits, and two
    different triples never share an id. *)
Theorem create_roundtrip s d y :
  in_width 20 s -> in_width 20 d -> in_width 20 y ->
  let o := of_day_year s d y in
  (stationId o = s /\ day o = d /\ year o = y) /\ in_width 64 (id o) /\
  forall s' d' y', in_width 20 s' -> in_width 20 d' -> in_width 20 y' ->
    create_day_year s' d' y' = id o -> s' = s /\ d' = d /\ y' = y.
Proof.
  intros Hs Hd Hy o. subst o.
  destruct (fields_of_small s d y) as (Es & Ey & Ed); [done..|].
  split; [done|]. split.
  { apply create_in_width; width. }
  intros s' d' y' Hs' Hd' Hy' Heq.
  destruct (fields_of_small s' d' y') as (Es' & Ey' & Ed'); [done..|].
  assert (of_day_year s' d' y' = of_day_year s d y) as E by (unfold of_day_year; by f_equal).
  rewrite E in Es', Ey', Ed'. repeat split; congruence.
Qed.

Lemma create_roundtrip_witness :
  stationId (of_day_year 10003 129 2016) = 10003 /\ day (of_day_year 10003 129 2016) = 129.
Proof.
  destruct (create_roundtrip 10003 129 2016) as [(H1 & H2 & _) _];
    [width..|]. by split.
Defined.

(** the exact fields of an id for arbitrary 32-bit arguments: station and
    year are silently reduced modulo 2^20, and a year of 2^21 or more corrupts
    the day, because only the station is masked when the id is packed. *)
Theorem create_fields_exact s d y :
  in_width 32 s -> in_width 32 d -> in_width 32 y ->
  let o := of_day_year s d y in
  stationId o = wrap 20 s /\ year o = wrap 20 y /\
  day o = wrap 20 (d .| (y ≫ 21)).
Proof. apply fields_of_create. Qed.

Lemma create_fields_exact_witness :
  let o := of_day_year (2 ^ 20 + 5) 0 (2 ^ 21) in
  stationId o = 5 /\ year o = 0 /\ day o = 1.
Proof.
  destruct (create_fields_exact (2 ^ 20 + 5) 0 (2 ^ 21)) as (H1 & H2 & H3);
    [width..|]. repeat split; assumption.
Defined.

(** both calendar overloads, on every branch. A date Boost accepts gives a
    valid id whose accessors are the station, the day of the year and the
    year; a date it rejects gives the invalid id 0, except that the
    day/month/year overload lets an exception other than out_of_range escape. *)
Theorem create_from_calendar `{GregorianLaws} s str d m y :
  in_width 20 s ->
  (forall dt, from_simple_string str = Returns dt ->
     let o := of_date_string s str in
     isValid o = true /\ stationId o = s /\ day o = day_of_year dt /\ year o = date_year dt) /\
  (forall e, from_simple_string str = Throws e ->
     isValid (of_date_string s str) = false) /\
  (forall dt, make_date y m d = Returns dt -> exists o,
     of_day_month_year s d m y = Returns o /\
     isValid o = true /\ stationId o = s /\ day o = day_of_year dt /\ year o = y) /\
  (forall e, make_date y m d = Throws e ->
     of_day_month_year s d m y =
       if decide (e = out_of_range) then Returns (Make 0) else Throws e).
Proof.
  intros Hs.
  assert (forall dt, let o := of_day_year s (day_of_year dt) (date_year dt) in
    isValid o = true /\ stationId o = s /\ day o = day_of_year dt /\ year o = date_year dt) as Hok.
  { intros dt. destruct (date_fields_small dt) as [Hd Hy].
    destruct (fields_of_small s (day_of_year dt) (date_year dt)) as (? & ? & Ed); [done..|].
    split; [|done]. apply isValid_of_day. rewrite Ed. pose proof (day_of_year_range dt). lia. }
  split; [|split; [|split]].
  - intros dt E. unfold of_date_string, create_date_string. rewrite E. apply (Hok dt).
  - intros e E. unfold of_date_string, create_date_string. by rewrite E.
  - intros dt E. eexists. unfold of_day_month_year, create_day_month_year. rewrite E.
    split; [done|]. rewrite <- (make_date_year _ _ _ _ E). apply (Hok dt).
  - intros e E. unfold of_day_month_year, create_day_month_year. rewrite E. by destruct e.
Qed.

Lemma create_from_calendar_witness :
  day (of_date_string 10003 "2016-05-08") = 129 /\
  isValid (of_date_string 10003 "2016-55-24") = false.
Proof.
  destruct (create_from_calendar 10003 "2016-05-08" 8 5 2016) as (Ha & _); [width|].
  destruct (create_from_calendar 10003 "2016-55-24" 24 55 2016) as (_ & Hb & _); [width|].
  split.
  - apply (Ha (exist _ (2016, 5, 8) I)). reflexivity.
  - apply (Hb out_of_range). reflexivity.
Defined.

End ScheduleDay.
