(* ===== verification/ConnectionInfo.v ===== *)
(** [DatastoreConnectionInfo]: the connection strings read from the
    configuration and their round-robin use
    (source/datastore/DatastoreConnectionInfo.h and .cpp). *)

From S2P Require Import Prelude External.
#[local] Open Scope Z_scope.
#[local] Set Warnings "-register-all".

(** The part of folly::dynamic the constructor uses. [dyn_index] is the
    non-const [operator[]], which reads null for a key an object lacks and
    throws on anything that is not an object. *)
Class Dynamic := {
  dynamic : Type;
  dyn_index : dynamic -> string -> outcome dynamic;
  dyn_is_null : dynamic -> bool;
  dyn_items : dynamic -> outcome (list dynamic);
  dyn_asString : dynamic -> outcome string;
  dyn_asInt : dynamic -> outcome Z
}.

Module DatastoreConnectionInfo.

Record t := Make {
  mDefaultFetchSize : Z;
  mConnectionStrings : list string;
  mLastUri : Z
}.

Definition mEmpty : string := "".

Section ctor.
Context `{Dynamic}.

(** [for (auto &val : config["database"]["connections"]) push_back(val["uri"].asString())] *)
Fixpoint push_uris (vals : list dynamic) (acc : list string) : outcome (list string) :=
  match vals with
  | [] => Returns acc
  | val :: vals =>
      u ← dyn_index val "uri";
      s ← dyn_asString u;
      push_uris vals (acc ++ [s])
  end.

Definition construct (config : dynamic) : outcome t :=
  database ← dyn_index config "database";
  if dyn_is_null database then Returns (Make 500 [] 0)
  else
    connections ← dyn_index database "connections";
    uris ← (if dyn_is_null connections then Returns []
            else vals ← dyn_items connections; push_uris vals []);
    fetchSize ← dyn_index database "fetchSize";
    size ← (if dyn_is_null fetchSize then Returns 500
            else n ← dyn_asInt fetchSize; Returns (u64 n));
    Returns (Make size uris 0).
End ctor.

Definition getDefaultFetchSize (o : t) : Z := mDefaultFetchSize o.
Definition size (o : t) : Z := Z.of_nat (length (mConnectionStrings o)).

(** [getNextUri]; [None] is the out-of-range subscript. *)
Definition getNextUri (o : t) : option (string * t) :=
  match mConnectionStrings o with
  | [] => Some (mEmpty, o)
  | _ =>
      let last := u64 (mLastUri o + 1) in
      let last := if last =? size o then 0 else last in
      uri ← mConnectionStrings o !! Z.to_nat last;
      Some (uri, Make (mDefaultFetchSize o) (mConnectionStrings o) last)
  end.

(** [k] calls of [getNextUri], and what they returned. *)
Fixpoint nextUris (k : nat) (o : t) : option (list string * t) :=
  match k with
  | O => Some ([], o)
  | S k =>
      '(u, o) ← getNextUri o;
      '(us, o) ← nextUris k o;
      Some (u :: us, o)
  end.

(** ** Round robin *)

Definition wf (o : t) : Prop :=
  0 <= mLastUri o < Z.max 1 (size o) /\ size o < 2 ^ 64.

Definition at_index (o : t) (i : Z) : t :=
  Make (mDefaultFetchSize o) (mConnectionStrings o) i.

Lemma construct_wf `{Dynamic} config o :
  construct config = Returns o -> size o < 2 ^ 64 -> wf o /\ mLastUri o = 0.
Proof.
  intros Hc Hs. enough (mLastUri o = 0) by (unfold wf; lia).
  unfold construct, mbind, outcome_bind in Hc. repeat case_match; simplify_eq; done.
Qed.

Lemma getNextUri_step o :
  wf o -> 0 < size o -> exists u,
    mConnectionStrings o !! Z.to_nat ((mLastUri o + 1) `mod` size o) = Some u /\
    getNextUri o = Some (u, at_index o ((mLastUri o + 1) `mod` size o)) /\
    wf (at_index o ((mLastUri o + 1) `mod` size o)).
Proof.
  intros [Hr Hs] Hpos.
  assert (0 <= (mLastUri o + 1) `mod` size o < size o) as Hb by (apply Z.mod_pos_bound; lia).
  destruct (lookup_lt_is_Some_2 (mConnectionStrings o)
    (Z.to_nat ((mLastUri o + 1) `mod` size o))) as [u Hu].
  { unfold size in *. lia. }
  exists u. split; [done|]. split; [|unfold wf, size, at_index in *; cbn; lia].
  assert ((if u64 (mLastUri o + 1) =? size o then 0 else u64 (mLastUri o + 1))
    = (mLastUri o + 1) `mod` size o) as Hidx.
  { rewrite wrap_small by (unfold in_width; lia).
    destruct (Z.eqb_spec (mLastUri o + 1) (size o)) as [->|].
    - by rewrite Z_mod_same_full.
    - rewrite Z.mod_small; lia. }
  unfold getNextUri. destruct (mConnectionStrings o) as [|a l] eqn:E.
  { unfold size in Hpos. rewrite E in Hpos. cbn in Hpos. lia. }
  rewrite Hidx, Hu. cbn. unfold at_index. by rewrite E.
Qed.

Lemma nextUris_spec k o :
  wf o -> 0 < size o -> exists us o',
    nextUris k o = Some (us, o') /\ length us = k /\
    (forall i, (i < k)%nat ->
      us !! i = mConnectionStrings o !! Z.to_nat ((mLastUri o + 1 + Z.of_nat i) `mod` size o)).
Proof.
  revert o. induction k as [|k IH]; intros o Hwf Hpos.
  { exists [], o. split; [done|]. split; [done|]. lia. }
  destruct (getNextUri_step o) as (u & Hu & Hstep & Hwf'); [done..|].
  destruct (IH _ Hwf') as (us & o' & Hus & Hlen & Hall); [done|].
  exists (u :: us), o'. cbn. rewrite Hstep. cbn. rewrite Hus. cbn.
  split; [done|]. split; [by f_equal|]. intros [|i] Hi.
  - cbn. rewrite Z.add_0_r. by symmetry.
  - cbn -[Z.of_nat]. rewrite Hall by lia. unfold at_index, size in *; cbn.
    do 2 f_equal. rewrite <- Zplus_assoc, Zplus_mod_idemp_l. f_equal. lia.
Qed.

(** the connection strings are handed out round robin. On an object just
    built from the configuration, the i-th call returns the string at position
    i modulo their number, counting from 1, no call is out of range, and any
    [size] first calls return each string once. *)
Theorem getNextUri_round_robin `{D : Dynamic} config o k :
  construct config = Returns o -> 0 < size o < 2 ^ 64 ->
  exists us o', nextUris k o = Some (us, o') /\ length us = k /\
    (forall i, (i < k)%nat ->
       us !! i = mConnectionStrings o !! Z.to_nat ((1 + Z.of_nat i) `mod` size o)) /\
    (k = length (mConnectionStrings o) -> us ≡ₚ mConnectionStrings o).
Proof.
  intros Hc Hs. destruct (construct_wf config o Hc) as [Hwf H0]; [lia|].
  destruct (nextUris_spec k o Hwf) as (us & o' & Hus & Hlen & Hall); [lia|].
  exists us, o'. rewrite H0 in Hall. split; [done|]. split; [done|]. split; [done|].
  intros ->. destruct (mConnectionStrings o) as [|a l] eqn:E; [unfold size in Hs; rewrite E in Hs; cbn in Hs; lia|].
  assert (size o = Z.of_nat (S (length l))) as Hsz by (unfold size; by rewrite E).
  enough (us = l ++ [a]) as -> by by rewrite Permutation_app_comm.
  apply (list_eq_same_length _ _ (S (length l))); [by rewrite length_app; cbn; lia|done|].
  intros i x y Hi Hx Hy. rewrite Hall, Hsz in Hx by done.
  destruct (decide (i = length l)) as [->|].
  - rewrite list_lookup_middle in Hy by done. simplify_eq.
    replace (0 + 1 + Z.of_nat (length l)) with (Z.of_nat (S (length l))) in Hx by lia.
    rewrite Z_mod_same_full in Hx.
    change (Some y = Some x) in Hx. congruence.
  - rewrite lookup_app_l in Hy by lia. rewrite Z.mod_small in Hx by lia.
    replace (Z.to_nat (0 + 1 + Z.of_nat i)) with (S i) in Hx by lia. change (l !! i = Some x) in Hx. congruence.
Qed.

(** A configuration as the repository's tool reads it: objects, arrays,
    strings and integers. *)
Inductive json := JNull | JInt (n : Z) | JString (s : string)
  | JArray (l : list json) | JObject (l : list (string * json)).

#[export] Instance json_dynamic : Dynamic := {
  dynamic := json;
  dyn_index j k :=
    match j with
    | JObject l => Returns (default JNull (snd <$> (list_find (fun p => p.1 = k) l ≫= fun q => Some q.2)))
    | _ => Throws type_error
    end;
  dyn_is_null j := match j with JNull => true | _ => false end;
  dyn_items j := match j with JArray l => Returns l | _ => Throws type_error end;
  dyn_asString j := match j with JString s => Returns s | _ => Throws type_error end;
  dyn_asInt j := match j with JInt n => Returns n | _ => Throws type_error end
}.

Definition example_config : json :=
  JObject [("database", JObject
    [("connections", JArray (map (fun u => JObject [("uri", JString u)]) ["a"; "b"; "c"]));
     ("fetchSize", JInt 100)])].

Lemma getNextUri_round_robin_witness :
  exists us o', nextUris 3 (Make 100 ["a"; "b"; "c"] 0) = Some (us, o') /\ us ≡ₚ ["a"; "b"; "c"].
Proof.
  destruct (getNextUri_round_robin (D := json_dynamic) example_config (Make 100 ["a"; "b"; "c"] 0) 3)
    as (us & o' & H1 & H2 & H3 & H4); [reflexivity|by split|].
  exists us, o'. split; [exact H1|exact (H4 eq_refl)].
Defined.

End DatastoreConnectionInfo.
