(* ===== verification/Timers.v ===== *)
(** [SleepTimer], the back-off timer, and [StopTimer], the stop watch
    (source/utils/SleepTimer.h, SleepTimer.cpp and StopTimer.h). *)

From S2P Require Import Prelude.
#[local] Open Scope Z_scope.

Module SleepTimer.

Record t := Make { mIntervals : list Z; mOffset : Z }.

Definition construct (intervals : list Z) : t := Make intervals 0.

(** One [sleep]: the number of seconds slept and the new state; [None] is the
    subscript out of range. The bound [size() - 1] is computed in [size_t]. *)
Definition sleep (o : t) : option (Z * t) :=
  d ← mIntervals o !! Z.to_nat (mOffset o);
  let n := Z.of_nat (length (mIntervals o)) in
  Some (d, Make (mIntervals o)
             (if mOffset o <? u64 (n - 1) then u64 (mOffset o + 1) else mOffset o)).

Definition reset (o : t) : t := Make (mIntervals o) 0.

Fixpoint sleeps (k : nat) (o : t) : option (list Z * t) :=
  match k with
  | O => Some ([], o)
  | S k => '(d, o) ← sleep o; '(ds, o) ← sleeps k o; Some (d :: ds, o)
  end.

Lemma sleep_at l i :
  (0 < length l)%nat -> Z.of_nat (length l) < 2 ^ 64 -> (i < length l)%nat ->
  exists d, l !! i = Some d /\
    sleep (Make l (Z.of_nat i)) = Some (d, Make l (Z.of_nat (S i `min` (length l - 1)))).
Proof.
  intros Hl Hs Hi. destruct (lookup_lt_is_Some_2 l i Hi) as [d Hd].
  exists d. split; [done|]. unfold sleep. cbn [mIntervals mOffset].
  rewrite Nat2Z.id, Hd. cbn -[Z.of_nat]. rewrite (wrap_small 64 (Z.of_nat (length l) - 1)) by width.
  do 3 f_equal. destruct (Z.ltb_spec (Z.of_nat i) (Z.of_nat (length l) - 1)).
  - rewrite wrap_small by width. lia.
  - lia.
Qed.

Lemma sleeps_from l k i :
  (0 < length l)%nat -> Z.of_nat (length l) < 2 ^ 64 -> (i < length l)%nat ->
  exists ds, sleeps k (Make l (Z.of_nat i)) =
      Some (ds, Make l (Z.of_nat ((i + k) `min` (length l - 1)))) /\
    length ds = k /\
    (forall j, (j < k)%nat -> ds !! j = l !! ((i + j) `min` (length l - 1))%nat).
Proof.
  intros Hl Hs. revert i. induction k as [|k IH]; intros i Hi.
  { exists []. cbn. split; [|split; [done|lia]]. do 3 f_equal. lia. }
  destruct (sleep_at l i) as (d & Hd & Hstep); [done..|].
  destruct (IH (S i `min` (length l - 1))%nat) as (ds & Hds & Hlen & Hall); [lia|].
  exists (d :: ds). cbn -[Z.of_nat]. rewrite Hstep. cbn -[Z.of_nat]. rewrite Hds. cbn -[Z.of_nat].
  split; [do 3 f_equal; lia|]. split; [by f_equal|].
  intros [|j] Hj; cbn.
  - rewrite Nat.add_0_r, Nat.min_l by lia. by symmetry.
  - rewrite Hall by lia. f_equal. lia.
Qed.

(** the back-off schedule. For a non-empty list of intervals no call reads
    out of range; the j-th sleep after construction or a reset waits
    intervals[j], and every sleep past the end waits the last interval. *)
Theorem sleep_backoff o k :
  mIntervals o <> [] -> Z.of_nat (length (mIntervals o)) < 2 ^ 64 ->
  exists ds o', sleeps k (reset o) = Some (ds, o') /\ length ds = k /\
    (forall j, (j < k)%nat -> ds !! j = mIntervals o !! (j `min` (length (mIntervals o) - 1))%nat) /\
    reset o' = construct (mIntervals o).
Proof.
  intros Hne Hs. assert (0 < length (mIntervals o))%nat as Hl.
  { destruct (mIntervals o); [done|cbn; lia]. }
  destruct (sleeps_from (mIntervals o) k 0) as (ds & Hds & Hlen & Hall); [done..|].
  by exists ds, (Make (mIntervals o) (Z.of_nat ((0 + k) `min` (length (mIntervals o) - 1)))).
Qed.

Lemma sleep_backoff_witness :
  exists ds o', sleeps 4 (construct [1; 5; 30]) = Some (ds, o') /\ ds !! 3%nat = Some 30.
Proof.
  destruct (sleep_backoff (construct [1; 5; 30]) 4) as (ds & o' & H1 & _ & H2 & _);
    [discriminate|reflexivity|].
  exists ds, o'. split; [exact H1|]. rewrite H2 by lia. reflexivity.
Defined.

End SleepTimer.

Module StopTimer.

(** The clock counts nanoseconds; a timer holds the reading at its last restart. *)
Record t := Make { mPrevValue : Z }.

Definition precision : Z := 1000000000.
Definition restart (now : Z) (_ : t) : t := Make now.
Definition construct (now : Z) : t := Make now.
Definition systemTime (now : Z) : Z := u64 (Z.quot now precision).
Definition elapsedTimeMilliseconds (now : Z) (o : t) : Z :=
  u64 (Z.quot (now - mPrevValue o) 1000000).

Lemma elapsed_after_restart o t0 t1 :
  t0 <= t1 -> t1 - t0 < 2 ^ 64 ->
  elapsedTimeMilliseconds t1 (restart t0 o) = (t1 - t0) / 1000000.
Proof.
  intros H0 H1. unfold elapsedTimeMilliseconds, restart. cbn.
  rewrite Z.quot_div_nonneg by lia. apply wrap_small.
  split; [apply Z.div_pos; lia|]. apply Z.div_lt_upper_bound; lia.
Qed.

End StopTimer.
