(* ===== verification/Message.v ===== *)
(** [PublicMsg] and its packed flags (source/pipeline/Message.h), and the
    packed metadata of a cache entry (source/memorystore/CacheEntry.h). Both
    are unions of a bit-field structure over [size_t], allocated from the least
    significant bit, with an integer. *)

From S2P Require Import Prelude.
#[local] Open Scope Z_scope.

Module PublicMsg.

Inductive PublicMsgType := Update | OpenRequest | CloseRequest | Terminate.

Definition type_value (t : PublicMsgType) : Z :=
  match t with Update => 0 | OpenRequest => 1 | CloseRequest => 2 | Terminate => 3 end.

(** The union's storage: the structure takes 37 of its 64 bits. *)
Record PublicMsgFlags := Flags { storage : Z }.

Definition get_destroy (f : PublicMsgFlags) : Z := get_bits 0 1 (storage f).
Definition get_type (f : PublicMsgFlags) : Z := get_bits 1 4 (storage f).
Definition get_id (f : PublicMsgFlags) : Z := get_bits 5 32 (storage f).
Definition set_destroy (v : Z) (f : PublicMsgFlags) := Flags (set_bits 0 1 v (storage f)).
Definition set_type (v : Z) (f : PublicMsgFlags) := Flags (set_bits 1 4 v (storage f)).
Definition set_id (v : Z) (f : PublicMsgFlags) := Flags (set_bits 5 32 v (storage f)).
(** [uint32_t value], the first four bytes of the storage. *)
Definition get_value (f : PublicMsgFlags) : Z := get_bits 0 32 (storage f).
Definition set_value (v : Z) (f : PublicMsgFlags) := Flags (set_bits 0 32 v (storage f)).

Record t := Make { flags : PublicMsgFlags; ptrData : Z }.

Definition shouldDestroy (m : t) : bool := get_destroy (flags m) =? 1.
Definition type (m : t) : Z := get_type (flags m).
Definition id (m : t) : Z := get_id (flags m).

Definition build (destroy : bool) (ty : PublicMsgType) (i : Z) (ptr : Z) : t :=
  Make (set_id i (set_type (type_value ty) (set_destroy (Z.b2z destroy) (Flags 0)))) ptr.

Ltac field :=
  unfold build, shouldDestroy, type, id, get_destroy, get_type, get_id, get_value,
    set_destroy, set_type, set_id, set_value; cbn [storage flags];
  repeat first [ rewrite get_set_bits_same by lia
               | rewrite get_set_bits_other by lia ].

(** the three flags are independent and read back as written (an id below
    2^32, every type and both values of [destroy]), but the union's 32-bit
    [value] does not hold them all: it determines only the low 27 bits of the
    id, so copying messages through [value] confuses ids that differ by 2^27. *)
Theorem flags_roundtrip d ty i ptr :
  in_width 32 i ->
  let m := build d ty i ptr in
  (shouldDestroy m = d /\ type m = type_value ty /\ id m = i) /\
  get_value (flags (build d ty (wrap 27 i) ptr)) = get_value (flags m) /\
  id (Make (set_value (get_value (flags m)) (Flags 0)) ptr) = wrap 27 i.
Proof.
  intros Hi m. subst m. split; [split; [|split]|split].
  - field. destruct d; reflexivity.
  - field. by destruct ty.
  - field. by apply wrap_small.
  - unfold build, get_value, set_id, set_type, set_destroy, get_bits, set_bits. cbn [storage flags].
    generalize (Z.b2z d) (type_value ty). intros dv tv. bitwise.
  - unfold build, id, get_id, set_value, get_value, set_id, set_type, set_destroy, get_bits, set_bits.
    cbn [storage flags]. generalize (Z.b2z d) (type_value ty). intros dv tv. bitwise.
Qed.

Lemma flags_roundtrip_witness :
  id (build true CloseRequest (2 ^ 27 + 9) 0) = 2 ^ 27 + 9 /\
  get_value (flags (build true CloseRequest (2 ^ 27 + 9) 0))
    = get_value (flags (build true CloseRequest 9 0)).
Proof.
  destruct (flags_roundtrip true CloseRequest (2 ^ 27 + 9) 0) as ((_ & _ & H1) & H2 & _);
    [width|]. split; [exact H1|]. rewrite <- H2. reflexivity.
Defined.

End PublicMsg.

Module CacheEntry.

(** [ttl] takes 48 bits of the metadata and [lockCount] the other 16. *)
Record t := Make { data : Z; meta : Z }.

Definition ttl (e : t) : Z := get_bits 0 48 (meta e).
Definition lockCount (e : t) : Z := get_bits 48 16 (meta e).
Definition locked (e : t) : bool := 0 <? lockCount e.
Definition lock (e : t) : t := Make (data e) (set_bits 48 16 (lockCount e + 1) (meta e)).
Definition unlock (e : t) : t := Make (data e) (set_bits 48 16 (lockCount e - 1) (meta e)).

Definition locks (k : nat) (e : t) : t := Nat.iter k lock e.
Definition unlocks (k : nat) (e : t) : t := Nat.iter k unlock e.

Definition shifted (d : Z) (e : t) : t := Make (data e) (set_bits 48 16 (lockCount e + d) (meta e)).

Lemma shifted_0 e : shifted 0 e = e.
Proof. destruct e. unfold shifted, lockCount. cbn. by rewrite Z.add_0_r, set_get_bits by lia. Qed.

Lemma lockCount_shifted d e : lockCount (shifted d e) = wrap 16 (lockCount e + d).
Proof. unfold lockCount at 1, shifted. cbn. by rewrite get_set_bits_same by lia. Qed.

Lemma shifted_shifted d d' e : shifted d' (shifted d e) = shifted (d + d') e.
Proof.
  unfold shifted at 1 3. rewrite lockCount_shifted. unfold shifted. cbn. f_equal.
  rewrite set_set_bits by lia. rewrite <- (set_bits_wrap _ _ (wrap 16 _ + _)), wrap_add_l by lia.
  by rewrite set_bits_wrap, Z.add_assoc by lia.
Qed.

Lemma locks_shifted k e : locks k e = shifted (Z.of_nat k) e.
Proof.
  induction k as [|k IH]; [by rewrite shifted_0|].
  change (locks (S k) e) with (shifted 1 (locks k e)). rewrite IH. rewrite shifted_shifted. f_equal. lia.
Qed.

Lemma unlocks_shifted k e : unlocks k e = shifted (- Z.of_nat k) e.
Proof.
  induction k as [|k IH]; [by rewrite shifted_0|].
  change (unlocks (S k) e) with (shifted (-1) (unlocks k e)). rewrite IH. rewrite shifted_shifted. f_equal. lia.
Qed.

(** locks nest: k locks followed by k unlocks restore the entry bit for
    bit, the count after k locks is the old count plus k modulo 2^16, and the
    time to live is never touched. Hence an unlocked entry is locked after k
    locks unless k is a multiple of 65536, where the count has wrapped. *)
Theorem lock_counting k e :
  unlocks k (locks k e) = e /\
  lockCount (locks k e) = wrap 16 (lockCount e + Z.of_nat k) /\
  ttl (locks k e) = ttl e /\ ttl (unlocks k e) = ttl e /\
  (lockCount e = 0 -> (locked (locks k e) = false <-> Z.of_nat k `mod` 65536 = 0)).
Proof.
  rewrite !unlocks_shifted, !locks_shifted, shifted_shifted, lockCount_shifted.
  rewrite Z.add_opp_diag_r, shifted_0. split; [done|]. split; [done|].
  split; [|split]; [unfold ttl, shifted; cbn; by rewrite get_set_bits_other by lia..|].
  intros H0. unfold locked. rewrite lockCount_shifted, H0.
  destruct (wrap_range 16 (0 + Z.of_nat k)) as [Hlo _]; [lia|].
  change (2 ^ 16) with 65536 in *. unfold wrap in *. rewrite Z.add_0_l in *.
  change (2 ^ 16) with 65536 in *.
  destruct (Z.ltb_spec 0 (Z.of_nat k `mod` 65536)); split; intros; try done; lia.
Qed.

End CacheEntry.
