(* ===== verification/GridCache.v ===== *)
(** [GridCache]: the per-station arrays of cache entries
    (source/memorystore/GridCache.h and GridCache.cpp).

    The C++ heap is modelled as far as the code depends on it: a
    [std::vector] object is its three pointers (begin, end, end of storage),
    24 bytes in this order, and its element buffer is another allocation. *)

From S2P Require Import Prelude.
#[local] Open Scope Z_scope.

Module GridCache.

Record vector := Vector { v_begin : Z; v_end : Z; v_cap : Z }.

Definition sizeof_vector : Z := 24.
Definition sizeof_CacheEntry : Z := 16.

Definition vector_size (v : vector) : Z := (v_end v - v_begin v) / sizeof_CacheEntry.

(** A pointer with the first [k] of its eight little-endian bytes cleared. *)
Definition clear_bytes (k p : Z) : Z :=
  let k := Z.max 0 (Z.min 8 k) in (p ≫ (8 * k)) ≪ (8 * k).

(** [memset(p, 0, n)] on a vector object at [p]. Beyond its 24 bytes the call
    writes outside the object: undefined behaviour, [None]. *)
Definition memset_vector (n : Z) (v : vector) : option vector :=
  if n <=? sizeof_vector then
    Some (Vector (clear_bytes n (v_begin v)) (clear_bytes (n - 8) (v_end v))
            (clear_bytes (n - 16) (v_cap v)))
  else None.

Record t := Make {
  mDaysBack : Z;
  mDaysForward : Z;
  mNumStations : Z;
  mCache : gmap Z Z;           (* station -> CacheEntryArray pointer *)
  vectors : gmap Z vector      (* the vector objects on the heap *)
}.

Definition construct (numberOfDaysBack numberOfDaysForward numberOfStations : Z) : t :=
  Make numberOfDaysBack numberOfDaysForward numberOfStations ∅ ∅.

(** Two allocations of [new CacheEntryArray(n)]: the vector object and its
    buffer. The allocator's answers are inputs. *)
Record allocation := Alloc { obj_at : Z; buf_at : Z }.

Definition new_vector (n : Z) (a : allocation) : vector :=
  let e := if n =? 0 then 0 else buf_at a + n * sizeof_CacheEntry in
  Vector (if n =? 0 then 0 else buf_at a) e e.

(** [array(station, createIfMissing)]: the pointer returned (0 for nullptr) and
    the new state. *)
Definition array (a : allocation) (station : Z) (createIfMissing : bool) (c : t) : option (Z * t) :=
  match mCache c !! station with
  | Some p => Some (p, c)
  | None =>
      if createIfMissing then
        let entry := new_vector (u64 (mDaysBack c * mDaysForward c)) a in
        (* memset(&entry[0], 0, entry->size()): [entry] is the pointer to the
           vector, so [&entry[0]] is the vector object itself *)
        entry ← memset_vector (vector_size entry) entry;
        Some (obj_at a,
              Make (mDaysBack c) (mDaysForward c) (mNumStations c)
                (<[station := obj_at a]> (mCache c)) (<[obj_at a := entry]> (vectors c)))
      else Some (0, c)
  end.

Lemma vector_size_new n a : 0 <= n -> vector_size (new_vector n a) = n.
Proof.
  intros Hn. unfold vector_size, new_vector, sizeof_CacheEntry. cbn.
  destruct (Z.eqb_spec n 0) as [->|]; [done|].
  replace (buf_at a + n * 16 - buf_at a) with (n * 16) by lia. by rewrite Z.div_mul.
Qed.

Lemma clear_all p : in_width 64 p -> clear_bytes 8 p = 0.
Proof.
  intros Hp. unfold clear_bytes. change (8 * Z.max 0 (Z.min 8 8)) with 64.
  rewrite Z.shiftr_div_pow2, Z.div_small by (done || apply Hp). apply Z.shiftl_0_l.
Qed.

Lemma clear_none k p : k <= 0 -> clear_bytes k p = p.
Proof.
  intros Hk. unfold clear_bytes. replace (Z.max 0 (Z.min 8 k)) with 0 by lia.
  by rewrite Z.shiftr_0_r, Z.shiftl_0_r.
Qed.

(** the cache lookup. A station that has an array keeps it: the call
    returns its pointer and changes nothing; without [createIfMissing] a missing
    station gives nullptr and changes nothing; and whenever a call returns with
    [createIfMissing], later calls for the station return the same pointer while
    all other stations are untouched. *)
Theorem array_lookup a a' st st' b b' c p c' :
  array a st b c = Some (p, c') ->
  (mCache c !! st = Some p -> c' = c) /\
  (mCache c !! st = None -> b = false -> p = 0 /\ c' = c) /\
  (b = true -> array a' st b' c' = Some (p, c')) /\
  (st' <> st -> mCache c' !! st' = mCache c !! st').
Proof.
  unfold array at 1. destruct (mCache c !! st) as [q|] eqn:E.
  { intros [= -> ->]. repeat split; intros; simplify_eq; try done.
    unfold array. by rewrite E. }
  destruct b; cbn.
  - destruct (memset_vector _ _) as [v|]; [|done]. cbn. intros [= <- <-].
    repeat split; intros; simplify_eq; cbn.
    + unfold array. cbn. by rewrite lookup_insert_eq.
    + by rewrite lookup_insert_ne.
  - intros [= <- <-]. repeat split; intros; by simplify_eq.
Qed.

Lemma array_lookup_witness :
  array (Alloc 64 128) 7 true
    (Make 1 0 10 {[7 := 64]} {[64 := Vector 0 0 0]})
  = Some (64, Make 1 0 10 {[7 := 64]} {[64 := Vector 0 0 0]}).
Proof.
  apply (array_lookup (Alloc 64 128) (Alloc 64 128) 7 8 true true (construct 1 0 10)
           64 (Make 1 0 10 {[7 := 64]} {[64 := Vector 0 0 0]})); [|reflexivity].
  vm_compute. reflexivity.
Defined.

(** creating an array destroys it. The memset meant for the new entries
    is applied to the vector object: with n = back * forward entries, creation
    is harmless only when n = 0; for 8 <= n <= 24 the vector's buffer pointer
    becomes null, so that its entries are lost, and for n > 24 the call writes
    past the object. *)
Theorem array_create_corrupts a st c :
  mCache c !! st = None -> 0 <= buf_at a -> 
  let n := u64 (mDaysBack c * mDaysForward c) in
  buf_at a + n * sizeof_CacheEntry < 2 ^ 64 ->
  (n = 0 -> exists c', array a st true c = Some (obj_at a, c') /\
     vectors c' !! obj_at a = Some (Vector 0 0 0)) /\
  (8 <= n <= 24 -> exists c' v, array a st true c = Some (obj_at a, c') /\
     vectors c' !! obj_at a = Some v /\ v_begin v = 0) /\
  (24 < n -> array a st true c = None).
Proof.
  intros Hm Hb n Hbuf. subst n.
  assert (0 <= u64 (mDaysBack c * mDaysForward c)) as Hn by (apply wrap_range; lia).
  unfold array. rewrite Hm, vector_size_new by done.
  remember (u64 (mDaysBack c * mDaysForward c)) as n eqn:En. clear En. unfold memset_vector, sizeof_vector.
  split; [|split].
  - intros ->. cbn. eexists. split; [done|]. cbn. by rewrite lookup_insert_eq.
  - intros Hr. rewrite (proj2 (Z.leb_le n 24)) by lia. cbn. do 2 eexists. split; [done|].
    cbn. rewrite lookup_insert_eq. split; [done|]. cbn.
    rewrite (proj2 (Z.eqb_neq n 0)) by lia.
    transitivity (clear_bytes 8 (buf_at a)); [unfold clear_bytes; do 3 f_equal; lia|].
    apply clear_all. unfold in_width, sizeof_CacheEntry in *. lia.
  - intros Hr. by rewrite (proj2 (Z.leb_gt n 24)) by lia.
Qed.

Lemma array_create_corrupts_witness :
  array (Alloc 64 4096) 7 true (construct 7 14 100) = None.
Proof.
  refine (proj2 (proj2 (array_create_corrupts (Alloc 64 4096) 7 (construct 7 14 100) _ _ _)) _);
    vm_compute; first [reflexivity | discriminate].
Defined.

End GridCache.
