(* ===== verification/ThriftModel.v ===== *)
(** The orderings of the generated Thrift structures, which [std::set] needs
    (source/thriftHelpers/ThriftModelOperators.cpp). The structures come from
    generated code the repository does not contain: their types and the field
    each ordering reads are the operations of the class [ModelTypes]. *)

From S2P Require Import Prelude.

(** * Orderings by a key *)

Class StrictWeak {A} (lt : A -> A -> bool) := {
  sw_irrefl x : lt x x = false;
  sw_trans x y z : lt x y = true -> lt y z = true -> lt x z = true;
  sw_incomp x y z : lt x y = false -> lt y z = false -> lt x z = false
}.

Definition equivalent {A} (lt : A -> A -> bool) (x y : A) : bool :=
  negb (lt x y) && negb (lt y x).

Definition by_key {A K} (klt : K -> K -> bool) (key : A -> K) (x y : A) : bool :=
  klt (key x) (key y).

#[export] Instance by_key_strict_weak {A K} (klt : K -> K -> bool) (key : A -> K) :
  StrictWeak klt -> StrictWeak (by_key klt key).
Proof.
  intros [Hi Ht Hn]. unfold by_key.
  split; [intros x; apply Hi|intros x y z; apply Ht|intros x y z; apply Hn].
Qed.

(** [std::set::insert]: an element equivalent to a present one is dropped. *)
Fixpoint set_insert {A} (lt : A -> A -> bool) (x : A) (l : list A) : list A :=
  match l with
  | [] => [x]
  | y :: l' =>
      if lt y x then y :: set_insert lt x l'
      else if lt x y then x :: l
      else l
  end.

(** Reading a Thrift set inserts its elements one after the other. *)
Definition set_of_list {A} (lt : A -> A -> bool) (xs : list A) : list A :=
  fold_left (fun s x => set_insert lt x s) xs [].

Section sets.
Context {A} (lt : A -> A -> bool) `{StrictWeak A lt}.

Lemma sw_asym x y : lt x y = true -> lt y x = false.
Proof.
  intros Hxy. destruct (lt y x) eqn:E; [|done].
  pose proof (sw_trans _ _ _ Hxy E) as C. by rewrite sw_irrefl in C.
Qed.

Lemma set_insert_elem x y l : y ∈ set_insert lt x l -> y = x \/ y ∈ l.
Proof.
  induction l as [|z l IH]; cbn; [rewrite !elem_of_cons; tauto|].
  repeat case_match; rewrite !elem_of_cons; intuition.
Qed.

Lemma set_insert_keeps x y l : y ∈ l -> y ∈ set_insert lt x l.
Proof.
  induction l as [|z l IH]; cbn; [by rewrite elem_of_nil|].
  repeat case_match; rewrite !elem_of_cons; intuition.
Qed.

Lemma set_insert_sorted x l :
  StronglySorted (fun a b => lt a b = true) l ->
  StronglySorted (fun a b => lt a b = true) (set_insert lt x l).
Proof.
  induction 1 as [|y l Hs IH Hall]; cbn; [by repeat constructor|].
  destruct (lt y x) eqn:E1; [|destruct (lt x y) eqn:E2].
  - constructor; [done|]. rewrite Forall_forall in *.
    intros z [->|Hz]%set_insert_elem; auto.
  - constructor; [by constructor|]. constructor; [done|].
    eapply Forall_impl; [exact Hall|]. intros z. by apply sw_trans.
  - by constructor.
Qed.

(** An element is inserted exactly when no equivalent one is present. *)
Lemma set_insert_new x l :
  StronglySorted (fun a b => lt a b = true) l ->
  (exists y, y ∈ l /\ equivalent lt x y = true) /\ set_insert lt x l = l \/
  (forall y, y ∈ l -> equivalent lt x y = false) /\ x ∈ set_insert lt x l.
Proof.
  unfold equivalent. induction 1 as [|y l Hs IH Hall]; cbn.
  { right. split; [by intros y ?%elem_of_nil|by left]. }
  destruct (lt y x) eqn:E1; [|destruct (lt x y) eqn:E2].
  - destruct IH as [[[z [Hz Heq]] ->]|[Hno Hin]].
    + left. split; [|done]. exists z. split; [by right|done].
    + right. split; [|by right]. intros z [->|Hz]%elem_of_cons; [|by auto].
      by rewrite E1, andb_false_r.
  - right. split; [|by left]. intros z [->|Hz]%elem_of_cons; [by rewrite E2|].
    rewrite Forall_forall in Hall. by rewrite (sw_trans x y z) by auto.
  - left. split; [|done]. exists y. split; [by left|]. by rewrite E1, E2.
Qed.

Lemma equivalent_trans x y z :
  equivalent lt x y = true -> equivalent lt y z = true -> equivalent lt x z = true.
Proof.
  unfold equivalent. rewrite !andb_true_iff, !negb_true_iff. intros [? ?] [? ?].
  split; eapply (sw_incomp (lt := lt)); eauto.
Qed.

Lemma equivalent_refl x : equivalent lt x x = true.
Proof. unfold equivalent. by rewrite (sw_irrefl (lt := lt)). Qed.

Lemma equivalent_sym x y : equivalent lt x y = equivalent lt y x.
Proof. unfold equivalent. apply andb_comm. Qed.

(** The element [y] comes from [xs], no earlier element being equivalent. *)
Definition first_in (y : A) (xs : list A) : Prop :=
  exists l1 l2, xs = l1 ++ y :: l2 /\ forall z, z ∈ l1 -> equivalent lt y z = false.

Definition absent (y : A) (s : list A) : Prop := forall z, z ∈ s -> equivalent lt y z = false.

Lemma fold_insert_spec xs s :
  StronglySorted (fun a b => lt a b = true) s ->
  let r := fold_left (fun s x => set_insert lt x s) xs s in
  StronglySorted (fun a b => lt a b = true) r /\
  (forall y, y ∈ r -> y ∈ s \/ (first_in y xs /\ absent y s)) /\
  (forall y, y ∈ s \/ y ∈ xs -> exists z, z ∈ r /\ equivalent lt y z = true).
Proof.
  revert s. induction xs as [|x xs IH]; intros s Hs; cbn.
  { split; [done|]. split; [by left|].
    intros y [Hy|?%elem_of_nil]; [|done]. exists y. by rewrite equivalent_refl. }
  destruct (IH (set_insert lt x s)) as (Hr & Horigin & Hcover); [by apply set_insert_sorted|].
  split; [done|]. pose proof (set_insert_new x s Hs) as Hnew. split.
  - intros y [Hy|[(l1 & l2 & -> & Hl1) Habs]]%Horigin.
    + destruct Hnew as [[_ E]|[Hno _]]; [left; by rewrite <- E|].
      apply set_insert_elem in Hy as [->|]; [right|by left].
      split; [|exact Hno]. exists [], xs. split; [done|]. by intros z ?%elem_of_nil.
    + right. split; [|intros z Hz; apply Habs, set_insert_keeps, Hz].
      exists (x :: l1), l2. split; [done|]. intros z [->|Hz]%elem_of_cons; [|by apply Hl1].
      destruct Hnew as [[(w & Hw & Hxw) E]|[_ Hin]]; [|by apply Habs].
      destruct (equivalent lt y x) eqn:Eyx; [|done]. rewrite E in Habs.
      rewrite <- (Habs w Hw). symmetry. by eapply equivalent_trans.
  - intros y Hy. rewrite elem_of_cons in Hy. destruct Hy as [Hy|[->|Hy]].
    + apply Hcover. left. by apply set_insert_keeps.
    + destruct Hnew as [[(w & Hw & Hxw) E]|[_ Hin]]; [|by apply Hcover; left].
      destruct (Hcover w) as (z & Hz & Hwz); [left; by rewrite E|].
      exists z. split; [done|]. by eapply equivalent_trans.
    + apply Hcover. by right.
Qed.

Lemma set_of_list_spec xs :
  StronglySorted (fun a b => lt a b = true) (set_of_list lt xs) /\
  (forall y, y ∈ set_of_list lt xs -> first_in y xs) /\
  (forall y, y ∈ xs -> exists z, z ∈ set_of_list lt xs /\ equivalent lt y z = true).
Proof.
  destruct (fold_insert_spec xs []) as (H1 & H2 & H3); [constructor|].
  split; [done|]. split; [|auto]. intros y [?%elem_of_nil|[? _]]%H2; done.
Qed.

End sets.

(** * The generated structures *)

(** Keys come in three sorts: text, entity ids and numeric ids. *)
Class ModelTypes := {
  Text : Type; Eid : Type; Num : Type;
  text_lt : Text -> Text -> bool; eid_lt : Eid -> Eid -> bool; num_lt : Num -> Num -> bool;
  Attribute : Type; name : Attribute -> Text;
  RelatedStation : Type; RelatedStation_id : RelatedStation -> Num;
  Description : Type; text : Description -> Text;
  Sport : Type; Sport_eid : Sport -> Eid;
  Event : Type; Event_eid : Event -> Eid;
  Organization : Type; Organization_eid : Organization -> Eid;
  OrganizationType : Type; OrganizationType_eid : OrganizationType -> Eid;
  OrganizationSeason : Type; OrganizationSeason_eid : OrganizationSeason -> Eid;
  SportFranchise : Type; SportFranchise_eid : SportFranchise -> Eid;
  SportFranchiseSeason : Type; SportFranchiseSeason_eid : SportFranchiseSeason -> Eid;
  Venue : Type; Venue_eid : Venue -> Eid;
  VenueFormerName : Type; VenueFormerName_eid : VenueFormerName -> Eid;
  VenueCapacity : Type; VenueCapacity_eid : VenueCapacity -> Eid;
  EventType : Type; EventType_eid : EventType -> Eid;
  College : Type; College_eid : College -> Eid;
  Country : Type; numeric : Country -> Num;
  TeamMember : Type; personNameId : TeamMember -> Num
}.

(** The key types are ordered as C++ orders strings and integers. *)
Class ModelLaws `{ModelTypes} := {
  text_sw :: StrictWeak text_lt;
  eid_sw :: StrictWeak eid_lt;
  num_sw :: StrictWeak num_lt
}.

Section operators.
Context `{ModelTypes}.

Definition Attribute_lt (l r : Attribute) : bool := text_lt (name l) (name r).
Definition RelatedStation_lt (l r : RelatedStation) : bool :=
  num_lt (RelatedStation_id l) (RelatedStation_id r).
Definition Description_lt (l r : Description) : bool := text_lt (text l) (text r).
Definition Sport_lt (l r : Sport) : bool := eid_lt (Sport_eid l) (Sport_eid r).
Definition Event_lt (l r : Event) : bool := eid_lt (Event_eid l) (Event_eid r).
Definition Organization_lt (l r : Organization) : bool :=
  eid_lt (Organization_eid l) (Organization_eid r).
Definition OrganizationType_lt (l r : OrganizationType) : bool :=
  eid_lt (OrganizationType_eid l) (OrganizationType_eid r).
Definition OrganizationSeason_lt (l r : OrganizationSeason) : bool :=
  eid_lt (OrganizationSeason_eid l) (OrganizationSeason_eid r).
Definition SportFranchise_lt (l r : SportFranchise) : bool :=
  eid_lt (SportFranchise_eid l) (SportFranchise_eid r).
Definition SportFranchiseSeason_lt (l r : SportFranchiseSeason) : bool :=
  eid_lt (SportFranchiseSeason_eid l) (SportFranchiseSeason_eid r).
Definition Venue_lt (l r : Venue) : bool := eid_lt (Venue_eid l) (Venue_eid r).
Definition VenueFormerName_lt (l r : VenueFormerName) : bool :=
  eid_lt (VenueFormerName_eid l) (VenueFormerName_eid r).
Definition VenueCapacity_lt (l r : VenueCapacity) : bool :=
  eid_lt (VenueCapacity_eid l) (VenueCapacity_eid r).
Definition EventType_lt (l r : EventType) : bool := eid_lt (EventType_eid l) (EventType_eid r).
Definition College_lt (l r : College) : bool := eid_lt (College_eid l) (College_eid r).
Definition Country_lt (l r : Country) : bool := num_lt (numeric l) (numeric r).
Definition TeamMember_lt (l r : TeamMember) : bool :=
  num_lt (personNameId l) (personNameId r).

(** [P] holds of each of the seventeen orderings. *)
Definition each_operator (P : forall A, (A -> A -> bool) -> Prop) : Prop :=
  P _ Attribute_lt /\ P _ RelatedStation_lt /\ P _ Description_lt /\ P _ Sport_lt /\
  P _ Event_lt /\ P _ Organization_lt /\ P _ OrganizationType_lt /\
  P _ OrganizationSeason_lt /\ P _ SportFranchise_lt /\ P _ SportFranchiseSeason_lt /\
  P _ Venue_lt /\ P _ VenueFormerName_lt /\ P _ VenueCapacity_lt /\ P _ EventType_lt /\
  P _ College_lt /\ P _ Country_lt /\ P _ TeamMember_lt.

End operators.

(** Each ordering compares the keys of its structure. *)
Lemma each_operator_by_key `{ModelLaws} (P : forall A, (A -> A -> bool) -> Prop) :
  (forall A K (klt : K -> K -> bool) (key : A -> K), StrictWeak klt -> P A (by_key klt key)) ->
  each_operator P.
Proof. intros HP. unfold each_operator. repeat apply conj; apply HP, _. Qed.

(** every one of the seventeen orderings is a strict weak order, as
    [std::set] requires, so that filling a set in any order yields a strictly
    sorted sequence with one element per key: for each element read there is one
    with the same key, and the one kept is the first that was read. *)
Theorem model_sets `{ModelLaws} :
  each_operator (fun A lt =>
    StrictWeak lt /\ forall xs,
      StronglySorted (fun a b => lt a b = true) (set_of_list lt xs) /\
      (forall y, y ∈ set_of_list lt xs -> first_in lt y xs) /\
      (forall y, y ∈ xs -> exists z, z ∈ set_of_list lt xs /\ equivalent lt y z = true)).
Proof.
  apply each_operator_by_key. intros A K klt key Hk.
  split; [by apply by_key_strict_weak|].
  intros xs. by apply set_of_list_spec, by_key_strict_weak.
Qed.

(** An instance: structures are (key, payload) pairs with natural keys. *)
#[export] Instance nat_lt_sw : StrictWeak Nat.ltb.
Proof. split; intros *; rewrite ?Nat.ltb_lt, ?Nat.ltb_ge; lia. Qed.

Definition pair_model : ModelTypes := {|
  Text := nat; Eid := nat; Num := nat; text_lt := Nat.ltb; eid_lt := Nat.ltb; num_lt := Nat.ltb;
  name := @fst nat nat; RelatedStation_id := @fst nat nat; text := @fst nat nat;
  Sport_eid := @fst nat nat; Event_eid := @fst nat nat; Organization_eid := @fst nat nat;
  OrganizationType_eid := @fst nat nat; OrganizationSeason_eid := @fst nat nat;
  SportFranchise_eid := @fst nat nat; SportFranchiseSeason_eid := @fst nat nat;
  Venue_eid := @fst nat nat; VenueFormerName_eid := @fst nat nat;
  VenueCapacity_eid := @fst nat nat; EventType_eid := @fst nat nat; College_eid := @fst nat nat;
  numeric := @fst nat nat; personNameId := @fst nat nat |}.

Definition pair_laws : @ModelLaws pair_model :=
  {| text_sw := nat_lt_sw : StrictWeak (@text_lt pair_model);
     eid_sw := nat_lt_sw : StrictWeak (@eid_lt pair_model);
     num_sw := nat_lt_sw : StrictWeak (@num_lt pair_model) |}.

Lemma model_sets_witness :
  StrictWeak (@Attribute_lt pair_model) /\
  set_of_list (@Attribute_lt pair_model) [(3, 1); (1, 2); (3, 9)] = [(1, 2); (3, 1)].
Proof.
  split; [|reflexivity]. apply (@model_sets pair_model pair_laws).
Defined.
