(* ===== verification/ThriftConverter.v ===== *)
(** [ThriftConverter]: building a Thrift object for a topic from its
    serialized bytes (source/datastore/ThriftConverter.h and .cpp).

    The generated structures and their [read] methods are not part of the
    repository; [ThriftRuntime] states what the converter calls. *)

From S2P Require Import Prelude External Topics.
#[local] Open Scope Z_scope.

Module ThriftConverter.

(** The generated classes that are instantiated. *)
Inductive thrift_class :=
| StationData | LineupData | ImageData | PersonData | ProgramTMSId | AffiliationData
| MarketData | ScheduleDayData | ProviderData | HeadendData | RatingBodyData
| RatingValueData | AnimationData | AwardTypeData | AwardBodyData | GenreData
| ProductionCompanyData | AdvisoryData | HolidayData | PlayoffData | TeamData
| VenueData | WarningData | ConferenceData | UniversityData.

#[export] Instance thrift_class_eq_dec : EqDecision thrift_class.
Proof. solve_decision. Defined.

Class ThriftRuntime := {
  content : Type;
  default_content : thrift_class -> content;
  (* T::read over a protocol on a memory buffer with these bytes: how it ends,
     and the content of the object, which may have been read in part when an
     exception comes out *)
  thrift_read : thrift_class -> content -> list Byte.byte -> outcome unit * content
}.

Section converter.
Context `{ThriftRuntime}.

Record object := Object { o_class : thrift_class; o_content : content }.

(** The heap of Thrift objects, with the allocator's next address, and the
    bytes the memory buffer was last reset to. *)
Record state := State {
  objects : gmap Z object;
  next_addr : Z;
  mMemBuffer : list Byte.byte
}.

Definition new_object (c : thrift_class) (st : state) : Z * state :=
  (next_addr st,
   State (<[next_addr st := Object c (default_content c)]> (objects st))
         (next_addr st + 1) (mMemBuffer st)).

Definition delete_object (p : Z) (st : state) : state :=
  State (delete p (objects st)) (next_addr st) (mMemBuffer st).

(** [createAndPopulate<T>]: [data] is the memory from the pointer on, [None]
    for nullptr; [resetBuffer] takes a [uint32_t] length, and memory that is
    shorter than that is undefined to read. Only TTransportException is caught. *)
Definition createAndPopulate (c : thrift_class) (data : option (list Byte.byte))
    (sizeInBytes : Z) (st : state) : option (outcome (option Z) * state) :=
  let '(p, st) := new_object c st in
  match data with
  | None => Some (Returns (Some p), st)
  | Some bytes =>
      if Z.of_nat (length bytes) <? u32 sizeInBytes then None
      else
        let buffer := take (Z.to_nat (u32 sizeInBytes)) bytes in
        let '(r, v) := thrift_read c (default_content c) buffer in
        let st := State (<[p := Object c v]> (objects st)) (next_addr st) buffer in
        match r with
        | Returns _ => Some (Returns (Some p), st)
        | Throws transport_exception => Some (Returns None, delete_object p st)
        | Throws e => Some (Throws e, st)
        end
  end.

Definition create (c : thrift_class) (st : state) : option (outcome (option Z) * state) :=
  let '(p, st) := new_object c st in Some (Returns (Some p), st).

Definition createPopulated (topic : Topic) (data : option (list Byte.byte))
    (sizeInBytes : Z) (st : state) : option (outcome (option Z) * state) :=
  match topic with
  | Metamorphosis_Station => createAndPopulate StationData data sizeInBytes st
  | Metamorphosis_Linuep => create LineupData st
  | Metamorphosis_Image => create ImageData st
  | Metamorphosis_Person => create PersonData st
  | Metamorphosis_Program_TmsId => create ProgramTMSId st
  | Metamorphosis_Affiliation => create AffiliationData st
  | Metamorphosis_Market => create MarketData st
  | Metamorphosis_Schedule_Day => createAndPopulate ScheduleDayData data sizeInBytes st
  | Metamorphosis_Provider => create ProviderData st
  | Metamorphosis_Headend => create HeadendData st
  | Metamorphosis_Rating_Body => create RatingBodyData st
  | Metamorphosis_Rating_Value => create RatingValueData st
  | Metamorphosis_Animation => create AnimationData st
  | Metamorphosis_Award_Type => create AwardTypeData st
  | Metamorphosis_Award_Body => create AwardBodyData st
  | Metamorphosis_Genre => create GenreData st
  | Metamorphosis_Production_Company => create ProductionCompanyData st
  | Metamorphosis_Advisory => create AdvisoryData st
  | Metamorphosis_Holiday => create HolidayData st
  | Metamorphosis_Playoff => create PlayoffData st
  | Metamorphosis_Team => create TeamData st
  | Metamorphosis_Venue => create VenueData st
  | Metamorphosis_Warning => create WarningData st
  | Metamorphosis_Conference => create ConferenceData st
  | Metamorphosis_University => create UniversityData st
  end.

(** ** Specification *)

(** Whether a topic's bytes are read, and the class it is represented by. *)
Definition populated (t : Topic) : bool :=
  bool_decide (t = Metamorphosis_Station \/ t = Metamorphosis_Schedule_Day).

Definition class_of (t : Topic) : thrift_class :=
  match t with
  | Metamorphosis_Station => StationData
  | Metamorphosis_Linuep => LineupData
  | Metamorphosis_Image => ImageData
  | Metamorphosis_Person => PersonData
  | Metamorphosis_Program_TmsId => ProgramTMSId
  | Metamorphosis_Affiliation => AffiliationData
  | Metamorphosis_Market => MarketData
  | Metamorphosis_Schedule_Day => ScheduleDayData
  | Metamorphosis_Provider => ProviderData
  | Metamorphosis_Headend => HeadendData
  | Metamorphosis_Rating_Body => RatingBodyData
  | Metamorphosis_Rating_Value => RatingValueData
  | Metamorphosis_Animation => AnimationData
  | Metamorphosis_Award_Type => AwardTypeData
  | Metamorphosis_Award_Body => AwardBodyData
  | Metamorphosis_Genre => GenreData
  | Metamorphosis_Production_Company => ProductionCompanyData
  | Metamorphosis_Advisory => AdvisoryData
  | Metamorphosis_Holiday => HolidayData
  | Metamorphosis_Playoff => PlayoffData
  | Metamorphosis_Team => TeamData
  | Metamorphosis_Venue => VenueData
  | Metamorphosis_Warning => WarningData
  | Metamorphosis_Conference => ConferenceData
  | Metamorphosis_University => UniversityData
  end.

(** Addresses are fresh: nothing lives at or above [next_addr]. *)
Definition wf (st : state) : Prop := forall p, next_addr st <= p -> objects st !! p = None.

Lemma new_object_fresh c st :
  wf st -> objects st !! next_addr st = None /\ wf (snd (new_object c st)).
Proof.
  intros Hwf. split; [by apply Hwf|]. intros p Hp. cbn in *.
  rewrite lookup_insert_ne by lia. apply Hwf. lia.
Qed.

(** What a call promises: the only change to the heap is the new object [o], or
    none. *)
Definition added (st st' : state) (o : option object) : Prop :=
  objects st' = match o with
                | Some o => <[next_addr st := o]> (objects st)
                | None => objects st
                end.

(** What reading the bytes into a new object of class [c] gives. *)
Definition reads (c : thrift_class) (bytes : list Byte.byte) (size : Z) (st : state)
    (r : outcome (option Z)) (st' : state) : Prop :=
  let (e, v) := thrift_read c (default_content c) (take (Z.to_nat (u32 size)) bytes) in
  match e with
  | Returns _ => r = Returns (Some (next_addr st)) /\ added st st' (Some (Object c v))
  | Throws e =>
      if decide (e = transport_exception) then r = Returns None /\ added st st' None
      else r = Throws e /\ added st st' (Some (Object c v))
  end.

Lemma createAndPopulate_spec c data size st :
  wf st ->
  match createAndPopulate c data size st with
  | None => exists bytes, data = Some bytes /\ Z.of_nat (length bytes) < u32 size
  | Some (r, st') =>
      wf st' /\
      match data with
      | None => r = Returns (Some (next_addr st)) /\ added st st' (Some (Object c (default_content c)))
      | Some bytes => u32 size <= Z.of_nat (length bytes) /\ reads c bytes size st r st'
      end
  end.
Proof.
  intros Hwf. destruct (new_object_fresh c st Hwf) as [Hf Hwf'].
  unfold createAndPopulate, reads, added, new_object in *. cbn in *.
  destruct data as [bytes|]; [|done].
  destruct (Z.ltb_spec (Z.of_nat (length bytes)) (u32 size)); [by exists bytes|].
  assert (forall v, wf (State (<[next_addr st := Object c v]> (<[next_addr st := Object c (default_content c)]> (objects st)))
    (next_addr st + 1) (take (Z.to_nat (u32 size)) bytes))) as Hw.
  { intros v p Hp. cbn in *. rewrite !lookup_insert_ne by lia. apply Hwf. lia. }
  destruct (thrift_read _ _ _) as [[v|e] v']; cbn.
  - split; [apply Hw|by rewrite insert_insert_eq].
  - destruct e; cbn; try (split; [apply Hw|by rewrite insert_insert_eq]).
    rewrite insert_insert_eq, delete_insert_id by done.
    split; [|done]. intros p Hp. cbn in *. rewrite delete_insert_id by done. apply Hwf. lia.
Qed.

Lemma create_default_spec c st :
  wf st ->
  exists st', create c st = Some (Returns (Some (next_addr st)), st') /\
  wf st' /\ added st st' (Some (Object c (default_content c))).
Proof. intros Hwf. eexists. split; [done|]. split; [apply (new_object_fresh c st Hwf)|done]. Qed.

Lemma createPopulated_cases t data size st :
  createPopulated t data size st =
  if populated t then createAndPopulate (class_of t) data size st else create (class_of t) st.
Proof. by destruct t. Qed.

Lemma class_of_inj : Inj (=) (=) class_of.
Proof. intros t t'. destruct t, t'; (reflexivity || discriminate). Qed.

End converter.

(** C38: [createPopulated] on every topic and branch. Each topic has its own
    class. Only station and schedule-day objects are read from the bytes (the
    first [sizeInBytes] modulo 2^32 of them, which is undefined if there are
    fewer); every other topic ignores its data and yields a default object, as
    does a null data pointer. A transport error gives nullptr and frees the
    object; any other exception escapes and leaves the allocated object behind,
    with what was read into it. *)
Theorem createPopulated_spec `{ThriftRuntime} t data size st :
  wf st ->
  let c := class_of t in
  (forall t', class_of t' = c -> t' = t) /\
  match createPopulated t data size st with
  | None => exists bytes, populated t = true /\ data = Some bytes /\ Z.of_nat (length bytes) < u32 size
  | Some (r, st') =>
      wf st' /\
      match (if populated t then data else None) with
      | None => r = Returns (Some (next_addr st)) /\ added st st' (Some (Object c (default_content c)))
      | Some bytes =>
          u32 size <= Z.of_nat (length bytes) /\
          let (e, v) := thrift_read c (default_content c) (take (Z.to_nat (u32 size)) bytes) in
          match e with
          | Returns _ => r = Returns (Some (next_addr st)) /\ added st st' (Some (Object c v))
          | Throws e =>
              if decide (e = transport_exception) then r = Returns None /\ added st st' None
              else r = Throws e /\ added st st' (Some (Object c v))
          end
      end
  end.
Proof.
  intros Hwf. rewrite createPopulated_cases. split; [intros t'; by apply class_of_inj|].
  destruct (populated t).
  - pose proof (createAndPopulate_spec (class_of t) data size st Hwf) as Hs.
    destruct (createAndPopulate _ _ _ _) as [[r st']|]; [done|]. destruct Hs as (bytes & ? & ?). by exists bytes.
  - destruct (create_default_spec (class_of t) st Hwf) as (st' & -> & ? & ?). done.
Qed.

(** A runtime whose objects are byte strings and whose [read] fails on the
    empty one. *)
#[export] Instance byte_runtime : ThriftRuntime := {
  content := list Byte.byte;
  default_content _ := [];
  thrift_read _ v b := match b with [] => (Throws transport_exception, v) | _ => (Returns (), b) end
}.

Lemma createPopulated_spec_witness :
  option_map fst (createPopulated Metamorphosis_Station (Some []) 0 (State ∅ 1 [])) = Some (Returns None) /\
  option_map fst (createPopulated Metamorphosis_Station (Some [Byte.x07]) 1 (State ∅ 1 [])) = Some (Returns (Some 1)) /\
  option_map fst (createPopulated Metamorphosis_Team (Some []) 4 (State ∅ 1 [])) = Some (Returns (Some 1)).
Proof.
  assert (wf (State ∅ 1 [])) as Hwf by (intros p _; reflexivity).
  pose proof (createPopulated_spec Metamorphosis_Station (Some []) 0 _ Hwf) as (_ & _ & _ & H1 & _).
  pose proof (createPopulated_spec Metamorphosis_Station (Some [Byte.x07]) 1 _ Hwf) as (_ & _ & _ & H2 & _).
  pose proof (createPopulated_spec Metamorphosis_Team (Some []) 4 _ Hwf) as (_ & _ & H3 & _).
  split; [exact (f_equal Some H1)|]. split; [exact (f_equal Some H2)|exact (f_equal Some H3)].
Defined.

End ThriftConverter.
