(* ===== verification/Intrusive.v ===== *)
(** Intrusive reference counting: [IntrusiveTracked] and [intrusive_ptr]
    (source/utils/IntrusiveTracked.h and intrusive_ptr.h).

    The heap holds the tracked objects; a smart pointer is its raw pointer
    [px] ([None] for null). An operation that touches an object that is no
    longer there has no result. *)

From S2P Require Import Prelude.
#[local] Open Scope Z_scope.

Module Intrusive.

Record tracked := Tracked { mReference : Z; mCreator : option Z }.

(** What the end of an object's last pointer triggers. *)
Inductive event :=
| Released (creator obj : Z)    (* mCreator->release(obj) *)
| Deleted (obj : Z).            (* delete obj *)

Record heap := Heap { objs : gmap Z tracked; events : list event }.

Definition referenceCount (o : tracked) : Z := mReference o.
Definition setCreator (c : option Z) (o : tracked) : tracked := Tracked (mReference o) c.

(** [new IntrusiveTracked], followed by [setCreator]. *)
Definition new_tracked (c : option Z) : tracked := setCreator c (Tracked 0 None).

(** [intrusive_ptr_add_ref] *)
Definition add_ref (p : Z) (h : heap) : option heap :=
  o ← objs h !! p;
  Some (Heap (<[p := Tracked (u64 (mReference o + 1)) (mCreator o)]> (objs h)) (events h)).

Definition releaseObject (p : Z) (h : heap) : option heap :=
  o ← objs h !! p;
  match mCreator o with
  | Some c => Some (Heap (objs h) (events h ++ [Released c p]))
  | None => Some (Heap (delete p (objs h)) (events h ++ [Deleted p]))
  end.

(** [intrusive_ptr_release] *)
Definition release (p : Z) (h : heap) : option heap :=
  o ← objs h !! p;
  let o := Tracked (u64 (mReference o - 1)) (mCreator o) in
  let h := Heap (<[p := o]> (objs h)) (events h) in
  if mReference o =? 0 then releaseObject p h else Some h.

(** ** [intrusive_ptr] *)

Abbreviation ptr := (option Z).

Definition ctor_default : ptr := None.
Definition ctor_raw (p : ptr) (add : bool) (h : heap) : option (ptr * heap) :=
  match p with
  | Some q => if add then h ← add_ref q h; Some (p, h) else Some (p, h)
  | None => Some (p, h)
  end.
Definition ctor_copy (rhs : ptr) (h : heap) : option (ptr * heap) :=
  match rhs with
  | Some q => h ← add_ref q h; Some (rhs, h)
  | None => Some (rhs, h)
  end.
Definition dtor (px : ptr) (h : heap) : option heap :=
  match px with Some q => release q h | None => Some h end.
Definition swap (lhs rhs : ptr) : ptr * ptr := (rhs, lhs).

(** The assignments build a temporary, swap it with [*this] and destroy it:
    the new value of [*this] and the heap. *)
Definition assign_copy (this rhs : ptr) (h : heap) : option (ptr * heap) :=
  '(tmp, h) ← ctor_copy rhs h;
  let '(tmp, this) := swap tmp this in
  h ← dtor tmp h; Some (this, h).
Definition assign_raw (this rhs : ptr) (h : heap) : option (ptr * heap) :=
  '(tmp, h) ← ctor_raw rhs true h;
  let '(tmp, this) := swap tmp this in
  h ← dtor tmp h; Some (this, h).
Definition reset (this : ptr) (h : heap) : option (ptr * heap) :=
  let '(tmp, this) := swap ctor_default this in
  h ← dtor tmp h; Some (this, h).
Definition reset_raw (this rhs : ptr) (h : heap) : option (ptr * heap) := assign_raw this rhs h.

Definition get (px : ptr) : ptr := px.
Definition ptr_eq (a b : ptr) : bool := bool_decide (get a = get b).

(** ** Programs over named smart pointers *)

Inductive op :=
| Declare_default (v : Z)
| Declare_raw (v : Z) (p : ptr)
| Declare_copy (v w : Z)
| Assign_copy (v w : Z)
| Assign_raw (v : Z) (p : ptr)
| Reset_ptr (v : Z)
| Reset_raw (v : Z) (p : ptr)
| Swap_ptrs (v w : Z)
| Destroy (v : Z)
| New_object (p : Z) (c : option Z).

Record state := State { vars : gmap Z ptr; hp : heap }.

Definition set_var (v : Z) (st : state) (r : ptr * heap) : state :=
  State (<[v := r.1]> (vars st)) r.2.

Definition exec (o : op) (st : state) : option state :=
  match o with
  | Declare_default v =>
      guard (vars st !! v = None);; Some (set_var v st (ctor_default, hp st))
  | Declare_raw v p =>
      guard (vars st !! v = None);; set_var v st <$> ctor_raw p true (hp st)
  | Declare_copy v w =>
      guard (vars st !! v = None);;
      rhs ← vars st !! w; set_var v st <$> ctor_copy rhs (hp st)
  | Assign_copy v w =>
      this ← vars st !! v; rhs ← vars st !! w;
      set_var v st <$> assign_copy this rhs (hp st)
  | Assign_raw v p => this ← vars st !! v; set_var v st <$> assign_raw this p (hp st)
  | Reset_ptr v => this ← vars st !! v; set_var v st <$> reset this (hp st)
  | Reset_raw v p => this ← vars st !! v; set_var v st <$> reset_raw this p (hp st)
  | Swap_ptrs v w =>
      lhs ← vars st !! v; rhs ← vars st !! w;
      let '(lhs, rhs) := swap lhs rhs in
      Some (State (<[v := lhs]> (<[w := rhs]> (vars st))) (hp st))
  | Destroy v =>
      px ← vars st !! v; h ← dtor px (hp st); Some (State (delete v (vars st)) h)
  | New_object p c =>
      guard (objs (hp st) !! p = None);;
      Some (State (vars st) (Heap (<[p := new_tracked c]> (objs (hp st))) (events (hp st))))
  end.

Fixpoint run (os : list op) (st : state) : option state :=
  match os with
  | [] => Some st
  | o :: os => st ← exec o st; run os st
  end.

Definition initial : state := State ∅ (Heap ∅ []).

(** ** The counting invariant *)

(** The named pointers that point to [p], and the temporaries that do. *)
Definition refs (vs : gmap Z ptr) (p : Z) : nat :=
  size (filter (fun vp => vp.2 = Some p) vs).
Definition temps (ts : list ptr) (p : Z) : nat :=
  length (filter (fun t => t = Some p) ts).

#[local] Arguments refs : simpl never.
#[local] Arguments temps : simpl never.

Record Inv (vs : gmap Z ptr) (ts : list ptr) (h : heap) : Prop := {
  inv_count p o : objs h !! p = Some o -> mReference o = Z.of_nat (refs vs p + temps ts p);
  inv_live_var v p : vs !! v = Some (Some p) -> is_Some (objs h !! p);
  inv_live_tmp p : Some p ∈ ts -> is_Some (objs h !! p)
}.

Definition hit (px : ptr) (p : Z) : nat := if decide (px = Some p) then 1 else 0.

Lemma temps_cons t ts p : temps (t :: ts) p = (hit t p + temps ts p)%nat.
Proof. unfold temps, hit. rewrite filter_cons. by case_decide. Qed.

Lemma refs_insert vs v px p :
  vs !! v = None -> refs (<[v := px]> vs) p = (hit px p + refs vs p)%nat.
Proof.
  intros Hv. unfold refs, hit. rewrite map_filter_insert. cbn. case_decide.
  - rewrite map_size_insert_None; [done|]. by apply map_lookup_filter_None_2; left.
  - by rewrite delete_id.
Qed.

Lemma refs_delete vs v px p :
  vs !! v = Some px -> refs vs p = (hit px p + refs (delete v vs) p)%nat.
Proof.
  intros Hv. rewrite <- (insert_delete_id vs v px) at 1 by done.
  by rewrite refs_insert by apply lookup_delete_eq.
Qed.

Lemma refs_le_size vs p : (refs vs p <= size vs)%nat.
Proof. apply map_size_filter. Qed.

Lemma temps_le_length ts p : (temps ts p <= length ts)%nat.
Proof. apply length_filter. Qed.

(** Moving a pointer between the temporaries and a variable. *)
Lemma Inv_bind vs ts h v px :
  vs !! v = None -> Inv vs (px :: ts) h -> Inv (<[v := px]> vs) ts h.
Proof.
  intros Hv [Hc Hlv Hlt]. split.
  - intros p o Ho. rewrite refs_insert, (Hc p o Ho), temps_cons by done. lia.
  - intros w p [[-> ->]|[_ Hw]]%lookup_insert_Some; [apply Hlt; by left|by eapply Hlv].
  - intros p Hp. apply Hlt. by right.
Qed.

Lemma Inv_take vs ts h v px :
  vs !! v = Some px -> Inv vs ts h -> Inv (delete v vs) (px :: ts) h.
Proof.
  intros Hv [Hc Hlv Hlt]. split.
  - intros p o Ho. rewrite (Hc p o Ho), (refs_delete vs v px p), temps_cons by done. lia.
  - intros w p [_ Hw]%lookup_delete_Some. by eapply Hlv.
  - intros p [<-|Hp]%elem_of_cons; [by eapply Hlv|by apply Hlt].
Qed.

Lemma Inv_perm vs ts ts' h : ts ≡ₚ ts' -> Inv vs ts h -> Inv vs ts' h.
Proof.
  intros Hp [Hc Hlv Hlt]. split; [|done|].
  - intros p o Ho. rewrite (Hc p o Ho). unfold temps. by rewrite Hp.
  - intros p. rewrite <- Hp. apply Hlt.
Qed.

Lemma Inv_null vs ts h : Inv vs ts h -> Inv vs (None :: ts) h.
Proof.
  intros [Hc Hlv Hlt]. split; [|done|].
  - intros p o Ho. by rewrite (Hc p o Ho), temps_cons.
  - intros p [?|Hp]%elem_of_cons; [done|by apply Hlt].
Qed.

Lemma Inv_drop_null vs ts h : Inv vs (None :: ts) h -> Inv vs ts h.
Proof.
  intros [Hc Hlv Hlt]. split; [|done|].
  - intros p o Ho. by rewrite (Hc p o Ho), temps_cons.
  - intros p Hp. apply Hlt. by right.
Qed.

(** No counter can wrap: there are fewer than 2^64 - 1 pointers. *)
Definition bounded (vs : gmap Z ptr) (ts : list ptr) : Prop :=
  Z.of_nat (size vs + length ts) < 2 ^ 64 - 1.

Lemma add_ref_spec vs ts h p :
  Inv vs ts h -> bounded vs ts -> is_Some (objs h !! p) ->
  exists h', add_ref p h = Some h' /\ Inv vs (Some p :: ts) h' /\ events h' = events h /\
    (forall q, objs h' !! q ≫= mCreator = objs h !! q ≫= mCreator).
Proof.
  intros [Hc Hlv Hlt] Hb [o Ho]. eexists. unfold add_ref. rewrite Ho. cbn.
  split; [done|]. cbn. split; [|split; [done|]].
  2:{ intros q. destruct (decide (p = q)) as [<-|]; [by rewrite lookup_insert_eq, Ho|].
      by rewrite lookup_insert_ne. }
  assert (u64 (mReference o + 1) = mReference o + 1) as Hu.
  { rewrite (Hc p o Ho). pose proof (refs_le_size vs p). pose proof (temps_le_length ts p).
    unfold bounded in Hb. apply wrap_small. width. }
  split; cbn.
  - intros q o' [[<- <-]|[Hne Hq]]%lookup_insert_Some.
    + cbn. rewrite Hu, (Hc p o Ho), temps_cons. unfold hit. rewrite decide_True by done. lia.
    + rewrite (Hc q o' Hq), temps_cons. unfold hit. rewrite decide_False by congruence. lia.
  - intros v q Hv. rewrite lookup_insert_is_Some'. right. by eapply Hlv.
  - intros q Hq. rewrite lookup_insert_is_Some'. apply elem_of_cons in Hq as [[= ->]|Hq]; [by left|].
    right. by apply Hlt.
Qed.

(** The event that ends [px], if [n] pointers to its object remain. *)
Definition end_events (h : heap) (px : ptr) (vs : gmap Z ptr) (ts : list ptr) : list event :=
  match px with
  | Some p =>
      if decide (refs vs p + temps ts p = 0)%nat then
        match objs h !! p ≫= mCreator with Some c => [Released c p] | None => [Deleted p] end
      else []
  | None => []
  end.

Lemma dtor_spec vs ts h px :
  Inv vs (px :: ts) h -> bounded vs ts ->
  exists h', dtor px h = Some h' /\ Inv vs ts h' /\
    events h' = events h ++ end_events h px vs ts.
Proof.
  intros HI Hb. destruct px as [p|].
  2:{ exists h. cbn. rewrite app_nil_r. split; [done|]. split; [by apply Inv_drop_null|done]. }
  pose proof HI as [Hc Hlv Hlt]. destruct (Hlt p) as [o Ho]; [by left|].
  pose proof (Hc p o Ho) as Hcount. rewrite temps_cons in Hcount.
  unfold hit in Hcount. rewrite decide_True in Hcount by done.
  pose proof (refs_le_size vs p) as Hr1. pose proof (temps_le_length ts p) as Hr2.
  unfold bounded in Hb.
  assert (u64 (mReference o - 1) = mReference o - 1) as Hu by (apply wrap_small; width).
  assert (Inv vs ts (Heap (<[p := Tracked (mReference o - 1) (mCreator o)]> (objs h)) (events h))) as HI'.
  { split; cbn.
    - intros q o' [[<- <-]|[Hne Hq]]%lookup_insert_Some; [cbn; lia|].
      rewrite (Hc q o' Hq), temps_cons. unfold hit. rewrite decide_False by congruence. lia.
    - intros v q Hv. rewrite lookup_insert_is_Some'. right. by eapply Hlv.
    - intros q Hq. rewrite lookup_insert_is_Some'. right. apply Hlt. by right. }
  unfold dtor, release, end_events. rewrite Ho. cbn. rewrite Hu.
  destruct (Z.eqb_spec (mReference o - 1) 0) as [E|E].
  2:{ rewrite decide_False by lia. eexists. rewrite app_nil_r. by split. }
  rewrite decide_True by lia. unfold releaseObject. cbn. rewrite lookup_insert_eq. cbn.
  destruct (mCreator o) as [c|] eqn:Ec; eexists; (split; [done|]).
  { split; [by destruct HI'|done]. }
  destruct HI' as [Hc' Hlv' Hlt']. split; [split|done]; cbn.
  - intros q o' [_ Hq]%lookup_delete_Some. by apply Hc'.
  - intros v q Hv. rewrite lookup_delete_is_Some. split; [|by eapply Hlv'].
    intros ->. rewrite (refs_delete vs v (Some q) q) in Hcount by done.
    unfold hit in Hcount. rewrite decide_True in Hcount by done. lia.
  - intros q Hq. rewrite lookup_delete_is_Some. split; [|by apply Hlt'].
    intros ->. assert (temps ts q <> 0)%nat; [|lia]. unfold temps.
    intros Hz%nil_length_inv. apply (not_elem_of_nil (Some q)). rewrite <- Hz.
    by apply list_elem_of_filter.
Qed.

(** ** Operations *)

Definition live (h : heap) (px : ptr) : Prop :=
  match px with Some p => is_Some (objs h !! p) | None => True end.

Lemma ctor_raw_copy px h : ctor_raw px true h = ctor_copy px h.
Proof. by destruct px. Qed.

Lemma ctor_copy_spec vs ts h px :
  Inv vs ts h -> bounded vs ts -> live h px ->
  exists h', ctor_copy px h = Some (px, h') /\ Inv vs (px :: ts) h' /\ events h' = events h /\
    (forall q, objs h' !! q ≫= mCreator = objs h !! q ≫= mCreator).
Proof.
  intros HI Hb Hl. destruct px as [p|].
  - destruct (add_ref_spec vs ts h p) as (h' & E & ?); [done..|].
    exists h'. cbn. by rewrite E.
  - exists h. split; [done|]. split; [by apply Inv_null|done].
Qed.

(** Replacing the pointer in [v] by [new] ends the old one. *)
Lemma replace_spec vs h v old new :
  vs !! v = Some old -> live h new -> Inv vs [] h -> bounded vs [new] ->
  exists h', assign_copy old new h = Some (new, h') /\ Inv (<[v := new]> vs) [] h' /\
    events h' = events h ++ end_events h old (<[v := new]> vs) [].
Proof.
  intros Hv Hl HI Hb.
  destruct (ctor_copy_spec vs [] h new) as (h1 & E1 & HI1 & Hev1 & Hcr); [done| |done|].
  { unfold bounded in *. cbn in *. lia. }
  apply (Inv_take _ _ _ v old) in HI1; [|done].
  apply (Inv_perm _ _ [new; old]), (Inv_bind _ _ _ v new) in HI1;
    [|by apply lookup_delete_eq|apply perm_swap].
  rewrite insert_delete_eq in HI1.
  destruct (dtor_spec (<[v := new]> vs) [] h1 old) as (h2 & E2 & HI2 & Hev2); [done| |].
  { unfold bounded in *. rewrite map_size_insert_Some by by eexists. cbn in *. lia. }
  exists h2. unfold assign_copy. rewrite E1. cbn. rewrite E2. cbn.
  split; [done|]. split; [done|]. rewrite Hev2, Hev1. f_equal.
  unfold end_events. destruct old as [p|]; [|done]. by rewrite Hcr.
Qed.

Definition obj_of (e : event) : Z := match e with Released _ p => p | Deleted p => p end.

(** The event for [p] is a call of its creator's [release], or its deletion
    when it has none. *)
Definition right_kind (h : heap) (e : event) : Prop :=
  e = match objs h !! obj_of e ≫= mCreator with
      | Some c => Released c (obj_of e)
      | None => Deleted (obj_of e)
      end.

(** [evs] reports exactly the objects whose last pointer went away between the
    variables [vs] and [vs']. *)
Definition reports (h : heap) (evs : list event) (vs vs' : gmap Z ptr) : Prop :=
  NoDup (obj_of <$> evs) /\ Forall (right_kind h) evs /\
  forall p, p ∈ obj_of <$> evs <-> refs vs p <> 0%nat /\ refs vs' p = 0%nat.

Lemma reports_none h vs vs' :
  (forall p, refs vs' p = 0%nat -> refs vs p = 0%nat) -> reports h [] vs vs'.
Proof.
  intros Hle. split; [constructor|]. split; [constructor|]. intros p. specialize (Hle p).
  rewrite elem_of_nil. split; [done|]. intros [H0 H1]. auto.
Qed.

Lemma reports_end h vs vs' old (new : Z -> nat) :
  (forall p, (refs vs p + new p = hit old p + refs vs' p)%nat /\ (new p <= refs vs' p)%nat) ->
  reports h (end_events h old vs' []) vs vs'.
Proof.
  intros Heq. destruct old as [q|]; cbn.
  2:{ apply reports_none. intros p. destruct (Heq p) as [He Hn]. unfold hit in He.
      rewrite decide_False in He by done. lia. }
  unfold temps. cbn. rewrite Nat.add_0_r. case_decide as Hz.
  - split; [|split].
    + destruct (_ ≫= _); apply NoDup_singleton.
    + repeat constructor. unfold right_kind. destruct (objs h !! q ≫= mCreator) eqn:E; constructor; cbn; by rewrite ?E.
    + intros p. destruct (Heq p) as [He Hn]. unfold hit in He.
      transitivity (p = q); [destruct (_ ≫= _); cbn; by rewrite list_elem_of_singleton|].
      split.
      * intros ->. rewrite decide_True in He by done. lia.
      * intros [H1 H2]. case_decide; [congruence|lia].
  - apply reports_none. intros p. destruct (Heq p) as [He Hn]. unfold hit in He.
    destruct (decide (p = q)) as [->|Hn'].
    + rewrite decide_True in He by done. lia.
    + rewrite decide_False in He by congruence. lia.
Qed.

(** What a program may do: a variable is declared once and used while it
    exists, a raw pointer is to an object that exists, and there are fewer
    than 2^64 - 2 pointers. *)
Definition legal (o : op) (st : state) : Prop :=
  Z.of_nat (size (vars st)) < 2 ^ 64 - 2 /\
  match o with
  | Declare_default v => vars st !! v = None
  | Declare_raw v p => vars st !! v = None /\ live (hp st) p
  | Declare_copy v w => vars st !! v = None /\ is_Some (vars st !! w)
  | Assign_copy v w | Swap_ptrs v w => is_Some (vars st !! v) /\ is_Some (vars st !! w)
  | Assign_raw v p | Reset_raw v p => is_Some (vars st !! v) /\ live (hp st) p
  | Reset_ptr v | Destroy v => is_Some (vars st !! v)
  | New_object p _ => objs (hp st) !! p = None
  end.

Lemma live_var vs ts h v px : Inv vs ts h -> vs !! v = Some px -> live h px.
Proof. intros [_ Hlv _] Hv. destruct px; [by eapply Hlv|done]. Qed.

Lemma refs_replace vs v old new p :
  vs !! v = Some old ->
  (refs vs p + hit new p = hit old p + refs (<[v := new]> vs) p)%nat /\
  (hit new p <= refs (<[v := new]> vs) p)%nat.
Proof.
  intros Hv. rewrite (refs_delete vs v old p Hv), <- insert_delete_eq.
  rewrite refs_insert by apply lookup_delete_eq. lia.
Qed.

Lemma refs_fresh vs p : (forall v, vs !! v <> Some (Some p)) -> refs vs p = 0%nat.
Proof.
  intros Hf. apply map_size_empty_iff, map_empty_filter_2. intros v px Hv. cbn. intros ->.
  by apply (Hf v).
Qed.

Lemma refs_pointed vs p : refs vs p <> 0%nat <-> exists v, vs !! v = Some (Some p).
Proof.
  split.
  - intros Hr. unfold refs in Hr. rewrite map_size_empty_iff in Hr.
    apply map_choose in Hr as (v & px & Hv). apply map_lookup_filter_Some in Hv as [Hv E].
    cbn in E. subst px. by exists v.
  - intros [v Hv]. rewrite (refs_delete vs v (Some p) p Hv). unfold hit.
    rewrite decide_True by done. lia.
Qed.

Definition step_ok (st : state) (r : option state) : Prop :=
  exists st' evs, r = Some st' /\ Inv (vars st') [] (hp st') /\
    events (hp st') = events (hp st) ++ evs /\ reports (hp st) evs (vars st) (vars st').

Lemma declare_ok st v px :
  Inv (vars st) [] (hp st) -> bounded (vars st) [px] -> vars st !! v = None -> live (hp st) px ->
  step_ok st (set_var v st <$> ctor_copy px (hp st)).
Proof.
  intros HI Hb Hv Hl.
  destruct (ctor_copy_spec (vars st) [] (hp st) px) as (h' & E & HI' & Hev & _); [done| |done|].
  { unfold bounded in *. cbn in *. lia. }
  exists (set_var v st (px, h')), []. rewrite E. split; [done|]. cbn.
  split; [by apply Inv_bind|]. split; [by rewrite app_nil_r|].
  apply reports_none. intros p. rewrite refs_insert by done. lia.
Qed.

Lemma replace_ok st v old new :
  Inv (vars st) [] (hp st) -> bounded (vars st) [new] -> vars st !! v = Some old ->
  live (hp st) new -> step_ok st (set_var v st <$> assign_copy old new (hp st)).
Proof.
  intros HI Hb Hv Hl.
  destruct (replace_spec (vars st) (hp st) v old new) as (h' & E & HI' & Hev); [done..|].
  eexists (set_var v st (new, h')), _. rewrite E. split; [done|]. cbn.
  split; [done|]. split; [done|]. apply (reports_end _ _ _ _ (hit new)).
  intros p. by apply refs_replace.
Qed.

Lemma destroy_ok st v px :
  Inv (vars st) [] (hp st) -> bounded (vars st) [] -> vars st !! v = Some px ->
  step_ok st (exec (Destroy v) st).
Proof.
  intros HI Hb Hv. pose proof (Inv_take _ _ _ v px Hv HI) as HI1.
  destruct (dtor_spec (delete v (vars st)) [] (hp st) px) as (h' & E & HI' & Hev); [done| |].
  { unfold bounded in *. rewrite map_size_delete. destruct (vars st !! v); cbn in *; lia. }
  eexists (State (delete v (vars st)) h'), _. cbn. rewrite Hv. cbn. rewrite E.
  split; [done|]. split; [done|]. split; [done|].
  apply (reports_end _ _ _ _ (fun _ => 0%nat)). intros p.
  rewrite (refs_delete (vars st) v px p) by done. lia.
Qed.

Lemma swap_ok st v w :
  Inv (vars st) [] (hp st) -> is_Some (vars st !! v) -> is_Some (vars st !! w) ->
  step_ok st (exec (Swap_ptrs v w) st).
Proof.
  intros HI [a Ha] [b Hb].
  eexists (State (<[v := b]> (<[w := a]> (vars st))) (hp st)), []. cbn. rewrite Ha, Hb. cbn.
  split; [done|].
  assert (forall p, refs (<[v := b]> (<[w := a]> (vars st))) p = refs (vars st) p) as Hrefs.
  { intros p. destruct (decide (v = w)) as [->|Hne].
    - rewrite insert_insert_eq, insert_id by congruence. done.
    - destruct (refs_replace (<[w := a]> (vars st)) v a b p) as [H1 _]; [by rewrite lookup_insert_ne|].
      destruct (refs_replace (vars st) w b a p) as [H2 _]; [done|]. lia. }
  destruct HI as [Hc Hlv Hlt]. split; [split|split]; cbn.
  - intros p o Ho. by rewrite Hrefs, (Hc p o Ho).
  - intros u p [[-> ->]|[_ [[-> ->]|[_ Hu]]%lookup_insert_Some]]%lookup_insert_Some; by eapply Hlv.
  - by intros p ?%elem_of_nil.
  - by rewrite app_nil_r.
  - apply reports_none. intros p. by rewrite Hrefs.
Qed.

Lemma new_object_ok st p c :
  Inv (vars st) [] (hp st) -> objs (hp st) !! p = None ->
  step_ok st (exec (New_object p c) st).
Proof.
  intros [Hc Hlv Hlt] Hp. eexists (State _ (Heap _ _)), []. cbn. rewrite Hp. cbn.
  split; [done|]. split; [split|split]; cbn.
  - intros q o [[<- <-]|[_ Hq]]%lookup_insert_Some; [|by apply Hc]. cbn.
    rewrite refs_fresh; [done|]. intros v Hv. destruct (Hlv v p Hv). congruence.
  - intros v q Hv. rewrite lookup_insert_is_Some'. right. by eapply Hlv.
  - by intros q ?%elem_of_nil.
  - by rewrite app_nil_r.
  - by apply reports_none.
Qed.

Lemma exec_ok o st :
  Inv (vars st) [] (hp st) -> legal o st -> step_ok st (exec o st).
Proof.
  intros HI [Hb Hl].
  assert (forall px, bounded (vars st) [px]) as Hb1 by (intros; unfold bounded; cbn; lia).
  assert (bounded (vars st) []) as Hb0 by (unfold bounded; cbn; lia).
  destruct o; cbn [exec].
  - rewrite option_guard_True by done. by apply (declare_ok st v None).
  - destruct Hl. rewrite option_guard_True by done. rewrite ctor_raw_copy. by apply declare_ok.
  - destruct Hl as [? [rhs Hw]]. rewrite option_guard_True, Hw by done. cbn.
    apply declare_ok; [done..|by eapply live_var].
  - destruct Hl as [[this Hv] [rhs Hw]]. rewrite Hv, Hw. cbn.
    apply replace_ok; [done..|by eapply live_var].
  - destruct Hl as [[this Hv] Hp]. rewrite Hv. cbn. unfold assign_raw. rewrite ctor_raw_copy.
    by apply (replace_ok st v this p).
  - destruct Hl as [this Hv]. rewrite Hv. cbn. by apply (replace_ok st v this None).
  - destruct Hl as [[this Hv] Hp]. rewrite Hv. cbn. unfold reset_raw, assign_raw.
    rewrite ctor_raw_copy. by apply (replace_ok st v this p).
  - destruct Hl. by apply swap_ok.
  - destruct Hl as [px Hv]. by apply (destroy_ok st v px).
  - by apply new_object_ok.
Qed.

(** An object that has a creator stays, and keeps its creator. *)
Definition keeps (h h' : heap) : Prop :=
  forall p o c, objs h !! p = Some o -> mCreator o = Some c ->
  exists o', objs h' !! p = Some o' /\ mCreator o' = Some c.

Lemma keeps_refl h : keeps h h.
Proof. intros p o c Ho Hc. by exists o. Qed.

Lemma keeps_trans h1 h2 h3 : keeps h1 h2 -> keeps h2 h3 -> keeps h1 h3.
Proof. intros K1 K2 p o c Ho Hc. destruct (K1 p o c Ho Hc) as (o' & Ho' & Hc'). by eapply K2. Qed.

Lemma keeps_count p o n h :
  objs h !! p = Some o -> keeps h (Heap (<[p := Tracked n (mCreator o)]> (objs h)) (events h)).
Proof.
  intros Hp q o' c Hq Hc. cbn. destruct (decide (p = q)) as [<-|].
  - rewrite lookup_insert_eq. eexists. split; [done|]. cbn. congruence.
  - rewrite lookup_insert_ne by done. by exists o'.
Qed.

Lemma ctor_copy_keeps px h r h' : ctor_copy px h = Some (r, h') -> keeps h h'.
Proof.
  destruct px as [p|]; cbn; [|intros [= _ <-]; apply keeps_refl]. unfold add_ref.
  destruct (objs h !! p) as [o|] eqn:Ho; [|done]. intros [= _ <-]. by apply keeps_count.
Qed.

Lemma releaseObject_keeps p h h' : releaseObject p h = Some h' -> keeps h h'.
Proof.
  unfold releaseObject. destruct (objs h !! p) as [o|] eqn:Ho; [|done]. cbn.
  destruct (mCreator o) as [c|] eqn:Ec; intros [= <-] q o' c' Hq Hc; [by exists o'|].
  exists o'. split; [|done]. cbn. rewrite lookup_delete_ne; congruence.
Qed.

Lemma dtor_keeps px h h' : dtor px h = Some h' -> keeps h h'.
Proof.
  destruct px as [p|]; cbn; [|intros [= <-]; apply keeps_refl]. unfold release.
  destruct (objs h !! p) as [o|] eqn:Ho; [|done]. cbn.
  pose proof (keeps_count p o (u64 (mReference o - 1)) h Ho) as K.
  destruct (_ =? 0); [|by intros [= <-]]. intros E. by eapply keeps_trans, releaseObject_keeps.
Qed.

Lemma assign_copy_keeps this rhs h r h' : assign_copy this rhs h = Some (r, h') -> keeps h h'.
Proof.
  unfold assign_copy. destruct (ctor_copy rhs h) as [[tmp h1]|] eqn:E1; [|done]. cbn.
  destruct (dtor this h1) as [h2|] eqn:E2; [|done]. intros [= _ <-].
  by eapply keeps_trans; [eapply ctor_copy_keeps|eapply dtor_keeps].
Qed.

Lemma set_var_keeps v st r st' h :
  (forall px h', r = Some (px, h') -> keeps h h') ->
  set_var v st <$> r = Some st' -> keeps h (hp st').
Proof. intros K. destruct r as [[px h']|]; [|done]. cbn. intros [= <-]. by eapply K. Qed.

Lemma exec_keeps o st st' : exec o st = Some st' -> keeps (hp st) (hp st').
Proof.
  assert (forall v this rhs, set_var v st <$> assign_copy this rhs (hp st) = Some st' ->
    keeps (hp st) (hp st')) as Hassign.
  { intros v this rhs. apply set_var_keeps. intros px h'. apply assign_copy_keeps. }
  assert (forall v px, set_var v st <$> ctor_copy px (hp st) = Some st' ->
    keeps (hp st) (hp st')) as Hctor.
  { intros v px. apply set_var_keeps. intros px' h'. apply ctor_copy_keeps. }
  destruct o as [v|v px|v w|v w|v px|v|v px|v w|v|p c]; cbn [exec]; intros E.
  - apply bind_Some in E as (_ & _ & [= <-]). apply keeps_refl.
  - apply bind_Some in E as (_ & _ & E). rewrite ctor_raw_copy in E. by eapply Hctor.
  - apply bind_Some in E as (_ & _ & (rhs & _ & E)%bind_Some). by eapply Hctor.
  - apply bind_Some in E as (this & _ & (rhs & _ & E)%bind_Some). by eapply Hassign.
  - apply bind_Some in E as (this & _ & E). unfold assign_raw in E. rewrite ctor_raw_copy in E.
    by apply (Hassign v this px).
  - apply bind_Some in E as (this & _ & E). by apply (Hassign v this None).
  - apply bind_Some in E as (this & _ & E). unfold reset_raw, assign_raw in E.
    rewrite ctor_raw_copy in E. by apply (Hassign v this px).
  - apply bind_Some in E as (this & _ & (rhs & _ & E)%bind_Some). injection E as <-. apply keeps_refl.
  - apply bind_Some in E as (px & _ & (h & Eh & E)%bind_Some). injection E as <-.
    by eapply dtor_keeps.
  - apply bind_Some in E as (Hn & _ & E). injection E as <-. intros q o c' Hq Hc. cbn.
    rewrite lookup_insert_ne by congruence. by exists o.
Qed.

(** The raw pointer an operation is given. *)
Definition raw_of (o : op) : ptr :=
  match o with Declare_raw _ px | Assign_raw _ px | Reset_raw _ px => px | _ => None end.

Lemma ctor_copy_value px h r h' : ctor_copy px h = Some (r, h') -> r = px.
Proof. destruct px as [p|]; cbn; [|congruence]. destruct (add_ref p h); cbn; congruence. Qed.

Lemma assign_copy_value this rhs h r h' : assign_copy this rhs h = Some (r, h') -> r = rhs.
Proof.
  unfold assign_copy. destruct (ctor_copy rhs h) as [[tmp h1]|] eqn:E1; [|done]. cbn.
  apply ctor_copy_value in E1 as ->. destruct (dtor this h1); cbn; congruence.
Qed.

Lemma set_var_value v st r st' px :
  (forall r0 h', r = Some (r0, h') -> r0 = px) -> set_var v st <$> r = Some st' ->
  vars st' = <[v := px]> (vars st).
Proof.
  intros K. destruct r as [[r0 h']|]; [|done]. cbn. intros [= <-]. cbn. by rewrite (K r0 h').
Qed.

Lemma assign_raw_value v px st st' :
  exec (Assign_raw v px) st = Some st' -> vars st' = <[v := px]> (vars st).
Proof.
  intros (this & _ & E)%bind_Some. unfold assign_raw in E. rewrite ctor_raw_copy in E.
  eapply set_var_value; [|exact E]. intros r0 h'. apply (assign_copy_value this).
Qed.

(** A variable points to what one pointed to before, or to the raw pointer. *)
Lemma exec_targets o st st' v q :
  exec o st = Some st' -> vars st' !! v = Some (Some q) ->
  (exists w, vars st !! w = Some (Some q)) \/ raw_of o = Some q.
Proof.
  assert (forall u (px : ptr), vars st' = <[u := px]> (vars st) -> vars st' !! v = Some (Some q) ->
    (exists w, vars st !! w = Some (Some q)) \/ px = Some q) as Hset.
  { intros u px ->. intros [[-> ->]|[_ Hv]]%lookup_insert_Some; [by right|left; by exists v]. }
  assert (forall u r px, (forall r0 h', r = Some (r0, h') -> r0 = px) ->
    set_var u st <$> r = Some st' -> vars st' !! v = Some (Some q) ->
    (exists w, vars st !! w = Some (Some q)) \/ px = Some q) as Hv.
  { intros u r px K E. by eapply Hset, set_var_value. }
  assert (forall w rhs, vars st !! w = Some rhs ->
    (exists w, vars st !! w = Some (Some q)) \/ rhs = Some q ->
    (exists w, vars st !! w = Some (Some q)) \/ None = Some q) as Hw.
  { intros w rhs Hw [?| ->]; [by left|left; by exists w]. }
  destruct o as [u|u px|u w|u w|u px|u|u px|u w|u|p c]; cbn [exec raw_of]; intros E Hq.
  - apply bind_Some in E as (_ & _ & [= <-]). eapply (Hset u None); done.
  - apply bind_Some in E as (_ & _ & E). rewrite ctor_raw_copy in E.
    by eapply Hv; [intros r0 h'; apply ctor_copy_value|..].
  - apply bind_Some in E as (_ & _ & (rhs & Hrhs & E)%bind_Some). apply (Hw w rhs Hrhs).
    by eapply Hv; [intros r0 h'; apply ctor_copy_value|..].
  - apply bind_Some in E as (this & _ & (rhs & Hrhs & E)%bind_Some). apply (Hw w rhs Hrhs).
    by eapply Hv; [intros r0 h'; apply (assign_copy_value this)|..].
  - apply assign_raw_value in E. by eapply Hset.
  - apply bind_Some in E as (this & _ & E).
    eapply Hv; [intros r0 h'; apply (assign_copy_value this None)|exact E|done].
  - apply assign_raw_value in E. by eapply Hset.
  - apply bind_Some in E as (lhs & Hl & (rhs & Hr & E)%bind_Some). injection E as <-. cbn in Hq.
    apply lookup_insert_Some in Hq as [[_ ->]|[_ Hq]]; [left; by exists w|].
    apply lookup_insert_Some in Hq as [[_ ->]|[_ Hq]]; left; eauto.
  - apply bind_Some in E as (px & _ & (h & _ & E)%bind_Some). injection E as <-. cbn in Hq.
    apply lookup_delete_Some in Hq as [_ Hq]. left. by exists v.
  - apply bind_Some in E as (_ & _ & [= <-]). left. by exists v.
Qed.

Fixpoint legal_run (os : list op) (st : state) : Prop :=
  match os with
  | [] => True
  | o :: os => legal o st /\ forall st', exec o st = Some st' -> legal_run os st'
  end.

Lemma run_ok os st :
  Inv (vars st) [] (hp st) -> legal_run os st ->
  exists st', run os st = Some st' /\ Inv (vars st') [] (hp st').
Proof.
  revert st. induction os as [|o os IH]; intros st HI; [by exists st|].
  intros [Hl Hos]. destruct (exec_ok o st HI Hl) as (st' & evs & E & HI' & _).
  cbn. rewrite E. cbn. by apply IH; [|apply Hos].
Qed.

(** C35: reference counts are exact. Any legal program over smart pointers
    runs to its end, never touching an object that has been deleted, and then
    the count of each object is the number of variables that point to it and
    every variable points to an object that exists. *)
Theorem reference_counts_exact os :
  legal_run os initial ->
  exists st, run os initial = Some st /\
    (forall p o, objs (hp st) !! p = Some o -> referenceCount o = Z.of_nat (refs (vars st) p)) /\
    (forall v p, vars st !! v = Some (Some p) -> is_Some (objs (hp st) !! p)).
Proof.
  intros Hl. destruct (run_ok os initial) as (st & E & [Hc Hlv _]); [|done|].
  { split; cbn; intros *; rewrite ?lookup_empty, ?elem_of_nil; done. }
  exists st. split; [done|]. split; [|done]. intros p o Ho.
  unfold referenceCount. rewrite (Hc p o Ho). unfold temps. cbn. by rewrite Nat.add_0_r.
Qed.

(** A datastore that owns its iterator lends it twice through a smart pointer. *)
Definition lending : list op :=
  [ New_object 64 (Some 1); Declare_default 10; Assign_raw 10 (Some 64); Declare_copy 11 10;
    Destroy 10; Destroy 11; Declare_raw 12 (Some 64) ].

Ltac legal_step :=
  split; [cbn -[Z.pow]; split; [reflexivity|]; vm_compute; eauto|
          let st := fresh in let E := fresh in intros st E; vm_compute in E;
          apply (inj Some) in E; subst st].

Lemma reference_counts_exact_witness :
  exists st, run lending initial = Some st /\
    forall o, objs (hp st) !! 64 = Some o -> referenceCount o = 1.
Proof.
  destruct (reference_counts_exact lending) as (st & E & Hc & _).
  { unfold lending. repeat legal_step. exact I. }
  exists st. split; [exact E|]. intros o Ho. rewrite (Hc 64 o Ho).
  vm_compute in E. apply (inj Some) in E. subst st. reflexivity.
Defined.

(** C36: an object's end is signalled exactly when its last pointer goes. A
    legal operation appends to the event log the objects that some variable
    pointed to before and none points to after, each once: a call of the
    creator's [release] if the object has a creator, its deletion if not. *)
Theorem release_exactly_last o st :
  Inv (vars st) [] (hp st) -> legal o st ->
  exists st' evs, exec o st = Some st' /\ events (hp st') = events (hp st) ++ evs /\
    NoDup (obj_of <$> evs) /\ Forall (right_kind (hp st)) evs /\
    (forall p, p ∈ obj_of <$> evs <-> refs (vars st) p <> 0%nat /\ refs (vars st') p = 0%nat) /\
    Inv (vars st') [] (hp st').
Proof.
  intros HI Hl. destruct (exec_ok o st HI Hl) as (st' & evs & E & HI' & Hev & Hn & Hk & Hp).
  by exists st', evs.
Qed.

Lemma release_exactly_last_witness :
  let st := State {[10 := Some 64]} (Heap {[64 := Tracked 1 (Some 1)]} []) in
  exists st' evs, exec (Reset_ptr 10) st = Some st' /\ events (hp st') = evs /\
    evs = [Released 1 64].
Proof.
  intros st. destruct (release_exactly_last (Reset_ptr 10) st) as (st' & evs & E & Hev & _).
  - split.
    + intros p o Ho. cbn in Ho. apply lookup_singleton_Some in Ho as [<- <-]. reflexivity.
    + intros v p Hv. cbn in Hv. apply lookup_singleton_Some in Hv as [<- [= <-]]. by eexists.
    + by intros p ?%elem_of_nil.
  - split; [reflexivity|]. by eexists.
  - exists st', (events (hp st')). split; [exact E|]. split; [reflexivity|].
    vm_compute in E. apply (inj Some) in E. subst st'. reflexivity.
Defined.

End Intrusive.
