(* ===== verification/ObjectPool.v ===== *)
(** * ObjectPool: a pool of reusable objects (utils/ObjectPool.h)

    A pool hands out objects of type [T] from arrays it allocates. A [T*] is
    modelled as an array and an index in it, and the heap as the arrays that
    exist, with what each object holds. [new T[n]] fails with [bad_alloc] when
    the heap has no room left. *)
From S2P Require Import Prelude.
#[local] Open Scope Z_scope.

(** The template argument: the object a default constructor makes and its
    method [reset]. *)
Class PoolItem := {
  item : Type;
  item_new : item;
  item_reset : item -> item;
}.

Module ObjectPool.

Inductive result (A : Type) :=
| Ok (a : A)
| Bad_alloc
| Undefined.
#[global] Arguments Ok {A} a.
#[global] Arguments Bad_alloc {A}.
#[global] Arguments Undefined {A}.

#[global] Instance Ok_inj A : Inj (=) (=) (@Ok A).
Proof. by intros ?? [= ->]. Qed.

Definition ptr : Type := Z * Z.

Section pool.
Context `{PoolItem}.

(** [room] is the number of objects there is memory for. *)
Record heap := Heap { next_array : Z; room : Z; arrays : gmap Z (list item) }.

Definition new_array (count : Z) (h : heap) : result (Z * heap) :=
  if count <=? room h then
    Ok (next_array h,
        Heap (next_array h + 1) (room h - count)
             (<[next_array h := replicate (Z.to_nat count) item_new]> (arrays h)))
  else Bad_alloc.

Definition delete_array (b : Z) (h : heap) : result heap :=
  match arrays h !! b with
  | Some xs => Ok (Heap (next_array h) (room h + Z.of_nat (length xs)) (delete b (arrays h)))
  | None => Undefined
  end.

(** [p->reset()]. *)
Definition reset_at (p : ptr) (h : heap) : result heap :=
  match arrays h !! p.1 with
  | Some xs =>
      if bool_decide (0 <= p.2 < Z.of_nat (length xs)) then
        Ok (Heap (next_array h) (room h) (<[p.1 := alter item_reset (Z.to_nat p.2) xs]> (arrays h)))
      else Undefined
  | None => Undefined
  end.

Record CacheItem := MkCacheItem { count : Z; cache : Z }.

Record t := Make {
  mFreeItems : list ptr;
  mItemCaches : list CacheItem;
  mMaxItems : Z;
  mCurrItems : Z;
  mIncreaseStep : Z;
  mAllocationCount : Z;
}.

(** [for (i = 0; i < n; i++) mFreeItems.push_back(--cache)]. *)
Fixpoint push_items (n : nat) (b pos : Z) (free : list ptr) : list ptr :=
  match n with
  | O => free
  | S n => push_items n b (pos - 1) (free ++ [(b, pos - 1)])
  end.

Definition resize (cnt : Z) (o : t) (h : heap) : result (bool * t * heap) :=
  let cnt := if mMaxItems o <? u64 (mCurrItems o + cnt)
             then u64 (mMaxItems o - mCurrItems o) else cnt in
  if (0 <? cnt) && (u64 (mCurrItems o + cnt) <=? mMaxItems o) then
    match new_array cnt h with
    | Ok (b, h) =>
        Ok (true,
            Make (push_items (Z.to_nat cnt) b cnt (mFreeItems o))
                 (mItemCaches o ++ [MkCacheItem cnt b]) (mMaxItems o)
                 (u64 (mCurrItems o + cnt)) (mIncreaseStep o) (u64 (mAllocationCount o + 1)), h)
    | Bad_alloc => Bad_alloc
    | Undefined => Undefined
    end
  else Ok (false, o, h).

(** The constructor. *)
Definition construct (initialCapacity maxItems increaseStep : Z) (h : heap) : result (t * heap) :=
  let step := if increaseStep =? 0 then initialCapacity ≫ 1 else increaseStep in
  match resize initialCapacity (Make [] [] maxItems 0 step 0) h with
  | Ok (_, o, h) => Ok (o, h)
  | Bad_alloc => Bad_alloc
  | Undefined => Undefined
  end.

(** The destructor. *)
Fixpoint delete_caches (cs : list CacheItem) (h : heap) : result heap :=
  match cs with
  | [] => Ok h
  | c :: cs =>
      match delete_array (cache c) h with
      | Ok h => delete_caches cs h
      | Bad_alloc => Bad_alloc
      | Undefined => Undefined
      end
  end.
Definition destruct_pool (o : t) (h : heap) : result heap := delete_caches (mItemCaches o) h.

Definition set_free (free : list ptr) (o : t) : t :=
  Make free (mItemCaches o) (mMaxItems o) (mCurrItems o) (mIncreaseStep o) (mAllocationCount o).

(** [back], [pop_back] and [reset] of the object popped; no object to pop is
    undefined behaviour. *)
Definition take_back (o : t) (h : heap) : result (option ptr * t * heap) :=
  match last (mFreeItems o) with
  | Some p =>
      match reset_at p h with
      | Ok h => Ok (Some p, set_free (removelast (mFreeItems o)) o, h)
      | Bad_alloc => Bad_alloc
      | Undefined => Undefined
      end
  | None => Undefined
  end.

Definition create (o : t) (h : heap) : result (option ptr * t * heap) :=
  match mFreeItems o with
  | _ :: _ => take_back o h
  | [] =>
      match resize (mIncreaseStep o) o h with
      | Ok (true, o, h) => take_back o h
      | Ok (false, o, h) => Ok (None, o, h)
      | Bad_alloc => Bad_alloc
      | Undefined => Undefined
      end
  end.

(** The test of the assertion in the [DEBUG] build: the object is in this cache. *)
Definition in_cache (p : ptr) (c : CacheItem) : bool :=
  (p.1 =? cache c) && (0 <=? p.2) && (p.2 <? count c).
Definition asserts (debug : bool) (p : ptr) (o : t) : bool :=
  negb debug || forallb (in_cache p) (mItemCaches o).

(** A failed assertion ends the program, here as [Undefined]. *)
Definition destroy (debug : bool) (p : option ptr) (o : t) : result (bool * t) :=
  match p with
  | None => Ok (false, o)
  | Some p => if asserts debug p o then Ok (true, set_free (mFreeItems o ++ [p]) o) else Undefined
  end.

(** [destroy(T *items, size_t count)], a loop over consecutive objects. *)
Fixpoint destroy_loop (debug : bool) (n : nat) (current : ptr) (itemCount : Z) (o : t) : result (Z * t) :=
  match n with
  | O => Ok (itemCount, o)
  | S n =>
      if asserts debug current o then
        destroy_loop debug n (current.1, current.2 + 1) (u64 (itemCount + 1))
                     (set_free (mFreeItems o ++ [current]) o)
      else Undefined
  end.
Definition destroy_many (debug : bool) (items : option ptr) (cnt : Z) (o : t) : result (Z * t) :=
  match items with
  | Some p => destroy_loop debug (Z.to_nat cnt) p 0 o
  | None => if cnt =? 0 then Ok (0, o) else Undefined
  end.

Definition capacity (o : t) : Z := mMaxItems o.
Definition availableCount (o : t) : Z := Z.of_nat (length (mFreeItems o)).
Definition allocationCount (o : t) : Z := mAllocationCount o.

Fixpoint push_caches (cs : list CacheItem) (free : list ptr) : list ptr :=
  match cs with
  | [] => free
  | c :: cs => push_caches cs (push_items (Z.to_nat (count c)) (cache c) (count c) free)
  end.
Definition reset (o : t) : t := set_free (push_caches (mItemCaches o) []) o.

(** ** The invariant *)

(** The objects of an array of [c] objects, and of all the caches of a pool. *)
Definition slots (b c : Z) : list ptr := pair b <$> seqZ 0 c.
Definition pool_slots (cs : list CacheItem) : list ptr := cs ≫= fun c => slots (cache c) (count c).
Definition total (cs : list CacheItem) : Z :=
  Z.of_nat (sum_list_with (fun c => Z.to_nat (count c)) cs).

(** Arrays are numbered upwards, so the next number is free. *)
Definition fresh (h : heap) : Prop := forall b, next_array h <= b -> arrays h !! b = None.

(** [out] are the objects the pool has handed out: with the free ones they are
    the objects of the arrays of the pool, each once. *)
Record Inv (o : t) (h : heap) (out : list ptr) : Prop := {
  inv_slots : mFreeItems o ++ out ≡ₚ pool_slots (mItemCaches o);
  inv_nodup : NoDup (cache <$> mItemCaches o);
  inv_arrays : forall c, c ∈ mItemCaches o ->
    0 < count c /\ cache c < next_array h /\
    exists xs, arrays h !! cache c = Some xs /\ Z.of_nat (length xs) = count c;
  inv_curr : mCurrItems o = total (mItemCaches o);
  inv_max : mCurrItems o <= mMaxItems o < 2 ^ 64;
  inv_step : 0 <= mIncreaseStep o < 2 ^ 64;
  inv_allocs : mAllocationCount o = Z.of_nat (length (mItemCaches o));
  inv_room : 0 <= room h /\ mCurrItems o + room h < 2 ^ 63;
  inv_fresh : fresh h;
}.

Lemma push_items_eq n b pos free :
  push_items n b pos free = free ++ reverse (pair b <$> seqZ (pos - Z.of_nat n) (Z.of_nat n)).
Proof.
  revert pos free. induction n as [|n IH]; intros pos free; cbn [push_items].
  - by rewrite app_nil_r.
  - rewrite IH. replace (Z.of_nat (S n)) with (Z.of_nat n + 1) by lia.
    rewrite seqZ_app, fmap_app, reverse_app by lia. rewrite <- app_assoc. f_equal.
    replace (pos - (Z.of_nat n + 1)) with (pos - 1 - Z.of_nat n) by lia.
    replace (pos - 1 - Z.of_nat n + Z.of_nat n) with (pos - 1) by lia. done.
Qed.

Lemma push_items_slots b c free :
  0 <= c -> push_items (Z.to_nat c) b c free = free ++ reverse (slots b c).
Proof. intros Hc. rewrite push_items_eq, Z2Nat.id by done. by rewrite Z.sub_diag. Qed.

Lemma elem_of_slots p b c : p ∈ slots b c <-> p.1 = b /\ 0 <= p.2 < c.
Proof.
  unfold slots. rewrite list_elem_of_fmap. destruct p as [b' i]. cbn. split.
  - intros (j & [= -> ->] & Hj%elem_of_seqZ). lia.
  - intros [-> Hi]. exists i. rewrite elem_of_seqZ. split; [done|lia].
Qed.

Lemma length_slots b c : length (slots b c) = Z.to_nat c.
Proof. unfold slots. by rewrite length_fmap, length_seqZ. Qed.

Lemma NoDup_slots b c : NoDup (slots b c).
Proof. apply (NoDup_fmap_2 _), NoDup_seqZ. Qed.

Lemma elem_of_pool_slots p cs :
  p ∈ pool_slots cs <-> exists c, c ∈ cs /\ p.1 = cache c /\ 0 <= p.2 < count c.
Proof.
  unfold pool_slots. rewrite list_elem_of_bind. setoid_rewrite elem_of_slots.
  split; intros (c & ? & ?); by exists c.
Qed.

Lemma pool_slots_app cs1 cs2 : pool_slots (cs1 ++ cs2) = pool_slots cs1 ++ pool_slots cs2.
Proof. apply bind_app. Qed.

Lemma length_pool_slots cs : Z.of_nat (length (pool_slots cs)) = total cs.
Proof.
  unfold total. f_equal. induction cs as [|c cs IH]; [done|].
  change (pool_slots (c :: cs)) with (slots (cache c) (count c) ++ pool_slots cs).
  rewrite length_app, length_slots, IH. done.
Qed.

Lemma cache_inj cs c1 c2 :
  NoDup (cache <$> cs) -> c1 ∈ cs -> c2 ∈ cs -> cache c1 = cache c2 -> c1 = c2.
Proof.
  intros Hn [i Hi]%list_elem_of_lookup [j Hj]%list_elem_of_lookup He.
  assert (i = j) as <-; [|congruence].
  eapply (NoDup_lookup (cache <$> cs)); [done|by rewrite list_lookup_fmap, Hi|].
  by rewrite list_lookup_fmap, Hj, He.
Qed.

Lemma NoDup_pool_slots cs : NoDup (cache <$> cs) -> NoDup (pool_slots cs).
Proof.
  intros Hn. apply NoDup_bind.
  - intros c1 c2 p H1 H2 [E1 _]%elem_of_slots [E2 _]%elem_of_slots.
    apply (cache_inj cs); [done..|congruence].
  - intros c _. apply NoDup_slots.
  - by eapply NoDup_fmap_1.
Qed.

Lemma total_snoc cs c : 0 <= count c -> total (cs ++ [c]) = total cs + count c.
Proof. intros Hc. unfold total. rewrite sum_list_with_app. cbn. lia. Qed.

Lemma total_pos cs : (forall c, c ∈ cs -> 0 < count c) -> Z.of_nat (length cs) <= total cs.
Proof.
  unfold total. induction cs as [|c cs IH]; intros Hc; cbn; [lia|].
  pose proof (Hc c ltac:(left)). assert (forall c, c ∈ cs -> 0 < count c) by (intros; apply Hc; by right).
  specialize (IH ltac:(done)). lia.
Qed.

Lemma slots_Inv_perm o h out out' : out ≡ₚ out' -> Inv o h out -> Inv o h out'.
Proof. intros Hp []. split; [by rewrite <- Hp|done..]. Qed.

Lemma Inv_distinct o h out : Inv o h out -> NoDup (mFreeItems o ++ out).
Proof. intros HI. rewrite (inv_slots _ _ _ HI). apply NoDup_pool_slots, HI. Qed.

Lemma Inv_count o h out :
  Inv o h out -> availableCount o + Z.of_nat (length out) = mCurrItems o.
Proof.
  intros HI. rewrite (inv_curr _ _ _ HI), <- length_pool_slots, <- (inv_slots _ _ _ HI), length_app.
  unfold availableCount. lia.
Qed.

(** Moving objects between the free ones and those handed out. *)
Lemma Inv_set_free o h out free' out' :
  free' ++ out' ≡ₚ mFreeItems o ++ out -> Inv o h out -> Inv (set_free free' o) h out'.
Proof. intros Hp []. split; cbn; [by rewrite Hp|done..]. Qed.

Lemma Inv_slot o h out p :
  Inv o h out -> p ∈ mFreeItems o ++ out ->
  exists xs, arrays h !! p.1 = Some xs /\ 0 <= p.2 < Z.of_nat (length xs).
Proof.
  intros HI Hp. rewrite (inv_slots _ _ _ HI) in Hp.
  apply elem_of_pool_slots in Hp as (c & Hc & -> & Hr).
  destruct (inv_arrays _ _ _ HI c Hc) as (_ & _ & xs & Hxs & Hl). exists xs. split; [done|lia].
Qed.

(** What an object holds. *)
Definition content (p : ptr) (h : heap) : option item :=
  if decide (0 <= p.2) then arrays h !! p.1 ≫= lookup (Z.to_nat p.2) else None.

Lemma reset_at_spec o h out p :
  Inv o h out -> p ∈ mFreeItems o ++ out ->
  exists h', reset_at p h = Ok h' /\ Inv o h' out /\
    (forall q, content q h' = if decide (q = p) then item_reset <$> content p h else content q h).
Proof.
  intros HI Hp. destruct (Inv_slot o h out p HI Hp) as (xs & Hxs & Hr).
  unfold reset_at. rewrite Hxs, bool_decide_eq_true_2 by done. eexists. split; [done|].
  split.
  - destruct HI as [H1 H2 H3 H4 H5 H6 H7 H8 H9]. split; [done|done| |done..|]; cbn.
    2:{ intros b Hb. cbn in *. rewrite lookup_insert_ne; [by apply H9|].
        intros <-. by rewrite H9 in Hxs. }
    intros c Hc. destruct (H3 c Hc) as (Hpos & Hlt & ys & Hys & Hl). split; [done|]. split; [done|].
    destruct (decide (cache c = p.1)) as [E|E].
    + rewrite E, lookup_insert_eq. eexists. split; [done|]. rewrite length_alter. congruence.
    + rewrite lookup_insert_ne by done. eauto.
  - intros q. unfold content. cbn. destruct (decide (q = p)) as [->|Hne].
    + rewrite !decide_True by lia. rewrite lookup_insert_eq, Hxs. cbn.
      by rewrite list_lookup_alter_eq.
    + destruct (decide (0 <= q.2)) as [Hq|]; [|done].
      destruct (decide (q.1 = p.1)) as [E|E].
      * rewrite E, lookup_insert_eq, Hxs. cbn. apply list_lookup_alter_ne. intros Hn.
        apply Hne. destruct p, q. cbn in *. f_equal; [done|]. lia.
      * by rewrite lookup_insert_ne.
Qed.

(** [resize] adds an array of at most [cnt] objects, without exceeding
    [mMaxItems]; it adds none when there is nothing to add. *)
Definition added (o : t) (cnt : Z) : Z := Z.min cnt (mMaxItems o - mCurrItems o).

Definition resize_result (cnt : Z) (o : t) (h : heap) (out : list ptr)
    (r : result (bool * t * heap)) : Prop :=
  match r with
  | Ok (true, o', h') =>
      0 < added o cnt /\ Inv o' h' out /\ arrays h !! next_array h = None /\
      mFreeItems o' = mFreeItems o ++ reverse (slots (next_array h) (added o cnt)) /\
      (forall p, p ∈ slots (next_array h) (added o cnt) -> content p h' = Some item_new) /\
      (forall p, p ∈ mFreeItems o ++ out -> content p h' = content p h) /\
      mMaxItems o' = mMaxItems o /\ mIncreaseStep o' = mIncreaseStep o
  | Ok (false, o', h') => o' = o /\ h' = h /\ (cnt = 0 \/ mCurrItems o = mMaxItems o)
  | Bad_alloc => 0 < cnt /\ room h < cnt
  | Undefined => False
  end.

(** The state after an array of [k] objects has been added. *)
Definition grown (k : Z) (o : t) (h : heap) : t * heap :=
  (Make (mFreeItems o ++ reverse (slots (next_array h) k))
        (mItemCaches o ++ [MkCacheItem k (next_array h)]) (mMaxItems o)
        (mCurrItems o + k) (mIncreaseStep o) (mAllocationCount o + 1),
   Heap (next_array h + 1) (room h - k)
        (<[next_array h := replicate (Z.to_nat k) item_new]> (arrays h))).

Lemma Inv_grown k o h out :
  Inv o h out -> 0 < k -> mCurrItems o + k <= mMaxItems o -> k <= room h ->
  Inv (grown k o h).1 (grown k o h).2 out.
Proof.
  intros HI Hk Hm Hr. destruct HI as [H1 H2 H3 H4 H5 H6 H7 H8 H9]. split; cbn.
  - rewrite pool_slots_app, <- H1. unfold pool_slots at 1. cbn.
    rewrite app_nil_r, reverse_Permutation. solve_Permutation.
  - rewrite fmap_app. cbn. apply NoDup_app. split; [done|]. split; [|apply NoDup_singleton].
    intros b (c & -> & Hc)%list_elem_of_fmap He%list_elem_of_singleton.
    destruct (H3 c Hc) as (_ & Hlt & _). lia.
  - intros c [Hc| ->%list_elem_of_singleton]%elem_of_app.
    + destruct (H3 c Hc) as (Hpos & Hlt & xs & Hxs & Hl). split; [done|]. split; [lia|].
      exists xs. by rewrite lookup_insert_ne by lia.
    + cbn. split; [done|]. split; [lia|]. eexists. rewrite lookup_insert_eq. split; [done|].
      rewrite length_replicate. lia.
  - rewrite total_snoc by (cbn; lia). cbn. lia.
  - lia.
  - done.
  - rewrite length_app, H7. cbn. lia.
  - lia.
  - intros b Hb. cbn in *. rewrite lookup_insert_ne by lia. apply H9. lia.
Qed.

Lemma content_grown k o h p :
  0 < k -> fresh h ->
  content p (grown k o h).2 =
    if decide (p ∈ slots (next_array h) k) then Some item_new else content p h.
Proof.
  intros Hk Hf. unfold content. cbn. destruct (decide (p.1 = next_array h)) as [E|E].
  - rewrite E, lookup_insert_eq, (Hf (next_array h)) by lia. cbn.
    destruct (decide (p ∈ slots (next_array h) k)) as [Hs|Hs].
    + apply elem_of_slots in Hs as [_ Hs]. rewrite decide_True by lia.
      apply lookup_replicate. split; [done|lia].
    + rewrite elem_of_slots in Hs. destruct (decide (0 <= p.2)); [|done].
      apply lookup_replicate_None. lia.
  - rewrite lookup_insert_ne by done.
    by destruct (decide (p ∈ slots _ _)) as [[? _]%elem_of_slots|].
Qed.

Lemma resize_spec o h out cnt :
  Inv o h out -> 0 <= cnt < 2 ^ 64 -> resize_result cnt o h out (resize cnt o h).
Proof.
  intros HI Hc. pose proof (inv_fresh _ _ _ HI) as Hf. pose proof (inv_max _ _ _ HI) as Hm. pose proof (inv_room _ _ _ HI) as Hr.
  assert (0 <= mCurrItems o) as H0 by (rewrite (inv_curr _ _ _ HI); unfold total; lia).
  set (eff := if mMaxItems o <? u64 (mCurrItems o + cnt)
              then u64 (mMaxItems o - mCurrItems o) else cnt).
  assert (eff = added o cnt \/ eff = cnt /\ room h < cnt /\ 0 < cnt /\
          u64 (mCurrItems o + cnt) <= mMaxItems o) as He.
  { subst eff. unfold added. destruct (Z.ltb_spec (mMaxItems o) (u64 (mCurrItems o + cnt))) as [Hl|Hl].
    - left. rewrite wrap_small by (unfold in_width; lia).
      destruct (Z.lt_ge_cases (mCurrItems o + cnt) (2 ^ 64)).
      + rewrite wrap_small in Hl by (unfold in_width; lia). lia.
      + lia.
    - destruct (Z.lt_ge_cases (mCurrItems o + cnt) (2 ^ 64)).
      + rewrite wrap_small in Hl by (unfold in_width; lia). left. lia.
      + right. lia. }
  unfold resize. fold eff. destruct He as [-> | (-> & Hbig & Hpos & Hle)].
  2:{ rewrite (proj2 (Z.ltb_lt _ _)), (proj2 (Z.leb_le _ _)) by done. unfold new_array. cbn.
      rewrite (proj2 (Z.leb_gt _ _)) by done. cbn. lia. }
  assert (added o cnt <= mMaxItems o - mCurrItems o) as Hadd by (unfold added; lia).
  destruct (Z.ltb_spec 0 (added o cnt)) as [Hk|Hk]; cbn [andb].
  2:{ cbn. split; [done|]. split; [done|]. unfold added in Hk. lia. }
  rewrite wrap_small by (unfold in_width; lia).
  rewrite (proj2 (Z.leb_le _ _)) by lia. unfold new_array.
  destruct (Z.leb_spec (added o cnt) (room h)) as [Hro|Hro].
  2:{ cbn. unfold added in *. lia. }
  pose proof (total_pos (mItemCaches o) ltac:(intros c Hc'; by apply (inv_arrays _ _ _ HI c))) as Htp.
  rewrite <- (inv_curr _ _ _ HI), <- (inv_allocs _ _ _ HI) in Htp.
  rewrite (wrap_small 64 (mAllocationCount o + 1)).
  2:{ pose proof (inv_allocs _ _ _ HI). unfold in_width. lia. }
  rewrite push_items_slots by lia.
  change (Make _ _ _ _ _ _) with (grown (added o cnt) o h).1.
  change (Heap (next_array h + 1) _ _) with (grown (added o cnt) o h).2.
  cbn [resize_result]. split; [done|]. split; [apply Inv_grown; [done|lia..]|].
  split; [apply Hf; lia|]. split; [done|]. split; [|split; [|done]].
  - intros p Hp. by rewrite content_grown, decide_True by done.
  - intros p Hp. rewrite content_grown by done. apply decide_False.
    intros [E _]%elem_of_slots. destruct (Inv_slot o h out p HI Hp) as (xs & Hxs & _).
    rewrite E, Hf in Hxs by lia. done.
Qed.

Lemma take_back_spec o h out l p :
  Inv o h out -> mFreeItems o = l ++ [p] ->
  exists h', take_back o h = Ok (Some p, set_free l o, h') /\ Inv (set_free l o) h' (p :: out) /\
    forall q, content q h' = if decide (q = p) then item_reset <$> content p h else content q h.
Proof.
  intros HI Hl. destruct (reset_at_spec o h out p HI) as (h' & E & HI' & Hc).
  { rewrite Hl. set_solver. }
  exists h'. unfold take_back. rewrite Hl, last_snoc, removelast_last, E.
  split; [done|]. split; [|done]. eapply Inv_set_free; [|done]. rewrite Hl, <- app_assoc. done.
Qed.

(** ** What the operations do *)

(** [create] hands out an object that is not in use: the last one given back,
    or when none is free one of a new array. It is reset, and the objects in
    use keep what they hold. It returns null only if no object is free and the
    pool is full or does not grow. *)
Definition create_result (o : t) (h : heap) (out : list ptr)
    (r : result (option ptr * t * heap)) : Prop :=
  match r with
  | Ok (Some p, o', h') =>
      (p ∉ out) /\ Inv o' h' (p :: out) /\
      (if decide (mFreeItems o = [])
       then content p h = None /\ content p h' = Some (item_reset item_new)
       else mFreeItems o = mFreeItems o' ++ [p] /\ content p h' = (item_reset <$> content p h)) /\
      (forall q, q ∈ out -> content q h' = content q h)
  | Ok (None, o', h') =>
      o' = o /\ h' = h /\ mFreeItems o = [] /\
      (mIncreaseStep o = 0 \/ mCurrItems o = mMaxItems o)
  | Bad_alloc => mFreeItems o = [] /\ room h < mIncreaseStep o
  | Undefined => False
  end.

Lemma create_ok o h out : Inv o h out -> create_result o h out (create o h).
Proof.
  intros HI. unfold create_result, create. destruct (mFreeItems o) as [|q0 l0] eqn:Hf.
  - pose proof (resize_spec o h out (mIncreaseStep o) HI (inv_step _ _ _ HI)) as Hr.
    destruct (resize _ o h) as [[[[] o1] h1]| |]; cbn in Hr;
      [|destruct Hr as (-> & -> & ?); cbn; tauto|cbn; tauto|done].
    destruct Hr as (Hk & HI1 & Hn & Hf1 & Hnew & Hold & _ & _). rewrite Hf in Hf1. cbn in Hf1.
    unfold slots in Hf1. set (b := next_array h) in *.
    rewrite seqZ_cons, fmap_cons, reverse_cons in Hf1 by lia.
    destruct (take_back_spec o1 h1 out _ _ HI1 Hf1) as (h2 & -> & HI2 & Hc).
    assert (Hd := Inv_distinct _ _ _ HI2). cbn in Hd.
    assert ((b, 0) ∉ out) as Hno.
    { apply NoDup_app in Hd as (_ & _ & Hd). by apply NoDup_cons in Hd as [? _]. }
    split; [done|]. split; [done|]. rewrite decide_True by done. split; [split|].
    + unfold content. cbn. by rewrite Hn.
    + rewrite Hc, decide_True by done. rewrite Hnew; [done|]. apply elem_of_slots. cbn. lia.
    + intros q Hq. rewrite Hc, decide_False by (intros ->; done). apply Hold. set_solver.
  - destruct (exists_last (l := q0 :: l0)) as (l & p & Hl); [done|]. rewrite Hl in Hf.
    destruct (take_back_spec o h out l p HI Hf) as (h2 & -> & HI2 & Hc).
    assert (Hd := Inv_distinct _ _ _ HI). rewrite Hf in Hd.
    assert (p ∉ out) as Hno.
    { apply NoDup_app in Hd as (_ & Hd & _). apply Hd. set_solver. }
    split; [done|]. split; [done|]. rewrite decide_False by done. split; [split; [done|]|].
    + by rewrite Hc, decide_True.
    + intros q Hq. rewrite Hc. apply decide_False. by intros ->.
Qed.

(** A program over a pool: the pool, the heap and the objects in use. *)
Inductive op :=
| Create
| Destroy (p : ptr)
| Destroy_many (p : ptr) (n : Z)
| Reset.

(** The [n] objects from [p] on. *)
Definition run_from (p : ptr) (n : Z) : list ptr := (fun i => (p.1, p.2 + i)) <$> seqZ 0 n.

Definition without (ps out : list ptr) : list ptr := filter (.∉ ps) out.

Definition exec (debug : bool) (op : op) (st : t * heap * list ptr) : result (t * heap * list ptr) :=
  let '(o, h, out) := st in
  match op with
  | Create =>
      match create o h with
      | Ok (Some p, o, h) => Ok (o, h, p :: out)
      | Ok (None, o, h) => Ok (o, h, out)
      | Bad_alloc => Bad_alloc
      | Undefined => Undefined
      end
  | Destroy p =>
      match destroy debug (Some p) o with
      | Ok (_, o) => Ok (o, h, without [p] out)
      | Bad_alloc => Bad_alloc
      | Undefined => Undefined
      end
  | Destroy_many p n =>
      match destroy_many debug (Some p) n o with
      | Ok (_, o) => Ok (o, h, without (run_from p n) out)
      | Bad_alloc => Bad_alloc
      | Undefined => Undefined
      end
  | Reset => Ok (reset o, h, [])
  end.

Fixpoint run (debug : bool) (ops : list op) (st : t * heap * list ptr) : result (t * heap * list ptr) :=
  match ops with
  | [] => Ok st
  | op :: ops =>
      match exec debug op st with
      | Ok st => run debug ops st
      | Bad_alloc => Bad_alloc
      | Undefined => Undefined
      end
  end.

(** Only objects in use are given back. *)
Definition legal (op : op) (out : list ptr) : Prop :=
  match op with
  | Destroy p => p ∈ out
  | Destroy_many p n => forall q, q ∈ run_from p n -> q ∈ out
  | Create | Reset => True
  end.

Fixpoint legal_run (debug : bool) (ops : list op) (st : t * heap * list ptr) : Prop :=
  match ops with
  | [] => True
  | op :: ops => legal op st.2 /\ forall st', exec debug op st = Ok st' -> legal_run debug ops st'
  end.

Lemma without_perm ps out :
  NoDup ps -> NoDup out -> (forall p, p ∈ ps -> p ∈ out) -> ps ++ without ps out ≡ₚ out.
Proof.
  intros Hp Ho Hs. apply NoDup_Permutation; [|done|].
  - apply NoDup_app. split; [done|]. split; [|by apply NoDup_filter].
    intros p Hin [Hn _]%list_elem_of_filter. done.
  - intros p. rewrite elem_of_app. unfold without. rewrite list_elem_of_filter.
    destruct (decide (p ∈ ps)) as [Hi|Hi]; [pose proof (Hs p Hi)|]; tauto.
Qed.

Lemma NoDup_run_from p n : NoDup (run_from p n).
Proof.
  apply NoDup_fmap_2; [|apply NoDup_seqZ]. intros i j [= E]. lia.
Qed.

Lemma run_from_S p n :
  run_from p (Z.of_nat (S n)) = p :: run_from (p.1, p.2 + 1) (Z.of_nat n).
Proof.
  unfold run_from. rewrite seqZ_cons, fmap_cons by lia.
  replace (Z.pred (Z.of_nat (S n))) with (Z.of_nat n) by lia. f_equal.
  - destruct p. cbn. by rewrite Z.add_0_r.
  - replace (Z.succ 0) with (1 + 0) by done. rewrite <- fmap_add_seqZ, <- list_fmap_compose.
    apply list_fmap_ext. intros k i _. cbn. f_equal. lia.
Qed.

Lemma destroy_loop_spec n p i o :
  exists k, destroy_loop false n p i o = Ok (k, set_free (mFreeItems o ++ run_from p (Z.of_nat n)) o).
Proof.
  revert p i o. induction n as [|n IH]; intros p i o.
  - exists i. unfold run_from. cbn. rewrite app_nil_r. by destruct o.
  - cbn [destroy_loop asserts negb orb]. edestruct IH as (k & ->). exists k.
    rewrite run_from_S. cbn. by rewrite <- app_assoc.
Qed.

(** The assertion fails only in the [DEBUG] build, on a pool that has grown. *)
Lemma asserts_pass debug p o h out :
  Inv o h out -> p ∈ out -> ~ (debug = true /\ (2 <= length (mItemCaches o))%nat) -> asserts debug p o = true.
Proof.
  intros HI Hp Hd. destruct debug; [|done]. unfold asserts. cbn [negb orb].
  assert (p ∈ pool_slots (mItemCaches o)) as Hs by (rewrite <- (inv_slots _ _ _ HI); set_solver).
  apply elem_of_pool_slots in Hs as (c & Hc & Hp1 & Hp2).
  destruct (mItemCaches o) as [|c1 [|c2 cs]]; [done| |exfalso; apply Hd; split; [done|cbn; lia]].
  apply list_elem_of_singleton in Hc as ->. cbn. unfold in_cache.
  by rewrite (proj2 (Z.eqb_eq _ _) Hp1), (proj2 (Z.leb_le _ _)), (proj2 (Z.ltb_lt _ _)) by lia.
Qed.

Lemma destroy_loop_debug debug n p i o :
  (forall q, q ∈ run_from p (Z.of_nat n) -> asserts debug q o = true) ->
  destroy_loop debug n p i o = destroy_loop false n p i o.
Proof.
  revert p i o. induction n as [|n IH]; intros p i o Ha; [done|]. rewrite run_from_S in Ha. cbn [destroy_loop].
  rewrite (Ha p) by left. cbn [asserts negb orb]. apply IH. intros q Hq.
  change (asserts debug q (set_free _ o)) with (asserts debug q o). apply Ha. by right.
Qed.

Lemma destroy_loop_cases debug n p i o :
  destroy_loop debug n p i o = destroy_loop false n p i o \/ destroy_loop debug n p i o = Undefined.
Proof.
  revert p i o. induction n as [|n IH]; intros p i o; [by left|]. cbn [destroy_loop].
  destruct (asserts debug p o); [|by right]. apply IH.
Qed.

Lemma run_from_nat p n : run_from p (Z.of_nat (Z.to_nat n)) = run_from p n.
Proof.
  unfold run_from. destruct (Z.le_ge_cases 0 n); [by rewrite Z2Nat.id|]. by rewrite !seqZ_nil by lia.
Qed.

Lemma push_caches_perm cs free :
  (forall c, c ∈ cs -> 0 < count c) -> push_caches cs free ≡ₚ free ++ pool_slots cs.
Proof.
  revert free. induction cs as [|c cs IH]; intros free Hc; cbn [push_caches].
  - by rewrite app_nil_r.
  - assert (0 < count c) by (apply Hc; left).
    rewrite IH by (intros; apply Hc; by right).
    rewrite push_items_slots, reverse_Permutation by lia.
    by rewrite <- app_assoc.
Qed.

Definition good (st : t * heap * list ptr) : Prop := let '(o, h, out) := st in Inv o h out.

(** The pool has grown, in the [DEBUG] build. *)
Definition grown_debug (debug : bool) (st : t * heap * list ptr) : Prop :=
  debug = true /\ (2 <= length (mItemCaches st.1.1))%nat.

Lemma exec_good debug op st :
  good st -> legal op st.2 ->
  match exec debug op st with Ok st' => good st' | Bad_alloc => True | Undefined => grown_debug debug st end.
Proof.
  destruct st as [[o h] out]. unfold grown_debug. cbn. intros HI Hl. pose proof (Inv_distinct _ _ _ HI) as Hd.
  apply NoDup_app in Hd as (_ & _ & Hd). destruct op as [|p|p n|]; cbn in *.
  - pose proof (create_ok o h out HI) as Hc.
    destruct (create o h) as [[[[p|] o'] h']| |]; cbn in Hc; [by apply Hc| |done..].
    destruct Hc as (-> & -> & _). done.
  - destruct (decide (debug = true /\ (2 <= length (mItemCaches o))%nat)) as [Hg|Hg].
    2:{ rewrite (asserts_pass debug p o h out HI Hl Hg). eapply Inv_set_free; [|done]. rewrite <- app_assoc. f_equiv.
        apply without_perm; [apply NoDup_singleton|done|]. set_solver. }
    destruct (asserts debug p o); [|done]. eapply Inv_set_free; [|done]. rewrite <- app_assoc. f_equiv.
    apply without_perm; [apply NoDup_singleton|done|]. set_solver.
  - assert (forall k, good (set_free (mFreeItems o ++ run_from p (Z.of_nat (Z.to_nat n))) o, h, without (run_from p n) out) /\
      exists k', destroy_loop false (Z.to_nat n) p k o = Ok (k', set_free (mFreeItems o ++ run_from p (Z.of_nat (Z.to_nat n))) o)) as Hfalse.
    { intros k. split; [|apply destroy_loop_spec]. eapply Inv_set_free; [|done]. rewrite <- app_assoc. f_equiv.
      rewrite run_from_nat. by apply without_perm; [apply NoDup_run_from|..]. }
    destruct (Hfalse 0) as (Hgood & k' & Ek). destruct (destroy_loop_cases debug (Z.to_nat n) p 0 o) as [E|E].
    + by rewrite E, Ek.
    + rewrite E. destruct (decide (debug = true /\ (2 <= length (mItemCaches o))%nat)) as [|Hg]; [done|]. exfalso.
      rewrite (destroy_loop_debug debug) in E; [by rewrite Ek in E|]. intros q Hq. rewrite run_from_nat in Hq.
      by apply (asserts_pass debug q o h out HI); [apply Hl|].
  - eapply Inv_set_free; [|done]. rewrite push_caches_perm by (intros; by apply (inv_arrays _ _ _ HI)).
    by rewrite app_nil_r, (inv_slots _ _ _ HI).
Qed.

Lemma run_good debug ops st :
  good st -> legal_run debug ops st ->
  match run debug ops st with
  | Ok st' => good st'
  | Bad_alloc => True
  | Undefined => exists ops1 op ops2 st', ops = ops1 ++ op :: ops2 /\ run debug ops1 st = Ok st' /\ grown_debug debug st'
  end.
Proof.
  revert st. induction ops as [|op ops IH]; intros st Hg; [done|]. intros [Hl Hr]. cbn [run].
  pose proof (exec_good debug op st Hg Hl) as He. destruct (exec debug op st) as [st'| |] eqn:Ee; [|done|].
  - specialize (IH st' He (Hr st' eq_refl)). destruct (run debug ops st') as [st2| |]; [done..|].
    destruct IH as (ops1 & op' & ops2 & st2 & -> & E & Hgrown). exists (op :: ops1), op', ops2, st2.
    split; [done|]. split; [|done]. cbn [run]. by rewrite Ee.
  - by exists [], op, ops, st.
Qed.

(** A heap with memory left, and sizes of 64 bits. *)
Definition setting (initialCapacity maxItems increaseStep : Z) (h : heap) : Prop :=
  in_width 64 initialCapacity /\ in_width 64 maxItems /\ in_width 64 increaseStep /\
  0 <= room h < 2 ^ 63 /\ fresh h.

Lemma construct_good c m s h :
  setting c m s h ->
  match construct c m s h with
  | Ok (o, h') => good (o, h', []) /\ mMaxItems o = m /\
                  mIncreaseStep o = (if s =? 0 then c / 2 else s) /\ mCurrItems o = Z.min c m
  | Bad_alloc => room h < c
  | Undefined => False
  end.
Proof.
  intros (Hc & Hm & Hs & Hr & Hf). unfold in_width in *. unfold construct.
  set (step := if s =? 0 then c ≫ 1 else s).
  assert (step = if s =? 0 then c / 2 else s) as Hstep.
  { subst step. rewrite Z.shiftr_div_pow2 by done. done. }
  assert (0 <= step < 2 ^ 64).
  { rewrite Hstep. destruct (s =? 0); [|done]. Z.to_euclidean_division_equations. lia. }
  assert (Inv (Make [] [] m 0 step 0) h []) as HI.
  { split; cbn; try done; try lia; [constructor|]. by intros c' ?%elem_of_nil. }
  pose proof (resize_spec _ _ _ c HI Hc) as Hz.
  destruct (resize c _ h) as [[[[] o'] h']| |]; cbn in Hz; [| |tauto|done].
  - destruct Hz as (Hk & HI' & _ & Hfree & _ & _ & Hmx & Hst). rewrite Hst.
    split; [done|]. split; [done|]. split; [done|].
    pose proof (Inv_count _ _ _ HI') as Hcnt. unfold availableCount in Hcnt.
    rewrite Hfree in Hcnt. cbn in Hcnt. rewrite length_reverse, length_slots in Hcnt.
    unfold added in *. cbn in *. lia.
  - destruct Hz as (-> & -> & Hz). split; [done|]. split; [done|]. split; [done|]. cbn in *. lia.
Qed.

Lemma delete_caches_spec cs h :
  NoDup (cache <$> cs) ->
  (forall c, c ∈ cs -> exists xs, arrays h !! cache c = Some xs /\ Z.of_nat (length xs) = count c) ->
  exists h', delete_caches cs h = Ok h' /\ room h' = room h + total cs /\
    forall b, arrays h' !! b = if decide (b ∈ cache <$> cs) then None else arrays h !! b.
Proof.
  revert h. induction cs as [|c cs IH]; intros h Hn Ha.
  - exists h. split; [done|]. split; [unfold total; cbn; lia|]. intros b.
    by rewrite decide_False by apply not_elem_of_nil.
  - apply NoDup_cons in Hn as [Hc Hn]. destruct (Ha c) as (xs & Hxs & Hl); [left|].
    cbn [delete_caches]. unfold delete_array. rewrite Hxs.
    edestruct IH as (h' & -> & Hr & Hb); [done| |].
    { intros c' Hc'. destruct (Ha c') as (ys & Hys & Hl'); [by right|]. exists ys. split; [|done].
      cbn. rewrite lookup_delete_ne; [done|]. intros E. apply Hc. rewrite E.
      by apply list_elem_of_fmap_2. }
    exists h'. split; [done|]. split; [cbn in Hr; unfold total in *; cbn; lia|].
    intros b. rewrite Hb. cbn [fmap list_fmap arrays]. destruct (decide (b = cache c)) as [->|Hne].
    + rewrite (decide_True (P := _ ∈ _ :: _)) by left. rewrite lookup_delete_eq. by case_decide.
    + rewrite lookup_delete_ne by done.
      destruct (decide (b ∈ cache <$> cs)), (decide (b ∈ cache c :: _)); set_solver.
Qed.

(** The pool, the heap and the objects in use that a legal program reaches
    from a new pool. *)
Definition reaches (c m s : Z) (h0 : heap) (ops : list op) (st : t * heap * list ptr) : Prop :=
  setting c m s h0 /\
  exists o0 h1, construct c m s h0 = Ok (o0, h1) /\ legal_run false ops (o0, h1, []) /\
    run false ops (o0, h1, []) = Ok st.

Lemma reaches_Inv c m s h0 ops o h out :
  reaches c m s h0 ops (o, h, out) -> Inv o h out.
Proof.
  intros (Hs & o0 & h1 & E & Hl & Hr). pose proof (construct_good _ _ _ _ Hs) as Hg.
  rewrite E in Hg. pose proof (run_good false ops _ (proj1 Hg) Hl) as Hg'. by rewrite Hr in Hg'.
Qed.

(** [create] on any pool a legal program has reached hands out an object
    that is not in use, reset, from the free ones if there are any and from a
    new array otherwise, and leaves the objects in use alone. It returns null
    only if no object is free and the pool is full or has no increase step,
    and fails only if the heap has no room for the step. *)
Theorem create_spec c m s h0 ops o h out :
  reaches c m s h0 ops (o, h, out) -> create_result o h out (create o h).
Proof. intros Hr. by eapply create_ok, reaches_Inv. Qed.

(** C37: A pool loses no object and hands none out twice. In a release build
    a program that gives back only objects in use never has undefined
    behaviour; in a [DEBUG] build its assertions can fail, but only once the
    pool has grown to two arrays. Otherwise the free objects and those in use
    are distinct, exist, and are together all the objects the pool has
    allocated, at most [maxItems]. *)
Theorem pool_accounting debug c m s h0 o0 h1 ops :
  setting c m s h0 -> construct c m s h0 = Ok (o0, h1) -> legal_run debug ops (o0, h1, []) ->
  match run debug ops (o0, h1, []) with
  | Ok (o, h, out) =>
      NoDup (mFreeItems o ++ out) /\
      (forall p, p ∈ mFreeItems o ++ out -> is_Some (content p h)) /\
      availableCount o + Z.of_nat (length out) = mCurrItems o /\
      mCurrItems o <= capacity o /\
      allocationCount o = Z.of_nat (length (mItemCaches o))
  | Bad_alloc => True
  | Undefined =>
      debug = true /\
      exists ops1 op ops2 o h out, ops = ops1 ++ op :: ops2 /\
        run debug ops1 (o0, h1, []) = Ok (o, h, out) /\ (2 <= length (mItemCaches o))%nat
  end.
Proof.
  intros Hs E Hl. pose proof (construct_good _ _ _ _ Hs) as Hg. rewrite E in Hg.
  pose proof (run_good debug ops _ (proj1 Hg) Hl) as Hr.
  destruct (run debug ops _) as [[[o h] out]| |]; [|done|].
  - cbn in Hr. split; [by eapply Inv_distinct|]. split; [|split; [by eapply Inv_count|split; apply Hr]].
    intros p Hp. destruct (Inv_slot _ _ _ _ Hr Hp) as (xs & Hxs & Hi). unfold content.
    rewrite decide_True by lia. rewrite Hxs. cbn. apply lookup_lt_is_Some. lia.
  - destruct Hr as (ops1 & op & ops2 & [[o h] out] & -> & Er & Hd & Hlen). split; [done|].
    by exists ops1, op, ops2, o, h, out.
Qed.

(** The destructor gives back exactly the memory of the pool: every array
    of the pool is freed, once, and no other. *)
Theorem destructor_frees_all c m s h0 ops o h out :
  reaches c m s h0 ops (o, h, out) ->
  exists h', destruct_pool o h = Ok h' /\ room h' = room h + mCurrItems o /\
    forall b, arrays h' !! b =
      if decide (b ∈ cache <$> mItemCaches o) then None else arrays h !! b.
Proof.
  intros HI%reaches_Inv. rewrite (inv_curr _ _ _ HI). apply delete_caches_spec; [apply HI|].
  intros c' Hc. by apply (inv_arrays _ _ _ HI).
Qed.

(** The assertion of the [DEBUG] build holds only for pools of one array.
    [destroy] of an object in use, which always succeeds in the release
    build, fails its assertion in the debug build as soon as the pool has
    grown once. *)
Theorem debug_destroy_asserts c m s h0 ops o h out p :
  reaches c m s h0 ops (o, h, out) -> p ∈ out ->
  destroy false (Some p) o = Ok (true, set_free (mFreeItems o ++ [p]) o) /\
  destroy true (Some p) o =
    if decide (length (mItemCaches o) = 1%nat) then destroy false (Some p) o else Undefined.
Proof.
  intros HI%reaches_Inv Hp. split; [done|].
  assert (p ∈ pool_slots (mItemCaches o)) as Hs by (rewrite <- (inv_slots _ _ _ HI); set_solver).
  apply elem_of_pool_slots in Hs as (c' & Hc & Hp1 & Hp2). unfold destroy, asserts. cbn.
  case_decide as Hlen.
  - destruct (mItemCaches o) as [|c1 [|]]; [done| |done].
    apply list_elem_of_singleton in Hc as ->. cbn. unfold in_cache.
    rewrite (proj2 (Z.eqb_eq _ _) Hp1), (proj2 (Z.leb_le _ _)), (proj2 (Z.ltb_lt _ _)) by lia. done.
  - destruct (forallb _ _) eqn:Hf; [|done]. exfalso. apply Hlen.
    rewrite forallb_forall in Hf. pose proof (inv_nodup _ _ _ HI) as Hn.
    destruct (mItemCaches o) as [|c1 [|c2 cs]]; [by apply not_elem_of_nil in Hc|done|].
    pose proof (Hf c1 ltac:(by left)) as H1. pose proof (Hf c2 ltac:(right; by left)) as H2.
    unfold in_cache in H1, H2. apply andb_true_iff in H1 as [[H1 _]%andb_true_iff _].
    apply andb_true_iff in H2 as [[H2 _]%andb_true_iff _]. apply Z.eqb_eq in H1, H2.
    cbn in Hn. apply NoDup_cons in Hn as [Hn _]. exfalso. apply Hn.
    rewrite <- H1, H2. left.
Qed.

End pool.

(** ** A pool of integers *)

#[local] Instance counter_item : PoolItem :=
  {| item := Z; item_new := 5; item_reset := fun _ => 0 |}.

Definition memory : heap := Heap 0 100 ∅.
Definition program : list op := [Create; Create; Create; Destroy (0, 1); Create].

Lemma memory_setting c m s :
  0 <= c < 2 ^ 64 -> 0 <= m < 2 ^ 64 -> 0 <= s < 2 ^ 64 -> setting c m s memory.
Proof. intros Hc Hm Hs. unfold setting, in_width. split_and!; try (cbn; lia). by intros b _. Qed.

Ltac legal_steps :=
  repeat (split; [vm_compute; repeat constructor|];
          intros ? E; vm_compute in E; apply (inj Ok) in E as <-); exact I.

(** The pool, the heap and the objects in use after [program]. *)
Definition reached : t * heap * list ptr :=
  (Make [] [MkCacheItem 2 0; MkCacheItem 1 1] 3 3 1 2,
   Heap 2 97 {[0 := [0; 0]; 1 := [0]]}, [(0, 1); (1, 0); (0, 0)]).

Lemma program_reaches : reaches 2 3 0 memory program reached.
Proof.
  split; [by apply memory_setting|].
  eexists _, _. split; [by vm_compute|]. split; [|by vm_compute]. unfold program. legal_steps.
Qed.

Lemma create_spec_witness :
  reaches 2 3 0 memory program reached /\
  create_result reached.1.1 reached.1.2 reached.2 (create reached.1.1 reached.1.2) /\
  create reached.1.1 reached.1.2 = Ok (None, reached.1.1, reached.1.2).
Proof.
  split; [exact program_reaches|]. split; [|by vm_compute].
  exact (create_spec 2 3 0 memory program _ _ _ program_reaches).
Defined.

Lemma pool_accounting_witness :
  exists o0 h1 o h out, construct 2 3 0 memory = Ok (o0, h1) /\
    run false program (o0, h1, []) = Ok (o, h, out) /\ availableCount o = 0 /\ length out = 3%nat /\
    NoDup (mFreeItems o ++ out).
Proof.
  destruct program_reaches as (Hs & o0 & h1 & E & Hl & Hr).
  pose proof (pool_accounting false 2 3 0 memory o0 h1 program Hs E Hl) as Ha.
  rewrite Hr in Ha. exists o0, h1, reached.1.1, reached.1.2, reached.2.
  split; [exact E|]. split; [exact Hr|]. split; [reflexivity|]. split; [reflexivity|]. apply Ha.
Defined.

Lemma destructor_frees_all_witness :
  exists h', destruct_pool reached.1.1 reached.1.2 = Ok h' /\ room h' = 100.
Proof.
  destruct (destructor_frees_all 2 3 0 memory program _ _ _ program_reaches) as (h' & E & Hr & _).
  exists h'. split; [exact E|exact Hr].
Defined.

Lemma debug_destroy_asserts_witness :
  destroy true (Some (1, 0)) reached.1.1 = Undefined.
Proof.
  apply (debug_destroy_asserts 2 3 0 memory program _ _ _ (1, 0) program_reaches).
  right. left.
Defined.

(** A pool created for one object never grows, whatever [maxItems] is. *)
Example capacity_one_never_grows :
  match construct 1 (2 ^ 64 - 1) 0 memory with
  | Ok (o, h) =>
      match create o h with
      | Ok (Some _, o, h) => create o h = Ok (None, o, h)
      | _ => False
      end
  | _ => False
  end.
Proof. by vm_compute. Qed.

End ObjectPool.
