(* ===== verification/DatastoreIterator.v ===== *)
(** * DatastoreIterator: rows of a query, read through a server-side cursor
    (datastore/DatastoreIterator.h, datastore/DatastoreIterator.cpp,
    datastore/DataObject.h)

    libpq is an interface: a connection is a value of an abstract type that
    each command sent changes, and a command gives a [PGresult] or null. The
    results libpq has allocated and not cleared are part of the model, since
    the rows handed out point into them: using or clearing one that is not
    there any more is undefined behaviour. *)
From S2P Require Import Prelude External Topics.
#[local] Open Scope Z_scope.

(** [PQresultStatus], as far as the code tells the values apart. *)
Inductive ExecStatus := PGRES_TUPLES_OK | PGRES_COMMAND_OK | PGRES_OTHER.

#[global] Instance ExecStatus_eq_dec : EqDecision ExecStatus.
Proof. solve_decision. Defined.

(** The first column of a row: null or bytes. *)
Abbreviation row := (option (list Byte.byte)).

Record PGresult := MkResult { status : ExecStatus; tuples : list row }.

Class Libpq := {
  conn : Type;
  libpq_connectdb : string -> option conn;
  libpq_status_ok : conn -> bool;
  libpq_errorMessage : option conn -> string;
  libpq_exec : string -> conn -> option PGresult * conn;
}.

(** datastore/DataObject.h: the bytes are those of row [row] of a result. *)
Record DataObject := MkDataObject { sizeInBytes : Z; thriftObject : option (Z * Z) }.
Definition new_DataObject : DataObject := MkDataObject 0 None.

Module DatastoreIterator.

Inductive State := Ready | Open.

#[global] Instance State_eq_dec : EqDecision State.
Proof. solve_decision. Defined.

Section iterator.
Context `{Libpq, FollyConv, Gregorian}.

Record t := Make {
  mError : string;
  mFetchCommand : string;
  mCloseCommand : string;
  mQueryCommand : string;
  mResult : option Z;
  mState : State;
  mConnection : option conn;
  mThreadId : string;
  mConnectionString : string;
  mResultOffset : Z;
  mWasError : bool;
}.

(** The results that libpq has allocated, and the commands sent to the server
    with how they ended. *)
Record memory := Memory {
  results : gmap Z PGresult;
  next_result : Z;
  sent : list (string * ExecStatus);
}.

(** A method: it may have undefined behaviour, and it changes the object and
    the memory. *)
Definition M (A : Type) : Type := t * memory -> option (A * (t * memory)).

#[global] Instance M_ret : MRet M := fun A a st => Some (a, st).
#[global] Instance M_bind : MBind M := fun A B f m st =>
  match m st with Some (a, st) => f a st | None => None end.

Definition get {A} (f : t -> A) : M A := fun st => Some (f st.1, st).
Definition undefined {A} : M A := fun _ => None.
Definition defined {A} (x : option A) : M A := fun st => match x with Some a => Some (a, st) | None => None end.
Definition modify (f : t -> t) : M unit := fun st => Some ((), (f st.1, st.2)).

Definition set_error_text (e : string) (o : t) : t :=
  Make e (mFetchCommand o) (mCloseCommand o) (mQueryCommand o) (mResult o) (mState o)
       (mConnection o) (mThreadId o) (mConnectionString o) (mResultOffset o) (mWasError o).
Definition set_commands (fetch close : string) (o : t) : t :=
  Make (mError o) fetch close (mQueryCommand o) (mResult o) (mState o)
       (mConnection o) (mThreadId o) (mConnectionString o) (mResultOffset o) (mWasError o).
Definition set_query (q : string) (o : t) : t :=
  Make (mError o) (mFetchCommand o) (mCloseCommand o) q (mResult o) (mState o)
       (mConnection o) (mThreadId o) (mConnectionString o) (mResultOffset o) (mWasError o).
Definition set_result (r : option Z) (off : Z) (o : t) : t :=
  Make (mError o) (mFetchCommand o) (mCloseCommand o) (mQueryCommand o) r (mState o)
       (mConnection o) (mThreadId o) (mConnectionString o) off (mWasError o).
Definition set_state (s : State) (o : t) : t :=
  Make (mError o) (mFetchCommand o) (mCloseCommand o) (mQueryCommand o) (mResult o) s
       (mConnection o) (mThreadId o) (mConnectionString o) (mResultOffset o) (mWasError o).
Definition set_connection (c : option conn) (o : t) : t :=
  Make (mError o) (mFetchCommand o) (mCloseCommand o) (mQueryCommand o) (mResult o) (mState o)
       c (mThreadId o) (mConnectionString o) (mResultOffset o) (mWasError o).
Definition set_was_error (b : bool) (o : t) : t :=
  Make (mError o) (mFetchCommand o) (mCloseCommand o) (mQueryCommand o) (mResult o) (mState o)
       (mConnection o) (mThreadId o) (mConnectionString o) (mResultOffset o) b.

(** ** libpq calls *)

Definition status_of (r : option PGresult) : ExecStatus :=
  match r with Some x => status x | None => PGRES_OTHER end.

(** A null connection gives a null result. *)
Definition PQexec (cmd : string) : M (option Z) := fun '(o, m) =>
  match mConnection o with
  | None => Some (None, (o, m))
  | Some c =>
      let '(r, c) := libpq_exec cmd c in
      let o := set_connection (Some c) o in
      let sent := sent m ++ [(cmd, status_of r)] in
      match r with
      | None => Some (None, (o, Memory (results m) (next_result m) sent))
      | Some r =>
          Some (Some (next_result m),
                (o, Memory (<[next_result m := r]> (results m)) (next_result m + 1) sent))
      end
  end.

Definition the_result (r : Z) : M PGresult := fun st =>
  match results st.2 !! r with Some x => Some (x, st) | None => None end.

Definition forget (r : Z) : M unit := fun '(o, m) =>
  Some ((), (o, Memory (delete r (results m)) (next_result m) (sent m))).

(** On null: a fatal error, no tuples, and nothing to clear. *)
Definition PQresultStatus (r : option Z) : M ExecStatus :=
  match r with Some r => x ← the_result r; mret (status x) | None => mret PGRES_OTHER end.
Definition PQntuples (r : option Z) : M Z :=
  match r with
  | Some r => x ← the_result r; mret (Z.of_nat (length (tuples x)))
  | None => mret 0
  end.
Definition PQclear (r : option Z) : M unit :=
  match r with
  | Some r => _ ← the_result r; forget r
  | None => mret ()
  end.

(** [PQgetisnull], [PQgetlength] and [PQgetvalue] of column 0. *)
Definition PQgetrow (r : option Z) (i : Z) : M row :=
  match r with
  | Some r =>
      x ← the_result r;
      match tuples x !! Z.to_nat i with Some c => mret c | None => undefined end
  | None => undefined
  end.
Definition PQerrorMessage : M string := get (fun o => libpq_errorMessage (mConnection o)).

(** ** The small methods *)

Definition setError : M unit := modify (set_was_error true).
Definition resetError : M unit := modify (set_was_error false).
Definition hasError (o : t) : bool := mWasError o.
Definition error (o : t) : string := mError o.
Definition isValid (o : t) : bool := match mConnection o with Some _ => true | None => false end.
Definition isConnected (o : t) : bool :=
  match mConnection o with Some c => libpq_status_ok c | None => false end.
Definition isReady (o : t) : bool := bool_decide (mState o = Ready).

(** ** Opening and closing the connection *)

Definition destroyConnection : M unit := modify (set_connection None).

(** [PQfinish] and [PQconnectdb] are not commands of the session. *)
Definition createConnection : M unit :=
  valid ← get isValid;
  if (valid : bool) then mret ()
  else
    destroyConnection;;
    s ← get mConnectionString;
    modify (set_connection (libpq_connectdb s));;
    connected ← get (fun o => isValid o && isConnected o);
    if negb (connected : bool) then
      setError;;
      msg ← PQerrorMessage;
      modify (set_error_text ("Error connecting to PostgreSQL with connection string: " +:+
                              s +:+ ": " +:+ msg +:+ " "))
    else mret ().

(** The constructor. The members it does not set before [createConnection] are
    not read there; [threadId] is the text of this thread's id. *)
Definition construct (threadId connectionString : string) (m : memory) : option (t * memory) :=
  match createConnection
          (Make "" "" "" "" None Ready None threadId connectionString 0 false, m) with
  | Some (_, (o, m)) => Some (set_was_error false (set_state Ready o), m)
  | None => None
  end.

(** ** The cursor *)

(** A command whose result is only checked. *)
Definition run_checked (cmd : string) : M unit :=
  result ← PQexec cmd;
  st ← PQresultStatus result;
  (if decide (st = PGRES_COMMAND_OK) then mret () else setError);;
  PQclear result.

Definition closeAndReset : M unit :=
  s ← get mState;
  (if decide (s = Open) then
     r ← get mResult;
     (match r with
      | Some _ => PQclear r;; modify (fun o => set_result None (mResultOffset o) o)
      | None => mret ()
      end);;
     valid ← get isValid;
     if (valid : bool) then
       cmd ← get mCloseCommand;
       run_checked cmd;;
       run_checked "END"
     else mret ()
   else mret ());;
  modify (set_state Ready).

(** The destructor. *)
Definition destruct_iterator : M unit := closeAndReset;; destroyConnection.

(** The first part of [next]: fetch another batch when the current one is used up. *)
Definition fetch_if_needed : M unit :=
  r ← get mResult;
  off ← get mResultOffset;
  n ← PQntuples r;
  if match r with None => true | Some _ => off =? n end then
    PQclear r;;
    cmd ← get mFetchCommand;
    r ← PQexec cmd;
    modify (set_result r 0)
  else mret ().

(** The rest of [next], on the current batch. *)
Definition row_of_batch : M (option DataObject) :=
  r ← get mResult;
  st ← PQresultStatus r;
  if negb (bool_decide (st = PGRES_TUPLES_OK)) then
    msg ← PQerrorMessage;
    modify (set_error_text ("Error fetching results : " +:+ msg +:+ " "));;
    setError;;
    closeAndReset;;
    mret None
  else
    n ← PQntuples r;
    if n =? 0 then closeAndReset;; mret None
    else
      off ← get mResultOffset;
      c ← PQgetrow r off;
      let nObject :=
        match c with
        | Some bytes => MkDataObject (Z.of_nat (length bytes)) ((., off) <$> r)
        | None => new_DataObject
        end in
      modify (set_result r (off + 1));;
      mret (Some nObject).

Definition next : M (option DataObject) := fetch_if_needed;; row_of_batch.

(** What [thriftObject] points to, while it still does. *)
Definition read (d : DataObject) (m : memory) : option row :=
  match thriftObject d with
  | None => Some None
  | Some (r, i) => results m !! r ≫= fun x => tuples x !! Z.to_nat i
  end.

(** ** The query texts *)

(** The loops over [curr]: an element is the last one if none follows. *)
Fixpoint string_id_loop (ids : list Z) (s : string) : string :=
  match ids with
  | [] => s
  | [curr] => s +:+ "'" +:+ toAppend_uint curr +:+ "'"
  | curr :: ids => string_id_loop ids (s +:+ "'" +:+ toAppend_uint curr +:+ "',")
  end.

Fixpoint long_id_loop (ids : list Z) (s : string) : string :=
  match ids with
  | [] => s
  | [curr] => s +:+ toAppend_uint curr
  | curr :: ids => long_id_loop ids (s +:+ toAppend_uint curr +:+ ",")
  end.

(** Without an id, [lastItem] would be before the beginning of the array:
    that is undefined. *)
Definition generateStringIdList (ids : list Z) (s : string) : option string :=
  match ids with [] => None | _ => Some (string_id_loop ids s) end.
Definition generateLongIdList (ids : list Z) (s : string) : option string :=
  match ids with [] => None | _ => Some (long_id_loop ids s) end.

(** folly writes an enumerator as its underlying integer. *)
Definition toAppend_topic (topic : Topic) : string := toAppend_uint (topic_value topic).
Definition cursor_name (topic : Topic) (thread : string) : string :=
  "cursor_" +:+ toAppend_topic topic +:+ "_" +:+ thread.

Definition declare_ids (ids : list Z) (topic : Topic) (thread : string) : option string :=
  if decide (topic <> Metamorphosis_Schedule_Day) then
    s ← generateStringIdList ids
      ("DECLARE " +:+ cursor_name topic thread +:+
       " BINARY CURSOR for select thrift from catapult.general where id in (");
    Some (s +:+ " ) and topic='" +:+ toChar topic +:+ "'")
  else
    s ← generateLongIdList ids
      ("DECLARE " +:+ cursor_name topic thread +:+
       " BINARY CURSOR for select thrift from catapult.schedule_day where schedule_day_id in (");
    Some (s +:+ " ) ").

Definition declare_range (from to : string) (stations : list Z) (thread : string) : option string :=
  s ← generateLongIdList stations
    ("DECLARE " +:+ cursor_name Metamorphosis_Schedule_Day thread +:+
     " BINARY CURSOR for select thrift from catapult.schedule_day where(day AT TIME ZONE 'UTC'  >='"
     +:+ from +:+ "' and day  AT TIME ZONE 'UTC'<='" +:+ to +:+ "' ) and station in (");
  Some (s +:+ " ) order by station,day ").

(** A date as the overload for [boost::gregorian::date] writes it. *)
Definition date_text (d : date) : string :=
  toAppend_uint (u16 (date_year d)) +:+ "-" +:+ toAppend_uint (u16 (date_month d)) +:+ "-" +:+
  toAppend_uint (u16 (date_day d)).

Definition fetch_text (topic : Topic) (thread : string) (fetchSize : Z) : string :=
  "FETCH " +:+ toAppend_uint fetchSize +:+ " in " +:+ cursor_name topic thread.
Definition close_text (topic : Topic) (thread : string) : string :=
  "CLOSE " +:+ cursor_name topic thread.

(** ** Running a query *)

Definition executeQuery (query : string) (topic : Topic) (fetchSize : Z) : M unit :=
  modify (set_result None 0);;
  result ← PQexec "BEGIN";
  st ← PQresultStatus result;
  if decide (st <> PGRES_COMMAND_OK) then
    msg ← PQerrorMessage;
    modify (set_error_text ("Error executing query for topic : " +:+ format_topic topic +:+
                            " : BEGIN command failed " +:+ msg));;
    PQclear result;;
    setError
  else
    PQclear result;;
    modify (set_state Open);;
    thread ← get mThreadId;
    modify (set_commands (fetch_text topic thread fetchSize) (close_text topic thread));;
    result ← PQexec query;
    st ← PQresultStatus result;
    if decide (st <> PGRES_COMMAND_OK) then
      modify (set_error_text ("Error executing query " +:+ query +:+ " :  "));;
      PQclear result;;
      setError;;
      closeAndReset
    else mret ().

Definition executeQuery_ids (ids : list Z) (topic : Topic) (fetchSize : Z) : M unit :=
  thread ← get mThreadId;
  text ← defined (declare_ids ids topic thread);
  modify (set_query text);;
  query ← get mQueryCommand;
  executeQuery query topic fetchSize.

Definition executeQuery_strings (dateFrom dateTo : string) (stations : list Z) (fetchSize : Z) : M unit :=
  thread ← get mThreadId;
  text ← defined (declare_range dateFrom dateTo stations thread);
  modify (set_query text);;
  query ← get mQueryCommand;
  executeQuery query Metamorphosis_Schedule_Day fetchSize.

Definition executeQuery_dates (dateFrom dateTo : date) (stations : list Z) (fetchSize : Z) : M unit :=
  thread ← get mThreadId;
  text ← defined (declare_range (date_text dateFrom) (date_text dateTo) stations thread);
  modify (set_query text);;
  query ← get mQueryCommand;
  executeQuery query Metamorphosis_Schedule_Day fetchSize.

(** The three overloads, as one argument. *)
Inductive request :=
| ByIds (ids : list Z) (topic : Topic)
| ByStrings (dateFrom dateTo : string) (stations : list Z)
| ByDates (dateFrom dateTo : date) (stations : list Z).

Definition run_request (q : request) (fetchSize : Z) : M unit :=
  match q with
  | ByIds ids topic => executeQuery_ids ids topic fetchSize
  | ByStrings from to stations => executeQuery_strings from to stations fetchSize
  | ByDates from to stations => executeQuery_dates from to stations fetchSize
  end.

Definition request_topic (q : request) : Topic :=
  match q with ByIds _ topic => topic | _ => Metamorphosis_Schedule_Day end.
Definition request_text (q : request) (thread : string) : option string :=
  match q with
  | ByIds ids topic => declare_ids ids topic thread
  | ByStrings from to stations => declare_range from to stations thread
  | ByDates from to stations => declare_range (date_text from) (date_text to) stations thread
  end.
Definition request_ids (q : request) : list Z :=
  match q with ByIds ids _ | ByStrings _ _ ids | ByDates _ _ ids => ids end.

Lemma run_request_eq q n o m :
  run_request q n (o, m) =
  match request_text q (mThreadId o) with
  | Some text => executeQuery text (request_topic q) n (set_query text o, m)
  | None => None
  end.
Proof.
  destruct q as [ids topic|from to ids|from to ids]; cbn [run_request request_text].
  - unfold executeQuery_ids, mbind, M_bind, get, defined, modify. cbn. by destruct (declare_ids _ _ _).
  - unfold executeQuery_strings, mbind, M_bind, get, defined, modify. cbn. by destruct (declare_range _ _ _ _).
  - unfold executeQuery_dates, mbind, M_bind, get, defined, modify. cbn. by destruct (declare_range _ _ _ _).
Qed.

(** The loop [while ((object = iterator->next()) != nullptr)] of a client that
    reads each object as it gets it, at most [fuel] times: the sizes and the
    contents it sees. *)
Fixpoint drain (fuel : nat) : M (list (Z * option row)) :=
  match fuel with
  | O => mret []
  | S fuel =>
      object ← next;
      match object with
      | None => mret []
      | Some d =>
          seen ← (fun st => Some ((sizeInBytes d, read d st.2), st)) : M _;
          rest ← drain fuel;
          mret (seen :: rest)
      end
  end.

(** Runs the primitive steps of a method. *)
Ltac run_m := unfold mbind, M_bind, mret, M_ret, the_result, get, modify; cbn.

(** ** Commands whose result is only checked *)

(** How a command sent on [c] ends, and the connection after it. *)
Definition ends (cmd : string) (c : conn) : ExecStatus := status_of (libpq_exec cmd c).1.
Definition after (cmd : string) (c : conn) : conn := (libpq_exec cmd c).2.

(** Results are numbered upwards. *)
Definition fresh (m : memory) : Prop := forall r, next_result m <= r -> results m !! r = None.

(** The memory is the same but for commands sent. *)
Record same_results (m m' : memory) (cmds : list (string * ExecStatus)) : Prop := {
  same_map : results m' = results m;
  same_fresh : fresh m';
  same_sent : sent m' = sent m ++ cmds;
}.

Lemma same_refl m : fresh m -> same_results m m [].
Proof. intros Hf. split; [done|done|by rewrite app_nil_r]. Qed.

Lemma same_trans m1 m2 m3 cs ds :
  same_results m1 m2 cs -> same_results m2 m3 ds -> same_results m1 m3 (cs ++ ds).
Proof. intros [] []. split; [congruence|done|]. rewrite app_assoc. congruence. Qed.

(** What [PQexec] gives: its status can be read, and clearing it leaves the
    results as they were. *)
Record answered (r : option Z) (m m1 : memory) (cmd : string) (st : ExecStatus) : Prop := {
  answered_status o : PQresultStatus r (o, m1) = Some (st, (o, m1));
  answered_clear o : exists m2, PQclear r (o, m1) = Some ((), (o, m2)) /\
    same_results m m2 [(cmd, st)];
}.

Lemma PQexec_spec cmd o m c :
  mConnection o = Some c -> fresh m ->
  exists r m1, PQexec cmd (o, m) = Some (r, (set_connection (Some (after cmd c)) o, m1)) /\
    answered r m m1 cmd (ends cmd c).
Proof.
  intros Hc Hf. unfold PQexec, ends, after. rewrite Hc.
  destruct (libpq_exec cmd c) as [[x|] c'] eqn:E; cbn.
  - eexists _, _. split; [done|]. split; intros o'; cbn; unfold the_result, M_bind, mbind; cbn.
    + by rewrite lookup_insert_eq.
    + rewrite lookup_insert_eq. eexists. split; [done|]. split; cbn; [|intros r Hr|done].
      * by rewrite delete_insert_id by (apply Hf; lia).
      * cbn in *. rewrite delete_insert_id by (apply Hf; lia). apply Hf. lia.
  - eexists _, _. split; [done|]. split; intros o'; [done|].
    eexists. split; [done|]. split; [done|done|done].
Qed.

(** ** [closeAndReset] *)

Definition not_ok (st : ExecStatus) : bool := bool_decide (st <> PGRES_COMMAND_OK).

Definition checked (cmd : string) (c : conn) (o : t) : t :=
  set_was_error (mWasError o || not_ok (ends cmd c)) (set_connection (Some (after cmd c)) o).

Lemma run_checked_spec cmd o m c :
  mConnection o = Some c -> fresh m ->
  exists m', run_checked cmd (o, m) = Some ((), (checked cmd c o, m')) /\
    same_results m m' [(cmd, ends cmd c)].
Proof.
  intros Hc Hf. destruct (PQexec_spec cmd o m c Hc Hf) as (r & m1 & E & [Hst Hcl]).
  unfold run_checked, mbind, M_bind. rewrite E, Hst. unfold checked, not_ok.
  case_decide as Hd; cbn.
  - destruct (Hcl (set_connection (Some (after cmd c)) o)) as (m2 & -> & Hs).
    exists m2. split; [|done]. rewrite bool_decide_eq_false_2 by tauto. rewrite orb_false_r. done.
  - destruct (Hcl (set_was_error true (set_connection (Some (after cmd c)) o))) as (m2 & -> & Hs).
    exists m2. split; [|done]. rewrite bool_decide_eq_true_2 by tauto. by rewrite orb_true_r.
Qed.

(** What closing does to the object when its state is [Open]. *)
Definition closed (o : t) : t :=
  set_state Ready
    (let o := match mResult o with Some _ => set_result None (mResultOffset o) o | None => o end in
     match mConnection o with
     | None => o
     | Some c => checked "END" (after (mCloseCommand o) c) (checked (mCloseCommand o) c o)
     end).

Definition close_commands (o : t) : list (string * ExecStatus) :=
  match mConnection o with
  | None => []
  | Some c => [(mCloseCommand o, ends (mCloseCommand o) c);
               ("END", ends "END" (after (mCloseCommand o) c))]
  end.

(** A result that is the object's own is there, and its position is in range. *)
Definition owns (o : t) (m : memory) : Prop :=
  forall r, mResult o = Some r ->
  exists x, results m !! r = Some x /\ 0 <= mResultOffset o <= Z.of_nat (length (tuples x)).

Definition drop_result (r : option Z) (m : memory) : memory :=
  match r with
  | Some r => Memory (delete r (results m)) (next_result m) (sent m)
  | None => m
  end.

Lemma fresh_drop r m : fresh m -> fresh (drop_result r m).
Proof.
  destruct r as [r|]; [|done]. intros Hf q Hq. cbn in *. rewrite lookup_delete_None. right. by apply Hf.
Qed.

Lemma PQclear_spec r o o' m :
  mResult o = r -> owns o m -> PQclear r (o', m) = Some ((), (o', drop_result r m)).
Proof.
  intros <- Ho. destruct (mResult o) as [r|] eqn:E; [|done].
  destruct (Ho r E) as (x & Hx & _). cbn. unfold mbind, M_bind, the_result. cbn. by rewrite Hx.
Qed.

Lemma closeAndReset_ready o m :
  mState o = Ready -> closeAndReset (o, m) = Some ((), (o, m)).
Proof. intros Hs. unfold closeAndReset, mbind, M_bind. cbn. rewrite Hs, decide_False by done.
  cbn. destruct o. cbn in *. by subst.
Qed.

Lemma closeAndReset_open o m :
  mState o = Open -> owns o m -> fresh m ->
  exists m', closeAndReset (o, m) = Some ((), (closed o, m')) /\
    same_results (drop_result (mResult o) m) m' (close_commands o).
Proof.
  intros Hs Ho Hf. pose proof (fresh_drop (mResult o) m Hf) as Hf1.
  set (m1 := drop_result (mResult o) m) in *.
  set (o1 := match mResult o with Some _ => set_result None (mResultOffset o) o | None => o end).
  assert (closeAndReset (o, m) =
    ((if isValid o1 then run_checked (mCloseCommand o1);; run_checked "END" else mret ());;
     modify (set_state Ready)) (o1, m1)) as ->.
  { unfold closeAndReset, mbind, M_bind. cbn. rewrite Hs, decide_True by done.
    subst o1 m1. cbn. destruct (mResult o) as [r|] eqn:Er; [|unfold mret, M_ret; cbn; by destruct (isValid o)].
    rewrite (PQclear_spec (Some r) o o m) by done. cbn. unfold isValid. cbn.
    by destruct (mConnection o). }
  assert (close_commands o = close_commands o1) as -> by (subst o1; by destruct (mResult o)).
  assert (closed o = set_state Ready
    (match mConnection o1 with
     | None => o1
     | Some c => checked "END" (after (mCloseCommand o1) c) (checked (mCloseCommand o1) c o1)
     end)) as -> by done.
  clearbody o1 m1. unfold mbind, M_bind, isValid, close_commands.
  destruct (mConnection o1) as [c|] eqn:Ec.
  - destruct (run_checked_spec (mCloseCommand o1) o1 m1 c) as (m2 & -> & Hs1); [done..|].
    destruct (run_checked_spec "END" (checked (mCloseCommand o1) c o1) m2
                (after (mCloseCommand o1) c)) as (m3 & -> & Hs2); [done|apply Hs1|].
    exists m3. split; [done|]. by apply (same_trans _ _ _ _ _ Hs1).
  - exists m1. split; [done|by apply same_refl].
Qed.

(** ** [next] *)

(** A batch has to be fetched: there is none, or it is used up. *)
Definition used_up (o : t) (m : memory) : bool :=
  match mResult o with
  | None => true
  | Some r => match results m !! r with
              | Some x => mResultOffset o =? Z.of_nat (length (tuples x))
              | None => true
              end
  end.

Definition fetched (o : t) : option PGresult :=
  match mConnection o with Some c => (libpq_exec (mFetchCommand o) c).1 | None => None end.
Definition fetch_commands (o : t) : list (string * ExecStatus) :=
  match mConnection o with
  | Some c => [(mFetchCommand o, ends (mFetchCommand o) c)]
  | None => []
  end.
Definition moved (o : t) : t :=
  match mConnection o with
  | Some c => set_connection (Some (after (mFetchCommand o) c)) o
  | None => o
  end.

Definition with_result (r : option PGresult) (m : memory) : gmap Z PGresult :=
  match r with Some x => <[next_result m := x]> (results m) | None => results m end.

Definition result_id (r : option PGresult) (m : memory) : option Z :=
  match r with Some _ => Some (next_result m) | None => None end.

Lemma fetch_not_needed o m :
  owns o m -> used_up o m = false -> fetch_if_needed (o, m) = Some ((), (o, m)).
Proof.
  intros Ho Hu. unfold used_up in Hu. destruct (mResult o) as [r|] eqn:Er; [|done].
  destruct (Ho r Er) as (x & Hx & _). rewrite Hx in Hu.
  unfold fetch_if_needed. run_m. rewrite Er. cbn.
  run_m. by rewrite Hx, Hu.
Qed.

Lemma fetch_needed o m :
  owns o m -> fresh m -> used_up o m = true ->
  exists m', fetch_if_needed (o, m) =
      Some ((), (set_result (result_id (fetched o) m) 0 (moved o), m')) /\
    results m' = with_result (fetched o) (drop_result (mResult o) m) /\
    fresh m' /\ sent m' = sent m ++ fetch_commands o.
Proof.
  intros Ho Hf Hu.
  assert (fetch_if_needed (o, m) =
    (r ← PQexec (mFetchCommand o); modify (set_result r 0)) (o, drop_result (mResult o) m)) as ->.
  { unfold fetch_if_needed. run_m. unfold used_up in Hu.
    destruct (mResult o) as [r|] eqn:Er; [|done]. destruct (Ho r Er) as (x & Hx & _).
    rewrite Hx in Hu. cbn [PQntuples]. run_m. rewrite Hx. cbn.
    rewrite Hu. run_m. by rewrite Hx. }
  pose proof (fresh_drop (mResult o) m Hf) as Hf1.
  set (m1 := drop_result (mResult o) m) in *.
  assert (next_result m1 = next_result m) as Hn by (subst m1; by destruct (mResult o)).
  assert (sent m1 = sent m) as Hse by (subst m1; by destruct (mResult o)).
  clearbody m1.
  unfold PQexec, mbind, M_bind, fetched, fetch_commands, moved, ends, after.
  destruct (mConnection o) as [c|] eqn:Ec.
  - destruct (libpq_exec (mFetchCommand o) c) as [[x|] c'] eqn:E; cbn; rewrite ?Hn, ?Hse.
    + eexists. split; [done|]. cbn. rewrite ?Hn. split; [done|]. split; [|done].
      intros r Hr. cbn in *. rewrite lookup_insert_ne by lia. apply Hf1. lia.
    + eexists. split; [done|]. split; [done|]. split; [|done]. intros r Hr. cbn in *. apply Hf1. lia.
  - eexists. split; [done|]. split; [done|]. split; [done|]. by rewrite app_nil_r.
Qed.

(** The object for a cell of row [i] of the result [r]. *)
Definition row_object (cell : row) (r i : Z) : DataObject :=
  match cell with
  | Some bytes => MkDataObject (Z.of_nat (length bytes)) (Some (r, i))
  | None => new_DataObject
  end.

(** What [next] does with the batch it has. *)
Lemma row_of_batch_row o m r x cell :
  mResult o = Some r -> results m !! r = Some x -> status x = PGRES_TUPLES_OK ->
  0 <= mResultOffset o -> tuples x !! Z.to_nat (mResultOffset o) = Some cell ->
  row_of_batch (o, m) =
    Some (Some (row_object cell r (mResultOffset o)),
          (set_result (Some r) (mResultOffset o + 1) o, m)).
Proof.
  intros Er Hx Hst Hoff Hc. unfold row_of_batch. run_m. rewrite Er. cbn.
  run_m. rewrite Hx. cbn. rewrite Hst, bool_decide_eq_true_2 by done. cbn. rewrite Hx. cbn.
  assert ((Z.of_nat (length (tuples x)) =? 0) = false) as ->.
  { apply Z.eqb_neq. apply lookup_lt_Some in Hc. lia. }
  cbn. rewrite Hx. cbn. rewrite Hc. by destruct cell.
Qed.

Lemma row_of_batch_empty o m r x :
  mResult o = Some r -> results m !! r = Some x -> status x = PGRES_TUPLES_OK ->
  tuples x = [] ->
  row_of_batch (o, m) = (closeAndReset;; mret None) (o, m).
Proof.
  intros Er Hx Hst Hn. unfold row_of_batch. run_m. rewrite Er. cbn.
  run_m. rewrite Hx. cbn. rewrite Hst, bool_decide_eq_true_2 by done. cbn. rewrite Hx. cbn.
  by rewrite Hn.
Qed.

Definition fetch_failed (o : t) : t :=
  set_was_error true
    (set_error_text ("Error fetching results : " +:+ libpq_errorMessage (mConnection o) +:+ " ") o).

Lemma row_of_batch_failed o m :
  match mResult o with
  | Some r => exists x, results m !! r = Some x /\ status x <> PGRES_TUPLES_OK
  | None => True
  end ->
  row_of_batch (o, m) = (closeAndReset;; mret None) (fetch_failed o, m).
Proof.
  intros Hr. unfold row_of_batch. run_m. destruct (mResult o) as [r|] eqn:Er.
  - destruct Hr as (x & Hx & Hs). cbn. run_m. rewrite Hx. cbn.
    by rewrite bool_decide_eq_false_2.
  - done.
Qed.

#[local] Arguments PQexec : simpl never.
#[local] Arguments PQresultStatus : simpl never.
#[local] Arguments PQclear : simpl never.
#[local] Arguments closeAndReset : simpl never.

(** ** [executeQuery] *)

Definition good (o : t) (m : memory) : Prop := owns o m /\ fresh m.

Lemma good_no_result o m : mResult o = None -> fresh m -> good o m.
Proof. intros Hn Hf. split; [|done]. intros r Hr. congruence. Qed.

(** The object when [BEGIN] fails, and when the query does: [o] is the object
    with no result. *)
Definition begin_failed (topic : Topic) (c : conn) (o : t) : t :=
  let c1 := after "BEGIN" c in
  set_was_error true
    (set_error_text ("Error executing query for topic : " +:+ format_topic topic +:+
                     " : BEGIN command failed " +:+ libpq_errorMessage (Some c1))
       (set_connection (Some c1) o)).

Definition in_transaction (topic : Topic) (fetchSize : Z) (c : conn) (o : t) : t :=
  set_commands (fetch_text topic (mThreadId o) fetchSize) (close_text topic (mThreadId o))
    (set_state Open (set_connection (Some (after "BEGIN" c)) o)).

Definition declared (query : string) (topic : Topic) (fetchSize : Z) (c : conn) (o : t) : t :=
  set_connection (Some (after query (after "BEGIN" c))) (in_transaction topic fetchSize c o).

Definition query_failed (query : string) (o : t) : t :=
  set_was_error true (set_error_text ("Error executing query " +:+ query +:+ " :  ") o).

Definition begin_sent (c : conn) : list (string * ExecStatus) := [("BEGIN", ends "BEGIN" c)].
Definition query_sent (query : string) (c : conn) : list (string * ExecStatus) :=
  [("BEGIN", ends "BEGIN" c); (query, ends query (after "BEGIN" c))].

(** The three ways a query on the connection [c] goes: [BEGIN] is refused, the
    query is refused and the transaction ended, or a cursor is open. In the
    last case the result of the query stays allocated and nothing points to it. *)
Definition query_outcome (query : string) (topic : Topic) (fetchSize : Z) (c : conn)
    (o : t) (m : memory) (o' : t) (m' : memory) : Prop :=
  let o0 := set_result None 0 o in
  if not_ok (ends "BEGIN" c) then
    o' = begin_failed topic c o0 /\ same_results m m' (begin_sent c)
  else if not_ok (ends query (after "BEGIN" c)) then
    let o1 := query_failed query (declared query topic fetchSize c o0) in
    o' = closed o1 /\ same_results m m' (query_sent query c ++ close_commands o1)
  else
    o' = declared query topic fetchSize c o0 /\ fresh m' /\
    sent m' = sent m ++ query_sent query c /\
    exists id x, results m !! id = None /\ status x = PGRES_COMMAND_OK /\
      results m' = <[id := x]> (results m).

Lemma PQexec_ok cmd o m c :
  mConnection o = Some c -> ends cmd c = PGRES_COMMAND_OK ->
  exists x m1, PQexec cmd (o, m) =
      Some (Some (next_result m), (set_connection (Some (after cmd c)) o, m1)) /\
    status x = PGRES_COMMAND_OK /\ next_result m1 = next_result m + 1 /\
    results m1 = <[next_result m := x]> (results m) /\
    sent m1 = sent m ++ [(cmd, PGRES_COMMAND_OK)].
Proof.
  intros Hc He. unfold PQexec, ends, after in *. rewrite Hc.
  destruct (libpq_exec cmd c) as [[x|] c'] eqn:E; cbn in *; [|done].
  eexists x, _. rewrite He. done.
Qed.

Lemma not_ok_false st : not_ok st = false <-> st = PGRES_COMMAND_OK.
Proof. unfold not_ok. rewrite bool_decide_eq_false. destruct st; naive_solver. Qed.

Lemma executeQuery_spec query topic n o m c :
  mState o = Ready -> mConnection o = Some c -> good o m ->
  exists o' m', executeQuery query topic n (o, m) = Some ((), (o', m')) /\
    query_outcome query topic n c o m o' m'.
Proof.
  intros Hs Hc [Ho Hf]. unfold query_outcome. set (o0 := set_result None 0 o).
  destruct (PQexec_spec "BEGIN" o0 m c) as (r & m1 & E1 & [Hst1 Hcl1]); [done..|].
  unfold executeQuery. run_m. fold o0. rewrite E1. rewrite Hst1.
  destruct (not_ok (ends "BEGIN" c)) eqn:Hb.
  - unfold not_ok in Hb. apply bool_decide_eq_true in Hb. rewrite decide_True by done.
    edestruct Hcl1 as (m2 & -> & Hm2). eexists _, m2. split; [done|]. done.
  - apply not_ok_false in Hb. rewrite decide_False by (rewrite Hb; tauto).
    destruct (Hcl1 (set_connection (Some (after "BEGIN" c)) o0)) as (m2 & -> & Hm2). cbn.
    set (oT := in_transaction topic n c o0).
    change (set_commands _ _ _) with oT.
    destruct (not_ok (ends query (after "BEGIN" c))) eqn:Hq.
    + destruct (PQexec_spec query oT m2 (after "BEGIN" c)) as (r2 & m3 & -> & [Hst2 Hcl2]);
        [done|apply Hm2|].
      rewrite Hst2. unfold not_ok in Hq. apply bool_decide_eq_true in Hq.
      rewrite decide_True by done. edestruct Hcl2 as (m4 & -> & Hm4).
      change (set_connection (Some (after query (after "BEGIN" c))) oT)
        with (declared query topic n c o0).
      change (set_was_error true _) with (query_failed query (declared query topic n c o0)).
      edestruct closeAndReset_open as (m5 & -> & Hm5); [done|by intros ?|apply Hm4|].
      eexists _, m5. split; [done|]. split; [done|].
      apply (same_trans _ _ _ _ _ (same_trans _ _ _ _ _ Hm2 Hm4) Hm5).
    + apply not_ok_false in Hq.
      destruct (PQexec_ok query oT m2 (after "BEGIN" c)) as (x & m3 & -> & Hx & Hn & Hr & Hse);
        [done..|].
      unfold PQresultStatus. run_m. rewrite Hr, lookup_insert_eq. cbn. rewrite Hx. rewrite decide_False by tauto.
      eexists _, m3. split; [done|]. split; [done|]. destruct Hm2 as [Hm2 Hf2 Hs2].
      split; [|split].
      * intros q Hle. rewrite Hr, lookup_insert_ne by lia. apply Hf2. lia.
      * rewrite Hse, Hs2, <- app_assoc. unfold query_sent. by rewrite Hq.
      * exists (next_result m2), x. rewrite <- Hm2. split; [by apply Hf2|done].
Qed.

(** ** Reading all rows *)

(** A server that serves a cursor, as PostgreSQL documents it: [idle] and
    [in_txn] say where a connection is, and [cursor rs] that a cursor is open
    with the rows [rs] to come. *)
Record serves (query fetch close : string) (n : nat) (rows : list row)
    (idle in_txn : conn -> Prop) (cursor : list row -> conn -> Prop) : Prop := {
  serves_begin c : idle c -> ends "BEGIN" c = PGRES_COMMAND_OK /\ in_txn (after "BEGIN" c);
  serves_declare c : in_txn c -> ends query c = PGRES_COMMAND_OK /\ cursor rows (after query c);
  serves_fetch rs c : cursor rs c ->
    (libpq_exec fetch c).1 = Some (MkResult PGRES_TUPLES_OK (take n rs)) /\
    cursor (drop n rs) (after fetch c);
  serves_close rs c : cursor rs c -> ends close c = PGRES_COMMAND_OK /\ in_txn (after close c);
  serves_end c : in_txn c -> ends "END" c = PGRES_COMMAND_OK /\ idle (after "END" c);
}.

Section served.
Context {query fetch close : string} {n : nat} {rows : list row}.
Context {idle in_txn : conn -> Prop} {cursor : list row -> conn -> Prop}.
Context (Hserves : serves query fetch close n rows idle in_txn cursor) (Hn : (0 < n)%nat).

(** The rows [rs] are still to be read. *)
Record streaming (rs : list row) (o : t) (m : memory) : Prop := {
  str_good : good o m;
  str_open : mState o = Open;
  str_fetch : mFetchCommand o = fetch;
  str_close : mCloseCommand o = close;
  str_rows : exists c rest, mConnection o = Some c /\ cursor rest c /\
    match mResult o with
    | None => rs = rest
    | Some r => exists x, results m !! r = Some x /\ status x = PGRES_TUPLES_OK /\
                  rs = drop (Z.to_nat (mResultOffset o)) (tuples x) ++ rest
    end;
}.

(** After [fetch_if_needed] the batch holds the next row, or is empty if none is left. *)
Definition batch_ready (rs : list row) (o : t) (m : memory) : Prop :=
  exists r x, mResult o = Some r /\ results m !! r = Some x /\ status x = PGRES_TUPLES_OK /\
    match rs with
    | [] => tuples x = []
    | cell :: _ => tuples x !! Z.to_nat (mResultOffset o) = Some cell
    end.

Lemma fetch_streams rs o m :
  streaming rs o m ->
  exists o' m', fetch_if_needed (o, m) = Some ((), (o', m')) /\ streaming rs o' m' /\
    batch_ready rs o' m' /\ mWasError o' = mWasError o.
Proof.
  intros [[Ho Hf] Hop Hfe Hcl (c & rest & Hc & Hcu & Hrs)].
  destruct (used_up o m) eqn:Hu.
  - destruct (fetch_needed o m Ho Hf Hu) as (m' & -> & Hr & Hf' & _).
    assert (rs = rest) as ->.
    { unfold used_up in Hu. destruct (mResult o) as [r|]; [|done].
      destruct Hrs as (x & Hx & _ & ->). rewrite Hx in Hu. apply Z.eqb_eq in Hu.
      by rewrite Hu, Nat2Z.id, drop_all. }
    destruct (serves_fetch _ _ _ _ _ _ _ _ Hserves rest c Hcu) as [Hb Hcu'].
    unfold fetched, moved in *. rewrite Hc, Hfe, Hb in *.
    set (x := MkResult PGRES_TUPLES_OK (take n rest)) in *.
    eexists _, m'. split; [done|].
    assert (results m' !! next_result m = Some x) as Hx.
    { rewrite Hr. cbn. destruct (mResult o); apply lookup_insert_eq. }
    split; [split; [split; [|done]|done|done|done|]|split; [|done]].
    + intros r [= <-]. exists x. split; [done|]. cbn. lia.
    + cbn. exists (after fetch c), (drop n rest). split; [done|]. split; [done|].
      exists x. split; [done|]. split; [done|].
      change (mResultOffset _) with 0. rewrite drop_0. cbn [tuples x]. by rewrite take_drop.
    + exists (next_result m), x. split; [done|]. split; [done|]. split; [done|]. cbn.
      destruct rest as [|cell rest]; [by rewrite take_nil|]. by destruct n; [lia|].
  - rewrite (fetch_not_needed o m Ho Hu). exists o, m. split; [done|].
    split; [split; [done..|]; by exists c, rest|]. split; [|done].
    unfold used_up in Hu. destruct (mResult o) as [r|] eqn:Er; [|done].
    destruct Hrs as (x & Hx & Hst & ->). rewrite Hx in Hu. apply Z.eqb_neq in Hu.
    destruct (Ho r Er) as (x' & Hx' & Hb). assert (x' = x) as -> by congruence.
    exists r, x. split; [done|]. split; [done|]. split; [done|].
    destruct (drop _ (tuples x)) as [|cell l] eqn:Hd.
    { apply (f_equal length) in Hd. rewrite length_drop in Hd. cbn in Hd. lia. }
    cbn. by rewrite <- (Nat.add_0_r (Z.to_nat _)), <- lookup_drop, Hd.
Qed.

Definition cell_size (cell : row) : Z :=
  match cell with Some bytes => Z.of_nat (length bytes) | None => 0 end.

Lemma next_streams_row cell rs o m :
  streaming (cell :: rs) o m ->
  exists d o' m', next (o, m) = Some (Some d, (o', m')) /\ streaming rs o' m' /\
    sizeInBytes d = cell_size cell /\ read d m' = Some cell /\ mWasError o' = mWasError o.
Proof.
  intros Hs. destruct (fetch_streams _ _ _ Hs) as (o1 & m1 & E & Hs1 & Hb & Hw).
  destruct Hb as (r & x & Er & Hx & Hst & Hcell). destruct Hs1 as [[Ho Hf] Hop Hfe Hcl Hrows].
  assert (0 <= mResultOffset o1) as Hoff by (destruct (Ho r Er) as (? & _ & ?); lia).
  unfold next. run_m. rewrite E, (row_of_batch_row _ _ _ _ _ Er Hx Hst Hoff Hcell).
  eexists _, _, _. split; [done|]. split; [split; [split; [|done]|done..|]|].
  - intros r' [= <-]. exists x. split; [done|]. cbn. apply lookup_lt_Some in Hcell. lia.
  - destruct Hrows as (c & rest & Hc & Hcu & Hrows). exists c, rest.
    split; [done|]. split; [done|]. cbn. rewrite Er in Hrows.
    destruct Hrows as (x' & Hx' & _ & Hrs). assert (x' = x) as -> by congruence.
    exists x. split; [done|]. split; [done|]. rewrite (drop_S _ _ _ Hcell) in Hrs.
    replace (Z.to_nat (mResultOffset o1 + 1)) with (S (Z.to_nat (mResultOffset o1))) by lia.
    by injection Hrs.
  - split; [by destruct cell|]. split; [|done]. unfold read. destruct cell; [|done]. cbn.
    by rewrite Hx.
Qed.

Lemma next_streams_end o m :
  streaming [] o m ->
  exists o' m' c, next (o, m) = Some (None, (o', m')) /\ mState o' = Ready /\ mResult o' = None /\
    mConnection o' = Some c /\ idle c /\ good o' m' /\ mWasError o' = mWasError o.
Proof.
  intros Hs. destruct (fetch_streams _ _ _ Hs) as (o1 & m1 & E & Hs1 & Hb & Hw).
  destruct Hb as (r & x & Er & Hx & Hst & Hcell).
  destruct Hs1 as [[Ho Hf] Hop Hfe Hcl (c & rest & Hc & Hcu & _)].
  unfold next. run_m. rewrite E, (row_of_batch_empty _ _ _ _ Er Hx Hst Hcell).
  destruct (closeAndReset_open o1 m1 Hop Ho Hf) as (m' & E' & Hsame). run_m. rewrite E'.
  destruct (serves_close _ _ _ _ _ _ _ _ Hserves rest c Hcu) as [Hclo Ht].
  destruct (serves_end _ _ _ _ _ _ _ _ Hserves _ Ht) as [He Hi].
  exists (closed o1), m', (after "END" (after close c)). split; [done|].
  unfold closed. rewrite Er. cbn. rewrite Hc. cbn. rewrite Hcl.
  split; [done|]. split; [done|]. split; [done|]. split; [done|]. split.
  - apply good_no_result; [done|apply Hsame].
  - rewrite Hclo, He. by rewrite !orb_false_r.
Qed.

Lemma drain_streams rs o m k :
  streaming rs o m -> (length rs < k)%nat ->
  exists o' m' c, drain k (o, m) = Some ((fun cell => (cell_size cell, Some cell)) <$> rs, (o', m')) /\
    mState o' = Ready /\ mResult o' = None /\ mConnection o' = Some c /\ idle c /\ good o' m' /\
    mWasError o' = mWasError o.
Proof.
  revert o m k. induction rs as [|cell rs IH]; intros o m [|k] Hs Hk; [cbn in *; lia| |cbn in *; lia|].
  - destruct (next_streams_end o m Hs) as (o' & m' & c & E & Hrest).
    exists o', m', c. cbn [drain]. run_m. by rewrite E.
  - destruct (next_streams_row _ _ _ _ Hs) as (d & o1 & m1 & E & Hs1 & Hsz & Hrd & Hw).
    destruct (IH o1 m1 k) as (o' & m' & c & E' & Hrest); [done|cbn in Hk; lia|].
    exists o', m', c. cbn [drain]. run_m. rewrite E. cbn. rewrite E'. cbn.
    rewrite Hsz, Hrd, <- Hw. done.
Qed.

End served.

(** ** Any server, any sequence of calls *)

Lemma closeAndReset_any o m :
  good o m ->
  exists o' m', closeAndReset (o, m) = Some ((), (o', m')) /\ good o' m' /\ mState o' = Ready /\
    mThreadId o' = mThreadId o /\
    if decide (mState o = Open)
    then o' = closed o /\ same_results (drop_result (mResult o) m) m' (close_commands o)
    else o' = o /\ m' = m.
Proof.
  intros [Ho Hf]. destruct (mState o) eqn:Hs.
  - exists o, m. by rewrite (closeAndReset_ready o m Hs).
  - destruct (closeAndReset_open o m Hs Ho Hf) as (m' & -> & Hm).
    exists (closed o), m'. split; [done|].
    assert (mResult (closed o) = None) as Hn.
    { unfold closed. destruct (mResult o) eqn:Er; cbn; by destruct (mConnection o). }
    split; [by apply good_no_result; [|apply Hm]|]. split; [done|]. split; [|done].
    unfold closed. destruct (mResult o); cbn; by destruct (mConnection o).
Qed.

Lemma executeQuery_unconnected query topic n o m :
  mConnection o = None -> good o m ->
  exists e, executeQuery query topic n (o, m) =
    Some ((), (set_was_error true (set_error_text e (set_result None 0 o)), m)).
Proof.
  intros Hc [_ Hf]. eexists. unfold executeQuery. run_m. unfold PQexec. cbn. rewrite Hc. done.
Qed.

(** What [fetch_if_needed] does in any case. *)
Lemma fetch_any o m :
  good o m ->
  exists o1 m1, fetch_if_needed (o, m) = Some ((), (o1, m1)) /\ good o1 m1 /\
    mState o1 = mState o /\ mCloseCommand o1 = mCloseCommand o /\
    mFetchCommand o1 = mFetchCommand o /\ mThreadId o1 = mThreadId o /\
    (is_Some (mConnection o) <-> is_Some (mConnection o1)) /\
    (if used_up o m
     then sent m1 = sent m ++ fetch_commands o /\
          forall r, mResult o = Some r -> results m1 !! r = None
     else o1 = o /\ m1 = m) /\
    match mResult o1 with
    | Some r => exists x, results m1 !! r = Some x /\
        (tuples x = [] \/ exists cell, tuples x !! Z.to_nat (mResultOffset o1) = Some cell)
    | None => True
    end.
Proof.
  intros [Ho Hf]. destruct (used_up o m) eqn:Hu.
  - destruct (fetch_needed o m Ho Hf Hu) as (m1 & -> & Hr & Hf1 & Hse).
    assert (next_result (drop_result (mResult o) m) = next_result m) as Hn by by destruct (mResult o).
    eexists _, m1. split; [done|]. split; [split; [|done]|].
    { intros r Hrr. cbn in Hrr |- *. unfold result_id, with_result in *. destruct (fetched o) as [x|]; [|done].
      injection Hrr as <-. exists x. rewrite Hr, Hn, lookup_insert_eq. split; [done|lia]. }
    unfold moved. split; [by destruct (mConnection o)|]. split; [by destruct (mConnection o)|].
    split; [by destruct (mConnection o)|]. split; [by destruct (mConnection o)|].
    split; [destruct (mConnection o) eqn:Ec; cbn; rewrite ?Ec; split; intros [? ?]; (done || by eexists)|].
    split; [split; [done|]|].
    + intros r Er. destruct (Ho r Er) as (x & Hx & _). rewrite Hr. unfold with_result.
      assert (r <> next_result m) by (intros ->; by rewrite Hf in Hx).
      rewrite Er in *. destruct (fetched o); cbn; [rewrite lookup_insert_ne by done|];
        apply lookup_delete_eq.
    + cbn. unfold result_id, with_result in *. destruct (fetched o) as [x|]; [|done].
      exists x. rewrite Hr, Hn, lookup_insert_eq. split; [done|].
      destruct (tuples x); [by left|right; by eexists].
  - rewrite (fetch_not_needed o m Ho Hu). exists o, m. do 6 (split; [done|]).
    split; [done|]. split; [done|]. unfold used_up in Hu.
    destruct (mResult o) as [r|] eqn:Er; [|done]. destruct (Ho r Er) as (x & Hx & Hb).
    rewrite Hx in Hu. apply Z.eqb_neq in Hu. exists x. split; [done|]. right.
    apply lookup_lt_is_Some. lia.
Qed.

(** [next] gives a row of the batch, or closes. *)
Lemma next_any o m :
  good o m ->
  exists o1 m1, fetch_if_needed (o, m) = Some ((), (o1, m1)) /\
    ((exists r cell, next (o, m) = Some (Some (row_object cell r (mResultOffset o1)),
                                          (set_result (Some r) (mResultOffset o1 + 1) o1, m1)) /\
        mResult o1 = Some r /\ good (set_result (Some r) (mResultOffset o1 + 1) o1) m1 /\
        read (row_object cell r (mResultOffset o1)) m1 = Some cell /\
        exists x, results m1 !! r = Some x /\ status x = PGRES_TUPLES_OK)
     \/ exists o2, (o2 = o1 \/ o2 = fetch_failed o1) /\ next (o, m) = (closeAndReset;; mret None) (o2, m1)).
Proof.
  intros Hg. destruct (fetch_any o m Hg) as (o1 & m1 & E & [Ho Hf] & _ & _ & _ & _ & _ & _ & Hb).
  exists o1, m1. split; [done|]. unfold next. run_m. rewrite E.
  destruct (mResult o1) as [r|] eqn:Er.
  2:{ right. exists (fetch_failed o1). split; [by right|]. apply row_of_batch_failed. by rewrite ?Er. }
  destruct Hb as (x & Hx & Hb). destruct (Ho r Er) as (x' & Hx' & Hoff).
  assert (x' = x) as -> by congruence.
  destruct (decide (status x = PGRES_TUPLES_OK)) as [Hst|Hst].
  2:{ right. exists (fetch_failed o1). split; [by right|]. apply row_of_batch_failed.
      rewrite Er. by exists x. }
  destruct Hb as [Hb|[cell Hb]].
  { right. exists o1. split; [by left|]. by apply (row_of_batch_empty _ _ r x). }
  left. rewrite (row_of_batch_row o1 m1 r x cell Er Hx Hst (proj1 Hoff) Hb).
  exists r, cell. split; [done|]. split; [done|]. split.
  - split; [|done]. intros r' [= <-]. exists x. split; [done|]. cbn.
    apply lookup_lt_Some in Hb. lia.
  - split; [|by exists x]. destruct cell as [bytes|]; [|done]. unfold read. cbn. by rewrite Hx.
Qed.

(** ** Transactions *)

(** Transactions opened, and ended, by a list of commands. *)
Definition opened (cmds : list (string * ExecStatus)) : nat :=
  length (filter (fun ce => ce = ("BEGIN", PGRES_COMMAND_OK)) cmds).
Definition ended (cmds : list (string * ExecStatus)) : nat :=
  length (filter (fun ce => ce.1 = "END") cmds).

(** A command that neither opens nor ends a transaction. *)
Definition plain (cmd : string) : Prop := cmd <> "BEGIN" /\ cmd <> "END".

Lemma opened_app l k : opened (l ++ k) = (opened l + opened k)%nat.
Proof. unfold opened. by rewrite filter_app, length_app. Qed.
Lemma ended_app l k : ended (l ++ k) = (ended l + ended k)%nat.
Proof. unfold ended. by rewrite filter_app, length_app. Qed.

Lemma opened_plain cmd st : plain cmd -> opened [(cmd, st)] = 0%nat.
Proof.
  intros [Hb _]. unfold opened. rewrite filter_cons_False; [done|]. by intros [= -> _].
Qed.
Lemma ended_plain cmd st : plain cmd -> ended [(cmd, st)] = 0%nat.
Proof. intros [_ He]. unfold ended. by rewrite filter_cons_False. Qed.

Lemma opened_begin st : opened [("BEGIN", st)] = if not_ok st then 0%nat else 1%nat.
Proof. unfold opened, not_ok. by destruct st. Qed.

Lemma ended_begin st : ended [("BEGIN", st)] = 0%nat.
Proof. done. Qed.

Definition open_count (s : State) : nat := match s with Open => 1 | Ready => 0 end.

(** The invariant of an iterator: its result is there, every transaction
    opened is ended except the one of an open cursor, and the texts kept are
    those of a cursor. *)
Record sound (o : t) (m : memory) : Prop := {
  sound_good : good o m;
  sound_balance : opened (sent m) = (ended (sent m) + open_count (mState o))%nat;
  sound_connected : mState o = Open -> is_Some (mConnection o);
  sound_fetch : plain (mFetchCommand o);
  sound_close : plain (mCloseCommand o);
}.

Lemma closed_commands o :
  mCloseCommand (closed o) = mCloseCommand o /\ mFetchCommand (closed o) = mFetchCommand o /\
  mThreadId (closed o) = mThreadId o.
Proof. unfold closed. destruct (mResult o); cbn; by destruct (mConnection o). Qed.

Lemma close_commands_balance o :
  is_Some (mConnection o) -> plain (mCloseCommand o) ->
  opened (close_commands o) = 0%nat /\ ended (close_commands o) = 1%nat.
Proof.
  intros [c Hc] Hp. unfold close_commands. rewrite Hc.
  change [?a; ?b] with ([a] ++ [b]). rewrite opened_app, ended_app, opened_plain, ended_plain by done.
  done.
Qed.

Lemma sound_closeAndReset o m :
  sound o m ->
  exists o' m', closeAndReset (o, m) = Some ((), (o', m')) /\ sound o' m' /\ mState o' = Ready.
Proof.
  intros [Hg Hb Hc Hfe Hcl]. destruct (closeAndReset_any o m Hg) as (o' & m' & E & Hg' & Hr & _ & Hd).
  exists o', m'. split; [done|]. split; [|done]. destruct (decide (mState o = Open)) as [Hs|Hs].
  - destruct Hd as [-> Hsame]. destruct (closed_commands o) as (E1 & E2 & _).
    split; [done| |congruence|by rewrite E2|by rewrite E1].
    assert (sent m' = sent m ++ close_commands o) as ->.
    { rewrite (same_sent _ _ _ Hsame). by destruct (mResult o). }
    destruct (close_commands_balance o) as [H1' H2']; [by apply Hc|done|].
    rewrite opened_app, ended_app, H1', H2', Hr, Hb, Hs. unfold open_count. cbn. lia.
  - destruct Hd as [-> ->]. by split.
Qed.

(** ** The texts *)

Definition quoted (i : Z) : string := "'" +:+ toAppend_uint i +:+ "'".

(** Both lists are the ids written one by one with commas between them. *)
Fixpoint commas (fields : list string) : string :=
  match fields with
  | [] => ""
  | [f] => f
  | f :: fields => f +:+ "," +:+ commas fields
  end.

Lemma long_id_loop_eq ids s :
  long_id_loop ids s = s +:+ commas (toAppend_uint <$> ids).
Proof.
  revert s. induction ids as [|i [|j ids] IH]; intros s.
  - cbn. by rewrite string_app_nil_r.
  - done.
  - change (long_id_loop (j :: ids) (s +:+ toAppend_uint i +:+ ",") =
      s +:+ (toAppend_uint i +:+ ("," +:+ commas (toAppend_uint <$> j :: ids)))).
    by rewrite IH, !string_app_assoc.
Qed.

Lemma string_id_loop_eq ids s :
  string_id_loop ids s = s +:+ commas (quoted <$> ids).
Proof.
  revert s. induction ids as [|i [|j ids] IH]; intros s.
  - cbn. by rewrite string_app_nil_r.
  - done.
  - change (string_id_loop (j :: ids) (s +:+ "'" +:+ toAppend_uint i +:+ "',") =
      s +:+ (quoted i +:+ ("," +:+ commas (quoted <$> j :: ids)))).
    rewrite IH. unfold quoted. by rewrite !string_app_assoc.
Qed.

Lemma generateLongIdList_eq ids s text :
  generateLongIdList ids s = Some text -> text = s +:+ commas (toAppend_uint <$> ids).
Proof. destruct ids as [|i ids]; [done|]. intros [= <-]. apply (long_id_loop_eq (i :: ids)). Qed.

Lemma generateStringIdList_eq ids s text :
  generateStringIdList ids s = Some text -> text = s +:+ commas (quoted <$> ids).
Proof. destruct ids as [|i ids]; [done|]. intros [= <-]. apply (string_id_loop_eq (i :: ids)). Qed.

(** A request has a text exactly if it names an id. *)
Lemma request_text_some q thread : is_Some (request_text q thread) <-> request_ids q <> [].
Proof.
  destruct q as [[|i ids] topic|from to [|i ids]|from to [|i ids]]; cbn [request_text request_ids];
    unfold declare_ids, declare_range; try case_decide; cbn;
    (split; [by intros [? ?]|done]) || (split; [done|by eexists]).
Qed.

Lemma request_text_plain q thread text : request_text q thread = Some text -> plain text.
Proof.
  intros E. assert (exists rest, text = "DECLARE " +:+ rest) as [rest ->]; [|done].
  destruct q; cbn [request_text] in E; unfold declare_ids, declare_range in E; try case_decide;
    apply bind_Some in E as (t & Et & [= <-]);
    first [apply generateStringIdList_eq in Et|apply generateLongIdList_eq in Et]; subst t;
    rewrite !string_app_assoc; by eexists.
Qed.

Lemma sound_request q n o m :
  sound o m -> mState o = Ready -> request_ids q <> [] ->
  exists o' m', run_request q n (o, m) = Some ((), (o', m')) /\ sound o' m'.
Proof.
  intros [Hg Hb _ Hfe Hcl] Hr Hids. rewrite run_request_eq.
  apply (request_text_some q (mThreadId o)) in Hids as [text Et]. rewrite Et. set (o0 := set_query text o).
  assert (plain text) as Hp by (by eapply request_text_plain).
  destruct (mConnection o) as [c|] eqn:Hc.
  2:{ destruct (executeQuery_unconnected text (request_topic q) n o0 m Hc Hg) as (e & ->).
      eexists _, m. split; [done|]. split; cbn; [by apply good_no_result; [|apply Hg]|done| |done..].
      intros Ho. congruence. }
  destruct (executeQuery_spec text (request_topic q) n o0 m c Hr Hc Hg) as (o' & m' & -> & Hq).
  exists o', m'. split; [done|]. unfold query_outcome in Hq. rewrite Hr in Hb. cbn in Hb.
  destruct (not_ok (ends "BEGIN" c)) eqn:Eb; [|apply not_ok_false in Eb;
    destruct (not_ok (ends text (after "BEGIN" c))) eqn:Eq].
  - destruct Hq as [-> [_ Hf' Hse]]. split; cbn; [by apply good_no_result| |congruence|done..].
    rewrite Hse, opened_app, ended_app, Hr, Hb. unfold begin_sent.
    rewrite opened_begin, ended_begin, Eb. cbn. lia.
  - set (o1 := query_failed text _) in Hq. destruct Hq as [-> Hsame].
    destruct (closed_commands o1) as (E1 & E2 & _).
    destruct (close_commands_balance o1) as [H1' H2']; [by eexists|by split|].
    split; [|rewrite (same_sent _ _ _ Hsame)|done|rewrite E2; by split|rewrite E1; by split].
    { apply good_no_result; [done|apply Hsame]. }
    unfold query_sent. change [?a; ?b] with ([a] ++ [b]).
    rewrite !opened_app, !ended_app, H1', H2', (opened_plain text), (ended_plain text), Hb by done.
    rewrite opened_begin, ended_begin, Eb. change (mState (closed o1)) with Ready.
    change (not_ok PGRES_COMMAND_OK) with false. cbn. lia.
  - destruct Hq as (-> & Hf' & Hse & _).
    split; cbn; [by apply good_no_result| |by eexists|by split..].
    rewrite Hse. unfold query_sent. change [?a; ?b] with ([a] ++ [b]).
    rewrite !opened_app, !ended_app, (opened_plain text), (ended_plain text), Hb by done.
    rewrite opened_begin, ended_begin, Eb. change (not_ok PGRES_COMMAND_OK) with false. cbn. lia.
Qed.

Lemma sound_next o m :
  sound o m -> exists a o' m', next (o, m) = Some (a, (o', m')) /\ sound o' m'.
Proof.
  intros [Hg Hb Hc Hfe Hcl].
  destruct (fetch_any o m Hg) as (o1 & m1 & E & Hg1 & Hs1 & Hcl1 & Hfe1 & _ & Hc1 & Hu & _).
  destruct (next_any o m Hg) as (o1' & m1' & E' & Hn). rewrite E in E'. injection E' as <- <-.
  assert (sound o1 m1) as H1'.
  { split; [done| |intros Ho; apply Hc1, Hc; congruence|congruence..].
    destruct (used_up o m); [|destruct Hu as [-> ->]; done].
    destruct Hu as [-> _]. rewrite Hs1, opened_app, ended_app, Hb. unfold fetch_commands.
    destruct (mConnection o); [|cbn; lia]. rewrite opened_plain, ended_plain by done. lia. }
  destruct Hn as [(r & cell & -> & Er & Hg2 & _)|(o2 & Ho2 & ->)].
  - eexists _, _, _. split; [done|]. destruct H1'. by split.
  - assert (sound o2 m1) as H2' by (destruct Ho2 as [->| ->]; [done|]; destruct H1'; by split).
    destruct (sound_closeAndReset o2 m1 H2') as (o3 & m3 & E3 & H3' & _).
    run_m. rewrite E3. by eexists _, _, _.
Qed.

Definition comma_free (f : string) : bool := string_forallb (fun c => negb (Ascii.eqb c (Ascii.ascii_of_N 44))) f.

Lemma string_forallb_app p a b :
  string_forallb p (a +:+ b) = string_forallb p a && string_forallb p b.
Proof.
  induction a as [|c a IH]; [done|]. rewrite string_app_cons. cbn [string_forallb].
  by rewrite IH, andb_assoc.
Qed.

Lemma commas_inj fs gs :
  (forall f, f ∈ fs ++ gs -> f <> "" /\ comma_free f = true) ->
  commas fs = commas gs -> fs = gs.
Proof.
  assert (forall f r r', comma_free f = true ->
    forall g, comma_free g = true ->
    (r = "" \/ exists t, r = "," +:+ t) -> (r' = "" \/ exists t, r' = "," +:+ t) ->
    f +:+ r = g +:+ r' -> f = g /\ r = r') as Hsplit.
  { intros f r r'. induction f as [|c f IH]; intros Hf [|d g] Hg Hr Hr' E.
    - done.
    - exfalso. cbn in Hg. apply andb_true_iff in Hg as [Hd _].
      destruct Hr as [->|[u ->]]; [done|]. injection E as <- _. done.
    - exfalso. cbn in Hf. apply andb_true_iff in Hf as [Hc _].
      destruct Hr' as [->|[u ->]]; [done|]. injection E as -> _. done.
    - cbn in Hf, Hg. apply andb_true_iff in Hf as [_ Hf], Hg as [_ Hg].
      rewrite !string_app_cons in E. injection E as -> E.
      by destruct (IH Hf g Hg Hr Hr' E) as [-> ->]. }
  assert (forall f fs, commas (f :: fs) = f +:+ (match fs with [] => "" | _ => "," +:+ commas fs end)) as Hcons.
  { intros f [|g l]; [by rewrite string_app_nil_r|done]. }
  revert gs. induction fs as [|f fs IH]; intros [|g gs] Hok E; [done| | |].
  - exfalso. destruct (Hok g) as [Hg _]; [left|]. rewrite Hcons in E. by destruct g.
  - exfalso. destruct (Hok f) as [Hg _]; [left|]. rewrite Hcons in E. by destruct f.
  - rewrite !Hcons in E.
    apply Hsplit in E as [-> E].
    + f_equal. destruct fs, gs; [done|by destruct (commas _)..|].
      injection E as E. apply IH; [|done]. intros h Hh. apply Hok.
      apply elem_of_app. apply elem_of_app in Hh as [?|?]; [left|right]; by right.
    + apply Hok. left.
    + apply Hok. apply elem_of_app. right. left.
    + destruct fs; [by left|right; by eexists].
    + destruct gs; [by left|right; by eexists].
Qed.

(** ** The properties *)

Inductive call := Query (q : request) (fetchSize : Z) | Next | Reset_error | Close.

Definition run_call (x : call) : M (option DataObject) :=
  match x with
  | Query q n => run_request q n;; mret None
  | Next => next
  | Reset_error => resetError;; mret None
  | Close => closeAndReset;; mret None
  end.

Fixpoint run_calls (xs : list call) : M (list (option DataObject)) :=
  match xs with
  | [] => mret []
  | x :: xs => d ← run_call x; ds ← run_calls xs; mret (d :: ds)
  end.

(** A query is only run on an iterator that is ready, as [Datastore] sees to,
    and names an id. *)
Fixpoint legal_calls (xs : list call) (st : t * memory) : Prop :=
  match xs with
  | [] => True
  | x :: xs =>
      (match x with Query q _ => isReady st.1 = true /\ request_ids q <> [] | _ => True end) /\
      forall d st', run_call x st = Some (d, st') -> legal_calls xs st'
  end.

Lemma sound_call x o m :
  sound o m -> match x with Query q _ => isReady o = true /\ request_ids q <> [] | _ => True end ->
  exists d o' m', run_call x (o, m) = Some (d, (o', m')) /\ sound o' m'.
Proof.
  intros Hs Hl. destruct x as [q n| | |]; cbn [run_call].
  - destruct Hl as [Hl%bool_decide_eq_true Hids]. destruct (sound_request q n o m Hs Hl Hids) as (o' & m' & E & Hs').
    run_m. rewrite E. by eexists _, _, _.
  - by apply sound_next.
  - eexists _, _, _. split; [done|]. destruct Hs. by split.
  - destruct (sound_closeAndReset o m Hs) as (o' & m' & E & Hs' & _). run_m. rewrite E.
    by eexists _, _, _.
Qed.

Lemma sound_calls xs o m :
  sound o m -> legal_calls xs (o, m) ->
  exists ds o' m', run_calls xs (o, m) = Some (ds, (o', m')) /\ sound o' m'.
Proof.
  revert o m. induction xs as [|x xs IH]; intros o m Hs Hl; [by eexists _, _, _|].
  destruct Hl as [Hx Hl]. destruct (sound_call x o m Hs Hx) as (d & o1 & m1 & E & Hs1).
  destruct (IH o1 m1) as (ds & o2 & m2 & E' & Hs2); [done|by eapply Hl|].
  cbn [run_calls]. run_m. rewrite E. cbn. rewrite E'. by eexists _, _, _.
Qed.

Definition no_results (m : memory) : Prop := fresh m /\ sent m = [].

Lemma construct_eq thread uri m :
  construct thread uri m =
    let c := libpq_connectdb uri in
    let connected := match c with Some c => libpq_status_ok c | None => false end in
    Some (Make (if connected then ""
                else "Error connecting to PostgreSQL with connection string: " +:+ uri +:+ ": " +:+
                     libpq_errorMessage c +:+ " ")
               "" "" "" None Ready c thread uri 0 false, m).
Proof.
  unfold construct, createConnection, PQerrorMessage, setError. run_m.
  destruct (libpq_connectdb uri) as [c|]; cbn; [|done]. by destruct (libpq_status_ok c).
Qed.

Lemma sound_construct thread uri m :
  no_results m -> exists o, construct thread uri m = Some (o, m) /\ sound o m.
Proof.
  intros [Hf Hs]. rewrite construct_eq. eexists. split; [done|].
  split; cbn; [by apply good_no_result|by rewrite Hs|done|done|done].
Qed.

(** C1: An iterator on a server that serves the query gives exactly its rows.
    After the query, which names at least one id, has been run, a client that calls [next] until it gets
    null sees every row, in order, with its size and content, whatever the
    fetch size is as long as it is positive; then the cursor is closed, the
    transaction ended, the iterator ready again, and no error reported. *)
Theorem query_drains q n text rows idle in_txn cursor o m c :
  request_text q (mThreadId o) = Some text ->
  serves text (fetch_text (request_topic q) (mThreadId o) n)
         (close_text (request_topic q) (mThreadId o)) (Z.to_nat n) rows idle in_txn cursor ->
  0 < n -> mState o = Ready -> mConnection o = Some c -> idle c -> good o m ->
  exists o1 m1 o2 m2 c2,
    run_request q n (o, m) = Some ((), (o1, m1)) /\ mState o1 = Open /\
    drain (S (length rows)) (o1, m1) =
      Some ((fun cell => (cell_size cell, Some cell)) <$> rows, (o2, m2)) /\
    mState o2 = Ready /\ mConnection o2 = Some c2 /\ idle c2 /\ hasError o2 = hasError o.
Proof.
  intros Et Hsv Hn Hr Hc Hi Hg. rewrite run_request_eq, Et. set (o0 := set_query text o).
  destruct (executeQuery_spec text (request_topic q) n o0 m c Hr Hc Hg) as (o1 & m1 & E & Hq).
  destruct (serves_begin _ _ _ _ _ _ _ _ Hsv c Hi) as [Hb Ht].
  destruct (serves_declare _ _ _ _ _ _ _ _ Hsv _ Ht) as [Hd Hcu].
  unfold query_outcome in Hq. rewrite (proj2 (not_ok_false _) Hb), (proj2 (not_ok_false _) Hd) in Hq.
  destruct Hq as (-> & Hf & _ & _).
  destruct (drain_streams Hsv ltac:(lia) rows (declared text (request_topic q) n c (set_result None 0 o0))
              m1 (S (length rows))) as (o2 & m2 & c2 & E2 & Hr2 & _ & Hc2 & Hi2 & _ & Hw2); [|lia|].
  - split; [by apply good_no_result|done..|]. by exists (after text (after "BEGIN" c)), rows.
  - by exists (declared text (request_topic q) n c (set_result None 0 o0)), m1, o2, m2, c2.
Qed.

(** C32: The three ways a query goes, on any server. A query without ids is
    undefined. If [BEGIN] is refused the
    iterator stays ready, with an error; if the query is, the cursor is closed
    and the transaction ended, with an error that does not carry the server's
    message; otherwise the cursor is open and the result of the [DECLARE]
    stays allocated, with nothing left that could clear it. *)
Theorem query_outcomes q n o m c :
  mState o = Ready -> mConnection o = Some c -> good o m ->
  match request_text q (mThreadId o) with
  | Some text =>
      exists o' m', run_request q n (o, m) = Some ((), (o', m')) /\
        query_outcome text (request_topic q) n c (set_query text o) m o' m'
  | None => request_ids q = [] /\ run_request q n (o, m) = None
  end.
Proof.
  intros Hr Hc Hg. rewrite run_request_eq. destruct (request_text q (mThreadId o)) as [text|] eqn:Et.
  - by apply executeQuery_spec.
  - split; [|done]. destruct (request_ids q) eqn:Ei; [done|].
    destruct (proj2 (request_text_some q (mThreadId o))) as [text Et']; [by rewrite Ei|]. by rewrite Et in Et'.
Qed.

(** C2: No sequence of calls on an iterator clears a result twice or reads one
    that has been cleared, whatever the server answers, as long as queries are
    run on a ready iterator and name an id: the calls all return,
    and the result the iterator holds afterwards is allocated and its position
    in range. *)
Theorem iterator_safe thread uri m xs :
  no_results m ->
  (forall o, construct thread uri m = Some (o, m) -> legal_calls xs (o, m)) ->
  exists o ds o' m', construct thread uri m = Some (o, m) /\
    run_calls xs (o, m) = Some (ds, (o', m')) /\ length ds = length xs /\
    forall r, mResult o' = Some r ->
      exists x, results m' !! r = Some x /\ 0 <= mResultOffset o' <= Z.of_nat (length (tuples x)).
Proof.
  intros Hm Hl. destruct (sound_construct thread uri m Hm) as (o & E & Hs).
  destruct (sound_calls xs o m Hs (Hl o E)) as (ds & o' & m' & E' & Hs').
  exists o, ds, o', m'. split; [done|]. split; [done|]. split; [|apply Hs'].
  clear -E'. revert ds o m E'. induction xs as [|x xs IH]; intros ds o m E.
  - injection E as <- _ _. done.
  - cbn [run_calls] in E. revert E. run_m. destruct (run_call x (o, m)) as [[d [o1 m1]]|]; [|done].
    destruct (run_calls xs (o1, m1)) as [[ds' [o2 m2]]|] eqn:E2; [|done]. intros [= <- -> ->].
    cbn. f_equal. by eapply IH.
Qed.

(** C3: Transactions are balanced. After any sequence of calls, whatever the
    server answers, every [BEGIN] it accepted has been followed by an [END],
    except one if and only if the iterator has a cursor open. *)
Theorem transactions_balanced thread uri m xs o ds o' m' :
  no_results m -> construct thread uri m = Some (o, m) -> legal_calls xs (o, m) ->
  run_calls xs (o, m) = Some (ds, (o', m')) ->
  opened (sent m') = (ended (sent m') + if isReady o' then 0 else 1)%nat.
Proof.
  intros Hm E Hl E'. destruct (sound_construct thread uri m Hm) as (o0 & E0 & Hs).
  assert (o0 = o) as -> by congruence.
  destruct (sound_calls xs o m Hs Hl) as (ds' & o2 & m2 & E2 & Hs2).
  rewrite E' in E2. injection E2 as <- <- <-. rewrite (sound_balance _ _ Hs2).
  unfold isReady. by destruct (mState o').
Qed.

(** A call of [next] that finds the batch used up forgets the batch. *)
Lemma next_forgets o m a o' m' r :
  good o m -> used_up o m = true -> mResult o = Some r -> next (o, m) = Some (a, (o', m')) ->
  results m' !! r = None.
Proof.
  intros Hg Hu Er E. destruct (next_any o m Hg) as (o1 & m1 & Ef & Hn).
  destruct (fetch_any o m Hg) as (o1' & m1' & Ef' & Hg1 & _ & _ & _ & _ & _ & Hu' & _).
  rewrite Ef in Ef'. injection Ef' as <- <-. rewrite Hu in Hu'. destruct Hu' as [_ Hr].
  specialize (Hr r Er). destruct Hn as [(r2 & cell & E1 & _)|(o2 & Ho2 & E1)]; rewrite E in E1.
  - by injection E1 as _ _ <-.
  - assert (good o2 m1) as Hg2 by (destruct Ho2 as [->| ->]; [done|]; destruct Hg1; by split).
    destruct (closeAndReset_any o2 m1 Hg2) as (o3 & m3 & E3 & _ & _ & _ & Hc). revert E1. run_m.
    rewrite E3. intros [= _ _ ->]. case_decide; [|by destruct Hc as [_ ->]].
    destruct Hc as [_ Hsame]. rewrite (same_map _ _ _ Hsame).
    destruct (mResult o2) as [r2|]; [|done]. cbn. rewrite lookup_delete_None. by right.
Qed.

(** C33: How long an object stays readable. The object [next] returns points
    into the current batch; it can be read until the call of [next] that finds
    the batch used up, and from then on it dangles. *)
Theorem object_lifetime o m d o1 m1 a o2 m2 p :
  good o m -> next (o, m) = Some (Some d, (o1, m1)) -> thriftObject d = Some p ->
  next (o1, m1) = Some (a, (o2, m2)) ->
  (exists bytes, read d m1 = Some (Some bytes) /\ sizeInBytes d = Z.of_nat (length bytes)) /\
  read d m2 = if used_up o1 m1 then None else read d m1.
Proof.
  intros Hg E Hp E'. destruct (next_any o m Hg) as (oa & ma & _ & Hn).
  destruct Hn as [(r & cell & E1 & Er & Hg1 & Hrd & x & Hx & Hst)|(ob & Hob & E1)].
  2:{ rewrite E1 in E. revert E. run_m. by destruct (closeAndReset _) as [[? ?]|]. }
  rewrite E in E1. injection E1 as -> -> ->. set (o1 := set_result _ _ _) in *.
  destruct cell as [bytes|]; [|done]. injection Hp as <-. split; [by exists bytes|].
  destruct (used_up o1 ma) eqn:Hu.
  - assert (results m2 !! r = None) as Hnone.
    { apply (next_forgets o1 ma a o2 m2 r Hg1 Hu); done. }
    unfold read. cbn. by rewrite Hnone.
  - destruct (Hg1) as [Ho1 _]. destruct (Ho1 r) as (x' & Hx' & Hb); [done|].
    assert (x' = x) as -> by congruence. unfold used_up in Hu. cbn in Hu. rewrite Hx in Hu.
    apply Z.eqb_neq in Hu. cbn in Hb.
    destruct (lookup_lt_is_Some_2 (tuples x) (Z.to_nat (mResultOffset oa + 1))) as [cell2 Hc2]; [lia|].
    unfold next in E'. revert E'. run_m.
    rewrite (fetch_not_needed o1 ma Ho1).
    2:{ unfold used_up. cbn. rewrite Hx. by apply Z.eqb_neq. }
    rewrite (row_of_batch_row o1 ma r x cell2) by (done || (cbn; lia)). by intros [= _ _ <-].
Qed.

(** C34: A query names exactly the ids it was asked for. The texts of two
    queries on the same topic by the same thread, which there are if they name an
    id, are equal only if the lists of ids are, in the same order. *)
Theorem query_text_exact `{!FollyConvLaws} ids ids' topic thread :
  Forall (Z.le 0) ids -> Forall (Z.le 0) ids' ->
  (is_Some (declare_ids ids topic thread) <-> ids <> []) /\
  (declare_ids ids topic thread = declare_ids ids' topic thread -> ids = ids').
Proof.
  intros Hi Hi'. split; [exact (request_text_some (ByIds ids topic) thread)|]. intros E.
  destruct (declare_ids ids topic thread) as [text|] eqn:Ea; symmetry in E.
  2:{ destruct ids as [|i ids], ids' as [|i' ids']; [done|exfalso..].
      - by destruct (proj2 (request_text_some (ByIds (i' :: ids') topic) thread) ltac:(done)) as [? E'];
          cbn [request_text] in E'; rewrite E in E'.
      - by destruct (proj2 (request_text_some (ByIds (i :: ids) topic) thread) ltac:(done)) as [? E'];
          cbn [request_text] in E'; rewrite Ea in E'.
      - by destruct (proj2 (request_text_some (ByIds (i :: ids) topic) thread) ltac:(done)) as [? E'];
          cbn [request_text] in E'; rewrite Ea in E'. }
  rewrite Forall_forall in Hi, Hi'.
  assert (forall i, 0 <= i -> comma_free (toAppend_uint i) = true) as Hcf.
  { intros i Hi0. pose proof (toAppend_uint_digits i Hi0) as Hd. revert Hd. unfold comma_free.
    generalize (toAppend_uint i). intros f. induction f as [|c f IH]; [done|]. cbn [string_forallb].
    rewrite !andb_true_iff. intros [Hc Hf]. split; [|by apply IH].
    destruct (Ascii.eqb_spec c (Ascii.ascii_of_N 44)) as [->|]; done. }
  assert (forall (f : Z -> string) l l', (forall i, 0 <= i -> f i <> "" /\ comma_free (f i) = true) ->
    (forall i j, 0 <= i -> 0 <= j -> f i = f j -> i = j) ->
    (forall i, i ∈ l -> 0 <= i) -> (forall i, i ∈ l' -> 0 <= i) ->
    commas (f <$> l) = commas (f <$> l') -> l = l') as Hinj.
  { intros f l l' Hf Hff Hl Hl' Ec. apply commas_inj in Ec.
    - revert l' Hl' Ec. induction l as [|i l IH]; intros [|j l'] Hl' Ec; [done..|].
      injection Ec as E1 E2. apply Hff in E1 as ->; [|apply Hl; left|apply Hl'; left].
      f_equal. apply IH; [|intros; apply Hl'; by right|done]. intros. apply Hl. by right.
    - intros g. rewrite elem_of_app, !list_elem_of_fmap.
      intros [(i & -> & Hin)|(i & -> & Hin)]; apply Hf; auto. }
  assert (forall f1 f2 t : string, f1 +:+ t = f2 +:+ t -> f1 = f2) as Htail
    by (intros ???; apply string_app_inv_tail).
  unfold declare_ids in E, Ea. case_decide as Hd; apply bind_Some in E as (t & Et & [= Ex]), Ea as (t1 & Et1 & [= <-]).
  - apply Htail in Ex as ->. apply generateStringIdList_eq in Et1, Et. subst t1. symmetry in Et.
    rename Et into E. apply (inj (String.append _)) in E.
    apply (Hinj quoted); [| |done..|done].
    + intros i Hi0. split; [done|]. unfold quoted, comma_free in *.
      by rewrite !string_forallb_app, (Hcf i Hi0).
    + intros i j Hi0 Hj0 Eq. unfold quoted in Eq. apply (inj (String.append _)) in Eq.
      apply Htail in Eq. by apply toAppend_uint_inj.
  - apply Htail in Ex as ->. apply generateLongIdList_eq in Et1, Et. subst t1. symmetry in Et.
    rename Et into E. apply (inj (String.append _)) in E.
    apply (Hinj toAppend_uint); [|by apply toAppend_uint_inj|done..|done].
    intros i Hi0. split; [by apply toAppend_uint_nonempty|by apply Hcf].
Qed.

(** The constructor never reports an error. When the connection fails, the
    error text says so, but the flag that [hasError] reads is reset at the end
    of the constructor. *)
Theorem construct_hides_failure thread uri m :
  exists o, construct thread uri m = Some (o, m) /\ isReady o = true /\ hasError o = false /\
    isConnected o = match libpq_connectdb uri with Some c => libpq_status_ok c | None => false end /\
    (error o = "" <-> isConnected o = true).
Proof.
  rewrite construct_eq. eexists. split; [done|]. split; [done|]. split; [done|]. split; [done|].
  unfold error, isConnected. cbn. destruct (libpq_connectdb uri) as [c|]; [|done].
  by destruct (libpq_status_ok c).
Qed.

End iterator.

(** ** A server with three rows *)

Inductive phase := Idle | In_txn | Cursor (rs : list row).

Definition table : list row := [Some [Byte.x01; Byte.x02]; None; Some [Byte.x03]].

Definition answer (cmd : string) (p : phase) : option PGresult * phase :=
  let ok := Some (MkResult PGRES_COMMAND_OK []) in
  if String.eqb cmd "BEGIN" then (ok, In_txn)
  else if String.eqb cmd "END" then (ok, Idle)
  else match p with
       | In_txn => if String.prefix "DECLARE" cmd then (ok, Cursor table) else (None, p)
       | Cursor rs =>
           if String.prefix "FETCH 2" cmd then
             (Some (MkResult PGRES_TUPLES_OK (take 2 rs)), Cursor (drop 2 rs))
           else if String.prefix "CLOSE" cmd then (ok, In_txn) else (None, p)
       | Idle => (None, p)
       end.

#[local] Instance toy_server : Libpq := {|
  conn := phase;
  libpq_connectdb _ := Some Idle;
  libpq_status_ok _ := true;
  libpq_errorMessage _ := "no";
  libpq_exec := answer;
|}.

Definition two_ids : request := ByIds [7; 8] Metamorphosis_Station.
Definition no_memory : memory := Memory ∅ 0 [].

(** An iterator just constructed. *)
Definition new_iterator : t := Make "" "" "" "" None Ready (Some Idle) "1" "db" 0 false.

Definition is_idle (c : @conn toy_server) : Prop := c = Idle.
Definition is_in_txn (c : @conn toy_server) : Prop := c = In_txn.
Definition is_cursor (rs : list row) (c : @conn toy_server) : Prop := c = Cursor rs.

Definition two_ids_text : string := default "" (request_text two_ids "1").

Lemma toy_serves :
  serves two_ids_text (fetch_text Metamorphosis_Station "1" 2)
         (close_text Metamorphosis_Station "1") 2 table is_idle is_in_txn is_cursor.
Proof. split; unfold is_idle, is_in_txn, is_cursor; intros *; intros; subst; by vm_compute. Qed.

Lemma new_good : good new_iterator no_memory.
Proof. apply good_no_result; [done|]. by intros r _. Qed.

Lemma query_drains_witness :
  exists o1 m1 o2 m2, run_request two_ids 2 (new_iterator, no_memory) = Some ((), (o1, m1)) /\
    drain 4 (o1, m1) = Some ([(2, Some (Some [Byte.x01; Byte.x02])); (0, Some None);
                              (1, Some (Some [Byte.x03]))], (o2, m2)) /\ mState o2 = Ready.
Proof.
  destruct (query_drains two_ids 2 two_ids_text table is_idle is_in_txn is_cursor
              new_iterator no_memory Idle eq_refl toy_serves ltac:(lia) eq_refl eq_refl eq_refl new_good)
    as (o1 & m1 & o2 & m2 & c2 & E1 & _ & E2 & Hr & _).
  exists o1, m1, o2, m2. split; [exact E1|]. split; [exact E2|exact Hr].
Defined.

Lemma query_outcomes_witness :
  exists o' m', run_request two_ids 2 (new_iterator, no_memory) = Some ((), (o', m')) /\
    query_outcome two_ids_text Metamorphosis_Station 2 Idle
      (set_query two_ids_text new_iterator) no_memory o' m' /\
    size (results m') = 1%nat.
Proof.
  destruct (query_outcomes two_ids 2 new_iterator no_memory Idle eq_refl eq_refl new_good)
    as (o' & m' & E & Hq).
  exists o', m'. split; [exact E|]. split; [exact Hq|]. vm_compute in E.
  apply (inj Some) in E. injection E as <- <-. reflexivity.
Defined.

Definition session : list call := [Query two_ids 2; Next; Next; Next; Close].

Lemma no_memory_ok : no_results no_memory.
Proof. split; [|done]. by intros r _. Qed.

Lemma session_legal : legal_calls session (new_iterator, no_memory).
Proof.
  unfold session. repeat (split; [vm_compute; done|intros d st' E; vm_compute in E;
    apply (inj Some) in E; injection E as <- <-]). exact I.
Qed.

Lemma iterator_safe_witness :
  exists o ds o' m', construct "1" "db" no_memory = Some (o, no_memory) /\
    run_calls session (o, no_memory) = Some (ds, (o', m')) /\ length ds = 5%nat.
Proof.
  destruct (iterator_safe "1" "db" no_memory session no_memory_ok) as (o & ds & o' & m' & E & E' & Hl & _).
  - intros o E. vm_compute in E. apply (inj Some) in E. injection E as <-. exact session_legal.
  - exists o, ds, o', m'. split; [exact E|]. split; [exact E'|exact Hl].
Defined.

Lemma transactions_balanced_witness :
  exists ds o' m', run_calls session (new_iterator, no_memory) = Some (ds, (o', m')) /\
    opened (sent m') = ended (sent m') /\ ended (sent m') = 1%nat.
Proof.
  destruct (run_calls session (new_iterator, no_memory)) as [[ds [o' m']]|] eqn:E;
    [|vm_compute in E; discriminate E].
  exists ds, o', m'. split; [reflexivity|].
  pose proof (transactions_balanced "1" "db" no_memory session new_iterator ds o' m' no_memory_ok
                eq_refl session_legal E) as Hb.
  vm_compute in E. apply (inj Some) in E. injection E as <- <- <-. split; [|reflexivity].
  rewrite Hb. reflexivity.
Defined.

(** The iterator that has just read the second row of its batch of two. *)
Definition batch : PGresult := MkResult PGRES_TUPLES_OK [Some [Byte.x01]; Some [Byte.x02]].
Definition mid_batch : t :=
  Make "" "FETCH 2 in cursor_0_1" "CLOSE cursor_0_1" "" (Some 3) Open (Some (Cursor [])) "1" "db" 1 false.
Definition mid_memory : memory := Memory {[3 := batch]} 4 [].

Lemma mid_good : good mid_batch mid_memory.
Proof.
  split.
  - intros r [= <-]. exists batch. split; [done|]. cbn. lia.
  - intros r Hr. cbn in *. apply lookup_singleton_None. lia.
Qed.

Lemma object_lifetime_witness :
  exists d o1 m1 o2 m2, next (mid_batch, mid_memory) = Some (Some d, (o1, m1)) /\
    next (o1, m1) = Some (None, (o2, m2)) /\
    read d m1 = Some (Some [Byte.x02]) /\ read d m2 = None.
Proof.
  destruct (next (mid_batch, mid_memory)) as [[[d|] [o1 m1]]|] eqn:E;
    [|vm_compute in E; discriminate E..].
  destruct (next (o1, m1)) as [[a [o2 m2]]|] eqn:E2;
    [|vm_compute in E; injection E as <- <- <-; vm_compute in E2; discriminate E2].
  assert (thriftObject d = Some (3, 1)) as Hp.
  { vm_compute in E. apply (inj Some) in E. injection E as <- _ _. reflexivity. }
  destruct (object_lifetime mid_batch mid_memory d o1 m1 a o2 m2 (3, 1) mid_good E Hp E2) as [_ Hd].
  exists d, o1, m1, o2, m2. split; [reflexivity|].
  vm_compute in E. apply (inj Some) in E. injection E as <- <- <-.
  vm_compute in E2. apply (inj Some) in E2. injection E2 as <- <- <-.
  split; [reflexivity|]. split; [reflexivity|]. rewrite Hd. reflexivity.
Defined.

Lemma query_text_exact_witness :
  Forall (Z.le 0) [7; 8] /\
  declare_ids [7; 8] Metamorphosis_Station "1" <> declare_ids [78] Metamorphosis_Station "1".
Proof.
  assert (Forall (Z.le 0) [7; 8]) as H1 by (repeat constructor; lia).
  assert (Forall (Z.le 0) [78]) as H2 by (repeat constructor; lia).
  split; [exact H1|]. intros E.
  pose proof (proj2 (query_text_exact [7; 8] [78] Metamorphosis_Station "1" H1 H2) E) as Hc. discriminate Hc.
Defined.

End DatastoreIterator.
