(* ===== verification/Datastore.v ===== *)
(** * Datastore: the driver that lends its iterator
    (datastore/Datastore.h, datastore/Datastore.cpp)

    A datastore owns one [DatastoreIterator] and hands out reference-counted
    pointers to it. The model puts the smart pointers of [Intrusive] and the
    iterator of [DatastoreIterator] together: the end of the last pointer calls
    [Datastore::release], which closes the iterator. *)
From S2P Require Import Prelude External Topics Intrusive DatastoreIterator.
#[local] Open Scope Z_scope.

Module Datastore.
Import DatastoreIterator.DatastoreIterator.

Section store.
Context `{Libpq, FollyConv, Gregorian}.

Record t := Make { mFetchSize : Z; mConnectionInfo : string; mDataIter : Z }.

Definition connectionInfo (ds : t) : string := mConnectionInfo ds.
Definition fetchSize (ds : t) : Z := mFetchSize ds.
Definition setFetchSize (val : Z) (ds : t) : t :=
  Make (if val <? 1 then 1 else val) (mConnectionInfo ds) (mDataIter ds).

(** The datastore until it is destroyed, the smart pointers and the objects
    they count, and the iterators and libpq results that exist. *)
Record world := World {
  store : option t;
  ptrs : Intrusive.state;
  iters : gmap Z DatastoreIterator.t;
  mem : memory;
}.

Definition set_store (ds : option t) (w : world) : world := World ds (ptrs w) (iters w) (mem w).
Definition set_ptrs (st : Intrusive.state) (w : world) : world := World (store w) st (iters w) (mem w).

(** A method of the iterator at [p]. *)
Definition on_iter {A} (p : Z) (f : M A) (w : world) : option (A * world) :=
  it ← iters w !! p;
  '(a, (it, m)) ← f (it, mem w);
  Some (a, World (store w) (ptrs w) (<[p := it]> (iters w)) m).

Section this.
(** The address of the datastore. *)
Context (this : Z).

(** The constructor. It sets no member: [garbage] is what they happen to be,
    and the call of [setCreator] goes through [mDataIter]. *)
Definition construct (garbage : t) (w : world) : option world :=
  o ← Intrusive.objs (Intrusive.hp (ptrs w)) !! mDataIter garbage;
  let h := Intrusive.hp (ptrs w) in
  Some (World (Some garbage)
         (Intrusive.State (Intrusive.vars (ptrs w))
           (Intrusive.Heap
             (<[mDataIter garbage := Intrusive.setCreator (Some this) o]> (Intrusive.objs h))
             (Intrusive.events h)))
         (iters w) (mem w)).

(** The null pointer is 0. *)
Definition isValid (w : world) : option bool :=
  ds ← store w;
  if mDataIter ds =? 0 then Some false
  else it ← iters w !! mDataIter ds; Some (DatastoreIterator.isValid it).
Definition isConnected (w : world) : option bool :=
  ds ← store w;
  if mDataIter ds =? 0 then Some false
  else it ← iters w !! mDataIter ds; Some (DatastoreIterator.isConnected it).

(** A virtual call on a datastore that has been destroyed is undefined. *)
Definition release (object : Z) (w : world) : option world :=
  ds ← store w;
  if decide (object = mDataIter ds) then snd <$> on_iter object closeAndReset w else Some w.

(** What the end of a last pointer runs: the creator's [release], or the
    destructor of the object. *)
Fixpoint handle (evs : list Intrusive.event) (w : world) : option world :=
  match evs with
  | [] => Some w
  | Intrusive.Released c p :: evs =>
      if decide (c = this) then w ← release p w; handle evs w else None
  | Intrusive.Deleted p :: evs =>
      '(_, w) ← on_iter p destruct_iterator w;
      handle evs (World (store w) (ptrs w) (delete p (iters w)) (mem w))
  end.

(** An operation on smart pointers, with what it ends. *)
Definition ptr_op (o : Intrusive.op) (w : world) : option world :=
  st ← Intrusive.exec o (ptrs w);
  handle (drop (length (Intrusive.events (Intrusive.hp (ptrs w))))
               (Intrusive.events (Intrusive.hp st))) (set_ptrs st w).

(** The three [data] overloads; the local [iter] becomes the variable [v]. *)
Definition data (v : Z) (q : request) (w : world) : option world :=
  ds ← store w;
  w ← ptr_op (Intrusive.Declare_default v) w;
  it ← iters w !! mDataIter ds;
  if negb (isReady it) then Some w
  else
    '(_, w) ← on_iter (mDataIter ds) (run_request q (mFetchSize ds)) w;
    ptr_op (Intrusive.Assign_raw v (Some (mDataIter ds))) w.

(** The destructor. *)
Definition destruct_store (w : world) : option world :=
  ds ← store w;
  o ← Intrusive.objs (Intrusive.hp (ptrs w)) !! mDataIter ds;
  w ← (if Intrusive.referenceCount o =? 0 then
         '(_, w) ← on_iter (mDataIter ds) destruct_iterator w;
         let h := Intrusive.hp (ptrs w) in
         Some (World (store w)
                (Intrusive.State (Intrusive.vars (ptrs w))
                  (Intrusive.Heap (delete (mDataIter ds) (Intrusive.objs h)) (Intrusive.events h)))
                (delete (mDataIter ds) (iters w)) (mem w))
       else Some w);
  Some (set_store None w).

(** ** Client programs *)

Inductive op :=
| Data (v : Z) (q : request)
| Next_on (v : Z)
| Copy (v u : Z)
| Assign (v u : Z)
| Drop (v : Z)
| Set_fetch (n : Z).

Definition exec (o : op) (w : world) : option world :=
  match o with
  | Data v q => data v q w
  | Next_on v => px ← Intrusive.vars (ptrs w) !! v; p ← px; snd <$> on_iter p next w
  | Copy v u => ptr_op (Intrusive.Declare_copy v u) w
  | Assign v u => ptr_op (Intrusive.Assign_copy v u) w
  | Drop v => ptr_op (Intrusive.Destroy v) w
  | Set_fetch n => ds ← store w; Some (set_store (Some (setFetchSize n ds)) w)
  end.

Fixpoint run (os : list op) (w : world) : option world :=
  match os with
  | [] => Some w
  | o :: os => w ← exec o w; run os w
  end.

(** What a client may do: a variable is declared once and used while it
    exists, [next] is called through a pointer that is not null, a query names
    an id, and there are fewer than 2^64 - 2 pointers. *)
Definition legal (o : op) (w : world) : Prop :=
  let vs := Intrusive.vars (ptrs w) in
  Z.of_nat (size vs) < 2 ^ 64 - 3 /\
  match o with
  | Data v q => vs !! v = None /\ request_ids q <> []
  | Next_on v => exists p, vs !! v = Some (Some p)
  | Copy v u => vs !! v = None /\ is_Some (vs !! u)
  | Assign v u => is_Some (vs !! v) /\ is_Some (vs !! u)
  | Drop v => is_Some (vs !! v)
  | Set_fetch _ => True
  end.

Fixpoint legal_run (os : list op) (w : world) : Prop :=
  match os with
  | [] => True
  | o :: os => legal o w /\ forall w', exec o w = Some w' -> legal_run os w'
  end.

(** ** The invariant *)

Definition holders (w : world) (p : Z) : nat := Intrusive.refs (Intrusive.vars (ptrs w)) p.

(** The datastore and its iterator [it] at [p] are there, the counts are
    right, and every variable that is not null points to the iterator. *)
Record lends (p : Z) (w : world) (it : DatastoreIterator.t) : Prop := {
  lends_store : exists ds, store w = Some ds /\ mDataIter ds = p;
  lends_inv : Intrusive.Inv (Intrusive.vars (ptrs w)) [] (Intrusive.hp (ptrs w));
  lends_object : exists o, Intrusive.objs (Intrusive.hp (ptrs w)) !! p = Some o /\
                   Intrusive.mCreator o = Some this;
  lends_iter : iters w !! p = Some it;
  lends_sound : sound it (mem w);
  lends_only v q : Intrusive.vars (ptrs w) !! v = Some (Some q) -> q = p;
}.

(** An iterator with a cursor open is held by some variable. *)
Definition held (p : Z) (w : world) (it : DatastoreIterator.t) : Prop :=
  mState it = Open -> holders w p <> 0%nat.

Lemma on_iter_lends {A} p w it (f : M A) a it' m' :
  lends p w it -> f (it, mem w) = Some (a, (it', m')) -> sound it' m' ->
  exists w', on_iter p f w = Some (a, w') /\ lends p w' it' /\ ptrs w' = ptrs w /\
    store w' = store w /\ mem w' = m'.
Proof.
  intros [H1' H2' H3' Hi Hs Ho] E Hs'. unfold on_iter. rewrite Hi. cbn. rewrite E. cbn.
  eexists. split; [done|]. split; [|done]. split; cbn; [done..| |done|done].
  apply lookup_insert_eq.
Qed.

(** The events of an operation on the smart pointers are at most one release
    of the iterator, when no variable is left. *)
Lemma events_of_op p w it evs vs' :
  lends p w it ->
  Intrusive.reports (Intrusive.hp (ptrs w)) evs (Intrusive.vars (ptrs w)) vs' ->
  evs = if decide (holders w p <> 0%nat /\ Intrusive.refs vs' p = 0%nat)
        then [Intrusive.Released this p] else [].
Proof.
  intros HL (Hn & Hk & Hp).
  assert (forall e, e ∈ evs -> e = Intrusive.Released this p) as Hall.
  { intros e He. pose proof (proj1 (Hp (Intrusive.obj_of e)) ltac:(by apply list_elem_of_fmap_2)) as [Hr _].
    apply Intrusive.refs_pointed in Hr as [v Hv]. apply (lends_only _ _ _ HL) in Hv.
    rewrite Forall_forall in Hk. specialize (Hk e He). unfold Intrusive.right_kind in Hk.
    rewrite Hv in Hk. destruct (lends_object _ _ _ HL) as (o & Ho & Hc). rewrite Ho in Hk. cbn in Hk.
    by rewrite Hc in Hk. }
  destruct evs as [|e [|e2 evs]].
  - rewrite decide_False; [done|]. intros Hd%Hp. cbn in Hd. by apply not_elem_of_nil in Hd.
  - rewrite (Hall e) by left. rewrite decide_True; [done|]. apply Hp. rewrite (Hall e) by left.
    cbn. left.
  - exfalso. rewrite (Hall e), (Hall e2) in Hn by (by left || (right; left)). cbn in Hn.
    apply NoDup_cons in Hn as [Hn _]. apply Hn. left.
Qed.

Lemma ptr_op_lends p w it o :
  lends p w it -> Intrusive.legal o (ptrs w) ->
  (forall q, Intrusive.raw_of o = Some q -> q = p) ->
  exists w' it', ptr_op o w = Some w' /\ lends p w' it' /\ store w' = store w /\
    Intrusive.exec o (ptrs w) = Some (ptrs w') /\
    if decide (holders w p <> 0%nat /\ holders w' p = 0%nat)
    then mState it' = Ready else it' = it /\ mem w' = mem w.
Proof.
  intros HL Hl Hraw. pose proof HL as [(ds & Hds & Hdp) Hinv (ob & Hob & Hcr) Hit Hs Ho].
  destruct (Intrusive.exec_ok o (ptrs w) Hinv Hl) as (st & evs & E & Hinv' & Hev & Hrep).
  pose proof (events_of_op p w it evs _ HL Hrep) as Hevs.
  unfold ptr_op. rewrite E. cbn. rewrite Hev, drop_app_length.
  assert (lends p (set_ptrs st w) it) as HL1.
  { split; cbn; [by exists ds|done| |done|done|].
    - apply (Intrusive.exec_keeps o (ptrs w) st E p ob this Hob Hcr).
    - intros v q Hv. destruct (Intrusive.exec_targets o _ _ _ _ E Hv) as [[u Hu]|Hr];
        [by eapply Ho|by apply Hraw]. }
  clear Hrep Hev. change (Intrusive.refs (Intrusive.vars st) p) with (holders (set_ptrs st w) p) in Hevs.
  destruct (decide (holders w p <> 0%nat /\ holders (set_ptrs st w) p = 0%nat)) as [Hd|Hd];
    subst evs.
  - cbn. rewrite (decide_True (P := this = this)) by done. unfold release. cbn. rewrite Hds. cbn.
    rewrite (decide_True (P := p = mDataIter ds)) by done.
    destruct (sound_closeAndReset it (mem w) Hs) as (it' & m' & Ec & Hs' & Hr).
    destruct (on_iter_lends p _ it closeAndReset () it' m' HL1 Ec Hs') as (w' & -> & HL' & Hp & Hst & _).
    cbn. exists w', it'. split; [done|]. split; [done|]. split; [by rewrite Hst|].
    split; [by rewrite Hp|]. unfold holders. rewrite Hp. by rewrite decide_True.
  - exists (set_ptrs st w), it. split; [done|]. split; [done|]. split; [done|]. split; [done|].
    by rewrite decide_False.
Qed.

#[local] Arguments ptr_op : simpl never.
#[local] Arguments on_iter : simpl never.

Lemma lends_legal_live p w it : lends p w it -> Intrusive.live (Intrusive.hp (ptrs w)) (Some p).
Proof. intros HL. destruct (lends_object _ _ _ HL) as (o & Ho & _). by exists o. Qed.

(** [data] in full: a null pointer if the iterator is not ready, and otherwise
    the iterator, after the query. *)
Definition data_result (p v : Z) (q : request) (w w' : world) (it it' : DatastoreIterator.t) : Prop :=
  store w' = store w /\
  if isReady it then
    exists ds, store w = Some ds /\
      run_request q (mFetchSize ds) (it, mem w) = Some ((), (it', mem w')) /\
      Intrusive.vars (ptrs w') = <[v := Some p]> (Intrusive.vars (ptrs w))
  else
    it' = it /\ mem w' = mem w /\
    Intrusive.vars (ptrs w') = <[v := None]> (Intrusive.vars (ptrs w)).

Lemma data_lends p w it v q :
  lends p w it -> legal (Data v q) w ->
  exists w' it', data v q w = Some w' /\ lends p w' it' /\ data_result p v q w w' it it'.
Proof.
  intros HL [Hsz [Hv Hids]]. cbn in Hv.
  destruct (lends_store _ _ _ HL) as (ds & Hds & Hdp). unfold data. rewrite Hds. cbn.
  destruct (ptr_op_lends p w it (Intrusive.Declare_default v) HL) as (w1 & it1 & -> & HL1 & Hst1 & E1 & Hr1);
    [split; [lia|done]|done|]. cbn.
  assert (Intrusive.vars (ptrs w1) = <[v := None]> (Intrusive.vars (ptrs w))) as Hv1.
  { cbn in E1. rewrite option_guard_True in E1 by done. by injection E1 as <-. }
  assert (holders w1 p = holders w p) as Hh1.
  { unfold holders. by rewrite Hv1, Intrusive.refs_insert. }
  rewrite decide_False in Hr1 by lia. destruct Hr1 as [-> Hm1].
  rewrite Hdp, (lends_iter _ _ _ HL1). cbn. unfold data_result.
  destruct (isReady it) eqn:Hready; cbn.
  2:{ exists w1, it. by rewrite Hst1. }
  pose proof Hready as Hr. apply bool_decide_eq_true in Hr.
  destruct (sound_request q (mFetchSize ds) it (mem w1) (lends_sound _ _ _ HL1) Hr Hids)
    as (it2 & m2 & E2 & Hs2).
  destruct (on_iter_lends p w1 it _ () it2 m2 HL1 E2 Hs2) as (w2 & -> & HL2 & Hp2 & Hst2 & Hm2). cbn.
  destruct (ptr_op_lends p w2 it2 (Intrusive.Assign_raw v (Some p)) HL2)
    as (w3 & it3 & -> & HL3 & Hst3 & E3 & Hr3).
  { unfold Intrusive.legal. rewrite Hp2, Hv1. split; [rewrite map_size_insert_None by done; lia|]. split.
    - rewrite lookup_insert_eq. by eexists.
    - rewrite <- Hp2. by eapply lends_legal_live. }
  { by intros ? [= <-]. }
  apply Intrusive.assign_raw_value in E3. rewrite Hp2, Hv1, insert_insert_eq in E3.
  assert (holders w3 p <> 0%nat) as Hh3.
  { unfold holders. rewrite E3. apply Intrusive.refs_pointed. exists v. apply lookup_insert_eq. }
  rewrite decide_False in Hr3 by tauto. destruct Hr3 as [-> Hm3].
  exists w3, it2. split; [done|]. split; [done|]. split; [congruence|].
  exists ds. split; [done|]. split; [|done]. rewrite <- Hm1, Hm3, Hm2. done.
Qed.

Lemma exec_lends p w it o :
  lends p w it -> held p w it -> legal o w ->
  exists w' it', exec o w = Some w' /\ lends p w' it' /\ held p w' it'.
Proof.
  intros HL Hh Hl. pose proof Hl as [Hsz Hl'].
  assert (forall o', Intrusive.legal o' (ptrs w) -> Intrusive.raw_of o' = None ->
    exists w' it', ptr_op o' w = Some w' /\ lends p w' it' /\ held p w' it') as Hptr.
  { intros o' Hlo Hraw. destruct (ptr_op_lends p w it o' HL Hlo) as (w' & it' & E & HL' & _ & _ & Hr);
      [by rewrite Hraw|]. exists w', it'. split; [done|]. split; [done|]. intros Hop.
    destruct (decide _) as [|Hd]; [congruence|]. destruct Hr as [-> _]. specialize (Hh Hop). lia. }
  destruct o as [v q|v|v u|v u|v|n]; cbn [exec].
  - destruct (data_lends p w it v q HL Hl) as (w' & it' & E & HL' & _ & Hd).
    exists w', it'. split; [done|]. split; [done|]. intros Hop. unfold holders.
    destruct (isReady it) eqn:Hready.
    + destruct Hd as (_ & _ & _ & ->). apply Intrusive.refs_pointed. exists v. apply lookup_insert_eq.
    + destruct Hl' as [Hl' _]. destruct Hd as (-> & _ & ->). rewrite Intrusive.refs_insert by done. by apply Hh.
  - destruct Hl' as [q Hq]. rewrite Hq. cbn. rewrite (lends_only _ _ _ HL v q Hq).
    destruct (sound_next it (mem w) (lends_sound _ _ _ HL)) as (a & it' & m' & E & Hs').
    destruct (on_iter_lends p w it next a it' m' HL E Hs') as (w' & E' & HL' & Hp & _).
    rewrite E'. exists w', it'. split; [done|]. split; [done|]. intros _. unfold holders. rewrite Hp.
    apply Intrusive.refs_pointed. exists v. by rewrite Hq, (lends_only _ _ _ HL v q Hq).
  - apply Hptr; [split; [lia|done]|done].
  - apply Hptr; [split; [lia|done]|done].
  - apply Hptr; [split; [lia|done]|done].
  - destruct (lends_store _ _ _ HL) as (ds & Hds & Hdp). rewrite Hds. cbn.
    eexists _, it. split; [done|]. split; [|done]. destruct HL. split; cbn; [by eexists|done..].
Qed.

Lemma run_lends p w it os :
  lends p w it -> held p w it -> legal_run os w ->
  exists w' it', run os w = Some w' /\ lends p w' it' /\ held p w' it'.
Proof.
  revert w it. induction os as [|o os IH]; intros w it HL Hh Hl; [by exists w, it|].
  destruct Hl as [Ho Hl]. destruct (exec_lends p w it o HL Hh Ho) as (w1 & it1 & E & HL1 & Hh1).
  cbn [run]. rewrite E. cbn. by apply (IH w1 it1); [..|apply Hl].
Qed.

(** ** The properties *)

(** A datastore whose member [mDataIter] points to a new iterator that has it
    as its creator, and no client pointer yet. *)
Definition fresh_store (p : Z) (w : world) (it : DatastoreIterator.t) : Prop :=
  (exists ds, store w = Some ds /\ mDataIter ds = p) /\
  Intrusive.vars (ptrs w) = ∅ /\
  Intrusive.objs (Intrusive.hp (ptrs w)) = {[p := Intrusive.new_tracked (Some this)]} /\
  iters w !! p = Some it /\ sound it (mem w) /\ mState it = Ready.

(** A new iterator [it] at the address [p], that is all there is: what
    line 17 of the constructor, which is commented out, would have made. *)
Definition new_iterator_at (p : Z) (w : world) (it : DatastoreIterator.t) : Prop :=
  Intrusive.vars (ptrs w) = ∅ /\
  Intrusive.objs (Intrusive.hp (ptrs w)) = {[p := Intrusive.new_tracked None]} /\
  iters w !! p = Some it /\ sound it (mem w) /\ mState it = Ready.

(** The constructor on a member [mDataIter] that happens to point there. *)
Lemma construct_fresh garbage w it :
  new_iterator_at (mDataIter garbage) w it ->
  exists w0, construct garbage w = Some w0 /\ fresh_store (mDataIter garbage) w0 it.
Proof.
  intros (Hv & Ho & Hi & Hs & Hr). unfold construct. rewrite Ho, lookup_singleton_eq. cbn.
  eexists. split; [done|]. split; [by eexists|]. split; [done|]. split; [by rewrite insert_singleton_eq|done].
Qed.

Lemma fresh_lends p w it : fresh_store p w it -> lends p w it /\ held p w it.
Proof.
  intros (Hds & Hv & Ho & Hi & Hs & Hr). split; [split|].
  - done.
  - rewrite Hv. split.
    + rewrite Ho. intros q o [<- <-]%lookup_singleton_Some. done.
    + intros v q. by rewrite lookup_empty.
    + intros q Hq. by apply not_elem_of_nil in Hq.
  - rewrite Ho. exists (Intrusive.new_tracked (Some this)). split; [apply lookup_singleton_eq|done].
  - done.
  - done.
  - intros v q. by rewrite Hv, lookup_empty.
  - intros Hop. congruence.
Qed.

(** C4: The cursor of a datastore is open only while a client holds the
    iterator. The constructor goes through [mDataIter], which nothing has set;
    if that member points to a new iterator, as the commented line 17 would have
    made it, the constructor makes a datastore, and any legal client program
    runs to its end, whatever the server answers; then the reference count is
    the number of pointers to the iterator, every pointer that is not null
    points to it, and if none does the iterator is ready for the next query. *)
Theorem open_iterator_is_held garbage w it :
  new_iterator_at (mDataIter garbage) w it ->
  exists w0, construct garbage w = Some w0 /\
  forall os, legal_run os w0 ->
  exists w' it' o, run os w0 = Some w' /\ iters w' !! mDataIter garbage = Some it' /\
    Intrusive.objs (Intrusive.hp (ptrs w')) !! mDataIter garbage = Some o /\
    Intrusive.referenceCount o = Z.of_nat (holders w' (mDataIter garbage)) /\
    (forall v q, Intrusive.vars (ptrs w') !! v = Some (Some q) -> q = mDataIter garbage) /\
    (isReady it' = false -> exists v, Intrusive.vars (ptrs w') !! v = Some (Some (mDataIter garbage))).
Proof.
  intros (w0 & E0 & [HL Hh]%fresh_lends)%construct_fresh. exists w0. split; [done|]. intros os Hl.
  set (p := mDataIter garbage) in *. destruct (run_lends p w0 it os HL Hh Hl) as (w' & it' & E & HL' & Hh').
  destruct (lends_object _ _ _ HL') as (o & Ho & _). exists w', it', o.
  split; [done|]. split; [apply HL'|]. split; [done|]. split.
  - unfold Intrusive.referenceCount. rewrite (Intrusive.inv_count _ _ _ (lends_inv _ _ _ HL') p o Ho).
    unfold Intrusive.temps. cbn. by rewrite Nat.add_0_r.
  - split; [apply HL'|]. intros Hr. apply Intrusive.refs_pointed, Hh'.
    unfold isReady in Hr. apply bool_decide_eq_false in Hr. by destruct (mState it').
Qed.

(** One query at a time. After any legal client program, [data] gives a
    null pointer, and changes nothing, if a cursor is open; otherwise it runs
    the query with the datastore's fetch size and gives a pointer to the
    iterator, even if the query has failed. *)
Theorem data_one_query_at_a_time p w it os w1 v q :
  fresh_store p w it -> legal_run os w -> run os w = Some w1 -> legal (Data v q) w1 ->
  exists w2 it1 it2, data v q w1 = Some w2 /\
    iters w1 !! p = Some it1 /\ iters w2 !! p = Some it2 /\ data_result p v q w1 w2 it1 it2.
Proof.
  intros [HL Hh]%fresh_lends Hl E Hd. destruct (run_lends p w it os HL Hh Hl) as (w' & it1 & E' & HL' & _).
  assert (w' = w1) as -> by congruence.
  destruct (data_lends p w1 it1 v q HL' Hd) as (w2 & it2 & E2 & HL2 & Hr).
  exists w2, it1, it2. split; [done|]. split; [apply HL'|]. split; [apply HL2|done].
Qed.

(** C39: What the destructor needs, for a datastore that the constructor made
    where [mDataIter] pointed to a new iterator, as the commented line 17 would
    have made it. If no client holds the iterator, the destructor closes it, with
    every transaction ended. If one does, the iterator stays, but its creator is
    gone: dropping the last pointer afterwards is undefined. *)
Theorem store_destruction garbage w it w0 os w1 :
  new_iterator_at (mDataIter garbage) w it -> construct garbage w = Some w0 ->
  legal_run os w0 -> run os w0 = Some w1 ->
  let p := mDataIter garbage in
  exists w2, destruct_store w1 = Some w2 /\ store w2 = None /\
    (holders w1 p = 0%nat ->
       iters w2 !! p = None /\ opened (sent (mem w2)) = ended (sent (mem w2))) /\
    (forall v, holders w1 p = 1%nat -> legal (Drop v) w1 ->
       Intrusive.vars (ptrs w1) !! v = Some (Some p) -> exec (Drop v) w2 = None).
Proof.
  intros (w0' & E0 & [HL Hh]%fresh_lends)%construct_fresh Ec Hl E p. fold p in HL, Hh.
  assert (w0' = w0) as -> by congruence. clear E0 Ec. destruct (run_lends p w0 it os HL Hh Hl) as (w' & it1 & E' & HL' & _).
  assert (w' = w1) as -> by congruence. clear E E' HL Hh Hl.
  destruct (lends_store _ _ _ HL') as (ds & Hds & Hdp).
  destruct (lends_object _ _ _ HL') as (o & Ho & Hc).
  assert (Intrusive.referenceCount o = Z.of_nat (holders w1 p)) as Hcount.
  { unfold Intrusive.referenceCount. rewrite (Intrusive.inv_count _ _ _ (lends_inv _ _ _ HL') p o Ho).
    unfold Intrusive.temps. cbn. by rewrite Nat.add_0_r. }
  unfold destruct_store. rewrite Hds. cbn. rewrite Hdp, Ho. cbn. rewrite Hcount.
  destruct (decide (holders w1 p = 0%nat)) as [Hz|Hz].
  - rewrite Hz. cbn.
    destruct (sound_closeAndReset it1 (mem w1) (lends_sound _ _ _ HL')) as (it2 & m2 & Ec & Hs2 & Hr2).
    unfold on_iter. rewrite (lends_iter _ _ _ HL'). cbn. unfold destruct_iterator, mbind, M_bind.
    rewrite Ec. cbn. eexists. split; [done|]. split; [done|]. split; [|lia]. intros _. cbn.
    split; [apply lookup_delete_eq|]. rewrite (sound_balance _ _ Hs2), Hr2. cbn. lia.
  - rewrite (proj2 (Z.eqb_neq _ _)) by lia. cbn. eexists. split; [done|]. split; [done|].
    split; [done|]. intros v H1' [Hsz Hv] Hvp. cbn in Hv. cbn [exec]. unfold ptr_op. cbn [ptrs set_store].
    destruct (Intrusive.exec_ok (Intrusive.Destroy v) (ptrs w1) (lends_inv _ _ _ HL'))
      as (st & evs & Ex & Hinv & Hev & Hrep); [split; [lia|done]|].
    rewrite Ex. cbn. rewrite Hev, drop_app_length.
    rewrite (events_of_op p w1 it1 evs _ HL' Hrep). rewrite decide_True.
    + cbn. by rewrite decide_True.
    + split; [done|]. cbn in Ex. rewrite Hvp in Ex. cbn in Ex.
      destruct (Intrusive.release p _) as [h|]; [|done]. injection Ex as <-. cbn.
      unfold holders in H1'. rewrite (Intrusive.refs_delete _ v (Some p) p Hvp) in H1'.
      unfold Intrusive.hit in H1'. rewrite decide_True in H1' by done. lia.
Qed.

End this.
End store.

(** ** A datastore on the server with three rows *)

#[local] Existing Instance toy_server.

Definition store_at : Z := 1.
Definition new_world : world :=
  World (Some (Make 2 "" 64))
    (Intrusive.State ∅ (Intrusive.Heap {[64 := Intrusive.new_tracked (Some store_at)]} []))
    {[64 := new_iterator]} no_memory.

Lemma new_iterator_sound : sound new_iterator no_memory.
Proof.
  destruct (sound_construct "1" "db" no_memory no_memory_ok) as (o & E & Hs).
  vm_compute in E. apply (inj Some) in E. injection E as <-. exact Hs.
Qed.

Lemma new_fresh : fresh_store store_at 64 new_world new_iterator.
Proof.
  split; [by eexists|]. split; [done|]. split; [done|]. split; [apply lookup_singleton_eq|].
  split; [exact new_iterator_sound|done].
Qed.

(** Before the constructor has run, with the members as line 17 would set them. *)
Definition unset : t := Make 2 "" 64.
Definition bare_world : world :=
  World None (Intrusive.State ∅ (Intrusive.Heap {[64 := Intrusive.new_tracked None]} []))
    {[64 := new_iterator]} no_memory.

Lemma bare_new : new_iterator_at (mDataIter unset) bare_world new_iterator.
Proof.
  split; [done|]. split; [done|]. split; [apply lookup_singleton_eq|]. split; [exact new_iterator_sound|done].
Qed.

Lemma constructs_new_world : construct store_at unset bare_world = Some new_world.
Proof. by vm_compute. Qed.

(** A client reads one row, copies the pointer and drops the first. *)
Definition client : list op := [Data 10 two_ids; Next_on 10; Copy 11 10; Drop 10].

Lemma client_legal : legal_run store_at client new_world.
Proof.
  unfold client. split; [split; [by vm_compute|split; by vm_compute]|].
  intros ? E; vm_compute in E; apply (inj Some) in E as <-.
  repeat (split; [split; [by vm_compute|vm_compute; eauto]|
    intros ? E; vm_compute in E; apply (inj Some) in E as <-]). exact I.
Qed.

Definition client_world : world :=
  match run store_at client new_world with Some w => w | None => new_world end.

Lemma client_runs : run store_at client new_world = Some client_world.
Proof. by vm_compute. Qed.

Lemma open_iterator_is_held_witness :
  exists w' it', run store_at client new_world = Some w' /\ iters w' !! 64 = Some it' /\
    isReady it' = false /\ exists v, Intrusive.vars (ptrs w') !! v = Some (Some 64).
Proof.
  destruct (open_iterator_is_held store_at unset bare_world new_iterator bare_new) as (w0 & E0 & H).
  rewrite constructs_new_world in E0. apply (inj Some) in E0. subst w0.
  destruct (H client client_legal) as (w' & it' & o & E & Hi & _ & _ & _ & Hh).
  exists w', it'. split; [exact E|]. split; [exact Hi|].
  assert (isReady it' = false) as Hr.
  { rewrite client_runs in E. apply (inj Some) in E. subst w'. vm_compute in Hi.
    apply (inj Some) in Hi. subst it'. reflexivity. }
  split; [exact Hr|exact (Hh Hr)].
Defined.

Lemma data_one_query_at_a_time_witness :
  exists w2, data store_at 12 two_ids client_world = Some w2 /\
    Intrusive.vars (ptrs w2) !! 12 = Some None.
Proof.
  assert (legal (Data 12 two_ids) client_world) as Hl by (split; [by vm_compute|split; by vm_compute]).
  destruct (data_one_query_at_a_time store_at 64 new_world new_iterator client client_world 12 two_ids
              new_fresh client_legal client_runs Hl) as (w2 & it1 & it2 & E & Hi1 & _ & _ & Hd).
  exists w2. split; [exact E|]. vm_compute in Hi1. apply (inj Some) in Hi1. subst it1.
  destruct Hd as (_ & _ & Hv). rewrite Hv. apply lookup_insert_eq.
Defined.

Lemma store_destruction_witness :
  exists w2, destruct_store client_world = Some w2 /\ exec store_at (Drop 11) w2 = None.
Proof.
  destruct (store_destruction store_at unset bare_world new_iterator new_world client client_world
              bare_new constructs_new_world client_legal client_runs) as (w2 & E & _ & _ & Hd).
  exists w2. split; [exact E|]. apply Hd; [by vm_compute| |by vm_compute].
  split; [by vm_compute|vm_compute; eauto].
Defined.

(** The constructor reads the member [mDataIter] before anything has set it:
    unless an iterator happens to be there, that is undefined. *)
Example constructor_reads_uninitialised (garbage : t) :
  mDataIter garbage <> 64 -> construct store_at garbage new_world = None.
Proof. intros Hg. unfold construct. cbn. by rewrite lookup_singleton_ne. Qed.

End Datastore.
