(* ===== verification/Handler.v ===== *)
(** * The request handlers (handler/IOHandler, IOHandlerFactory, LogicHandler,
    LogicHandlerRequest, LogicHandlerResponse, and server/main.cpp)

    An [IOHandler] receives the callbacks of one HTTP request on an IO thread
    and enqueues the request for the [LogicHandler]s; each of these runs a loop
    in a thread of its own, keeps the requests it has taken in a map, and is
    told of their fate through its response queue. Objects are known by their
    addresses. The blocking queues between the threads are lists; the request
    queue, which several threads share, may give any of its elements. *)
From S2P Require Import Prelude.
#[local] Open Scope Z_scope.

(** ** Requests and responses (LogicHandlerRequest.h, LogicHandlerResponse.h) *)

Inductive ResponseCode := CReady | CError | CTerminated | CPaused.
Inductive RequestStage := SReady | SBegin | SContinue | SEnd.

#[global] Instance ResponseCode_eq_dec : EqDecision ResponseCode.
Proof. solve_decision. Defined.

Record LogicHandlerRequest := MkRequest { requestTimer : Z; ioHandler : Z }.
Record LogicHandlerResponse := MkResponse { code : ResponseCode; from : Z }.

Record LogicHandlerRequestStage := MkStage {
  stage : RequestStage;
  ioCode : ResponseCode;
  numLines : Z;
  currLine : Z;
  batch : Z;
  request : LogicHandlerRequest;
}.

Definition new_stage (r : LogicHandlerRequest) (l b : Z) : LogicHandlerRequestStage :=
  MkStage SReady CReady l 0 b r.
Definition set_ioCode (c : ResponseCode) (s : LogicHandlerRequestStage) : LogicHandlerRequestStage :=
  MkStage (stage s) c (numLines s) (currLine s) (batch s) (request s).

(** folly's buffers and proxygen's messages. *)
Class Buffers := {
  IOBuf : Type;
  HTTPMessage : Type;
  prependChain : IOBuf -> IOBuf -> IOBuf;
}.

(** [a->prependChain(b)], documented as inserting before [a] in its circular
    chain, puts [b] after the rest of the chain that [a] heads. *)
Class BuffersLaws `{Buffers} := {
  contents : IOBuf -> list Byte.byte;
  contents_prependChain a b : contents (prependChain a b) = contents a ++ contents b;
}.

Module IOHandler.
Section io.
Context `{Buffers}.

Record t := Make {
  mRequestBody : option IOBuf;
  mRequestQueue : bool;           (* not null *)
  mHeaders : option HTTPMessage;
  mResponseQueue : option Z;      (* the LogicHandler that owns it *)
  mStatus : ResponseCode;
}.

(** The constructor; [IOHandlerFactory::onRequest] calls it with its queue. *)
Definition construct (queue : bool) : t := Make None queue None None CReady.
Definition factory_onRequest (mQueue : bool) : t := construct mQueue.

Definition set_status (c : ResponseCode) (o : t) : t :=
  Make (mRequestBody o) (mRequestQueue o) (mHeaders o) (mResponseQueue o) c.

Definition onRequest (headers : HTTPMessage) (o : t) : t :=
  Make (mRequestBody o) (mRequestQueue o) (Some headers) (mResponseQueue o) (mStatus o).

Definition onBody (body : IOBuf) (o : t) : t :=
  Make (match mRequestBody o with
        | Some b => Some (prependChain b body)
        | None => Some body
        end) (mRequestQueue o) (mHeaders o) (mResponseQueue o) (mStatus o).

(** What [onEOM] enqueues for the logic handlers; [now] is the clock. *)
Definition onEOM (now this : Z) (o : t) : list LogicHandlerRequest :=
  if mRequestQueue o then [MkRequest now this] else [].

(** What [handleResponseNotification] enqueues, for the owner of the queue. *)
Definition handleResponseNotification (this : Z) (c : ResponseCode) (o : t) : option (Z * LogicHandlerResponse) :=
  match mResponseQueue o with Some q => Some (q, MkResponse c this) | None => None end.

Definition notify (this : Z) (c : ResponseCode) (o : t) : t * option (Z * LogicHandlerResponse) :=
  let o := set_status c o in (o, handleResponseNotification this (mStatus o) o).
Definition requestComplete (this : Z) (o : t) := notify this CTerminated o.
Definition onError (this : Z) (o : t) := notify this CError o.
Definition onEgressPaused (this : Z) (o : t) := notify this CPaused o.
Definition onEgressResumed (this : Z) (o : t) := notify this CReady o.

Definition setResponseQueue (this q : Z) (o : t) : t * option (Z * LogicHandlerResponse) :=
  let o := Make (mRequestBody o) (mRequestQueue o) (mHeaders o) (Some q) (mStatus o) in
  (o, match mStatus o with
      | CPaused | CError | CTerminated => handleResponseNotification this (mStatus o) o
      | CReady => None
      end).

Definition requestData (o : t) : option HTTPMessage := mHeaders o.
Definition requestBody (o : t) : option IOBuf := mRequestBody o.
Definition status (o : t) : ResponseCode := mStatus o.

(** The callbacks that can notify, and a run of them. *)
Inductive callback := Complete | Errored | Paused | Resumed | SetQueue (q : Z).

Definition on_callback (this : Z) (c : callback) (o : t) : t * option (Z * LogicHandlerResponse) :=
  match c with
  | Complete => requestComplete this o
  | Errored => onError this o
  | Paused => onEgressPaused this o
  | Resumed => onEgressResumed this o
  | SetQueue q => setResponseQueue this q o
  end.

(** The handler after the callbacks, and the responses for the queue [q]. *)
Fixpoint on_callbacks (this q : Z) (cs : list callback) (o : t) : t * list LogicHandlerResponse :=
  match cs with
  | [] => (o, [])
  | c :: cs =>
      let '(o, n) := on_callback this c o in
      let '(o, ns) := on_callbacks this q cs o in
      (o, match n with Some (q', r) => if decide (q' = q) then r :: ns else ns | None => ns end)
  end.

End io.
End IOHandler.

Module LogicHandler.

Abbreviation RequestMap := (gmap Z LogicHandlerRequestStage).

(** The points of [executor_func] between which the thread can be interrupted. *)
Inductive pc := Not_started | Loop | Wait | Drain | Process | Exited.

#[global] Instance pc_eq_dec : EqDecision pc.
Proof. solve_decision. Defined.

Record t := Make {
  thread : pc;                    (* mThread, and where it is *)
  mIsRunning : bool;
  mResponseQueue : list LogicHandlerResponse;
  mRequestMap : RequestMap;
}.

Definition mMaxRequest : Z := 128.
Definition mWaitDurationBusy : Z := 50.
Definition mWaitDurationIdle : Z := 1000.

Definition construct : t := Make Not_started false [] ∅.

Definition start (o : t) : t :=
  if decide (thread o = Not_started) then Make Loop true (mResponseQueue o) (mRequestMap o) else o.
Definition stop (o : t) : t := Make (thread o) false (mResponseQueue o) (mRequestMap o).

Definition at_pc (p : pc) (o : t) : t := Make p (mIsRunning o) (mResponseQueue o) (mRequestMap o).
Definition set_map (m : RequestMap) (o : t) : t := Make (thread o) (mIsRunning o) (mResponseQueue o) m.

(** [while (mIsRunning.test_and_set())], and the test of the size of the map. *)
Definition loop_test (o : t) : t :=
  let running := mIsRunning o in
  let o := Make (thread o) true (mResponseQueue o) (mRequestMap o) in
  if running then
    if Z.of_nat (size (mRequestMap o)) <? mMaxRequest then at_pc Wait o else at_pc Loop o
  else at_pc Exited o.

(** How long [wait_dequeue_timed] waits, in microseconds. *)
Definition wait_time (o : t) : Z :=
  (if decide (mRequestMap o <> ∅) then mWaitDurationBusy else mWaitDurationIdle) * 1000.

(** [insert] leaves an entry that is there. *)
Definition admit_request (r : LogicHandlerRequest) (o : t) : t :=
  set_map (match mRequestMap o !! ioHandler r with
           | Some _ => mRequestMap o
           | None => <[ioHandler r := new_stage r 100000 100]> (mRequestMap o)
           end) o.

(** One response, by the code's chain of conditions. *)
Definition handle_response (r : LogicHandlerResponse) (m : RequestMap) : RequestMap :=
  let m := if decide (code r = CError) then delete (from r) m else m in
  if decide (code r = CTerminated) then delete (from r) m
  else if decide (code r = CPaused) then
    match m !! from r with Some s => <[from r := set_ioCode (code r) s]> m | None => m end
  else if decide (code r = CReady) then
    match m !! from r with Some s => <[from r := set_ioCode (code r) s]> m | None => m end
  else m.

Fixpoint drain_responses (rs : list LogicHandlerResponse) (m : RequestMap) : RequestMap :=
  match rs with
  | [] => m
  | r :: rs => drain_responses rs (handle_response r m)
  end.

(** The loop over the map passes copies to [handleRequestLogic], which is empty. *)
Definition handleRequestLogic (s : LogicHandlerRequestStage) : LogicHandlerRequestStage := s.
Definition processed (o : t) : list LogicHandlerRequestStage :=
  handleRequestLogic <$> filter (fun s => ioCode s <> CPaused) (map_to_list (mRequestMap o)).*2.

(** A step of the thread, with the request queue it shares. *)
Inductive step : t -> list LogicHandlerRequest -> t -> list LogicHandlerRequest -> Prop :=
| step_loop o rq :
    thread o = Loop -> step o rq (loop_test o) rq
| step_dequeue o rq1 r rq2 :
    thread o = Wait -> step o (rq1 ++ r :: rq2) (at_pc Drain (admit_request r o)) (rq1 ++ rq2)
| step_timeout o rq :
    thread o = Wait -> step o rq (at_pc Drain o) rq
| step_response o rq r rs :
    thread o = Drain -> mResponseQueue o = r :: rs ->
    step o rq (Make Drain (mIsRunning o) rs (handle_response r (mRequestMap o))) rq
| step_drained o rq :
    thread o = Drain -> mResponseQueue o = [] -> step o rq (at_pc Process o) rq
| step_process o rq :
    thread o = Process -> step o rq (at_pc Loop o) rq.

End LogicHandler.

Module Server.
Section server.
Context `{Buffers}.

(** The IO handlers that proxygen has, the request queue they share with the
    logic handlers, and the logic handlers. *)
Record t := Make {
  ios : gmap Z IOHandler.t;
  queue : list LogicHandlerRequest;
  handlers : list LogicHandler.t;
}.

(** [main]: four logic handlers, started before the server is. *)
Definition initial : t :=
  Make ∅ [] (replicate 4 (LogicHandler.start LogicHandler.construct)).

(** A response goes to the queue of the logic handler that owns it. *)
Definition enqueue_response (r : LogicHandlerResponse) (h : LogicHandler.t) : LogicHandler.t :=
  LogicHandler.Make (LogicHandler.thread h) (LogicHandler.mIsRunning h)
    (LogicHandler.mResponseQueue h ++ [r]) (LogicHandler.mRequestMap h).
Definition deliver (n : option (Z * LogicHandlerResponse)) (hs : list LogicHandler.t) : list LogicHandler.t :=
  match n with Some (q, r) => alter (enqueue_response r) (Z.to_nat q) hs | None => hs end.

(** What can happen next. proxygen makes handlers and calls them back; the
    program nowhere calls [setResponseQueue]. *)
Inductive step : t -> t -> Prop :=
| io_new p s :
    ios s !! p = None ->
    step s (Make (<[p := IOHandler.factory_onRequest true]> (ios s)) (queue s) (handlers s))
| io_headers p io headers s :
    ios s !! p = Some io ->
    step s (Make (<[p := IOHandler.onRequest headers io]> (ios s)) (queue s) (handlers s))
| io_body p io body s :
    ios s !! p = Some io ->
    step s (Make (<[p := IOHandler.onBody body io]> (ios s)) (queue s) (handlers s))
| io_eom p io now s :
    ios s !! p = Some io ->
    step s (Make (ios s) (queue s ++ IOHandler.onEOM now p io) (handlers s))
| io_callback p io c io' n s :
    ios s !! p = Some io -> (forall q, c <> IOHandler.SetQueue q) ->
    IOHandler.on_callback p c io = (io', n) ->
    step s (Make (<[p := io']> (ios s)) (queue s) (deliver n (handlers s)))
| logic_step i h h' queue' s :
    handlers s !! i = Some h -> LogicHandler.step h (queue s) h' queue' ->
    step s (Make (ios s) queue' (<[i := h']> (handlers s)))
| logic_stop i h s :
    handlers s !! i = Some h ->
    step s (Make (ios s) (queue s) (<[i := LogicHandler.stop h]> (handlers s))).

Definition reachable (s : t) : Prop := rtc step initial s.

End server.
End Server.

(** ** Draining the responses *)

Definition drops (c : ResponseCode) : bool := bool_decide (c = CError \/ c = CTerminated).

(** What one response does to the entry of its handler. *)
Definition entry_step (c : ResponseCode) (e : option LogicHandlerRequestStage) :
    option LogicHandlerRequestStage :=
  if drops c then None else set_ioCode c <$> e.

Fixpoint entry_steps (cs : list ResponseCode) (e : option LogicHandlerRequestStage) :
    option LogicHandlerRequestStage :=
  match cs with [] => e | c :: cs => entry_steps cs (entry_step c e) end.

Definition codes_of (p : Z) (rs : list LogicHandlerResponse) : list ResponseCode :=
  code <$> filter (fun r => from r = p) rs.

Lemma handle_response_lookup r m p :
  LogicHandler.handle_response r m !! p =
    if decide (from r = p) then entry_step (code r) (m !! p) else m !! p.
Proof.
  destruct r as [c q]. unfold LogicHandler.handle_response, entry_step. cbn [code from].
  destruct c; repeat match goal with
    | |- context [decide (?a = ?b :> ResponseCode)] => destruct (decide (a = b)); try done
    end;
    change (drops CReady) with false; change (drops CPaused) with false;
    change (drops CError) with true; change (drops CTerminated) with true; cbn [fmap].
  all: destruct (decide (q = p)) as [->|Hne]; [|destruct (m !! q) eqn:E].
  all: try (destruct (m !! p) eqn:E').
  all: by rewrite ?lookup_delete_eq, ?lookup_delete_ne, ?lookup_insert_eq, ?lookup_insert_ne, ?E, ?E' by done.
Qed.

Lemma codes_of_cons p r rs :
  codes_of p (r :: rs) = if decide (from r = p) then code r :: codes_of p rs else codes_of p rs.
Proof. unfold codes_of. rewrite filter_cons. by case_decide. Qed.

Lemma drain_lookup rs m p :
  LogicHandler.drain_responses rs m !! p = entry_steps (codes_of p rs) (m !! p).
Proof.
  revert m. induction rs as [|r rs IH]; intros m; [done|].
  cbn [LogicHandler.drain_responses]. rewrite IH, handle_response_lookup, codes_of_cons.
  by destruct (decide (from r = p)).
Qed.

Lemma entry_steps_none cs : entry_steps cs None = None.
Proof. induction cs as [|c cs IH]; [done|]. cbn. unfold entry_step. by destruct (drops c). Qed.

Lemma entry_steps_some cs s :
  entry_steps cs (Some s) =
    if existsb drops cs then None
    else Some (match last cs with Some c => set_ioCode c s | None => s end).
Proof.
  revert s. induction cs as [|c cs IH]; intros s; [done|]. cbn [entry_steps existsb].
  unfold entry_step. destruct (drops c); cbn [orb fmap option_fmap option_map]; [apply entry_steps_none|].
  rewrite IH. destruct (existsb drops cs); [done|]. destruct cs as [|c' cs]; [done|].
  change (last (c :: c' :: cs)) with (last (c' :: cs)).
  destruct (last (c' :: cs)) eqn:E; [done|]. by apply last_None in E.
Qed.

(** C24: What draining the response queue does to each request. A request
    leaves the map if an [Error] or [Terminated] response names its handler,
    and otherwise has the code of the last response that does, if any; the
    order of responses of different handlers does not matter. *)
Theorem drain_spec rs m p :
  LogicHandler.drain_responses rs m !! p =
    match m !! p with
    | Some s =>
        if existsb drops (codes_of p rs) then None
        else Some (match last (codes_of p rs) with Some c => set_ioCode c s | None => s end)
    | None => None
    end.
Proof.
  rewrite drain_lookup. destruct (m !! p); [apply entry_steps_some|apply entry_steps_none].
Qed.

(** ** An IO handler and its logic handler agree *)

(** proxygen's promise: nothing is called after [requestComplete] or [onError]. *)
Fixpoint ends_once (cs : list IOHandler.callback) : bool :=
  match cs with
  | [] => true
  | (IOHandler.Complete | IOHandler.Errored) :: cs =>
      forallb (fun c => match c with IOHandler.SetQueue _ => true | _ => false end) cs
  | _ :: cs => ends_once cs
  end.

Definition agreed (c : ResponseCode) (s : LogicHandlerRequestStage) : option LogicHandlerRequestStage :=
  if drops c then None else Some (set_ioCode c s).

Section agree.
Context `{Buffers} (this q : Z).

(** The calls that may still come after a status. *)
Definition may_come (c : ResponseCode) (cs : list IOHandler.callback) : bool :=
  if drops c then forallb (fun c => match c with IOHandler.SetQueue _ => true | _ => false end) cs
  else ends_once cs.

Definition responses (n : option (Z * LogicHandlerResponse)) (rs : list LogicHandlerResponse) :=
  match n with Some (q', r) => if decide (q' = q) then r :: rs else rs | None => rs end.

Lemma set_ioCode_twice c c' s : set_ioCode c (set_ioCode c' s) = set_ioCode c s.
Proof. done. Qed.

(** One callback: the entry follows the status, and the rest may still come. *)
Lemma on_callback_sync c cs (o : IOHandler.t) s :
  IOHandler.mResponseQueue o = Some q -> (forall q', c = IOHandler.SetQueue q' -> q' = q) ->
  may_come (IOHandler.status o) (c :: cs) = true ->
  let '(o', n) := IOHandler.on_callback this c o in
  IOHandler.mResponseQueue o' = Some q /\ may_come (IOHandler.status o') cs = true /\
  entry_steps (codes_of this (responses n [])) (agreed (IOHandler.status o) s) =
    agreed (IOHandler.status o') s.
Proof.
  intros Hq Hset Hm. destruct o as [body rq hd rsq st]. cbn in Hq. subst rsq.
  unfold may_come, agreed in *. cbn [IOHandler.status IOHandler.mStatus] in *.
  destruct c as [| | | |q']; cbn; try (destruct st; cbn in *; try done);
    try (rewrite (Hset q' eq_refl)); try case_decide; try done;
    unfold codes_of; rewrite ?filter_cons; cbn; rewrite ?decide_True by done; done.
Qed.

Lemma codes_of_app rs rs' : codes_of this (rs ++ rs') = codes_of this rs ++ codes_of this rs'.
Proof. unfold codes_of. by rewrite filter_app, fmap_app. Qed.

Lemma entry_steps_app cs cs' e : entry_steps (cs ++ cs') e = entry_steps cs' (entry_steps cs e).
Proof. revert e. induction cs as [|c cs IH]; intros e; [done|]. cbn. apply IH. Qed.

Lemma on_callbacks_sync cs (o : IOHandler.t) s :
  IOHandler.mResponseQueue o = Some q ->
  (forall q', IOHandler.SetQueue q' ∈ cs -> q' = q) ->
  may_come (IOHandler.status o) cs = true ->
  entry_steps (codes_of this (IOHandler.on_callbacks this q cs o).2) (agreed (IOHandler.status o) s) =
    agreed (IOHandler.status (IOHandler.on_callbacks this q cs o).1) s.
Proof.
  revert o. induction cs as [|c cs IH]; intros o Hq Hset Hend; [done|].
  cbn [IOHandler.on_callbacks].
  pose proof (on_callback_sync c cs o s Hq ltac:(intros q' ->; apply Hset; left) Hend) as Hc.
  destruct (IOHandler.on_callback this c o) as [o1 n]. destruct Hc as (Hq1 & Hm1 & He).
  specialize (IH o1 Hq1 ltac:(intros q' Hin; apply Hset; by right) Hm1).
  destruct (IOHandler.on_callbacks this q cs o1) as [o2 ns]. cbn [fst snd] in *.
  change (match n with Some (q', r) => if decide (q' = q) then r :: ns else ns | None => ns end)
    with (responses n ns).
  assert (responses n ns = responses n [] ++ ns) as ->.
  { unfold responses. destruct n as [[q' r]|]; [|done]. by case_decide. }
  by rewrite codes_of_app, entry_steps_app, He.
Qed.

(** Before the queue is set, nothing is sent. *)
Lemma on_callbacks_before cs (o : IOHandler.t) :
  IOHandler.mResponseQueue o = None -> (forall q', IOHandler.SetQueue q' ∉ cs) ->
  (IOHandler.on_callbacks this q cs o).2 = [] /\
  IOHandler.mResponseQueue (IOHandler.on_callbacks this q cs o).1 = None.
Proof.
  revert o. induction cs as [|c cs IH]; intros o Hq Hset; [done|]. cbn [IOHandler.on_callbacks].
  assert (exists o1, IOHandler.on_callback this c o = (o1, None) /\ IOHandler.mResponseQueue o1 = None)
    as (o1 & -> & Hq1).
  { destruct o. cbn in Hq. subst. destruct c as [| | | |q']; try (by eexists).
    exfalso. apply (Hset q'). left. }
  destruct (IH o1 Hq1) as [E Hq2]; [intros q' Hin; apply (Hset q'); by right|].
  destruct (IOHandler.on_callbacks this q cs o1) as [o2 ns]. cbn in *. by subst.
Qed.

Lemma on_callbacks_app cs cs' (o : IOHandler.t) :
  IOHandler.on_callbacks this q (cs ++ cs') o =
    let '(o1, rs) := IOHandler.on_callbacks this q cs o in
    let '(o2, rs') := IOHandler.on_callbacks this q cs' o1 in (o2, rs ++ rs').
Proof.
  revert o. induction cs as [|c cs IH]; intros o; cbn.
  - by destruct (IOHandler.on_callbacks this q cs' o).
  - destruct (IOHandler.on_callback this c o) as [o1 n]. rewrite IH.
    destruct (IOHandler.on_callbacks this q cs o1) as [o2 rs].
    destruct (IOHandler.on_callbacks this q cs' o2) as [o3 rs'].
    destruct n as [[q' r]|]; [by case_decide|done].
Qed.

Lemma ends_once_split pre post (o : IOHandler.t) :
  (forall q', IOHandler.SetQueue q' ∉ pre) -> ends_once (pre ++ post) = true ->
  drops (IOHandler.status o) = false ->
  may_come (IOHandler.status (IOHandler.on_callbacks this q pre o).1) post = true.
Proof.
  revert o. induction pre as [|c pre IH]; intros o Hset He Hd.
  - unfold may_come. cbn. by rewrite Hd.
  - assert (forall q', IOHandler.SetQueue q' ∉ pre) as Hset' by (intros q' Hin; apply (Hset q'); by right).
    assert (forallb (fun c => match c with IOHandler.SetQueue _ => true | _ => false end) (pre ++ post) = true ->
      pre = []) as Hnil.
    { intros Hf. destruct pre as [|c' pre]; [done|]. exfalso. cbn in Hf.
      destruct c' as [| | | |q']; try done. apply (Hset q'). right. left. }
    destruct c as [| | | |q']; cbn [app ends_once] in He.
    + pose proof (Hnil He) as ->. exact He.
    + pose proof (Hnil He) as ->. exact He.
    + pose proof (IH (IOHandler.set_status CPaused o) Hset' He eq_refl) as IHp. cbn.
      by destruct (IOHandler.on_callbacks this q pre (IOHandler.set_status CPaused o)).
    + pose proof (IH (IOHandler.set_status CReady o) Hset' He eq_refl) as IHp. cbn.
      by destruct (IOHandler.on_callbacks this q pre (IOHandler.set_status CReady o)).
    + exfalso. apply (Hset q'). left.
Qed.

(** The responses once the queue is set bring a new entry up to date. *)
Lemma first_set post (o : IOHandler.t) s :
  IOHandler.mResponseQueue o = None -> (forall q', IOHandler.SetQueue q' ∈ post -> q' = q) ->
  may_come (IOHandler.status o) (IOHandler.SetQueue q :: post) = true -> ioCode s = CReady ->
  let '(o', rs) := IOHandler.on_callbacks this q (IOHandler.SetQueue q :: post) o in
  entry_steps (codes_of this rs) (Some s) = agreed (IOHandler.status o') s.
Proof.
  intros Hq Hpost Hm Hs. destruct o as [body rq hd rsq st]. cbn in Hq. subst rsq.
  set (o1 := IOHandler.Make body rq hd (Some q) st).
  assert (may_come st post = true) as Hm' by (revert Hm; unfold may_come; cbn; by destruct st).
  pose proof (on_callbacks_sync post o1 s eq_refl Hpost Hm') as Hy.
  cbn [IOHandler.on_callbacks IOHandler.on_callback]. unfold IOHandler.setResponseQueue.
  cbn [IOHandler.mRequestBody IOHandler.mRequestQueue IOHandler.mHeaders IOHandler.mStatus].
  fold o1. destruct (IOHandler.on_callbacks this q post o1) as [o' rs]. cbn [fst snd] in Hy.
  rewrite <- Hy. unfold o1, agreed. cbn [IOHandler.status IOHandler.mStatus].
  destruct st; cbn; rewrite ?decide_True, ?codes_of_cons by done; cbn; rewrite ?decide_True by done.
  - destruct s. cbn in Hs. by subst.
  - done.
  - done.
  - done.
Qed.

End agree.

(** C23: The logic handler ends up with the state of the IO handler. Whenever
    the response queue is set, early or late, once the responses have been
    drained the request is in the map exactly if the IO handler has had no
    error and is not complete, and then with its status, [Paused] or [Ready]. *)
Theorem notifications_sync `{Buffers} this q pre post queue r l b m :
  (forall q', IOHandler.SetQueue q' ∉ pre) ->
  (forall q', IOHandler.SetQueue q' ∈ post -> q' = q) ->
  ends_once (pre ++ IOHandler.SetQueue q :: post) = true ->
  m !! this = Some (new_stage r l b) ->
  let '(o, rs) :=
    IOHandler.on_callbacks this q (pre ++ IOHandler.SetQueue q :: post) (IOHandler.construct queue) in
  LogicHandler.drain_responses rs m !! this = agreed (IOHandler.status o) (new_stage r l b).
Proof.
  intros Hpre Hpost He Hm.
  pose proof (ends_once_split this q pre _ (IOHandler.construct queue) Hpre He eq_refl) as Hmay.
  destruct (on_callbacks_before this q pre (IOHandler.construct queue) eq_refl Hpre) as [Hn Hq].
  rewrite on_callbacks_app.
  destruct (IOHandler.on_callbacks this q pre (IOHandler.construct queue)) as [o1 rs1].
  cbn [fst snd] in *. subst rs1.
  pose proof (first_set this q post o1 (new_stage r l b) Hq Hpost Hmay eq_refl) as Hs.
  destruct (IOHandler.on_callbacks this q (IOHandler.SetQueue q :: post) o1) as [o2 rs].
  by rewrite drain_lookup, Hm.
Qed.

(** ** The server *)

Section server.
Context `{Buffers}.

(** No IO handler is ever given a response queue, so no response is ever
    sent; a thread waits for a request only when its map has room. *)
Record server_inv (s : Server.t) : Prop := {
  inv_ios p io : Server.ios s !! p = Some io -> IOHandler.mResponseQueue io = None;
  inv_handlers i h : Server.handlers s !! i = Some h ->
    LogicHandler.mResponseQueue h = [] /\
    Z.of_nat (size (LogicHandler.mRequestMap h)) <= LogicHandler.mMaxRequest /\
    (LogicHandler.thread h = LogicHandler.Wait ->
     Z.of_nat (size (LogicHandler.mRequestMap h)) < LogicHandler.mMaxRequest);
}.

Lemma inv_initial : server_inv Server.initial.
Proof.
  split; [by intros p io|]. intros i h Hh. cbn in Hh.
  assert (h = LogicHandler.start LogicHandler.construct) as ->.
  { by do 4 (destruct i as [|i]; [by injection Hh as <-|]). }
  done.
Qed.

Lemma admit_size r h :
  Z.of_nat (size (LogicHandler.mRequestMap (LogicHandler.admit_request r h))) <=
    Z.of_nat (size (LogicHandler.mRequestMap h)) + 1.
Proof.
  unfold LogicHandler.admit_request. cbn. destruct (_ !! ioHandler r) eqn:E; [lia|].
  rewrite map_size_insert_None by done. lia.
Qed.

(** The entries of a map stay: nothing is removed without a response. *)
Lemma logic_step_inv h queue h' queue' :
  LogicHandler.step h queue h' queue' ->
  LogicHandler.mResponseQueue h = [] ->
  Z.of_nat (size (LogicHandler.mRequestMap h)) <= LogicHandler.mMaxRequest ->
  (LogicHandler.thread h = LogicHandler.Wait ->
   Z.of_nat (size (LogicHandler.mRequestMap h)) < LogicHandler.mMaxRequest) ->
  LogicHandler.mResponseQueue h' = [] /\
  Z.of_nat (size (LogicHandler.mRequestMap h')) <= LogicHandler.mMaxRequest /\
  (LogicHandler.thread h' = LogicHandler.Wait ->
   Z.of_nat (size (LogicHandler.mRequestMap h')) < LogicHandler.mMaxRequest) /\
  (forall p, is_Some (LogicHandler.mRequestMap h !! p) -> is_Some (LogicHandler.mRequestMap h' !! p)) /\
  (queue' = queue \/ LogicHandler.thread h = LogicHandler.Wait).
Proof.
  intros Hs Hq Hle Hw. destruct Hs as [o rq Hp|o rq1 r rq2 Hp|o rq Hp|o rq r rs Hp Hr|o rq Hp Hr|o rq Hp].
  - unfold LogicHandler.loop_test. destruct (LogicHandler.mIsRunning o); cbn.
    + destruct (Z.ltb_spec (Z.of_nat (size (LogicHandler.mRequestMap o))) LogicHandler.mMaxRequest);
        cbn in *; split_and!; (done || (intros; lia) || tauto).
    + cbn in *; split_and!; (done || (intros; lia) || tauto).
  - pose proof (admit_size r o) as Ha. specialize (Hw Hp). cbn [LogicHandler.at_pc LogicHandler.mRequestMap
      LogicHandler.mResponseQueue LogicHandler.thread] in *.
    split; [done|]. split; [lia|]. split; [done|]. split; [|by right].
    intros p Hpm. unfold LogicHandler.admit_request. cbn. destruct (_ !! ioHandler r) eqn:E; [done|].
    rewrite lookup_insert_is_Some'. by right.
  - cbn in *; split_and!; (done || (intros; lia) || tauto).
  - congruence.
  - cbn in *; split_and!; (done || (intros; lia) || tauto).
  - cbn in *; split_and!; (done || (intros; lia) || tauto).
Qed.

Lemma server_step_inv s s' : Server.step s s' -> server_inv s -> server_inv s'.
Proof.
  intros Hs [Hio Hh].
  destruct Hs as [p s Hp|p io hd s Hp|p io body s Hp|p io now s Hp|p io c io' n s Hp Hc E|i h h' q' s Hi Hst|i h s Hi];
    split; cbn; try done.
  - intros q io [[_ <-]|[_ Hq]]%lookup_insert_Some; [done|by eapply Hio].
  - intros q io' [[_ <-]|[_ Hq]]%lookup_insert_Some; [exact (Hio p io Hp)|by eapply Hio].
  - intros q io' [[_ <-]|[_ Hq]]%lookup_insert_Some; [exact (Hio p io Hp)|by eapply Hio].
  - assert (IOHandler.mResponseQueue io' = None) as Hn.
    { specialize (Hio p io Hp). destruct io. cbn in Hio. subst.
      destruct c as [| | | |q']; try (by injection E as <- _). by destruct (Hc q'). }
    intros q io2 [[_ <-]|[_ Hq]]%lookup_insert_Some; [done|by eapply Hio].
  - assert (n = None) as ->; [|done]. specialize (Hio p io Hp). destruct io. cbn in Hio. subst.
    destruct c as [| | | |q']; try (by injection E as _ <-). by destruct (Hc q').
  - intros j h2 [(-> & <- & _)|[_ Hj]]%list_lookup_insert_Some; [|by apply (Hh j)].
    destruct (Hh j h Hi) as (H1' & H2' & H3').
    destruct (logic_step_inv _ _ _ _ Hst H1' H2' H3') as (? & ? & ? & _). done.
  - intros j h2 [(-> & <- & _)|[_ Hj]]%list_lookup_insert_Some; [|by apply (Hh j)].
    apply (Hh j h Hi).
Qed.

Lemma reachable_inv s : Server.reachable s -> server_inv s.
Proof.
  intros Hr. apply (rtc_invariant Server.step server_inv _ _ (fun a b HI Hs => server_step_inv a b Hs HI) Hr).
  apply inv_initial.
Qed.

(** C25: A logic handler holds at most [mMaxRequest] requests, in every state
    the server can reach. *)
Theorem request_map_bounded s i h :
  Server.reachable s -> Server.handlers s !! i = Some h ->
  Z.of_nat (size (LogicHandler.mRequestMap h)) <= LogicHandler.mMaxRequest.
Proof. intros Hr Hh. by apply (inv_handlers s (reachable_inv s Hr) i h). Qed.

Definition full (s : Server.t) : Prop :=
  length (Server.handlers s) = 4%nat /\
  forall i h, Server.handlers s !! i = Some h ->
  Z.of_nat (size (LogicHandler.mRequestMap h)) = LogicHandler.mMaxRequest.

Lemma full_step s s' :
  Server.step s s' -> server_inv s -> full s ->
  full s' /\ exists more, Server.queue s' = Server.queue s ++ more.
Proof.
  intros Hs HI [Hlen Hf]. pose proof (server_step_inv s s' Hs HI) as HI'.
  destruct Hs as [p s Hp|p io hd s Hp|p io body s Hp|p io now s Hp|p io c io' n s Hp Hc E|i h h' q' s Hi Hst|i h s Hi];
    cbn in *; try (split; [done|exists []; by rewrite app_nil_r]).
  - split; [done|by eexists].
  - assert (n = None) as ->.
    { pose proof (inv_ios _ HI p io Hp) as Hn. destruct io. cbn in Hn. subst.
      destruct c as [| | | |q']; try (by injection E as _ <-). by destruct (Hc q'). }
    split; [done|exists []; by rewrite app_nil_r].
  - destruct (inv_handlers _ HI i h Hi) as (H1' & H2' & H3').
    destruct (logic_step_inv _ _ _ _ Hst H1' H2' H3') as (_ & Hle & _ & Hsub & Hq).
    pose proof (Hf i h Hi) as Hsz. split.
    + split; cbn; [by rewrite length_insert|].
      intros j h2 [(-> & <- & _)|[_ Hj]]%list_lookup_insert_Some; [|by apply (Hf j)].
      assert (size (LogicHandler.mRequestMap h) <= size (LogicHandler.mRequestMap h'))%nat; [|lia].
      rewrite <- !size_dom. apply subseteq_size. intros p. rewrite !elem_of_dom. apply Hsub.
    + destruct Hq as [->|Hw]; [exists []; by rewrite app_nil_r|]. specialize (H3' Hw). lia.
  - split; [|exists []; by rewrite app_nil_r]. split; cbn; [by rewrite length_insert|].
    intros j h2 [(-> & <- & _)|[_ Hj]]%list_lookup_insert_Some; [|by apply (Hf j)].
    by apply (Hf j h).
Qed.

(** *** The server can be filled *)

Definition running (m : LogicHandler.RequestMap) : LogicHandler.t := LogicHandler.Make LogicHandler.Loop true [] m.

(** One request from a new IO handler goes into the map of the logic handler [i]. *)
Lemma fill_one ios hs i m :
  hs !! i = Some (running m) -> Z.of_nat (size m) < 128 ->
  exists ios' p s, rtc Server.step (Server.Make ios [] hs) (Server.Make ios' [] (<[i := running (<[p := s]> m)]> hs)) /\
    m !! p = None.
Proof.
  intros Hi Hm.
  set (p := fresh (dom ios ∪ dom m)).
  assert (p ∉ dom ios ∪ dom m) as Hp by apply is_fresh.
  apply not_elem_of_union in Hp as [Hp1%not_elem_of_dom Hp2%not_elem_of_dom].
  set (io := IOHandler.factory_onRequest true). set (r := MkRequest 0 p).
  set (s := new_stage r 100000 100).
  exists (<[p := io]> ios), p, s. split; [|done].
  assert (i < length hs)%nat as Hlen by by eapply lookup_lt_Some.
  eapply rtc_l; [by apply (Server.io_new p)|]. cbn.
  eapply rtc_l; [apply (Server.io_eom p io 0); apply lookup_insert_eq|]. cbn.
  eapply rtc_l; [eapply (Server.logic_step i (running m) (LogicHandler.at_pc LogicHandler.Wait (running m)) [r])|].
  { done. }
  { replace (LogicHandler.at_pc LogicHandler.Wait (running m)) with (LogicHandler.loop_test (running m)).
    - by constructor.
    - unfold LogicHandler.loop_test. cbn. by rewrite (proj2 (Z.ltb_lt _ _)). }
  cbn. eapply rtc_l; [eapply (Server.logic_step i (LogicHandler.at_pc LogicHandler.Wait (running m)));
    [by apply list_lookup_insert_eq|by apply (LogicHandler.step_dequeue _ [] r [])]|]. cbn.
  rewrite list_insert_insert_eq.
  assert (LogicHandler.admit_request r (LogicHandler.at_pc LogicHandler.Wait (running m)) =
    LogicHandler.at_pc LogicHandler.Wait (running (<[p := s]> m))) as ->.
  { unfold LogicHandler.admit_request. cbn. by rewrite Hp2. }
  eapply rtc_l; [eapply (Server.logic_step i); [by apply list_lookup_insert_eq|by apply LogicHandler.step_drained]|].
  cbn. rewrite list_insert_insert_eq.
  eapply rtc_l; [eapply (Server.logic_step i); [by apply list_lookup_insert_eq|by apply LogicHandler.step_process]|].
  cbn. rewrite list_insert_insert_eq. apply rtc_refl.
Qed.

Lemma fill_up k ios hs i m :
  hs !! i = Some (running m) -> Z.of_nat (size m + k) <= 128 ->
  exists ios' m', rtc Server.step (Server.Make ios [] hs) (Server.Make ios' [] (<[i := running m']> hs)) /\
    size m' = (size m + k)%nat.
Proof.
  revert ios hs m. induction k as [|k IH]; intros ios hs m Hi Hm.
  - exists ios, m. rewrite list_insert_id by done. split; [apply rtc_refl|lia].
  - destruct (fill_one ios hs i m Hi) as (ios1 & p & s & H1' & Hp); [lia|].
    assert (i < length hs)%nat as Hlen by by eapply lookup_lt_Some.
    destruct (IH ios1 (<[i := running (<[p := s]> m)]> hs) (<[p := s]> m)) as (ios2 & m' & H2' & Hsz).
    + by apply list_lookup_insert_eq.
    + rewrite map_size_insert_None by done. lia.
    + exists ios2, m'. rewrite list_insert_insert_eq in H2'. split; [by etrans|].
      rewrite Hsz, map_size_insert_None by done. lia.
Qed.

Lemma full_reachable : exists s, Server.reachable s /\ full s.
Proof.
  change Server.initial with (Server.Make ∅ [] [running ∅; running ∅; running ∅; running ∅]).
  unfold Server.reachable.
  destruct (fill_up 128 ∅ [running ∅; running ∅; running ∅; running ∅] 0 ∅) as (ios1 & m1 & H1' & S1);
    [done|by rewrite map_size_empty|].
  destruct (fill_up 128 ios1 [running m1; running ∅; running ∅; running ∅] 1 ∅) as (ios2 & m2 & H2' & S2);
    [done|by rewrite map_size_empty|].
  destruct (fill_up 128 ios2 [running m1; running m2; running ∅; running ∅] 2 ∅) as (ios3 & m3 & H3' & S3);
    [done|by rewrite map_size_empty|].
  destruct (fill_up 128 ios3 [running m1; running m2; running m3; running ∅] 3 ∅) as (ios4 & m4 & H4' & S4);
    [done|by rewrite map_size_empty|].
  eexists. split; [do 3 (etrans; [eassumption|]); eassumption|].
  rewrite map_size_empty in S1, S2, S3, S4. split; [done|].
  intros i h Hh. change (LogicHandler.mMaxRequest) with 128. cbn in Hh.
  do 4 (destruct i as [|i]; [injection Hh as <-; cbn; lia|]). done.
Qed.

(** C22: The server stops serving after 512 requests. A state can be reached in
    which each of the four logic handlers holds [mMaxRequest] requests, and
    from such a state on, whatever clients and threads do, no request is ever
    taken from the request queue again: requests leave a map only by responses,
    and no IO handler is ever given a response queue to send them to. *)
Theorem server_stalls :
  (exists s, Server.reachable s /\ full s) /\
  forall s s', Server.reachable s -> full s -> rtc Server.step s s' ->
    full s' /\ exists more, Server.queue s' = Server.queue s ++ more.
Proof.
  split; [apply full_reachable|]. intros s s' Hr Hf Hs.
  pose proof (reachable_inv s Hr) as HI. clear Hr.
  induction Hs as [s|s s1 s' Hst Hs IH]; [split; [done|exists []; by rewrite app_nil_r]|].
  destruct (full_step s s1 Hst HI Hf) as [Hf1 [l1 E1]].
  destruct (IH Hf1 (server_step_inv s s1 Hst HI)) as [Hf' [l2 E2]].
  split; [done|]. exists (l1 ++ l2). by rewrite E2, E1, app_assoc.
Qed.

(** The body of a request is kept whole and in order: after [onBody] has
    been called for each chunk, the buffer chain holds their bytes, one after
    the other. *)
Theorem body_accumulates `{!BuffersLaws} chunk chunks (o : IOHandler.t) :
  IOHandler.mRequestBody o = None ->
  exists b, IOHandler.requestBody (foldl (fun o c => IOHandler.onBody c o) o (chunk :: chunks)) = Some b /\
    contents b = mjoin (contents <$> chunk :: chunks).
Proof.
  intros Ho. cbn [foldl].
  assert (exists b, IOHandler.requestBody (IOHandler.onBody chunk o) = Some b /\ contents b = contents chunk)
    as (b & Hb & Hc).
  { unfold IOHandler.onBody. rewrite Ho. by exists chunk. }
  rewrite fmap_cons. change (mjoin (contents chunk :: (contents <$> chunks)))
    with (contents chunk ++ mjoin (contents <$> chunks)).
  rewrite <- Hc. clear Hc Ho. revert b Hb. generalize (IOHandler.onBody chunk o). clear o.
  induction chunks as [|c chunks IH]; intros o b Hb; cbn [foldl].
  - exists b. split; [done|]. cbn. by rewrite app_nil_r.
  - destruct (IH (IOHandler.onBody c o) (prependChain b c)) as (b' & Hb' & Hc').
    + unfold IOHandler.requestBody, IOHandler.onBody in *. by rewrite Hb.
    + exists b'. split; [done|]. rewrite Hc', contents_prependChain, <- app_assoc. done.
Qed.

End server.

(** ** Stopping a logic handler *)

(** The steps a thread that has been told to stop can still take, if no more
    responses come in. *)
Definition steps_left (o : LogicHandler.t) : nat :=
  match LogicHandler.thread o with
  | LogicHandler.Not_started | LogicHandler.Exited => 0
  | LogicHandler.Loop => 1
  | LogicHandler.Process => 2
  | LogicHandler.Drain => 3 + length (LogicHandler.mResponseQueue o)
  | LogicHandler.Wait => 4 + length (LogicHandler.mResponseQueue o)
  end.

(** C40: [stop] ends the thread. Once [stop] has cleared the flag of a started
    logic handler, the thread always has a step to take until it has exited,
    each step brings it closer to the end of its loop, and it takes at most one
    more request. *)
Theorem stop_exits o rq :
  LogicHandler.thread o <> LogicHandler.Not_started ->
  let o := LogicHandler.stop o in
  (LogicHandler.thread o <> LogicHandler.Exited -> exists o' rq', LogicHandler.step o rq o' rq') /\
  forall o' rq', LogicHandler.step o rq o' rq' ->
    (steps_left o' < steps_left o)%nat /\
    (LogicHandler.thread o' = LogicHandler.Exited \/
     o' = LogicHandler.stop o' /\ LogicHandler.thread o' <> LogicHandler.Not_started).
Proof.
  intros Hn. destruct o as [th run resp m]. cbn in Hn. cbn. split.
  - intros He. destruct th; try done.
    + by eexists _, _; apply LogicHandler.step_loop.
    + by eexists _, _; apply LogicHandler.step_timeout.
    + destruct resp; [by eexists _, _; apply LogicHandler.step_drained|].
      by eexists _, _; apply LogicHandler.step_response.
    + by eexists _, _; apply LogicHandler.step_process.
  - intros o' rq' Hs. inversion Hs; subst; cbn in *; subst; cbn.
    all: split; [lia|]; (by left) || (by right).
Qed.

(** ** Buffers as lists of bytes *)

#[local] Instance byte_buffers : Buffers :=
  {| IOBuf := list Byte.byte; HTTPMessage := unit; prependChain := app |}.
#[local] Instance byte_buffers_laws : BuffersLaws :=
  {| contents := fun b => b; contents_prependChain := fun a b => eq_refl |}.

Lemma notifications_sync_witness :
  exists o rs, IOHandler.on_callbacks 7 0 [IOHandler.Paused; IOHandler.SetQueue 0; IOHandler.Resumed;
      IOHandler.Paused] (IOHandler.construct true) = (o, rs) /\ length rs = 3%nat /\
    LogicHandler.drain_responses rs {[7 := new_stage (MkRequest 0 7) 100000 100]} !! 7 =
      agreed CPaused (new_stage (MkRequest 0 7) 100000 100).
Proof.
  pose proof (notifications_sync 7 0 [IOHandler.Paused] [IOHandler.Resumed; IOHandler.Paused] true
    (MkRequest 0 7) 100000 100 {[7 := new_stage (MkRequest 0 7) 100000 100]}) as Hs.
  eexists _, _. split; [reflexivity|]. split; [reflexivity|]. apply Hs.
  - intros q' Hq. apply list_elem_of_singleton in Hq. discriminate Hq.
  - intros q' Hq. apply elem_of_cons in Hq as [Hq|Hq]; [discriminate Hq|].
    apply list_elem_of_singleton in Hq. discriminate Hq.
  - reflexivity.
  - reflexivity.
Defined.

Lemma request_map_bounded_witness :
  Server.reachable Server.initial /\
  Z.of_nat (size (LogicHandler.mRequestMap (LogicHandler.start LogicHandler.construct))) <= 128.
Proof.
  assert (Server.reachable Server.initial) as Hr by apply rtc_refl.
  split; [exact Hr|]. apply (request_map_bounded Server.initial 0 _ Hr). reflexivity.
Defined.

Lemma server_stalls_witness :
  exists s, Server.reachable s /\ full s /\
    forall s', rtc Server.step s s' -> exists more, Server.queue s' = Server.queue s ++ more.
Proof.
  destruct server_stalls as [(s & Hr & Hf) Hstall]. exists s. split; [exact Hr|]. split; [exact Hf|].
  intros s' Hs. exact (proj2 (Hstall s s' Hr Hf Hs)).
Defined.

Lemma body_accumulates_witness :
  exists b, IOHandler.requestBody (foldl (fun o c => IOHandler.onBody c o) (IOHandler.construct true)
      [[Byte.x01]; [Byte.x02; Byte.x03]]) = Some b /\ b = [Byte.x01; Byte.x02; Byte.x03].
Proof. apply (@body_accumulates byte_buffers byte_buffers_laws [Byte.x01] [[Byte.x02; Byte.x03]] (IOHandler.construct true)). reflexivity. Defined.

Lemma stop_exits_witness :
  let o := LogicHandler.stop (LogicHandler.start LogicHandler.construct) in
  exists o' rq', LogicHandler.step o [] o' rq' /\ (steps_left o' < steps_left o)%nat.
Proof.
  destruct (stop_exits (LogicHandler.start LogicHandler.construct) []) as [Hstep Hless]; [discriminate|].
  destruct Hstep as (o' & rq' & Hs); [discriminate|].
  exists o', rq'. split; [exact Hs|exact (proj1 (Hless o' rq' Hs))].
Defined.
