(* ===== verification/QueueUtils.v ===== *)
(** * The arithmetic of the lock-free queues (utils/concurrentqueue.h, the
    namespace [details], and utils/readerwriterqueue.h)

    Unsigned integers of [w] bits are integers in [[0, 2^w)]. *)
From S2P Require Import Prelude.
#[local] Open Scope Z_scope.

Definition const_numeric_max (w : Z) : Z := wrap w (-1).

(** The finalizers of MurmurHash3, for 32-bit and for 64-bit thread ids. *)
Definition hash32 (h : Z) : Z :=
  let h := h .^ (h ≫ 16) in
  let h := u32 (h * 0x85ebca6b) in
  let h := h .^ (h ≫ 13) in
  let h := u32 (h * 0xc2b2ae35) in
  h .^ (h ≫ 16).
Definition hash64 (h : Z) : Z :=
  let h := h .^ (h ≫ 33) in
  let h := u64 (h * 0xff51afd7ed558ccd) in
  let h := h .^ (h ≫ 33) in
  let h := u64 (h * 0xc4ceb9fe1a85ec53) in
  h .^ (h ≫ 33).
(** [size] is that of a thread id in bytes. *)
Definition hash_thread_id (size id : Z) : Z := if 4 <? size then hash64 id else hash32 id.

Definition circular_less_than (w a b : Z) : bool := wrap w (2 ^ (w - 1)) <? wrap w (a - b).

(** The loop over the bytes of an integer of [size] bytes. *)
Fixpoint smear_bytes (fuel : nat) (size i x : Z) : Z :=
  match fuel with
  | O => x
  | S fuel => if i <? size then smear_bytes fuel size (i ≪ 1) (x .| (x ≫ (i ≪ 3))) else x
  end.
Definition ceil_to_pow_2 (w x : Z) : Z :=
  let x := wrap w (x - 1) in
  let x := x .| (x ≫ 1) in
  let x := x .| (x ≫ 2) in
  let x := x .| (x ≫ 4) in
  wrap w (smear_bytes 4 (w / 8) 1 x + 1).
(** The same function of [ReaderWriterQueue], on [size_t]. *)
Definition ceilToPow2 (x : Z) : Z := ceil_to_pow_2 64 x.

(** Both headers' [align_for]: the first address from [ptr] on that is a
    multiple of [alignment]. *)
Definition align_for (alignment ptr : Z) : Z :=
  ptr + (alignment - ptr `mod` alignment) `mod` alignment.

(** ** Rounding up to a power of two *)

(** [y] has a bit where [x] has one at most [k - 1] places above. *)
Definition smeared (k x y : Z) : Prop :=
  forall i, 0 <= i -> Z.testbit y i = true <-> exists j, 0 <= j < k /\ Z.testbit x (i + j) = true.

Lemma smeared_1 x : smeared 1 x x.
Proof.
  intros i Hi. split.
  - intros Hb. exists 0. rewrite Z.add_0_r. split; [lia|done].
  - intros (j & Hj & Hb). by replace (i + j) with i in Hb by lia.
Qed.

Lemma smeared_double k x y : 0 < k -> smeared k x y -> smeared (2 * k) x (y .| (y ≫ k)).
Proof.
  intros Hk Hs i Hi. rewrite Z.lor_spec, Z.shiftr_spec, orb_true_iff by lia.
  rewrite (Hs i), (Hs (i + k)) by lia. split.
  - intros [(j & Hj & Hb)|(j & Hj & Hb)]; [exists j; split; [lia|done]|].
    exists (k + j). rewrite Z.add_assoc. split; [lia|done].
  - intros (j & Hj & Hb). destruct (Z.lt_ge_cases j k).
    + left. exists j. split; [lia|done].
    + right. exists (j - k). replace (i + k + (j - k)) with (i + j) by lia. split; [lia|done].
Qed.

Lemma smeared_ones k x y : 0 < x < 2 ^ k -> smeared k x y -> 0 <= y -> y = Z.ones (Z.log2 x + 1).
Proof.
  intros Hx Hs Hy. pose proof (Z.log2_nonneg x) as Hl.
  assert (Z.log2 x < k) as Hlk by (apply Z.log2_lt_pow2; lia).
  apply Z.bits_inj'. intros i Hi. apply eq_true_iff_eq. rewrite (Hs i Hi), testbit_ones by lia.
  split.
  - intros (j & Hj & Hb). destruct (Z.lt_ge_cases (Z.log2 x) (i + j)) as [Hlt|Hge]; [|lia].
    rewrite Z.bits_above_log2 in Hb by lia. done.
  - intros Hlt. exists (Z.log2 x - i). split; [lia|].
    replace (i + (Z.log2 x - i)) with (Z.log2 x) by lia. apply Z.bit_log2. lia.
Qed.

(** The doubling steps reach as far as the word is wide. *)
Lemma smear_total w x :
  w = 32 \/ w = 64 -> 0 <= x ->
  let y := x .| (x ≫ 1) in let y := y .| (y ≫ 2) in let y := y .| (y ≫ 4) in
  smeared w x (smear_bytes 4 (w / 8) 1 y).
Proof.
  intros Hw Hx. cbv zeta.
  pose proof (smeared_double 1 _ _ ltac:(lia) (smeared_1 x)) as H1.
  apply (smeared_double 2) in H1; [|lia]. apply (smeared_double 4) in H1; [|lia].
  apply (smeared_double 8) in H1; [|lia]. apply (smeared_double 16) in H1; [|lia].
  destruct Hw as [->| ->]; [exact H1|].
  apply (smeared_double 32) in H1; [|lia]. exact H1.
Qed.

Lemma smear_bytes_nonneg fuel size i x : 0 <= x -> 0 <= smear_bytes fuel size i x.
Proof.
  revert i x. induction fuel as [|fuel IH]; intros i x Hx; cbn; [done|].
  destruct (i <? size); [|done]. apply IH, Z.lor_nonneg. split; [done|]. by apply Z.shiftr_nonneg.
Qed.

Lemma smear_step_nonneg x k : 0 <= x -> 0 <= x .| (x ≫ k).
Proof. intros Hx. apply Z.lor_nonneg. split; [done|]. by apply Z.shiftr_nonneg. Qed.

(** Rounding up: the bits below the highest one of [x - 1] are set. *)
Lemma ceil_to_pow_2_pos w x :
  w = 32 \/ w = 64 -> in_width w x -> 0 < x -> ceil_to_pow_2 w x = wrap w (2 ^ Z.log2_up x).
Proof.
  intros Hw Hx Hpos. unfold ceil_to_pow_2. rewrite (wrap_small w (x - 1)) by (unfold in_width in *; lia).
  destruct (decide (x = 1)) as [->|Hx1]; [by destruct Hw as [->| ->]|].
  pose proof (smear_total w (x - 1) Hw ltac:(lia)) as Hs. cbv zeta in Hs.
  apply smeared_ones in Hs;
    [|unfold in_width in Hx; lia|apply smear_bytes_nonneg; repeat apply smear_step_nonneg; lia].
  rewrite Hs, Z.ones_equiv. f_equal.
  replace (Z.log2_up x) with (Z.log2 (x - 1) + 1); [lia|].
  unfold Z.log2_up. rewrite (proj2 (Z.compare_lt_iff 1 x)), Z.sub_1_r by lia. lia.
Qed.

Lemma log2_up_width w x : 0 < w -> in_width w x -> 0 <= Z.log2_up x <= w.
Proof.
  intros Hw Hx. split; [apply Z.log2_up_nonneg|].
  rewrite <- (Z.log2_up_pow2 w) by lia. apply Z.log2_up_le_mono. unfold in_width in Hx. lia.
Qed.

(** rounding up to a power of two gives 0 for 0 and beyond the highest
    power of two of the type, and the least power of two that is at least the
    argument otherwise. *)
Theorem ceil_to_pow_2_spec w x :
  w = 32 \/ w = 64 -> in_width w x ->
  let y := ceil_to_pow_2 w x in
  (y = 0 <-> x = 0 \/ 2 ^ (w - 1) < x) /\
  (y <> 0 -> exists k, 0 <= k < w /\ y = 2 ^ k /\ x <= y /\ forall j, 0 <= j -> x <= 2 ^ j -> k <= j).
Proof.
  intros Hw Hx y. subst y. assert (0 < w) as Hw0 by lia.
  destruct (decide (x = 0)) as [->|Hx0].
  { assert (ceil_to_pow_2 w 0 = 0) as -> by (by destruct Hw as [->| ->]).
    split; [split; [by left|done]|done]. }
  assert (0 < x) as Hpos by (unfold in_width in Hx; lia).
  rewrite (ceil_to_pow_2_pos w x Hw Hx Hpos). pose proof (log2_up_width w x Hw0 Hx) as Hl.
  destruct (decide (Z.log2_up x = w)) as [E|Hne].
  - rewrite E. unfold wrap at 1 2 3 4. rewrite Z.mod_same by lia.
    split; [|done]. split; [intros _; right|done].
    apply Z.log2_up_lt_pow2; lia.
  - assert (Z.log2_up x < w) as Hlt by lia.
    rewrite wrap_small by (split; [lia|apply Z.pow_lt_mono_r; lia]).
    pose proof (Z.log2_up_le_pow2 x (Z.log2_up x) Hpos) as Hle.
    assert (x <= 2 ^ Z.log2_up x) as Hup by (apply Hle; lia).
    split.
    + split; [lia|]. intros [|Hbig]; [done|]. exfalso.
      pose proof (Z.pow_le_mono_r 2 (Z.log2_up x) (w - 1)). lia.
    + intros _. exists (Z.log2_up x). repeat split; [lia|lia|done|].
      intros j Hj Hxj. by apply Z.log2_up_le_pow2.
Qed.
Lemma ceil_to_pow_2_spec_witness :
  ceil_to_pow_2 64 100 = 128 /\ exists k, 0 <= k < 64 /\ ceil_to_pow_2 64 100 = 2 ^ k.
Proof.
  split; [done|].
  destruct (ceil_to_pow_2_spec 64 100) as [_ (k & Hk & E & _)]; [by right|done|done|].
  by exists k.
Defined.

(** ** The order of indices that wrap around *)

Lemma circular_less_than_near w a b :
  2 <= w -> Z.abs (a - b) < 2 ^ (w - 1) ->
  circular_less_than w (wrap w a) (wrap w b) = (a <? b).
Proof.
  intros Hw Hab. unfold circular_less_than. rewrite wrap_sub_l, wrap_sub_r.
  assert (2 ^ w = 2 * 2 ^ (w - 1)) as E by (rewrite <- Z.pow_succ_r by lia; f_equal; lia).
  rewrite (wrap_small w (2 ^ (w - 1))) by (unfold in_width; lia).
  destruct (Z.ltb_spec a b) as [Hlt|Hge].
  - replace (wrap w (a - b)) with (a - b + 2 ^ w); [apply Z.ltb_lt; lia|].
    rewrite <- (wrap_period w (a - b) 1), Z.mul_1_l. symmetry. apply wrap_small. unfold in_width. lia.
  - rewrite wrap_small by (unfold in_width; lia). apply Z.ltb_ge. lia.
Qed.

(** within half of the range of the type, comparing wrapped indices is
    comparing the indices: the comparison survives the wrap-around, and is
    irreflexive and asymmetric there. *)
Theorem circular_less_than_spec w a b :
  2 <= w -> Z.abs (a - b) < 2 ^ (w - 1) ->
  circular_less_than w (wrap w a) (wrap w b) = (a <? b) /\
  (circular_less_than w (wrap w a) (wrap w b) = true ->
   circular_less_than w (wrap w b) (wrap w a) = false).
Proof.
  intros Hw Hab. rewrite !circular_less_than_near by lia. split; [done|].
  intros Hlt%Z.ltb_lt. apply Z.ltb_ge. lia.
Qed.

Lemma circular_less_than_spec_witness :
  circular_less_than 64 (wrap 64 (2 ^ 64 - 1)) (wrap 64 (2 ^ 64 + 3)) = true.
Proof. by rewrite (proj1 (circular_less_than_spec 64 (2 ^ 64 - 1) (2 ^ 64 + 3) ltac:(done) ltac:(done))). Defined.

(** ** The hash of thread ids *)

Lemma xorshift_twice s h : 0 <= s -> (h .^ (h ≫ s)) .^ ((h .^ (h ≫ s)) ≫ s) = h .^ (h ≫ (2 * s)).
Proof.
  intros Hs. bitwise. replace (i + s + s) with (i + 2 * s) by lia. btauto.
Qed.

(** Shifting twice as far, an xor-shift ends by changing nothing. *)
Lemma xorshift_inj n s w h h' :
  0 <= s -> w <= 2 ^ Z.of_nat n * s -> in_width w h -> in_width w h' -> 0 <= w ->
  h .^ (h ≫ s) = h' .^ (h' ≫ s) -> h = h'.
Proof.
  revert s. induction n as [|n IH]; intros s Hs Hn Hh Hh' Hw E.
  - assert (forall x, in_width w x -> x ≫ s = 0) as Z0.
    { intros x Hx. rewrite Z.shiftr_div_pow2 by lia. apply Z.div_small. unfold in_width in Hx.
      pose proof (Z.pow_le_mono_r 2 w s). lia. }
    by rewrite !Z0, !Z.lxor_0_r in E.
  - apply (IH (2 * s)); try done; [lia| |].
    + rewrite Nat2Z.inj_succ, Z.pow_succ_r in Hn by lia. lia.
    + rewrite <- !xorshift_twice by done. by rewrite E.
Qed.

Lemma xorshift_width w s h : 0 <= w -> 0 <= s -> in_width w h -> in_width w (h .^ (h ≫ s)).
Proof.
  intros Hw Hs Hh. apply in_width_wrap; [done|]. rewrite <- (wrap_small w h) by done. bitwise.
Qed.

Lemma mul_wrap_inj w c d h h' :
  wrap w (c * d) = wrap w 1 -> in_width w h -> in_width w h' ->
  wrap w (h * c) = wrap w (h' * c) -> h = h'.
Proof.
  intros Hcd Hh Hh' E.
  assert (forall x, in_width w x -> wrap w (wrap w (x * c) * d) = x) as Inv.
  { intros x Hx. unfold wrap in *. rewrite Zmult_mod_idemp_l, <- Z.mul_assoc, <- Zmult_mod_idemp_r, Hcd.
    rewrite Zmult_mod_idemp_r, Z.mul_1_r. by apply wrap_small. }
  by rewrite <- (Inv h), <- (Inv h'), E.
Qed.

Lemma hash32_inj h h' : in_width 32 h -> in_width 32 h' -> hash32 h = hash32 h' -> h = h'.
Proof.
  intros Hh Hh' E. unfold hash32 in E. cbv zeta in E.
  apply (xorshift_inj 1 16 32) in E; try apply wrap_range; try lia.
  apply (mul_wrap_inj 32 _ 0x7ed1b41d) in E; [|done|apply xorshift_width, wrap_range; lia..].
  apply (xorshift_inj 2 13 32) in E; try apply wrap_range; try lia.
  apply (mul_wrap_inj 32 _ 0xa5cb9243) in E; [|done|by apply xorshift_width..].
  by apply (xorshift_inj 1 16 32) in E.
Qed.

Lemma hash64_inj h h' : in_width 64 h -> in_width 64 h' -> hash64 h = hash64 h' -> h = h'.
Proof.
  intros Hh Hh' E. unfold hash64 in E. cbv zeta in E.
  apply (xorshift_inj 1 33 64) in E; try apply wrap_range; try lia.
  apply (mul_wrap_inj 64 _ 0x9cb4b2f8129337db) in E; [|done|apply xorshift_width, wrap_range; lia..].
  apply (xorshift_inj 1 33 64) in E; try apply wrap_range; try lia.
  apply (mul_wrap_inj 64 _ 0x4f74430c22a54005) in E; [|done|by apply xorshift_width..].
  by apply (xorshift_inj 1 33 64) in E.
Qed.

(** the hash keeps thread ids of up to eight bytes apart. *)
Theorem hash_thread_id_injective size id id' :
  0 < size <= 8 -> in_width (8 * size) id -> in_width (8 * size) id' ->
  hash_thread_id size id = hash_thread_id size id' -> id = id'.
Proof.
  intros Hs Hid Hid'. unfold hash_thread_id. destruct (Z.ltb_spec 4 size).
  - apply hash64_inj; (eapply in_width_le; [|eassumption]); lia.
  - apply hash32_inj; (eapply in_width_le; [|eassumption]); lia.
Qed.

Lemma hash_thread_id_injective_witness :
  hash_thread_id 8 1 <> hash_thread_id 8 2.
Proof. intros E. by specialize (hash_thread_id_injective 8 1 2 ltac:(done) ltac:(done) ltac:(done) E). Defined.

(** ** Alignment *)

Lemma align_for_spec alignment ptr :
  0 < alignment ->
  (alignment | align_for alignment ptr) /\ ptr <= align_for alignment ptr < ptr + alignment.
Proof.
  intros Ha. unfold align_for. pose proof (Z.mod_pos_bound ptr alignment Ha) as Hm.
  split.
  - apply Z.mod_divide; [lia|]. rewrite Zplus_mod_idemp_r.
    replace (ptr + (alignment - ptr `mod` alignment))
      with ((ptr / alignment + 1) * alignment) by (pose proof (Z.div_mod ptr alignment); lia).
    apply Z.mod_mul. lia.
  - pose proof (Z.mod_pos_bound (alignment - ptr `mod` alignment) alignment Ha). lia.
Qed.
