(* ===== verification/ReaderWriterQueue.v ===== *)
(** * The single-producer single-consumer queue (utils/readerwriterqueue.h)

    The class [ReaderWriterQueue] as its own thread sees it: a ring of circular
    buffers, each allocated with [malloc], which is a parameter. A block is
    named by the number of its allocation; an operation is a function on the
    store of the blocks and the fields of the queue that is undefined ([None])
    where the code would follow a null or dangling pointer, read a slot that
    holds no element, or fail an assertion. A read of an atomic variable is a
    read of the store; ReaderWriterThreads.v has the two threads side by side.
    [BlockingReaderWriterQueue] adds the semaphore of
    atomicops.h, which is not in the repository: it is the class [SpscSema]. *)
From S2P Require Import Prelude QueueUtils.
#[local] Open Scope Z_scope.

Module ReaderWriterQueue.
Section Queue.
Context {T : Type}.
(** [sizeof] and alignment of [T] and of [Block], the template's parameter,
    and [malloc]: the address it returns at its [n]-th call, if any. *)
Context (sizeT alignT sizeB alignB MAX_BLOCK_SIZE : Z).
Context (malloc : nat -> Z -> option Z).

(** ** Data *)

Record Block := mkBlock {
  front : Z;
  localTail : Z;
  tail : Z;
  localFront : Z;
  next : option nat;
  data : gmap Z T;      (* the elements that live in the slots *)
  dataAt : Z;           (* the address of the slots *)
  sizeMask : Z;
  rawThis : Z }.

Record t := mk {
  blocks : gmap nat Block;
  mallocs : nat;        (* the calls of malloc so far *)
  frontBlock : nat;
  tailBlock : nat;
  largestBlockSize : Z }.

(** The [Block] constructor. *)
Definition new_Block (size raw dat : Z) : Block :=
  mkBlock 0 0 0 0 None ∅ dat (u64 (size - 1)) raw.

Definition set_front v b :=
  mkBlock v (localTail b) (tail b) (localFront b) (next b) (data b) (dataAt b) (sizeMask b) (rawThis b).
Definition set_localTail v b :=
  mkBlock (front b) v (tail b) (localFront b) (next b) (data b) (dataAt b) (sizeMask b) (rawThis b).
Definition set_tail v b :=
  mkBlock (front b) (localTail b) v (localFront b) (next b) (data b) (dataAt b) (sizeMask b) (rawThis b).
Definition set_localFront v b :=
  mkBlock (front b) (localTail b) (tail b) v (next b) (data b) (dataAt b) (sizeMask b) (rawThis b).
Definition set_next v b :=
  mkBlock (front b) (localTail b) (tail b) (localFront b) v (data b) (dataAt b) (sizeMask b) (rawThis b).
(** Placement new in a slot, and the destructor of its element. *)
Definition put i x b :=
  mkBlock (front b) (localTail b) (tail b) (localFront b) (next b) (<[i := x]> (data b)) (dataAt b)
    (sizeMask b) (rawThis b).
Definition destroy i b :=
  mkBlock (front b) (localTail b) (tail b) (localFront b) (next b) (delete i (data b)) (dataAt b)
    (sizeMask b) (rawThis b).

(** ** Commands *)

Definition M (A : Type) : Type := t -> option (A * t).
#[local] Instance M_ret : MRet M := fun A a q => Some (a, q).
#[local] Instance M_bind : MBind M := fun A B f m q =>
  match m q with Some (a, q) => f a q | None => None end.
Definition gets {A} (f : t -> A) : M A := fun q => Some (f q, q).
Definition undefined {A} : M A := fun _ => None.
Definition assert_that (b : bool) : M unit := if b then mret tt else undefined.
Definition the {A} (o : option A) : M A := match o with Some a => mret a | None => undefined end.
Definition load (p : nat) : M Block := fun q =>
  match blocks q !! p with Some b => Some (b, q) | None => None end.
Definition set_blocks m q := mk m (mallocs q) (frontBlock q) (tailBlock q) (largestBlockSize q).
Definition store (p : nat) (f : Block -> Block) : M unit := fun q =>
  match blocks q !! p with Some b => Some (tt, set_blocks (<[p := f b]> (blocks q)) q) | None => None end.
Definition store_frontBlock (p : nat) : M unit := fun q =>
  Some (tt, mk (blocks q) (mallocs q) p (tailBlock q) (largestBlockSize q)).
Definition store_tailBlock (p : nat) : M unit := fun q =>
  Some (tt, mk (blocks q) (mallocs q) (frontBlock q) p (largestBlockSize q)).
Definition store_largest (n : Z) : M unit := fun q =>
  Some (tt, mk (blocks q) (mallocs q) (frontBlock q) (tailBlock q) n).

(** ** Blocks *)

Definition block_bytes (capacity : Z) : Z :=
  u64 (u64 (sizeB + alignB - 1) + (u64 (sizeT * capacity) + alignT - 1)).

Definition make_block (capacity : Z) : M (option nat) := fun q =>
  let n := mallocs q in
  let q := mk (blocks q) (S n) (frontBlock q) (tailBlock q) (largestBlockSize q) in
  match malloc n (block_bytes capacity) with
  | None => Some (None, q)
  | Some newBlockRaw =>
      let newBlockAligned := align_for alignB newBlockRaw in
      let newBlockData := align_for alignT (newBlockAligned + sizeB) in
      let b := new_Block capacity newBlockRaw newBlockData in
      Some (Some n, set_blocks (<[n := b]> (blocks q)) q)
  end.

(** The next index in a block. *)
Definition incr (b : Block) (i : Z) : Z := u64 (i + 1) .& sizeMask b.

(** ** Construction and destruction *)

(** The loop that allocates the first blocks. [false] is [bad_alloc]. *)
Fixpoint make_ring (count : nat) (firstBlock lastBlock : option nat) : M (option (option nat)) :=
  match count with
  | O => mret (Some firstBlock)
  | S count =>
      block ← make_block MAX_BLOCK_SIZE;
      match block with
      | None => mret None
      | Some block =>
          firstBlock ← match firstBlock with
                       | None => mret block
                       | Some firstBlock =>
                           lastBlock ← the lastBlock;
                           _ ← store lastBlock (set_next (Some block));
                           mret firstBlock
                       end;
          _ ← store block (set_next (Some firstBlock));
          make_ring count (Some firstBlock) (Some block)
      end
  end.

Definition construct (maxSize : Z) : M bool :=
  _ ← assert_that (0 <? maxSize);
  _ ← assert_that (MAX_BLOCK_SIZE =? ceilToPow2 MAX_BLOCK_SIZE);
  _ ← assert_that (2 <=? MAX_BLOCK_SIZE);
  let largest := ceilToPow2 (u64 (maxSize + 1)) in
  firstBlock ←
    (if u64 (MAX_BLOCK_SIZE * 2) <? largest then
       let initialBlockCount :=
         u64 (u64 (maxSize + u64 (MAX_BLOCK_SIZE * 2)) - 3) / (MAX_BLOCK_SIZE - 1) in
       _ ← store_largest MAX_BLOCK_SIZE;
       first ← make_ring (Z.to_nat initialBlockCount) None None;
       match first with Some p => p ← the p; mret (Some p) | None => mret None end
     else
       _ ← store_largest largest;
       firstBlock ← make_block largest;
       match firstBlock with
       | None => mret None
       | Some p => _ ← store p (set_next (Some p)); mret (Some p)
       end);
  match firstBlock with
  | None => mret false
  | Some p => _ ← store_frontBlock p; _ ← store_tailBlock p; mret true
  end.

(** Before the constructor runs: no block. [n] is the calls of [malloc] the
    program has made before. *)
Definition unconstructed (n : nat) : t := mk ∅ n 0 0 0.

(** The loop over the elements of a block, and the elements it destroys. *)
Fixpoint destroy_slots (fuel : nat) (p : nat) (i blockTail : Z) : M (list T) :=
  match fuel with
  | O => undefined
  | S fuel =>
      if i =? blockTail then mret []
      else
        b ← load p;
        x ← the (data b !! i);
        _ ← store p (destroy i);
        xs ← destroy_slots fuel p (incr b i) blockTail;
        mret (x :: xs)
  end.

(** The end of a block: its destructor, and [free] of its memory. *)
Definition free_block (p : nat) : M unit := fun q =>
  match blocks q !! p with Some _ => Some (tt, set_blocks (delete p (blocks q)) q) | None => None end.

(** The loop over the blocks: the elements destroyed, in order, and the
    addresses given to [free]. *)
Fixpoint destroy_blocks (fuel : nat) (block frontBlock_ : nat) : M (list T * list Z) :=
  match fuel with
  | O => undefined
  | S fuel =>
      b ← load block;
      xs ← destroy_slots (S (Z.to_nat (sizeMask b))) block (front b) (tail b);
      _ ← free_block block;
      nextBlock ← the (next b);
      if decide (nextBlock = frontBlock_) then mret (xs, [rawThis b])
      else
        rest ← destroy_blocks fuel nextBlock frontBlock_;
        mret (xs ++ rest.1, rawThis b :: rest.2)
  end.

Definition destructor : M (list T * list Z) :=
  n ← gets (fun q : t => size (blocks q));
  frontBlock_ ← gets frontBlock;
  destroy_blocks n frontBlock_ frontBlock_.

(** ** Enqueuing *)

Inductive AllocationMode := CanAlloc | CannotAlloc.

Definition inner_enqueue (canAlloc : AllocationMode) (element : T) : M bool :=
  tailBlock_ ← gets tailBlock;
  b ← load tailBlock_;
  let blockTail := tail b in
  let nextBlockTail := incr b blockTail in
  room ← (if decide (nextBlockTail = localFront b) then
            _ ← store tailBlock_ (set_localFront (front b));
            mret (negb (nextBlockTail =? front b))
          else mret true);
  if (room : bool) then
    _ ← store tailBlock_ (put blockTail element);
    _ ← store tailBlock_ (set_tail nextBlockTail);
    mret true
  else
    frontBlock_ ← gets frontBlock;
    b ← load tailBlock_;
    if decide (next b = Some frontBlock_) then
      match canAlloc with
      | CanAlloc =>
          largest ← gets largestBlockSize;
          let newBlockSize := if MAX_BLOCK_SIZE <=? largest then largest else u64 (largest * 2) in
          newBlock ← make_block newBlockSize;
          match newBlock with
          | None => mret false
          | Some newBlock =>
              _ ← store_largest newBlockSize;
              _ ← store newBlock (put 0 element);
              nb ← load newBlock;
              _ ← assert_that (front nb =? 0);
              _ ← store newBlock (set_localTail 1);
              _ ← store newBlock (set_tail 1);
              b ← load tailBlock_;
              _ ← store newBlock (set_next (next b));
              _ ← store tailBlock_ (set_next (Some newBlock));
              _ ← store_tailBlock newBlock;
              mret true
          end
      | CannotAlloc => mret false
      end
    else
      tailBlockNext ← the (next b);
      nb ← load tailBlockNext;
      let nextBlockFront := front nb in
      _ ← store tailBlockNext (set_localFront nextBlockFront);
      let nextBlockTail := tail nb in
      _ ← assert_that (nextBlockFront =? nextBlockTail);
      _ ← store tailBlockNext (set_localFront nextBlockFront);
      _ ← store tailBlockNext (put nextBlockTail element);
      _ ← store tailBlockNext (set_tail (incr nb nextBlockTail));
      _ ← store_tailBlock tailBlockNext;
      mret true.

Definition try_enqueue : T -> M bool := inner_enqueue CannotAlloc.
Definition enqueue : T -> M bool := inner_enqueue CanAlloc.

(** ** Dequeuing *)

(** The front element of a block that is not empty: it is moved out and
    destroyed, and [front] advances. *)
Definition take_front (p : nat) (blockFront : Z) : M T :=
  b ← load p;
  x ← the (data b !! blockFront);
  _ ← store p (destroy blockFront);
  _ ← store p (set_front (incr b blockFront));
  mret x.

(** Is the front block empty? The consumer's copy of [tail] first. *)
Definition front_not_empty (p : nat) : M bool :=
  b ← load p;
  if decide (front b = localTail b) then
    _ ← store p (set_localTail (tail b));
    mret (negb (front b =? tail b))
  else mret true.

Definition try_dequeue : M (option T) :=
  frontBlock_ ← gets frontBlock;
  b ← load frontBlock_;
  let blockFront := front b in
  not_empty ← front_not_empty frontBlock_;
  if (not_empty : bool) then x ← take_front frontBlock_ blockFront; mret (Some x)
  else
    tailBlock_ ← gets tailBlock;
    if decide (frontBlock_ = tailBlock_) then mret None
    else
      frontBlock_ ← gets frontBlock;
      b ← load frontBlock_;
      _ ← store frontBlock_ (set_localTail (tail b));
      let blockTail := tail b in
      let blockFront := front b in
      if decide (blockFront = blockTail) then
        nextBlock ← the (next b);
        nb ← load nextBlock;
        let nextBlockFront := front nb in
        let nextBlockTail := tail nb in
        _ ← store nextBlock (set_localTail nextBlockTail);
        _ ← assert_that (negb (nextBlockFront =? nextBlockTail));
        _ ← store_frontBlock nextBlock;
        x ← take_front nextBlock nextBlockFront;
        mret (Some x)
      else x ← take_front frontBlock_ blockFront; mret (Some x).

(** The element that the pointer points to. *)
Definition peek : M (option T) :=
  frontBlock_ ← gets frontBlock;
  b ← load frontBlock_;
  not_empty ← front_not_empty frontBlock_;
  if (not_empty : bool) then x ← the (data b !! front b); mret (Some x)
  else
    tailBlock_ ← gets tailBlock;
    if decide (frontBlock_ = tailBlock_) then mret None
    else
      frontBlock_ ← gets frontBlock;
      b ← load frontBlock_;
      _ ← store frontBlock_ (set_localTail (tail b));
      if decide (front b = tail b) then
        nextBlock ← the (next b);
        nb ← load nextBlock;
        _ ← assert_that (negb (front nb =? tail nb));
        x ← the (data nb !! front nb);
        mret (Some x)
      else x ← the (data b !! front b); mret (Some x).

(** [pop] is [try_dequeue] without the result. *)
Definition pop : M bool :=
  frontBlock_ ← gets frontBlock;
  b ← load frontBlock_;
  let blockFront := front b in
  not_empty ← front_not_empty frontBlock_;
  if (not_empty : bool) then _ ← take_front frontBlock_ blockFront; mret true
  else
    tailBlock_ ← gets tailBlock;
    if decide (frontBlock_ = tailBlock_) then mret false
    else
      frontBlock_ ← gets frontBlock;
      b ← load frontBlock_;
      _ ← store frontBlock_ (set_localTail (tail b));
      if decide (front b = tail b) then
        nextBlock ← the (next b);
        nb ← load nextBlock;
        _ ← store nextBlock (set_localTail (tail nb));
        _ ← assert_that (negb (front nb =? tail nb));
        _ ← store_frontBlock nextBlock;
        _ ← take_front nextBlock (front nb);
        mret true
      else _ ← take_front frontBlock_ (front b); mret true.

(** ** The number of elements *)

Fixpoint sum_blocks (fuel : nat) (block frontBlock_ : nat) (result : Z) : M Z :=
  match fuel with
  | O => undefined
  | S fuel =>
      b ← load block;
      let result := u64 (result + (u64 (tail b - front b) .& sizeMask b)) in
      block ← the (next b);
      if decide (block = frontBlock_) then mret result else sum_blocks fuel block frontBlock_ result
  end.

Definition size_approx : M Z :=
  n ← gets (fun q : t => size (blocks q));
  frontBlock_ ← gets frontBlock;
  sum_blocks n frontBlock_ frontBlock_ 0.

(** ** Runs *)

Inductive op := TryEnqueue (x : T) | Enqueue (x : T) | TryDequeue | Peek | Pop | SizeApprox.
Inductive res := Done (ok : bool) | Got (x : option T) | Count (n : Z).

Definition exec (o : op) : M res :=
  match o with
  | TryEnqueue x => ok ← try_enqueue x; mret (Done ok)
  | Enqueue x => ok ← enqueue x; mret (Done ok)
  | TryDequeue => x ← try_dequeue; mret (Got x)
  | Peek => x ← peek; mret (Got x)
  | Pop => ok ← pop; mret (Done ok)
  | SizeApprox => n ← size_approx; mret (Count n)
  end.

Fixpoint run (os : list op) : M (list res) :=
  match os with
  | [] => mret []
  | o :: os => r ← exec o; rs ← run os; mret (r :: rs)
  end.

(** ** A block holds a list *)

(** The block has [2 ^ k] slots; its elements are in the slots from [front]
    up to [tail]; the consumer's copy of [tail] is among them or at the end,
    and the producer's copy of [front] is behind [front]. *)
Record block_ok (k : Z) (b : Block) (xs : list T) : Prop := {
  ok_bits : 1 <= k < 64;
  ok_mask : sizeMask b = Z.ones k;
  ok_front : 0 <= front b < 2 ^ k;
  ok_len : Z.of_nat (length xs) < 2 ^ k;
  ok_tail : tail b = (front b + Z.of_nat (length xs)) `mod` 2 ^ k;
  ok_localTail : exists j, 0 <= j <= Z.of_nat (length xs) /\ localTail b = (front b + j) `mod` 2 ^ k;
  ok_localFront : exists m, 0 <= m /\ m + Z.of_nat (length xs) < 2 ^ k /\
    0 <= localFront b < 2 ^ k /\ front b = (localFront b + m) `mod` 2 ^ k;
  ok_data : forall i, data b !! i =
    if decide (0 <= i < 2 ^ k) then xs !! Z.to_nat ((i - front b) `mod` 2 ^ k) else None }.

Lemma mod_offset_inj n a x y :
  0 <= x < n -> 0 <= y < n -> (a + x) `mod` n = (a + y) `mod` n -> x = y.
Proof.
  intros Hx Hy E. rewrite <- (Z.mod_small x n), <- (Z.mod_small y n) by done.
  replace x with (a + x - a) by lia. replace y with (a + y - a) by lia.
  by rewrite <- Zminus_mod_idemp_l, E, Zminus_mod_idemp_l.
Qed.

Lemma mod_offset n a i x : 0 <= x < n -> 0 <= i < n -> (i - a) `mod` n = x <-> i = (a + x) `mod` n.
Proof.
  intros Hx Hi. split.
  - intros <-. rewrite Zplus_mod_idemp_r. replace (a + (i - a)) with i by lia. by rewrite Z.mod_small.
  - intros ->. rewrite Zminus_mod_idemp_l. replace (a + x - a) with x by lia. by apply Z.mod_small.
Qed.

Section block.
Context (k : Z) (b : Block) (xs : list T) (Hok : block_ok k b xs).

Lemma slots_pos : 2 <= 2 ^ k <= 2 ^ 63.
Proof.
  pose proof (ok_bits _ _ _ Hok). split; [|apply Z.pow_le_mono_r; lia].
  change 2 with (2 ^ 1) at 1. apply Z.pow_le_mono_r; lia.
Qed.

Lemma incr_mod i : 0 <= i < 2 ^ k -> incr b i = (i + 1) `mod` 2 ^ k.
Proof.
  intros Hi. pose proof slots_pos. unfold incr. rewrite (ok_mask _ _ _ Hok).
  rewrite wrap_small by (unfold in_width; lia). apply Z.land_ones. pose proof (ok_bits _ _ _ Hok). lia.
Qed.

Lemma tail_range : 0 <= tail b < 2 ^ k.
Proof. rewrite (ok_tail _ _ _ Hok). apply Z.mod_pos_bound. pose proof slots_pos. lia. Qed.

Lemma incr_tail : incr b (tail b) = (front b + (Z.of_nat (length xs) + 1)) `mod` 2 ^ k.
Proof.
  rewrite incr_mod by apply tail_range. rewrite (ok_tail _ _ _ Hok), Zplus_mod_idemp_l. f_equal. lia.
Qed.

Lemma front_eq_tail : front b = tail b <-> xs = [].
Proof.
  rewrite <- (Z.mod_small (front b) (2 ^ k)) at 1 by apply (ok_front _ _ _ Hok).
  rewrite (ok_tail _ _ _ Hok). pose proof (ok_len _ _ _ Hok). split.
  - intros E. rewrite <- (Z.add_0_r (front b)) in E at 1. apply mod_offset_inj in E; [|lia|lia].
    destruct xs; [done|]. cbn in E. lia.
  - intros ->. by rewrite Z.add_0_r.
Qed.

(** A full block, as the producer sees it after reading [front]. *)
Lemma full_iff : incr b (tail b) = front b <-> Z.of_nat (length xs) + 1 = 2 ^ k.
Proof.
  rewrite incr_tail. pose proof (ok_len _ _ _ Hok). pose proof slots_pos.
  rewrite <- (Z.mod_small (front b) (2 ^ k)) at 2 by apply (ok_front _ _ _ Hok). split.
  - intros E. destruct (decide (Z.of_nat (length xs) + 1 = 2 ^ k)) as [|Hne]; [done|].
    rewrite <- (Z.add_0_r (front b)) in E at 2. apply mod_offset_inj in E; lia.
  - intros ->. rewrite <- (Z_mod_plus_full (front b) 1 (2 ^ k)). f_equal. lia.
Qed.

(** The producer's copy of [front] never hides that the block is full. *)
Lemma localFront_room :
  incr b (tail b) <> localFront b ->
  exists m, 0 <= m /\ m + Z.of_nat (length xs) + 1 < 2 ^ k /\ front b = (localFront b + m) `mod` 2 ^ k.
Proof.
  intros Hne. destruct (ok_localFront _ _ _ Hok) as (m & Hm & Hlt & Hr & E).
  exists m. split; [done|]. split; [|done].
  destruct (decide (m + Z.of_nat (length xs) + 1 = 2 ^ k)) as [Hf|]; [|lia].
  destruct Hne. rewrite incr_tail, E, Zplus_mod_idemp_l.
  replace (localFront b + m + (Z.of_nat (length xs) + 1)) with (localFront b + 1 * 2 ^ k) by lia.
  rewrite Z_mod_plus_full. by apply Z.mod_small.
Qed.

Lemma localFront_refreshed : block_ok k (set_localFront (front b) b) xs.
Proof.
  pose proof slots_pos.
  destruct Hok as [B Mk F L Tl LT LF D]. constructor; try done.
  exists 0. cbn. rewrite Z.add_0_r, Z.mod_small by done. repeat split; lia.
Qed.

Lemma localTail_refreshed : block_ok k (set_localTail (tail b) b) xs.
Proof. destruct Hok as [B Mk F L Tl LT LF D]. constructor; try done. exists (Z.of_nat (length xs)). split; [lia|done]. Qed.

Lemma next_replaced p : block_ok k (set_next p b) xs.
Proof. by destruct Hok. Qed.

Lemma localTail_empty : xs = [] -> front b = localTail b.
Proof.
  intros ->. destruct (ok_localTail _ _ _ Hok) as (j & Hj & ->). cbn in Hj.
  replace j with 0 by lia. rewrite Z.add_0_r. symmetry. apply Z.mod_small, (ok_front _ _ _ Hok).
Qed.

Lemma front_element x ys : xs = x :: ys -> data b !! front b = Some x.
Proof.
  pose proof slots_pos as Hs. intros ->.
  rewrite (ok_data _ _ _ Hok), decide_True by apply (ok_front _ _ _ Hok).
  by rewrite Z.sub_diag, Z.mod_0_l by lia.
Qed.

(** An element put in the slot at [tail]. *)
Lemma pushed x :
  (exists m, 0 <= m /\ m + Z.of_nat (length xs) + 1 < 2 ^ k /\ front b = (localFront b + m) `mod` 2 ^ k) ->
  0 <= localFront b < 2 ^ k ->
  block_ok k (set_tail (incr b (tail b)) (put (tail b) x b)) (xs ++ [x]).
Proof.
  intros (m & Hm & Hroom & E) HlF. pose proof tail_range as Ht. pose proof incr_tail as Hi.
  destruct Hok as [B Mk F L Tl LT LF D].
  constructor; cbn [front localTail tail localFront sizeMask data set_tail put]; try done;
    rewrite ?length_app, ?Nat2Z.inj_add; cbn [length]; [lia|by rewrite Hi| | |].
  - destruct LT as (j & Hj & El). exists j. split; [lia|done].
  - exists m. repeat split; [lia..|done].
  - intros i. destruct (decide (i = tail b)) as [->|Hne].
    + rewrite lookup_insert_eq, decide_True by done.
      assert ((tail b - front b) `mod` 2 ^ k = Z.of_nat (length xs)) as ->
        by (apply mod_offset; [lia|done|done]).
      by rewrite Nat2Z.id, lookup_app_r, Nat.sub_diag by lia.
    + rewrite lookup_insert_ne, D by done. case_decide as Hir; [|done].
      pose proof (Z.mod_pos_bound (i - front b) (2 ^ k) ltac:(lia)) as Hb.
      rewrite lookup_app. destruct (xs !! Z.to_nat _) as [y|] eqn:El; [done|].
      apply lookup_ge_None in El. symmetry. apply lookup_ge_None. cbn [length].
      destruct (decide (Z.to_nat ((i - front b) `mod` 2 ^ k) = length xs)) as [El'|]; [|lia].
      destruct Hne. rewrite Tl. apply mod_offset; [lia|done|]. lia.
Qed.

(** The element at [front] taken. *)
Lemma popped x ys :
  xs = x :: ys -> front b <> localTail b ->
  block_ok k (set_front (incr b (front b)) (destroy (front b) b)) ys.
Proof.
  intros Hxs HlT. pose proof slots_pos as Hs. pose proof (incr_mod (front b) (ok_front _ _ _ Hok)) as Hi.
  destruct Hok as [B Mk F L Tl LT LF D]. subst xs. cbn [length] in *.
  constructor; cbn [front localTail tail localFront sizeMask data set_front destroy]; try done;
    rewrite ?Hi; [apply Z.mod_pos_bound; lia|lia| | | |].
  - rewrite Tl, Zplus_mod_idemp_l. f_equal. lia.
  - destruct LT as (j & Hj & El). exists (j - 1). assert (j <> 0) as Hj0.
    { intros ->. rewrite Z.add_0_r, Z.mod_small in El by done. congruence. }
    split; [lia|]. rewrite El, Zplus_mod_idemp_l. f_equal. lia.
  - destruct LF as (m & Hm & Hlt & Hr & E). exists (m + 1). repeat split; [lia..|].
    rewrite E, Zplus_mod_idemp_l. f_equal. lia.
  - intros i. destruct (decide (i = front b)) as [->|Hne].
    + rewrite lookup_delete_eq, decide_True by done. symmetry. apply lookup_ge_None.
      rewrite Zminus_mod_idemp_r. replace (front b - (front b + 1)) with (-1) by lia.
      change (-1) with (- (1)). rewrite Z_mod_nz_opp_full by (rewrite Z.mod_small; lia).
      rewrite Z.mod_small by lia. lia.
    + rewrite lookup_delete_ne, D by done. case_decide as Hir; [|done].
      pose proof (Z.mod_pos_bound (i - front b) (2 ^ k) ltac:(lia)) as Hb.
      assert ((i - front b) `mod` 2 ^ k <> 0) as H0.
      { intros E0. destruct Hne. apply mod_offset in E0; [|lia|done].
        by rewrite Z.add_0_r, Z.mod_small in E0. }
      rewrite Zminus_mod_idemp_r.
      replace ((i - (front b + 1)) `mod` 2 ^ k) with ((i - front b) `mod` 2 ^ k - 1).
      * by replace (Z.to_nat ((i - front b) `mod` 2 ^ k)) with
          (S (Z.to_nat ((i - front b) `mod` 2 ^ k - 1))) by lia.
      * replace (i - (front b + 1)) with ((i - front b) - 1) by lia.
        rewrite <- (Zminus_mod_idemp_l (i - front b) 1). symmetry. apply Z.mod_small. lia.
Qed.

Lemma count_slots : u64 (tail b - front b) .& sizeMask b = Z.of_nat (length xs).
Proof.
  rewrite (ok_mask _ _ _ Hok). pose proof (ok_bits _ _ _ Hok). rewrite Z.land_ones by lia.
  transitivity ((tail b - front b) `mod` 2 ^ k).
  - apply Z.mod_mod_divide. exists (2 ^ (64 - k)). rewrite <- Z.pow_add_r by lia. f_equal. lia.
  - apply mod_offset; [pose proof (ok_len _ _ _ Hok); lia|apply tail_range|apply (ok_tail _ _ _ Hok)].
Qed.
End block.

Lemma new_block_ok k raw dat : 1 <= k < 64 -> block_ok k (new_Block (2 ^ k) raw dat) [].
Proof.
  intros Hk. assert (2 <= 2 ^ k) by (change 2 with (2 ^ 1) at 1; apply Z.pow_le_mono_r; lia).
  constructor; cbn [front localTail tail localFront sizeMask data new_Block length]; try lia.
  - rewrite wrap_small; [by rewrite Z.ones_equiv, Z.sub_1_r|]. unfold in_width.
    pose proof (Z.pow_lt_mono_r 2 k 64). lia.
  - by rewrite Z.mod_0_l by lia.
  - exists 0. rewrite Z.mod_0_l by lia. done.
  - exists 0. rewrite Z.mod_0_l by lia. repeat split; lia.
  - intros i. rewrite lookup_empty. by case_decide.
Qed.

(** ** The ring of blocks *)

(** A block of the ring with the logarithm of its size and its elements. *)
Record entry := Entry { e_id : nat; e_bits : Z; e_xs : list T }.
Definition ids (r : list entry) : list nat := e_id <$> r.
Definition contents (r : list entry) : list T := concat (e_xs <$> r).
Definition full (e : entry) : Prop := Z.of_nat (length (e_xs e)) + 1 = 2 ^ e_bits e.
Definition update (xs : list T) (e : entry) : entry := Entry (e_id e) (e_bits e) xs.

Definition entry_ok (bl : gmap nat Block) (e : entry) : Prop :=
  exists b, bl !! e_id e = Some b /\ block_ok (e_bits e) b (e_xs e).

(** [l] is a path along [next], and its last block leads to [final]. *)
Fixpoint linked (bl : gmap nat Block) (l : list nat) (final : nat) : Prop :=
  match l with
  | [] => True
  | p :: l => (exists b, bl !! p = Some b /\ next b = Some (hd final l)) /\ linked bl l final
  end.

Record ring_ok (bl : gmap nat Block) (r : list entry) : Prop := {
  ring_distinct : NoDup (ids r);
  ring_all : forall p, is_Some (bl !! p) -> p ∈ ids r;
  ring_entries : Forall (entry_ok bl) r;
  ring_linked : linked bl (ids r) (hd 0%nat (ids r)) }.

Lemma ids_app r r' : ids (r ++ r') = ids r ++ ids r'.
Proof. apply fmap_app. Qed.

Lemma contents_app r r' : contents (r ++ r') = contents r ++ contents r'.
Proof. unfold contents. by rewrite fmap_app, concat_app. Qed.

Lemma contents_nil r : Forall (fun e => e_xs e = []) r -> contents r = [].
Proof. induction 1 as [|e r E _ IH]; [done|]. unfold contents in *. cbn. by rewrite E, IH. Qed.

Lemma hd_app {A} (d : A) l l' : hd d (l ++ l') = hd (hd d l') l.
Proof. by destruct l. Qed.

Lemma linked_app bl l l' f : linked bl (l ++ l') f <-> linked bl l (hd f l') /\ linked bl l' f.
Proof. induction l as [|p l IH]; cbn; [tauto|]. rewrite IH, hd_app. tauto. Qed.

Lemma linked_insert bl p b b' l f :
  bl !! p = Some b -> next b' = next b -> linked bl l f -> linked (<[p := b']> bl) l f.
Proof.
  intros Hb Hn. induction l as [|p' l IH]; [done|]. intros [(b0 & H & E) Hl].
  split; [|by apply IH]. destruct (decide (p' = p)) as [->|Hne].
  - exists b'. rewrite lookup_insert_eq. split; [done|]. congruence.
  - exists b0. by rewrite lookup_insert_ne.
Qed.

Lemma linked_insert_other bl p b l f : p ∉ l -> linked bl l f -> linked (<[p := b]> bl) l f.
Proof.
  induction l as [|p' l IH]; [done|]. intros Hp [(b0 & H & E) Hl].
  apply not_elem_of_cons in Hp as [Hne Hp]. split; [|by apply IH].
  exists b0. by rewrite lookup_insert_ne.
Qed.

Lemma entries_insert bl p b r :
  p ∉ ids r -> Forall (entry_ok bl) r -> Forall (entry_ok (<[p := b]> bl)) r.
Proof.
  intros Hp. rewrite !Forall_forall. intros Hr e He. destruct (Hr e He) as (b0 & H & Hok).
  exists b0. rewrite lookup_insert_ne; [done|]. intros ->. by apply Hp, list_elem_of_fmap_2.
Qed.

(** The block of an entry. *)
Lemma ring_lookup bl r1 e r2 :
  ring_ok bl (r1 ++ e :: r2) ->
  exists b, bl !! e_id e = Some b /\ block_ok (e_bits e) b (e_xs e) /\
    next b = Some (hd (hd 0%nat (ids (r1 ++ e :: r2))) (ids r2)).
Proof.
  intros [_ _ He Hl]. apply Forall_app in He as [_ (Hh & _)%Forall_cons]. destruct Hh as (b & Hb & Hok).
  remember (hd 0%nat (ids (r1 ++ e :: r2))) as f. rewrite ids_app in Hl.
  apply linked_app in Hl as [_ [(b' & Hb' & Hn) _]]. exists b. split; [done|]. split; [done|]. congruence.
Qed.

Lemma ring_update bl r1 e r2 b b' xs :
  ring_ok bl (r1 ++ e :: r2) -> bl !! e_id e = Some b -> next b' = next b ->
  block_ok (e_bits e) b' xs -> ring_ok (<[e_id e := b']> bl) (r1 ++ update xs e :: r2).
Proof.
  intros [Hd Ha He Hl] Hb Hn Hok.
  assert (ids (r1 ++ update xs e :: r2) = ids (r1 ++ e :: r2)) as Eids by by rewrite !ids_app.
  split; rewrite ?Eids; [done| | |by eapply linked_insert].
  - intros p [b0 H]. apply Ha. apply lookup_insert_Some in H as [[<- _]|[_ H]]; by eexists.
  - rewrite ids_app in Hd. apply NoDup_app in Hd as (_ & Hd1 & (Hd2 & _)%NoDup_cons).
    apply Forall_app in He as [He1 (_ & He2)%Forall_cons].
    apply Forall_app. split; [|apply Forall_cons; split].
    + apply entries_insert; [|done]. intros Hin. eapply Hd1; [done|]. apply list_elem_of_here.
    + exists b'. cbn. by rewrite lookup_insert_eq.
    + by apply entries_insert.
Qed.

Lemma ring_rotate bl e r : ring_ok bl (e :: r) -> ring_ok bl (r ++ [e]).
Proof.
  intros [Hd Ha He Hl]. assert (ids (e :: r) ≡ₚ ids (r ++ [e])) as P.
  { apply fmap_Permutation, Permutation_cons_append. }
  split.
  - by rewrite <- P.
  - intros p Hp. rewrite <- P. by apply Ha.
  - apply Forall_cons in He as [H1 H2]. apply Forall_app. by repeat constructor.
  - rewrite ids_app. apply linked_app. destruct r as [|e' r]; [done|]. by destruct Hl.
Qed.

(** A new block after the last one. *)
Lemma ring_grow bl r e n k xs b nb :
  ring_ok bl (r ++ [e]) -> bl !! e_id e = Some b -> bl !! n = None ->
  block_ok k nb xs -> next nb = Some (hd 0%nat (ids (r ++ [e]))) ->
  ring_ok (<[e_id e := set_next (Some n) b]> (<[n := nb]> bl)) ((r ++ [e]) ++ [Entry n k xs]).
Proof.
  intros [Hd Ha He Hl] Hb Hn Hok Hnext.
  assert (e_id e <> n) as Hen by congruence.
  assert (n ∉ ids (r ++ [e])) as Hnid.
  { intros (e0 & -> & H0)%list_elem_of_fmap. eapply Forall_forall in He as (b0 & H & _); [|done]. congruence. }
  split.
  - rewrite ids_app. apply NoDup_app. split; [done|]. split; [|apply NoDup_singleton].
    change (ids [_]) with [n]. intros p Hp ->%list_elem_of_singleton. done.
  - intros p [b0 H]. rewrite ids_app, elem_of_app. change (ids [_]) with [n].
    rewrite list_elem_of_singleton.
    apply lookup_insert_Some in H as [[<- _]|[_ [[<- _]|[_ H]]%lookup_insert_Some]]; [left|by right|left];
      apply Ha; by eexists.
  - apply Forall_app. split.
    + rewrite ids_app in Hd, Hnid. apply not_elem_of_app in Hnid as [Hnr _].
      apply NoDup_app in Hd as (_ & Hd1 & _). apply Forall_app in He as [He1 He2].
      apply Forall_app. split.
      * apply entries_insert; [|by apply entries_insert]. intros Hin. eapply Hd1; [done|].
        apply list_elem_of_here.
      * apply Forall_singleton. apply Forall_singleton in He2 as (b0 & H0 & Hb0).
        exists (set_next (Some n) b). rewrite lookup_insert_eq. split; [done|].
        apply next_replaced. congruence.
    + apply Forall_singleton. exists nb. cbn. by rewrite lookup_insert_ne, lookup_insert_eq.
  - rewrite (ids_app (r ++ [e])) at 1. apply linked_app.
    assert (hd 0%nat (ids ((r ++ [e]) ++ [Entry n k xs])) = hd 0%nat (ids (r ++ [e]))) as ->
      by (by destruct r).
    split; [|split; [|done]].
    + cbn. rewrite ids_app in *. apply linked_app in Hl as [Hl _]. apply linked_app.
      apply not_elem_of_app in Hnid as [Hnr _]. split.
      * apply linked_insert_other; [|by apply linked_insert_other].
        apply NoDup_app in Hd as (_ & Hd1 & _). intros Hin. eapply Hd1; [done|]. apply list_elem_of_here.
      * split; [|done]. exists (set_next (Some n) b). by rewrite lookup_insert_eq.
    + exists nb. cbn [ids fmap list_fmap e_id]. by rewrite lookup_insert_ne, lookup_insert_eq.
Qed.

Lemma ring_single n k xs b :
  block_ok k b xs -> next b = Some n -> ring_ok {[n := b]} [Entry n k xs].
Proof.
  intros Hok Hn. split.
  - apply NoDup_singleton.
  - intros p [b0 [<- _]%lookup_singleton_Some]. apply list_elem_of_here.
  - apply Forall_singleton. exists b. cbn. by rewrite lookup_singleton_eq.
  - cbn. split; [|done]. exists b. by rewrite lookup_singleton_eq.
Qed.

(** ** What the operations do to the store *)

(** [exec] runs the commands of an operation on stores that are updates of
    one store. *)
#[local] Arguments set_blocks / _ _.
#[local] Ltac exec :=
  repeat (progress (
    unfold mbind, M_bind, mret, M_ret, gets, the, load, store, store_frontBlock, store_tailBlock,
      store_largest, assert_that;
    cbn [blocks mallocs frontBlock tailBlock largestBlockSize set_blocks front localTail tail localFront
      next data sizeMask set_front set_localTail set_tail set_localFront set_next put destroy negb fst snd])
    || rewrite lookup_insert_eq || rewrite insert_insert_eq
    || match goal with
       | E : ?m !! ?p = Some _ |- context [?m !! ?p] => rewrite E
       | N : ?p <> ?p' |- context [<[?p' := _]> _ !! ?p] => rewrite lookup_insert_ne by congruence
       | N : ?p <> ?p' |- context [<[?p := _]> _ !! ?p'] => rewrite lookup_insert_ne by congruence
       end).

Lemma enqueue_room c x q b :
  blocks q !! tailBlock q = Some b -> incr b (tail b) <> localFront b ->
  inner_enqueue c x q =
  Some (true, set_blocks (<[tailBlock q := set_tail (incr b (tail b)) (put (tail b) x b)]> (blocks q)) q).
Proof. intros Hb Hne. unfold inner_enqueue. exec. rewrite decide_False by done. by exec. Qed.

Lemma enqueue_refresh c x q b :
  blocks q !! tailBlock q = Some b -> incr b (tail b) = localFront b -> incr b (tail b) <> front b ->
  inner_enqueue c x q =
  Some (true, set_blocks (<[tailBlock q :=
    set_tail (incr b (tail b)) (put (tail b) x (set_localFront (front b) b))]> (blocks q)) q).
Proof.
  intros Hb He Hne. unfold inner_enqueue. exec. rewrite decide_True by done.
  exec. rewrite (proj2 (Z.eqb_neq _ _)) by done. by exec.
Qed.

Section when_full.
Context (c : AllocationMode) (x : T) (q : t) (b : Block).
Context (Hb : blocks q !! tailBlock q = Some b).
Context (Hl : incr b (tail b) = localFront b) (Hf : incr b (tail b) = front b).

#[local] Ltac full_block :=
  unfold inner_enqueue; exec; rewrite decide_True by done; exec;
  rewrite (proj2 (Z.eqb_eq _ _)) by done; exec.

Lemma enqueue_advance p nb :
  next b = Some p -> p <> frontBlock q -> p <> tailBlock q ->
  blocks q !! p = Some nb -> front nb = tail nb ->
  inner_enqueue c x q =
  Some (true, mk (<[p := set_tail (incr nb (tail nb)) (put (tail nb) x (set_localFront (front nb) nb))]>
                   (<[tailBlock q := set_localFront (front b) b]> (blocks q)))
                (mallocs q) (frontBlock q) p (largestBlockSize q)).
Proof.
  intros Hn Hpf Hpt Hp He. full_block. rewrite decide_False by congruence. rewrite Hn. exec.
  rewrite (proj2 (Z.eqb_eq _ _)) by done. by exec.
Qed.

Lemma enqueue_refused :
  next b = Some (frontBlock q) -> c = CannotAlloc ->
  inner_enqueue c x q = Some (false, set_blocks (<[tailBlock q := set_localFront (front b) b]> (blocks q)) q).
Proof. intros Hn ->. full_block. rewrite decide_True by done. by exec. Qed.

(** The size of the block that is allocated. *)
Definition newBlockSize : Z :=
  if MAX_BLOCK_SIZE <=? largestBlockSize q then largestBlockSize q else u64 (largestBlockSize q * 2).

Lemma enqueue_no_memory :
  next b = Some (frontBlock q) -> c = CanAlloc -> malloc (mallocs q) (block_bytes newBlockSize) = None ->
  inner_enqueue c x q =
  Some (false, mk (<[tailBlock q := set_localFront (front b) b]> (blocks q))
                 (S (mallocs q)) (frontBlock q) (tailBlock q) (largestBlockSize q)).
Proof.
  intros Hn -> Hm. full_block. rewrite decide_True by done. unfold make_block. exec.
  fold newBlockSize. by rewrite Hm.
Qed.

Lemma enqueue_allocates raw :
  next b = Some (frontBlock q) -> c = CanAlloc ->
  malloc (mallocs q) (block_bytes newBlockSize) = Some raw -> mallocs q <> tailBlock q ->
  exists dat,
  inner_enqueue c x q =
  Some (true,
    mk (<[tailBlock q := set_next (Some (mallocs q)) (set_localFront (front b) b)]>
       (<[mallocs q := set_next (Some (frontBlock q)) (set_tail 1 (set_localTail 1
           (put 0 x (new_Block newBlockSize raw dat))))]> (blocks q)))
      (S (mallocs q)) (frontBlock q) (mallocs q) newBlockSize).
Proof.
  intros Hn -> Hm Hne. eexists. full_block. rewrite decide_True by done. unfold make_block. exec.
  fold newBlockSize. rewrite Hm. exec. cbn [new_Block front Z.eqb]. exec. rewrite Hn.
  rewrite (insert_insert_ne _ (mallocs q) (tailBlock q)) by done. by exec.
Qed.
End when_full.

(** The three operations of the consumer take the same way. [taken] is the
    block whose front element is gone. *)
Definition taken (b : Block) : Block := set_front (incr b (front b)) (destroy (front b) b).

Definition consumes (q : t) (x : T) (q_taken q_seen : t) : Prop :=
  try_dequeue q = Some (Some x, q_taken) /\ pop q = Some (true, q_taken) /\ peek q = Some (Some x, q_seen).

Section consumer.
Context (q : t) (b : Block) (Hb : blocks q !! frontBlock q = Some b).

#[local] Ltac consume := unfold try_dequeue, pop, peek, front_not_empty, take_front; exec.

Lemma dequeue_fast x :
  front b <> localTail b -> data b !! front b = Some x ->
  consumes q x (set_blocks (<[frontBlock q := taken b]> (blocks q)) q) q.
Proof. intros Hne Hx. repeat split; consume; rewrite decide_False by done; exec; rewrite ?Hx; by exec. Qed.

Lemma dequeue_refresh x :
  front b = localTail b -> front b <> tail b -> data b !! front b = Some x ->
  consumes q x (set_blocks (<[frontBlock q := taken (set_localTail (tail b) b)]> (blocks q)) q)
    (set_blocks (<[frontBlock q := set_localTail (tail b) b]> (blocks q)) q).
Proof.
  intros He Hne Hx. repeat split; consume; rewrite decide_True by done; exec;
    rewrite (proj2 (Z.eqb_neq _ _)) by done; exec; rewrite ?Hx; by exec.
Qed.

Lemma dequeue_empty :
  front b = localTail b -> front b = tail b -> frontBlock q = tailBlock q ->
  let q' := set_blocks (<[frontBlock q := set_localTail (tail b) b]> (blocks q)) q in
  try_dequeue q = Some (None, q') /\ pop q = Some (false, q') /\ peek q = Some (None, q').
Proof.
  intros He Ht Hft q'. repeat split; consume; rewrite decide_True by done; exec;
    rewrite (proj2 (Z.eqb_eq _ _)) by done; exec; rewrite decide_True by done; by exec.
Qed.

Lemma dequeue_next x p nb :
  front b = localTail b -> front b = tail b -> frontBlock q <> tailBlock q ->
  next b = Some p -> frontBlock q <> p -> blocks q !! p = Some nb ->
  front nb <> tail nb -> data nb !! front nb = Some x ->
  let bl := <[frontBlock q := set_localTail (tail b) b]> (blocks q) in
  consumes q x
    (mk (<[p := taken (set_localTail (tail nb) nb)]> bl) (mallocs q) p (tailBlock q) (largestBlockSize q))
    (set_blocks bl q).
Proof.
  intros He Ht Hft Hn Hp Hnb Hne Hx bl. repeat split; consume; rewrite decide_True by done; exec;
    rewrite (proj2 (Z.eqb_eq _ _)) by done; exec; rewrite decide_False by done; exec;
    rewrite decide_True by done; rewrite Hn; exec;
    rewrite (proj2 (Z.eqb_neq _ _)) by done; exec; rewrite ?Hx; by exec.
Qed.
End consumer.

(** ** The queue holds a list *)

Definition bits (r : list entry) : list Z := e_bits <$> r.

(** The blocks from the front block to the tail block are [pre ++ [el]]; those
    strictly between are full, and [free] ones are empty. The queue has room
    for [cap] elements: every block has at least [2 ^ s] slots. *)
Record inv (cap : Z) (q : t) (pre : list entry) (el : entry) (free : list entry) : Prop := {
  inv_ring : ring_ok (blocks q) (pre ++ el :: free);
  inv_fresh : forall p, is_Some (blocks q !! p) -> (p < mallocs q)%nat;
  inv_front : frontBlock q = hd (e_id el) (ids pre);
  inv_tail : tailBlock q = e_id el;
  inv_free : Forall (fun e => e_xs e = []) free;
  inv_full : Forall full (tl pre);
  inv_last : pre <> [] -> e_xs el <> [];
  inv_size : exists s k, 1 <= s <= k /\ k < 64 /\ largestBlockSize q = 2 ^ k /\
    Forall (Z.le s) (bits (pre ++ el :: free)) /\
    cap <= Z.max 1 (Z.of_nat (length (bits (pre ++ el :: free))) - 1) * (2 ^ s - 1) }.

Definition holds (cap : Z) (q : t) (xs : list T) : Prop :=
  exists pre el free, inv cap q pre el free /\ xs = contents (pre ++ [el]).

Lemma insert_fresh (bl : gmap nat Block) p b b' n :
  (forall p, is_Some (bl !! p) -> (p < n)%nat) -> bl !! p = Some b ->
  forall p', is_Some (<[p := b']> bl !! p') -> (p' < n)%nat.
Proof.
  intros Hf Hb p' [b0 H]. apply lookup_insert_Some in H as [[<- _]|[_ H]]; apply Hf; by eexists.
Qed.

Lemma bits_update r1 xs e r2 : bits (r1 ++ update xs e :: r2) = bits (r1 ++ e :: r2).
Proof. unfold bits. by rewrite !fmap_app. Qed.

(** The tail block changes. *)
Lemma inv_change_tail cap q pre el free b b' xs :
  inv cap q pre el free -> blocks q !! tailBlock q = Some b -> next b' = next b ->
  block_ok (e_bits el) b' xs -> (pre <> [] -> xs <> []) ->
  inv cap (set_blocks (<[tailBlock q := b']> (blocks q)) q) pre (update xs el) free.
Proof.
  intros [R Fr Fb Tb Fe Fu La Sz] Hb Hn Hok Hxs. rewrite Tb in *.
  split; cbn [blocks set_blocks mallocs frontBlock tailBlock largestBlockSize]; try done.
  - by eapply ring_update.
  - by eapply insert_fresh.
  - by rewrite bits_update.
Qed.

(** The front block changes, and is not the tail block. *)
Lemma inv_change_front cap q e pre el free b b' xs :
  inv cap q (e :: pre) el free -> blocks q !! frontBlock q = Some b -> next b' = next b ->
  block_ok (e_bits e) b' xs ->
  inv cap (set_blocks (<[frontBlock q := b']> (blocks q)) q) (update xs e :: pre) el free.
Proof.
  intros [R Fr Fb Tb Fe Fu La Sz] Hb Hn Hok. cbn in Fb. rewrite Fb in *.
  split; cbn [blocks set_blocks mallocs frontBlock tailBlock largestBlockSize]; try done.
  - by apply (ring_update _ [] e (pre ++ el :: free) b).
  - by eapply insert_fresh.
  - intros _. by apply La.
Qed.

Lemma inv_tail_block cap q pre el free :
  inv cap q pre el free ->
  exists b, blocks q !! tailBlock q = Some b /\ block_ok (e_bits el) b (e_xs el) /\
    next b = Some (hd (frontBlock q) (ids free)).
Proof.
  intros I. pose proof (inv_ring _ _ _ _ _ I) as R. apply ring_lookup in R as (b & Hb & Hok & Hn).
  exists b. rewrite (inv_tail _ _ _ _ _ I), (inv_front _ _ _ _ _ I). split; [done|]. split; [done|].
  rewrite Hn. f_equal. f_equal. rewrite ids_app. by destruct pre.
Qed.

Lemma inv_distinct cap q pre el free : inv cap q pre el free -> NoDup (ids (pre ++ el :: free)).
Proof. intros I. exact (ring_distinct _ _ (inv_ring _ _ _ _ _ I)). Qed.

(** The elements of full blocks. *)
Lemma full_contents s r :
  1 <= s -> Forall (Z.le s) (bits r) -> Forall full r ->
  Z.of_nat (length r) * (2 ^ s - 1) <= Z.of_nat (length (contents r)).
Proof.
  intros Hs Hb Hf. induction Hf as [|e r He _ IH]; [done|].
  apply Forall_cons in Hb as [Hse Hb]. specialize (IH Hb). unfold contents in *. cbn.
  rewrite length_app, Nat2Z.inj_add, Nat2Z.inj_succ. unfold full in He.
  pose proof (Z.pow_le_mono_r 2 s (e_bits e)). lia.
Qed.

(** When no block is free and the last one is full, the queue is full. *)
Lemma full_capacity cap q pre el :
  inv cap q pre el [] -> full el -> cap <= Z.of_nat (length (contents (pre ++ [el]))).
Proof.
  intros I He. destruct (inv_size _ _ _ _ _ I) as (s & k & Hs & _ & _ & Hb & Hcap).
  etrans; [exact Hcap|]. pose proof (inv_full _ _ _ _ _ I) as Hfull.
  destruct pre as [|e pre]; cbn [tl] in Hfull.
  - etrans; [|apply (full_contents s); [lia|done|by apply Forall_singleton]]. cbn. lia.
  - cbn [app] in *. apply Forall_cons in Hb as [_ Hb].
    assert (Forall full (pre ++ [el])) as Hf by (apply Forall_app; by repeat constructor).
    pose proof (full_contents s _ ltac:(lia) Hb Hf) as Hlen.
    etrans; [|etrans; [exact Hlen|]].
    + apply Z.mul_le_mono_nonneg_r; [pose proof (Z.pow_le_mono_r 2 0 s); lia|].
      unfold bits. rewrite length_fmap. cbn [length]. rewrite length_app. cbn [length]. lia.
    + unfold contents. cbn. rewrite length_app. lia.
Qed.

(** The producer moves on to the next block, or to a new one. *)
Lemma inv_advance cap q pre el f free nb nb' x :
  inv cap q pre el (f :: free) -> (pre <> [] -> full el) ->
  blocks q !! e_id f = Some nb -> next nb' = next nb -> block_ok (e_bits f) nb' [x] ->
  inv cap (mk (<[e_id f := nb']> (blocks q)) (mallocs q) (frontBlock q) (e_id f) (largestBlockSize q))
    (pre ++ [el]) (update [x] f) free.
Proof.
  intros [R Fr Fb Tb Fe Fu La Sz] Hfull Hb Hn Hok.
  assert (pre ++ el :: f :: free = (pre ++ [el]) ++ f :: free) as E by by rewrite <- app_assoc.
  apply Forall_cons in Fe as [_ Fe].
  split; cbn [blocks mallocs frontBlock tailBlock largestBlockSize]; try done.
  - rewrite E in R. by eapply ring_update.
  - by eapply insert_fresh.
  - rewrite Fb, ids_app, hd_app. done.
  - destruct pre as [|e pre]; cbn; [done|]. apply Forall_app. split; [done|]. apply Forall_singleton. by apply Hfull.
  - by rewrite bits_update, <- E.
Qed.

Lemma inv_grow cap q pre el b nb k x :
  inv cap q pre el [] -> full el -> e_xs el <> [] -> blocks q !! tailBlock q = Some b ->
  next nb = Some (frontBlock q) -> block_ok k nb [x] -> largestBlockSize q <= 2 ^ k ->
  inv cap (mk (<[tailBlock q := set_next (Some (mallocs q)) b]> (<[mallocs q := nb]> (blocks q)))
             (S (mallocs q)) (frontBlock q) (mallocs q) (2 ^ k))
    (pre ++ [el]) (Entry (mallocs q) k [x]) [].
Proof.
  intros [R Fr Fb Tb Fe Fu La Sz] Hfull Hxs Hb Hn Hok Hk.
  assert (blocks q !! mallocs q = None) as Hnew.
  { destruct (blocks q !! mallocs q) as [b0|] eqn:E; [|done]. specialize (Fr (mallocs q) ltac:(by eexists)). lia. }
  split; cbn [blocks mallocs frontBlock tailBlock largestBlockSize]; try done.
  - rewrite Tb in *. eapply ring_grow; [done|done|done|done|]. rewrite Hn, Fb, ids_app. f_equal.
    symmetry. by rewrite hd_app.
  - intros p [b0 H]. apply lookup_insert_Some in H as [[<- _]|[_ [[<- _]|[_ H]]%lookup_insert_Some]].
    + assert (tailBlock q < mallocs q)%nat by (apply Fr; by eexists). lia.
    + lia.
    + assert (p < mallocs q)%nat by (apply Fr; by eexists). lia.
  - rewrite Fb, ids_app, hd_app. done.
  - destruct pre as [|e pre]; cbn; [done|]. apply Forall_app. by repeat constructor.
  - destruct Sz as (s & k0 & Hs & Hk0 & El & Hb0 & Hcap).
    assert (bits ((pre ++ [el]) ++ [Entry (mallocs q) k [x]]) = bits (pre ++ [el]) ++ [k]) as ->
      by (unfold bits; by rewrite fmap_app).
    pose proof (ok_bits _ _ _ Hok) as Hkk.
    assert (k0 <= k) by (rewrite El in Hk; apply Z.pow_le_mono_r_iff in Hk; lia).
    exists s, k. repeat split; [lia..| |].
    + apply Forall_app. split; [done|]. apply Forall_singleton. lia.
    + etrans; [exact Hcap|]. apply Z.mul_le_mono_nonneg_r.
      * pose proof (Z.pow_le_mono_r 2 0 s). lia.
      * rewrite length_app. cbn [length]. lia.
Qed.

Lemma update_same e : update (e_xs e) e = e.
Proof. by destruct e. Qed.

Lemma contents_push pre el x :
  contents (pre ++ [update (e_xs el ++ [x]) el]) = contents (pre ++ [el]) ++ [x].
Proof. unfold contents. rewrite !fmap_app, !concat_app. cbn. by rewrite !app_nil_r, app_assoc. Qed.

Lemma contents_next pre el e x : e_xs e = [x] -> contents ((pre ++ [el]) ++ [e]) = contents (pre ++ [el]) ++ [x].
Proof. intros E. rewrite contents_app. unfold contents at 2. cbn. by rewrite E. Qed.

(** The block that [inner_enqueue] makes. *)
Lemma first_element_ok k raw dat x p :
  1 <= k < 64 ->
  block_ok k (set_next p (set_tail 1 (set_localTail 1 (put 0 x (new_Block (2 ^ k) raw dat))))) [x].
Proof.
  intros Hk. apply next_replaced. pose proof (new_block_ok k raw dat Hk) as N.
  assert (2 <= 2 ^ k) as H2 by (change 2 with (2 ^ 1) at 1; apply Z.pow_le_mono_r; lia).
  assert (incr (new_Block (2 ^ k) raw dat) 0 = 1) as I1.
  { rewrite (incr_mod k _ _ N) by lia. apply Z.mod_small. lia. }
  assert (incr (new_Block (2 ^ k) raw dat) (tail (new_Block (2 ^ k) raw dat)) = 1) as I1' by exact I1.
  pose proof (localFront_room _ _ _ N) as Hroom. rewrite I1' in Hroom.
  apply (pushed k _ _ N x) in Hroom; [|cbn; lia|cbn; lia].
  rewrite I1' in Hroom. apply localTail_refreshed in Hroom. exact Hroom.
Qed.

Section operations.
Context (m : Z) (Hm : 1 <= m < 64) (HMAX : MAX_BLOCK_SIZE = 2 ^ m).

Lemma new_size_pow2 cap q pre el free :
  inv cap q pre el free ->
  exists k, 1 <= k < 64 /\ newBlockSize q = 2 ^ k /\ largestBlockSize q <= 2 ^ k.
Proof.
  intros I. destruct (inv_size _ _ _ _ _ I) as (s & k & Hs & Hk & El & _ & _). unfold newBlockSize.
  rewrite El, HMAX. destruct (Z.leb_spec (2 ^ m) (2 ^ k)) as [|Hlt].
  - exists k. repeat split; lia.
  - apply Z.pow_lt_mono_r_iff in Hlt; [|lia|lia]. exists (k + 1).
    rewrite Z.pow_add_r by lia. pose proof (Z.pow_le_mono_r 2 k 62). pose proof (Z.pow_nonneg 2 k).
    repeat split; [lia|lia| |lia]. apply wrap_small. unfold in_width. lia.
Qed.

(** The tail block is full, as the producer has just seen. *)
Lemma inv_seen_full cap q pre el free :
  inv cap q pre el free ->
  forall b, blocks q !! tailBlock q = Some b ->
  inv cap (set_blocks (<[tailBlock q := set_localFront (front b) b]> (blocks q)) q) pre el free.
Proof.
  intros I b Hb. destruct (inv_tail_block _ _ _ _ _ I) as (b0 & Hb0 & Hok & _).
  assert (b0 = b) as -> by congruence. rewrite <- (update_same el).
  eapply inv_change_tail; [done|done|done| |apply (inv_last _ _ _ _ _ I)].
  by apply localFront_refreshed.
Qed.

Definition enqueued (cap : Z) (c : AllocationMode) (x : T) (q : t) (xs : list T) : Prop :=
  exists ok q', inner_enqueue c x q = Some (ok, q') /\
    holds cap q' (if ok then xs ++ [x] else xs) /\
    (mallocs q' = mallocs q \/
      c = CanAlloc /\ cap <= Z.of_nat (length xs) /\ mallocs q' = S (mallocs q)) /\
    (ok = false -> cap <= Z.of_nat (length xs) /\
      (c = CanAlloc -> exists bytes, malloc (mallocs q) bytes = None)).

Section full_tail.
Context (cap : Z) (x : T) (q : t) (pre : list entry) (el : entry) (b : Block).
Context (Hb : blocks q !! tailBlock q = Some b) (Hfull : full el).
Context (Hl : incr b (tail b) = localFront b) (Hf : incr b (tail b) = front b).

Lemma full_nonempty free : inv cap q pre el free -> e_xs el <> [].
Proof.
  intros I E. destruct (inv_tail_block _ _ _ _ _ I) as (b0 & Hb0 & Hok & _).
  unfold full in Hfull. rewrite E in Hfull. pose proof (slots_pos _ _ _ Hok). cbn in Hfull. lia.
Qed.

Lemma enqueued_allocating :
  inv cap q pre el [] -> next b = Some (frontBlock q) ->
  enqueued cap CanAlloc x q (contents (pre ++ [el])).
Proof.
  intros I Hn. pose proof (inv_seen_full _ _ _ _ _ I b Hb) as I1.
  pose proof (full_capacity _ _ _ _ I Hfull) as Hcap. pose proof (full_nonempty _ I) as Hxs.
  destruct (malloc (mallocs q) (block_bytes (newBlockSize q))) as [raw|] eqn:Em.
  - destruct (new_size_pow2 _ _ _ _ _ I) as (k & Hk & Ek & Hle).
    assert (mallocs q <> tailBlock q) as Hne.
    { assert (tailBlock q < mallocs q)%nat by (apply (inv_fresh _ _ _ _ _ I); by eexists). lia. }
    destruct (enqueue_allocates CanAlloc x q b Hb Hl Hf raw Hn eq_refl Em Hne) as (dat & E).
    exists true. eexists. split; [exact E|]. split; [|split; [by right|done]].
    exists (pre ++ [el]), (Entry (mallocs q) k [x]), []. split; [|by rewrite (contents_next _ _ _ x)].
    pose proof (first_element_ok k raw dat x (Some (frontBlock q)) Hk) as Hnb.
    match type of Hnb with block_ok _ ?nb _ =>
      pose proof (inv_grow _ _ _ _ (set_localFront (front b) b) nb k x I1 Hfull Hxs
        ltac:(cbn; by rewrite lookup_insert_eq) eq_refl Hnb Hle) as G
    end.
    cbn in G. rewrite (insert_insert_ne _ (mallocs q)), insert_insert_eq in G by congruence. rewrite Ek. exact G.
  - exists false. eexists. split; [by apply (enqueue_no_memory _ _ _ _ Hb Hl Hf)|].
    split; [|split; [by right|intros _; split; [done|intros _; by eexists]]].
    exists pre, el, []. split; [|done]. destruct I1 as [R1 Fr1 A1 A2 A3 A4 A5 A6].
    split; try done. intros p Hp. cbn. specialize (Fr1 p Hp). cbn in Fr1. lia.
Qed.

Lemma enqueued_refused :
  inv cap q pre el [] -> next b = Some (frontBlock q) ->
  enqueued cap CannotAlloc x q (contents (pre ++ [el])).
Proof.
  intros I Hn. exists false. eexists. split; [by apply (enqueue_refused _ _ _ _ Hb Hl Hf)|].
  split; [|split; [by left|]].
  - exists pre, el, []. split; [by apply inv_seen_full|done].
  - intros _. split; [by apply (full_capacity _ _ _ _ I)|done].
Qed.

Lemma enqueued_advancing c f free :
  inv cap q pre el (f :: free) -> next b = Some (e_id f) ->
  enqueued cap c x q (contents (pre ++ [el])).
Proof.
  intros I Hn. pose proof (inv_seen_full _ _ _ _ _ I b Hb) as I1.
  assert (pre ++ el :: f :: free = (pre ++ [el]) ++ f :: free) as E by by rewrite <- app_assoc.
  pose proof (inv_ring _ _ _ _ _ I) as R. rewrite E in R.
  destruct (ring_lookup _ _ _ _ R) as (nb & Hnb & Hnok & _).
  pose proof (inv_free _ _ _ _ _ I) as Fe. apply Forall_cons in Fe as [Fe _]. rewrite Fe in Hnok.
  assert (e_id f <> tailBlock q /\ e_id f <> frontBlock q) as [Hft Hff].
  { pose proof (ring_distinct _ _ R) as Hd. rewrite (inv_tail _ _ _ _ _ I), (inv_front _ _ _ _ _ I).
    rewrite ids_app in Hd. apply NoDup_app in Hd as (_ & Hd & _).
    split; intros Heq; eapply Hd; try apply list_elem_of_here; rewrite ids_app; apply elem_of_app.
    - right. rewrite Heq. apply list_elem_of_here.
    - destruct pre as [|e pre']; [right|left]; rewrite Heq; apply list_elem_of_here. }
  exists true. eexists. split.
  { eapply (enqueue_advance _ _ _ _ Hb Hl Hf); [exact Hn|done..|]. by apply (front_eq_tail _ _ _ Hnok). }
  split; [|split; [by left|done]].
  exists (pre ++ [el]), (update [x] f), free. split; [|by rewrite (contents_next _ _ _ x)].
  eapply (inv_advance _ _ _ _ _ _ nb _ x I1 (fun _ => Hfull)); [cbn; by rewrite lookup_insert_ne|done|].
  pose proof (localFront_refreshed _ _ _ Hnok) as N1.
  change [x] with ([] ++ [x]). apply (pushed _ _ _ N1); [|apply (ok_front _ _ _ Hnok)].
  apply (localFront_room _ _ _ N1). intros Hbad. apply (full_iff _ _ _ N1) in Hbad.
  pose proof (slots_pos _ _ _ Hnok). cbn in Hbad. lia.
Qed.
End full_tail.

(** Enqueuing puts the element at the end, or has no room. *)
Lemma enqueue_holds cap c x q xs : holds cap q xs -> enqueued cap c x q xs.
Proof.
  intros (pre & el & free & I & ->). destruct (inv_tail_block _ _ _ _ _ I) as (b & Hb & Hok & Hn).
  assert (forall b', block_ok (e_bits el) b' (e_xs el) -> next b' = next b -> 
            incr b' (tail b') <> localFront b' ->
            holds cap (set_blocks (<[tailBlock q := set_tail (incr b' (tail b')) (put (tail b') x b')]>
              (blocks q)) q) (contents (pre ++ [el]) ++ [x])) as Hpush.
  { intros b' Hok' Hn' Hne. exists pre, (update (e_xs el ++ [x]) el), free. split; [|by rewrite contents_push].
    eapply inv_change_tail; [done|done|done| |by destruct (e_xs el)].
    apply (pushed _ _ _ Hok'); [by apply (localFront_room _ _ _ Hok')|].
    by destruct (ok_localFront _ _ _ Hok') as (? & ? & ? & ? & ?). }
  destruct (decide (incr b (tail b) = localFront b)) as [Hl|Hne].
  2: { exists true. eexists. split; [by apply enqueue_room|]. split; [by apply Hpush|]. split; [by left|done]. }
  destruct (decide (incr b (tail b) = front b)) as [Hf|Hne].
  2: { exists true. eexists. split; [by apply enqueue_refresh|].
       split; [by apply (Hpush _ (localFront_refreshed _ _ _ Hok))|]. split; [by left|done]. }
  assert (full el) as Hfull by (by apply (full_iff _ _ _ Hok)).
  destruct free as [|f free]; [destruct c|].
  - by eapply enqueued_allocating.
  - by eapply enqueued_refused.
  - by eapply enqueued_advancing.
Qed.

(** The front block, and the contents behind it. *)
Definition front_entry (pre : list entry) (el : entry) : entry := hd el pre.
Definition behind (pre : list entry) (el : entry) : list T := contents (tl (pre ++ [el])).

Lemma contents_front pre el : contents (pre ++ [el]) = e_xs (front_entry pre el) ++ behind pre el.
Proof. by destruct pre. Qed.

Lemma inv_front_block cap q pre el free :
  inv cap q pre el free ->
  exists b, blocks q !! frontBlock q = Some b /\
    block_ok (e_bits (front_entry pre el)) b (e_xs (front_entry pre el)) /\
    (forall e pre', pre = e :: pre' -> next b = Some (e_id (front_entry pre' el))).
Proof.
  intros I. pose proof (inv_ring _ _ _ _ _ I) as R. rewrite (inv_front _ _ _ _ _ I).
  destruct pre as [|e pre]; cbn [front_entry hd ids fmap list_fmap app] in *.
  - destruct (ring_lookup _ [] _ _ R) as (b & Hb & Hok & _). exists b. by split; [|split].
  - destruct (ring_lookup _ [] _ _ R) as (b & Hb & Hok & Hn). exists b. split; [done|]. split; [done|].
    intros e' pre' [= <- <-]. rewrite Hn, ids_app. by destruct pre.
Qed.

Lemma inv_change_any_front cap q pre el free b b' xs :
  inv cap q pre el free -> blocks q !! frontBlock q = Some b -> next b' = next b ->
  block_ok (e_bits (front_entry pre el)) b' xs ->
  holds cap (set_blocks (<[frontBlock q := b']> (blocks q)) q) (xs ++ behind pre el).
Proof.
  intros I Hb Hn Hok. destruct pre as [|e pre].
  - assert (frontBlock q = tailBlock q) as E by (by rewrite (inv_front _ _ _ _ _ I), (inv_tail _ _ _ _ _ I)).
    rewrite E in *. exists [], (update xs el), free. split; [by eapply inv_change_tail|done].
  - exists (update xs e :: pre), el, free. split; [by eapply inv_change_front|done].
Qed.

(** The consumer moves on: the block it leaves is free. *)
Lemma inv_leave cap q e pre el free :
  inv cap q (e :: pre) el free -> e_xs e = [] ->
  inv cap (mk (blocks q) (mallocs q) (e_id (front_entry pre el)) (tailBlock q) (largestBlockSize q))
    pre el (free ++ [e]).
Proof.
  intros [R Fr Fb Tb Fe Fu La (s & k & Hs & Hk & El & Hbits & Hcap)] He.
  assert (pre ++ el :: free ++ [e] = (pre ++ el :: free) ++ [e]) as E by by rewrite <- app_assoc.
  assert (bits ((pre ++ el :: free) ++ [e]) ≡ₚ bits ((e :: pre) ++ el :: free)) as P
    by (symmetry; apply fmap_Permutation, Permutation_cons_append).
  split; cbn [blocks mallocs frontBlock tailBlock largestBlockSize]; try done.
  - rewrite E. by apply ring_rotate.
  - by destruct pre.
  - apply Forall_app. by repeat constructor.
  - cbn in Fu. by destruct Fu.
  - intros _. by apply La.
  - exists s, k. rewrite E. rewrite (Permutation_length P).
    split; [lia|]. split; [lia|]. split; [done|]. split; [|exact Hcap].
    exact (Permutation_Forall (symmetry P) Hbits).
Qed.

Definition dequeued (cap : Z) (q : t) (xs : list T) : Prop :=
  match xs with
  | [] => exists q',
      (try_dequeue q = Some (None, q') /\ pop q = Some (false, q') /\ peek q = Some (None, q')) /\
      mallocs q' = mallocs q /\ holds cap q' []
  | x :: xs => exists q' q'', consumes q x q' q'' /\
      mallocs q' = mallocs q /\ mallocs q'' = mallocs q /\ holds cap q' xs /\ holds cap q'' (x :: xs)
  end.

(** There is an element in the front block. *)
Lemma dequeued_here cap q pre el free x ys :
  inv cap q pre el free -> e_xs (front_entry pre el) = x :: ys ->
  dequeued cap q (x :: ys ++ behind pre el).
Proof.
  intros I E. destruct (inv_front_block _ _ _ _ _ I) as (b & Hb & Hok & _). rewrite E in Hok.
  assert (data b !! front b = Some x) as Hx by (by eapply front_element).
  assert (front b <> tail b) as Hft by (intros Hbad; by apply (front_eq_tail _ _ _ Hok) in Hbad).
  pose proof (localTail_refreshed _ _ _ Hok) as Hok'.
  destruct (decide (front b = localTail b)) as [Hl|Hl].
  - do 2 eexists. split; [by apply dequeue_refresh|]. split; [done|]. split; [done|]. split.
    + eapply inv_change_any_front; [done|done|done|]. by eapply (popped _ _ _ Hok').
    + by eapply (inv_change_any_front _ _ _ _ _ _ _ (x :: ys)).
  - do 2 eexists. split; [by apply dequeue_fast|]. split; [done|]. split; [done|]. split.
    + eapply inv_change_any_front; [done|done|done|]. by eapply (popped _ _ _ Hok).
    + exists pre, el, free. split; [done|]. by rewrite contents_front, E.
Qed.

(** The front block is empty, and the next one is not. *)
Lemma dequeued_next cap q e pre el free :
  inv cap q (e :: pre) el free -> e_xs e = [] -> dequeued cap q (contents (pre ++ [el])).
Proof.
  intros I E. destruct (inv_front_block _ _ _ _ _ I) as (b & Hb & Hok & Hn).
  cbn [front_entry hd] in Hok. rewrite E in Hok. specialize (Hn e pre eq_refl).
  assert (front b = tail b) as Hft by (by apply (front_eq_tail _ _ _ Hok)).
  assert (front b = localTail b) as Hl by (by apply (localTail_empty _ _ _ Hok)).
  pose proof (inv_change_front _ _ _ _ _ _ _ (set_localTail (tail b) b) [] I Hb eq_refl
    (localTail_refreshed _ _ _ Hok)) as I1.
  pose proof (inv_leave _ _ _ _ _ _ I1 eq_refl) as I2.
  destruct (inv_front_block _ _ _ _ _ I2) as (nb & Hnb & Hnok & _). cbn in Hnb.
  assert (frontBlock q <> tailBlock q /\ frontBlock q <> e_id (front_entry pre el)) as [Hd1 Hd2].
  { pose proof (inv_distinct _ _ _ _ _ I) as Hd. rewrite (inv_tail _ _ _ _ _ I), (inv_front _ _ _ _ _ I).
    cbn in Hd |- *. apply NoDup_cons in Hd as [Hd _]. rewrite ids_app in Hd.
    split; intros Heq; apply Hd, elem_of_app; rewrite Heq.
    - right. apply list_elem_of_here.
    - destruct pre as [|e1 pre1]; [right|left]; apply list_elem_of_here. }
  rewrite lookup_insert_ne in Hnb by done.
  assert (exists x ys, e_xs (front_entry pre el) = x :: ys) as (x & ys & Ex).
  { destruct (e_xs (front_entry pre el)) as [|x ys] eqn:Ex; [exfalso|by eauto].
    destruct pre as [|e1 pre1]; cbn in Ex; [by apply (inv_last _ _ _ _ _ I)|].
    pose proof (inv_full _ _ _ _ _ I) as Hf. cbn in Hf. apply Forall_cons in Hf as [Hf _].
    unfold full in Hf. cbn in Hnok. rewrite Ex in *. pose proof (slots_pos _ _ _ Hnok). cbn in Hf. lia. }
  rewrite contents_front, Ex. rewrite Ex in Hnok. cbn [app dequeued].
  assert (front nb <> tail nb) as Hnft by (intros Hbad; by apply (front_eq_tail _ _ _ Hnok) in Hbad).
  do 2 eexists. split.
  { apply (dequeue_next q b Hb x _ nb Hl Hft Hd1 Hn Hd2 Hnb Hnft). by eapply front_element. }
  split; [done|]. split; [done|]. split.
  - pose proof (localTail_refreshed _ _ _ Hnok) as Hn'.
    eapply (inv_change_any_front _ _ _ _ _ nb (taken (set_localTail (tail nb) nb)) ys I2);
      [cbn; by rewrite lookup_insert_ne|done|]. by eapply (popped _ _ _ Hn').
  - eexists (_ :: pre), el, free. split; [exact I1|].
    change (x :: ys ++ behind pre el = contents (pre ++ [el])). by rewrite contents_front, Ex.
Qed.

(** Dequeuing, popping and peeking at the front of the list. *)
Lemma dequeue_holds cap q xs : holds cap q xs -> dequeued cap q xs.
Proof.
  intros (pre & el & free & I & ->). rewrite contents_front.
  destruct (e_xs (front_entry pre el)) as [|x ys] eqn:Ex; [|by eapply dequeued_here].
  destruct pre as [|e pre]; [|by eapply dequeued_next].
  destruct (inv_front_block _ _ _ _ _ I) as (b & Hb & Hok & _). rewrite Ex in Hok.
  eexists. split.
  { apply dequeue_empty; [done|by apply (localTail_empty _ _ _ Hok)|by apply (front_eq_tail _ _ _ Hok)|].
    by rewrite (inv_front _ _ _ _ _ I), (inv_tail _ _ _ _ _ I). }
  split; [done|]. by eapply (inv_change_any_front _ _ _ _ _ b _ [] I), localTail_refreshed.
Qed.
End operations.

(** The ring that starts at the front block. *)
Lemma inv_whole_ring cap q pre el free :
  inv cap q pre el free ->
  exists e r, pre ++ el :: free = e :: r /\ e_id e = frontBlock q /\
    contents (e :: r) = contents (pre ++ [el]) /\ frontBlock q ∉ ids r.
Proof.
  intros I. pose proof (inv_distinct _ _ _ _ _ I) as Hd. pose proof (inv_front _ _ _ _ _ I) as HF.
  assert (contents (pre ++ el :: free) = contents (pre ++ [el])) as E.
  { change (el :: free) with ([el] ++ free). rewrite app_assoc, contents_app.
    by rewrite (contents_nil free), app_nil_r by apply (inv_free _ _ _ _ _ I). }
  destruct pre as [|e pre]; cbn [app] in *; do 2 eexists; split; try done.
  all: split; [done|]; split; [done|]; rewrite HF; by apply NoDup_cons in Hd as [Hd _].
Qed.

Lemma ring_size bl r : ring_ok bl r -> (length r <= size bl)%nat.
Proof.
  intros R. assert (list_to_set (ids r) ⊆ dom bl) as Hsub.
  { intros p Hp%elem_of_list_to_set. apply list_elem_of_fmap in Hp as (e & -> & He).
    pose proof (ring_entries _ _ R) as Hf. rewrite Forall_forall in Hf.
    destruct (Hf e He) as (b & Hb & _). apply elem_of_dom. by eexists. }
  apply subseteq_size in Hsub. rewrite size_dom in Hsub.
  rewrite size_list_to_set in Hsub by apply (ring_distinct _ _ R). unfold ids in Hsub.
  by rewrite length_fmap in Hsub.
Qed.

Lemma sum_blocks_ring l e f fuel acc q :
  (length (e :: l) <= fuel)%nat -> f ∉ ids l ->
  Forall (entry_ok (blocks q)) (e :: l) -> linked (blocks q) (ids (e :: l)) f ->
  sum_blocks fuel (e_id e) f acc q = Some (u64 (acc + Z.of_nat (length (contents (e :: l)))), q).
Proof.
  revert e fuel acc. induction l as [|e' l IH]; intros e fuel acc Hfuel Hf He Hl;
    (destruct fuel as [|fuel]; [cbn in Hfuel; lia|]);
    cbn in Hl; destruct Hl as [(b & Hb & Hn) Hl]; apply Forall_cons in He as [(b' & Hb' & Hok) He];
    assert (b' = b) as -> by congruence; cbn [sum_blocks]; exec; rewrite Hn; exec;
    rewrite (count_slots _ _ _ Hok).
  - rewrite decide_True by done. cbn. by rewrite app_nil_r.
  - cbn in Hf. apply not_elem_of_cons in Hf as [Hne Hf]. rewrite decide_False by done.
    cbn in Hfuel. rewrite IH by (done || (cbn; lia)). rewrite wrap_add_l. do 3 f_equal.
    unfold contents. cbn. rewrite !length_app. lia.
Qed.

(** The number of elements is exact when nobody else uses the queue. *)
Lemma size_approx_holds cap q xs :
  holds cap q xs -> size_approx q = Some (u64 (Z.of_nat (length xs)), q).
Proof.
  intros (pre & el & free & I & ->).
  destruct (inv_whole_ring _ _ _ _ _ I) as (e & r & E & HF & Hc & Hnin).
  pose proof (inv_ring _ _ _ _ _ I) as R. rewrite E in R. unfold size_approx. exec.
  rewrite <- HF in *. rewrite (sum_blocks_ring r e (e_id e) (size (blocks q)) 0 q).
  - by rewrite Z.add_0_l, Hc.
  - exact (ring_size _ _ R).
  - done.
  - apply (ring_entries _ _ R).
  - apply (ring_linked _ _ R).
Qed.

(** *** Destruction *)

Lemma destroy_slots_spec k p xs i fuel q b :
  blocks q !! p = Some b -> sizeMask b = Z.ones k -> 1 <= k < 64 -> Z.of_nat (length xs) < 2 ^ k ->
  0 <= i < 2 ^ k -> (length xs < fuel)%nat ->
  (forall j x, xs !! j = Some x -> data b !! ((i + Z.of_nat j) `mod` 2 ^ k) = Some x) ->
  exists b', next b' = next b /\ rawThis b' = rawThis b /\
  destroy_slots fuel p i ((i + Z.of_nat (length xs)) `mod` 2 ^ k) q =
    Some (xs, set_blocks (<[p := b']> (blocks q)) q).
Proof.
  intros Hb Hmask Hk. revert i fuel q b Hb Hmask.
  induction xs as [|x xs IH]; intros i fuel q b Hb Hmask Hlen Hi Hfuel Hdata;
    (destruct fuel as [|fuel]; [lia|]); cbn [destroy_slots].
  - exists b. cbn [length]. rewrite Z.add_0_r, Z.mod_small, Z.eqb_refl by done. exec.
    by rewrite insert_id by done; destruct q.
  - cbn [length] in *. rewrite Nat2Z.inj_succ in *.
    assert (i <> (i + Z.succ (Z.of_nat (length xs))) `mod` 2 ^ k) as Hne.
    { intros E. rewrite <- (Z.mod_small i (2 ^ k)) in E at 1 by done.
      rewrite <- (Z.add_0_r i) in E at 1. apply mod_offset_inj in E; lia. }
    rewrite (proj2 (Z.eqb_neq _ _)) by done. exec.
    pose proof (Hdata 0%nat x eq_refl) as H0. rewrite Z.add_0_r, Z.mod_small in H0 by done.
    rewrite H0. exec.
    assert (incr b i = (i + 1) `mod` 2 ^ k) as Ei.
    { unfold incr. rewrite Hmask, Z.land_ones by lia. f_equal. apply wrap_small. unfold in_width.
      pose proof (Z.pow_le_mono_r 2 k 63). lia. }
    destruct (IH ((i + 1) `mod` 2 ^ k) fuel (set_blocks (<[p := destroy i b]> (blocks q)) q) (destroy i b))
      as (b' & Hn & Hr & E); [|done|lia|apply Z.mod_pos_bound; lia|lia| |].
    { cbn. by rewrite lookup_insert_eq. }
    { intros j y Hy. rewrite Zplus_mod_idemp_l. cbn. rewrite lookup_delete_ne.
      - rewrite <- (Hdata (S j) y Hy). do 2 f_equal. lia.
      - intros Eij. apply lookup_lt_Some in Hy. rewrite <- (Z.mod_small i (2 ^ k)) in Eij at 1 by done.
        rewrite <- (Z.add_0_r i) in Eij at 1. replace (i + 1 + Z.of_nat j) with (i + (1 + Z.of_nat j)) in Eij by lia.
        apply mod_offset_inj in Eij; lia. }
    exists b'. split; [done|]. split; [done|]. rewrite Zplus_mod_idemp_l in E.
    replace (i + Z.succ (Z.of_nat (length xs))) with (i + 1 + Z.of_nat (length xs)) by lia.
    cbn [set_blocks] in E. rewrite Ei, E. cbn. by rewrite insert_insert_eq.
Qed.

Lemma destroy_slots_block k xs p q b :
  blocks q !! p = Some b -> block_ok k b xs ->
  exists b', next b' = next b /\ rawThis b' = rawThis b /\
  destroy_slots (S (Z.to_nat (sizeMask b))) p (front b) (tail b) q =
    Some (xs, set_blocks (<[p := b']> (blocks q)) q).
Proof.
  intros Hb Hok. pose proof (slots_pos _ _ _ Hok) as Hs. destruct Hok as [B Mk F L Tl LT LF D]. rewrite Tl.
  apply (destroy_slots_spec k); try done.
  - rewrite Mk, Z.ones_equiv. lia.
  - intros j x Hx. pose proof (lookup_lt_Some _ _ _ Hx) as Hj.
    rewrite D, decide_True by (apply Z.mod_pos_bound; lia). rewrite Zminus_mod_idemp_l.
    replace (front b + Z.of_nat j - front b) with (Z.of_nat j) by lia.
    by rewrite Z.mod_small, Nat2Z.id by lia.
Qed.

(** The addresses of the memory of the blocks. *)
Definition raws_of (bl : gmap nat Block) : list Z := (map_to_list (rawThis <$> bl)).*2.

Lemma raws_delete bl p b b' :
  bl !! p = Some b -> rawThis b' = rawThis b ->
  raws_of bl ≡ₚ rawThis b :: raws_of (delete p (<[p := b']> bl)).
Proof.
  intros Hb Hr. unfold raws_of. rewrite delete_insert_eq, fmap_delete.
  rewrite <- (map_to_list_delete (rawThis <$> bl) p (rawThis b)); [done|].
  by rewrite lookup_fmap, Hb.
Qed.

Lemma entries_delete bl p r :
  p ∉ ids r -> Forall (entry_ok bl) r -> Forall (entry_ok (delete p bl)) r.
Proof.
  intros Hp. rewrite !Forall_forall. intros Hr e He. destruct (Hr e He) as (b0 & H & Hok).
  exists b0. rewrite lookup_delete_ne; [done|]. intros ->. by apply Hp, list_elem_of_fmap_2.
Qed.

Lemma linked_delete bl p l f : p ∉ l -> linked bl l f -> linked (delete p bl) l f.
Proof.
  induction l as [|p' l IH]; [done|]. intros Hp [(b0 & H & E) Hl].
  apply not_elem_of_cons in Hp as [Hne Hp]. split; [|by apply IH].
  exists b0. by rewrite lookup_delete_ne.
Qed.

Lemma destroy_blocks_spec l e f fuel q :
  (length (e :: l) <= fuel)%nat -> f ∉ ids l -> NoDup (ids (e :: l)) ->
  Forall (entry_ok (blocks q)) (e :: l) -> linked (blocks q) (ids (e :: l)) f ->
  exists raws q', destroy_blocks fuel (e_id e) f q = Some ((contents (e :: l), raws), q') /\
    raws_of (blocks q) ≡ₚ raws ++ raws_of (blocks q') /\ mallocs q' = mallocs q /\
    (forall p, is_Some (blocks q' !! p) -> is_Some (blocks q !! p) /\ p ∉ ids (e :: l)).
Proof.
  revert e fuel q. induction l as [|e' l IH]; intros e fuel q Hfuel Hf Hd He Hl;
    (destruct fuel as [|fuel]; [cbn in Hfuel; lia|]);
    destruct Hl as [(b & Hb & Hn) Hl]; apply Forall_cons in He as [(b1 & Hb1 & Hok) He];
    assert (b1 = b) as -> by congruence;
    destruct (destroy_slots_block _ _ _ _ _ Hb Hok) as (b' & Hn' & Hr' & E);
    pose proof (raws_delete (blocks q) (e_id e) b b' Hb Hr') as HP;
    cbn [destroy_blocks]; unfold mbind at 1, M_bind at 1; unfold load at 1; rewrite Hb;
    unfold mbind at 1, M_bind at 1; rewrite E;
    unfold free_block; exec; rewrite Hn; exec; cbn [hd fmap list_fmap ids] in *.
  - rewrite decide_True by done. exec. exists [rawThis b]. eexists.
    split; [unfold contents; cbn; by rewrite app_nil_r|]. split; [exact HP|]. split; [done|].
    intros p Hp. cbn in Hp. apply lookup_delete_is_Some in Hp as [Hne Hp].
    rewrite lookup_insert_ne in Hp by done. split; [done|]. by apply not_elem_of_cons; split; [|apply not_elem_of_nil].
  - apply not_elem_of_cons in Hf as [Hne Hf]. rewrite decide_False by done.
    apply NoDup_cons in Hd as [Hnin Hd].
    destruct (IH e' fuel (set_blocks (delete (e_id e) (<[e_id e := b']> (blocks q))) q))
      as (raws & q' & E' & HP' & Hm & Hdom); [cbn in *; lia|done|done| | |].
    { apply (entries_delete _ _ (e' :: l)); [done|]. by apply (entries_insert _ _ _ (e' :: l)). }
    { apply (linked_delete _ _ (ids (e' :: l))); [done|]. by apply linked_insert_other. }
    cbn [set_blocks] in E'. rewrite E'. exec. exists (rawThis b :: raws), q'. split; [done|].
    split; [|split; [done|]].
    + rewrite HP. cbn. by constructor.
    + intros p Hp. apply Hdom in Hp as [Hp Hp']. cbn in Hp.
      apply lookup_delete_is_Some in Hp as [Hpe Hp]. rewrite lookup_insert_ne in Hp by done.
      split; [done|]. by apply not_elem_of_cons.
Qed.

(** The destructor ends every element and gives every block back once. *)
Lemma destructor_holds cap q xs :
  holds cap q xs ->
  exists raws q', destructor q = Some ((xs, raws), q') /\
    raws ≡ₚ raws_of (blocks q) /\ blocks q' = ∅ /\ mallocs q' = mallocs q.
Proof.
  intros (pre & el & free & I & ->).
  destruct (inv_whole_ring _ _ _ _ _ I) as (e & r & E & HF & Hc & Hnin).
  pose proof (inv_ring _ _ _ _ _ I) as R. rewrite E in R. unfold destructor. exec.
  rewrite <- HF in *. pose proof (ring_linked _ _ R) as Hl. cbn [ids fmap list_fmap hd] in Hl.
  destruct (destroy_blocks_spec r e (e_id e) (size (blocks q)) q) as (raws & q' & Ed & HP & Hm & Hdom).
  - exact (ring_size _ _ R).
  - done.
  - apply (ring_distinct _ _ R).
  - apply (ring_entries _ _ R).
  - exact Hl.
  - exists raws, q'. rewrite Hc in Ed. split; [done|].
    assert (blocks q' = ∅) as E0.
    { apply map_empty. intros p. destruct (blocks q' !! p) as [b|] eqn:Eb; [|done].
      destruct (Hdom p ltac:(by eexists)) as [Hp Hnp]. by apply (ring_all _ _ R) in Hp. }
    split; [|done]. rewrite HP, E0. unfold raws_of at 1. rewrite fmap_empty, map_to_list_empty.
    by rewrite app_nil_r.
Qed.

(** *** Construction *)

Section construction.
Context (m : Z) (Hm : 1 <= m < 64) (HMAX : MAX_BLOCK_SIZE = 2 ^ m).

(** The ring that has been built so far: blocks of one size, all empty. *)
Record built (q : t) (r : list entry) (first : nat) : Prop := {
  built_ring : ring_ok (blocks q) r;
  built_fresh : forall p, is_Some (blocks q !! p) -> (p < mallocs q)%nat;
  built_first : hd_error (ids r) = Some first;
  built_entries : Forall (fun e => e_xs e = [] /\ e_bits e = m) r }.

Lemma built_hd q r first d : built q r first -> hd d (ids r) = first.
Proof. intros B. pose proof (built_first _ _ _ B) as E. destruct (ids r); [done|]. by injection E. Qed.

Lemma built_more q r e first raw dat :
  built q (r ++ [e]) first ->
  exists b, blocks q !! e_id e = Some b /\ mallocs q <> e_id e /\
  built (mk (<[e_id e := set_next (Some (mallocs q)) b]>
              (<[mallocs q := set_next (Some first) (new_Block MAX_BLOCK_SIZE raw dat)]> (blocks q)))
          (S (mallocs q)) (frontBlock q) (tailBlock q) (largestBlockSize q))
    ((r ++ [e]) ++ [Entry (mallocs q) m []]) first.
Proof.
  intros B. destruct B as [R Fr Fi En]. destruct (ring_lookup _ _ _ _ R) as (b & Hb & _).
  assert (e_id e < mallocs q)%nat as Hlt by (apply Fr; by eexists).
  exists b. split; [done|]. split; [lia|]. split; cbn.
  - eapply ring_grow; [done|done| | |].
    + destruct (blocks q !! mallocs q) as [b0|] eqn:E; [|done].
      specialize (Fr (mallocs q) ltac:(by eexists)). lia.
    + apply next_replaced. rewrite HMAX. by apply new_block_ok.
    + cbn. f_equal. destruct (ids (r ++ [e])); [done|]. by injection Fi.
  - intros p [b0 H]. apply lookup_insert_Some in H as [[<- _]|[_ [[<- _]|[_ H]]%lookup_insert_Some]]; [lia|lia|].
    assert (p < mallocs q)%nat by (apply Fr; by eexists). lia.
  - rewrite ids_app. destruct (ids (r ++ [e])); [done|]. exact Fi.
  - apply Forall_app. split; [done|]. by apply Forall_singleton.
Qed.

(** What [make_ring] leaves, if [malloc] does not fail. *)
Definition ring_made (q : t) (len : nat) (first : nat) (out : option (option nat) * t) : Prop :=
  match out with
  | (None, _) => exists n bytes, malloc n bytes = None
  | (Some p, q') => p = Some first /\ largestBlockSize q' = largestBlockSize q /\
      exists r, built q' r first /\ length r = len
  end.

Lemma make_ring_more count q r e first :
  built q (r ++ [e]) first ->
  exists out, make_ring count (Some first) (Some (e_id e)) q = Some out /\
    ring_made q (length (r ++ [e]) + count) first out.
Proof.
  revert q r e. induction count as [|count IH]; intros q r e B; cbn [make_ring].
  - exec. eexists. split; [done|]. split; [done|]. split; [done|]. exists (r ++ [e]). split; [done|lia].
  - unfold make_block. exec. destruct (malloc (mallocs q) _) as [raw|] eqn:Em; exec;
      [|eexists; split; [done|by do 2 eexists]].
    set (dat := align_for alignT _). clearbody dat.
    destruct (built_more q r e first raw dat B) as (b & Hb & Hne & B').
    exec. cbn [new_Block]. exec.
    rewrite (insert_insert_ne _ (mallocs q) (e_id e)), insert_insert_eq by done.
    destruct (IH _ _ _ B') as (out & E & Hout). cbn [e_id] in E.
    exists out. split; [exact E|].
    rewrite length_app in Hout. cbn [length] in Hout. rewrite Nat.add_succ_r, Nat.add_0_r in Hout.
    rewrite <- Nat.add_succ_comm. destruct out as [[p|] q']; exact Hout.
Qed.

Lemma make_ring_spec count n q :
  blocks q = ∅ -> mallocs q = n -> (0 < count)%nat ->
  exists out, make_ring count None None q = Some out /\ ring_made q count n out.
Proof.
  intros Hbl Hn Hc. destruct count as [|count]; [lia|]. cbn [make_ring]. unfold make_block. exec.
  rewrite Hbl, Hn. destruct (malloc n _) as [raw|] eqn:Em; exec; [|eexists; split; [done|by do 2 eexists]].
  set (dat := align_for alignT _). clearbody dat. cbn [new_Block]. exec.
  match goal with |- context [make_ring count (Some n) (Some n) ?q0] => 
    destruct (make_ring_more count q0 [] (Entry n m []) n) as (out & E & Hout) end.
  - pose proof (new_block_ok m raw dat Hm) as Hok. rewrite <- HMAX in Hok.
    pose proof (next_replaced _ _ _ Hok (Some n)) as Hok'.
    split; cbn; [by apply ring_single| |done|by apply Forall_singleton].
    intros p [b0 [<- _]%lookup_singleton_Some]. lia.
  - exists out. split; [exact E|]. destruct out as [[p|] q']; exact Hout.
Qed.

Lemma built_holds cap q r first :
  built q r first -> largestBlockSize q = 2 ^ m ->
  cap <= Z.max 1 (Z.of_nat (length r) - 1) * (2 ^ m - 1) ->
  holds cap (mk (blocks q) (mallocs q) first first (largestBlockSize q)) [].
Proof.
  intros [R Fr Fi En] El Hcap. destruct r as [|e r]; [done|]. injection Fi as <-.
  apply Forall_cons in En as [[Hx Hb] En]. exists [], e, r.
  split; [|by unfold contents; cbn; rewrite Hx].
  split; cbn; try done.
  - eapply Forall_impl; [exact En|]. by intros e' [He' _].
  - exists m, m. split; [lia|]. split; [lia|]. split; [done|]. split.
    + rewrite Hb. constructor; [lia|]. apply Forall_fmap. eapply Forall_impl; [exact En|].
      intros e' [_ He']. cbn. lia.
    + unfold bits. rewrite length_fmap. done.
Qed.

(** Enough blocks for [maxSize] elements. *)
Lemma block_count_enough maxSize :
  0 < maxSize ->
  let count := (maxSize + MAX_BLOCK_SIZE * 2 - 3) / (MAX_BLOCK_SIZE - 1) in
  1 <= count /\ maxSize <= (count - 1) * (2 ^ m - 1).
Proof.
  intros Hs. rewrite HMAX. cbv zeta. assert (2 <= 2 ^ m) by (change 2 with (2 ^ 1) at 1; apply Z.pow_le_mono_r; lia).
  pose proof (Z.div_mod (maxSize + 2 ^ m * 2 - 3) (2 ^ m - 1) ltac:(lia)) as E.
  pose proof (Z.mod_pos_bound (maxSize + 2 ^ m * 2 - 3) (2 ^ m - 1) ltac:(lia)) as Hr.
  revert E Hr. generalize ((maxSize + 2 ^ m * 2 - 3) / (2 ^ m - 1)), ((maxSize + 2 ^ m * 2 - 3) `mod` (2 ^ m - 1)).
  intros c r E Hr. nia.
Qed.

Lemma ceilToPow2_pow2 k : 1 <= k < 64 -> ceilToPow2 (2 ^ k) = 2 ^ k.
Proof.
  intros Hk. pose proof (Z.pow_lt_mono_r 2 k 64). pose proof (Z.pow_nonneg 2 k).
  unfold ceilToPow2. rewrite ceil_to_pow_2_pos; [|by right|split; lia|].
  - rewrite Z.log2_up_pow2 by lia. apply wrap_small. split; lia.
  - apply Z.pow_pos_nonneg; lia.
Qed.

(** The size of a single block: at least [maxSize + 1] slots. *)
Lemma first_size maxSize :
  0 < maxSize -> maxSize + 1 <= 2 ^ 63 ->
  exists k, 1 <= k < 64 /\ ceilToPow2 (u64 (maxSize + 1)) = 2 ^ k /\ maxSize + 1 <= 2 ^ k.
Proof.
  intros Hs Hle. rewrite wrap_small by (split; lia). exists (Z.log2_up (maxSize + 1)).
  assert (Z.log2_up (maxSize + 1) <= 63) as Hk.
  { rewrite <- (Z.log2_up_pow2 63) by lia. by apply Z.log2_up_le_mono. }
  assert (1 <= Z.log2_up (maxSize + 1)) as Hk1.
  { change 1 with (Z.log2_up 2) at 1. apply Z.log2_up_le_mono. lia. }
  split; [lia|]. split; [|apply Z.log2_up_spec; lia].
  unfold ceilToPow2. rewrite ceil_to_pow_2_pos; [|by right|split; lia|lia].
  apply wrap_small. split; [apply Z.pow_nonneg; lia|]. apply Z.pow_lt_mono_r; lia.
Qed.

Lemma construct_holds maxSize n :
  0 < maxSize -> maxSize + 2 * MAX_BLOCK_SIZE <= 2 ^ 63 ->
  exists ok q, construct maxSize (unconstructed n) = Some (ok, q) /\
    if (ok : bool) then holds maxSize q [] else exists i bytes, malloc i bytes = None.
Proof.
  intros Hs Hle. assert (2 <= 2 ^ m) as H2 by (change 2 with (2 ^ 1) at 1; apply Z.pow_le_mono_r; lia).
  destruct (first_size maxSize Hs ltac:(lia)) as (k & Hk & Ek & Hk1).
  unfold construct, unconstructed. exec. rewrite Ek.
  rewrite (proj2 (Z.ltb_lt 0 maxSize) Hs), HMAX, ceilToPow2_pow2, Z.eqb_refl by done.
  rewrite (proj2 (Z.leb_le 2 (2 ^ m)) H2). exec. rewrite !(wrap_small 64 (2 ^ m * 2)) by (split; lia).
  destruct (Z.ltb_spec (2 ^ m * 2) (2 ^ k)) as [Hbig|Hsmall]; exec.
  - rewrite (wrap_small 64 (maxSize + 2 ^ m * 2)), (wrap_small 64 (_ - 3)) by (split; lia).
    destruct (block_count_enough maxSize Hs) as [Hc1 Hc2]. rewrite HMAX in Hc1, Hc2.
    match goal with |- context [make_ring ?c None None ?q0] =>
      destruct (make_ring_spec c n q0 eq_refl eq_refl ltac:(lia)) as ([[p|] q'] & E & Hout) end;
      rewrite E; exec.
    + destruct Hout as (-> & El & r & B & Hlen). exec. do 2 eexists. split; [done|]. cbn in El |- *.
      apply (built_holds _ _ _ _ B); [done|]. rewrite Hlen, Z2Nat.id by lia. nia.
    + do 2 eexists. by split.
  - unfold make_block. exec. destruct (malloc n _) as [raw|] eqn:Em; exec.
    + set (dat := align_for alignT _). clearbody dat. cbn [new_Block]. exec. do 2 eexists. split; [done|]. cbn.
      exists [], (Entry n k []), []. split; [|done]. split; cbn; try done.
      * apply ring_single; [|done]. exact (next_replaced _ _ _ (new_block_ok k raw dat Hk) (Some n)).
      * intros p [b0 [<- _]%lookup_singleton_Some]. lia.
      * exists k, k. split; [lia|]. split; [lia|]. split; [done|]. split; [by repeat constructor|]. lia.
    + do 2 eexists. split; [done|]. by do 2 eexists.
Qed.
End construction.

(** ** The queue as a list with a capacity *)

(** A state of the specification: the elements, and the blocks asked for. *)
Inductive spec_step (cap : Z) : list T * nat -> op -> res -> list T * nat -> Prop :=
| spec_try_enqueue xs n x : spec_step cap (xs, n) (TryEnqueue x) (Done true) (xs ++ [x], n)
| spec_try_enqueue_full xs n x :
    cap <= Z.of_nat (length xs) -> spec_step cap (xs, n) (TryEnqueue x) (Done false) (xs, n)
| spec_enqueue xs n x : spec_step cap (xs, n) (Enqueue x) (Done true) (xs ++ [x], n)
| spec_enqueue_grow xs n x :
    cap <= Z.of_nat (length xs) -> spec_step cap (xs, n) (Enqueue x) (Done true) (xs ++ [x], S n)
| spec_enqueue_fail xs n n' x i bytes :
    cap <= Z.of_nat (length xs) -> malloc i bytes = None ->
    spec_step cap (xs, n) (Enqueue x) (Done false) (xs, n')
| spec_try_dequeue xs n : spec_step cap (xs, n) TryDequeue (Got (head xs)) (tl xs, n)
| spec_peek xs n : spec_step cap (xs, n) Peek (Got (head xs)) (xs, n)
| spec_pop xs n : spec_step cap (xs, n) Pop (Done (negb (bool_decide (xs = [])))) (tl xs, n)
| spec_size xs n : spec_step cap (xs, n) SizeApprox (Count (u64 (Z.of_nat (length xs)))) (xs, n).

Inductive spec_run (cap : Z) : list T * nat -> list op -> list res -> list T * nat -> Prop :=
| spec_run_nil s : spec_run cap s [] [] s
| spec_run_cons s o r s' os rs s'' :
    spec_step cap s o r s' -> spec_run cap s' os rs s'' -> spec_run cap s (o :: os) (r :: rs) s''.

Section refinement.
Context (m : Z) (Hm : 1 <= m < 64) (HMAX : MAX_BLOCK_SIZE = 2 ^ m).

Lemma exec_enqueue cap xs q :
  holds cap q xs ->
  forall o x, o = TryEnqueue x \/ o = Enqueue x ->
  exists r q' xs', exec o q = Some (r, q') /\ holds cap q' xs' /\
    spec_step cap (xs, mallocs q) o r (xs', mallocs q').
Proof.
  intros H o x [-> | ->].
  - destruct (enqueue_holds m Hm HMAX cap CannotAlloc x q xs H) as (ok & q' & E & Hq & Hn & Hfail).
    exists (Done ok), q', (if ok then xs ++ [x] else xs). cbn [exec]. unfold try_enqueue. exec. rewrite E.
    split; [done|]. split; [done|]. destruct Hn as [->|[? _]]; [|done].
    destruct ok; constructor. by apply Hfail.
  - destruct (enqueue_holds m Hm HMAX cap CanAlloc x q xs H) as (ok & q' & E & Hq & Hn & Hfail).
    exists (Done ok), q', (if ok then xs ++ [x] else xs). cbn [exec]. unfold enqueue. exec. rewrite E.
    split; [done|]. split; [done|]. destruct ok.
    + destruct Hn as [->|(_ & Hc & ->)]; by constructor.
    + destruct (Hfail eq_refl) as [Hc Ho]. destruct (Ho eq_refl) as [b Hb]. by econstructor.
Qed.

(** Each operation, from a queue that holds a list, does what a list does. *)
Lemma exec_refines cap xs q o :
  holds cap q xs ->
  exists r q' xs', exec o q = Some (r, q') /\ holds cap q' xs' /\
    spec_step cap (xs, mallocs q) o r (xs', mallocs q').
Proof.
  intros H. destruct o as [x|x| | | |]; [by eapply exec_enqueue; eauto..| | | |].
  4: { do 3 eexists. cbn [exec]. exec. rewrite (size_approx_holds cap q xs H). exec. by repeat constructor. }
  all: pose proof (dequeue_holds m Hm cap q xs H) as D; destruct xs as [|x xs];
    [destruct D as (q' & (E1 & E2 & E3) & Hn & Hq)
    |destruct D as (q' & q'' & (E1 & E2 & E3) & Hn & Hn' & Hq & Hq')];
    cbn [exec]; exec; rewrite ?E1, ?E2, ?E3; exec; do 3 eexists; split; try done; split; try done.
  all: rewrite ?Hn, ?Hn'; match goal with |- spec_step _ (?xs, _) Pop _ _ =>
         exact (spec_pop cap xs _) | _ => by constructor end.
Qed.

Lemma run_refines cap os xs q :
  holds cap q xs ->
  exists rs q' xs', run os q = Some (rs, q') /\ holds cap q' xs' /\
    spec_run cap (xs, mallocs q) os rs (xs', mallocs q').
Proof.
  revert xs q. induction os as [|o os IH]; intros xs q H.
  - exists [], q, xs. repeat split; [done|constructor].
  - destruct (exec_refines cap xs q o H) as (r & q1 & xs1 & E1 & H1 & S1).
    destruct (IH xs1 q1 H1) as (rs & q2 & xs2 & E2 & H2 & S2).
    exists (r :: rs), q2, xs2. cbn [run]. exec. rewrite E1, E2. split; [done|]. split; [done|].
    by econstructor.
Qed.
End refinement.

(** C30: constructed for [maxSize] elements, the queue does on every sequence
    of operations what a list does: first in, first out, no operation reads a
    slot without an element, follows a dead pointer or fails an assertion.
    While it has fewer than [maxSize] elements, neither [try_enqueue] nor
    [enqueue] fails, and [enqueue] does not allocate; [try_enqueue] never
    does. *)
Theorem queue_refines_list m maxSize n os :
  1 <= m -> MAX_BLOCK_SIZE = 2 ^ m -> 0 < maxSize -> maxSize + 2 * MAX_BLOCK_SIZE <= 2 ^ 63 ->
  exists ok q, construct maxSize (unconstructed n) = Some (ok, q) /\
    (ok = false -> exists i bytes, malloc i bytes = None) /\
    (ok = true -> exists rs q' xs, run os q = Some (rs, q') /\
       spec_run maxSize ([], mallocs q) os rs (xs, mallocs q')).
Proof.
  intros Hm HMAX Hs Hle. assert (m < 64) as Hm64.
  { apply (Z.pow_lt_mono_r_iff 2); lia. }
  destruct (construct_holds m ltac:(lia) HMAX maxSize n Hs Hle) as (ok & q & E & H).
  exists ok, q. split; [done|]. destruct ok; (split; [done|]); [|done]. intros _.
  destruct (run_refines m ltac:(lia) HMAX _ os [] q H) as (rs & q' & xs & Er & _ & Hr). eauto.
Qed.

(** The destructor, after any operations, destroys exactly the elements
    that are still in the queue, each once and in order, gives the memory of
    every block back exactly once, and leaves no block. *)
Theorem queue_destruction m maxSize n q os rs q' :
  1 <= m -> MAX_BLOCK_SIZE = 2 ^ m -> 0 < maxSize -> maxSize + 2 * MAX_BLOCK_SIZE <= 2 ^ 63 ->
  construct maxSize (unconstructed n) = Some (true, q) -> run os q = Some (rs, q') ->
  exists xs raws q'', spec_run maxSize ([], mallocs q) os rs (xs, mallocs q') /\
    destructor q' = Some ((xs, raws), q'') /\ raws ≡ₚ raws_of (blocks q') /\ blocks q'' = ∅.
Proof.
  intros Hm HMAX Hs Hle Ec Er. assert (m < 64) as Hm64.
  { apply (Z.pow_lt_mono_r_iff 2); lia. }
  destruct (construct_holds m ltac:(lia) HMAX maxSize n Hs Hle) as (ok & q0 & E & H).
  rewrite Ec in E. injection E as <- <-.
  destruct (run_refines m ltac:(lia) HMAX _ os [] q H) as (rs' & q1 & xs & Er' & Hq & Hr).
  rewrite Er in Er'. injection Er' as <- <-.
  destruct (destructor_holds _ _ _ Hq) as (raws & q'' & Ed & HP & He & _). eauto 8.
Qed.

(** a block and its slots lie in the memory that [malloc] returned for
    them, both aligned, and do not overlap. *)
Theorem make_block_in_bounds capacity q p q' b :
  0 < alignB -> 0 < alignT -> 0 <= sizeB -> 0 <= sizeT -> 0 <= capacity ->
  sizeB + alignB + sizeT * capacity + alignT < 2 ^ 64 ->
  make_block capacity q = Some (Some p, q') -> blocks q' !! p = Some b ->
  let this := align_for alignB (rawThis b) in
  malloc (mallocs q) (block_bytes capacity) = Some (rawThis b) /\
  rawThis b <= this /\ (alignB | this) /\ this + sizeB <= dataAt b /\ (alignT | dataAt b) /\
  dataAt b + sizeT * capacity <= rawThis b + block_bytes capacity.
Proof.
  intros HB HT HsB HsT Hc Hov E Hb this. subst this. unfold make_block in E.
  destruct (malloc (mallocs q) (block_bytes capacity)) as [raw|] eqn:Em; [|done].
  injection E as <- <-. cbn in Hb. rewrite lookup_insert_eq in Hb. injection Hb as <-. cbn.
  destruct (align_for_spec alignB raw HB) as [HdB HrB].
  destruct (align_for_spec alignT (align_for alignB raw + sizeB) HT) as [HdT HrT].
  assert (block_bytes capacity = sizeB + alignB - 1 + (sizeT * capacity + alignT - 1)) as E.
  { unfold block_bytes. rewrite (wrap_small 64 (sizeT * capacity)), (wrap_small 64 (sizeB + _ - 1)) by (split; nia).
    rewrite wrap_small by (split; nia). lia. }
  rewrite E. repeat split; try done; lia.
Qed.

(** ** BlockingReaderWriterQueue *)

(** The semaphore of atomicops.h as one thread uses it: [wait] gives nothing
    when it would block. *)
Class SpscSema (S : Type) := {
  sema_init : S;
  sema_signal : S -> S;
  sema_tryWait : S -> bool * S;
  sema_wait : S -> option S;
  sema_availableApprox : S -> Z }.

(** Its documented behaviour: it counts. *)
Class SpscSemaLaws (S : Type) `{SpscSema S} := {
  sema_count : S -> Z;
  count_init : sema_count sema_init = 0;
  count_signal s : sema_count (sema_signal s) = sema_count s + 1;
  tryWait_some s : 0 < sema_count s ->
    exists s', sema_tryWait s = (true, s') /\ sema_count s' = sema_count s - 1;
  tryWait_none s : sema_count s = 0 -> exists s', sema_tryWait s = (false, s') /\ sema_count s' = 0;
  wait_some s : 0 < sema_count s -> exists s', sema_wait s = Some s' /\ sema_count s' = sema_count s - 1;
  wait_none s : sema_count s = 0 -> sema_wait s = None;
  available_count s : 0 <= sema_count s -> sema_availableApprox s = sema_count s }.

Section Blocking.
Context {S : Type} `{SpscSema S}.








Section blocking_refinement.
Context `{!SpscSemaLaws S} (m : Z) (Hm : 1 <= m < 64) (HMAX : MAX_BLOCK_SIZE = 2 ^ m).







End blocking_refinement.
End Blocking.
End Queue.

(** ** Concrete queues *)

(** A [malloc] that never fails, and a semaphore that is its count. *)
Definition bump_malloc (n : nat) (_ : Z) : option Z := Some (Z.of_nat n * 65536).

#[local] Instance counting_sema : SpscSema Z := {|
  sema_init := 0;
  sema_signal s := s + 1;
  sema_tryWait s := if 0 <? s then (true, s - 1) else (false, s);
  sema_wait s := if 0 <? s then Some (s - 1) else None;
  sema_availableApprox s := s |}.

#[local] Instance counting_sema_laws : SpscSemaLaws Z.
Proof.
  refine {| sema_count s := s |}; cbn; try done.
  - intros s Hs. rewrite (proj2 (Z.ltb_lt _ _)) by done. by eexists.
  - intros s ->. by eexists.
  - intros s Hs. rewrite (proj2 (Z.ltb_lt _ _)) by done. by eexists.
  - by intros s ->.
Defined.

(** Eight bytes an element, blocks of two slots, room for five. *)
Abbreviation small_construct := (@construct Z 8 8 128 64 2 bump_malloc 5).
Abbreviation small_run := (@run Z 8 8 128 64 2 bump_malloc).

Lemma queue_refines_list_witness :
  exists ok q, small_construct (unconstructed 0) = Some (ok, q) /\ ok = true /\
    exists rs q' xs, small_run [Enqueue 1; TryEnqueue 2; Enqueue 3; TryDequeue; Pop; Peek] q = Some (rs, q') /\
      spec_run bump_malloc 5 ([], mallocs q) [Enqueue 1; TryEnqueue 2; Enqueue 3; TryDequeue; Pop; Peek]
        rs (xs, mallocs q').
Proof.
  destruct (queue_refines_list 8 8 128 64 2 bump_malloc 1 5 0
    [Enqueue 1; TryEnqueue 2; Enqueue 3; TryDequeue; Pop; Peek] ltac:(lia) eq_refl ltac:(lia) ltac:(lia))
    as (ok & q & E & Hf & Ht).
  destruct ok; [|by destruct (Hf eq_refl) as (? & ? & ?)].
  exists true, q. split; [exact E|]. split; [reflexivity|exact (Ht eq_refl)].
Defined.

Lemma queue_destruction_witness :
  exists q rs q', small_construct (unconstructed 0) = Some (true, q) /\
    small_run [Enqueue 1; TryEnqueue 2; Enqueue 3; TryDequeue] q = Some (rs, q') /\
    exists xs raws q'', destructor q' = Some ((xs, raws), q'') /\ xs = [2; 3] /\ blocks q'' = ∅.
Proof.
  do 3 eexists. split; [vm_compute; reflexivity|]. split; [vm_compute; reflexivity|].
  match goal with |- exists _ _ _, destructor ?q' = _ /\ _ =>
    destruct (queue_destruction 8 8 128 64 2 bump_malloc 1 5 0 _ [Enqueue 1; TryEnqueue 2; Enqueue 3; TryDequeue]
      _ q' ltac:(lia) eq_refl ltac:(lia) ltac:(lia) ltac:(vm_compute; reflexivity)
      ltac:(vm_compute; reflexivity)) as (xs & raws & q'' & _ & Ed & _ & Hb) end.
  exists xs, raws, q''. split; [exact Ed|]. split; [|exact Hb].
  vm_compute in Ed. by injection Ed as <- _.
Defined.

Lemma make_block_in_bounds_witness :
  exists q' b, @make_block Z 8 8 128 64 bump_malloc 16 (unconstructed 3) = Some (Some 3%nat, q') /\
    blocks q' !! 3%nat = Some b /\
    dataAt b + 8 * 16 <= rawThis b + block_bytes 8 8 128 64 16.
Proof.
  destruct (@make_block Z 8 8 128 64 bump_malloc 16 (unconstructed 3)) as [[p q']|] eqn:E; [|done].
  assert (p = Some 3%nat) as -> by (vm_compute in E; by injection E).
  destruct (blocks q' !! 3%nat) as [b|] eqn:Hb; [|vm_compute in E; injection E as <-; by vm_compute in Hb].
  exists q', b. split; [done|]. split; [done|].
  destruct (make_block_in_bounds 8 8 128 64 bump_malloc 16 (unconstructed 3) 3 q' b) as (_ & _ & _ & _ & _ & Hin);
    [lia..|done|done|exact Hin].
Defined.


End ReaderWriterQueue.
