(* ===== verification/ReaderWriterThreads.v ===== *)
(** * The producer and the consumer of ReaderWriterQueue side by side
    (utils/readerwriterqueue.h)

    The queue of ReaderWriterQueue.v with its two threads, each with a program
    counter: a step is an access to something that the other thread may use at
    the same time, with what the thread does to its own variables. The blocks,
    the commands and the invariant are those of that file. *)
From S2P Require Import Prelude.
From S2P Require Import QueueUtils.
From S2P Require Import ReaderWriterQueue.
#[local] Open Scope Z_scope.

Module ReaderWriterThreads.
Import ReaderWriterQueue.ReaderWriterQueue.

Section Threads.
Context {T : Type}.
Context (sizeT alignT sizeB alignB MAX_BLOCK_SIZE : Z).
Context (malloc : nat -> Z -> option Z).

(** ** The producer *)

(** Where the producer is in [inner_enqueue]; [p] and [n] are blocks. *)
Inductive producing :=
| PIdle
| PStart (canAlloc : AllocationMode) (element : T)
| PReadFront (canAlloc : AllocationMode) (element : T)   (* [localFront] leaves no room: read [front] *)
| PPut (element : T)                                     (* there is room in the tail block *)
| PPublish (element : T)                                 (* the element is there, [tail] not yet *)
| PCheckNext (canAlloc : AllocationMode) (element : T)   (* the tail block is full *)
| PNext (element : T) (p : nat)                          (* there is a free block ahead *)
| PNextPut (element : T) (p : nat)
| PNextTail (element : T) (p : nat)
| PNextPublish (element : T) (p : nat)
| PAlloc (element : T)
| PLink (element : T) (n : nat)                          (* the new block is made *)
| PLinkPublish (element : T) (n : nat)
| PDone (ok : bool).

(** A change of one block, or of [tailBlock] or [frontBlock]. *)
Definition edit (p : nat) (f : Block -> Block) (q : t (T := T)) : t := set_blocks (alter f p (blocks q)) q.
Definition at_tailBlock (p : nat) (q : t (T := T)) : t := mk (blocks q) (mallocs q) (frontBlock q) p (largestBlockSize q).
Definition at_frontBlock (p : nat) (q : t (T := T)) : t := mk (blocks q) (mallocs q) p (tailBlock q) (largestBlockSize q).

Definition with_largest (n : Z) (q : t (T := T)) : t := mk (blocks q) (mallocs q) (frontBlock q) (tailBlock q) n.

(** [None] is undefined behaviour or a failed assertion. The variables of the
    producer ([tailBlock], [tail] and [localFront] of the tail block and those
    ahead, [next]) do not change between its steps. *)
Definition producer_step (pc : producing) (q : t) : option (producing * t) :=
  match pc with
  | PIdle | PDone _ => None
  | PStart c x =>
      b ← blocks q !! tailBlock q;
      Some (if decide (incr b (tail b) = localFront b) then PReadFront c x else PPut x, q)
  | PReadFront c x =>
      b ← blocks q !! tailBlock q;
      Some (if decide (incr b (tail b) = front b) then PCheckNext c x else PPut x,
            edit (tailBlock q) (set_localFront (front b)) q)
  | PPut x =>
      b ← blocks q !! tailBlock q;
      match data b !! tail b with
      | Some _ => None                          (* there is an element there *)
      | None => Some (PPublish x, edit (tailBlock q) (put (tail b) x) q)
      end
  | PPublish x =>
      b ← blocks q !! tailBlock q;
      Some (PDone true, edit (tailBlock q) (set_tail (incr b (tail b))) q)
  | PCheckNext c x =>
      b ← blocks q !! tailBlock q;
      if decide (next b = Some (frontBlock q)) then
        Some (match c with CanAlloc => PAlloc x | CannotAlloc => PDone false end, q)
      else p ← next b; Some (PNext x p, q)
  | PNext x p =>
      nb ← blocks q !! p;
      if front nb =? tail nb then Some (PNextPut x p, edit p (set_localFront (front nb)) q) else None
  | PNextPut x p =>
      nb ← blocks q !! p;
      match data nb !! tail nb with
      | Some _ => None
      | None => Some (PNextTail x p, edit p (put (tail nb) x) q)
      end
  | PNextTail x p =>
      nb ← blocks q !! p;
      Some (PNextPublish x p, edit p (set_tail (incr nb (tail nb))) q)
  | PNextPublish x p => Some (PDone true, at_tailBlock p q)
  | PAlloc x =>
      b ← blocks q !! tailBlock q;
      let size := newBlockSize MAX_BLOCK_SIZE q in
      r ← make_block sizeT alignT sizeB alignB malloc size q;
      match r with
      | (None, q) => Some (PDone false, q)
      | (Some n, q) =>
          nb ← blocks q !! n;
          if front nb =? 0 then
            Some (PLink x n, with_largest size
              (edit n (fun nb => set_next (next b) (set_tail 1 (set_localTail 1 (put 0 x nb)))) q))
          else None
      end
  | PLink x n => Some (PLinkPublish x n, edit (tailBlock q) (set_next (Some n)) q)
  | PLinkPublish x n => Some (PDone true, at_tailBlock n q)
  end.

(** ** The consumer *)

(** Where the consumer is in [try_dequeue] or [pop], or in [peek] ([look]). *)
Inductive consuming :=
| CIdle
| CStart (look : bool)
| CReadTail (look : bool)          (* [localTail] shows no element: read [tail] *)
| CTake (look : bool)              (* there is an element in the front block *)
| CPublish (x : T)                 (* it is moved out and destroyed, [front] not yet advanced *)
| CReadTailBlock (look : bool)
| CReread (look : bool)            (* there is a block ahead: read [tail] again *)
| CNext (look : bool)              (* the front block is empty for good *)
| CNextTail (look : bool) (p : nat)
| CLookNext (p : nat)
| CAdvance (p : nat)
| CTaken (x : option T)            (* what [try_dequeue] returns *)
| CSeen (x : option T).            (* what [peek] returns *)

Definition consumer_step (pc : consuming) (q : t) : option (consuming * t) :=
  match pc with
  | CIdle | CTaken _ | CSeen _ => None
  | CStart look =>
      b ← blocks q !! frontBlock q;
      Some (if decide (front b = localTail b) then CReadTail look else CTake look, q)
  | CReadTail look =>
      b ← blocks q !! frontBlock q;
      Some (if decide (front b = tail b) then CReadTailBlock look else CTake look,
            edit (frontBlock q) (set_localTail (tail b)) q)
  | CTake look =>
      b ← blocks q !! frontBlock q;
      x ← data b !! front b;
      Some (if look then (CSeen (Some x), q) else (CPublish x, edit (frontBlock q) (destroy (front b)) q))
  | CPublish x =>
      b ← blocks q !! frontBlock q;
      Some (CTaken (Some x), edit (frontBlock q) (set_front (incr b (front b))) q)
  | CReadTailBlock look =>
      Some (if decide (frontBlock q = tailBlock q) then if look then CSeen None else CTaken None else CReread look, q)
  | CReread look =>
      b ← blocks q !! frontBlock q;
      Some (if decide (front b = tail b) then CNext look else CTake look,
            edit (frontBlock q) (set_localTail (tail b)) q)
  | CNext look =>
      b ← blocks q !! frontBlock q;
      p ← next b;
      Some (CNextTail look p, q)
  | CNextTail look p =>
      nb ← blocks q !! p;
      if front nb =? tail nb then None
      else Some (if look then (CLookNext p, q) else (CAdvance p, edit p (set_localTail (tail nb)) q))
  | CLookNext p =>
      nb ← blocks q !! p;
      x ← data nb !! front nb;
      Some (CSeen (Some x), q)
  | CAdvance p => Some (CTake false, at_frontBlock p q)
  end.

(** ** Both *)

(** [written] and [taken]: the elements enqueued and those dequeued so far, each
    from the step on at which the other thread can tell; with what they were
    when the call began: [written_before] for the consumer's call,
    [taken_before] for the producer's. *)
Record sys := mkSys {
  queue : t (T := T);
  producer : producing;
  consumer : consuming;
  written : list T;
  taken : list T;
  written_before : list T;
  taken_before : list T
}.

Inductive choice := Enqueues (canAlloc : AllocationMode) (x : T) | Produces | Dequeues | Peeks | Consumes.

Definition producer_free (pc : producing) : bool := match pc with PIdle | PDone _ => true | _ => false end.
Definition consumer_free (pc : consuming) : bool := match pc with CIdle | CTaken _ | CSeen _ => true | _ => false end.
(** A thread that is not in a call can begin one, another can step. *)
Definition can (c : choice) (s : sys) : bool :=
  match c with
  | Enqueues _ _ => producer_free (producer s)
  | Produces => negb (producer_free (producer s))
  | Dequeues | Peeks => consumer_free (consumer s)
  | Consumes => negb (consumer_free (consumer s))
  end.

(** The steps at which an element is in the queue for the consumer, or out of it
    for the producer. *)
Definition writes (pc : producing) : list T :=
  match pc with PPublish x | PNextPublish x _ | PLinkPublish x _ => [x] | _ => [] end.
Definition takes (pc : consuming) : list T := match pc with CPublish x => [x] | _ => [] end.

Definition turn (c : choice) (s : sys) : option sys :=
  if can c s then
    match c with
    | Enqueues m x => Some (mkSys (queue s) (PStart m x) (consumer s) (written s) (taken s) (written_before s) (taken s))
    | Dequeues => Some (mkSys (queue s) (producer s) (CStart false) (written s) (taken s) (written s) (taken_before s))
    | Peeks => Some (mkSys (queue s) (producer s) (CStart true) (written s) (taken s) (written s) (taken_before s))
    | Produces =>
        '(pc, q) ← producer_step (producer s) (queue s);
        Some (mkSys q pc (consumer s) (written s ++ writes (producer s)) (taken s) (written_before s) (taken_before s))
    | Consumes =>
        '(pc, q) ← consumer_step (consumer s) (queue s);
        Some (mkSys q (producer s) pc (written s) (taken s ++ takes (consumer s)) (written_before s) (taken_before s))
    end
  else Some s.
Fixpoint turns (schedule : list choice) (s : sys) : option sys :=
  match schedule with
  | [] => Some s
  | c :: schedule => s ← turn c s; turns schedule s
  end.
Definition begin (q : t) : sys := mkSys q PIdle CIdle [] [] [] [].

(** ** Edits *)

Lemma edit_some p f q b : blocks q !! p = Some b -> edit p f q = set_blocks (<[p := f b]> (blocks q)) q.
Proof. intros E. unfold edit. f_equal. apply map_eq. intros p'. destruct (decide (p = p')) as [<-|Hne].
  - by rewrite lookup_alter_eq, lookup_insert_eq, E.
  - by rewrite lookup_alter_ne, lookup_insert_ne by done.
Qed.

Lemma edit_lookup p f q b : blocks q !! p = Some b -> blocks (edit p f q) !! p = Some (f b).
Proof. intros E. cbn. by rewrite lookup_alter_eq, E. Qed.
Lemma edit_lookup_ne p p' f q : p <> p' -> blocks (edit p f q) !! p' = blocks q !! p'.
Proof. intros Hne. cbn. by rewrite lookup_alter_ne. Qed.

Lemma edit_comm p f p' g q :
  (p = p' -> forall b, blocks q !! p = Some b -> f (g b) = g (f b)) ->
  edit p f (edit p' g q) = edit p' g (edit p f q).
Proof.
  intros Hc. unfold edit, set_blocks. cbn. f_equal. apply map_eq. intros r.
  destruct (decide (p' = r)) as [->|Hp'], (decide (p = r)) as [->|Hp];
    rewrite ?lookup_alter_eq, ?lookup_alter_ne, ?lookup_alter_eq, ?lookup_alter_ne by done; try done.
  destruct (blocks q !! r) as [b|] eqn:E; [|done]. cbn. f_equal. by apply Hc.
Qed.

Lemma edit_insert p f n nb q :
  p <> n -> edit p f (set_blocks (<[n := nb]> (blocks q)) q) = set_blocks (<[n := nb]> (blocks (edit p f q))) (edit p f q).
Proof.
  intros Hne. unfold edit, set_blocks. cbn. f_equal. apply map_eq. intros p'.
  destruct (decide (p = p')) as [<-|Hp].
  - rewrite lookup_alter_eq, !lookup_insert_ne, lookup_alter_eq by done. done.
  - rewrite lookup_alter_ne by done. destruct (decide (n = p')) as [<-|Hn].
    + by rewrite !lookup_insert_eq.
    + by rewrite !lookup_insert_ne, lookup_alter_ne.
Qed.

(** ** The invariant *)

(** What the producer has done that the consumer cannot tell yet, on a queue
    that is as the consumer knows it. [nb] is the block it has made. *)
Definition produced (pc : producing) (nb : Block (T := T)) (q : t (T := T)) : t (T := T) :=
  match pc with
  | PPublish x => edit (tailBlock q) (fun b => put (tail b) x b) q
  | PNextTail x p => edit p (fun b => put (tail b) x b) q
  | PNextPublish x p => edit p (fun b => set_tail (incr b (tail b)) (put (tail b) x b)) q
  | PLink _ n => set_blocks (<[n := nb]> (blocks q)) q
  | PLinkPublish _ n => edit (tailBlock q) (set_next (Some n)) (set_blocks (<[n := nb]> (blocks q)) q)
  | _ => q
  end.
(** The element that the consumer has taken, before [front] says so. *)
Definition consumed (pc : consuming) (q : t (T := T)) : t (T := T) :=
  match pc with CPublish _ => edit (frontBlock q) (fun b => destroy (front b) b) q | _ => q end.

Definition head_xs (pre : list (entry (T := T))) (el : entry (T := T)) : list T := e_xs (front_entry pre el).
Definition free_ahead (free : list (entry (T := T))) (p : nat) : Prop := exists f free', free = f :: free' /\ e_id f = p.
Definition all_full (pre : list (entry (T := T))) (el : entry (T := T)) : Prop := pre <> [] -> full el.

Definition producer_ok (pc : producing) (nb : Block (T := T)) (q : t (T := T))
    (pre : list (entry (T := T))) (el : entry (T := T)) (free : list (entry (T := T))) (refused : Prop) : Prop :=
  match pc with
  | PIdle | PStart _ _ | PReadFront _ _ | PDone true => True
  | PPut _ | PPublish _ => exists b, blocks q !! tailBlock q = Some b /\ incr b (tail b) <> localFront b
  | PCheckNext _ _ => all_full pre el /\ (free = [] -> refused)
  | PAlloc _ => all_full pre el /\ refused
  | PDone false => refused
  | PNext _ p => all_full pre el /\ free_ahead free p
  | PNextPut _ p | PNextTail _ p | PNextPublish _ p =>
      all_full pre el /\ free_ahead free p /\ exists b, blocks q !! p = Some b /\ localFront b = front b
  | PLink x n | PLinkPublish x n =>
      all_full pre el /\ blocks q !! n = None /\ (n < mallocs q)%nat /\
      exists k b, block_ok k nb [x] /\ largestBlockSize q = 2 ^ k /\ blocks q !! tailBlock q = Some b /\ next nb = next b
  end.

Definition next_in_line (pre : list (entry (T := T))) (el : entry (T := T)) (p : nat) : Prop :=
  exists e pre', pre = e :: pre' /\ e_xs e = [] /\ e_id (front_entry pre' el) = p.

Definition consumer_ok (pc : consuming) (q : t (T := T)) (pre : list (entry (T := T))) (el : entry) (written taken written_before : list T) : Prop :=
  match pc with
  | CIdle | CStart _ | CReadTail _ => True
  | CTake _ => exists b, blocks q !! frontBlock q = Some b /\ front b <> localTail b
  | CPublish x => (exists b, blocks q !! frontBlock q = Some b /\ front b <> localTail b) /\ exists ys, head_xs pre el = x :: ys
  | CReadTailBlock _ => pre <> [] \/ (length written_before <= length taken)%nat
  | CReread _ => pre <> []
  | CNext _ => pre <> [] /\ head_xs pre el = []
  | CNextTail _ p | CLookNext p => next_in_line pre el p
  | CAdvance p => next_in_line pre el p /\ exists b, blocks q !! p = Some b /\ front b <> localTail b
  | CTaken None | CSeen None => (length written_before <= length taken)%nat
  | CTaken (Some x) => last taken = Some x
  | CSeen (Some x) => written !! length taken = Some x
  end.

Record safe (cap : Z) (s : sys) : Prop := mkSafe {
  safe_before : (length (written_before s) <= length (written s))%nat /\ (length (taken_before s) <= length (taken s))%nat;
  safe_queue : exists q nb pre el free,
    inv cap q pre el free /\ queue s = consumed (consumer s) (produced (producer s) nb q) /\
    written s = taken s ++ contents (pre ++ [el]) /\
    producer_ok (producer s) nb q pre el free (cap <= Z.of_nat (length (written s)) - Z.of_nat (length (taken_before s))) /\
    consumer_ok (consumer s) q pre el (written s) (taken s) (written_before s)
}.

(** ** The queue under the invariant *)

Lemma inv_refresh cap q pre el free p f :
  inv cap q pre el free -> (forall b, blocks q !! p = Some b -> next (f b) = next b /\ forall k xs, block_ok k b xs -> block_ok k (f b) xs) ->
  inv cap (edit p f q) pre el free.
Proof.
  intros [R Fr Fb Tb Fe Fu La Sz] Hf. destruct (blocks q !! p) as [b|] eqn:Eb.
  2: { assert (edit p f q = q) as ->; [|done]. unfold edit. 
       destruct q as [bl a b c d]. unfold set_blocks. cbn in *. f_equal. apply map_eq. intros p'.
       destruct (decide (p = p')) as [<-|Hne]; [by rewrite lookup_alter_eq, Eb|by rewrite lookup_alter_ne]. }
  destruct (Hf b eq_refl) as [Hn Hok]. rewrite (edit_some _ _ _ _ Eb).
  split; cbn [blocks set_blocks mallocs frontBlock tailBlock largestBlockSize]; try done; [|by eapply insert_fresh].
  assert (p ∈ ids (pre ++ el :: free)) as Hp by (apply (ring_all _ _ R); by exists b).
  unfold ids in Hp. apply list_elem_of_fmap in Hp as (e & -> & He). apply list_elem_of_split in He as (r1 & r2 & E).
  rewrite E in *. rewrite <- (update_same e) at 2. destruct (ring_lookup 0 malloc _ _ _ _ R) as (b' & Eb' & Hb' & _).
  rewrite Eb in Eb'. injection Eb' as <-. eapply ring_update; [done|done|done|by apply Hok].
Qed.

Section Facts.
Context (cap : Z) (q : t (T := T)) (pre : list (entry (T := T))) (el : entry (T := T)) (free : list (entry (T := T))).
Context (I : inv cap q pre el free).

Lemma tail_block : exists b, blocks q !! tailBlock q = Some b /\ block_ok (e_bits el) b (e_xs el) /\
  next b = Some (hd (frontBlock q) (ids free)).
Proof. by apply (inv_tail_block 0 malloc cap q pre el free). Qed.

Lemma front_block : exists b, blocks q !! frontBlock q = Some b /\
  block_ok (e_bits (front_entry pre el)) b (head_xs pre el) /\
  (forall e pre', pre = e :: pre' -> next b = Some (e_id (front_entry pre' el))).
Proof. by apply (inv_front_block 0 malloc cap q pre el free). Qed.

Lemma free_block_ok f free' : free = f :: free' ->
  exists nb, blocks q !! e_id f = Some nb /\ block_ok (e_bits f) nb [] /\ e_id f <> tailBlock q /\ e_id f <> frontBlock q.
Proof.
  intros ->. assert (pre ++ el :: f :: free' = (pre ++ [el]) ++ f :: free') as E by by rewrite <- app_assoc.
  pose proof (inv_ring _ _ _ _ _ I) as R. rewrite E in R.
  destruct (ring_lookup 0 malloc _ _ _ _ R) as (nb & Hnb & Hnok & _).
  pose proof (inv_free _ _ _ _ _ I) as Fe. apply Forall_cons in Fe as [Fe _]. rewrite Fe in Hnok.
  exists nb. split; [done|]. split; [done|].
  pose proof (ring_distinct _ _ R) as Hd. rewrite (inv_tail _ _ _ _ _ I), (inv_front _ _ _ _ _ I).
  rewrite ids_app in Hd. apply NoDup_app in Hd as (_ & Hd & _).
  split; intros Heq; eapply Hd; try apply list_elem_of_here; rewrite ids_app; apply elem_of_app.
  - right. rewrite Heq. apply list_elem_of_here.
  - destruct pre as [|e pre']; [right|left]; rewrite Heq; apply list_elem_of_here.
Qed.

(** The front block is the tail block when there is none before it. *)
Lemma front_is_tail : frontBlock q = tailBlock q <-> pre = [].
Proof.
  rewrite (inv_front _ _ _ _ _ I), (inv_tail _ _ _ _ _ I). split; [|by intros ->]. destruct pre as [|e r]; [done|]. cbn.
  intros E. pose proof (inv_distinct _ _ _ _ _ I) as Hd. change (NoDup (e_id e :: ids (r ++ el :: free))) in Hd. apply NoDup_cons in Hd as [Hd _].
  rewrite ids_app in Hd. destruct Hd. rewrite E. apply elem_of_app. right. apply list_elem_of_here.
Qed.

(** A block after the front one that the consumer may use is not empty. *)
Lemma next_not_empty e pre' : pre = e :: pre' -> head_xs pre' el <> [] /\
  exists nb, blocks q !! e_id (front_entry pre' el) = Some nb /\ block_ok (e_bits (front_entry pre' el)) nb (head_xs pre' el) /\
    e_id (front_entry pre' el) <> frontBlock q.
Proof.
  intros ->. pose proof (inv_distinct _ _ _ _ _ I) as Hd. change (NoDup (e_id e :: ids (pre' ++ el :: free))) in Hd. apply NoDup_cons in Hd as [Hd _].
  pose proof (inv_ring _ _ _ _ _ I) as R.
  assert (exists nb, blocks q !! e_id (front_entry pre' el) = Some nb /\ block_ok (e_bits (front_entry pre' el)) nb (head_xs pre' el) /\
    e_id (front_entry pre' el) <> frontBlock q) as (nb & Hnb & Hok & Hne).
  { rewrite (inv_front _ _ _ _ _ I). cbn. unfold head_xs. destruct pre' as [|e1 pre1]; cbn [front_entry hd app] in *.
    - destruct (ring_lookup 0 malloc _ [e] el free R) as (nb & Hnb & Hok & _). exists nb. do 2 (split; [done|]).
      intros E. apply Hd. rewrite <- E. apply list_elem_of_here.
    - destruct (ring_lookup 0 malloc _ [e] e1 (pre1 ++ el :: free) R) as (nb & Hnb & Hok & _). exists nb. do 2 (split; [done|]).
      intros E. apply Hd. rewrite <- E. apply list_elem_of_here. }
  split; [|by exists nb]. unfold head_xs in *. destruct pre' as [|e1 pre1]; cbn [front_entry hd] in *; [by apply (inv_last _ _ _ _ _ I)|].
  pose proof (inv_full _ _ _ _ _ I) as Hf. cbn in Hf. apply Forall_cons in Hf as [Hf _].
  unfold full in Hf. intros Ex. rewrite Ex in *. pose proof (slots_pos _ _ _ Hok). cbn in Hf. lia.
Qed.

Lemma front_not_free : frontBlock q ∉ ids free.
Proof.
  rewrite (inv_front _ _ _ _ _ I). pose proof (inv_distinct _ _ _ _ _ I) as Hd. rewrite ids_app in Hd.
  apply NoDup_app in Hd as (_ & Hd & Hd2). change (NoDup (e_id el :: ids free)) in Hd2. apply NoDup_cons in Hd2 as [He _].
  destruct pre as [|e r]; [done|]. intros Hin. apply (Hd (e_id e)); [apply list_elem_of_here|]. by right.
Qed.

Lemma next_not_free e pre' : pre = e :: pre' -> e_id (front_entry pre' el) ∉ ids free.
Proof.
  intros ->. pose proof (inv_distinct _ _ _ _ _ I) as Hd. rewrite ids_app in Hd.
  apply NoDup_app in Hd as (_ & Hd & Hd2). change (NoDup (e_id el :: ids free)) in Hd2. apply NoDup_cons in Hd2 as [He _].
  destruct pre' as [|e1 r]; [done|]. intros Hin. apply (Hd (e_id e1)); [right; apply list_elem_of_here|]. by right.
Qed.

End Facts.

(** An element is taken out of the front block. *)
Lemma pop_front cap q pre el free b x ys :
  inv cap q pre el free -> blocks q !! frontBlock q = Some b -> front b <> localTail b -> head_xs pre el = x :: ys ->
  exists pre' el', inv cap (edit (frontBlock q) (fun b => set_front (incr b (front b)) (destroy (front b) b)) q) pre' el' free /\
    contents (pre ++ [el]) = x :: contents (pre' ++ [el']) /\ (pre' <> [] -> pre <> [] /\ el' = el).
Proof.
  intros I Eb Hne Ex. destruct (front_block _ _ _ _ _ I) as (b' & Eb' & Hok & _). rewrite Eb in Eb'. injection Eb' as <-.
  rewrite (edit_some _ _ _ _ Eb). pose proof (popped _ _ _ Hok x ys Ex Hne) as Hp. unfold head_xs in Ex.
  destruct pre as [|e r]; cbn [front_entry hd] in *.
  - assert (frontBlock q = tailBlock q) as E by (by apply (front_is_tail _ _ _ _ _ I)).
    exists [], (update ys el). split; [|split; [|done]].
    + rewrite E in *. by eapply inv_change_tail.
    + unfold contents. cbn. by rewrite Ex.
  - exists (update ys e :: r), el. split; [|split; [|done]].
    + by eapply inv_change_front.
    + unfold contents. cbn. by rewrite Ex.
Qed.

(** What the producer knows is not changed by the consumer. *)
Lemma producer_kept pc nb q q' pre pre' (el el' : entry (T := T)) free free' refused :
  producer_ok pc nb q pre el free refused ->
  (forall p b, blocks q !! p = Some b -> exists b', blocks q' !! p = Some b' /\ tail b' = tail b /\ localFront b' = localFront b /\
     sizeMask b' = sizeMask b /\ next b' = next b /\ (p ∈ ids free -> front b' = front b)) ->
  (forall p, blocks q !! p = None -> blocks q' !! p = None) ->
  tailBlock q' = tailBlock q -> mallocs q' = mallocs q -> largestBlockSize q' = largestBlockSize q ->
  (pre' <> [] -> pre <> [] /\ el' = el) -> (free' = free \/ exists e, free' = free ++ [e]) ->
  producer_ok pc nb q' pre' el' free' refused.
Proof.
  intros Hp Hb Hnone Et Em El Hpre Hfree.
  assert (Hfull : all_full pre el -> all_full pre' el') by (intros Hf Hne; destruct (Hpre Hne) as [Hne' ->]; by apply Hf).
  assert (Hahead : forall p, free_ahead free p -> free_ahead free' p).
  { intros p (f & r & -> & E). destruct Hfree as [->|[e ->]]; [by exists f, r|by exists f, (r ++ [e])]. }
  assert (Hin : forall p, free_ahead free p -> p ∈ ids free) by (intros p (f & r & -> & <-); apply list_elem_of_here).
  destruct pc as [|m x|m x|x|x|m x|x p|x p|x p|x p|x|x n|x n|[]]; cbn [producer_ok] in *; try done.
  - destruct Hp as (b & Eb & Hne). destruct (Hb _ _ Eb) as (b' & Eb' & E1 & E2 & E3 & _). exists b'. rewrite Et. split; [done|].
    unfold incr in *. by rewrite E1, E2, E3.
  - destruct Hp as (b & Eb & Hne). destruct (Hb _ _ Eb) as (b' & Eb' & E1 & E2 & E3 & _). exists b'. rewrite Et. split; [done|].
    unfold incr in *. by rewrite E1, E2, E3.
  - destruct Hp as [Hf Hr]. split; [by apply Hfull|]. destruct Hfree as [->|[e ->]]; [done|]. intros E. by destruct free.
  - destruct Hp as [Hf Ha]. split; [by apply Hfull|by apply Hahead].
  - destruct Hp as (Hf & Ha & b & Eb & E). split; [by apply Hfull|]. split; [by apply Hahead|].
    destruct (Hb _ _ Eb) as (b' & Eb' & _ & E2 & _ & _ & E5). exists b'. split; [done|]. rewrite E2, E5 by by apply Hin. done.
  - destruct Hp as (Hf & Ha & b & Eb & E). split; [by apply Hfull|]. split; [by apply Hahead|].
    destruct (Hb _ _ Eb) as (b' & Eb' & _ & E2 & _ & _ & E5). exists b'. split; [done|]. rewrite E2, E5 by by apply Hin. done.
  - destruct Hp as (Hf & Ha & b & Eb & E). split; [by apply Hfull|]. split; [by apply Hahead|].
    destruct (Hb _ _ Eb) as (b' & Eb' & _ & E2 & _ & _ & E5). exists b'. split; [done|]. rewrite E2, E5 by by apply Hin. done.
  - destruct Hp as [Hf Ha]. split; [by apply Hfull|done].
  - destruct Hp as (Hf & En & Hn & k & b & Hok & Ek & Eb & Enx). destruct (Hb _ _ Eb) as (b' & Eb' & _ & _ & _ & E4 & _).
    split; [by apply Hfull|]. rewrite Em, El, Et. split; [by apply Hnone|]. split; [done|]. exists k, b'. rewrite E4. done.
  - destruct Hp as (Hf & En & Hn & k & b & Hok & Ek & Eb & Enx). destruct (Hb _ _ Eb) as (b' & Eb' & _ & _ & _ & E4 & _).
    split; [by apply Hfull|]. rewrite Em, El, Et. split; [by apply Hnone|]. split; [done|]. exists k, b'. rewrite E4. done.
Qed.

(** ** The consumer's steps *)

Lemma edit_ext p f g q : (forall b, blocks q !! p = Some b -> f b = g b) -> edit p f q = edit p g q.
Proof.
  intros H. unfold edit, set_blocks. f_equal. apply map_eq. intros r. destruct (decide (p = r)) as [<-|Hne].
  - rewrite !lookup_alter_eq. destruct (blocks q !! p) as [b|]; [|done]. cbn. f_equal. by apply H.
  - by rewrite !lookup_alter_ne.
Qed.

Lemma edit_edit p f g q : edit p f (edit p g q) = edit p (fun b => f (g b)) q.
Proof.
  unfold edit, set_blocks. cbn. f_equal. apply map_eq. intros r. destruct (decide (p = r)) as [<-|Hne].
  - rewrite !lookup_alter_eq. by destruct (blocks q !! p).
  - by rewrite !lookup_alter_ne.
Qed.

Lemma produced_frontBlock pc nb (q : t (T := T)) : frontBlock (produced pc nb q) = frontBlock q.
Proof. by destruct pc. Qed.
Lemma produced_tailBlock pc nb (q : t (T := T)) : tailBlock (produced pc nb q) = tailBlock q.
Proof. by destruct pc. Qed.

Section Consumer.
Context (cap : Z) (q : t (T := T)) (pre : list (entry (T := T))) (el : entry (T := T)) (free : list (entry (T := T))).
Context (I : inv cap q pre el free) (pc : producing) (nb : Block (T := T)) (refused : Prop).
Context (Hp : producer_ok pc nb q pre el free refused).

(** A block from the front to the tail, as the consumer sees it. *)
Definition seen (p : nat) (b b' : Block (T := T)) : Prop :=
  front b' = front b /\ localTail b' = localTail b /\ tail b' = tail b /\ sizeMask b' = sizeMask b /\
  (p <> tailBlock q -> next b' = next b) /\ forall i, i <> tail b -> data b' !! i = data b !! i.

Lemma produced_seen p b : p ∉ ids free -> blocks q !! p = Some b ->
  exists b', blocks (produced pc nb q) !! p = Some b' /\ seen p b b'.
Proof.
  intros Hfree Eb. assert (Hsame : seen p b b) by done.
  assert (Hp' : forall r, free_ahead free r -> r <> p) by (intros r (f & l & -> & <-) <-; apply Hfree, list_elem_of_here).
  destruct pc as [|m x|m x|x|x|m x|x r|x r|x r|x r|x|x n|x n|ok]; cbn [produced producer_ok] in *; try (by exists b).
  - destruct (decide (tailBlock q = p)) as [<-|Hne].
    + exists (put (tail b) x b). rewrite (edit_lookup _ _ _ b) by done. split; [done|].
      repeat (split; [done|]). intros i Hi. cbn. by rewrite lookup_insert_ne.
    + exists b. by rewrite edit_lookup_ne.
  - destruct Hp as (_ & Ha & _). exists b. rewrite edit_lookup_ne; [done|by apply Hp'].
  - destruct Hp as (_ & Ha & _). exists b. rewrite edit_lookup_ne; [done|by apply Hp'].
  - destruct Hp as (_ & En & _). exists b. cbn. rewrite lookup_insert_ne; [done|]. intros ->. by rewrite Eb in En.
  - destruct Hp as (_ & En & _). assert (n <> p) as Hne by (intros ->; by rewrite Eb in En).
    assert (blocks (set_blocks (<[n := nb]> (blocks q)) q) !! p = Some b) as Eb' by (cbn; by rewrite lookup_insert_ne).
    destruct (decide (tailBlock q = p)) as [<-|Htp].
    + exists (set_next (Some n) b). rewrite (edit_lookup _ _ _ b) by done. by repeat (split; [done|]).
    + exists b. by rewrite edit_lookup_ne.
Qed.

(** A change by the consumer commutes with what the producer has done. *)
Definition commutes (f : Block (T := T) -> Block) (b : Block) : Prop :=
  (forall x, f (put (tail b) x b) = put (tail b) x (f b)) /\ (forall v, f (set_next v b) = set_next v (f b)) /\ tail (f b) = tail b.

Lemma produced_edit p b f : p ∉ ids free -> blocks q !! p = Some b -> commutes f b ->
  edit p f (produced pc nb q) = produced pc nb (edit p f q).
Proof.
  intros Hfree Eb (Hput & Hnext & Htail).
  assert (Hp' : forall r, free_ahead free r -> p <> r) by (intros r (g & l & -> & <-) ->; apply Hfree, list_elem_of_here).
  destruct pc as [|m x|m x|x|x|m x|x r|x r|x r|x r|x|x n|x n|ok]; cbn [produced producer_ok] in *; try done.
  - change (tailBlock (edit p f q)) with (tailBlock q). apply edit_comm. intros _ b0 Eb0. rewrite Eb in Eb0.
    injection Eb0 as <-. by rewrite Hput, Htail.
  - destruct Hp as (_ & Ha & _). apply edit_comm. intros ->. by destruct (Hp' r Ha).
  - destruct Hp as (_ & Ha & _). apply edit_comm. intros ->. by destruct (Hp' r Ha).
  - destruct Hp as (_ & En & _). apply edit_insert. intros ->. by rewrite Eb in En.
  - destruct Hp as (_ & En & _). assert (p <> n) as Hne by (intros ->; by rewrite Eb in En).
    rewrite edit_comm; [by rewrite edit_insert|]. intros _ b0. cbn. rewrite lookup_insert_ne by done. rewrite Eb. intros [= <-].
    apply Hnext.
Qed.

(** The front block as the consumer sees it. *)
Lemma front_seen : exists b b', blocks q !! frontBlock q = Some b /\ blocks (produced pc nb q) !! frontBlock q = Some b' /\
  seen (frontBlock q) b b' /\ block_ok (e_bits (front_entry pre el)) b (head_xs pre el) /\
  (forall e pre', pre = e :: pre' -> next b = Some (e_id (front_entry pre' el))).
Proof.
  destruct (front_block _ _ _ _ _ I) as (b & Eb & Hok & Hn).
  destruct (produced_seen _ b (front_not_free _ _ _ _ _ I) Eb) as (b' & Eb' & Hs). by exists b, b'.
Qed.

(** The consumer notes the [tail] that it has read. *)
Lemma note_tail p b : p ∉ ids free -> blocks q !! p = Some b ->
  let q' := edit p (set_localTail (tail b)) q in
  edit p (set_localTail (tail b)) (produced pc nb q) = produced pc nb q' /\ inv cap q' pre el free /\
  producer_ok pc nb q' pre el free refused /\ blocks q' !! p = Some (set_localTail (tail b) b).
Proof.
  intros Hfree Eb. cbn zeta. split; [by apply (produced_edit p b)|]. split; [|split; [|by rewrite (edit_lookup _ _ _ b)]].
  - apply inv_refresh; [done|]. intros b0 Eb0. rewrite Eb in Eb0. injection Eb0 as <-. split; [done|]. intros k xs. apply localTail_refreshed.
  - eapply producer_kept; [exact Hp|..]; try done; [| |by left].
    + intros r c Ec. destruct (decide (p = r)) as [<-|Hne].
      * rewrite (edit_lookup _ _ _ _ Ec). eexists. split; [done|]. done.
      * rewrite edit_lookup_ne by done. by exists c.
    + intros r Er. destruct (decide (p = r)) as [<-|Hne]; [congruence|]. by rewrite edit_lookup_ne.
Qed.
End Consumer.

Definition after_consumer (s : sys) (pc : consuming) (q : t) : sys :=
  mkSys q (producer s) pc (written s) (taken s ++ takes (consumer s)) (written_before s) (taken_before s).

(** The state after a step of the consumer, from what it is made of. *)
Lemma consumer_safe cap s pc Q q nb pre el free :
  safe cap s -> inv cap q pre el free -> Q = consumed pc (produced (producer s) nb q) ->
  written s = (taken s ++ takes (consumer s)) ++ contents (pre ++ [el]) ->
  producer_ok (producer s) nb q pre el free (cap <= Z.of_nat (length (written s)) - Z.of_nat (length (taken_before s))) ->
  consumer_ok pc q pre el (written s) (taken s ++ takes (consumer s)) (written_before s) ->
  safe cap (after_consumer s pc Q).
Proof.
  intros [[Hb1 Hb2] _] I -> Hw Hp Hc. split; cbn; [split; [done|]; rewrite length_app; lia|].
  by exists q, nb, pre, el, free.
Qed.

Lemma contents_nil_front pre (el : entry (T := T)) : pre = [] -> head_xs pre el = [] -> contents (pre ++ [el]) = [].
Proof. intros -> E. unfold contents, head_xs in *. cbn in *. by rewrite E. Qed.

Lemma contents_skip e pre (el : entry (T := T)) : e_xs e = [] -> contents ((e :: pre) ++ [el]) = contents (pre ++ [el]).
Proof. intros E. unfold contents. cbn. by rewrite E. Qed.

Lemma contents_head pre (el : entry (T := T)) x ys : head_xs pre el = x :: ys -> exists zs, contents (pre ++ [el]) = x :: zs.
Proof. intros E. rewrite contents_front. unfold head_xs in E. rewrite E. by eexists. Qed.

Section Step.
Context (cap : Z) (s : sys) (Hsafe : safe cap s).
Context (q : t (T := T)) (nb : Block (T := T)) (pre : list (entry (T := T))) (el : entry (T := T)) (free : list (entry (T := T))).
Context (I : inv cap q pre el free) (Hw : written s = taken s ++ contents (pre ++ [el])).
Context (Hp : producer_ok (producer s) nb q pre el free (cap <= Z.of_nat (length (written s)) - Z.of_nat (length (taken_before s)))).
Context (Eq : queue s = produced (producer s) nb q).

Definition consumer_goes_on : Prop :=
  exists pc Q, consumer_step (consumer s) (queue s) = Some (pc, Q) /\ safe cap (after_consumer s pc Q).

(** Nothing is changed. *)
Lemma consumer_stays pc :
  takes (consumer s) = [] -> consumer_ok pc q pre el (written s) (taken s) (written_before s) -> consumed pc (queue s) = queue s ->
  safe cap (after_consumer s pc (queue s)).
Proof.
  intros Ht Hc Hco. eapply consumer_safe; [done|exact I|by rewrite <- Eq, Hco|by rewrite Ht, app_nil_r|exact Hp|by rewrite Ht, app_nil_r].
Qed.

(** The consumer has read [tail] of the front block. *)
Lemma consumer_reads_tail look b b' pc :
  takes (consumer s) = [] -> blocks q !! frontBlock q = Some b -> seen q (frontBlock q) b b' ->
  block_ok (e_bits (front_entry pre el)) b (head_xs pre el) ->
  let pc' := if decide (front b' = tail b') then pc else CTake look in
  (head_xs pre el = [] -> consumer_ok pc q pre el (written s) (taken s) (written_before s) /\
     forall v, consumer_ok pc (edit (frontBlock q) (set_localTail v) q) pre el (written s) (taken s) (written_before s)) ->
  (forall r, consumed pc r = r) ->
  safe cap (after_consumer s pc' (edit (frontBlock (queue s)) (set_localTail (tail b')) (queue s))).
Proof.
  intros Ht Eb (E1 & _ & E3 & _) Hok pc' Hpc Hco. rewrite Eq, produced_frontBlock, E3.
  destruct (note_tail _ _ _ _ _ I _ _ _ Hp (frontBlock q) b (front_not_free _ _ _ _ _ I) Eb) as (Ee & I' & Hp' & Eb').
  eapply consumer_safe; [done|exact I'| |by rewrite Ht, app_nil_r|exact Hp'|].
  - rewrite Ee. unfold pc'. destruct (decide _); [by rewrite Hco|done].
  - rewrite Ht, app_nil_r. unfold pc'. rewrite E1, E3. case_decide as Hft.
    + apply (front_eq_tail _ _ _ Hok) in Hft. by apply Hpc.
    + exists (set_localTail (tail b) b). split; [exact Eb'|]. exact Hft.
Qed.

Lemma step_start look : consumer s = CStart look -> consumer_goes_on.
Proof.
  intros Ec. destruct (front_seen _ _ _ _ _ I _ _ _ Hp) as (b & b' & Eb & Eb' & (E1 & E2 & _) & _).
  unfold consumer_goes_on. rewrite Ec. cbn [consumer_step]. rewrite Eq, produced_frontBlock, Eb'. cbn [mbind option_bind].
  eexists _, _. split; [done|]. rewrite <- Eq. apply consumer_stays; [by rewrite Ec| |by case_decide].
  rewrite E1, E2. case_decide; [done|]. by exists b.
Qed.

Lemma step_read_tail look : consumer s = CReadTail look -> consumer_goes_on.
Proof.
  intros Ec. destruct (front_seen _ _ _ _ _ I _ _ _ Hp) as (b & b' & Eb & Eb' & Hs & Hok & _).
  unfold consumer_goes_on. rewrite Ec. cbn [consumer_step]. rewrite Eq, produced_frontBlock, Eb'. cbn [mbind option_bind].
  eexists _, _. split; [done|]. rewrite <- (produced_frontBlock (producer s) nb q), <- Eq.
  eapply consumer_reads_tail; [by rewrite Ec|exact Eb|done|done| |done].
  intros Hx. assert (pre <> [] \/ (length (written_before s) <= length (taken s))%nat) as H; [|done].
  destruct (decide (pre = [])) as [E0|]; [right|by left]. pose proof (safe_before _ _ Hsafe) as [Hb _].
  rewrite Hw, (contents_nil_front _ _ E0 Hx), app_nil_r in Hb. done.
Qed.

Lemma step_reread look : consumer s = CReread look -> consumer_ok (consumer s) q pre el (written s) (taken s) (written_before s) -> consumer_goes_on.
Proof.
  intros Ec Hc. rewrite Ec in Hc. cbn in Hc. destruct (front_seen _ _ _ _ _ I _ _ _ Hp) as (b & b' & Eb & Eb' & Hs & Hok & _).
  unfold consumer_goes_on. rewrite Ec. cbn [consumer_step]. rewrite Eq, produced_frontBlock, Eb'. cbn [mbind option_bind].
  eexists _, _. split; [done|]. rewrite <- (produced_frontBlock (producer s) nb q), <- Eq.
  eapply consumer_reads_tail; [by rewrite Ec|exact Eb|done|done| |done]. done.
Qed.

Lemma step_read_tailBlock look :
  consumer s = CReadTailBlock look -> consumer_ok (consumer s) q pre el (written s) (taken s) (written_before s) -> consumer_goes_on.
Proof.
  intros Ec Hc. rewrite Ec in Hc. cbn in Hc. unfold consumer_goes_on. rewrite Ec. cbn [consumer_step].
  eexists _, _. split; [done|]. apply consumer_stays; [by rewrite Ec| |by case_decide; destruct look].
  rewrite Eq, produced_frontBlock, produced_tailBlock. case_decide as E.
  - apply (front_is_tail _ _ _ _ _ I) in E. destruct Hc as [|Hc]; [done|]. by destruct look.
  - intros E'. by apply (front_is_tail _ _ _ _ _ I) in E'.
Qed.

Lemma step_next look :
  consumer s = CNext look -> consumer_ok (consumer s) q pre el (written s) (taken s) (written_before s) -> consumer_goes_on.
Proof.
  intros Ec Hc. rewrite Ec in Hc. cbn in Hc. destruct Hc as [Hne Hx].
  destruct (front_seen _ _ _ _ _ I _ _ _ Hp) as (b & b' & Eb & Eb' & (_ & _ & _ & _ & En & _) & _ & Hn).
  assert (exists e r, pre = e :: r) as (e & r & Epre) by (destruct pre as [|e r]; [done|by exists e, r]).
  assert (frontBlock q <> tailBlock q) as Hft by (intros E'; by apply Hne, (front_is_tail _ _ _ _ _ I)).
  unfold consumer_goes_on. rewrite Ec. cbn [consumer_step]. rewrite Eq, produced_frontBlock, Eb'. cbn [mbind option_bind].
  rewrite (En Hft), (Hn e r Epre). eexists _, _. split; [done|]. rewrite <- Eq. apply consumer_stays; [by rewrite Ec| |done].
  exists e, r. split; [done|]. split; [|done]. unfold head_xs in Hx. by rewrite Epre in Hx.
Qed.

(** The block ahead of the front block, as the consumer sees it. *)
Lemma next_seen p : next_in_line pre el p ->
  exists b b' k x ys, blocks q !! p = Some b /\ blocks (produced (producer s) nb q) !! p = Some b' /\ seen q p b b' /\
    block_ok k b (x :: ys) /\ front b <> tail b /\ (p ∉ ids free) /\ exists zs, contents (pre ++ [el]) = x :: zs.
Proof.
  intros (e & r & Epre & Ex & <-). destruct (next_not_empty _ _ _ _ _ I e r Epre) as (Hne & b & Eb & Hok & _).
  pose proof (next_not_free _ _ _ _ _ I e r Epre) as Hf. destruct (produced_seen _ _ _ _ _ I _ _ _ Hp _ b Hf Eb) as (b' & Eb' & Hs).
  destruct (head_xs r el) as [|x ys] eqn:Exs; [done|]. exists b, b', (e_bits (front_entry r el)), x, ys. do 4 (split; [done|]). split; [|split; [done|]].
  - intros E. by apply (front_eq_tail _ _ _ Hok) in E.
  - rewrite Epre, contents_skip by done. by apply (contents_head _ _ x ys).
Qed.

Lemma step_next_tail look p :
  consumer s = CNextTail look p -> consumer_ok (consumer s) q pre el (written s) (taken s) (written_before s) -> consumer_goes_on.
Proof.
  intros Ec Hc. rewrite Ec in Hc. cbn in Hc.
  destruct (next_seen p Hc) as (b & b' & k & x & ys & Eb & Eb' & (E1 & _ & E3 & _) & Hok & Hft & Hf & _).
  unfold consumer_goes_on. rewrite Ec. cbn [consumer_step]. rewrite Eq, Eb'. cbn [mbind option_bind].
  rewrite E1, E3, (proj2 (Z.eqb_neq _ _)) by done. destruct look; (eexists _, _; split; [reflexivity|]).
  - rewrite <- Eq. apply consumer_stays; [by rewrite Ec|exact Hc|done].
  - destruct (note_tail _ _ _ _ _ I _ _ _ Hp p b Hf Eb) as (Ee & I' & Hp' & Eb2). rewrite Ee.
    eapply consumer_safe; [done|exact I'|done|by rewrite Ec, app_nil_r|exact Hp'|]. split; [done|]. by eexists.
Qed.

Lemma step_look_next p :
  consumer s = CLookNext p -> consumer_ok (consumer s) q pre el (written s) (taken s) (written_before s) -> consumer_goes_on.
Proof.
  intros Ec Hc. rewrite Ec in Hc. cbn in Hc.
  destruct (next_seen p Hc) as (b & b' & k & x & ys & Eb & Eb' & (E1 & _ & E3 & _ & _ & Ed) & Hok & Hft & Hf & zs & Ez).
  unfold consumer_goes_on. rewrite Ec. cbn [consumer_step]. rewrite Eq, Eb'. cbn [mbind option_bind].
  rewrite E1, Ed, (front_element _ _ _ Hok x ys) by done. eexists _, _. split; [done|]. rewrite <- Eq.
  apply consumer_stays; [by rewrite Ec| |done]. cbn. by rewrite Hw, Ez, list_lookup_middle.
Qed.

Lemma step_advance p :
  consumer s = CAdvance p -> consumer_ok (consumer s) q pre el (written s) (taken s) (written_before s) -> consumer_goes_on.
Proof.
  intros Ec Hc. rewrite Ec in Hc. cbn in Hc. destruct Hc as ((e & r & Epre & Ex & Ep) & b & Eb & Hne).
  unfold consumer_goes_on. rewrite Ec. cbn [consumer_step]. eexists _, _. split; [done|].
  pose proof I as I'. rewrite Epre in I'. apply (inv_leave 0 malloc 1) in I'; [|done]. rewrite Ep in I'.
  assert (at_frontBlock p (produced (producer s) nb q) = produced (producer s) nb (at_frontBlock p q)) as E by by destruct (producer s).
  rewrite Eq, E. eapply consumer_safe; [done|exact I'|done| | |].
  - rewrite Ec, app_nil_r, Hw, Epre. by rewrite contents_skip.
  - eapply producer_kept; [exact Hp|..]; try done.
    + intros r' c Ec'. by exists c.
    + intros _. by rewrite Epre.
    + right. by exists e.
  - by exists b.
Qed.

(** The front element of the consumer's block. *)
Lemma step_take look :
  consumer s = CTake look -> consumer_ok (consumer s) q pre el (written s) (taken s) (written_before s) -> consumer_goes_on.
Proof.
  intros Ec Hc. rewrite Ec in Hc. destruct Hc as (c & Ecq & Hne).
  destruct (front_seen _ _ _ _ _ I _ _ _ Hp) as (b & b' & Eb & Eb' & (E1 & E2 & E3 & _ & _ & Ed) & Hok & _).
  rewrite Eb in Ecq. injection Ecq as <-.
  assert (exists x ys, head_xs pre el = x :: ys) as (x & ys & Ex).
  { destruct (head_xs pre el) as [|x ys] eqn:Ex; [|by exists x, ys]. destruct Hne. by apply (localTail_empty _ _ _ Hok). }
  pose proof (front_element _ _ _ Hok x ys Ex) as Ex'.
  assert (front b <> tail b) as Hft by (intros E; apply (front_eq_tail _ _ _ Hok) in E; by rewrite Ex in E).
  unfold consumer_goes_on. rewrite Ec. cbn [consumer_step]. rewrite Eq, produced_frontBlock, Eb'. cbn [mbind option_bind].
  rewrite E1, Ed, Ex' by done. destruct look; (eexists _, _; split; [reflexivity|]).
  - rewrite <- Eq. apply consumer_stays; [by rewrite Ec| |done]. destruct (contents_head _ _ _ _ Ex) as [zs Ez].
    cbn. by rewrite Hw, Ez, list_lookup_middle.
  - eapply consumer_safe; [done|exact I| |by rewrite Ec, app_nil_r|exact Hp|].
    + cbn [consumed]. rewrite produced_frontBlock. apply edit_ext. intros b0 Eb0. rewrite Eb' in Eb0. injection Eb0 as <-. by rewrite E1.
    + split; [by exists b|by exists ys].
Qed.
End Step.

Section Publish.
Context (cap : Z) (s : sys) (Hsafe : safe cap s).
Context (q : t (T := T)) (nb : Block (T := T)) (pre : list (entry (T := T))) (el : entry (T := T)) (free : list (entry (T := T))).
Context (I : inv cap q pre el free) (Hw : written s = taken s ++ contents (pre ++ [el])).
Context (Hp : producer_ok (producer s) nb q pre el free (cap <= Z.of_nat (length (written s)) - Z.of_nat (length (taken_before s)))).

Definition leave (b : Block (T := T)) : Block := set_front (incr b (front b)) (destroy (front b) b).

(** The consumer says that it is done with the slot. *)
Lemma step_publish x :
  consumer s = CPublish x -> queue s = consumed (CPublish x) (produced (producer s) nb q) ->
  consumer_ok (CPublish x) q pre el (written s) (taken s) (written_before s) -> consumer_goes_on cap s.
Proof.
  intros Ec Eq ((c & Ecq & Hne) & ys & Ex).
  destruct (front_seen _ _ _ _ _ I _ _ _ Hp) as (b & b' & Eb & Eb' & (E1 & E2 & E3 & E4 & _) & Hok & _).
  rewrite Eb in Ecq. injection Ecq as <-.
  assert (front b <> tail b) as Hft by (intros E; apply (front_eq_tail _ _ _ Hok) in E; by rewrite Ex in E).
  destruct (pop_front _ _ _ _ _ _ _ _ I Eb Hne Ex) as (pre' & el' & I' & Ec' & Hpre).
  unfold consumer_goes_on. rewrite Ec. cbn [consumer_step]. rewrite Eq. cbn [consumed]. rewrite produced_frontBlock.
  change (frontBlock (edit (frontBlock q) ?f ?r)) with (frontBlock r). rewrite produced_frontBlock.
  rewrite (edit_lookup _ _ _ _ Eb'). cbn [mbind option_bind]. eexists _, _. split; [reflexivity|].
  assert (edit (frontBlock q) (set_front (incr (destroy (front b') b') (front (destroy (front b') b'))))
      (edit (frontBlock q) (fun b => destroy (front b) b) (produced (producer s) nb q)) =
    produced (producer s) nb (edit (frontBlock q) leave q)) as E.
  { rewrite edit_edit. transitivity (edit (frontBlock q) (fun c => set_front (incr b (front b)) (destroy (front b) c)) (produced (producer s) nb q)).
    - apply edit_ext. intros b0 Eb0. rewrite Eb' in Eb0. injection Eb0 as <-. unfold incr. cbn. by rewrite E1, E4.
    - rewrite (produced_edit _ _ _ _ _ I _ _ _ Hp _ b); [|by eapply front_not_free|done|].
      + f_equal. apply edit_ext. intros b0 Eb0. rewrite Eb in Eb0. by injection Eb0 as <-.
      + split; [|done]. intros y. unfold put, destroy, set_front. cbn. f_equal. by rewrite delete_insert_ne. }
  eapply consumer_safe; [done|exact I'| | | |].
  - exact E.
  - rewrite Ec. cbn [takes]. by rewrite Hw, Ec', <- app_assoc.
  - eapply producer_kept; [exact Hp|..]; try done; [| |by left].
    + intros p c0 Ec0. destruct (decide (frontBlock q = p)) as [<-|Hp'].
      * rewrite (edit_lookup _ _ _ _ Ec0). eexists. split; [done|]. repeat (split; [done|]). intros Hin.
        by apply (front_not_free _ _ _ _ _ I) in Hin.
      * rewrite edit_lookup_ne by done. by exists c0.
    + intros p Ep. destruct (decide (frontBlock q = p)) as [<-|Hp']; [congruence|]. by rewrite edit_lookup_ne.
  - rewrite Ec. cbn. apply last_snoc.
Qed.
End Publish.

(** The consumer can always step. *)
Lemma consumer_steps cap s : safe cap s -> consumer_free (consumer s) = false -> consumer_goes_on cap s.
Proof.
  intros Hs Hfree. pose proof (safe_queue _ _ Hs) as (q & nb & pre & el & free & I & Eq & Hw & Hp & Hc).
  destruct (consumer s) as [|look|look|look|x|look|look|look|look p|p|p|r|r] eqn:Ec; try done; try rewrite <- Ec in Hc.
  - by eapply step_start.
  - by eapply step_read_tail.
  - by eapply step_take.
  - rewrite Ec in Hc. by eapply step_publish.
  - by eapply step_read_tailBlock.
  - by eapply step_reread.
  - by eapply step_next.
  - by eapply step_next_tail.
  - by eapply step_look_next.
  - by eapply step_advance.
Qed.

(** ** The producer's steps *)

Lemma ring_rotate_list (bl : gmap nat (Block (T := T))) l r : ring_ok bl (l ++ r) -> ring_ok bl (r ++ l).
Proof.
  revert r. induction l as [|e l IH]; intros r R; [by rewrite app_nil_r|].
  change ((e :: l) ++ r) with (e :: (l ++ r)) in R. apply (ring_rotate 0 malloc) in R. rewrite <- app_assoc in R. apply IH in R.
  by rewrite <- app_assoc in R.
Qed.

(** A new block behind the tail block. *)
Lemma inv_insert cap q pre el free b nb n k x :
  inv cap q pre el free -> (pre <> [] -> full el) -> blocks q !! tailBlock q = Some b -> blocks q !! n = None -> (n < mallocs q)%nat ->
  next nb = next b -> block_ok k nb [x] -> largestBlockSize q = 2 ^ k ->
  inv cap (at_tailBlock n (edit (tailBlock q) (set_next (Some n)) (set_blocks (<[n := nb]> (blocks q)) q)))
    (pre ++ [el]) (Entry n k [x]) free.
Proof.
  intros I Hfull Hb Hnew Hn Hnx Hok Hk. destruct (tail_block _ _ _ _ _ I) as (b' & Hb' & _ & Hnb). rewrite Hb in Hb'. injection Hb' as <-.
  pose proof (inv_tail _ _ _ _ _ I) as Tb. assert (tailBlock q <> n) as Hne by congruence.
  assert (edit (tailBlock q) (set_next (Some n)) (set_blocks (<[n := nb]> (blocks q)) q) =
    set_blocks (<[tailBlock q := set_next (Some n) b]> (<[n := nb]> (blocks q))) q) as ->.
  { rewrite (edit_some _ _ _ b); [done|]. cbn. by rewrite lookup_insert_ne. }
  destruct I as [R Fr Fb _ Fe Fu La Sz].
  assert (E : (pre ++ [el]) ++ Entry n k [x] :: free = ((pre ++ [el]) ++ [Entry n k [x]]) ++ free) by by rewrite <- (app_assoc (pre ++ [el])).
  split; cbn [blocks mallocs frontBlock tailBlock largestBlockSize at_tailBlock set_blocks]; try done.
  - rewrite E. apply ring_rotate_list. rewrite !app_assoc. change (el :: free) with ([el] ++ free) in R. rewrite app_assoc in R.
    apply ring_rotate_list in R. rewrite app_assoc in R. rewrite Tb in Hb |- *. apply (ring_grow 0 malloc); try done.
    rewrite Hnx, Hnb. f_equal. rewrite !ids_app, !hd_app, Fb. by destruct pre.
  - intros p [b0 H]. apply lookup_insert_Some in H as [[<- _]|[_ [[<- _]|[_ H]]%lookup_insert_Some]]; [|done|apply Fr; by eexists].
    apply Fr. by eexists.
  - rewrite Fb, ids_app, hd_app. done.
  - destruct pre as [|e r]; cbn; [done|]. apply Forall_app. split; [done|]. apply Forall_singleton. by apply Hfull.
  - destruct Sz as (s & k0 & Hs & Hk0 & El & Hb0 & Hcap). assert (k0 = k) as ->.
    { rewrite El in Hk. pose proof (ok_bits _ _ _ Hok). apply Z.pow_inj_r in Hk; lia. }
    exists s, k. assert (bits ((pre ++ [el]) ++ Entry n k [x] :: free) ≡ₚ k :: bits (pre ++ el :: free)) as P.
    { unfold bits. rewrite !fmap_app. cbn. rewrite <- app_assoc. cbn. rewrite <- !Permutation_middle. by rewrite perm_swap. }
    split; [done|]. split; [done|]. split; [done|]. split.
    + rewrite P. apply Forall_cons. split; [lia|done].
    + rewrite P. cbn [length]. etrans; [exact Hcap|]. apply Z.mul_le_mono_nonneg_r; [pose proof (Z.pow_le_mono_r 2 0 s); lia|lia].
Qed.

(** A block as the producer sees it, whatever the consumer does. *)
Definition seen_back (b b' : Block (T := T)) : Prop :=
  front b' = front b /\ tail b' = tail b /\ localFront b' = localFront b /\ sizeMask b' = sizeMask b /\ next b' = next b /\
  forall i, data b !! i = None -> data b' !! i = None.

Lemma consumed_seen cc r p b : blocks r !! p = Some b -> exists b', blocks (consumed cc r) !! p = Some b' /\ seen_back b b'.
Proof.
  intros Eb. assert (seen_back b b) as Hsame by done. destruct cc; cbn [consumed]; try (by exists b).
  destruct (decide (frontBlock r = p)) as [<-|Hne].
  - exists (destroy (front b) b). rewrite (edit_lookup _ _ _ b) by done. split; [done|]. repeat (split; [done|]).
    intros i Hi. cbn. destruct (decide (front b = i)) as [<-|Hi']; [by rewrite lookup_delete_eq|by rewrite lookup_delete_ne].
  - exists b. by rewrite edit_lookup_ne.
Qed.

Lemma consumed_edit cc r p f :
  (p = frontBlock r -> forall x, cc = CPublish x -> forall b, blocks r !! p = Some b -> f (destroy (front b) b) = destroy (front (f b)) (f b)) ->
  edit p f (consumed cc r) = consumed cc (edit p f r).
Proof.
  intros Hf. destruct cc; cbn [consumed]; try done. change (frontBlock (edit p f r)) with (frontBlock r). apply edit_comm.
  intros E b Eb. by eapply Hf.
Qed.

Lemma consumed_front cc r : frontBlock (consumed cc r) = frontBlock r /\ tailBlock (consumed cc r) = tailBlock r /\
  mallocs (consumed cc r) = mallocs r /\ largestBlockSize (consumed cc r) = largestBlockSize r.
Proof. by destruct cc. Qed.

(** What the consumer knows is not changed by the producer. *)
Lemma consumer_kept cc q q' pre pre' (el el' : entry (T := T)) wr zs tk wb :
  consumer_ok cc q pre el wr tk wb -> frontBlock q' = frontBlock q ->
  (forall p b, blocks q !! p = Some b -> exists b', blocks q' !! p = Some b' /\ front b' = front b /\ localTail b' = localTail b) ->
  (pre <> [] -> pre' <> [] /\ head_xs pre' el' = head_xs pre el) ->
  (forall x ys, head_xs pre el = x :: ys -> exists ys', head_xs pre' el' = x :: ys') ->
  (forall p, next_in_line pre el p -> next_in_line pre' el' p) ->
  consumer_ok cc q' pre' el' (wr ++ zs) tk wb.
Proof.
  intros Hc Ef Hb Hne Hx Hn.
  assert (forall p, (exists b, blocks q !! p = Some b /\ front b <> localTail b) ->
    exists b, blocks q' !! p = Some b /\ front b <> localTail b) as Hl.
  { intros p (b & Eb & H). destruct (Hb p b Eb) as (b' & Eb' & E1 & E2). exists b'. by rewrite E1, E2. }
  destruct cc as [|look|look|look|x|look|look|look|look p|p|p|[x|]|[x|]]; cbn [consumer_ok] in *; try done.
  - rewrite Ef. by apply Hl.
  - rewrite Ef. destruct Hc as [Hc (ys & Ex)]. split; [by apply Hl|by eapply Hx].
  - destruct Hc as [Hc|Hc]; [left; by apply Hne|by right].
  - by apply Hne.
  - destruct Hc as [H1 H2]. destruct (Hne H1) as [H3 H4]. by rewrite H4.
  - by apply Hn.
  - by apply Hn.
  - destruct Hc as [H1 H2]. split; [by apply Hn|by apply Hl].
  - rewrite lookup_app_l; [done|]. by eapply lookup_lt_Some.
Qed.

Lemma in_line_push pre el xs p : next_in_line pre el p -> next_in_line pre (update xs el) p.
Proof. intros (e & r & -> & Ex & Ep). exists e, r. split; [done|]. split; [done|]. by destruct r. Qed.

Lemma in_line_app pre el el' p : next_in_line pre el p -> next_in_line (pre ++ [el]) el' p.
Proof. intros (e & r & -> & Ex & Ep). exists e, (r ++ [el]). split; [done|]. split; [done|]. by destruct r. Qed.

Definition after_producer (s : sys) (pc : producing) (q : t) : sys :=
  mkSys q pc (consumer s) (written s ++ writes (producer s)) (taken s) (written_before s) (taken_before s).

Lemma producer_safe cap s pc Q q nb pre el free :
  safe cap s -> inv cap q pre el free -> Q = consumed (consumer s) (produced pc nb q) ->
  written s ++ writes (producer s) = taken s ++ contents (pre ++ [el]) ->
  producer_ok pc nb q pre el free (cap <= Z.of_nat (length (written s ++ writes (producer s))) - Z.of_nat (length (taken_before s))) ->
  consumer_ok (consumer s) q pre el (written s ++ writes (producer s)) (taken s) (written_before s) ->
  safe cap (after_producer s pc Q).
Proof.
  intros [[Hb1 Hb2] _] I -> Hw Hp Hc. split; cbn; [split; [rewrite length_app; lia|done]|].
  by exists q, nb, pre, el, free.
Qed.

Section Producer.
Context (cap : Z) (s : sys) (Hsafe : safe cap s).
Context (q : t (T := T)) (nb : Block (T := T)) (pre : list (entry (T := T))) (el : entry (T := T)) (free : list (entry (T := T))).
Context (I : inv cap q pre el free) (Hw : written s = taken s ++ contents (pre ++ [el])).
Context (Hc : consumer_ok (consumer s) q pre el (written s) (taken s) (written_before s)).

Definition producer_goes_on : Prop :=
  exists pc Q, producer_step (producer s) (queue s) = Some (pc, Q) /\ safe cap (after_producer s pc Q).
Abbreviation refused := (cap <= Z.of_nat (length (written s)) - Z.of_nat (length (taken_before s))).

(** A step that writes nothing yet and leaves the blocks as the consumer knows
    them, but for [localFront]. *)
Lemma producer_prepares pc Q q' nb' :
  writes (producer s) = [] -> inv cap q' pre el free -> Q = consumed (consumer s) (produced pc nb' q') ->
  producer_ok pc nb' q' pre el free refused -> frontBlock q' = frontBlock q ->
  (forall p b, blocks q !! p = Some b -> exists b', blocks q' !! p = Some b' /\ front b' = front b /\ localTail b' = localTail b) ->
  safe cap (after_producer s pc Q).
Proof.
  intros Hwr I' EQ Hp Ef Hb. eapply producer_safe; [done|exact I'|exact EQ|by rewrite Hwr, app_nil_r|by rewrite Hwr, app_nil_r|].
  rewrite Hwr. eapply consumer_kept; [exact Hc|done|done|done|by intros x ys ->; exists ys|done].
Qed.

(** The element is in the queue. *)
Lemma producer_writes x pc Q q' pre' el' free' :
  writes (producer s) = [x] -> inv cap q' pre' el' free' -> Q = consumed (consumer s) q' ->
  contents (pre' ++ [el']) = contents (pre ++ [el]) ++ [x] -> pc = PDone true -> frontBlock q' = frontBlock q ->
  (forall p b, blocks q !! p = Some b -> exists b', blocks q' !! p = Some b' /\ front b' = front b /\ localTail b' = localTail b) ->
  (pre' = pre /\ el' = update (e_xs el ++ [x]) el) \/ pre' = pre ++ [el] ->
  safe cap (after_producer s pc Q).
Proof.
  intros Hwr I' EQ Ec -> Ef Hb Hcase. eapply (producer_safe _ _ _ _ q' nb); [done|exact I'|exact EQ|by rewrite Hwr, Hw, Ec, app_assoc|done|].
  eapply consumer_kept; [exact Hc|done|done|..].
  - intros Hne. unfold head_xs. destruct Hcase as [[-> ->]| ->]; (split; [by destruct pre|]); by destruct pre.
  - intros y ys Ey. unfold head_xs in *. destruct Hcase as [[-> ->]| ->]; destruct pre; cbn in *; try (by exists ys).
    rewrite Ey. by exists (ys ++ [x]).
  - intros p Hn. destruct Hcase as [[-> ->]| ->]; [by apply in_line_push|by apply in_line_app].
Qed.

(** The tail block, as it is and as the producer sees it. *)
Lemma tail_seen : exists b b', blocks q !! tailBlock q = Some b /\ blocks (consumed (consumer s) q) !! tailBlock q = Some b' /\
  seen_back b b' /\ block_ok (e_bits el) b (e_xs el) /\ next b = Some (hd (frontBlock q) (ids free)).
Proof.
  destruct (tail_block _ _ _ _ _ I) as (b & Eb & Hok & Hn). destruct (consumed_seen (consumer s) q _ b Eb) as (b' & Eb' & Hs).
  by exists b, b'.
Qed.

Lemma localFront_noted p v b :
  blocks q !! p = Some b -> front b = v ->
  let q' := edit p (set_localFront v) q in
  edit p (set_localFront v) (consumed (consumer s) q) = consumed (consumer s) q' /\ inv cap q' pre el free /\
  blocks q' !! p = Some (set_localFront v b) /\
  (forall p b, blocks q !! p = Some b -> exists b', blocks q' !! p = Some b' /\ front b' = front b /\ localTail b' = localTail b).
Proof.
  intros Eb <-. cbn zeta. split; [by apply consumed_edit|]. split; [|split; [by rewrite (edit_lookup _ _ _ b)|]].
  - apply inv_refresh; [done|]. intros b0 Eb0. rewrite Eb in Eb0. injection Eb0 as <-. split; [done|]. intros k xs. apply localFront_refreshed.
  - intros r c Ec. destruct (decide (p = r)) as [<-|Hne].
    + rewrite (edit_lookup _ _ _ _ Ec). by eexists.
    + rewrite edit_lookup_ne by done. by exists c.
Qed.

Lemma same_blocks : forall p b, blocks q !! p = Some b -> exists b', blocks q !! p = Some b' /\ front b' = front b /\ localTail b' = localTail b.
Proof. intros p b E. by exists b. Qed.

Lemma step_pstart m x : producer s = PStart m x -> queue s = consumed (consumer s) q -> producer_goes_on.
Proof.
  intros Ep Eq. destruct tail_seen as (b & b' & Eb & Eb' & (E1 & E2 & E3 & E4 & _) & Hok & _).
  unfold producer_goes_on. rewrite Ep. cbn [producer_step]. rewrite Eq. destruct (consumed_front (consumer s) q) as (_ & -> & _).
  rewrite Eb'. cbn [mbind option_bind]. unfold incr. rewrite E2, E3, E4. fold (incr b (tail b)). eexists _, _. split; [reflexivity|].
  eapply (producer_prepares _ _ q nb); [by rewrite Ep|done| | |done|apply same_blocks]; case_decide; try done. by exists b.
Qed.

Lemma step_read_front m x : producer s = PReadFront m x -> queue s = consumed (consumer s) q -> producer_goes_on.
Proof.
  intros Ep Eq. destruct tail_seen as (b & b' & Eb & Eb' & (E1 & E2 & E3 & E4 & _) & Hok & _).
  unfold producer_goes_on. rewrite Ep. cbn [producer_step]. rewrite Eq. destruct (consumed_front (consumer s) q) as (_ & -> & _).
  rewrite Eb'. cbn [mbind option_bind]. unfold incr. rewrite E1, E2, E4. fold (incr b (tail b)). eexists _, _. split; [reflexivity|].
  destruct (localFront_noted _ _ b Eb eq_refl) as (Ee & I' & Eb2 & Hb).
  eapply (producer_prepares _ _ _ nb); [by rewrite Ep|exact I'| | |done|exact Hb].
  - rewrite Ee. by case_decide.
  - case_decide as Hf; cbn [producer_ok].
    + apply (full_iff _ _ _ Hok) in Hf. split; [by intros _|]. intros E0. pose proof (safe_before _ _ Hsafe) as [_ Hb2].
      pose proof I as I0. rewrite E0 in I0. pose proof (full_capacity _ _ _ _ I0 Hf) as Hcap. rewrite Hw, length_app. lia.
    + eexists. split; [exact Eb2|]. exact Hf.
Qed.

(** The slot at [tail] has no element. *)
Lemma tail_slot_empty k (b : Block (T := T)) xs : block_ok k b xs -> data b !! tail b = None.
Proof.
  intros Hok. pose proof (tail_range _ _ _ Hok) as Ht. pose proof (ok_len _ _ _ Hok). rewrite (ok_data _ _ _ Hok), decide_True by done.
  assert ((tail b - front b) `mod` 2 ^ k = Z.of_nat (length xs)) as -> by (apply mod_offset; [lia|done|apply (ok_tail _ _ _ Hok)]).
  rewrite Nat2Z.id. by apply lookup_ge_None.
Qed.

(** [put] and the taking of the front element touch different slots. *)
Lemma put_back x b : blocks q !! tailBlock q = Some b -> block_ok (e_bits el) b (e_xs el) ->
  tailBlock q = frontBlock q -> forall y, consumer s = CPublish y ->
  forall b0, blocks q !! tailBlock q = Some b0 -> put (tail b) x (destroy (front b0) b0) = destroy (front (put (tail b) x b0)) (put (tail b) x b0).
Proof.
  intros Eb Hok E y Ey b0 Eb0. rewrite Eb in Eb0. injection Eb0 as <-. pose proof Hc as H. rewrite Ey in H. destruct H as (_ & ys & Ex).
  assert (front b <> tail b) as Hft.
  { intros Eft. apply (front_eq_tail _ _ _ Hok) in Eft. symmetry in E. apply (front_is_tail _ _ _ _ _ I) in E. unfold head_xs in Ex.
    rewrite E in Ex. cbn in Ex. by rewrite Eft in Ex. }
  unfold put, destroy. cbn. f_equal. by rewrite delete_insert_ne.
Qed.

Lemma step_put x : producer s = PPut x -> queue s = consumed (consumer s) q -> producer_ok (PPut x) nb q pre el free refused -> producer_goes_on.
Proof.
  intros Ep Eq Hp. destruct tail_seen as (b & b' & Eb & Eb' & (E1 & E2 & E3 & E4 & _ & Ed) & Hok & _).
  unfold producer_goes_on. rewrite Ep. cbn [producer_step]. rewrite Eq. destruct (consumed_front (consumer s) q) as (_ & -> & _).
  rewrite Eb'. cbn [mbind option_bind]. rewrite E2, Ed by by apply (tail_slot_empty (e_bits el) b (e_xs el)). eexists _, _. split; [reflexivity|].
  eapply (producer_prepares _ _ q nb); [by rewrite Ep|done| |done|done|apply same_blocks].
  cbn [produced]. rewrite consumed_edit by by apply put_back. f_equal. apply edit_ext. intros b0 Eb0. rewrite Eb in Eb0. by injection Eb0 as <-.
Qed.

Lemma step_ppublish x : producer s = PPublish x -> queue s = consumed (consumer s) (produced (PPublish x) nb q) ->
  producer_ok (PPublish x) nb q pre el free refused -> producer_goes_on.
Proof.
  intros Ep Eq (c & Ecq & Hroom). destruct (tail_block _ _ _ _ _ I) as (b & Eb & Hok & _). rewrite Eb in Ecq. injection Ecq as <-.
  set (r := produced (PPublish x) nb q) in *.
  assert (blocks r !! tailBlock q = Some (put (tail b) x b)) as Er by (unfold r; cbn [produced]; by rewrite (edit_lookup _ _ _ b)).
  destruct (consumed_seen (consumer s) r _ _ Er) as (b' & Eb' & (_ & E2 & _ & E4 & _)). cbn in E2, E4.
  unfold producer_goes_on. rewrite Ep. cbn [producer_step]. rewrite Eq. destruct (consumed_front (consumer s) r) as (_ & -> & _).
  change (tailBlock r) with (tailBlock q). rewrite Eb'. cbn [mbind option_bind]. unfold incr. rewrite E2, E4. fold (incr b (tail b)).
  eexists _, _. split; [reflexivity|].
  assert (inv cap (edit (tailBlock q) (fun b => set_tail (incr b (tail b)) (put (tail b) x b)) q) pre (update (e_xs el ++ [x]) el) free) as I'.
  { rewrite (edit_some _ _ _ b) by done. eapply inv_change_tail; [done|done|done| |by destruct (e_xs el)].
    apply (pushed _ _ _ Hok); [by apply (localFront_room _ _ _ Hok)|]. by destruct (ok_localFront _ _ _ Hok) as (? & ? & ? & ? & ?). }
  eapply (producer_writes x); [by rewrite Ep|exact I'| |apply contents_push|done|done| |by left].
  - rewrite consumed_edit by done. f_equal. unfold r. cbn [produced]. rewrite edit_edit. apply edit_ext. intros b0 Eb0.
    rewrite Eb in Eb0. by injection Eb0 as <-.
  - intros p c Ec. destruct (decide (tailBlock q = p)) as [<-|Hne].
    + rewrite (edit_lookup _ _ _ _ Ec). by eexists.
    + rewrite edit_lookup_ne by done. by exists c.
Qed.

Lemma step_check_next m x : producer s = PCheckNext m x -> queue s = consumed (consumer s) q ->
  producer_ok (PCheckNext m x) nb q pre el free refused -> producer_goes_on.
Proof.
  intros Ep Eq [Hfull Href]. destruct tail_seen as (b & b' & Eb & Eb' & (_ & _ & _ & _ & En & _) & Hok & Hn).
  unfold producer_goes_on. rewrite Ep. cbn [producer_step]. rewrite Eq. destruct (consumed_front (consumer s) q) as (-> & -> & _).
  rewrite Eb'. cbn [mbind option_bind]. rewrite En, Hn. destruct free as [|f free'] eqn:Ef.
  - rewrite decide_True by done. eexists _, _. split; [reflexivity|]. specialize (Href eq_refl).
    eapply (producer_prepares _ _ q nb); [by rewrite Ep|by rewrite Ef| | |done|apply same_blocks]; by destruct m.
  - destruct (free_block_ok _ _ _ _ _ I f free' eq_refl) as (_ & _ & _ & _ & Hne).
    rewrite decide_False by (intros [= E]; done). eexists _, _. split; [reflexivity|].
    eapply (producer_prepares _ _ q nb); [by rewrite Ep|by rewrite Ef|done| |done|apply same_blocks]. split; [done|]. by exists f, free'.
Qed.

(** The free block ahead. *)
Lemma ahead_block p : free_ahead free p -> exists f free' b, free = f :: free' /\ e_id f = p /\ blocks q !! p = Some b /\
  block_ok (e_bits f) b [] /\ p <> tailBlock q /\ p <> frontBlock q.
Proof.
  intros (f & r & Ef & <-). destruct (free_block_ok _ _ _ _ _ I f r Ef) as (b & Eb & Hok & H1 & H2). by exists f, r, b.
Qed.

Lemma step_pnext x p : producer s = PNext x p -> queue s = consumed (consumer s) q ->
  producer_ok (PNext x p) nb q pre el free refused -> producer_goes_on.
Proof.
  intros Ep Eq [Hfull Ha]. destruct (ahead_block p Ha) as (f & r & b & Ef & Eid & Eb & Hok & Ht & Hf).
  destruct (consumed_seen (consumer s) q _ b Eb) as (b' & Eb' & (E1 & E2 & _)).
  unfold producer_goes_on. rewrite Ep. cbn [producer_step]. rewrite Eq, Eb'. cbn [mbind option_bind].
  rewrite E1, E2. rewrite (proj2 (Z.eqb_eq (front b) (tail b))) by by apply (front_eq_tail _ _ _ Hok). eexists _, _. split; [reflexivity|].
  destruct (localFront_noted _ _ b Eb eq_refl) as (Ee & I' & Eb2 & Hb).
  eapply (producer_prepares _ _ _ nb); [by rewrite Ep|exact I'|exact Ee| |done|exact Hb].
  split; [done|]. split; [done|]. by eexists.
Qed.

Lemma step_pnext_put x p : producer s = PNextPut x p -> queue s = consumed (consumer s) q ->
  producer_ok (PNextPut x p) nb q pre el free refused -> producer_goes_on.
Proof.
  intros Ep Eq (Hfull & Ha & Hlf). destruct (ahead_block p Ha) as (f & r & b & Ef & Eid & Eb & Hok & Ht & Hf).
  destruct (consumed_seen (consumer s) q _ b Eb) as (b' & Eb' & (_ & E2 & _ & _ & _ & Ed)).
  unfold producer_goes_on. rewrite Ep. cbn [producer_step]. rewrite Eq, Eb'. cbn [mbind option_bind].
  rewrite E2, Ed by by apply (tail_slot_empty (e_bits f) b []). eexists _, _. split; [reflexivity|].
  eapply (producer_prepares _ _ q nb); [by rewrite Ep|done| |done|done|apply same_blocks].
  cbn [produced]. rewrite consumed_edit by (intros E; done). f_equal. apply edit_ext. intros b0 Eb0. rewrite Eb in Eb0. by injection Eb0 as <-.
Qed.

Lemma step_pnext_tail x p : producer s = PNextTail x p -> queue s = consumed (consumer s) (produced (PNextTail x p) nb q) ->
  producer_ok (PNextTail x p) nb q pre el free refused -> producer_goes_on.
Proof.
  intros Ep Eq (Hfull & Ha & Hlf). destruct (ahead_block p Ha) as (f & r & b & Ef & Eid & Eb & Hok & Ht & Hf).
  set (r0 := produced (PNextTail x p) nb q) in *.
  assert (blocks r0 !! p = Some (put (tail b) x b)) as Er by (unfold r0; cbn [produced]; by rewrite (edit_lookup _ _ _ b)).
  destruct (consumed_seen (consumer s) r0 _ _ Er) as (b' & Eb' & (_ & E2 & _ & E4 & _)). cbn in E2, E4.
  unfold producer_goes_on. rewrite Ep. cbn [producer_step]. rewrite Eq, Eb'. cbn [mbind option_bind]. unfold incr. rewrite E2, E4.
  fold (incr b (tail b)). eexists _, _. split; [reflexivity|].
  eapply (producer_prepares _ _ q nb); [by rewrite Ep|done| |done|done|apply same_blocks].
  cbn [produced]. rewrite consumed_edit by done. f_equal. unfold r0. cbn [produced]. rewrite edit_edit. apply edit_ext. intros b0 Eb0.
  rewrite Eb in Eb0. by injection Eb0 as <-.
Qed.

Lemma step_pnext_publish x p : producer s = PNextPublish x p -> queue s = consumed (consumer s) (produced (PNextPublish x p) nb q) ->
  producer_ok (PNextPublish x p) nb q pre el free refused -> producer_goes_on.
Proof.
  intros Ep Eq (Hfull & Ha & c & Ec & Hlf). destruct (ahead_block p Ha) as (f & r & b & Ef & Eid & Eb & Hok & Ht & Hf).
  rewrite Eb in Ec. injection Ec as <-. unfold producer_goes_on. rewrite Ep. cbn [producer_step]. rewrite Eq. eexists _, _. split; [reflexivity|].
  pose proof I as I0. rewrite Ef in I0. pose proof (slots_pos _ _ _ Hok) as Hpos.
  assert (block_ok (e_bits f) (set_tail (incr b (tail b)) (put (tail b) x b)) [x]) as Hok'.
  { change [x] with ([] ++ [x]). apply (pushed _ _ _ Hok).
    - exists 0. pose proof (ok_front _ _ _ Hok). rewrite Hlf, Z.mod_small by lia. cbn. repeat split; lia.
    - rewrite Hlf. apply (ok_front _ _ _ Hok). }
  rewrite <- Eid in Eb. pose proof (inv_advance _ _ _ _ _ _ b (set_tail (incr b (tail b)) (put (tail b) x b)) x I0 Hfull Eb eq_refl Hok') as I'.
  rewrite Eid in I', Eb.
  eapply (producer_writes x); [by rewrite Ep|exact I'| |by apply contents_next|done|done| |by right].
  - cbn [produced]. rewrite (edit_some _ _ _ b) by done. by destruct (consumer s).
  - intros p' c' Ec'. cbn. destruct (decide (p = p')) as [<-|Hne].
    + rewrite Ec' in Eb. injection Eb as ->. rewrite lookup_insert_eq. by eexists.
    + rewrite lookup_insert_ne by done. by exists c'.
Qed.

Context (m : Z) (Hm : 1 <= m < 64) (HMAX : MAX_BLOCK_SIZE = 2 ^ m).

(** There is one more call of [malloc] behind us. *)
Lemma inv_mallocs k : largestBlockSize q <= 2 ^ k -> 0 <= k < 64 ->
  inv cap (mk (blocks q) (S (mallocs q)) (frontBlock q) (tailBlock q) (2 ^ k)) pre el free.
Proof.
  intros Hk Hk64. destruct I as [R Fr Fb Tb Fe Fu La (s0 & k0 & Hs & Hk0 & El & Hb0 & Hcap)].
  split; cbn [blocks mallocs frontBlock tailBlock largestBlockSize]; try done.
  - intros p Hp. specialize (Fr p Hp). lia.
  - rewrite El in Hk. apply Z.pow_le_mono_r_iff in Hk; [|lia|lia]. exists s0, k. repeat split; try lia; try done.
Qed.

Lemma step_palloc x : producer s = PAlloc x -> queue s = consumed (consumer s) q ->
  producer_ok (PAlloc x) nb q pre el free refused -> producer_goes_on.
Proof.
  intros Ep Eq [Hfull Href]. destruct tail_seen as (b & b' & Eb & Eb' & (_ & _ & _ & _ & En & _) & Hok & _).
  destruct (new_size_pow2 MAX_BLOCK_SIZE m Hm HMAX _ _ _ _ _ I) as (k & Hk & Ek & Hle).
  destruct (inv_size _ _ _ _ _ I) as (s0 & k0 & Hs0 & Hk0 & El & _ & _).
  unfold producer_goes_on. rewrite Ep. cbn [producer_step]. rewrite Eq.
  destruct (consumed_front (consumer s) q) as (Ef & Et & Em & Elg). rewrite Et, Eb'. cbn [mbind option_bind].
  assert (newBlockSize MAX_BLOCK_SIZE (consumed (consumer s) q) = 2 ^ k) as -> by (unfold newBlockSize in *; by rewrite Elg).
  unfold make_block. rewrite Em. destruct (malloc (mallocs q) _) as [raw|] eqn:Emal.
  - set (dat := align_for alignT _). clearbody dat. cbn [mbind option_bind set_blocks blocks]. rewrite lookup_insert_eq. cbn [mbind option_bind].
    change (front (new_Block (2 ^ k) raw dat) =? 0) with true. cbv iota. eexists _, _. split; [reflexivity|].
    set (nb' := set_next (next b) (set_tail 1 (set_localTail 1 (put 0 x (new_Block (2 ^ k) raw dat))))).
    assert (blocks q !! mallocs q = None) as Hnew.
    { destruct (blocks q !! mallocs q) as [b0|] eqn:E; [|done].
      pose proof (inv_fresh _ _ _ _ _ I (mallocs q) ltac:(by eexists)). lia. }
    eapply (producer_prepares _ _ (mk (blocks q) (S (mallocs q)) (frontBlock q) (tailBlock q) (2 ^ k)) nb');
      [by rewrite Ep|apply inv_mallocs; [done|lia]| | |done|apply same_blocks].
    + cbn [produced]. unfold with_largest, edit, set_blocks. cbn [blocks mallocs frontBlock tailBlock largestBlockSize]. rewrite alter_insert_eq, En.
      fold nb'. rewrite Ef, Et. destruct (consumer s); cbn [consumed]; unfold edit, set_blocks; cbn; try done.
      f_equal. apply map_eq. intros p. destruct (decide (mallocs q = p)) as [<-|Hne].
      * rewrite lookup_insert_eq, lookup_alter_ne, lookup_insert_eq; [done|]. intros E. destruct (front_block _ _ _ _ _ I) as (b0 & Eb0 & _).
        rewrite E in Eb0. congruence.
      * rewrite lookup_insert_ne by done. destruct (decide (frontBlock q = p)) as [<-|Hfp].
        -- by rewrite !lookup_alter_eq, lookup_insert_ne.
        -- by rewrite !lookup_alter_ne, lookup_insert_ne.
    + split; [done|]. cbn. split; [done|]. split; [lia|]. exists k, b. split; [|done]. by apply first_element_ok.
  - eexists _, _. split; [reflexivity|].
    eapply (producer_prepares _ _ (mk (blocks q) (S (mallocs q)) (frontBlock q) (tailBlock q) (2 ^ k0)) nb);
      [by rewrite Ep|apply inv_mallocs; lia| |done|done|apply same_blocks].
    rewrite <- El. cbn [produced]. by destruct (consumer s).
Qed.

Lemma step_plink x n : producer s = PLink x n -> queue s = consumed (consumer s) (produced (PLink x n) nb q) ->
  producer_ok (PLink x n) nb q pre el free refused -> producer_goes_on.
Proof.
  intros Ep Eq Hp. unfold producer_goes_on. rewrite Ep. cbn [producer_step]. eexists _, _. split; [reflexivity|]. rewrite Eq.
  eapply (producer_prepares _ _ q nb); [by rewrite Ep|done| |done|done|apply same_blocks].
  rewrite consumed_edit by done. by destruct (consumed_front (consumer s) (produced (PLink x n) nb q)) as (_ & -> & _).
Qed.

Lemma step_plink_publish x n : producer s = PLinkPublish x n -> queue s = consumed (consumer s) (produced (PLinkPublish x n) nb q) ->
  producer_ok (PLinkPublish x n) nb q pre el free refused -> producer_goes_on.
Proof.
  intros Ep Eq (Hfull & Hnew & Hn & k & b & Hok & Hk & Eb & Enx).
  unfold producer_goes_on. rewrite Ep. cbn [producer_step]. eexists _, _. split; [reflexivity|].
  rewrite Eq. pose proof (inv_insert _ _ _ _ _ b nb n k x I Hfull Eb Hnew Hn Enx Hok Hk) as I'.
  eapply (producer_writes x); [by rewrite Ep|exact I'| |by apply contents_next|done|done| |by right].
  - cbn [produced]. by destruct (consumer s).
  - intros p c Ec. cbn. assert (n <> p) as Hne by congruence. destruct (decide (tailBlock q = p)) as [<-|Htp].
    + rewrite lookup_alter_eq, lookup_insert_ne, Ec by done. by eexists.
    + rewrite lookup_alter_ne, lookup_insert_ne by done. by exists c.
Qed.
End Producer.

(** ** Both together *)

Section System.
Context (m : Z) (Hm : 1 <= m < 64) (HMAX : MAX_BLOCK_SIZE = 2 ^ m) (cap : Z).

(** The producer can always step. *)
Lemma producer_steps s : safe cap s -> producer_free (producer s) = false -> producer_goes_on cap s.
Proof.
  intros Hs Hfree. pose proof (safe_queue _ _ Hs) as (q & nb & pre & el & free & I & Eq & Hw & Hp & Hc).
  destruct (producer s) as [|c x|c x|x|x|c x|x p|x p|x p|x p|x|x n|x n|ok] eqn:Ep; try done.
  - by eapply step_pstart.
  - by eapply step_read_front.
  - by eapply step_put.
  - by eapply step_ppublish.
  - by eapply step_check_next.
  - by eapply step_pnext.
  - by eapply step_pnext_put.
  - by eapply step_pnext_tail.
  - by eapply step_pnext_publish.
  - by eapply step_palloc.
  - by eapply step_plink.
  - by eapply step_plink_publish.
Qed.

(** A call begins. *)
Lemma producer_begins c x s : safe cap s -> producer_free (producer s) = true ->
  safe cap (mkSys (queue s) (PStart c x) (consumer s) (written s) (taken s) (written_before s) (taken s)).
Proof.
  intros [[Hb1 Hb2] (q & nb & pre & el & free & I & Eq & Hw & Hp & Hc)] Hf. split; cbn; [done|].
  exists q, nb, pre, el, free. repeat (split; [done|]). split; [|done]. by destruct (producer s).
Qed.

Lemma consumer_begins look s : safe cap s -> consumer_free (consumer s) = true ->
  safe cap (mkSys (queue s) (producer s) (CStart look) (written s) (taken s) (written s) (taken_before s)).
Proof.
  intros [[Hb1 Hb2] (q & nb & pre & el & free & I & Eq & Hw & Hp & Hc)] Hf. split; cbn; [done|].
  exists q, nb, pre, el, free. repeat (split; [done|]). split; [|done]. by destruct (consumer s).
Qed.

Lemma turn_safe c s : safe cap s -> exists s', turn c s = Some s' /\ safe cap s'.
Proof.
  intros Hs. unfold turn. destruct (can c s) eqn:Hcan; [|by exists s].
  destruct c; cbn in Hcan; try (eexists; split; [reflexivity|]).
  - by apply producer_begins.
  - apply negb_true_iff in Hcan. destruct (producer_steps s Hs Hcan) as (pc & Q & -> & H). by eexists.
  - by apply consumer_begins.
  - by apply consumer_begins.
  - apply negb_true_iff in Hcan. destruct (consumer_steps cap s Hs Hcan) as (pc & Q & -> & H). by eexists.
Qed.

Lemma turns_safe schedule s : safe cap s -> exists s', turns schedule s = Some s' /\ safe cap s'.
Proof.
  revert s. induction schedule as [|c schedule IH]; intros s Hs; cbn; [by exists s|].
  destruct (turn_safe c s Hs) as (s1 & -> & H1). by apply IH.
Qed.

Lemma begin_safe q : holds cap q [] -> safe cap (begin q).
Proof.
  intros (pre & el & free & I & E). split; [done|]. destruct (front_block _ _ _ _ _ I) as (b & _).
  exists q, (new_Block 0 0 0), pre, el, free. by rewrite <- E.
Qed.

(** Between calls the queue is the one of ReaderWriterQueue.v. *)
Lemma safe_holds s : safe cap s -> producer_free (producer s) = true -> consumer_free (consumer s) = true ->
  exists xs, written s = taken s ++ xs /\ holds cap (queue s) xs.
Proof.
  intros [_ (q & nb & pre & el & free & I & Eq & Hw & _)] Hp Hc. exists (contents (pre ++ [el])). split; [done|].
  exists pre, el, free. split; [|done]. rewrite Eq. by destruct (producer s), (consumer s).
Qed.

(** What the calls have returned. *)
Lemma safe_answers s : safe cap s ->
  (producer s = PDone false -> cap <= Z.of_nat (length (written s)) - Z.of_nat (length (taken_before s))) /\
  match consumer s with
  | CTaken None | CSeen None => (length (written_before s) <= length (taken s))%nat
  | CTaken (Some x) => last (taken s) = Some x
  | CSeen (Some x) => written s !! length (taken s) = Some x
  | _ => True
  end.
Proof.
  intros [_ (q & nb & pre & el & free & _ & _ & _ & Hp & Hc)]. split; [by intros E; rewrite E in Hp|].
  by destruct (consumer s) as [|look|look|look|x|look|look|look|look p|p|p|[x|]|[x|]].
Qed.
End System.

(** ** Calls end *)

Definition producer_rank (pc : producing) : nat :=
  match pc with
  | PIdle | PDone _ => 0
  | PStart _ _ => 7 | PReadFront _ _ => 6 | PCheckNext _ _ => 5
  | PNext _ _ => 4 | PNextPut _ _ => 3 | PNextTail _ _ => 2 | PNextPublish _ _ => 1
  | PAlloc _ => 3 | PLink _ _ => 2 | PLinkPublish _ _ => 1
  | PPut _ => 2 | PPublish _ => 1
  end.
Definition consumer_rank (pc : consuming) : nat :=
  match pc with
  | CIdle | CTaken _ | CSeen _ => 0
  | CStart _ => 9 | CReadTail _ => 8 | CReadTailBlock _ => 7 | CReread _ => 6 | CNext _ => 5
  | CNextTail _ _ => 4 | CAdvance _ => 3 | CLookNext _ => 1 | CTake _ => 2 | CPublish _ => 1
  end.

Lemma producer_nears pc q pc' q' : producer_step pc q = Some (pc', q') -> (producer_rank pc' < producer_rank pc)%nat.
Proof.
  destruct pc as [|c x|c x|x|x|c x|x p|x p|x p|x p|x|x n|x n|ok]; cbn [producer_step]; intros E; try done;
    repeat (first [apply bind_Some in E as (? & _ & E) | case_match; try done]); simplify_eq; cbn; lia.
Qed.

Lemma consumer_nears pc q pc' q' : consumer_step pc q = Some (pc', q') -> (consumer_rank pc' < consumer_rank pc)%nat.
Proof.
  destruct pc as [|look|look|look|x|look|look|look|look p|p|p|r|r]; cbn [consumer_step]; intros E; try done;
    repeat (first [apply bind_Some in E as (? & _ & E) | case_match; try done]); simplify_eq; cbn; lia.
Qed.

(** The turns that a thread gets for what it is doing. *)
Definition produces (c : choice) : bool := match c with Produces => true | _ => false end.
Definition enqueues (c : choice) : bool := match c with Enqueues _ _ => true | _ => false end.
Definition consumes (c : choice) : bool := match c with Consumes => true | _ => false end.
Definition dequeues (c : choice) : bool := match c with Dequeues | Peeks => true | _ => false end.
Definition count (kind : choice -> bool) (schedule : list choice) : nat := length (filter kind schedule).

Lemma count_cons kind c schedule : count kind (c :: schedule) = ((if kind c then 1 else 0) + count kind schedule)%nat.
Proof. unfold count. rewrite filter_cons. by destruct (kind c). Qed.

Lemma free_rank pc : producer_free pc = true <-> producer_rank pc = 0%nat.
Proof. by destruct pc. Qed.
Lemma free_rank' pc : consumer_free pc = true <-> consumer_rank pc = 0%nat.
Proof. by destruct pc. Qed.

Lemma turn_nears c s s' : turn c s = Some s' ->
  (enqueues c = false -> (producer_rank (producer s') <= producer_rank (producer s) - if produces c then 1 else 0)%nat) /\
  (dequeues c = false -> (consumer_rank (consumer s') <= consumer_rank (consumer s) - if consumes c then 1 else 0)%nat).
Proof.
  unfold turn. destruct (can c s) eqn:Hcan; cbn in Hcan.
  - destruct c; cbn; intros E; try (injection E as <-; cbn; split; [done || lia|done || lia]).
    + apply bind_Some in E as ([pc q] & E & Es). injection Es as <-. apply producer_nears in E. cbn. split; lia.
    + apply bind_Some in E as ([pc q] & E & Es). injection Es as <-. apply consumer_nears in E. cbn. split; lia.
  - intros [= <-]. destruct c; cbn in *; split; try done; try lia; intros _.
    + apply negb_false_iff, free_rank in Hcan. lia.
    + apply negb_false_iff, free_rank' in Hcan. lia.
Qed.

Lemma turns_near schedule s s' : turns schedule s = Some s' ->
  (count enqueues schedule = 0%nat -> (producer_rank (producer s') <= producer_rank (producer s) - count produces schedule)%nat) /\
  (count dequeues schedule = 0%nat -> (consumer_rank (consumer s') <= consumer_rank (consumer s) - count consumes schedule)%nat).
Proof.
  revert s. induction schedule as [|c schedule IH]; cbn [turns]; intros s E.
  - injection E as <-. cbn. split; lia.
  - apply bind_Some in E as (s1 & E1 & E). destruct (IH _ E) as [H1 H2]. destruct (turn_nears _ _ _ E1) as [H3 H4].
    rewrite !count_cons. destruct (enqueues c), (dequeues c), (produces c), (consumes c); split; intros H0; try lia;
      specialize (H1 ltac:(lia)) || specialize (H2 ltac:(lia)); specialize (H3 eq_refl) || specialize (H4 eq_refl); lia.
Qed.

(** The constructor leaves a queue for both to begin on. *)
Lemma begin_built m maxSize n q :
  1 <= m -> MAX_BLOCK_SIZE = 2 ^ m -> 0 < maxSize -> maxSize + 2 * MAX_BLOCK_SIZE <= 2 ^ 63 ->
  construct sizeT alignT sizeB alignB MAX_BLOCK_SIZE malloc maxSize (unconstructed n) = Some (true, q) ->
  m < 64 /\ safe maxSize (begin q).
Proof.
  intros Hm HMAX Hs Hle Ec. assert (m < 64) as Hm64.
  { destruct (Z.lt_ge_cases m 64) as [|H]; [done|]. apply (Z.pow_le_mono_r 2) in H; lia. }
  split; [done|]. apply begin_safe.
  destruct (construct_holds (T := T) sizeT alignT sizeB alignB MAX_BLOCK_SIZE malloc m ltac:(lia) HMAX maxSize n Hs Hle) as (ok & q1 & E1 & H1).
  rewrite Ec in E1. by injection E1 as <- <-.
Qed.

(** ** Properties *)

(** C28: of the two threads of ReaderWriterQueue, interleaved in any way, the
    consumer takes what the producer enqueues, in that order and each element
    once, and looks at the next one; a dequeue or peek that finds nothing began
    when all that was enqueued had been taken, and an enqueue that is refused
    began with no room; no element is overwritten, read where there is none or
    read through a missing block, the assertions hold, and between calls the
    destructor destroys the elements that are left and frees every block. *)
Theorem threads_keep_order m maxSize n q schedule :
  1 <= m -> MAX_BLOCK_SIZE = 2 ^ m -> 0 < maxSize -> maxSize + 2 * MAX_BLOCK_SIZE <= 2 ^ 63 ->
  construct sizeT alignT sizeB alignB MAX_BLOCK_SIZE malloc maxSize (unconstructed n) = Some (true, q) ->
  exists s xs, turns schedule (begin q) = Some s /\ written s = taken s ++ xs /\
    (producer s = PDone false -> maxSize <= Z.of_nat (length (written s)) - Z.of_nat (length (taken_before s))) /\
    match consumer s with
    | CTaken None | CSeen None => (length (written_before s) <= length (taken s))%nat
    | CTaken (Some x) => last (taken s) = Some x
    | CSeen (Some x) => head xs = Some x
    | _ => True
    end /\
    (producer_free (producer s) = true -> consumer_free (consumer s) = true ->
      exists raws q', destructor (queue s) = Some ((xs, raws), q') /\ raws ≡ₚ raws_of (blocks (queue s)) /\ blocks q' = ∅).
Proof.
  intros Hm HMAX Hs Hle Ec. destruct (begin_built m maxSize n q Hm HMAX Hs Hle Ec) as [Hm64 Hq].
  destruct (turns_safe m ltac:(lia) HMAX maxSize schedule _ Hq) as (s & Et & Hsafe).
  pose proof (safe_answers _ _ Hsafe) as [Hp Hc]. pose proof (safe_queue _ _ Hsafe) as (_ & _ & pre & el & _ & _ & _ & Hw & _).
  exists s, (contents (pre ++ [el])). split; [done|]. split; [done|]. split; [done|]. split.
  - destruct (consumer s) as [|look|look|look|x|look|look|look|look p|p|p|[x|]|[x|]]; try done.
    rewrite Hw, lookup_app_r, Nat.sub_diag in Hc by done. by rewrite head_lookup.
  - intros Hfp Hfc. destruct (safe_holds _ _ Hsafe Hfp Hfc) as (xs & Hw' & Hh). rewrite Hw in Hw'. apply app_inv_head in Hw' as <-.
    destruct (destructor_holds _ _ _ Hh) as (raws & q' & Ed & HP & He & _). by exists raws, q'.
Qed.

(** C29: neither thread of ReaderWriterQueue waits for the other: once the
    producer has had seven steps its call is over, and once the consumer has had
    nine, whatever the other does, or does not do, meanwhile. *)
Theorem calls_end m maxSize n q before schedule :
  1 <= m -> MAX_BLOCK_SIZE = 2 ^ m -> 0 < maxSize -> maxSize + 2 * MAX_BLOCK_SIZE <= 2 ^ 63 ->
  construct sizeT alignT sizeB alignB MAX_BLOCK_SIZE malloc maxSize (unconstructed n) = Some (true, q) ->
  exists s s', turns before (begin q) = Some s /\ turns schedule s = Some s' /\
    (count enqueues schedule = 0%nat -> (7 <= count produces schedule)%nat -> producer_free (producer s') = true) /\
    (count dequeues schedule = 0%nat -> (9 <= count consumes schedule)%nat -> consumer_free (consumer s') = true).
Proof.
  intros Hm HMAX Hs Hle Ec. destruct (begin_built m maxSize n q Hm HMAX Hs Hle Ec) as [Hm64 Hq].
  destruct (turns_safe m ltac:(lia) HMAX maxSize before _ Hq) as (s & Et & Hsafe).
  destruct (turns_safe m ltac:(lia) HMAX maxSize schedule _ Hsafe) as (s' & Et' & Hsafe').
  exists s, s'. split; [done|]. split; [done|]. destruct (turns_near _ _ _ Et') as [H1 H2]. split; intros H0 Hn.
  - apply free_rank. specialize (H1 H0). assert (producer_rank (producer s) <= 7)%nat by (destruct (producer s); cbn; lia). lia.
  - apply free_rank'. specialize (H2 H0). assert (consumer_rank (consumer s) <= 9)%nat by (destruct (consumer s); cbn; lia). lia.
Qed.

End Threads.

(** Eight bytes an element, blocks of two slots, room for one: the producer
    finds its block full and makes another one while the consumer takes the
    first element; once the second is taken it goes on to the first block again,
    and is then refused, while the consumer takes the third element; the consumer
    looks at what is in the first block. *)
Definition small_queue : t (T := Z) :=
  match construct 8 8 128 64 2 bump_malloc 1 (unconstructed 0) with Some (_, q) => q | None => unconstructed 0 end.
Definition alternate (n : nat) : list (choice (T := Z)) := concat (repeat [Produces; Consumes] n).
Definition example : list (choice (T := Z)) :=
  [Enqueues CanAlloc 1] ++ repeat Produces 3 ++ [Dequeues; Enqueues CanAlloc 2] ++ alternate 6 ++
  [Dequeues] ++ repeat Consumes 9 ++ [Enqueues CannotAlloc 3] ++ repeat Produces 7 ++
  [Enqueues CannotAlloc 4] ++ repeat Produces 7 ++ [Enqueues CannotAlloc 5; Dequeues] ++ alternate 9 ++
  [Peeks] ++ repeat Consumes 9.
Abbreviation small_turns := (@turns Z 8 8 128 64 2 bump_malloc).

Lemma threads_keep_order_witness :
  exists s xs, small_turns example (begin small_queue) = Some s /\ written s = [1; 2; 3; 4] /\ taken s = [1; 2; 3] /\
    producer s = PDone false /\ 1 <= Z.of_nat (length (written s)) - Z.of_nat (length (taken_before s)) /\
    consumer s = CSeen (Some 4) /\ head xs = Some 4 /\
    exists raws q', destructor (queue s) = Some ((xs, raws), q') /\ blocks q' = ∅.
Proof.
  destruct (threads_keep_order 8 8 128 64 2 bump_malloc 1 1 0 small_queue example
    ltac:(lia) eq_refl ltac:(lia) ltac:(lia) ltac:(vm_compute; reflexivity)) as (s & xs & Et & Hw & Hp & Hc & Hd).
  assert (option_map (fun s => (written s, taken s, producer s, consumer s)) (small_turns example (begin small_queue)) =
    Some ([1; 2; 3; 4], [1; 2; 3], PDone false, CSeen (Some 4))) as E by (vm_compute; reflexivity).
  rewrite Et in E. injection E as E1 E2 E3 E4. rewrite E3 in Hp, Hd. rewrite E4 in Hc, Hd.
  destruct (Hd eq_refl eq_refl) as (raws & q' & Ed & _ & Hb).
  exists s, xs. split; [exact Et|]. split; [exact E1|]. split; [exact E2|]. split; [exact E3|]. split; [exact (Hp eq_refl)|].
  split; [exact E4|]. split; [exact Hc|]. exists raws, q'. split; [exact Ed|exact Hb].
Defined.

(** The producer stops while it links a new block; the consumer goes on. *)
Definition halfway : list (choice (T := Z)) :=
  [Enqueues CanAlloc 1] ++ repeat Produces 3 ++ [Enqueues CanAlloc 2; Dequeues] ++ repeat Produces 5.

Lemma calls_end_witness :
  exists s s', small_turns halfway (begin small_queue) = Some s /\
    producer s = PLinkPublish 2 1 /\ small_turns (repeat Consumes 9) s = Some s' /\
    consumer_free (consumer s') = true /\ producer s' = PLinkPublish 2 1.
Proof.
  destruct (calls_end 8 8 128 64 2 bump_malloc 1 1 0 small_queue
    halfway (repeat Consumes 9)
    ltac:(lia) eq_refl ltac:(lia) ltac:(lia) ltac:(vm_compute; reflexivity)) as (s & s' & Et & Et' & _ & H).
  assert (option_map producer (small_turns halfway (begin small_queue)) =
    Some (PLinkPublish 2 1)) as E by (vm_compute; reflexivity).
  assert ((s ← small_turns halfway (begin small_queue);
    option_map producer (small_turns (repeat Consumes 9) s)) = Some (PLinkPublish 2 1)) as E' by (vm_compute; reflexivity).
  rewrite Et in E, E'. cbn [mbind option_bind option_map] in E, E'. rewrite Et' in E'. injection E as E. injection E' as E'.
  exists s, s'. split; [exact Et|]. split; [exact E|]. split; [exact Et'|]. split; [|exact E'].
  apply H; [reflexivity|]. vm_compute. lia.
Defined.

End ReaderWriterThreads.
