(* ===== verification/Semaphore.v ===== *)
(** * The semaphores of the blocking queue (utils/blockingconcurrentqueue.h,
    namespace [details::mpmc_sema])

    Module [Semaphore]: the wrapper of the POSIX semaphore. The functions of
    the C library are parameters; the deadline that [timed_wait] computes and
    how it reads the outcome are definitions.

    Module [LightweightSemaphore]: any number of threads that use one
    semaphore, each atomic access of shared memory and each call of the kernel
    semaphore being one step of one thread. A schedule says whose turn it is
    and how a step goes that may go two ways. *)
From S2P Require Import Prelude.
#[local] Open Scope Z_scope.

Module Semaphore.

(** ** The deadline of [timed_wait] *)

Record timespec := mkTimespec { tv_sec : Z; tv_nsec : Z }.

Definition usecs_in_1_sec : Z := 1000000.
Definition nsecs_in_1_sec : Z := 1000000000.

(** The argument of [sem_timedwait], from the present time. *)
Definition deadline (now : timespec) (usecs : Z) : timespec :=
  let ts := mkTimespec (tv_sec now + usecs / usecs_in_1_sec)
              (tv_nsec now + (usecs `mod` usecs_in_1_sec) * 1000) in
  if nsecs_in_1_sec <? tv_nsec ts then mkTimespec (tv_sec ts + 1) (tv_nsec ts - nsecs_in_1_sec) else ts.

(** What [sem_timedwait] accepts, and the time a [timespec] stands for. *)
Definition valid (ts : timespec) : Prop := 0 <= tv_nsec ts < nsecs_in_1_sec.
#[global] Instance valid_dec ts : Decision (valid ts).
Proof. unfold valid. apply _. Defined.
Definition nanoseconds (ts : timespec) : Z := tv_sec ts * nsecs_in_1_sec + tv_nsec ts.

(** ** The outcomes of the C functions *)

Inductive errno := EINTR | EAGAIN | ETIMEDOUT | EINVAL.
#[global] Instance errno_eq_dec : EqDecision errno.
Proof. solve_decision. Defined.

(** [None] is the return value 0, [Some e] the value -1 with [errno]. *)
Abbreviation outcome := (option errno).

(** The loop that calls again while a signal interrupts: the outcomes of the
    calls are a list, and what is left of it is returned. *)
Fixpoint retry (calls : list outcome) : option (outcome * list outcome) :=
  match calls with
  | [] => None
  | rc :: calls => if decide (rc = Some EINTR) then retry calls else Some (rc, calls)
  end.
Definition wait (calls : list outcome) : option (unit * list outcome) :=
  match retry calls with Some (_, rest) => Some (tt, rest) | None => None end.
Definition try_wait (calls : list outcome) : option (bool * list outcome) :=
  match retry calls with
  | Some (rc, rest) => Some (negb (bool_decide (rc = Some EAGAIN)), rest)
  | None => None
  end.
Definition timed_wait (calls : list outcome) : option (bool * list outcome) :=
  match retry calls with
  | Some (rc, rest) => Some (negb (bool_decide (rc = Some ETIMEDOUT)), rest)
  | None => None
  end.

(** A call of the C function acquires exactly if it returns 0. *)
Definition acquires (rc : outcome) : Prop := rc = None.

Lemma retry_spec calls rc rest :
  retry calls = Some (rc, rest) <->
  rc <> Some EINTR /\ exists n, calls = repeat (Some EINTR) n ++ rc :: rest.
Proof.
  split.
  - induction calls as [|c calls IH]; [done|]. cbn. case_decide as Hc.
    + intros (Hrc & n & ->)%IH. split; [done|]. exists (S n). by rewrite Hc.
    + intros [= -> ->]. split; [done|]. by exists O.
  - intros (Hrc & n & ->). induction n as [|n IH]; cbn; [by rewrite decide_False|done].
Qed.

(** [timed_wait] gives [sem_timedwait] the time [usecs] after now, in a
    form it accepts, except when the nanoseconds add up to exactly one
    second: then the argument is invalid, [sem_timedwait] fails with
    [EINVAL], and [timed_wait] reports that it has acquired the semaphore. *)
Theorem timed_wait_deadline now usecs :
  valid now -> 0 <= usecs ->
  nanoseconds (deadline now usecs) = nanoseconds now + usecs * 1000 /\
  (valid (deadline now usecs) <->
     tv_nsec now + (usecs `mod` usecs_in_1_sec) * 1000 <> nsecs_in_1_sec) /\
  (forall n rest, timed_wait (repeat (Some EINTR) n ++ Some EINVAL :: rest) = Some (true, rest)).
Proof.
  intros [Hn1 Hn2] Hu. unfold valid, nanoseconds, deadline, nsecs_in_1_sec, usecs_in_1_sec in *.
  pose proof (Z.mod_pos_bound usecs 1000000 ltac:(lia)) as Hm.
  pose proof (Z.div_mod usecs 1000000 ltac:(lia)) as Hd. cbn [tv_sec tv_nsec].
  split; [|split].
  - destruct (Z.ltb_spec 1000000000 (tv_nsec now + usecs `mod` 1000000 * 1000)); cbn; lia.
  - destruct (Z.ltb_spec 1000000000 (tv_nsec now + usecs `mod` 1000000 * 1000)); cbn; lia.
  - intros n rest. unfold timed_wait.
    rewrite (proj2 (retry_spec _ (Some EINVAL) rest)); [done|]. split; [done|by exists n].
Qed.

Lemma timed_wait_deadline_witness :
  let now := mkTimespec 100 999999000 in
  deadline now 1 = mkTimespec 100 1000000000 /\ ~ valid (deadline now 1) /\
  nanoseconds (deadline now 1) = nanoseconds now + 1000.
Proof.
  intros now. destruct (timed_wait_deadline now 1) as (E & V & _); [by split|done|].
  split; [done|]. split; [|exact E]. intros Hv. by apply V in Hv.
Defined.

End Semaphore.

Module LightweightSemaphore.

(** ** Threads *)

(** The operations, with [wait()] as a wait whose timeout is negative.
    [WaitMany max None] is the [waitMany] without a timeout, which calls the
    other one and asserts that it got something. [signal] is separate. *)
Inductive wait_op :=
| TryWait
| Wait (timeout_usecs : Z)
| TryWaitMany (max : Z)
| WaitMany (max : Z) (timeout_usecs : option Z).

(** Where a thread is. The values it carries are its local variables. *)
Inductive pc :=
| Idle
| TryLoad (o : wait_op)                       (* tryWait, tryWaitMany: before the load *)
| TryCas (o : wait_op) (oldCount : Z)         (* their loop *)
| Spin (o : wait_op) (spin : Z)               (* the partial spinning: the test of the loop *)
| SpinCas (o : wait_op) (spin oldCount : Z)
| FetchSub (o : wait_op)
| SemaWait (o : wait_op)                      (* in m_sema.wait or m_sema.timed_wait *)
| AdjustLoad (o : wait_op)                    (* after a timeout *)
| AdjustTry (o : wait_op) (oldCount : Z)
| AdjustCas (o : wait_op) (oldCount : Z)
| MoreLoad (o : wait_op)                      (* tryWaitMany(max - 1) at the end *)
| MoreCas (o : wait_op) (oldCount : Z)
| FetchAdd (count : Z)                        (* signal *)
| Posting (count : Z)                         (* the loop of m_sema.signal *)
| Returning (o : wait_op) (result : Z).       (* about to return the number acquired *)

(** A call by an idle thread, a step as usual, and the other ways the step may
    go: a weak compare-and-exchange fails, or the wait times out; and a timed
    wait that started at the time [now] has a deadline that is not valid. *)
Inductive choice :=
| CallWait (o : wait_op) | CallSignal (count : Z) | Go | Otherwise | Invalid (now : Semaphore.timespec).

(** The two counters, [m_count] and that of the kernel semaphore. *)
Record shared := mkShared { m_count : Z; m_sema : Z }.

Definition timeout_of (o : wait_op) : Z :=
  match o with Wait t => t | WaitMany _ t => default (-1) t | _ => -1 end.

(** The count that [tryWait] and the others try to leave. *)
Definition newCount (o : wait_op) (oldCount : Z) : Z :=
  match o with
  | TryWait | Wait _ => oldCount - 1
  | TryWaitMany max | WaitMany max _ => if max <? oldCount then oldCount - max else 0
  end.

(** The assertions on the arguments. *)
Definition args_ok (o : wait_op) : bool :=
  match o with TryWaitMany max | WaitMany max _ => 0 <=? max | _ => true end.

(** The assertion on the result of the [waitMany] without a timeout. *)
Definition asserted (o : wait_op) (result : Z) : bool :=
  match o with WaitMany _ None => 0 <? result | _ => true end.

(** After a try that has acquired nothing. *)
Definition not_acquired (o : wait_op) : pc :=
  match o with
  | TryWait | TryWaitMany _ => Returning o 0
  | Wait _ => Spin o 10000
  | WaitMany max _ => if 0 <? max then Spin o 10000 else Returning o 0
  end.

(** After [waitWithPartialSpinning] and [waitManyWithPartialSpinning] have got
    their one from the decrement. *)
Definition got_one (o : wait_op) : pc :=
  match o with WaitMany max _ => if 1 <? max then MoreLoad o else Returning o 1 | _ => Returning o 1 end.

(** [newCount] of the [tryWaitMany(max - 1)] at the end of a [waitMany]. *)
Definition moreCount (o : wait_op) (oldCount : Z) : Z :=
  match o with WaitMany max _ => newCount (TryWaitMany (max - 1)) oldCount | _ => oldCount end.

(** A compare-and-exchange: it succeeds if the count is as expected, and a
    weak one may fail all the same. *)
Definition cas (s : shared) (expected desired : Z) (fails : bool) : option shared :=
  if (m_count s =? expected) && negb fails then Some (mkShared desired (m_sema s)) else None.

(** The attempt to take tokens in the loops: where the thread goes when it
    succeeds, when the count has changed, and when there are no tokens. *)
Definition try_take (old new : Z) (fails : bool) (taken changed empty : pc) (s : shared) : pc * shared :=
  if 0 <? old then
    match cas s old new fails with
    | Some s' => (taken, s')
    | None => (changed, s)
    end
  else (empty, s).

Definition fails (ch : choice) : bool := match ch with Otherwise => true | _ => false end.

(** How many a [signal] wakes, with the conversion to [int]. *)
Definition toRelease (oldCount count : Z) : Z := if - oldCount <? count then - oldCount else count.

(** A deadline that [sem_timedwait] refuses. *)
Definition refused (now : Semaphore.timespec) (o : wait_op) : bool :=
  (0 <=? timeout_of o) && bool_decide (Semaphore.valid now) &&
  negb (bool_decide (Semaphore.valid (Semaphore.deadline now (timeout_of o)))).

(** One step of one thread. The count is a [ssize_t]. Where [sem_timedwait]
    fails because it refuses the deadline, the thread goes on as if it had
    acquired the semaphore. *)
Definition step (ch : choice) (p : pc) (s : shared) : option (pc * shared) :=
  match p, ch with
  | Idle, CallWait o => if args_ok o then Some (TryLoad o, s) else None
  | Idle, CallSignal count => if 0 <=? count then Some (FetchAdd count, s) else None
  | TryLoad o, Go => Some (TryCas o (m_count s), s)
  | TryCas o old, Go | TryCas o old, Otherwise =>
      Some (try_take old (newCount o old) (fails ch)
              (Returning o (old - newCount o old)) (TryCas o (m_count s)) (not_acquired o) s)
  | Spin o spin, Go =>
      if 0 <=? spin - 1 then Some (SpinCas o (spin - 1) (m_count s), s) else Some (FetchSub o, s)
  | SpinCas o spin old, Go =>
      Some (try_take old (newCount o old) false
              (Returning o (old - newCount o old)) (Spin o spin) (Spin o spin) s)
  | FetchSub o, Go =>
      let s' := mkShared (s64 (m_count s - 1)) (m_sema s) in
      Some (if 0 <? m_count s then got_one o else SemaWait o, s')
  | SemaWait o, Go =>
      if 0 <? m_sema s then Some (got_one o, mkShared (m_count s) (m_sema s - 1)) else None
  | SemaWait o, Otherwise =>
      if (0 <=? timeout_of o) && (m_sema s <=? 0) then Some (AdjustLoad o, s) else None
  | SemaWait o, Invalid now => if refused now o then Some (got_one o, s) else None
  | AdjustLoad o, Go => Some (AdjustTry o (m_count s), s)
  | AdjustTry o old, Go =>
      if 0 <=? old then
        if 0 <? m_sema s then Some (got_one o, mkShared (m_count s) (m_sema s - 1))
        else Some (AdjustLoad o, s)
      else Some (AdjustCas o old, s)
  | AdjustCas o old, Go =>
      match cas s old (old + 1) false with
      | Some s' => Some (Returning o 0, s')
      | None => Some (AdjustLoad o, s)
      end
  | MoreLoad o, Go => Some (MoreCas o (m_count s), s)
  | MoreCas o old, Go | MoreCas o old, Otherwise =>
      Some (try_take old (moreCount o old) (fails ch)
              (Returning o (1 + (old - moreCount o old))) (MoreCas o (m_count s)) (Returning o 1) s)
  | FetchAdd count, Go =>
      let n := toRelease (m_count s) count in
      Some (if 0 <? n then Posting (to_signed 32 n) else Idle, mkShared (s64 (m_count s + count)) (m_sema s))
  | Posting count, Go =>
      if 0 <? count then Some (Posting (count - 1), mkShared (m_count s) (m_sema s + 1)) else Some (Idle, s)
  | Returning o n, Go => if asserted o n then Some (Idle, s) else None
  | _, _ => None
  end.

(** [availableApprox], which may be called at any time. *)
Definition availableApprox (s : shared) : Z := if 0 <? m_count s then m_count s else 0.

(** ** The program *)

(** The threads, the tokens ever put in (the initial count included), the
    tokens that calls have returned with, and those that a thread went on with
    because a deadline was refused. *)
Record t := mk { threads : list pc; memory : shared; signalled : Z; acquired : Z; forged : Z }.

Definition construct (initialCount : Z) (n : nat) : t :=
  mk (repeat Idle n) (mkShared initialCount 0) initialCount 0 0.

Definition forges (ch : choice) (p : pc) : Z :=
  match p, ch with SemaWait _, Invalid _ => 1 | _, _ => 0 end.

Definition turn (i : nat) (ch : choice) (q : t) : option t :=
  match threads q !! i with
  | None => None
  | Some p =>
      match step ch p (memory q) with
      | None => None
      | Some (p', s) =>
          Some (mk (<[i := p']> (threads q)) s
            (match p with FetchAdd count => signalled q + count | _ => signalled q end)
            (match p with Returning _ n => acquired q + n | _ => acquired q end)
            (forged q + forges ch p))
      end
  end.

Fixpoint run (schedule : list (nat * choice)) (q : t) : option t :=
  match schedule with
  | [] => Some q
  | (i, ch) :: schedule =>
      match turn i ch q with Some q => run schedule q | None => None end
  end.

(** ** What each thread owes *)

(** The thread has decremented the count below zero and awaits the kernel. *)
Definition waits (p : pc) : Z :=
  match p with SemaWait _ | AdjustLoad _ | AdjustTry _ _ | AdjustCas _ _ => 1 | _ => 0 end.
(** The tokens it has taken and not returned with, and the posts it is to make. *)
Definition holds (p : pc) : Z :=
  match p with MoreLoad _ | MoreCas _ _ => 1 | Returning _ n => n | _ => 0 end.
Definition posts (p : pc) : Z := match p with Posting count => count | _ => 0 end.

Lemma waits_bounds p : 0 <= waits p <= 1.
Proof. destruct p; cbn; lia. Qed.

(** ** Each thread keeps its own state right *)

(** What a call may return. *)
Definition result_ok (o : wait_op) (n : Z) : Prop :=
  match o with
  | TryWait => 0 <= n <= 1
  | Wait t => 0 <= n <= 1 /\ (t < 0 -> n = 1)
  | TryWaitMany max => 0 <= n <= max
  | WaitMany max t => 0 <= n <= max /\ (0 < max -> default (-1) t < 0 -> 1 <= n)
  end.

(** The operations that get as far as waiting. *)
Definition may_wait (o : wait_op) : Prop :=
  match o with Wait _ => True | WaitMany max _ => 0 < max | _ => False end.

Definition pc_ok (p : pc) : Prop :=
  match p with
  | Idle => True
  | TryLoad o | TryCas o _ => args_ok o = true
  | Spin o _ | SpinCas o _ _ | FetchSub o | SemaWait o => may_wait o
  | AdjustLoad o | AdjustTry o _ => may_wait o /\ 0 <= timeout_of o
  | AdjustCas o old => may_wait o /\ 0 <= timeout_of o /\ old < 0
  | MoreLoad o | MoreCas o _ => match o with WaitMany max _ => 1 < max | _ => False end
  | FetchAdd count | Posting count => 0 <= count
  | Returning o n => result_ok o n
  end.

Lemma cas_some s e d f s' :
  cas s e d f = Some s' -> m_count s = e /\ s' = mkShared d (m_sema s).
Proof.
  unfold cas. destruct (Z.eqb_spec (m_count s) e); cbn; [|done]. destruct f; [done|]. by intros [= <-].
Qed.

Lemma newCount_ok o old :
  args_ok o = true -> 0 < old -> 0 <= newCount o old <= old /\ result_ok o (old - newCount o old).
Proof.
  destruct o as [|t|max|max t]; cbn; intros Ha Ho; [lia|lia| |]; apply Z.leb_le in Ha;
    destruct (Z.ltb_spec max old); lia.
Qed.

Lemma moreCount_ok o old :
  pc_ok (MoreLoad o) -> 0 < old ->
  0 <= moreCount o old <= old /\ result_ok o (1 + (old - moreCount o old)).
Proof.
  destruct o as [| | |max t]; cbn; try done. intros Hmax Ho. destruct (Z.ltb_spec (max - 1) old); lia.
Qed.

Lemma may_wait_args o : may_wait o -> args_ok o = true.
Proof. destruct o as [| | |max t]; cbn; try done. intros ?. apply Z.leb_le. lia. Qed.

Lemma not_acquired_ok o :
  args_ok o = true -> pc_ok (not_acquired o) /\ waits (not_acquired o) = 0 /\
  holds (not_acquired o) = 0 /\ posts (not_acquired o) = 0.
Proof.
  destruct o as [| | |max t]; cbn; intros Ha; [done|done|apply Z.leb_le in Ha; lia|].
  apply Z.leb_le in Ha. destruct (Z.ltb_spec 0 max); cbn; lia.
Qed.

Lemma got_one_ok o :
  may_wait o -> pc_ok (got_one o) /\ waits (got_one o) = 0 /\ holds (got_one o) = 1 /\ posts (got_one o) = 0.
Proof.
  destruct o as [| | |max t]; cbn; intros Ha; try done. destruct (Z.ltb_spec 1 max); cbn; lia.
Qed.

(** The two balances a step keeps: the kernel's tokens, those about to be
    posted, the threads that wait and the negative part of the count; and
    the tokens. *)
Definition balance1 (p : pc) (s : shared) : Z := m_sema s + posts p - waits p - Z.min (m_count s) 0.
Definition balance2 (p : pc) (s : shared) : Z := m_count s + waits p + holds p.
Definition puts_in (p : pc) : Z := match p with FetchAdd count => count | _ => 0 end.
Definition takes_out (p : pc) : Z := match p with Returning _ n => n | _ => 0 end.

(** What a step of a thread at [p] may lead to; [forged] is 1 if the thread
    stops waiting without a token of the kernel's. *)
Definition kept (forged : Z) (p : pc) (s : shared) (p' : pc) (s' : shared) : Prop :=
  pc_ok p' /\ 0 <= m_sema s' /\ balance1 p' s' = balance1 p s + forged /\
  balance2 p' s' + takes_out p = balance2 p s + puts_in p.

#[local] Ltac kept_simpl :=
  unfold kept, balance1, balance2, puts_in, takes_out in *; cbn [waits holds posts m_count m_sema pc_ok] in *.

Lemma step_signal_kept count s :
  0 <= count -> 0 <= m_sema s -> - 2 ^ 31 < m_count s -> m_count s + count < 2 ^ 63 ->
  let n := toRelease (m_count s) count in
  kept 0 (FetchAdd count) s (if 0 <? n then Posting (to_signed 32 n) else Idle)
    (mkShared (s64 (m_count s + count)) (m_sema s)).
Proof.
  intros Hc Hs Hlow Hup n. subst n. rewrite (to_signed_id 64 (m_count s + count)) by lia. unfold toRelease.
  destruct (Z.ltb_spec (- m_count s) count) as [Hlt|Hge].
  - destruct (Z.ltb_spec 0 (- m_count s)); [|kept_simpl; lia].
    assert (to_signed 32 (- m_count s) = - m_count s) as ->; [|kept_simpl; lia].
    unfold to_signed. rewrite wrap_small by (split; lia). by rewrite (proj2 (Z.ltb_lt _ _)) by lia.
  - destruct (Z.ltb_spec 0 count); [|kept_simpl; lia].
    assert (to_signed 32 count = count) as ->; [|kept_simpl; lia].
    unfold to_signed. rewrite wrap_small by (split; lia). by rewrite (proj2 (Z.ltb_lt _ _)) by lia.
Qed.

(** A step that only moves the thread on. *)
Lemma moved_kept p s p' :
  pc_ok p' -> 0 <= m_sema s -> waits p' = waits p -> holds p' = holds p -> posts p' = posts p ->
  puts_in p = 0 -> takes_out p = 0 -> kept 0 p s p' s.
Proof. unfold kept, balance1, balance2. intros ? ? -> -> -> -> ->. split; [done|lia]. Qed.

(** A try to take tokens. *)
Lemma try_take_kept p s o old new f changed empty :
  waits p = 0 -> posts p = 0 -> puts_in p = 0 -> takes_out p = 0 -> 0 <= m_sema s ->
  (0 < old -> 0 <= new <= old /\ result_ok o (holds p + (old - new))) ->
  kept 0 p s changed s -> kept 0 p s empty s ->
  let out := try_take old new f (Returning o (holds p + (old - new))) changed empty s in
  kept 0 p s (fst out) (snd out).
Proof.
  intros Hw Hp Hi Ht Hs Hnew Hch He. unfold try_take. destruct (Z.ltb_spec 0 old) as [Ho|]; [|done].
  destruct (Hnew Ho) as [Hn Hr]. destruct (cas s old new f) as [s'|] eqn:Ec; [|done].
  apply cas_some in Ec as [Hold ->]. cbn [fst snd]. unfold kept, balance1, balance2.
  cbn [waits holds posts m_count m_sema pc_ok]. rewrite Hw, Hp, Hi, Ht. split; [done|lia].
Qed.

Lemma step_got_kept p s o :
  may_wait o -> waits p = 1 -> holds p = 0 -> posts p = 0 -> puts_in p = 0 -> takes_out p = 0 ->
  0 < m_sema s -> kept 0 p s (got_one o) (mkShared (m_count s) (m_sema s - 1)).
Proof.
  intros Ho Hw Hh Hp Hi Ht Hs. destruct (got_one_ok o Ho) as (G1 & G2 & G3 & G4).
  unfold kept, balance1, balance2. cbn [m_count m_sema]. rewrite G2, G3, G4, Hw, Hh, Hp, Hi, Ht.
  split; [done|lia].
Qed.

#[local] Ltac moved := solve [apply moved_kept; cbn; done || lia].

(** The steps of the loops that take tokens. *)
Lemma step_take_kept ch o old s p' s' :
  0 <= m_sema s ->
  (forall p, (p = TryCas o old /\ pc_ok p) \/ (p = MoreCas o old /\ pc_ok p) ->
     step ch p s = Some (p', s') -> kept 0 p s p' s') /\
  (forall sp, may_wait o -> step ch (SpinCas o sp old) s = Some (p', s') ->
     kept 0 (SpinCas o sp old) s p' s').
Proof.
  intros Hs. split; [intros p [[-> Hp]|[-> Hp]] E|intros sp Hp E].
  - destruct (not_acquired_ok o Hp) as (N1 & N2 & N3 & N4).
    pose proof (try_take_kept (TryCas o old) s o old (newCount o old) (fails ch)
      (TryCas o (m_count s)) (not_acquired o) eq_refl eq_refl eq_refl eq_refl Hs
      (newCount_ok o old Hp) ltac:(moved) ltac:(by apply moved_kept)) as K.
    cbn [holds] in K. rewrite Z.add_0_l in K. cbn in E. destruct ch; try done; injection E as E; cbn [fails] in K; by rewrite E in K.
  - pose proof (try_take_kept (MoreCas o old) s o old (moreCount o old) (fails ch)
      (MoreCas o (m_count s)) (Returning o 1) eq_refl eq_refl eq_refl eq_refl Hs
      (moreCount_ok o old Hp) ltac:(moved)) as K.
    cbn in E. destruct ch; try done; injection E as E; cbn [fails holds] in K; rewrite E in K; apply K;
      (apply moved_kept; try done; destruct o; cbn in *; done || lia).
  - pose proof (try_take_kept (SpinCas o sp old) s o old (newCount o old) false
      (Spin o sp) (Spin o sp) eq_refl eq_refl eq_refl eq_refl Hs
      (newCount_ok o old (may_wait_args o Hp)) ltac:(moved) ltac:(moved)) as K.
    cbn [holds] in K. rewrite Z.add_0_l in K. cbn in E. destruct ch; try done. injection E as E. by rewrite E in K.
Qed.

(** The steps that wait for the kernel semaphore, and those after a timeout. *)
Lemma step_wait_kept ch o old s p p' s' :
  p = FetchSub o \/ p = SemaWait o \/ p = AdjustLoad o \/ p = AdjustTry o old \/ p = AdjustCas o old ->
  step ch p s = Some (p', s') -> pc_ok p -> 0 <= m_sema s -> - 2 ^ 31 < m_count s < 2 ^ 63 ->
  kept (forges ch p) p s p' s'.
Proof.
  intros Hwhich E Hp Hs Hlow. destruct Hwhich as [-> |[-> |[-> |[-> | ->]]]]; cbn in E.
  - destruct ch; try done. cbn [forges]. injection E as <- <-. rewrite to_signed_id by lia. destruct (Z.ltb_spec 0 (m_count s)).
    + destruct (got_one_ok o Hp) as (G1 & G2 & G3 & G4). kept_simpl. rewrite G2, G3, G4. split; [done|lia].
    + kept_simpl. split; [done|lia].
  - destruct ch; try done; cbn [forges].
    + destruct (Z.ltb_spec 0 (m_sema s)); [|done]. injection E as <- <-. by apply step_got_kept.
    + destruct (Z.leb_spec 0 (timeout_of o)), (Z.leb_spec (m_sema s) 0); try done. injection E as <- <-. moved.
    + destruct (refused _ _); [|done]. injection E as <- <-. destruct (got_one_ok o Hp) as (G1 & G2 & G3 & G4).
      kept_simpl. rewrite G2, G3, G4. split; [done|lia].
  - destruct ch; try done. injection E as <- <-. moved.
  - destruct ch; try done. cbn [forges]. destruct (Z.leb_spec 0 old); [|injection E as <- <-].
    + destruct (Z.ltb_spec 0 (m_sema s)); injection E as <- <-; [by apply step_got_kept; destruct Hp|moved].
    + destruct Hp. moved.
  - destruct Hp as (Hp & Ht & Ho). destruct ch; try done. cbn [forges].
    destruct (cas _ _ _ _) as [s1|] eqn:Ec; injection E as <- <-; [|moved].
    apply cas_some in Ec as [Hc ->]. kept_simpl.
    split; [destruct o as [| | |max [t|]]; cbn in *; try done; lia|lia].
Qed.

Lemma step_kept ch p s p' s' :
  step ch p s = Some (p', s') -> pc_ok p -> 0 <= m_sema s ->
  - 2 ^ 31 < m_count s -> m_count s + puts_in p < 2 ^ 63 -> kept (forges ch p) p s p' s'.
Proof.
  intros E Hp Hs Hlow Hup. destruct p as [|o|o old|o sp|o sp old|o|o|o|o old|o old|o|o old|n|n|o n].
  3, 12: apply (proj1 (step_take_kept ch o old s p' s' Hs)); auto.
  4: by apply (proj2 (step_take_kept ch o old s p' s' Hs)).
  4-8: cbn [puts_in] in Hup; assert (- 2 ^ 31 < m_count s < 2 ^ 63) by lia;
    first [by apply (step_wait_kept ch o old s); auto 6|by apply (step_wait_kept ch o 0 s); auto 6].
  all: cbn [forges]; cbn in E; destruct ch; try done.
  - destruct (args_ok _) eqn:Ha; [|done]. injection E as <- <-. moved.
  - destruct (Z.leb_spec 0 count); [|done]. injection E as <- <-. kept_simpl. lia.
  - injection E as <- <-. moved.
  - destruct (Z.leb_spec 0 (sp - 1)); injection E as <- <-; moved.
  - injection E as <- <-. moved.
  - injection E as <- <-. by apply step_signal_kept.
  - destruct (Z.ltb_spec 0 n); injection E as <- <-; kept_simpl; lia.
  - destruct (asserted _ _); [|done]. injection E as <- <-. kept_simpl. lia.
Qed.

(** No call puts in less than nothing. *)
Lemma step_puts_in ch p s p' s' : step ch p s = Some (p', s') -> 0 <= puts_in p'.
Proof.
  assert (forall o, puts_in (not_acquired o) = 0 /\ puts_in (got_one o) = 0) as Hn.
  { intros o. split; destruct o; cbn; repeat case_match; done. }
  intros E. destruct p, ch; cbn in E; try done; unfold try_take in E;
    repeat case_match; simplify_eq; cbn; rewrite ?(proj1 (Hn _)), ?(proj2 (Hn _)); try done; by apply Z.leb_le.
Qed.

(** ** The balance of the whole program *)

Record inv (q : t) : Prop := {
  inv_pcs : Forall pc_ok (threads q);
  inv_sema : 0 <= m_sema (memory q);
  inv_kernel : m_sema (memory q) + zsum posts (threads q) =
    zsum waits (threads q) + Z.min (m_count (memory q)) 0 + forged q;
  inv_ghosts : 0 <= acquired q /\ 0 <= forged q;
  inv_tokens : m_count (memory q) + zsum waits (threads q) + zsum holds (threads q) + acquired q =
    signalled q }.

Lemma posts_nonneg p : pc_ok p -> 0 <= posts p.
Proof. destruct p; cbn; lia. Qed.

Lemma holds_nonneg p : pc_ok p -> 0 <= holds p.
Proof. destruct p; cbn; try lia. destruct o; cbn; lia. Qed.

Section program.
Context (q : t) (I : inv q).

Lemma total_posts : 0 <= zsum posts (threads q).
Proof. apply zsum_nonneg. eapply Forall_impl; [apply (inv_pcs _ I)|apply posts_nonneg]. Qed.

Lemma total_holds : 0 <= zsum holds (threads q).
Proof. apply zsum_nonneg. eapply Forall_impl; [apply (inv_pcs _ I)|apply holds_nonneg]. Qed.

Lemma count_bounds :
  - Z.of_nat (length (threads q)) - forged q <= m_count (memory q) <= signalled q - acquired q.
Proof.
  pose proof total_posts. pose proof total_holds. pose proof (inv_kernel _ I). pose proof (inv_tokens _ I).
  pose proof (inv_sema _ I). pose proof (zsum_bounds waits (threads q) waits_bounds). lia.
Qed.
End program.

(** The number of tokens put in stays within a [ssize_t], and those forged
    with the threads within an [int]. *)
Definition in_bounds (q : t) : Prop :=
  signalled q < 2 ^ 63 /\ Z.of_nat (length (threads q)) + forged q < 2 ^ 31.

(** The ghost counters only grow. *)
Lemma turn_signals i ch q q' :
  Forall (fun p => 0 <= puts_in p) (threads q) -> turn i ch q = Some q' ->
  Forall (fun p => 0 <= puts_in p) (threads q') /\ length (threads q') = length (threads q) /\
  signalled q <= signalled q' /\ forged q <= forged q'.
Proof.
  intros Hf E. unfold turn in E. destruct (threads q !! i) as [p|] eqn:Hp; [|done].
  destruct (step ch p (memory q)) as [[p' s']|] eqn:Es; [|done]. injection E as <-.
  pose proof (Forall_lookup_1 _ _ _ _ Hf Hp) as H0. cbn [threads signalled forged].
  split; [apply Forall_insert; [done|by eapply step_puts_in]|]. split; [apply length_insert|].
  split; [destruct p; cbn in *; lia|destruct p, ch; cbn; lia].
Qed.

Lemma run_signals schedule q q' :
  Forall (fun p => 0 <= puts_in p) (threads q) -> run schedule q = Some q' ->
  in_bounds q' -> in_bounds q.
Proof.
  revert q. induction schedule as [|[i ch] schedule IH]; intros q Hf E Hb; [by injection E as <-|].
  cbn in E. destruct (turn i ch q) as [q1|] eqn:Et; [|done].
  destruct (turn_signals i ch q q1 Hf Et) as (Hf1 & El & Hs & Hg). destruct (IH q1 Hf1 E Hb).
  unfold in_bounds. rewrite <- El. lia.
Qed.

Lemma pc_puts_in q : inv q -> Forall (fun p => 0 <= puts_in p) (threads q).
Proof. intros I. eapply Forall_impl; [apply (inv_pcs _ I)|]. intros p. destruct p; cbn; lia. Qed.

Lemma turn_inv i ch q q' :
  inv q -> turn i ch q = Some q' -> in_bounds q' ->
  inv q' /\ length (threads q') = length (threads q).
Proof.
  intros I E Hb. destruct (turn_signals i ch q q' (pc_puts_in q I) E) as (_ & El & Hsig & Hfor).
  split; [|done]. unfold in_bounds in Hb. rewrite El in Hb.
  pose proof (count_bounds _ I) as Hlow. unfold turn in E.
  destruct (threads q !! i) as [p|] eqn:Hp; [|done].
  destruct (step ch p (memory q)) as [[p' s']|] eqn:Es; [|done]. injection E as <-.
  pose proof (inv_pcs _ I) as Hpcs. assert (pc_ok p) as Hpok by (eapply Forall_lookup_1; done).
  pose proof (inv_ghosts _ I) as Hacq. cbn [signalled forged] in *.
  assert (m_count (memory q) + puts_in p < 2 ^ 63) as Hup by (destruct p; cbn in *; lia).
  destruct (step_kept _ _ _ _ _ Es Hpok (inv_sema _ I) ltac:(lia) Hup) as (K1 & K2 & K3 & K4).
  destruct I as [_ _ J1 _ J2]. unfold balance1, balance2, puts_in, takes_out in K3, K4.
  split; cbn [threads memory signalled acquired forged].
  - by apply Forall_insert.
  - done.
  - rewrite !(zsum_insert _ _ _ p) by done. lia.
  - pose proof (holds_nonneg p Hpok). split; [destruct p|]; cbn in *; lia.
  - rewrite !(zsum_insert _ _ _ p) by done. destruct p; cbn in *; lia.
Qed.

Lemma run_inv schedule q q' :
  inv q -> run schedule q = Some q' -> in_bounds q' ->
  inv q' /\ length (threads q') = length (threads q).
Proof.
  revert q. induction schedule as [|[i ch] schedule IH]; intros q I E Hb; [by injection E as <-|].
  cbn in E. destruct (turn i ch q) as [q1|] eqn:Et; [|done].
  destruct (turn_signals i ch q q1 (pc_puts_in q I) Et) as (Hf1 & _).
  destruct (turn_inv i ch q q1 I Et (run_signals _ _ _ Hf1 E Hb)) as [I1 E1]. rewrite <- E1. by apply IH.
Qed.

Lemma construct_inv c n : 0 <= c -> inv (construct c n).
Proof.
  intros Hc. split; cbn [construct threads memory signalled acquired forged m_sema m_count];
    rewrite ?zsum_repeat by done; [|lia..].
  apply Forall_forall. intros p Hp%list_elem_of_In. by apply repeat_spec in Hp as ->.
Qed.

Lemma run_length schedule q q' : run schedule q = Some q' -> length (threads q') = length (threads q).
Proof.
  revert q. induction schedule as [|[i ch] schedule IH]; intros q E; [by injection E as <-|].
  cbn in E. destruct (turn i ch q) as [q1|] eqn:Et; [|done]. rewrite (IH q1 E). unfold turn in Et.
  destruct (threads q !! i) as [p|]; [|done]. destruct (step ch p (memory q)) as [[p' s]|]; [|done].
  injection Et as <-. apply length_insert.
Qed.

Lemma run_construct_inv c n schedule q :
  0 <= c -> run schedule (construct c n) = Some q -> signalled q < 2 ^ 63 -> Z.of_nat n + forged q < 2 ^ 31 ->
  inv q /\ length (threads q) = n.
Proof.
  intros Hc E Hs Hf. assert (length (threads (construct c n)) = n) as El by apply repeat_length.
  pose proof (run_length _ _ _ E) as El'. rewrite El in El'.
  destruct (run_inv schedule (construct c n) q) as [I _]; [by apply construct_inv|done|by split; rewrite ?El'|done].
Qed.

(** C26: however the threads interleave, while fewer than 2^63 tokens are put
    in: what the calls return and hold is no more than was put in, but for one
    token each time that a timed wait met a deadline of exactly one second in
    nanoseconds, which [sem_timedwait] refuses and which the code takes for a
    success; what a call returns is within what was asked for: a wait without
    a timeout has its token, [waitMany] at least one. The counts of the class
    and of the kernel stay within their bounds, so that they do not overflow. *)
Theorem tokens_never_exceeded c n schedule q :
  0 <= c -> run schedule (construct c n) = Some q -> signalled q < 2 ^ 63 -> Z.of_nat n + forged q < 2 ^ 31 ->
  acquired q + zsum holds (threads q) <= signalled q + forged q /\ 0 <= zsum holds (threads q) /\
  (forall i o k, threads q !! i = Some (Returning o k) -> result_ok o k) /\
  0 <= availableApprox (memory q) <= Z.max 0 (signalled q - acquired q) /\
  - Z.of_nat n - forged q <= m_count (memory q) <= signalled q - acquired q /\
  0 <= m_sema (memory q) <= Z.of_nat n + forged q.
Proof.
  intros Hc E Hsig Hfor. destruct (run_construct_inv c n schedule q Hc E Hsig Hfor) as [I El].
  pose proof (total_posts _ I) as HP. pose proof (total_holds _ I) as HH. pose proof (count_bounds _ I) as Hlow.
  pose proof (zsum_bounds waits (threads q) waits_bounds) as HW. rewrite El in *.
  pose proof (inv_pcs _ I) as Hpcs. destruct I as [_ Hs J1 _ J2]. unfold availableApprox.
  repeat split; try lia.
  - intros i o k Hi. exact (proj1 (Forall_lookup pc_ok _) Hpcs i _ Hi).
  - destruct (Z.ltb_spec 0 (m_count (memory q))); lia.
  - destruct (Z.ltb_spec 0 (m_count (memory q))); lia.
Qed.

(** C27: no wake-up is lost: when a thread is blocked in the kernel semaphore
    and no thread is in the middle of a [signal], every token that was put in
    has been taken, and one more for each deadline that was refused. A thread
    in a call that is not so blocked can step, unless it called [waitMany(0)],
    whose assertion fails. *)
Theorem no_lost_wakeup c n schedule q i o :
  0 <= c -> run schedule (construct c n) = Some q -> signalled q < 2 ^ 63 -> Z.of_nat n + forged q < 2 ^ 31 ->
  threads q !! i = Some (SemaWait o) -> step Go (SemaWait o) (memory q) = None ->
  Forall (fun p => posts p = 0) (threads q) ->
  signalled q + forged q = acquired q + zsum holds (threads q) /\
  (forall j p, threads q !! j = Some p -> p <> Idle -> p <> Returning (WaitMany 0 None) 0 ->
     is_Some (turn j Go q) \/ exists o', p = SemaWait o').
Proof.
  intros Hc E Hsig Hfor Hi Hblocked Hposts.
  destruct (run_construct_inv c n schedule q Hc E Hsig Hfor) as [[Hpcs Hs J1 [_ Hf0] J2] El].
  cbn in Hblocked. destruct (Z.ltb_spec 0 (m_sema (memory q))); [done|].
  assert (zsum posts (threads q) = 0) as HP0.
  { by apply zsum_zero. }
  assert (1 <= zsum waits (threads q)) as HW.
  { pose proof (zsum_insert waits (threads q) i (SemaWait o) Idle Hi) as T. cbn in T.
    pose proof (zsum_bounds waits (<[i := Idle]> (threads q)) waits_bounds). lia. }
  split; [lia|]. intros j p Hj Hidle Hassert. pose proof (proj1 (Forall_lookup pc_ok _) Hpcs j p Hj) as Hp.
  assert ((exists o', p = SemaWait o') \/ is_Some (step Go p (memory q))) as [?|[[p' s'] Hstep]]; [|by right|].
  - destruct p as [| | | | | | | | | | | | | |o' k]; cbn; eauto; try done; repeat case_match; eauto.
    destruct o' as [| | |max [t|]]; cbn in *; try done. destruct (Z.ltb_spec 0 k); [done|].
    destruct Hassert. repeat f_equal; lia.
  - left. unfold turn. rewrite Hj, Hstep. by eexists.
Qed.


(** Two threads: one waits, and blocks after its spinning; the other signals
    and wakes it. *)
Definition waiter_blocks : list (nat * choice) :=
  [(0%nat, CallWait (Wait (-1)))] ++ repeat (0%nat, Go) (Z.to_nat 20004).
Definition waiter_woken : list (nat * choice) :=
  waiter_blocks ++ [(1%nat, CallSignal 1)] ++ repeat (1%nat, Go) 3 ++ repeat (0%nat, Go) 2.

Lemma tokens_never_exceeded_witness :
  exists q, run waiter_woken (construct 0 2) = Some q /\ acquired q = 1 /\ acquired q <= signalled q.
Proof.
  destruct (run waiter_woken (construct 0 2)) as [q|] eqn:E; [|vm_compute in E; discriminate E].
  assert (signalled q = 1 /\ acquired q = 1 /\ forged q = 0) as (Es & Ea & Ef) by (vm_compute in E; by injection E as <-).
  destruct (tokens_never_exceeded 0 2 waiter_woken q ltac:(lia) E) as (H1 & H2 & _); [rewrite Es; lia|rewrite Ef; lia|].
  exists q. split; [reflexivity|]. split; [exact Ea|lia].
Defined.

(** One thread and no tokens: a timed wait of a microsecond that starts a
    microsecond before a full second returns with a token. *)
Definition deadline_refused : list (nat * choice) :=
  [(0%nat, CallWait (Wait 1))] ++ repeat (0%nat, Go) (Z.to_nat 20004) ++
  [(0%nat, Invalid (Semaphore.mkTimespec 100 999999000)); (0%nat, Go)].

Lemma refused_deadline_forges :
  run deadline_refused (construct 0 1) = Some (mk [Idle] (mkShared (-1) 0) 0 1 1).
Proof. by vm_compute. Qed.

Lemma no_lost_wakeup_witness :
  exists q, run waiter_blocks (construct 0 2) = Some q /\ signalled q + forged q = acquired q + zsum holds (threads q).
Proof.
  exists (mk [SemaWait (Wait (-1)); Idle] (mkShared (-1) 0) 0 0 0).
  assert (run waiter_blocks (construct 0 2) =
          Some (mk [SemaWait (Wait (-1)); Idle] (mkShared (-1) 0) 0 0 0)) as E by (vm_compute; reflexivity).
  split; [exact E|].
  apply (no_lost_wakeup 0 2 waiter_blocks _ 0 (Wait (-1)) ltac:(lia) E); [done|done|done|done|by repeat constructor].
Defined.

End LightweightSemaphore.
