(* ===== verification/BlockingQueue.v ===== *)
(** * The blocking queue of many producers and consumers
    (utils/blockingconcurrentqueue.h, class [BlockingConcurrentQueue])

    Threads that use one queue and its semaphore. The steps on the semaphore
    are those of [LightweightSemaphore]; an operation of the inner
    [ConcurrentQueue] is one step, through the class [ConcurrentQueue], whose
    laws are what that class promises. A schedule says which thread steps and
    what the environment decides. *)
From S2P Require Import Prelude Semaphore.
Import LightweightSemaphore.
#[local] Open Scope Z_scope.

(** ** The inner queue *)

(** [W] is what an operation depends on beyond the queue: memory, which thread
    runs it, and which of the producers' queues is looked at. Tokens are
    optional. An operation gives [None] where the class promises nothing: for a
    token that does not exist, for instance. The elements are those of a queue in
    some order; [consumer] holds of the consumer tokens made with the
    queue, [capacity_ok] of the capacities that there is memory for. *)
Class ConcurrentQueue (Q T Tok W : Type) := {
  contains : Q -> list T -> Prop;
  consumer : Tok -> Prop;
  capacity_ok : Z -> Prop;
  cq_construct : Z -> option Q;
  cq_enqueue : W -> bool -> option Tok -> list T -> Q -> option (bool * Q);
  cq_try_dequeue : W -> option Tok -> Z -> Q -> option (list T * Q) }.

Class ConcurrentQueueLaws (Q T Tok W : Type) `{ConcurrentQueue Q T Tok W} := {
  construct_empty n q : capacity_ok n -> cq_construct n = Some q -> contains q [];
  (** An enqueue that returns false may leave traces, but no element. *)
  enqueue_contains w alloc tok ys q ok q' xs :
    contains q xs -> cq_enqueue w alloc tok ys q = Some (ok, q') ->
    exists xs', contains q' xs' /\ xs' ≡ₚ xs ++ (if ok : bool then ys else []);
  dequeue_contains w tok max q ys q' xs :
    0 < max < 2 ^ 64 -> contains q xs -> cq_try_dequeue w tok max q = Some (ys, q') ->
    exists xs', contains q' xs' /\ xs ≡ₚ ys ++ xs' /\ Z.of_nat (length ys) <= max;
  (** A dequeue may come away with nothing, but not whatever happens. *)
  dequeue_progress tok max q xs :
    0 < max < 2 ^ 64 -> from_option consumer True tok -> contains q xs -> xs <> [] ->
    exists w ys q', cq_try_dequeue w tok max q = Some (ys, q') /\ ys <> [] }.

Module BlockingConcurrentQueue.
Section Queue.
Context {Q T Tok W : Type} `{ConcurrentQueue Q T Tok W}.

(** ** The calls *)

(** What a thread asks for: to enqueue, with or without allocating, or to
    dequeue, with what it asks of the semaphore. [signal_count] is the
    argument of [sema->signal]. *)
Inductive call :=
| CallEnqueue (alloc : bool) (tok : option Tok) (items : list T) (signal_count : Z)
| CallDequeue (tok : option Tok) (o : wait_op).

Definition enqueue (tok : option Tok) (item : T) : call := CallEnqueue true tok [item] 1.
Definition try_enqueue (tok : option Tok) (item : T) : call := CallEnqueue false tok [item] 1.
(** The count is a [size_t], and becomes a [ssize_t]. *)
Definition enqueue_bulk (tok : option Tok) (items : list T) : call :=
  CallEnqueue true tok items (s64 (Z.of_nat (length items))).
Definition try_enqueue_bulk (tok : option Tok) (items : list T) : call :=
  CallEnqueue false tok items (s64 (Z.of_nat (length items))).

Definition try_dequeue (tok : option Tok) : call := CallDequeue tok TryWait.
Definition try_dequeue_bulk (tok : option Tok) (max : Z) : call := CallDequeue tok (TryWaitMany (s64 max)).
Definition wait_dequeue : call := CallDequeue None (Wait (-1)).
Definition wait_dequeue_tok (tok : Tok) : call := CallDequeue (Some tok) (Wait (-1)).
Definition wait_dequeue_timed (timeout_usecs : Z) : call := CallDequeue None (Wait timeout_usecs).
Definition wait_dequeue_timed_tok (tok : Tok) (timeout_usecs : Z) : call :=
  CallDequeue (Some tok) (Wait timeout_usecs).
Definition wait_dequeue_bulk (max : Z) : call := CallDequeue None (WaitMany (s64 max) None).
Definition wait_dequeue_bulk_tok (tok : Tok) (max : Z) : call :=
  CallDequeue (Some tok) (WaitMany (s64 max) None).
Definition wait_dequeue_bulk_timed (max timeout_usecs : Z) : call :=
  CallDequeue None (WaitMany (s64 max) (Some timeout_usecs)).
Definition wait_dequeue_bulk_timed_tok (tok : Tok) (max timeout_usecs : Z) : call :=
  CallDequeue (Some tok) (WaitMany (s64 max) (Some timeout_usecs)).

(** ** Threads *)

Inductive thread :=
| Outside
| Enqueuing (alloc : bool) (tok : option Tok) (items : list T) (signal_count : Z)
| Signalling (p : pc)                                 (* in [sema->signal] *)
| Acquiring (tok : option Tok) (o : wait_op) (p : pc) (* in [sema->tryWait], [wait], ... *)
| Taking (tok : option Tok) (o : wait_op) (need : Z) (got : list T)
                                                      (* in the loop of inner dequeues *)
| Enqueued (ok : bool)                                (* about to return *)
| Dequeued (o : wait_op) (got : list T).

Inductive choice := Start (c : call) | Sema (ch : LightweightSemaphore.choice) | Inner (w : W) | Return.

Record t := mk {
  inner : Q;
  sema : shared;
  threads : list thread;
  put : list T;          (* the elements ever enqueued *)
  taken : list T;        (* the elements ever dequeued *)
  forged : Z }.          (* the timed waits that took a refused deadline for a token *)

(** [create] and the constructor: no queue if the semaphore cannot be
    allocated. The second argument is the number of threads. *)
Definition construct (malloc_ok : bool) (capacity : Z) (n : nat) : option t :=
  i ← cq_construct capacity;
  if malloc_ok then Some (mk i (mkShared 0 0) (repeat Outside n) [] [] 0) else None.

Definition begin (c : call) : option thread :=
  match c with
  | CallEnqueue alloc tok items n => Some (Enqueuing alloc tok items n)
  | CallDequeue tok o => if args_ok o then Some (Acquiring tok o (TryLoad o)) else None
  end.

(** After a step within the semaphore; what a wait returns with may fail its
    assertion. *)
Definition signalling (p : pc) : thread := match p with Idle => Enqueued true | _ => Signalling p end.
Definition acquiring (tok : option Tok) (o : wait_op) (p : pc) : option thread :=
  match p with
  | Returning _ n => if asserted o n then Some (Taking tok o n []) else None
  | _ => Some (Acquiring tok o p)
  end.

Definition step (c : choice) (th : thread) (q : t) : option (thread * t) :=
  match th, c with
  | Outside, Start c => match begin c with Some th => Some (th, q) | None => None end
  | Enqueuing alloc tok items n, Inner w =>
      match cq_enqueue w alloc tok items (inner q) with
      | Some (true, i) =>
          if 0 <=? n then Some (Signalling (FetchAdd n), mk i (sema q) (threads q) (put q ++ items) (taken q) (forged q))
          else None
      | Some (false, i) => Some (Enqueued false, mk i (sema q) (threads q) (put q) (taken q) (forged q))
      | None => None
      end
  | Signalling p, Sema ch =>
      match LightweightSemaphore.step ch p (sema q) with
      | Some (p', s) => Some (signalling p', mk (inner q) s (threads q) (put q) (taken q) (forged q))
      | None => None
      end
  | Acquiring tok o p, Sema ch =>
      match LightweightSemaphore.step ch p (sema q) with
      | Some (p', s) =>
          match acquiring tok o p' with
          | Some th => Some (th, mk (inner q) s (threads q) (put q) (taken q) (forged q + forges ch p))
          | None => None
          end
      | None => None
      end
  | Taking tok o need got, Inner w =>
      if need =? 0 then None
      else
        match cq_try_dequeue w tok need (inner q) with
        | Some (ys, i) =>
            Some (Taking tok o (need - Z.of_nat (length ys)) (got ++ ys),
                  mk i (sema q) (threads q) (put q) (taken q ++ ys) (forged q))
        | None => None
        end
  | Taking tok o need got, Return => if need =? 0 then Some (Dequeued o got, q) else None
  | Enqueued _, Return | Dequeued _ _, Return => Some (Outside, q)
  | _, _ => None
  end.

Definition turn (i : nat) (c : choice) (q : t) : option t :=
  match threads q !! i with
  | Some th =>
      match step c th q with
      | Some (th', q') => Some (mk (inner q') (sema q') (<[i := th']> (threads q')) (put q') (taken q') (forged q'))
      | None => None
      end
  | None => None
  end.

Fixpoint run (schedule : list (nat * choice)) (q : t) : option t :=
  match schedule with
  | [] => Some q
  | (i, c) :: schedule => match turn i c q with Some q => run schedule q | None => None end
  end.

Definition size_approx (q : t) : Z := u64 (availableApprox (sema q)).

(** ** The balance of elements and tokens *)

(** The thread's place in the semaphore. *)
Definition sema_pc (th : thread) : pc :=
  match th with Signalling p | Acquiring _ _ p => p | _ => Idle end.
Definition remaining (th : thread) : Z := match th with Taking _ _ need _ => need | _ => 0 end.

(** The tokens and the elements that the thread answers for. *)
Definition claims (th : thread) : Z :=
  waits (sema_pc th) + holds (sema_pc th) + puts_in (sema_pc th) + remaining th.

Definition op_of (p : pc) : option wait_op :=
  match p with
  | TryLoad o | TryCas o _ | Spin o _ | SpinCas o _ _ | FetchSub o | SemaWait o | AdjustLoad o
  | AdjustTry o _ | AdjustCas o _ | MoreLoad o | MoreCas o _ | Returning o _ => Some o
  | _ => None
  end.

(** What a dequeue may ask for: a count that is not negative as a [ssize_t] is
    less than 2^63. *)
Definition request_ok (tok : option Tok) (o : wait_op) : Prop :=
  from_option consumer True tok /\
  match o with TryWaitMany max | WaitMany max _ => max < 2 ^ 63 | _ => True end.

(** What a call of the class returns. *)
Definition returns (o : wait_op) (n : Z) : Prop := result_ok o n /\ asserted o n = true.

(** What each thread keeps for itself. *)
Definition thread_ok (th : thread) : Prop :=
  pc_ok (sema_pc th) /\
  match th with
  | Enqueuing _ _ items n => 0 <= n -> n = Z.of_nat (length items)
  | Signalling p => match p with FetchAdd _ | Posting _ => True | _ => False end
  | Acquiring tok o p => request_ok tok o /\ op_of p = Some o /\ match p with Returning _ _ => False | _ => True end
  | Taking tok o need got => request_ok tok o /\ 0 <= need /\ returns o (need + Z.of_nat (length got))
  | Dequeued o got => returns o (Z.of_nat (length got))
  | _ => True
  end.

Record inv (q : t) : Prop := {
  inv_threads : Forall thread_ok (threads q);
  inv_kernel0 : 0 <= m_sema (sema q);
  inv_posts : m_sema (sema q) + zsum (fun th => posts (sema_pc th)) (threads q) =
    zsum (fun th => waits (sema_pc th)) (threads q) + Z.min (m_count (sema q)) 0 + forged q;
  inv_forged : 0 <= forged q;
  inv_elements : exists xs, contains (inner q) xs /\
    Z.of_nat (length xs) = m_count (sema q) + zsum claims (threads q) /\ xs ++ taken q ≡ₚ put q }.

Lemma newCount_args o : op_of (not_acquired o) = Some o.
Proof. destruct o; cbn; repeat case_match; done. Qed.

Lemma op_of_got_one o : op_of (got_one o) = Some o.
Proof. destruct o; cbn; repeat case_match; done. Qed.

Lemma op_of_try_take old new f taken' changed empty s o :
  op_of taken' = Some o -> op_of changed = Some o -> op_of empty = Some o ->
  op_of (fst (try_take old new f taken' changed empty s)) = Some o.
Proof. intros. unfold try_take. repeat case_match; done. Qed.

(** A step in the semaphore stays in the same operation. *)
Lemma step_op ch p s p' s' o :
  LightweightSemaphore.step ch p s = Some (p', s') -> op_of p = Some o ->
  match p with Returning _ _ => False | _ => True end -> op_of p' = Some o.
Proof.
  intros E Hop Hret. destruct p; try done; cbn in Hop; injection Hop as ->; cbn in E; destruct ch; try done.
  all: try (injection E as E; apply (f_equal fst) in E; cbn [fst] in E; subst p';
            by apply op_of_try_take; try apply newCount_args).
  all: repeat case_match; try done; injection E as <- <-; try done; apply op_of_got_one.
Qed.

Lemma step_signal_pc ch p s p' s' :
  LightweightSemaphore.step ch p s = Some (p', s') ->
  match p with FetchAdd _ | Posting _ => True | _ => False end ->
  p' = Idle \/ exists n, p' = Posting n.
Proof.
  intros E Hp. destruct p; try done; cbn in E; destruct ch; try done; repeat case_match; try done;
    injection E as <- <-; eauto.
Qed.

(** What a step of a thread keeps. *)
Definition bkept (th : thread) (q : t) (th' : thread) (q' : t) : Prop :=
  thread_ok th' /\ threads q' = threads q /\ 0 <= m_sema (sema q') /\
  balance1 (sema_pc th') (sema q') + forged q = balance1 (sema_pc th) (sema q) + forged q' /\
  forged q <= forged q' /\
  forall xs, contains (inner q) xs -> xs ++ taken q ≡ₚ put q ->
    exists xs', contains (inner q') xs' /\ xs' ++ taken q' ≡ₚ put q' /\
      Z.of_nat (length xs') - m_count (sema q') - claims th' = Z.of_nat (length xs) - m_count (sema q) - claims th.

(** A step in the semaphore. *)
Lemma sema_kept th q p' s' th' ch :
  LightweightSemaphore.step ch (sema_pc th) (sema q) = Some (p', s') ->
  thread_ok th -> 0 <= m_sema (sema q) -> - 2 ^ 31 < m_count (sema q) ->
  m_count (sema q) + puts_in (sema_pc th) < 2 ^ 63 ->
  thread_ok th' -> waits (sema_pc th') = waits p' -> posts (sema_pc th') = posts p' ->
  takes_out (sema_pc th) = 0 -> remaining th = 0 ->
  holds (sema_pc th') + puts_in (sema_pc th') + remaining th' = holds p' ->
  bkept th q th' (mk (inner q) s' (threads q) (put q) (taken q) (forged q + forges ch (sema_pc th))).
Proof.
  intros E [Hpc _] Hs Hlow Hup Hok Hw Hp Ht Hr Hh.
  assert (0 <= forges ch (sema_pc th)) by (destruct (sema_pc th), ch; cbn; lia).
  destruct (step_kept _ _ _ _ _ E Hpc Hs Hlow Hup) as (K1 & K2 & K3 & K4).
  unfold bkept, claims, balance1, balance2 in *. cbn [inner sema threads put taken forged] in *.
  rewrite Hw, Hp. repeat (split; [done || lia|]). intros xs Hc Hx. exists xs. do 2 (split; [done|]). lia.
Qed.

Lemma signalling_kept p q p' s' ch :
  thread_ok (Signalling p) -> LightweightSemaphore.step ch p (sema q) = Some (p', s') ->
  0 <= m_sema (sema q) -> - 2 ^ 31 < m_count (sema q) -> m_count (sema q) + puts_in p < 2 ^ 63 ->
  bkept (Signalling p) q (signalling p') (mk (inner q) s' (threads q) (put q) (taken q) (forged q)).
Proof.
  intros Hok E Hs Hlow Hup. pose proof Hok as [Hpc Hp]. cbn in Hpc.
  pose proof (step_kept _ _ _ _ _ E Hpc Hs Hlow Hup) as (K1 & _).
  assert (forged q = forged q + forges ch p) as -> by (destruct p; cbn; lia || done).
  destruct (step_signal_pc _ _ _ _ _ E Hp) as [-> |[n ->]];
    (eapply (sema_kept (Signalling p)); [exact E|done|done|done|done|..]; try done; by destruct p).
Qed.

Lemma acquiring_kept tok o p q p' s' ch th' :
  thread_ok (Acquiring tok o p) -> acquiring tok o p' = Some th' -> LightweightSemaphore.step ch p (sema q) = Some (p', s') ->
  0 <= m_sema (sema q) -> - 2 ^ 31 < m_count (sema q) -> m_count (sema q) + puts_in p < 2 ^ 63 ->
  bkept (Acquiring tok o p) q th' (mk (inner q) s' (threads q) (put q) (taken q) (forged q + forges ch p)).
Proof.
  intros Hok Ea E Hs Hlow Hup. pose proof Hok as (Hpc & Hreq & Hop & Hret). cbn in Hpc.
  pose proof (step_kept _ _ _ _ _ E Hpc Hs Hlow Hup) as (K1 & _).
  pose proof (step_op _ _ _ _ _ _ E Hop Hret) as Hop'.
  assert (th' = match p' with Returning _ n => Taking tok o n [] | _ => Acquiring tok o p' end /\
    match p' with Returning _ n => asserted o n = true | _ => True end) as [-> Has].
  { unfold acquiring in Ea. destruct p'; try (by injection Ea as <-). destruct (asserted _ _) eqn:Has; by simplify_eq. }
  clear Ea. eapply (sema_kept (Acquiring tok o p)); [exact E|done|done|done|done|..]; try (destruct p; done).
  - destruct p' as [| | | | | | | | | | | | | |o' n]; try done; cbn in Hop'; try (split; [done|split; [done|split; done]]).
    injection Hop' as ->. cbn [thread_ok sema_pc]. split; [done|]. split; [done|]. cbn [pc_ok] in K1.
    cbn [length]. replace (n + Z.of_nat 0) with n by lia. split; [by destruct o; cbn in K1; lia|by split].
  - by destruct p'.
  - by destruct p'.
  - destruct p'; try done; cbn; lia.
Qed.

Section laws.
Context `{!ConcurrentQueueLaws Q T Tok W}.

Lemma enqueuing_kept alloc tok items n q w i :
  thread_ok (Enqueuing alloc tok items n) -> cq_enqueue w alloc tok items (inner q) = Some (true, i) -> 0 <= n ->
  0 <= m_sema (sema q) ->
  bkept (Enqueuing alloc tok items n) q (Signalling (FetchAdd n))
    (mk i (sema q) (threads q) (put q ++ items) (taken q) (forged q)).
Proof.
  intros [_ Hn] E H0 Hs. cbn in Hn. unfold bkept, claims. cbn [inner sema threads put taken forged sema_pc].
  do 5 (split; [done|]). intros xs Hc Hx. destruct (enqueue_contains _ _ _ _ _ _ _ _ Hc E) as (xs' & Hc' & P).
  exists xs'. split; [done|]. rewrite P, length_app. split; [|cbn; lia].
  rewrite <- Hx, <- !app_assoc. f_equiv. apply Permutation_app_comm.
Qed.

Lemma refused_kept alloc tok items n q w i :
  cq_enqueue w alloc tok items (inner q) = Some (false, i) -> 0 <= m_sema (sema q) ->
  bkept (Enqueuing alloc tok items n) q (Enqueued false) (mk i (sema q) (threads q) (put q) (taken q) (forged q)).
Proof.
  intros E Hs. unfold bkept, claims. cbn [inner sema threads put taken forged sema_pc].
  do 5 (split; [done|]). intros xs Hc Hx. destruct (enqueue_contains _ _ _ _ _ _ _ _ Hc E) as (xs' & Hc' & P).
  rewrite app_nil_r in P. exists xs'. split; [done|]. rewrite P. split; [done|]. cbn. lia.
Qed.

(** A thread that needs tokens' worth of elements asks for a number that is a
    size. *)
Lemma need_bound tok o need got : thread_ok (Taking tok o need got) -> need < 2 ^ 64.
Proof. intros (_ & [_ Hr] & Hn & [Hres _]). destruct o; cbn in Hres; lia. Qed.

Lemma taking_kept tok o need got q w ys i :
  thread_ok (Taking tok o need got) -> need <> 0 -> cq_try_dequeue w tok need (inner q) = Some (ys, i) ->
  0 <= m_sema (sema q) -> (exists xs, contains (inner q) xs) ->
  bkept (Taking tok o need got) q (Taking tok o (need - Z.of_nat (length ys)) (got ++ ys))
    (mk i (sema q) (threads q) (put q) (taken q ++ ys) (forged q)).
Proof.
  intros Hok Hn0 E Hs [xs0 Hc0]. pose proof (need_bound _ _ _ _ Hok) as Hb'. destruct Hok as (_ & Hreq & Hn & Hr).
  assert (Hb : 0 < need < 2 ^ 64) by lia. clear Hb'.
  destruct (dequeue_contains _ _ _ _ _ _ _ Hb Hc0 E) as (_ & _ & _ & Hlen).
  unfold bkept, claims. cbn [inner sema threads put taken forged sema_pc thread_ok].
  split; [split; [done|split; [done|split; [lia|]]]|].
  { rewrite length_app. replace (need - Z.of_nat (length ys) + Z.of_nat (length got + length ys))
      with (need + Z.of_nat (length got)) by lia. exact Hr. }
  do 4 (split; [done|]). intros xs Hc Hx.
  destruct (dequeue_contains _ _ _ _ _ _ _ Hb Hc E) as (xs' & Hc' & P & _).
  exists xs'. split; [done|]. rewrite P in Hx |- *. rewrite length_app. split; [|cbn; lia].
  rewrite <- Hx, (Permutation_app_comm ys), <- !app_assoc. f_equiv. apply Permutation_app_comm.
Qed.

(** A thread that does not touch the queue or the semaphore. *)
Lemma local_kept th th' q :
  thread_ok th' -> sema_pc th' = Idle \/ (exists o, sema_pc th' = TryLoad o) ->
  sema_pc th = Idle -> remaining th = 0 -> remaining th' = 0 -> 0 <= m_sema (sema q) ->
  bkept th q th' q.
Proof.
  intros Hok Hpc Hpc0 Hr Hr' Hs. unfold bkept, claims, balance1.
  destruct Hpc as [-> |[o ->]]; rewrite Hpc0, Hr, Hr'; repeat (split; [done|]); intros xs Hc Hx; exists xs;
    by repeat (split; [done|]).
Qed.

Definition calls_ok (c : choice) : Prop :=
  match c with
  | Start (CallEnqueue _ _ items n) => 0 <= n -> n = Z.of_nat (length items)
  | Start (CallDequeue tok o) => request_ok tok o
  | _ => True
  end.

Lemma bstep_kept c th q th' q' :
  step c th q = Some (th', q') -> calls_ok c -> thread_ok th -> 0 <= m_sema (sema q) ->
  - 2 ^ 31 < m_count (sema q) -> m_count (sema q) + puts_in (sema_pc th) < 2 ^ 63 ->
  (exists xs, contains (inner q) xs) -> bkept th q th' q'.
Proof.
  intros E Hc Hok Hs Hlow Hup Hex. destruct th as [|alloc tok items n|p|tok o p|tok o need got|ok|o got];
    destruct c as [[alloc' tok' items' n'|tok' o']|ch|w|]; cbn in E; try done.
  - injection E as <- <-. apply local_kept; auto; done.
  - destruct (args_ok o') eqn:Ha; [|done]. injection E as <- <-. apply local_kept; eauto; done.
  - destruct (cq_enqueue _ _ _ _ _) as [[[] i]|] eqn:Ee; [| |done].
    + destruct (Z.leb_spec 0 n); [|done]. injection E as <- <-. by eapply enqueuing_kept.
    + injection E as <- <-. by eapply refused_kept.
  - destruct (LightweightSemaphore.step _ _ _) as [[p' s']|] eqn:Es; [|done]. injection E as <- <-.
    by eapply signalling_kept.
  - destruct (LightweightSemaphore.step _ _ _) as [[p' s']|] eqn:Es; [|done].
    destruct (acquiring tok o p') as [th1|] eqn:Ea; [|done]. injection E as <- <-. by eapply acquiring_kept.
  - destruct (Z.eqb_spec need 0) as [|Hne]; [done|]. destruct (cq_try_dequeue _ _ _ _) as [[ys i]|] eqn:Ed; [|done].
    injection E as <- <-. by eapply taking_kept.
  - destruct (Z.eqb_spec need 0) as [->|]; [|done]. injection E as <- <-.
    destruct Hok as (_ & _ & _ & Hr). apply local_kept; auto. by split.
  - injection E as <- <-. apply local_kept; auto; done.
  - injection E as <- <-. apply local_kept; auto; done.
Qed.

Lemma posts_ok th : thread_ok th -> 0 <= posts (sema_pc th).
Proof. intros [Hp _]. by apply posts_nonneg. Qed.

Lemma claims_ok th : thread_ok th -> 0 <= remaining th <= claims th.
Proof.
  intros [Hp Hok]. unfold claims. pose proof (waits_bounds (sema_pc th)). pose proof (holds_nonneg _ Hp).
  assert (0 <= puts_in (sema_pc th)) by (destruct (sema_pc th); cbn in *; lia).
  assert (0 <= remaining th) by (destruct th; cbn in *; lia). lia.
Qed.

Lemma bcount_low q : inv q -> - Z.of_nat (length (threads q)) - forged q <= m_count (sema q).
Proof.
  intros [Hth Hk Hp _ _].
  assert (0 <= zsum (fun th => posts (sema_pc th)) (threads q)).
  { apply zsum_nonneg. eapply Forall_impl; [exact Hth|]. apply posts_ok. }
  pose proof (zsum_bounds (fun th => waits (sema_pc th)) (threads q) ltac:(intros; apply waits_bounds)). lia.
Qed.

Lemma bcount_high q i th :
  inv q -> threads q !! i = Some th -> m_count (sema q) + puts_in (sema_pc th) <= Z.of_nat (length (put q)).
Proof.
  intros [Hth _ _ _ (xs & _ & Hcl & Hcons)] Hi. apply Permutation_length in Hcons. rewrite length_app in Hcons.
  assert (claims th <= zsum claims (threads q)) as Hle.
  { eapply zsum_member; [|exact Hi]. eapply Forall_impl; [exact Hth|]. intros th' Ht. pose proof (claims_ok th' Ht). lia. }
  assert (thread_ok th) as [Hp Hok] by (by eapply Forall_lookup_1). unfold claims in Hle at 1.
  pose proof (waits_bounds (sema_pc th)). pose proof (holds_nonneg _ Hp).
  assert (0 <= remaining th) by (destruct th; cbn in *; lia). lia.
Qed.

(** The numbers of elements put in and of threads, and that of the forged
    tokens, stay within a [ssize_t] and an [int]. *)
Definition in_bounds (q : t) : Prop :=
  Z.of_nat (length (put q)) < 2 ^ 63 /\ Z.of_nat (length (threads q)) + forged q < 2 ^ 31.

Lemma bturn_grows i c q q' :
  turn i c q = Some q' -> length (threads q') = length (threads q) /\
  (length (put q) <= length (put q'))%nat /\ forged q <= forged q'.
Proof.
  intros E. unfold turn in E. destruct (threads q !! i) as [th|]; [|done].
  destruct (step c th q) as [[th' q1]|] eqn:Es; [|done]. injection E as <-. cbn [threads put forged].
  rewrite length_insert. unfold step in Es.
  destruct th, c; try done; repeat case_match; try done; injection Es as <- <-; cbn [threads put forged];
    rewrite ?length_app; (split; [done|split; [lia|]]); try done.
  match goal with |- context [forges ?ch ?p] => destruct p, ch; cbn; lia end.
Qed.

Lemma brun_grows schedule q q' : run schedule q = Some q' -> in_bounds q' -> in_bounds q.
Proof.
  revert q. induction schedule as [|[i c] schedule IH]; intros q E Hb; [by injection E as <-|].
  cbn in E. destruct (turn i c q) as [q1|] eqn:Et; [|done].
  destruct (bturn_grows i c q q1 Et) as (El & Hs & Hg). destruct (IH q1 E Hb).
  unfold in_bounds. rewrite <- El. lia.
Qed.

Lemma bturn_inv i c q q' :
  inv q -> calls_ok c -> turn i c q = Some q' -> in_bounds q' ->
  inv q' /\ length (threads q') = length (threads q).
Proof.
  intros I Hc E Hb. destruct (bturn_grows i c q q' E) as (El & Hput & Hfor). split; [|done].
  destruct Hb as [Hb1 Hb2]. rewrite El in Hb2. pose proof (bcount_low _ I) as Hlow. unfold turn in E.
  destruct (threads q !! i) as [th|] eqn:Hi; [|done]. pose proof (bcount_high _ _ _ I Hi) as Hup.
  destruct (step c th q) as [[th' q1]|] eqn:Es; [|done]. injection E as <-. cbn [threads put forged] in *.
  destruct I as [Hth Hk Hp Hf (xs & Hxs & Hcl & Hcons)]. assert (thread_ok th) as Hok by (by eapply Forall_lookup_1).
  destruct (bstep_kept _ _ _ _ _ Es Hc Hok Hk ltac:(lia) ltac:(lia)) as (K1 & K2 & K3 & K4 & K5 & K6); [by exists xs|].
  destruct (K6 xs Hxs Hcons) as (xs' & Hxs' & Hcons' & Hcl').
  unfold balance1 in K4. split; cbn [threads sema inner put taken forged]; rewrite ?K2.
  - by apply Forall_insert.
  - done.
  - rewrite !(zsum_insert _ _ _ th) by done. lia.
  - lia.
  - exists xs'. rewrite !(zsum_insert _ _ _ th) by done. split; [done|]. split; [lia|done].
Qed.

Lemma brun_inv schedule q q' :
  inv q -> Forall (fun s => calls_ok s.2) schedule -> run schedule q = Some q' -> in_bounds q' ->
  inv q' /\ length (threads q') = length (threads q).
Proof.
  revert q. induction schedule as [|[i c] schedule IH]; intros q I Hc E Hb; [by injection E as <-|].
  apply Forall_cons in Hc as [Hc1 Hc]. cbn in E. destruct (turn i c q) as [q1|] eqn:Et; [|done].
  destruct (bturn_inv i c q q1 I Hc1 Et (brun_grows _ _ _ E Hb)) as [I1 E1]. rewrite <- E1. by apply IH.
Qed.

(** ** The interface *)

(** The calls of the class, with consumer tokens that exist. *)
Inductive api : call -> Prop :=
| api_enqueue tok x : api (enqueue tok x)
| api_try_enqueue tok x : api (try_enqueue tok x)
| api_enqueue_bulk tok xs : Z.of_nat (length xs) < 2 ^ 64 -> api (enqueue_bulk tok xs)
| api_try_enqueue_bulk tok xs : Z.of_nat (length xs) < 2 ^ 64 -> api (try_enqueue_bulk tok xs)
| api_try_dequeue tok : from_option consumer True tok -> api (try_dequeue tok)
| api_try_dequeue_bulk tok max : from_option consumer True tok -> api (try_dequeue_bulk tok max)
| api_wait_dequeue : api wait_dequeue
| api_wait_dequeue_tok tok : consumer tok -> api (wait_dequeue_tok tok)
| api_wait_dequeue_timed n : api (wait_dequeue_timed n)
| api_wait_dequeue_timed_tok tok n : consumer tok -> api (wait_dequeue_timed_tok tok n)
| api_wait_dequeue_bulk max : api (wait_dequeue_bulk max)
| api_wait_dequeue_bulk_tok tok max : consumer tok -> api (wait_dequeue_bulk_tok tok max)
| api_wait_dequeue_bulk_timed max n : api (wait_dequeue_bulk_timed max n)
| api_wait_dequeue_bulk_timed_tok tok max n : consumer tok -> api (wait_dequeue_bulk_timed_tok tok max n).

Definition api_choice (c : choice) : Prop := match c with Start c => api c | _ => True end.

Lemma signed_count (xs : list T) :
  Z.of_nat (length xs) < 2 ^ 64 -> 0 <= s64 (Z.of_nat (length xs)) ->
  s64 (Z.of_nat (length xs)) = Z.of_nat (length xs).
Proof.
  intros Hlen. unfold to_signed. rewrite (wrap_small 64 (Z.of_nat (length xs))) by (split; lia).
  destruct (Z.ltb_spec (Z.of_nat (length xs)) (2 ^ (64 - 1))); lia.
Qed.

Lemma api_calls_ok c : api_choice c -> calls_ok c.
Proof.
  assert (Hs : forall max, s64 max < 2 ^ 63).
  { intros max. unfold to_signed. pose proof (wrap_range 64 max ltac:(lia)) as [_ Hw].
    destruct (Z.ltb_spec (wrap 64 max) (2 ^ (64 - 1))); lia. }
  destruct c as [c| | |]; try done. destruct 1; cbn; try done; by apply signed_count.
Qed.

Lemma bconstruct_inv capacity n q :
  capacity_ok capacity -> construct true capacity n = Some q -> inv q /\ length (threads q) = n.
Proof.
  intros Hcap (i & Ei & [= <-])%bind_Some. split; [|apply repeat_length].
  split; cbn [threads sema inner put taken m_sema m_count]; rewrite ?zsum_repeat by done; try done.
  - apply Forall_forall. intros th Hth%list_elem_of_In. by apply repeat_spec in Hth as ->.
  - exists []. split; [by eapply construct_empty|done].
Qed.

Lemma brun_length schedule q q' : run schedule q = Some q' -> length (threads q') = length (threads q).
Proof.
  revert q. induction schedule as [|[i c] schedule IH]; intros q E; [by injection E as <-|].
  cbn in E. destruct (turn i c q) as [q1|] eqn:Et; [|done]. rewrite (IH q1 E). by eapply bturn_grows.
Qed.

Lemma breachable_inv capacity n q0 schedule q :
  capacity_ok capacity -> construct true capacity n = Some q0 ->
  Forall (fun s => api_choice s.2) schedule -> run schedule q0 = Some q ->
  Z.of_nat (length (put q)) < 2 ^ 63 -> Z.of_nat n + forged q < 2 ^ 31 -> inv q.
Proof.
  intros Hcap E0 Hc Hr Hput Hf. destruct (bconstruct_inv _ _ _ Hcap E0) as [I0 El].
  apply (brun_inv schedule q0); [done| |done|split; [done|by rewrite (brun_length _ _ _ Hr), El]].
  eapply Forall_impl; [exact Hc|]. intros s. apply api_calls_ok.
Qed.

(** Beyond the tokens of the threads that wait, each claim is an element. *)
Definition owed (th : thread) : Z := holds (sema_pc th) + puts_in (sema_pc th) + remaining th.

Lemma elements_owed q :
  inv q -> exists xs, contains (inner q) xs /\ xs ++ taken q ≡ₚ put q /\
    Z.of_nat (length xs) + forged q =
      Z.max (m_count (sema q)) 0 + m_sema (sema q) +
      zsum (fun th => posts (sema_pc th)) (threads q) + zsum owed (threads q).
Proof.
  intros [Hth Hk Hp _ (xs & Hxs & Hc & Hcons)]. exists xs. do 2 (split; [done|]). assert (zsum claims (threads q) =
    zsum (fun th => waits (sema_pc th)) (threads q) + zsum owed (threads q)) as E.
  { rewrite <- zsum_add. clear. induction (threads q) as [|th l IH]; [done|]. rewrite !zsum_cons, IH.
    unfold claims, owed. lia. }
  lia.
Qed.

Lemma owed_nonneg th : thread_ok th -> 0 <= owed th /\ remaining th <= owed th.
Proof.
  intros [Hp Hok]. unfold owed. pose proof (holds_nonneg _ Hp).
  assert (0 <= puts_in (sema_pc th)) by (destruct (sema_pc th); cbn in *; lia).
  assert (0 <= remaining th) by (destruct th; cbn in *; lia). lia.
Qed.

(** A thread that has its tokens finds an element, unless tokens were forged. *)
Lemma taking_goes_on q i tok o need got :
  inv q -> forged q = 0 -> threads q !! i = Some (Taking tok o need got) -> need <> 0 ->
  exists w q' ys, ys <> [] /\ turn i (Inner w) q = Some q' /\
    threads q' !! i = Some (Taking tok o (need - Z.of_nat (length ys)) (got ++ ys)).
Proof.
  intros I Hf Hi Hneed. pose proof (inv_threads _ I) as Hth. destruct (elements_owed _ I) as (xs & Hxs & _ & El).
  assert (thread_ok (Taking tok o need got)) as Hok by exact (proj1 (Forall_lookup _ _) Hth i _ Hi).
  pose proof Hok as (_ & [Htok _] & Hn0 & _). cbn in Hn0. pose proof (need_bound _ _ _ _ Hok).
  assert (0 <= zsum (fun th => posts (sema_pc th)) (threads q)).
  { apply zsum_nonneg. eapply Forall_impl; [exact Hth|]. apply posts_ok. }
  assert (owed (Taking tok o need got) <= zsum owed (threads q)).
  { eapply zsum_member; [|exact Hi]. eapply Forall_impl; [exact Hth|]. intros th Ht. by apply owed_nonneg. }
  pose proof (owed_nonneg _ Hok) as [_ Hown]. cbn [remaining] in Hown. pose proof (inv_kernel0 _ I).
  destruct (dequeue_progress tok need (inner q) xs) as (w & ys & i' & Ed & Hys); [lia|done|done|intros ->; cbn in El; lia|].
  exists w. eexists. exists ys. split; [done|]. unfold turn. rewrite Hi. cbn [step].
  rewrite (proj2 (Z.eqb_neq need 0)) by done. rewrite Ed. split; [done|]. cbn.
  apply list_lookup_insert_eq. by eapply lookup_lt_Some.
Qed.

(** However the threads interleave, the elements in the queue and those
    dequeued are those enqueued, each once; a dequeue that has its tokens from
    the semaphore finds the queue not empty, so that its loop can always go
    on to an element, if no timed wait has met a deadline that was refused; and
    it returns as many elements as tokens, within what was asked for. *)
Theorem elements_conserved capacity n q0 schedule q :
  capacity_ok capacity -> construct true capacity n = Some q0 ->
  Forall (fun s => api_choice s.2) schedule -> run schedule q0 = Some q ->
  Z.of_nat (length (put q)) < 2 ^ 63 -> Z.of_nat n + forged q < 2 ^ 31 ->
  (exists xs, contains (inner q) xs /\ xs ++ taken q ≡ₚ put q) /\
  (forall i tok o need got, forged q = 0 -> threads q !! i = Some (Taking tok o need got) -> need <> 0 ->
     exists w q' ys, ys <> [] /\ turn i (Inner w) q = Some q' /\
       threads q' !! i = Some (Taking tok o (need - Z.of_nat (length ys)) (got ++ ys))) /\
  (forall i o got, threads q !! i = Some (Dequeued o got) -> returns o (Z.of_nat (length got))).
Proof.
  intros Hcap E0 Hc Hr Hput Hf. pose proof (breachable_inv _ _ _ _ _ Hcap E0 Hc Hr Hput Hf) as I.
  destruct (elements_owed _ I) as (xs & Hxs & Hcons & _). split; [by exists xs|]. split.
  - intros i tok o need got. by apply taking_goes_on.
  - intros i o got Hi. by destruct (proj1 (Forall_lookup _ _) (inv_threads _ I) i _ Hi).
Qed.

(** The thread is outside of the queue, or blocked in the semaphore, or has
    not yet begun on the queue, or has only to return. *)
Definition resting (th : thread) : Prop :=
  match th with
  | Outside | Enqueuing _ _ _ _ | Enqueued _ | Dequeued _ _ => True
  | Acquiring _ _ p => exists o, p = SemaWait o
  | Signalling _ | Taking _ _ _ _ => False
  end.

Lemma got_one_returns tok o : is_Some (acquiring tok o (got_one o)).
Proof. destruct o as [| | |max [t|]]; cbn; repeat case_match; try done; by eexists. Qed.

Lemma blocked_empty q i tok o :
  inv q -> threads q !! i = Some (Acquiring tok o (SemaWait o)) -> turn i (Sema Go) q = None ->
  Forall resting (threads q) ->
  contains (inner q) [] /\ taken q ≡ₚ put q /\ size_approx q = 0.
Proof.
  intros I Hi Hb Hrest.
  unfold turn in Hb. rewrite Hi in Hb. cbn [step LightweightSemaphore.step] in Hb.
  destruct (Z.ltb_spec 0 (m_sema (sema q))); [by destruct (got_one_returns tok o) as [th Eth]; rewrite Eth in Hb|].
  assert (zsum owed (threads q) = 0 /\ zsum (fun th => posts (sema_pc th)) (threads q) = 0) as [Ho Hp].
  { split; apply zsum_zero; (eapply Forall_impl; [exact Hrest|]); intros [| | |? ? p| | |] Hth; try done;
      by destruct Hth as [o' ->]. }
  assert (1 <= zsum (fun th => waits (sema_pc th)) (threads q)) as Hw.
  { etrans; [|apply (zsum_member (fun th => waits (sema_pc th)) _ _ _) in Hi; [exact Hi|]]; [done|].
    apply Forall_forall. intros th _. apply waits_bounds. }
  destruct (elements_owed _ I) as (xs & Hxs & Hcons & El). pose proof (inv_kernel0 _ I). pose proof (inv_posts _ I).
  pose proof (inv_forged _ I). unfold size_approx, availableApprox. rewrite (proj2 (Z.ltb_ge _ _)) by lia.
  assert (xs = []) as -> by (apply length_zero_iff_nil; lia). by split.
Qed.

(** Consumers wait for nothing that is there: when a thread is blocked in
    the semaphore and no other is within an operation, the queue is empty. *)
Theorem blocked_means_empty capacity n q0 schedule q i tok o :
  capacity_ok capacity -> construct true capacity n = Some q0 ->
  Forall (fun s => api_choice s.2) schedule -> run schedule q0 = Some q ->
  Z.of_nat (length (put q)) < 2 ^ 63 -> Z.of_nat n + forged q < 2 ^ 31 ->
  threads q !! i = Some (Acquiring tok o (SemaWait o)) -> turn i (Sema Go) q = None ->
  Forall resting (threads q) ->
  contains (inner q) [] /\ size_approx q = 0.
Proof.
  intros Hcap E0 Hc Hr Hput Hf Hi Hb Hrest. pose proof (breachable_inv _ _ _ _ _ Hcap E0 Hc Hr Hput Hf) as I.
  by destruct (blocked_empty q i tok o I Hi Hb Hrest) as (? & _ & ?).
Qed.
End laws.
End Queue.

(** ** A concrete queue *)

(** A list as the inner queue: a dequeue takes one element, unless the
    environment makes it miss. *)
#[local] Instance list_queue : ConcurrentQueue (list Z) Z unit bool := {|
  contains q xs := q = xs;
  consumer _ := True;
  capacity_ok _ := True;
  cq_construct _ := Some [];
  cq_enqueue _ _ _ xs q := Some (true, q ++ xs);
  cq_try_dequeue miss _ _ q :=
    match q with x :: q' => Some (if miss : bool then ([], q) else ([x], q')) | [] => Some ([], []) end |}.

#[local] Instance list_queue_laws : ConcurrentQueueLaws (list Z) Z unit bool.
Proof.
  split; cbn.
  - by intros n q _ [= <-].
  - intros _ _ _ ys q ok q' xs <- [= <- <-]. by exists (q ++ ys).
  - intros w _ max [|x q] ys q' xs Hmax <-; [intros [= <- <-]; exists []; cbn; split; [done|split; [done|lia]]|].
    destruct w; intros [= <- <-]; eexists; cbn; (split; [done|split; [done|lia]]).
  - intros _ max [|x q] xs _ _ <- Hne; [done|]. by exists false, [x], q.
Defined.

(** Thread 0 waits and blocks; thread 1 enqueues two elements; thread 0 is
    woken, misses once and takes an element. *)
Definition blocked_schedule : list (nat * @choice Z unit bool) :=
  (0%nat, Start wait_dequeue) :: repeat (0%nat, Sema Go) (Z.to_nat 20004).
Definition woken_schedule : list (nat * @choice Z unit bool) :=
  blocked_schedule ++
  [(1%nat, Start (enqueue_bulk None [7; 8])); (1%nat, Inner false)] ++ repeat (1%nat, Sema Go) 3 ++
  [(0%nat, Sema Go); (0%nat, Inner true); (0%nat, Inner false); (0%nat, Return)].

Lemma blocked_schedule_api : Forall (fun s => api_choice s.2) blocked_schedule.
Proof. apply Forall_cons. split; [constructor|]. apply Forall_forall. by intros s ->%list_elem_of_In%repeat_spec. Qed.

Lemma elements_conserved_witness :
  exists q0 q, @construct (list Z) Z unit bool _ true 32 2 = Some q0 /\ run woken_schedule q0 = Some q /\
    inner q ++ taken q ≡ₚ put q /\ taken q = [7] /\ put q = [7; 8].
Proof.
  pose (q0 := @mk (list Z) Z unit [] (mkShared 0 0) [Outside; Outside] [] [] 0).
  destruct (run woken_schedule q0) as [q|] eqn:E; [|vm_compute in E; discriminate E].
  assert (Forall (fun s => api_choice s.2) woken_schedule) as Hc.
  { apply Forall_app. split; [apply blocked_schedule_api|]. repeat constructor. }
  assert (@construct (list Z) Z unit bool list_queue true 32 2 = Some q0) as E0 by reflexivity.
  assert (@capacity_ok _ _ _ _ list_queue 32) as Hcap by done.
  assert (put q = [7; 8] /\ taken q = [7] /\ forged q = 0) as (Ep & Et & Ef) by (vm_compute in E; by injection E as <-).
  destruct (elements_conserved 32 2 q0 woken_schedule q Hcap E0 Hc E) as ((xs & Hxs & P) & _);
    [rewrite Ep; cbn; lia|rewrite Ef; lia|]. cbn in Hxs. subst xs.
  exists q0, q. split; [reflexivity|]. split; [exact E|]. split; [exact P|]. by split.
Defined.

(** Waiting for at least one and at most none fails the assertion of
    [waitMany]. *)
Lemma wait_for_none_asserts :
  let q := @mk (list Z) Z unit [7] (mkShared 1 0) [Outside] [7] [] 0 in
  run [(0%nat, Start (wait_dequeue_bulk 0)); (0%nat, Sema Go)] q <> None /\
  run [(0%nat, Start (wait_dequeue_bulk 0)); (0%nat, Sema Go); (0%nat, Sema Go)] q = None.
Proof. by vm_compute. Qed.

Lemma blocked_means_empty_witness :
  exists q0 q, @construct (list Z) Z unit bool _ true 32 2 = Some q0 /\ run blocked_schedule q0 = Some q /\
    contains (inner q) [].
Proof.
  exists (mk [] (mkShared 0 0) [Outside; Outside] [] [] 0).
  exists (mk [] (mkShared (-1) 0) [Acquiring None (Wait (-1)) (SemaWait (Wait (-1))); Outside] [] [] 0).
  assert (run blocked_schedule (mk [] (mkShared 0 0) [Outside; Outside] [] [] 0) =
    Some (mk [] (mkShared (-1) 0) [Acquiring None (Wait (-1)) (SemaWait (Wait (-1))); Outside] [] [] 0)) as E
    by (vm_compute; reflexivity).
  assert (@construct (list Z) Z unit bool list_queue true 32 2 =
    Some (mk [] (mkShared 0 0) [Outside; Outside] [] [] 0)) as E0 by reflexivity.
  split; [exact E0|]. split; [exact E|]. assert (@capacity_ok _ _ _ _ list_queue 32) as Hcap by done.
  apply (blocked_means_empty 32 2 _ blocked_schedule _ 0 None (Wait (-1)) Hcap E0
    blocked_schedule_api E); [cbn; lia|cbn; lia|reflexivity|reflexivity|].
  constructor; [by eexists|]. by repeat constructor.
Defined.

End BlockingConcurrentQueue.
