(* ===== verification/FreeList.v ===== *)
(** * The lock-free free list (utils/concurrentqueue.h, [FreeListNode] and [FreeList])

    Any number of threads use one list. Each atomic access of shared memory is
    one step of one thread, and a schedule says whose turn it is. The clients
    are part of the state as the nodes they own: a node may be added by whoever
    owns it, and [try_get] gives a node to its caller. *)
From S2P Require Import Prelude.
#[local] Open Scope Z_scope.

Module FreeList.

(** ** Memory *)

Record FreeListNode := mkNode { freeListRefs : Z; freeListNext : option nat }.
Definition newNode : FreeListNode := mkNode 0 None.

Definition REFS_MASK : Z := 0x7FFFFFFF.
Definition SHOULD_BE_ON_FREELIST : Z := 0x80000000.

(** A node that nobody has written to is as its constructor leaves it. *)
Record FreeList := mkFreeList { freeListHead : option nat; nodes : gmap nat FreeListNode }.
Definition node (s : FreeList) (n : nat) : FreeListNode := default newNode (nodes s !! n).
Definition refs (s : FreeList) (n : nat) : Z := freeListRefs (node s n).
Definition next (s : FreeList) (n : nat) : option nat := freeListNext (node s n).

Definition set_head (h : option nat) (s : FreeList) : FreeList := mkFreeList h (nodes s).
Definition set_refs (n : nat) (r : Z) (s : FreeList) : FreeList :=
  mkFreeList (freeListHead s) (<[n := mkNode r (next s n)]> (nodes s)).
Definition set_next (n : nat) (p : option nat) (s : FreeList) : FreeList :=
  mkFreeList (freeListHead s) (<[n := mkNode (refs s n) p]> (nodes s)).

(** [fetch_add] on the count of a node, with the conversion of its argument to
    32 bits. *)
Definition fetch_add (n : nat) (d : Z) (s : FreeList) : Z * FreeList :=
  (refs s n, set_refs n (wrap 32 (refs s n + wrap 32 d)) s).

(** ** Threads *)

(** Where a call of [add_knowing_refcount_is_zero] goes back to: the end of
    [add], or the loop of [try_get] with its [head]. *)
Inductive caller := FromAdd | FromTryGet (head : option nat).

Inductive pc :=
| Idle
| AddFetch (n : nat)                                    (* add *)
| GetLoadHead                                           (* try_get: the loads of the head *)
| GetLoadRefs (head : nat)                              (* its loop *)
| GetCasRefs (head : nat) (r : Z)
| GetLoadNext (head : nat)
| GetCasHead (head : nat) (nxt : option nat)
| GetAssert (head : nat)                                (* the node is ours *)
| GetRelease2 (head : nat)
| GetRelease1 (prevHead : nat) (head : option nat)      (* the head has changed *)
| PutLoadHead (n : nat) (k : caller)                    (* add_knowing_refcount_is_zero *)
| PutStoreNext (n : nat) (head : option nat) (k : caller)
| PutStoreRefs (n : nat) (head : option nat) (k : caller)
| PutCasHead (n : nat) (head : option nat) (k : caller)
| PutRelease (n : nat) (head : option nat) (k : caller)
| Returning (result : option nat).

Inductive choice := CallAdd (n : nat) | CallTryGet | Go.

(** The test of the loop in [try_get]. *)
Definition loop_at (head : option nat) : pc :=
  match head with Some h => GetLoadRefs h | None => Returning None end.
Definition back (k : caller) : pc :=
  match k with FromAdd => Idle | FromTryGet head => loop_at head end.

(** A step that the thread cannot make, a failed assertion, or the thread and
    the memory afterwards. *)
Inductive result (A : Type) := Disabled | AssertionFailed | Next (a : A).
Arguments Disabled {A}.
Arguments AssertionFailed {A}.
Arguments Next {A}.

Definition step (ch : choice) (p : pc) (s : FreeList) : result (pc * FreeList) :=
  match p, ch with
  | Idle, CallAdd n => Next (AddFetch n, s)
  | Idle, CallTryGet => Next (GetLoadHead, s)
  | AddFetch n, Go =>
      let '(old, s) := fetch_add n SHOULD_BE_ON_FREELIST s in
      Next (if old =? 0 then PutLoadHead n FromAdd else Idle, s)
  | GetLoadHead, Go => Next (loop_at (freeListHead s), s)
  | GetLoadRefs head, Go =>
      Next (if Z.land (refs s head) REFS_MASK =? 0 then GetLoadHead else GetCasRefs head (refs s head), s)
  | GetCasRefs head r, Go =>
      if refs s head =? r then Next (GetLoadNext head, set_refs head (wrap 32 (r + 1)) s)
      else Next (GetLoadHead, s)
  | GetLoadNext head, Go => Next (GetCasHead head (next s head), s)
  | GetCasHead head nxt, Go =>
      if decide (freeListHead s = Some head) then Next (GetAssert head, set_head nxt s)
      else Next (GetRelease1 head (freeListHead s), s)
  | GetAssert head, Go =>
      if Z.land (refs s head) SHOULD_BE_ON_FREELIST =? 0 then Next (GetRelease2 head, s) else AssertionFailed
  | GetRelease2 head, Go => Next (Returning (Some head), (fetch_add head (-2) s).2)
  | GetRelease1 prevHead head, Go =>
      let '(old, s) := fetch_add prevHead (-1) s in
      Next (if old =? SHOULD_BE_ON_FREELIST + 1 then PutLoadHead prevHead (FromTryGet head) else loop_at head, s)
  | PutLoadHead n k, Go => Next (PutStoreNext n (freeListHead s) k, s)
  | PutStoreNext n head k, Go => Next (PutStoreRefs n head k, set_next n head s)
  | PutStoreRefs n head k, Go => Next (PutCasHead n head k, set_refs n 1 s)
  | PutCasHead n head k, Go =>
      if decide (freeListHead s = head) then Next (back k, set_head (Some n) s)
      else Next (PutRelease n (freeListHead s) k, s)
  | PutRelease n head k, Go =>
      let '(old, s) := fetch_add n (SHOULD_BE_ON_FREELIST - 1) s in
      Next (if old =? 1 then PutStoreNext n head k else back k, s)
  | Returning _, Go => Next (Idle, s)
  | _, _ => Disabled
  end.

(** ** The program *)

Record t := mk { threads : list pc; memory : FreeList; owned : list nat }.

(** The constructor, with [n] threads and the nodes that the clients have. *)
Definition construct (clients : list nat) (n : nat) : t := mk (repeat Idle n) (mkFreeList None ∅) clients.

(** The move constructor and [swap], on the heads of two lists. *)
Definition move (other : option nat) : option nat * option nat := (other, None).
Definition swap (a b : option nat) : option nat * option nat := (b, a).
Definition head_unsafe (s : FreeList) : option nat := freeListHead s.

Fixpoint hand_over (n : nat) (own : list nat) : option (list nat) :=
  match own with
  | [] => None
  | m :: own => if decide (m = n) then Some own else option_map (cons m) (hand_over n own)
  end.

(** What the client has after a step: [add] takes the node from it, and the
    return of [try_get] gives it one. *)
Definition client (ch : choice) (p : pc) (own : list nat) : option (list nat) :=
  match p, ch with
  | Idle, CallAdd n => hand_over n own
  | Returning (Some n), Go => Some (n :: own)
  | _, _ => Some own
  end.

Definition turn (i : nat) (ch : choice) (q : t) : result t :=
  match threads q !! i with
  | None => Disabled
  | Some p =>
      match client ch p (owned q) with
      | None => Disabled
      | Some own =>
          match step ch p (memory q) with
          | Next (p', s) => Next (mk (<[i := p']> (threads q)) s own)
          | Disabled => Disabled
          | AssertionFailed => AssertionFailed
          end
      end
  end.

Fixpoint run (schedule : list (nat * choice)) (q : t) : result t :=
  match schedule with
  | [] => Next q
  | (i, ch) :: schedule =>
      match turn i ch q with
      | Next q => run schedule q
      | Disabled => Disabled
      | AssertionFailed => AssertionFailed
      end
  end.

(** ** Where a node is *)

Definition eqz (m n : nat) : Z := if decide (m = n) then 1 else 0.
Definition zcount (n : nat) (l : list nat) : Z := zsum (fun m => eqz m n) l.

#[local] Arguments zcount : simpl never.
#[local] Arguments eqz : simpl never.
#[local] Arguments zsum : simpl never.

(** The thread has incremented the count of [n]. *)
Definition counted (n : nat) (p : pc) : Z :=
  match p with
  | GetLoadNext h | GetCasHead h _ | GetAssert h | GetRelease2 h | GetRelease1 h _ => eqz h n
  | _ => 0
  end.
(** It is about to publish [n], whose count was zero. *)
Definition adding (n : nat) (p : pc) : Z :=
  match p with PutLoadHead m _ | PutStoreNext m _ _ | PutStoreRefs m _ _ => eqz m n | _ => 0 end.
(** It has set the count to one, for the list. *)
Definition offering (n : nat) (p : pc) : Z :=
  match p with PutCasHead m _ _ | PutRelease m _ _ => eqz m n | _ => 0 end.
(** It has taken [n] off the list. *)
Definition taking (n : nat) (p : pc) : Z :=
  match p with GetAssert m | GetRelease2 m => eqz m n | _ => 0 end.
(** It has [n] for its client. *)
Definition carrying (n : nat) (p : pc) : Z :=
  match p with AddFetch m => eqz m n | Returning (Some m) => eqz m n | _ => 0 end.

(** The nodes of the list, from its head. *)
Fixpoint chain (s : FreeList) (h : option nat) (l : list nat) : Prop :=
  match l with
  | [] => h = None
  | n :: l => h = Some n /\ chain s (next s n) l
  end.

(** One node: [u] is 1 if it is one of the clients' nodes; the places it may
    be in are the list, with a client, and with a thread that adds it, offers
    it or has taken it; or it waits, with the flag set, until the last thread
    that has counted it lets it go. The count says all this. *)
Definition node_ok (u inlist own add offer take cnt r : Z) : Prop :=
  exists waits, 0 <= waits /\
    inlist + own + add + offer + take + waits = u /\
    r = 2 ^ 31 * (add + waits) + (inlist + offer + take) + cnt /\
    (waits = 1 -> 0 < cnt) /\ (add = 1 -> cnt = 0).

(** What a thread remembers of a node is still so. *)
Definition pc_ok (s : FreeList) (p : pc) : Prop :=
  match p with
  | GetCasRefs _ r => Z.land r REFS_MASK <> 0 /\ 0 <= r < 2 ^ 32
  | GetCasHead h nxt => next s h = nxt
  | PutStoreRefs n head _ | PutCasHead n head _ => next s n = head
  | _ => True
  end.

Record inv (clients : list nat) (q : t) (l : list nat) : Prop := mkInv {
  inv_chain : chain (memory q) (freeListHead (memory q)) l;
  inv_node : forall n,
    node_ok (zcount n clients) (zcount n l) (zcount n (owned q) + zsum (carrying n) (threads q))
      (zsum (adding n) (threads q)) (zsum (offering n) (threads q)) (zsum (taking n) (threads q))
      (zsum (counted n) (threads q)) (refs (memory q) n);
  inv_pc : Forall (pc_ok (memory q)) (threads q)
}.

(** *** Memory *)

Lemma refs_set_refs s n m r : refs (set_refs n r s) m = if decide (n = m) then r else refs s m.
Proof.
  unfold refs, node, set_refs. cbn. destruct (decide (n = m)) as [->|Hn];
    [by rewrite lookup_insert_eq|by rewrite lookup_insert_ne].
Qed.
Lemma next_set_refs s n m r : next (set_refs n r s) m = next s m.
Proof.
  unfold next, node, set_refs. cbn. destruct (decide (n = m)) as [->|Hn];
    [by rewrite lookup_insert_eq|by rewrite lookup_insert_ne].
Qed.
Lemma refs_set_next s n m p : refs (set_next n p s) m = refs s m.
Proof.
  unfold refs, node, set_next. cbn. destruct (decide (n = m)) as [->|Hn];
    [by rewrite lookup_insert_eq|by rewrite lookup_insert_ne].
Qed.
Lemma next_set_next s n m p : next (set_next n p s) m = if decide (n = m) then p else next s m.
Proof.
  unfold next, node, set_next. cbn. destruct (decide (n = m)) as [->|Hn];
    [by rewrite lookup_insert_eq|by rewrite lookup_insert_ne].
Qed.

Lemma chain_ext s s' h l :
  (forall n, n ∈ l -> next s' n = next s n) -> chain s h l -> chain s' h l.
Proof.
  revert h. induction l as [|n l IH]; intros h Hn; [done|]. cbn. intros [-> Hc]. split; [done|].
  rewrite Hn by left. apply IH; [|done]. intros m Hm. apply Hn. by right.
Qed.

(** *** Counting *)

Lemma eqz_bounds m n : 0 <= eqz m n <= 1.
Proof. unfold eqz. destruct (decide (m = n)); lia. Qed.
Lemma eqz_same n : eqz n n = 1.
Proof. unfold eqz. by rewrite decide_True. Qed.
Lemma eqz_other m n : m <> n -> eqz m n = 0.
Proof. intros. unfold eqz. by rewrite decide_False. Qed.

Lemma zcount_cons n m l : zcount n (m :: l) = eqz m n + zcount n l.
Proof. done. Qed.
Lemma zcount_app n l l' : zcount n (l ++ l') = zcount n l + zcount n l'.
Proof. induction l as [|m l IH]; [done|]. rewrite <- app_comm_cons, !zcount_cons. lia. Qed.
Lemma zcount_nonneg n l : 0 <= zcount n l.
Proof. apply zsum_nonneg, Forall_forall. intros m _. apply eqz_bounds. Qed.
Lemma zcount_perm n l l' : l ≡ₚ l' -> zcount n l = zcount n l'.
Proof. induction 1; rewrite ?zcount_cons in *; lia. Qed.
Lemma zcount_elem n l : n ∈ l <-> 1 <= zcount n l.
Proof.
  induction l as [|m l IH]; [split; [by intros ?%elem_of_nil|done]|].
  rewrite zcount_cons, elem_of_cons, IH. pose proof (zcount_nonneg n l).
  unfold eqz. destruct (decide (m = n)); [|intuition lia]. intuition lia.
Qed.
Lemma zcount_nodup l : NoDup l <-> forall n, zcount n l <= 1.
Proof.
  induction l as [|m l IH]; [split; [done|constructor]|].
  rewrite NoDup_cons, IH, zcount_elem. split.
  - intros [Hm Hl] n. rewrite zcount_cons. unfold eqz. destruct (decide (m = n)) as [->|]; [lia|].
    specialize (Hl n). lia.
  - intros Hn. split.
    + specialize (Hn m). rewrite zcount_cons, eqz_same in Hn. lia.
    + intros n. specialize (Hn n). rewrite zcount_cons in Hn. pose proof (eqz_bounds m n). lia.
Qed.
Lemma hand_over_count n own own' m :
  hand_over n own = Some own' -> zcount m own = eqz n m + zcount m own'.
Proof.
  revert own'. induction own as [|a own IH]; intros own'; cbn; [done|]. rewrite zcount_cons.
  case_decide as E; [intros [= <-]; by rewrite E|].
  destruct (hand_over n own) as [k|]; cbn; [|done]. intros [= <-].
  rewrite zcount_cons, (IH k eq_refl). lia.
Qed.

Lemma weight_bounds n p :
  0 <= counted n p <= 1 /\ 0 <= adding n p <= 1 /\ 0 <= offering n p <= 1 /\
  0 <= taking n p <= 1 /\ 0 <= carrying n p <= 1.
Proof.
  destruct p as [| | | | | | | | | | | | | | |[|]]; cbn;
    repeat match goal with
    | |- context [eqz ?a ?b] => pose proof (eqz_bounds a b); generalize dependent (eqz a b); intros
    end; lia.
Qed.

(** *** The words *)

Lemma mask_count r : Z.land r REFS_MASK = r `mod` 2 ^ 31.
Proof. change REFS_MASK with (Z.ones 31). by apply Z.land_ones. Qed.

Lemma flag_clear r : 0 <= r < 2 ^ 31 -> Z.land r SHOULD_BE_ON_FREELIST = 0.
Proof.
  intros Hr. rewrite <- (wrap_small 31 r) by done. change SHOULD_BE_ON_FREELIST with (1 ≪ 31).
  apply Z.bits_inj'. intros i Hi. autorewrite with bits. destruct (Z.ltb_spec i 31); cbn; [|done].
  rewrite (Z.testbit_neg_r 1) by lia. btauto.
Qed.

Lemma fetch_add_small s n d :
  0 <= refs s n + d < 2 ^ 32 -> fetch_add n d s = (refs s n, set_refs n (refs s n + d) s).
Proof. intros Hr. unfold fetch_add. rewrite wrap_add_r. by rewrite wrap_small. Qed.

(** ** Each step keeps the nodes right *)

(** The sums over all threads that one step of a thread changes. *)
Section Step.
Context (u : nat -> Z) (C A O K R : nat -> Z) (most : Z).
Hypothesis clients_once : forall n, u n <= 1.
Hypothesis few : most < 2 ^ 31 - 2.
Hypothesis counted_few : forall n, C n <= most.

Definition nodes_ok (s : FreeList) (own l : list nat) (d : nat -> Z * Z * Z * Z * Z) : Prop :=
  forall n, let '(c, a, o, k, r) := d n in
  node_ok (u n) (zcount n l) (zcount n own + (R n + r)) (A n + a) (O n + o) (K n + k) (C n + c) (refs s n).

Definition change (p p' : pc) (n : nat) : Z * Z * Z * Z * Z :=
  (counted n p' - counted n p, adding n p' - adding n p, offering n p' - offering n p,
   taking n p' - taking n p, carrying n p' - carrying n p).

(** The thread [p] and any other thread [p2] are within the sums. *)
Definition within (p : pc) : Prop :=
  forall n, counted n p <= C n /\ adding n p <= A n /\ offering n p <= O n /\ taking n p <= K n /\
            carrying n p <= R n.
Definition both_within (p p2 : pc) : Prop :=
  forall n, counted n p + counted n p2 <= C n /\ adding n p + adding n p2 <= A n /\
            offering n p + offering n p2 <= O n.

Definition kept (p p' : pc) (s' : FreeList) (own' : list nat) : Prop :=
  exists l', chain s' (freeListHead s') l' /\ nodes_ok s' own' l' (change p p') /\ pc_ok s' p'.


Context (nonneg : forall n, 0 <= C n /\ 0 <= A n /\ 0 <= O n /\ 0 <= K n /\ 0 <= R n).

(** The node [m] is the only one a step touches. *)
#[local] Ltac at_node m :=
  let n := fresh "n" in intros n; unfold nodes_ok, change, within in *;
  repeat match goal with
  | H : forall n : nat, _ |- _ => specialize (H n)
  end;
  cbn [counted adding offering taking carrying] in *;
  destruct (decide (m = n)) as [<-|];
  [rewrite ?eqz_same in *|rewrite ?eqz_other in * by done].
#[local] Ltac node_case :=
  unfold node_ok in *;
  match goal with
  | H : exists w, _ |- _ => let w := fresh "w" in destruct H as (w & ?);
      first [exists w; lia|exists (w + 1); lia|exists (w - 1); lia]
  end.

Abbreviation unchanged := (fun _ => (0, 0, 0, 0, 0)).

(** What a step at node [m] has to show of [m]. *)
Definition node_kept (own l own' l' : list nat) (p p' : pc) (m : nat) (r r' : Z) : Prop :=
  node_ok (u m) (zcount m l) (zcount m own + R m) (A m) (O m) (K m) (C m) r ->
  node_ok (u m) (zcount m l') (zcount m own' + (R m + (carrying m p' - carrying m p)))
    (A m + (adding m p' - adding m p)) (O m + (offering m p' - offering m p))
    (K m + (taking m p' - taking m p)) (C m + (counted m p' - counted m p)) r'.

(** A step at [m] with what it does to the count of [m]; the other nodes. *)
Lemma at_node_kept s s' own l own' l' p p' m :
  nodes_ok s own l unchanged ->
  (forall n, n <> m -> change p p' n = (0, 0, 0, 0, 0) /\ zcount n own' = zcount n own /\
                      zcount n l' = zcount n l /\ refs s' n = refs s n) ->
  node_kept own l own' l' p p' m (refs s m) (refs s' m) ->
  nodes_ok s' own' l' (change p p').
Proof.
  intros Hn Hother Hm n. destruct (decide (n = m)) as [->|Hne].
  - apply Hm. specialize (Hn m). cbn in Hn. by rewrite !Z.add_0_r in Hn.
  - destruct (Hother n Hne) as (-> & -> & -> & ->). exact (Hn n).
Qed.

(** A step that only changes the count of [m]. *)
Lemma count_kept s own l p p' m r :
  chain s (freeListHead s) l -> nodes_ok s own l unchanged -> pc_ok s p' ->
  (forall n, n <> m -> change p p' n = (0, 0, 0, 0, 0)) ->
  node_kept own l own l p p' m (refs s m) r ->
  kept p p' (set_refs m r s) own.
Proof.
  intros Hc Hn Hp Hother Hm. exists l. split; [|split].
  - eapply chain_ext; [|exact Hc]. intros. apply next_set_refs.
  - eapply at_node_kept; [exact Hn| |].
    + intros n Hne. rewrite refs_set_refs, decide_False by done. auto.
    + by rewrite refs_set_refs, decide_True by done.
  - destruct p'; cbn in *; rewrite ?next_set_refs; done.
Qed.

(** A step that leaves the memory alone. *)
Lemma list_moved_kept s own own' l p p' m :
  chain s (freeListHead s) l -> nodes_ok s own l unchanged -> pc_ok s p' ->
  (forall n, n <> m -> change p p' n = (0, 0, 0, 0, 0) /\ zcount n own' = zcount n own) ->
  node_kept own l own' l p p' m (refs s m) (refs s m) ->
  kept p p' s own'.
Proof.
  intros Hc Hn Hp Hother Hm. exists l. split; [done|]. split; [|done].
  eapply at_node_kept; [exact Hn| |exact Hm]. intros n Hne. by destruct (Hother n Hne) as [-> ->].
Qed.

#[local] Ltac weigh :=
  intros; unfold change; cbn [counted adding offering taking carrying back loop_at];
  rewrite ?eqz_same; rewrite ?eqz_other by done; rewrite ?Z.sub_diag; try done.
(** What is known of [m] before a step of [p], for [lia]. *)
#[local] Ltac know m :=
  pose proof (nonneg m); pose proof (clients_once m); pose proof (counted_few m);
  pose proof (zcount_nonneg m).
#[local] Ltac node_done :=
  unfold node_kept, node_ok; weigh;
  match goal with
  | H : exists w, _ |- _ => let w := fresh "w" in destruct H as (w & ?);
      first [exists w; lia|exists (w + 1); lia|exists (w - 1); lia]
  end.

Lemma add_fetch_kept s own l n :
  chain s (freeListHead s) l -> nodes_ok s own l unchanged -> within (AddFetch n) ->
  exists old s', fetch_add n SHOULD_BE_ON_FREELIST s = (old, s') /\
  kept (AddFetch n) (if old =? 0 then PutLoadHead n FromAdd else Idle) s' own.
Proof.
  intros Hc Hn Hw. know n.
  assert (refs s n = C n) as Er.
  { specialize (Hn n). specialize (Hw n). cbn in Hw. rewrite eqz_same in Hw.
    pose proof (zcount_nonneg n l). pose proof (zcount_nonneg n own). destruct Hn as (w & ?). lia. }
  rewrite fetch_add_small by (unfold SHOULD_BE_ON_FREELIST; lia). do 2 eexists. split; [reflexivity|].
  specialize (Hw n). cbn in Hw. rewrite eqz_same in Hw.
  pose proof (zcount_nonneg n l). pose proof (zcount_nonneg n own). unfold SHOULD_BE_ON_FREELIST.
  rewrite Er. destruct (Z.eqb_spec (C n) 0); (eapply count_kept; [done|done|done|weigh|]); node_done.
Qed.

Lemma get_cas_refs_kept s own l head r :
  chain s (freeListHead s) l -> nodes_ok s own l unchanged -> pc_ok s (GetCasRefs head r) ->
  refs s head = r -> kept (GetCasRefs head r) (GetLoadNext head) (set_refs head (wrap 32 (r + 1)) s) own.
Proof.
  intros Hc Hn [Hm Hr] Er. know head. rewrite mask_count in Hm.
  pose proof (zcount_nonneg head l). pose proof (zcount_nonneg head own).
  assert (exists w, 0 <= w <= 1 /\ r = 2 ^ 31 * w + (r - 2 ^ 31 * w) /\ 0 < r - 2 ^ 31 * w <= most + 1) as (w & Hw).
  { specialize (Hn head). destruct Hn as (w & ?). exists (w + A head). 
    destruct (decide (r = 2 ^ 31)) as [->|]; [done|]. destruct (decide (r = 0)) as [->|]; [done|]. lia. }
  rewrite wrap_small by (split; lia).
  eapply count_kept; [done|done|done|weigh|]. node_done.
Qed.

Lemma get_cas_head_kept s own l head nxt :
  chain s (freeListHead s) l -> nodes_ok s own l unchanged -> next s head = nxt -> within (GetCasHead head nxt) ->
  freeListHead s = Some head -> kept (GetCasHead head nxt) (GetAssert head) (set_head nxt s) own.
Proof.
  intros Hc Hn <- Hw Eh. know head. rewrite Eh in Hc. destruct l as [|n l]; [done|].
  destruct Hc as [[= <-] Hc]. exists l. split; [|split; [|done]].
  - by apply (chain_ext s).
  - eapply (at_node_kept s _ own (head :: l) own l _ _ head); [exact Hn| |].
    + weigh. rewrite zcount_cons, eqz_other by done. done.
    + specialize (Hw head). cbn in Hw. rewrite eqz_same in Hw.
      unfold node_kept. rewrite zcount_cons, eqz_same. change (refs (set_head _ s) head) with (refs s head).
      pose proof (zcount_nonneg head l). pose proof (zcount_nonneg head own). node_done.
Qed.

Lemma get_release1_kept s own l prev head :
  chain s (freeListHead s) l -> nodes_ok s own l unchanged -> within (GetRelease1 prev head) ->
  exists old s', fetch_add prev (-1) s = (old, s') /\
  kept (GetRelease1 prev head)
    (if old =? SHOULD_BE_ON_FREELIST + 1 then PutLoadHead prev (FromTryGet head) else loop_at head) s' own.
Proof.
  intros Hc Hn Hw. know prev. specialize (Hw prev). cbn in Hw. rewrite eqz_same in Hw.
  pose proof (zcount_nonneg prev l). pose proof (zcount_nonneg prev own).
  assert (1 <= refs s prev < 2 ^ 32 - 1).
  { specialize (Hn prev). destruct Hn as (w & ?). lia. }
  rewrite fetch_add_small by lia. do 2 eexists. split; [reflexivity|]. unfold SHOULD_BE_ON_FREELIST.
  destruct (Z.eqb_spec (refs s prev) (2147483648 + 1)) as [Er|Er].
  - eapply count_kept; [done|done|done|weigh|]. rewrite Er. node_done.
  - destruct head; cbn [loop_at]; (eapply count_kept; [done|done|done|weigh|]); node_done.
Qed.

Lemma get_release2_kept s own l head :
  chain s (freeListHead s) l -> nodes_ok s own l unchanged -> within (GetRelease2 head) ->
  kept (GetRelease2 head) (Returning (Some head)) (fetch_add head (-2) s).2 own.
Proof.
  intros Hc Hn Hw. know head. specialize (Hw head). cbn in Hw. rewrite eqz_same in Hw.
  pose proof (zcount_nonneg head l). pose proof (zcount_nonneg head own).
  assert (2 <= refs s head < 2 ^ 31).
  { specialize (Hn head). destruct Hn as (w & ?). lia. }
  rewrite fetch_add_small by lia. eapply count_kept; [done|done|done|weigh|]. node_done.
Qed.

Lemma get_assert_holds s own l head :
  nodes_ok s own l unchanged -> within (GetAssert head) ->
  Z.land (refs s head) SHOULD_BE_ON_FREELIST = 0.
Proof.
  intros Hn Hw. know head. specialize (Hw head). cbn in Hw. rewrite eqz_same in Hw. apply flag_clear.
  pose proof (zcount_nonneg head l). pose proof (zcount_nonneg head own).
  specialize (Hn head). destruct Hn as (w & ?). lia.
Qed.

Lemma put_store_next_kept s own l n head k :
  chain s (freeListHead s) l -> nodes_ok s own l unchanged -> within (PutStoreNext n head k) ->
  kept (PutStoreNext n head k) (PutStoreRefs n head k) (set_next n head s) own.
Proof.
  intros Hc Hn Hw. know n. exists l. split; [|split].
  - eapply chain_ext; [|exact Hc]. intros m Hm. rewrite next_set_next, decide_False; [done|].
    intros <-. apply zcount_elem in Hm. specialize (Hw n). cbn in Hw. rewrite eqz_same in Hw.
    pose proof (zcount_nonneg n own). specialize (Hn n). destruct Hn as (w & ?). lia.
  - eapply (at_node_kept s _ own l own l _ _ n); [exact Hn| |].
    + weigh. by rewrite refs_set_next.
    + rewrite refs_set_next. node_done.
  - cbn. by rewrite next_set_next, decide_True.
Qed.

Lemma put_store_refs_kept s own l n head k :
  chain s (freeListHead s) l -> nodes_ok s own l unchanged -> within (PutStoreRefs n head k) ->
  next s n = head -> kept (PutStoreRefs n head k) (PutCasHead n head k) (set_refs n 1 s) own.
Proof.
  intros Hc Hn Hw En. know n. specialize (Hw n). cbn in Hw. rewrite eqz_same in Hw.
  pose proof (zcount_nonneg n l). pose proof (zcount_nonneg n own).
  eapply count_kept; [done|done|done|weigh|]. node_done.
Qed.

Lemma put_cas_head_kept s own l n head k :
  chain s (freeListHead s) l -> nodes_ok s own l unchanged -> within (PutCasHead n head k) ->
  next s n = head -> freeListHead s = head -> kept (PutCasHead n head k) (back k) (set_head (Some n) s) own.
Proof.
  intros Hc Hn Hw En Eh. know n. exists (n :: l). split; [|split].
  - split; [done|]. change (next (set_head _ s) n) with (next s n). rewrite En, <- Eh. by apply (chain_ext s).
  - eapply (at_node_kept s _ own l own (n :: l) _ _ n); [exact Hn| |].
    + intros m Hne. rewrite zcount_cons, eqz_other by done. destruct k as [|[|]]; weigh.
    + unfold node_kept. rewrite zcount_cons, eqz_same. change (refs (set_head _ s) n) with (refs s n).
      destruct k as [|[|]]; node_done.
  - by destruct k as [|[|]].
Qed.

Lemma put_release_kept s own l n head k :
  chain s (freeListHead s) l -> nodes_ok s own l unchanged -> within (PutRelease n head k) ->
  exists old s', fetch_add n (SHOULD_BE_ON_FREELIST - 1) s = (old, s') /\
  kept (PutRelease n head k) (if old =? 1 then PutStoreNext n head k else back k) s' own.
Proof.
  intros Hc Hn Hw. know n. specialize (Hw n). cbn in Hw. rewrite eqz_same in Hw.
  pose proof (zcount_nonneg n l). pose proof (zcount_nonneg n own).
  assert (refs s n = 1 + C n) as Er.
  { specialize (Hn n). destruct Hn as (w & ?). lia. }
  unfold SHOULD_BE_ON_FREELIST. rewrite fetch_add_small by lia. do 2 eexists. split; [reflexivity|].
  destruct (Z.eqb_spec (refs s n) 1) as [E|E].
  - eapply count_kept; [done|done|done|weigh|]. rewrite E. node_done.
  - destruct k as [|[|]]; cbn [back loop_at]; (eapply count_kept; [done|done|done|weigh|]); node_done.
Qed.

(** A step that leaves the memory, the nodes of the thread and those of its
    client as they are. *)
Lemma silent_kept s own l p p' :
  chain s (freeListHead s) l -> nodes_ok s own l unchanged -> pc_ok s p' ->
  (forall n, change p p' n = (0, 0, 0, 0, 0)) -> kept p p' s own.
Proof.
  intros Hc Hn Hp Hch. exists l. split; [done|]. split; [|done]. intros n. rewrite Hch. exact (Hn n).
Qed.

Lemma client_kept s own own' l p p' ch :
  chain s (freeListHead s) l -> nodes_ok s own l unchanged ->
  client ch p own = Some own' -> step ch p s = Next (p', s) ->
  (exists n, p = Idle /\ ch = CallAdd n) \/ (exists r, p = Returning r /\ ch = Go) -> kept p p' s own'.
Proof.
  intros Hc Hn Hcl Hs [(n & -> & ->)|(r & -> & ->)]; cbn in *.
  - injection Hs as <-. eapply (list_moved_kept s own own' l _ _ n); [done|done|done| |].
    + weigh. split; [done|]. rewrite (hand_over_count n own own' _ Hcl), eqz_other by done. lia.
    + unfold node_kept. rewrite (hand_over_count n own own' n Hcl), eqz_same. node_done.
  - injection Hs as <-. destruct r as [m|]; injection Hcl as <-.
    + eapply (list_moved_kept s own _ l _ _ m); [done|done|done| |].
      * weigh. by rewrite zcount_cons, eqz_other by done.
      * unfold node_kept. rewrite zcount_cons, eqz_same. node_done.
    + apply (silent_kept s own l); [done|done|done|weigh].
Qed.

(** No assertion fails, and every step keeps the nodes. *)
Lemma list_step_kept s own own' l p ch :
  chain s (freeListHead s) l -> nodes_ok s own l unchanged -> within p -> pc_ok s p ->
  (forall r, 0 <= refs s r < 2 ^ 32) ->
  client ch p own = Some own' ->
  step ch p s = Disabled \/ exists p' s', step ch p s = Next (p', s') /\ kept p p' s' own'.
Proof.
  intros Hc Hn Hw Hp Hr Hcl.
  destruct p as [|n| |h|h r|h|h x|h|h|h x|n k|n h k|n h k|n h k|n h k|r], ch as [m| |];
    try (left; reflexivity); right; cbn [client] in Hcl.
  1: eexists _, _; split; [reflexivity|];
     eapply (client_kept _ _ _ _ _ _ (CallAdd m)); [done|done|done|done|left; by exists m].
  16: eexists _, _; split; [reflexivity|];
     eapply (client_kept _ _ _ _ _ _ Go); [done|done|done|done|right; by exists r].
  all: injection Hcl as <-; cbn [step].
  - do 2 eexists. split; [reflexivity|]. apply (silent_kept s own l); [done|done|done|weigh].
  - edestruct add_fetch_kept as (old & s' & -> & Hk); [done..|]. eauto.
  - do 2 eexists. split; [reflexivity|]. destruct (freeListHead s) eqn:Eh; cbn [loop_at];
      (apply (silent_kept s own l); [by rewrite Eh|done|done|weigh]).
  - destruct (Z.eqb_spec (Z.land (refs s h) REFS_MASK) 0); do 2 eexists; (split; [reflexivity|]);
      (apply (silent_kept s own l); [done|done| |weigh]); [done|]. split; [done|]. apply Hr.
  - destruct (Z.eqb_spec (refs s h) r); do 2 eexists; (split; [reflexivity|]);
      [by eapply get_cas_refs_kept|]. apply (silent_kept s own l); [done|done|done|weigh].
  - do 2 eexists. split; [reflexivity|]. apply (silent_kept s own l); [done|done|done|weigh].
  - destruct (decide (freeListHead s = Some h)); do 2 eexists; (split; [reflexivity|]);
      [by eapply get_cas_head_kept|]. apply (silent_kept s own l); [done|done|done|weigh].
  - rewrite (get_assert_holds s own l h) by done. do 2 eexists. split; [reflexivity|].
    apply (silent_kept s own l); [done|done|done|weigh].
  - do 2 eexists. split; [reflexivity|]. by eapply get_release2_kept.
  - edestruct get_release1_kept as (old & s' & -> & Hk); [done..|]. eauto.
  - do 2 eexists. split; [reflexivity|]. apply (silent_kept s own l); [done|done|done|weigh].
  - do 2 eexists. split; [reflexivity|]. by eapply put_store_next_kept.
  - do 2 eexists. split; [reflexivity|]. by eapply put_store_refs_kept.
  - destruct (decide (freeListHead s = h)); do 2 eexists; (split; [reflexivity|]);
      [by eapply put_cas_head_kept|]. apply (silent_kept s own l); [done|done|done|weigh].
  - edestruct put_release_kept as (old & s' & -> & Hk); [done..|]. eauto.
Qed.

(** The memory of another thread. *)
Lemma other_kept s own l ch p p' s' p2 :
  nodes_ok s own l unchanged -> both_within p p2 -> step ch p s = Next (p', s') -> pc_ok s p2 -> pc_ok s' p2.
Proof.
  intros Hn Hb Hs Hp2.
  assert ((forall n, next s' n = next s n) \/ exists n h k, p = PutStoreNext n h k /\ s' = set_next n h s)
    as [Hnext|(n & h & k & -> & ->)].
  { destruct p, ch; try discriminate Hs; cbn in Hs;
      repeat match type of Hs with context [if ?b then _ else _] => destruct b end; try discriminate Hs;
      injection Hs as <- <-; try (left; intros; first [done|apply next_set_refs]; fail).
    right. eauto. }
  - destruct p2; cbn in *; rewrite ?Hnext; done.
  - specialize (Hn n). specialize (Hb n). know n. cbn in Hb. rewrite eqz_same in Hb.
    destruct Hn as (w & Hw). pose proof (zcount_nonneg n l). pose proof (zcount_nonneg n own).
    destruct p2 as [| | | | | |m| | | | | |m|m| |]; cbn in *; try done;
      (rewrite next_set_next, decide_False; [done|]; intros <-; rewrite ?eqz_same in Hb; lia).
Qed.

End Step.
(** ** Every run *)

Lemma weight_nonneg n : (forall p, 0 <= counted n p) /\ (forall p, 0 <= adding n p) /\
  (forall p, 0 <= offering n p) /\ (forall p, 0 <= taking n p) /\ (forall p, 0 <= carrying n p).
Proof. repeat split; intros p; pose proof (weight_bounds n p); lia. Qed.

Lemma sums_nonneg n (ps : list pc) :
  0 <= zsum (counted n) ps /\ 0 <= zsum (adding n) ps /\ 0 <= zsum (offering n) ps /\
  0 <= zsum (taking n) ps /\ 0 <= zsum (carrying n) ps.
Proof.
  destruct (weight_nonneg n) as (a & b & c & d & e).
  repeat split; apply zsum_nonneg, Forall_forall; auto.
Qed.

Lemma counted_most n ps : zsum (counted n) ps <= Z.of_nat (length ps).
Proof. apply zsum_bounds. intros p. pose proof (weight_bounds n p). lia. Qed.

Lemma refs_range clients q l r :
  NoDup clients -> Z.of_nat (length (threads q)) < 2 ^ 31 - 2 -> inv clients q l ->
  0 <= refs (memory q) r < 2 ^ 32.
Proof.
  intros Hnd Hlen [_ Hn _]. destruct (Hn r) as (w & ?). pose proof (sums_nonneg r (threads q)).
  pose proof (counted_most r (threads q)). pose proof (zcount_nonneg r l). pose proof (zcount_nonneg r (owned q)).
  pose proof (proj1 (zcount_nodup clients) Hnd r). lia.
Qed.

Lemma list_turn_inv clients q l i ch :
  NoDup clients -> Z.of_nat (length (threads q)) < 2 ^ 31 - 2 -> inv clients q l ->
  turn i ch q = Disabled \/
  exists q' l', turn i ch q = Next q' /\ inv clients q' l' /\ length (threads q') = length (threads q).
Proof.
  intros Hnd Hlen Hinv. pose proof (fun r => refs_range clients q l r Hnd Hlen Hinv) as Hr.
  destruct Hinv as [Hc Hn Hp]. unfold turn.
  destruct (threads q !! i) as [p|] eqn:Ei; [|by left].
  destruct (client ch p (owned q)) as [own'|] eqn:Ecl; [|by left].
  pose proof (proj1 (Forall_forall _ _) Hp p (list_elem_of_lookup_2 _ _ _ Ei)) as Hpi.
  edestruct (list_step_kept (fun n => zcount n clients) (fun n => zsum (counted n) (threads q))
    (fun n => zsum (adding n) (threads q)) (fun n => zsum (offering n) (threads q))
    (fun n => zsum (taking n) (threads q)) (fun n => zsum (carrying n) (threads q)) (Z.of_nat (length (threads q))))
    as [->|(p' & s' & Es & l' & Hc' & Hn' & Hp')];
    [by apply zcount_nodup|exact Hlen|intros; apply counted_most|intros n; apply sums_nonneg
    |exact Hc| | |exact Hpi|exact Hr|exact Ecl|by left|].
  - intros n. cbn. rewrite !Z.add_0_r. apply Hn.
  - intros n. destruct (weight_nonneg n) as (a & b & c & d & e).
    repeat split; (eapply zsum_member; [|exact Ei]); apply Forall_forall; auto.
  - right. rewrite Es. do 2 eexists. split; [reflexivity|]. split; [|apply length_insert].
    split; cbn; [exact Hc'| |].
    + intros n. rewrite !(zsum_insert _ _ _ _ _ Ei). specialize (Hn' n). cbn in Hn'.
      rewrite !Z.add_sub_assoc in Hn'.
      replace (zsum (carrying n) (threads q) - carrying n p + carrying n p')
        with (zsum (carrying n) (threads q) + (carrying n p' - carrying n p)) by lia.
      unfold node_ok in *. destruct Hn' as (w & ?). exists w. lia.
    + apply Forall_lookup. intros j p2 Hj. destruct (decide (i = j)) as [<-|Hne].
      * rewrite list_lookup_insert_eq in Hj by (by eapply lookup_lt_Some). by injection Hj as <-.
      * rewrite list_lookup_insert_ne in Hj by done.
        eapply (other_kept (fun n => zcount n clients) (fun n => zsum (counted n) (threads q))
          (fun n => zsum (adding n) (threads q)) (fun n => zsum (offering n) (threads q))
          (fun n => zsum (taking n) (threads q)) (fun n => zsum (carrying n) (threads q))
          (Z.of_nat (length (threads q)))); [by apply zcount_nodup|intros; apply counted_most|intros n; apply sums_nonneg
          | | |exact Es|].
        -- intros n. cbn. rewrite !Z.add_0_r. apply Hn.
        -- intros n. destruct (weight_nonneg n) as (a & b & c & d & e).
           repeat split; eapply zsum_two; eauto.
        -- exact (proj1 (Forall_lookup _ _) Hp j p2 Hj).
Qed.

Lemma list_run_inv clients schedule q l :
  NoDup clients -> Z.of_nat (length (threads q)) < 2 ^ 31 - 2 -> inv clients q l ->
  run schedule q = Disabled \/
  exists q' l', run schedule q = Next q' /\ inv clients q' l' /\ length (threads q') = length (threads q).
Proof.
  intros Hnd. revert q l. induction schedule as [|[i ch] schedule IH]; intros q l Hlen Hinv; cbn [run].
  - right. eauto.
  - destruct (list_turn_inv clients q l i ch Hnd Hlen Hinv) as [->|(q1 & l1 & -> & Hinv1 & Elen)]; [by left|].
    destruct (IH q1 l1) as [E|(q2 & l2 & E & Hinv2 & Elen2)]; [by rewrite Elen|done|by left|].
    right. exists q2, l2. by rewrite <- Elen.
Qed.

Lemma list_construct_inv clients n : inv clients (construct clients n) [].
Proof.
  split; cbn; [done| |].
  - intros m. rewrite !zsum_repeat by done. exists 0. pose proof (zcount_nonneg m clients).
    change (refs _ m) with 0. change (zcount m []) with 0. lia.
  - apply Forall_forall. intros p Hp. apply list_elem_of_In, repeat_spec in Hp. by subst.
Qed.

(** Runs that have not come to a stop, from the beginning. *)
Lemma run_construct clients n schedule :
  NoDup clients -> Z.of_nat n < 2 ^ 31 - 2 ->
  run schedule (construct clients n) = Disabled \/
  exists q l, run schedule (construct clients n) = Next q /\ inv clients q l /\ length (threads q) = n.
Proof.
  intros Hnd Hn. assert (length (threads (construct clients n)) = n) as Hlen by apply repeat_length.
  destruct (list_run_inv clients schedule (construct clients n) []) as [E|(q & l & E & Hinv & El)];
    [done|lia|apply list_construct_inv|by left|]. right. exists q, l. rewrite El. auto.
Qed.

(** The node that a thread has to itself. *)
Definition holding (p : pc) : option nat :=
  match p with
  | AddFetch m | GetAssert m | GetRelease2 m | PutLoadHead m _ | PutStoreNext m _ _ | PutStoreRefs m _ _
  | PutCasHead m _ _ | PutRelease m _ _ | Returning (Some m) => Some m
  | _ => None
  end.

Lemma zcount_holding n ps :
  zcount n (omap holding ps) =
  zsum (adding n) ps + zsum (offering n) ps + zsum (taking n) ps + zsum (carrying n) ps.
Proof.
  induction ps as [|p ps IH]; [done|]. rewrite !zsum_cons.
  destruct p as [| | | | | | | | | | | | | | |[|]]; cbn [omap list_omap holding];
    rewrite ?zcount_cons, IH; cbn; lia.
Qed.

(** C18: no node is in two places. Whatever the threads do, no assertion
    fails; the nodes on the list, with the clients, and with the threads that
    add or take one are all different and belong to the clients. So [try_get]
    never gives a node to two callers, nor one that is still on the list, in
    spite of the heads that threads remember (the ABA problem). *)
Theorem nodes_in_one_place clients n schedule :
  NoDup clients -> Z.of_nat n < 2 ^ 31 - 2 ->
  run schedule (construct clients n) <> AssertionFailed /\
  forall q, run schedule (construct clients n) = Next q ->
  exists l, chain (memory q) (freeListHead (memory q)) l /\
    let places := l ++ owned q ++ omap holding (threads q) in NoDup places /\ places ⊆ clients.
Proof.
  intros Hnd Hn. destruct (run_construct clients n schedule Hnd Hn) as [->|(q & l & -> & Hinv & _)]; [done|].
  split; [done|]. intros q' [= <-]. exists l. split; [apply Hinv|]. cbn zeta.
  assert (forall m, zcount m (l ++ owned q ++ omap holding (threads q)) <= zcount m clients) as Hle.
  { intros m. rewrite !zcount_app, zcount_holding. destruct (inv_node _ _ _ Hinv m) as (w & ?). lia. }
  split.
  - apply zcount_nodup. intros m. pose proof (proj1 (zcount_nodup clients) Hnd m). specialize (Hle m). lia.
  - intros m. rewrite !zcount_elem. specialize (Hle m). lia.
Qed.

Definition churn : list (nat * choice) :=
  [(0, CallAdd 5); (0, Go); (0, Go); (0, Go); (0, Go); (0, Go);   (* 5 is on the list *)
   (1, CallTryGet); (1, Go); (1, Go); (1, Go); (1, Go);           (* thread 1 has counted it *)
   (2, CallTryGet); (2, Go); (2, Go); (2, Go); (2, Go); (2, Go); (2, Go); (2, Go); (2, Go);
   (2, CallAdd 5); (2, Go);                                        (* taken, and given back meanwhile *)
   (1, Go); (1, Go)]%nat.

Lemma nodes_in_one_place_witness :
  exists q, run churn (construct [5; 6]%nat 3) = Next q /\
  exists l, chain (memory q) (freeListHead (memory q)) l /\
    NoDup (l ++ owned q ++ omap holding (threads q)) /\ l = [] /\ omap holding (threads q) = [5%nat].
Proof.
  eexists. split; [by vm_compute|].
  destruct (nodes_in_one_place [5; 6]%nat 3 churn) as [_ H]; [by apply (bool_decide_unpack _)|done|].
  edestruct H as (l & Hl & Hnd & _); [by vm_compute|]. exists l. split; [done|]. split; [done|].
  destruct l; [done|]. by destruct Hl.
Defined.

(** nothing is lost. When no call is under way, the nodes on the list
    and those with the clients are exactly the nodes there are, and the count
    of a node is 1 on the list and 0 off it. *)
Theorem nodes_conserved clients n schedule q :
  NoDup clients -> Z.of_nat n < 2 ^ 31 - 2 -> run schedule (construct clients n) = Next q ->
  Forall (eq Idle) (threads q) ->
  exists l, chain (memory q) (freeListHead (memory q)) l /\ l ++ owned q ≡ₚ clients /\
    forall m, refs (memory q) m = if decide (m ∈ l) then 1 else 0.
Proof.
  intros Hnd Hn Hrun Hidle.
  destruct (run_construct clients n schedule Hnd Hn) as [E|(q' & l & E & Hinv & _)];
    rewrite Hrun in E; [done|]. injection E as <-.
  assert (forall f : pc -> Z, f Idle = 0 -> zsum f (threads q) = 0) as Hz.
  { intros f Hf. apply zsum_zero. eapply Forall_impl; [exact Hidle|]. by intros ? <-. }
  assert (forall m, zcount m l + zcount m (owned q) = zcount m clients /\ refs (memory q) m = zcount m l) as Hm.
  { intros m. destruct (inv_node _ _ _ Hinv m) as (w & Hw). rewrite !Hz in Hw by done.
    pose proof (proj1 (zcount_nodup clients) Hnd m). pose proof (zcount_nonneg m l).
    pose proof (zcount_nonneg m (owned q)). lia. }
  exists l. split; [apply Hinv|]. split.
  - apply NoDup_Permutation; [|done|].
    + apply zcount_nodup. intros m. rewrite zcount_app, (proj1 (Hm m)). by apply zcount_nodup.
    + intros m. rewrite !zcount_elem, zcount_app, (proj1 (Hm m)). done.
  - intros m. destruct (Hm m) as [Ec ->]. pose proof (proj1 (zcount_nodup clients) Hnd m).
    pose proof (zcount_nonneg m l). pose proof (zcount_nonneg m (owned q)).
    case_decide as Hin; rewrite zcount_elem in Hin; lia.
Qed.

Lemma nodes_conserved_witness :
  let fin := churn ++ repeat (1, Go)%nat 5 in
  exists q, run fin (construct [5; 6]%nat 3) = Next q /\
  exists l, chain (memory q) (freeListHead (memory q)) l /\ l ++ owned q ≡ₚ [5; 6]%nat.
Proof.
  intros fin. eexists. split; [by vm_compute|].
  edestruct (nodes_conserved [5; 6]%nat 3 fin) as (l & Hl & Hp & _);
    [by apply (bool_decide_unpack _)|done|by vm_compute|by vm_compute; repeat constructor|].
  exists l. by split.
Defined.

(** ** A thread that runs alone *)

Fixpoint alone (k : nat) (p : pc) (s : FreeList) (own : list nat) : result (pc * FreeList * list nat) :=
  match k with
  | O => Next (p, s, own)
  | S k =>
      match step Go p s, client Go p own with
      | Next (p', s'), Some own' => alone k p' s' own'
      | AssertionFailed, _ => AssertionFailed
      | _, _ => Disabled
      end
  end.

Lemma list_run_alone k i q p p' s' own' :
  threads q !! i = Some p -> alone k p (memory q) (owned q) = Next (p', s', own') ->
  run (repeat (i, Go) k) q = Next (mk (<[i := p']> (threads q)) s' own').
Proof.
  revert q p. induction k as [|k IH]; intros q p Hi; cbn [alone repeat run].
  - intros [= -> <- <-]. rewrite list_insert_id by done. by destruct q.
  - unfold turn. rewrite Hi. destruct (step Go p (memory q)) as [| |[p1 s1]]; [done..|].
    destruct (client Go p (owned q)) as [own1|]; [|done]. intros Ha.
    rewrite (IH (mk (<[i := p1]> (threads q)) s1 own1) p1); cbn; [| |done].
    + by rewrite list_insert_insert_eq.
    + apply list_lookup_insert_eq. by eapply lookup_lt_Some.
Qed.

(** The memory after a thread has taken [h] on its own. *)
Definition after_try_get (h : nat) (s : FreeList) : FreeList :=
  set_refs h (refs s h + 1 - 2) (set_head (next s h) (set_refs h (refs s h + 1) s)).

Lemma try_get_steps s own h :
  freeListHead s = Some h -> 1 <= refs s h < 2 ^ 31 - 1 ->
  alone 8 GetLoadHead s own = Next (Idle, after_try_get h s, h :: own).
Proof.
  intros Eh Hr. cbn [alone step client]. rewrite Eh.
  cbn [loop_at alone step client]. rewrite mask_count, Z.mod_small by lia.
  rewrite (proj2 (Z.eqb_neq _ _)) by lia. cbn [alone step client]. rewrite Z.eqb_refl.
  cbn [alone step client]. rewrite wrap_small by (split; lia). rewrite next_set_refs.
  rewrite decide_True by done. cbn [alone step client].
  change (refs (set_head ?x ?y) h) with (refs y h). rewrite refs_set_refs, decide_True by done.
  rewrite flag_clear by lia. cbn [alone step client Z.eqb].
  rewrite fetch_add_small by (change (refs (set_head ?x ?y) h) with (refs y h);
    rewrite refs_set_refs, decide_True by done; lia).
  cbn [snd]. change (refs (set_head ?x ?y) h) with (refs y h). by rewrite refs_set_refs, decide_True.
Qed.

Lemma head_counted clients q l h :
  NoDup clients -> Z.of_nat (length (threads q)) < 2 ^ 31 - 2 -> inv clients q l ->
  freeListHead (memory q) = Some h -> 1 <= refs (memory q) h < 2 ^ 31 - 1.
Proof.
  intros Hnd Hn [Hc Hnode _] Eh. destruct (Hnode h) as (w & Hw).
  rewrite Eh in Hc. destruct l as [|m l]; [done|]. destruct Hc as [[= ->] _].
  rewrite zcount_cons, eqz_same in Hw. pose proof (sums_nonneg m (threads q)).
  pose proof (counted_most m (threads q)). pose proof (zcount_nonneg m l).
  pose proof (zcount_nonneg m (owned q)). pose proof (proj1 (zcount_nodup clients) Hnd m). lia.
Qed.

(** [try_get] is obstruction-free. In any state the program can get to, a
    thread that calls it and runs alone returns after at most nine steps, with
    the first node of the list, and with no node only if the list is empty. *)
Theorem try_get_alone clients n schedule q i :
  NoDup clients -> Z.of_nat n < 2 ^ 31 - 2 -> run schedule (construct clients n) = Next q ->
  threads q !! i = Some Idle ->
  exists k q', (k <= 8)%nat /\ run ((i, CallTryGet) :: repeat (i, Go) k) q = Next q' /\
    threads q' = threads q /\
    match freeListHead (memory q) with
    | None => owned q' = owned q /\ freeListHead (memory q') = None
    | Some h => owned q' = h :: owned q /\ freeListHead (memory q') = next (memory q) h
    end.
Proof.
  intros Hnd Hn Hrun Hi.
  destruct (run_construct clients n schedule Hnd Hn) as [E|(q0 & l & E & Hinv & Hlen)];
    rewrite Hrun in E; [done|]. injection E as <-.
  pose proof (lookup_lt_Some _ _ _ Hi) as Hlt.
  set (q1 := mk (<[i := GetLoadHead]> (threads q)) (memory q) (owned q)).
  assert (forall sched, run ((i, CallTryGet) :: sched) q = run sched q1) as E1
    by (intros; cbn [run]; unfold turn; by rewrite Hi).
  assert (threads q1 !! i = Some GetLoadHead) as Hi1 by by apply list_lookup_insert_eq.
  destruct (freeListHead (memory q)) as [h|] eqn:Eh.
  - exists 8%nat, (mk (<[i := Idle]> (threads q1)) (after_try_get h (memory q)) (h :: owned q)).
    split; [lia|]. rewrite E1. split; [|split; [|done]].
    + apply (list_run_alone _ _ _ _ _ _ _ Hi1), try_get_steps; [done|].
      apply (head_counted clients q l h); [done|lia|done|done].
    + cbn. rewrite list_insert_insert_eq. by apply list_insert_id.
  - exists 2%nat, (mk (<[i := Idle]> (threads q1)) (memory q) (owned q)). split; [lia|]. rewrite E1.
    split; [|split; [|done]].
    + apply (list_run_alone _ _ _ _ _ _ _ Hi1). cbn [alone step client]. cbn [memory q1]. by rewrite Eh.
    + cbn. rewrite list_insert_insert_eq. by apply list_insert_id.
Qed.

Lemma try_get_alone_witness :
  exists q, run (firstn 6 churn) (construct [5; 6]%nat 3) = Next q /\
  exists k q', (k <= 8)%nat /\ run ((1, CallTryGet) :: repeat (1, Go) k)%nat q = Next q' /\ owned q' = [5; 6]%nat.
Proof.
  eexists. split; [by vm_compute|].
  edestruct (try_get_alone [5; 6]%nat 3 (firstn 6 churn)) with (i := 1%nat) as (k & q' & Hk & Hrun & _ & Ho);
    [by apply (bool_decide_unpack _)|done|by vm_compute|by vm_compute|].
  exists k, q'. split; [done|]. split; [exact Hrun|]. by destruct Ho.
Defined.

End FreeList.
