(* ===== verification/QueueTraits.v ===== *)
(** * The parameters of the lock-free queue (utils/concurrentqueue.h)

    [ConcurrentQueueDefaultTraits], the constants and static assertions of
    [ConcurrentQueue], and the arithmetic of element indices: an index is a
    64-bit integer that wraps around, and its low bits are the place in a
    block. *)
From S2P Require Import Prelude.
From S2P Require Import QueueUtils.
#[local] Open Scope Z_scope.

Class Traits := {
  BLOCK_SIZE : Z;
  EXPLICIT_BLOCK_EMPTY_COUNTER_THRESHOLD : Z;
  EXPLICIT_INITIAL_INDEX_SIZE : Z;
  IMPLICIT_INITIAL_INDEX_SIZE : Z;
  INITIAL_IMPLICIT_PRODUCER_HASH_SIZE : Z;
  EXPLICIT_CONSUMER_CONSUMPTION_QUOTA_BEFORE_ROTATE : Z;
  Traits_MAX_SUBQUEUE_SIZE : Z
}.

Definition ConcurrentQueueDefaultTraits : Traits := {|
  BLOCK_SIZE := 32;
  EXPLICIT_BLOCK_EMPTY_COUNTER_THRESHOLD := 32;
  EXPLICIT_INITIAL_INDEX_SIZE := 32;
  IMPLICIT_INITIAL_INDEX_SIZE := 32;
  INITIAL_IMPLICIT_PRODUCER_HASH_SIZE := 32;
  EXPLICIT_CONSUMER_CONSUMPTION_QUOTA_BEFORE_ROTATE := 256;
  Traits_MAX_SUBQUEUE_SIZE := const_numeric_max 64
|}.

(** Which of the two kinds of producer a block belongs to. *)
Inductive InnerQueueContext := implicit_context | explicit_context.

(** Whether an operation may allocate memory. *)
Inductive AllocationMode := CanAlloc | CannotAlloc.

Section Traits.
Context {tr : Traits}.

(** The limit on the elements of a producer, in whole blocks; the largest
    [size_t] stands for no limit. *)
Definition MAX_SUBQUEUE_SIZE : Z :=
  if u64 (const_numeric_max 64 - Traits_MAX_SUBQUEUE_SIZE) <? BLOCK_SIZE then const_numeric_max 64
  else u64 (Traits_MAX_SUBQUEUE_SIZE + (BLOCK_SIZE - 1)) / BLOCK_SIZE * BLOCK_SIZE.

Definition power_of_2 (x : Z) : bool := (x .& (x - 1)) =? 0.
Definition static_asserts : bool :=
  (1 <? BLOCK_SIZE) && power_of_2 BLOCK_SIZE &&
  (1 <? EXPLICIT_BLOCK_EMPTY_COUNTER_THRESHOLD) && power_of_2 EXPLICIT_BLOCK_EMPTY_COUNTER_THRESHOLD &&
  (1 <? EXPLICIT_INITIAL_INDEX_SIZE) && power_of_2 EXPLICIT_INITIAL_INDEX_SIZE &&
  (1 <? IMPLICIT_INITIAL_INDEX_SIZE) && power_of_2 IMPLICIT_INITIAL_INDEX_SIZE &&
  ((INITIAL_IMPLICIT_PRODUCER_HASH_SIZE =? 0) || power_of_2 INITIAL_IMPLICIT_PRODUCER_HASH_SIZE) &&
  ((INITIAL_IMPLICIT_PRODUCER_HASH_SIZE =? 0) || (1 <=? INITIAL_IMPLICIT_PRODUCER_HASH_SIZE)).

(** The place of an element in its block, and the index of the first element
    of the block. *)
Definition place (i : Z) : Z := i .& (BLOCK_SIZE - 1).
Definition base (i : Z) : Z := i .& (~64 (BLOCK_SIZE - 1)).

End Traits.

(** ** Powers of two *)

Lemma power_of_2_spec x : 0 < x -> power_of_2 x = true -> exists k, 0 <= k /\ x = 2 ^ k.
Proof.
  intros Hx Hp. apply Z.eqb_eq in Hp. exists (Z.log2 x). split; [apply Z.log2_nonneg|].
  pose proof (Z.log2_spec x Hx) as [Hlo Hhi]. destruct (decide (x = 2 ^ Z.log2 x)) as [|Hne]; [done|].
  assert (Z.log2 (x - 1) = Z.log2 x) as Hl by (apply Z.log2_unique; [apply Z.log2_nonneg|lia]).
  pose proof (Z.bit_log2 x Hx) as Hb. pose proof (Z.log2_nonneg x).
  assert (0 < x - 1) as Hx1 by (pose proof (Z.pow_pos_nonneg 2 (Z.log2 x)); lia).
  pose proof (Z.bit_log2 (x - 1) Hx1) as Hb1. rewrite Hl in Hb1.
  apply (f_equal (fun z => Z.testbit z (Z.log2 x))) in Hp. rewrite Z.land_spec, Hb, Hb1, Z.bits_0 in Hp. done.
Qed.

(** Masking with one less than a power of two. *)
Lemma land_mask k x : 0 <= k -> x .& (2 ^ k - 1) = x `mod` 2 ^ k.
Proof. intros Hk. rewrite <- Z.land_ones by done. by rewrite Z.ones_equiv, Z.sub_1_r. Qed.

(** The same for a position in a circular array, computed in [size_t]. *)
Lemma mask_mod k x : 0 <= k <= 63 -> u64 x .& u64 (2 ^ k - 1) = x `mod` 2 ^ k.
Proof.
  intros Hk. pose proof (Z.pow_pos_nonneg 2 k ltac:(lia) ltac:(lia)) as Hpos.
  pose proof (Z.pow_le_mono_r 2 k 63 ltac:(lia) ltac:(lia)) as Hle.
  rewrite (wrap_small 64 (2 ^ k - 1)) by (unfold in_width; lia). rewrite land_mask by lia. unfold wrap.
  apply Z.mod_mod_divide. exists (2 ^ (64 - k)). rewrite <- Z.pow_add_r by lia. f_equal. lia.
Qed.

(** ** Places and bases *)

Section Index.
Context {tr : Traits} (checked : static_asserts = true) (fits : BLOCK_SIZE <= 2 ^ 62).

Lemma BLOCK_SIZE_power : exists k, 1 <= k <= 62 /\ BLOCK_SIZE = 2 ^ k.
Proof.
  unfold static_asserts in checked. rewrite !andb_true_iff in checked.
  destruct checked as (((((((((Hlt & Hp) & _) & _) & _) & _) & _) & _) & _) & _). apply Z.ltb_lt in Hlt.
  destruct (power_of_2_spec BLOCK_SIZE) as (k & Hk & E); [lia|done|]. exists k. split; [|done].
  assert (k <> 0) by (intros ->; rewrite E in Hlt; done).
  assert (k <= 62); [|lia]. apply (Z.pow_le_mono_r_iff 2); lia.
Qed.

Lemma BLOCK_SIZE_bounds : 2 <= BLOCK_SIZE <= 2 ^ 62.
Proof. destruct BLOCK_SIZE_power as (k & Hk & E). split; [|done]. rewrite E. change 2 with (2 ^ 1) at 1. apply Z.pow_le_mono_r; lia. Qed.

Lemma place_mod i : place i = i `mod` BLOCK_SIZE.
Proof. destruct BLOCK_SIZE_power as (k & Hk & E). unfold place. rewrite E. apply land_mask. lia. Qed.

Lemma place_bounds i : 0 <= place i < BLOCK_SIZE.
Proof. rewrite place_mod. apply Z.mod_pos_bound. pose proof BLOCK_SIZE_bounds. lia. Qed.

Lemma place_wrap i : place (u64 i) = place i.
Proof.
  rewrite !place_mod. destruct BLOCK_SIZE_power as (k & Hk & ->). unfold wrap.
  apply Z.mod_mod_divide. exists (2 ^ (64 - k)).
  rewrite <- Z.pow_add_r by lia. f_equal. lia.
Qed.

Lemma base_eq i : in_width 64 i -> base i = i - place i.
Proof.
  intros Hi. rewrite place_mod. unfold base. destruct BLOCK_SIZE_power as (k & Hk & E). rewrite E.
  replace (2 ^ k - 1) with (Z.ones k) by (rewrite Z.ones_equiv; lia).
  assert (i .& (~64 (Z.ones k)) = (i ≫ k) ≪ k) as ->.
  { rewrite <- (wrap_small 64 i) by done. bitwise. }
  rewrite Z.shiftl_mul_pow2, Z.shiftr_div_pow2 by lia. pose proof (Z.div_mod i (2 ^ k)). lia.
Qed.

Lemma base_mod i : in_width 64 i -> base i = i - i `mod` BLOCK_SIZE.
Proof. intros Hi. by rewrite base_eq, place_mod. Qed.
End Index.
