(* ===== verification/QueueBlock.v ===== *)
(** * The blocks of the lock-free queue (utils/concurrentqueue.h, [Block])

    A block holds [BLOCK_SIZE] elements and knows which of them have been
    dequeued: by a flag for each element in the blocks of explicit producers,
    if blocks are not too large, and by a counter otherwise. *)
From S2P Require Import Prelude.
From S2P Require Import QueueTraits.
#[local] Open Scope Z_scope.

Module Block.
Section Block.
Context {tr : Traits} {T : Type}.

(** The members but for those of the free list. A slot of [elements] holds an
    object or raw memory. *)
Record t := mk {
  elements : list (option T);
  next : option nat;
  elementsCompletelyDequeued : Z;
  emptyFlags : list bool;
  dynamicallyAllocated : bool
}.

Definition flags_size : Z :=
  if BLOCK_SIZE <=? EXPLICIT_BLOCK_EMPTY_COUNTER_THRESHOLD then BLOCK_SIZE else 1.

(** The constructor; the flags are not initialized. *)
Definition construct (flags : list bool) : t := mk (replicate (Z.to_nat BLOCK_SIZE) None) None 0 flags true.

Definition set_elements (es : list (option T)) (b : t) : t :=
  mk es (next b) (elementsCompletelyDequeued b) (emptyFlags b) (dynamicallyAllocated b).
Definition set_next (n : option nat) (b : t) : t :=
  mk (elements b) n (elementsCompletelyDequeued b) (emptyFlags b) (dynamicallyAllocated b).
Definition set_counter (c : Z) (b : t) : t :=
  mk (elements b) (next b) c (emptyFlags b) (dynamicallyAllocated b).
Definition set_flags (fs : list bool) (b : t) : t :=
  mk (elements b) (next b) (elementsCompletelyDequeued b) fs (dynamicallyAllocated b).
Definition set_dynamicallyAllocated (d : bool) (b : t) : t :=
  mk (elements b) (next b) (elementsCompletelyDequeued b) (emptyFlags b) d.

Definition uses_flags (c : InnerQueueContext) : bool :=
  match c with
  | explicit_context => BLOCK_SIZE <=? EXPLICIT_BLOCK_EMPTY_COUNTER_THRESHOLD
  | implicit_context => false
  end.

(** The flags of the first [n] slots. *)
Fixpoint all_set (n : nat) (fs : list bool) : bool :=
  match n, fs with
  | O, _ => true
  | S n, f :: fs => f && all_set n fs
  | S _, [] => false
  end.

(** [None] is a failed assertion, or an access outside the flags. *)
Definition is_empty (c : InnerQueueContext) (b : t) : option bool :=
  if uses_flags c then Some (all_set (Z.to_nat BLOCK_SIZE) (emptyFlags b))
  else if elementsCompletelyDequeued b =? BLOCK_SIZE then Some true
  else if elementsCompletelyDequeued b <=? BLOCK_SIZE then Some false else None.

(** Set one flag, which is not set. *)
Definition set_flag (j : Z) (fs : list bool) : option (list bool) :=
  if j <? 0 then None
  else match fs !! Z.to_nat j with Some false => Some (<[Z.to_nat j := true]> fs) | _ => None end.

(** The boolean says that the block is now empty; with flags it is always
    false. *)
Definition set_empty (c : InnerQueueContext) (i : Z) (b : t) : option (bool * t) :=
  if uses_flags c then
    match set_flag (u64 (BLOCK_SIZE - 1 - place i)) (emptyFlags b) with
    | Some fs => Some (false, set_flags fs b)
    | None => None
    end
  else
    let prevVal := elementsCompletelyDequeued b in
    if prevVal <? BLOCK_SIZE then Some (prevVal =? BLOCK_SIZE - 1, set_counter (u64 (prevVal + 1)) b) else None.

(** The loop that sets [count] flags from [i] on. *)
Fixpoint set_flag_loop (count : nat) (i : Z) (fs : list bool) : option (list bool) :=
  match count with
  | O => Some fs
  | S count => match set_flag i fs with Some fs => set_flag_loop count (i + 1) fs | None => None end
  end.

Definition set_many_empty (c : InnerQueueContext) (i count : Z) (b : t) : option (bool * t) :=
  if uses_flags c then
    match set_flag_loop (Z.to_nat count) (u64 (BLOCK_SIZE - 1 - place i - count + 1)) (emptyFlags b) with
    | Some fs => Some (false, set_flags fs b)
    | None => None
    end
  else
    let prevVal := elementsCompletelyDequeued b in
    if u64 (prevVal + count) <=? BLOCK_SIZE
    then Some (u64 (prevVal + count) =? BLOCK_SIZE, set_counter (u64 (prevVal + count)) b) else None.

(** The stores to all flags, or to the counter. *)
Definition fill_flags (f : bool) (fs : list bool) : list bool :=
  replicate (Z.to_nat BLOCK_SIZE) f ++ drop (Z.to_nat BLOCK_SIZE) fs.
Definition set_all_empty (c : InnerQueueContext) (b : t) : t :=
  if uses_flags c then set_flags (fill_flags true (emptyFlags b)) b else set_counter BLOCK_SIZE b.
Definition reset_empty (c : InnerQueueContext) (b : t) : t :=
  if uses_flags c then set_flags (fill_flags false (emptyFlags b)) b else set_counter 0 b.

(** [operator[]]: the slot of an element; the constructor of an element in a
    slot, the element in it, and its destructor. *)
Definition slot (idx : Z) : nat := Z.to_nat (place idx).
Definition put (idx : Z) (x : T) (b : t) : option t :=
  match elements b !! slot idx with
  | Some None => Some (set_elements (<[slot idx := Some x]> (elements b)) b)
  | _ => None
  end.
Definition get (idx : Z) (b : t) : option T := mjoin (elements b !! slot idx).
Definition destroy (idx : Z) (b : t) : option t :=
  match elements b !! slot idx with
  | Some (Some _) => Some (set_elements (<[slot idx := None]> (elements b)) b)
  | _ => None
  end.

End Block.
Arguments t : clear implicits.

(** ** What the flags and the counter stand for *)

Section Spec.
Context {tr : Traits} (checked : static_asserts = true) (fits : BLOCK_SIZE <= 2 ^ 62) {T : Type}.
Implicit Types (b : t T) (D : gset nat).

(** All places of a block, and the set [D] of those that have been dequeued. *)
Definition places : gset nat := set_seq 0 (Z.to_nat BLOCK_SIZE).
Record tracks (c : InnerQueueContext) b D : Prop := mkTracks {
  tracks_places : D ⊆ places;
  tracks_repr :
    if uses_flags c
    then forall o, (o < Z.to_nat BLOCK_SIZE)%nat ->
         emptyFlags b !! (Z.to_nat BLOCK_SIZE - 1 - o)%nat = Some (bool_decide (o ∈ D))
    else elementsCompletelyDequeued b = Z.of_nat (size D)
}.

Lemma size_places : size places = Z.to_nat BLOCK_SIZE.
Proof. apply size_set_seq. Qed.

Lemma size_le D : D ⊆ places -> Z.of_nat (size D) <= BLOCK_SIZE.
Proof.
  intros Hsub%subseteq_size. rewrite size_places in Hsub. pose proof (BLOCK_SIZE_bounds checked fits). lia.
Qed.

Lemma full_size D : D ⊆ places -> Z.of_nat (size D) = BLOCK_SIZE <-> D = places.
Proof.
  intros Hsub. pose proof (BLOCK_SIZE_bounds checked fits). split.
  - intros Hs. apply set_subseteq_size_eq; [done|]. rewrite size_places. lia.
  - intros ->. rewrite size_places. lia.
Qed.

Lemma slot_lt i : (slot i < Z.to_nat BLOCK_SIZE)%nat.
Proof. unfold slot. pose proof (place_bounds checked fits i). lia. Qed.

Lemma all_set_spec n fs :
  all_set n fs = true <-> forall k, (k < n)%nat -> fs !! k = Some true.
Proof.
  revert fs. induction n as [|n IH]; intros fs; cbn; [split; [lia|done]|].
  destruct fs as [|f fs]; [split; [done|]; intros H; by specialize (H O ltac:(lia))|].
  rewrite andb_true_iff, IH. split.
  - intros [-> Hk] [|k] Hlt; [done|]. apply Hk. lia.
  - intros Hk. split; [specialize (Hk O ltac:(lia)); by injection Hk|].
    intros k Hlt. apply (Hk (S k)). lia.
Qed.

Lemma is_empty_spec c b D : tracks c b D -> is_empty c b = Some (bool_decide (D = places)).
Proof.
  intros [Hsub Hr]. unfold is_empty. destruct (uses_flags c) eqn:Ec.
  - f_equal. apply eq_bool_prop_intro. rewrite bool_decide_spec, Is_true_true, all_set_spec. split.
    + intros Hk. apply set_eq. intros o. split; [apply Hsub|]. intros Ho%elem_of_set_seq.
      specialize (Hr o ltac:(lia)). rewrite Hk in Hr by lia. injection Hr as Hb. by apply (bool_decide_eq_true_1 (o ∈ D)).
    + intros -> k Hk. specialize (Hr (Z.to_nat BLOCK_SIZE - 1 - k)%nat ltac:(lia)).
      replace (Z.to_nat BLOCK_SIZE - 1 - (Z.to_nat BLOCK_SIZE - 1 - k))%nat with k in Hr by lia.
      rewrite Hr. f_equal. apply bool_decide_eq_true, elem_of_set_seq. lia.
  - rewrite Hr. pose proof (size_le D Hsub) as Hle.
    destruct (Z.eqb_spec (Z.of_nat (size D)) BLOCK_SIZE) as [E|E]; rewrite full_size in E by done.
    + f_equal. symmetry. by apply bool_decide_eq_true.
    + rewrite (proj2 (Z.leb_le _ _)) by done. f_equal. symmetry. by apply bool_decide_eq_false.
Qed.

(** One flag more. *)
Lemma set_flag_spec fs D (j : nat) :
  (j < Z.to_nat BLOCK_SIZE)%nat -> (Z.to_nat BLOCK_SIZE - 1 - j)%nat ∉ D ->
  (forall o, (o < Z.to_nat BLOCK_SIZE)%nat -> fs !! (Z.to_nat BLOCK_SIZE - 1 - o)%nat = Some (bool_decide (o ∈ D))) ->
  set_flag (Z.of_nat j) fs = Some (<[j := true]> fs) /\
  forall o, (o < Z.to_nat BLOCK_SIZE)%nat ->
    <[j := true]> fs !! (Z.to_nat BLOCK_SIZE - 1 - o)%nat =
    Some (bool_decide (o ∈ {[(Z.to_nat BLOCK_SIZE - 1 - j)%nat]} ∪ D)).
Proof.
  intros Hj Hfresh Hfs. set (o := (Z.to_nat BLOCK_SIZE - 1 - j)%nat) in *.
  assert (fs !! j = Some false) as Ej.
  { pose proof (Hfs o ltac:(lia)) as H. replace (Z.to_nat BLOCK_SIZE - 1 - o)%nat with j in H by lia.
    by rewrite bool_decide_eq_false_2 in H. }
  split.
  - unfold set_flag. rewrite (proj2 (Z.ltb_ge _ _)) by lia. by rewrite Nat2Z.id, Ej.
  - intros o' Ho'. destruct (decide (o' = o)) as [->|Hne].
    + replace (Z.to_nat BLOCK_SIZE - 1 - o)%nat with j by lia.
      rewrite list_lookup_insert_eq by (by eapply lookup_lt_Some). f_equal. symmetry.
      apply bool_decide_eq_true, elem_of_union_l, elem_of_singleton_2. done.
    + rewrite list_lookup_insert_ne by lia. rewrite Hfs by done. f_equal. apply bool_decide_ext.
      rewrite elem_of_union, elem_of_singleton. intuition.
Qed.

(** The members that the marks of emptiness leave alone. *)
Definition same_rest b b' : Prop :=
  elements b' = elements b /\ next b' = next b /\ dynamicallyAllocated b' = dynamicallyAllocated b.

Lemma set_empty_spec c i b D :
  tracks c b D -> slot i ∉ D ->
  exists b', set_empty c i b =
      Some (negb (uses_flags c) && bool_decide ({[slot i]} ∪ D = places), b') /\
    tracks c b' ({[slot i]} ∪ D) /\ same_rest b b'.
Proof.
  intros [Hsub Hr] Hi. pose proof (slot_lt i) as Hlt. pose proof (place_bounds checked fits i) as Hp.
  pose proof (BLOCK_SIZE_bounds checked fits) as Hbs.
  assert ({[slot i]} ∪ D ⊆ places) as Hsub'.
  { apply union_subseteq. split; [|done]. apply singleton_subseteq_l, elem_of_set_seq. lia. }
  unfold set_empty. destruct (uses_flags c) eqn:Ec.
  - rewrite wrap_small by (split; [lia|]; unfold in_width; lia).
    destruct (set_flag_spec (emptyFlags b) D (Z.to_nat BLOCK_SIZE - 1 - slot i)%nat) as [E Hr'];
      [lia| |done|].
    { replace (Z.to_nat BLOCK_SIZE - 1 - (Z.to_nat BLOCK_SIZE - 1 - slot i))%nat with (slot i) by lia. done. }
    replace (Z.to_nat BLOCK_SIZE - 1 - (Z.to_nat BLOCK_SIZE - 1 - slot i))%nat with (slot i) in Hr' by lia.
    replace (BLOCK_SIZE - 1 - place i) with (Z.of_nat (Z.to_nat BLOCK_SIZE - 1 - slot i))
      by (unfold slot; lia).
    rewrite E. eexists. split; [reflexivity|]. split; [|done]. split; [done|]. by rewrite Ec.
  - rewrite Hr. assert (size ({[slot i]} ∪ D) = S (size D)) as Es
      by (rewrite size_union by (by apply disjoint_singleton_l); by rewrite size_singleton).
    pose proof (size_le _ Hsub') as Hle. rewrite Es in Hle.
    rewrite (proj2 (Z.ltb_lt _ _)) by lia. exists (set_counter (u64 (Z.of_nat (size D) + 1)) b). split; [|split; [|done]].
    + cbn [negb andb]. assert (bool_decide ({[slot i]} ∪ D = places) = (Z.of_nat (size D) =? BLOCK_SIZE - 1)) as ->; [|reflexivity].
      apply eq_bool_prop_intro. rewrite bool_decide_spec, <- (full_size _ Hsub'), Es, Is_true_true, Z.eqb_eq. lia.
    + split; [done|]. rewrite Ec. cbn. rewrite wrap_small by (split; lia). rewrite Es. lia.
Qed.

(** The places of [count] elements from [i] on, in one block. *)
Definition span (i : Z) (count : nat) : gset nat := set_seq (slot i) count.

(** The loop over the flags sets those of the elements from the last one down. *)
Lemma set_flag_loop_spec count fs D (j : nat) :
  (j + count <= Z.to_nat BLOCK_SIZE)%nat ->
  (forall k, (k < count)%nat -> (Z.to_nat BLOCK_SIZE - 1 - (j + k))%nat ∉ D) ->
  (forall o, (o < Z.to_nat BLOCK_SIZE)%nat -> fs !! (Z.to_nat BLOCK_SIZE - 1 - o)%nat = Some (bool_decide (o ∈ D))) ->
  exists fs', set_flag_loop count (Z.of_nat j) fs = Some fs' /\
    forall o, (o < Z.to_nat BLOCK_SIZE)%nat ->
      fs' !! (Z.to_nat BLOCK_SIZE - 1 - o)%nat =
      Some (bool_decide (o ∈ set_seq (C := gset nat) (Z.to_nat BLOCK_SIZE - j - count)%nat count ∪ D)).
Proof.
  revert fs D j. induction count as [|count IH]; intros fs D j Hle Hfresh Hfs; cbn [set_flag_loop].
  - exists fs. split; [done|]. intros o Ho. rewrite Hfs by done. f_equal. apply bool_decide_ext.
    rewrite elem_of_union, elem_of_set_seq. intuition lia.
  - destruct (set_flag_spec fs D j) as [-> Hfs']; [lia| |done|].
    { specialize (Hfresh O ltac:(lia)). by rewrite Nat.add_0_r in Hfresh. }
    replace (Z.of_nat j + 1) with (Z.of_nat (S j)) by lia.
    edestruct (IH (<[j := true]> fs) ({[(Z.to_nat BLOCK_SIZE - 1 - j)%nat]} ∪ D) (S j)) as (fs' & E & Hr); [lia| |exact Hfs'|].
    { intros k Hk. specialize (Hfresh (S k) ltac:(lia)). rewrite Nat.add_succ_r in Hfresh.
      rewrite elem_of_union, elem_of_singleton. intros [Heq|]; [lia|]. by apply Hfresh. }
    exists fs'. split; [exact E|]. intros o Ho. rewrite Hr by done. f_equal. apply bool_decide_ext.
    rewrite !elem_of_union, elem_of_singleton, !elem_of_set_seq. intuition lia.
Qed.

Lemma size_span D i count :
  span i count ## D -> size (span i count ∪ D) = (count + size D)%nat.
Proof. intros Hd. rewrite size_union by done. unfold span. by rewrite size_set_seq. Qed.

Lemma set_many_empty_spec c i count b D :
  tracks c b D -> place i + Z.of_nat count <= BLOCK_SIZE -> span i count ## D ->
  exists b', set_many_empty c i (Z.of_nat count) b =
      Some (negb (uses_flags c) && bool_decide (span i count ∪ D = places), b') /\
    tracks c b' (span i count ∪ D) /\ same_rest b b'.
Proof.
  intros [Hsub Hr] Hle Hd. pose proof (place_bounds checked fits i) as Hp.
  pose proof (BLOCK_SIZE_bounds checked fits) as Hbs.
  assert (span i count ∪ D ⊆ places) as Hsub'.
  { apply union_subseteq. split; [|done]. intros o. unfold span, places, slot. rewrite !elem_of_set_seq. lia. }
  unfold set_many_empty. destruct (uses_flags c) eqn:Ec.
  - rewrite wrap_small by (unfold in_width; lia). rewrite Nat2Z.id.
    replace (BLOCK_SIZE - 1 - place i - Z.of_nat count + 1)
      with (Z.of_nat (Z.to_nat BLOCK_SIZE - slot i - count)) by (unfold slot; lia).
    edestruct (set_flag_loop_spec count (emptyFlags b) D (Z.to_nat BLOCK_SIZE - slot i - count)%nat)
      as (fs' & -> & Hr'); [unfold slot; lia| |done|].
    { intros k Hk Hin. apply (Hd (Z.to_nat BLOCK_SIZE - 1 - (Z.to_nat BLOCK_SIZE - slot i - count + k))%nat); [|done].
      unfold span, slot. rewrite elem_of_set_seq. lia. }
    eexists. split; [reflexivity|]. split; [|done]. split; [done|]. rewrite Ec. intros o Ho. cbn. rewrite Hr' by done.
    f_equal. apply bool_decide_ext. unfold span, slot. rewrite !elem_of_union, !elem_of_set_seq. intuition lia.
  - pose proof (size_span D i count Hd) as Es. pose proof (size_le _ Hsub') as Hle'.
    rewrite Hr, wrap_small by (split; lia). rewrite (proj2 (Z.leb_le _ _)) by lia.
    exists (set_counter (Z.of_nat (size D) + Z.of_nat count) b). split; [|split; [|done]].
    + cbn [negb andb].
      assert (bool_decide (span i count ∪ D = places) = (Z.of_nat (size D) + Z.of_nat count =? BLOCK_SIZE)) as ->;
        [|reflexivity].
      apply eq_bool_prop_intro. rewrite bool_decide_spec, <- (full_size _ Hsub'), Es, Is_true_true, Z.eqb_eq. lia.
    + split; [done|]. rewrite Ec. cbn. lia.
Qed.

Lemma fill_flags_spec f fs o :
  (o < Z.to_nat BLOCK_SIZE)%nat -> fill_flags f fs !! (Z.to_nat BLOCK_SIZE - 1 - o)%nat = Some f.
Proof.
  intros Ho. unfold fill_flags. rewrite lookup_app_l by (rewrite length_replicate; lia).
  apply lookup_replicate_2. lia.
Qed.

Lemma set_all_empty_spec c b : tracks c (set_all_empty c b) places /\ same_rest b (set_all_empty c b).
Proof.
  unfold set_all_empty. destruct (uses_flags c) eqn:Ec; (split; [|done]); (split; [done|]); rewrite Ec; cbn.
  - intros o Ho. rewrite fill_flags_spec by done. f_equal. symmetry. apply bool_decide_eq_true, elem_of_set_seq. lia.
  - pose proof (BLOCK_SIZE_bounds checked fits). rewrite size_places. lia.
Qed.

Lemma reset_empty_spec c b : tracks c (reset_empty c b) ∅ /\ same_rest b (reset_empty c b).
Proof.
  unfold reset_empty. destruct (uses_flags c) eqn:Ec; (split; [|done]); (split; [set_solver|]); rewrite Ec; cbn.
  - intros o Ho. by rewrite fill_flags_spec.
  - done.
Qed.

(** ** The two ways to track emptiness agree *)

Inductive op := SetEmpty (i : Z) | SetManyEmpty (i : Z) (count : nat) | SetAllEmpty | ResetEmpty.

Definition apply (c : InnerQueueContext) (o : op) b : option (t T) :=
  match o with
  | SetEmpty i => snd <$> set_empty c i b
  | SetManyEmpty i count => snd <$> set_many_empty c i (Z.of_nat count) b
  | SetAllEmpty => Some (set_all_empty c b)
  | ResetEmpty => Some (reset_empty c b)
  end.
Definition run (c : InnerQueueContext) (ops : list op) b : option (t T) :=
  foldl (fun ob o => ob ≫= apply c o) (Some b) ops.

(** What the operations mean for the set of places that have been dequeued: no
    element is dequeued twice, and a range stays within its block. *)
Definition means (o : op) D : option (gset nat) :=
  match o with
  | SetEmpty i => if decide (slot i ∈ D) then None else Some ({[slot i]} ∪ D)
  | SetManyEmpty i count =>
      if decide (place i + Z.of_nat count <= BLOCK_SIZE /\ span i count ## D) then Some (span i count ∪ D) else None
  | SetAllEmpty => Some places
  | ResetEmpty => Some ∅
  end.
Definition run_means (ops : list op) D : option (gset nat) :=
  foldl (fun oD o => oD ≫= means o) (Some D) ops.

Lemma apply_means c o b D D' :
  tracks c b D -> means o D = Some D' -> exists b', apply c o b = Some b' /\ tracks c b' D'.
Proof.
  intros Ht. destruct o as [i|i count| |]; cbn [means apply].
  - case_decide as Hi; [done|]. intros [= <-]. destruct (set_empty_spec c i b D Ht Hi) as (b' & -> & Hb & _). by exists b'.
  - case_decide as Hi; [|done]. destruct Hi as [Hle Hd]. intros [= <-].
    destruct (set_many_empty_spec c i count b D Ht Hle Hd) as (b' & -> & Hb & _). by exists b'.
  - intros [= <-]. exists (set_all_empty c b). split; [done|]. apply set_all_empty_spec.
  - intros [= <-]. exists (reset_empty c b). split; [done|]. apply reset_empty_spec.
Qed.

Lemma foldl_none {A B} (f : A -> B -> option B) l : foldl (fun ob o => ob ≫= f o) None l = None.
Proof. induction l as [|x l IH]; [done|]. exact IH. Qed.

Lemma run_tracks c ops b D D' :
  tracks c b D -> run_means ops D = Some D' -> exists b', run c ops b = Some b' /\ tracks c b' D'.
Proof.
  revert b D. induction ops as [|o ops IH]; intros b D Ht; unfold run, run_means; cbn [foldl].
  - intros [= <-]. by exists b.
  - cbn [mbind option_bind]. destruct (means o D) as [D1|] eqn:Em; [|by rewrite foldl_none].
    destruct (apply_means c o b D D1 Ht Em) as (b1 & -> & Ht1). intros Hr. exact (IH b1 D1 Ht1 Hr).
Qed.

(** C21: the flags and the counter are two implementations of the same thing.
    For any sequence of operations on a block that has been reset, that
    dequeues no element twice, both run without a failed assertion and both
    say that the block is empty exactly when all its elements have been
    dequeued. What [set_empty] and [set_many_empty] return, and
    [set_all_empty] on a block that has not been reset, are not part of this. *)
Theorem emptiness_tracking_agrees ops b1 b2 D :
  run_means (ResetEmpty :: ops) ∅ = Some D ->
  exists b1' b2',
    run explicit_context (ResetEmpty :: ops) b1 = Some b1' /\
    run implicit_context (ResetEmpty :: ops) b2 = Some b2' /\
    is_empty explicit_context b1' = is_empty implicit_context b2' /\
    is_empty implicit_context b2' = Some (bool_decide (D = places)).
Proof.
  intros Hm.
  destruct (run_tracks explicit_context ops (reset_empty explicit_context b1) ∅ D) as (b1' & E1 & H1);
    [apply reset_empty_spec|done|].
  destruct (run_tracks implicit_context ops (reset_empty implicit_context b2) ∅ D) as (b2' & E2 & H2);
    [apply reset_empty_spec|done|].
  exists b1', b2'. split; [exact E1|]. split; [exact E2|].
  by rewrite (is_empty_spec _ _ _ H1), (is_empty_spec _ _ _ H2).
Qed.
End Spec.

Lemma emptiness_tracking_agrees_witness :
  let tr := ConcurrentQueueDefaultTraits in
  let ops := [SetManyEmpty 32 30; SetEmpty 62; SetEmpty 63] in
  exists b1 b2 : t nat, is_empty explicit_context b1 = is_empty implicit_context b2 /\
    run explicit_context (ResetEmpty :: ops) (construct (replicate 32 false)) = Some b1 /\
    is_empty implicit_context b2 = Some true.
Proof.
  intros tr ops.
  destruct (emptiness_tracking_agrees (tr := tr) eq_refl ltac:(done) (T := nat) ops
    (construct (replicate 32 false)) (construct (replicate 32 true)) places) as (b1 & b2 & E1 & E2 & E & Ee);
    [by vm_compute|].
  exists b1, b2. split; [done|]. split; [done|]. rewrite Ee. by vm_compute.
Defined.
End Block.
