(* ===== verification/QueueProducer.v ===== *)
(** * The indices of a producer (utils/concurrentqueue.h, [ProducerBase])

    One thread enqueues to a producer and any number of threads dequeue from
    it. What they share are four counters: the elements enqueued and taken,
    and, so that a consumer knows that there is an element for it before it
    takes one, the attempts to dequeue and the attempts given up. Both
    [ExplicitProducer] and [ImplicitProducer] have this protocol in [dequeue]
    and [dequeue_bulk]. Each access of a counter is a step of one thread; a
    schedule says whose turn it is.

    The elements are in slots, one for each index. How the blocks provide
    these is the subject of the files on the two kinds of producer. *)
From S2P Require Import Prelude.
From S2P Require Import QueueUtils.
#[local] Open Scope Z_scope.

#[local] Arguments zsum : simpl never.

Module ProducerBase.
Section ProducerBase.
Context {T : Type}.

(** ** Threads *)

(** What is called: [dequeue], or [dequeue_bulk] with its [max]. *)
Inductive request := One | Bulk (max : Z).

Inductive pc :=
| Idle
| EnqLoadTail (xs : list T)                                   (* enqueue, enqueue_bulk *)
| EnqLoadHead (xs : list T) (currentTailIndex : Z)
| EnqConstruct (xs : list T) (currentTailIndex : Z)
| EnqStoreTail (xs : list T) (newTailIndex : Z)
| DeqLoadTail (r : request)                                   (* dequeue, dequeue_bulk *)
| DeqLoadOvercommit (r : request) (tail : Z)
| DeqLoadOptimistic (r : request) (tail overcommit : Z)
| DeqFetchAdd (r : request) (overcommit desiredCount : Z)
| DeqReloadTail (r : request) (overcommit myDequeueCount desiredCount : Z)
| DeqGiveUp (excess actualCount : Z)
| DeqClaim (actualCount : Z)
| DeqTake (index count : Z).

(** A call of the enqueueing functions with the elements, a call of the
    dequeueing ones, and a step of a call. *)
Inductive choice := CallEnqueue (xs : list T) | CallDequeue (r : request) | Go.

Record shared := mkShared {
  tailIndex : Z;
  headIndex : Z;
  dequeueOptimisticCount : Z;
  dequeueOvercommit : Z;
  slots : gmap Z T
}.
Definition set_tail (v : Z) (s : shared) : shared :=
  mkShared v (headIndex s) (dequeueOptimisticCount s) (dequeueOvercommit s) (slots s).
Definition set_head (v : Z) (s : shared) : shared :=
  mkShared (tailIndex s) v (dequeueOptimisticCount s) (dequeueOvercommit s) (slots s).
Definition set_optimistic (v : Z) (s : shared) : shared :=
  mkShared (tailIndex s) (headIndex s) v (dequeueOvercommit s) (slots s).
Definition set_overcommit (v : Z) (s : shared) : shared :=
  mkShared (tailIndex s) (headIndex s) (dequeueOptimisticCount s) v (slots s).
Definition set_slots (m : gmap Z T) (s : shared) : shared :=
  mkShared (tailIndex s) (headIndex s) (dequeueOptimisticCount s) (dequeueOvercommit s) m.

(** [size_approx] and [getTail]. *)
Definition size_approx (s : shared) : Z :=
  if circular_less_than 64 (headIndex s) (tailIndex s) then u64 (tailIndex s - headIndex s) else 0.
Definition getTail (s : shared) : Z := tailIndex s.

(** The elements constructed from the index [i] on. *)
Fixpoint construct_all (i : Z) (xs : list T) (m : gmap Z T) : gmap Z T :=
  match xs with
  | [] => m
  | x :: xs => construct_all (u64 (i + 1)) xs (<[i := x]> m)
  end.

(** How many to try for, given the first look at the counters; [None] if
    nothing seems to be there. *)
Definition desire (r : request) (tail optimistic overcommit : Z) : option Z :=
  match r with
  | One => if circular_less_than 64 (u64 (optimistic - overcommit)) tail then Some 1 else None
  | Bulk max =>
      let desiredCount := u64 (tail - u64 (optimistic - overcommit)) in
      if circular_less_than 64 0 desiredCount
      then Some (if desiredCount <? max then desiredCount else max) else None
  end.

(** How many there are, given the second look at the tail. *)
Definition actual (r : request) (tail myDequeueCount overcommit desiredCount : Z) : Z :=
  match r with
  | One => if circular_less_than 64 (u64 (myDequeueCount - overcommit)) tail then 1 else 0
  | Bulk _ =>
      let actualCount := u64 (tail - u64 (myDequeueCount - overcommit)) in
      if circular_less_than 64 0 actualCount
      then (if desiredCount <? actualCount then desiredCount else actualCount) else 0
  end.

(** A step that is not possible, a failed assertion or an access to an element
    that is not there, or what the step leads to with the element it has moved
    out. *)
Inductive result (A : Type) := Disabled | Fault | Next (a : A).
Arguments Disabled {A}.
Arguments Fault {A}.
Arguments Next {A}.

Definition step (ch : choice) (p : pc) (s : shared) : result (pc * shared * option (Z * T)) :=
  match p, ch with
  | Idle, CallEnqueue xs => Next (EnqLoadTail xs, s, None)
  | Idle, CallDequeue r => Next (DeqLoadTail r, s, None)
  | EnqLoadTail xs, Go => Next (EnqLoadHead xs (tailIndex s), s, None)
  | EnqLoadHead xs tail, Go =>
      if circular_less_than 64 tail (headIndex s) then Fault else Next (EnqConstruct xs tail, s, None)
  | EnqConstruct xs tail, Go =>
      Next (EnqStoreTail xs (u64 (tail + Z.of_nat (length xs))), set_slots (construct_all tail xs (slots s)) s, None)
  | EnqStoreTail xs newTail, Go => Next (Idle, set_tail newTail s, None)
  | DeqLoadTail r, Go => Next (DeqLoadOvercommit r (tailIndex s), s, None)
  | DeqLoadOvercommit r tail, Go => Next (DeqLoadOptimistic r tail (dequeueOvercommit s), s, None)
  | DeqLoadOptimistic r tail overcommit, Go =>
      match desire r tail (dequeueOptimisticCount s) overcommit with
      | Some desiredCount => Next (DeqFetchAdd r overcommit desiredCount, s, None)
      | None => Next (Idle, s, None)
      end
  | DeqFetchAdd r overcommit desiredCount, Go =>
      let my := dequeueOptimisticCount s in
      if overcommit <=? my
      then Next (DeqReloadTail r overcommit my desiredCount, set_optimistic (u64 (my + desiredCount)) s, None)
      else Fault
  | DeqReloadTail r overcommit my desiredCount, Go =>
      let n := actual r (tailIndex s) my overcommit desiredCount in
      Next (if n <? desiredCount then DeqGiveUp (desiredCount - n) n else DeqClaim n, s, None)
  | DeqGiveUp excess n, Go =>
      Next (if n =? 0 then Idle else DeqClaim n, set_overcommit (u64 (dequeueOvercommit s + excess)) s, None)
  | DeqClaim n, Go => Next (DeqTake (headIndex s) n, set_head (u64 (headIndex s + n)) s, None)
  | DeqTake index n, Go =>
      if n =? 0 then Next (Idle, s, None)
      else
        match slots s !! index with
        | Some x => Next (DeqTake (u64 (index + 1)) (n - 1), set_slots (delete index (slots s)) s, Some (index, x))
        | None => Fault
        end
  | _, _ => Disabled
  end.

(** ** The program *)

(** The thread 0 is the one that may enqueue. A bulk dequeue asks for at least
    one element. *)
Definition may_call (i : nat) (ch : choice) : bool :=
  match ch with
  | CallEnqueue _ => bool_decide (i = O)
  | CallDequeue (Bulk max) => 1 <=? max
  | _ => true
  end.

(** The threads and the memory; all elements enqueued, in order; the elements
    dequeued, with their indices; and how many elements the calls have offered
    and asked for in all. *)
Record t := mk {
  threads : list pc;
  memory : shared;
  enqueued : list T;
  dequeued : list (Z * T);
  offered : nat;
  attempted : nat
}.

Definition construct (n : nat) : t := mk (repeat Idle n) (mkShared 0 0 0 0 ∅) [] [] 0 0.

Definition turn (i : nat) (ch : choice) (q : t) : result t :=
  match threads q !! i with
  | None => Disabled
  | Some p =>
      if may_call i ch then
        match step ch p (memory q) with
        | Next (p', s, out) =>
            Next (mk (<[i := p']> (threads q)) s
              (match p with EnqStoreTail xs _ => enqueued q ++ xs | _ => enqueued q end)
              (match out with Some x => x :: dequeued q | None => dequeued q end)
              (match ch with CallEnqueue xs => offered q + length xs | _ => offered q end)%nat
              (match p with DeqFetchAdd _ _ d => attempted q + Z.to_nat d | _ => attempted q end)%nat)
        | Disabled => Disabled
        | Fault => Fault
        end
      else Disabled
  end.

Fixpoint run (schedule : list (nat * choice)) (q : t) : result t :=
  match schedule with
  | [] => Next q
  | (i, ch) :: schedule =>
      match turn i ch q with
      | Next q => run schedule q
      | Disabled => Disabled
      | Fault => Fault
      end
  end.

(** ** The attempts, the claims, and what each thread knows *)

(** An attempt is one unit of the optimistic count: it is some thread's, or it
    has become an index, or it has been given up. *)
Inductive attempt := Pending (i : nat) | Taken | GivenUp.
#[local] Instance attempt_eq_dec : EqDecision attempt.
Proof. solve_decision. Defined.

Definition pending_z (a : attempt) : Z := match a with Pending _ => 1 | _ => 0 end.
Definition taken_z (a : attempt) : Z := match a with Taken => 1 | _ => 0 end.
Definition given_up_z (a : attempt) : Z := match a with GivenUp => 1 | _ => 0 end.
Abbreviation given_up := (zsum given_up_z).
Abbreviation taken := (zsum taken_z).
Abbreviation pending := (zsum pending_z).

(** An index that has been claimed is some thread's until it has moved the
    element out. *)
Definition owned_z (o : option nat) : Z := match o with Some _ => 1 | None => 0 end.

Definition attempts_of (p : pc) : Z :=
  match p with
  | DeqReloadTail _ _ _ d => d
  | DeqGiveUp e n => e + n
  | DeqClaim n => n
  | _ => 0
  end.
Definition claims_of (p : pc) : Z := match p with DeqTake _ n => n | _ => 0 end.

(** The attempts from [k] on that are not given up among all before them. *)
Definition rank (log : list attempt) (k : nat) : Z := Z.of_nat k - given_up (take k log).

Definition request_ok (r : request) : Prop := match r with One => True | Bulk max => 1 <= max end.

Section Knows.
Context (log : list attempt) (claims : list (option nat)) (tail : nat) (m : gmap Z T).

Definition knows (i : nat) (p : pc) : Prop :=
  match p with
  | Idle => True
  | EnqLoadTail _ => i = O
  | EnqLoadHead _ j | EnqConstruct _ j => i = O /\ j = Z.of_nat tail
  | EnqStoreTail xs j =>
      i = O /\ j = Z.of_nat (tail + length xs) /\
      forall k x, xs !! k = Some x -> m !! Z.of_nat (tail + k) = Some x
  | DeqLoadTail r => request_ok r
  | DeqLoadOvercommit r j => request_ok r /\ 0 <= j <= Z.of_nat tail
  | DeqLoadOptimistic r j o => request_ok r /\ 0 <= j <= Z.of_nat tail /\ 0 <= o <= given_up log
  | DeqFetchAdd r o d => 1 <= d <= Z.of_nat tail /\ 0 <= o <= given_up log
  | DeqReloadTail r o my d =>
      1 <= d <= Z.of_nat tail /\ 0 <= my /\ 0 <= o <= given_up (take (Z.to_nat my) log) /\
      range log (Z.to_nat my) (Z.to_nat d) (Pending i)
  | DeqGiveUp e n =>
      1 <= e /\ 0 <= n /\ exists k, range log k (Z.to_nat (n + e)) (Pending i) /\
      (0 < n -> rank log k + n <= Z.of_nat tail)
  | DeqClaim n =>
      1 <= n /\ exists k, range log k (Z.to_nat n) (Pending i) /\ rank log k + n <= Z.of_nat tail
  | DeqTake j n => 0 <= n /\ 0 <= j /\ range claims (Z.to_nat j) (Z.to_nat n) (Some i)
  end.
End Knows.

Definition offering (p : pc) : nat :=
  match p with EnqLoadTail xs | EnqLoadHead xs _ | EnqConstruct xs _ | EnqStoreTail xs _ => length xs | _ => O end.

(** The counters and the slots. *)
Record shared_ok (s : shared) (enq : list T) (deq : list (Z * T)) (log : list attempt)
    (claims : list (option nat)) : Prop := mkSharedOk {
  ok_tail : tailIndex s = Z.of_nat (length enq);
  ok_head : headIndex s = Z.of_nat (length claims);
  ok_optimistic : dequeueOptimisticCount s = Z.of_nat (length log);
  ok_overcommit : dequeueOvercommit s = given_up log;
  ok_taken : taken log = Z.of_nat (length claims);
  ok_rank : forall k, log !! k = Some Taken -> rank log k < Z.of_nat (length enq);
  ok_slots : forall k x, enq !! k = Some x ->
    slots s !! Z.of_nat k = (if decide (claims !! k = Some None) then None else Some x);
  ok_dequeued : forall j x, (j, x) ∈ deq ->
    0 <= j /\ enq !! Z.to_nat j = Some x /\ claims !! Z.to_nat j = Some None;
  ok_nodup : NoDup (fst <$> deq);
  ok_count : Z.of_nat (length deq) + zsum owned_z claims = Z.of_nat (length claims)
}.

Record inv (q : t) (log : list attempt) (claims : list (option nat)) : Prop := mkInv {
  inv_shared : shared_ok (memory q) (enqueued q) (dequeued q) log claims;
  inv_pending : pending log = zsum attempts_of (threads q);
  inv_owned : zsum owned_z claims = zsum claims_of (threads q);
  inv_knows : forall i p, threads q !! i = Some p ->
    knows log claims (length (enqueued q)) (slots (memory q)) i p;
  inv_offered : forall i p, threads q !! i = Some p -> (length (enqueued q) + offering p <= offered q)%nat;
  inv_attempted : length log = attempted q
}.

(** *** What the other threads know stays so *)

(** The thread [i] has changed only its own attempts, and its own claims. *)
Definition changes (i : nat) (log log' : list attempt) : Prop :=
  (forall k x, log !! k = Some x -> x <> Pending i -> log' !! k = Some x) /\
  (forall k, given_up (take k log) <= given_up (take k log')) /\
  given_up log <= given_up log'.
Definition claim_changes (i : nat) (claims claims' : list (option nat)) : Prop :=
  forall k x, claims !! k = Some x -> x <> Some i -> claims' !! k = Some x.

Lemma changes_refl i log : changes i log log.
Proof. done. Qed.
Lemma claim_changes_refl i claims : claim_changes i claims claims.
Proof. intros k x Hk _. exact Hk. Qed.

Lemma range_changes {A} (l l' : list A) k n x :
  (forall j y, l !! j = Some y -> y = x -> l' !! j = Some y) -> range l k n x -> range l' k n x.
Proof. intros Hl Hr j Hj. apply Hl; [|done]. by apply Hr. Qed.

Lemma knows_changes log log' claims claims' tail tail' m m' i j p :
  knows log claims tail m j p -> i <> j -> changes i log log' -> claim_changes i claims claims' ->
  (tail <= tail')%nat -> (j = O -> tail' = tail /\ forall k, Z.of_nat tail <= k -> m' !! k = m !! k) ->
  knows log' claims' tail' m' j p.
Proof.
  intros Hk Hne (Hl & Hg & Hga) Hc Ht H0.
  assert (forall k n, range log k n (Pending j) -> range log' k n (Pending j)) as Hr.
  { intros k n. apply range_changes. intros a y Ha ->. apply Hl; [done|]. congruence. }
  assert (forall k, rank log' k <= rank log k) as Hrank by (intros k; unfold rank; specialize (Hg k); lia).
  destruct p as [|xs|xs a|xs a|xs a|r|r a|r a o|r o d|r o my d|e n|n|a n]; cbn in *; try done.
  - destruct Hk as [-> ->]. by destruct (H0 eq_refl) as [-> _].
  - destruct Hk as [-> ->]. by destruct (H0 eq_refl) as [-> _].
  - destruct Hk as (-> & -> & Hm). destruct (H0 eq_refl) as [-> Hm']. split; [done|]. split; [done|].
    intros k x Hx. rewrite Hm' by lia. by apply Hm.
  - split; [apply Hk|]. lia.
  - split; [apply Hk|]. lia.
  - lia.
  - destruct Hk as (Hd & Hmy & Ho & Hra). specialize (Hg (Z.to_nat my)). repeat split; [lia..|]. by apply Hr.
  - destruct Hk as (He & Hn & k & Hra & Hle). repeat split; [done..|]. exists k. split; [by apply Hr|].
    intros Hpos. specialize (Hle Hpos). specialize (Hrank k). lia.
  - destruct Hk as (Hn & k & Hra & Hle). split; [done|]. exists k. split; [by apply Hr|]. specialize (Hrank k). lia.
  - destruct Hk as (Hn & Ha & Hra). repeat split; [done..|]. revert Hra. apply range_changes.
    intros b y Hb ->. apply Hc; [done|]. congruence.
Qed.

Lemma knows_offering log claims tail m j p :
  knows log claims tail m j p -> j <> O -> offering p = O.
Proof. destruct p; cbn; intuition. Qed.

(** A step of thread [i], from what it does to the shared memory. *)
Lemma inv_step q log claims i p p' s' enq' deq' off' att' log' claims' :
  inv q log claims -> threads q !! i = Some p ->
  shared_ok s' enq' deq' log' claims' ->
  changes i log log' -> claim_changes i claims claims' ->
  pending log' - attempts_of p' = pending log - attempts_of p ->
  zsum owned_z claims' - claims_of p' = zsum owned_z claims - claims_of p ->
  knows log' claims' (length enq') (slots s') i p' ->
  (length (enqueued q) <= length enq' <= length (enqueued q) + offering p)%nat ->
  (i <> O -> length enq' = length (enqueued q) /\
     forall k, Z.of_nat (length (enqueued q)) <= k -> slots s' !! k = slots (memory q) !! k) ->
  (offered q <= off')%nat -> (length enq' + offering p' <= off')%nat -> length log' = att' ->
  inv (mk (<[i := p']> (threads q)) s' enq' deq' off' att') log' claims'.
Proof.
  intros [Hsh Hp Ho Hk Hof Hat] Hi Hsh' Hch Hcl Ep Eo Hk' Hlen Hother Hoff Hoff' Hatt.
  split; cbn; [done| | | | |done].
  - rewrite (zsum_insert _ _ _ _ _ Hi). lia.
  - rewrite (zsum_insert _ _ _ _ _ Hi). lia.
  - intros j pj Hj. destruct (decide (i = j)) as [<-|Hne].
    + rewrite list_lookup_insert_eq in Hj by (by eapply lookup_lt_Some). by injection Hj as <-.
    + rewrite list_lookup_insert_ne in Hj by done.
      eapply knows_changes; [exact (Hk j pj Hj)|exact Hne|done|done|lia|]. intros ->. by apply Hother.
  - intros j pj Hj. destruct (decide (i = j)) as [<-|Hne].
    + rewrite list_lookup_insert_eq in Hj by (by eapply lookup_lt_Some). by injection Hj as <-.
    + rewrite list_lookup_insert_ne in Hj by done. specialize (Hof j pj Hj). specialize (Hk j pj Hj).
      destruct (decide (i = O)) as [->|Hi0].
      * rewrite (knows_offering _ _ _ _ _ _ Hk) by done. lia.
      * destruct (Hother Hi0) as [-> _]. lia.
Qed.

(** *** No more elements are claimed than there are *)

Lemma given_up_nonneg (l : list attempt) : 0 <= given_up l.
Proof. apply zsum_nonneg, Forall_forall. intros [] _; cbn; lia. Qed.

Lemma weights_length (l : list attempt) : pending l + taken l + given_up l = Z.of_nat (length l).
Proof. induction l as [|[] l IH]; [done|..]; cbn [length]; rewrite !zsum_cons; cbn; lia. Qed.

Lemma pending_nonneg (l : list attempt) : 0 <= pending l.
Proof. apply zsum_nonneg, Forall_forall. intros [] _; cbn; lia. Qed.

Lemma owned_nonneg (l : list (option nat)) : 0 <= zsum owned_z l.
Proof. apply zsum_nonneg, Forall_forall. intros [] _; cbn; lia. Qed.

Lemma rank_app log log' k : (k <= length log)%nat -> rank (log ++ log') k = rank log k.
Proof. intros Hk. unfold rank. by rewrite take_app_le. Qed.

(** The last attempt that has become an index has fewer attempts before it
    that were not given up than there are elements. *)
Lemma taken_le_rank log (n : Z) :
  0 <= n -> (forall k, log !! k = Some Taken -> rank log k < n) -> taken log <= n.
Proof.
  intros Hn. induction log as [|a log IH] using rev_ind; [done|]. intros Hr.
  rewrite zsum_app, zsum_cons. change (taken []) with 0.
  assert (taken log <= n) as Hle.
  { apply IH. intros k Hk. pose proof (lookup_lt_Some _ _ _ Hk). rewrite <- (rank_app log [a]) by lia.
    apply Hr. by apply lookup_app_l_Some. }
  destruct a; cbn; [lia| |lia].
  specialize (Hr (length log)). rewrite rank_app in Hr by done.
  specialize (Hr (list_lookup_middle _ _ _ _ eq_refl)). unfold rank in Hr. rewrite firstn_all in Hr.
  pose proof (weights_length log). pose proof (pending_nonneg log). lia.
Qed.

Lemma rank_set_range log k n i x j :
  range log k n (Pending i) -> (k + n <= length log)%nat -> rank (set_range k n x log) j <= rank log j.
Proof.
  intros Hr Hl. unfold rank.
  pose proof (zsum_take_set_range given_up_z log k n x (Pending i) j Hr Hl ltac:(destruct x; cbn; lia)). lia.
Qed.

Lemma set_range_changes log k n i x :
  range log k n (Pending i) -> (k + n <= length log)%nat -> changes i log (set_range k n x log).
Proof.
  intros Hr Hl. split; [|split].
  - intros j y Hj Hy. rewrite lookup_set_range by done. case_decide as Hd; [|done].
    rewrite (Hr j Hd) in Hj. congruence.
  - intros j. apply (zsum_take_set_range given_up_z _ _ _ _ (Pending i)); [done|done|]. destruct x; cbn; lia.
  - rewrite (zsum_set_range _ _ _ _ _ _ Hr Hl). destruct x; cbn; lia.
Qed.

Lemma rank_mono log j k : (j <= k)%nat -> rank log k <= rank log j + Z.of_nat (k - j).
Proof.
  intros Hjk. unfold rank.
  pose proof (zsum_take_mono given_up_z log j k ltac:(intros []; cbn; lia) Hjk). lia.
Qed.

(** *** The looks at the counters *)

Lemma circular_positive x : Z.abs x < 2 ^ 63 -> circular_less_than 64 0 (u64 x) = (0 <? x).
Proof. intros Hx. change 0 with (u64 0) at 1. apply circular_less_than_near; lia. Qed.

Lemma circular_small a b : 0 <= a < 2 ^ 63 -> 0 <= b < 2 ^ 63 -> circular_less_than 64 a b = (a <? b).
Proof.
  intros Ha Hb. rewrite <- (wrap_small 64 a), <- (wrap_small 64 b) at 1 by (unfold in_width; lia).
  apply circular_less_than_near; lia.
Qed.

Lemma desire_spec r j opt o d :
  0 <= j < 2 ^ 63 -> 0 <= o <= opt -> opt < 2 ^ 63 -> request_ok r -> desire r j opt o = Some d ->
  1 <= d <= j - (opt - o).
Proof.
  intros Hj Ho Hopt Hr. unfold desire. rewrite (wrap_small 64 (opt - o)) by (unfold in_width; lia).
  destruct r as [|max]; cbn in Hr.
  - rewrite circular_small by lia. destruct (Z.ltb_spec (opt - o) j); [|done]. intros [= <-]. lia.
  - rewrite circular_positive by lia. destruct (Z.ltb_spec 0 (j - (opt - o))); [|done].
    rewrite wrap_small by (unfold in_width; lia). destruct (Z.ltb_spec (j - (opt - o)) max); intros [= <-]; lia.
Qed.

Lemma actual_spec r tail my o d :
  0 <= tail < 2 ^ 63 -> 0 <= o <= my -> my < 2 ^ 63 -> 1 <= d ->
  0 <= actual r tail my o d <= d /\ (0 < actual r tail my o d -> my - o + actual r tail my o d <= tail).
Proof.
  intros Ht Ho Hm Hd. unfold actual. rewrite (wrap_small 64 (my - o)) by (unfold in_width; lia).
  destruct r as [|max].
  - rewrite circular_small by lia. destruct (Z.ltb_spec (my - o) tail); lia.
  - rewrite circular_positive by lia. destruct (Z.ltb_spec 0 (tail - (my - o))); [|lia].
    rewrite wrap_small by (unfold in_width; lia). destruct (Z.ltb_spec d (tail - (my - o))); lia.
Qed.

Lemma construct_all_lookup i xs m j :
  0 <= i -> i + Z.of_nat (length xs) < 2 ^ 64 ->
  construct_all i xs m !! j =
  if decide (i <= j < i + Z.of_nat (length xs)) then xs !! Z.to_nat (j - i) else m !! j.
Proof.
  revert i m. induction xs as [|x xs IH]; intros i m Hi Hlt; cbn [construct_all length] in *.
  - by rewrite decide_False by lia.
  - rewrite wrap_small by (unfold in_width; lia). rewrite IH by lia.
    destruct (decide (j = i)) as [->|Hne].
    + rewrite decide_False, lookup_insert_eq, decide_True by lia. by rewrite Z.sub_diag.
    + rewrite lookup_insert_ne by done. case_decide as H1; [rewrite decide_True by lia|by rewrite decide_False by lia].
      replace (Z.to_nat (j - i)) with (S (Z.to_nat (j - (i + 1)))) by lia. done.
Qed.

(** ** Each step keeps the invariant *)

Section Steps.
Context (q : t) (log : list attempt) (claims : list (option nat)) (i : nat) (p : pc).
Hypothesis Hinv : inv q log claims.
Hypothesis Hi : threads q !! i = Some p.
Hypothesis small_offered : Z.of_nat (offered q) < 2 ^ 63.
Hypothesis small_attempted : Z.of_nat (attempted q) < 2 ^ 63.

Let Hsh : shared_ok (memory q) (enqueued q) (dequeued q) log claims := inv_shared _ _ _ Hinv.

Lemma enqueued_small : Z.of_nat (length (enqueued q)) < 2 ^ 63.
Proof. pose proof (inv_offered _ _ _ Hinv i p Hi). lia. Qed.

Lemma log_small : Z.of_nat (length log) < 2 ^ 63.
Proof. pose proof (inv_attempted _ _ _ Hinv). lia. Qed.

Lemma claims_le : (length claims <= length (enqueued q))%nat.
Proof.
  pose proof (taken_le_rank log (Z.of_nat (length (enqueued q))) ltac:(lia) (ok_rank _ _ _ _ _ Hsh)).
  rewrite (ok_taken _ _ _ _ _ Hsh) in *. lia.
Qed.

(** A step that leaves the shared memory alone. *)
Lemma silent_inv p' off' :
  attempts_of p' = attempts_of p -> claims_of p' = claims_of p ->
  knows log claims (length (enqueued q)) (slots (memory q)) i p' ->
  (offered q <= off')%nat -> (length (enqueued q) + offering p' <= off')%nat ->
  inv (mk (<[i := p']> (threads q)) (memory q) (enqueued q) (dequeued q) off' (attempted q)) log claims.
Proof.
  intros Ea Ec Hk Ho Ho'. eapply inv_step; [exact Hinv|exact Hi|exact Hsh| | | | |exact Hk| | |done|done|];
    [apply changes_refl|apply claim_changes_refl|lia|lia|lia|done|apply (inv_attempted _ _ _ Hinv)].
Qed.

Lemma construct_inv_step xs a :
  p = EnqConstruct xs a ->
  inv (mk (<[i := EnqStoreTail xs (u64 (a + Z.of_nat (length xs)))]> (threads q))
     (set_slots (construct_all a xs (slots (memory q))) (memory q)) (enqueued q) (dequeued q) (offered q) (attempted q))
    log claims.
Proof.
  intros Ep. pose proof (inv_knows _ _ _ Hinv i p Hi) as Hk. pose proof (inv_offered _ _ _ Hinv i p Hi) as Ho.
  rewrite Ep in Hk, Ho. cbn in Hk, Ho. destruct Hk as [Hi0 ->].
  eapply inv_step; [exact Hinv|exact Hi| |apply changes_refl|apply claim_changes_refl| | | | |done|done| |];
    rewrite ?Ep; cbn; [|lia|lia| |lia|lia|apply (inv_attempted _ _ _ Hinv)].
  - destruct Hsh. split; cbn; try done. intros k x Hk. rewrite construct_all_lookup by lia.
    pose proof (lookup_lt_Some _ _ _ Hk). rewrite decide_False by lia. by apply ok_slots0.
  - split; [done|]. rewrite wrap_small by (unfold in_width; lia). split; [lia|]. intros k x Hk.
    pose proof (lookup_lt_Some _ _ _ Hk). rewrite construct_all_lookup, decide_True by lia.
    rewrite <- Hk. f_equal. lia.
Qed.

Lemma store_tail_inv xs a :
  p = EnqStoreTail xs a ->
  inv (mk (<[i := Idle]> (threads q)) (set_tail a (memory q)) (enqueued q ++ xs) (dequeued q) (offered q) (attempted q))
    log claims.
Proof.
  intros Ep. pose proof (inv_knows _ _ _ Hinv i p Hi) as Hk. pose proof (inv_offered _ _ _ Hinv i p Hi) as Ho.
  rewrite Ep in Hk, Ho. cbn in Hk, Ho. destruct Hk as (Hi0 & -> & Hm). pose proof claims_le.
  eapply inv_step; [exact Hinv|exact Hi| |apply changes_refl|apply claim_changes_refl| | | | |done|done| |];
    rewrite ?Ep; cbn; rewrite ?length_app; [|lia|lia|done|lia|lia|apply (inv_attempted _ _ _ Hinv)].
  destruct Hsh. split; cbn; rewrite ?length_app; try done.
  - intros k Hk. specialize (ok_rank0 k Hk). lia.
  - intros k x [Hk|[Hge Hk]]%lookup_app_Some; [by apply ok_slots0|].
    rewrite decide_False by (rewrite (proj2 (lookup_ge_None _ _)) by lia; done).
    specialize (Hm _ _ Hk). by replace (length (enqueued q) + (k - length (enqueued q)))%nat with k in Hm by lia.
  - intros k x Hk. destruct (ok_dequeued0 k x Hk) as (? & ? & ?). split; [done|]. split; [|done].
    by apply lookup_app_l_Some.
Qed.

Lemma fetch_add_inv r o d :
  p = DeqFetchAdd r o d -> Z.of_nat (attempted q + Z.to_nat d) < 2 ^ 63 ->
  o <= dequeueOptimisticCount (memory q) /\
  inv (mk (<[i := DeqReloadTail r o (dequeueOptimisticCount (memory q)) d]> (threads q))
     (set_optimistic (u64 (dequeueOptimisticCount (memory q) + d)) (memory q)) (enqueued q) (dequeued q) (offered q)
     (attempted q + Z.to_nat d))
    (log ++ replicate (Z.to_nat d) (Pending i)) claims.
Proof.
  intros Ep Hsmall. pose proof (inv_knows _ _ _ Hinv i p Hi) as Hk. pose proof (inv_offered _ _ _ Hinv i p Hi) as Ho.
  pose proof (inv_attempted _ _ _ Hinv) as Hatt.
  rewrite Ep in Hk, Ho. cbn in Hk, Ho. destruct Hk as (Hd & Hoc).
  pose proof (weights_length log) as Hw. pose proof (pending_nonneg log).
  assert (0 <= taken log) by (rewrite (ok_taken _ _ _ _ _ Hsh); lia).
  rewrite (ok_optimistic _ _ _ _ _ Hsh). split; [lia|].
  assert (forall f : attempt -> Z, zsum f (log ++ replicate (Z.to_nat d) (Pending i)) = zsum f log + d * f (Pending i)) as Hz.
  { intros f. rewrite zsum_app, zsum_replicate. lia. }
  eapply inv_step; [exact Hinv|exact Hi| | |apply claim_changes_refl| | | | |done|done| |];
    rewrite ?Ep; cbn; rewrite ?Hz; cbn; [| |lia|lia| |lia|lia|rewrite length_app, length_replicate; lia].
  - destruct Hsh. split; cbn; rewrite ?Hz; cbn; try lia; try done.
    + rewrite length_app, length_replicate, wrap_small by (unfold in_width; lia). lia.
    + intros k [Hk|[_ Hk]]%lookup_app_Some; [|apply lookup_replicate in Hk as [? _]; done].
      rewrite rank_app by (apply lookup_lt_Some in Hk; lia). by apply ok_rank0.
  - split; [|split].
    + intros k x Hk _. by apply lookup_app_l_Some.
    + intros k. rewrite take_app, zsum_app.
      pose proof (given_up_nonneg (take (k - length log) (replicate (Z.to_nat d) (Pending i)))). lia.
    + rewrite Hz. cbn. lia.
  - rewrite Nat2Z.id, take_app_length. repeat split; [lia..|]. intros k Hk.
    rewrite lookup_app_r by lia. apply lookup_replicate_2. lia.
Qed.

Lemma give_up_inv e n :
  p = DeqGiveUp e n ->
  exists log', inv (mk (<[i := if n =? 0 then Idle else DeqClaim n]> (threads q))
     (set_overcommit (u64 (dequeueOvercommit (memory q) + e)) (memory q)) (enqueued q) (dequeued q) (offered q) (attempted q))
    log' claims.
Proof.
  intros Ep. pose proof (inv_knows _ _ _ Hinv i p Hi) as Hk. pose proof (inv_offered _ _ _ Hinv i p Hi) as Ho.
  pose proof (inv_attempted _ _ _ Hinv) as Hatt.
  rewrite Ep in Hk, Ho. cbn in Hk, Ho. destruct Hk as (He & Hn & k & Hr & Hrank).
  pose proof (range_bound log k (Z.to_nat (n + e)) (Pending i) ltac:(lia) Hr) as Hb.
  assert (range log (k + Z.to_nat n) (Z.to_nat e) (Pending i)) as Hr'.
  { intros j Hj. apply Hr. lia. }
  set (log' := set_range (k + Z.to_nat n) (Z.to_nat e) GivenUp log).
  assert (forall f : attempt -> Z, zsum f log' = zsum f log + e * (f GivenUp - f (Pending i))) as Hz.
  { intros f. unfold log'. rewrite (zsum_set_range _ _ _ _ _ _ Hr') by lia. lia. }
  assert (length log' = length log) as Hlen by (apply length_set_range; lia).
  assert (changes i log log') as Hch by (apply set_range_changes; [done|lia]).
  pose proof (weights_length log'). pose proof (pending_nonneg log').
  exists log'. assert (0 <= taken log') by (rewrite Hz, (ok_taken _ _ _ _ _ Hsh); cbn; lia).
  eapply inv_step; [exact Hinv|exact Hi| |exact Hch|apply claim_changes_refl| | | | |done|done| |];
    rewrite ?Ep; cbn; rewrite ?Hz; cbn; [| | | |lia|destruct (n =? 0); cbn; lia|lia].
  - rewrite !Hz in *. cbn in *. destruct Hsh. split; cbn; rewrite ?Hz, ?Hlen; cbn; try done; [|lia|].
    + rewrite ok_overcommit0, wrap_small; [lia|]. pose proof (given_up_nonneg log). unfold in_width. lia.
    + intros j Hj. pose proof (rank_set_range log (k + Z.to_nat n) (Z.to_nat e) i GivenUp j Hr' ltac:(lia)) as Hle. fold log' in Hle.
      assert (log !! j = Some Taken) as Hj'.
      { unfold log' in Hj. rewrite lookup_set_range in Hj by lia. case_decide; [done|exact Hj]. }
      specialize (ok_rank0 j Hj'). lia.
  - destruct (Z.eqb_spec n 0); cbn; lia.
  - destruct (n =? 0); cbn; lia.
  - destruct (Z.eqb_spec n 0); cbn; [done|]. split; [lia|]. exists k. split.
    + intros j Hj. unfold log'. rewrite lookup_set_range, decide_False by lia. apply Hr. lia.
    + pose proof (rank_set_range log (k + Z.to_nat n) (Z.to_nat e) i GivenUp k Hr' ltac:(lia)) as Hle. fold log' in Hle. lia.
Qed.

Lemma claim_inv n :
  p = DeqClaim n ->
  exists log', inv (mk (<[i := DeqTake (headIndex (memory q)) n]> (threads q))
     (set_head (u64 (headIndex (memory q) + n)) (memory q)) (enqueued q) (dequeued q) (offered q) (attempted q))
    log' (claims ++ replicate (Z.to_nat n) (Some i)).
Proof.
  intros Ep. pose proof (inv_knows _ _ _ Hinv i p Hi) as Hk. pose proof (inv_offered _ _ _ Hinv i p Hi) as Ho.
  pose proof (inv_attempted _ _ _ Hinv) as Hatt. pose proof enqueued_small.
  rewrite Ep in Hk, Ho. cbn in Hk, Ho. destruct Hk as (Hn & k & Hr & Hrank).
  pose proof (range_bound log k (Z.to_nat n) (Pending i) ltac:(lia) Hr) as Hb.
  set (log' := set_range k (Z.to_nat n) Taken log).
  assert (forall f : attempt -> Z, zsum f log' = zsum f log + n * (f Taken - f (Pending i))) as Hz.
  { intros f. unfold log'. rewrite (zsum_set_range _ _ _ _ _ _ Hr) by lia. lia. }
  assert (length log' = length log) as Hlen by (apply length_set_range; lia).
  assert (changes i log log') as Hch by (apply set_range_changes; [done|lia]).
  assert (forall j, log' !! j = Some Taken -> rank log' j < Z.of_nat (length (enqueued q))) as Hranks.
  { intros j Hj. pose proof (rank_set_range log k (Z.to_nat n) i Taken j Hr ltac:(lia)) as Hle. fold log' in Hle.
    unfold log' in Hj. rewrite lookup_set_range in Hj by lia. case_decide as Hd.
    - pose proof (rank_mono log k j ltac:(lia)). lia.
    - pose proof (ok_rank _ _ _ _ _ Hsh j Hj). lia. }
  pose proof (taken_le_rank log' (Z.of_nat (length (enqueued q))) ltac:(lia) Hranks) as Htk.
  assert (forall f : option nat -> Z, zsum f (claims ++ replicate (Z.to_nat n) (Some i)) = zsum f claims + n * f (Some i)) as Hzc.
  { intros f. rewrite zsum_app, zsum_replicate. lia. }
  exists log'. rewrite Hz, (ok_taken _ _ _ _ _ Hsh) in Htk. cbn in Htk.
  eapply inv_step; [exact Hinv|exact Hi| |exact Hch| | | | | |done|done| |];
    rewrite ?Ep; cbn; rewrite ?Hz, ?Hzc; cbn; [| |lia|lia| |lia|lia|lia].
  - destruct Hsh. split; cbn; rewrite ?Hz, ?Hlen, ?length_app, ?length_replicate, ?Hzc; cbn; try done; try lia.
    + rewrite ok_head0, wrap_small by (unfold in_width; lia). lia.
    + intros j x Hj. rewrite (ok_slots0 j x Hj). destruct (decide (claims !! j = Some None)) as [Hd|Hd].
      * by rewrite decide_True by (by apply lookup_app_l_Some).
      * rewrite decide_False; [done|]. intros [?|[_ Hj']]%lookup_app_Some; [done|].
        by apply lookup_replicate in Hj' as [? _].
    + intros j x Hj. destruct (ok_dequeued0 j x Hj) as (? & ? & ?). repeat split; [done..|]. by apply lookup_app_l_Some.
  - intros j x Hj _. by apply lookup_app_l_Some.
  - rewrite (ok_head _ _ _ _ _ Hsh), Nat2Z.id. split; [lia|]. split; [lia|]. intros j Hj.
    rewrite lookup_app_r by lia. apply lookup_replicate_2. lia.
Qed.

Lemma take_inv a n :
  p = DeqTake a n -> n <> 0 ->
  exists x claims', slots (memory q) !! a = Some x /\ enqueued q !! Z.to_nat a = Some x /\
  inv (mk (<[i := DeqTake (u64 (a + 1)) (n - 1)]> (threads q)) (set_slots (delete a (slots (memory q))) (memory q))
     (enqueued q) ((a, x) :: dequeued q) (offered q) (attempted q))
    log claims'.
Proof.
  intros Ep Hn0. pose proof (inv_knows _ _ _ Hinv i p Hi) as Hk. pose proof (inv_offered _ _ _ Hinv i p Hi) as Ho.
  pose proof claims_le as Hcle. pose proof enqueued_small.
  rewrite Ep in Hk, Ho. cbn in Hk, Ho. destruct Hk as (Hn & Ha & Hr).
  pose proof (Hr (Z.to_nat a) ltac:(lia)) as Ec. pose proof (lookup_lt_Some _ _ _ Ec) as Hlt.
  destruct (lookup_lt_is_Some_2 (enqueued q) (Z.to_nat a) ltac:(lia)) as [x Ex].
  assert (slots (memory q) !! a = Some x) as Es.
  { pose proof (ok_slots _ _ _ _ _ Hsh _ _ Ex) as E. rewrite Z2Nat.id in E by done.
    by rewrite decide_False in E by congruence. }
  set (claims' := <[Z.to_nat a := None]> claims).
  assert (length claims' = length claims) as Hlen by apply length_insert.
  assert (zsum owned_z claims' = zsum owned_z claims - 1) as Hz
    by (unfold claims'; rewrite (zsum_insert _ _ _ _ _ Ec); cbn; lia).
  exists x, claims'. split; [done|]. split; [done|].
  eapply inv_step; [exact Hinv|exact Hi| |apply changes_refl| | | | | | |done| |];
    rewrite ?Ep; cbn; rewrite ?Hz; [| |lia|lia| |lia| |lia|apply (inv_attempted _ _ _ Hinv)].
  - destruct Hsh. split; cbn; rewrite ?Hz, ?Hlen; try done; try lia.
    + intros k y Hy. destruct (decide (k = Z.to_nat a)) as [->|Hne].
      * rewrite Z2Nat.id, lookup_delete_eq by done. unfold claims'.
        rewrite list_lookup_insert_eq by lia. by rewrite decide_True.
      * rewrite lookup_delete_ne by lia. unfold claims'. rewrite list_lookup_insert_ne by done. by apply ok_slots0.
    + intros b y [[= -> ->]|Hin]%elem_of_cons.
      * split; [done|]. split; [done|]. by apply list_lookup_insert_eq.
      * destruct (ok_dequeued0 b y Hin) as (Hb & Hy & Hcb). repeat split; [done..|]. unfold claims'.
        rewrite list_lookup_insert_ne; [done|]. congruence.
    + change (NoDup (a :: (fst <$> dequeued q))). constructor; [|done]. intros ([b y] & Heq & Hin)%list_elem_of_fmap. cbn in Heq.
      subst b. destruct (ok_dequeued0 a y Hin) as (_ & _ & Hcb). congruence.
  - intros k y Hy Hne. unfold claims'. rewrite list_lookup_insert_ne; [done|]. congruence.
  - rewrite wrap_small by (unfold in_width; lia). split; [lia|]. split; [lia|]. intros k Hk. unfold claims'.
    rewrite list_lookup_insert_ne by lia. apply Hr. lia.
  - intros _. split; [done|]. intros k Hk. rewrite lookup_delete_ne; [done|]. lia.
Qed.
End Steps.

(** ** Every run *)

(** The counters stay below half of the range of 64 bits, where comparing them
    circularly is comparing them: that many elements and attempts is the
    life of a producer. *)
Definition small (q : t) : Prop := Z.of_nat (offered q) < 2 ^ 63 /\ Z.of_nat (attempted q) < 2 ^ 63.

Lemma turn_grows i ch q q' :
  turn i ch q = Next q' -> (offered q <= offered q')%nat /\ (attempted q <= attempted q')%nat.
Proof.
  unfold turn. destruct (threads q !! i) as [p|]; [|done]. destruct (may_call i ch); [|done].
  destruct (step ch p (memory q)) as [| |[[p' s] out]]; [done..|]. intros [= <-]. cbn.
  destruct ch, p; lia.
Qed.

Lemma run_grows schedule q q' :
  run schedule q = Next q' -> (offered q <= offered q')%nat /\ (attempted q <= attempted q')%nat.
Proof.
  revert q. induction schedule as [|[i ch] schedule IH]; intros q; cbn [run]; [by intros [= <-]|].
  destruct (turn i ch q) as [| |q1] eqn:E; [done..|]. intros Hr. apply turn_grows in E. apply IH in Hr. lia.
Qed.

(** No step faults, and every step keeps the invariant. *)
Lemma claim_turn_inv i ch q log claims :
  inv q log claims -> small q ->
  turn i ch q <> Fault /\ forall q', turn i ch q = Next q' -> small q' -> exists log' claims', inv q' log' claims'.
Proof.
  intros Hinv [Hso Hsa]. unfold turn. destruct (threads q !! i) as [p|] eqn:Hi; [|done].
  destruct (may_call i ch) eqn:Hmay; [|done].
  pose proof (inv_knows _ _ _ Hinv i p Hi) as Hk. pose proof (inv_offered _ _ _ Hinv i p Hi) as Hof.
  pose proof (inv_shared _ _ _ Hinv) as Hsh.
  pose proof (enqueued_small q log claims i p Hinv Hi Hso) as Hen.
  pose proof (claims_le q log claims Hinv) as Hcl. pose proof (log_small q log claims Hinv Hsa) as Hlo.
  pose proof (weights_length log) as Hw. pose proof (pending_nonneg log) as Hpn.
  pose proof (given_up_nonneg log) as Hgn. pose proof (ok_taken _ _ _ _ _ Hsh) as Htk.
  assert (forall p' off', attempts_of p' = attempts_of p -> claims_of p' = claims_of p ->
    knows log claims (length (enqueued q)) (slots (memory q)) i p' ->
    (offered q <= off')%nat -> (length (enqueued q) + offering p' <= off')%nat ->
    exists log' claims', inv (mk (<[i := p']> (threads q)) (memory q) (enqueued q) (dequeued q) off' (attempted q)) log' claims')
    as Hsilent by (intros; exists log, claims; by apply (silent_inv q log claims i p)).
  destruct p as [|xs|xs a|xs a|xs a|r|r a|r a o|r o d|r o my d|e n|n|a n], ch as [ys|r'|]; cbn [step]; try done;
    cbn [knows] in Hk; cbn [offering] in Hof.
  - split; [done|]. intros q' [= <-] [Hs _]. cbn in Hs. cbn [may_call] in Hmay. apply bool_decide_eq_true in Hmay.
    apply Hsilent; cbn; [done|done|done|lia|lia].
  - split; [done|]. intros q' [= <-] _. apply Hsilent; cbn; [done|done| |lia|lia].
    destruct r' as [|max]; cbn in *; [done|]. by apply Z.leb_le.
  - split; [done|]. intros q' [= <-] _. apply Hsilent; cbn; [done|done| |lia|lia].
    split; [done|]. apply (ok_tail _ _ _ _ _ Hsh).
  - destruct Hk as [-> ->]. rewrite (ok_head _ _ _ _ _ Hsh), circular_small by lia.
    rewrite (proj2 (Z.ltb_ge _ _)) by lia. split; [done|]. intros q' [= <-] _. apply Hsilent; cbn; [done..|lia|lia].
  - split; [done|]. intros q' [= <-] _. exists log, claims. by apply construct_inv_step with (p := EnqConstruct xs a).
  - split; [done|]. intros q' [= <-] _. exists log, claims. by apply store_tail_inv with (p := EnqStoreTail xs a).
  - split; [done|]. intros q' [= <-] _. apply Hsilent; cbn; [done|done| |lia|lia].
    rewrite (ok_tail _ _ _ _ _ Hsh). split; [done|lia].
  - split; [done|]. intros q' [= <-] _. apply Hsilent; cbn; [done|done| |lia|lia].
    rewrite (ok_overcommit _ _ _ _ _ Hsh). split; [apply Hk|lia].
  - destruct Hk as (Hr & Ha & Ho). rewrite (ok_optimistic _ _ _ _ _ Hsh).
    destruct (desire r a (Z.of_nat (length log)) o) as [d|] eqn:Ed;
      (split; [done|]); intros q' [= <-] _; (apply Hsilent; cbn; [done|done| |lia|lia]); [|done].
    apply desire_spec in Ed; [lia|lia|lia|lia|done].
  - destruct (Z.leb_spec o (dequeueOptimisticCount (memory q))) as [|Hlt].
    + split; [done|]. intros q' [= <-] [_ Hs]. cbn in Hs. do 2 eexists.
      by eapply (fetch_add_inv q log claims i (DeqFetchAdd r o d)).
    + rewrite (ok_optimistic _ _ _ _ _ Hsh) in Hlt. lia.
  - destruct Hk as (Hd & Hmy & Ho & Hr). rewrite (ok_tail _ _ _ _ _ Hsh).
    pose proof (range_bound log (Z.to_nat my) (Z.to_nat d) (Pending i) ltac:(lia) Hr) as Hb.
    pose proof (weights_length (take (Z.to_nat my) log)) as Hwt. rewrite length_take in Hwt.
    pose proof (pending_nonneg (take (Z.to_nat my) log)).
    assert (0 <= taken (take (Z.to_nat my) log)) by (apply zsum_nonneg, Forall_forall; intros [] _; cbn; lia).
    destruct (actual_spec r (Z.of_nat (length (enqueued q))) my o d) as [Hn Hrank]; [lia|lia|lia|lia|].
    set (n := actual _ _ _ _ _) in *. split; [done|]. intros q' [= <-] _. apply Hsilent; cbn.
    + destruct (Z.ltb_spec n d); cbn; lia.
    + by destruct (n <? d).
    + destruct (Z.ltb_spec n d); cbn.
      * split; [lia|]. split; [lia|]. exists (Z.to_nat my). replace (n + (d - n)) with d by lia. split; [done|].
        unfold rank. lia.
      * split; [lia|]. exists (Z.to_nat my). replace n with d by lia. split; [done|]. unfold rank. lia.
    + lia.
    + destruct (n <? d); cbn; lia.
  - split; [done|]. intros q' [= <-] _.
    destruct (give_up_inv q log claims i (DeqGiveUp e n) Hinv Hi Hsa e n eq_refl) as (log' & ?). by exists log', claims.
  - split; [done|]. intros q' [= <-] _.
    destruct (claim_inv q log claims i (DeqClaim n) Hinv Hi Hso n eq_refl) as (log' & ?). eauto.
  - destruct (Z.eqb_spec n 0) as [->|Hn].
    + split; [done|]. intros q' [= <-] _. by apply Hsilent; cbn; [..|lia|lia].
    + destruct (take_inv q log claims i (DeqTake a n) Hinv Hi Hso a n eq_refl Hn) as (x & claims' & -> & _ & ?).
      split; [done|]. intros q' [= <-] _. eauto.
Qed.

Lemma claim_construct_inv n : inv (construct n) [] [].
Proof.
  assert (forall i p, threads (construct n) !! i = Some p -> p = Idle) as Hidle.
  { intros i p Hp. apply list_elem_of_lookup_2, list_elem_of_In, repeat_spec in Hp. done. }
  split; [split| | | | |done]; cbn; try done.
  - intros j x Hj. by apply elem_of_nil in Hj.
  - constructor.
  - by rewrite zsum_repeat.
  - by rewrite zsum_repeat.
  - intros i p Hp. by rewrite (Hidle i p Hp).
  - intros i p Hp. by rewrite (Hidle i p Hp).
Qed.

Lemma claim_run_inv n schedule q :
  run schedule (construct n) = Next q -> small q -> exists log claims, inv q log claims.
Proof.
  intros Hr Hs. assert (exists log claims, inv (construct n) log claims) as (log & claims & Hinv)
    by (do 2 eexists; apply claim_construct_inv).
  revert log claims Hr Hinv. generalize (construct n). induction schedule as [|[i ch] schedule IH]; intros q0 log claims; cbn [run].
  - intros [= ->]. eauto.
  - destruct (turn i ch q0) as [| |q1] eqn:E; [done..|]. intros Hr Hinv.
    assert (small q1) as Hs1 by (apply run_grows in Hr; destruct Hs; split; lia).
    assert (small q0) as Hs0 by (apply turn_grows in E; destruct Hs1; split; lia).
    destruct (proj2 (claim_turn_inv i ch q0 log claims Hinv Hs0) q1 E Hs1) as (log1 & claims1 & Hinv1).
    exact (IH q1 log1 claims1 Hr Hinv1).
Qed.

(** C17: every element is dequeued at most once, and only after it has been
    enqueued. While fewer than 2^63 elements are offered and attempts made
    ([small]), whatever the interleaving of one producer with any number of
    consumers, no assertion fails and no consumer touches a slot without an
    element; the head never passes the tail; each dequeued element is the one
    enqueued at its index, and no index is dequeued twice. *)
Theorem claims_are_sound n schedule q :
  run schedule (construct n) = Next q -> small q ->
  (forall i ch, turn i ch q <> Fault) /\
  0 <= headIndex (memory q) <= tailIndex (memory q) /\
  NoDup (fst <$> dequeued q) /\
  (forall j x, (j, x) ∈ dequeued q -> 0 <= j < headIndex (memory q) /\ enqueued q !! Z.to_nat j = Some x).
Proof.
  intros Hr Hs. destruct (claim_run_inv n schedule q Hr Hs) as (log & claims & Hinv).
  pose proof (inv_shared _ _ _ Hinv) as Hsh.
  rewrite (ok_head _ _ _ _ _ Hsh), (ok_tail _ _ _ _ _ Hsh). split; [|split; [|split]].
  - intros i ch. by apply (claim_turn_inv i ch q log claims Hinv Hs).
  - pose proof (claims_le q log claims Hinv). lia.
  - apply (ok_nodup _ _ _ _ _ Hsh).
  - intros j x Hj. destruct (ok_dequeued _ _ _ _ _ Hsh j x Hj) as (? & ? & Hc). apply lookup_lt_Some in Hc.
    split; [lia|done].
Qed.

(** *** When no call is under way *)

Lemma omap_lookup_seq {A} (l : list A) n : (n <= length l)%nat -> omap (fun k => l !! k) (seq 0 n) = take n l.
Proof.
  induction n as [|n IH]; intros Hn; [by rewrite take_0|]. rewrite seq_S, omap_app, IH by lia. cbn.
  destruct (lookup_lt_is_Some_2 l n ltac:(lia)) as [x Hx]. rewrite Hx. cbn. symmetry. by apply take_S_r.
Qed.

(** The indices of the dequeued elements, when none is on its way. *)
Lemma dequeued_indices (deq : list (Z * T)) (n : nat) :
  NoDup (fst <$> deq) -> (forall j x, (j, x) ∈ deq -> 0 <= j < Z.of_nat n) -> length deq = n ->
  (Z.to_nat ∘ fst <$> deq) ≡ₚ seq 0 n.
Proof.
  intros Hnd Hr Hlen. apply submseteq_length_Permutation; [|rewrite length_fmap, length_seq; lia].
  apply NoDup_submseteq.
  - clear Hlen. induction deq as [|[j x] deq IH]; [constructor|]. rewrite !fmap_cons in *.
    apply NoDup_cons in Hnd as [Hj Hnd]. apply NoDup_cons. split; [|apply IH; [done|]; intros; eapply Hr; by right].
    intros ([j' x'] & Ej & Hin)%list_elem_of_fmap. apply Hj. apply list_elem_of_fmap. exists (j', x').
    split; [|done]. cbn in *. pose proof (Hr j x ltac:(left)). pose proof (Hr j' x' ltac:(by right)). lia.
  - intros k ([j x] & -> & Hin)%list_elem_of_fmap. apply elem_of_seq. specialize (Hr j x Hin). cbn. lia.
Qed.

Lemma dequeued_values (deq : list (Z * T)) (enq : list T) :
  (forall j x, (j, x) ∈ deq -> enq !! Z.to_nat j = Some x) ->
  deq.*2 = omap (fun k => enq !! k) (Z.to_nat ∘ fst <$> deq).
Proof.
  induction deq as [|[j x] deq IH]; intros Hv; [done|]. rewrite !fmap_cons. cbn.
  rewrite (Hv j x) by left. f_equal. apply IH. intros. apply Hv. by right.
Qed.

Lemma idle_counts q log claims :
  inv q log claims -> Forall (eq Idle) (threads q) ->
  pending log = 0 /\ zsum owned_z claims = 0 /\ length (dequeued q) = length claims.
Proof.
  intros Hinv Hidle. assert (forall f : pc -> Z, f Idle = 0 -> zsum f (threads q) = 0) as Hz.
  { intros f Hf. apply zsum_zero. eapply Forall_impl; [exact Hidle|]. by intros ? <-. }
  pose proof (ok_count _ _ _ _ _ (inv_shared _ _ _ Hinv)).
  rewrite (inv_pending _ _ _ Hinv), (inv_owned _ _ _ Hinv), !Hz in * by done. lia.
Qed.

Lemma unclaimed claims k : zsum owned_z claims = 0 -> (k < length claims)%nat -> claims !! k = Some None.
Proof.
  revert k. induction claims as [|o claims IH]; intros k; [cbn; lia|]. rewrite zsum_cons.
  pose proof (owned_nonneg claims). destruct o as [i|]; cbn [owned_z]; [lia|].
  intros Hz Hk. destruct k as [|k]; [done|]. apply IH; [done|]. cbn in Hk. lia.
Qed.

(** Nothing is lost. When no call is under way, the elements dequeued are
    the first ones enqueued, as many as the head says; the slots hold exactly
    the others, at their indices; and the attempts that were not given up are
    those that took an element. *)
Theorem quiescent_conserves n schedule q :
  run schedule (construct n) = Next q -> small q -> Forall (eq Idle) (threads q) -> threads q <> [] ->
  let head := Z.to_nat (headIndex (memory q)) in
  (dequeued q).*2 ≡ₚ take head (enqueued q) /\
  (forall k x, enqueued q !! k = Some x ->
     slots (memory q) !! Z.of_nat k = if decide (k < head)%nat then None else Some x) /\
  dequeueOptimisticCount (memory q) - dequeueOvercommit (memory q) = headIndex (memory q) /\
  size_approx (memory q) = Z.of_nat (length (enqueued q) - length (dequeued q)).
Proof.
  intros Hr Hs Hidle Hne head. subst head. destruct (claim_run_inv n schedule q Hr Hs) as (log & claims & Hinv).
  pose proof (inv_shared _ _ _ Hinv) as Hsh. pose proof (claims_le q log claims Hinv) as Hcl.
  destruct (idle_counts q log claims Hinv Hidle) as (Hp & Ho & Hd).
  assert (Z.of_nat (length (enqueued q)) < 2 ^ 63) as Hsmall.
  { destruct (threads q) as [|p ps] eqn:Et; [done|]. destruct Hs as [Hs _].
    exact (enqueued_small q log claims 0 p Hinv ltac:(by rewrite Et) Hs). }
  rewrite (ok_head _ _ _ _ _ Hsh), Nat2Z.id. split; [|split; [|split]].
  - rewrite (dequeued_values (dequeued q) (enqueued q)) by (intros j x Hj; apply (ok_dequeued _ _ _ _ _ Hsh j x Hj)).
    rewrite <- omap_lookup_seq by done. apply omap_Permutation, dequeued_indices; [apply (ok_nodup _ _ _ _ _ Hsh)| |done].
    intros j x Hj. destruct (ok_dequeued _ _ _ _ _ Hsh j x Hj) as (? & _ & Hc%lookup_lt_Some). lia.
  - intros k x Hx. rewrite (ok_slots _ _ _ _ _ Hsh k x Hx). case_decide as Hk.
    + by rewrite decide_True by (by eapply lookup_lt_Some).
    + rewrite decide_False; [done|]. intros Hlt. apply Hk. by apply unclaimed.
  - rewrite (ok_optimistic _ _ _ _ _ Hsh), (ok_overcommit _ _ _ _ _ Hsh).
    pose proof (weights_length log). pose proof (ok_taken _ _ _ _ _ Hsh). lia.
  - unfold size_approx. rewrite (ok_head _ _ _ _ _ Hsh), (ok_tail _ _ _ _ _ Hsh), circular_small by lia.
    rewrite Hd. destruct (Z.ltb_spec (Z.of_nat (length claims)) (Z.of_nat (length (enqueued q)))); [|lia].
    rewrite wrap_small by (unfold in_width; lia). lia.
Qed.

(** *** A call that runs alone *)

Fixpoint alone (k : nat) (p : pc) (s : shared) (deq : list (Z * T)) : option (pc * shared * list (Z * T)) :=
  match k with
  | O => Some (p, s, deq)
  | S k =>
      match p with EnqStoreTail _ _ => None | _ =>
        match step Go p s with
        | Next (p', s', out) => alone k p' s' (match out with Some x => x :: deq | None => deq end)
        | _ => None
        end
      end
  end.

Lemma claim_run_alone k i q p p' s' deq' :
  threads q !! i = Some p -> alone k p (memory q) (dequeued q) = Some (p', s', deq') ->
  exists q', run (repeat (i, Go) k) q = Next q' /\ threads q' = <[i := p']> (threads q) /\
    memory q' = s' /\ dequeued q' = deq' /\ enqueued q' = enqueued q.
Proof.
  revert q p. induction k as [|k IH]; intros q p Hi; cbn [alone repeat run].
  - intros [= -> <- <-]. exists q. by rewrite list_insert_id.
  - intros Ha. unfold turn. rewrite Hi. cbn [may_call].
    assert (exists p1 s1 out, step Go p (memory q) = Next (p1, s1, out) /\
      (forall xs a, p <> EnqStoreTail xs a) /\
      alone k p1 s1 (match out with Some x => x :: dequeued q | None => dequeued q end) = Some (p', s', deq'))
      as (p1 & s1 & out & Es & Hp & Ha').
    { destruct p; try done; (destruct (step Go _ (memory q)) as [| |[[p1 s1] out]]; [done..|];
        exists p1, s1, out; done). }
    rewrite Es.
    match goal with |- context [run _ ?q1] => destruct (IH q1 p1) as (q' & E & Et & Em & Ed & Ee) end.
    + cbn. apply list_lookup_insert_eq. by eapply lookup_lt_Some.
    + exact Ha'.
    + exists q'. split; [exact E|]. rewrite Et, Em, Ed, Ee. cbn. rewrite list_insert_insert_eq.
      repeat split. by destruct p.
Qed.

(** The loop that moves the elements out. *)
Lemma take_alone c (j : Z) s deq (xs : list T) :
  length xs = c -> 0 <= j -> j + Z.of_nat c < 2 ^ 63 ->
  (forall k x, xs !! k = Some x -> slots s !! (j + Z.of_nat k) = Some x) ->
  exists s', alone (S c) (DeqTake j (Z.of_nat c)) s deq = Some (Idle, s', rev (imap (fun k x => (j + Z.of_nat k, x)) xs) ++ deq) /\
    tailIndex s' = tailIndex s /\ headIndex s' = headIndex s.
Proof.
  revert j s deq xs. induction c as [|c IH]; intros j s deq xs Hlen Hj Hlt Hs.
  - destruct xs; [|done]. exists s. done.
  - destruct xs as [|x xs]; [done|]. cbn in Hlen.
    assert (slots s !! j = Some x) as Hx by (rewrite <- (Z.add_0_r j); by apply (Hs O)).
    cbn [alone step]. rewrite (proj2 (Z.eqb_neq _ _)) by lia. rewrite Hx.
    rewrite wrap_small by (unfold in_width; lia). replace (Z.of_nat (S c) - 1) with (Z.of_nat c) by lia.
    destruct (IH (j + 1) (set_slots (delete j (slots s)) s) ((j, x) :: deq) xs) as (s' & E & Et & Eh); [lia..| |].
    + intros k y Hk. cbn. rewrite lookup_delete_ne by lia.
      replace (j + 1 + Z.of_nat k) with (j + Z.of_nat (S k)) by lia. by apply Hs.
    + exists s'. split; [|done]. cbn [alone] in E. rewrite E. do 2 f_equal. cbn [imap]. cbn [rev].
      rewrite <- app_assoc. cbn [app]. rewrite Z.add_0_r. do 2 f_equal.
      apply imap_ext. intros k y _. cbn. f_equal. lia.
Qed.

(** How many a call asks for. *)
Definition wanted (r : request) : Z := match r with One => 1 | Bulk max => max end.

(** A call up to the claim, when all attempts so far have been settled. *)
Lemma attempt_alone r s deq tl hd opt oc :
  tailIndex s = tl -> headIndex s = hd -> dequeueOptimisticCount s = opt -> dequeueOvercommit s = oc ->
  0 <= tl < 2 ^ 63 -> 0 <= hd <= tl -> 0 <= oc -> opt = oc + hd -> opt < 2 ^ 63 -> request_ok r ->
  let c := Z.min (wanted r) (tl - hd) in
  if c =? 0 then alone 3 (DeqLoadTail r) s deq = Some (Idle, s, deq)
  else exists s', alone 6 (DeqLoadTail r) s deq = Some (DeqTake hd c, s', deq) /\
    slots s' = slots s /\ headIndex s' = hd + c.
Proof.
  intros Etl Ehd Eopt Eoc Htl Hhd Hoc Esum Hopt Hr c.
  assert (desire r tl opt oc = if c =? 0 then None else Some c) as Ed.
  { unfold desire. subst c. rewrite (wrap_small 64 (opt - oc)) by (unfold in_width; lia).
    destruct r as [|max]; cbn in Hr |- *.
    - rewrite circular_small by lia. destruct (Z.ltb_spec (opt - oc) tl), (Z.eqb_spec (Z.min 1 (tl - hd)) 0); try lia; [|done].
      f_equal. lia.
    - rewrite circular_positive by lia. rewrite wrap_small by (unfold in_width; lia).
      destruct (Z.ltb_spec 0 (tl - (opt - oc))), (Z.eqb_spec (Z.min max (tl - hd)) 0); try lia; [|done].
      f_equal. destruct (Z.ltb_spec (tl - (opt - oc)) max); lia. }
  assert (c <> 0 -> actual r tl opt oc c = c) as Ea.
  { unfold actual. subst c. intros Hc. rewrite (wrap_small 64 (opt - oc)) by (unfold in_width; lia).
    destruct r as [|max]; cbn in Hr, Hc |- *.
    - rewrite circular_small by lia. destruct (Z.ltb_spec (opt - oc) tl); lia.
    - rewrite circular_positive by lia. rewrite wrap_small by (unfold in_width; lia).
      destruct (Z.ltb_spec 0 (tl - (opt - oc))); [|lia].
      destruct (Z.ltb_spec (Z.min max (tl - hd)) (tl - (opt - oc))); lia. }
  assert (0 <= c <= tl - hd) by (subst c; destruct r; cbn in *; lia). clearbody c.
  destruct (Z.eqb_spec c 0) as [Hc|Hc].
  - cbn [alone step]. by rewrite Etl, Eopt, Eoc, Ed.
  - eexists. split; [|split].
    + cbn [alone step]. rewrite Etl, Eopt, Eoc, Ed. cbn [alone step]. rewrite Eopt.
      rewrite (proj2 (Z.leb_le _ _)) by lia. cbn [alone step tailIndex set_optimistic]. rewrite Etl, Ea by done.
      rewrite Z.ltb_irrefl. cbn [alone step headIndex set_optimistic]. rewrite Ehd.
      rewrite (wrap_small 64 (hd + c)) by (unfold in_width; lia). reflexivity.
    + done.
    + done.
Qed.

Lemma run_app a b (q : t) :
  run (a ++ b) q = match run a q with Next q => run b q | Disabled => Disabled | Fault => Fault end.
Proof.
  revert q. induction a as [|[i ch] a IH]; intros q; [done|]. cbn [app run].
  destruct (turn i ch q); [done..|]. apply IH.
Qed.

(** The whole of such a call. *)
Lemma call_alone q i r hd oc (xs : list T) :
  threads q !! i = Some (DeqLoadTail r) ->
  headIndex (memory q) = hd -> dequeueOvercommit (memory q) = oc -> dequeueOptimisticCount (memory q) = oc + hd ->
  0 <= tailIndex (memory q) < 2 ^ 63 -> 0 <= hd <= tailIndex (memory q) -> 0 <= oc -> oc + hd < 2 ^ 63 ->
  request_ok r -> Z.of_nat (length xs) = Z.min (wanted r) (tailIndex (memory q) - hd) ->
  (forall k x, xs !! k = Some x -> slots (memory q) !! (hd + Z.of_nat k) = Some x) ->
  exists k q', run (repeat (i, Go) k) q = Next q' /\ threads q' = <[i := Idle]> (threads q) /\
    dequeued q' = rev (imap (fun k x => (hd + Z.of_nat k, x)) xs) ++ dequeued q.
Proof.
  intros Hi Ehd Eoc Eopt Htl Hhd Hoc Hlt Hr Hlen Hxs.
  pose proof (attempt_alone r (memory q) (dequeued q) _ _ _ _ eq_refl Ehd Eopt Eoc Htl Hhd Hoc eq_refl Hlt Hr) as Ha.
  cbv zeta in Ha. rewrite <- Hlen in Ha. destruct (Z.eqb_spec (Z.of_nat (length xs)) 0) as [Hc|Hc].
  - destruct (claim_run_alone 3 i q _ _ _ _ Hi Ha) as (q' & E & Et & _ & Ed & _).
    exists 3%nat, q'. rewrite Et, Ed. destruct xs; [done|cbn in Hc; lia].
  - destruct Ha as (s' & Ha & Esl & _).
    destruct (claim_run_alone 6 i q _ _ _ _ Hi Ha) as (q2 & E2 & Et2 & Em2 & Ed2 & _).
    assert (threads q2 !! i = Some (DeqTake hd (Z.of_nat (length xs)))) as Hi2
      by (rewrite Et2; apply list_lookup_insert_eq; by eapply lookup_lt_Some).
    destruct (take_alone (length xs) hd s' (dequeued q) xs) as (s3 & Ha3 & _); [done|lia|lia|by rewrite Esl|].
    rewrite <- Em2, <- Ed2 in Ha3.
    destruct (claim_run_alone (S (length xs)) i q2 _ _ _ _ Hi2 Ha3) as (q3 & E3 & Et3 & _ & Ed3 & _).
    exists (6 + S (length xs))%nat, q3. rewrite repeat_app, run_app, E2. split; [exact E3|].
    rewrite Et3, Et2, list_insert_insert_eq, Ed3, Ed2. done.
Qed.

(** [dequeue] and [dequeue_bulk] do not fail for no reason. When no other
    call is under way, a call takes, in order, as many of the oldest elements
    as it asks for, or all there are. So a call of [dequeue] that runs on its
    own returns false only if the queue is empty, however many calls have been
    given up before. *)
Theorem dequeue_alone n schedule q i r :
  run schedule (construct n) = Next q -> small q -> Forall (eq Idle) (threads q) -> (i < length (threads q))%nat ->
  request_ok r ->
  let head := Z.to_nat (headIndex (memory q)) in
  let c := Z.to_nat (Z.min (wanted r) (Z.of_nat (length (enqueued q) - head))) in
  exists k q', run ((i, CallDequeue r) :: repeat (i, Go) k) q = Next q' /\ threads q' = threads q /\
    dequeued q' = rev (imap (fun k x => (Z.of_nat head + Z.of_nat k, x)) (take c (drop head (enqueued q)))) ++ dequeued q.
Proof.
  intros Hr Hs Hidle Hi Hreq head c. destruct (claim_run_inv n schedule q Hr Hs) as (log & claims & Hinv).
  pose proof (inv_shared _ _ _ Hinv) as Hsh. pose proof (claims_le q log claims Hinv) as Hcl.
  destruct (idle_counts q log claims Hinv Hidle) as (Hp & _ & _).
  destruct (lookup_lt_is_Some_2 _ _ Hi) as [p Hip].
  assert (p = Idle) as -> by (symmetry; exact (proj1 (Forall_lookup _ _) Hidle i p Hip)).
  pose proof (enqueued_small q log claims i Idle Hinv Hip (proj1 Hs)) as Hen.
  pose proof (log_small q log claims Hinv (proj2 Hs)) as Hlo. pose proof (weights_length log) as Hw.
  pose proof (given_up_nonneg log). rewrite (ok_taken _ _ _ _ _ Hsh) in Hw.
  assert (head = length claims) as Eh by (unfold head; rewrite (ok_head _ _ _ _ _ Hsh); lia).
  edestruct (call_alone (mk (<[i := DeqLoadTail r]> (threads q)) (memory q) (enqueued q) (dequeued q) (offered q) (attempted q))
    i r (Z.of_nat head) (given_up log) (take c (drop head (enqueued q)))) as (k & q' & E & Et & Ed); cbn.
  - by apply list_lookup_insert_eq.
  - rewrite Eh. apply (ok_head _ _ _ _ _ Hsh).
  - apply (ok_overcommit _ _ _ _ _ Hsh).
  - rewrite (ok_optimistic _ _ _ _ _ Hsh). lia.
  - rewrite (ok_tail _ _ _ _ _ Hsh). lia.
  - rewrite (ok_tail _ _ _ _ _ Hsh). lia.
  - done.
  - lia.
  - exact Hreq.
  - rewrite (ok_tail _ _ _ _ _ Hsh), length_take, length_drop. subst c. destruct r; cbn in *; lia.
  - intros k x Hk. apply lookup_take_Some in Hk as [Hk _]. rewrite lookup_drop in Hk. rewrite <- Nat2Z.inj_add.
    rewrite (ok_slots _ _ _ _ _ Hsh _ _ Hk), decide_False; [done|]. intros Hlt%lookup_lt_Some. lia.
  - exists k, q'. cbn [run]. unfold turn. rewrite Hip.
    assert (may_call i (CallDequeue r) = true) as -> by (destruct r; cbn in *; [done|by apply Z.leb_le]).
    split; [exact E|]. split; [|exact Ed]. rewrite Et. cbn. rewrite list_insert_insert_eq. by apply list_insert_id.
Qed.

End ProducerBase.
Arguments Disabled {A}.
Arguments Fault {A}.
Arguments Next {A}.

(** Two consumers try for one element; the one that is given up makes the
    counts differ, and the next element is found all the same. *)
Definition contended : list (nat * choice (T := nat)) :=
  ((0, CallEnqueue [10]) :: repeat (0, Go) 4 ++
  [(1, CallDequeue One); (2, CallDequeue (Bulk 3))] ++ repeat (1, Go) 3 ++ repeat (2, Go) 4 ++
  repeat (1, Go) 3 ++ repeat (2, Go) 4 ++ (0, CallEnqueue [20; 30]) :: repeat (0, Go) 4)%nat.

Lemma claims_are_sound_witness :
  exists q, run contended (construct 3) = Next q /\ small q /\
  headIndex (memory q) <= tailIndex (memory q) /\ dequeued q = [(0, 10%nat)].
Proof.
  eexists. split; [by vm_compute|].
  match goal with |- small ?q /\ _ => assert (small q) as Hs by done;
    destruct (claims_are_sound 3 contended q) as (_ & Hle & _); [by vm_compute|exact Hs|] end.
  split; [exact Hs|]. split; [lia|done].
Defined.

Lemma quiescent_conserves_witness :
  exists q, run contended (construct 3) = Next q /\ size_approx (memory q) = 2.
Proof.
  eexists. split; [by vm_compute|].
  edestruct (quiescent_conserves 3 contended) as (_ & _ & _ & E);
    [by vm_compute|done|by vm_compute; repeat constructor|done|exact E].
Defined.

Lemma dequeue_alone_witness :
  exists q k q', run contended (construct 3) = Next q /\
    run ((2, CallDequeue (Bulk 5)) :: repeat (2, Go) k)%nat q = Next q' /\
    (dequeued q').*2 = [30; 20; 10]%nat.
Proof.
  eexists. edestruct (dequeue_alone 3 contended) with (i := 2%nat) (r := Bulk 5) as (k & q' & E & _ & Ed);
    [by vm_compute|done|by vm_compute; repeat constructor|cbn; lia|done|].
  exists k, q'. split; [by vm_compute|]. split; [exact E|]. by rewrite Ed.
Defined.
End ProducerBase.
