(* ===== verification/BlockPool.v ===== *)
(** * The memory of the lock-free queue (utils/concurrentqueue.h, "Block pool
    manipulation")

    All producers of a queue share its blocks: those of the pool allocated
    with the queue, those on the free list, and new ones from [malloc]. Here
    the free list is the list of its nodes: FreeList shows that a thread on its
    own takes the first node, and that threads together lose and duplicate
    none. A block is named by its address: a number below the size of the
    initial pool for a block of the pool, and a larger one for any other. *)
From S2P Require Import Prelude.
From S2P Require Import QueueTraits.
From S2P Require Import QueueBlock.
#[local] Open Scope Z_scope.

(** ** Commands *)

(** A command changes a state and has a result; it is undefined where the code
    would follow a null pointer, use memory that holds no object, or fail an
    assertion. *)
Definition M (S A : Type) : Type := S -> option (A * S).
#[export] Instance M_ret S : MRet (M S) := fun A a s => Some (a, s).
#[export] Instance M_bind S : MBind (M S) := fun A B f m s =>
  match m s with Some (a, s) => f a s | None => None end.
Definition gets {S A} (f : S -> A) : M S A := fun s => Some (f s, s).
Definition undefined {S A} : M S A := fun _ => None.
Definition assert_that {S} (b : bool) : M S unit := if b then mret tt else undefined.
Definition the {S A} (o : option A) : M S A := match o with Some a => mret a | None => undefined end.
Definition modify {S} (f : S -> S) : M S unit := fun s => Some (tt, f s).

Section Commands.
Context {S : Type}.

Lemma bind_some {A B} (m : M S A) (f : A -> M S B) s a s' :
  m s = Some (a, s') -> (m ≫= f) s = f a s'.
Proof. intros E. unfold mbind, M_bind. by rewrite E. Qed.

Lemma the_some {A} (o : option A) a (s : S) : o = Some a -> the o s = Some (a, s).
Proof. by intros ->. Qed.

Lemma assert_true b (s : S) : b = true -> assert_that b s = Some (tt, s).
Proof. by intros ->. Qed.
End Commands.

(** Run the first command of a sequence by an equation. *)
Ltac run_by H := erewrite bind_some by (apply H).

Section Memory.
Context {tr : Traits} {T : Type}.
(** Whether the [n]-th call of [malloc] gives memory, and what the flags of a
    block in that memory are before they are initialized. *)
Context (malloc : nat -> bool) (raw_flags : nat -> list bool).

Abbreviation Block := (Block.t T).

Record Memory := mkMemory {
  blocks : gmap nat Block;
  mallocs : nat;
  initialBlockPoolIndex : Z;
  initialBlockPoolSize : Z;
  freeList : list nat
}.
Definition set_blocks bs (m : Memory) : Memory :=
  mkMemory bs (mallocs m) (initialBlockPoolIndex m) (initialBlockPoolSize m) (freeList m).
Definition set_mallocs n (m : Memory) : Memory :=
  mkMemory (blocks m) n (initialBlockPoolIndex m) (initialBlockPoolSize m) (freeList m).
Definition set_pool_index i (m : Memory) : Memory :=
  mkMemory (blocks m) (mallocs m) i (initialBlockPoolSize m) (freeList m).
Definition set_freeList l (m : Memory) : Memory :=
  mkMemory (blocks m) (mallocs m) (initialBlockPoolIndex m) (initialBlockPoolSize m) l.

(** A call of [malloc]. *)
Definition try_malloc : M Memory bool := fun m => Some (malloc (mallocs m), set_mallocs (S (mallocs m)) m).

(** [create<Block>]: the block's address, if there is memory. *)
Definition create_block : M Memory (option nat) := fun m =>
  let n := mallocs m in
  let m' := set_mallocs (S n) m in
  if malloc n then
    let a := (Z.to_nat (initialBlockPoolSize m) + n)%nat in
    Some (Some a, set_blocks (<[a := Block.construct (raw_flags n)]> (blocks m)) m')
  else Some (None, m').

(** [destroy] of a block, and an access to one. *)
Definition destroy_block (b : nat) : M Memory unit := fun m =>
  match blocks m !! b with Some _ => Some (tt, set_blocks (delete b (blocks m)) m) | None => None end.
Definition load_block (b : nat) : M Memory Block := fun m =>
  match blocks m !! b with Some x => Some (x, m) | None => None end.
Definition store_block (b : nat) (f : Block -> Block) : M Memory unit := fun m =>
  match blocks m !! b with Some x => Some (tt, set_blocks (<[b := f x]> (blocks m)) m) | None => None end.

(** *** The pool *)

(** The constructor's blocks: [create_array], and the flag that they are not
    allocated one by one. *)
Definition pool_block (i : nat) : Block :=
  Block.set_dynamicallyAllocated false (Block.construct (raw_flags i)).
Definition populate_initial_block_list (blockCount : Z) : M Memory unit := fun m =>
  if blockCount =? 0 then Some (tt, mkMemory (blocks m) (mallocs m) (initialBlockPoolIndex m) 0 (freeList m))
  else
    let m' := set_mallocs (S (mallocs m)) m in
    if malloc (mallocs m) then
      Some (tt, mkMemory (list_to_map ((fun i => (i, pool_block i)) <$> seq 0 (Z.to_nat blockCount)))
        (mallocs m') 0 blockCount [])
    else Some (tt, mkMemory (blocks m) (mallocs m') (initialBlockPoolIndex m) 0 (freeList m)).

Definition try_get_block_from_initial_pool : M Memory (option nat) := fun m =>
  if initialBlockPoolSize m <=? initialBlockPoolIndex m then Some (None, m)
  else
    let index := initialBlockPoolIndex m in
    Some (if index <? initialBlockPoolSize m then Some (Z.to_nat index) else None, set_pool_index (u64 (index + 1)) m).

Definition add_block_to_free_list (b : nat) : M Memory unit := modify (fun m => set_freeList (b :: freeList m) m).

(** The chain of blocks from [block] on. *)
Fixpoint add_blocks_to_free_list (fuel : nat) (block : option nat) : M Memory unit :=
  match block, fuel with
  | None, _ => mret tt
  | Some _, O => undefined
  | Some b, S fuel =>
      x ← load_block b;
      _ ← add_block_to_free_list b;
      add_blocks_to_free_list fuel (Block.next x)
  end.

Definition try_get_block_from_free_list : M Memory (option nat) := fun m =>
  match freeList m with
  | [] => Some (None, m)
  | b :: l => Some (Some b, set_freeList l m)
  end.

Definition requisition_block (canAlloc : AllocationMode) : M Memory (option nat) :=
  block ← try_get_block_from_initial_pool;
  match block with
  | Some b => mret (Some b)
  | None =>
      block ← try_get_block_from_free_list;
      match block with
      | Some b => mret (Some b)
      | None => match canAlloc with CanAlloc => create_block | CannotAlloc => mret None end
      end
  end.

(** ** What the pool promises *)

(** A block without elements, as the pool has them. *)
Definition blank (b : Block) : Prop := Block.elements b = replicate (Z.to_nat BLOCK_SIZE) None.

(** The blocks [used] by producers, those of the pool, and those on the free
    list are all there and are different, and there are no others. *)
Record pool_ok (m : Memory) (used : gset nat) : Prop := mkPoolOk {
  pool_used : forall b, b ∈ used -> is_Some (blocks m !! b);
  pool_free : forall b, b ∈ freeList m -> (b ∉ used) /\ exists x, blocks m !! b = Some x /\ blank x;
  pool_free_nodup : NoDup (freeList m);
  pool_initial : forall i, initialBlockPoolIndex m <= Z.of_nat i < initialBlockPoolSize m ->
    (i ∉ used) /\ (i ∉ freeList m) /\ exists x, blocks m !! i = Some x /\ blank x;
  pool_index : 0 <= initialBlockPoolIndex m < 2 ^ 64 - 1;
  pool_names : forall b, is_Some (blocks m !! b) -> (b < Z.to_nat (initialBlockPoolSize m))%nat \/
    exists n, b = (Z.to_nat (initialBlockPoolSize m) + n)%nat /\ (n < mallocs m)%nat /\ malloc n = true;
  pool_complete : forall b, is_Some (blocks m !! b) ->
    (b ∈ used) \/ (b ∈ freeList m) \/ initialBlockPoolIndex m <= Z.of_nat b < initialBlockPoolSize m
}.

(** A block is given to a producer: it is new to all producers and blank, and
    no other block changes. *)
Lemma requisition_block_spec mode m used :
  pool_ok m used -> initialBlockPoolSize m < 2 ^ 64 - 1 ->
  exists o m', requisition_block mode m = Some (o, m') /\ initialBlockPoolSize m' = initialBlockPoolSize m /\ (mallocs m <= mallocs m')%nat /\
    (forall b, (b ∈ used) -> blocks m' !! b = blocks m !! b) /\
    match o with
    | None => pool_ok m' used /\ (mode = CannotAlloc \/ malloc (mallocs m) = false /\ mallocs m' = S (mallocs m))
    | Some b => (b ∉ used) /\ pool_ok m' ({[b]} ∪ used) /\ exists x, blocks m' !! b = Some x /\ blank x
    end.
Proof.
  intros [Hu Hf Hnd Hi Hx Hn Hc] Hsz. unfold requisition_block, try_get_block_from_initial_pool, mbind, M_bind.
  destruct (Z.leb_spec (initialBlockPoolSize m) (initialBlockPoolIndex m)) as [Hge|Hlt].
  - unfold try_get_block_from_free_list. destruct (freeList m) as [|b l] eqn:Efree.
    + destruct mode; [|exists None, m; do 4 (split; [done|]); split; [|by left]; split; rewrite ?Efree; done].
      unfold create_block. destruct (malloc (mallocs m)) eqn:Em.
      * set (a := (Z.to_nat (initialBlockPoolSize m) + mallocs m)%nat).
        assert (blocks m !! a = None) as Ea.
        { destruct (blocks m !! a) eqn:E; [|done]. assert (is_Some (blocks m !! a)) as [?|(n & Ea & ? & _)]%Hn by (by rewrite E); lia. }
        assert (a ∉ used) as Hau by (intros H%Hu; rewrite Ea in H; by destruct H).
        exists (Some a). eexists. split; [reflexivity|]. cbn. split; [done|]. split; [lia|]. split.
        { intros b Hb. rewrite lookup_insert_ne; [done|]. by intros ->. }
        split; [done|]. split; [|eexists; rewrite lookup_insert_eq; by split].
        split; cbn; rewrite ?Efree; try done.
        -- intros b [->%elem_of_singleton|Hb]%elem_of_union; [rewrite lookup_insert_eq; eauto|].
           rewrite lookup_insert_ne by (by intros ->). by apply Hu.
        -- intros b Hb. by apply elem_of_nil in Hb.
        -- intros i Hrange. lia.
        -- intros b [x Hb]. destruct (decide (a = b)) as [<-|Hne].
           ++ right. exists (mallocs m). split; [done|]. split; [lia|done].
           ++ rewrite lookup_insert_ne in Hb by done. destruct (Hn b ltac:(eauto)) as [?|(n & ? & ? & ?)]; [by left|].
              right. exists n. split; [done|]. split; [lia|done].
        -- intros b Hb. destruct (decide (a = b)) as [<-|Hne]; [left; set_solver|]. rewrite lookup_insert_ne in Hb by done.
           destruct (Hc b Hb) as [?|?]; [left; set_solver|by right].
      * exists None. eexists. split; [reflexivity|]. cbn. split; [done|]. split; [lia|]. split; [done|].
        split; [|by right]. split; cbn; rewrite ?Efree; try done. intros b Hb. destruct (Hn b Hb) as [?|(n & ? & ? & ?)]; [by left|].
        right. exists n. split; [done|]. split; [lia|done].
    + exists (Some b). eexists. split; [reflexivity|]. cbn. split; [done|]. split; [lia|]. split; [done|].
      destruct (Hf b ltac:(left)) as (Hbu & x & Ex & Hbl). apply NoDup_cons in Hnd as [Hbl' Hnd].
      split; [done|]. split; [|eauto]. split; cbn; try done.
      * intros c [->%elem_of_singleton|Hin]%elem_of_union; [eauto|by apply Hu].
      * intros c Hin. destruct (Hf c ltac:(by right)) as [? ?]. split; [|done].
        intros [->%elem_of_singleton|?]%elem_of_union; done.
      * intros i Hr. lia.
      * intros c Hin. destruct (Hc c Hin) as [?|[[->|?]%elem_of_cons|?]]; [left; set_solver|left; set_solver|right; by left|lia].
  - rewrite (proj2 (Z.ltb_lt _ _)) by done. set (b := Z.to_nat (initialBlockPoolIndex m)).
    exists (Some b). eexists. split; [reflexivity|]. cbn. split; [done|]. split; [lia|]. split; [done|].
    destruct (Hi b) as (Hbu & Hbf & x & Ex & Hbl); [lia|].
    rewrite wrap_small by (unfold in_width; lia).
    split; [done|]. split; [|eauto]. split; cbn; try done; try lia.
    + intros c [->%elem_of_singleton|Hin]%elem_of_union; [eauto|by apply Hu].
    + intros c Hin. destruct (Hf c Hin) as [? ?]. split; [|done].
      intros [->%elem_of_singleton|?]%elem_of_union; done.
    + intros i Hr. destruct (Hi i) as (? & ? & ?); [lia|]. split; [|done].
      intros [->%elem_of_singleton|?]%elem_of_union; [lia|done].
    + intros c Hin. destruct (decide (c = b)) as [->|Hne]; [left; set_solver|].
      destruct (Hc c Hin) as [?|[?|?]]; [left; set_solver|right; by left|right; right; lia].
Qed.

Lemma pool_ok_store m used b x :
  pool_ok m used -> (b ∈ used) -> pool_ok (set_blocks (<[b := x]> (blocks m)) m) used.
Proof.
  intros [Hu Hf Hnd Hi Hx Hn Hall] Hb. split; cbn; try done.
  - intros c Hc. destruct (decide (b = c)) as [<-|Hne]; [rewrite lookup_insert_eq; eauto|].
    rewrite lookup_insert_ne by done. by apply Hu.
  - intros c Hc. destruct (Hf c Hc) as [Hcu ?]. split; [done|]. by rewrite lookup_insert_ne by (by intros ->).
  - intros i Hr. destruct (Hi i Hr) as (Hiu & ? & ?). split; [done|]. split; [done|].
    by rewrite lookup_insert_ne by (by intros ->).
  - intros c Hc. apply Hn. destruct (decide (b = c)) as [<-|Hne]; [by apply Hu|]. by rewrite lookup_insert_ne in Hc.
  - intros c Hc. destruct (decide (b = c)) as [<-|Hne]; [by left|]. apply Hall. by rewrite lookup_insert_ne in Hc.
Qed.

Lemma pool_ok_malloc m used : pool_ok m used -> pool_ok (set_mallocs (S (mallocs m)) m) used.
Proof.
  intros [Hu Hf Hnd Hi Hx Hn Hc]. split; cbn; try done. intros b Hb.
  destruct (Hn b Hb) as [?|(n & ? & ? & ?)]; [by left|]. right. exists n. split; [done|]. split; [lia|done].
Qed.

(** A blank block is given back. *)
Lemma pool_ok_free m used b x :
  pool_ok m used -> (b ∈ used) -> blocks m !! b = Some x -> blank x -> pool_ok (set_freeList (b :: freeList m) m) (used ∖ {[b]}).
Proof.
  intros [Hu Hf Hnd Hi Hx Hn Hall] Hb Ex Hbl. split; cbn; try done.
  - intros c Hc. apply Hu. set_solver.
  - intros c [->|Hc]%elem_of_cons; [split; [set_solver|by exists x]|]. destruct (Hf c Hc) as [Hcu ?]. split; [set_solver|done].
  - apply NoDup_cons. split; [|done]. intros Hc. by destruct (Hf b Hc).
  - intros i Hr. destruct (Hi i Hr) as (Hiu & Hif & ?). split; [set_solver|]. split; [|done].
    intros [->|?]%elem_of_cons; done.
  - intros c Hc. destruct (decide (c = b)) as [->|Hne]; [right; left; left|].
    destruct (Hall c Hc) as [?|[?|?]]; [left; set_solver|right; left; by right|by right; right].
Qed.

(** The memory of a new queue. *)
Definition no_memory : Memory := mkMemory ∅ 0 0 0 [].

Lemma populate_ok blockCount :
  0 <= blockCount -> exists m, populate_initial_block_list blockCount no_memory = Some (tt, m) /\ pool_ok m ∅ /\
    initialBlockPoolSize m = (if (blockCount =? 0) || negb (malloc 0) then 0 else blockCount).
Proof.
  intros Hc. unfold populate_initial_block_list. destruct (Z.eqb_spec blockCount 0) as [->|Hne]; cbn;
    [|destruct (malloc 0); cbn]; (eexists; split; [reflexivity|]; split; [|done]); split; cbn; try done; try lia;
    try (by intros b Hb; apply elem_of_nil in Hb); try (by intros b [x Hb]); try (by apply NoDup_nil_2).
  - intros i Hi. split; [done|]. split; [by intros Hb%elem_of_nil|]. exists (pool_block i).
    split; [|done]. apply elem_of_list_to_map.
    + rewrite <- list_fmap_compose. cbn. rewrite list_fmap_id. apply NoDup_seq.
    + apply (list_elem_of_fmap_2' _ _ i); [|done]. apply elem_of_seq. lia.
  - intros b [x Hb]. left. apply elem_of_list_to_map_2, list_elem_of_fmap in Hb as (i & E & Hi).
    injection E as -> _. apply elem_of_seq in Hi. lia.
  - intros b [x Hb]. right. right. apply elem_of_list_to_map_2, list_elem_of_fmap in Hb as (i & E & Hi).
    injection E as -> _. apply elem_of_seq in Hi. lia.
Qed.

(** As many blocks as memory was had for. *)
Definition granted (n : nat) : nat := length (filter (fun i => malloc i = true) (seq 0 n)).

Lemma granted_le k n : (forall i, malloc i = true -> (i < k)%nat) -> (granted n <= k)%nat.
Proof.
  intros Hk. unfold granted. rewrite <- (length_seq k 0). apply submseteq_length, NoDup_submseteq.
  - apply NoDup_filter, NoDup_seq.
  - intros i Hi. apply list_elem_of_filter in Hi as [Hi _]. apply elem_of_seq. apply Hk in Hi. lia.
Qed.

Lemma granted_bound m used ring :
  pool_ok m used -> NoDup ring -> (forall b, b ∈ ring -> (b ∈ used)) ->
  (length ring <= Z.to_nat (initialBlockPoolSize m) + granted (mallocs m))%nat.
Proof.
  intros Hp Hnd Hsub. set (n := Z.to_nat (initialBlockPoolSize m)).
  set (names := seq 0 n ++ ((fun i => n + i)%nat <$> filter (fun i => malloc i = true) (seq 0 (mallocs m)))).
  assert (length names = n + granted (mallocs m))%nat as <-.
  { unfold names. by rewrite length_app, length_seq, length_fmap. }
  apply submseteq_length, NoDup_submseteq; [done|]. intros b Hb.
  apply elem_of_app. destruct (pool_names _ _ Hp b) as [?|(i & -> & Hi & Em)]; [by apply (pool_used _ _ Hp), Hsub| |].
  - left. apply elem_of_seq. lia.
  - right. apply (list_elem_of_fmap_2' _ _ i); [|done]. apply list_elem_of_filter. split; [done|].
    apply elem_of_seq. lia.
Qed.

(** Every block is back, without an element: in the pool, or once on the free
    list. *)
Definition all_back (m : Memory) : Prop :=
  NoDup (freeList m) /\ forall b blk, blocks m !! b = Some blk ->
    blank blk /\ ((b ∈ freeList m) \/ initialBlockPoolIndex m <= Z.of_nat b < initialBlockPoolSize m).

Lemma pool_all_back m : pool_ok m ∅ -> all_back m.
Proof.
  intros [_ Hf Hnd Hi _ _ Hc]. split; [done|]. intros b blk Eb. destruct (Hc b) as [Hb|[Hb|Hb]]; [by rewrite Eb|by apply elem_of_empty in Hb|..].
  - destruct (Hf b Hb) as (_ & blk' & Eb' & Hbl). split; [congruence|by left].
  - destruct (Hi b Hb) as (_ & _ & blk' & Eb' & Hbl). split; [congruence|by right].
Qed.

End Memory.
