(* ===== verification/ProducerMemory.v ===== *)
(** * The elements of a producer in the blocks of its queue (utils/concurrentqueue.h)

    A producer of either kind works on its own state and on the memory that it
    shares with the other producers of the queue. The parts of its operations
    that construct, move and destroy elements in one block are the same code in
    [ExplicitProducer] and [ImplicitProducer]. *)
From S2P Require Import Prelude.
From S2P Require Import QueueUtils.
From S2P Require Import QueueTraits.
From S2P Require Import QueueBlock.
From S2P Require Import BlockPool.
#[local] Open Scope Z_scope.

Module ProducerMemory.

(** What a call leads to when an element's constructor may throw. *)
Inductive outcome (A : Type) := Returned (a : A) | Threw.
Arguments Returned {A}.
Arguments Threw {A}.

Section Producer.
Context {tr : Traits} {T P : Type}.
(** Whether the constructor of an element is [noexcept], and whether it throws
    when it is not. *)
Context (noexcept_ctor : bool) (ctor_throws : T -> bool).

(** A producer with the memory of its queue. *)
Abbreviation State := ((Memory (T := T)) * P)%type.
Definition mem {A} (m : M (Memory (T := T)) A) : M State A := fun '(s, p) =>
  match m s with Some (a, s) => Some (a, (s, p)) | None => None end.
Definition field {A} (f : P -> A) : M State A := fun s => Some (f s.2, s).
Definition set (f : P -> P) : M State unit := fun '(s, p) => Some (tt, (s, f p)).

(** Whether the constructor throws. *)
Definition throws (x : T) : bool := negb noexcept_ctor && ctor_throws x.

(** The construction of an element in a block. *)
Definition put (b : nat) (i : Z) (x : T) : M State unit :=
  blk ← mem (load_block b);
  blk' ← the (Block.put i x blk);
  mem (store_block b (fun _ => blk')).

(** An element moved out of a block and destroyed. *)
Definition take (b : nat) (index : Z) : M State T :=
  blk ← mem (load_block b);
  el ← the (Block.get index blk);
  blk' ← the (Block.destroy index blk);
  mem (store_block b (fun _ => blk'));;
  mret el.

(** The end of the part of a block from [i] on, before [last]. *)
Definition stop_index (i last : Z) : Z :=
  let stop := u64 (QueueTraits.base i + BLOCK_SIZE) in
  if circular_less_than 64 last stop then last else stop.

(** No more blocks: the tail could pass the head in the index type, or the
    limit on the size would be passed. *)
Definition full (head currentTailIndex : Z) : bool :=
  negb (circular_less_than 64 head (u64 (currentTailIndex + BLOCK_SIZE))) ||
  (negb (MAX_SUBQUEUE_SIZE =? const_numeric_max 64) &&
   ((MAX_SUBQUEUE_SIZE =? 0) || (u64 (MAX_SUBQUEUE_SIZE - BLOCK_SIZE) <? u64 (currentTailIndex - head)))).

(** ** Runs of elements *)

(** Elements constructed in a block up to the index [stop]: the index reached,
    those that are left, and whether a constructor has thrown. *)
Fixpoint fill_block (fuel : nat) (b : nat) (i stop : Z) (xs : list T) : M State (Z * list T * bool) :=
  if i =? stop then mret (i, xs, false)
  else
    match fuel, xs with
    | O, _ | _, [] => undefined
    | S fuel, x :: xs' =>
        if negb noexcept_ctor && ctor_throws x then mret (i, xs, true)
        else put b i x;; fill_block fuel b (u64 (i + 1)) stop xs'
    end.

(** The elements from [i] on, up to [stop], destroyed. *)
Fixpoint destroy_in_block (fuel : nat) (b : nat) (i stop : Z) : M State Z :=
  if i =? stop then mret i
  else
    match fuel with
    | O => undefined
    | S fuel =>
        blk ← mem (load_block b);
        blk' ← the (Block.destroy i blk);
        mem (store_block b (fun _ => blk'));;
        destroy_in_block fuel b (u64 (i + 1)) stop
    end.

(** The elements from [i] on, up to [stop], moved out. *)
Fixpoint take_block (fuel : nat) (b : nat) (i stop : Z) : M State (list T) :=
  if i =? stop then mret []
  else
    match fuel with
    | O => undefined
    | S fuel => x ← take b i; xs ← take_block fuel b (u64 (i + 1)) stop; mret (x :: xs)
    end.

(** ** Chains of blocks *)

(** The block that is written to: a member of the producer. *)
Context (tail_block : P -> option nat) (set_tail_block : option nat -> P -> P).

(** The loop over the blocks; the index reached if a constructor has thrown. *)
Fixpoint fill_chain (fuel : nat) (endBlock : option nat) (i newTail : Z) (xs : list T) : M State (option Z) :=
  match fuel with
  | O => undefined
  | S fuel =>
      tb ← field tail_block;
      let stop := stop_index i newTail in
      r ← (if i =? stop then mret (i, xs, false)
           else tb ← the tb; fill_block (Z.to_nat BLOCK_SIZE) tb i stop xs);
      let '(i, xs, thrown) := r in
      if (thrown : bool) then mret (Some i)
      else if decide (tb = endBlock) then assert_that (i =? newTail);; mret None
      else
        tb ← the tb;
        b ← mem (load_block tb);
        set (set_tail_block (Block.next b));;
        fill_chain fuel endBlock i newTail xs
  end.

(** The elements constructed before the exception, from [i] on, destroyed. *)
Fixpoint destroy_chain (fuel : nat) (b : option nat) (last : option nat) (i stop : Z) : M State unit :=
  match fuel with
  | O => undefined
  | S fuel =>
      let stopIndex := stop_index i stop in
      i ← (if i =? stopIndex then mret i else b ← the b; destroy_in_block (Z.to_nat BLOCK_SIZE) b i stopIndex);
      if decide (b = last) then mret tt
      else
        b ← the b;
        blk ← mem (load_block b);
        destroy_chain fuel (Block.next blk) last i stop
  end.

End Producer.
End ProducerMemory.
