(* ===== verification/ProducerFifo.v ===== *)
(** * What the producers of the queue promise

    The operations on one producer, their answers, and what the answers mean for
    the elements it has: a producer is a first-in first-out queue. *)
From S2P Require Import Prelude.
From S2P Require Import QueueTraits.
From S2P Require Import BlockPool.
From S2P Require Import ProducerMemory.
#[local] Open Scope Z_scope.
Import ProducerMemory.

Module ProducerFifo.

(** ** Operations *)

Inductive op (T : Type) :=
  | Enqueue (mode : AllocationMode) (x : T)
  | Dequeue
  | EnqueueBulk (mode : AllocationMode) (xs : list T)
  | DequeueBulk (max : Z).
Inductive answer (T : Type) :=
  | Enqueued (ok : outcome bool)
  | Dequeued (x : option T)
  | BulkDequeued (xs : list T).
Arguments Enqueue {T}.
Arguments Dequeue {T}.
Arguments EnqueueBulk {T}.
Arguments DequeueBulk {T}.
Arguments Enqueued {T}.
Arguments Dequeued {T}.
Arguments BulkDequeued {T}.

(** Counts are of a 64-bit type, and there are no arrays of half its range. *)
Definition counted {T} (o : op T) : Prop :=
  match o with
  | EnqueueBulk _ xs => Z.of_nat (length xs) <= 2 ^ 63
  | DequeueBulk max => in_width 64 max
  | _ => True
  end.

Section Fifo.
Context {T : Type} (throws : T -> bool).
Implicit Types (xs ys zs : list T).

(** The constructors called by these operations. *)
Definition constructed (o : op T) : list T :=
  match o with Enqueue _ x => [x] | EnqueueBulk _ xs => xs | _ => [] end.

(** What an answer means: the elements that are accepted become the last ones,
    those taken are the first, and an operation that is refused or throws
    changes nothing. *)
Inductive fifo : list T -> op T -> answer T -> list T -> Prop :=
  | fifo_accepted xs mode x : throws x = false -> fifo xs (Enqueue mode x) (Enqueued (Returned true)) (xs ++ [x])
  | fifo_refused xs mode x : fifo xs (Enqueue mode x) (Enqueued (Returned false)) xs
  | fifo_threw xs mode x : throws x = true -> fifo xs (Enqueue mode x) (Enqueued Threw) xs
  | fifo_taken x xs : fifo (x :: xs) Dequeue (Dequeued (Some x)) xs
  | fifo_empty : fifo [] Dequeue (Dequeued None) []
  | fifo_bulk_accepted xs mode ys :
      Forall (fun y => throws y = false) ys -> fifo xs (EnqueueBulk mode ys) (Enqueued (Returned true)) (xs ++ ys)
  | fifo_bulk_refused xs mode ys : fifo xs (EnqueueBulk mode ys) (Enqueued (Returned false)) xs
  | fifo_bulk_threw xs mode ys : Exists (fun y => throws y = true) ys -> fifo xs (EnqueueBulk mode ys) (Enqueued Threw) xs
  | fifo_bulk_taken xs max :
      fifo xs (DequeueBulk max) (BulkDequeued (firstn (Z.to_nat max) xs)) (drop (Z.to_nat max) xs).
Inductive fifo_run : list T -> list (op T) -> list (answer T) -> list T -> Prop :=
  | fifo_none xs : fifo_run xs [] [] xs
  | fifo_more xs o r ys ops rs zs : fifo xs o r ys -> fifo_run ys ops rs zs -> fifo_run xs (o :: ops) (r :: rs) zs.

(** ** Order *)

(** The elements that a run puts into the queue, and those it takes out. *)
Definition accepted (o : op T) (r : answer T) : list T :=
  match r with Enqueued (Returned true) => constructed o | _ => [] end.
Definition taken (r : answer T) : list T :=
  match r with Dequeued (Some x) => [x] | BulkDequeued xs => xs | _ => [] end.
Definition all_accepted (ops : list (op T)) (rs : list (answer T)) : list T := concat (zip_with accepted ops rs).
Definition all_taken (rs : list (answer T)) : list T := concat (taken <$> rs).

Lemma fifo_order xs o r ys : fifo xs o r ys -> xs ++ accepted o r = taken r ++ ys.
Proof. destruct 1; cbn; rewrite ?app_nil_r; try done. symmetry. apply take_drop. Qed.

(** The elements come out in the order in which they went in. *)
Lemma fifo_run_order xs ops rs ys : fifo_run xs ops rs ys -> xs ++ all_accepted ops rs = all_taken rs ++ ys.
Proof.
  induction 1 as [xs|xs o r ys ops rs zs Hf Hr IH]; unfold all_accepted, all_taken in *; cbn; [by rewrite app_nil_r|].
  rewrite app_assoc, (fifo_order _ _ _ _ Hf), <- !app_assoc. by rewrite IH.
Qed.

(** ** Runs of an implementation *)

Section Runs.
Context {S : Type} (apply : op T -> M S (answer T)).

Fixpoint run (ops : list (op T)) : M S (list (answer T)) :=
  match ops with
  | [] => mret []
  | o :: ops => r ← apply o; rs ← run ops; mret (r :: rs)
  end.

(** An implementation each of whose operations is one of a queue, or [stops]. *)
Lemma run_until (holds : S -> list T -> Prop) (fit : op T -> Prop) (stops : S -> op T -> Prop) :
  (forall o s xs, holds s xs -> fit o ->
    (exists r s' ys, apply o s = Some (r, s') /\ fifo xs o r ys /\ holds s' ys) \/ stops s o) ->
  forall ops s xs, holds s xs -> Forall fit ops ->
  exists ops1 ops2 rs s' ys, ops = ops1 ++ ops2 /\ run ops1 s = Some (rs, s') /\ fifo_run xs ops1 rs ys /\ holds s' ys /\
    match ops2 with [] => True | o :: _ => stops s' o end.
Proof.
  intros Happly ops s xs Hs Hops. revert s xs Hs. induction Hops as [|o ops Ho Hops IH]; intros s xs Hs.
  - exists [], [], [], s, xs. split; [done|]. split; [done|]. split; [constructor|done].
  - destruct (Happly o s xs Hs Ho) as [(r & s1 & ys & E & Hf & Hs1)|Hstop].
    + destruct (IH s1 ys Hs1) as (ops1 & ops2 & rs & s2 & zs & -> & E2 & Hf2 & Hs2).
      exists (o :: ops1), ops2, (r :: rs), s2, zs. cbn [run]. rewrite (bind_some _ _ _ _ _ E), (bind_some _ _ _ _ _ E2).
      split; [done|]. split; [done|]. split; [by econstructor|done].
    + exists [], (o :: ops), [], s, xs. split; [done|]. split; [done|]. split; [constructor|done].
Qed.

Lemma run_fifo (holds : S -> list T -> Prop) (fit : op T -> Prop) :
  (forall o s xs, holds s xs -> fit o -> exists r s' ys, apply o s = Some (r, s') /\ fifo xs o r ys /\ holds s' ys) ->
  forall ops s xs, holds s xs -> Forall fit ops ->
  exists rs s' ys, run ops s = Some (rs, s') /\ fifo_run xs ops rs ys /\ holds s' ys.
Proof.
  intros Happly ops s xs Hs Hops.
  destruct (run_until holds fit (fun _ _ => False)) with (ops := ops) (s := s) (xs := xs) as (ops1 & ops2 & rs & s' & ys & -> & E & Hf & Hh & Hstop);
    [intros; left; by apply Happly|done|done|]. destruct ops2; [|done]. rewrite app_nil_r. by exists rs, s', ys.
Qed.
End Runs.
End Fifo.
End ProducerFifo.
