(* ===== verification/ProducerHash.v ===== *)
(** * The hash of implicit producers (utils/concurrentqueue.h, "Implicit
      producer hash")

    A thread that enqueues without a token has a producer of its own, found by
    the thread's id in an open-addressing table. A table that is half full is
    followed by a larger one; the older ones stay, and an entry found there is
    copied to the newest. Here one call runs at a time (HashThreads.v has the
    threads that meet in the tables), and the code for thread exit notification,
    which is compiled on request only, is left out. *)
From S2P Require Import Prelude.
From S2P Require Import QueueUtils.
From S2P Require Import QueueTraits.
From S2P Require Import BlockPool.
#[local] Open Scope Z_scope.

Module ProducerHash.

(** ** Data *)

Definition invalid_thread_id : Z := 0.

Record ImplicitProducerKVP := mkKVP { key : Z; value : option nat }.
Record ImplicitProducerHash := mkHash { capacity : Z; entries : list ImplicitProducerKVP }.
Definition newKVP : ImplicitProducerKVP := mkKVP invalid_thread_id None.
Definition new_hash (capacity : Z) : ImplicitProducerHash := mkHash capacity (replicate (Z.to_nat capacity) newKVP).

(** The tables, from the current one to the first ([prev]). *)
Record t := mk {
  hashes : list ImplicitProducerHash;
  implicitProducerHashCount : Z;
  implicitProducerHashResizeInProgress : bool
}.
Definition set_hashes hs h := mk hs (implicitProducerHashCount h) (implicitProducerHashResizeInProgress h).
Definition set_count n h := mk (hashes h) n (implicitProducerHashResizeInProgress h).
Definition set_resizing b h := mk (hashes h) (implicitProducerHashCount h) b.

Section Hash.
Context {tr : Traits}.

Definition populate_initial_implicit_producer_hash : t :=
  if INITIAL_IMPLICIT_PRODUCER_HASH_SIZE =? 0 then mk [] 0 false
  else mk [new_hash INITIAL_IMPLICIT_PRODUCER_HASH_SIZE] 0 false.

(** ** Probing *)

Inductive probed := Found (index : Z) | Absent.

(** The search for an id; no result when the fuel is used up. *)
Fixpoint probe (fuel : nat) (h : ImplicitProducerHash) (id index : Z) : option probed :=
  match fuel with
  | O => None
  | S fuel =>
      let index := index .& u64 (capacity h - 1) in
      match entries h !! Z.to_nat index with
      | None => None
      | Some e =>
          if key e =? id then Some (Found index)
          else if key e =? invalid_thread_id then Some Absent
          else probe fuel h id (u64 (index + 1))
      end
  end.

(** The first empty slot. *)
Fixpoint free_slot (fuel : nat) (h : ImplicitProducerHash) (index : Z) : option Z :=
  match fuel with
  | O => None
  | S fuel =>
      let index := index .& u64 (capacity h - 1) in
      match entries h !! Z.to_nat index with
      | None => None
      | Some e => if key e =? invalid_thread_id then Some index else free_slot fuel h (u64 (index + 1))
      end
  end.

(** As many steps as there are slots. *)
Definition steps (h : ImplicitProducerHash) : nat := length (entries h).
Definition hashed (id : Z) : Z := u64 (hash_thread_id 8 id).

Definition put (id : Z) (v : option nat) (h : ImplicitProducerHash) : option ImplicitProducerHash :=
  match free_slot (steps h) h (hashed id) with
  | Some i => Some (mkHash (capacity h) (<[Z.to_nat i := mkKVP id v]> (entries h)))
  | None => None
  end.

(** The search through the tables: the value, and whether it was in the first. *)
Fixpoint find (first : bool) (hs : list ImplicitProducerHash) (id : Z) : option (option (bool * option nat)) :=
  match hs with
  | [] => Some None
  | h :: hs =>
      match probe (steps h) h id (hashed id) with
      | None => None
      | Some (Found i) => match entries h !! Z.to_nat i with Some e => Some (Some (first, value e)) | None => None end
      | Some Absent => find false hs id
      end
  end.

(** ** The operation *)

Section Add.
Context {S : Type}.
(** [malloc] of a table, and [recycle_or_create_producer(false)]: the producer
    and whether it has been recycled. *)
Context (try_malloc : M S bool) (recycle_or_create_producer : M S (option (nat * bool))).
Abbreviation State := (t * S)%type.
Definition lift {A} (m : M S A) : M State A := fun '(h, s) =>
  match m s with Some (a, s) => Some (a, (h, s)) | None => None end.
Definition field {A} (f : t -> A) : M State A := gets (fun s => f s.1).
Definition set (f : t -> t) : M State unit := fun '(h, s) => Some (tt, (f h, s)).

Definition main_hash : M State (ImplicitProducerHash * list ImplicitProducerHash) :=
  hs ← field hashes;
  match hs with h :: hs => mret (h, hs) | [] => undefined end.

Definition put_main (id : Z) (v : option nat) : M State unit :=
  m ← main_hash;
  h ← the (put id v m.1);
  set (set_hashes (h :: m.2)).

(** The loop that doubles the capacity. *)
Fixpoint grow (fuel : nat) (newCount newCapacity : Z) : option Z :=
  match fuel with
  | O => None
  | Datatypes.S fuel =>
      if newCapacity ≫ 1 <=? newCount then grow fuel newCount (u64 (newCapacity ≪ 1)) else Some newCapacity
  end.

(** The part that enlarges the table; false when there is no memory. *)
Definition resize (newCount : Z) : M State bool :=
  m ← main_hash;
  busy ← field implicitProducerHashResizeInProgress;
  if (capacity m.1 ≫ 1 <=? newCount) && negb busy then
    set (set_resizing true);;
    m ← main_hash;
    if capacity m.1 ≫ 1 <=? newCount then
      newCapacity ← the (grow 64 newCount (u64 (capacity m.1 ≪ 1)));
      raw ← lift try_malloc;
      if (raw : bool) then
        set (set_hashes (new_hash newCapacity :: m.1 :: m.2));;
        set (set_resizing false);;
        mret true
      else
        set (fun h => set_count (u64 (implicitProducerHashCount h - 1)) h);;
        set (set_resizing false);;
        mret false
    else set (set_resizing false);; mret true
  else mret true.

(** The loop that inserts: another round is for threads that wait for a table. *)
Fixpoint insert (fuel : nat) (id newCount : Z) : M State (option nat) :=
  match fuel with
  | O => undefined
  | Datatypes.S fuel =>
      ok ← resize newCount;
      if (ok : bool) then
        m ← main_hash;
        if newCount <? (capacity m.1 ≫ 1) + (capacity m.1 ≫ 2) then
          p ← lift recycle_or_create_producer;
          match p with
          | None => set (fun h => set_count (u64 (implicitProducerHashCount h - 1)) h);; mret None
          | Some (producer, recycled) =>
              (if (recycled : bool) then set (fun h => set_count (u64 (implicitProducerHashCount h - 1)) h) else mret tt);;
              put_main id (Some producer);;
              mret (Some producer)
          end
        else insert fuel id newCount
      else mret None
  end.

Definition get_or_add_implicit_producer (id : Z) : M State (option nat) :=
  hs ← field hashes;
  found ← the (find true hs id);
  match found with
  | Some (first, v) =>
      (if (first : bool) then mret tt else put_main id v);;
      mret v
  | None =>
      n ← field implicitProducerHashCount;
      set (set_count (u64 (n + 1)));;
      insert 1 id (u64 (n + 1))
  end.
End Add.

(** ** Tables *)

Definition key_at (h : ImplicitProducerHash) (i : Z) : Z :=
  match entries h !! Z.to_nat i with Some e => key e | None => invalid_thread_id end.

(** The [d]-th slot that is probed for an id. *)
Definition slot (h : ImplicitProducerHash) (id : Z) (d : nat) : Z := (hashed id + Z.of_nat d) `mod` capacity h.

(** An entry can be reached by probing: all slots before it are taken, by other ids. *)
Definition reachable h (id i : Z) : Prop :=
  exists d, (d < steps h)%nat /\ slot h id d = i /\
    forall d', (d' < d)%nat -> key_at h (slot h id d') <> invalid_thread_id /\ key_at h (slot h id d') <> id.

Record table_ok h : Prop := mkTableOk {
  table_power : exists k, 0 <= k <= 63 /\ capacity h = 2 ^ k;
  table_length : length (entries h) = Z.to_nat (capacity h);
  table_reachable : forall i e, entries h !! i = Some e -> key e <> invalid_thread_id -> reachable h (key e) (Z.of_nat i)
}.
Definition has_empty h : Prop := exists i e, entries h !! i = Some e /\ key e = invalid_thread_id.

Lemma capacity_pos h : table_ok h -> 0 < capacity h.
Proof. intros [(k & Hk & ->) _ _]. apply Z.pow_pos_nonneg; lia. Qed.

Lemma slot_range h id d : table_ok h -> 0 <= slot h id d < capacity h.
Proof. intros Ht. apply Z.mod_pos_bound, capacity_pos, Ht. Qed.

Lemma mask_index h x : table_ok h -> u64 x .& u64 (capacity h - 1) = x `mod` capacity h.
Proof. intros [(k & Hk & ->) _ _]. by apply mask_mod. Qed.

Lemma slot_next h id d : table_ok h -> (slot h id d + 1) `mod` capacity h = slot h id (S d).
Proof. intros Ht. unfold slot. rewrite Zplus_mod_idemp_l. f_equal. lia. Qed.

(** Every slot is probed within as many steps as there are slots. *)
Lemma slot_cover h id i : table_ok h -> 0 <= i < capacity h -> exists d, (d < steps h)%nat /\ slot h id d = i.
Proof.
  intros Ht Hi. pose proof (capacity_pos h Ht). exists (Z.to_nat ((i - hashed id) `mod` capacity h)).
  pose proof (Z.mod_pos_bound (i - hashed id) (capacity h) ltac:(lia)). split.
  - unfold steps. rewrite (table_length h Ht). lia.
  - unfold slot. rewrite Z2Nat.id by lia. rewrite Zplus_mod_idemp_r.
    replace (hashed id + (i - hashed id)) with i by lia. by apply Z.mod_small.
Qed.

Lemma least (P : nat -> Prop) (dec : forall n, {P n} + {~ P n}) n :
  P n -> exists d, (d <= n)%nat /\ P d /\ forall d', (d' < d)%nat -> ~ P d'.
Proof.
  assert (forall m, (exists d, (d < m)%nat /\ P d /\ forall d', (d' < d)%nat -> ~ P d') \/
    forall d, (d < m)%nat -> ~ P d) as Hall.
  { induction m as [|m [(d & Hd & Hmin)|Hno]]; [right; lia|left; exists d; split; [lia|done]|].
    destruct (dec m) as [Hm|Hm]; [left; exists m; split; [lia|done]|right].
    intros d Hd. destruct (decide (d = m)) as [->|]; [done|apply Hno; lia]. }
  intros Hn. destruct (Hall n) as [(d & Hd & Hmin)|Hno]; [exists d; split; [lia|done]|by exists n].
Qed.

(** The first slot probed that is empty or satisfies a test. *)
Lemma first_stop (stop : Z -> Prop) (dec : forall k, {stop k} + {~ stop k}) h id :
  table_ok h -> has_empty h -> stop invalid_thread_id ->
  exists d, (d < steps h)%nat /\ stop (key_at h (slot h id d)) /\
    forall d', (d' < d)%nat -> ~ stop (key_at h (slot h id d')).
Proof.
  intros Ht (i & e & Ei & Ee) Hstop. pose proof (lookup_lt_Some _ _ _ Ei) as Hi. rewrite (table_length h Ht) in Hi.
  destruct (slot_cover h id (Z.of_nat i) Ht) as (d & Hd & Es); [lia|].
  destruct (least (fun d => stop (key_at h (slot h id d))) (fun d => dec _) d) as (d0 & Hle & Hd0 & Hmin).
  - rewrite Es. unfold key_at. by rewrite Nat2Z.id, Ei, Ee.
  - exists d0. split; [lia|done].
Qed.

Lemma slot_entry h id d : table_ok h -> exists e, entries h !! Z.to_nat (slot h id d) = Some e /\ key_at h (slot h id d) = key e.
Proof.
  intros Ht. pose proof (slot_range h id d Ht).
  destruct (lookup_lt_is_Some_2 (entries h) (Z.to_nat (slot h id d))) as [e Ee]; [rewrite (table_length h Ht); lia|].
  exists e. split; [done|]. unfold key_at. by rewrite Ee.
Qed.

Lemma probe_walk h id D d fuel x :
  table_ok h -> id <> invalid_thread_id ->
  key_at h (slot h id D) = id \/ key_at h (slot h id D) = invalid_thread_id ->
  (forall d', (d' < D)%nat -> key_at h (slot h id d') <> id /\ key_at h (slot h id d') <> invalid_thread_id) ->
  (d <= D)%nat -> (D - d < fuel)%nat -> x `mod` capacity h = slot h id d ->
  probe fuel h id (u64 x) = Some (if decide (key_at h (slot h id D) = id) then Found (slot h id D) else Absent).
Proof.
  intros Ht Hid HD Hmin Hd Hfuel Hx. revert d x Hd Hfuel Hx. induction fuel as [|fuel IH]; intros d x Hd Hfuel Hx; [lia|].
  cbn [probe]. rewrite (mask_index h x Ht), Hx. destruct (slot_entry h id d Ht) as (e & -> & Ee). rewrite <- Ee.
  destruct (decide (d = D)) as [->|Hne].
  - destruct (Z.eqb_spec (key_at h (slot h id D)) id) as [E|E]; [by rewrite decide_True|rewrite decide_False by done].
    destruct HD as [?| ->]; [done|]. done.
  - destruct (Hmin d) as [H1 H2]; [lia|]. rewrite (proj2 (Z.eqb_neq _ _) H1), (proj2 (Z.eqb_neq _ _) H2).
    apply (IH (S d)); [lia|lia|]. by apply slot_next.
Qed.

Lemma hashed_wrap id : hashed id = u64 (hashed id).
Proof. unfold hashed. by rewrite wrap_wrap by lia. Qed.

Lemma slot_0 h id : hashed id `mod` capacity h = slot h id 0.
Proof. unfold slot. by rewrite Z.add_0_r. Qed.

(** A search ends, and finds an id exactly if it is in the table. *)
Lemma probe_spec h id :
  table_ok h -> has_empty h -> id <> invalid_thread_id ->
  (exists i e, probe (steps h) h id (hashed id) = Some (Found (Z.of_nat i)) /\ entries h !! i = Some e /\ key e = id) \/
  (probe (steps h) h id (hashed id) = Some Absent /\ forall i e, entries h !! i = Some e -> key e <> id).
Proof.
  intros Ht He Hid.
  destruct (first_stop (fun k => k = id \/ k = invalid_thread_id) (fun k => decide (k = id \/ k = invalid_thread_id)) h id Ht He) as (D & HD & Hstop & Hmin);
    [by right|].
  assert (probe (steps h) h id (hashed id) =
    Some (if decide (key_at h (slot h id D) = id) then Found (slot h id D) else Absent)) as E.
  { rewrite hashed_wrap. apply (probe_walk h id D O); [done|done|done| |lia|lia|apply slot_0].
    intros d' Hd'. specialize (Hmin d' Hd'). tauto. }
  destruct (slot_entry h id D Ht) as (e & Ee & Ek). pose proof (slot_range h id D Ht). case_decide as Ekey.
  - left. exists (Z.to_nat (slot h id D)), e. rewrite Z2Nat.id by lia. split; [done|]. split; [done|]. by rewrite <- Ek.
  - right. split; [done|]. intros i e' Ei Ee'. destruct Hstop as [|Hempty]; [done|].
    destruct (table_reachable h Ht i e' Ei ltac:(by rewrite Ee')) as (d & Hd & Es & Hwalk). rewrite Ee' in *.
    assert (key_at h (slot h id d) = id) as Ekd by (rewrite Es; unfold key_at; by rewrite Nat2Z.id, Ei).
    destruct (lt_eq_lt_dec d D) as [[Hlt|Heq]|Hgt].
    + apply (Hmin d Hlt). by left.
    + subst d. congruence.
    + by destruct (Hwalk D Hgt).
Qed.

Lemma free_walk h id D d fuel x :
  table_ok h -> key_at h (slot h id D) = invalid_thread_id ->
  (forall d', (d' < D)%nat -> key_at h (slot h id d') <> invalid_thread_id) ->
  (d <= D)%nat -> (D - d < fuel)%nat -> x `mod` capacity h = slot h id d ->
  free_slot fuel h (u64 x) = Some (slot h id D).
Proof.
  intros Ht HD Hmin Hd Hfuel Hx. revert d x Hd Hfuel Hx. induction fuel as [|fuel IH]; intros d x Hd Hfuel Hx; [lia|].
  cbn [free_slot]. rewrite (mask_index h x Ht), Hx. destruct (slot_entry h id d Ht) as (e & -> & Ee). rewrite <- Ee.
  destruct (decide (d = D)) as [->|Hne].
  - by rewrite HD.
  - rewrite (proj2 (Z.eqb_neq _ _) (Hmin d ltac:(lia))). apply (IH (S d)); [lia|lia|]. by apply slot_next.
Qed.

(** The ids in a table, with their values. *)
Definition has h id v : Prop := exists i, entries h !! i = Some (mkKVP id v).

Lemma key_unique h i i' e e' :
  table_ok h -> key e <> invalid_thread_id -> entries h !! i = Some e -> entries h !! i' = Some e' -> key e = key e' -> i = i'.
Proof.
  intros Ht Hid Ei Ei' Ek.
  destruct (table_reachable h Ht i e Ei Hid) as (d & _ & Es & Hw).
  destruct (table_reachable h Ht i' e' Ei' ltac:(by rewrite <- Ek)) as (d' & _ & Es' & Hw'). rewrite <- Ek in *.
  assert (key_at h (slot h (key e) d) = key e) as E by (rewrite Es; unfold key_at; by rewrite Nat2Z.id, Ei).
  assert (key_at h (slot h (key e) d') = key e) as E' by (rewrite Es'; unfold key_at; by rewrite Nat2Z.id, Ei').
  destruct (lt_eq_lt_dec d d') as [[Hlt|Heq]|Hgt].
  - by destruct (Hw' d Hlt).
  - subst d'. lia.
  - by destruct (Hw d' Hgt).
Qed.

(** An id and its value enter a table. *)
Lemma put_spec h id v :
  table_ok h -> has_empty h -> id <> invalid_thread_id -> (forall v', ~ has h id v') ->
  exists h', put id v h = Some h' /\ table_ok h' /\ capacity h' = capacity h /\
    forall id' v', id' <> invalid_thread_id -> has h' id' v' <-> has h id' v' \/ (id' = id /\ v' = v).
Proof.
  intros Ht He Hid Hno.
  destruct (first_stop (fun k => k = invalid_thread_id) (fun k => decide (k = invalid_thread_id)) h id Ht He eq_refl)
    as (D & HD & Hstop & Hmin).
  unfold put. rewrite hashed_wrap, (free_walk h id D O); [|done|done|done|lia|lia|apply slot_0].
  destruct (slot_entry h id D Ht) as (e & Ee & Ek). set (j := Z.to_nat (slot h id D)) in *.
  pose proof (slot_range h id D Ht) as Hrange. pose proof (lookup_lt_Some _ _ _ Ee) as Hj.
  set (h' := mkHash (capacity h) (<[j := mkKVP id v]> (entries h))).
  assert (forall i, 0 <= i -> i <> slot h id D -> key_at h' i = key_at h i) as Hother.
  { intros i Hi Hne. unfold key_at, h'. cbn [entries]. by rewrite list_lookup_insert_ne by lia. }
  assert (forall k d, slot h' k d = slot h k d) as Hslot by done.
  assert (steps h' = steps h) as Hsteps by (unfold steps, h'; cbn; by rewrite length_insert).
  exists h'. split; [done|]. split; [|split; [done|]].
  - split; [apply Ht|unfold h'; cbn; rewrite length_insert; apply Ht|]. intros i e' Ei Hk. unfold h' in Ei. cbn [entries] in Ei.
    destruct (decide (i = j)) as [->|Hne].
    + rewrite list_lookup_insert_eq in Ei by done. injection Ei as <-. cbn [key] in *. exists D. rewrite Hsteps.
      split; [done|]. split; [rewrite Hslot; unfold j; lia|]. intros d' Hd'.
      assert (slot h id d' <> slot h id D) as Hds by (intros E; apply (Hmin d' Hd'); by rewrite E).
      rewrite Hslot, Hother by (done || apply slot_range, Ht). split; [by apply Hmin|].
      intros E. destruct (slot_entry h id d' Ht) as (e0 & Ee0 & Ek0).
      apply (Hno (value e0)). exists (Z.to_nat (slot h id d')). rewrite Ee0. f_equal. destruct e0. cbn in *. congruence.
    + rewrite list_lookup_insert_ne in Ei by done. destruct (table_reachable h Ht i e' Ei Hk) as (d & Hd & Es & Hw).
      exists d. rewrite Hsteps. split; [done|]. split; [done|]. intros d' Hd'. destruct (Hw d' Hd') as [H1 H2].
      rewrite Hslot, Hother; [done|apply slot_range, Ht|]. intros E. by rewrite E, Hstop in H1.
  - intros id' v' Hid'. unfold has, h'. cbn [entries]. split.
    + intros (i & Ei). destruct (decide (i = j)) as [->|Hne].
      * rewrite list_lookup_insert_eq in Ei by done. injection Ei as -> ->. by right.
      * rewrite list_lookup_insert_ne in Ei by done. left. by exists i.
    + intros [(i & Ei)|[-> ->]].
      * exists i. rewrite list_lookup_insert_ne; [done|]. intros <-. rewrite Ee in Ei. injection Ei as ->.
        cbn [key] in Ek. congruence.
      * exists j. by apply list_lookup_insert_eq.
Qed.

(** The ids in a table. *)
Definition taken h : list Z := filter (fun k => k <> invalid_thread_id) (key <$> entries h).

Lemma filter_distinct {A} (P : A -> Prop) `{forall x, Decision (P x)} l :
  (forall i j x, P x -> l !! i = Some x -> l !! j = Some x -> i = j) -> NoDup (filter P l).
Proof.
  induction l as [|a l IH]; intros Hu; [apply NoDup_nil_2|].
  assert (NoDup (filter P l)) as Hl.
  { apply IH. intros i j x Hx Hi Hj. by injection (Hu (S i) (S j) x Hx Hi Hj). }
  rewrite filter_cons. case_decide as Ha; [|done]. apply NoDup_cons. split; [|done].
  intros [_ Hin]%list_elem_of_filter. apply list_elem_of_lookup in Hin as [j Hj]. by specialize (Hu O (S j) a Ha eq_refl Hj).
Qed.

Lemma taken_nodup h : table_ok h -> NoDup (taken h).
Proof.
  intros Ht. apply filter_distinct. intros i j x Hx Hi Hj.
  rewrite list_lookup_fmap in Hi, Hj. apply fmap_Some in Hi as (e & Ei & ->), Hj as (e' & Ej & Ek).
  by apply (key_unique h i j e e').
Qed.

Lemma elem_taken h id : id ∈ taken h <-> id <> invalid_thread_id /\ exists v, has h id v.
Proof.
  unfold taken. rewrite list_elem_of_filter, list_elem_of_fmap. split.
  - intros [Hid (e & -> & He)]. split; [done|]. apply list_elem_of_lookup in He as [i Ei]. exists (value e), i. by destruct e.
  - intros [Hid (v & i & Ei)]. split; [done|]. exists (mkKVP id v). split; [done|]. by eapply list_elem_of_lookup_2.
Qed.

Lemma few_taken h : table_ok h -> Z.of_nat (length (taken h)) < capacity h -> has_empty h.
Proof.
  intros Ht Hlt. assert (length (taken h) < length (entries h))%nat as Hl by (rewrite (table_length h Ht); lia).
  clear Hlt Ht. unfold taken, has_empty in *. induction (entries h) as [|e es IH]; [cbn in Hl; lia|].
  rewrite fmap_cons, filter_cons in Hl. destruct (decide (key e <> invalid_thread_id)) as [Hk|Hk].
  - destruct IH as (i & e' & Ei & Ek); [cbn in Hl; lia|]. by exists (S i), e'.
  - exists O, e. split; [done|]. destruct (Z.eq_dec (key e) invalid_thread_id); [done|by destruct Hk].
Qed.

(** ** The tables are a map *)

(** The tables together hold the map [m] from thread ids to producers. *)
Record holds (hs : list ImplicitProducerHash) (m : gmap Z nat) : Prop := mkHolds {
  holds_tables : forall h, h ∈ hs -> table_ok h /\ has_empty h;
  holds_map : forall id v, id <> invalid_thread_id ->
    (exists h, h ∈ hs /\ has h id v) <-> Some <$> (m !! id) = Some v
}.

Lemma holds_known hs m h id v : holds hs m -> h ∈ hs -> id <> invalid_thread_id -> has h id v -> Some <$> (m !! id) = Some v.
Proof. intros Hh Hin Hid Hhas. apply (holds_map _ _ Hh id v Hid). by exists h. Qed.

Lemma taken_le h hs m : holds hs m -> h ∈ hs -> (length (taken h) <= size m)%nat.
Proof.
  intros Hh Hin. rewrite <- size_dom, <- (size_list_to_set (C := gset Z) (taken h)).
  - apply subseteq_size. intros id Hid. apply elem_of_list_to_set, elem_taken in Hid as [Hid (v & Hv)].
    pose proof (holds_known _ _ _ _ _ Hh Hin Hid Hv) as E. apply elem_of_dom. by destruct (m !! id).
  - apply taken_nodup, (holds_tables _ _ Hh h Hin).
Qed.

(** What the search through the tables finds. *)
Lemma find_spec hs m id first :
  holds hs m -> id <> invalid_thread_id ->
  match m !! id with
  | None => find first hs id = Some None
  | Some p => exists b, find first hs id = Some (Some (b, Some p)) /\
      (b = true -> first = true) /\ (b = false -> first = true -> forall v h hs', hs = h :: hs' -> ~ has h id v)
  end.
Proof.
  intros Hh Hid. destruct (m !! id) as [p|] eqn:Em.
  - assert (exists h, h ∈ hs /\ has h id (Some p)) as (h & Hin & Hhas) by (apply (holds_map _ _ Hh id _ Hid); by rewrite Em).
    assert (forall h v, h ∈ hs -> has h id v -> v = Some p) as Hval.
    { intros h' v Hin' Hv. pose proof (holds_known _ _ _ _ _ Hh Hin' Hid Hv) as E. rewrite Em in E. by injection E. }
    pose proof (holds_tables _ _ Hh) as Htab. clear Hh.
    revert first. induction hs as [|h0 hs IH]; intros first; [by apply not_elem_of_nil in Hin|]. cbn [find].
    destruct (Htab h0 ltac:(left)) as [Ht0 He0].
    destruct (probe_spec h0 id Ht0 He0 Hid) as [(i & e & -> & Ei & Ek)|[-> Hno]].
    + exists first. rewrite Nat2Z.id, Ei. split; [|split; [done|by intros -> ?]].
      do 3 f_equal. apply (Hval h0); [left|]. exists i. rewrite Ei. f_equal. destruct e. cbn in *. by subst.
    + assert (forall v, ~ has h0 id v) as Hno' by (intros v (i & Ei); by apply (Hno i _ Ei)).
      apply elem_of_cons in Hin as [->|Hin]; [by destruct (Hno' (Some p))|].
      destruct (IH Hin (fun h' v H => Hval h' v ltac:(by right)) (fun h' H => Htab h' ltac:(by right)) false)
        as (b & -> & Hb & _).
      exists b. split; [done|]. split; [intros ->; by specialize (Hb eq_refl)|]. intros _ _ v h1 hs' [= <- <-]. apply Hno'.
  - assert (forall h v, h ∈ hs -> ~ has h id v) as Hnone.
    { intros h v Hin Hv. pose proof (holds_known _ _ _ _ _ Hh Hin Hid Hv) as E. by rewrite Em in E. }
    pose proof (holds_tables _ _ Hh) as Htab. clear Hh. revert first.
    induction hs as [|h0 hs IH]; intros first; [done|]. cbn [find].
    destruct (Htab h0 ltac:(left)) as [Ht0 He0].
    destruct (probe_spec h0 id Ht0 He0 Hid) as [(i & e & _ & Ei & Ek)|[-> _]].
    + destruct (Hnone h0 (value e) ltac:(left)). exists i. rewrite Ei. f_equal. destruct e. cbn in *. by subst.
    + apply IH; [intros h' v Hin; apply Hnone; by right|intros h' Hin; apply Htab; by right].
Qed.

(** An entry for the first table: a new one, or a copy of one of another table. *)
Lemma put_holds h hs m id p :
  holds (h :: hs) m -> id <> invalid_thread_id -> (forall v, ~ has h id v) ->
  m !! id = None \/ m !! id = Some p -> Z.of_nat (size (<[id := p]> m)) < capacity h ->
  exists h', put id (Some p) h = Some h' /\ capacity h' = capacity h /\ holds (h' :: hs) (<[id := p]> m).
Proof.
  intros Hh Hid Hno Hm Hroom. destruct (holds_tables _ _ Hh h ltac:(left)) as [Ht He].
  destruct (put_spec h id (Some p) Ht He Hid Hno) as (h' & E & Ht' & Ecap & Hhas). exists h'. split; [done|]. split; [done|].
  assert (forall id' v, id' <> invalid_thread_id ->
    (exists h0, h0 ∈ h' :: hs /\ has h0 id' v) <-> Some <$> (<[id := p]> m !! id') = Some v) as Hmap.
  { intros id' v Hid'. destruct (decide (id' = id)) as [->|Hne].
    - rewrite lookup_insert_eq. cbn. split.
      + intros (h0 & Hin & Hv). apply elem_of_cons in Hin as [->|Hin].
        * apply (Hhas id v Hid) in Hv as [Hv|[_ ->]]; [by destruct (Hno v)|done].
        * pose proof (holds_known _ _ h0 _ _ Hh ltac:(by right) Hid Hv) as Ev.
          destruct Hm as [Em|Em]; rewrite Em in Ev; [done|by injection Ev as <-].
      + intros [= <-]. exists h'. split; [left|]. apply Hhas; [done|by right].
    - rewrite lookup_insert_ne by done. rewrite <- (holds_map _ _ Hh id' v Hid'). split.
      + intros (h0 & Hin & Hv). apply elem_of_cons in Hin as [->|Hin].
        * apply (Hhas id' v Hid') in Hv as [Hv|[? _]]; [exists h; split; [left|done]|done].
        * exists h0. split; [by right|done].
      + intros (h0 & Hin & Hv). apply elem_of_cons in Hin as [->|Hin].
        * exists h'. split; [left|]. apply Hhas; [done|by left].
        * exists h0. split; [by right|done]. }
  assert (length (taken h') <= size (<[id := p]> m))%nat as Htaken.
  { rewrite <- size_dom, <- (size_list_to_set (C := gset Z) (taken h')) by by apply taken_nodup.
    apply subseteq_size. intros k Hk. apply elem_of_list_to_set, elem_taken in Hk as [Hk (v & Hv)].
    assert (Some <$> (<[id := p]> m !! k) = Some v) as Ek by (apply Hmap; [done|]; exists h'; split; [left|done]).
    apply elem_of_dom. by destruct (<[id := p]> m !! k). }
  split; [|done]. intros h0 Hin. apply elem_of_cons in Hin as [->|Hin].
  - split; [done|]. apply few_taken; [done|]. rewrite Ecap. lia.
  - apply (holds_tables _ _ Hh). by right.
Qed.

(** ** A larger table *)

Lemma grow_spec fuel n k :
  1 <= k <= 62 -> 0 <= n < 2 ^ 60 -> (62 - k < Z.of_nat fuel) ->
  exists k', 1 <= k' <= 62 /\ grow fuel n (2 ^ k) = Some (2 ^ k') /\ n < 2 ^ k' ≫ 1.
Proof.
  intros Hk Hn. revert k Hk. induction fuel as [|fuel IH]; intros k Hk Hf; [lia|]. cbn [grow].
  assert (2 ^ k ≫ 1 = 2 ^ (k - 1)) as Ehalf by (rewrite Z.shiftr_div_pow2, <- Z.pow_sub_r by lia; done).
  destruct (Z.leb_spec (2 ^ k ≫ 1) n) as [Hle|Hgt]; [|by exists k].
  assert (2 ^ (k - 1) < 2 ^ 60) as Hlt by lia. apply Z.pow_lt_mono_r_iff in Hlt; [|lia..].
  replace (u64 (2 ^ k ≪ 1)) with (2 ^ (k + 1)); [apply IH; lia|].
  rewrite Z.shiftl_mul_pow2, <- Z.pow_add_r by lia. symmetry. apply wrap_small. unfold in_width.
  split; [apply Z.pow_nonneg; lia|apply Z.pow_lt_mono_r; lia].
Qed.

Lemma new_hash_ok k :
  0 <= k <= 63 -> table_ok (new_hash (2 ^ k)) /\ has_empty (new_hash (2 ^ k)) /\
  forall id v, id <> invalid_thread_id -> ~ has (new_hash (2 ^ k)) id v.
Proof.
  intros Hk. pose proof (Z.pow_pos_nonneg 2 k ltac:(lia) ltac:(lia)).
  assert (forall i e, entries (new_hash (2 ^ k)) !! i = Some e -> e = newKVP) as Hnew.
  { intros i e Ei. cbn in Ei. by apply lookup_replicate in Ei as [-> _]. }
  split; [split|split].
  - by exists k.
  - cbn. by rewrite length_replicate.
  - intros i e Ei Hk'. by rewrite (Hnew i e Ei) in Hk'.
  - exists O, newKVP. split; [|done]. cbn. rewrite lookup_replicate_2 by lia. done.
  - intros id v Hid (i & Ei). apply Hnew in Ei. injection Ei as ->. done.
Qed.

Lemma new_table_holds hs m k :
  holds hs m -> 0 <= k <= 63 -> holds (new_hash (2 ^ k) :: hs) m.
Proof.
  intros Hh Hk. destruct (new_hash_ok k Hk) as (Ht & He & Hno). split.
  - intros h Hin. apply elem_of_cons in Hin as [->|Hin]; [done|]. by apply (holds_tables _ _ Hh).
  - intros id v Hid. rewrite <- (holds_map _ _ Hh id v Hid). split.
    + intros (h & Hin & Hv). apply elem_of_cons in Hin as [->|Hin]; [by destruct (Hno id v Hid)|by exists h].
    + intros (h & Hin & Hv). exists h. split; [by right|done].
Qed.

(** ** Finding or adding a producer *)

(** The state of the tables between calls: fewer than half of the slots of the
    current table are in use. *)
Record inv (h : t) (m : gmap Z nat) : Prop := mkInv {
  inv_holds : holds (hashes h) m;
  inv_count : implicitProducerHashCount h = Z.of_nat (size m);
  inv_room : exists main rest, hashes h = main :: rest /\ 2 * Z.of_nat (size m) < capacity main;
  inv_idle : implicitProducerHashResizeInProgress h = false
}.

Lemma populate_inv :
  INITIAL_IMPLICIT_PRODUCER_HASH_SIZE <> 0 -> static_asserts = true -> in_width 64 INITIAL_IMPLICIT_PRODUCER_HASH_SIZE ->
  inv populate_initial_implicit_producer_hash ∅.
Proof.
  intros Hne Hchecked Hw. unfold populate_initial_implicit_producer_hash. rewrite (proj2 (Z.eqb_neq _ _) Hne).
  assert (exists k, 0 <= k <= 63 /\ INITIAL_IMPLICIT_PRODUCER_HASH_SIZE = 2 ^ k) as (k & Hk & ->).
  { unfold static_asserts in Hchecked. rewrite !andb_true_iff in Hchecked. destruct Hchecked as [[_ Hp] _].
    apply orb_true_iff in Hp as [Hp|Hp]; [by apply Z.eqb_eq in Hp|].
    destruct (power_of_2_spec INITIAL_IMPLICIT_PRODUCER_HASH_SIZE) as (k & Hk & E); [unfold in_width in Hw; lia|done|].
    exists k. split; [|done]. assert (k < 64); [|lia]. apply (Z.pow_lt_mono_r_iff 2); [lia|lia|]. rewrite <- E. apply Hw. }
  destruct (new_hash_ok k Hk) as (Ht & He & Hno).
  split; cbn [hashes implicitProducerHashCount implicitProducerHashResizeInProgress]; [|by rewrite map_size_empty| |done].
  - split.
    + intros h Hin. by apply list_elem_of_singleton in Hin as ->.
    + intros id v Hid. rewrite lookup_empty. split; [|done]. intros (h & Hin & Hv). apply list_elem_of_singleton in Hin as ->.
      by destruct (Hno id v Hid).
  - exists (new_hash (2 ^ k)), []. split; [done|]. rewrite map_size_empty. cbn. pose proof (Z.pow_pos_nonneg 2 k). lia.
Qed.

Section Spec.
Context {S : Type} (try_malloc : M S bool) (recycle_or_create_producer : M S (option (nat * bool))).
(** What the rest of the queue satisfies between calls. *)
Context (ok : S -> Prop).
Context (malloc_total : forall s, ok s -> exists b s', try_malloc s = Some (b, s') /\ ok s').
(** Implicit producers do not become inactive, so none is recycled. *)
Context (create_total : forall s, ok s -> exists r s', recycle_or_create_producer s = Some (r, s') /\ ok s' /\
  forall p b, r = Some (p, b) -> b = false).

(** The current table is enlarged when it is half full; or there is no memory. *)
Lemma resize_table h m s :
  ok s -> holds (hashes h) m -> implicitProducerHashResizeInProgress h = false ->
  (exists main rest, hashes h = main :: rest /\ 2 * Z.of_nat (size m) < capacity main) -> Z.of_nat (size m) < 2 ^ 59 ->
  let n := Z.of_nat (size m) + 1 in
  exists b h' s', resize try_malloc n (h, s) = Some (b, (h', s')) /\ ok s' /\
    holds (hashes h') m /\ implicitProducerHashResizeInProgress h' = false /\
    (exists main rest, hashes h' = main :: rest /\ 2 * Z.of_nat (size m) < capacity main /\
      (b = true -> n < capacity main ≫ 1)) /\
    if (b : bool) then implicitProducerHashCount h' = implicitProducerHashCount h /\ (s' = s \/ try_malloc s = Some (true, s'))
    else implicitProducerHashCount h' = u64 (implicitProducerHashCount h - 1) /\ try_malloc s = Some (false, s').
Proof.
  intros Hs Hh Hidle (main & rest & Ehs & Hroom) Hsmall n. destruct h as [hs count busy]. cbn in *. subst hs busy.
  destruct (holds_tables _ _ Hh main ltac:(left)) as [Ht _]. destruct (table_power _ Ht) as (k & Hk & Ek).
  unfold resize, main_hash. cbv [mbind M_bind mret M_ret field gets set lift the fst snd]. cbn [hashes implicitProducerHashResizeInProgress negb].
  rewrite andb_true_r. destruct (Z.leb_spec (capacity main ≫ 1) n) as [Hle|Hgt].
  - cbn [set_resizing hashes implicitProducerHashCount]. rewrite (proj2 (Z.leb_le _ _) Hle).
    destruct (grow_spec 64 n (k + 1)) as (k' & Hk' & Eg & Hlt); [|lia|lia|].
    { split; [lia|]. assert (2 ^ (k - 1) < 2 ^ 60 \/ k = 0) as [Hp|?]; [|apply Z.pow_lt_mono_r_iff in Hp; lia|lia].
      destruct (Z.eq_dec k 0); [by right|left]. rewrite Ek, Z.shiftr_div_pow2, <- Z.pow_sub_r in Hle by lia. lia. }
    replace (u64 (capacity main ≪ 1)) with (2 ^ (k + 1)).
    2:{ rewrite Ek, Z.shiftl_mul_pow2, <- Z.pow_add_r by lia. symmetry. apply wrap_small. unfold in_width.
        assert (k + 1 <= 63) as Hk1.
        { destruct (Z.eq_dec k 0) as [->|]; [lia|]. rewrite Ek, Z.shiftr_div_pow2, <- Z.pow_sub_r in Hle by lia.
          assert (2 ^ (k - 1) < 2 ^ 60) as Hp by lia. apply Z.pow_lt_mono_r_iff in Hp; lia. }
        split; [apply Z.pow_nonneg; lia|apply Z.pow_lt_mono_r; lia]. }
    rewrite Eg. destruct (malloc_total s Hs) as (b & s' & Em & Hs'). rewrite Em.
    destruct b; do 3 eexists; (split; [reflexivity|]); (split; [exact Hs'|]); cbn.
    + split; [apply new_table_holds; [done|lia]|]. split; [done|]. split; [|by split; [|right]].
      exists (new_hash (2 ^ k')), (main :: rest). split; [done|]. cbn.
      assert (2 ^ k' ≫ 1 = 2 ^ (k' - 1)) as Eh by (rewrite Z.shiftr_div_pow2, <- Z.pow_sub_r by lia; done).
      split; [|by intros _]. rewrite Eh in Hlt.
      replace (2 ^ k') with (2 * 2 ^ (k' - 1)) by (rewrite <- Z.pow_succ_r by lia; f_equal; lia). lia.
    + split; [done|]. split; [done|]. split; [|done]. exists main, rest. split; [done|]. by split.
  - exists true. do 2 eexists. split; [reflexivity|]. split; [exact Hs|]. cbn. split; [done|]. split; [done|]. split; [|by split; [|left]].
    exists main, rest. split; [done|]. by split.
Qed.

Lemma put_main_some h rest h' c b (s : S) id v :
  put id v h = Some h' -> put_main id v (mk (h :: rest) c b, s) = Some (tt, (mk (h' :: rest) c b, s)).
Proof. intros E. unfold put_main, main_hash. cbv [mbind M_bind mret M_ret field gets set the fst snd hashes]. by rewrite E. Qed.

Lemma three_quarters c n : 0 <= c -> n < c ≫ 1 -> n < (c ≫ 1) + (c ≫ 2).
Proof. intros Hc Hn. assert (0 <= c ≫ 2) by (by apply Z.shiftr_nonneg). lia. Qed.

Lemma half c n : n < c ≫ 1 -> 2 * n < c.
Proof. rewrite Z.shiftr_div_pow2 by lia. pose proof (Z.div_mod c (2 ^ 1) ltac:(done)). pose proof (Z.mod_pos_bound c (2 ^ 1)). lia. Qed.

(** A thread that has a producer. *)
Lemma get_known h m s id p :
  inv h m -> id <> invalid_thread_id -> m !! id = Some p ->
  exists h', get_or_add_implicit_producer try_malloc recycle_or_create_producer id (h, s) = Some (Some p, (h', s)) /\ inv h' m.
Proof.
  intros [Hh Hc (main & rest & Ehs & Hroom) Hidle] Hid Em. destruct h as [hs c b]. cbn in Ehs, Hh, Hc, Hidle. subst hs c b.
  unfold get_or_add_implicit_producer. rewrite (bind_some _ _ _ (main :: rest) _) by done.
  pose proof (find_spec _ _ id true Hh Hid) as Hf. rewrite Em in Hf. destruct Hf as (b & Ef & _ & Hb).
  rewrite (bind_some _ _ _ _ _ (the_some _ _ _ Ef)). destruct b.
  - eexists. split; [reflexivity|]. split; try done. by exists main, rest.
  - destruct (put_holds main rest m id p Hh Hid (fun v => Hb eq_refl eq_refl v main rest eq_refl)) as (h' & Ep & Ecap & Hh');
      [by right|by rewrite insert_id by done; lia|].
    rewrite (bind_some _ _ _ _ _ (put_main_some _ _ _ _ _ _ _ _ Ep)). eexists. split; [reflexivity|].
    rewrite (insert_id m id p Em) in Hh'. split; cbn; try done. exists h', rest. split; [done|]. lia.
Qed.

(** A thread that has none gets a new one, or nothing changes. *)
Lemma get_new h m s id :
  ok s -> inv h m -> id <> invalid_thread_id -> m !! id = None -> Z.of_nat (size m) < 2 ^ 59 ->
  exists r h' s', get_or_add_implicit_producer try_malloc recycle_or_create_producer id (h, s) = Some (r, (h', s')) /\
    ok s' /\ inv h' (match r with Some p => <[id := p]> m | None => m end) /\
    ((r = None /\ try_malloc s = Some (false, s')) \/
     exists s1 c, (s1 = s \/ try_malloc s = Some (true, s1)) /\ recycle_or_create_producer s1 = Some (c, s') /\ r = fst <$> c).
Proof.
  intros Hs [Hh Hc (main & rest & Ehs & Hroom) Hidle] Hid Em Hsmall. destruct h as [hs c b]. cbn in Ehs, Hh, Hc, Hidle. subst hs c b.
  unfold get_or_add_implicit_producer. rewrite (bind_some _ _ _ (main :: rest) _) by done.
  pose proof (find_spec _ _ id true Hh Hid) as Hf. rewrite Em in Hf. rewrite (bind_some _ _ _ _ _ (the_some _ _ _ Hf)).
  rewrite (bind_some _ _ _ (Z.of_nat (size m)) _) by done.
  assert (u64 (Z.of_nat (size m) + 1) = Z.of_nat (size m) + 1) as En by (apply wrap_small; unfold in_width; lia).
  assert (u64 (Z.of_nat (size m) + 1 - 1) = Z.of_nat (size m)) as En' by (rewrite Z.add_simpl_r; apply wrap_small; unfold in_width; lia).
  rewrite En. set (h1 := mk (main :: rest) (Z.of_nat (size m) + 1) false).
  rewrite (bind_some _ _ _ tt (h1, s)) by done. cbn [insert].
  destruct (resize_table h1 m s Hs Hh eq_refl ltac:(by exists main, rest) Hsmall)
    as (b & [hs2 c2 b2] & s2 & Er & Hs2' & Hh2 & Hidle2 & (main2 & rest2 & Ehs2 & Hroom2 & Hn) & Hok).
  cbn in Hh2, Hidle2, Ehs2, Hok. subst hs2 b2. rewrite (bind_some _ _ _ _ _ Er). destruct b.
  - destruct Hok as [-> Hs2]. specialize (Hn eq_refl).
    rewrite (bind_some _ _ _ (main2, rest2) (mk (main2 :: rest2) (Z.of_nat (size m) + 1) false, s2)) by done. cbn [fst].
    rewrite (proj2 (Z.ltb_lt _ _)) by (apply three_quarters; [lia|done]).
    destruct (create_total s2 Hs2') as (r & s3 & Ec & Hs3 & Hrec). unfold lift at 1.
    rewrite (bind_some _ _ _ r (mk (main2 :: rest2) (Z.of_nat (size m) + 1) false, s3)) by (by rewrite Ec).
    destruct r as [[p recycled]|].
    + rewrite (Hrec p recycled eq_refl). rewrite (bind_some _ _ _ tt (mk (main2 :: rest2) (Z.of_nat (size m) + 1) false, s3)) by done.
      assert (size (<[id := p]> m) = Datatypes.S (size m)) as Esize by (by rewrite map_size_insert_None).
      destruct (put_holds main2 rest2 m id p Hh2 Hid) as (h' & Ep & Ecap & Hh').
      * intros v Hv. pose proof (holds_known _ _ _ _ _ Hh2 ltac:(left) Hid Hv) as E. by rewrite Em in E.
      * by left.
      * rewrite Esize. apply half in Hn. lia.
      * rewrite (bind_some _ _ _ _ _ (put_main_some _ _ _ _ _ _ _ _ Ep)). do 3 eexists. split; [reflexivity|]. split; [exact Hs3|]. split.
        -- split; cbn; [done|lia| |done]. exists h', rest2. split; [done|]. rewrite Esize, Ecap. apply half in Hn. lia.
        -- right. exists s2, (Some (p, recycled)). done.
    + rewrite (bind_some _ _ _ tt (mk (main2 :: rest2) (Z.of_nat (size m)) false, s3)) by (unfold set, set_count; cbn; by rewrite En').
      do 3 eexists. split; [reflexivity|]. split; [exact Hs3|]. split; [|right; by exists s2, None].
      split; cbn; try done. by exists main2, rest2.
  - destruct Hok as [-> Hs2]. do 3 eexists. split; [reflexivity|]. split; [exact Hs2'|]. split; [|by left].
    split; cbn; try done. by exists main2, rest2.
Qed.

(** ** Every thread keeps its producer *)

Fixpoint calls (ids : list Z) : M (t * S) (list (option nat)) :=
  match ids with
  | [] => mret []
  | id :: ids =>
      r ← get_or_add_implicit_producer try_malloc recycle_or_create_producer id;
      rs ← calls ids;
      mret (r :: rs)
  end.

(** A thread in the map is given the producer in the map; one that is not
    enters it with the producer it is given, unless it is given none. *)
Inductive replies : gmap Z nat -> list Z -> list (option nat) -> gmap Z nat -> Prop :=
  | replies_end m : replies m [] [] m
  | replies_known m id ids p rs m' : m !! id = Some p -> replies m ids rs m' -> replies m (id :: ids) (Some p :: rs) m'
  | replies_new m id ids p rs m' : m !! id = None -> replies (<[id := p]> m) ids rs m' -> replies m (id :: ids) (Some p :: rs) m'
  | replies_none m id ids rs m' : m !! id = None -> replies m ids rs m' -> replies m (id :: ids) (None :: rs) m'.

Lemma calls_spec ids h m s :
  ok s -> inv h m -> Forall (fun id => id <> invalid_thread_id) ids -> Z.of_nat (size m + length ids) <= 2 ^ 59 ->
  exists rs h' s' m', calls ids (h, s) = Some (rs, (h', s')) /\ replies m ids rs m' /\ inv h' m'.
Proof.
  intros Hs Hi Hids. revert h m s Hs Hi. induction Hids as [|id ids Hid Hids IH]; intros h m s Hs Hi Hlen.
  - exists [], h, s, m. split; [done|]. split; [constructor|done].
  - cbn [calls length] in *. destruct (m !! id) as [p|] eqn:Em.
    + destruct (get_known h m s id p Hi Hid Em) as (h1 & E & Hi1).
      destruct (IH h1 m s Hs Hi1 ltac:(lia)) as (rs & h2 & s2 & m2 & E2 & Hr & Hi2).
      rewrite (bind_some _ _ _ _ _ E), (bind_some _ _ _ _ _ E2). exists (Some p :: rs), h2, s2, m2.
      split; [done|]. split; [by constructor|done].
    + destruct (get_new h m s id Hs Hi Hid Em ltac:(lia)) as (r & h1 & s1 & E & Hs1 & Hi1 & _).
      destruct (IH h1 _ s1 Hs1 Hi1) as (rs & h2 & s2 & m2 & E2 & Hr & Hi2).
      { destruct r; [rewrite map_size_insert_None by done|]; lia. }
      rewrite (bind_some _ _ _ _ _ E), (bind_some _ _ _ _ _ E2). exists (r :: rs), h2, s2, m2.
      split; [done|]. split; [destruct r; by constructor|done].
Qed.
End Spec.

(** The hash is a map from threads to producers: every sequence of calls runs to its end, so no search of a table
    goes on for ever, a thread that has been given a producer is given the same one ever after, also when tables
    have been added since, and a thread that is given none can try again. *)
Theorem threads_keep_their_producers {S : Type} (try_malloc : M S bool)
    (recycle_or_create_producer : M S (option (nat * bool))) (s : S) (ids : list Z) :
  INITIAL_IMPLICIT_PRODUCER_HASH_SIZE <> 0 -> static_asserts = true -> in_width 64 INITIAL_IMPLICIT_PRODUCER_HASH_SIZE ->
  (forall s, exists b s', try_malloc s = Some (b, s')) ->
  (forall s, exists r s', recycle_or_create_producer s = Some (r, s') /\ forall p b, r = Some (p, b) -> b = false) ->
  Forall (fun id => id <> invalid_thread_id) ids -> Z.of_nat (length ids) <= 2 ^ 59 ->
  exists rs h s' m, calls try_malloc recycle_or_create_producer ids (populate_initial_implicit_producer_hash, s) =
      Some (rs, (h, s')) /\ replies ∅ ids rs m /\ inv h m.
Proof.
  intros Hne Hc Hw Hm Hr Hids Hlen.
  apply (calls_spec try_malloc recycle_or_create_producer (fun _ => True)); [| |done|by apply populate_inv|done|by rewrite map_size_empty].
  - intros s0 _. destruct (Hm s0) as (b & s1 & E). by exists b, s1.
  - intros s0 _. destruct (Hr s0) as (c & s1 & E & Hb). by exists c, s1.
Qed.
End Hash.

(** ** An example *)

Definition two_slots : Traits := {|
  BLOCK_SIZE := 2;
  EXPLICIT_BLOCK_EMPTY_COUNTER_THRESHOLD := 2;
  EXPLICIT_INITIAL_INDEX_SIZE := 2;
  IMPLICIT_INITIAL_INDEX_SIZE := 2;
  INITIAL_IMPLICIT_PRODUCER_HASH_SIZE := 2;
  EXPLICIT_CONSUMER_CONSUMPTION_QUOTA_BEFORE_ROTATE := 2;
  Traits_MAX_SUBQUEUE_SIZE := const_numeric_max 64
|}.
(** Producers are numbered from zero. *)
Definition plenty : M nat bool := fun s => Some (true, s).
Definition create_next : M nat (option (nat * bool)) := fun s => Some (Some (s, false), S s).
Definition visitors : list Z := [100; 200; 300; 100; 400; 500; 200; 100].

Lemma threads_keep_their_producers_witness :
  (exists rs h s' m,
    calls plenty create_next visitors (populate_initial_implicit_producer_hash (tr := two_slots), O) =
      Some (rs, (h, s')) /\ replies ∅ visitors rs m /\ inv h m) /\
  fst <$> calls plenty create_next visitors (populate_initial_implicit_producer_hash (tr := two_slots), O) =
    Some (Some <$> [0; 1; 2; 0; 3; 4; 1; 0]%nat).
Proof.
  split; [|by vm_compute]. apply (threads_keep_their_producers (tr := two_slots)).
  - done.
  - by vm_compute.
  - by vm_compute.
  - intros s. by exists true, s.
  - intros s. exists (Some (s, false)), (S s). split; [done|]. by intros p b [= _ <-].
  - by repeat constructor.
  - by vm_compute.
Defined.
End ProducerHash.
