(* ===== verification/HashThreads.v ===== *)
(** * Threads that meet in the hash of implicit producers
    (utils/concurrentqueue.h, "Implicit producer hash")

    [get_or_add_implicit_producer], which ProducerHash.v has one call at a time,
    as any number of threads run it at the same time: a thread has a program
    counter with its local variables, and a step is an access to the tables,
    to the pointer to the newest one, to the count, or to the flag that a
    thread sets while it makes a larger table. [malloc] of a table and
    [recycle_or_create_producer] are one step each; what comes of their calls
    is given. The tables and the probing are those of ProducerHash.v. *)
From S2P Require Import Prelude.
From S2P Require Import QueueTraits.
From S2P Require Import ProducerHash.
#[local] Open Scope Z_scope.

Module HashThreads.
Import ProducerHash.ProducerHash.

(** ** Data *)

(** A table is named by the number of its allocation; [prev] is the one that
    it follows. *)
Record Table := mkTable { hash : ImplicitProducerHash; prev : option nat }.

Record shared := mkShared {
  tables : list Table;
  implicitProducerHash : nat;
  count : Z;                    (* [implicitProducerHashCount] *)
  resizing : bool;              (* [implicitProducerHashResizeInProgress] *)
  mallocs : nat;                (* the calls of [malloc] for tables *)
  creations : nat               (* those of [recycle_or_create_producer] *)
}.

(** Where a thread is in its call. [m] is its [mainHash], [h] the table it looks
    at, [n] its [newCount], [v] the value to enter. *)
Inductive pc :=
| Returned (r : option nat)                     (* in no call; what the last one returned *)
| LoadMain
| Probe (m h : nat) (index : Z)
| Read (m h : nat) (index : Z)                  (* found *)
| FetchAdd (m : nat)                            (* in no table *)
| Claim (m : nat) (n : Z)                       (* the top of the loop *)
| Reload (n : Z)                                (* the flag is ours *)
| Alloc (m : nat) (n : Z)
| FailCount | FailClear
| Publish (k : nat) (n : Z)
| Release (m : nat) (n : Z)
| Create (m : nat) (n : Z)
| Drop                                          (* there is no producer *)
| Uncount (m : nat) (v : option nat)            (* the producer is recycled *)
| Wait (n : Z)                                  (* for another thread's table *)
| Place (m : nat) (v : option nat) (index : Z)
| PlaceCAS (m : nat) (v : option nat) (index : Z)
| PlaceValue (m : nat) (v : option nat) (index : Z).

(** ** Steps *)

Section Threads.
(** The threads' ids, and the outcomes of [malloc] and of
    [recycle_or_create_producer(false, recycled)] by the number of the call. *)
Context (ids : list Z).
Context (try_malloc : nat -> bool) (recycle_or_create_producer : nat -> option (nat * bool)).

Definition thread_id (t : nat) : Z := default invalid_thread_id (ids !! t).

Definition with_count n s := mkShared (tables s) (implicitProducerHash s) n (resizing s) (mallocs s) (creations s).
Definition with_resizing b s := mkShared (tables s) (implicitProducerHash s) (count s) b (mallocs s) (creations s).
Definition with_tables ts s := mkShared ts (implicitProducerHash s) (count s) (resizing s) (mallocs s) (creations s).
Definition with_main k s := mkShared (tables s) k (count s) (resizing s) (mallocs s) (creations s).

Definition entry (s : shared) (h : nat) (index : Z) : option ImplicitProducerKVP :=
  T ← tables s !! h; entries (hash T) !! Z.to_nat index.
Definition store (h : nat) (index : Z) (e : ImplicitProducerKVP) (s : shared) : shared :=
  with_tables (alter (fun T => mkTable (mkHash (capacity (hash T)) (<[Z.to_nat index := e]> (entries (hash T)))) (prev T)) h (tables s)) s.

Definition half_of (T : Table) : Z := capacity (hash T) ≫ 1.
Definition limit (T : Table) : Z := (capacity (hash T) ≫ 1) + (capacity (hash T) ≫ 2).
Definition mask (T : Table) (index : Z) : Z := index .& u64 (capacity (hash T) - 1).

(** After the part that enlarges the table. *)
Definition decide_table (T : Table) (m : nat) (n : Z) : pc := if n <? limit T then Create m n else Wait n.

(** [None] is an access outside of an array or through no pointer. *)
Definition step (t : nat) (c : pc) (s : shared) : option (pc * shared) :=
  let id := thread_id t in
  match c with
  | Returned _ => None
  | LoadMain => Some (Probe (implicitProducerHash s) (implicitProducerHash s) (hashed id), s)
  | Probe m h index =>
      T ← tables s !! h;
      let index := mask T index in
      e ← entry s h index;
      Some (if key e =? id then Read m h index
            else if key e =? invalid_thread_id then
              match prev T with Some h => Probe m h (hashed id) | None => FetchAdd m end
            else Probe m h (u64 (index + 1)), s)
  | Read m h index =>
      e ← entry s h index;
      Some (if decide (h = m) then Returned (value e) else Place m (value e) (hashed id), s)
  | FetchAdd m => Some (Claim m (u64 (1 + count s)), with_count (u64 (count s + 1)) s)
  | Claim m n =>
      T ← tables s !! m;
      Some (if half_of T <=? n then
              if resizing s then (decide_table T m n, s) else (Reload n, with_resizing true s)
            else (decide_table T m n, s))
  | Reload n =>
      let m := implicitProducerHash s in
      T ← tables s !! m;
      Some (if half_of T <=? n then Alloc m n else Release m n, s)
  | Alloc m n =>
      T ← tables s !! m;
      newCapacity ← grow 64 n (u64 (capacity (hash T) ≪ 1));
      let s1 := mkShared (tables s) (implicitProducerHash s) (count s) (resizing s) (S (mallocs s)) (creations s) in
      Some (if try_malloc (mallocs s) then
              (Publish (length (tables s)) n, with_tables (tables s ++ [mkTable (new_hash newCapacity) (Some m)]) s1)
            else (FailCount, s1))
  | FailCount => Some (FailClear, with_count (u64 (count s - 1)) s)
  | FailClear => Some (Returned None, with_resizing false s)
  | Publish k n => Some (Release k n, with_main k s)
  | Release m n =>
      T ← tables s !! m;
      Some (decide_table T m n, with_resizing false s)
  | Create m n =>
      let s1 := mkShared (tables s) (implicitProducerHash s) (count s) (resizing s) (mallocs s) (S (creations s)) in
      Some (match recycle_or_create_producer (creations s) with
            | None => Drop
            | Some (p, recycled) => if (recycled : bool) then Uncount m (Some p) else Place m (Some p) (hashed id)
            end, s1)
  | Drop => Some (Returned None, with_count (u64 (count s - 1)) s)
  | Uncount m v => Some (Place m v (hashed id), with_count (u64 (count s - 1)) s)
  | Wait n => Some (Claim (implicitProducerHash s) n, s)
  | Place m v index =>
      T ← tables s !! m;
      let index := mask T index in
      e ← entry s m index;
      Some (if key e =? invalid_thread_id then PlaceCAS m v index else Place m v (u64 (index + 1)), s)
  | PlaceCAS m v index =>
      e ← entry s m index;
      Some (if key e =? invalid_thread_id then (PlaceValue m v index, store m index (mkKVP id (value e)) s)
            else (Place m v (u64 (index + 1)), s))
  | PlaceValue m v index =>
      e ← entry s m index;
      Some (Returned v, store m index (mkKVP (key e) v) s)
  end.

(** ** Schedules *)

Record sys := mkSys {
  state : shared;
  threads : list pc;
  answers : list (nat * option nat)    (* what the calls have returned, in order *)
}.

(** A thread gets a turn: it begins a call, or goes on with the one it is in. *)
Definition turn (t : nat) (s : sys) : option sys :=
  match threads s !! t with
  | None => Some s
  | Some (Returned _) => Some (mkSys (state s) (<[t := LoadMain]> (threads s)) (answers s))
  | Some c =>
      '(c', s') ← step t c (state s);
      Some (mkSys s' (<[t := c']> (threads s))
        (answers s ++ match c' with Returned r => [(t, r)] | _ => [] end))
  end.
Fixpoint turns (schedule : list nat) (s : sys) : option sys :=
  match schedule with
  | [] => Some s
  | t :: schedule => s ← turn t s; turns schedule s
  end.
Lemma turns_app l l' s : turns (l ++ l') s = s ← turns l s; turns l' s.
Proof. revert s. induction l as [|t l IH]; intros s; cbn; [done|]. destruct (turn t s) as [s1|]; cbn; [apply IH|done]. Qed.
End Threads.

(** [populate_initial_implicit_producer_hash], and every thread in no call. *)
Definition begin {tr : Traits} (ids : list Z) : sys :=
  mkSys (mkShared [mkTable (new_hash INITIAL_IMPLICIT_PRODUCER_HASH_SIZE) None] 0 0 false 0 0)
    (replicate (length ids) (Returned None)) [].

(** ** The invariant *)

Section Safety.
Context (ids : list Z).
Context (try_malloc : nat -> bool) (recycle_or_create_producer : nat -> option (nat * bool)).
Context (ids_differ : NoDup ids) (ids_real : Forall (fun id => id <> invalid_thread_id) ids).
Abbreviation tid := (thread_id ids).

Lemma tid_some t : (t < length ids)%nat -> exists id, ids !! t = Some id /\ tid t = id.
Proof. intros Ht. destruct (lookup_lt_is_Some_2 ids t Ht) as [id E]. exists id. split; [done|]. unfold thread_id. by rewrite E. Qed.

Lemma tid_real t : (t < length ids)%nat -> tid t <> invalid_thread_id.
Proof. intros Ht. destruct (tid_some t Ht) as (id & E & ->). by apply (proj1 (Forall_lookup _ _) ids_real t). Qed.

Lemma tid_inj t t' : (t < length ids)%nat -> (t' < length ids)%nat -> tid t = tid t' -> t = t'.
Proof.
  intros Ht Ht' E. destruct (tid_some t Ht) as (id & Ei & E1), (tid_some t' Ht') as (id' & Ei' & E2).
  apply (NoDup_lookup ids t t' id); congruence.
Qed.

(** What a thread knows of a table: that its id is not there, or is with a
    value; and the slots that it has probed. *)
Definition absent (ts : list Table) (k t : nat) : Prop :=
  exists T, ts !! k = Some T /\ forall i e, entries (hash T) !! i = Some e -> key e <> tid t.
Definition contains (ts : list Table) (k t : nat) (v : option nat) : Prop :=
  exists T i, ts !! k = Some T /\ entries (hash T) !! i = Some (mkKVP (tid t) v).
Definition full_to (h : ImplicitProducerHash) (id : Z) (d : nat) : Prop :=
  forall d', (d' < d)%nat -> key_at h (slot h id d') <> invalid_thread_id /\ key_at h (slot h id d') <> id.
Definition walked (ts : list Table) (k t : nat) (index : Z) : Prop :=
  exists T d x, ts !! k = Some T /\ index = u64 x /\ x `mod` capacity (hash T) = slot (hash T) (tid t) d /\ full_to (hash T) (tid t) d.
Definition at_slot (ts : list Table) (k t : nat) (index : Z) : Prop :=
  exists T d, ts !! k = Some T /\ index = slot (hash T) (tid t) d /\ full_to (hash T) (tid t) d.
Definition fits (ts : list Table) (k : nat) (n : Z) : Prop := exists T, ts !! k = Some T /\ n < limit T.
Definition below_half (ts : list Table) (k : nat) (n : Z) : Prop := exists T, ts !! k = Some T /\ n < half_of T.
Definition entry_is (ts : list Table) (k : nat) (index : Z) (e : ImplicitProducerKVP) : Prop :=
  exists T, ts !! k = Some T /\ entries (hash T) !! Z.to_nat index = Some e.

(** There was no memory for a table or a producer. *)
Definition refused : Prop := (exists n, try_malloc n = false) \/ exists n, recycle_or_create_producer n = None.

(** [reg]: the threads that are counted, with their [newCount]. [own]: those that
    have a producer. *)
Section Thread.
Context (ts : list Table) (main : nat) (reg : gmap nat Z) (own : gmap nat nat).

Definition settled (t bound : nat) : Prop :=
  match own !! t with
  | Some p => exists k, (k <= bound)%nat /\ contains ts k t (Some p)
  | None => reg !! t = None
  end.
Definition fresh (t : nat) (n : Z) : Prop := reg !! t = Some n /\ own !! t = None.
(** A thread that is about to enter [v] in table [m]. *)
Definition placing (t m : nat) (v : option nat) : Prop :=
  (m <= main)%nat /\ absent ts m t /\ exists p n, v = Some p /\ own !! t = Some p /\ reg !! t = Some n /\ fits ts m n.

Definition thread_ok (t : nat) (c : pc) : Prop :=
  match c with
  | Returned _ | LoadMain => settled t main
  | Probe m h index =>
      (m <= main)%nat /\ (h <= m)%nat /\ settled t m /\
      (forall h', (h < h')%nat -> (h' <= m)%nat -> absent ts h' t) /\ walked ts h t index
  | Read m h index =>
      (m <= main)%nat /\ (h <= m)%nat /\ (h <> m -> absent ts m t) /\
      exists p, own !! t = Some p /\ entry_is ts h index (mkKVP (tid t) (Some p))
  | FetchAdd m => (m <= main)%nat /\ reg !! t = None
  | Claim m n => (m <= main)%nat /\ fresh t n
  | Reload n | Wait n => fresh t n
  | Alloc m n => m = main /\ fresh t n /\ exists T, ts !! m = Some T /\ half_of T <= n
  | FailCount | Drop => refused /\ exists n, fresh t n
  | FailClear => refused /\ reg !! t = None
  | Publish k n => k = S main /\ fresh t n /\ below_half ts k n
  | Release m n => (m <= main)%nat /\ fresh t n /\ below_half ts m n
  | Create m n => (m <= main)%nat /\ fresh t n /\ fits ts m n
  | Uncount _ _ => False
  | Place m v index => placing t m v /\ walked ts m t index
  | PlaceCAS m v index => placing t m v /\ at_slot ts m t index
  | PlaceValue m v index =>
      (m <= main)%nat /\ exists p e, v = Some p /\ own !! t = Some p /\ entry_is ts m index e /\ key e = tid t
  end.
End Thread.

(** The thread that has set the flag. *)
Definition locked (c : pc) : bool :=
  match c with Reload _ | Alloc _ _ | FailCount | FailClear | Publish _ _ | Release _ _ => true | _ => false end.

Record tables_ok (ts : list Table) (reg : gmap nat Z) (own : gmap nat nat) (pcs : list pc) : Prop := mkTablesOk {
  tables_each : forall k T, ts !! k = Some T -> table_ok (hash T) /\ prev T = match k with O => None | S k => Some k end;
  tables_grow : forall k k' T T', ts !! k = Some T -> ts !! k' = Some T' -> (k <= k')%nat -> limit T <= limit T';
  tables_entry : forall k T i e, ts !! k = Some T -> entries (hash T) !! i = Some e -> key e <> invalid_thread_id ->
    exists t n p, key e = tid t /\ reg !! t = Some n /\ n < limit T /\ own !! t = Some p /\
      (value e = Some p \/ exists j, pcs !! t = Some (PlaceValue k (Some p) j) /\ Z.to_nat j = i)
}.

Record counts_ok (cnt : Z) (made : nat) (reg : gmap nat Z) (own : gmap nat nat) : Prop := mkCountsOk {
  counts_size : cnt = Z.of_nat (size reg);
  counts_reg : forall t n, reg !! t = Some n -> (t < length ids)%nat /\ 1 <= n <= Z.of_nat (length ids);
  counts_few : forall k, (0 <= k) -> Z.of_nat (size (filter (fun tn : nat * Z => tn.2 <= k) reg)) <= k;
  counts_own : forall t p, own !! t = Some p -> is_Some (reg !! t) /\ exists c, (c < made)%nat /\ recycle_or_create_producer c = Some (p, false);
  counts_differ : forall t t' p, own !! t = Some p -> own !! t' = Some p -> t = t'
}.

Record lock_ok (ts : list Table) (main : nat) (flag : bool) (pcs : list pc) : Prop := mkLockOk {
  lock_flag : flag = true <-> exists t c, pcs !! t = Some c /\ locked c = true;
  lock_one : forall t t' c c', pcs !! t = Some c -> pcs !! t' = Some c' -> locked c = true -> locked c' = true -> t = t';
  lock_tables : (exists t k n, pcs !! t = Some (Publish k n) /\ length ts = S (S main)) \/
    ((forall t k n, pcs !! t <> Some (Publish k n)) /\ length ts = S main)
}.

(** What the others do to what a thread knows. *)
Definition entry_changes (t : nat) (e e' : ImplicitProducerKVP) : Prop :=
  e' = e \/ (key e' = key e /\ key e <> tid t) \/ (key e = invalid_thread_id /\ key e' <> invalid_thread_id /\ key e' <> tid t).
Definition table_changes (t : nat) (T T' : Table) : Prop :=
  prev T' = prev T /\ capacity (hash T') = capacity (hash T) /\
  forall i e, entries (hash T) !! i = Some e -> exists e', entries (hash T') !! i = Some e' /\ entry_changes t e e'.
Definition tables_change (t : nat) (ts ts' : list Table) : Prop :=
  forall k T, ts !! k = Some T -> exists T', ts' !! k = Some T' /\ table_changes t T T' /\ length (entries (hash T')) = length (entries (hash T)).

Lemma tables_same t ts ts' : (forall k T, ts !! k = Some T -> ts' !! k = Some T) -> tables_change t ts ts'.
Proof.
  intros H k T E. exists T. split; [by apply H|]. split; [|done]. split; [done|]. split; [done|]. intros i e Ei. exists e. split; [done|by left].
Qed.

Lemma key_at_changes t T T' i : tid t <> invalid_thread_id -> table_changes t T T' -> length (entries (hash T')) = length (entries (hash T)) ->
  key_at (hash T) i <> invalid_thread_id /\ key_at (hash T) i <> tid t ->
  key_at (hash T') i <> invalid_thread_id /\ key_at (hash T') i <> tid t.
Proof.
  intros Hid (_ & _ & Hc) Hl. unfold key_at. destruct (entries (hash T) !! Z.to_nat i) as [e|] eqn:E; [|by intros [[] _]].
  destruct (Hc _ _ E) as (e' & -> & [->|[[-> H]|(H1 & H2 & H3)]]); intros [H4 H5]; done.
Qed.

Section Stable.
Context (ts ts' : list Table) (main main' : nat) (reg reg' : gmap nat Z) (own own' : gmap nat nat) (t : nat).
Context (Ht : (t < length ids)%nat) (Hts : tables_change t ts ts') (Hmain : (main <= main')%nat).
Context (Hreg : reg' !! t = reg !! t) (Hown : own' !! t = own !! t).

Lemma full_to_stable T T' d : table_changes t T T' -> length (entries (hash T')) = length (entries (hash T)) ->
  full_to (hash T) (tid t) d -> full_to (hash T') (tid t) d.
Proof.
  intros Hc Hl H d' Hd'. unfold slot. pose proof Hc as (_ & -> & _). apply (key_at_changes t T T'); [by apply tid_real|done|done|]. by apply H.
Qed.

Lemma absent_stable k : absent ts k t -> absent ts' k t.
Proof.
  intros (T & E & H). destruct (Hts k T E) as (T' & E' & (_ & _ & Hc) & Hl). exists T'. split; [done|]. intros i e' Ei'.
  destruct (entries (hash T) !! i) as [e|] eqn:Ei.
  - destruct (Hc i e Ei) as (e1 & Ei1 & Hch). rewrite Ei' in Ei1. injection Ei1 as <-.
    destruct Hch as [->|[[-> ?]|(_ & _ & ?)]]; [by apply (H i)|done|done].
  - apply lookup_ge_None in Ei. apply lookup_lt_Some in Ei'. lia.
Qed.

Lemma entry_is_stable k i e : entry_is ts k i e -> key e = tid t -> entry_is ts' k i e.
Proof.
  intros (T & E & Ei) Hk. destruct (Hts k T E) as (T' & E' & (_ & _ & Hc) & Hl). exists T'. split; [done|].
  destruct (Hc _ _ Ei) as (e' & Ei' & [->|[[_ H]|(H & _)]]); [done|done|]. rewrite H in Hk. by destruct (tid_real t Ht).
Qed.

Lemma contains_stable k v : contains ts k t v -> contains ts' k t v.
Proof.
  intros (T & i & E & Ei). destruct (entry_is_stable k (Z.of_nat i) (mkKVP (tid t) v)) as (T' & E' & Ei'); [|done|].
  - exists T. by rewrite Nat2Z.id.
  - exists T', i. by rewrite Nat2Z.id in Ei'.
Qed.

Lemma walked_stable k i : walked ts k t i -> walked ts' k t i.
Proof.
  intros (T & d & x & E & -> & Hx & H). destruct (Hts k T E) as (T' & E' & Hc & Hl). exists T', d, x. split; [done|]. split; [done|].
  split; [|by eapply full_to_stable]. pose proof Hc as (_ & Ecap & _). unfold slot. by rewrite Ecap.
Qed.

Lemma at_slot_stable k i : at_slot ts k t i -> at_slot ts' k t i.
Proof.
  intros (T & d & E & -> & H). destruct (Hts k T E) as (T' & E' & Hc & Hl). exists T', d. split; [done|].
  split; [|by eapply full_to_stable]. pose proof Hc as (_ & Ecap & _). unfold slot. by rewrite Ecap.
Qed.

Lemma fits_stable k n : fits ts k n -> fits ts' k n.
Proof.
  intros (T & E & H). destruct (Hts k T E) as (T' & E' & (_ & Ecap & _) & _). exists T'. split; [done|]. unfold limit. by rewrite Ecap.
Qed.

Lemma below_half_stable k n : below_half ts k n -> below_half ts' k n.
Proof.
  intros (T & E & H). destruct (Hts k T E) as (T' & E' & (_ & Ecap & _) & _). exists T'. split; [done|]. unfold half_of. by rewrite Ecap.
Qed.

Lemma settled_stable bound bound' : (bound <= bound')%nat -> settled ts reg own t bound -> settled ts' reg' own' t bound'.
Proof.
  intros Hb. unfold settled. rewrite Hown, Hreg. destruct (own !! t) as [p|]; [|done].
  intros (k & Hk & H). exists k. split; [lia|]. by apply contains_stable.
Qed.

Lemma fresh_stable n : fresh reg own t n -> fresh reg' own' t n.
Proof. unfold fresh. by rewrite Hreg, Hown. Qed.

Lemma placing_stable m v : placing ts main reg own t m v -> placing ts' main' reg' own' t m v.
Proof.
  intros (Hm & Ha & p & n & Hv & Ho & Hr & Hf). split; [lia|]. split; [by apply absent_stable|]. exists p, n. rewrite Hown, Hreg.
  repeat (split; [done|]). by apply fits_stable.
Qed.

(** A thread's own part stays, whatever the others do. *)
Lemma thread_stable c : (locked c = true -> main' = main) -> thread_ok ts main reg own t c -> thread_ok ts' main' reg' own' t c.
Proof.
  intros Hl H. pose proof fresh_stable as Hfr. pose proof settled_stable as Hse. pose proof placing_stable as Hpl.
  destruct c; cbn [thread_ok locked] in *.
  - by apply (Hse main).
  - by apply (Hse main).
  - destruct H as (H1 & H2 & H3 & H4 & H5). split; [lia|]. split; [done|]. split; [by apply (Hse m)|]. split; [|by apply walked_stable].
    intros h' G1 G2. by apply absent_stable, H4.
  - destruct H as (H1 & H2 & H3 & p & H4 & H5). split; [lia|]. split; [done|]. split; [intros Hne; by apply absent_stable, H3|].
    exists p. rewrite Hown. split; [done|]. by apply entry_is_stable.
  - destruct H as (H1 & H2). rewrite Hreg. split; [lia|done].
  - destruct H as (H1 & H2). split; [lia|by apply Hfr].
  - by apply Hfr.
  - destruct H as (-> & H2 & T & E & H3). rewrite Hl by done. split; [done|]. split; [by apply Hfr|].
    destruct (Hts _ T E) as (T' & E' & (_ & Ecap & _) & _). exists T'. unfold half_of in *. by rewrite Ecap.
  - destruct H as (Hr & n & H). split; [done|]. exists n. by apply Hfr.
  - by rewrite Hreg.
  - destruct H as (-> & H & H2). rewrite Hl by done. split; [done|]. split; [by apply Hfr|by apply below_half_stable].
  - destruct H as (H1 & H2 & H3). split; [lia|]. split; [by apply Hfr|by apply below_half_stable].
  - destruct H as (H1 & H2 & H3). split; [lia|]. split; [by apply Hfr|by apply fits_stable].
  - destruct H as (Hr & n & H). split; [done|]. exists n. by apply Hfr.
  - done.
  - by apply Hfr.
  - destruct H as (H1 & H2). split; [by apply Hpl|by apply walked_stable].
  - destruct H as (H1 & H2). split; [by apply Hpl|by apply at_slot_stable].
  - destruct H as (H1 & p & e & H2 & H3 & H4 & H5). split; [lia|]. exists p, e. rewrite Hown. repeat (split; [done|]). split; [|done].
    by apply entry_is_stable.
Qed.
End Stable.

(** What the calls have returned: the same producer to a thread each time, and
    nothing only before it has one. *)
Record answers_ok (own : gmap nat nat) (ans : list (nat * option nat)) : Prop := mkAnswersOk {
  answers_own : forall t p, (t, Some p) ∈ ans -> own !! t = Some p;
  answers_none : forall i j t p, ans !! i = Some (t, Some p) -> ans !! j = Some (t, None) -> (j < i)%nat;
  answers_refused : forall t, (t, None) ∈ ans -> refused
}.

Record safe_with (s : sys) (reg : gmap nat Z) (own : gmap nat nat) : Prop := mkSafe {
  safe_length : length (threads s) = length ids;
  safe_tables : tables_ok (tables (state s)) reg own (threads s);
  safe_counts : counts_ok (count (state s)) (creations (state s)) reg own;
  safe_lock : lock_ok (tables (state s)) (implicitProducerHash (state s)) (resizing (state s)) (threads s);
  safe_threads : forall t c, threads s !! t = Some c ->
    thread_ok (tables (state s)) (implicitProducerHash (state s)) reg own t c;
  safe_answers : answers_ok own (answers s)
}.
Definition safe (s : sys) : Prop := exists reg own, safe_with s reg own.

(** ** Parts of it after a step *)

Definition publishing (c : pc) : bool := match c with Publish _ _ => true | _ => false end.
Definition writing (c : pc) : bool := match c with PlaceValue _ _ _ => true | _ => false end.

Lemma tables_ok_goes_on ts reg reg' own own' pcs t c c' :
  tables_ok ts reg own pcs -> pcs !! t = Some c -> writing c = false ->
  (forall t p, own !! t = Some p -> own' !! t = Some p /\ reg' !! t = reg !! t) -> tables_ok ts reg' own' (<[t := c']> pcs).
Proof.
  intros [H1 H2 H3] Ec Hw Hg. split; [done|done|]. intros k T i e ET Ei Hk.
  destruct (H3 k T i e ET Ei Hk) as (t1 & n & p & E1 & E2 & E3 & E4 & E5). destruct (Hg _ _ E4) as [G1 G2].
  exists t1, n, p. rewrite G1, G2. repeat (split; [done|]). destruct E5 as [E5|(j & Ej & E5)]; [by left|right]. exists j.
  destruct (decide (t = t1)) as [<-|Hne]; [rewrite Ec in Ej; injection Ej as ->; done|]. by rewrite list_lookup_insert_ne.
Qed.

Lemma locked_others ts main flag pcs t c t' c' :
  lock_ok ts main flag pcs -> pcs !! t = Some c -> locked c = true -> pcs !! t' = Some c' -> t' <> t -> locked c' = false.
Proof.
  intros HL Ec Hc Ec' Hne. destruct (locked c') eqn:E; [|done]. destruct Hne. by apply (lock_one _ _ _ _ HL _ _ c' c).
Qed.

(** A thread changes, that has the flag before and after, or neither. *)
Lemma lock_ok_goes_on ts ts' main flag pcs t c c' :
  lock_ok ts main flag pcs -> pcs !! t = Some c -> locked c' = locked c -> publishing c = false -> publishing c' = false ->
  length ts' = length ts -> lock_ok ts' main flag (<[t := c']> pcs).
Proof.
  intros [H1 H2 H3] Ec El Hp Hp' Hl. pose proof (lookup_lt_Some _ _ _ Ec) as Ht.
  assert (forall t1 c1, <[t := c']> pcs !! t1 = Some c1 -> locked c1 = true -> exists c2, pcs !! t1 = Some c2 /\ locked c2 = true) as Hback.
  { intros t1 c1 E1 L1. destruct (decide (t = t1)) as [<-|Hne].
    - rewrite list_lookup_insert_eq in E1 by done. injection E1 as <-. exists c. by rewrite <- El.
    - rewrite list_lookup_insert_ne in E1 by done. by exists c1. }
  split.
  - rewrite H1. split.
    + intros (t1 & c1 & E1 & L1). destruct (decide (t = t1)) as [<-|Hne].
      * exists t, c'. rewrite list_lookup_insert_eq by done. split; [done|]. rewrite El. congruence.
      * exists t1, c1. by rewrite list_lookup_insert_ne.
    + intros (t1 & c1 & E1 & L1). destruct (Hback _ _ E1 L1) as (c2 & E2 & L2). by exists t1, c2.
  - intros t1 t2 c1 c2 E1 E2 L1 L2. destruct (Hback _ _ E1 L1) as (d1 & F1 & M1), (Hback _ _ E2 L2) as (d2 & F2 & M2). by apply (H2 _ _ d1 d2).
  - rewrite Hl. destruct H3 as [(t1 & k & n & E & H)|[H H']].
    + left. exists t1, k, n. split; [|done]. rewrite list_lookup_insert_ne; [done|]. intros <-. rewrite Ec in E. injection E as ->. done.
    + right. split; [|done]. intros t1 k n E. destruct (decide (t = t1)) as [<-|Hne].
      * rewrite list_lookup_insert_eq in E by done. injection E as ->. done.
      * rewrite list_lookup_insert_ne in E by done. by apply (H t1 k n).
Qed.

(** The flag is set, or cleared. *)
Lemma lock_ok_taken ts main pcs t c n :
  lock_ok ts main false pcs -> pcs !! t = Some c -> lock_ok ts main true (<[t := Reload n]> pcs).
Proof.
  intros [H1 H2 H3] Ec. pose proof (lookup_lt_Some _ _ _ Ec) as Ht.
  assert (forall t1 c1, pcs !! t1 = Some c1 -> locked c1 = true -> False) as Hno by (intros t1 c1 E1 L1; assert (false = true) by (apply H1; by exists t1, c1); done).
  assert (forall t1 c1, <[t := Reload n]> pcs !! t1 = Some c1 -> locked c1 = true -> t1 = t) as Hback.
  { intros t1 c1 E1 L1. destruct (decide (t = t1)) as [<-|Hne]; [done|]. rewrite list_lookup_insert_ne in E1 by done. by destruct (Hno t1 c1). }
  split.
  - split; [|done]. intros _. exists t, (Reload n). by rewrite list_lookup_insert_eq.
  - intros t1 t2 c1 c2 E1 E2 L1 L2. by rewrite (Hback _ _ E1 L1), (Hback _ _ E2 L2).
  - right. destruct H3 as [(t1 & k & n1 & E & _)|[_ ->]]; [by destruct (Hno _ _ E)|]. split; [|done]. intros t1 k n1 E.
    pose proof (Hback _ _ E eq_refl) as ->. rewrite list_lookup_insert_eq in E by done. done.
Qed.

Lemma lock_ok_cleared ts main flag pcs t c c' :
  lock_ok ts main flag pcs -> pcs !! t = Some c -> locked c = true -> publishing c = false -> locked c' = false ->
  lock_ok ts main false (<[t := c']> pcs).
Proof.
  intros HL Ec Hc Hp Hc'. pose proof (lookup_lt_Some _ _ _ Ec) as Ht.
  assert (forall t1 c1, <[t := c']> pcs !! t1 = Some c1 -> locked c1 = false) as Hno.
  { intros t1 c1 E1. destruct (decide (t = t1)) as [<-|Hne].
    - rewrite list_lookup_insert_eq in E1 by done. by injection E1 as <-.
    - rewrite list_lookup_insert_ne in E1 by done. apply (locked_others _ _ _ _ _ _ _ _ HL Ec Hc E1). by intros ->. }
  split.
  - split; [done|]. intros (t1 & c1 & E1 & L1). by rewrite (Hno _ _ E1) in L1.
  - intros t1 t2 c1 c2 E1 _ L1. by rewrite (Hno _ _ E1) in L1.
  - right. split; [intros t1 k n E; by apply Hno in E|]. destruct (lock_tables _ _ _ _ HL) as [(t1 & k & n & E & _)|[_ H]]; [|done].
    pose proof (lock_one _ _ _ _ HL _ _ _ _ E Ec eq_refl Hc) as ->. rewrite Ec in E. injection E as ->. done.
Qed.

(** The table is made, and then published. *)
Lemma lock_ok_made ts T main flag pcs t m n :
  lock_ok ts main flag pcs -> pcs !! t = Some (Alloc m n) -> lock_ok (ts ++ [T]) main flag (<[t := Publish (length ts) n]> pcs) /\ length ts = S main.
Proof.
  intros HL Ec. pose proof (lookup_lt_Some _ _ _ Ec) as Ht.
  assert (length ts = S main) as Hl.
  { destruct (lock_tables _ _ _ _ HL) as [(t1 & k & n1 & E & _)|[_ H]]; [|done].
    pose proof (lock_one _ _ _ _ HL _ _ _ _ E Ec eq_refl eq_refl) as ->. rewrite Ec in E. done. }
  split; [|done]. assert (forall t1 c1, <[t := Publish (length ts) n]> pcs !! t1 = Some c1 -> locked c1 = true -> t1 = t) as Hback.
  { intros t1 c1 E1 L1. destruct (decide (t = t1)) as [<-|Hne]; [done|]. rewrite list_lookup_insert_ne in E1 by done.
    rewrite (locked_others _ _ _ _ _ _ _ _ HL Ec eq_refl E1) in L1; [done|by intros ->]. }
  split.
  - split; [intros _; exists t, (Publish (length ts) n); by rewrite list_lookup_insert_eq|]. intros _. apply (lock_flag _ _ _ _ HL). by exists t, (Alloc m n).
  - intros t1 t2 c1 c2 E1 E2 L1 L2. by rewrite (Hback _ _ E1 L1), (Hback _ _ E2 L2).
  - left. exists t, (length ts), n. rewrite list_lookup_insert_eq, length_app by done. split; [done|]. cbn. lia.
Qed.

Lemma lock_ok_published ts main flag pcs t k n :
  lock_ok ts main flag pcs -> pcs !! t = Some (Publish k n) -> lock_ok ts (S main) flag (<[t := Release k n]> pcs).
Proof.
  intros HL Ec. pose proof (lookup_lt_Some _ _ _ Ec) as Ht.
  assert (forall t1 c1, <[t := Release k n]> pcs !! t1 = Some c1 -> locked c1 = true -> t1 = t) as Hback.
  { intros t1 c1 E1 L1. destruct (decide (t = t1)) as [<-|Hne]; [done|]. rewrite list_lookup_insert_ne in E1 by done.
    rewrite (locked_others _ _ _ _ _ _ _ _ HL Ec eq_refl E1) in L1; [done|by intros ->]. }
  split.
  - split; [intros _; exists t, (Release k n); by rewrite list_lookup_insert_eq|]. intros _. apply (lock_flag _ _ _ _ HL). by exists t, (Publish k n).
  - intros t1 t2 c1 c2 E1 E2 L1 L2. by rewrite (Hback _ _ E1 L1), (Hback _ _ E2 L2).
  - right. split.
    + intros t1 k1 n1 E. pose proof (Hback _ _ E eq_refl) as ->. rewrite list_lookup_insert_eq in E by done. done.
    + destruct (lock_tables _ _ _ _ HL) as [(_ & _ & _ & _ & H)|[H _]]; [done|by destruct (H t k n)].
Qed.

Lemma answers_ok_more own own' ans : answers_ok own ans -> (forall t p, own !! t = Some p -> own' !! t = Some p) -> answers_ok own' ans.
Proof. intros [H1 H2 H3] Ho. split; [|done|done]. intros t p Hin. by apply Ho, H1. Qed.

Lemma answers_ok_add own ans t r :
  answers_ok own ans -> match r with Some p => own !! t = Some p | None => own !! t = None /\ refused end -> answers_ok own (ans ++ [(t, r)]).
Proof.
  intros [H1 H2 H3] Hr. split.
  - intros t1 p Hin. apply elem_of_app in Hin as [Hin|Hin]; [by apply H1|]. apply list_elem_of_singleton in Hin as [= -> <-]. done.
  - intros i j t1 p Ei Ej. apply lookup_app_Some in Ei as [Ei|[Hi Ei]], Ej as [Ej|[Hj Ej]].
    + by apply (H2 i j t1 p).
    + apply list_lookup_singleton_Some in Ej as [_ [= -> ->]]. apply list_elem_of_lookup_2 in Ei. apply H1 in Ei. destruct Hr. congruence.
    + apply lookup_lt_Some in Ej. lia.
    + apply list_lookup_singleton_Some in Ei as [_ [= _ ->]], Ej as [_ [=]].
  - intros t1 Hin. apply elem_of_app in Hin as [Hin|Hin]; [by apply (H3 t1)|]. apply list_elem_of_singleton in Hin as [= -> <-]. by destruct Hr.
Qed.

(** ** The counted threads *)

Context (created_once : forall c c' p b b', recycle_or_create_producer c = Some (p, b) -> recycle_or_create_producer c' = Some (p, b') -> c = c').
Context (not_recycled : forall c p b, recycle_or_create_producer c = Some (p, b) -> b = false).
Context (few_threads : Z.of_nat (length ids) <= 2 ^ 59).

Lemma reg_size (reg : gmap nat Z) : (forall t n, reg !! t = Some n -> (t < length ids)%nat) -> (size reg <= length ids)%nat.
Proof.
  intros H. rewrite <- size_dom, <- (length_seq (length ids) 0), <- (size_list_to_set (C := gset nat) (seq 0 (length ids))) by apply NoDup_seq.
  apply subseteq_size. intros t [n E]%elem_of_dom. apply elem_of_list_to_set, elem_of_seq. specialize (H t n E). lia.
Qed.

Lemma counts_add cnt made reg own t :
  counts_ok cnt made reg own -> (t < length ids)%nat -> reg !! t = None ->
  u64 (cnt + 1) = cnt + 1 /\ u64 (1 + cnt) = cnt + 1 /\ counts_ok (cnt + 1) made (<[t := cnt + 1]> reg) own.
Proof.
  intros [H1 H2 H3 H4 H5] Ht Hno.
  assert (size (<[t := (cnt + 1)%Z]> reg) <= length ids)%nat as Hsize.
  { apply reg_size. intros t1 n E. apply lookup_insert_Some in E as [[<- _]|[_ E]]; [done|]. by apply (H2 t1 n). }
  rewrite map_size_insert_None in Hsize by done.
  assert (u64 (cnt + 1) = cnt + 1) as Eu by (apply wrap_small; unfold in_width; lia).
  split; [done|]. split; [by rewrite Z.add_comm|]. split.
  - rewrite map_size_insert_None by done. lia.
  - intros t1 n E. apply lookup_insert_Some in E as [[<- <-]|[_ E]]; [split; [done|lia]|by apply H2].
  - intros k Hk. destruct (Z.le_gt_cases (cnt + 1) k) as [Hle|Hgt].
    + transitivity (Z.of_nat (size (<[t := cnt + 1]> reg))); [|rewrite map_size_insert_None by done; lia].
      apply Nat2Z.inj_le. rewrite <- !size_dom. apply subseteq_size, dom_filter_subseteq.
    + rewrite map_filter_insert_False by (cbn; lia). rewrite delete_id by done. by apply H3.
  - intros t1 p E. destruct (H4 t1 p E) as [Hr Hc]. split; [|done]. destruct (decide (t = t1)) as [<-|Hne]; [rewrite lookup_insert_eq; by eexists|].
    by rewrite lookup_insert_ne.
  - done.
Qed.

Lemma counts_drop cnt made reg own t n :
  counts_ok cnt made reg own -> reg !! t = Some n -> own !! t = None ->
  u64 (cnt - 1) = cnt - 1 /\ counts_ok (cnt - 1) made (delete t reg) own.
Proof.
  intros [H1 H2 H3 H4 H5] Er Ho. assert (size (delete t reg) = pred (size reg)) as Hd by (apply map_size_delete_Some; by exists n).
  assert (size reg <= length ids)%nat as Hsize by (apply reg_size; intros t1 n1 E; by apply (H2 t1 n1)).
  assert (0 < size reg)%nat as Hpos by (destruct (decide (size reg = 0%nat)) as [E|]; [apply map_size_empty_inv in E; subst reg; done|lia]).
  split; [apply wrap_small; unfold in_width; lia|]. split.
  - rewrite Hd. lia.
  - intros t1 n1 [_ E]%lookup_delete_Some. by apply H2.
  - intros k Hk. etransitivity; [|by apply H3]. apply Nat2Z.inj_le. rewrite <- !size_dom, map_filter_delete. apply subseteq_size. rewrite dom_delete. set_solver.
  - intros t1 p E. destruct (H4 t1 p E) as [Hr Hc]. split; [|done]. rewrite lookup_delete_ne; [done|]. intros <-. congruence.
  - done.
Qed.

Lemma counts_created cnt made reg own : counts_ok cnt made reg own -> counts_ok cnt (S made) reg own.
Proof.
  intros [H1 H2 H3 H4 H5]. split; try done. intros t p E. destruct (H4 t p E) as (Hr & c & Hc & E'). split; [done|]. exists c. split; [lia|done].
Qed.

Lemma counts_given cnt made reg own t n p b :
  counts_ok cnt made reg own -> reg !! t = Some n -> own !! t = None -> recycle_or_create_producer made = Some (p, b) ->
  counts_ok cnt (S made) reg (<[t := p]> own).
Proof.
  intros [H1 H2 H3 H4 H5] Er Ho Ep. pose proof (not_recycled _ _ _ Ep) as ->.
  assert (forall t1, own !! t1 = Some p -> False) as Hnew.
  { intros t1 E. destruct (H4 t1 p E) as (_ & c & Hc & Ec). pose proof (created_once _ _ _ _ _ Ep Ec). lia. }
  split; [done|done|done| |].
  - intros t1 p1 E. apply lookup_insert_Some in E as [[<- <-]|[_ E]]; [split; [by eexists|]; exists made; split; [lia|done]|].
    destruct (H4 t1 p1 E) as (Hr & c & Hc & E'). split; [done|]. exists c. split; [lia|done].
  - intros t1 t2 p1 E1 E2. apply lookup_insert_Some in E1 as [[<- <-]|[Hne1 E1]], E2 as [[<- E2]|[Hne2 E2]]; try done.
    + by destruct (Hnew t2).
    + subst p1. by destruct (Hnew t1).
    + by apply (H5 _ _ p1).
Qed.

(** ** A slot is written *)

Lemma slot_other h id d d' : slot h id d' <> slot h id d -> table_ok h -> Z.to_nat (slot h id d') <> Z.to_nat (slot h id d).
Proof. intros Hne Ht. pose proof (slot_range h id d Ht). pose proof (slot_range h id d' Ht). lia. Qed.

Lemma claimed_table h id d v :
  table_ok h -> id <> invalid_thread_id -> full_to h id d -> (d < steps h)%nat -> key_at h (slot h id d) = invalid_thread_id ->
  table_ok (mkHash (capacity h) (<[Z.to_nat (slot h id d) := mkKVP id v]> (entries h))).
Proof.
  intros Ht Hid Hfull Hd Hempty. set (j := Z.to_nat (slot h id d)). set (h' := mkHash _ _).
  destruct (slot_entry h id d Ht) as (e & Ee & Ek). fold j in Ee. pose proof (lookup_lt_Some _ _ _ Ee) as Hj. pose proof (slot_range h id d Ht) as Hrange.
  assert (forall i, 0 <= i -> i <> slot h id d -> key_at h' i = key_at h i) as Hother.
  { intros i Hi Hne. unfold key_at, h'. cbn [entries]. by rewrite list_lookup_insert_ne by lia. }
  assert (steps h' = steps h) as Hsteps by (unfold steps, h'; cbn; by rewrite length_insert).
  split; [apply Ht|unfold h'; cbn; rewrite length_insert; apply Ht|]. intros i e' Ei Hk. unfold h' in Ei. cbn [entries] in Ei.
  destruct (decide (i = j)) as [->|Hne].
  - rewrite list_lookup_insert_eq in Ei by done. injection Ei as <-. cbn [key] in *. exists d. rewrite Hsteps.
    split; [done|]. split; [change (slot h' id d) with (slot h id d); unfold j; lia|]. intros d' Hd'.
    change (slot h' id d') with (slot h id d'). destruct (Hfull d' Hd') as [G1 G2].
    rewrite Hother; [done|apply slot_range, Ht|]. intros E. by rewrite E, Hempty in G1.
  - rewrite list_lookup_insert_ne in Ei by done. destruct (table_reachable h Ht i e' Ei Hk) as (d1 & Hd1 & Es & Hw).
    exists d1. rewrite Hsteps. split; [done|]. split; [done|]. intros d' Hd'. destruct (Hw d' Hd') as [G1 G2].
    change (slot h' (key e') d') with (slot h (key e') d'). rewrite Hother; [done|apply slot_range, Ht|]. intros E. by rewrite E, Hempty in G1.
Qed.

Lemma same_keys_table h h' :
  table_ok h -> capacity h' = capacity h -> length (entries h') = length (entries h) ->
  (forall i e', entries h' !! i = Some e' -> exists e, entries h !! i = Some e /\ key e = key e') -> table_ok h'.
Proof.
  intros Ht Ec El Hk. split; [by rewrite Ec; apply Ht|rewrite El, Ec; apply Ht|]. intros i e' Ei' Hne.
  destruct (Hk _ _ Ei') as (e & Ei & E). rewrite <- E in *. destruct (table_reachable h Ht i e Ei Hne) as (d & Hd & Es & Hw).
  assert (forall i, key_at h' i = key_at h i) as Eat.
  { intros j. unfold key_at. destruct (entries h' !! Z.to_nat j) as [e1|] eqn:E1.
    - by destruct (Hk _ _ E1) as (e2 & -> & ->).
    - apply lookup_ge_None in E1. rewrite (proj2 (lookup_ge_None (entries h) _)) by lia. done. }
  exists d. unfold steps, slot in *. rewrite El, Ec. split; [done|]. split; [done|]. intros d' Hd'. rewrite Eat. by apply Hw.
Qed.

Lemma stored_lookup s m i e T : tables s !! m = Some T -> tables (store m i e s) !! m =
  Some (mkTable (mkHash (capacity (hash T)) (<[Z.to_nat i := e]> (entries (hash T)))) (prev T)).
Proof. intros E. cbn. by rewrite list_lookup_alter_eq, E. Qed.
Lemma stored_lookup_ne s m m' i e : m <> m' -> tables (store m i e s) !! m' = tables s !! m'.
Proof. intros Hne. cbn. by rewrite list_lookup_alter_ne. Qed.
Lemma store_length s m i e : length (tables (store m i e s)) = length (tables s).
Proof. cbn. apply length_alter. Qed.

Lemma store_change s m i e e' T t :
  tables s !! m = Some T -> entries (hash T) !! Z.to_nat i = Some e -> entry_changes t e e' -> tables_change t (tables s) (tables (store m i e' s)).
Proof.
  intros ET Ee Hc k T0 E0. destruct (decide (m = k)) as [<-|Hne].
  - rewrite ET in E0. injection E0 as <-. eexists. split; [by apply stored_lookup|]. split; [|cbn; by rewrite length_insert].
    split; [done|]. split; [done|]. cbn. intros j e1 E1. destruct (decide (Z.to_nat i = j)) as [<-|Hj].
    + rewrite Ee in E1. injection E1 as <-. exists e'. by rewrite list_lookup_insert_eq by by eapply lookup_lt_Some.
    + exists e1. rewrite list_lookup_insert_ne by done. split; [done|by left].
  - exists T0. rewrite stored_lookup_ne by done. split; [done|]. split; [|done]. split; [done|]. split; [done|]. intros j e1 E1. exists e1. split; [done|by left].
Qed.

(** ** One thread's step *)

Section Step.
Context (s : sys) (t : nat) (c : pc) (reg : gmap nat Z) (own : gmap nat nat).
Context (Hs : safe_with s reg own) (Ec : threads s !! t = Some c).
Abbreviation ts := (tables (state s)).
Abbreviation main := (implicitProducerHash (state s)).

Definition after (c' : pc) (s' : shared) : sys :=
  mkSys s' (<[t := c']> (threads s)) (answers s ++ match c' with Returned r => [(t, r)] | _ => [] end).
Definition goes_on : Prop :=
  exists c' s', step ids try_malloc recycle_or_create_producer t c (state s) = Some (c', s') /\ safe (after c' s').

Lemma t_real : (t < length ids)%nat.
Proof. rewrite <- (safe_length _ _ _ Hs). by eapply lookup_lt_Some. Qed.

Definition answer_ok (own : gmap nat nat) (c' : pc) : Prop :=
  match c' with Returned (Some p) => own !! t = Some p | Returned None => own !! t = None /\ refused | _ => True end.

Lemma move c' s' reg' own' :
  (forall t', (t' < length ids)%nat -> t' <> t -> tables_change t' ts (tables s') /\ reg' !! t' = reg !! t' /\ own' !! t' = own !! t') ->
  (main <= implicitProducerHash s')%nat -> (locked c = false -> implicitProducerHash s' = main) ->
  tables_ok (tables s') reg' own' (<[t := c']> (threads s)) -> counts_ok (count s') (creations s') reg' own' ->
  lock_ok (tables s') (implicitProducerHash s') (resizing s') (<[t := c']> (threads s)) ->
  thread_ok (tables s') (implicitProducerHash s') reg' own' t c' -> answer_ok own' c' ->
  (forall t p, own !! t = Some p -> own' !! t = Some p) -> safe (after c' s').
Proof.
  intros Hothers Hmain Hlock HT HC HL Hc Ha Ho. pose proof (lookup_lt_Some _ _ _ Ec) as Ht. exists reg', own'.
  split; cbn [threads state answers after]; [by rewrite length_insert, (safe_length _ _ _ Hs)|done|done|done| |].
  - intros t1 c1 E1. destruct (decide (t = t1)) as [<-|Hne].
    + rewrite list_lookup_insert_eq in E1 by done. by injection E1 as <-.
    + rewrite list_lookup_insert_ne in E1 by done. pose proof (lookup_lt_Some _ _ _ E1) as Ht1. rewrite (safe_length _ _ _ Hs) in Ht1.
      destruct (Hothers t1 Ht1 ltac:(done)) as (H1 & H2 & H3).
      apply (thread_stable ts (tables s') main _ reg reg' own own' t1 Ht1 H1 Hmain H2 H3); [|by apply (safe_threads _ _ _ Hs)].
      intros L1. apply Hlock. destruct (locked c) eqn:L; [|done]. destruct Hne. by apply (lock_one _ _ _ _ (safe_lock _ _ _ Hs) _ _ c c1).
  - pose proof (answers_ok_more _ _ _ (safe_answers _ _ _ Hs) Ho) as HA. destruct c'; rewrite ?app_nil_r; try done. by apply answers_ok_add.
Qed.

(** The tables, the count and the flag stay as they are. *)
Lemma quiet c' s' :
  tables s' = ts -> implicitProducerHash s' = main -> count s' = count (state s) -> creations s' = creations (state s) ->
  resizing s' = resizing (state s) -> locked c' = locked c -> publishing c = false -> publishing c' = false -> writing c = false ->
  thread_ok ts main reg own t c' -> answer_ok own c' -> safe (after c' s').
Proof.
  intros E1 E2 E3 E4 E5 El Hp Hp' Hw Hc Ha. apply (move c' s' reg own); rewrite ?E1, ?E2, ?E3, ?E4, ?E5; try done.
  - intros t' _ _. split; [by apply tables_same|done].
  - by eapply tables_ok_goes_on; [apply Hs|exact Ec|..].
  - apply Hs.
  - eapply lock_ok_goes_on; [apply Hs|exact Ec|..]; done.
Qed.

Lemma main_there : (main < length ts)%nat.
Proof. destruct (lock_tables _ _ _ _ (safe_lock _ _ _ Hs)) as [(_ & _ & _ & _ & ->)|[_ ->]]; lia. Qed.

Lemma table_there m : (m <= main)%nat -> exists T, ts !! m = Some T /\ table_ok (hash T) /\ prev T = match m with O => None | S k => Some k end.
Proof.
  intros Hm. pose proof main_there. destruct (lookup_lt_is_Some_2 ts m ltac:(lia)) as [T E]. exists T. split; [done|].
  by apply (tables_each _ _ _ _ (safe_tables _ _ _ Hs)).
Qed.

Lemma walk_begins k : (k <= main)%nat -> walked ts k t (hashed (tid t)).
Proof.
  intros Hk. destruct (table_there k Hk) as (T & E & _). exists T, O, (hashed (tid t)). split; [done|]. split; [apply hashed_wrap|].
  split; [apply slot_0|]. intros d Hd. lia.
Qed.

(** A slot is looked at. *)
Lemma walk_looks k index : (k <= main)%nat -> walked ts k t index ->
  exists T d e, ts !! k = Some T /\ table_ok (hash T) /\ prev T = match k with O => None | S k => Some k end /\
    mask T index = slot (hash T) (tid t) d /\ entry (state s) k (slot (hash T) (tid t) d) = Some e /\
    entries (hash T) !! Z.to_nat (slot (hash T) (tid t) d) = Some e /\ key_at (hash T) (slot (hash T) (tid t) d) = key e /\
    full_to (hash T) (tid t) d /\
    (key e <> invalid_thread_id -> key e <> tid t -> walked ts k t (u64 (slot (hash T) (tid t) d + 1))).
Proof.
  intros Hk (T & d & x & E & -> & Hx & Hf). destruct (table_there k Hk) as (T' & E' & Ht & Hp). rewrite E in E'. injection E' as <-.
  destruct (slot_entry (hash T) (tid t) d Ht) as (e & Ee & Ek). exists T, d, e. split; [done|]. split; [done|]. split; [done|].
  split; [by unfold mask; rewrite mask_index|]. split; [unfold entry; by rewrite E|]. split; [done|]. split; [done|]. split; [done|].
  intros H1 H2. exists T, (S d), (slot (hash T) (tid t) d + 1). split; [done|]. split; [done|]. split; [by apply slot_next|].
  intros d' Hd'. destruct (decide (d' = d)) as [->|Hne]; [by rewrite Ek|apply Hf; lia].
Qed.

(** The producer of the thread is the one that is in a table. *)
Lemma found_value k T i e :
  ts !! k = Some T -> entries (hash T) !! i = Some e -> key e = tid t -> writing c = false -> exists p, own !! t = Some p /\ value e = Some p.
Proof.
  intros ET Ee Ek Hw. pose proof (tid_real t t_real) as Hr. rewrite <- Ek in Hr.
  destruct (tables_entry _ _ _ _ (safe_tables _ _ _ Hs) k T i e ET Ee Hr) as (t1 & n & p & E1 & E2 & E3 & E4 & E5).
  destruct (counts_reg _ _ _ _ (safe_counts _ _ _ Hs) t1 n E2) as [Ht1 _].
  pose proof (tid_inj t t1 t_real Ht1 ltac:(congruence)) as <-. exists p. split; [done|]. destruct E5 as [E5|(j & Ej & _)]; [done|].
  rewrite Ec in Ej. injection Ej as ->. done.
Qed.

(** A thread with no producer is in no table. *)
Lemma absent_all k : own !! t = None -> (k <= main)%nat -> absent ts k t.
Proof.
  intros Ho Hk. destruct (table_there k Hk) as (T & E & _). exists T. split; [done|]. intros i e Ei Ek.
  pose proof (tid_real t t_real) as Hr. rewrite <- Ek in Hr.
  destruct (tables_entry _ _ _ _ (safe_tables _ _ _ Hs) k T i e E Ei Hr) as (t1 & n & p & E1 & E2 & E3 & E4 & E5).
  destruct (counts_reg _ _ _ _ (safe_counts _ _ _ Hs) t1 n E2) as [Ht1 _].
  pose proof (tid_inj t t1 t_real Ht1 ltac:(congruence)) as <-. congruence.
Qed.

Lemma step_load : c = LoadMain -> goes_on.
Proof.
  intros Eqc. pose proof (safe_threads _ _ _ Hs t c Ec) as H. rewrite Eqc in H. cbn in H. unfold goes_on. rewrite Eqc. cbn [step]. eexists _, _. split; [reflexivity|].
  apply quiet; try done; [by rewrite Eqc..|]. cbn. split; [done|]. split; [done|]. split; [done|]. split; [lia|by apply walk_begins].
Qed.

Lemma step_probe m h index : c = Probe m h index -> goes_on.
Proof.
  intros Eqc. pose proof (safe_threads _ _ _ Hs t c Ec) as H. rewrite Eqc in H. cbn in H. destruct H as (Hm & Hh & Hset & Habs & Hwalk).
  destruct (walk_looks h index ltac:(lia) Hwalk) as (T & d & e & ET & Htab & Hprev & Emask & Ee & Eei & Ekey & Hfull & Hnext).
  unfold goes_on. rewrite Eqc. cbn [step]. rewrite ET. cbn [mbind option_bind]. rewrite Emask, Ee. cbn [mbind option_bind].
  eexists _, _. split; [reflexivity|].
  assert (writing c = false) as Hw by by rewrite Eqc.
  destruct (Z.eqb_spec (key e) (tid t)) as [Ek|Ek]; [|destruct (Z.eqb_spec (key e) invalid_thread_id) as [E0|E0]].
  - apply quiet; try done; [by rewrite Eqc..|]. cbn. split; [done|]. split; [done|]. split; [intros Hne; apply Habs; lia|].
    destruct (found_value h T _ e ET Eei Ek Hw) as (p & Ho & Ev). exists p. split; [done|]. exists T. split; [done|].
    rewrite Eei. f_equal. destruct e. cbn in *. congruence.
  - assert (absent ts h t) as Hh0.
    { exists T. split; [done|]. intros i e' Ei' Ek'. pose proof (tid_real t t_real) as Hr.
      destruct (table_reachable _ Htab i e' Ei' ltac:(by rewrite Ek')) as (d1 & Hd1 & Es & Hw1). rewrite Ek' in *.
      assert (key_at (hash T) (slot (hash T) (tid t) d1) = tid t) as Ekd by (rewrite Es; unfold key_at; by rewrite Nat2Z.id, Ei').
      destruct (lt_eq_lt_dec d1 d) as [[Hlt|Heq]|Hgt].
      - by destruct (Hfull d1 Hlt).
      - subst d1. congruence.
      - destruct (Hw1 d Hgt) as [G _]. by rewrite Ekey in G. }
    rewrite Hprev. destruct h as [|h].
    + apply quiet; try done; [by rewrite Eqc..|]. cbn. split; [done|]. unfold settled in Hset. destruct (own !! t) as [p|] eqn:Ho; [|done].
      destruct Hset as (k & Hk & (Tk & i & ETk & Ei)). assert (absent ts k t) as (T' & ET' & Hno).
      { destruct k; [done|]. apply Habs; lia. }
      rewrite ETk in ET'. injection ET' as <-. by destruct (Hno _ _ Ei).
    + apply quiet; try done; [by rewrite Eqc..|]. cbn. split; [done|]. split; [lia|]. split; [done|]. split; [|apply walk_begins; lia].
      intros h' H1 H2. destruct (decide (h' = S h)) as [->|Hne]; [done|]. apply Habs; lia.
  - apply quiet; try done; [by rewrite Eqc..|]. cbn. split; [done|]. split; [done|]. split; [done|]. split; [done|]. by apply Hnext.
Qed.

Lemma fits_more k k' n : (k <= k')%nat -> (k' <= main)%nat -> fits ts k n -> fits ts k' n.
Proof.
  intros Hk Hk' (T & E & Hn). destruct (table_there k' Hk') as (T' & E' & _). exists T'. split; [done|].
  pose proof (tables_grow _ _ _ _ (safe_tables _ _ _ Hs) k k' T T' E E' Hk). lia.
Qed.

Lemma step_read m h index : c = Read m h index -> goes_on.
Proof.
  intros Eqc. pose proof (safe_threads _ _ _ Hs t c Ec) as H. rewrite Eqc in H. cbn in H. destruct H as (Hm & Hh & Habs & p & Ho & T & ET & Ee).
  unfold goes_on. rewrite Eqc. cbn [step]. unfold entry. rewrite ET. cbn [mbind option_bind]. rewrite Ee. cbn [mbind option_bind value].
  eexists _, _. split; [reflexivity|]. destruct (decide (h = m)) as [->|Hne].
  - apply quiet; try done; [by rewrite Eqc..|]. cbn. unfold settled. rewrite Ho. exists m. split; [done|]. by exists T, (Z.to_nat index).
  - apply quiet; try done; [by rewrite Eqc..|]. cbn. split; [|by apply walk_begins]. split; [done|]. split; [by apply Habs|].
    destruct (tables_entry _ _ _ _ (safe_tables _ _ _ Hs) h T _ _ ET Ee (tid_real t t_real)) as (t1 & n & p1 & E1 & E2 & E3 & E4 & _).
    destruct (counts_reg _ _ _ _ (safe_counts _ _ _ Hs) t1 n E2) as [Ht1 _]. pose proof (tid_inj t t1 t_real Ht1 E1) as <-.
    exists p, n. split; [done|]. split; [done|]. split; [done|]. apply (fits_more h); [done|done|]. by exists T.
Qed.

Lemma step_fetch_add m : c = FetchAdd m -> goes_on.
Proof.
  intros Eqc. pose proof (safe_threads _ _ _ Hs t c Ec) as H. rewrite Eqc in H. cbn in H. destruct H as (Hm & Hr).
  destruct (counts_add _ _ _ _ t (safe_counts _ _ _ Hs) t_real Hr) as (E1 & E2 & HC).
  assert (own !! t = None) as Ho.
  { destruct (own !! t) as [p|] eqn:Ho; [|done]. destruct (counts_own _ _ _ _ (safe_counts _ _ _ Hs) t p Ho) as [[n E] _]. congruence. }
  unfold goes_on. rewrite Eqc. cbn [step]. rewrite E1, E2. eexists _, _. split; [reflexivity|].
  apply (move _ _ (<[t := count (state s) + 1]> reg) own); cbn [with_count tables implicitProducerHash count resizing creations]; try done.
  - intros t' _ Hne. split; [by apply tables_same|]. by rewrite lookup_insert_ne.
  - eapply tables_ok_goes_on; [apply Hs|exact Ec|by rewrite Eqc|]. intros t1 p E. split; [done|]. rewrite lookup_insert_ne; [done|]. intros <-. congruence.
  - eapply lock_ok_goes_on; [apply Hs|exact Ec|..]; by rewrite ?Eqc.
  - cbn. split; [done|]. split; [apply lookup_insert_eq|done].
Qed.

Lemma decides T m n : ts !! m = Some T -> (m <= main)%nat -> fresh reg own t n -> thread_ok ts main reg own t (decide_table T m n).
Proof. intros E Hm Hf. unfold decide_table. destruct (Z.ltb_spec n (limit T)); cbn; [|done]. split; [done|]. split; [done|]. by exists T. Qed.
Lemma decided T m n : locked (decide_table T m n) = false /\ publishing (decide_table T m n) = false /\ answer_ok own (decide_table T m n).
Proof. unfold decide_table. by destruct (n <? limit T). Qed.

Lemma step_claim m n : c = Claim m n -> goes_on.
Proof.
  intros Eqc. pose proof (safe_threads _ _ _ Hs t c Ec) as H. rewrite Eqc in H. cbn in H. destruct H as (Hm & Hf).
  destruct (table_there m Hm) as (T & ET & _). destruct (decided T m n) as (D1 & D2 & D3). pose proof (decides T m n ET Hm Hf) as D4.
  unfold goes_on. rewrite Eqc. cbn [step]. rewrite ET. cbn [mbind option_bind].
  destruct (half_of T <=? n); [destruct (resizing (state s)) eqn:Er|]; (eexists _, _; split; [reflexivity|]).
  - apply quiet; try done; by rewrite Eqc, ?D1.
  - apply (move _ _ reg own); cbn [with_resizing tables implicitProducerHash count resizing creations]; try done.
    + intros t' _ _. split; [by apply tables_same|done].
    + eapply tables_ok_goes_on; [apply Hs|exact Ec|by rewrite Eqc|done].
    + apply Hs.
    + eapply lock_ok_taken; [|exact Ec]. rewrite <- Er. apply Hs.
  - apply quiet; try done; by rewrite Eqc, ?D1.
Qed.

Lemma step_reload n : c = Reload n -> goes_on.
Proof.
  intros Eqc. pose proof (safe_threads _ _ _ Hs t c Ec) as Hf. rewrite Eqc in Hf. cbn in Hf.
  destruct (table_there main ltac:(done)) as (T & ET & _). unfold goes_on. rewrite Eqc. cbn [step]. rewrite ET. cbn [mbind option_bind].
  eexists _, _. split; [reflexivity|].
  destruct (Z.leb_spec (half_of T) n); apply quiet; try done; try by rewrite Eqc.
  all: cbn; split; [done|]; split; [done|]; by exists T.
Qed.

Lemma limit_mono T T' : 0 <= capacity (hash T) -> capacity (hash T) <= capacity (hash T') -> limit T <= limit T'.
Proof.
  intros H0 H. unfold limit. rewrite !Z.shiftr_div_pow2 by lia.
  pose proof (Z.div_le_mono _ _ (2 ^ 1) eq_refl H). pose proof (Z.div_le_mono _ _ (2 ^ 2) eq_refl H). lia.
Qed.

(** The size of the new table. *)
Lemma grown T n :
  table_ok (hash T) -> half_of T <= n -> 0 <= n <= 2 ^ 59 ->
  exists k, 1 <= k <= 62 /\ grow 64 n (u64 (capacity (hash T) ≪ 1)) = Some (2 ^ k) /\ capacity (hash T) <= 2 ^ k /\ n < 2 ^ k ≫ 1.
Proof.
  intros Ht Hn Hn2. destruct (table_power _ Ht) as (k & Hk & Ek). unfold half_of in Hn. rewrite Ek in *.
  assert (k <= 60) as Hk60.
  { destruct (Z.eq_dec k 0); [lia|]. rewrite Z.shiftr_div_pow2, <- Z.pow_sub_r in Hn by lia.
    assert (2 ^ (k - 1) <= 2 ^ 59) as Hp by lia. apply Z.pow_le_mono_r_iff in Hp; lia. }
  assert (u64 (2 ^ k ≪ 1) = 2 ^ (k + 1)) as ->.
  { rewrite Z.shiftl_mul_pow2, <- Z.pow_add_r by lia. apply wrap_small. unfold in_width.
    split; [apply Z.pow_nonneg; lia|apply Z.pow_lt_mono_r; lia]. }
  destruct (grow_spec 64 n (k + 1)) as (k' & Hk' & Eg & Hlt); [lia|lia|lia|]. exists k'. split; [done|]. split; [done|]. split; [|done].
  destruct (Z.le_gt_cases (2 ^ k) (2 ^ k')) as [|Hgt]; [done|]. rewrite !Z.shiftr_div_pow2 in * by lia.
  pose proof (Z.div_le_mono (2 ^ k') (2 ^ k) (2 ^ 1) ltac:(lia) ltac:(lia)). lia.
Qed.

Lemma step_alloc m n : c = Alloc m n -> goes_on.
Proof.
  intros Eqc. pose proof (safe_threads _ _ _ Hs t c Ec) as H. rewrite Eqc in H. cbn in H. destruct H as (-> & Hf & T & ET & Hhalf).
  destruct (table_there main ltac:(done)) as (T' & ET' & Htab & _). rewrite ET in ET'. injection ET' as <-.
  destruct (counts_reg _ _ _ _ (safe_counts _ _ _ Hs) t n (proj1 Hf)) as [_ Hn].
  destruct (grown T n Htab Hhalf ltac:(lia)) as (k & Hk & Eg & Hcap & Hnk).
  unfold goes_on. rewrite Eqc. cbn [step]. rewrite ET. cbn [mbind option_bind]. rewrite Eg. cbn [mbind option_bind].
  destruct (try_malloc (mallocs (state s))) eqn:Em; (eexists _, _; split; [reflexivity|]).
  - pose proof Ec as Ec'. rewrite Eqc in Ec'. destruct (lock_ok_made _ (mkTable (new_hash (2 ^ k)) (Some main)) _ _ _ _ _ _ (safe_lock _ _ _ Hs) Ec') as [HL Hlen].
    destruct (new_hash_ok k ltac:(lia)) as (Hnew & _ & Hempty). pose proof (safe_tables _ _ _ Hs) as HT.
    apply (move _ _ reg own); cbn [with_tables tables implicitProducerHash count resizing creations]; try done.
    + intros t' _ _. split; [|done]. apply tables_same. intros j T0 E. by apply lookup_app_l_Some.
    + split.
      * intros j T0 E. apply lookup_snoc_Some in E as [[_ E]|[-> <-]]; [by apply HT|]. split; [done|]. rewrite Hlen. done.
      * intros j j' T0 T1 E0 E1 Hj. apply lookup_snoc_Some in E0 as [[Hj0 E0]|[-> <-]], E1 as [[Hj1 E1]|[-> <-]].
        -- by apply (tables_grow _ _ _ _ HT j j').
        -- transitivity (limit T); [apply (tables_grow _ _ _ _ HT j main); [done|done|lia]|]. apply limit_mono; [|done].
           pose proof (capacity_pos _ Htab). lia.
        -- lia.
        -- done.
      * intros j T0 i e E Ei He. apply lookup_snoc_Some in E as [[Hj E]|[-> <-]].
        -- destruct (tables_entry _ _ _ _ HT j T0 i e E Ei He) as (t1 & n1 & p & G1 & G2 & G3 & G4 & G5). exists t1, n1, p.
           repeat (split; [done|]). destruct G5 as [G5|(j1 & G5 & G6)]; [by left|right]. exists j1. split; [|done].
           rewrite list_lookup_insert_ne; [done|]. intros <-. congruence.
        -- destruct (Hempty (key e) (value e) He). exists i. destruct e. exact Ei.
    + apply Hs.
    + cbn. split; [done|]. split; [done|]. eexists. split; [by apply list_lookup_middle|]. done.
  - apply quiet; try done; [by rewrite Eqc..|]. cbn. split; [left; by eexists|]. by exists n.
Qed.

Lemma step_fail_count : c = FailCount -> goes_on.
Proof.
  intros Eqc. pose proof (safe_threads _ _ _ Hs t c Ec) as H. rewrite Eqc in H. cbn in H. destruct H as (Hr & n & Hf).
  destruct (counts_drop _ _ _ _ t n (safe_counts _ _ _ Hs) (proj1 Hf) (proj2 Hf)) as (E1 & HC).
  unfold goes_on. rewrite Eqc. cbn [step]. rewrite E1. eexists _, _. split; [reflexivity|].
  apply (move _ _ (delete t reg) own); cbn [with_count tables implicitProducerHash count resizing creations]; try done.
  - intros t' _ Hne. split; [by apply tables_same|]. by rewrite lookup_delete_ne.
  - eapply tables_ok_goes_on; [apply Hs|exact Ec|by rewrite Eqc|]. intros t1 p E. split; [done|]. rewrite lookup_delete_ne; [done|]. intros <-.
    by rewrite (proj2 Hf) in E.
  - eapply lock_ok_goes_on; [apply Hs|exact Ec|..]; by rewrite ?Eqc.
  - cbn. split; [done|apply lookup_delete_eq].
Qed.

Lemma no_reg_no_own : reg !! t = None -> own !! t = None.
Proof.
  intros Hr. destruct (own !! t) as [p|] eqn:Ho; [|done]. destruct (counts_own _ _ _ _ (safe_counts _ _ _ Hs) t p Ho) as [[n E] _]. congruence.
Qed.

Lemma step_fail_clear : c = FailClear -> goes_on.
Proof.
  intros Eqc. pose proof (safe_threads _ _ _ Hs t c Ec) as H. rewrite Eqc in H. cbn in H. destruct H as (Hr & Hn). pose proof (no_reg_no_own Hn) as Ho.
  unfold goes_on. rewrite Eqc. cbn [step]. eexists _, _. split; [reflexivity|].
  apply (move _ _ reg own); cbn [with_resizing tables implicitProducerHash count resizing creations]; try done.
  - intros t' _ _. split; [by apply tables_same|done].
  - eapply tables_ok_goes_on; [apply Hs|exact Ec|by rewrite Eqc|done].
  - apply Hs.
  - eapply lock_ok_cleared; [apply Hs|exact Ec|..]; by rewrite ?Eqc.
  - cbn. unfold settled. by rewrite Ho.
Qed.

Lemma step_publish_table k n : c = Publish k n -> goes_on.
Proof.
  intros Eqc. pose proof (safe_threads _ _ _ Hs t c Ec) as H. rewrite Eqc in H. cbn in H. destruct H as (-> & Hf & Hb).
  pose proof Ec as Ec'. rewrite Eqc in Ec'. pose proof (lock_ok_published _ _ _ _ _ _ _ (safe_lock _ _ _ Hs) Ec') as HL.
  unfold goes_on. rewrite Eqc. cbn [step]. eexists _, _. split; [reflexivity|].
  apply (move _ _ reg own); cbn [with_main tables implicitProducerHash count resizing creations]; try done.
  - intros t' _ _. split; [by apply tables_same|done].
  - lia.
  - by rewrite Eqc.
  - eapply tables_ok_goes_on; [apply Hs|exact Ec|by rewrite Eqc|done].
  - apply Hs.
Qed.

Lemma step_release m n : c = Release m n -> goes_on.
Proof.
  intros Eqc. pose proof (safe_threads _ _ _ Hs t c Ec) as H. rewrite Eqc in H. cbn in H. destruct H as (Hm & Hf & Hb).
  destruct (table_there m Hm) as (T & ET & _). destruct (decided T m n) as (D1 & D2 & D3). pose proof (decides T m n ET Hm Hf) as D4.
  unfold goes_on. rewrite Eqc. cbn [step]. rewrite ET. cbn [mbind option_bind]. eexists _, _. split; [reflexivity|].
  apply (move _ _ reg own); cbn [with_resizing tables implicitProducerHash count resizing creations]; try done.
  - intros t' _ _. split; [by apply tables_same|done].
  - eapply tables_ok_goes_on; [apply Hs|exact Ec|by rewrite Eqc|done].
  - apply Hs.
  - eapply lock_ok_cleared; [apply Hs|exact Ec|..]; by rewrite ?Eqc, ?D1.
Qed.

Lemma step_create m n : c = Create m n -> goes_on.
Proof.
  intros Eqc. pose proof (safe_threads _ _ _ Hs t c Ec) as H. rewrite Eqc in H. cbn in H. destruct H as (Hm & Hf & Hfit).
  unfold goes_on. rewrite Eqc. cbn [step].
  destruct (recycle_or_create_producer (creations (state s))) as [[p b]|] eqn:Ep; (eexists _, _; split; [reflexivity|]).
  - pose proof (not_recycled _ _ _ Ep) as ->.
    apply (move _ _ reg (<[t := p]> own)); cbn [tables implicitProducerHash count resizing creations]; try done.
    + intros t' _ Hne. split; [by apply tables_same|]. by rewrite lookup_insert_ne.
    + eapply tables_ok_goes_on; [apply Hs|exact Ec|by rewrite Eqc|]. intros t1 p1 E. split; [|done]. rewrite lookup_insert_ne; [done|]. intros <-.
      by rewrite (proj2 Hf) in E.
    + eapply counts_given; [apply Hs|by apply Hf|by apply Hf|done].
    + eapply lock_ok_goes_on; [apply Hs|exact Ec|..]; by rewrite ?Eqc.
    + cbn. split; [|by apply walk_begins]. split; [done|]. split; [apply absent_all; [by apply Hf|done]|]. exists p, n.
      split; [done|]. split; [apply lookup_insert_eq|]. split; [by apply Hf|done].
    + intros t1 p1 E. rewrite lookup_insert_ne; [done|]. intros <-. by rewrite (proj2 Hf) in E.
  - apply (move _ _ reg own); cbn [tables implicitProducerHash count resizing creations]; try done.
    + intros t' _ _. split; [by apply tables_same|done].
    + eapply tables_ok_goes_on; [apply Hs|exact Ec|by rewrite Eqc|done].
    + apply counts_created, Hs.
    + eapply lock_ok_goes_on; [apply Hs|exact Ec|..]; by rewrite ?Eqc.
    + cbn. split; [right; by eexists|]. by exists n.
Qed.

Lemma step_drop : c = Drop -> goes_on.
Proof.
  intros Eqc. pose proof (safe_threads _ _ _ Hs t c Ec) as H. rewrite Eqc in H. cbn in H. destruct H as (Hr & n & Hf).
  destruct (counts_drop _ _ _ _ t n (safe_counts _ _ _ Hs) (proj1 Hf) (proj2 Hf)) as (E1 & HC).
  unfold goes_on. rewrite Eqc. cbn [step]. rewrite E1. eexists _, _. split; [reflexivity|].
  apply (move _ _ (delete t reg) own); cbn [with_count tables implicitProducerHash count resizing creations]; try done.
  - intros t' _ Hne. split; [by apply tables_same|]. by rewrite lookup_delete_ne.
  - eapply tables_ok_goes_on; [apply Hs|exact Ec|by rewrite Eqc|]. intros t1 p E. split; [done|]. rewrite lookup_delete_ne; [done|]. intros <-.
    by rewrite (proj2 Hf) in E.
  - eapply lock_ok_goes_on; [apply Hs|exact Ec|..]; by rewrite ?Eqc.
  - cbn. unfold settled. rewrite (proj2 Hf). apply lookup_delete_eq.
  - cbn. split; [by apply Hf|done].
Qed.

Lemma step_wait n : c = Wait n -> goes_on.
Proof.
  intros Eqc. pose proof (safe_threads _ _ _ Hs t c Ec) as Hf. rewrite Eqc in Hf. cbn in Hf.
  unfold goes_on. rewrite Eqc. cbn [step]. eexists _, _. split; [reflexivity|]. apply quiet; try done; by rewrite Eqc.
Qed.

Lemma step_place m v index : c = Place m v index -> goes_on.
Proof.
  intros Eqc. pose proof (safe_threads _ _ _ Hs t c Ec) as H. rewrite Eqc in H. cbn in H. destruct H as (Hp & Hwalk). pose proof Hp as (Hm & (Ta & ETa & Hno) & _).
  destruct (walk_looks m index Hm Hwalk) as (T & d & e & ET & Htab & Hprev & Emask & Ee & Eei & Ekey & Hfull & Hnext).
  rewrite ET in ETa. injection ETa as <-.
  unfold goes_on. rewrite Eqc. cbn [step]. rewrite ET. cbn [mbind option_bind]. rewrite Emask, Ee. cbn [mbind option_bind].
  eexists _, _. split; [reflexivity|]. destruct (Z.eqb_spec (key e) invalid_thread_id) as [E0|E0]; apply quiet; try done; try by rewrite Eqc.
  - cbn. split; [done|]. by exists T, d.
  - cbn. split; [done|]. apply Hnext; [done|]. by eapply Hno.
Qed.

Lemma step_place_value m v index : c = PlaceValue m v index -> goes_on.
Proof.
  intros Eqc. pose proof (safe_threads _ _ _ Hs t c Ec) as H. rewrite Eqc in H. cbn in H. destruct H as (Hm & p & e & -> & Ho & (T & ET & Ee) & Ek).
  pose proof (safe_tables _ _ _ Hs) as HT. pose proof (tid_real t t_real) as Hreal.
  unfold goes_on. rewrite Eqc. cbn [step]. unfold entry. rewrite ET. cbn [mbind option_bind]. rewrite Ee. cbn [mbind option_bind].
  eexists _, _. split; [reflexivity|].
  assert (Z.to_nat index < length (entries (hash T)))%nat as Hi by by eapply lookup_lt_Some.
  set (s' := store m index (mkKVP (key e) (Some p)) (state s)).
  assert (tables s' !! m = Some (mkTable (mkHash (capacity (hash T)) (<[Z.to_nat index := mkKVP (key e) (Some p)]> (entries (hash T)))) (prev T))) as ET'
    by by apply stored_lookup.
  apply (move _ s' reg own); unfold s'; cbn [store with_tables implicitProducerHash count resizing creations]; fold s'; try done.
  - intros t' Ht' Hne. split; [|done]. apply (store_change _ _ _ e _ T); [done|done|]. right. left. split; [done|]. rewrite Ek.
    intros E. by destruct Hne, (tid_inj t t' t_real Ht' E).
  - split.
    + intros k T0 E0. destruct (decide (m = k)) as [<-|Hne].
      * rewrite ET' in E0. injection E0 as <-. cbn. destruct (tables_each _ _ _ _ HT m T ET) as [Htab Hprev]. split; [|done].
        apply (same_keys_table (hash T)); [done|done|cbn; by rewrite length_insert|]. cbn. intros i e' Ei. destruct (decide (Z.to_nat index = i)) as [<-|Hj].
        -- rewrite list_lookup_insert_eq in Ei by done. injection Ei as <-. by exists e.
        -- rewrite list_lookup_insert_ne in Ei by done. by exists e'.
      * unfold s' in E0. rewrite stored_lookup_ne in E0 by done. by apply HT.
    + intros k k' T0 T1 E0 E1 Hk.
      assert (forall j T2, tables s' !! j = Some T2 -> exists T3, ts !! j = Some T3 /\ limit T2 = limit T3) as Hlim.
      { intros j T2 E. destruct (decide (m = j)) as [<-|Hne].
        - rewrite ET' in E. injection E as <-. by exists T.
        - unfold s' in E. rewrite stored_lookup_ne in E by done. by exists T2. }
      destruct (Hlim _ _ E0) as (T2 & E2 & ->), (Hlim _ _ E1) as (T3 & E3 & ->). by apply (tables_grow _ _ _ _ HT k k').
    + intros k T0 i e' E0 Ei He.
      assert (forall T1 e1, ts !! k = Some T1 -> entries (hash T1) !! i = Some e1 -> key e1 = key e' -> limit T0 = limit T1 -> (k = m -> i <> Z.to_nat index) ->
        value e1 = value e' -> exists t1 n p1, key e' = tid t1 /\ reg !! t1 = Some n /\ n < limit T0 /\ own !! t1 = Some p1 /\
        (value e' = Some p1 \/ exists j, <[t := Returned (Some p)]> (threads s) !! t1 = Some (PlaceValue k (Some p1) j) /\ Z.to_nat j = i)) as Hold.
      { intros T1 e1 E1 Ei1 Ek1 El Hne Ev. destruct (tables_entry _ _ _ _ HT k T1 i e1 E1 Ei1 ltac:(by rewrite Ek1)) as (t1 & n & p1 & G1 & G2 & G3 & G4 & G5).
        exists t1, n, p1. rewrite <- Ek1, <- Ev, El. repeat (split; [done|]). destruct G5 as [G5|(j & Ej & G5)]; [by left|right]. exists j. split; [|done].
        rewrite list_lookup_insert_ne; [done|]. intros <-. rewrite Ec, Eqc in Ej. injection Ej as -> _ ->. by destruct (Hne eq_refl). }
      destruct (decide (m = k)) as [<-|Hne].
      * rewrite ET' in E0. injection E0 as <-. cbn in Ei. destruct (decide (Z.to_nat index = i)) as [<-|Hj].
        -- rewrite list_lookup_insert_eq in Ei by done. injection Ei as <-. cbn in *.
           destruct (tables_entry _ _ _ _ HT m T _ e ET Ee He) as (t1 & n & p1 & G1 & G2 & G3 & G4 & _).
           destruct (counts_reg _ _ _ _ (safe_counts _ _ _ Hs) t1 n G2) as [Ht1 _]. pose proof (tid_inj t t1 t_real Ht1 ltac:(congruence)) as <-.
           exists t, n, p. repeat (split; [done|]). by left.
        -- rewrite list_lookup_insert_ne in Ei by done. by apply (Hold T e').
      * unfold s' in E0. rewrite stored_lookup_ne in E0 by done. by apply (Hold T0 e').
  - apply Hs.
  - eapply lock_ok_goes_on; [apply Hs|exact Ec|by rewrite Eqc|by rewrite Eqc|done|apply store_length].
  - cbn. unfold settled. rewrite Ho. exists m. split; [done|]. eexists _, (Z.to_nat index). split; [exact ET'|]. cbn. rewrite <- Ek. by apply list_lookup_insert_eq.
Qed.

Lemma empty_slot_near h id d : table_ok h -> full_to h id d -> key_at h (slot h id d) = invalid_thread_id -> (d < steps h)%nat.
Proof.
  intros Ht Hf E. destruct (slot_cover h id (slot h id d) Ht (slot_range h id d Ht)) as (d0 & Hd0 & E0).
  destruct (Nat.lt_ge_cases d (steps h)) as [|Hge]; [done|]. destruct (Hf d0 ltac:(lia)) as [G _]. by rewrite E0 in G.
Qed.

Lemma step_place_cas m v index : c = PlaceCAS m v index -> goes_on.
Proof.
  intros Eqc. pose proof (safe_threads _ _ _ Hs t c Ec) as H. rewrite Eqc in H. cbn in H. destruct H as (Hp & T & d & ET & -> & Hfull).
  pose proof Hp as (Hm & (Ta & ETa & Hno) & p & n & -> & Ho & Hr & (Tf & ETf & Hn)). rewrite ET in ETa, ETf. injection ETa as <-. injection ETf as <-.
  pose proof (safe_tables _ _ _ Hs) as HT. pose proof (tid_real t t_real) as Hreal. destruct (tables_each _ _ _ _ HT m T ET) as [Htab Hprev].
  destruct (slot_entry (hash T) (tid t) d Htab) as (e & Ee & Ek). set (index := slot (hash T) (tid t) d) in *.
  unfold goes_on. rewrite Eqc. cbn [step]. unfold entry. rewrite ET. cbn [mbind option_bind]. rewrite Ee. cbn [mbind option_bind].
  destruct (Z.eqb_spec (key e) invalid_thread_id) as [E0|E0]; (eexists _, _; split; [reflexivity|]).
  2: { apply quiet; try done; try by rewrite Eqc. cbn. split; [done|]. exists T, (S d), (index + 1). split; [done|]. split; [done|].
       split; [by apply slot_next|]. intros d' Hd'. destruct (decide (d' = d)) as [->|Hne]; [|apply Hfull; lia]. fold index. rewrite Ek. split; [done|by eapply Hno]. }
  assert (Z.to_nat index < length (entries (hash T)))%nat as Hi by by eapply lookup_lt_Some.
  set (e' := mkKVP (tid t) (value e)). set (s' := store m index e' (state s)).
  set (T' := mkTable (mkHash (capacity (hash T)) (<[Z.to_nat index := e']> (entries (hash T)))) (prev T)).
  assert (tables s' !! m = Some T') as ET' by by apply stored_lookup.
  apply (move _ s' reg own); unfold s'; cbn [store with_tables implicitProducerHash count resizing creations]; fold s'; try done.
  - intros t' Ht' Hne. split; [|done]. apply (store_change _ _ _ e _ T); [done|done|]. right. right. split; [done|]. split; [done|].
    intros E. by destruct Hne, (tid_inj t t' t_real Ht' E).
  - split.
    + intros k T0 E1. destruct (decide (m = k)) as [<-|Hne].
      * rewrite ET' in E1. injection E1 as <-. cbn. split; [|done]. apply claimed_table; try done; [|by fold index; rewrite Ek].
        apply (empty_slot_near _ (tid t)); [done|done|by fold index; rewrite Ek].
      * unfold s' in E1. rewrite stored_lookup_ne in E1 by done. by apply HT.
    + intros k k' T0 T1 E1 E2 Hk.
      assert (forall j T2, tables s' !! j = Some T2 -> exists T3, ts !! j = Some T3 /\ limit T2 = limit T3) as Hlim.
      { intros j T2 E. destruct (decide (m = j)) as [<-|Hne].
        - rewrite ET' in E. injection E as <-. by exists T.
        - unfold s' in E. rewrite stored_lookup_ne in E by done. by exists T2. }
      destruct (Hlim _ _ E1) as (T2 & E3 & ->), (Hlim _ _ E2) as (T3 & E4 & ->). by apply (tables_grow _ _ _ _ HT k k').
    + intros k T0 i e1 E1 Ei He.
      assert (forall T1, ts !! k = Some T1 -> entries (hash T1) !! i = Some e1 -> limit T0 = limit T1 ->
        exists t1 n p1, key e1 = tid t1 /\ reg !! t1 = Some n /\ n < limit T0 /\ own !! t1 = Some p1 /\
        (value e1 = Some p1 \/ exists j, <[t := PlaceValue m (Some p) index]> (threads s) !! t1 = Some (PlaceValue k (Some p1) j) /\ Z.to_nat j = i)) as Hold.
      { intros T1 F1 F2 El. destruct (tables_entry _ _ _ _ HT k T1 i e1 F1 F2 He) as (t1 & n1 & p1 & G1 & G2 & G3 & G4 & G5).
        exists t1, n1, p1. rewrite El. repeat (split; [done|]). destruct G5 as [G5|(j & Ej & G5)]; [by left|right]. exists j. split; [|done].
        rewrite list_lookup_insert_ne; [done|]. intros <-. by rewrite Ec, Eqc in Ej. }
      destruct (decide (m = k)) as [<-|Hne].
      * rewrite ET' in E1. injection E1 as <-. cbn in Ei. destruct (decide (Z.to_nat index = i)) as [<-|Hj].
        -- rewrite list_lookup_insert_eq in Ei by done. injection Ei as <-. exists t, n, p. repeat (split; [done|]). right. exists index.
           split; [|done]. rewrite list_lookup_insert_eq; [done|]. by eapply lookup_lt_Some.
        -- rewrite list_lookup_insert_ne in Ei by done. by apply (Hold T).
      * unfold s' in E1. rewrite stored_lookup_ne in E1 by done. by apply (Hold T0).
  - apply Hs.
  - eapply lock_ok_goes_on; [apply Hs|exact Ec|by rewrite Eqc|by rewrite Eqc|done|apply store_length].
  - cbn. split; [done|]. exists p, e'. split; [done|]. split; [done|]. split; [|done]. exists T'. split; [done|]. cbn. by apply list_lookup_insert_eq.
Qed.

(** A thread in a call can always step. *)
Lemma thread_steps : (forall r, c <> Returned r) -> goes_on.
Proof.
  intros Hc. destruct (ex_intro (fun c0 => c = c0) c eq_refl) as [c0 Eqc].
  destruct c0 as [r| |m h index|m h index|m|m n|n|m n| | |k n|m n|m n| |m v|n|m v index|m v index|m v index].
  - by destruct (Hc r).
  - by apply step_load.
  - by eapply step_probe.
  - by eapply step_read.
  - by eapply step_fetch_add.
  - by eapply step_claim.
  - by eapply step_reload.
  - by eapply step_alloc.
  - by apply step_fail_count.
  - by apply step_fail_clear.
  - by eapply step_publish_table.
  - by eapply step_release.
  - by eapply step_create.
  - by apply step_drop.
  - pose proof (safe_threads _ _ _ Hs t _ Ec) as H. by rewrite Eqc in H.
  - by eapply step_wait.
  - by eapply step_place.
  - by eapply step_place_cas.
  - by eapply step_place_value.
Qed.

(** A call begins. *)
Lemma call_begins r : c = Returned r -> safe (after LoadMain (state s)).
Proof.
  intros Eqc. pose proof (safe_threads _ _ _ Hs t c Ec) as H. rewrite Eqc in H. by apply quiet; try done; rewrite Eqc.
Qed.
End Step.

(** ** Any schedule *)

Abbreviation turn' := (turn ids try_malloc recycle_or_create_producer).
Abbreviation turns' := (turns ids try_malloc recycle_or_create_producer).

(** A turn of a thread: the call it begins, or its next step. *)
Lemma turn_of s t c : threads s !! t = Some c -> safe s ->
  exists c' s', turn' t s = Some (after s t c' s') /\ safe (after s t c' s') /\
    match c with Returned _ => c' = LoadMain | _ => step ids try_malloc recycle_or_create_producer t c (state s) = Some (c', s') end.
Proof.
  intros Ec (reg & own & Hs).
  assert ((exists r, c = Returned r) \/ forall r, c <> Returned r) as [[r ->]|Hc] by (destruct c; [left; by eexists|by right..]).
  - exists LoadMain, (state s). unfold turn. rewrite Ec. split; [unfold after; by rewrite app_nil_r|]. split; [by eapply call_begins|done].
  - destruct (thread_steps s t c reg own Hs Ec Hc) as (c' & s' & E & Hsafe). exists c', s'.
    split; [|split; [done|destruct c; done || by destruct (Hc r)]]. unfold turn. rewrite Ec, E. cbn. by destruct c.
Qed.

Lemma turn_keeps t s : safe s -> exists s', turn' t s = Some s' /\ safe s'.
Proof.
  intros Hs. destruct (threads s !! t) as [c|] eqn:Ec.
  - destruct (turn_of s t c Ec Hs) as (c' & s' & E & H & _). by exists (after s t c' s').
  - exists s. unfold turn. by rewrite Ec.
Qed.

Lemma turns_keep schedule s : safe s -> exists s', turns' schedule s = Some s' /\ safe s'.
Proof.
  revert s. induction schedule as [|t schedule IH]; intros s Hs; cbn [turns]; [by exists s|].
  destruct (turn_keeps t s Hs) as (s1 & -> & H1). cbn [mbind option_bind]. by apply IH.
Qed.

Lemma begin_keeps {tr : Traits} :
  INITIAL_IMPLICIT_PRODUCER_HASH_SIZE <> 0 -> static_asserts = true -> in_width 64 INITIAL_IMPLICIT_PRODUCER_HASH_SIZE -> safe (begin ids).
Proof.
  intros Hne Hchecked Hw. exists ∅, ∅. pose proof (inv_holds _ _ (populate_inv Hne Hchecked Hw)) as Hh.
  unfold populate_initial_implicit_producer_hash in Hh. rewrite (proj2 (Z.eqb_neq _ _) Hne) in Hh. cbn [hashes] in Hh.
  destruct (holds_tables _ _ Hh _ ltac:(left)) as [Htab _].
  assert (forall k c, replicate (length ids) (Returned None) !! k = Some c -> c = Returned None) as Hidle by (by intros k c [-> _]%lookup_replicate).
  split; cbn [begin threads state answers tables implicitProducerHash count resizing creations].
  - apply length_replicate.
  - split.
    + intros [|k] T E; [|done]. by injection E as <-.
    + intros [|k] [|k'] T T' E E' _; try done. injection E as <-. by injection E' as <-.
    + intros [|k] T i e E Ei He; [|done]. injection E as <-. cbn in Ei. by apply lookup_replicate in Ei as [-> _].
  - by split.
  - split.
    + split; [done|]. intros (t & c & E & L). pose proof (Hidle _ _ E) as ->. done.
    + intros t t' c c' E _ L. pose proof (Hidle _ _ E) as ->. done.
    + right. split; [|done]. intros t k n E. by apply Hidle in E.
  - intros t c E. by rewrite (Hidle _ _ E).
  - split; [by intros t p Hin%not_elem_of_nil|done|by intros t Hin%not_elem_of_nil].
Qed.

(** ** Calls that end *)

(** There is room in every table: a table has only ids of threads that were
    counted before it was three quarters full. *)
Lemma table_room s m T : safe s -> tables (state s) !! m = Some T -> has_empty (hash T).
Proof.
  intros (reg & own & Hs) ET. destruct (tables_each _ _ _ _ (safe_tables _ _ _ Hs) m T ET) as [Htab _].
  apply few_taken; [done|]. pose proof (capacity_pos _ Htab) as Hpos.
  assert (0 <= limit T /\ limit T <= capacity (hash T)) as [Hl0 Hl].
  { unfold limit. rewrite !Z.shiftr_div_pow2 by lia. change (2 ^ 1) with 2. change (2 ^ 2) with 4.
    pose proof (Z.div_mod (capacity (hash T)) 2 ltac:(done)). pose proof (Z.mod_pos_bound (capacity (hash T)) 2).
    pose proof (Z.div_mod (capacity (hash T)) 4 ltac:(done)). pose proof (Z.mod_pos_bound (capacity (hash T)) 4). lia. }
  set (F := filter (fun tn : nat * Z => tn.2 <= limit T - 1) reg).
  assert (length (taken (hash T)) <= size F)%nat as Hle.
  { rewrite <- length_map_to_list, <- (length_fmap (fun tn : nat * Z => tid tn.1)). apply submseteq_length, NoDup_submseteq; [by apply taken_nodup|].
    intros k (Hk & v & i & Ei)%elem_taken. destruct (tables_entry _ _ _ _ (safe_tables _ _ _ Hs) m T i _ ET Ei Hk) as (t & n & p & E1 & E2 & E3 & _).
    apply list_elem_of_fmap. exists (t, n). split; [done|]. apply elem_of_map_to_list, map_lookup_filter_Some. split; [done|]. cbn. lia. }
  destruct (Z.le_gt_cases (limit T) 0) as [Hz|Hz].
  - assert (F = ∅) as EF.
    { apply map_empty. intros t. apply map_lookup_filter_None. right. intros n E. cbn. destruct (counts_reg _ _ _ _ (safe_counts _ _ _ Hs) t n E) as [_ Hn]. lia. }
    rewrite EF, map_size_empty in Hle. lia.
  - pose proof (counts_few _ _ _ _ (safe_counts _ _ _ Hs) (limit T - 1) ltac:(lia)) as Hf. fold F in Hf. lia.
Qed.

Section Alone.
Context (t : nat).

(** The flag is not another thread's. *)
Definition alone (s : sys) : Prop := safe s /\ forall t' c', t' <> t -> threads s !! t' = Some c' -> locked c' = false.
(** By itself the thread comes to the end of its call. *)
Definition ends (s : sys) : Prop :=
  exists n s' r, turns' (replicate n t) s = Some s' /\ alone s' /\ threads s' !! t = Some (Returned r) /\
    forall t', t' <> t -> threads s' !! t' = threads s !! t'.

Lemma returned_ends s r : alone s -> threads s !! t = Some (Returned r) -> ends s.
Proof. intros Ha E. by exists O, s, r. Qed.

Lemma after_thread s c c' s' : threads s !! t = Some c -> threads (after s t c' s') !! t = Some c'.
Proof. intros E. cbn. apply list_lookup_insert_eq. by eapply lookup_lt_Some. Qed.

(** The next step of a thread that is alone. *)
Lemma alone_next s c :
  alone s -> threads s !! t = Some c -> (forall r, c <> Returned r) ->
  (forall c' s', step ids try_malloc recycle_or_create_producer t c (state s) = Some (c', s') ->
    alone (after s t c' s') -> threads (after s t c' s') !! t = Some c' -> ends (after s t c' s')) -> ends s.
Proof.
  intros [Hs Ha] Ec Hc Hends. destruct (turn_of s t c Ec Hs) as (c' & s' & Et & Hs1 & E1).
  assert (step ids try_malloc recycle_or_create_producer t c (state s) = Some (c', s')) as E2 by (destruct c; done || by destruct (Hc r)).
  destruct (Hends c' s' E2) as (n & s2 & r & Er & Ha2 & Er2 & Ho).
  - split; [done|]. intros t' c2 Hne Et'. cbn in Et'. rewrite list_lookup_insert_ne in Et' by done. by apply (Ha t' c2).
  - by eapply after_thread.
  - exists (S n), s2, r. cbn [replicate turns]. rewrite Et. cbn [mbind option_bind]. split; [done|]. split; [done|]. split; [done|].
    intros t' Hne. rewrite Ho by done. cbn. by rewrite list_lookup_insert_ne.
Qed.

Lemma alone_knows s c : alone s -> threads s !! t = Some c ->
  exists reg own, safe_with s reg own /\ thread_ok (tables (state s)) (implicitProducerHash (state s)) reg own t c.
Proof. intros [(reg & own & Hs) _] Ec. exists reg, own. split; [done|]. by apply (safe_threads _ _ _ Hs). Qed.

#[local] Ltac next Ha Ec E Ha' Ec' := apply (alone_next _ _ Ha Ec); [done|]; intros ? ? E Ha' Ec'; cbn [step] in E.

Lemma value_ends s m v index : alone s -> threads s !! t = Some (PlaceValue m v index) -> ends s.
Proof. intros Ha Ec. next Ha Ec E Ha' Ec'. apply bind_Some in E as (e & _ & [= <- <-]). by eapply returned_ends. Qed.

Lemma full_near h id d : table_ok h -> has_empty h -> full_to h id d -> (d < steps h)%nat.
Proof.
  intros Ht (i & e & Ei & Ee) Hf. pose proof (lookup_lt_Some _ _ _ Ei) as Hi. rewrite (table_length h Ht) in Hi.
  destruct (slot_cover h id (Z.of_nat i) Ht ltac:(lia)) as (d0 & Hd0 & E0). destruct (Nat.lt_ge_cases d (steps h)) as [|Hge]; [done|].
  destruct (Hf d0 ltac:(lia)) as [G _]. rewrite E0 in G. unfold key_at in G. by rewrite Nat2Z.id, Ei in G.
Qed.

(** What a thread has walked, and how far it has still to go. *)
Definition walk_left (s : sys) (h : nat) (index : Z) (d k : nat) : Prop :=
  exists T x, tables (state s) !! h = Some T /\ table_ok (hash T) /\ has_empty (hash T) /\ index = u64 x /\
    x `mod` capacity (hash T) = slot (hash T) (tid t) d /\ full_to (hash T) (tid t) d /\ (steps (hash T) <= d + k)%nat.

Lemma walk_left_some s h index : alone s -> walked (tables (state s)) h t index -> exists d k, walk_left s h index d k.
Proof.
  intros [Hs _] (T & d & x & E & Ei & Hx & Hf). exists d, (steps (hash T)), T, x. split; [done|]. pose proof (table_room s h T Hs E).
  destruct Hs as (reg & own & Hs). destruct (tables_each _ _ _ _ (safe_tables _ _ _ Hs) h T E) as [Ht _]. repeat (split; [done|]). lia.
Qed.

Lemma walk_left_next s s' h index d k T e :
  walk_left s h index d k -> tables (state s) !! h = Some T -> entry (state s) h (mask T index) = Some e ->
  key e <> invalid_thread_id -> key e <> tid t -> tables (state s') = tables (state s) ->
  exists k', k = S k' /\ walk_left s' h (u64 (mask T index + 1)) (S d) k'.
Proof.
  intros (T' & x & ET' & Ht & He & -> & Hx & Hf & Hl) ET Ee H1 H2 Es. rewrite ET in ET'. injection ET' as <-.
  unfold mask in *. rewrite mask_index, Hx in * by done. pose proof (full_near _ _ _ Ht He Hf) as Hd. destruct k as [|k]; [lia|].
  exists k. split; [done|]. exists T, (slot (hash T) (tid t) d + 1). rewrite Es. repeat (split; [done|]). split; [by apply slot_next|]. split; [|lia].
  intros d' Hd'. destruct (decide (d' = d)) as [->|Hne]; [|apply Hf; lia].
  unfold entry in Ee. rewrite ET in Ee. cbn in Ee. unfold key_at. by rewrite Ee.
Qed.

Lemma place_ends_within k : forall s m v index d,
  alone s -> threads s !! t = Some (Place m v index) -> walk_left s m index d k -> ends s.
Proof.
  induction k as [|k IH]; intros s m v index d Ha Ec Hw; next Ha Ec E Ha' Ec';
    apply bind_Some in E as (T & ET & E); apply bind_Some in E as (e & Ee & [= <- <-]).
  all: destruct (Z.eqb_spec (key e) invalid_thread_id) as [E0|E0].
  1, 3: next Ha' Ec' E Ha2 Ec2; cbn [state after] in E; rewrite Ee in E; cbn [mbind option_bind] in E;
    rewrite (proj2 (Z.eqb_eq _ _) E0) in E; injection E as <- <-; by eapply value_ends.
  all: assert (key e <> tid t) as Hne by
    (destruct (alone_knows _ _ Ha Ec) as (reg & own & _ & (_ & (T1 & ET1 & Hno) & _) & _); rewrite ET in ET1; injection ET1 as <-;
     unfold entry in Ee; rewrite ET in Ee; by eapply Hno).
  all: destruct (walk_left_next s (after s t (Place m v (u64 (mask T index + 1))) (state s)) m index d _ T e Hw ET Ee E0 Hne eq_refl) as (k' & Ek & Hw').
  - done.
  - injection Ek as <-. by eapply IH.
Qed.

Lemma place_ends s m v index : alone s -> threads s !! t = Some (Place m v index) -> ends s.
Proof.
  intros Ha Ec. destruct (alone_knows _ _ Ha Ec) as (reg & own & _ & _ & Hw). destruct (walk_left_some s m index Ha Hw) as (d & k & Hl).
  by eapply place_ends_within.
Qed.

Lemma create_ends s m n : alone s -> threads s !! t = Some (Create m n) -> ends s.
Proof.
  intros Ha Ec. next Ha Ec E Ha' Ec'. destruct (recycle_or_create_producer (creations (state s))) as [[p b]|] eqn:Ep; injection E as <- <-.
  - rewrite (not_recycled _ _ _ Ep) in *. by eapply place_ends.
  - next Ha' Ec' E Ha2 Ec2. injection E as <- <-. by eapply returned_ends.
Qed.

Lemma half_limit T : 0 <= capacity (hash T) -> half_of T <= limit T.
Proof. intros H. unfold half_of, limit. pose proof (proj2 (Z.shiftr_nonneg (capacity (hash T)) 2) H). lia. Qed.

Lemma decide_below s m n T : alone s -> tables (state s) !! m = Some T -> n < half_of T -> decide_table T m n = Create m n.
Proof.
  intros [(reg & own & Hs) _] ET Hn. destruct (tables_each _ _ _ _ (safe_tables _ _ _ Hs) m T ET) as [Ht _].
  pose proof (capacity_pos _ Ht). pose proof (half_limit T ltac:(lia)). unfold decide_table. by rewrite (proj2 (Z.ltb_lt _ _)) by lia.
Qed.

Lemma release_ends s m n : alone s -> threads s !! t = Some (Release m n) -> ends s.
Proof.
  intros Ha Ec. destruct (alone_knows _ _ Ha Ec) as (reg & own & _ & _ & _ & T1 & ET1 & Hn). next Ha Ec E Ha' Ec'.
  apply bind_Some in E as (T & ET & [= <- <-]). rewrite ET in ET1. injection ET1 as <-. rewrite (decide_below s) in * by done. by eapply create_ends.
Qed.

Lemma clear_ends s : alone s -> threads s !! t = Some FailClear -> ends s.
Proof. intros Ha Ec. next Ha Ec E Ha' Ec'. injection E as <- <-. by eapply returned_ends. Qed.

Lemma fail_ends s : alone s -> threads s !! t = Some FailCount -> ends s.
Proof. intros Ha Ec. next Ha Ec E Ha' Ec'. injection E as <- <-. by eapply clear_ends. Qed.

Lemma publish_ends s k n : alone s -> threads s !! t = Some (Publish k n) -> ends s.
Proof. intros Ha Ec. next Ha Ec E Ha' Ec'. injection E as <- <-. by eapply release_ends. Qed.

Lemma alloc_ends s m n : alone s -> threads s !! t = Some (Alloc m n) -> ends s.
Proof.
  intros Ha Ec. next Ha Ec E Ha' Ec'. apply bind_Some in E as (T & _ & E). apply bind_Some in E as (newCapacity & _ & E).
  destruct (try_malloc _); injection E as <- <-; [by eapply publish_ends|by apply fail_ends].
Qed.

Lemma reload_ends s n : alone s -> threads s !! t = Some (Reload n) -> ends s.
Proof.
  intros Ha Ec. next Ha Ec E Ha' Ec'. apply bind_Some in E as (T & _ & [= <- <-]).
  destruct (half_of T <=? n); [by eapply alloc_ends|by eapply release_ends].
Qed.

Lemma claim_ends s m n : alone s -> threads s !! t = Some (Claim m n) -> ends s.
Proof.
  intros Ha Ec. next Ha Ec E Ha' Ec'. apply bind_Some in E as (T & ET & E). destruct (Z.leb_spec (half_of T) n) as [Hn|Hn].
  - destruct (resizing (state s)) eqn:Er; injection E as <- <-; [|by eapply reload_ends].
    destruct Ha as [(reg & own & Hs) Ha]. destruct (proj1 (lock_flag _ _ _ _ (safe_lock _ _ _ Hs)) Er) as (t1 & c1 & E1 & L1).
    destruct (decide (t1 = t)) as [->|Hne]; [|by rewrite (Ha t1 c1 Hne E1) in L1]. rewrite Ec in E1. by injection E1 as <-.
  - injection E as <- <-. rewrite (decide_below s) in * by done. by eapply create_ends.
Qed.

Lemma wait_ends s n : alone s -> threads s !! t = Some (Wait n) -> ends s.
Proof. intros Ha Ec. next Ha Ec E Ha' Ec'. injection E as <- <-. by eapply claim_ends. Qed.

Lemma fetch_ends s m : alone s -> threads s !! t = Some (FetchAdd m) -> ends s.
Proof. intros Ha Ec. next Ha Ec E Ha' Ec'. injection E as <- <-. by eapply claim_ends. Qed.

Lemma read_ends s m h index : alone s -> threads s !! t = Some (Read m h index) -> ends s.
Proof.
  intros Ha Ec. next Ha Ec E Ha' Ec'. apply bind_Some in E as (e & _ & [= <- <-]).
  destruct (decide (h = m)); [by eapply returned_ends|by eapply place_ends].
Qed.

Lemma cas_ends s m v index : alone s -> threads s !! t = Some (PlaceCAS m v index) -> ends s.
Proof.
  intros Ha Ec. next Ha Ec E Ha' Ec'. apply bind_Some in E as (e & _ & E).
  destruct (key e =? invalid_thread_id); injection E as <- <-; [by eapply value_ends|by eapply place_ends].
Qed.

(** The search through the tables, from one to those before it. *)
Lemma probe_ends_within h : forall k s m index d,
  alone s -> threads s !! t = Some (Probe m h index) -> walk_left s h index d k -> ends s.
Proof.
  induction h as [h IHh] using lt_wf_ind. induction k as [|k IH]; intros s m index d Ha Ec Hw; next Ha Ec E Ha' Ec';
    apply bind_Some in E as (T & ET & E); apply bind_Some in E as (e & Ee & [= <- <-]).
  all: destruct (Z.eqb_spec (key e) (tid t)) as [Ek|Ek]; [by eapply read_ends|].
  all: destruct (Z.eqb_spec (key e) invalid_thread_id) as [E0|E0].
  1, 3: destruct Ha as [(reg & own & Hs) _]; destruct (tables_each _ _ _ _ (safe_tables _ _ _ Hs) h T ET) as [_ Hprev]; rewrite Hprev in *;
    destruct h as [|h]; [by eapply fetch_ends|]; destruct (alone_knows _ _ Ha' Ec') as (reg' & own' & _ & _ & _ & _ & _ & Hwalk);
    destruct (walk_left_some _ _ _ Ha' Hwalk) as (d' & k' & Hw'); apply (IHh h ltac:(lia) k' _ _ _ _ Ha' Ec' Hw').
  all: destruct (walk_left_next s (after s t (Probe m h (u64 (mask T index + 1))) (state s)) h index d _ T e Hw ET Ee E0 Ek eq_refl) as (k' & Ekk & Hw').
  - done.
  - injection Ekk as <-. by eapply IH.
Qed.

Lemma probe_ends s m h index : alone s -> threads s !! t = Some (Probe m h index) -> ends s.
Proof.
  intros Ha Ec. destruct (alone_knows _ _ Ha Ec) as (reg & own & _ & _ & _ & _ & _ & Hw). destruct (walk_left_some s h index Ha Hw) as (d & k & Hl).
  by eapply probe_ends_within.
Qed.

Lemma call_ends s c : alone s -> threads s !! t = Some c -> ends s.
Proof.
  intros Ha Ec. destruct c as [r| |m h index|m h index|m|m n|n|m n| | |k n|m n|m n| |m v|n|m v index|m v index|m v index].
  - by eapply returned_ends.
  - next Ha Ec E Ha' Ec'. injection E as <- <-. by eapply probe_ends.
  - by eapply probe_ends.
  - by eapply read_ends.
  - by eapply fetch_ends.
  - by eapply claim_ends.
  - by eapply reload_ends.
  - by eapply alloc_ends.
  - by apply fail_ends.
  - by apply clear_ends.
  - by eapply publish_ends.
  - by eapply release_ends.
  - by eapply create_ends.
  - next Ha Ec E Ha' Ec'. injection E as <- <-. by eapply returned_ends.
  - by destruct (alone_knows _ _ Ha Ec) as (reg & own & _ & []).
  - by eapply wait_ends.
  - by eapply place_ends.
  - by eapply cas_ends.
  - by eapply value_ends.
Qed.
End Alone.

Lemma alone_with_lock s u c : safe s -> threads s !! u = Some c -> locked c = true -> alone u s.
Proof.
  intros Hs Eu Lu. split; [done|]. intros t' c' Hne E'. destruct Hs as (reg & own & Hs). by apply (locked_others _ _ _ _ _ _ _ _ (safe_lock _ _ _ Hs) Eu Lu E').
Qed.

Lemma alone_no_lock s u : safe s -> resizing (state s) = false -> alone u s.
Proof.
  intros Hs Er. split; [done|]. intros t' c' _ E'. destruct Hs as (reg & own & Hs). destruct (locked c') eqn:L; [|done].
  assert (resizing (state s) = true) by (apply (lock_flag _ _ _ _ (safe_lock _ _ _ Hs)); by exists t', c'). congruence.
Qed.

(** The thread that has the flag, if it is another one, comes to its end first. *)
Lemma lock_ends s t : safe s ->
  exists first s1, turns' first s = Some s1 /\ alone t s1 /\
    Forall (fun u => u = t \/ exists c, threads s !! u = Some c /\ locked c = true) first.
Proof.
  intros Hs. destruct (resizing (state s)) eqn:Er; [|exists [], s; split; [done|]; split; [by apply alone_no_lock|constructor]].
  pose proof Hs as (reg & own & Hsafe). destruct (proj1 (lock_flag _ _ _ _ (safe_lock _ _ _ Hsafe)) Er) as (u & c & Eu & Lu).
  pose proof (alone_with_lock s u c Hs Eu Lu) as Ha. destruct (decide (u = t)) as [->|Hut]; [exists [], s; by repeat constructor; apply Ha|].
  destruct (call_ends u s c Ha Eu) as (n & s1 & r & E1 & [Hs1 Ha1] & Er1 & _). exists (replicate n u), s1. split; [done|]. split.
  - split; [done|]. intros t' c' Hne' E'. destruct (decide (t' = u)) as [->|Hu]; [rewrite Er1 in E'; by injection E' as <-|by apply (Ha1 t')].
  - apply Forall_replicate. right. by exists c.
Qed.
End Safety.

(** ** Properties *)

Section Properties.
Context {tr : Traits} (ids : list Z).
Context (try_malloc : nat -> bool) (recycle_or_create_producer : nat -> option (nat * bool)).
Abbreviation run := (turns ids try_malloc recycle_or_create_producer).

(** C6: threads that meet in the hash of implicit producers, interleaved in any
    way, access by access: each is given the same producer at every call, no two
    the same one, and a call gives none only for lack of memory and only before
    the thread has one; no more than one thread at a time enlarges the table, and
    no access is outside of a table. *)
Theorem threads_share_the_hash schedule :
  INITIAL_IMPLICIT_PRODUCER_HASH_SIZE <> 0 -> static_asserts = true -> in_width 64 INITIAL_IMPLICIT_PRODUCER_HASH_SIZE ->
  NoDup ids -> Forall (fun id => id <> invalid_thread_id) ids -> Z.of_nat (length ids) <= 2 ^ 59 ->
  (forall c c' p b b', recycle_or_create_producer c = Some (p, b) -> recycle_or_create_producer c' = Some (p, b') -> c = c') ->
  (forall c p b, recycle_or_create_producer c = Some (p, b) -> b = false) ->
  exists s, run schedule (begin ids) = Some s /\
    (forall t t' p p', (t, Some p) ∈ answers s -> (t', Some p') ∈ answers s -> t = t' <-> p = p') /\
    (forall i j t p, answers s !! i = Some (t, Some p) -> answers s !! j = Some (t, None) -> (j < i)%nat) /\
    (forall t, (t, None) ∈ answers s -> (exists n, try_malloc n = false) \/ exists n, recycle_or_create_producer n = None) /\
    (forall t t' c c', threads s !! t = Some c -> threads s !! t' = Some c' -> locked c = true -> locked c' = true -> t = t').
Proof.
  intros Hne Hchecked Hw Hids Hreal Hfew Honce Hrec.
  destruct (turns_keep ids try_malloc recycle_or_create_producer Hids Hreal Honce Hrec Hfew schedule (begin ids))
    as (s & E & reg & own & Hs); [by apply begin_keeps|].
  exists s. split; [done|]. pose proof (safe_answers _ _ _ _ _ _ Hs) as [Hown Hnone Href]. split; [|split; [done|split; [done|]]].
  - intros t t' p p' H1 H2. apply Hown in H1, H2. split.
    + intros ->. congruence.
    + intros ->. by apply (counts_differ _ _ _ _ _ _ (safe_counts _ _ _ _ _ _ Hs) t t' p').
  - apply (lock_one _ _ _ _ (safe_lock _ _ _ _ _ _ Hs)).
Qed.

(** C8: wherever the threads are stopped, a thread in a call comes to its end if
    only it and the thread that is enlarging the table, if any, go on: no search
    of a table goes on for ever, no table is without room, and the wait for a new
    table is for that thread alone. *)
Theorem only_the_lock_is_waited_for schedule t :
  INITIAL_IMPLICIT_PRODUCER_HASH_SIZE <> 0 -> static_asserts = true -> in_width 64 INITIAL_IMPLICIT_PRODUCER_HASH_SIZE ->
  NoDup ids -> Forall (fun id => id <> invalid_thread_id) ids -> Z.of_nat (length ids) <= 2 ^ 59 ->
  (forall c c' p b b', recycle_or_create_producer c = Some (p, b) -> recycle_or_create_producer c' = Some (p, b') -> c = c') ->
  (forall c p b, recycle_or_create_producer c = Some (p, b) -> b = false) ->
  (t < length ids)%nat ->
  exists s more s' r, run schedule (begin ids) = Some s /\ run more s = Some s' /\ threads s' !! t = Some (Returned r) /\
    Forall (fun u => u = t \/ exists c, threads s !! u = Some c /\ locked c = true) more.
Proof.
  intros Hne Hchecked Hw Hids Hreal Hfew Honce Hrec Ht.
  destruct (turns_keep ids try_malloc recycle_or_create_producer Hids Hreal Honce Hrec Hfew schedule (begin ids))
    as (s & E & Hs); [by apply begin_keeps|].
  destruct (lock_ends ids try_malloc recycle_or_create_producer Hids Hreal Honce Hrec Hfew s t Hs) as (first & s1 & E1 & Ha & Hf).
  destruct Ha as [Hs1 Ha]. destruct (lookup_lt_is_Some_2 (threads s1) t) as [c Ec]; [destruct Hs1 as (reg & own & H1); by rewrite (safe_length _ _ _ _ _ _ H1)|].
  destruct (call_ends ids try_malloc recycle_or_create_producer Hids Hreal Honce Hrec Hfew t s1 c (conj Hs1 Ha) Ec) as (n & s2 & r & E2 & _ & Er2 & _).
  exists s, (first ++ replicate n t), s2, r. split; [done|]. split; [by rewrite turns_app, E1|]. split; [done|].
  apply Forall_app. split; [done|]. apply Forall_replicate. by left.
Qed.
End Properties.

(** ** An example *)

(** Three threads in turn, on a first table of two slots. *)
Definition three_ids : list Z := [100; 200; 300].
Definition in_turn (n : nat) : list nat := concat (repeat [0; 1; 2]%nat n).
Definition create_fresh (n : nat) : option (nat * bool) := Some (n, false).
Definition always (n : nat) : bool := true.
Abbreviation small_run := (turns three_ids always create_fresh).
Abbreviation small_begin := (begin (tr := two_slots) three_ids).

Lemma three_ids_differ : NoDup three_ids.
Proof. by apply (bool_decide_unpack _). Qed.
Lemma three_ids_real : Forall (fun id => id <> invalid_thread_id) three_ids.
Proof. by repeat constructor. Qed.
Lemma create_fresh_once c c' p b b' : create_fresh c = Some (p, b) -> create_fresh c' = Some (p, b') -> c = c'.
Proof. unfold create_fresh. intros [= -> _] [= -> _]. done. Qed.
Lemma create_fresh_new c p b : create_fresh c = Some (p, b) -> b = false.
Proof. by intros [= _ <-]. Qed.

Lemma threads_share_the_hash_witness :
  exists s, small_run (in_turn 40) small_begin = Some s /\
    (forall t t' p p', (t, Some p) ∈ answers s -> (t', Some p') ∈ answers s -> t = t' <-> p = p') /\
    (forall t, (t, None) ∈ answers s -> (exists n, always n = false) \/ exists n, create_fresh n = None) /\
    length (tables (state s)) = 3%nat /\ count (state s) = 3 /\
    firstn 4 (answers s) = [(0, Some 0); (1, Some 1); (2, Some 2); (0, Some 0)]%nat.
Proof.
  destruct (threads_share_the_hash (tr := two_slots) three_ids always create_fresh (in_turn 40) ltac:(done) ltac:(by vm_compute) ltac:(by vm_compute)
    three_ids_differ three_ids_real ltac:(by vm_compute) create_fresh_once create_fresh_new) as (s & E & H1 & _ & H3 & _).
  assert (option_map (fun s => (length (tables (state s)), count (state s), firstn 4 (answers s))) (small_run (in_turn 40) small_begin) =
    Some (3%nat, 3, [(0, Some 0); (1, Some 1); (2, Some 2); (0, Some 0)]%nat)) as Ev by (vm_compute; reflexivity).
  rewrite E in Ev. injection Ev as V1 V2 V3.
  exists s. split; [exact E|]. split; [exact H1|]. split; [exact H3|]. split; [exact V1|]. split; [exact V2|exact V3].
Defined.

(** The first thread has set the flag; the second one waits for its table. *)
Definition held_up : list nat := replicate 5 0%nat ++ replicate 5 1%nat.

Lemma only_the_lock_is_waited_for_witness :
  exists s more s' r, small_run held_up small_begin = Some s /\ threads s !! 0%nat = Some (Reload 1) /\ threads s !! 1%nat = Some (Wait 2) /\
    small_run more s = Some s' /\ threads s' !! 1%nat = Some (Returned r) /\
    Forall (fun u => u = 1%nat \/ exists c, threads s !! u = Some c /\ locked c = true) more.
Proof.
  destruct (only_the_lock_is_waited_for (tr := two_slots) three_ids always create_fresh held_up 1 ltac:(done) ltac:(by vm_compute) ltac:(by vm_compute)
    three_ids_differ three_ids_real ltac:(by vm_compute) create_fresh_once create_fresh_new ltac:(vm_compute; lia))
    as (s & more & s' & r & E & Em & Er & Hf).
  assert (option_map (fun s => (threads s !! 0%nat, threads s !! 1%nat)) (small_run held_up small_begin) = Some (Some (Reload 1), Some (Wait 2))) as Ev
    by (vm_compute; reflexivity).
  rewrite E in Ev. injection Ev as V1 V2.
  exists s, more, s', r. split; [exact E|]. split; [exact V1|]. split; [exact V2|]. split; [exact Em|]. split; [exact Er|exact Hf].
Defined.
End HashThreads.
