(* ===== verification/ProducerList.v ===== *)
(** * The producers of a lock-free queue and their tokens
      (utils/concurrentqueue.h, [ProducerToken], "Producer list manipulation")

    A queue keeps its producers in a list that only grows. A producer token
    takes a producer over, an abandoned one if there is one, and gives it up in
    its destructor. What a producer holds is behind the class [SubQueues]:
    what the queue's methods need of the sub-queues of the producers. Calls run
    one at a time; ProducerThreads.v has the threads that meet in the list. *)
From S2P Require Import Prelude.
From S2P Require Import QueueTraits.
From S2P Require Import BlockPool.
#[local] Open Scope Z_scope.

(** ** The sub-queues *)

(** The sub-queues of all producers, by the address of the producer. [sub_destroy]
    is the destructor, and gives the elements it destroys; [sub_malloc] is the
    allocation of what is not a producer or a block. *)
Class SubQueues (S T : Type) := {
  sub_create : bool -> M S (option nat);
  sub_size : nat -> S -> Z;
  sub_enqueue : nat -> AllocationMode -> T -> M S bool;
  sub_enqueue_bulk : nat -> AllocationMode -> list T -> M S bool;
  sub_dequeue : nat -> M S (option T);
  sub_dequeue_bulk : nat -> Z -> M S (list T);
  sub_destroy : nat -> M S (list T);
  sub_malloc : M S bool
}.

(** What they promise: each is a queue of its own. [sub_holds s cs]: in the
    state [s] the elements of the sub-queues are [cs]. Nothing is promised when
    a bulk operation has been refused: ExplicitQueue shows what can happen. *)
Class SubQueuesLaws (S T : Type) `{SubQueues S T} := {
  sub_holds : S -> gmap nat (list T) -> Prop;
  law_create e s cs :
    sub_holds s cs -> exists r s', sub_create e s = Some (r, s') /\
      match r with
      | None => sub_holds s' cs
      | Some p => cs !! p = None /\ sub_holds s' (<[p := []]> cs)
      end;
  law_size p s cs xs : sub_holds s cs -> cs !! p = Some xs -> sub_size p s = Z.of_nat (length xs);
  law_enqueue p mode x s cs xs :
    sub_holds s cs -> cs !! p = Some xs -> exists b s', sub_enqueue p mode x s = Some (b, s') /\
      sub_holds s' (if (b : bool) then <[p := xs ++ [x]]> cs else cs);
  law_enqueue_bulk p mode ys s cs xs :
    sub_holds s cs -> cs !! p = Some xs -> Z.of_nat (length ys) <= 2 ^ 63 -> exists b s', sub_enqueue_bulk p mode ys s = Some (b, s') /\
      ((b : bool) = true -> sub_holds s' (<[p := xs ++ ys]> cs));
  law_dequeue p s cs xs :
    sub_holds s cs -> cs !! p = Some xs -> exists s', sub_dequeue p s = Some (head xs, s') /\
      sub_holds s' (<[p := tail xs]> cs);
  law_dequeue_bulk p max s cs xs :
    sub_holds s cs -> cs !! p = Some xs -> 0 <= max -> exists s', sub_dequeue_bulk p max s = Some (take (Z.to_nat max) xs, s') /\
      sub_holds s' (<[p := drop (Z.to_nat max) xs]> cs);
  law_destroy p s cs xs :
    sub_holds s cs -> cs !! p = Some xs -> exists s', sub_destroy p s = Some (xs, s') /\ sub_holds s' (delete p cs);
  law_malloc s cs : sub_holds s cs -> exists b s', sub_malloc s = Some (b, s') /\ sub_holds s' cs
}.

Module ProducerList.
Section Producers.
Context {S T : Type} `{SubQueues S T}.

(** ** Data *)

Record producer := mkProducer { isExplicit : bool; inactive : bool; token : option nat }.
Definition set_inactive b p := mkProducer (isExplicit p) b (token p).
Definition set_token a p := mkProducer (isExplicit p) (inactive p) a.

(** The list goes from [producerListTail] on, by [next]. A token is named by its
    address, and has the address of its producer. *)
Record t := mk {
  producerList : list nat;
  producerCount : Z;
  producers : gmap nat producer;
  tokens : gmap nat (option nat);
  subs : S
}.
Definition set_producers ps q := mk (producerList q) (producerCount q) ps (tokens q) (subs q).
Definition set_tokens ts q := mk (producerList q) (producerCount q) (producers q) ts (subs q).
Definition set_subs s q := mk (producerList q) (producerCount q) (producers q) (tokens q) s.
Definition on_producer (p : nat) (f : producer -> producer) : M t unit :=
  ps ← gets producers;
  d ← the (ps !! p);
  modify (set_producers (<[p := f d]> ps)).

Definition sub {A} (m : M S A) : M t A := fun q =>
  match m (subs q) with Some (a, s) => Some (a, set_subs s q) | None => None end.

Definition construct (s : S) : t := mk [] 0 ∅ ∅ s.

(** ** The list *)

(** The producer at the address is new. *)
Definition add_producer (e : bool) (p : option nat) : M t (option nat) :=
  match p with
  | None => mret None
  | Some p =>
      modify (fun q => mk (p :: producerList q) (u32 (producerCount q + 1))
        (<[p := mkProducer e false None]> (producers q)) (tokens q) (subs q));;
      mret (Some p)
  end.

(** The first producer of the list that can be used again. *)
Fixpoint find_inactive (e : bool) (ps : gmap nat producer) (l : list nat) : option nat :=
  match l with
  | [] => None
  | p :: l =>
      match ps !! p with
      | Some d => if inactive d && eqb (isExplicit d) e then Some p else find_inactive e ps l
      | None => find_inactive e ps l
      end
  end.

(** The producer, and whether it has been recycled. *)
Definition recycle_or_create_producer (e : bool) : M t (option (nat * bool)) :=
  l ← gets producerList;
  ps ← gets producers;
  match find_inactive e ps l with
  | Some p => on_producer p (set_inactive false);; mret (Some (p, true))
  | None =>
      p ← sub (sub_create e);
      p ← add_producer e p;
      mret ((fun p => (p, false)) <$> p)
  end.

(** ** Producer tokens *)

(** [producer->token = this], if there is a producer. *)
Definition claim (p : option nat) (a : nat) : M t unit :=
  match p with Some p => on_producer p (set_token (Some a)) | None => mret tt end.
Definition token_producer (a : nat) : M t (option nat) :=
  ts ← gets tokens;
  the (ts !! a).
Definition store_token (a : nat) (p : option nat) : M t unit := modify (fun q => set_tokens (<[a := p]> (tokens q)) q).

(** The constructor of the token at the address [a], the move constructor, swap
    (which is also the assignment) and the destructor. *)
Definition construct_token (a : nat) : M t unit :=
  r ← recycle_or_create_producer true;
  store_token a (fst <$> r);;
  claim (fst <$> r) a.
Definition move_token (a other : nat) : M t unit :=
  p ← token_producer other;
  store_token a p;;
  store_token other None;;
  claim p a.
Definition swap_tokens (a other : nat) : M t unit :=
  p ← token_producer a;
  p' ← token_producer other;
  store_token a p';;
  store_token other p;;
  q ← token_producer a;
  claim q a;;
  q' ← token_producer other;
  claim q' other.
Definition valid (a : nat) : M t bool :=
  p ← token_producer a;
  mret (bool_decide (p <> None)).
Definition destroy_token (a : nat) : M t unit :=
  p ← token_producer a;
  match p with
  | Some p => on_producer p (fun d => set_inactive true (set_token None d))
  | None => mret tt
  end;;
  modify (fun q => set_tokens (delete a (tokens q)) q).

(** ** Who has which producer *)

(** A token has a producer exactly if that producer says so; an explicit producer
    is inactive exactly if no token has it, and an implicit one never is. *)
Record own (ps : gmap nat producer) (ts : gmap nat (option nat)) : Prop := mkOwn {
  own_token : forall a p, ts !! a = Some (Some p) <-> exists d, ps !! p = Some d /\ token d = Some a;
  own_status : forall p d, ps !! p = Some d ->
    if isExplicit d then inactive d = bool_decide (token d = None) else inactive d = false /\ token d = None
}.

Lemma own_explicit ps ts a p :
  own ps ts -> ts !! a = Some (Some p) -> ps !! p = Some (mkProducer true false (Some a)).
Proof.
  intros [Ht Hs] E. apply Ht in E as ([e i k] & Ep & Ek). cbn in Ek. subst k. specialize (Hs p _ Ep). cbn in Hs.
  destruct e; [by subst|by destruct Hs].
Qed.

Lemma own_claim ps ts a p :
  own ps ts -> (forall p', ts !! a <> Some (Some p')) -> (forall d, ps !! p = Some d -> token d = None) ->
  own (<[p := mkProducer true false (Some a)]> ps) (<[a := Some p]> ts).
Proof.
  intros [Ht Hs] Ha Hp. split.
  - intros a' p'. destruct (decide (a = a')) as [<-|Hna], (decide (p = p')) as [<-|Hnp];
      rewrite ?lookup_insert_eq, ?lookup_insert_ne by done.
    + split; [|done]. intros _. by eexists.
    + split; [intros [= ?]; done|]. intros (d' & Ep' & Ed'). destruct (Ha p'). apply Ht. by exists d'.
    + split; [|intros (d' & [= <-] & [= ?]); done]. intros Ea. apply Ht in Ea as (d' & Ep' & Ed').
      rewrite (Hp d' Ep') in Ed'. done.
    + apply Ht.
  - intros p' d'. destruct (decide (p = p')) as [<-|Hnp]; rewrite ?lookup_insert_eq, ?lookup_insert_ne by done.
    + by intros [= <-].
    + apply Hs.
Qed.

Lemma own_null ps ts a : own ps ts -> (forall p', ts !! a <> Some (Some p')) -> own ps (<[a := None]> ts).
Proof.
  intros [Ht Hs] Ha. split; [|done]. intros a' p'. rewrite <- (Ht a' p').
  destruct (decide (a = a')) as [<-|Hna]; rewrite ?lookup_insert_eq, ?lookup_insert_ne by done; [|done].
  split; [done|]. intros E. by destruct (Ha p').
Qed.

Lemma own_delete ps ts a : own ps ts -> (forall p', ts !! a <> Some (Some p')) -> own ps (delete a ts).
Proof.
  intros [Ht Hs] Ha. split; [|done]. intros a' p'. rewrite <- (Ht a' p').
  destruct (decide (a = a')) as [<-|Hna]; rewrite ?lookup_delete_eq, ?lookup_delete_ne by done; [|done].
  split; [done|]. intros E. by destruct (Ha p').
Qed.

Lemma own_release ps ts a p :
  own ps ts -> ts !! a = Some (Some p) -> own (<[p := mkProducer true true None]> ps) (<[a := None]> ts).
Proof.
  intros Ho Ea. pose proof (own_explicit _ _ _ _ Ho Ea) as Ep. destruct Ho as [Ht Hs]. split.
  - intros a' p'. destruct (decide (a = a')) as [<-|Hna], (decide (p = p')) as [<-|Hnp];
      rewrite ?lookup_insert_eq, ?lookup_insert_ne by done.
    + split; [done|]. by intros (d & [= <-] & ?).
    + split; [done|]. intros (d & Ep' & Ed). assert (ts !! a = Some (Some p')) as E by (apply Ht; by exists d). congruence.
    + split; [|by intros (d & [= <-] & ?)]. intros Ea'. apply Ht in Ea' as (d & Ep' & Ed). rewrite Ep in Ep'. by simplify_eq/=.
    + apply Ht.
  - intros p' d'. destruct (decide (p = p')) as [<-|Hnp]; rewrite ?lookup_insert_eq, ?lookup_insert_ne by done.
    + by intros [= <-].
    + apply Hs.
Qed.

Lemma own_implicit ps ts p : own ps ts -> ps !! p = None -> own (<[p := mkProducer false false None]> ps) ts.
Proof.
  intros [Ht Hs] Ep. split.
  - intros a p'. rewrite (Ht a p'). destruct (decide (p = p')) as [<-|Hnp]; rewrite ?lookup_insert_eq, ?lookup_insert_ne by done; [|done].
    rewrite Ep. split; [by intros (? & ? & _)|by intros (d & [= <-] & ?)].
  - intros p' d'. destruct (decide (p = p')) as [<-|Hnp]; rewrite ?lookup_insert_eq, ?lookup_insert_ne by done.
    + by intros [= <-].
    + apply Hs.
Qed.

(** The producers afterwards, when the token at [a] has lost or got one. *)
Definition clear (o : option nat) (ps : gmap nat producer) : gmap nat producer :=
  match o with Some p => <[p := mkProducer true true None]> ps | None => ps end.
Definition assign (o : option nat) (a : nat) (ps : gmap nat producer) : gmap nat producer :=
  match o with Some p => <[p := mkProducer true false (Some a)]> ps | None => ps end.

Lemma own_clear ps ts a o : own ps ts -> ts !! a = Some o -> own (clear o ps) (<[a := None]> ts).
Proof. intros Ho Ea. destruct o as [p|]; [by apply own_release|]. apply own_null; [done|]. by rewrite Ea. Qed.

Lemma own_assign ps ts a o :
  own ps ts -> (forall p', ts !! a <> Some (Some p')) -> (forall p d, o = Some p -> ps !! p = Some d -> token d = None) ->
  own (assign o a ps) (<[a := o]> ts).
Proof.
  intros Ho Ha Hp. destruct o as [p|]; [|by apply own_null]. apply own_claim; [done|done|]. intros d. by apply (Hp p d).
Qed.

Lemma clear_free o p d ps : o = Some p -> clear o ps !! p = Some d -> token d = None.
Proof. intros -> E. cbn in E. rewrite lookup_insert_eq in E. by injection E as <-. Qed.

Lemma own_swap ps ts a b o o' :
  own ps ts -> ts !! a = Some o -> ts !! b = Some o' -> a <> b ->
  own (assign o b (assign o' a ps)) (<[b := o]> (<[a := o']> ts)).
Proof.
  intros Ho Ea Eb Hne.
  assert (forall p p', o = Some p -> o' = Some p' -> p <> p') as Hdiff.
  { intros p p' -> -> <-. pose proof (own_explicit _ _ _ _ Ho Ea) as E. rewrite (own_explicit _ _ _ _ Ho Eb) in E. congruence. }
  pose proof (own_clear _ _ _ _ Ho Ea) as H1.
  assert (<[a := None]> ts !! b = Some o') as Eb' by (by rewrite lookup_insert_ne).
  pose proof (own_clear _ _ _ _ H1 Eb') as H2.
  assert (own (assign o' a (clear o' (clear o ps))) (<[a := o']> (<[b := None]> (<[a := None]> ts)))) as H3.
  { apply own_assign; [done| |].
    - intros p'. by rewrite lookup_insert_ne, lookup_insert_eq.
    - intros p d Eo. by apply clear_free. }
  assert (own (assign o b (assign o' a (clear o' (clear o ps)))) (<[b := o]> (<[a := o']> (<[b := None]> (<[a := None]> ts))))) as H4.
  { apply own_assign; [done| |].
    - intros p'. by rewrite lookup_insert_ne, lookup_insert_eq by done.
    - intros p d -> E. destruct o' as [p'|]; cbn in E; [|by apply (clear_free (Some p) p d ps)].
      assert (p <> p') as Hpp by (by apply Hdiff). rewrite !lookup_insert_ne in E by done. by apply (clear_free (Some p) p d ps). }
  replace (<[b := o]> (<[a := o']> ts)) with (<[b := o]> (<[a := o']> (<[b := None]> (<[a := None]> ts)))).
  2:{ rewrite (insert_insert_ne _ a b) by done. by rewrite !insert_insert_eq. }
  replace (assign o b (assign o' a ps)) with (assign o b (assign o' a (clear o' (clear o ps)))); [done|].
  destruct o as [p|], o' as [p'|]; cbn; rewrite ?insert_insert_eq; try done.
  assert (p <> p') as Hpp by (by apply Hdiff). rewrite (insert_insert_ne ps p' p) by done.
  by rewrite insert_insert_eq.
Qed.

(** What a queue with the sub-queues [cs] satisfies between calls. *)
Context `{!SubQueuesLaws S T}.
Record inv (q : t) (cs : gmap nat (list T)) : Prop := mkInv {
  inv_nodup : NoDup (producerList q);
  inv_count : producerCount q = u32 (Z.of_nat (length (producerList q)));
  inv_producers : forall p, p ∈ producerList q <-> is_Some (producers q !! p);
  inv_contents : forall p, p ∈ producerList q <-> is_Some (cs !! p);
  inv_own : own (producers q) (tokens q);
  inv_subs : sub_holds (subs q) cs
}.

Lemma construct_inv_empty s : sub_holds s ∅ -> inv (construct s) ∅.
Proof.
  intros Hs. split; cbn; try done.
  - apply NoDup_nil_2.
  - intros p. rewrite lookup_empty. split; [by intros ?%elem_of_nil|by intros [? ?]].
  - intros p. rewrite lookup_empty. split; [by intros ?%elem_of_nil|by intros [? ?]].
  - split; [|done]. intros a p. rewrite lookup_empty. split; [done|]. by intros (d & Ed & _).
Qed.

(** ** The list *)

Lemma on_producer_some p f q d :
  producers q !! p = Some d -> on_producer p f q = Some (tt, set_producers (<[p := f d]> (producers q)) q).
Proof. intros E. unfold on_producer. cbv [mbind M_bind gets the mret M_ret]. by rewrite E. Qed.

Lemma sub_some {A} (m : M S A) q a s : m (subs q) = Some (a, s) -> sub m q = Some (a, set_subs s q).
Proof. intros E. unfold sub. by rewrite E. Qed.

Lemma find_inactive_spec e ps l :
  match find_inactive e ps l with
  | Some p => p ∈ l /\ exists d, ps !! p = Some d /\ inactive d = true /\ isExplicit d = e
  | None => forall p d, p ∈ l -> ps !! p = Some d -> isExplicit d = e -> inactive d = false
  end.
Proof.
  induction l as [|p l IH]; cbn [find_inactive]; [by intros p d ?%elem_of_nil|].
  destruct (ps !! p) as [d|] eqn:Ep.
  - destruct (inactive d && eqb (isExplicit d) e) eqn:E.
    + apply andb_true_iff in E as [Ei Ee%eqb_prop]. split; [left|by exists d].
    + destruct (find_inactive e ps l); [destruct IH as [? ?]; split; [by right|done]|].
      intros p' d' [->|Hin]%elem_of_cons Ep' Ee; [|by apply (IH p' d')].
      rewrite Ep in Ep'. injection Ep' as <-. subst e. rewrite eqb_reflx in E. by destruct (inactive d).
  - destruct (find_inactive e ps l); [destruct IH as [? ?]; split; [by right|done]|].
    intros p' d' [->|Hin]%elem_of_cons Ep' Ee; [congruence|by apply (IH p' d')].
Qed.

(** What is used again is an explicit producer that no token has; otherwise a
    producer is created, or there is no memory. *)
Lemma recycle_or_create_spec e q cs :
  inv q cs ->
  (exists p, recycle_or_create_producer e q =
      Some (Some (p, true), set_producers (<[p := mkProducer true false None]> (producers q)) q) /\
    e = true /\ producers q !! p = Some (mkProducer true true None)) \/
  (exists s', recycle_or_create_producer e q = Some (None, set_subs s' q) /\ sub_holds s' cs) \/
  (exists p s', recycle_or_create_producer e q = Some (Some (p, false),
      mk (p :: producerList q) (u32 (producerCount q + 1)) (<[p := mkProducer e false None]> (producers q)) (tokens q) s') /\
    producers q !! p = None /\ cs !! p = None /\ sub_holds s' (<[p := []]> cs)).
Proof.
  intros Hi. pose proof (find_inactive_spec e (producers q) (producerList q)) as Hf.
  unfold recycle_or_create_producer. rewrite (bind_some _ _ _ (producerList q) q), (bind_some _ _ _ (producers q) q) by done.
  destruct (find_inactive e (producers q) (producerList q)) as [p|].
  - left. destruct Hf as (Hin & [e' i k] & Ep & Hina & He). cbn in Hina, He. subst i e'. exists p.
    pose proof (own_status _ _ (inv_own _ _ Hi) p _ Ep) as Hs. cbn in Hs.
    destruct e; [|by destruct Hs]. symmetry in Hs. apply bool_decide_eq_true in Hs. subst k.
    by rewrite (bind_some _ _ _ _ _ (on_producer_some p _ q _ Ep)).
  - right. destruct (law_create e (subs q) cs (inv_subs _ _ Hi)) as (r & s' & Ec & Hr).
    rewrite (bind_some _ _ _ _ _ (sub_some _ q _ _ Ec)). destruct r as [p|]; [right|left; by exists s'].
    destruct Hr as [Hfresh Hs]. exists p, s'. split; [done|]. split; [|split; [exact Hfresh|exact Hs]].
    destruct (producers q !! p) eqn:Ep; [|done].
    assert (is_Some (cs !! p)) as [? E] by (apply (inv_contents _ _ Hi), (inv_producers _ _ Hi); by rewrite Ep). congruence.
Qed.

Lemma elem_insert {A} (m : gmap nat A) l p x :
  (forall r, r ∈ l <-> is_Some (m !! r)) -> forall r, r ∈ p :: l <-> is_Some (<[p := x]> m !! r).
Proof.
  intros Hm r. rewrite elem_of_cons, Hm. destruct (decide (p = r)) as [<-|Hne].
  - rewrite lookup_insert_eq. split; [by eexists|by left].
  - rewrite lookup_insert_ne by done. split; [intros [->|?]; done|by right].
Qed.

Lemma elem_update {A} (m : gmap nat A) (l : list nat) p x :
  (forall r, r ∈ l <-> is_Some (m !! r)) -> is_Some (m !! p) -> forall r, r ∈ l <-> is_Some (<[p := x]> m !! r).
Proof.
  intros Hm Hp r. rewrite Hm. destruct (decide (p = r)) as [<-|Hne].
  - rewrite lookup_insert_eq. split; [by eexists|done].
  - by rewrite lookup_insert_ne.
Qed.

(** A change of who has which producer. *)
Lemma inv_change q q' cs :
  inv q cs -> producerList q' = producerList q -> producerCount q' = producerCount q -> subs q' = subs q ->
  (forall r, is_Some (producers q' !! r) <-> is_Some (producers q !! r)) -> own (producers q') (tokens q') -> inv q' cs.
Proof.
  intros [Hnd Hc Hp Hcs Ho Hs] El Ec Es Hps Ho'. split; rewrite ?El, ?Ec, ?Es; try done. intros r. by rewrite Hps, Hp.
Qed.

Lemma is_Some_insert {A} (m : gmap nat A) p x :
  is_Some (m !! p) -> forall r, is_Some (<[p := x]> m !! r) <-> is_Some (m !! r).
Proof.
  intros Hp r. destruct (decide (p = r)) as [<-|Hne]; [rewrite lookup_insert_eq|by rewrite lookup_insert_ne].
  split; [done|by eexists].
Qed.

(** ** The operations on tokens *)

Lemma token_producer_some a q o : tokens q !! a = Some o -> token_producer a q = Some (o, q).
Proof. intros E. unfold token_producer. cbv [mbind M_bind gets the mret M_ret]. by rewrite E. Qed.

Lemma own_fresh (ts : gmap nat (option nat)) a : ts !! a = None -> forall p, ts !! a <> Some (Some p).
Proof. by intros ->. Qed.

Lemma insert_explicit (ps : gmap nat producer) p i a r d :
  <[p := mkProducer true i a]> ps !! r = Some d -> isExplicit d = true \/ ps !! r = Some d.
Proof.
  destruct (decide (p = r)) as [<-|]; [rewrite lookup_insert_eq; intros [= <-]; by left|]. rewrite lookup_insert_ne by done. by right.
Qed.

(** A token takes over an abandoned producer, or a new one; if the list grows,
    all producers of its kind are in use. *)
Lemma construct_token_spec a q cs :
  inv q cs -> tokens q !! a = None ->
  exists q' cs' o, construct_token a q = Some (tt, q') /\ inv q' cs' /\ tokens q' = <[a := o]> (tokens q) /\
    (producerList q' = producerList q /\ cs' = cs \/
     exists p, producerList q' = p :: producerList q /\ cs !! p = None /\ cs' = <[p := []]> cs /\
       forall r d, producers q !! r = Some d -> isExplicit d = true -> is_Some (token d)) /\
    (forall r d, producers q' !! r = Some d -> isExplicit d = true \/ producers q !! r = Some d).
Proof.
  intros Hi Ha. pose proof (own_fresh _ a Ha) as Hno. unfold construct_token.
  destruct (recycle_or_create_spec true q cs Hi) as [(p & E & _ & Ep)|[(s' & E & Hs)|(p & s' & E & Ep & Ec & Hs)]];
    rewrite (bind_some _ _ _ _ _ E); cbn [fst fmap option_fmap option_map claim].
  - rewrite (bind_some _ _ _ tt (set_tokens (<[a := Some p]> (tokens q)) (set_producers (<[p := mkProducer true false None]> (producers q)) q))) by done.
    erewrite on_producer_some by (cbn; apply lookup_insert_eq). eexists; exists cs, (Some p). split; [reflexivity|].
    split; [|split; [done|split; [by left|]]].
    + apply (inv_change q); [done..| |]; cbn; rewrite insert_insert_eq; [apply is_Some_insert; by rewrite Ep|].
      apply own_claim; [apply Hi|done|]. intros d Ed. rewrite Ep in Ed. by injection Ed as <-.
    + intros r d. cbn. rewrite insert_insert_eq. apply insert_explicit.
  - eexists; exists cs, None. split; [reflexivity|]. cbn. split; [|split; [done|split; [by left|by right]]].
    destruct Hi. split; cbn; try done. by apply own_null.
  - rewrite (bind_some _ _ _ tt (mk (p :: producerList q) (u32 (producerCount q + 1)) (<[p := mkProducer true false None]> (producers q))
      (<[a := Some p]> (tokens q)) s')) by done.
    erewrite on_producer_some by (cbn; apply lookup_insert_eq). eexists; exists (<[p := []]> cs), (Some p). split; [reflexivity|].
    split; [|split; [done|]].
    + destruct Hi as [Hnd Hc Hps Hcs Ho _]. split; cbn; rewrite ?insert_insert_eq; [| | | | |exact Hs].
      * apply NoDup_cons. split; [|done]. intros Hin%Hps. rewrite Ep in Hin. by destruct Hin.
      * rewrite Hc, wrap_add_l. f_equal. lia.
      * by apply elem_insert.
      * by apply elem_insert.
      * apply own_claim; [done|done|]. by rewrite Ep.
    + split; [right; exists p; split; [done|]; split; [done|]; split; [done|]|].
      * intros r d Er Hd. pose proof (own_status _ _ (inv_own _ _ Hi) r d Er) as Hst. rewrite Hd in Hst.
        revert E. unfold recycle_or_create_producer. rewrite (bind_some _ _ _ (producerList q) q), (bind_some _ _ _ (producers q) q) by done.
        pose proof (find_inactive_spec true (producers q) (producerList q)) as Hf.
        destruct (find_inactive true (producers q) (producerList q)) as [p'|].
        -- destruct Hf as (_ & d' & Ep' & _). rewrite (bind_some _ _ _ _ _ (on_producer_some p' _ q d' Ep')). done.
        -- intros _. assert (r ∈ producerList q) as Hin by (apply (inv_producers _ _ Hi); by rewrite Er).
           rewrite (Hf r d Hin Er Hd) in Hst. symmetry in Hst. apply bool_decide_eq_false in Hst. by destruct (token d).
      * intros r d. cbn. rewrite insert_insert_eq. apply insert_explicit.
Qed.

(** Producers change hands. *)
Definition same_producers (q q' : t) : Prop :=
  producerList q' = producerList q /\
  forall r d, producers q' !! r = Some d -> isExplicit d = true \/ producers q !! r = Some d.

Lemma move_token_spec a other o q cs :
  inv q cs -> tokens q !! a = None -> tokens q !! other = Some o ->
  exists q', move_token a other q = Some (tt, q') /\ inv q' cs /\ tokens q' = <[other := None]> (<[a := o]> (tokens q)) /\
    same_producers q q'.
Proof.
  intros Hi Ha Eo. pose proof (own_fresh _ a Ha) as Hno. unfold move_token.
  rewrite (bind_some _ _ _ _ _ (token_producer_some _ _ _ Eo)).
  rewrite (bind_some _ _ _ tt (set_tokens (<[a := o]> (tokens q)) q)) by done.
  rewrite (bind_some _ _ _ tt (set_tokens (<[other := None]> (<[a := o]> (tokens q))) q)) by done.
  assert (a <> other) as Hne by (intros ->; congruence). destruct o as [p|]; cbn [claim].
  - pose proof (own_explicit _ _ _ _ (inv_own _ _ Hi) Eo) as Ep.
    erewrite on_producer_some by exact Ep. eexists. split; [reflexivity|]. split; [|split; [done|split; [done|]]].
    + apply (inv_change q); [done..|apply is_Some_insert; by rewrite Ep|]. cbn.
      rewrite insert_insert_ne by done. rewrite <- (insert_insert_eq (producers q) p _ (mkProducer true true None)).
      apply own_claim; [by apply own_release, Eo; apply Hi| |].
      * intros p'. by rewrite lookup_insert_ne, Ha by done.
      * rewrite lookup_insert_eq. by intros d [= <-].
    + intros r d. apply insert_explicit.
  - eexists. split; [reflexivity|]. split; [|split; [done|split; [done|by right]]].
    apply (inv_change q); [done..|]. cbn. rewrite insert_insert_ne by done.
    apply own_null; [apply own_null; [apply Hi|by rewrite Eo]|]. intros p'. by rewrite lookup_insert_ne, Ha by done.
Qed.

Lemma assign_domain o a b q cs :
  inv q cs -> tokens q !! b = Some o -> forall r, is_Some (assign o a (producers q) !! r) <-> is_Some (producers q !! r).
Proof.
  intros Hi Eb r. destruct o as [p|]; [|done]. apply is_Some_insert.
  by rewrite (own_explicit _ _ _ _ (inv_own _ _ Hi) Eb).
Qed.

Lemma assign_explicit o a (ps : gmap nat producer) r d : assign o a ps !! r = Some d -> isExplicit d = true \/ ps !! r = Some d.
Proof. destruct o; [apply insert_explicit|by right]. Qed.

Lemma swap_tokens_spec a b o o' q cs :
  inv q cs -> tokens q !! a = Some o -> tokens q !! b = Some o' ->
  exists q', swap_tokens a b q = Some (tt, q') /\ inv q' cs /\ tokens q' = <[b := o]> (<[a := o']> (tokens q)) /\
    same_producers q q'.
Proof.
  intros Hi Ea Eb. unfold swap_tokens.
  rewrite (bind_some _ _ _ _ _ (token_producer_some _ _ _ Ea)), (bind_some _ _ _ _ _ (token_producer_some _ _ _ Eb)).
  set (ts := <[b := o]> (<[a := o']> (tokens q))).
  rewrite (bind_some _ _ _ tt (set_tokens (<[a := o']> (tokens q)) q)), (bind_some _ _ _ tt (set_tokens ts q)) by done.
  assert (tokens (set_tokens ts q) !! a = Some o' /\ ts !! b = Some o) as [Ea' Eb'].
  { cbn. unfold ts. rewrite lookup_insert_eq. split; [|done]. destruct (decide (a = b)) as [<-|Hne].
    - rewrite lookup_insert_eq. congruence.
    - by rewrite lookup_insert_ne, lookup_insert_eq. }
  rewrite (bind_some _ _ _ _ _ (token_producer_some _ _ _ Ea')).
  assert (claim o' a (set_tokens ts q) = Some (tt, set_producers (assign o' a (producers q)) (set_tokens ts q))) as Ec.
  { destruct o' as [p'|]; [|by destruct q]. cbn [claim].
    by erewrite on_producer_some by (cbn; by eapply own_explicit; [apply Hi|exact Eb]). }
  rewrite (bind_some _ _ _ _ _ Ec). rewrite (bind_some _ _ _ o (set_producers (assign o' a (producers q)) (set_tokens ts q)))
    by (by apply token_producer_some).
  assert (is_Some (match o with Some p => assign o' a (producers q) !! p | None => Some (mkProducer true true None) end)) as Hp.
  { destruct o as [p|]; [|by eexists]. apply (assign_domain o' a b q cs Hi Eb).
    by rewrite (own_explicit _ _ _ _ (inv_own _ _ Hi) Ea). }
  assert (exists d : producer, claim o b (set_producers (assign o' a (producers q)) (set_tokens ts q)) =
    Some (tt, set_producers (match o with Some p => <[p := set_token (Some b) d]> (assign o' a (producers q)) | None => assign o' a (producers q) end)
      (set_tokens ts q)) /\ match o with Some p => assign o' a (producers q) !! p = Some d | None => True end) as (d & E & Ed).
  { destruct Hp as [d Ed]. exists d. destruct o as [p|]; [|done]. cbn [claim]. by erewrite on_producer_some by exact Ed. }
  rewrite E. eexists. split; [reflexivity|].
  assert (match o with Some p => <[p := set_token (Some b) d]> (assign o' a (producers q)) | None => assign o' a (producers q) end =
    assign o b (assign o' a (producers q))) as ->.
  { destruct o as [p|]; [|done]. cbn. f_equal. pose proof (own_explicit _ _ _ _ (inv_own _ _ Hi) Ea) as Ep.
    destruct o' as [p'|]; cbn in Ed; [|rewrite Ep in Ed; by injection Ed as <-].
    destruct (decide (p' = p)) as [->|Hne]; [rewrite lookup_insert_eq in Ed; by injection Ed as <-|].
    rewrite lookup_insert_ne, Ep in Ed by done. by injection Ed as <-. }
  split; [|split; [done|split; [done|]]].
  - apply (inv_change q); [done..| |]; cbn.
    + intros r. rewrite <- (assign_domain o' a b q cs Hi Eb r). destruct o as [p|]; [|done]. by apply is_Some_insert.
    + destruct (decide (a = b)) as [<-|Hne]; [|by apply own_swap; [apply Hi|..]].
      assert (o' = o) as -> by congruence. unfold ts. rewrite insert_insert_eq, (insert_id (tokens q) a o) by done.
      destruct o as [p|]; [|apply Hi]. cbn. rewrite insert_insert_eq, insert_id; [apply Hi|].
      by apply (own_explicit _ _ _ _ (inv_own _ _ Hi)).
  - intros r d' Er. cbn in Er. apply assign_explicit in Er as [?|Er]; [by left|by apply assign_explicit in Er].
Qed.

Lemma destroy_token_spec a o q cs :
  inv q cs -> tokens q !! a = Some o ->
  exists q', destroy_token a q = Some (tt, q') /\ inv q' cs /\ tokens q' = delete a (tokens q) /\ same_producers q q' /\
    forall p, o = Some p -> producers q' !! p = Some (mkProducer true true None).
Proof.
  intros Hi Ea. unfold destroy_token. rewrite (bind_some _ _ _ _ _ (token_producer_some _ _ _ Ea)). destruct o as [p|].
  - pose proof (own_explicit _ _ _ _ (inv_own _ _ Hi) Ea) as Ep.
    rewrite (bind_some _ _ _ _ _ (on_producer_some p _ q _ Ep)). eexists. split; [reflexivity|].
    split; [|split; [done|split; [split; [done|]|]]].
    + apply (inv_change q); [done..|apply is_Some_insert; by rewrite Ep|]. cbn.
      rewrite <- (delete_insert_eq (tokens q) a None). apply own_delete; [by apply own_release, Ea; apply Hi|].
      intros p'. by rewrite lookup_insert_eq.
    + intros r d. apply insert_explicit.
    + intros p' [= <-]. apply lookup_insert_eq.
  - rewrite (bind_some _ _ _ tt q) by done. eexists. split; [reflexivity|].
    split; [|split; [done|split; [split; [done|by right]|done]]].
    apply (inv_change q); [done..|]. cbn. apply own_delete; [apply Hi|by rewrite Ea].
Qed.

(** ** Programs over tokens *)

Inductive token_op := Construct (a : nat) | Move (a other : nat) | Swap (a other : nat) | Destroy (a : nat).

Definition exec (o : token_op) : M t unit :=
  match o with
  | Construct a => construct_token a
  | Move a other => move_token a other
  | Swap a other => swap_tokens a other
  | Destroy a => destroy_token a
  end.
Fixpoint run (ops : list token_op) : M t unit :=
  match ops with [] => mret tt | o :: ops => exec o;; run ops end.

(** The tokens that exist after an operation; none if the operation uses one
    that does not exist or makes one where there is one. *)
Definition alive (o : token_op) (live : gset nat) : option (gset nat) :=
  match o with
  | Construct a => if decide (a ∈ live) then None else Some ({[a]} ∪ live)
  | Move a other => if decide (a ∈ live) then None else if decide (other ∈ live) then Some ({[a]} ∪ live) else None
  | Swap a other => if decide (a ∈ live /\ other ∈ live) then Some live else None
  | Destroy a => if decide (a ∈ live) then Some (live ∖ {[a]}) else None
  end.
(** The most tokens at one time; [None] for a program that is not legal. *)
Fixpoint peak (ops : list token_op) (live : gset nat) : option nat :=
  match ops with
  | [] => Some (size live)
  | o :: ops =>
      match alive o live with
      | Some live' => match peak ops live' with Some n => Some (max (size live) n) | None => None end
      | None => None
      end
  end.

Definition explicit_only (q : t) : Prop := forall p d, producers q !! p = Some d -> isExplicit d = true.

(** Producers with an owner are not more than tokens. *)
Lemma owned_le q cs :
  inv q cs -> (forall p d, producers q !! p = Some d -> is_Some (token d)) ->
  (length (producerList q) <= size (dom (tokens q)))%nat.
Proof.
  intros Hi Hown.
  set (f := fun p => match producers q !! p with Some d => default O (token d) | None => O end).
  assert (forall p, p ∈ producerList q -> tokens q !! f p = Some (Some p)) as Hf.
  { intros p [d Ep]%(inv_producers _ _ Hi). apply (own_token _ _ (inv_own _ _ Hi)). exists d. split; [done|].
    unfold f. rewrite Ep. by destruct (Hown p d Ep) as [a ->]. }
  rewrite <- (length_fmap f), <- (size_list_to_set (C := gset nat) (f <$> producerList q)).
  - apply subseteq_size. intros a Ha. apply elem_of_list_to_set, list_elem_of_fmap in Ha as (p & -> & Hp).
    apply elem_of_dom. by rewrite Hf.
  - apply NoDup_fmap_2_strong; [|apply Hi]. intros p p' Hp Hp' E. apply Hf in Hp, Hp'. congruence.
Qed.

Lemma exec_spec o q cs live live' :
  inv q cs -> explicit_only q -> dom (tokens q) = live -> alive o live = Some live' ->
  exists q' cs', exec o q = Some (tt, q') /\ inv q' cs' /\ explicit_only q' /\ dom (tokens q') = live' /\
    (length (producerList q') <= max (length (producerList q)) (size live'))%nat.
Proof.
  intros Hi He Hdom Ha.
  assert (forall a, (a ∈ live) -> exists x, tokens q !! a = Some x) as Hlive by (intros a Hin; rewrite <- Hdom in Hin; by apply elem_of_dom).
  assert (forall a, a ∉ live -> tokens q !! a = None) as Hdead by (intros a Hin; rewrite <- Hdom in Hin; by apply not_elem_of_dom).
  assert (forall q', same_producers q q' -> explicit_only q' /\ producerList q' = producerList q) as Hsame.
  { intros q' [El Hp]. split; [|done]. intros p d Ep. destruct (Hp p d Ep) as [|E]; [done|by apply (He p)]. }
  destruct o as [a|a other|a other|a]; cbn [alive exec] in *.
  - case_decide as Hin; [done|]. injection Ha as <-.
    destruct (construct_token_spec a q cs Hi (Hdead a Hin)) as (q' & cs' & x & E & Hi' & Et & Hl & Hp). exists q', cs'.
    assert (dom (tokens q') = {[a]} ∪ live) as Hdom' by (by rewrite Et, dom_insert_L, Hdom).
    split; [done|]. split; [done|]. split; [|split; [done|]].
    + intros p d Ep. destruct (Hp p d Ep) as [|E']; [done|by apply (He p)].
    + destruct Hl as [[-> _]|(p & -> & _ & _ & Hown)]; [lia|]. cbn [length].
      pose proof (owned_le q cs Hi (fun r d Er => Hown r d Er (He r d Er))) as Hle. rewrite Hdom in Hle.
      rewrite size_union, size_singleton by set_solver. lia.
  - case_decide as Hin; [done|]. case_decide as Hin'; [|done]. injection Ha as <-. destruct (Hlive other Hin') as [x Ex].
    destruct (move_token_spec a other x q cs Hi (Hdead a Hin) Ex) as (q' & E & Hi' & Et & Hs). destruct (Hsame q' Hs) as [He' El].
    exists q', cs. split; [done|]. split; [done|]. split; [done|]. split; [|rewrite El; lia].
    rewrite Et, !dom_insert_L, Hdom. set_solver.
  - case_decide as Hin; [|done]. injection Ha as <-. destruct Hin as [Hin Hin'].
    destruct (Hlive a Hin) as [x Ex], (Hlive other Hin') as [x' Ex'].
    destruct (swap_tokens_spec a other x x' q cs Hi Ex Ex') as (q' & E & Hi' & Et & Hs). destruct (Hsame q' Hs) as [He' El].
    exists q', cs. split; [done|]. split; [done|]. split; [done|]. split; [|rewrite El; lia].
    rewrite Et, !dom_insert_L, Hdom. set_solver.
  - case_decide as Hin; [|done]. injection Ha as <-. destruct (Hlive a Hin) as [x Ex].
    destruct (destroy_token_spec a x q cs Hi Ex) as (q' & E & Hi' & Et & Hs & _). destruct (Hsame q' Hs) as [He' El].
    exists q', cs. split; [done|]. split; [done|]. split; [done|]. split; [|rewrite El; lia].
    by rewrite Et, dom_delete_L, Hdom.
Qed.

Lemma run_spec ops q cs live n :
  inv q cs -> explicit_only q -> dom (tokens q) = live -> peak ops live = Some n ->
  exists q' cs', run ops q = Some (tt, q') /\ inv q' cs' /\ explicit_only q' /\
    (length (producerList q') <= max (length (producerList q)) n)%nat.
Proof.
  revert q cs live n. induction ops as [|o ops IH]; intros q cs live n Hi He Hdom Hpeak; cbn [peak run] in *.
  - exists q, cs. split; [done|]. split; [done|]. split; [done|lia].
  - destruct (alive o live) as [live'|] eqn:Ea; [|done]. destruct (peak ops live') as [n'|] eqn:Ep; [|done].
    injection Hpeak as <-.
    destruct (exec_spec o q cs live live' Hi He Hdom Ea) as (q1 & cs1 & E & Hi1 & He1 & Hdom1 & Hl1).
    destruct (IH q1 cs1 live' n' Hi1 He1 Hdom1 Ep) as (q2 & cs2 & E2 & Hi2 & He2 & Hl2).
    exists q2, cs2. rewrite (bind_some _ _ _ _ _ E). split; [done|]. split; [done|]. split; [done|].
    assert (size live' <= n')%nat; [|lia]. destruct ops as [|o' ops]; cbn [peak] in Ep; [by injection Ep as <-|].
    destruct (alive o' live'); [|done]. destruct (peak ops g); [|done]. injection Ep as <-. lia.
Qed.

(** Tokens and producers belong together: in every legal program over tokens no two tokens have the same producer,
    the producer of a token is in use and knows its token, and a producer that no token has is free to be taken
    over; so there are never more producers than there have been tokens at one time. *)
Theorem tokens_own_producers s ops n :
  sub_holds s ∅ -> peak ops ∅ = Some n ->
  exists q, run ops (construct s) = Some (tt, q) /\ (length (producerList q) <= n)%nat /\
    (forall a a' p, tokens q !! a = Some (Some p) -> tokens q !! a' = Some (Some p) -> a = a') /\
    (forall a p, tokens q !! a = Some (Some p) -> p ∈ producerList q /\ producers q !! p = Some (mkProducer true false (Some a))) /\
    (forall p d, producers q !! p = Some d -> inactive d = true <-> forall a, tokens q !! a <> Some (Some p)).
Proof.
  intros Hs Hpeak.
  destruct (run_spec ops (construct s) ∅ ∅ n) as (q & cs & E & Hi & He & Hl); [by apply construct_inv_empty| |done|done|].
  { by intros p d. }
  exists q. split; [done|]. split; [cbn in Hl; lia|]. pose proof (inv_own _ _ Hi) as Ho. split; [|split].
  - intros a a' p Ea Ea'. pose proof (own_explicit _ _ _ _ Ho Ea) as Ep. rewrite (own_explicit _ _ _ _ Ho Ea') in Ep. by injection Ep.
  - intros a p Ea. pose proof (own_explicit _ _ _ _ Ho Ea) as Ep. split; [|done]. apply (inv_producers _ _ Hi). by rewrite Ep.
  - intros p d Ep. pose proof (own_status _ _ Ho p d Ep) as Hst. rewrite (He p d Ep) in Hst. rewrite Hst, bool_decide_eq_true. split.
    + intros Hn a Ea. apply (own_token _ _ Ho) in Ea as (d' & Ep' & Ed'). congruence.
    + intros Hno. destruct (token d) as [a|] eqn:Ed; [|done]. destruct (Hno a). apply (own_token _ _ Ho). by exists d.
Qed.
End Producers.
Arguments t : clear implicits.

(** ** Sub-queues that are lists *)

Section Lists.
Context {T : Type}.

(** The next address, and the lists by address. *)
Definition lists : Type := nat * gmap nat (list T).
Definition with_list {A} (p : nat) (f : list T -> A * list T) : M lists A := fun '(n, cs) =>
  match cs !! p with Some xs => let (a, xs') := f xs in Some (a, (n, <[p := xs']> cs)) | None => None end.

#[export] Instance list_queues : SubQueues lists T := {|
  sub_create := fun _ '(n, cs) => Some (Some n, (S n, <[n := []]> cs));
  sub_size := fun p s => match s.2 !! p with Some xs => Z.of_nat (length xs) | None => 0 end;
  sub_enqueue := fun p _ x => with_list p (fun xs => (true, xs ++ [x]));
  sub_enqueue_bulk := fun p _ ys => with_list p (fun xs => (true, xs ++ ys));
  sub_dequeue := fun p => with_list p (fun xs => (head xs, tail xs));
  sub_dequeue_bulk := fun p max => with_list p (fun xs => (take (Z.to_nat max) xs, drop (Z.to_nat max) xs));
  sub_destroy := fun p '(n, cs) => match cs !! p with Some xs => Some (xs, (n, delete p cs)) | None => None end;
  sub_malloc := fun s => Some (true, s)
|}.

Lemma with_list_some {A} p (f : list T -> A * list T) n cs xs :
  cs !! p = Some xs -> with_list p f (n, cs) = Some ((f xs).1, (n, <[p := (f xs).2]> cs)).
Proof. intros E. unfold with_list. rewrite E. by destruct (f xs). Qed.

Lemma below_insert n (cs : gmap nat (list T)) p xs :
  (forall r, is_Some (cs !! r) -> (r < n)%nat) -> is_Some (cs !! p) -> forall r, is_Some (<[p := xs]> cs !! r) -> (r < n)%nat.
Proof. intros Hn Hp r Hr. apply Hn. destruct (decide (p = r)) as [<-|Hne]; [done|]. by rewrite lookup_insert_ne in Hr. Qed.

#[export] Program Instance list_queues_laws : SubQueuesLaws lists T := {|
  sub_holds := fun s cs => s.2 = cs /\ forall p, is_Some (cs !! p) -> (p < s.1)%nat
|}.
Next Obligation.
  intros e [n cs0] cs [E Hn]. cbn in E, Hn. subst cs0. exists (Some n), (S n, <[n := []]> cs). split; [done|]. split.
  - destruct (cs !! n) eqn:En; [|done]. specialize (Hn n ltac:(by rewrite En)). lia.
  - split; [done|]. cbn. intros p Hp. destruct (decide (n = p)) as [<-|Hne]; [lia|].
    rewrite lookup_insert_ne in Hp by done. specialize (Hn p Hp). lia.
Qed.
Next Obligation. intros p [n cs0] cs xs [E _] Exs. cbn in E. subst cs0. cbn. by rewrite Exs. Qed.
Next Obligation.
  intros p mode x [n cs0] cs xs [E Hn] Exs. cbn in E, Hn. subst cs0. cbn -[with_list]. rewrite (with_list_some p _ n cs xs Exs).
  do 2 eexists. split; [reflexivity|]. split; [done|]. cbn. by apply below_insert.
Qed.
Next Obligation.
  intros p mode ys [n cs0] cs xs [E Hn] Exs _. cbn in E, Hn. subst cs0. cbn -[with_list]. rewrite (with_list_some p _ n cs xs Exs).
  do 2 eexists. split; [reflexivity|]. split; [done|]. cbn. by apply below_insert.
Qed.
Next Obligation.
  intros p [n cs0] cs xs [E Hn] Exs. cbn in E, Hn. subst cs0. cbn -[with_list]. rewrite (with_list_some p _ n cs xs Exs).
  eexists. split; [reflexivity|]. split; [done|]. cbn. by apply below_insert.
Qed.
Next Obligation.
  intros p max [n cs0] cs xs [E Hn] Exs Hmax. cbn in E, Hn. subst cs0. cbn -[with_list]. rewrite (with_list_some p _ n cs xs Exs).
  eexists. split; [reflexivity|]. split; [done|]. cbn. by apply below_insert.
Qed.
Next Obligation.
  intros p [n cs0] cs xs [E Hn] Exs. cbn in E, Hn. subst cs0. cbn. rewrite Exs.
  eexists. split; [reflexivity|]. split; [done|]. cbn. intros r [x Hr]. apply Hn.
  destruct (decide (p = r)) as [<-|Hne]; [by rewrite lookup_delete_eq in Hr|]. rewrite lookup_delete_ne in Hr by done. by exists x.
Qed.
Next Obligation. intros s cs Hs. by exists true, s. Qed.

Lemma no_lists : sub_holds ((O, ∅) : lists) (∅ : gmap nat (list T)).
Proof. split; [done|]. intros p. rewrite lookup_empty. by intros [? ?]. Qed.
End Lists.
Arguments lists : clear implicits.

(** ** An example *)

Definition exchange : list token_op :=
  [Construct 1; Construct 2; Swap 1 2; Destroy 1; Construct 3; Move 4 3; Destroy 2; Construct 5]%nat.

Lemma tokens_own_producers_witness :
  (exists q, run (S := lists nat) exchange (construct (O, ∅)) = Some (tt, q) /\ (length (producerList q) <= 3)%nat /\
    (forall a a' p, tokens q !! a = Some (Some p) -> tokens q !! a' = Some (Some p) -> a = a') /\
    (forall a p, tokens q !! a = Some (Some p) -> p ∈ producerList q /\ producers q !! p = Some (mkProducer true false (Some a))) /\
    (forall p d, producers q !! p = Some d -> inactive d = true <-> forall a, tokens q !! a <> Some (Some p))) /\
  match run (S := lists nat) exchange (construct (O, ∅)) with
  | Some (_, q) => producerList q = [1; 0]%nat /\ tokens q !! 4%nat = Some (Some 1%nat) /\ tokens q !! 5%nat = Some (Some 0%nat)
  | None => False
  end.
Proof.
  split; [|by vm_compute]. apply (tokens_own_producers (T := nat)).
  - apply no_lists.
  - by vm_compute.
Defined.
End ProducerList.
