(* ===== verification/ProducerThreads.v ===== *)
(** * Threads that take producers over (utils/concurrentqueue.h, "Producer list
      manipulation", the constructor and the destructor of [ProducerToken])

    [recycle_or_create_producer] and [add_producer], which ProducerList.v has one
    call at a time, as any number of threads run them at the same time, and the
    store by which a token gives its producer up: a step is an access to the
    list, to a producer in it or to the count. Producers are named by the number
    of their creation, whose outcome is given. *)
From S2P Require Import Prelude.
#[local] Open Scope Z_scope.

Module ProducerThreads.

(** ** Data *)

Record ProducerBase := mkProducer { isExplicit : bool; inactive : bool; next : option nat }.
Definition set_inactive b p := mkProducer (isExplicit p) b (next p).
Definition set_next n p := mkProducer (isExplicit p) (inactive p) n.

Record shared := mkShared {
  producers : gmap nat ProducerBase;
  producerListTail : option nat;
  producerCount : Z;
  created : nat                    (* the calls of [create] *)
}.

(** Where a thread is: [e] is the kind of producer it asks for. *)
Inductive pc :=
| Done (r : option (bool * nat))               (* in no call; what the last one gave *)
| LoadTail (e : bool)
| Look (e : bool) (ptr : nat)
| Catch (e : bool) (ptr : nat)
| Create (e : bool)
| Count (e : bool) (p : nat)                   (* [add_producer] *)
| ReadTail (e : bool) (p : nat)
| Link (e : bool) (p : nat) (prevTail : option nat)
| Swing (e : bool) (p : nat) (prevTail : option nat)
| Leave (p : nat).                             (* the token of [p] is destroyed *)

Section Threads.
Context (create : nat -> bool).

Definition with_producers ps s := mkShared ps (producerListTail s) (producerCount s) (created s).
Definition on_producer (p : nat) (f : ProducerBase -> ProducerBase) (s : shared) : shared :=
  with_producers (alter f p (producers s)) s.

(** The loop over the list goes on, or ends. *)
Definition look_on (e : bool) (ptr : option nat) : pc := match ptr with Some p => Look e p | None => Create e end.

(** [None] is an access through no pointer. A weak exchange can fail for no
    reason ([spurious]). *)
Definition step (spurious : bool) (c : pc) (s : shared) : option (pc * shared) :=
  match c with
  | Done _ => None
  | LoadTail e => Some (look_on e (producerListTail s), s)
  | Look e ptr =>
      d ← producers s !! ptr;
      Some (if inactive d && eqb (isExplicit d) e then Catch e ptr else look_on e (next d), s)
  | Catch e ptr =>
      d ← producers s !! ptr;
      Some (if inactive d then (Done (Some (e, ptr)), on_producer ptr (set_inactive false) s) else (look_on e (next d), s))
  | Create e =>
      let p := created s in
      Some (if create p then
              (Count e p, mkShared (<[p := mkProducer e false None]> (producers s)) (producerListTail s) (producerCount s) (S p))
            else (Done None, mkShared (producers s) (producerListTail s) (producerCount s) (S p)))
  | Count e p => Some (ReadTail e p, mkShared (producers s) (producerListTail s) (u32 (producerCount s + 1)) (created s))
  | ReadTail e p => Some (Link e p (producerListTail s), s)
  | Link e p prevTail =>
      _ ← producers s !! p;
      Some (Swing e p prevTail, on_producer p (set_next prevTail) s)
  | Swing e p prevTail =>
      Some (if bool_decide (producerListTail s = prevTail) && negb spurious then
              (Done (Some (e, p)), mkShared (producers s) (Some p) (producerCount s) (created s))
            else (Link e p (producerListTail s), s))
  | Leave p =>
      _ ← producers s !! p;
      Some (Done None, on_producer p (set_inactive true) s)
  end.

(** ** Schedules *)

(** A thread, with the producers that its tokens, or itself, have. *)
Record thread := mkThread { at_pc : pc; held : list nat }.
Record sys := mkSys { state : shared; threads : list thread }.

Inductive choice := Acquire (t : nat) (e : bool) | GiveUp (t p : nat) | Go (t : nat) (spurious : bool).

Definition idle (c : pc) : bool := match c with Done _ => true | _ => false end.
Definition held_after (c c' : pc) (l : list nat) : list nat :=
  match c, c' with
  | Leave p, _ => filter (fun p' => p' <> p) l
  | _, Done (Some (_, p)) => p :: l
  | _, _ => l
  end.

Definition turn (ch : choice) (s : sys) : option sys :=
  match ch with
  | Acquire t e =>
      Some match threads s !! t with
           | Some th => if idle (at_pc th) then mkSys (state s) (<[t := mkThread (LoadTail e) (held th)]> (threads s)) else s
           | None => s
           end
  | GiveUp t p =>
      Some match threads s !! t with
           | Some th => if idle (at_pc th) && bool_decide (p ∈ held th)
                        then mkSys (state s) (<[t := mkThread (Leave p) (held th)]> (threads s)) else s
           | None => s
           end
  | Go t spurious =>
      match threads s !! t with
      | None => Some s
      | Some th =>
          if idle (at_pc th) then Some s
          else '(c, s') ← step spurious (at_pc th) (state s);
               Some (mkSys s' (<[t := mkThread c (held_after (at_pc th) c (held th))]> (threads s)))
      end
  end.
Fixpoint turns (schedule : list choice) (s : sys) : option sys :=
  match schedule with
  | [] => Some s
  | ch :: schedule => s ← turn ch s; turns schedule s
  end.

(** A queue that has just been constructed, and [n] threads. *)
Definition begin (n : nat) : sys := mkSys (mkShared ∅ None 0 0) (replicate n (mkThread (Done None) [])).

(** ** The invariant *)

(** The list, from a producer on. *)
Fixpoint chain (ps : gmap nat ProducerBase) (ptr : option nat) (l : list nat) : Prop :=
  match l with
  | [] => ptr = None
  | p :: l => ptr = Some p /\ exists d, ps !! p = Some d /\ chain ps (next d) l
  end.

(** The producer that a thread is adding. *)
Definition building (c : pc) : option nat :=
  match c with Count _ p | ReadTail _ p | Link _ p _ | Swing _ p _ => Some p | _ => None end.
Definition counted (th : thread) : Z := match at_pc th with ReadTail _ _ | Link _ _ _ | Swing _ _ _ => 1 | _ => 0 end.
Definition owns (th : thread) (p : nat) : Prop := p ∈ held th \/ building (at_pc th) = Some p.
Definition owner (ths : list thread) (p t : nat) : Prop := exists th, ths !! t = Some th /\ owns th p.

Definition of_kind (ps : gmap nat ProducerBase) (p : nat) (e : bool) : Prop := exists d, ps !! p = Some d /\ isExplicit d = e.
Definition pc_ok (ps : gmap nat ProducerBase) (l : list nat) (th : thread) : Prop :=
  match at_pc th with
  | Look _ p => p ∈ l
  | Catch e p => p ∈ l /\ of_kind ps p e
  | Leave p => p ∈ held th
  | Count e p | ReadTail e p | Link e p _ => of_kind ps p e
  | Swing e p prevTail => exists d, ps !! p = Some d /\ isExplicit d = e /\ next d = prevTail
  | Done (Some (e, p)) => p ∈ held th /\ of_kind ps p e
  | _ => True
  end.

Record inv (s : sys) (l : list nat) : Prop := mkInv {
  inv_chain : chain (producers (state s)) (producerListTail (state s)) l;
  inv_nodup : NoDup l;
  inv_fresh : forall p, is_Some (producers (state s) !! p) -> (p < created (state s))%nat;
  inv_place : forall p, is_Some (producers (state s) !! p) <->
    p ∈ l \/ exists t th, threads s !! t = Some th /\ building (at_pc th) = Some p;
  inv_apart : forall t th p, threads s !! t = Some th -> building (at_pc th) = Some p -> p ∉ l;
  inv_held : forall t th, threads s !! t = Some th -> NoDup (held th) /\ forall p, p ∈ held th -> p ∈ l;
  inv_owner : forall p t t', owner (threads s) p t -> owner (threads s) p t' -> t = t';
  inv_active : forall p d, producers (state s) !! p = Some d -> inactive d = false <-> exists t, owner (threads s) p t;
  inv_count : producerCount (state s) = u32 (Z.of_nat (length l) + zsum counted (threads s));
  inv_pc : forall t th, threads s !! t = Some th -> pc_ok (producers (state s)) l th
}.

(** ** Lists and owners *)

Lemma chain_other ps ptr l p d : p ∉ l -> chain ps ptr l -> chain (<[p := d]> ps) ptr l.
Proof.
  revert ptr. induction l as [|p0 l IH]; intros ptr Hp; cbn; [done|]. intros (-> & d0 & E & H). apply not_elem_of_cons in Hp as [Hne Hp].
  split; [done|]. exists d0. rewrite lookup_insert_ne by done. split; [done|by apply IH].
Qed.

(** What threads see of a producer in the list but for whether it is in use. *)
Lemma chain_same ps ps' ptr l :
  (forall p d, ps !! p = Some d -> p ∈ l -> exists d', ps' !! p = Some d' /\ next d' = next d) -> chain ps ptr l -> chain ps' ptr l.
Proof.
  revert ptr. induction l as [|p0 l IH]; intros ptr Hp; cbn; [done|]. intros (-> & d0 & E & H). split; [done|].
  destruct (Hp p0 d0 E ltac:(left)) as (d' & E' & En). exists d'. split; [done|]. rewrite En. apply IH; [|done].
  intros p d Ep Hin. apply Hp; [done|by right].
Qed.

Lemma chain_next ps ptr l p d : chain ps ptr l -> p ∈ l -> ps !! p = Some d -> match next d with Some p' => p' ∈ l | None => True end.
Proof.
  revert ptr. induction l as [|p0 l IH]; intros ptr; cbn; [by intros _ ?%not_elem_of_nil|]. intros (-> & d0 & E & H) Hin Ep.
  apply elem_of_cons in Hin as [->|Hin].
  - rewrite E in Ep. injection Ep as ->. destruct l as [|p1 l]; cbn in H; [by rewrite H|]. destruct H as [-> _]. right. left.
  - specialize (IH _ H Hin Ep). destruct (next d); [by right|done].
Qed.

Lemma chain_there ps ptr l p : chain ps ptr l -> p ∈ l -> is_Some (ps !! p).
Proof.
  revert ptr. induction l as [|p0 l IH]; intros ptr; cbn; [by intros _ ?%not_elem_of_nil|]. intros (-> & d0 & E & H) Hin.
  apply elem_of_cons in Hin as [->|Hin]; [by exists d0|by eapply IH].
Qed.

Lemma owner_insert ths t th th' p u : ths !! t = Some th -> owner (<[t := th']> ths) p u <-> if decide (u = t) then owns th' p else owner ths p u.
Proof.
  intros E. pose proof (lookup_lt_Some _ _ _ E). unfold owner. destruct (decide (u = t)) as [->|Hne].
  - rewrite list_lookup_insert_eq by done. split; [by intros (? & [= <-] & H')|by exists th'].
  - by rewrite list_lookup_insert_ne.
Qed.

Lemma pc_ok_stable ps ps' l l' th :
  (forall p d, ps !! p = Some d -> exists d', ps' !! p = Some d' /\ isExplicit d' = isExplicit d /\ (building (at_pc th) = Some p -> next d' = next d)) ->
  (forall p, p ∈ l -> p ∈ l') -> pc_ok ps l th -> pc_ok ps' l' th.
Proof.
  intros Hd Hl. unfold pc_ok, of_kind. destruct th as [c hs]. cbn [at_pc held] in *.
  assert (forall p e, (exists d, ps !! p = Some d /\ isExplicit d = e) -> exists d, ps' !! p = Some d /\ isExplicit d = e) as Hk.
  { intros p e (d & E & <-). destruct (Hd p d E) as (d' & E' & Ek & _). by exists d'. }
  destruct c as [[[e p]|]|e|e p|e p|e|e p|e p|e p r|e p r|p]; try done; try (by apply Hk); try (by apply Hl).
  - intros [H1 H2]. split; [done|by apply Hk].
  - intros [H1 H2]. split; [by apply Hl|by apply Hk].
  - intros (d & E & <- & <-). destruct (Hd p d E) as (d' & E' & Ek & En). exists d'. by rewrite En.
Qed.

Section Step.
Context (s : sys) (l : list nat) (I : inv s l) (t : nat) (th : thread) (E : threads s !! t = Some th).
Abbreviation ps := (producers (state s)).
Abbreviation after := (fun s' th' => mkSys s' (<[t := th']> (threads s))).

Lemma insert_cases th' u th1 : <[t := th']> (threads s) !! u = Some th1 -> (u = t /\ th1 = th') \/ (u <> t /\ threads s !! u = Some th1).
Proof.
  intros E1. pose proof (lookup_lt_Some _ _ _ E). destruct (decide (t = u)) as [<-|Hne].
  - rewrite list_lookup_insert_eq in E1 by done. injection E1 as <-. by left.
  - rewrite list_lookup_insert_ne in E1 by done. right. by split.
Qed.

(** What a thread builds is no other thread's. *)
Lemma not_built u th1 p : threads s !! u = Some th1 -> u <> t -> owns th1 p -> ~ owns th p.
Proof. intros E1 Hne H1 H. apply Hne, (inv_owner _ _ I p); [by exists th1|by exists th]. Qed.

(** A step that changes no list and no owner. *)
Lemma keep s' th' :
  (forall p d, ps !! p = Some d -> exists d', producers s' !! p = Some d' /\ isExplicit d' = isExplicit d /\ inactive d' = inactive d /\
    (building (at_pc th) <> Some p -> next d' = next d)) ->
  (forall p, is_Some (producers s' !! p) -> is_Some (ps !! p)) -> producerListTail s' = producerListTail (state s) -> (created (state s) <= created s')%nat ->
  producerCount s' = u32 (Z.of_nat (length l) + (zsum counted (threads s) - counted th + counted th')) ->
  building (at_pc th') = building (at_pc th) -> held th' = held th -> pc_ok (producers s') l th' -> inv (after s' th') l.
Proof.
  intros Hd Hback Htail Hcr Hcount Eb Eh Hpc.
  assert (forall p u, owner (<[t := th']> (threads s)) p u <-> owner (threads s) p u) as Ho.
  { intros p u. rewrite (owner_insert _ _ _ _ _ _ E). destruct (decide (u = t)) as [->|]; [|done].
    unfold owner, owns. rewrite Eb, Eh, E. split; [intros H; by exists th|by intros (? & [= <-] & H)]. }
  destruct I as [I1 I2 I3 I4 I5 I6 I7 I8 I9 I10]. split; cbn [state threads] in *.
  - rewrite Htail. eapply chain_same; [|done]. intros p d Ep Hin. destruct (Hd p d Ep) as (d' & Ep' & _ & _ & Hn). exists d'. split; [done|].
    apply Hn. intros Hb. by apply (I5 t th p).
  - done.
  - intros p Hp. apply Hback, I3 in Hp. lia.
  - intros p. assert (is_Some (producers s' !! p) <-> is_Some (ps !! p)) as ->.
    { split; [apply Hback|]. intros [d Ep]. destruct (Hd p d Ep) as (d' & -> & _). by eexists. }
    rewrite I4. apply or_iff_compat_l. split.
    + intros (u & th1 & E1 & H1). destruct (decide (u = t)) as [->|Hne].
      * rewrite E in E1. injection E1 as <-. exists t, th'. rewrite list_lookup_insert_eq by by eapply lookup_lt_Some. by rewrite Eb.
      * exists u, th1. by rewrite list_lookup_insert_ne.
    + intros (u & th1 & E1 & H1). apply insert_cases in E1 as [[-> ->]|[Hne E1]]; [exists t, th; by rewrite <- Eb|by exists u, th1].
  - intros u th1 p E1 H1. apply insert_cases in E1 as [[-> ->]|[Hne E1]]; [rewrite Eb in H1; by apply (I5 t th)|by apply (I5 u th1)].
  - intros u th1 E1. apply insert_cases in E1 as [[-> ->]|[Hne E1]]; [rewrite Eh; by apply (I6 t)|by apply (I6 u)].
  - intros p u u' H1%Ho H2%Ho. by apply (I7 p).
  - intros p d' Ep'. destruct (Hback p ltac:(by eexists)) as [d Ep]. destruct (Hd p d Ep) as (d1 & E1 & _ & Ei & _).
    rewrite Ep' in E1. injection E1 as <-. rewrite Ei, (I8 p d Ep). split; intros (u & H); exists u; by apply Ho.
  - rewrite (zsum_insert counted _ _ _ th' E). done.
  - intros u th1 E1. apply insert_cases in E1 as [[-> ->]|[Hne E1]]; [done|]. eapply pc_ok_stable; [|done|by apply (I10 u)].
    intros p d Ep. destruct (Hd p d Ep) as (d' & Ep' & Ek & _ & Hn). exists d'. split; [done|]. split; [done|]. intros Hb. apply Hn. intros Hb'.
    apply (not_built u th1 p E1 Hne); [by right|by right].
Qed.

(** The steps that leave the producers, the list and the count as they are. *)
Lemma keep_all c' s' : producers s' = ps -> producerListTail s' = producerListTail (state s) -> (created (state s) <= created s')%nat ->
  producerCount s' = producerCount (state s) -> building c' = building (at_pc th) -> counted (mkThread c' (held th)) = counted th ->
  pc_ok ps l (mkThread c' (held th)) -> inv (after s' (mkThread c' (held th))) l.
Proof.
  intros E1 E2 E3 E4 E5 E6 Hpc. apply keep; rewrite ?E1; try done.
  - intros p d Ep. by exists d.
  - rewrite E4, (inv_count _ _ I), E6. f_equal. lia.
Qed.

(** One producer is changed. *)
Lemma alter_some p f d : ps !! p = Some d -> producers (on_producer p f (state s)) = <[p := f d]> ps.
Proof.
  intros Ep. cbn. apply map_eq. intros q. destruct (decide (p = q)) as [<-|Hne]; [by rewrite lookup_alter_eq, lookup_insert_eq, Ep|].
  by rewrite lookup_alter_ne, lookup_insert_ne.
Qed.

Definition goes_on (spurious : bool) : Prop :=
  exists c' s' l', step spurious (at_pc th) (state s) = Some (c', s') /\ inv (after s' (mkThread c' (held_after (at_pc th) c' (held th)))) l'.

Lemma linked p : p ∈ l -> exists d, ps !! p = Some d.
Proof. apply (chain_there _ _ _ _ (inv_chain _ _ I)). Qed.

(** The next producer of the list, if there is one, is looked at. *)
Lemma look_on_ok e ptr : match ptr with Some p => p ∈ l | None => True end -> pc_ok ps l (mkThread (look_on e ptr) (held th)) /\
  building (look_on e ptr) = None /\ counted (mkThread (look_on e ptr) (held th)) = 0 /\ forall c, building c = None -> (forall p, c <> Leave p) -> held_after c (look_on e ptr) (held th) = held th.
Proof. intros H. destruct ptr; (split; [done|split; [done|split; [done|]]]); intros c Hb Hl; destruct c; try done; by destruct (Hl p). Qed.

Lemma go_load e spurious : at_pc th = LoadTail e -> goes_on spurious.
Proof.
  intros Ec. unfold goes_on. rewrite Ec. cbn [step]. eexists _, _, l. split; [reflexivity|].
  destruct (look_on_ok e (producerListTail (state s))) as (H1 & H2 & H3 & H4).
  { pose proof (inv_chain _ _ I) as H. destruct l; cbn in H; [by rewrite H|]. destruct H as [-> _]. left. }
  rewrite H4 by done. apply keep_all; try done; [by rewrite H2, Ec|rewrite H3; unfold counted; by rewrite Ec].
Qed.

Lemma go_look e p spurious : at_pc th = Look e p -> goes_on spurious.
Proof.
  intros Ec. pose proof (inv_pc _ _ I t th E) as H. unfold pc_ok in H. rewrite Ec in H. destruct (linked p H) as [d Ed].
  unfold goes_on. rewrite Ec. cbn [step]. rewrite Ed. cbn [mbind option_bind]. eexists _, _, l. split; [reflexivity|].
  destruct (inactive d && eqb (isExplicit d) e) eqn:Hd.
  - apply andb_true_iff in Hd as [_ Hk%eqb_prop]. apply keep_all; try done; [by rewrite Ec|unfold counted; by rewrite Ec|]. split; [done|]. by exists d.
  - destruct (look_on_ok e (next d)) as (H1 & H2 & H3 & H4); [by apply (chain_next _ _ _ _ _ (inv_chain _ _ I) H Ed)|].
    rewrite H4 by done. apply keep_all; try done; [by rewrite H2, Ec|rewrite H3; unfold counted; by rewrite Ec].
Qed.

(** The same, with the producers' uses changed: what does not depend on them. *)
Lemma lists_kept ps' p d : ps !! p = Some d -> (exists d', ps' = <[p := d']> ps /\ next d' = next d /\ isExplicit d' = isExplicit d) ->
  chain ps' (producerListTail (state s)) l /\ (forall q, is_Some (ps' !! q) <-> is_Some (ps !! q)) /\
  (forall q d, ps !! q = Some d -> exists d', ps' !! q = Some d' /\ isExplicit d' = isExplicit d /\ next d' = next d).
Proof.
  intros Ed (d' & -> & En & Ek).
  assert (forall q d, ps !! q = Some d -> exists d1, <[p := d']> ps !! q = Some d1 /\ isExplicit d1 = isExplicit d /\ next d1 = next d) as Hall.
  { intros q d1 E1. destruct (decide (p = q)) as [<-|Hne].
    - rewrite Ed in E1. injection E1 as <-. exists d'. by rewrite lookup_insert_eq.
    - exists d1. by rewrite lookup_insert_ne. }
  split; [|split; [|done]].
  - eapply chain_same; [|apply I]. intros q d1 E1 _. destruct (Hall q d1 E1) as (d2 & E2 & _ & E3). by exists d2.
  - intros q. destruct (decide (p = q)) as [<-|Hne]; [rewrite lookup_insert_eq, Ed; split; by eexists|by rewrite lookup_insert_ne].
Qed.

(** The thread takes a producer of the list, or gives one up: [b] is whether it
    is out of use then. *)
Lemma hands p d b c' hs :
  ps !! p = Some d -> p ∈ l -> building (at_pc th) = None -> building c' = None -> counted th = 0 -> counted (mkThread c' hs) = 0 ->
  NoDup hs -> (forall q, q <> p -> q ∈ hs <-> q ∈ held th) -> (b = false <-> p ∈ hs) -> (forall u, u <> t -> ~ owner (threads s) p u) ->
  pc_ok (<[p := set_inactive b d]> ps) l (mkThread c' hs) -> inv (after (on_producer p (set_inactive b) (state s)) (mkThread c' hs)) l.
Proof.
  intros Ed Hin Eb Eb' Ecn Ecn' Hnd Hhs Hb Hother Hpc. set (th' := mkThread c' hs) in *.
  destruct (lists_kept (<[p := set_inactive b d]> ps) p d Ed ltac:(by exists (set_inactive b d))) as (Hchain & Hdom & Hall).
  assert (forall q u, q <> p -> owner (<[t := th']> (threads s)) q u <-> owner (threads s) q u) as Ho.
  { intros q u Hq. rewrite (owner_insert _ _ _ _ _ _ E). destruct (decide (u = t)) as [->|]; [|done].
    unfold owner, owns. cbn [at_pc held th']. rewrite Eb', Hhs by done. split.
    - intros [H|H]; [exists th; split; [done|by left]|done].
    - intros (th1 & E1 & H). rewrite E in E1. injection E1 as <-. rewrite Eb in H. destruct H; [by left|done]. }
  assert (forall u, owner (<[t := th']> (threads s)) p u <-> u = t /\ p ∈ hs) as Hp.
  { intros u. rewrite (owner_insert _ _ _ _ _ _ E). destruct (decide (u = t)) as [->|Hne].
    - unfold owns. cbn [at_pc held th']. rewrite Eb'. naive_solver.
    - split; [by intros H%Hother|by intros [-> _]]. }
  destruct I as [I1 I2 I3 I4 I5 I6 I7 I8 I9 I10]. split; cbn [state threads] in *; try (rewrite (alter_some _ _ d) by done); try done.
  - intros q Hq. apply I3, Hdom, Hq.
  - intros q. rewrite Hdom, I4. apply or_iff_compat_l. split.
    + intros (u & th1 & E1 & H1). exists u, th1. split; [|done]. rewrite list_lookup_insert_ne; [done|]. intros <-. rewrite E in E1. injection E1 as <-. by rewrite Eb in H1.
    + intros (u & th1 & E1 & H1). apply insert_cases in E1 as [[-> ->]|[Hne E1]]; [cbn in H1; by rewrite Eb' in H1|by exists u, th1].
  - intros u th1 q E1 H1. apply insert_cases in E1 as [[-> ->]|[Hne E1]]; [cbn in H1; by rewrite Eb' in H1|by apply (I5 u th1)].
  - intros u th1 E1. apply insert_cases in E1 as [[-> ->]|[Hne E1]]; [|by apply (I6 u)]. split; [done|]. cbn. intros q Hq.
    destruct (decide (q = p)) as [->|Hqp]; [done|]. by apply (I6 t th E), Hhs.
  - intros q u u' H1 H2. destruct (decide (q = p)) as [->|Hqp]; [apply Hp in H1 as [-> _], H2 as [-> _]; done|]. apply Ho in H1, H2; [|done..]. by apply (I7 q).
  - intros q d1 E1. destruct (decide (p = q)) as [<-|Hqp].
    + rewrite lookup_insert_eq in E1. injection E1 as <-. cbn. rewrite Hb. split; [intros H; exists t; by apply Hp|by intros (u & [_ H]%Hp)].
    + rewrite lookup_insert_ne in E1 by done. rewrite (I8 q d1 E1). split; intros (u & H); exists u; by apply Ho.
  - rewrite (zsum_insert counted _ _ _ th' E). cbn [on_producer with_producers producerCount]. rewrite I9. f_equal. lia.
  - intros u th1 E1. apply insert_cases in E1 as [[-> ->]|[Hne E1]]; [done|]. eapply pc_ok_stable; [|done|by apply (I10 u)].
    intros q d1 Eq1. destruct (Hall q d1 Eq1) as (d2 & E2 & Ek2 & En2). by exists d2.
Qed.

Lemma idle_none : building (at_pc th) = None -> forall p, owns th p -> p ∈ held th.
Proof. intros Hb p [H|H]; [done|by rewrite Hb in H]. Qed.

Lemma go_catch e p spurious : at_pc th = Catch e p -> goes_on spurious.
Proof.
  intros Ec. pose proof (inv_pc _ _ I t th E) as H. unfold pc_ok in H. rewrite Ec in H. destruct H as [Hin (d & Ed & Hk)].
  unfold goes_on. rewrite Ec. cbn [step]. rewrite Ed. cbn [mbind option_bind]. destruct (inactive d) eqn:Hd; (eexists _, _, l; split; [reflexivity|]).
  - assert (forall u, ~ owner (threads s) p u) as Hno.
    { intros u Hu. assert (inactive d = false) by (apply (inv_active _ _ I p d Ed); by exists u). congruence. }
    assert (p ∉ held th) as Hp by (intros Hp; apply (Hno t); exists th; split; [done|by left]).
    cbn [held_after]. apply (hands p d); try done; [by rewrite Ec|unfold counted; by rewrite Ec|..].
    + apply NoDup_cons. split; [done|]. by apply (inv_held _ _ I t).
    + intros q Hq. rewrite elem_of_cons. naive_solver.
    + split; [by left|done].
    + split; [left|]. exists (set_inactive false d). by rewrite lookup_insert_eq.
  - destruct (look_on_ok e (next d)) as (H1 & H2 & H3 & H4); [by apply (chain_next _ _ _ _ _ (inv_chain _ _ I) Hin Ed)|].
    rewrite H4 by done. apply keep_all; try done; [by rewrite H2, Ec|rewrite H3; unfold counted; by rewrite Ec].
Qed.

Lemma go_leave p spurious : at_pc th = Leave p -> goes_on spurious.
Proof.
  intros Ec. pose proof (inv_pc _ _ I t th E) as H. unfold pc_ok in H. rewrite Ec in H.
  destruct (inv_held _ _ I t th E) as [Hnd Hl]. pose proof (Hl p H) as Hin. destruct (linked p Hin) as [d Ed].
  unfold goes_on. rewrite Ec. cbn [step]. rewrite Ed. cbn [mbind option_bind]. eexists _, _, l. split; [reflexivity|].
  cbn [held_after]. apply (hands p d); try done; [by rewrite Ec|unfold counted; by rewrite Ec|..].
  - by apply NoDup_filter.
  - intros q Hq. rewrite list_elem_of_filter. naive_solver.
  - split; [done|]. rewrite list_elem_of_filter. by intros [? _].
  - intros u Hu Ho. apply Hu. apply (inv_owner _ _ I p); [done|]. exists th. split; [done|by left].
Qed.

Lemma go_create e spurious : at_pc th = Create e -> goes_on spurious.
Proof.
  intros Ec. unfold goes_on. rewrite Ec. cbn [step]. destruct (create (created (state s))); (eexists _, _, l; split; [reflexivity|]); cbn [held_after].
  2: { apply keep_all; try done; [cbn; lia|by rewrite Ec|unfold counted; by rewrite Ec]. }
  set (p := created (state s)). set (th' := mkThread (Count e p) (held th)).
  assert (ps !! p = None) as Hnew.
  { destruct (ps !! p) as [d|] eqn:Ed; [|done]. pose proof (inv_fresh _ _ I p ltac:(by eexists)). unfold p in *. lia. }
  assert (p ∉ l) as Hl by (intros Hin; destruct (linked p Hin) as [d Ed]; congruence).
  assert (forall u, ~ owner (threads s) p u) as Hno.
  { intros u (th1 & E1 & [H|H]); [by apply Hl, (inv_held _ _ I u th1 E1)|]. assert (is_Some (ps !! p)) as [d Ed]; [|congruence].
    apply (inv_place _ _ I). right. by exists u, th1. }
  assert (forall q u, owner (<[t := th']> (threads s)) q u <-> owner (threads s) q u \/ (q = p /\ u = t)) as Ho.
  { intros q u. rewrite (owner_insert _ _ _ _ _ _ E). destruct (decide (u = t)) as [->|Hne]; [|naive_solver].
    unfold owner, owns. cbn [at_pc held th' building]. split.
    - intros [H|[= ->]]; [left; exists th; split; [done|by left]|by right].
    - intros [(th1 & E1 & H)|[-> _]]; [|by right]. rewrite E in E1. injection E1 as <-. rewrite Ec in H. destruct H as [H|H]; [by left|done]. }
  pose proof I as [I1 I2 I3 I4 I5 I6 I7 I8 I9 I10]. split; cbn [state threads producers producerListTail producerCount created] in *; try done.
  - by apply chain_other.
  - intros q [d Eq]. apply lookup_insert_Some in Eq as [[<- _]|[_ Eq]]; [lia|]. specialize (I3 q ltac:(by eexists)). lia.
  - intros q. destruct (decide (p = q)) as [<-|Hne].
    + rewrite lookup_insert_eq. split; [|by eexists]. intros _. right. exists t, th'. by rewrite list_lookup_insert_eq by by eapply lookup_lt_Some.
    + rewrite lookup_insert_ne, I4 by done. apply or_iff_compat_l. split.
      * intros (u & th1 & E1 & H1). exists u, th1. split; [|done]. rewrite list_lookup_insert_ne; [done|]. intros <-. rewrite E in E1. injection E1 as <-. by rewrite Ec in H1.
      * intros (u & th1 & E1 & H1). apply insert_cases in E1 as [[-> ->]|[_ E1]]; [cbn in H1; congruence|by exists u, th1].
  - intros u th1 q E1 H1. apply insert_cases in E1 as [[-> ->]|[_ E1]]; [cbn in H1; by injection H1 as <-|by apply (I5 u th1)].
  - intros u th1 E1. apply insert_cases in E1 as [[-> ->]|[_ E1]]; [exact (I6 t th E)|by apply (I6 u)].
  - intros q u u' H1%Ho H2%Ho. destruct H1 as [H1|[-> ->]], H2 as [H2|[Eq ->]]; try done; [by apply (I7 q)|subst q; by destruct (Hno u)|by destruct (Hno u')].
  - intros q d Eq. apply lookup_insert_Some in Eq as [[<- <-]|[Hne Eq]].
    + split; [|done]. intros _. exists t. apply Ho. by right.
    + rewrite (I8 q d Eq). split; intros (u & H); exists u; [apply Ho; by left|]. apply Ho in H as [H|[-> _]]; done.
  - rewrite (zsum_insert counted _ _ _ th' E), I9. assert (counted th = 0) as -> by (unfold counted; by rewrite Ec). cbn. f_equal. lia.
  - intros u th1 E1. apply insert_cases in E1 as [[-> ->]|[Hne E1]]; [eexists; by rewrite lookup_insert_eq|]. eapply pc_ok_stable; [|done|by apply (I10 u)].
    intros q d Eq. exists d. rewrite lookup_insert_ne by congruence. done.
Qed.

Lemma go_count e p spurious : at_pc th = Count e p -> goes_on spurious.
Proof.
  intros Ec. pose proof (inv_pc _ _ I t th E) as H. unfold pc_ok in H. rewrite Ec in H.
  unfold goes_on. rewrite Ec. cbn [step]. eexists _, _, l. split; [reflexivity|]. cbn [held_after]. apply keep; cbn; try done.
  - intros q d Eq. by exists d.
  - rewrite (inv_count _ _ I), wrap_add_l. assert (counted th = 0) as -> by (unfold counted; by rewrite Ec). f_equal. cbn. lia.
  - by rewrite Ec.
Qed.

Lemma go_read_tail e p spurious : at_pc th = ReadTail e p -> goes_on spurious.
Proof.
  intros Ec. pose proof (inv_pc _ _ I t th E) as H. unfold pc_ok in H. rewrite Ec in H.
  unfold goes_on. rewrite Ec. cbn [step]. eexists _, _, l. split; [reflexivity|]. cbn [held_after].
  apply keep_all; try done; [by rewrite Ec|unfold counted; by rewrite Ec].
Qed.

Lemma go_link e p prevTail spurious : at_pc th = Link e p prevTail -> goes_on spurious.
Proof.
  intros Ec. pose proof (inv_pc _ _ I t th E) as H. unfold pc_ok in H. rewrite Ec in H. destruct H as (d & Ed & Hk).
  unfold goes_on. rewrite Ec. cbn [step]. rewrite Ed. cbn [mbind option_bind]. eexists _, _, l. split; [reflexivity|]. cbn [held_after].
  apply keep; rewrite ?(alter_some _ _ d) by done; try done.
  - intros q d1 Eq. destruct (decide (p = q)) as [<-|Hne].
    + rewrite Ed in Eq. injection Eq as <-. exists (set_next prevTail d). rewrite lookup_insert_eq. repeat (split; [done|]). by rewrite Ec.
    + exists d1. by rewrite lookup_insert_ne.
  - intros q Hq. destruct (decide (p = q)) as [<-|Hne]; [by eexists|by rewrite lookup_insert_ne in Hq].
  - cbn. rewrite (inv_count _ _ I). assert (counted th = 1) as -> by (unfold counted; by rewrite Ec). f_equal. cbn. lia.
  - by rewrite Ec.
  - exists (set_next prevTail d). by rewrite lookup_insert_eq.
Qed.

Lemma go_swing e p prevTail spurious : at_pc th = Swing e p prevTail -> goes_on spurious.
Proof.
  intros Ec. pose proof (inv_pc _ _ I t th E) as H. unfold pc_ok in H. rewrite Ec in H. destruct H as (d & Ed & Hk & Hn).
  unfold goes_on. rewrite Ec. cbn [step]. destruct (bool_decide (producerListTail (state s) = prevTail) && negb spurious) eqn:Hc.
  2: { eexists _, _, l. split; [reflexivity|]. cbn [held_after]. apply keep_all; try done; [by rewrite Ec|unfold counted; by rewrite Ec|by exists d]. }
  apply andb_true_iff in Hc as [Hc%bool_decide_eq_true _]. eexists _, _, (p :: l). split; [reflexivity|]. cbn [held_after].
  set (th' := mkThread (Done (Some (e, p))) (p :: held th)).
  assert (building (at_pc th) = Some p) as Hb by by rewrite Ec. pose proof (inv_apart _ _ I t th p E Hb) as Hl.
  assert (forall q u, owner (<[t := th']> (threads s)) q u <-> owner (threads s) q u) as Ho.
  { intros q u. rewrite (owner_insert _ _ _ _ _ _ E). destruct (decide (u = t)) as [->|Hne]; [|done]. unfold owner, owns. cbn [at_pc held th' building].
    rewrite elem_of_cons. split.
    - intros [[->|H]|H]; [exists th; split; [done|by right]|exists th; split; [done|by left]|done].
    - intros (th1 & E1 & H). rewrite E in E1. injection E1 as <-. rewrite Hb in H. destruct H as [H|[= ->]]; left; [by right|by left]. }
  destruct (inv_held _ _ I t th E) as [Hnd Hhl].
  pose proof I as [I1 I2 I3 I4 I5 I6 I7 I8 I9 I10]. split; cbn [state threads producers producerListTail producerCount created] in *; try done.
  - split; [done|]. exists d. split; [done|]. by rewrite Hn, <- Hc.
  - by apply NoDup_cons.
  - intros q. rewrite I4, elem_of_cons. split.
    + intros [Hq|(u & th1 & E1 & H1)]; [left; by right|]. destruct (decide (u = t)) as [->|Hne].
      * rewrite E in E1. injection E1 as <-. left. left. congruence.
      * right. exists u, th1. by rewrite list_lookup_insert_ne.
    + intros [[->|Hq]|(u & th1 & E1 & H1)]; [right; by exists t, th|by left|].
      apply insert_cases in E1 as [[-> ->]|[_ E1]]; [done|right; by exists u, th1].
  - intros u th1 q E1 H1. apply insert_cases in E1 as [[-> ->]|[Hne E1]]; [done|]. apply not_elem_of_cons. split; [|by apply (I5 u th1)].
    intros ->. by apply (not_built u th1 p E1 Hne); right.
  - intros u th1 E1. apply insert_cases in E1 as [[-> ->]|[_ E1]].
    + cbn. split; [apply NoDup_cons; split; [|done]; intros H; by apply Hl, Hhl|]. intros q [->|Hq]%elem_of_cons; [left|right; by apply Hhl].
    + destruct (I6 u th1 E1) as [G1 G2]. split; [done|]. intros q Hq. right. by apply G2.
  - intros q u u' H1%Ho H2%Ho. by apply (I7 q).
  - intros q d1 Eq. rewrite (I8 q d1 Eq). split; intros (u & H); exists u; by apply Ho.
  - rewrite (zsum_insert counted _ _ _ th' E), I9. assert (counted th = 1) as -> by (unfold counted; by rewrite Ec). cbn. f_equal. lia.
  - intros u th1 E1. apply insert_cases in E1 as [[-> ->]|[Hne E1]]; [split; [left|by exists d]|]. eapply pc_ok_stable; [| |by apply (I10 u)].
    + intros q d1 Eq. by exists d1.
    + by right.
Qed.

Lemma thread_goes_on spurious : idle (at_pc th) = false -> goes_on spurious.
Proof.
  intros Hi. destruct (at_pc th) as [r|e|e p|e p|e|e p|e p|e p prevTail|e p prevTail|p] eqn:Ec; [done|..].
  - by eapply go_load.
  - by eapply go_look.
  - by eapply go_catch.
  - by eapply go_create.
  - by eapply go_count.
  - by eapply go_read_tail.
  - by eapply go_link.
  - by eapply go_swing.
  - by eapply go_leave.
Qed.
End Step.

(** ** Any schedule *)

Lemma turn_holds ch s l : inv s l -> exists s' l', turn ch s = Some s' /\ inv s' l'.
Proof.
  intros I. destruct ch as [t e|t p|t spurious]; cbn [turn]; destruct (threads s !! t) as [th|] eqn:E; try by exists s, l.
  - destruct (idle (at_pc th)) eqn:Hi; [|by exists s, l]. eexists _, l. split; [reflexivity|]. destruct th as [c hs]. cbn in Hi.
    apply (keep_all s l I t _ E (LoadTail e) (state s)); try done; by destruct c.
  - destruct (idle (at_pc th)) eqn:Hi; cbn [andb]; [|by exists s, l]. destruct (bool_decide (p ∈ held th)) eqn:Hp; [|by exists s, l].
    apply bool_decide_eq_true in Hp. eexists _, l. split; [reflexivity|]. destruct th as [c hs]. cbn in Hi, Hp.
    apply (keep_all s l I t _ E (Leave p) (state s)); try done; by destruct c.
  - destruct (idle (at_pc th)) eqn:Hi; [by exists s, l|]. destruct (thread_goes_on s l I t th E spurious Hi) as (c' & s' & l' & -> & H).
    cbn [mbind option_bind]. by eexists _, l'.
Qed.

Lemma turns_hold schedule s l : inv s l -> exists s' l', turns schedule s = Some s' /\ inv s' l'.
Proof.
  revert s l. induction schedule as [|ch schedule IH]; intros s l I; cbn [turns]; [by exists s, l|].
  destruct (turn_holds ch s l I) as (s1 & l1 & -> & I1). cbn [mbind option_bind]. by apply (IH s1 l1).
Qed.

Lemma begin_holds n : inv (begin n) [].
Proof.
  assert (forall t th, threads (begin n) !! t = Some th -> th = mkThread (Done None) []) as Hth by (by intros t th [-> _]%lookup_replicate).
  assert (forall p t, ~ owner (threads (begin n)) p t) as Hno by (intros p t (th & ->%Hth & [H|H]); [by apply not_elem_of_nil in H|done]).
  split; cbn [begin state producers producerListTail producerCount created] in *; try done.
  - apply NoDup_nil_2.
  - by intros p [d Ed].
  - intros p. split; [by intros [d Ed]|]. intros [H%not_elem_of_nil|(t & th & ->%Hth & H)]; done.
  - by intros t th p ->%Hth H.
  - intros t th ->%Hth. split; [apply NoDup_nil_2|]. by intros p H%not_elem_of_nil.
  - intros p t t' H. by destruct (Hno p t).
  - change (threads (begin n)) with (replicate n (mkThread (Done None) [])).
    rewrite zsum_zero; [done|]. by apply Forall_replicate.
  - by intros t th ->%Hth.
Qed.

(** C16: of the threads that take producers over and give them up, interleaved in
    any way, access by access, no two have the same producer, and each gets one
    of the kind it asks for; the list loses none, has none twice and is never
    left through a wrong pointer; and when no thread is in a call the count is
    that of the producers, all of them are in the list, and those that can be
    taken over are those that nobody has. *)
Theorem producers_have_one_owner n schedule :
  exists s l, turns schedule (begin n) = Some s /\ chain (producers (state s)) (producerListTail (state s)) l /\ NoDup l /\
    (forall t th, threads s !! t = Some th -> NoDup (held th) /\ forall p, p ∈ held th -> p ∈ l) /\
    (forall t t' th th' p, threads s !! t = Some th -> threads s !! t' = Some th' -> p ∈ held th -> p ∈ held th' -> t = t') /\
    (forall t th e p, threads s !! t = Some th -> at_pc th = Done (Some (e, p)) -> p ∈ held th /\ of_kind (producers (state s)) p e) /\
    ((forall t th, threads s !! t = Some th -> idle (at_pc th) = true) ->
      producerCount (state s) = u32 (Z.of_nat (length l)) /\
      forall p d, producers (state s) !! p = Some d -> p ∈ l /\ (inactive d = true <-> forall t th, threads s !! t = Some th -> p ∉ held th)).
Proof.
  destruct (turns_hold schedule (begin n) [] (begin_holds n)) as (s & l & Er & [I1 I2 I3 I4 I5 I6 I7 I8 I9 I10]).
  exists s, l. split; [done|]. split; [done|]. split; [done|]. split; [done|]. split; [|split].
  - intros t t' th th' p E E' H H'. apply (I7 p); [exists th|exists th']; (split; [done|by left]).
  - intros t th e p E Ec. specialize (I10 t th E). unfold pc_ok in I10. by rewrite Ec in I10.
  - intros Hidle.
    assert (forall t th, threads s !! t = Some th -> building (at_pc th) = None /\ counted th = 0) as Hnone.
    { intros t th E. specialize (Hidle t th E). unfold counted. by destruct (at_pc th). }
    split.
    + rewrite I9, zsum_zero; [by rewrite Z.add_0_r|]. apply Forall_lookup. intros t th E. by apply (Hnone t).
    + intros p d Ed. split.
      * destruct (proj1 (I4 p) ltac:(by exists d)) as [|(t & th & E & H)]; [done|]. by rewrite (proj1 (Hnone t th E)) in H.
      * pose proof (I8 p d Ed) as Ha. split.
        -- intros Hd t th E Hp. rewrite Hd in Ha. assert (true = false) by (apply Ha; exists t, th; split; [done|by left]). done.
        -- intros Hno. destruct (inactive d); [done|]. destruct (proj1 Ha eq_refl) as (t & th & E & [H|H]); [by destruct (Hno t th E)|].
           by rewrite (proj1 (Hnone t th E)) in H.
Qed.
End Threads.

(** ** An example *)

Definition always (n : nat) : bool := true.
Definition go (t n : nat) : list choice := replicate n (Go t false).

(** Two threads add a producer at the same time; one gives its own up, and both
    see that as they look for another one. *)
Definition contend : list choice :=
  [Acquire 0 true; Acquire 1 true] ++ concat (replicate 8 [Go 0 false; Go 1 true; Go 1 false]) ++
  [GiveUp 1 0] ++ go 1 1 ++ [Acquire 0 true; Acquire 1 true] ++ concat (replicate 12 [Go 0 false; Go 1 false]).

Lemma producers_have_one_owner_witness :
  exists s l, turns always contend (begin 2) = Some s /\ chain (producers (state s)) (producerListTail (state s)) l /\ NoDup l /\
    (held <$> threads s) = [[0; 1]; [2]]%nat /\ producerCount (state s) = u32 (Z.of_nat (length l)).
Proof.
  destruct (producers_have_one_owner always 2 contend) as (s & l & E & Hc & Hn & _ & _ & _ & Hidle).
  assert (option_map (fun s => (threads s, (held <$> threads s))) (turns always contend (begin 2)) =
    Some ([mkThread (Done (Some (true, 0%nat))) [0; 1]%nat; mkThread (Done (Some (true, 2%nat))) [2%nat]], [[0; 1]; [2]]%nat)) as Ev by (vm_compute; reflexivity).
  rewrite E in Ev. injection Ev as V1 V2. exists s, l. split; [exact E|]. split; [exact Hc|]. split; [exact Hn|]. split; [exact V2|].
  apply Hidle. rewrite V1. intros [|[|t]] th Et; [by injection Et as <-|by injection Et as <-|done].
Defined.

End ProducerThreads.
