(* ===== verification/LockFreeQueue.v ===== *)
(** * The methods of the lock-free queue (utils/concurrentqueue.h,
      [ConcurrentQueue] and [ConsumerToken])

    A queue is its producers, the hash from threads to producers and two
    counters for the consumer tokens. Elements go to the producer of the thread
    or of a producer token. They come from any producer: from the largest of
    the first few, from the first in the list, or, with a consumer token, from
    the place of the token, which moves on as the tokens rotate. Calls run one
    at a time, on any sub-queues that keep the laws of [SubQueuesLaws]. *)
From S2P Require Import Prelude.
From S2P Require Import QueueTraits.
From S2P Require Import BlockPool.
From S2P Require Import ProducerHash.
From S2P Require Import ProducerList.
#[local] Open Scope Z_scope.

Module LockFreeQueue.

(** ** Data *)

(** A consumer token is owned by its consumer: nothing points to it. *)
Record ConsumerToken := mkConsumer {
  initialOffset : Z;
  lastKnownGlobalOffset : Z;
  itemsConsumedFromCurrent : Z;
  currentProducer : option nat;
  desiredProducer : option nat
}.
Definition set_items n c := mkConsumer (initialOffset c) (lastKnownGlobalOffset c) n (currentProducer c) (desiredProducer c).
Definition set_current p c :=
  mkConsumer (initialOffset c) (lastKnownGlobalOffset c) (itemsConsumedFromCurrent c) p (desiredProducer c).

Section Queue.
Context {tr : Traits} {S T : Type} `{SubQueues S T}.

Record t := mk {
  producing : ProducerList.t S;
  hashing : ProducerHash.t;
  nextExplicitConsumerId : Z;
  globalExplicitConsumerOffset : Z
}.
Definition set_next_id n q := mk (producing q) (hashing q) n (globalExplicitConsumerOffset q).
Definition set_offset n q := mk (producing q) (hashing q) (nextExplicitConsumerId q) n.

(** The blocks that are allocated with the queue, for a number of elements and
    for numbers of producers. *)
Definition blocks_for (capacity : Z) : Z :=
  capacity / BLOCK_SIZE + (if capacity .& (BLOCK_SIZE - 1) =? 0 then 0 else 1).
Definition blocks_for_producers (minCapacity maxExplicitProducers maxImplicitProducers : Z) : Z :=
  u64 (u64 (u64 (u64 (u64 (minCapacity + BLOCK_SIZE - 1) / BLOCK_SIZE - 1) * u64 (maxExplicitProducers + 1)) +
    u64 (2 * u64 (maxExplicitProducers + maxImplicitProducers))) * BLOCK_SIZE).

(** The queue on the sub-queues [s], whose memory the constructor has set up. *)
Definition construct (s : S) : t :=
  mk (ProducerList.construct s) ProducerHash.populate_initial_implicit_producer_hash 0 0.

(** ** Enqueuing *)

Definition on_list {A} (m : M (ProducerList.t S) A) : M t A := fun q =>
  match m (producing q) with
  | Some (a, l) => Some (a, mk l (hashing q) (nextExplicitConsumerId q) (globalExplicitConsumerOffset q))
  | None => None
  end.
Definition on_sub {A} (m : M S A) : M t A := on_list (ProducerList.sub m).

(** [get_or_add_implicit_producer] of the thread [id]. *)
Definition implicit_producer (id : Z) : M t (option nat) := fun q =>
  match ProducerHash.get_or_add_implicit_producer (ProducerList.sub sub_malloc)
          (ProducerList.recycle_or_create_producer false) id (hashing q, producing q) with
  | Some (p, (h, l)) => Some (p, mk l h (nextExplicitConsumerId q) (globalExplicitConsumerOffset q))
  | None => None
  end.

Definition inner_enqueue (mode : AllocationMode) (id : Z) (x : T) : M t bool :=
  p ← implicit_producer id;
  match p with None => mret false | Some p => on_sub (sub_enqueue p mode x) end.
Definition inner_enqueue_bulk (mode : AllocationMode) (id : Z) (xs : list T) : M t bool :=
  p ← implicit_producer id;
  match p with None => mret false | Some p => on_sub (sub_enqueue_bulk p mode xs) end.
(** [enqueue] and [try_enqueue], without a token. *)
Definition enqueue (mode : AllocationMode) (id : Z) (x : T) : M t bool :=
  if INITIAL_IMPLICIT_PRODUCER_HASH_SIZE =? 0 then mret false else inner_enqueue mode id x.
Definition enqueue_bulk (mode : AllocationMode) (id : Z) (xs : list T) : M t bool :=
  if INITIAL_IMPLICIT_PRODUCER_HASH_SIZE =? 0 then mret false else inner_enqueue_bulk mode id xs.

(** With a token, which has to be valid. *)
Definition producer_of (token : nat) : M t nat :=
  p ← on_list (ProducerList.token_producer token);
  the p.
Definition enqueue_token (mode : AllocationMode) (token : nat) (x : T) : M t bool :=
  p ← producer_of token;
  on_sub (sub_enqueue p mode x).
Definition enqueue_bulk_token (mode : AllocationMode) (token : nat) (xs : list T) : M t bool :=
  p ← producer_of token;
  on_sub (sub_enqueue_bulk p mode xs).

(** ** Dequeuing *)

(** The loop that looks for the largest of the first three producers that are
    not empty: how many it has seen, and the largest. *)
Fixpoint score (s : S) (l : list nat) (nonEmptyCount : Z) (best : option nat) (bestSize : Z) : Z * option nat :=
  match l with
  | [] => (nonEmptyCount, best)
  | p :: l =>
      if nonEmptyCount <? 3 then
        let size := sub_size p s in
        if 0 <? size then
          if bestSize <? size then score s l (nonEmptyCount + 1) (Some p) size
          else score s l (nonEmptyCount + 1) best bestSize
        else score s l nonEmptyCount best bestSize
      else (nonEmptyCount, best)
  end.

(** The loop that tries every producer other than [best]. *)
Fixpoint try_producers (best : option nat) (l : list nat) : M t (option T) :=
  match l with
  | [] => mret None
  | p :: l =>
      if decide (best = Some p) then try_producers best l
      else
        r ← on_sub (sub_dequeue p);
        match r with Some x => mret (Some x) | None => try_producers best l end
  end.

Definition list_of : M t (list nat) := gets (fun q => ProducerList.producerList (producing q)).

Definition try_dequeue : M t (option T) :=
  l ← list_of;
  s ← gets (fun q => ProducerList.subs (producing q));
  let '(nonEmptyCount, best) := score s l 0 None 0 in
  if 0 <? nonEmptyCount then
    p ← the best;
    r ← on_sub (sub_dequeue p);
    match r with Some x => mret (Some x) | None => try_producers best l end
  else mret None.

Definition try_dequeue_non_interleaved : M t (option T) :=
  l ← list_of;
  try_producers None l.

(** The loop of [try_dequeue_bulk], with what has been dequeued before. *)
Fixpoint drain_producers (l : list nat) (max : Z) (got : list T) : M t (list T) :=
  match l with
  | [] => mret got
  | p :: l =>
      ys ← on_sub (sub_dequeue_bulk p (u64 (max - Z.of_nat (length got))));
      let got := got ++ ys in
      if Z.of_nat (length got) =? max then mret got else drain_producers l max got
  end.
Definition try_dequeue_bulk (max : Z) : M t (list T) :=
  l ← list_of;
  drain_producers l max [].

Definition try_dequeue_from_producer (token : nat) : M t (option T) :=
  p ← producer_of token;
  on_sub (sub_dequeue p).
Definition try_dequeue_bulk_from_producer (token : nat) (max : Z) : M t (list T) :=
  p ← producer_of token;
  on_sub (sub_dequeue_bulk p max).

Definition size_approx : M t Z :=
  l ← list_of;
  s ← gets (fun q => ProducerList.subs (producing q));
  mret (fold_left (fun size p => u64 (size + sub_size p s)) l 0).

(** ** Consumer tokens *)

Definition construct_consumer : M t ConsumerToken :=
  n ← gets nextExplicitConsumerId;
  modify (set_next_id (u32 (n + 1)));;
  mret (mkConsumer n (u32 (-1)) 0 None None).

(** [next_prod] in the list, and the step from a producer to the next, round
    the list: nothing if the pointer is to no producer of the list. *)
Fixpoint next_prod (l : list nat) (p : nat) : option (option nat) :=
  match l with
  | [] => None
  | p' :: l => if decide (p' = p) then Some (head l) else next_prod l p
  end.
Definition next_round (l : list nat) (p : nat) : option nat :=
  match next_prod l p with
  | Some (Some p') => Some p'
  | Some None => head l
  | None => None
  end.
Fixpoint advance (n : nat) (l : list nat) (p : nat) : option nat :=
  match n with
  | O => Some p
  | Datatypes.S n => match next_round l p with Some p => advance n l p | None => None end
  end.

(** Whether there is a producer to go to, and the token that has gone there. *)
Definition update_current_producer_after_rotation (token : ConsumerToken) : M t (bool * ConsumerToken) :=
  l ← list_of;
  let tail := head l in
  if decide (desiredProducer token = None /\ tail = None) then mret (false, token)
  else
    prodCount ← gets (fun q => ProducerList.producerCount (producing q));
    globalOffset ← gets globalExplicitConsumerOffset;
    (if prodCount =? 0 then undefined else mret tt);;
    desired ← the (match desiredProducer token with
      | None =>
          match tail with
          | Some p => advance (Z.to_nat (u32 (prodCount - 1 - initialOffset token `mod` prodCount))) l p
          | None => None
          end
      | Some p => Some p
      end);
    let delta := u32 (globalOffset - lastKnownGlobalOffset token) in
    let delta := if prodCount <=? delta then delta `mod` prodCount else delta in
    desired ← the (advance (Z.to_nat delta) l desired);
    mret (true, mkConsumer (initialOffset token) globalOffset 0 (Some desired) (Some desired)).

(** What the operations with a token begin with. *)
Definition rotate (token : ConsumerToken) : M t (bool * ConsumerToken) :=
  globalOffset ← gets globalExplicitConsumerOffset;
  if decide (desiredProducer token = None \/ lastKnownGlobalOffset token <> globalOffset)
  then update_current_producer_after_rotation token
  else mret (true, token).

(** Everybody is to move on. *)
Definition rotate_everybody : M t unit :=
  modify (fun q => set_offset (u32 (globalExplicitConsumerOffset q + 1)) q).

(** The loop round the list, from [p] on until it is back at the token's
    producer; no result when the fuel is used up. *)
Fixpoint round (fuel : nat) (l : list nat) (p : nat) (token : ConsumerToken) : M t (option T * ConsumerToken) :=
  match fuel with
  | O => undefined
  | Datatypes.S fuel =>
      if decide (currentProducer token = Some p) then mret (None, token)
      else
        r ← on_sub (sub_dequeue p);
        match r with
        | Some x => mret (Some x, set_items 1 (set_current (Some p) token))
        | None => p' ← the (next_round l p); round fuel l p' token
        end
  end.

Definition try_dequeue_consumer (token : ConsumerToken) : M t (option T * ConsumerToken) :=
  there ← rotate token;
  let token := there.2 in
  if (there.1 : bool) then
    current ← the (currentProducer token);
    r ← on_sub (sub_dequeue current);
    match r with
    | Some x =>
        let items := u32 (itemsConsumedFromCurrent token + 1) in
        (if items =? EXPLICIT_CONSUMER_CONSUMPTION_QUOTA_BEFORE_ROTATE then rotate_everybody else mret tt);;
        mret (Some x, set_items items token)
    | None =>
        l ← list_of;
        p ← the (next_round l current);
        round (length l) l p token
    end
  else mret (None, token).

(** The same for several elements: the token's producer changes as the loop
    goes, so it can go round twice. *)
Fixpoint round_bulk (fuel : nat) (l : list nat) (p : nat) (max : Z) (got : list T) (token : ConsumerToken) :
    M t (list T * ConsumerToken) :=
  match fuel with
  | O => undefined
  | Datatypes.S fuel =>
      if decide (currentProducer token = Some p) then mret (got, token)
      else
        ys ← on_sub (sub_dequeue_bulk p max);
        let dequeued := Z.of_nat (length ys) in
        let got := got ++ ys in
        let token := if dequeued =? 0 then token else set_items (u32 dequeued) (set_current (Some p) token) in
        if dequeued =? max then mret (got, token)
        else
          p' ← the (next_round l p);
          round_bulk fuel l p' (u64 (max - dequeued)) got token
  end.

Definition try_dequeue_bulk_consumer (token : ConsumerToken) (max : Z) : M t (list T * ConsumerToken) :=
  there ← rotate token;
  let token := there.2 in
  if (there.1 : bool) then
    current ← the (currentProducer token);
    got ← on_sub (sub_dequeue_bulk current max);
    let count := Z.of_nat (length got) in
    if count =? max then
      let items := u32 (itemsConsumedFromCurrent token + u32 max) in
      (if EXPLICIT_CONSUMER_CONSUMPTION_QUOTA_BEFORE_ROTATE <=? items then rotate_everybody else mret tt);;
      mret (got, set_items items token)
    else
      let token := set_items (u32 (itemsConsumedFromCurrent token + u32 count)) token in
      l ← list_of;
      p ← the (next_round l current);
      round_bulk (2 * length l) l p (u64 (max - count)) got token
  else mret ([], token).

(** ** The end of a queue *)

(** The loop over the producers: their tokens become invalid, their elements
    are destroyed, in the order of the list. *)
Fixpoint destroy_producers (l : list nat) : M (ProducerList.t S) (list T) :=
  match l with
  | [] => mret []
  | p :: l =>
      ps ← gets ProducerList.producers;
      d ← the (ps !! p);
      match ProducerList.token d with
      | Some a => ProducerList.store_token a None
      | None => mret tt
      end;;
      xs ← ProducerList.sub (sub_destroy p);
      modify (fun q => ProducerList.set_producers (delete p (ProducerList.producers q)) q);;
      ys ← destroy_producers l;
      mret (xs ++ ys)
  end.
(** The hash tables that are freed: all but the first, which is part of the
    queue. *)
Fixpoint freed_hashes (hs : list ProducerHash.ImplicitProducerHash) : nat :=
  match hs with
  | [] => O
  | h :: prev => match prev with [] => O | _ => Datatypes.S (freed_hashes prev) end
  end.
Definition destructor (q : t) : option (list T * nat * ProducerList.t S) :=
  match destroy_producers (ProducerList.producerList (producing q)) (producing q) with
  | Some (xs, l) =>
      Some (xs, if INITIAL_IMPLICIT_PRODUCER_HASH_SIZE =? 0 then O else freed_hashes (ProducerHash.hashes (hashing q)), l)
  | None => None
  end.

(** ** The list as a ring *)

(** The list from one of its places on, round to that place. *)
Definition ring_at (l : list nat) (i : nat) : list nat := drop i l ++ take i l.
Definition ring (l w : list nat) : Prop := exists i, (i < length l)%nat /\ w = ring_at l i.

Lemma ring_perm l w : ring l w -> w ≡ₚ l.
Proof. intros (i & _ & ->). unfold ring_at. rewrite Permutation_app_comm. by rewrite take_drop. Qed.

Lemma ring_length l w : ring l w -> length w = length l.
Proof. intros Hw. by rewrite (ring_perm l w Hw). Qed.

Lemma ring_exists l p : (p ∈ l) -> exists w, ring l (p :: w).
Proof.
  intros (i & Hi)%list_elem_of_lookup. exists (drop (Datatypes.S i) l ++ take i l), i.
  split; [by apply lookup_lt_Some in Hi|]. unfold ring_at. by rewrite (drop_S l p i Hi).
Qed.

Lemma next_prod_spec l i p : NoDup l -> l !! i = Some p -> next_prod l p = Some (l !! Datatypes.S i).
Proof.
  revert i. induction l as [|a l IH]; intros i Hnd Hi; [done|]. apply NoDup_cons in Hnd as [Ha Hnd]. cbn [next_prod].
  destruct i as [|i]; cbn in Hi.
  - injection Hi as ->. rewrite decide_True by done. f_equal. by destruct l.
  - rewrite decide_False; [by apply IH|]. intros ->. apply Ha. by eapply list_elem_of_lookup_2.
Qed.

Lemma next_round_spec l i p :
  NoDup l -> l !! i = Some p -> next_round l p = l !! (Datatypes.S i `mod` length l)%nat.
Proof.
  intros Hnd Hi. unfold next_round. rewrite (next_prod_spec l i p Hnd Hi). apply lookup_lt_Some in Hi.
  destruct (l !! Datatypes.S i) as [p'|] eqn:E.
  - pose proof (lookup_lt_Some _ _ _ E) as Hlt. by rewrite Nat.mod_small.
  - apply lookup_ge_None in E. replace (Datatypes.S i) with (length l) by lia. rewrite Nat.Div0.mod_same. by destruct l.
Qed.

Lemma ring_at_next l i p :
  l !! i = Some p -> ring_at l (Datatypes.S i `mod` length l) = drop (Datatypes.S i) l ++ take (Datatypes.S i) l.
Proof.
  intros Hi%lookup_lt_Some. unfold ring_at. destruct (decide (Datatypes.S i = length l)) as [E|].
  - rewrite E, Nat.Div0.mod_same. rewrite drop_all, firstn_all. cbn. by rewrite app_nil_r.
  - by rewrite Nat.mod_small by lia.
Qed.

(** The next producer, and the ring from there on. *)
Lemma ring_next l p w :
  NoDup l -> ring l (p :: w) -> exists p' w', next_round l p = Some p' /\ w ++ [p] = p' :: w' /\ ring l (p' :: w').
Proof.
  intros Hnd (i & Hi & E). destruct (lookup_lt_is_Some_2 l i Hi) as [p0 Ep].
  unfold ring_at in E. rewrite (drop_S l p0 i Ep) in E. injection E as <- ->.
  set (j := (Datatypes.S i `mod` length l)%nat). assert (j < length l)%nat as Hj by (apply Nat.mod_upper_bound; lia).
  destruct (lookup_lt_is_Some_2 l j Hj) as [p' Ep'].
  assert ((drop (Datatypes.S i) l ++ take i l) ++ [p] = ring_at l j) as Er.
  { unfold j. rewrite (ring_at_next l i p Ep), <- app_assoc. f_equal. by rewrite (take_S_r l i p Ep). }
  exists p', (drop (Datatypes.S j) l ++ take j l). split; [by rewrite (next_round_spec l i p Hnd Ep)|].
  assert (ring_at l j = p' :: drop (Datatypes.S j) l ++ take j l) as E' by (unfold ring_at; by rewrite (drop_S l p' j Ep')).
  rewrite Er, E'. split; [done|]. exists j. split; [done|]. by rewrite E'.
Qed.

Lemma advance_spec n l i p :
  NoDup l -> l !! i = Some p -> advance n l p = l !! ((i + n) `mod` length l)%nat.
Proof.
  intros Hnd. revert i p. induction n as [|n IH]; intros i p Hi; cbn [advance].
  - pose proof (lookup_lt_Some _ _ _ Hi). by rewrite Nat.add_0_r, Nat.mod_small.
  - rewrite (next_round_spec l i p Hnd Hi). pose proof (lookup_lt_Some _ _ _ Hi) as Hlt.
    set (j := (Datatypes.S i `mod` length l)%nat). assert (j < length l)%nat as Hj by (apply Nat.mod_upper_bound; lia).
    destruct (lookup_lt_is_Some_2 l j Hj) as [p' Ep']. rewrite Ep', (IH j p' Ep'). f_equal. unfold j.
    rewrite Nat.Div0.add_mod_idemp_l. f_equal. lia.
Qed.

(** ** The elements along a list of producers *)

Definition contents (l : list nat) (cs : gmap nat (list T)) : list T := concat ((fun p => default [] (cs !! p)) <$> l).
(** The sub-queues after [n] elements have been taken along the list. *)
Fixpoint drain (n : nat) (l : list nat) (cs : gmap nat (list T)) : gmap nat (list T) :=
  match l with
  | [] => cs
  | p :: l => let xs := default [] (cs !! p) in drain (n - length xs) l (<[p := drop n xs]> cs)
  end.

Lemma contents_none cs : contents [] cs = [].
Proof. done. Qed.

Lemma contents_cons p l cs : contents (p :: l) cs = default [] (cs !! p) ++ contents l cs.
Proof. done. Qed.

#[export] Instance contents_proper : Proper ((≡ₚ) ==> eq ==> (≡ₚ)) contents.
Proof. intros l l' Hp cs _ <-. unfold contents. by rewrite Hp. Qed.

Lemma contents_insert_ne l p xs cs : p ∉ l -> contents l (<[p := xs]> cs) = contents l cs.
Proof.
  intros Hp. unfold contents. f_equal. apply list_fmap_ext. intros i r Hr. rewrite lookup_insert_ne; [done|].
  intros ->. apply Hp. by eapply list_elem_of_lookup_2.
Qed.

Lemma contents_empty l cs : contents l cs = [] <-> forall p, p ∈ l -> default [] (cs !! p) = [].
Proof.
  induction l as [|p l IH]; [split; [by intros _ p ?%elem_of_nil|done]|]. rewrite contents_cons. split.
  - intros [E1 E2]%app_eq_nil r [->|Hr]%elem_of_cons; [done|]. by apply IH.
  - intros He. rewrite (He p) by left. apply IH. intros r Hr. apply He. by right.
Qed.

Lemma drain_zero l cs : (forall p, p ∈ l -> is_Some (cs !! p)) -> drain 0 l cs = cs.
Proof.
  revert cs. induction l as [|p l IH]; intros cs Hl; [done|]. cbn [drain]. destruct (Hl p) as [xs Ep]; [left|].
  rewrite Ep. cbn. rewrite drop_0, insert_id by done. apply IH. intros r Hr. apply Hl. by right.
Qed.

Lemma drain_empty n l cs : (forall p, p ∈ l -> cs !! p = Some []) -> drain n l cs = cs.
Proof.
  revert n. induction l as [|p l IH]; intros n Hl; [done|]. cbn [drain]. rewrite (Hl p) by left. cbn.
  rewrite drop_nil, insert_id by (apply Hl; left). apply IH. intros r Hr. apply Hl. by right.
Qed.

Lemma lookup_drain_ne n l cs p : p ∉ l -> drain n l cs !! p = cs !! p.
Proof.
  revert n cs. induction l as [|r l IH]; intros n cs Hp; [done|]. cbn [drain]. apply not_elem_of_cons in Hp as [Hne Hp].
  rewrite IH by done. by rewrite lookup_insert_ne.
Qed.

Lemma contents_drain n l cs : NoDup l -> contents l (drain n l cs) = drop n (contents l cs).
Proof.
  revert n cs. induction l as [|p l IH]; intros n cs Hnd; [by destruct n|]. apply NoDup_cons in Hnd as [Hp Hnd].
  cbn [drain]. rewrite !contents_cons, (lookup_drain_ne _ l _ p Hp), lookup_insert_eq, IH, contents_insert_ne by done.
  cbn. by rewrite skipn_app.
Qed.

(** ** Dequeuing from one producer *)

Context `{!SubQueuesLaws S T}.

Definition with_subs (s : S) (q : t) : t :=
  mk (ProducerList.set_subs s (producing q)) (hashing q) (nextExplicitConsumerId q) (globalExplicitConsumerOffset q).
Definition the_list (q : t) : list nat := ProducerList.producerList (producing q).
(** The queue's sub-queues hold [cs]. *)
Definition holds (q : t) (cs : gmap nat (list T)) : Prop := ProducerList.inv (producing q) cs.

Lemma holds_nodup q cs : holds q cs -> NoDup (the_list q).
Proof. apply ProducerList.inv_nodup. Qed.

Lemma holds_lookup q cs p : holds q cs -> p ∈ the_list q -> exists xs, cs !! p = Some xs.
Proof. intros Hq Hp. by apply (ProducerList.inv_contents _ _ Hq) in Hp as [xs ?]; exists xs. Qed.

Lemma holds_change q cs s p xs :
  holds q cs -> p ∈ the_list q -> sub_holds s (<[p := xs]> cs) -> holds (with_subs s q) (<[p := xs]> cs).
Proof.
  intros [Hnd Hc Hp Hcs Ho _] Hin Hs. split; try done. cbn. apply ProducerList.elem_update; [done|]. by apply Hcs.
Qed.

Lemma on_sub_some {A} (m : M S A) q a s :
  m (ProducerList.subs (producing q)) = Some (a, s) -> on_sub m q = Some (a, with_subs s q).
Proof. intros E. unfold on_sub, on_list. by rewrite (ProducerList.sub_some m _ a s E). Qed.

Lemma dequeue_at p q cs xs :
  holds q cs -> p ∈ the_list q -> cs !! p = Some xs ->
  exists s, on_sub (sub_dequeue p) q = Some (head xs, with_subs s q) /\ holds (with_subs s q) (<[p := tail xs]> cs).
Proof.
  intros Hq Hp Ep. destruct (law_dequeue p _ cs xs (ProducerList.inv_subs _ _ Hq) Ep) as (s & E & Hs).
  exists s. split; [by apply on_sub_some|by apply holds_change].
Qed.

Lemma dequeue_bulk_at p max q cs xs :
  holds q cs -> p ∈ the_list q -> cs !! p = Some xs -> 0 <= max ->
  exists s, on_sub (sub_dequeue_bulk p max) q = Some (take (Z.to_nat max) xs, with_subs s q) /\
    holds (with_subs s q) (<[p := drop (Z.to_nat max) xs]> cs).
Proof.
  intros Hq Hp Ep Hmax. destruct (law_dequeue_bulk p max _ cs xs (ProducerList.inv_subs _ _ Hq) Ep Hmax) as (s & E & Hs).
  exists s. split; [by apply on_sub_some|by apply holds_change].
Qed.

Lemma enqueue_at p mode x q cs xs :
  holds q cs -> p ∈ the_list q -> cs !! p = Some xs ->
  exists b s, on_sub (sub_enqueue p mode x) q = Some (b, with_subs s q) /\
    holds (with_subs s q) (if (b : bool) then <[p := xs ++ [x]]> cs else cs).
Proof.
  intros Hq Hp Ep. destruct (law_enqueue p mode x _ cs xs (ProducerList.inv_subs _ _ Hq) Ep) as (b & s & E & Hs).
  exists b, s. split; [by apply on_sub_some|]. destruct b; [by apply holds_change|].
  rewrite <- (insert_id cs p xs Ep). apply holds_change; [done|done|]. by rewrite insert_id.
Qed.

Lemma enqueue_bulk_at p mode ys q cs xs :
  holds q cs -> p ∈ the_list q -> cs !! p = Some xs -> Z.of_nat (length ys) <= 2 ^ 63 ->
  exists b s, on_sub (sub_enqueue_bulk p mode ys) q = Some (b, with_subs s q) /\
    ((b : bool) = true -> holds (with_subs s q) (<[p := xs ++ ys]> cs)).
Proof.
  intros Hq Hp Ep Hn. destruct (law_enqueue_bulk p mode ys _ cs xs (ProducerList.inv_subs _ _ Hq) Ep Hn) as (b & s & E & Hs).
  exists b, s. split; [by apply on_sub_some|]. intros Hb. by apply holds_change, Hs.
Qed.

(** ** Dequeuing from all producers *)

(** [r] is the head of a sub-queue, and it has been taken; or there is none. *)
Definition took (r : option T) (cs cs' : gmap nat (list T)) (l : list nat) : Prop :=
  match r with
  | Some x => exists p xs, (p ∈ l) /\ cs !! p = Some (x :: xs) /\ cs' = <[p := xs]> cs
  | None => (forall p, p ∈ l -> cs !! p = Some []) /\ cs' = cs
  end.

Lemma try_producers_spec best l q cs :
  holds q cs -> (forall p, p ∈ l -> p ∈ the_list q) -> (forall p, best = Some p -> cs !! p = Some []) ->
  exists r s cs', try_producers best l q = Some (r, with_subs s q) /\ took r cs cs' l /\ holds (with_subs s q) cs' /\
    (best = None -> cs' = drain 1 l cs /\ r = head (contents l cs)).
Proof.
  revert q. induction l as [|p l IH]; intros q Hq Hl Hbest; cbn [try_producers].
  - exists None, (ProducerList.subs (producing q)), cs. destruct q as [[]]. split; [done|]. split; [|done].
    split; [|done]. by intros p ?%elem_of_nil.
  - assert (forall p, p ∈ l -> p ∈ the_list q) as Hl' by (intros r Hr; apply Hl; by right).
    case_decide as Hb.
    + destruct (IH q Hq Hl' Hbest) as (r & s & cs' & E & Ht & Hq' & _). exists r, s, cs'. split; [done|].
      split; [|split; [done|congruence]]. destruct r as [x|]; cbn in *.
      * destruct Ht as (p' & xs & Hin & ?). exists p', xs. split; [by right|done].
      * destruct Ht as [He ->]. split; [|done]. intros p' [->|Hin]%elem_of_cons; [by apply Hbest|by apply He].
    + destruct (holds_lookup q cs p Hq) as [xs Ep]; [apply Hl; left|].
      destruct (dequeue_at p q cs xs Hq ltac:(apply Hl; left) Ep) as (s & E & Hs). rewrite (bind_some _ _ _ _ _ E).
      destruct xs as [|x xs]; cbn [head hd_error tail] in *.
      * rewrite insert_id in Hs by done. destruct (IH (with_subs s q) Hs Hl' Hbest) as (r & s' & cs' & E' & Ht & Hq' & Hd).
        exists r, s', cs'. split; [done|]. split; [|split; [done|]].
        -- destruct r as [x|]; cbn in *.
           ++ destruct Ht as (p' & xs & Hin & ?). exists p', xs. split; [by right|done].
           ++ destruct Ht as [He ->]. split; [|done]. intros p' [->|Hin]%elem_of_cons; [done|by apply He].
        -- intros ->. destruct (Hd eq_refl) as [-> ->]. cbn [drain]. rewrite contents_cons, Ep. cbn.
           by rewrite insert_id by done.
      * exists (Some x), s, (<[p := xs]> cs). split; [done|]. split; [|split; [done|]].
        -- exists p, xs. split; [left|done].
        -- intros _. cbn [drain]. rewrite contents_cons, Ep. cbn. rewrite drop_0. split; [|done].
           rewrite drain_zero; [done|]. intros r Hr%Hl'. destruct (holds_lookup _ _ r Hs Hr) as [ys ?]. by exists ys.
Qed.

(** The producer chosen is not empty; if none is chosen, all are empty. *)
Lemma score_spec s (cs : gmap nat (list T)) l n (best : option nat) bestSize :
  (forall p, p ∈ l -> exists xs, cs !! p = Some xs /\ sub_size p s = Z.of_nat (length xs)) ->
  0 <= n -> (n = 0 -> bestSize = 0) -> (0 < n -> exists p x xs, best = Some p /\ cs !! p = Some (x :: xs)) ->
  let '(n', best') := score s l n best bestSize in
  0 <= n' /\ (0 < n' -> exists p x xs, best' = Some p /\ (best = Some p \/ (p ∈ l)) /\ cs !! p = Some (x :: xs)) /\
  (n' = 0 -> n = 0 /\ forall p, p ∈ l -> cs !! p = Some []).
Proof.
  revert n best bestSize. induction l as [|p l IH]; intros n best bestSize Hl Hn Hb Hbest; cbn [score].
  - split; [done|]. split; [|split; [done|by intros p ?%elem_of_nil]]. intros Hpos. destruct (Hbest Hpos) as (p & x & xs & E & Ep).
    exists p, x, xs. split; [done|]. split; [by left|done].
  - destruct (Z.ltb_spec n 3); [|split; [done|]; split; [|lia]].
    2:{ intros Hpos. destruct (Hbest Hpos) as (r & x & xs & E & Er). exists r, x, xs. split; [done|]. split; [by left|done]. }
    assert (forall r, r ∈ l -> exists xs, cs !! r = Some xs /\ sub_size r s = Z.of_nat (length xs)) as Hl'
      by (intros r Hr; apply Hl; by right).
    assert (forall (n' : Z) best' (b : option nat), (forall r, b = Some r -> best = Some r \/ r = p) ->
      (0 < n' -> exists r x xs, best' = Some r /\ (b = Some r \/ (r ∈ l)) /\ cs !! r = Some (x :: xs)) ->
      0 < n' -> exists r x xs, best' = Some r /\ (best = Some r \/ (r ∈ p :: l)) /\ cs !! r = Some (x :: xs)) as Hweak.
    { intros n' best' b Hbb Hex Hpos. destruct (Hex Hpos) as (r & x & xs & E & Hr & Er). exists r, x, xs. split; [done|].
      split; [|done]. destruct Hr as [Hr|Hr]; [|right; by right]. destruct (Hbb r Hr) as [?| ->]; [by left|right; left]. }
    destruct (Hl p) as (xs & Ep & Es); [left|]. rewrite Es.
    destruct (Z.ltb_spec 0 (Z.of_nat (length xs))) as [Hpos|Hzero].
    + destruct xs as [|x xs]; [cbn in Hpos; lia|]. destruct (Z.ltb_spec bestSize (Z.of_nat (length (x :: xs)))) as [Hlt|Hge].
      * specialize (IH (n + 1) (Some p) (Z.of_nat (length (x :: xs))) Hl' ltac:(lia) ltac:(lia)).
        destruct (score s l (n + 1) (Some p) (Z.of_nat (length (x :: xs)))) as [n' best'].
        destruct IH as (Hn' & Hex & Hnone); [intros _; by exists p, x, xs|]. split; [done|].
        split; [apply (Hweak n' best' (Some p)); [intros r [= <-]; by right|done]|]. intros ->. destruct (Hnone eq_refl). lia.
      * assert (0 < n) as Hnpos by (destruct (decide (n = 0)) as [E0|]; [specialize (Hb E0); lia|lia]).
        specialize (IH (n + 1) best bestSize Hl' ltac:(lia) ltac:(lia)).
        destruct (score s l (n + 1) best bestSize) as [n' best'].
        destruct IH as (Hn' & Hex & Hnone); [intros _; by apply Hbest|]. split; [done|].
        split; [apply (Hweak n' best' best); [intros r; by left|done]|]. intros ->. destruct (Hnone eq_refl). lia.
    + destruct xs as [|x xs]; [|cbn in Hzero; lia]. specialize (IH n best bestSize Hl' Hn Hb Hbest).
      destruct (score s l n best bestSize) as [n' best']. destruct IH as (Hn' & Hex & Hnone). split; [done|].
      split; [apply (Hweak n' best' best); [intros r; by left|done]|]. intros ->. destruct (Hnone eq_refl) as [-> He]. split; [done|].
      intros r [->|Hr]%elem_of_cons; [done|by apply He].
Qed.

Lemma sizes q cs p : holds q cs -> p ∈ the_list q -> exists xs, cs !! p = Some xs /\
  sub_size p (ProducerList.subs (producing q)) = Z.of_nat (length xs).
Proof.
  intros Hq Hp. destruct (holds_lookup q cs p Hq Hp) as [xs Ep]. exists xs. split; [done|].
  apply (law_size p _ cs xs); [apply (ProducerList.inv_subs _ _ Hq)|done].
Qed.

(** A dequeue takes the head of a sub-queue, and none only if all are empty. *)
Lemma try_dequeue_spec q cs :
  holds q cs -> exists r s cs', try_dequeue q = Some (r, with_subs s q) /\ took r cs cs' (the_list q) /\ holds (with_subs s q) cs'.
Proof.
  intros Hq. unfold try_dequeue. rewrite (bind_some _ _ _ (the_list q) q) by done.
  rewrite (bind_some _ _ _ (ProducerList.subs (producing q)) q) by done.
  pose proof (score_spec (ProducerList.subs (producing q)) cs (the_list q) 0 None 0 (fun p => sizes q cs p Hq)
    ltac:(lia) ltac:(done) ltac:(lia)) as Hsc.
  destruct (score _ (the_list q) 0 None 0) as [n best]. destruct Hsc as (Hn & Hex & Hnone).
  destruct (Z.ltb_spec 0 n) as [Hpos|Hz].
  - destruct (Hex Hpos) as (p & x & xs & -> & [|Hin] & Ep); [done|]. rewrite (bind_some _ _ _ _ _ (the_some _ p q eq_refl)).
    destruct (dequeue_at p q cs (x :: xs) Hq Hin Ep) as (s & E & Hs). rewrite (bind_some _ _ _ _ _ E).
    exists (Some x), s, (<[p := xs]> cs). split; [done|]. split; [|done]. by exists p, xs.
  - exists None, (ProducerList.subs (producing q)), cs. destruct q as [[]]. split; [done|]. split; [|done]. split; [|done].
    apply Hnone. lia.
Qed.

Lemma try_dequeue_non_interleaved_spec q cs :
  holds q cs -> exists s, try_dequeue_non_interleaved q = Some (head (contents (the_list q) cs), with_subs s q) /\
    holds (with_subs s q) (drain 1 (the_list q) cs).
Proof.
  intros Hq. destruct (try_producers_spec None (the_list q) q cs Hq) as (r & s & cs' & E & _ & Hq' & Hd); [done|done|].
  destruct (Hd eq_refl) as [-> ->]. exists s. by split.
Qed.

(** ** Several elements *)

(** Up to [n] elements have been taken, from the producers in some order, each
    emptied before the next: of all operations that dequeue, with [n = 1] for
    those that take one. Less come out only if there are no more. *)
Definition served (n : nat) (cs : gmap nat (list T)) (ys : list T) (cs' : gmap nat (list T)) : Prop :=
  exists w, NoDup w /\ (forall p, p ∈ w <-> is_Some (cs !! p)) /\ ys = take n (contents w cs) /\ cs' = drain n w cs.

Lemma served_all n q cs w :
  holds q cs -> w ≡ₚ the_list q -> served n cs (take n (contents w cs)) (drain n w cs).
Proof.
  intros Hq Hw. exists w. split; [rewrite Hw; by eapply holds_nodup|]. split; [|done].
  intros p. rewrite Hw. apply (ProducerList.inv_contents _ _ Hq).
Qed.

Lemma served_none n q cs : holds q cs -> (forall p, p ∈ the_list q -> cs !! p = Some []) -> served n cs [] cs.
Proof.
  intros Hq He. exists (the_list q). split; [by eapply holds_nodup|]. split; [apply (ProducerList.inv_contents _ _ Hq)|].
  rewrite (proj2 (contents_empty (the_list q) cs)) by (intros p Hp; by rewrite (He p Hp)).
  by rewrite take_nil, drain_empty.
Qed.

Lemma take_head (l : list T) : take 1 l = option_list (head l).
Proof. by destruct l. Qed.

Lemma took_served q cs r cs' : holds q cs -> took r cs cs' (the_list q) -> served 1 cs (option_list r) cs'.
Proof.
  intros Hq Ht. destruct r as [x|]; cbn in Ht.
  - destruct Ht as (p & xs & (l1 & l2 & El)%list_elem_of_split & Ep & ->). assert (p :: l1 ++ l2 ≡ₚ the_list q) as Hw.
    { rewrite El. by rewrite Permutation_middle. }
    replace (option_list (Some x)) with (take 1 (contents (p :: l1 ++ l2) cs)) by (rewrite contents_cons, Ep; done).
    replace (<[p := xs]> cs) with (drain 1 (p :: l1 ++ l2) cs); [by apply (served_all 1 q)|].
    cbn [drain]. rewrite Ep. cbn. rewrite drop_0. apply drain_zero. intros r Hr.
    assert (r ∈ the_list q) as Hrq by (rewrite <- Hw; by right). apply (ProducerList.inv_contents _ _ Hq) in Hrq as [ys Er].
    destruct (decide (p = r)) as [<-|Hne]; [rewrite lookup_insert_eq; by eexists|]. rewrite lookup_insert_ne by done. by exists ys.
  - destruct Ht as [He ->]. by apply (served_none 1 q).
Qed.

Lemma drain_zero_list q cs l : holds q cs -> (forall p, p ∈ l -> p ∈ the_list q) -> drain 0 l cs = cs.
Proof. intros Hq Hl. apply drain_zero. intros p Hp. destruct (holds_lookup q cs p Hq (Hl p Hp)) as [xs ?]. by exists xs. Qed.

Lemma drain_producers_spec l max got q cs :
  holds q cs -> NoDup l -> (forall p, p ∈ l -> p ∈ the_list q) -> in_width 64 max -> Z.of_nat (length got) <= max ->
  let n := Z.to_nat (max - Z.of_nat (length got)) in
  exists s, drain_producers l max got q = Some (got ++ take n (contents l cs), with_subs s q) /\
    holds (with_subs s q) (drain n l cs).
Proof.
  revert got q cs. induction l as [|p l IH]; intros got q cs Hq Hnd Hl Hw Hgot n; cbn [drain_producers];
    (assert (n = Z.to_nat (max - Z.of_nat (length got))) as En by done); clearbody n.
  - exists (ProducerList.subs (producing q)). destruct q as [[]]. by rewrite contents_none, take_nil, app_nil_r.
  - apply NoDup_cons in Hnd as [Hp Hnd]. assert (forall r, r ∈ l -> r ∈ the_list q) as Hl' by (intros r Hr; apply Hl; by right).
    assert (p ∈ the_list q) as Hpq by (apply Hl; left). destruct (holds_lookup q cs p Hq Hpq) as [xs Ep].
    rewrite (wrap_small 64 (max - _)) by (unfold in_width in *; lia).
    destruct (dequeue_bulk_at p (max - Z.of_nat (length got)) q cs xs Hq Hpq Ep ltac:(lia)) as (s & E & Hs).
    rewrite (bind_some _ _ _ _ _ E). rewrite <- En in Hs |- *. rewrite contents_cons, Ep. cbn [drain]. rewrite Ep. cbn [default from_option id].
    rewrite length_app, length_take. destruct (Z.eqb_spec (Z.of_nat (length got + Nat.min n (length xs))) max) as [Em|Em].
    + assert (n <= length xs)%nat by lia. exists s. rewrite take_app_le by done. split; [done|].
      replace (n - length xs)%nat with O by lia. by rewrite (drain_zero_list (with_subs s q)).
    + assert (length xs < n)%nat by lia. destruct (IH (got ++ take n xs) (with_subs s q) _ Hs Hnd Hl' Hw) as (s' & E' & Hs').
      { rewrite length_app, length_take. lia. }
      exists s'. rewrite E'. replace (Z.to_nat (max - Z.of_nat (length (got ++ take n xs)))) with (n - length xs)%nat in *
        by (rewrite length_app, length_take; lia).
      rewrite contents_insert_ne, <- app_assoc, (take_ge xs n), (take_app_ge xs) by (done || lia). by split.
Qed.

Lemma try_dequeue_bulk_spec max q cs :
  holds q cs -> in_width 64 max ->
  exists s, try_dequeue_bulk max q = Some (take (Z.to_nat max) (contents (the_list q) cs), with_subs s q) /\
    holds (with_subs s q) (drain (Z.to_nat max) (the_list q) cs).
Proof.
  intros Hq Hw. destruct (drain_producers_spec (the_list q) max [] q cs Hq (holds_nodup _ _ Hq)) as (s & E & Hs);
    [done|done|unfold in_width in Hw; cbn; lia|]. cbn [length] in *. rewrite Z.sub_0_r in *. by exists s.
Qed.

Lemma size_approx_spec q cs :
  holds q cs -> size_approx q = Some (u64 (Z.of_nat (length (contents (the_list q) cs))), q).
Proof.
  intros Hq. unfold size_approx. rewrite (bind_some _ _ _ (the_list q) q), (bind_some _ _ _ (ProducerList.subs (producing q)) q) by done.
  unfold mret, M_ret. do 2 f_equal.
  assert (forall l n, (forall p, p ∈ l -> p ∈ the_list q) ->
    fold_left (fun size p => u64 (size + sub_size p (ProducerList.subs (producing q)))) l (u64 n) =
    u64 (n + Z.of_nat (length (contents l cs)))) as Hall.
  { induction l as [|p l IH]; intros n Hl; cbn [fold_left]; [f_equal; cbn; lia|].
    destruct (sizes q cs p Hq) as (xs & Ep & ->); [apply Hl; left|]. rewrite wrap_add_l, IH by (intros r Hr; apply Hl; by right).
    rewrite contents_cons, Ep, length_app. cbn. f_equal. lia. }
  change 0 with (u64 0). by rewrite (Hall (the_list q) 0).
Qed.

(** ** Round the list *)

Definition consumer_ok (l : list nat) (token : ConsumerToken) : Prop :=
  match currentProducer token, desiredProducer token with
  | Some c, Some d => (c ∈ l) /\ (d ∈ l)
  | None, None => True
  | _, _ => False
  end.

Lemma ring_nodup l w : NoDup l -> ring l w -> NoDup w.
Proof. intros Hnd Hw. by rewrite (ring_perm l w Hw). Qed.

(** Those of [u] are still to be tried, those of [seen] have been. *)
Lemma round_spec fuel u : forall c seen p w token q cs,
  holds q cs -> ring (the_list q) (p :: w) -> p :: w = u ++ c :: seen -> currentProducer token = Some c ->
  consumer_ok (the_list q) token -> (length u < fuel)%nat ->
  exists s token', round fuel (the_list q) p token q = Some ((head (contents u cs), token'), with_subs s q) /\
    holds (with_subs s q) (drain 1 u cs) /\ consumer_ok (the_list q) token'.
Proof.
  induction u as [|a u IH] in fuel |- *; intros c seen p w token q cs Hq Hring Ew Ec Hok Hfuel;
    (destruct fuel as [|fuel]; [lia|]); cbn [round].
  - injection Ew as -> ->. rewrite decide_True by done. exists (ProducerList.subs (producing q)), token. by destruct q as [[]].
  - injection Ew as -> ->. pose proof (ring_perm _ _ Hring) as Hperm.
    assert (NoDup (a :: u ++ c :: seen)) as Hnd by (eapply ring_nodup, Hring; by eapply holds_nodup).
    apply NoDup_cons in Hnd as [Ha Hnd]. assert (a <> c) as Hac by (intros ->; apply Ha; set_solver).
    rewrite decide_False by congruence. assert (a ∈ the_list q) as Hin by (rewrite <- Hperm; left).
    destruct (holds_lookup q cs a Hq Hin) as [xs Ea]. destruct (dequeue_at a q cs xs Hq Hin Ea) as (s & E & Hs).
    rewrite (bind_some _ _ _ _ _ E). cbn [drain]. rewrite contents_cons, Ea. cbn [default from_option id].
    destruct xs as [|x xs]; cbn [head hd_error tail app] in *.
    + rewrite insert_id in Hs by done. destruct (ring_next _ _ _ (holds_nodup _ _ Hq) Hring) as (p' & w' & En & Ew' & Hring').
      rewrite (bind_some _ _ _ _ _ (the_some _ _ _ En)).
      destruct (IH fuel c (seen ++ [a]) p' w' token (with_subs s q) cs Hs Hring') as (s' & token' & E' & Hs' & Hok'); [|done|done|cbn in Hfuel; lia|].
      { rewrite <- Ew', <- app_assoc. done. }
      exists s', token'. rewrite drop_nil, insert_id by done. by split.
    + exists s. eexists. split; [reflexivity|]. split; [|].
      * cbn. rewrite drop_0, (drain_zero_list (with_subs s q)); [done|done|]. intros r Hr. cbn. rewrite <- Hperm. set_solver.
      * unfold consumer_ok in *. rewrite Ec in Hok. cbn. by destruct (desiredProducer token); [destruct Hok|].
Qed.

(** The last part of the loop: all have been tried, and it goes on to the
    token's producer. *)
Lemma round_back fuel v : forall c seen p w max got token q cs,
  holds q cs -> ring (the_list q) (p :: w) -> p :: w = v ++ c :: seen -> (forall r, r ∈ v -> cs !! r = Some []) ->
  currentProducer token = Some c -> 0 < max -> in_width 64 max -> (length v < fuel)%nat ->
  exists s, round_bulk fuel (the_list q) p max got token q = Some ((got, token), with_subs s q) /\ holds (with_subs s q) cs.
Proof.
  induction v as [|a v IH] in fuel |- *; intros c seen p w max got token q cs Hq Hring Ew He Ec Hmax Hw Hfuel;
    (destruct fuel as [|fuel]; [lia|]); cbn [round_bulk].
  - injection Ew as -> ->. rewrite decide_True by done. exists (ProducerList.subs (producing q)). by destruct q as [[]].
  - injection Ew as -> ->. pose proof (ring_perm _ _ Hring) as Hperm.
    assert (NoDup (a :: v ++ c :: seen)) as Hnd by (eapply ring_nodup, Hring; by eapply holds_nodup).
    apply NoDup_cons in Hnd as [Ha Hnd]. assert (a <> c) as Hac by (intros ->; apply Ha; set_solver).
    rewrite decide_False by congruence. assert (a ∈ the_list q) as Hin by (rewrite <- Hperm; left).
    assert (cs !! a = Some []) as Ea by (apply He; left).
    destruct (dequeue_bulk_at a max q cs [] Hq Hin Ea ltac:(lia)) as (s & E & Hs). rewrite take_nil in E. rewrite drop_nil in Hs.
    rewrite (bind_some _ _ _ _ _ E). change (Z.of_nat (@length T [])) with 0. rewrite Z.eqb_refl, (proj2 (Z.eqb_neq 0 max)) by lia.
    rewrite insert_id in Hs by done. destruct (ring_next _ _ _ (holds_nodup _ _ Hq) Hring) as (p' & w' & En & Ew' & Hring').
    rewrite (bind_some _ _ _ _ _ (the_some _ _ _ En)). rewrite app_nil_r, Z.sub_0_r, (wrap_small 64 max) by done.
    destruct (IH fuel c (seen ++ [a]) p' w' max got token (with_subs s q) cs Hs Hring') as (s' & E' & Hs'); [| |done|done|done|cbn in Hfuel; lia|].
    + rewrite <- Ew', <- app_assoc. done.
    + intros r Hr. apply He. by right.
    + exists s'. by split.
Qed.

(** Those of [u] are still to be tried, [v], [c] and [seen] are empty. *)
Lemma round_bulk_spec fuel u : forall v c seen p w max got token q cs,
  holds q cs -> ring (the_list q) (p :: w) -> p :: w = u ++ v ++ c :: seen ->
  (forall r, r ∈ v ++ c :: seen -> cs !! r = Some []) -> currentProducer token = Some c ->
  consumer_ok (the_list q) token -> 0 < max -> in_width 64 max -> (length u + length (the_list q) <= fuel)%nat ->
  exists s token', round_bulk fuel (the_list q) p max got token q =
      Some ((got ++ take (Z.to_nat max) (contents u cs), token'), with_subs s q) /\
    holds (with_subs s q) (drain (Z.to_nat max) u cs) /\ consumer_ok (the_list q) token'.
Proof.
  induction u as [|a u IH] in fuel |- *; intros v c seen p w max got token q cs Hq Hring Ew He Ec Hok Hmax Hw Hfuel.
  - destruct (round_back fuel v c seen p w max got token q cs Hq Hring Ew) as (s & E & Hs); [|done|done|done| |].
    + intros r Hr. apply He. set_solver.
    + pose proof (ring_length _ _ Hring) as El. rewrite Ew in El. cbn in El, Hfuel. rewrite length_app in El. cbn in El. lia.
    + exists s, token. by rewrite contents_none, take_nil, app_nil_r.
  - destruct fuel as [|fuel]; [cbn in Hfuel; lia|]. cbn [round_bulk]. injection Ew as -> ->.
    pose proof (ring_perm _ _ Hring) as Hperm.
    assert (NoDup (a :: u ++ v ++ c :: seen)) as Hnd by (eapply ring_nodup, Hring; by eapply holds_nodup).
    apply NoDup_cons in Hnd as [Ha Hnd]. assert (a <> c) as Hac by (intros ->; apply Ha; set_solver).
    rewrite decide_False by congruence. assert (a ∈ the_list q) as Hin by (rewrite <- Hperm; left).
    destruct (holds_lookup q cs a Hq Hin) as [xs Ea].
    destruct (dequeue_bulk_at a max q cs xs Hq Hin Ea ltac:(lia)) as (s & E & Hs). rewrite (bind_some _ _ _ _ _ E).
    destruct (ring_next _ _ _ (holds_nodup _ _ Hq) Hring) as (p' & w' & En & Ew' & Hring').
    rewrite contents_cons, Ea. cbn [drain]. rewrite Ea. cbn [default from_option id].
    set (n := Z.to_nat max) in *. rewrite length_take.
    assert (Hu : a ∉ u) by set_solver.
    destruct (Z.eqb_spec (Z.of_nat (Nat.min n (length xs))) max) as [Em|Em].
    + assert (n <= length xs)%nat by lia. exists s. eexists. split; [|split].
      * rewrite take_app_le by done. reflexivity.
      * replace (n - length xs)%nat with O by lia. rewrite (drain_zero_list (with_subs s q)); [done|done|].
        intros r Hr. cbn. rewrite <- Hperm. set_solver.
      * case_match; [done|]. unfold consumer_ok in *. rewrite Ec in Hok. cbn. by destruct (desiredProducer token); [destruct Hok|].
    + assert (length xs < n)%nat by lia. rewrite (bind_some _ _ _ _ _ (the_some _ _ _ En)).
      rewrite (wrap_small 64 (max - _)) by (unfold in_width in *; lia). rewrite (take_ge xs n), (drop_ge xs n) in * by lia.
      replace (n - length xs)%nat with (Z.to_nat (max - Z.of_nat (Nat.min n (length xs)))) by lia.
      rewrite <- (contents_insert_ne u a [] cs Hu).
      rewrite (take_app_ge xs) by lia. replace (n - length xs)%nat with (Z.to_nat (max - Z.of_nat (Nat.min n (length xs)))) by lia.
      rewrite app_assoc. destruct (Z.eqb_spec (Z.of_nat (Nat.min n (length xs))) 0) as [E0|E0].
      * destruct (IH fuel v c (seen ++ [a]) p' w' (max - Z.of_nat (Nat.min n (length xs))) (got ++ xs) token (with_subs s q) (<[a := []]> cs) Hs Hring')
          as (s' & token' & E' & Hs' & Hok'); [| |done|done|lia|unfold in_width in *; lia|cbn [length] in Hfuel; change (the_list (with_subs s q)) with (the_list q); lia|by exists s', token'].
        -- rewrite <- Ew'. by rewrite <- !app_assoc.
        -- intros r Hr. destruct (decide (a = r)) as [<-|Hne]; [apply lookup_insert_eq|]. rewrite lookup_insert_ne by done.
           apply He. set_solver.
      * destruct (IH fuel (v ++ c :: seen) a [] p' w' (max - Z.of_nat (Nat.min n (length xs))) (got ++ xs)
          (set_items (u32 (Z.of_nat (Nat.min n (length xs)))) (set_current (Some a) token)) (with_subs s q) (<[a := []]> cs) Hs Hring')
          as (s' & token' & E' & Hs' & Hok'); [| |done| |lia|unfold in_width in *; lia|cbn [length] in Hfuel; change (the_list (with_subs s q)) with (the_list q); lia|by exists s', token'].
        -- rewrite <- Ew'. by rewrite <- !app_assoc.
        -- intros r Hr. destruct (decide (a = r)) as [<-|Hne]; [apply lookup_insert_eq|]. rewrite lookup_insert_ne by done.
           apply He. set_solver.
        -- unfold consumer_ok in *. rewrite Ec in Hok. cbn. by destruct (desiredProducer token); [destruct Hok|].
Qed.

(** ** Rotation *)

(** Where a token that has no producer begins: its place is counted from the
    oldest producer, at the end of the list. *)
Definition start_place (token : ConsumerToken) (n : nat) : nat :=
  (n - 1 - Z.to_nat (initialOffset token `mod` Z.of_nat n))%nat.
Definition missed (token : ConsumerToken) (q : t) : nat :=
  Z.to_nat (u32 (globalExplicitConsumerOffset q - lastKnownGlobalOffset token)).
(** The token stands at the place [i]. *)
Definition stands (token : ConsumerToken) (l : list nat) (i : nat) : Prop :=
  match desiredProducer token with None => i = start_place token (length l) | Some d => l !! i = Some d end.

Lemma prod_count q cs : holds q cs -> Z.of_nat (length (the_list q)) < 2 ^ 32 ->
  ProducerList.producerCount (producing q) = Z.of_nat (length (the_list q)).
Proof. intros Hq Hn. rewrite (ProducerList.inv_count _ _ Hq). apply wrap_small. unfold in_width. split; [lia|done]. Qed.

(** The token moves on by as many places as there have been rotations that it
    has missed. *)
Lemma update_spec token q cs i :
  holds q cs -> Z.of_nat (length (the_list q)) < 2 ^ 32 -> consumer_ok (the_list q) token -> stands token (the_list q) i ->
  the_list q <> [] ->
  exists d, the_list q !! ((i + missed token q) `mod` length (the_list q))%nat = Some d /\
    update_current_producer_after_rotation token q =
      Some ((true, mkConsumer (initialOffset token) (globalExplicitConsumerOffset q) 0 (Some d) (Some d)), q).
Proof.
  intros Hq Hsmall Hok Hi Hne. set (l := the_list q) in *. pose proof (holds_nodup q cs Hq) as Hnd. fold l in Hnd.
  assert (0 < length l)%nat as Hpos by (destruct l; [done|cbn; lia]).
  unfold update_current_producer_after_rotation. rewrite (bind_some _ _ _ l q) by done.
  rewrite decide_False by (intros [_ E]; by destruct l).
  rewrite (bind_some _ _ _ _ q) by reflexivity. rewrite (bind_some _ _ _ _ q) by reflexivity.
  rewrite (prod_count q cs Hq Hsmall). fold l. rewrite (proj2 (Z.eqb_neq _ 0)) by lia. rewrite (bind_some _ _ _ tt q) by done.
  assert (exists d0, l !! i = Some d0 /\
    match desiredProducer token with
    | None => match head l with
        | Some p => advance (Z.to_nat (u32 (Z.of_nat (length l) - 1 - initialOffset token `mod` Z.of_nat (length l)))) l p
        | None => None end
    | Some p => Some p end = Some d0) as (d0 & Ed0 & E0).
  { unfold stands in Hi. destruct (desiredProducer token) as [d|]; [by exists d|].
    pose proof (Z.mod_pos_bound (initialOffset token) (Z.of_nat (length l)) ltac:(lia)) as Hm.
    assert (i < length l)%nat as Hlt by (unfold start_place in Hi; lia).
    destruct (lookup_lt_is_Some_2 l i Hlt) as [d Ed]. exists d. split; [done|].
    destruct l as [|p l'] eqn:El; [done|]. cbn [head hd_error]. rewrite <- El in *.
    rewrite (advance_spec _ l O p Hnd) by (by rewrite El). rewrite wrap_small by (unfold in_width; lia).
    rewrite <- Ed, Hi. f_equal. rewrite Nat.add_0_l, Nat.mod_small; unfold start_place; lia. }
  rewrite (bind_some _ _ _ _ _ (the_some _ _ q E0)).
  set (delta := u32 (globalExplicitConsumerOffset q - lastKnownGlobalOffset token)).
  pose proof (wrap_range 32 (globalExplicitConsumerOffset q - lastKnownGlobalOffset token) ltac:(lia)) as Hdelta. fold delta in Hdelta.
  set (j := ((i + missed token q) `mod` length l)%nat). assert (j < length l)%nat as Hj by (apply Nat.mod_upper_bound; lia).
  destruct (lookup_lt_is_Some_2 l j Hj) as [d Ed]. exists d. split; [done|].
  rewrite (bind_some _ _ _ d q); [done|]. apply the_some. rewrite (advance_spec _ l i d0 Hnd Ed0), <- Ed. f_equal. unfold j, missed. fold delta.
  destruct (Z.leb_spec (Z.of_nat (length l)) delta); [|done].
  rewrite Z2Nat.inj_mod, Nat2Z.id by (unfold in_width in Hdelta; lia). by rewrite Nat.Div0.add_mod_idemp_r.
Qed.

Lemma update_empty token q :
  the_list q = [] -> desiredProducer token = None ->
  update_current_producer_after_rotation token q = Some ((false, token), q).
Proof.
  intros E Ed. unfold update_current_producer_after_rotation. rewrite (bind_some _ _ _ (the_list q) q) by done.
  rewrite E, Ed. by rewrite decide_True.
Qed.

Lemma stands_somewhere token l : consumer_ok l token -> exists i, stands token l i.
Proof.
  intros Hok. unfold stands. unfold consumer_ok in Hok. destruct (desiredProducer token) as [d|]; [|by eexists].
  destruct (currentProducer token); [|done]. destruct Hok as [_ Hd]. by apply list_elem_of_lookup in Hd.
Qed.

Lemma rotate_spec token q cs :
  holds q cs -> Z.of_nat (length (the_list q)) < 2 ^ 32 -> consumer_ok (the_list q) token ->
  exists b token', rotate token q = Some ((b, token'), q) /\ consumer_ok (the_list q) token' /\
    if (b : bool) then exists c, currentProducer token' = Some c /\ (c ∈ the_list q) else the_list q = [].
Proof.
  intros Hq Hn Hok. unfold rotate. rewrite (bind_some _ _ _ _ q) by reflexivity. case_decide as Hd.
  - destruct (decide (the_list q = [])) as [E|Hne].
    + exists false, token. split; [|by split]. apply update_empty; [done|]. unfold consumer_ok in Hok. rewrite E in Hok.
      destruct (desiredProducer token); [|done]. destruct (currentProducer token); [|done]. destruct Hok as [?%elem_of_nil _]. done.
    + destruct (stands_somewhere token _ Hok) as [i Hi]. destruct (update_spec token q cs i Hq Hn Hok Hi Hne) as (d & Ed & E).
      apply list_elem_of_lookup_2 in Ed. exists true. eexists. split; [exact E|]. split; [by split|]. by exists d.
  - exists true, token. split; [done|]. split; [done|]. unfold consumer_ok in Hok.
    destruct (desiredProducer token); [|tauto]. destruct (currentProducer token) as [c|]; [|done]. exists c. by destruct Hok.
Qed.

(** ** With a consumer token *)

(** The list from the token's producer on. *)
Lemma current_ring q cs c :
  holds q cs -> (c ∈ the_list q) -> exists u p w, ring (the_list q) (c :: u) /\ next_round (the_list q) c = Some p /\
    u ++ [c] = p :: w /\ ring (the_list q) (p :: w) /\ Datatypes.S (length u) = length (the_list q).
Proof.
  intros Hq Hc. destruct (ring_exists _ _ Hc) as [u Hu]. destruct (ring_next _ _ _ (holds_nodup q cs Hq) Hu) as (p & w & En & Ew & Hw).
  exists u, p, w. split; [done|]. split; [done|]. split; [done|]. split; [done|]. apply (ring_length _ _ Hu).
Qed.

Lemma set_items_ok l token n : consumer_ok l (set_items n token) <-> consumer_ok l token.
Proof. done. Qed.

Lemma holds_offset n q cs : holds (set_offset n q) cs <-> holds q cs.
Proof. done. Qed.

(** The state afterwards: other sub-queues, and perhaps a rotation. *)
Definition after (q q' : t) : Prop := exists s n, q' = set_offset n (with_subs s q).

Lemma maybe_rotate (b : bool) q : exists n, (if b then rotate_everybody else mret tt) q = Some (tt, set_offset n q).
Proof. destruct b; [by eexists|]. exists (globalExplicitConsumerOffset q). by destruct q. Qed.

Lemma try_dequeue_consumer_spec token q cs :
  holds q cs -> Z.of_nat (length (the_list q)) < 2 ^ 32 -> consumer_ok (the_list q) token ->
  exists r token' q' cs', try_dequeue_consumer token q = Some ((r, token'), q') /\ after q q' /\
    served 1 cs (option_list r) cs' /\ holds q' cs' /\ consumer_ok (the_list q) token'.
Proof.
  intros Hq Hn Hok. unfold try_dequeue_consumer.
  destruct (rotate_spec token q cs Hq Hn Hok) as (b & token1 & E1 & Hok1 & Hb). rewrite (bind_some _ _ _ _ _ E1). cbn [fst snd].
  assert (q = set_offset (globalExplicitConsumerOffset q) (with_subs (ProducerList.subs (producing q)) q)) as Eq by (by destruct q as [[]]).
  destruct b.
  - destruct Hb as (c & Ec & Hc). rewrite (bind_some _ _ _ _ _ (the_some _ c q Ec)).
    destruct (current_ring q cs c Hq Hc) as (u & p & w & Hring & En & Ew & Hringp & Elen). pose proof (ring_perm _ _ Hring) as Hperm.
    destruct (holds_lookup q cs c Hq Hc) as [xs Exs]. destruct (dequeue_at c q cs xs Hq Hc Exs) as (s & E2 & Hs).
    rewrite (bind_some _ _ _ _ _ E2). pose proof (served_all 1 q cs (c :: u) Hq Hperm) as Hserved.
    rewrite contents_cons in Hserved. cbn [drain] in Hserved. rewrite Exs in Hserved. cbn [default from_option id] in Hserved.
    destruct xs as [|x xs]; cbn [head hd_error tail] in *.
    + rewrite insert_id in Hs by done. rewrite (bind_some _ _ _ (the_list q) (with_subs s q)) by done.
      rewrite (bind_some _ _ _ _ _ (the_some _ _ (with_subs s q) En)).
      destruct (round_spec (length (the_list q)) u c [] p w token1 (with_subs s q) cs Hs Hringp) as (s' & token' & E3 & Hs' & Hok');
        [by rewrite <- Ew|done|done|lia|]. change (the_list (with_subs s q)) with (the_list q) in *. rewrite E3.
      eexists _, token', _, (drain 1 u cs). split; [reflexivity|]. split; [by exists s', (globalExplicitConsumerOffset q)|].
      split; [|by split]. rewrite drop_nil, insert_id in Hserved by done. cbn [app length] in Hserved. by rewrite <- take_head.
    + destruct (maybe_rotate (u32 (itemsConsumedFromCurrent token1 + 1) =? EXPLICIT_CONSUMER_CONSUMPTION_QUOTA_BEFORE_ROTATE)
        (with_subs s q)) as [n E3]. rewrite (bind_some _ _ _ _ _ E3).
      exists (Some x). eexists _, _, (<[c := xs]> cs). split; [reflexivity|]. split; [by exists s, n|]. split; [|by split].
      cbn [app take drop option_list length] in *. rewrite take_0, drop_0 in Hserved. cbn [Nat.sub] in Hserved.
      rewrite (drain_zero_list (with_subs s q)) in Hserved; [done|done|]. intros r Hr. change (r ∈ the_list q). rewrite <- Hperm. by right.
  - exists None, token1, q, cs. split; [done|]. split; [by eexists _, _|]. split; [|by split].
    apply (served_none 1 q); [done|]. rewrite Hb. by intros p ?%elem_of_nil.
Qed.

Lemma try_dequeue_bulk_consumer_spec token max q cs :
  holds q cs -> Z.of_nat (length (the_list q)) < 2 ^ 32 -> consumer_ok (the_list q) token -> in_width 64 max ->
  exists ys token' q' cs', try_dequeue_bulk_consumer token max q = Some ((ys, token'), q') /\ after q q' /\
    served (Z.to_nat max) cs ys cs' /\ holds q' cs' /\ consumer_ok (the_list q) token'.
Proof.
  intros Hq Hn Hok Hmax. unfold try_dequeue_bulk_consumer.
  destruct (rotate_spec token q cs Hq Hn Hok) as (b & token1 & E1 & Hok1 & Hb). rewrite (bind_some _ _ _ _ _ E1). cbn [fst snd].
  destruct b.
  - destruct Hb as (c & Ec & Hc). rewrite (bind_some _ _ _ _ _ (the_some _ c q Ec)).
    destruct (current_ring q cs c Hq Hc) as (u & p & w & Hring & En & Ew & Hringp & Elen). pose proof (ring_perm _ _ Hring) as Hperm.
    destruct (holds_lookup q cs c Hq Hc) as [xs Exs].
    destruct (dequeue_bulk_at c max q cs xs Hq Hc Exs) as (s & E2 & Hs); [unfold in_width in Hmax; lia|].
    rewrite (bind_some _ _ _ _ _ E2). pose proof (served_all (Z.to_nat max) q cs (c :: u) Hq Hperm) as Hserved.
    rewrite contents_cons in Hserved. cbn [drain] in Hserved. rewrite Exs in Hserved. cbn [default from_option id] in Hserved.
    rewrite length_take. destruct (Z.eqb_spec (Z.of_nat (Nat.min (Z.to_nat max) (length xs))) max) as [Em|Em].
    + assert (Z.to_nat max <= length xs)%nat by lia.
      destruct (maybe_rotate (EXPLICIT_CONSUMER_CONSUMPTION_QUOTA_BEFORE_ROTATE <=? u32 (itemsConsumedFromCurrent token1 + u32 max))
        (with_subs s q)) as [n E3]. rewrite (bind_some _ _ _ _ _ E3).
      eexists _, _, _, _. split; [reflexivity|]. split; [by exists s, n|]. split; [|by split].
      rewrite take_app_le in Hserved by done. replace (Z.to_nat max - length xs)%nat with O in Hserved by lia.
      rewrite (drain_zero_list (with_subs s q)) in Hserved; [exact Hserved|done|]. intros r Hr. change (r ∈ the_list q). rewrite <- Hperm. by right.
    + unfold in_width in Hmax. assert (length xs < Z.to_nat max)%nat by lia. rewrite (bind_some _ _ _ (the_list q) (with_subs s q)) by done.
      rewrite (bind_some _ _ _ _ _ (the_some _ _ (with_subs s q) En)). rewrite (wrap_small 64 (max - _)) by (unfold in_width; lia).
      rewrite (drop_ge xs) in * by lia. rewrite (take_ge xs) in * by lia.
      assert (NoDup (c :: u)) as Hnd by (eapply ring_nodup, Hring; by eapply holds_nodup). apply NoDup_cons in Hnd as [Hcu _].
      destruct (round_bulk_spec (2 * length (the_list q)) u [] c [] p w (max - Z.of_nat (Nat.min (Z.to_nat max) (length xs))) xs
        (set_items (u32 (itemsConsumedFromCurrent token1 + u32 (Z.of_nat (Nat.min (Z.to_nat max) (length xs))))) token1)
        (with_subs s q) (<[c := []]> cs) Hs Hringp) as (s' & token' & E3 & Hs' & Hok').
      * by rewrite <- Ew.
      * intros r ->%list_elem_of_singleton. apply lookup_insert_eq.
      * done.
      * done.
      * lia.
      * unfold in_width; lia.
      * change (the_list (with_subs s q)) with (the_list q). lia.
      * change (the_list (with_subs s q)) with (the_list q) in *. eexists _, token', _, _. split; [exact E3|].
        split; [by exists s', (globalExplicitConsumerOffset q)|]. split; [|by split].
        replace (Z.to_nat (max - Z.of_nat (Nat.min (Z.to_nat max) (length xs)))) with (Z.to_nat max - length xs)%nat by lia.
        rewrite (contents_insert_ne u c [] cs Hcu). by rewrite (take_app_ge xs) in Hserved by lia.
  - exists [], token1, q, cs. split; [done|]. split; [exists (ProducerList.subs (producing q)), (globalExplicitConsumerOffset q); by destruct q as [[]]|].
    split; [|by split]. apply (served_none _ q); [done|]. rewrite Hb. by intros p ?%elem_of_nil.
Qed.

(** ** The destructor *)

Lemma own_destroy (ps : gmap nat ProducerList.producer) ts p d :
  ProducerList.own ps ts -> ps !! p = Some d ->
  ProducerList.own (delete p ps) (match ProducerList.token d with Some a => <[a := None]> ts | None => ts end).
Proof.
  intros [Ht Hs] Ep. split.
  - intros a r. assert (ts !! a = Some (Some p) <-> ProducerList.token d = Some a) as Hp.
    { rewrite Ht. split; [intros (d' & E & ?); congruence|intros ?; by exists d]. }
    destruct (decide (p = r)) as [<-|Hne]; [rewrite lookup_delete_eq|rewrite lookup_delete_ne by done; rewrite <- (Ht a r)].
    + split; [|by intros (? & ? & _)]. destruct (ProducerList.token d) as [b|] eqn:Eb.
      * destruct (decide (b = a)) as [<-|Hba]; [by rewrite lookup_insert_eq|]. rewrite lookup_insert_ne, Hp by done. by intros [= ->].
      * rewrite Hp. done.
    + destruct (ProducerList.token d) as [b|] eqn:Eb; [|done].
      destruct (decide (b = a)) as [<-|Hba]; [|by rewrite lookup_insert_ne]. rewrite lookup_insert_eq. split; [done|].
      intros E. rewrite (proj2 Hp eq_refl) in E. congruence.
  - intros r e Er. apply lookup_delete_Some in Er as [_ Er]. by apply (Hs r).
Qed.

Lemma destroy_producers_spec w : forall l cs,
  NoDup w -> (forall p, p ∈ w <-> is_Some (ProducerList.producers l !! p)) -> (forall p, p ∈ w <-> is_Some (cs !! p)) ->
  ProducerList.own (ProducerList.producers l) (ProducerList.tokens l) -> sub_holds (ProducerList.subs l) cs ->
  exists l', destroy_producers w l = Some (contents w cs, l') /\ ProducerList.producers l' = ∅ /\
    sub_holds (ProducerList.subs l') ∅ /\ forall a p, ProducerList.tokens l' !! a <> Some (Some p).
Proof.
  induction w as [|p w IH]; intros l cs Hnd Hps Hcs Ho Hs; cbn [destroy_producers].
  - assert (ProducerList.producers l = ∅) as Ep.
    { apply map_empty. intros p. apply eq_None_not_Some. intros Hp%Hps. by apply elem_of_nil in Hp. }
    assert (cs = ∅) as ->. { apply map_empty. intros p. apply eq_None_not_Some. intros Hp%Hcs. by apply elem_of_nil in Hp. }
    exists l. split; [done|]. split; [done|]. split; [done|]. intros a p Ea.
    apply (ProducerList.own_token _ _ Ho) in Ea as (d & Ed & _). by rewrite Ep in Ed.
  - apply NoDup_cons in Hnd as [Hp Hnd]. destruct (proj1 (Hps p) ltac:(left)) as [d Ed]. destruct (proj1 (Hcs p) ltac:(left)) as [xs Ex].
    set (l1 := match ProducerList.token d with
      | Some a => ProducerList.set_tokens (<[a := None]> (ProducerList.tokens l)) l | None => l end).
    assert (ProducerList.producers l1 = ProducerList.producers l /\ ProducerList.subs l1 = ProducerList.subs l /\
      ProducerList.tokens l1 = match ProducerList.token d with Some a => <[a := None]> (ProducerList.tokens l) | None => ProducerList.tokens l end)
      as (Ep1 & Es1 & Et1) by (unfold l1; by destruct (ProducerList.token d)).
    rewrite (bind_some _ _ _ (ProducerList.producers l) l) by done. rewrite (bind_some _ _ _ _ _ (the_some _ _ l Ed)).
    rewrite (bind_some _ _ _ tt l1) by (unfold l1; by destruct (ProducerList.token d)).
    destruct (law_destroy p _ cs xs Hs Ex) as (s & E & Hs'). rewrite <- Es1 in E.
    rewrite (bind_some _ _ _ _ _ (ProducerList.sub_some _ l1 _ _ E)).
    set (l2 := ProducerList.set_producers (delete p (ProducerList.producers l1)) (ProducerList.set_subs s l1)).
    rewrite (bind_some _ _ _ tt l2) by done.
    assert (forall {A} (m : gmap nat A), (forall r, r ∈ p :: w <-> is_Some (m !! r)) -> forall r, r ∈ w <-> is_Some (delete p m !! r)) as Hdel.
    { intros A m Hm r. destruct (decide (p = r)) as [<-|Hne]; [rewrite lookup_delete_eq; split; [done|by intros [? ?]]|].
      rewrite lookup_delete_ne, <- Hm, elem_of_cons by done. split; [by right|intros [->|]; done]. }
    destruct (IH l2 (delete p cs)) as (l' & E' & Hps' & Hs2 & Ht').
    + done.
    + cbn. rewrite Ep1. by apply Hdel.
    + by apply Hdel.
    + cbn. rewrite Ep1, Et1. by apply own_destroy.
    + exact Hs'.
    + exists l'. rewrite (bind_some _ _ _ _ _ E'). split; [|done]. unfold mret, M_ret. do 2 f_equal.
      rewrite contents_cons, Ex. cbn. f_equal. unfold contents. f_equal. apply list_fmap_ext. intros i r Er.
      rewrite lookup_delete_ne; [done|]. intros ->. apply Hp. by eapply list_elem_of_lookup_2.
Qed.

(** The destructor destroys what is left, in the order of the producers, and no
    token keeps a producer. *)
Lemma destructor_spec q cs :
  holds q cs -> exists n l, destructor q = Some (contents (the_list q) cs, n, l) /\ ProducerList.producers l = ∅ /\
    sub_holds (ProducerList.subs l) ∅ /\ forall a p, ProducerList.tokens l !! a <> Some (Some p).
Proof.
  intros [Hnd _ Hps Hcs Ho Hs]. destruct (destroy_producers_spec (the_list q) (producing q) cs Hnd Hps Hcs Ho Hs) as (l & E & Hl).
  unfold destructor. unfold the_list in E. rewrite E. by eexists _, l.
Qed.

End Queue.
Arguments t : clear implicits.
End LockFreeQueue.
