(* ===== verification/LockFreeSpec.v ===== *)
(** * What a lock-free queue does for its clients

    Programs over a queue, its producer tokens and consumer tokens, call after
    call: every call returns, and what it returns is what a collection of
    first-in first-out queues allows, one for each producer token and each
    thread without one. *)
From S2P Require Import Prelude.
From S2P Require Import QueueTraits.
From S2P Require Import BlockPool.
From S2P Require Import ProducerHash.
From S2P Require Import ProducerList.
From S2P Require Import LockFreeQueue.
Import (hints) ProducerList.ProducerList.
#[local] Open Scope Z_scope.
Import LockFreeQueue.

Module LockFreeSpec.
Section Spec.
Context {tr : Traits} {S T : Type} `{SubQueues S T}.

(** ** Programs *)

Inductive op :=
| Token (o : ProducerList.token_op)
| NewConsumer (c : nat) | MoveConsumer (c other : nat) | SwapConsumers (c other : nat)
| Enqueue (mode : AllocationMode) (id : Z) (x : T)
| EnqueueBulk (mode : AllocationMode) (id : Z) (xs : list T)
| EnqueueToken (mode : AllocationMode) (a : nat) (x : T)
| EnqueueBulkToken (mode : AllocationMode) (a : nat) (xs : list T)
| TryDequeue | TryDequeueNonInterleaved | TryDequeueConsumer (c : nat)
| TryDequeueBulk (max : Z) | TryDequeueBulkConsumer (c : nat) (max : Z)
| TryDequeueFromProducer (a : nat) | TryDequeueBulkFromProducer (a : nat) (max : Z)
| SizeApprox.
Inductive reply := Done | Enqueued (ok : bool) | BulkRefused | Got (xs : list T) | Size (n : Z).

Abbreviation State := (t S * gmap nat ConsumerToken)%type.
Definition on_queue {A} (m : M (t S) A) : M State A := fun '(q, cs) =>
  match m q with Some (a, q) => Some (a, (q, cs)) | None => None end.
Definition consumer (c : nat) : M State ConsumerToken :=
  cs ← gets snd;
  the (cs !! c).
Definition store_consumer (c : nat) (token : ConsumerToken) : M State unit := modify (fun s => (s.1, <[c := token]> s.2)).

(** A client asks whether a producer token is valid before it uses it. *)
Definition if_valid (a : nat) (otherwise : reply) (m : M (t S) reply) : M State reply :=
  v ← on_queue (on_list (ProducerList.valid a));
  if (v : bool) then on_queue m else mret otherwise.
Definition as_list (m : M (t S) (option T)) : M (t S) (list T) := r ← m; mret (option_list r).
Definition as_list_token (m : M (t S) (option T * ConsumerToken)) : M (t S) (list T * ConsumerToken) :=
  r ← m; mret (option_list r.1, r.2).
Definition bulk_reply (ok : bool) : reply := if ok then Enqueued true else BulkRefused.

Definition exec (o : op) : M State reply :=
  match o with
  | Token o => on_queue (on_list (ProducerList.exec o));; mret Done
  | NewConsumer c => token ← on_queue construct_consumer; store_consumer c token;; mret Done
  | MoveConsumer c other => token ← consumer other; store_consumer c token;; mret Done
  | SwapConsumers c other =>
      token ← consumer c; token' ← consumer other;
      store_consumer c token';; store_consumer other token;; mret Done
  | Enqueue mode id x => on_queue (ok ← enqueue mode id x; mret (Enqueued ok))
  | EnqueueBulk mode id xs => on_queue (ok ← enqueue_bulk mode id xs; mret (bulk_reply ok))
  | EnqueueToken mode a x => if_valid a (Enqueued false) (ok ← enqueue_token mode a x; mret (Enqueued ok))
  | EnqueueBulkToken mode a xs => if_valid a (Enqueued false) (ok ← enqueue_bulk_token mode a xs; mret (bulk_reply ok))
  | TryDequeue => on_queue (ys ← as_list try_dequeue; mret (Got ys))
  | TryDequeueNonInterleaved => on_queue (ys ← as_list try_dequeue_non_interleaved; mret (Got ys))
  | TryDequeueConsumer c =>
      token ← consumer c; r ← on_queue (as_list_token (try_dequeue_consumer token)); store_consumer c r.2;; mret (Got r.1)
  | TryDequeueBulk max => on_queue (ys ← try_dequeue_bulk max; mret (Got ys))
  | TryDequeueBulkConsumer c max =>
      token ← consumer c; r ← on_queue (try_dequeue_bulk_consumer token max); store_consumer c r.2;; mret (Got r.1)
  | TryDequeueFromProducer a => if_valid a (Got []) (ys ← as_list (try_dequeue_from_producer a); mret (Got ys))
  | TryDequeueBulkFromProducer a max => if_valid a (Got []) (ys ← try_dequeue_bulk_from_producer a max; mret (Got ys))
  | SizeApprox => on_queue (n ← size_approx; mret (Size n))
  end.

(** A client stops when a bulk operation is refused: the producer can be
    broken then. *)
Fixpoint run (ops : list op) : M State (list reply) :=
  match ops with
  | [] => mret []
  | o :: ops =>
      r ← exec o;
      match r with
      | BulkRefused => mret [r]
      | _ => rs ← run ops; mret (r :: rs)
      end
  end.

(** A program is legal if it uses the tokens that exist, each queue thread has a
    thread id, and sizes are sizes (no more than 2^63 elements are put in at
    once). The producer tokens and the consumer tokens afterwards. *)
Definition legal (o : op) (live : gset nat * gset nat) : option (gset nat * gset nat) :=
  let has_token a := if decide (a ∈ live.1) then Some live else None in
  let has_consumer c := if decide (c ∈ live.2) then Some live else None in
  match o with
  | Token o => (fun ts => (ts, live.2)) <$> ProducerList.alive o live.1
  | NewConsumer c => Some (live.1, {[c]} ∪ live.2)
  | MoveConsumer c other => if decide (other ∈ live.2) then Some (live.1, {[c]} ∪ live.2) else None
  | SwapConsumers c other => if decide (c ∈ live.2 /\ other ∈ live.2) then Some live else None
  | Enqueue _ id _ => if decide (id = ProducerHash.invalid_thread_id) then None else Some live
  | EnqueueBulk _ id xs =>
      if Z.of_nat (length xs) <=? 2 ^ 63 then if decide (id = ProducerHash.invalid_thread_id) then None else Some live else None
  | EnqueueToken _ a _ | TryDequeueFromProducer a => has_token a
  | EnqueueBulkToken _ a xs => if Z.of_nat (length xs) <=? 2 ^ 63 then has_token a else None
  | TryDequeue | TryDequeueNonInterleaved | SizeApprox => Some live
  | TryDequeueConsumer c => has_consumer c
  | TryDequeueBulk max => if (0 <=? max) && (max <? 2 ^ 64) then Some live else None
  | TryDequeueBulkConsumer c max => if (0 <=? max) && (max <? 2 ^ 64) then has_consumer c else None
  | TryDequeueBulkFromProducer a max => if (0 <=? max) && (max <? 2 ^ 64) then has_token a else None
  end.
Fixpoint legal_program (ops : list op) (live : gset nat * gset nat) : bool :=
  match ops with
  | [] => true
  | o :: ops => match legal o live with Some live => legal_program ops live | None => false end
  end.

(** ** The promise *)

(** Queues by producer, and who has which producer. *)
Record spec := mkSpec { subqueues : gmap nat (list T); of_thread : gmap Z nat; of_token : gmap nat (option nat) }.

Definition grown (cs cs' : gmap nat (list T)) : Prop := cs' = cs \/ exists p, cs !! p = None /\ cs' = <[p := []]> cs.
(** A constructor gets the producer [v], if any. *)
Definition token_effect (o : ProducerList.token_op) (v : option nat) (ts : gmap nat (option nat)) : option (gmap nat (option nat)) :=
  match o with
  | ProducerList.Construct a => Some (<[a := v]> ts)
  | ProducerList.Move a other => (fun w => <[other := None]> (<[a := w]> ts)) <$> ts !! other
  | ProducerList.Swap a other =>
      match ts !! a, ts !! other with Some w, Some w' => Some (<[other := w]> (<[a := w']> ts)) | _, _ => None end
  | ProducerList.Destroy a => Some (delete a ts)
  end.
(** The thread has the producer [p], perhaps a new one. *)
Inductive has_producer (x : spec) (id : Z) (p : nat) : gmap nat (list T) -> gmap Z nat -> Prop :=
| has_known : of_thread x !! id = Some p -> has_producer x id p (subqueues x) (of_thread x)
| has_new : of_thread x !! id = None -> subqueues x !! p = None ->
    has_producer x id p (<[p := []]> (subqueues x)) (<[id := p]> (of_thread x)).

(** How many elements an operation that takes them from any producer asks for. *)
Definition wants (o : op) : option nat :=
  match o with
  | TryDequeue | TryDequeueNonInterleaved | TryDequeueConsumer _ => Some 1%nat
  | TryDequeueBulk max | TryDequeueBulkConsumer _ max => Some (Z.to_nat max)
  | _ => None
  end.
Definition consumers_only (o : op) : bool :=
  match o with NewConsumer _ | MoveConsumer _ _ | SwapConsumers _ _ => true | _ => false end.
Definition is_bulk (o : op) : bool := match o with EnqueueBulk _ _ _ | EnqueueBulkToken _ _ _ => true | _ => false end.
(** What a thread, or a token, enqueues, or dequeues from its producer. *)
Definition of_thread_items (o : op) : option (Z * list T) :=
  match o with Enqueue _ id x => Some (id, [x]) | EnqueueBulk _ id xs => Some (id, xs) | _ => None end.
Definition of_token_items (o : op) : option (nat * list T) :=
  match o with EnqueueToken _ a x => Some (a, [x]) | EnqueueBulkToken _ a xs => Some (a, xs) | _ => None end.
Definition wants_from (o : op) : option (nat * nat) :=
  match o with
  | TryDequeueFromProducer a => Some (a, 1%nat)
  | TryDequeueBulkFromProducer a max => Some (a, Z.to_nat max)
  | _ => None
  end.

Inductive promised (x : spec) : op -> reply -> spec -> Prop :=
| promised_token o v cs ts :
    grown (subqueues x) cs -> token_effect o v (of_token x) = Some ts ->
    promised x (Token o) Done (mkSpec cs (of_thread x) ts)
| promised_consumer o : consumers_only o = true -> promised x o Done x
| promised_enqueued o id ys p xs cs m :
    of_thread_items o = Some (id, ys) -> has_producer x id p cs m -> cs !! p = Some xs ->
    promised x o (Enqueued true) (mkSpec (<[p := xs ++ ys]> cs) m (of_token x))
| promised_refused o id y p cs m :
    of_thread_items o = Some (id, [y]) -> has_producer x id p cs m ->
    promised x o (Enqueued false) (mkSpec cs m (of_token x))
| promised_no_producer o id y : of_thread_items o = Some (id, [y]) -> promised x o (Enqueued false) x
| promised_enqueued_token o a ys p xs :
    of_token_items o = Some (a, ys) -> of_token x !! a = Some (Some p) -> subqueues x !! p = Some xs ->
    promised x o (Enqueued true) (mkSpec (<[p := xs ++ ys]> (subqueues x)) (of_thread x) (of_token x))
| promised_refused_token o a ys : of_token_items o = Some (a, ys) -> promised x o (Enqueued false) x
| promised_got o n ys cs :
    wants o = Some n -> served n (subqueues x) ys cs -> promised x o (Got ys) (mkSpec cs (of_thread x) (of_token x))
| promised_got_from o a n p xs :
    wants_from o = Some (a, n) -> of_token x !! a = Some (Some p) -> subqueues x !! p = Some xs ->
    promised x o (Got (take n xs)) (mkSpec (<[p := drop n xs]> (subqueues x)) (of_thread x) (of_token x))
| promised_no_token o a n : wants_from o = Some (a, n) -> of_token x !! a = Some None -> promised x o (Got []) x
| promised_size w :
    NoDup w -> (forall p, p ∈ w <-> is_Some (subqueues x !! p)) ->
    promised x SizeApprox (Size (u64 (Z.of_nat (length (contents w (subqueues x)))))) x.

(** The replies to a program, up to a bulk operation that is refused, and the
    queues at its end, if it gets there. *)
Inductive promises : spec -> list op -> list reply -> option spec -> Prop :=
| promises_end x : promises x [] [] (Some x)
| promises_reply x o r x' ops rs y : promised x o r x' -> promises x' ops rs y -> promises x (o :: ops) (r :: rs) y
| promises_stop x o ops : is_bulk o = true -> promises x (o :: ops) [BulkRefused] None.

(** What has been put in and what has come out. *)
Definition put_by (o : op) (r : reply) : list T :=
  match r with
  | Enqueued true => default [] (snd <$> of_thread_items o) ++ default [] (snd <$> of_token_items o)
  | _ => []
  end.
Definition got_by (r : reply) : list T := match r with Got ys => ys | _ => [] end.
Fixpoint all_put (ops : list op) (rs : list reply) : list T :=
  match ops, rs with o :: ops, r :: rs => put_by o r ++ all_put ops rs | _, _ => [] end.
Definition all_got (rs : list reply) : list T := concat (got_by <$> rs).
Definition elements (cs : gmap nat (list T)) : list T := concat (snd <$> map_to_list cs).

(** ** Operations on producer tokens *)

Context `{!SubQueuesLaws S T}.
Abbreviation producers := ProducerList.producers.
Abbreviation tokens := ProducerList.tokens.

(** No producer changes its kind. *)
Definition stable (l l' : ProducerList.t S) : Prop := forall p d, producers l !! p = Some d ->
  exists d', producers l' !! p = Some d' /\ ProducerList.isExplicit d' = ProducerList.isExplicit d.
Definition stable_command {A} (m : M (ProducerList.t S) A) : Prop := forall l a l', m l = Some (a, l') -> stable l l'.

Lemma stable_refl l : stable l l.
Proof. intros p d E. by exists d. Qed.

Lemma stable_trans l1 l2 l3 : stable l1 l2 -> stable l2 l3 -> stable l1 l3.
Proof. intros H1 H2 p d E. destruct (H1 p d E) as (d' & E' & K). destruct (H2 p d' E') as (d'' & E'' & K'). exists d''. by rewrite K'. Qed.

Lemma stable_same l l' : producers l' = producers l -> stable l l'.
Proof. intros E p d. rewrite E. by exists d. Qed.

Lemma stable_insert l l' p d d' :
  producers l !! p = Some d -> ProducerList.isExplicit d' = ProducerList.isExplicit d -> producers l' = <[p := d']> (producers l) -> stable l l'.
Proof.
  intros Ep K E r e Er. rewrite E. destruct (decide (p = r)) as [<-|Hne].
  - rewrite lookup_insert_eq. exists d'. rewrite Ep in Er. by injection Er as <-.
  - rewrite lookup_insert_ne by done. by exists e.
Qed.

Lemma stable_bind {A B} (m : M (ProducerList.t S) A) (f : A -> M (ProducerList.t S) B) :
  stable_command m -> (forall a, stable_command (f a)) -> stable_command (m ≫= f).
Proof.
  intros Hm Hf l b l' E. unfold mbind, M_bind in E. destruct (m l) as [[a l1]|] eqn:E1; [|done].
  eapply stable_trans; [exact (Hm _ _ _ E1)|exact (Hf _ _ _ _ E)].
Qed.

Lemma stable_ret {A} (a : A) : stable_command (mret a).
Proof. intros l b l' [= _ <-]. apply stable_refl. Qed.

Lemma stable_on_producer p f : (forall d, ProducerList.isExplicit (f d) = ProducerList.isExplicit d) -> stable_command (ProducerList.on_producer p f).
Proof.
  intros Hf l [] l' E. unfold ProducerList.on_producer in E. cbv [mbind M_bind gets the mret M_ret] in E.
  destruct (producers l !! p) as [d|] eqn:Ep; [|done]. injection E as <-.
  by apply (stable_insert l _ p d (f d)).
Qed.

Lemma stable_token_producer a : stable_command (ProducerList.token_producer (S := S) a).
Proof.
  intros l p l' E. unfold ProducerList.token_producer in E. cbv [mbind M_bind gets the mret M_ret] in E.
  destruct (tokens l !! a); [|done]. injection E as _ <-. apply stable_refl.
Qed.

Lemma stable_store_token a p : stable_command (ProducerList.store_token (S := S) a p).
Proof. intros l [] l' [= <-]. by apply stable_same. Qed.

Lemma stable_claim p a : stable_command (ProducerList.claim (S := S) p a).
Proof. destruct p; [by apply stable_on_producer|apply stable_ret]. Qed.

Create HintDb stable.
#[local] Hint Resolve stable_token_producer stable_store_token stable_claim stable_ret : stable.
#[local] Hint Extern 1 (stable_command (_ ≫= _)) => apply stable_bind; [|intros] : stable.

Lemma stable_exec o l cs l' : ProducerList.inv l cs -> ProducerList.exec o l = Some (tt, l') -> stable l l'.
Proof.
  intros Hi E. destruct o as [a|a other|a other|a]; cbn [ProducerList.exec] in E.
  - unfold ProducerList.construct_token in E.
    assert (forall p, stable_command (p ← mret p; ProducerList.store_token (S := S) a p;; ProducerList.claim p a)) as Hrest by eauto 10 with stable.
    destruct (ProducerList.recycle_or_create_spec true l cs Hi) as [(p & Er & _ & Ep)|[(s & Er & _)|(p & s & Er & Ep & _)]];
      rewrite (bind_some _ _ _ _ _ Er) in E; (eapply stable_trans; [|exact (Hrest _ _ _ _ E)]).
    + by apply (stable_insert l _ p _ (ProducerList.mkProducer true false None) Ep).
    + by apply stable_same.
    + intros r d Er'. cbn. rewrite lookup_insert_ne by congruence. by exists d.
  - revert E. enough (stable_command (ProducerList.move_token (S := S) a other)) as Hs by apply Hs. unfold ProducerList.move_token. eauto 10 with stable.
  - revert E. enough (stable_command (ProducerList.swap_tokens (S := S) a other)) as Hs by apply Hs. unfold ProducerList.swap_tokens. eauto 20 with stable.
  - revert E. enough (stable_command (ProducerList.destroy_token (S := S) a)) as Hs by apply Hs. unfold ProducerList.destroy_token.
    apply stable_bind; [apply stable_token_producer|]. intros p. apply stable_bind.
    + destruct p; [by apply stable_on_producer|apply stable_ret].
    + intros _ l1 [] l2 [= <-]. by apply stable_same.
Qed.

(** Every operation on producer tokens that is legal. *)
Lemma token_exec_spec o l cs live :
  ProducerList.inv l cs -> ProducerList.alive o (dom (tokens l)) = Some live ->
  exists v l' cs', ProducerList.exec o l = Some (tt, l') /\ ProducerList.inv l' cs' /\ grown cs cs' /\
    token_effect o v (tokens l) = Some (tokens l') /\ dom (tokens l') = live /\ stable l l' /\
    (length (ProducerList.producerList l') <= Datatypes.S (length (ProducerList.producerList l)))%nat /\
    (forall p, p ∈ ProducerList.producerList l -> p ∈ ProducerList.producerList l').
Proof.
  intros Hi Ha.
  assert (forall a, (a ∈ dom (tokens l)) -> exists x, tokens l !! a = Some x) as Hlive by (intros a; apply elem_of_dom).
  destruct o as [a|a other|a other|a]; cbn [ProducerList.alive ProducerList.exec token_effect] in *.
  - case_decide as Hin; [done|]. injection Ha as <-. apply not_elem_of_dom in Hin.
    destruct (ProducerList.construct_token_spec a l cs Hi Hin) as (l' & cs' & v & E & Hi' & Et & Hl & _).
    exists v, l', cs'. split; [done|]. split; [done|]. split; [|split; [by rewrite Et|split; [by rewrite Et, dom_insert_L|split]]].
    + destruct Hl as [[_ ->]|(p & _ & Ep & -> & _)]; [by left|right; by exists p].
    + by apply (stable_exec (ProducerList.Construct a) l cs).
    + destruct Hl as [[-> _]|(p & -> & _)]; (split; [cbn; lia|]); [done|]. intros r Hr. by right.
  - case_decide as Hin; [done|]. case_decide as Hin'; [|done]. injection Ha as <-. destruct (Hlive other Hin') as [x Ex].
    apply not_elem_of_dom in Hin.
    destruct (ProducerList.move_token_spec a other x l cs Hi Hin Ex) as (l' & E & Hi' & Et & El & _).
    exists None, l', cs. rewrite Ex. split; [done|]. split; [done|]. split; [by left|]. split; [by rewrite Et|].
    split; [|split; [by apply (stable_exec (ProducerList.Move a other) l cs)|rewrite El; by split; [lia|]]].
    rewrite Et, !dom_insert_L. set_solver.
  - case_decide as Hin; [|done]. injection Ha as <-. destruct Hin as [Hin Hin'].
    destruct (Hlive a Hin) as [x Ex], (Hlive other Hin') as [x' Ex'].
    destruct (ProducerList.swap_tokens_spec a other x x' l cs Hi Ex Ex') as (l' & E & Hi' & Et & El & _).
    exists None, l', cs. rewrite Ex, Ex'. split; [done|]. split; [done|]. split; [by left|]. split; [by rewrite Et|].
    split; [|split; [by apply (stable_exec (ProducerList.Swap a other) l cs)|rewrite El; by split; [lia|]]].
    rewrite Et, !dom_insert_L. set_solver.
  - case_decide as Hin; [|done]. injection Ha as <-. destruct (Hlive a Hin) as [x Ex].
    destruct (ProducerList.destroy_token_spec a x l cs Hi Ex) as (l' & E & Hi' & Et & [El _] & _).
    exists None, l', cs. split; [done|]. split; [done|]. split; [by left|]. split; [by rewrite Et|].
    split; [by rewrite Et, dom_delete_L|]. split; [by apply (stable_exec (ProducerList.Destroy a) l cs)|rewrite El; by split; [lia|]].
Qed.

(** ** Between the calls *)

(** The queues hold [cs], and the threads have the producers of [m]: implicit
    ones, each its own. *)
Record inv (q : t S) (cs : gmap nat (list T)) (m : gmap Z nat) : Prop := mkInv {
  inv_list : holds q cs;
  inv_hash : INITIAL_IMPLICIT_PRODUCER_HASH_SIZE <> 0 -> ProducerHash.inv (hashing q) m;
  inv_implicit : forall id p, m !! id = Some p -> exists d, producers (producing q) !! p = Some d /\ ProducerList.isExplicit d = false;
  inv_own : forall id id' p, m !! id = Some p -> m !! id' = Some p -> id = id'
}.

Lemma inv_thread q cs m id p : inv q cs m -> m !! id = Some p -> p ∈ the_list q.
Proof.
  intros Hi Em. destruct (inv_implicit _ _ _ Hi id p Em) as (d & Ed & _).
  apply (ProducerList.inv_producers _ _ (inv_list _ _ _ Hi)). by exists d.
Qed.

(** Threads are not more than producers. *)
Lemma threads_le q cs m : inv q cs m -> (size m <= length (the_list q))%nat.
Proof.
  intros Hi. rewrite <- (length_map_to_list m), <- (length_fmap snd). apply submseteq_length, NoDup_submseteq.
  - apply NoDup_fmap_2_strong; [|apply NoDup_map_to_list].
    intros [id p] [id' p'] Hin%elem_of_map_to_list Hin'%elem_of_map_to_list E. cbn in E. subst p'.
    by rewrite (inv_own _ _ _ Hi id id' p Hin Hin').
  - intros p ([id p'] & -> & Hin%elem_of_map_to_list)%list_elem_of_fmap. by apply (inv_thread q cs m id).
Qed.

(** Another list of producers, that are what they were. *)
Lemma inv_list_change q cs m l h n o cs' :
  inv q cs m -> ProducerList.inv l cs' -> (INITIAL_IMPLICIT_PRODUCER_HASH_SIZE <> 0 -> ProducerHash.inv h m) ->
  stable (producing q) l -> inv (mk l h n o) cs' m.
Proof.
  intros [_ _ Hk Ho] Hl Hh Hs. split; [exact Hl|exact Hh| |exact Ho]. intros id p Em. destruct (Hk id p Em) as (d & Ed & Kd).
  destruct (Hs p d Ed) as (d' & Ed' & Kd'). exists d'. by rewrite Kd'.
Qed.

Lemma inv_after q q' cs m cs' : inv q cs m -> after q q' -> holds q' cs' -> inv q' cs' m.
Proof.
  intros Hi (s & n & ->) Hs. apply (inv_list_change q cs m); [done|done|apply Hi|by apply stable_same].
Qed.

(** The allocation of a hash table and the creation of an implicit producer, on
    the producers. *)
Lemma table_malloc l cs : ProducerList.inv l cs ->
  exists b s, ProducerList.sub sub_malloc l = Some (b, ProducerList.set_subs s l) /\ ProducerList.inv (ProducerList.set_subs s l) cs.
Proof.
  intros Hl. destruct (law_malloc (ProducerList.subs l) cs (ProducerList.inv_subs _ _ Hl)) as (b & s & E & Hs). exists b, s.
  split; [by rewrite (ProducerList.sub_some _ l b s E)|]. by destruct Hl.
Qed.

Lemma create_implicit l cs : ProducerList.inv l cs ->
  (exists s, ProducerList.recycle_or_create_producer false l = Some (None, ProducerList.set_subs s l) /\
    ProducerList.inv (ProducerList.set_subs s l) cs) \/
  (exists p l', ProducerList.recycle_or_create_producer false l = Some (Some (p, false), l') /\ cs !! p = None /\
    ProducerList.inv l' (<[p := []]> cs) /\ producers l !! p = None /\
    producers l' = <[p := ProducerList.mkProducer false false None]> (producers l) /\ tokens l' = tokens l /\
    ProducerList.producerList l' = p :: ProducerList.producerList l).
Proof.
  intros Hl. destruct (ProducerList.recycle_or_create_spec false l cs Hl) as [(p & _ & [=] & _)|[(s & E & Hs)|(p & s & E & Ep & Ec & Hs)]].
  - left. exists s. split; [done|]. by destruct Hl.
  - right. eexists p, _. split; [exact E|]. split; [done|]. split; [|done].
    destruct Hl as [Hnd Hc Hps Hcs Ho _]. split; cbn; [| | | | |exact Hs].
    + apply NoDup_cons. split; [|done]. intros Hin%Hps. rewrite Ep in Hin. by destruct Hin.
    + rewrite Hc, wrap_add_l. f_equal. lia.
    + by apply ProducerList.elem_insert.
    + by apply ProducerList.elem_insert.
    + by apply ProducerList.own_implicit.
Qed.

(** What [implicit_producer] leaves of the queue. *)
Definition kept (q q' : t S) : Prop :=
  tokens (producing q') = tokens (producing q) /\ (forall p, p ∈ the_list q -> p ∈ the_list q') /\
  (length (the_list q') <= Datatypes.S (length (the_list q)))%nat.

Lemma implicit_producer_spec id q x :
  inv q (subqueues x) (of_thread x) -> INITIAL_IMPLICIT_PRODUCER_HASH_SIZE <> 0 -> id <> ProducerHash.invalid_thread_id ->
  Z.of_nat (length (the_list q)) < 2 ^ 32 ->
  exists r q', implicit_producer id q = Some (r, q') /\ kept q q' /\
    match r with
    | Some p => exists cs m, has_producer x id p cs m /\ inv q' cs m /\ (p ∈ the_list q')
    | None => inv q' (subqueues x) (of_thread x)
    end.
Proof.
  intros Hi Hsize Hid Hn. pose proof (threads_le _ _ _ Hi) as Hle. pose proof (inv_list _ _ _ Hi) as Hl.
  set (cs := subqueues x) in *. set (m := of_thread x) in *. unfold implicit_producer.
  destruct (m !! id) as [p|] eqn:Em.
  - destruct (ProducerHash.get_known (ProducerList.sub sub_malloc) (ProducerList.recycle_or_create_producer false)
      (hashing q) m (producing q) id p (inv_hash _ _ _ Hi Hsize) Hid Em) as (h & E & Hh).
    rewrite E. eexists (Some p), _. split; [reflexivity|]. split; [by repeat split; auto|].
    exists cs, m. split; [by apply has_known|]. split; [|by apply (inv_thread q cs m id p)]. apply (inv_list_change q cs m); [done|done|done|apply stable_refl].
  - destruct (ProducerHash.get_new (ProducerList.sub sub_malloc) (ProducerList.recycle_or_create_producer false)
      (fun l => exists cs, ProducerList.inv l cs)) with (h := hashing q) (m := m) (s := producing q) (id := id)
      as (r & h & l & E & _ & Hh & Hr); [| |by exists cs|by apply Hi|done|done|lia|].
    { intros l [c Hc]. destruct (table_malloc l c Hc) as (b & s & Eb & Hs). exists b. eexists. split; [exact Eb|by exists c]. }
    { intros l [c Hc]. destruct (create_implicit l c Hc) as [(s & Es & Hs)|(p & l' & Es & _ & Hs & _)].
      - exists None. eexists. split; [exact Es|]. split; [by exists c|done].
      - exists (Some (p, false)), l'. split; [done|]. split; [by eexists|]. by intros p' b [= _ <-]. }
    rewrite E. exists r. eexists. split; [reflexivity|].
    destruct (table_malloc (producing q) cs Hl) as (b & s & Eb & Hs).
    destruct Hr as [[-> Em']|(l1 & c & Hl1 & Ec & ->)].
    + rewrite Eb in Em'. injection Em' as _ <-. split; [by repeat split; auto|].
      apply (inv_list_change q cs m); [done|done|done|by apply stable_same].
    + assert (exists s1, l1 = ProducerList.set_subs s1 (producing q) /\ ProducerList.inv l1 cs) as (s1 & -> & Hinv1).
      { destruct Hl1 as [->|Em']; [exists (ProducerList.subs (producing q)); split; [by destruct (producing q)|done]|].
        rewrite Eb in Em'. injection Em' as _ <-. by exists s. }
      destruct (create_implicit _ cs Hinv1) as [(s2 & Es & Hs2)|(p & l' & Es & Ep & Hl' & Epn & Epr & Et & El)]; rewrite Es in Ec; injection Ec as <- <-.
      * split; [by repeat split; auto|].
      apply (inv_list_change q cs m); [done|done|done|by apply stable_same].
      * split; [unfold kept, the_list; cbn [producing]; rewrite El, Et; split; [done|]; split; [by right|done]|]. cbn [fst fmap option_fmap option_map].
        exists (<[p := []]> cs), (<[id := p]> m). split; [by apply has_new|]. split; [|unfold the_list; cbn [producing]; rewrite El; left].
        assert (forall id' p', m !! id' = Some p' -> p' <> p) as Hfresh.
        { intros id' p' Ei ->. destruct (inv_implicit _ _ _ Hi id' p Ei) as (d & Ed & _). cbn in Epn. congruence. }
        split; cbn [hashing producing]; [done|done| |].
        -- intros id' p' Ei. rewrite Epr. destruct (decide (id = id')) as [<-|Hne].
           ++ rewrite lookup_insert_eq in Ei. injection Ei as <-. rewrite lookup_insert_eq. by eexists.
           ++ rewrite lookup_insert_ne in Ei by done. pose proof (Hfresh id' p' Ei). rewrite lookup_insert_ne by done.
              by apply (inv_implicit _ _ _ Hi id').
        -- intros i1 i2 p'. destruct (decide (id = i1)) as [<-|Hne1], (decide (id = i2)) as [<-|Hne2];
             rewrite ?lookup_insert_eq, ?lookup_insert_ne by done; intros E1 E2.
           ++ done.
           ++ injection E1 as <-. by destruct (Hfresh i2 p E2).
           ++ injection E2 as <-. by destruct (Hfresh i1 p E1).
           ++ by apply (inv_own _ _ _ Hi i1 i2 p').
Qed.

(** ** Enqueuing *)

(** An operation that enqueues [ys] with the producer it is given; only a single
    element leaves the queue as it was when it is refused. *)
Definition enqueues (f : nat -> M S bool) (ys : list T) (single : bool) : Prop :=
  forall p q cs xs, holds q cs -> p ∈ the_list q -> cs !! p = Some xs ->
    exists b s, on_sub (f p) q = Some (b, with_subs s q) /\
      if (b : bool) then holds (with_subs s q) (<[p := xs ++ ys]> cs) else single = true -> holds (with_subs s q) cs.

Lemma enqueues_one mode x : enqueues (fun p => sub_enqueue p mode x) [x] true.
Proof.
  intros p q cs xs Hq Hp Ep. destruct (enqueue_at p mode x q cs xs Hq Hp Ep) as (b & s & E & Hs). exists b, s.
  split; [done|]. by destruct b.
Qed.

Lemma enqueues_bulk mode ys : Z.of_nat (length ys) <= 2 ^ 63 -> enqueues (fun p => sub_enqueue_bulk p mode ys) ys false.
Proof.
  intros Hn p q cs xs Hq Hp Ep. destruct (enqueue_bulk_at p mode ys q cs xs Hq Hp Ep Hn) as (b & s & E & Hs). exists b, s.
  split; [done|]. destruct b; [by apply Hs|done].
Qed.

Lemma kept_refl q : kept q q.
Proof. split; [done|]. split; [done|lia]. Qed.

Lemma kept_after q q' q'' : kept q q' -> after q' q'' -> kept q q''.
Proof. by intros Hk (s & n & ->). Qed.

Lemma with_subs_after (s : S) q : after q (with_subs s q).
Proof. exists s, (globalExplicitConsumerOffset q). by destruct q. Qed.

(** What becomes of the elements of a thread. *)
Inductive thread_outcome (x : spec) (id : Z) (ys : list T) (single : bool) : bool -> gmap nat (list T) -> gmap Z nat -> Prop :=
| outcome_enqueued p cs m xs :
    has_producer x id p cs m -> cs !! p = Some xs -> thread_outcome x id ys single true (<[p := xs ++ ys]> cs) m
| outcome_refused p cs m : single = true -> has_producer x id p cs m -> thread_outcome x id ys single false cs m
| outcome_no_producer : single = true -> thread_outcome x id ys single false (subqueues x) (of_thread x).

Lemma enqueue_thread_spec f ys single id q x :
  enqueues f ys single -> inv q (subqueues x) (of_thread x) ->
  id <> ProducerHash.invalid_thread_id -> Z.of_nat (length (the_list q)) < 2 ^ 32 ->
  exists b q', (if INITIAL_IMPLICIT_PRODUCER_HASH_SIZE =? 0 then mret false else
      p ← implicit_producer id; match p with None => mret false | Some p => on_sub (f p) end) q = Some (b, q') /\ kept q q' /\
    (b = false /\ single = false \/ exists cs m, thread_outcome x id ys single b cs m /\ inv q' cs m).
Proof.
  intros Hf Hi Hid Hn. destruct (Z.eqb_spec INITIAL_IMPLICIT_PRODUCER_HASH_SIZE 0) as [E0|Hsize].
  - exists false, q. split; [done|]. split; [apply kept_refl|]. destruct single; [right|by left].
    eexists _, _. split; [by apply outcome_no_producer|done].
  - destruct (implicit_producer_spec id q x Hi Hsize Hid Hn) as (r & q1 & E & Hk & Hr). rewrite (bind_some _ _ _ _ _ E).
    destruct r as [p|].
    + destruct Hr as (cs & m & Hp & Hi1 & Hin). destruct (holds_lookup q1 cs p (inv_list _ _ _ Hi1) Hin) as [xs Ep].
      destruct (Hf p q1 cs xs (inv_list _ _ _ Hi1) Hin Ep) as (b & s & Es & Hs). exists b, (with_subs s q1). split; [done|].
      pose proof (with_subs_after s q1) as Ha. split; [by eapply kept_after|]. destruct b.
      * right. exists (<[p := xs ++ ys]> cs), m. split; [by apply outcome_enqueued|]. by apply (inv_after q1 _ cs).
      * destruct single; [right|by left]. exists cs, m. split; [by apply (outcome_refused x id ys true p)|]. apply (inv_after q1 _ cs); auto.
    + exists false, q1. split; [done|]. split; [done|]. destruct single; [right|by left].
      eexists _, _. split; [by apply outcome_no_producer|done].
Qed.

(** ** With a producer token *)

Lemma token_list (q : t S) cs m a p : inv q cs m -> tokens (producing q) !! a = Some (Some p) -> p ∈ the_list q.
Proof.
  intros Hi Ea. apply (ProducerList.inv_producers _ _ (inv_list _ _ _ Hi)).
  by rewrite (ProducerList.own_explicit _ _ _ _ (ProducerList.inv_own _ _ (inv_list _ _ _ Hi)) Ea).
Qed.

Lemma producer_of_some (q : t S) a p : tokens (producing q) !! a = Some (Some p) -> producer_of a q = Some (p, q).
Proof.
  intros Ea. unfold producer_of, on_list. cbv [mbind M_bind]. rewrite (ProducerList.token_producer_some a _ _ Ea). by destruct q.
Qed.

Lemma valid_some (q : t S) a v : tokens (producing q) !! a = Some v -> on_list (ProducerList.valid a) q = Some (bool_decide (v <> None), q).
Proof.
  intros Ea. unfold on_list, ProducerList.valid. rewrite (bind_some _ _ _ _ _ (ProducerList.token_producer_some a _ _ Ea)). by destruct q.
Qed.

(** ** Every operation *)

Definition good (s : State) (x : spec) : Prop :=
  inv s.1 (subqueues x) (of_thread x) /\ tokens (producing s.1) = of_token x /\
  forall c token, s.2 !! c = Some token -> consumer_ok (the_list s.1) token.

(** What is to be shown of an operation. *)
Definition serves (o : op) (s : State) (x : spec) : Prop :=
  exists r s', exec o s = Some (r, s') /\
    (length (the_list s'.1) <= Datatypes.S (length (the_list s.1)))%nat /\
    (r = BulkRefused /\ is_bulk o = true \/ r <> BulkRefused /\ exists x', promised x o r x' /\ good s' x' /\
      legal o (dom (of_token x), dom s.2) = Some (dom (of_token x'), dom s'.2)).

Lemma on_queue_some {A} (m : M (t S) A) q a q' cs : m q = Some (a, q') -> on_queue m (q, cs) = Some (a, (q', cs)).
Proof. intros E. unfold on_queue. by rewrite E. Qed.

Lemma consumer_some c q cs token : cs !! c = Some token -> consumer c (q, cs) = Some (token, (q, cs)).
Proof. intros E. unfold consumer. cbv [mbind M_bind gets the mret M_ret snd]. by rewrite E. Qed.

Lemma consumer_ok_more l l' token : (forall p, p ∈ l -> p ∈ l') -> consumer_ok l token -> consumer_ok l' token.
Proof.
  intros Hl. unfold consumer_ok. destruct (currentProducer token), (desiredProducer token); try done. intros [? ?]. split; by apply Hl.
Qed.

Lemma good_change q cs q' x x' :
  good (q, cs) x -> inv q' (subqueues x') (of_thread x') -> tokens (producing q') = of_token x' ->
  (forall p, p ∈ the_list q -> p ∈ the_list q') -> good (q', cs) x'.
Proof.
  intros (_ & _ & Hc) Hi Ht Hl. split; [done|]. split; [done|]. intros c token Ec. eapply consumer_ok_more; [exact Hl|by eapply Hc].
Qed.

(** Elements from any producer. *)
Lemma good_served o n q cs x q' ys cs' :
  good (q, cs) x -> after q q' -> wants o = Some n -> served n (subqueues x) ys cs' -> holds q' cs' ->
  promised x o (Got ys) (mkSpec cs' (of_thread x) (of_token x)) /\ good (q', cs) (mkSpec cs' (of_thread x) (of_token x)).
Proof.
  intros Hg Ha Hw Hs Hq'. split; [by apply (promised_got x o n)|]. destruct Ha as (s & m & ->).
  apply (good_change q _ _ x); [done| | |done].
  - apply (inv_after q _ (subqueues x)); [apply Hg|by exists s, m|done].
  - apply Hg.
Qed.

Lemma after_list (q q' : t S) : after q q' -> the_list q' = the_list q.
Proof. by intros (s & n & ->). Qed.

(** A dequeue from any producer that needs no token. *)
Lemma serves_any o n (m : M (t S) (list T)) q cs x :
  good (q, cs) x -> exec o = on_queue (ys ← m; mret (Got ys)) -> wants o = Some n ->
  legal o (dom (of_token x), dom cs) = Some (dom (of_token x), dom cs) ->
  (exists ys q' cs', m q = Some (ys, q') /\ after q q' /\ served n (subqueues x) ys cs' /\ holds q' cs') ->
  serves o (q, cs) x.
Proof.
  intros Hg Eo Hw Hlegal (ys & q' & cs' & E & Ha & Hs & Hq'). exists (Got ys), (q', cs). split; [|split].
  - rewrite Eo. apply on_queue_some. by rewrite (bind_some _ _ _ _ _ E).
  - cbn [fst]. rewrite (after_list q q' Ha). lia.
  - right. split; [done|]. eexists. by destruct (good_served o n q cs x q' ys cs' Hg Ha Hw Hs Hq') as [? ?].
Qed.

(** The same with a consumer token. *)
Lemma serves_consumer o n c token (m : ConsumerToken -> M (t S) (list T * ConsumerToken)) q cs x :
  good (q, cs) x -> cs !! c = Some token ->
  exec o = (token ← consumer c; r ← on_queue (m token); store_consumer c r.2;; mret (Got r.1)) -> wants o = Some n ->
  legal o (dom (of_token x), dom cs) = Some (dom (of_token x), dom cs) ->
  (exists ys token' q' cs', m token q = Some ((ys, token'), q') /\ after q q' /\ served n (subqueues x) ys cs' /\ holds q' cs' /\
    consumer_ok (the_list q) token') ->
  serves o (q, cs) x.
Proof.
  intros Hg Ec Eo Hw Hlegal (ys & token' & q' & cs' & E & Ha & Hs & Hq' & Hok). exists (Got ys), (q', <[c := token']> cs). split; [|split].
  - rewrite Eo, (bind_some _ _ _ _ _ (consumer_some c q cs token Ec)), (bind_some _ _ _ _ _ (on_queue_some _ _ _ _ cs E)). done.
  - cbn [fst]. rewrite (after_list q q' Ha). lia.
  - right. split; [done|]. destruct (good_served o n q cs x q' ys cs' Hg Ha Hw Hs Hq') as [Hp (Hi & Ht & Hc)].
    eexists. split; [exact Hp|]. split; [split; [done|]; split; [done|]|].
    + cbn [fst snd] in *. intros c' token1. destruct (decide (c = c')) as [<-|Hne].
      * rewrite lookup_insert_eq. intros [= <-]. by rewrite (after_list q q' Ha).
      * rewrite lookup_insert_ne by done. apply Hc.
    + cbn [snd of_token] in *. rewrite Hlegal. do 2 f_equal. rewrite dom_insert_L.
      assert (c ∈ dom cs) by (by apply elem_of_dom_2 in Ec). set_solver.
Qed.

(** Consumer tokens do not touch the queue. *)
Lemma serves_consumers o q cs x cs' :
  good (q, cs) x -> consumers_only o = true -> (exists q', exec o (q, cs) = Some (Done, (q', cs')) /\
    producing q' = producing q /\ hashing q' = hashing q) ->
  (forall c token, cs' !! c = Some token -> consumer_ok (the_list q) token) ->
  legal o (dom (of_token x), dom cs) = Some (dom (of_token x), dom cs') -> serves o (q, cs) x.
Proof.
  intros (Hi & Ht & Hc) Ho (q' & E & El & Eh) Hok Hlegal. exists Done, (q', cs'). split; [done|].
  cbn [fst snd] in *. unfold the_list. rewrite El. split; [lia|]. right. split; [done|]. exists x. split; [by apply promised_consumer|].
  split; [|done]. destruct q' as [l h n g]. cbn in El, Eh. subst l h. split; [|split; [done|done]].
  by apply (inv_list_change q (subqueues x) _ _ _ _ _ (subqueues x) Hi); [apply Hi|apply Hi|apply stable_refl].
Qed.

Lemma serves_thread o f ys single (mode_reply : bool -> reply) id q cs x :
  good (q, cs) x -> enqueues f ys single -> of_thread_items o = Some (id, ys) ->
  single = negb (is_bulk o) -> (single = true -> exists y, ys = [y]) ->
  (forall b, mode_reply b = if b then Enqueued true else if single then Enqueued false else BulkRefused) ->
  exec o = on_queue (ok ← (if INITIAL_IMPLICIT_PRODUCER_HASH_SIZE =? 0 then mret false else
      p ← implicit_producer id; match p with None => mret false | Some p => on_sub (f p) end); mret (mode_reply ok)) ->
  legal o (dom (of_token x), dom cs) = Some (dom (of_token x), dom cs) -> id <> ProducerHash.invalid_thread_id ->
  Z.of_nat (length (the_list q)) < 2 ^ 32 -> serves o (q, cs) x.
Proof.
  intros Hg Hf Hitems Hsingle Hone Hreply Eo Hlegal Hid Hn. pose proof Hg as (Hi & Ht & Hc). cbn [fst snd] in Hi, Ht, Hc.
  destruct (enqueue_thread_spec f ys single id q x Hf Hi Hid Hn) as (b & q' & E & Hk & Hb).
  exists (mode_reply b), (q', cs). split; [|split].
  - rewrite Eo. apply on_queue_some. by rewrite (bind_some _ _ _ _ _ E).
  - apply Hk.
  - rewrite Hreply. destruct Hb as [[-> ->]|(cs' & m' & Ho & Hi')]; [left; split; [done|by destruct (is_bulk o)]|right].
    assert (forall x', x' = mkSpec cs' m' (of_token x) -> good (q', cs) x') as Hg'.
    { intros x' ->. apply (good_change q cs q' x); [done|done|by rewrite (proj1 Hk)|apply Hk]. }
    inversion Ho as [p cs1 m1 xs Hp Ep|p cs1 m1 Hs Hp|Hs]; subst.
    + split; [done|]. eexists. split; [by eapply promised_enqueued|]. split; [by apply Hg'|done].
    + destruct (Hone Hs) as [y ->]. rewrite Hs. split; [done|]. eexists. split; [by eapply promised_refused|]. split; [by apply Hg'|done].
    + destruct (Hone Hs) as [y ->]. rewrite Hs. split; [done|]. exists x. split; [by eapply promised_no_producer|].
      split; [apply Hg'; by destruct x|done].
Qed.

Lemma if_valid_some a otherwise (m : M (t S) reply) q cs p :
  tokens (producing q) !! a = Some (Some p) -> if_valid a otherwise m (q, cs) = on_queue m (q, cs).
Proof. intros Ea. unfold if_valid. by rewrite (bind_some _ _ _ _ _ (on_queue_some _ _ _ _ cs (valid_some q a _ Ea))). Qed.

Lemma if_valid_none a otherwise (m : M (t S) reply) q cs :
  tokens (producing q) !! a = Some None -> if_valid a otherwise m (q, cs) = Some (otherwise, (q, cs)).
Proof. intros Ea. unfold if_valid. by rewrite (bind_some _ _ _ _ _ (on_queue_some _ _ _ _ cs (valid_some q a _ Ea))). Qed.

(** The token of an operation is dead or has a producer. *)
Lemma token_cases q cs x a :
  good (q, cs) x -> (a ∈ dom (of_token x)) ->
  of_token x !! a = Some None /\ tokens (producing q) !! a = Some None \/
  exists p xs, of_token x !! a = Some (Some p) /\ tokens (producing q) !! a = Some (Some p) /\ (p ∈ the_list q) /\ subqueues x !! p = Some xs.
Proof.
  intros (Hi & Ht & _) [[p|] Ea]%elem_of_dom; cbn [fst] in *; rewrite Ht, Ea; [right|by left].
  assert (p ∈ the_list q) as Hp by (eapply token_list; [exact Hi|by rewrite Ht]).
  destruct (holds_lookup q _ p (inv_list _ _ _ Hi) Hp) as [xs Ep]. by exists p, xs.
Qed.

Lemma serves_token_enqueue o f ys single (mode_reply : bool -> reply) a q cs x :
  good (q, cs) x -> enqueues f ys single -> of_token_items o = Some (a, ys) ->
  single = negb (is_bulk o) ->
  (forall b, mode_reply b = if b then Enqueued true else if single then Enqueued false else BulkRefused) ->
  exec o = if_valid a (Enqueued false) (ok ← (p ← producer_of a; on_sub (f p)); mret (mode_reply ok)) ->
  legal o (dom (of_token x), dom cs) = Some (dom (of_token x), dom cs) -> (a ∈ dom (of_token x)) -> serves o (q, cs) x.
Proof.
  intros Hg Hf Hitems Hsingle Hreply Eo Hlegal Ha. pose proof Hg as (Hi & Ht & Hc). cbn [fst snd] in Hi, Ht, Hc.
  destruct (token_cases q cs x a Hg Ha) as [[Ea Ea']|(p & xs & Ea & Ea' & Hp & Ep)].
  - exists (Enqueued false), (q, cs). split; [by rewrite Eo, if_valid_none|]. split; [cbn; lia|]. right. split; [done|].
    exists x. split; [by eapply promised_refused_token|]. by split.
  - destruct (Hf p q _ xs (inv_list _ _ _ Hi) Hp Ep) as (b & s & E & Hs). exists (mode_reply b), (with_subs s q, cs). split; [|split].
    + rewrite Eo, (if_valid_some _ _ _ _ _ p Ea'). apply on_queue_some. rewrite (bind_some _ _ _ b (with_subs s q)); [done|].
      by rewrite (bind_some _ _ _ _ _ (producer_of_some q a p Ea')).
    + cbn [fst]. rewrite (after_list q _ (with_subs_after s q)). lia.
    + rewrite Hreply. destruct b; [right|destruct single; [right|left; split; [done|by destruct (is_bulk o)]]]; (split; [done|]).
      * eexists. split; [by eapply promised_enqueued_token|]. split; [|done].
        apply (good_change q cs _ x); [done| |done|done]. eapply inv_after; [exact Hi|apply with_subs_after|exact Hs].
      * exists x. split; [by eapply promised_refused_token|]. split; [|done].
        apply (good_change q cs _ x); [done| |done|done]. eapply inv_after; [exact Hi|apply with_subs_after|by apply Hs].
Qed.

Lemma serves_token_dequeue o n (m : M (t S) (list T)) a q cs x :
  good (q, cs) x -> wants_from o = Some (a, n) -> exec o = if_valid a (Got []) (ys ← m; mret (Got ys)) ->
  (forall p xs, tokens (producing q) !! a = Some (Some p) -> (p ∈ the_list q) -> subqueues x !! p = Some xs -> exists s, m q = Some (take n xs, with_subs s q) /\
    holds (with_subs s q) (<[p := drop n xs]> (subqueues x))) ->
  legal o (dom (of_token x), dom cs) = Some (dom (of_token x), dom cs) -> (a ∈ dom (of_token x)) -> serves o (q, cs) x.
Proof.
  intros Hg Hw Eo Hf Hlegal Ha. pose proof Hg as (Hi & Ht & Hc). cbn [fst snd] in Hi, Ht, Hc.
  destruct (token_cases q cs x a Hg Ha) as [[Ea Ea']|(p & xs & Ea & Ea' & Hp & Ep)].
  - exists (Got []), (q, cs). split; [by rewrite Eo, if_valid_none|]. split; [cbn; lia|]. right. split; [done|].
    exists x. split; [by eapply promised_no_token|]. by split.
  - destruct (Hf p xs Ea' Hp Ep) as (s & E & Hs). exists (Got (take n xs)), (with_subs s q, cs). split; [|split].
    + rewrite Eo, (if_valid_some _ _ _ _ _ p Ea'). apply on_queue_some. by rewrite (bind_some _ _ _ _ _ E).
    + cbn [fst]. rewrite (after_list q _ (with_subs_after s q)). lia.
    + right. split; [done|]. eexists. split; [by eapply promised_got_from|]. split; [|done].
      apply (good_change q cs _ x); [done| |done|done]. eapply inv_after; [exact Hi|apply with_subs_after|exact Hs].
Qed.

Lemma as_list_some (m : M (t S) (option T)) q r q' : m q = Some (r, q') -> as_list m q = Some (option_list r, q').
Proof. intros E. unfold as_list. by rewrite (bind_some _ _ _ _ _ E). Qed.

Lemma as_list_token_some (m : M (t S) (option T * ConsumerToken)) q r token q' :
  m q = Some ((r, token), q') -> as_list_token m q = Some ((option_list r, token), q').
Proof. intros E. unfold as_list_token. by rewrite (bind_some _ _ _ _ _ E). Qed.

Lemma serves_one_consumer q cs x c :
  good (q, cs) x -> Z.of_nat (length (the_list q)) < 2 ^ 32 -> (c ∈ dom cs) -> serves (TryDequeueConsumer c) (q, cs) x.
Proof.
  intros Hg Hn [token Ec]%elem_of_dom. pose proof Hg as (Hi & _ & Hc). cbn [fst snd] in *.
  apply (serves_consumer _ 1 c token (fun token => as_list_token (try_dequeue_consumer token)) q cs x Hg Ec); [done|done| |].
  - cbn. by rewrite decide_True by (by apply elem_of_dom_2 in Ec).
  - destruct (try_dequeue_consumer_spec token q _ (inv_list _ _ _ Hi) Hn (Hc c token Ec)) as (r & token' & q' & cs' & E & ? & ? & ? & ?).
    exists (option_list r), token', q', cs'. by rewrite (as_list_token_some _ _ _ _ _ E).
Qed.

Lemma size_bound max : (0 <=? max) && (max <? 2 ^ 64) = true -> in_width 64 max.
Proof. rewrite andb_true_iff, Z.leb_le, Z.ltb_lt. done. Qed.

Lemma serves_token_op o q cs x ts :
  good (q, cs) x -> ProducerList.alive o (dom (of_token x)) = Some ts -> serves (Token o) (q, cs) x.
Proof.
  intros Hg Ea. pose proof Hg as (Hi & Ht & Hc). cbn [fst snd] in *. pose proof Ea as Ea'. rewrite <- Ht in Ea'.
  destruct (token_exec_spec o (producing q) _ ts (inv_list _ _ _ Hi) Ea') as (v & l' & cs' & E & Hl' & Hgr & He & Hdom & Hst & Hlen & Hin).
  exists Done. eexists (mk l' (hashing q) (nextExplicitConsumerId q) (globalExplicitConsumerOffset q), cs). split; [|split; [done|right; split; [done|]]].
  - cbn [exec]. rewrite (bind_some _ _ _ tt (mk l' (hashing q) (nextExplicitConsumerId q) (globalExplicitConsumerOffset q), cs)); [done|].
    apply on_queue_some. unfold on_list. by rewrite E.
  - exists (mkSpec cs' (of_thread x) (tokens l')). split; [by apply (promised_token x o v); [|rewrite <- Ht]|]. split.
    + apply (good_change q cs _ x); [done| |done|done]. by apply (inv_list_change q (subqueues x) _ _ _ _ _ cs' Hi); [|apply Hi|].
    + cbn [legal fst snd of_token]. by rewrite Ea, <- Hdom.
Qed.

Lemma insert_consumer (cs : gmap nat ConsumerToken) l c token :
  (forall c token, cs !! c = Some token -> consumer_ok l token) -> consumer_ok l token ->
  forall c' token', <[c := token]> cs !! c' = Some token' -> consumer_ok l token'.
Proof.
  intros Hc Hok c' token'. destruct (decide (c = c')) as [<-|Hne]; [rewrite lookup_insert_eq; by intros [= <-]|].
  rewrite lookup_insert_ne by done. apply Hc.
Qed.

Lemma serves_consumer_op o q cs x live :
  good (q, cs) x -> consumers_only o = true -> legal o (dom (of_token x), dom cs) = Some live -> serves o (q, cs) x.
Proof.
  intros Hg Ho Hlegal. pose proof Hg as (Hi & Ht & Hc). cbn [fst snd] in Hc. destruct o as [|c|c other|c other| | | | | | | | | | | |]; try done.
  - apply (serves_consumers _ q cs x (<[c := mkConsumer (nextExplicitConsumerId q) (u32 (-1)) 0 None None]> cs)); [done|done|by eexists| |].
    + by apply insert_consumer.
    + cbn [legal fst snd]. by rewrite dom_insert_L.
  - cbn [legal snd] in Hlegal. case_decide as Hd; [|done]. pose proof Hd as [token Eo]%elem_of_dom.
    apply (serves_consumers _ q cs x (<[c := token]> cs)); [done|done| | |].
    + exists q. split; [|done]. cbn [exec]. by rewrite (bind_some _ _ _ _ _ (consumer_some other q cs token Eo)).
    + apply insert_consumer; [done|by apply (Hc other)].
    + cbn [legal fst snd]. rewrite decide_True by done. by rewrite dom_insert_L.
  - cbn [legal snd] in Hlegal. case_decide as Hd; [|done]. destruct Hd as [Hin Hin'].
    pose proof Hin as [token E]%elem_of_dom. pose proof Hin' as [token' E']%elem_of_dom.
    apply (serves_consumers _ q cs x (<[other := token]> (<[c := token']> cs))); [done|done| | |].
    + exists q. split; [|done]. cbn [exec]. by rewrite (bind_some _ _ _ _ _ (consumer_some c q cs token E)),
        (bind_some _ _ _ _ _ (consumer_some other q cs token' E')).
    + apply insert_consumer; [apply insert_consumer; [done|by apply (Hc other)]|by apply (Hc c)].
    + cbn [legal fst snd]. rewrite decide_True by done. rewrite !dom_insert_L. do 2 f_equal. set_solver.
Qed.

Lemma serves_any_op o q cs x :
  good (q, cs) x -> match o with TryDequeue | TryDequeueNonInterleaved => True | TryDequeueBulk max => in_width 64 max | _ => False end ->
  legal o (dom (of_token x), dom cs) = Some (dom (of_token x), dom cs) -> serves o (q, cs) x.
Proof.
  intros Hg Ho Hlegal. pose proof (inv_list _ _ _ (proj1 Hg)) as Hl. cbn [fst] in Hl.
  destruct o as [| | | | | | | | | | |max| | | |]; try done.
  - apply (serves_any _ 1 (as_list try_dequeue)); try done. destruct (try_dequeue_spec q _ Hl) as (r & s & cs' & E & Hr & Hs).
    exists (option_list r), (with_subs s q), cs'. rewrite (as_list_some _ _ _ _ E). split; [done|]. split; [apply with_subs_after|].
    split; [by eapply took_served|done].
  - apply (serves_any _ 1 (as_list try_dequeue_non_interleaved)); try done. destruct (try_dequeue_non_interleaved_spec q _ Hl) as (s & E & Hs).
    eexists _, (with_subs s q), _. rewrite (as_list_some _ _ _ _ E). split; [done|]. split; [apply with_subs_after|].
    split; [|exact Hs]. rewrite <- take_head. by apply (served_all 1 q).
  - apply (serves_any _ (Z.to_nat max) (try_dequeue_bulk max)); try done. destruct (try_dequeue_bulk_spec max q _ Hl Ho) as (s & E & Hs).
    eexists _, (with_subs s q), _. split; [exact E|]. split; [apply with_subs_after|]. split; [|exact Hs]. by apply (served_all _ q).
Qed.

Lemma serves_from_op o q cs x :
  good (q, cs) x -> match o with TryDequeueFromProducer a => a ∈ dom (of_token x)
    | TryDequeueBulkFromProducer a max => (a ∈ dom (of_token x)) /\ 0 <= max | _ => False end ->
  legal o (dom (of_token x), dom cs) = Some (dom (of_token x), dom cs) -> serves o (q, cs) x.
Proof.
  intros Hg Ho Hlegal. pose proof (inv_list _ _ _ (proj1 Hg)) as Hl. cbn [fst] in Hl.
  destruct o as [| | | | | | | | | | | | |a|a max|]; try done.
  - apply (serves_token_dequeue _ 1 (as_list (try_dequeue_from_producer a)) a); try done.
    intros p xs Ea Hp Ep. destruct (dequeue_at p q _ xs Hl Hp Ep) as (s & E & Hs). exists s.
    rewrite take_head. split; [|by destruct xs]. apply as_list_some. unfold try_dequeue_from_producer.
    by rewrite (bind_some _ _ _ _ _ (producer_of_some q a p Ea)).
  - destruct Ho as [Ha Hmax]. apply (serves_token_dequeue _ (Z.to_nat max) (try_dequeue_bulk_from_producer a max) a); try done.
    intros p xs Ea Hp Ep. destruct (dequeue_bulk_at p max q _ xs Hl Hp Ep Hmax) as (s & E & Hs).
    exists s. split; [|done]. unfold try_dequeue_bulk_from_producer. by rewrite (bind_some _ _ _ _ _ (producer_of_some q a p Ea)).
Qed.

Lemma serves_bulk_consumer q cs x c max :
  good (q, cs) x -> Z.of_nat (length (the_list q)) < 2 ^ 32 -> (c ∈ dom cs) -> (0 <=? max) && (max <? 2 ^ 64) = true ->
  serves (TryDequeueBulkConsumer c max) (q, cs) x.
Proof.
  intros Hg Hn Hd Em. pose proof Hd as [token Ec]%elem_of_dom. pose proof Hg as (Hi & _ & Hc). cbn [fst snd] in *.
  apply (serves_consumer _ (Z.to_nat max) c token (fun token => try_dequeue_bulk_consumer token max)); try done.
  - cbn [legal snd]. by rewrite Em, decide_True.
  - apply try_dequeue_bulk_consumer_spec; [apply Hi|done|by apply (Hc c)|by apply size_bound].
Qed.

Lemma legal_same o (live live' : gset nat * gset nat) :
  legal o live = Some live' -> (match o with Token _ => true | _ => consumers_only o end) = false -> live' = live.
Proof. destruct o; cbn [legal consumers_only]; try done; repeat case_match; try done; by intros [= <-]. Qed.

(** Every legal operation is served. *)
Lemma exec_serves o q cs x live :
  good (q, cs) x -> Z.of_nat (length (the_list q)) < 2 ^ 32 -> legal o (dom (of_token x), dom cs) = Some live ->
  serves o (q, cs) x.
Proof.
  intros Hg Hn Hlegal. pose proof (legal_same o _ _ Hlegal) as Hsame.
  destruct o as [o|c|c other|c other|mode id y|mode id ys|mode a y|mode a ys| | |c|max|c max|a|a max|]; cbn [consumers_only] in Hsame;
    try (specialize (Hsame eq_refl); subst live); pose proof Hlegal as Hd; cbn [legal fst snd] in Hd.
  - destruct (ProducerList.alive o (dom (of_token x))) as [ts|] eqn:Ea; [|done]. by apply (serves_token_op o q cs x ts).
  - by apply (serves_consumer_op _ q cs x live).
  - by apply (serves_consumer_op _ q cs x live).
  - by apply (serves_consumer_op _ q cs x live).
  - case_decide; [done|]. apply (serves_thread _ (fun p => sub_enqueue p mode y) [y] true Enqueued id); try done; [apply enqueues_one|by exists y|by intros []].
  - case_match eqn:Em; [|done]. case_decide; [done|].
    apply (serves_thread _ (fun p => sub_enqueue_bulk p mode ys) ys false bulk_reply id); try done. by apply enqueues_bulk, Z.leb_le.
  - case_decide; [|done]. apply (serves_token_enqueue _ (fun p => sub_enqueue p mode y) [y] true Enqueued a); try done; [apply enqueues_one|by intros []].
  - case_match eqn:Em; [|done]. case_decide; [|done].
    apply (serves_token_enqueue _ (fun p => sub_enqueue_bulk p mode ys) ys false bulk_reply a); try done. by apply enqueues_bulk, Z.leb_le.
  - by apply serves_any_op.
  - by apply serves_any_op.
  - case_decide; [|done]. by apply serves_one_consumer.
  - case_match eqn:Em; [|done]. apply serves_any_op; [done|by apply size_bound|done].
  - case_match eqn:Em; [|done]. case_decide; [|done]. by apply serves_bulk_consumer.
  - case_decide; [|done]. by apply serves_from_op.
  - case_match eqn:Em; [|done]. case_decide; [|done]. apply serves_from_op; [done| |done]. split; [done|]. apply size_bound in Em. unfold in_width in Em. lia.
  - pose proof (inv_list _ _ _ (proj1 Hg)) as Hl. cbn [fst] in Hl.
    exists (Size (u64 (Z.of_nat (length (contents (the_list q) (subqueues x)))))), (q, cs). split; [|split; [cbn; lia|]].
    + cbn [exec]. apply on_queue_some. by rewrite (bind_some _ _ _ _ _ (size_approx_spec q _ Hl)).
    + right. split; [done|]. exists x. split; [|by split]. apply promised_size; [by eapply holds_nodup|apply (ProducerList.inv_contents _ _ Hl)].
Qed.

(** ** Programs *)

Lemma run_serves ops s x :
  good s x -> Z.of_nat (length (the_list s.1) + length ops) <= 2 ^ 32 ->
  legal_program ops (dom (of_token x), dom s.2) = true ->
  exists rs s' y, run ops s = Some (rs, s') /\ promises x ops rs y /\ forall x', y = Some x' -> good s' x'.
Proof.
  revert s x. induction ops as [|o ops IH]; intros s x Hg Hn Hlegal; cbn [run legal_program length] in *.
  - exists [], s, (Some x). split; [done|]. split; [constructor|]. by intros x' [= <-].
  - destruct (legal o (dom (of_token x), dom s.2)) as [live|] eqn:El; [|done]. destruct s as [q cs]. cbn [fst snd] in *.
    destruct (exec_serves o q cs x live Hg ltac:(lia) El) as (r & s1 & E & Hlen & Hr). rewrite (bind_some _ _ _ _ _ E).
    destruct Hr as [[-> Hbulk]|(Hr & x1 & Hp & Hg1 & Hlive)].
    + exists [BulkRefused], s1, None. split; [done|]. split; [by constructor|done].
    + cbn [snd] in Hlive. rewrite El in Hlive. injection Hlive as ->. cbn [fst] in Hlen.
      destruct (IH s1 x1 Hg1 ltac:(lia) Hlegal) as (rs & s2 & y & E2 & Hps & Hy). exists (r :: rs), s2, y.
      split; [|split; [by eapply promises_reply|done]]. destruct r; try done; by rewrite (bind_some _ _ _ _ _ E2).
Qed.

Lemma good_construct s :
  static_asserts = true -> in_width 64 INITIAL_IMPLICIT_PRODUCER_HASH_SIZE -> sub_holds s ∅ -> good (construct s, ∅) (mkSpec ∅ ∅ ∅).
Proof.
  intros Hc Hw Hs. split; [|split; [done|]].
  - split; [by apply ProducerList.construct_inv_empty|intros Hne; by apply ProducerHash.populate_inv|by intros id p|by intros id id' p].
  - by intros c token.
Qed.

Lemma elements_insert (cs : gmap nat (list T)) p xs : cs !! p = None -> elements (<[p := xs]> cs) ≡ₚ xs ++ elements cs.
Proof. intros Ep. unfold elements. by rewrite (map_to_list_insert cs p xs Ep). Qed.

Lemma elements_update cs p xs ys : cs !! p = Some xs -> elements (<[p := ys]> cs) ++ xs ≡ₚ ys ++ elements cs.
Proof.
  intros Ep. rewrite <- (insert_id cs p xs Ep) at 2. rewrite <- (insert_delete_eq cs p ys), <- (insert_delete_eq cs p xs).
  rewrite !elements_insert by apply lookup_delete_eq. rewrite <- app_assoc. f_equiv. apply Permutation_app_comm.
Qed.

Lemma elements_add cs p xs ys : cs !! p = Some xs -> elements (<[p := xs ++ ys]> cs) ≡ₚ elements cs ++ ys.
Proof.
  intros Ep. apply (Permutation_app_inv_r xs). rewrite (elements_update cs p xs _ Ep).
  rewrite <- !app_assoc. rewrite (Permutation_app_comm xs), <- app_assoc. rewrite (Permutation_app_comm ys), <- app_assoc. f_equiv.
  apply Permutation_app_comm.
Qed.

Lemma elements_grown cs cs' : grown cs cs' -> elements cs' ≡ₚ elements cs.
Proof. intros [->|(p & Ep & ->)]; [done|]. by rewrite elements_insert. Qed.

Lemma elements_producer x id p cs m : has_producer x id p cs m -> elements cs ≡ₚ elements (subqueues x).
Proof. intros [?|? Ep]; [done|]. by rewrite elements_insert. Qed.

Lemma contents_elements w (cs : gmap nat (list T)) : NoDup w -> (forall p, p ∈ w <-> is_Some (cs !! p)) -> contents w cs ≡ₚ elements cs.
Proof.
  intros Hnd Hw. assert (w ≡ₚ (map_to_list cs).*1) as ->.
  { apply NoDup_Permutation; [done|apply NoDup_fst_map_to_list|]. intros p. rewrite Hw, list_elem_of_fmap. split.
    - intros [xs Ep]. exists (p, xs). split; [done|]. by apply elem_of_map_to_list.
    - intros ([p' xs] & -> & Hin%elem_of_map_to_list). by exists xs. }
  unfold contents, elements. rewrite <- list_fmap_compose. f_equiv.
  erewrite list_fmap_ext; [reflexivity|]. intros i [p xs] Ei%list_elem_of_lookup_2%elem_of_map_to_list. cbn. by rewrite Ei.
Qed.

Lemma drain_domain n w (cs : gmap nat (list T)) : (forall p, p ∈ w -> is_Some (cs !! p)) -> forall p, is_Some (drain n w cs !! p) <-> is_Some (cs !! p).
Proof.
  revert n cs. induction w as [|r w IH]; intros n cs Hw p; [done|]. cbn [drain].
  assert (forall p, is_Some (<[r := drop n (default [] (cs !! r))]> cs !! p) <-> is_Some (cs !! p)) as Hr
    by (apply ProducerList.is_Some_insert, Hw; left).
  rewrite IH; [apply Hr|]. intros p' Hp'. apply Hr, Hw. by right.
Qed.

Lemma elements_served n cs ys cs' : served n cs ys cs' -> elements cs ≡ₚ ys ++ elements cs'.
Proof.
  intros (w & Hnd & Hw & -> & ->). rewrite <- (contents_elements w cs) by done.
  rewrite <- (contents_elements w (drain n w cs)); [|done|].
  - by rewrite contents_drain, take_drop.
  - intros p. rewrite drain_domain by (intros r; apply Hw). apply Hw.
Qed.

(** Each reply accounts for the elements. *)
Lemma promised_elements x o r x' :
  promised x o r x' -> elements (subqueues x) ++ put_by o r ≡ₚ got_by r ++ elements (subqueues x').
Proof.
  intros Hp. destruct Hp as [o v cs ts Hgr|o Ho|o id ys p xs cs m Ho Hp Ep|o id y p cs m Ho Hp|o id y Ho|o a ys p xs Ho Ea Ep|
    o a ys Ho|o n ys cs Ho Hs|o a n p xs Ho Ea Ep|o a n Ho Ea|w Hnd Hw]; cbn [put_by got_by app subqueues]; rewrite ?app_nil_r; try done.
  - symmetry. by apply elements_grown.
  - rewrite Ho. assert (of_token_items o = None) as -> by (by destruct o). cbn. rewrite app_nil_r.
    by rewrite (elements_add cs p xs ys Ep), (elements_producer x id p cs m Hp).
  - symmetry. by apply (elements_producer x id p cs m).
  - rewrite Ho. assert (of_thread_items o = None) as -> by (by destruct o). cbn. by rewrite (elements_add _ p xs ys Ep).
  - by apply (elements_served n).
  - apply (Permutation_app_inv_r xs). rewrite <- app_assoc, (elements_update _ p xs _ Ep), app_assoc, take_drop.
    apply Permutation_app_comm.
Qed.

Lemma promises_elements x ops rs y :
  promises x ops rs y -> forall x', y = Some x' ->
  elements (subqueues x) ++ all_put ops rs ≡ₚ all_got rs ++ elements (subqueues x').
Proof.
  induction 1 as [x|x o r x1 ops rs y Hp _ IH|x o ops Hb]; intros x' Ey; [injection Ey as <-; cbn; by rewrite app_nil_r| |done].
  cbn [all_put]. unfold all_got in *. cbn [fmap list_fmap concat]. rewrite app_assoc, (promised_elements x o r x1 Hp), <- !app_assoc.
  f_equiv. by apply IH.
Qed.

Lemma promises_ends x ops rs y : promises x ops rs y -> BulkRefused ∉ rs -> exists x', y = Some x'.
Proof.
  induction 1 as [x|x o r x1 ops rs y Hp _ IH|x o ops Hb]; intros Hn; [by exists x| |by destruct Hn; left].
  apply IH. intros Hin. apply Hn. by right.
Qed.


(** The elements that came out and those that are in the queue are those that
    were accepted. *)
Lemma promises_contents ops rs s' y :
  promises (mkSpec ∅ ∅ ∅) ops rs y -> BulkRefused ∉ rs -> (forall x', y = Some x' -> good s' x') ->
  exists cs, holds s'.1 cs /\ all_put ops rs ≡ₚ all_got rs ++ contents (the_list s'.1) cs.
Proof.
  intros Hp Hr Hy. destruct (promises_ends _ _ _ _ Hp Hr) as [x' ->].
  destruct (Hy x' eq_refl) as (Hi & _). pose proof (inv_list _ _ _ Hi) as Hl. exists (subqueues x'). split; [done|].
  rewrite (contents_elements (the_list s'.1)); [|by eapply holds_nodup|apply (ProducerList.inv_contents _ _ Hl)].
  by apply (promises_elements _ _ _ _ Hp).
Qed.

(** Nothing is lost and nothing comes out twice: in every legal program without a
    refused bulk operation the elements that were accepted are those that came
    out together with those that are still in the queue. *)
Theorem elements_come_out_once s ops rs s' :
  static_asserts = true -> in_width 64 INITIAL_IMPLICIT_PRODUCER_HASH_SIZE -> sub_holds s ∅ ->
  legal_program ops (∅, ∅) = true -> Z.of_nat (length ops) <= 2 ^ 32 ->
  run ops (construct s, ∅) = Some (rs, s') -> BulkRefused ∉ rs ->
  exists cs, holds s'.1 cs /\ all_put ops rs ≡ₚ all_got rs ++ contents (the_list s'.1) cs.
Proof.
  intros Hc Hw Hs Hlegal Hn Hrun Hr.
  destruct (run_serves ops (construct s, ∅) (mkSpec ∅ ∅ ∅)) as (rs' & s1 & y & E & Hp & Hy); [by apply good_construct|done| |].
  { cbn [snd of_token]. by rewrite !dom_empty_L. }
  rewrite Hrun in E. injection E as <- <-. by apply (promises_contents ops rs s' y).
Qed.

(** ** Consumers on different producers *)

(** [m] consumer tokens made one after the other. *)
Fixpoint construct_consumers (m : nat) : M (t S) (list ConsumerToken) :=
  match m with
  | O => mret []
  | Datatypes.S m => token ← construct_consumer; tokens ← construct_consumers m; mret (token :: tokens)
  end.

(** A token at each of the rotations [gs] that it notices; the rotations are
    counted without end, and the queue keeps 32 bits of the count. *)
Fixpoint looks_at (gs : list Z) (token : ConsumerToken) : M (t S) ConsumerToken :=
  match gs with
  | [] => mret token
  | g :: gs => modify (set_offset (u32 g));; r ← rotate token; looks_at gs r.2
  end.

(** It looks again before the count has gone round. *)
Fixpoint history (seen : Z) (gs : list Z) : Prop :=
  match gs with
  | [] => True
  | g :: gs => seen <= g < seen + 2 ^ 32 /\ history g gs
  end.

(** A token that has seen the rotations up to [seen], at the place [i]. *)
Definition placed (l : list nat) (seen : Z) (i : nat) (token : ConsumerToken) : Prop :=
  lastKnownGlobalOffset token = u32 seen /\ currentProducer token = desiredProducer token /\
  consumer_ok l token /\ stands token l i.

Lemma rotate_placed q cs seen g i token :
  holds q cs -> Z.of_nat (length (the_list q)) < 2 ^ 32 -> the_list q <> [] -> (i < length (the_list q))%nat ->
  seen <= g < seen + 2 ^ 32 -> placed (the_list q) seen i token ->
  exists d token', rotate token (set_offset (u32 g) q) = Some ((true, token'), set_offset (u32 g) q) /\
    placed (the_list q) g ((i + Z.to_nat (g - seen)) `mod` length (the_list q)) token' /\ currentProducer token' = Some d.
Proof.
  intros Hq Hn Hne Hi Hg (Hseen & Hcur & Hok & Hst). set (q' := set_offset (u32 g) q).
  unfold rotate. rewrite (bind_some _ _ _ (u32 g) q') by reflexivity. case_decide as Hd.
  - destruct (update_spec token q' cs i Hq Hn Hok Hst Hne) as (d & Ed & E). rewrite E.
    assert (missed token q' = Z.to_nat (g - seen)) as Hm.
    { unfold missed. cbn [globalExplicitConsumerOffset q' set_offset]. rewrite Hseen, wrap_sub_l, wrap_sub_r.
      by rewrite wrap_small by (unfold in_width; lia). }
    rewrite Hm in Ed. change (the_list q') with (the_list q) in *. apply list_elem_of_lookup_2 in Ed as Hin.
    exists d. eexists. split; [done|]. split; [|done]. split; [done|]. split; [done|]. split; [by split|done].
  - assert (desiredProducer token <> None /\ lastKnownGlobalOffset token = u32 g) as [Hd1 Hd2].
    { split; [tauto|]. destruct (decide (lastKnownGlobalOffset token = u32 g)); [done|]. exfalso. tauto. }
    assert (g = seen) as ->.
    { rewrite Hseen in Hd2. assert (u32 (g - seen) = 0) as E0.
      { rewrite <- (wrap_sub_l 32 g), <- (wrap_sub_r 32 _ seen), Hd2. by rewrite Z.sub_diag. }
      rewrite wrap_small in E0 by (unfold in_width; lia). lia. }
    destruct (desiredProducer token) as [d|] eqn:Ed; [|done]. exists d, token. split; [done|]. split; [|done].
    replace (i + Z.to_nat (seen - seen))%nat with i by lia. rewrite Nat.mod_small by done.
    split; [done|]. split; [congruence|]. by split.
Qed.

Lemma looks_placed gs q cs seen G i token :
  holds q cs -> Z.of_nat (length (the_list q)) < 2 ^ 32 -> the_list q <> [] -> (i < length (the_list q))%nat ->
  history seen gs -> last gs = Some G -> placed (the_list q) seen i token ->
  exists token' q', looks_at gs token q = Some (token', q') /\
    currentProducer token' = the_list q !! ((i + Z.to_nat (G - seen)) `mod` length (the_list q))%nat.
Proof.
  revert q seen i token. induction gs as [|g gs IH]; intros q seen i token Hq Hn Hne Hi Hh HG Hp; [done|].
  destruct Hh as [Hg Hh]. cbn [looks_at]. rewrite (bind_some _ _ _ tt (set_offset (u32 g) q)) by done.
  destruct (rotate_placed q cs seen g i token Hq Hn Hne Hi Hg Hp) as (d & token' & E & Hp' & Hd).
  rewrite (bind_some _ _ _ _ _ E). cbn [snd].
  assert ((i + Z.to_nat (g - seen)) `mod` length (the_list q) < length (the_list q))%nat as Hi' by (apply Nat.mod_upper_bound; lia).
  destruct gs as [|g' gs].
  - injection HG as ->. exists token', (set_offset (u32 G) q). split; [done|].
    destruct Hp' as (_ & Hcur & _ & Hst). unfold stands in Hst. rewrite <- Hcur, Hd in Hst. by rewrite Hst.
  - assert (forall gs g, history g gs -> forall G, last gs = Some G -> g <= G) as Hle.
    { clear. induction gs as [|g1 gs IH]; intros g Hh G HG; [done|]. destruct Hh as [H1 H2].
      destruct gs as [|g2 gs]; [injection HG as ->; lia|]. specialize (IH g1 H2 G HG). lia. }
    destruct (IH (set_offset (u32 g) q) g _ token' Hq Hn Hne Hi' Hh HG Hp') as (t' & q' & E' & Ec).
    exists t', q'. split; [done|]. rewrite Ec. change (the_list (set_offset (u32 g) q)) with (the_list q).
    rewrite Nat.Div0.add_mod_idemp_l. do 2 f_equal. specialize (Hle _ _ Hh _ HG). lia.
Qed.

Lemma add_mod_neq n i1 i2 d : (i1 < n)%nat -> (i2 < n)%nat -> i1 <> i2 -> ((i1 + d) `mod` n <> (i2 + d) `mod` n)%nat.
Proof.
  intros H1 H2 Hne E. rewrite <- (Nat.Div0.add_mod_idemp_r i1 d), <- (Nat.Div0.add_mod_idemp_r i2 d) in E.
  pose proof (Nat.mod_upper_bound d n ltac:(lia)) as Hd. set (e := (d `mod` n)%nat) in *.
  assert (forall i, (i < n)%nat -> ((i + e) `mod` n = if decide (i + e < n) then i + e else i + e - n)%nat) as Hmod.
  { intros i Hi. case_decide; [by apply Nat.mod_small|]. replace (i + e)%nat with ((i + e - n) + 1 * n)%nat at 1 by lia.
    rewrite Nat.Div0.mod_add. apply Nat.mod_small. lia. }
  rewrite !Hmod in E by done. repeat case_decide; lia.
Qed.

(** The tokens as they are made. *)
Lemma construct_consumers_spec m q :
  0 <= nextExplicitConsumerId q -> nextExplicitConsumerId q + Z.of_nat m <= 2 ^ 32 ->
  exists tokens q', construct_consumers m q = Some (tokens, q') /\ producing q' = producing q /\
    hashing q' = hashing q /\ length tokens = m /\
    forall i token, tokens !! i = Some token -> token = mkConsumer (nextExplicitConsumerId q + Z.of_nat i) (u32 (-1)) 0 None None.
Proof.
  revert q. induction m as [|m IH]; intros q H0 Hm; [by exists [], q|]. cbn [construct_consumers].
  set (q1 := set_next_id (u32 (nextExplicitConsumerId q + 1)) q).
  rewrite (bind_some _ _ _ (mkConsumer (nextExplicitConsumerId q) (u32 (-1)) 0 None None) q1) by reflexivity.
  destruct (decide (m = O)) as [->|Hm0].
  { exists [mkConsumer (nextExplicitConsumerId q) (u32 (-1)) 0 None None], q1. repeat (split; [done|]).
    intros [|i] token E; [|done]. injection E as <-. f_equal. lia. }
  assert (nextExplicitConsumerId q1 = nextExplicitConsumerId q + 1) as E1 by (cbn; apply wrap_small; unfold in_width; lia).
  destruct (IH q1) as (tokens & q' & E & Ep & Eh & El & Hall); [lia|lia|].
  rewrite (bind_some _ _ _ _ _ E). eexists _, q'. split; [done|]. split; [done|]. split; [done|]. split; [cbn; by rewrite El|].
  intros [|i] token Ei; [injection Ei as <-; f_equal; lia|]. rewrite (Hall i token Ei), E1. f_equal. lia.
Qed.

Lemma mod_apart k1 k2 n : 0 < n -> k1 `mod` n = k2 `mod` n -> - n < k1 - k2 < n -> k1 = k2.
Proof.
  intros Hn E Hk. pose proof (Z.div_mod k1 n ltac:(lia)). pose proof (Z.div_mod k2 n ltac:(lia)).
  assert (k1 / n = k2 / n) by nia. nia.
Qed.

(** C20: rotation keeps consumers apart: consumer tokens made one after the other, no more than there are
    producers and before the 32-bit count of the tokens wraps around, are on pairwise different producers once
    they have all seen the same rotation, whichever rotations each of them has noticed before, also when the
    global offset has wrapped around in between; as long as no producer is added, and each token first looks
    before the offset wraps around and again within 2^32 rotations. *)
Theorem consumers_spread q cs m gss G :
  holds q cs -> Z.of_nat (length (the_list q)) < 2 ^ 32 -> (m <= length (the_list q))%nat ->
  0 <= nextExplicitConsumerId q -> nextExplicitConsumerId q + Z.of_nat m <= 2 ^ 32 ->
  length gss = m -> Forall (fun gs => history (-1) gs /\ last gs = Some G) gss ->
  exists tokens q1 ds, construct_consumers m q = Some (tokens, q1) /\ length tokens = m /\
    length ds = m /\ NoDup ds /\ ds ⊆ the_list q /\
    forall i token gs, tokens !! i = Some token -> gss !! i = Some gs ->
      exists t d q2, looks_at gs token q1 = Some (t, q2) /\ ds !! i = Some d /\ currentProducer t = Some d.
Proof.
  intros Hq Hn Hm H0 Hid Hlen Hgs. set (l := the_list q) in *. set (n := length l) in *. set (c := nextExplicitConsumerId q) in *.
  destruct (construct_consumers_spec m q H0 Hid) as (tokens & q1 & E & Ep & Eh & El & Htok).
  assert (the_list q1 = l) as El1 by (unfold the_list, l; by rewrite Ep).
  assert (holds q1 cs) as Hq1 by (unfold holds; by rewrite Ep).
  pose (start i := (n - 1 - Z.to_nat ((c + Z.of_nat i) `mod` Z.of_nat n))%nat).
  pose (place i := ((start i + Z.to_nat (G - -1)) `mod` n)%nat).
  assert (forall i, (i < m)%nat -> (start i < n /\ place i < n)%nat) as Hpl.
  { intros i Hi. split; [unfold start; lia|]. apply Nat.mod_upper_bound. lia. }
  pose (ds := (fun i => default O (l !! place i)) <$> seq 0 m).
  assert (forall i, (i < m)%nat -> exists d, ds !! i = Some d /\ l !! place i = Some d) as Hds.
  { intros i Hi. destruct (Hpl i Hi) as [_ Hpi]. destruct (lookup_lt_is_Some_2 l (place i) Hpi) as [d Ed]. exists d. split; [|done].
    unfold ds. rewrite list_lookup_fmap, lookup_seq_lt by done. cbn. by rewrite Ed. }
  exists tokens, q1, ds. split; [done|]. split; [done|]. split; [unfold ds; by rewrite length_fmap, length_seq|]. split; [|split].
  - apply NoDup_alt. intros i j d Hi Hj.
    assert (i < m /\ j < m)%nat as [Hi' Hj'].
    { unfold ds in *. apply lookup_lt_Some in Hi, Hj. rewrite length_fmap, length_seq in *. done. }
    destruct (Hds i Hi') as (d1 & E1 & L1), (Hds j Hj') as (d2 & E2 & L2). rewrite Hi in E1. rewrite Hj in E2.
    injection E1 as <-. injection E2 as <-. pose proof (NoDup_lookup _ _ _ _ (holds_nodup q cs Hq) L1 L2) as Epl.
    destruct (Hpl i Hi') as [Hsi _], (Hpl j Hj') as [Hsj _].
    assert (start i = start j) as Est.
    { destruct (decide (start i = start j)) as [|Hne]; [done|]. by destruct (add_mod_neq n _ _ (Z.to_nat (G - -1)) Hsi Hsj Hne). }
    unfold start in Est. assert (0 < Z.of_nat n) as Hpos by lia.
    pose proof (Z.mod_pos_bound (c + Z.of_nat i) (Z.of_nat n) Hpos). pose proof (Z.mod_pos_bound (c + Z.of_nat j) (Z.of_nat n) Hpos).
    assert (c + Z.of_nat i = c + Z.of_nat j); [|lia]. apply (mod_apart _ _ (Z.of_nat n)); [done|lia|lia].
  - intros d [i Hi]%list_elem_of_lookup. assert (i < m)%nat as Hi'.
    { apply lookup_lt_Some in Hi. unfold ds in Hi. by rewrite length_fmap, length_seq in Hi. }
    destruct (Hds i Hi') as (d' & E1 & L1). rewrite Hi in E1. injection E1 as <-. by eapply list_elem_of_lookup_2.
  - intros i token gs Hi Hg. assert (i < m)%nat as Hi' by (rewrite <- El; by eapply lookup_lt_Some).
    rewrite (Htok i token Hi). apply Forall_lookup_1 with (1 := Hgs) in Hg as [Hh HG].
    destruct (Hds i Hi') as (d & Ed & L). destruct (Hpl i Hi') as [Hsi _].
    assert (l <> []) as Hne by (intros Enil; unfold n in Hsi; rewrite Enil in Hsi; cbn in Hsi; lia).
    destruct (looks_placed gs q1 cs (-1) G (start i) (mkConsumer (c + Z.of_nat i) (u32 (-1)) 0 None None)) as (t' & q2 & E2 & Ec);
      rewrite ?El1; try done.
    exists t', d, q2. split; [done|]. split; [done|]. rewrite Ec, El1. exact L.
Qed.

End Spec.

(** ** Examples *)

(** Two producer tokens and a thread, and consumers with and without tokens, on
    lists, with a quota of two elements. *)
Definition market : list (op (T := nat)) :=
  [Token (ProducerList.Construct 1); Token (ProducerList.Construct 2); NewConsumer 7;
   EnqueueBulkToken CanAlloc 1 [10; 11; 12]; EnqueueToken CanAlloc 2 20; Enqueue CanAlloc 100 30; EnqueueBulk CannotAlloc 100 [31; 32];
   SizeApprox; TryDequeueConsumer 7; TryDequeueBulkConsumer 7 3; TryDequeue; TryDequeueFromProducer 1;
   Token (ProducerList.Move 3 1); TryDequeueFromProducer 1; EnqueueToken CanAlloc 1 13; Token (ProducerList.Destroy 2);
   TryDequeueNonInterleaved; TryDequeueBulk 9; TryDequeue]%nat.
Definition market_replies : list (reply (T := nat)) :=
  [Done; Done; Done; Enqueued true; Enqueued true; Enqueued true; Enqueued true; Size 7; Got [30]; Got [31; 32; 20]; Got [10]; Got [11];
   Done; Got []; Enqueued false; Done; Got [12]; Got []; Got []]%nat.

#[local] Existing Instance ProducerHash.two_slots.
#[local] Abbreviation no_queues := ((O, ∅) : ProducerList.lists nat).


Lemma elements_come_out_once_witness :
  exists s' cs, run market (construct no_queues, ∅) = Some (market_replies, s') /\ holds s'.1 cs /\
    all_put market market_replies ≡ₚ all_got market_replies ++ contents (the_list s'.1) cs /\
    all_put market market_replies = [10; 11; 12; 20; 30; 31; 32]%nat.
Proof.
  assert (BulkRefused ∉ market_replies) as Hr.
  { intros Hin%list_elem_of_In. unfold market_replies in Hin. cbn [In] in Hin. by repeat (destruct Hin as [Hin|Hin]; [done|]). }
  assert (static_asserts = true) as Hc by (by vm_compute).
  assert (in_width 64 INITIAL_IMPLICIT_PRODUCER_HASH_SIZE) as Hw by (by vm_compute).
  assert (legal_program market (∅, ∅) = true) as Hlegal by (by vm_compute).
  assert (Z.of_nat (length market) <= 2 ^ 32) as Hn by (by vm_compute).
  assert (all_put market market_replies = [10; 11; 12; 20; 30; 31; 32]%nat) as Hput by (by vm_compute).
  assert (fst <$> run market (construct no_queues, ∅) = Some market_replies) as Hfst by (by vm_compute).
  destruct (run market (construct no_queues, ∅)) as [[rs s']|] eqn:E; [|discriminate Hfst]. injection Hfst as ->.
  destruct (elements_come_out_once no_queues market market_replies s' Hc Hw ProducerList.no_lists Hlegal Hn E Hr) as (cs & Hcs & Hp).
  exists s', cs. split; [reflexivity|]. split; [exact Hcs|]. split; [exact Hp|exact Hput].
Defined.

(** Three producers, and two consumers that look at different times; the global
    offset wraps around. *)
Definition three : t (ProducerList.lists nat) :=
  mk (ProducerList.mk [2; 1; 0]%nat 3
    (list_to_map ((fun p => (p, ProducerList.mkProducer false false None)) <$> [0; 1; 2]%nat)) ∅
    (3%nat, list_to_map ((fun p => (p, [])) <$> [0; 1; 2]%nat))) ProducerHash.populate_initial_implicit_producer_hash 0 0.
Definition offsets : list (list Z) := [[0; 1; 5; 2 ^ 31; 2 ^ 32; 2 ^ 32 + 3]; [7; 2 ^ 32 + 3]].

Lemma three_holds : holds three (list_to_map ((fun p => (p, [])) <$> [0; 1; 2]%nat)).
Proof.
  assert (forall p, p ∈ [2; 1; 0]%nat <-> p = 0 \/ p = 1 \/ p = 2)%nat as Hp by set_solver.
  assert (forall {A} (x : A) p, is_Some ((list_to_map ((fun p => (p, x)) <$> [0; 1; 2]%nat) : gmap nat A) !! p) <-> p ∈ [2; 1; 0]%nat) as Hdom.
  { intros A x p. rewrite <- elem_of_dom, dom_list_to_map_L. cbn. set_solver. }
  split; cbn [producing three ProducerList.producerList ProducerList.producerCount ProducerList.producers ProducerList.tokens ProducerList.subs].
  - by apply (bool_decide_unpack _); vm_compute.
  - done.
  - intros p. by rewrite Hdom.
  - intros p. by rewrite Hdom.
  - assert (forall p d, (list_to_map ((fun p => (p, ProducerList.mkProducer false false None)) <$> [0; 1; 2]%nat) : gmap nat ProducerList.producer) !! p = Some d ->
      d = ProducerList.mkProducer false false None) as Hd.
    { intros p d Hin%elem_of_list_to_map_2. set_solver. }
    split.
    + intros a p. rewrite lookup_empty. split; [done|]. intros (d & ->%Hd & Et). done.
    + intros p d ->%Hd. done.
  - split; [done|]. intros p. rewrite Hdom, Hp. cbn. lia.
Qed.

Lemma consumers_spread_witness :
  (exists tokens q1 ds, construct_consumers 2 three = Some (tokens, q1) /\ length ds = 2%nat /\ NoDup (ds : list nat)) /\
  (tokens ← fst <$> construct_consumers 2 three;
   mapM (fun tg : _ * list Z => (fun r => currentProducer r.1) <$> looks_at tg.2 tg.1 three) (zip tokens offsets)) =
    Some [Some 1; Some 2]%nat.
Proof.
  split; [|by vm_compute].
  destruct (consumers_spread three _ 2 offsets (2 ^ 32 + 3) three_holds) as (tokens & q1 & ds & E & _ & El & Hn & _);
    [by vm_compute|cbn; lia|by vm_compute|by vm_compute|reflexivity| |].
  - apply Forall_cons. split; [split; [cbn; lia|reflexivity]|]. apply Forall_singleton. split; [cbn; lia|reflexivity].
  - exists tokens, q1, ds. split; [exact E|]. split; [exact El|exact Hn].
Defined.

End LockFreeSpec.
