(* ===== verification/BlockContents.v ===== *)
(** * The elements in a block of a producer

    What a block holds, for a queue with the elements [xs] of which the first
    has index [h], when the first element of the block has the index [b0]. The
    same for the blocks of explicit producers and those of implicit ones. *)
From S2P Require Import Prelude.
From S2P Require Import QueueUtils.
From S2P Require Import QueueTraits.
From S2P Require Import QueueBlock.
From S2P Require Import BlockPool.
From S2P Require Import ProducerMemory.
#[local] Open Scope Z_scope.
Import ProducerMemory.

(** The element at a position, which may be negative. *)
Definition at_z {T} (xs : list T) (i : Z) : option T := if i <? 0 then None else xs !! Z.to_nat i.

Lemma at_z_app {T} (xs : list T) x i :
  at_z (xs ++ [x]) i = if decide (i = Z.of_nat (length xs)) then Some x else at_z xs i.
Proof.
  unfold at_z. destruct (Z.ltb_spec i 0); [by rewrite decide_False by lia|]. case_decide as E.
  - subst i. rewrite Nat2Z.id. by apply list_lookup_middle.
  - destruct (decide (i < Z.of_nat (length xs))).
    + by rewrite lookup_app_l by lia.
    + rewrite !(proj2 (lookup_ge_None _ _)); [done|lia|rewrite length_app; cbn; lia].
Qed.

Lemma at_z_cons {T} (xs : list T) x i : i <> -1 -> at_z (x :: xs) (i + 1) = at_z xs i.
Proof.
  intros Hi. unfold at_z. destruct (Z.ltb_spec i 0), (Z.ltb_spec (i + 1) 0); try lia; [done|].
  by replace (Z.to_nat (i + 1)) with (S (Z.to_nat i)) by lia.
Qed.

Lemma at_z_ge {T} (xs : list T) i : Z.of_nat (length xs) <= i -> at_z xs i = None.
Proof. intros Hi. unfold at_z. rewrite (proj2 (Z.ltb_ge _ _)) by lia. apply lookup_ge_None. lia. Qed.

Lemma at_z_neg {T} (xs : list T) i : i < 0 -> at_z xs i = None.
Proof. intros Hi. unfold at_z. by rewrite (proj2 (Z.ltb_lt _ _)). Qed.

Section Contents.
Context {tr : Traits} (checked : static_asserts = true) (fits : BLOCK_SIZE <= 2 ^ 62) {T : Type} {ctx : InnerQueueContext}.
Implicit Types xs : list T.

(** The places of a block, whose first element has the index [b0], that are
    before the head. *)
Definition gone (b0 h : Z) : gset nat := set_seq 0 (Z.to_nat (Z.min BLOCK_SIZE (h - b0))).

Lemma elem_gone b0 h o :
  o ∈ gone b0 h <-> Z.of_nat o < BLOCK_SIZE /\ b0 + Z.of_nat o < h.
Proof. unfold gone. rewrite elem_of_set_seq. lia. Qed.

Lemma gone_full b0 h : gone b0 h = Block.places <-> b0 + BLOCK_SIZE <= h.
Proof.
  pose proof (BLOCK_SIZE_bounds checked fits). split.
  - intros E. assert (Z.to_nat (BLOCK_SIZE - 1) ∈ gone b0 h) as Hin
      by (rewrite E; apply elem_of_set_seq; lia).
    apply elem_gone in Hin. lia.
  - intros Hle. apply set_eq. intros o. rewrite elem_gone. unfold Block.places. rewrite elem_of_set_seq. lia.
Qed.

Lemma gone_empty b0 h : h <= b0 -> gone b0 h = ∅.
Proof. intros Hle. apply set_eq. intros o. rewrite elem_gone, elem_of_empty. lia. Qed.

Lemma gone_next b0 h :
  b0 <= h < b0 + BLOCK_SIZE -> gone b0 (h + 1) = {[Z.to_nat (h - b0)]} ∪ gone b0 h.
Proof. intros Hh. apply set_eq. intros o. rewrite elem_of_union, elem_of_singleton, !elem_gone. lia. Qed.

(** A block whose first element has the index [b0], with the elements [f] by
    their indices. *)
Record block_has (blk : Block.t T) (b0 h : Z) (f : Z -> option T) : Prop := mkBlockHas {
  block_tracks : Block.tracks ctx blk (gone b0 h);
  block_length : length (Block.elements blk) = Z.to_nat BLOCK_SIZE;
  block_elements : forall o, (o < Z.to_nat BLOCK_SIZE)%nat -> Block.elements blk !! o = Some (f (b0 + Z.of_nat o))
}.
Definition upd (f : Z -> option T) (i : Z) (v : option T) : Z -> option T := fun z => if decide (z = i) then v else f z.

Lemma has_ext blk b0 h f g :
  (forall z, b0 <= z < b0 + BLOCK_SIZE -> f z = g z) -> block_has blk b0 h f -> block_has blk b0 h g.
Proof. intros E [Ht Hl He]. split; [done|done|]. intros o Ho. rewrite He by done. f_equal. apply E. lia. Qed.

(** The block of an index. *)
Lemma in_block tb j i :
  tb `mod` BLOCK_SIZE = 0 -> tb - Z.of_nat j * BLOCK_SIZE <= i < tb - Z.of_nat j * BLOCK_SIZE + BLOCK_SIZE ->
  place i = i - (tb - Z.of_nat j * BLOCK_SIZE).
Proof.
  intros Htb Hi. pose proof (BLOCK_SIZE_bounds checked fits). rewrite (place_mod checked fits).
  assert (exists q, tb = BLOCK_SIZE * q) as [q ->] by (exists (tb / BLOCK_SIZE); pose proof (Z.div_mod tb BLOCK_SIZE); lia).
  symmetry. apply Z.mod_unique_pos with (q := q - Z.of_nat j); lia.
Qed.

Lemma block_slot b0 i : place i = i - b0 -> Block.slot i = Z.to_nat (i - b0).
Proof. intros E. unfold Block.slot. by rewrite E. Qed.

Lemma upd_has blk b0 h f i v :
  block_has blk b0 h f -> b0 <= i < b0 + BLOCK_SIZE -> place i = i - b0 ->
  block_has (Block.set_elements (<[Block.slot i := v]> (Block.elements blk)) blk) b0 h (upd f i v).
Proof.
  intros [[Hs Hr] Hl He] Hi Hp. rewrite (block_slot _ _ Hp). split; cbn; [by split|by rewrite length_insert|].
  intros o Ho. unfold upd. case_decide as E.
  - replace (Z.to_nat (i - b0)) with o by lia. apply list_lookup_insert_eq. lia.
  - rewrite list_lookup_insert_ne by lia. by apply He.
Qed.

Lemma slot_has blk b0 h f i :
  block_has blk b0 h f -> b0 <= i < b0 + BLOCK_SIZE -> place i = i - b0 -> Block.elements blk !! Block.slot i = Some (f i).
Proof. intros [_ _ He] Hi Hp. rewrite (block_slot _ _ Hp), He by lia. do 2 f_equal. lia. Qed.

(** An element constructed, read and destroyed. *)
Lemma put_has blk b0 h f i x :
  block_has blk b0 h f -> b0 <= i < b0 + BLOCK_SIZE -> place i = i - b0 -> f i = None ->
  exists blk', Block.put i x blk = Some blk' /\ block_has blk' b0 h (upd f i (Some x)) /\ Block.next blk' = Block.next blk.
Proof.
  intros Hb Hi Hp Hf. unfold Block.put. rewrite (slot_has _ _ _ _ _ Hb Hi Hp), Hf.
  eexists. split; [reflexivity|]. split; [by apply upd_has|done].
Qed.

Lemma get_has blk b0 h f i :
  block_has blk b0 h f -> b0 <= i < b0 + BLOCK_SIZE -> place i = i - b0 -> Block.get i blk = f i.
Proof. intros Hb Hi Hp. unfold Block.get. by rewrite (slot_has _ _ _ _ _ Hb Hi Hp). Qed.

Lemma destroy_has blk b0 h f i x :
  block_has blk b0 h f -> b0 <= i < b0 + BLOCK_SIZE -> place i = i - b0 -> f i = Some x ->
  exists blk', Block.destroy i blk = Some blk' /\ block_has blk' b0 h (upd f i None) /\ Block.next blk' = Block.next blk.
Proof.
  intros Hb Hi Hp Hf. unfold Block.destroy. rewrite (slot_has _ _ _ _ _ Hb Hi Hp), Hf.
  eexists. split; [reflexivity|]. split; [by apply upd_has|done].
Qed.

(** The elements up to the index [e] marked as gone. *)
Lemma set_many_has blk b0 h e f :
  block_has blk b0 h f -> b0 <= h <= e -> e <= b0 + BLOCK_SIZE -> (h < b0 + BLOCK_SIZE) -> place h = h - b0 ->
  exists blk', Block.set_many_empty ctx h (e - h) blk =
      Some (negb (Block.uses_flags ctx) && bool_decide (e = b0 + BLOCK_SIZE), blk') /\
    block_has blk' b0 e f /\ Block.next blk' = Block.next blk.
Proof.
  intros [Ht Hl He] Hh He' Hlt Hp. pose proof (BLOCK_SIZE_bounds checked fits) as HB.
  assert (Block.span h (Z.to_nat (e - h)) ∪ gone b0 h = gone b0 e) as Eg.
  { apply set_eq. intros o. unfold Block.span. rewrite (block_slot _ _ Hp), elem_of_union, elem_of_set_seq, !elem_gone. lia. }
  destruct (Block.set_many_empty_spec checked fits ctx h (Z.to_nat (e - h)) blk _ Ht) as (blk' & E & Ht' & Hs1 & Hs2 & _).
  - lia.
  - intros o. unfold Block.span. rewrite (block_slot _ _ Hp), elem_of_set_seq, elem_gone. lia.
  - rewrite Z2Nat.id in E by lia. rewrite Eg in E, Ht'. exists blk'. split.
    + rewrite E. do 3 f_equal. apply bool_decide_ext. rewrite gone_full. lia.
    + split; [|done]. split; [done|by rewrite Hs1|by rewrite Hs1].
Qed.

Lemma set_empty_has blk b0 h f :
  block_has blk b0 h f -> b0 <= h < b0 + BLOCK_SIZE -> place h = h - b0 ->
  exists blk', Block.set_empty ctx h blk =
      Some (negb (Block.uses_flags ctx) && bool_decide (h + 1 = b0 + BLOCK_SIZE), blk') /\
    block_has blk' b0 (h + 1) f /\ Block.next blk' = Block.next blk.
Proof.
  intros [Ht Hl He] Hh Hp. pose proof (BLOCK_SIZE_bounds checked fits) as HB.
  destruct (Block.set_empty_spec checked fits ctx h blk _ Ht) as (blk' & E & Ht' & Hs1 & Hs2 & _).
  { rewrite (block_slot _ _ Hp), elem_gone. lia. }
  rewrite (block_slot _ _ Hp), <- gone_next in E, Ht' by lia. exists blk'. split.
  - rewrite E. do 3 f_equal. apply bool_decide_ext. rewrite gone_full. lia.
  - split; [|done]. split; [done|by rewrite Hs1|by rewrite Hs1].
Qed.

Lemma next_has blk b0 h f n : block_has blk b0 h f -> block_has (Block.set_next n blk) b0 h f.
Proof. intros [[Hs Hr] Hl He]. by split. Qed.

(** A block without elements that is used again. *)
Lemma reset_has blk b0 h f :
  blank blk -> h <= b0 -> (forall z, b0 <= z < b0 + BLOCK_SIZE -> f z = None) ->
  block_has (Block.reset_empty ctx blk) b0 h f.
Proof.
  intros Hbl Hh Hf. destruct (Block.reset_empty_spec checked fits ctx blk) as (Ht & Hs & _). split; rewrite ?Hs, ?Hbl.
  - by rewrite gone_empty.
  - apply length_replicate.
  - intros o Ho. rewrite lookup_replicate_2 by done. rewrite Hf by lia. done.
Qed.

Lemma has_blank blk b0 h f : block_has blk b0 h f -> (forall z, b0 <= z < b0 + BLOCK_SIZE -> f z = None) -> blank blk.
Proof.
  intros [_ Hl He] Hf. apply list_eq_same_length with (n := Z.to_nat BLOCK_SIZE); [apply length_replicate|done|].
  intros o x y Ho Ex Ey. rewrite He in Ex by done. rewrite lookup_replicate_2 in Ey by done.
  rewrite Hf in Ex by lia. congruence.
Qed.

(** The elements have not changed where the index of the head has. *)
Lemma move_has blk b0 h h' f : (gone b0 h = gone b0 h') -> block_has blk b0 h f -> block_has blk b0 h' f.
Proof. intros E [Ht Hl He]. rewrite E in Ht. by split. Qed.

(** ** The elements of a queue *)

(** The elements by index, for the queue [xs] with the head [h]. *)
Definition elems (xs : list T) (h : Z) : Z -> option T := fun i => at_z xs (i - h).
Abbreviation block_ok blk b0 h xs := (block_has blk b0 h (elems xs h)).

Lemma elems_app xs x h z : elems (xs ++ [x]) h z = upd (elems xs h) (h + Z.of_nat (length xs)) (Some x) z.
Proof. unfold elems, upd. rewrite at_z_app. repeat case_decide; [done|lia|lia|done]. Qed.

Lemma elems_tail x xs h z : elems xs (h + 1) z = upd (elems (x :: xs) h) h None z.
Proof.
  unfold elems, upd. case_decide as E; [by rewrite at_z_neg by lia|].
  replace (z - h) with (z - (h + 1) + 1) by lia. rewrite at_z_cons by lia. done.
Qed.

Lemma elems_none xs h z : z < h \/ h + Z.of_nat (length xs) <= z -> elems xs h z = None.
Proof. intros [?|?]; [apply at_z_neg; lia|apply at_z_ge; lia]. Qed.
End Contents.
Arguments block_has {tr T} ctx blk b0 h f.
