(* ===== verification/BlockMemory.v ===== *)
(** * The elements of a producer in the memory of its queue

    [blocks_hold]: the blocks of a producer, from the newest back, hold the
    elements given by a function of the index. What the parts of the operations
    that both kinds of producer share ([ProducerMemory]) do to a block. *)
From S2P Require Import Prelude.
From S2P Require Import QueueUtils.
From S2P Require Import QueueTraits.
From S2P Require Import QueueBlock.
From S2P Require Import BlockPool.
From S2P Require Import ProducerMemory.
From S2P Require Import BlockContents.
#[local] Open Scope Z_scope.
Import ProducerMemory.

(** ** Indices *)

(** Indices that are near each other are compared as numbers. *)
Lemma less_near a b : Z.abs (a - b) < 2 ^ 63 -> circular_less_than 64 (u64 a) (u64 b) = (a <? b).
Proof. intros H. by apply circular_less_than_near. Qed.

Lemma mod_distinct s i n : 0 < n < s -> (i + n) `mod` s <> i `mod` s.
Proof.
  intros Hn E. pose proof (Z.div_mod i s ltac:(lia)) as Di. pose proof (Z.div_mod (i + n) s ltac:(lia)) as Dn.
  rewrite E in Dn. revert Di Dn. generalize (i / s) ((i + n) / s) (i `mod` s). clear E. intros q q' r Di Dn.
  assert (n = s * (q' - q)) as En by lia.
  destruct (Z.le_gt_cases (q' - q) 0); nia.
Qed.

Lemma wrap_eqb i j : Z.abs (i - j) < 2 ^ 64 -> (u64 i =? u64 j) = (i =? j).
Proof.
  intros Hij. apply Bool.eq_true_iff_eq. rewrite !Z.eqb_eq. split; [|by intros ->]. intros E.
  destruct (decide (i = j)) as [|Hne]; [done|]. exfalso. unfold wrap in E. destruct (decide (i < j)).
  - apply (mod_distinct (2 ^ 64) i (j - i)); [lia|]. rewrite E. f_equal. lia.
  - apply (mod_distinct (2 ^ 64) j (i - j)); [lia|]. rewrite <- E. f_equal. lia.
Qed.

Section Memory.
Context {tr : Traits} (checked : static_asserts = true) (fits : BLOCK_SIZE <= 2 ^ 62) {T P : Type} {ctx : InnerQueueContext}.
Context (noexcept_ctor : bool) (ctor_throws : T -> bool).
Implicit Types (m : Memory (T := T)) (p : P) (blk : Block.t T) (f : Z -> option T).

Lemma next_mod tb : tb `mod` BLOCK_SIZE = 0 -> (tb + BLOCK_SIZE) `mod` BLOCK_SIZE = 0.
Proof. intros <-. rewrite <- (Z_mod_plus_full tb 1 BLOCK_SIZE). f_equal. lia. Qed.

Lemma back_mod tb j : tb `mod` BLOCK_SIZE = 0 -> (tb - Z.of_nat j * BLOCK_SIZE) `mod` BLOCK_SIZE = 0.
Proof. intros <-. rewrite <- (Z_mod_plus_full tb (- Z.of_nat j) BLOCK_SIZE). f_equal. lia. Qed.

(** The index of the first element of the block with the element [i], and how
    far behind the tail block that block is. *)
Lemma behind tb i :
  tb `mod` BLOCK_SIZE = 0 -> exists j, i - i `mod` BLOCK_SIZE = tb - j * BLOCK_SIZE /\
    tb - j * BLOCK_SIZE <= i < tb - j * BLOCK_SIZE + BLOCK_SIZE.
Proof.
  intros Htb. pose proof (BLOCK_SIZE_bounds checked fits). apply Z.mod_divide in Htb as [q ->]; [|lia].
  exists (q - i / BLOCK_SIZE). assert (0 < BLOCK_SIZE) as HB by lia.
  pose proof (Z_div_mod_eq_full i BLOCK_SIZE). pose proof (Z.mod_pos_bound i BLOCK_SIZE HB). lia.
Qed.

Lemma place_in b0 i : b0 `mod` BLOCK_SIZE = 0 -> b0 <= i < b0 + BLOCK_SIZE -> place i = i - b0.
Proof.
  intros Hb Hi. replace b0 with (b0 - Z.of_nat 0 * BLOCK_SIZE) by lia. apply (in_block checked fits); [done|lia].
Qed.

Lemma base_in b0 i : b0 `mod` BLOCK_SIZE = 0 -> b0 <= i < b0 + BLOCK_SIZE -> base (u64 i) = u64 b0.
Proof.
  intros Hb Hi. pose proof (place_in b0 i Hb Hi) as Hp. pose proof (BLOCK_SIZE_bounds checked fits) as HB.
  pose proof (wrap_range 64 i ltac:(lia)) as Hw. rewrite (base_eq checked fits), (place_wrap checked fits), Hp by done.
  assert (u64 i - (i - b0) = u64 (u64 i - (i - b0))) as ->; [|rewrite wrap_sub_l; f_equal; lia].
  symmetry. apply wrap_small. unfold in_width in *. pose proof (place_wrap checked fits i) as Epl.
  rewrite (place_mod checked fits (u64 i)) in Epl. pose proof (Z.mod_le (u64 i) BLOCK_SIZE). lia.
Qed.

(** The end of the part of a block from [i] on. *)
Lemma stop_index_spec b0 i last :
  b0 `mod` BLOCK_SIZE = 0 -> b0 <= i < b0 + BLOCK_SIZE -> i <= last -> last - i < 2 ^ 63 ->
  stop_index (u64 i) (u64 last) = u64 (Z.min (b0 + BLOCK_SIZE) last).
Proof.
  intros Hb Hi Hl Hd. unfold stop_index. pose proof (BLOCK_SIZE_bounds checked fits).
  rewrite (base_in b0) by done. rewrite wrap_add_l, less_near by lia.
  destruct (Z.ltb_spec last (b0 + BLOCK_SIZE)); f_equal; lia.
Qed.

(** The blocks that [n] more elements need. *)
Lemma blocks_needed tb t n :
  tb `mod` BLOCK_SIZE = 0 -> tb < t <= tb + BLOCK_SIZE -> 0 <= n -> exists K : nat,
    QueueTraits.base (u64 (t + n - 1)) = u64 (tb + Z.of_nat K * BLOCK_SIZE) /\
    tb + Z.of_nat K * BLOCK_SIZE < t + n <= tb + Z.of_nat K * BLOCK_SIZE + BLOCK_SIZE /\ Z.of_nat K <= n / BLOCK_SIZE + 1.
Proof.
  intros Htb Ht Hn. pose proof (BLOCK_SIZE_bounds checked fits) as HB.
  assert (0 < BLOCK_SIZE) as HB0 by lia. pose proof (Z.mod_pos_bound (t + n - 1 - tb) BLOCK_SIZE HB0) as Hm.
  pose proof (Z_div_mod_eq_full (t + n - 1 - tb) BLOCK_SIZE) as Ed.
  set (k := (t + n - 1 - tb) / BLOCK_SIZE) in *. assert (0 <= k) as Hk by (apply Z.div_pos; lia). exists (Z.to_nat k). rewrite Z2Nat.id by done.
  split; [|split; [nia|]].
  - apply base_in; [|nia]. rewrite Z_mod_plus_full. done.
  - rewrite <- (Z.div_add n 1 BLOCK_SIZE) by lia. apply Z.div_le_mono; lia.
Qed.

(** ** One block *)

Lemma load_block_some m b blk : blocks m !! b = Some blk -> load_block b m = Some (blk, m).
Proof. intros E. unfold load_block. by rewrite E. Qed.

Lemma store_block_some m b blk g :
  blocks m !! b = Some blk -> store_block b g m = Some (tt, set_blocks (<[b := g blk]> (blocks m)) m).
Proof. intros E. unfold store_block. by rewrite E. Qed.

(** The memory with another block at an address. *)
Definition with_block (b : nat) blk m : Memory := set_blocks (<[b := blk]> (blocks m)) m.

Lemma with_block_same m b blk : blocks m !! b = Some blk -> with_block b blk m = m.
Proof. intros E. unfold with_block. rewrite insert_id by done. by destruct m. Qed.

Lemma with_block_twice m b blk blk' : with_block b blk' (with_block b blk m) = with_block b blk' m.
Proof. unfold with_block. cbn. by rewrite insert_insert_eq. Qed.

Lemma with_block_lookup m b blk : blocks (with_block b blk m) !! b = Some blk.
Proof. apply lookup_insert_eq. Qed.

Lemma with_block_lookup_ne m b c blk : b <> c -> blocks (with_block b blk m) !! c = blocks m !! c.
Proof. apply lookup_insert_ne. Qed.

Lemma mem_some {A} (c : M (Memory (T := T)) A) m p a m' : c m = Some (a, m') -> mem c (m, p) = Some (a, (m', p)).
Proof. intros E. unfold mem. by rewrite E. Qed.

Lemma mem_load m p b blk : blocks m !! b = Some blk -> mem (load_block b) (m, p) = Some (blk, (m, p)).
Proof. intros E. by apply mem_some, load_block_some. Qed.

Lemma mem_store m p b blk g :
  blocks m !! b = Some blk -> mem (store_block b g) (m, p) = Some (tt, (with_block b (g blk) m, p)).
Proof. intros E. by apply mem_some, store_block_some. Qed.

(** The operations on a block look at the place only. *)
Lemma block_wrap i blk :
  Block.get (u64 i) blk = Block.get i blk /\ Block.destroy (u64 i) blk = Block.destroy i blk /\
  (forall x, Block.put (u64 i) x blk = Block.put i x blk).
Proof. unfold Block.get, Block.destroy, Block.put, Block.slot. by rewrite !(place_wrap checked fits). Qed.

Lemma marks_wrap i blk :
  Block.set_empty ctx (u64 i) blk = Block.set_empty ctx i blk /\
  (forall n, Block.set_many_empty ctx (u64 i) n blk = Block.set_many_empty ctx i n blk).
Proof. unfold Block.set_empty, Block.set_many_empty, Block.slot. by rewrite !(place_wrap checked fits). Qed.

Lemma put_some m p b i x blk blk' :
  blocks m !! b = Some blk -> Block.put i x blk = Some blk' -> put b (u64 i) x (m, p) = Some (tt, (with_block b blk' m, p)).
Proof.
  intros Eb Ep. destruct (block_wrap i blk) as (_ & _ & Wp). unfold put. rewrite (bind_some _ _ _ _ _ (mem_load m p b blk Eb)).
  rewrite Wp, (bind_some _ _ _ _ _ (the_some _ _ _ Ep)). by apply mem_store with (blk := blk).
Qed.

Lemma take_some m p b i blk x blk1 :
  blocks m !! b = Some blk -> Block.get i blk = Some x -> Block.destroy i blk = Some blk1 ->
  take b (u64 i) (m, p) = Some (x, (with_block b blk1 m, p)).
Proof.
  intros Eb Eg Ed. destruct (block_wrap i blk) as (Wg & Wd & _). unfold take. rewrite (bind_some _ _ _ _ _ (mem_load m p b blk Eb)).
  rewrite Wg, (bind_some _ _ _ _ _ (the_some _ _ _ Eg)), Wd, (bind_some _ _ _ _ _ (the_some _ _ _ Ed)).
  by rewrite (bind_some _ _ _ _ _ (mem_store m p b blk _ Eb)).
Qed.

(** ** Runs of elements in one block *)

(** The elements [ys] from the index [i] on, over the elements [f]; and none
    from [i] up to [j]. *)
Definition over f (i : Z) (ys : list T) : Z -> option T :=
  fun z => if decide (i <= z < i + Z.of_nat (length ys)) then ys !! Z.to_nat (z - i) else f z.
Definition without f (i j : Z) : Z -> option T := fun z => if decide (i <= z < j) then None else f z.

Lemma over_nil f i z : over f i [] z = f z.
Proof. unfold over. cbn. by rewrite decide_False by lia. Qed.

Lemma over_cons f i y ys z : over (upd f i (Some y)) (i + 1) ys z = over f i (y :: ys) z.
Proof.
  unfold over, upd. cbn [length]. repeat case_decide; try lia; [|by subst; rewrite Z.sub_diag|done].
  by replace (Z.to_nat (z - i)) with (S (Z.to_nat (z - (i + 1)))) by lia.
Qed.

Lemma over_app f i xs ys z : over (over f i xs) (i + Z.of_nat (length xs)) ys z = over f i (xs ++ ys) z.
Proof.
  unfold over. rewrite length_app. repeat case_decide; try lia; [| |done].
  - rewrite lookup_app_r by lia. f_equal. lia.
  - by rewrite lookup_app_l by lia.
Qed.

Lemma without_upd f i j z : i < j -> without (upd f i None) (i + 1) j z = without f i j z.
Proof. intros Hij. unfold without, upd. repeat case_decide; (done || lia). Qed.

Lemma without_over f i ys z : (forall z, i <= z -> f z = None) -> without (over f i ys) i (i + Z.of_nat (length ys)) z = f z.
Proof. intros Hf. unfold without, over. repeat case_decide; try done. symmetry. apply Hf. lia. Qed.

Lemma over_some f i ys z : i <= z < i + Z.of_nat (length ys) -> is_Some (over f i ys z).
Proof. intros Hz. unfold over. rewrite decide_True by done. apply lookup_lt_is_Some. lia. Qed.

Lemma elems_over xs ys h z : elems (xs ++ ys) h z = over (elems xs h) (h + Z.of_nat (length xs)) ys z.
Proof.
  unfold over. case_decide as Hz.
  - unfold elems, at_z. rewrite (proj2 (Z.ltb_ge _ _)) by lia. rewrite lookup_app_r by lia. f_equal. lia.
  - destruct (decide (z < h + Z.of_nat (length xs))).
    + unfold elems, at_z. destruct (Z.ltb_spec (z - h) 0); [done|]. by rewrite lookup_app_l by lia.
    + rewrite !elems_none; [done|lia|rewrite length_app; lia].
Qed.

Lemma elems_without xs h (n : nat) z : (n <= length xs)%nat -> elems (drop n xs) (h + Z.of_nat n) z = without (elems xs h) h (h + Z.of_nat n) z.
Proof.
  intros Hn. unfold without, elems, at_z. case_decide.
  - by rewrite (proj2 (Z.ltb_lt _ _)) by lia.
  - destruct (Z.ltb_spec (z - (h + Z.of_nat n)) 0), (Z.ltb_spec (z - h) 0); try lia; [done|]. rewrite lookup_drop. f_equal. lia.
Qed.

Lemma without_without f i j k z : i <= j <= k -> without (without f i j) j k z = without f i k z.
Proof. intros H. unfold without. repeat case_decide; (done || lia). Qed.

(** Elements from the index [i] on, of two runs. *)
Lemma elements_app f i (ys zs : list T) :
  (forall q, (q < length ys)%nat -> ys !! q = f (i + Z.of_nat q)) ->
  (forall q, (q < length zs)%nat -> zs !! q = f (i + Z.of_nat (length ys) + Z.of_nat q)) ->
  forall q, (q < length (ys ++ zs))%nat -> (ys ++ zs) !! q = f (i + Z.of_nat q).
Proof.
  intros Hy Hz q Hq. rewrite length_app in Hq. destruct (decide (q < length ys)%nat).
  - rewrite lookup_app_l by done. by apply Hy.
  - rewrite lookup_app_r by lia. rewrite Hz by lia. f_equal. lia.
Qed.

Lemma drop_taken (n : nat) (xs : list T) : drop (length (firstn n xs)) xs = drop n xs.
Proof.
  rewrite length_take. destruct (Nat.le_gt_cases n (length xs)); [by rewrite Nat.min_l by lia|].
  by rewrite Nat.min_r, !drop_ge by lia.
Qed.

(** The first elements, by their indices. *)
Lemma taken_elems (xs ys : list T) h (n : nat) :
  length ys = length (firstn n xs) -> (forall q, (q < length ys)%nat -> ys !! q = elems xs h (h + Z.of_nat q)) -> ys = firstn n xs.
Proof.
  intros Hl Hy. apply list_eq. intros q. destruct (decide (q < length ys)%nat) as [Hq|Hq].
  - rewrite Hy by done. rewrite Hl, length_take in Hq. rewrite lookup_take_lt by lia. unfold elems, at_z.
    rewrite (proj2 (Z.ltb_ge _ _)) by lia. f_equal. lia.
  - rewrite !(proj2 (lookup_ge_None _ _)); [done|lia|lia].
Qed.

(** Elements constructed up to the index [stop], or up to the first that throws. *)
Lemma fill_block_spec fuel m p b blk b0 h f i stop ys :
  blocks m !! b = Some blk -> block_has ctx blk b0 h f -> b0 `mod` BLOCK_SIZE = 0 -> b0 <= i <= stop -> stop <= b0 + BLOCK_SIZE ->
  stop - i <= Z.of_nat fuel -> stop - i <= Z.of_nat (length ys) -> (forall z, i <= z < stop -> f z = None) ->
  exists q blk', fill_block noexcept_ctor ctor_throws fuel b (u64 i) (u64 stop) ys (m, p) =
      Some ((u64 (i + Z.of_nat q), drop q ys, bool_decide (i + Z.of_nat q < stop)), (with_block b blk' m, p)) /\
    block_has ctx blk' b0 h (over f i (firstn q ys)) /\ Block.next blk' = Block.next blk /\ i + Z.of_nat q <= stop /\
    Forall (fun y => throws noexcept_ctor ctor_throws y = false) (firstn q ys) /\
    (i + Z.of_nat q < stop -> exists y, ys !! q = Some y /\ throws noexcept_ctor ctor_throws y = true).
Proof.
  intros Eb Hb Hb0 Hi Hs. pose proof (BLOCK_SIZE_bounds checked fits) as HB.
  revert m blk f i ys Eb Hb Hi. induction fuel as [|fuel IH]; intros m blk f i ys Eb Hb Hi Hfuel Hys Hf;
    cbn [fill_block]; rewrite wrap_eqb by lia; (destruct (Z.eqb_spec i stop) as [->|Hne]; [|try lia]).
  1,2: exists O, blk; rewrite Z.add_0_r, bool_decide_eq_false_2, with_block_same by (done || lia);
    split; [done|]; split; [eapply has_ext; [|done]; intros z _; by rewrite over_nil|]; split; [done|]; split; [lia|];
    split; [by constructor|lia].
  destruct ys as [|y ys]; [cbn in Hys; lia|]. change (negb noexcept_ctor && ctor_throws y) with (throws noexcept_ctor ctor_throws y).
  destruct (throws noexcept_ctor ctor_throws y) eqn:Ey.
  - exists O, blk. rewrite Z.add_0_r, bool_decide_eq_true_2, with_block_same by (done || lia). split; [done|].
    split; [eapply has_ext; [|done]; intros z _; by rewrite over_nil|]. split; [done|]. split; [lia|]. split; [constructor|]. by exists y.
  - destruct (put_has blk b0 h f i y Hb) as (blk1 & Ep & Hb1 & Hn1); [lia|apply place_in; [done|lia]|apply Hf; lia|].
    rewrite (bind_some _ _ _ _ _ (put_some m p b i y blk blk1 Eb Ep)), wrap_add_l.
    destruct (IH (with_block b blk1 m) blk1 _ (i + 1) ys (with_block_lookup _ _ _) Hb1) as (q & blk2 & E & Hb2 & Hn2 & Hq & Hall & Hthrow);
      [lia|lia|cbn [length] in Hys; lia| |].
    { intros z Hz. unfold upd. rewrite decide_False by lia. apply Hf. lia. }
    exists (S q), blk2. replace (i + Z.of_nat (S q)) with (i + 1 + Z.of_nat q) by lia. rewrite E, with_block_twice. split; [done|].
    split; [eapply has_ext; [|exact Hb2]; intros z _; apply over_cons|]. split; [by rewrite Hn2|]. split; [done|].
    split; [by constructor|done].
Qed.

(** Elements moved out up to the index [stop], and destroyed. *)
Lemma take_block_spec fuel m p b blk b0 h f i stop :
  blocks m !! b = Some blk -> block_has ctx blk b0 h f -> b0 `mod` BLOCK_SIZE = 0 -> b0 <= i <= stop -> stop <= b0 + BLOCK_SIZE ->
  stop - i <= Z.of_nat fuel -> (forall z, i <= z < stop -> is_Some (f z)) ->
  exists ys blk', take_block fuel b (u64 i) (u64 stop) (m, p) = Some (ys, (with_block b blk' m, p)) /\
    block_has ctx blk' b0 h (without f i stop) /\ Block.next blk' = Block.next blk /\
    Z.of_nat (length ys) = stop - i /\ (forall k, (k < length ys)%nat -> ys !! k = f (i + Z.of_nat k)).
Proof.
  intros Eb Hb Hb0 Hi Hs. pose proof (BLOCK_SIZE_bounds checked fits) as HB.
  revert m blk f i Eb Hb Hi. induction fuel as [|fuel IH]; intros m blk f i Eb Hb Hi Hfuel Hf;
    cbn [take_block]; rewrite wrap_eqb by lia; (destruct (Z.eqb_spec i stop) as [->|Hne]; [|try lia]).
  1,2: exists [], blk; rewrite with_block_same by done; split; [done|]; split;
    [eapply has_ext; [|done]; intros z _; unfold without; by rewrite decide_False by lia|]; split; [done|]; split; [cbn; lia|]; cbn; lia.
  destruct (Hf i ltac:(lia)) as [x Ex].
  assert (place i = i - b0) as Hp by (apply place_in; [done|lia]).
  destruct (destroy_has blk b0 h f i x Hb ltac:(lia) Hp Ex) as (blk1 & Ed & Hb1 & Hn1).
  assert (Block.get i blk = Some x) as Eg by (by rewrite (get_has blk b0 h f) by (done || lia)).
  rewrite (bind_some _ _ _ _ _ (take_some m p b i blk x blk1 Eb Eg Ed)), wrap_add_l.
  destruct (IH (with_block b blk1 m) blk1 _ (i + 1) (with_block_lookup _ _ _) Hb1) as (ys & blk2 & E & Hb2 & Hn2 & Hl & Hys); [lia|lia| |].
  { intros z Hz. unfold upd. rewrite decide_False by lia. apply Hf. lia. }
  rewrite (bind_some _ _ _ _ _ E), with_block_twice. exists (x :: ys), blk2. split; [done|].
  split; [eapply has_ext; [|exact Hb2]; intros z _; apply without_upd; lia|]. split; [by rewrite Hn2|]. split; [cbn [length]; lia|].
  intros [|k] Hk; cbn [lookup list_lookup]; [by rewrite Z.add_0_r, Ex|]. cbn [length] in Hk. rewrite Hys by lia.
  unfold upd. rewrite decide_False by lia. f_equal. lia.
Qed.

(** Elements destroyed up to the index [stop]. *)
Lemma destroy_in_block_spec fuel m p b blk b0 h f i stop :
  blocks m !! b = Some blk -> block_has ctx blk b0 h f -> b0 `mod` BLOCK_SIZE = 0 -> b0 <= i <= stop -> stop <= b0 + BLOCK_SIZE ->
  stop - i <= Z.of_nat fuel -> (forall z, i <= z < stop -> is_Some (f z)) ->
  exists blk', destroy_in_block fuel b (u64 i) (u64 stop) (m, p) = Some (u64 stop, (with_block b blk' m, p)) /\
    block_has ctx blk' b0 h (without f i stop) /\ Block.next blk' = Block.next blk.
Proof.
  intros Eb Hb Hb0 Hi Hs. pose proof (BLOCK_SIZE_bounds checked fits) as HB.
  revert m blk f i Eb Hb Hi. induction fuel as [|fuel IH]; intros m blk f i Eb Hb Hi Hfuel Hf;
    cbn [destroy_in_block]; rewrite wrap_eqb by lia; (destruct (Z.eqb_spec i stop) as [->|Hne]; [|try lia]).
  1,2: exists blk; rewrite with_block_same by done; split; [done|]; split;
    [eapply has_ext; [|done]; intros z _; unfold without; by rewrite decide_False by lia|done].
  destruct (Hf i ltac:(lia)) as [x Ex].
  assert (place i = i - b0) as Hp by (apply place_in; [done|lia]).
  destruct (destroy_has blk b0 h f i x Hb ltac:(lia) Hp Ex) as (blk1 & Ed & Hb1 & Hn1).
  rewrite (bind_some _ _ _ _ _ (mem_load m p b blk Eb)). destruct (block_wrap i blk) as (_ & -> & _).
  rewrite (bind_some _ _ _ _ _ (the_some _ _ _ Ed)), (bind_some _ _ _ _ _ (mem_store m p b blk _ Eb)), wrap_add_l.
  destruct (IH (with_block b blk1 m) blk1 _ (i + 1) (with_block_lookup _ _ _) Hb1) as (blk2 & E & Hb2 & Hn2); [lia|lia| |].
  { intros z Hz. unfold upd. rewrite decide_False by lia. apply Hf. lia. }
  rewrite E, with_block_twice. exists blk2. split; [done|].
  split; [eapply has_ext; [|exact Hb2]; intros z _; apply without_upd; lia|by rewrite Hn2].
Qed.

(** ** The blocks of a producer *)

(** The blocks [l] of a producer, from the newest back; the first element of the
    newest has the index [tb]. *)
Record blocks_hold (bs : gmap nat (Block.t T)) (l : list nat) (tb h : Z) f : Prop := mkBlocksHold {
  hold_nodup : NoDup l;
  hold_block : forall j b, l !! j = Some b ->
    exists blk, bs !! b = Some blk /\ block_has ctx blk (tb - Z.of_nat j * BLOCK_SIZE) h f
}.

Lemma hold_frame bs bs' l tb h f :
  (forall b, b ∈ l -> bs' !! b = bs !! b) -> blocks_hold bs l tb h f -> blocks_hold bs' l tb h f.
Proof.
  intros He [Hnd Hb]. split; [done|]. intros j b Hj. destruct (Hb j b Hj) as (blk & E & H).
  exists blk. rewrite He by (by eapply list_elem_of_lookup_2). done.
Qed.

Lemma hold_ext bs l tb h f g :
  (forall z, tb - Z.of_nat (length l) * BLOCK_SIZE + BLOCK_SIZE <= z < tb + BLOCK_SIZE -> f z = g z) ->
  blocks_hold bs l tb h f -> blocks_hold bs l tb h g.
Proof.
  intros E [Hnd Hb]. split; [done|]. intros j b Hj. destruct (Hb j b Hj) as (blk & Eb & H). exists blk. split; [done|].
  eapply has_ext; [|done]. intros z Hz. apply E. apply lookup_lt_Some in Hj. pose proof (BLOCK_SIZE_bounds checked fits). nia.
Qed.

(** One block changed, with the indices of that block only. *)
Lemma hold_insert bs l tb h h' f f' j b blk' :
  blocks_hold bs l tb h f -> l !! j = Some b -> block_has ctx blk' (tb - Z.of_nat j * BLOCK_SIZE) h' f' ->
  (forall z, ~ tb - Z.of_nat j * BLOCK_SIZE <= z < tb - Z.of_nat j * BLOCK_SIZE + BLOCK_SIZE -> f' z = f z) ->
  (forall k, k <> j -> (k < length l)%nat -> gone (tb - Z.of_nat k * BLOCK_SIZE) h = gone (tb - Z.of_nat k * BLOCK_SIZE) h') ->
  blocks_hold (<[b := blk']> bs) l tb h' f'.
Proof.
  intros [Hnd Hb] Hj Hok Hf Hg. split; [done|]. intros k c Hk. destruct (decide (c = b)) as [->|Hne].
  - assert (k = j) as -> by exact (NoDup_lookup l k j b Hnd Hk Hj). exists blk'. by rewrite lookup_insert_eq.
  - destruct (Hb k c Hk) as (blk & Eb & Hc). exists blk. rewrite lookup_insert_ne by done. split; [done|].
    assert (k <> j) by congruence. eapply has_ext; [|eapply move_has; [|exact Hc]].
    + intros z Hz. symmetry. apply Hf. pose proof (BLOCK_SIZE_bounds checked fits). nia.
    + apply Hg; [done|by apply lookup_lt_Some in Hk].
Qed.

(** A new block in front, and the oldest block dropped. *)
Lemma hold_cons bs l tb h f b blk :
  blocks_hold bs l tb h f -> b ∉ l -> bs !! b = Some blk -> block_has ctx blk (tb + BLOCK_SIZE) h f ->
  blocks_hold bs (b :: l) (tb + BLOCK_SIZE) h f.
Proof.
  intros [Hnd Hb] Hbl Eb Hok. split; [by constructor|]. intros [|j] c Hj.
  - injection Hj as <-. exists blk. split; [done|]. by rewrite Z.mul_0_l, Z.sub_0_r.
  - destruct (Hb j c Hj) as (cblk & Ec & Hc). exists cblk. split; [done|].
    by replace (tb + BLOCK_SIZE - Z.of_nat (S j) * BLOCK_SIZE) with (tb - Z.of_nat j * BLOCK_SIZE) by lia.
Qed.

Lemma hold_drop bs l' l tb h f :
  blocks_hold bs (l' ++ l) (tb + Z.of_nat (length l') * BLOCK_SIZE) h f -> blocks_hold bs l tb h f.
Proof.
  intros [Hnd Hb]. apply NoDup_app in Hnd as (_ & _ & Hnd). split; [done|]. intros j b Hj.
  destruct (Hb (length l' + j)%nat b) as (blk & Eb & H); [rewrite lookup_app_r by lia; by replace (length l' + j - length l')%nat with j by lia|].
  exists blk. split; [done|].
  by replace (tb + Z.of_nat (length l') * BLOCK_SIZE - Z.of_nat (length l' + j) * BLOCK_SIZE) with (tb - Z.of_nat j * BLOCK_SIZE) in H by lia.
Qed.

Lemma hold_app bs l l' tb h f : blocks_hold bs (l ++ l') tb h f -> blocks_hold bs l tb h f.
Proof.
  intros [Hnd Hb]. apply NoDup_app in Hnd as (Hnd & _). split; [done|]. intros j b Hj. apply Hb. by apply lookup_app_l_Some.
Qed.
End Memory.
Arguments blocks_hold {tr T} ctx bs l tb h f.

(** ** Blocks shared between producers *)

Section Sharing.
Context {tr : Traits} {T : Type} (malloc : nat -> bool) (raw_flags : nat -> list bool).
Implicit Types (m : Memory (T := T)) (mine : list nat) (others : gset nat).

(** A producer has the blocks [mine]; the blocks [others] belong to others. *)
Record owns m mine others : Prop := mkOwns {
  own_pool : pool_ok malloc m (list_to_set mine ∪ others);
  own_apart : forall b, b ∈ mine -> (b ∉ others);
  own_size : initialBlockPoolSize m < 2 ^ 64 - 1
}.
(** What an operation does to the blocks of others: nothing. Calls of [malloc] are
    counted. *)
Definition keeps others m m' : Prop :=
  initialBlockPoolSize m' = initialBlockPoolSize m /\ (mallocs m <= mallocs m')%nat /\ forall b, (b ∈ others) -> blocks m' !! b = blocks m !! b.

Lemma keeping_refl others m : keeps others m m.
Proof. done. Qed.

Lemma keeping_trans others m1 m2 m3 : keeps others m1 m2 -> keeps others m2 m3 -> keeps others m1 m3.
Proof. intros (E1 & N1 & H1) (E2 & N2 & H2). split; [congruence|]. split; [lia|]. intros b Hb. by rewrite H2, H1. Qed.

Lemma keeps_weaken others others' m m' : others ⊆ others' -> keeps others' m m' -> keeps others m m'.
Proof. intros Hs (E & N & H). split; [done|]. split; [done|]. intros b Hb. by apply H, Hs. Qed.

Lemma keeps_rest (X : gset nat) others m m' : keeps (X ∪ others) m m' -> keeps others m m'.
Proof. apply keeps_weaken, union_subseteq_r. Qed.

Lemma own_perm m mine mine' others : mine ≡ₚ mine' -> owns m mine others -> owns m mine' others.
Proof.
  intros Hp [Ho Ha Hs]. assert (list_to_set (C := gset nat) mine = list_to_set mine') as E by (apply list_to_set_perm_L, Hp).
  split; [by rewrite <- E| |done]. intros b Hb. apply Ha. by rewrite Hp.
Qed.

Lemma own_used m mine others b : owns m mine others -> (b ∈ mine) -> is_Some (blocks m !! b).
Proof. intros Ho Hb. apply (pool_used _ _ _ (own_pool _ _ _ Ho)). apply elem_of_union. left. by apply elem_of_list_to_set. Qed.

(** There are no more blocks of one producer than there are blocks. *)
Lemma blocks_counted m mine others : owns m mine others -> NoDup mine -> (length mine <= base.size (blocks m))%nat.
Proof.
  intros Ho Hnd. rewrite <- (size_list_to_set (C := gset nat) mine Hnd), <- (size_dom (D := gset nat)). apply subseteq_size.
  intros b Hb%elem_of_list_to_set. apply elem_of_dom. by eapply own_used.
Qed.

Lemma own_store m mine others b blk :
  owns m mine others -> (b ∈ mine) -> owns (with_block b blk m) mine others /\ keeps others m (with_block b blk m).
Proof.
  intros [Ho Ha Hs] Hb. split; [split|split; [|split]]; try done.
  - apply pool_ok_store; [done|]. apply elem_of_union. left. by apply elem_of_list_to_set.
  - intros c Hc. apply with_block_lookup_ne. intros ->. by apply (Ha c).
Qed.

Lemma keeps_malloc others m : keeps others m (set_mallocs (S (mallocs m)) m).
Proof. split; [done|]. split; [cbn; lia|done]. Qed.

Lemma own_malloc m mine others : owns m mine others -> owns (set_mallocs (S (mallocs m)) m) mine others.
Proof. intros [Ho Ha Hs]. split; [by apply pool_ok_malloc|done|done]. Qed.

(** Why there is no more memory between the states [m] and [m']: it is not to be
    allocated, or a call of [malloc] failed. *)
Definition unavailable (mode : AllocationMode) m m' : Prop :=
  mode = CannotAlloc \/ exists n, (mallocs m <= n < mallocs m')%nat /\ malloc n = false.

Lemma unavailable_between mode m m1 m2 m3 :
  (mallocs m <= mallocs m1)%nat -> unavailable mode m1 m2 -> (mallocs m2 <= mallocs m3)%nat -> unavailable mode m m3.
Proof. intros H1 [Hmode|(n & Hn & E)] H2; [by left|]. right. exists n. split; [lia|done]. Qed.

Lemma unavailable_next mode m m' :
  mode = CannotAlloc \/ malloc (mallocs m) = false /\ mallocs m' = S (mallocs m) -> unavailable mode m m'.
Proof. intros [H|[E En]]; [by left|]. right. exists (mallocs m). split; [lia|done]. Qed.

(** A block is had from the pool. *)
Lemma own_requisition mode m mine others :
  owns m mine others -> exists o m', requisition_block malloc raw_flags mode m = Some (o, m') /\
    keeps (list_to_set mine ∪ others) m m' /\
    match o with
    | None => owns m' mine others /\ (mode = CannotAlloc \/ malloc (mallocs m) = false /\ mallocs m' = S (mallocs m))
    | Some b => owns m' (b :: mine) others /\ (b ∉ mine) /\ exists blk, blocks m' !! b = Some blk /\ blank blk
    end.
Proof.
  intros [Ho Ha Hs]. destruct (requisition_block_spec malloc raw_flags mode m _ Ho Hs) as (o & m' & E & Hsz & Hcalls & Hsame & Hres).
  exists o, m'. split; [done|]. split; [done|]. destruct o as [b|].
  - destruct Hres as (Hb & Hp & Hx). apply not_elem_of_union in Hb as [Hb Hb']. rewrite not_elem_of_list_to_set in Hb.
    split; [split|split; [done|done]].
    + cbn [list_to_set]. by rewrite <- (assoc_L (∪)).
    + intros c [->|Hc]%elem_of_cons; [done|by apply Ha].
    + by rewrite Hsz.
  - destruct Hres as [Hp Hwhy]. split; [split; [done|done|by rewrite Hsz]|done].
Qed.

(** A blank block is given back. *)
Lemma own_free m mine others b blk :
  owns m (b :: mine) others -> b ∉ mine -> blocks m !! b = Some blk -> blank blk ->
  owns (set_freeList (b :: freeList m) m) mine others /\ keeps (list_to_set mine ∪ others) m (set_freeList (b :: freeList m) m).
Proof.
  intros [Ho Ha Hs] Hb Eb Hbl. assert (b ∉ others) as Hbo by (apply Ha; left).
  split; [|done]. split; [| |done].
  - replace (list_to_set mine ∪ others) with ((list_to_set (b :: mine) ∪ others) ∖ {[b]} : gset nat).
    + eapply (pool_ok_free malloc raw_flags); [exact Ho| |exact Eb|exact Hbl]. cbn. set_solver.
    + cbn. set_solver.
  - intros c Hc. apply Ha. by right.
Qed.

(** Only the contents of blocks in [l] have changed. *)
Record touched (l : list nat) m m' : Prop := mkTouched {
  touched_rest : m' = set_blocks (blocks m') m;
  touched_other : forall b, b ∉ l -> blocks m' !! b = blocks m !! b;
  touched_next : forall b blk, blocks m !! b = Some blk -> exists blk', blocks m' !! b = Some blk' /\ Block.next blk' = Block.next blk
}.

Lemma touched_refl l m : touched l m m.
Proof. split; [by destruct m|done|]. intros b blk E. by exists blk. Qed.

Lemma touched_trans l m1 m2 m3 : touched l m1 m2 -> touched l m2 m3 -> touched l m1 m3.
Proof.
  intros [R1 O1 N1] [R2 O2 N2]. split.
  - rewrite R2, R1. done.
  - intros b Hb. by rewrite O2, O1.
  - intros b blk E. destruct (N1 b blk E) as (blk1 & E1 & <-). by apply N2.
Qed.

Lemma touched_block l m b blk blk' :
  blocks m !! b = Some blk -> Block.next blk' = Block.next blk -> (b ∈ l) -> touched l m (with_block b blk' m).
Proof.
  intros Eb En Hb. split; [done| |].
  - intros c Hc. apply with_block_lookup_ne. by intros ->.
  - intros c cblk Ec. destruct (decide (b = c)) as [<-|Hne].
    + exists blk'. rewrite with_block_lookup. split; [done|]. congruence.
    + exists cblk. by rewrite with_block_lookup_ne.
Qed.

(** Blocks in [l] have changed, and are still there. *)
Record changed (l : list nat) m m' : Prop := mkChanged {
  changed_rest : m' = set_blocks (blocks m') m;
  changed_other : forall b, b ∉ l -> blocks m' !! b = blocks m !! b;
  changed_there : forall b, is_Some (blocks m !! b) -> is_Some (blocks m' !! b)
}.

Lemma changed_touched l m m' : touched l m m' -> changed l m m'.
Proof. intros [R O N]. split; [done|done|]. intros b [blk E]. destruct (N b blk E) as (blk' & E' & _). by exists blk'. Qed.

Lemma changed_refl l m : changed l m m.
Proof. split; [by destruct m|done|done]. Qed.

Lemma changed_trans l m1 m2 m3 : changed l m1 m2 -> changed l m2 m3 -> changed l m1 m3.
Proof.
  intros [R1 O1 N1] [R2 O2 N2]. split; [by rewrite R2, R1| |intros b Hb; by apply N2, N1].
  intros b Hb. by rewrite O2, O1.
Qed.

Lemma changed_weaken l l' m m' : (forall b, (b ∈ l) -> (b ∈ l')) -> changed l m m' -> changed l' m m'.
Proof. intros H [R O N]. split; [done| |done]. intros b Hb. apply O. by intros Hl%H. Qed.

Lemma changed_block l m b blk : (b ∈ l) -> changed l m (with_block b blk m).
Proof.
  intros Hb. split; [done| |].
  - intros c Hc. apply with_block_lookup_ne. by intros ->.
  - intros c Hc. destruct (decide (b = c)) as [<-|Hne]; [by rewrite with_block_lookup|by rewrite with_block_lookup_ne].
Qed.

Lemma own_changed l m m' mine others :
  owns m mine others -> (forall b, b ∈ l -> b ∈ mine) -> changed l m m' -> owns m' mine others /\ keeps others m m'.
Proof.
  intros [[Hu Hf Hnd Hi Hx Hn Hall] Ha Hs] Hl [Hr Ho Hth].
  assert (forall b, (b ∉ (list_to_set mine ∪ others : gset nat)) -> blocks m' !! b = blocks m !! b) as Hsame.
  { intros b Hb. apply Ho. intros H%Hl. apply Hb, elem_of_union. left. by apply elem_of_list_to_set. }
  assert (forall b, is_Some (blocks m' !! b) <-> is_Some (blocks m !! b)) as Hdom.
  { intros b. split; [|apply Hth].
    intros Hb. destruct (blocks m !! b) eqn:E; [done|]. rewrite Hsame, E in Hb; [done|]. intros H%Hu. rewrite E in H. by destruct H. }
  rewrite Hr in *. cbn [blocks set_blocks] in *. split; [split|split; [|split]]; try done.
  - split; cbn [blocks freeList initialBlockPoolIndex initialBlockPoolSize mallocs set_blocks]; try done.
    + intros b Hb. by apply Hdom, Hu.
    + intros b Hb. destruct (Hf b Hb) as [Hbu ?]. split; [done|]. by rewrite Hsame.
    + intros i Hir. destruct (Hi i Hir) as (Hiu & ? & ?). split; [done|]. split; [done|]. by rewrite Hsame.
    + intros b Hb. by apply Hn, Hdom.
    + intros b Hb. by apply Hall, Hdom.
  - intros b Hb. apply Ho. intros H%Hl. by apply (Ha b).
Qed.

Lemma own_touched l m m' mine others :
  owns m mine others -> (forall b, b ∈ l -> b ∈ mine) -> touched l m m' -> owns m' mine others /\ keeps others m m'.
Proof. intros Ho Hl Ht. eapply own_changed; [done|done|by apply changed_touched]. Qed.

(** The blocks [l] one after the other, by their [next]. *)
Definition chain (bs : gmap nat (Block.t T)) (l : list nat) : Prop :=
  forall j b, l !! j = Some b -> exists blk, bs !! b = Some blk /\ Block.next blk = l !! S j.

Lemma chain_cons bs b l : chain bs (b :: l) <-> (exists blk, bs !! b = Some blk /\ Block.next blk = head l) /\ chain bs l.
Proof.
  split.
  - intros H. split; [|intros j c Hj; by apply (H (S j))]. destruct (H O b eq_refl) as (blk & E & En). exists blk. split; [done|].
    rewrite En. by destruct l.
  - intros [(blk & E & En) H] [|j] c Hj; [|by apply H]. injection Hj as <-. exists blk. split; [done|]. rewrite En. by destruct l.
Qed.

(** The same but for the last block, whose [next] may be anything. *)
Definition linked (bs : gmap nat (Block.t T)) (l : list nat) : Prop :=
  forall j b c, l !! j = Some b -> l !! S j = Some c -> exists blk, bs !! b = Some blk /\ Block.next blk = Some c.

Lemma linked_cons bs b c l :
  linked bs (b :: c :: l) <-> (exists blk, bs !! b = Some blk /\ Block.next blk = Some c) /\ linked bs (c :: l).
Proof.
  split.
  - intros H. split; [by apply (H O)|]. intros j. apply (H (S j)).
  - intros [H0 H] [|j] b' c' Hb Hc; [by injection Hb as <-; injection Hc as <-|by apply (H j)].
Qed.

Lemma linked_touched l m m' l' : touched l m m' -> linked (blocks m) l' -> linked (blocks m') l'.
Proof.
  intros Ht Hc j b c Hj Hj'. destruct (Hc j b c Hj Hj') as (blk & E & En). destruct (touched_next _ _ _ Ht b blk E) as (blk' & E' & En').
  exists blk'. split; [done|]. by rewrite En'.
Qed.

Lemma linked_ext bs bs' l : (forall b, (b ∈ l) -> bs' !! b = bs !! b) -> linked bs l -> linked bs' l.
Proof. intros E H j b c Hj Hj'. rewrite E by (by eapply list_elem_of_lookup_2). by apply (H j). Qed.

Lemma linked_suffix bs l l' : linked bs (l ++ l') -> linked bs l'.
Proof.
  intros H j b c Hj Hj'. apply (H (length l + j)%nat).
  - rewrite lookup_app_r by lia. by replace (length l + j - length l)%nat with j by lia.
  - rewrite lookup_app_r by lia. by replace (S (length l + j) - length l)%nat with (S j) by lia.
Qed.

Lemma linked_snoc bs l c b cblk :
  linked bs (l ++ [c]) -> NoDup (l ++ [c]) -> bs !! c = Some cblk -> linked (<[c := Block.set_next (Some b) cblk]> bs) (l ++ [c; b]).
Proof.
  intros H Hnd Ec j d e Hd He. destruct (decide (S j < length (l ++ [c]))%nat) as [Hj|Hj]; rewrite length_app in Hj; cbn [length] in Hj.
  - assert (l !! j = Some d) as Hd' by (rewrite lookup_app_l in Hd by lia; done).
    assert ((l ++ [c]) !! S j = Some e) as He'.
    { change (l ++ [c; b]) with (l ++ [c] ++ [b]) in He. rewrite app_assoc in He. rewrite lookup_app_l in He by (rewrite length_app; cbn; lia). done. }
    destruct (H j d e) as (blk & E & En); [by apply lookup_app_l_Some|done|]. exists blk. rewrite lookup_insert_ne; [done|].
    intros ->. apply NoDup_app in Hnd as (_ & Hnot & _). apply (Hnot d); [by eapply list_elem_of_lookup_2|left].
  - assert (j = length l) as ->.
    { apply lookup_lt_Some in He. rewrite length_app in He. cbn [length] in He. lia. }
    rewrite list_lookup_middle in Hd by done. injection Hd as <-. exists (Block.set_next (Some b) cblk).
    rewrite lookup_insert_eq. split; [done|]. rewrite lookup_app_r in He by lia.
    replace (S (length l) - length l)%nat with 1%nat in He by lia. cbn in He. by injection He as <-.
Qed.

Lemma chain_linked bs l :
  linked bs l -> (forall b, last l = Some b -> exists blk, bs !! b = Some blk /\ Block.next blk = None) -> chain bs l.
Proof.
  intros H Hl j b Hj. destruct (l !! S j) as [c|] eqn:Ec; [by apply (H j)|]. apply Hl. rewrite last_lookup.
  apply lookup_ge_None in Ec. pose proof (lookup_lt_Some _ _ _ Hj). by replace (Nat.pred (length l)) with j by lia.
Qed.

(** A chain of blank blocks is given back. *)
Lemma add_blocks_spec news fuel m mine others :
  chain (blocks m) news -> (length news <= fuel)%nat -> owns m (news ++ mine) others -> NoDup (news ++ mine) ->
  (forall b blk, (b ∈ news) -> blocks m !! b = Some blk -> blank blk) ->
  exists m', add_blocks_to_free_list fuel (head news) m = Some (tt, m') /\ blocks m' = blocks m /\ owns m' mine others /\ keeps others m m'.
Proof.
  revert fuel m. induction news as [|b news IH]; intros fuel m Hc Hfuel Ho Hnd Hbl; [by destruct fuel; exists m|].
  destruct fuel as [|fuel]; [cbn in Hfuel; lia|]. cbn [add_blocks_to_free_list head hd_error].
  apply chain_cons in Hc as [(blk & Eb & En) Hc]. rewrite (bind_some _ _ _ _ _ (load_block_some m b blk Eb)).
  rewrite (bind_some _ _ _ tt (set_freeList (b :: freeList m) m)) by done. rewrite En.
  apply NoDup_cons in Hnd as [Hb Hnd].
  destruct (own_free m (news ++ mine) others b blk Ho Hb Eb) as [Ho1 Hk1]; [apply (Hbl b); [left|done]|].
  destruct (IH fuel (set_freeList (b :: freeList m) m)) as (m' & E & Ebs & Ho' & Hk); [done|cbn in Hfuel; lia|done|done| |].
  - intros c cblk Hc'. apply Hbl. by right.
  - exists m'. split; [done|]. split; [done|]. split; [done|]. eapply keeping_trans; [|done].
    eapply keeps_weaken; [|done]. apply union_subseteq_r.
Qed.

Lemma own_nothing m others : pool_ok malloc m others -> initialBlockPoolSize m < 2 ^ 64 - 1 -> owns m [] others.
Proof. intros Hp Hs. split; [by rewrite list_to_set_nil, (left_id_L ∅ (∪))|by intros b Hb%elem_of_nil|done]. Qed.
End Sharing.

(** ** The newest block *)

Section Newest.
Context {tr : Traits} (checked : static_asserts = true) (fits : BLOCK_SIZE <= 2 ^ 62) {T : Type} {ctx : InnerQueueContext}.
Context (malloc : nat -> bool).
Implicit Types (m : Memory (T := T)) (l : list nat) (others : gset nat).

(** An element is constructed in it. *)
Lemma put_newest m others b l tb h f i x :
  blocks_hold ctx (blocks m) (b :: l) tb h f -> owns malloc m (b :: l) others -> tb `mod` BLOCK_SIZE = 0 -> tb <= i < tb + BLOCK_SIZE ->
  f i = None ->
  exists m', (forall P (q : P), put b (u64 i) x (m, q) = Some (tt, (m', q))) /\ blocks_hold ctx (blocks m') (b :: l) tb h (upd f i (Some x)) /\
    owns malloc m' (b :: l) others /\ keeps others m m' /\ touched [b] m m'.
Proof.
  intros Hh Ho Htb Hi Hf. destruct (hold_block _ _ _ _ _ Hh O b eq_refl) as (blk & Eb & Hb). rewrite Z.mul_0_l, Z.sub_0_r in Hb.
  destruct (put_has blk tb h f i x Hb Hi) as (blk' & Ep & Hb' & En); [by apply (place_in checked fits)|done|].
  destruct (own_store malloc m (b :: l) others b blk' Ho) as [Ho' Hk]; [left|]. exists (with_block b blk' m).
  split; [intros P q; by apply (put_some checked fits m q b i x blk blk')|].
  split; [|split; [done|split; [done|eapply touched_block; [done|done|left]]]].
  eapply (hold_insert checked fits _ _ _ _ _ _ _ O); [exact Hh|done|by rewrite Z.mul_0_l, Z.sub_0_r| |done].
  intros z Hz. unfold upd. rewrite decide_False; [done|lia].
Qed.
End Newest.
