(* ===== verification/BlockChains.v ===== *)
(** * Elements in a chain of blocks

    The loops of the bulk operations over the blocks of a producer, each of
    which knows the next: elements are constructed up to the first that throws,
    and those constructed are destroyed again. *)
From S2P Require Import Prelude.
From S2P Require Import QueueUtils.
From S2P Require Import QueueTraits.
From S2P Require Import QueueBlock.
From S2P Require Import BlockPool.
From S2P Require Import ProducerMemory.
From S2P Require Import BlockContents.
From S2P Require Import BlockMemory.
#[local] Open Scope Z_scope.
Import ProducerMemory.

Section Chains.
Context {tr : Traits} (checked : static_asserts = true) (fits : BLOCK_SIZE <= 2 ^ 62) {T P : Type} {ctx : InnerQueueContext}.
Context (noexcept_ctor : bool) (ctor_throws : T -> bool).
Context (tail_block : P -> option nat) (set_tail_block : option nat -> P -> P).
Context (get_set : forall v p, tail_block (set_tail_block v p) = v).
Context (set_set : forall v v' p, set_tail_block v (set_tail_block v' p) = set_tail_block v p).
Context (set_get : forall p, set_tail_block (tail_block p) p = p).
Implicit Types (m : Memory (T := T)) (p : P) (f : Z -> option T) (l L : list nat).
Abbreviation hold := (blocks_hold ctx).

(** The chain [l] are the newest of the blocks [L], the newest last. *)
Definition newest_of l L : Prop := forall q c, l !! q = Some c -> L !! (length l - 1 - q)%nat = Some c.

Lemma newest_tail b l L : newest_of (b :: l) L -> newest_of l L.
Proof.
  intros H q c Hq. replace (length l - 1 - q)%nat with (length (b :: l) - 1 - S q)%nat by (cbn; lia). by apply H.
Qed.

Lemma newest_head b l L : newest_of (b :: l) L -> L !! length l = Some b.
Proof. intros H. specialize (H O b eq_refl). cbn in H. by replace (length l - 0 - 0)%nat with (length l) in H by lia. Qed.

Lemma newest_in l L b : newest_of l L -> (b ∈ l) -> (b ∈ L).
Proof. intros H [q Hq]%list_elem_of_lookup. apply H in Hq. by eapply list_elem_of_lookup_2. Qed.

Lemma newest_reverse l rest : newest_of l (reverse l ++ rest).
Proof.
  intros q c Hq. pose proof (lookup_lt_Some _ _ _ Hq). rewrite lookup_app_l by (rewrite length_reverse; lia).
  rewrite reverse_lookup by lia. by replace (length l - S (length l - 1 - q))%nat with q by lia.
Qed.

Lemma newest_not_in b l L : newest_of (b :: l) L -> NoDup L -> b ∉ l.
Proof.
  intros H Hnd [q Hq]%list_elem_of_lookup. pose proof (newest_head _ _ _ H) as Hb. pose proof (newest_tail _ _ _ H q b Hq) as Hb'.
  pose proof (NoDup_lookup _ _ _ _ Hnd Hb Hb'). apply lookup_lt_Some in Hq. lia.
Qed.

(** One block of the chain changed. *)
Lemma hold_step bs L tb h f f' j b blk' :
  hold bs L tb h f -> L !! j = Some b -> block_has ctx blk' (tb - Z.of_nat j * BLOCK_SIZE) h f' ->
  (forall z, ~ tb - Z.of_nat j * BLOCK_SIZE <= z < tb - Z.of_nat j * BLOCK_SIZE + BLOCK_SIZE -> f' z = f z) ->
  hold (<[b := blk']> bs) L tb h f'.
Proof. intros. by eapply (hold_insert checked fits). Qed.

(** ** Construction *)

(** Nothing to be constructed. *)
Lemma fill_chain_nil fuel m p i :
  fill_chain noexcept_ctor ctor_throws tail_block set_tail_block (S fuel) (tail_block p) (u64 i) (u64 i) [] (m, p) = Some (None, (m, p)).
Proof.
  cbn [fill_chain]. rewrite (bind_some _ _ _ (tail_block p) (m, p)) by done.
  destruct (behind checked fits 0 i ltac:(apply Zmod_0_l)) as (j & _ & Hj). pose proof (BLOCK_SIZE_bounds checked fits).
  rewrite (stop_index_spec checked fits (0 + - j * BLOCK_SIZE)); [|rewrite Z_mod_plus_full; apply Zmod_0_l|lia|lia|lia].
  replace (Z.min _ i) with i by lia. rewrite Z.eqb_refl. rewrite (bind_some _ _ _ (u64 i, [], false) (m, p)) by done.
  rewrite decide_True by done. by rewrite (bind_some _ _ _ tt (m, p)) by (apply assert_true, Z.eqb_refl).
Qed.

Lemma fill_chain_spec l : forall fuel b m p f i zs endBlock L tb h,
  hold (blocks m) L tb h f -> tb `mod` BLOCK_SIZE = 0 -> newest_of (b :: l) L -> linked (blocks m) (b :: l) ->
  tail_block p = Some b -> endBlock = last (b :: l) -> (length l < fuel)%nat ->
  let b0 := tb - Z.of_nat (length l) * BLOCK_SIZE in
  b0 <= i < b0 + BLOCK_SIZE -> 0 < Z.of_nat (length zs) < 2 ^ 63 -> tb < i + Z.of_nat (length zs) <= tb + BLOCK_SIZE ->
  (forall z, i <= z -> f z = None) ->
  exists q m' c k, fill_chain noexcept_ctor ctor_throws tail_block set_tail_block fuel endBlock (u64 i) (u64 (i + Z.of_nat (length zs))) zs (m, p) =
      Some (if decide (q = length zs) then None else Some (u64 (i + Z.of_nat q)), (m', set_tail_block (Some c) p)) /\
    (q <= length zs)%nat /\ touched L m m' /\ hold (blocks m') L tb h (over f i (firstn q zs)) /\
    Forall (fun y => throws noexcept_ctor ctor_throws y = false) (firstn q zs) /\
    ((q < length zs)%nat -> exists y, zs !! q = Some y /\ throws noexcept_ctor ctor_throws y = true) /\
    (b :: l) !! k = Some c /\ b0 + Z.of_nat k * BLOCK_SIZE <= i + Z.of_nat q <= b0 + Z.of_nat k * BLOCK_SIZE + BLOCK_SIZE /\
    (q = length zs -> k = length l).
Proof.
  pose proof (BLOCK_SIZE_bounds checked fits) as HB.
  induction l as [|b' l IH]; intros fuel b m p f i zs endBlock L tb h Hh Htb Hnew Hch Hp Hend Hfuel b0 Hi Hzs HiN Hf;
    (destruct fuel as [|fuel]; [lia|]); cbn [fill_chain]; rewrite (bind_some _ _ _ (tail_block p) (m, p)) by done; rewrite Hp;
    rewrite (stop_index_spec checked fits b0) by (try apply back_mod; done || lia);
    set (stop := Z.min (b0 + BLOCK_SIZE) (i + Z.of_nat (length zs))).
  all: rewrite wrap_eqb by lia; rewrite (proj2 (Z.eqb_neq i stop)) by (cbn [length] in *; lia).
  all: pose proof (newest_head _ _ _ Hnew) as Hj; destruct (hold_block _ _ _ _ _ Hh _ _ Hj) as (blk & Eb & Hb); fold b0 in Hb.
  all: destruct (fill_block_spec checked fits noexcept_ctor ctor_throws (Z.to_nat BLOCK_SIZE) m p b blk b0 h f i stop zs Eb Hb)
    as (q & blk' & E & Hb' & Hn & Hq & Hall & Hthrow); [by apply back_mod|lia|lia|lia|lia|intros z Hz; apply Hf; lia|].
  all: erewrite bind_some by (rewrite (bind_some _ _ _ b (m, p)) by done; exact E).
  all: assert (touched L m (with_block b blk' m)) as Ht by (eapply touched_block; [done|done|by eapply list_elem_of_lookup_2]).
  all: assert (hold (blocks (with_block b blk' m)) L tb h (over f i (firstn q zs))) as Hh1 by
    (eapply hold_step; [exact Hh|exact Hj|exact Hb'|]; intros z Hz; unfold over; rewrite length_firstn, decide_False; [done|]; fold b0 in Hz; lia).
  all: cbv zeta iota beta; case_bool_decide as Hstop.
  1,3: exists q, (with_block b blk' m), b, O; rewrite decide_False by lia;
    split; [by rewrite <- Hp, set_get|]; split; [lia|]; split; [done|]; split; [done|]; split; [done|]; split; [intros _; by apply Hthrow|];
    split; [done|]; split; [lia|lia].
  - cbn [length] in b0. rewrite decide_True by done. rewrite (proj2 (Z.eqb_eq _ _)) by (f_equal; lia).
    exists q, (with_block b blk' m), b, O. rewrite decide_True by lia.
    split; [by rewrite (bind_some _ _ _ tt (with_block b blk' m, p)), <- Hp, set_get by done|].
    split; [lia|]. split; [done|]. split; [done|]. split; [done|]. split; [intros ?; apply Hthrow; lia|]. split; [done|]. split; [lia|done].
  - rewrite decide_False.
    2:{ rewrite Hend, last_cons_cons. intros [=E']. symmetry in E'. apply last_Some in E' as [l1 E'].
        apply (newest_not_in _ _ _ Hnew); [apply Hh|]. rewrite E'. apply elem_of_app. right. left. }
    apply linked_cons in Hch as [(blk1 & Eb1 & En) Hch'].
    rewrite Eb in Eb1. injection Eb1 as <-.
    rewrite (bind_some _ _ _ b (with_block b blk' m, p)) by done.
    rewrite (bind_some _ _ _ _ _ (mem_load _ p b blk' (with_block_lookup m b blk'))). rewrite Hn, En.
    rewrite (bind_some _ _ _ tt (with_block b blk' m, set_tail_block (Some b') p)) by done.
    assert (i + Z.of_nat q = b0 + BLOCK_SIZE) as Eq by (cbn [length] in *; lia).
    assert (length (drop q zs) = length zs - q)%nat as El by apply length_drop. cbn [length] in b0.
    destruct (IH fuel b' (with_block b blk' m) (set_tail_block (Some b') p) (over f i (firstn q zs)) (i + Z.of_nat q) (drop q zs) endBlock L tb h)
      as (q2 & m' & c & k & E2 & Hq2 & Ht2 & Hh2 & Hall2 & Hthrow2 & Hc & Hr & Hk).
    + done.
    + done.
    + by eapply newest_tail.
    + by eapply linked_touched.
    + done.
    + by rewrite Hend, last_cons_cons.
    + cbn in Hfuel. lia.
    + cbn [length]. lia.
    + rewrite El. lia.
    + rewrite El. lia.
    + intros z Hz. unfold over. rewrite length_firstn, decide_False by lia. apply Hf. lia.
    + exists (q + q2)%nat, m', c, (S k). rewrite El in *.
      replace (i + Z.of_nat q + Z.of_nat (length zs - q)) with (i + Z.of_nat (length zs)) in E2 by lia. rewrite E2, set_set.
      split. { do 2 f_equal. replace (i + Z.of_nat (q + q2)) with (i + Z.of_nat q + Z.of_nat q2) by lia. repeat case_decide; (done || lia). }
      split; [lia|]. split; [by eapply touched_trans|]. rewrite <- take_take_drop. split; [|split; [by apply Forall_app|]].
      { eapply (hold_ext checked fits); [|exact Hh2]. intros z _. rewrite <- over_app, length_firstn. do 2 f_equal. lia. }
      split. { intros Hlt. destruct (Hthrow2 ltac:(lia)) as (y & Ey & Hy). exists y. split; [|done]. by rewrite lookup_drop in Ey. }
      split; [done|]. split; [cbn [length] in *; lia|]. intros Hall'. cbn [length]. f_equal. apply Hk. lia.
Qed.

(** ** Destruction *)

Lemma destroy_chain_spec k : forall fuel b l c m p f i stop L tb h,
  hold (blocks m) L tb h f -> tb `mod` BLOCK_SIZE = 0 -> newest_of (b :: l) L -> linked (blocks m) (b :: l) ->
  (b :: l) !! k = Some c -> (k < fuel)%nat ->
  let b0 := tb - Z.of_nat (length l) * BLOCK_SIZE in
  b0 <= i < b0 + BLOCK_SIZE -> i <= stop -> stop - i < 2 ^ 63 -> b0 + Z.of_nat k * BLOCK_SIZE <= stop <= b0 + Z.of_nat k * BLOCK_SIZE + BLOCK_SIZE ->
  (forall z, i <= z < stop -> is_Some (f z)) ->
  exists m', destroy_chain fuel (Some b) (Some c) (u64 i) (u64 stop) (m, p) = Some (tt, (m', p)) /\
    touched L m m' /\ hold (blocks m') L tb h (without f i stop).
Proof.
  pose proof (BLOCK_SIZE_bounds checked fits) as HB.
  induction k as [|k IH]; intros fuel b l c m p f i stop L tb h Hh Htb Hnew Hch Hc Hfuel b0 Hi Hle Hd Hs Hf;
    (destruct fuel as [|fuel]; [lia|]); cbn [destroy_chain];
    rewrite (stop_index_spec checked fits b0) by (try apply back_mod; done || lia); set (stop1 := Z.min (b0 + BLOCK_SIZE) stop).
  all: pose proof (newest_head _ _ _ Hnew) as Hj; destruct (hold_block _ _ _ _ _ Hh _ _ Hj) as (blk & Eb & Hb); fold b0 in Hb.
  all: assert (exists m1 blk1, (if u64 i =? u64 stop1 then mret (u64 i)
      else b ← the (Some b); destroy_in_block (Z.to_nat BLOCK_SIZE) b (u64 i) (u64 stop1)) (m, p) = Some (u64 stop1, (m1, p)) /\
      touched L m m1 /\ hold (blocks m1) L tb h (without f i stop1) /\ blocks m1 !! b = Some blk1 /\ Block.next blk1 = Block.next blk)
    as (m1 & blk1 & E1 & Ht & Hh1 & Eb1 & En1).
  1,3: rewrite wrap_eqb by lia; destruct (Z.eqb_spec i stop1) as [Ei|Hne];
    [exists m, blk; split; [by rewrite Ei|]; split; [apply touched_refl|]; split; [|done];
     eapply (hold_ext checked fits); [|exact Hh]; intros z _; unfold without; by rewrite decide_False by lia|];
    destruct (destroy_in_block_spec checked fits (Z.to_nat BLOCK_SIZE) m p b blk b0 h f i stop1 Eb Hb) as (blk1 & E1 & Hb1 & En1);
    [by apply back_mod|lia|lia|lia|intros z Hz; apply Hf; lia|];
    exists (with_block b blk1 m), blk1; split; [by rewrite (bind_some _ _ _ b (m, p)) by done|];
    split; [eapply touched_block; [done|done|by eapply list_elem_of_lookup_2]|];
    split; [|by split; [apply with_block_lookup|]];
    eapply hold_step; [exact Hh|exact Hj|exact Hb1|]; intros z Hz; unfold without; rewrite decide_False; [done|]; fold b0 in Hz; lia.
  all: rewrite (bind_some _ _ _ _ _ E1).
  - injection Hc as <-. rewrite decide_True by done. exists m1. split; [done|]. split; [done|].
    replace stop with stop1 by lia. done.
  - destruct l as [|b' l]; [done|]. cbn [lookup list_lookup] in Hc. rewrite decide_False.
    2:{ intros [=E]. apply (newest_not_in _ _ _ Hnew); [apply Hh|]. rewrite E. by eapply (list_elem_of_lookup_2 _ k). }
    apply linked_cons in Hch as [(blk2 & Eb2 & En) Hch'].
    rewrite Eb in Eb2. injection Eb2 as <-.
    rewrite (bind_some _ _ _ b (m1, p)) by done. rewrite (bind_some _ _ _ _ _ (mem_load _ p b blk1 Eb1)), En1, En.
    assert (stop1 = b0 + BLOCK_SIZE) as Estop by (cbn [length] in *; lia). cbn [length] in b0.
    destruct (IH fuel b' l c m1 p (without f i stop1) stop1 stop L tb h) as (m' & E & Ht' & Hh'); try done; try (cbn [length]; lia).
    + by eapply newest_tail.
    + by eapply linked_touched.
    + intros z Hz. unfold without. rewrite decide_False by lia. apply Hf. lia.
    + exists m'. split; [done|]. split; [by eapply touched_trans|]. eapply (hold_ext checked fits); [|exact Hh'].
      intros z _. unfold without. repeat case_decide; (done || lia).
Qed.

End Chains.
