(* ===== verification/ExplicitProducer.v ===== *)
(** * Explicit producers (utils/concurrentqueue.h, [ExplicitProducer])

    The sub-queue of a producer token, as one thread sees it: its blocks are
    in a ring, of which it fills one after the other and reuses those that
    have been emptied; a circular index, which grows, says which block has
    which elements. *)
From S2P Require Import Prelude.
From S2P Require Import QueueUtils.
From S2P Require Import QueueTraits.
From S2P Require Import QueueBlock.
From S2P Require Import BlockPool.
From S2P Require Import ProducerMemory.
#[local] Open Scope Z_scope.

Module ExplicitProducer.
Export ProducerMemory.
Section ExplicitProducer.
Context {tr : Traits} {T : Type}.
Context (malloc : nat -> bool) (raw_flags : nat -> list bool).
(** Whether the constructor of an element is [noexcept], and whether it throws
    when it is not. *)
Context (noexcept_ctor : bool) (ctor_throws : T -> bool).

(** ** Data *)

Record BlockIndexEntry := mkEntry { base : Z; block : option nat }.

(** An index with its entries; [None] is an entry not written to yet. *)
Record BlockIndexHeader := mkHeader {
  size : Z;
  front : Z;
  entries : list (option BlockIndexEntry);
  prev : option nat
}.

Record t := mk {
  tailIndex : Z;
  headIndex : Z;
  dequeueOptimisticCount : Z;
  dequeueOvercommit : Z;
  tailBlock : option nat;
  headers : list BlockIndexHeader;      (* all indices ever allocated, by number *)
  blockIndex : option nat;              (* the current one; also pr_blockIndexRaw, pr_blockIndexEntries *)
  pr_blockIndexSlotsUsed : Z;
  pr_blockIndexSize : Z;
  pr_blockIndexFront : Z
}.

Definition set_tailIndex v p := mk v (headIndex p) (dequeueOptimisticCount p) (dequeueOvercommit p) (tailBlock p)
  (headers p) (blockIndex p) (pr_blockIndexSlotsUsed p) (pr_blockIndexSize p) (pr_blockIndexFront p).
Definition set_headIndex v p := mk (tailIndex p) v (dequeueOptimisticCount p) (dequeueOvercommit p) (tailBlock p)
  (headers p) (blockIndex p) (pr_blockIndexSlotsUsed p) (pr_blockIndexSize p) (pr_blockIndexFront p).
Definition set_optimistic v p := mk (tailIndex p) (headIndex p) v (dequeueOvercommit p) (tailBlock p)
  (headers p) (blockIndex p) (pr_blockIndexSlotsUsed p) (pr_blockIndexSize p) (pr_blockIndexFront p).
Definition set_overcommit v p := mk (tailIndex p) (headIndex p) (dequeueOptimisticCount p) v (tailBlock p)
  (headers p) (blockIndex p) (pr_blockIndexSlotsUsed p) (pr_blockIndexSize p) (pr_blockIndexFront p).
Definition set_tailBlock v p := mk (tailIndex p) (headIndex p) (dequeueOptimisticCount p) (dequeueOvercommit p) v
  (headers p) (blockIndex p) (pr_blockIndexSlotsUsed p) (pr_blockIndexSize p) (pr_blockIndexFront p).
Definition set_headers v p := mk (tailIndex p) (headIndex p) (dequeueOptimisticCount p) (dequeueOvercommit p)
  (tailBlock p) v (blockIndex p) (pr_blockIndexSlotsUsed p) (pr_blockIndexSize p) (pr_blockIndexFront p).
Definition set_slotsUsed v p := mk (tailIndex p) (headIndex p) (dequeueOptimisticCount p) (dequeueOvercommit p)
  (tailBlock p) (headers p) (blockIndex p) v (pr_blockIndexSize p) (pr_blockIndexFront p).
Definition set_indexFront v p := mk (tailIndex p) (headIndex p) (dequeueOptimisticCount p) (dequeueOvercommit p)
  (tailBlock p) (headers p) (blockIndex p) (pr_blockIndexSlotsUsed p) (pr_blockIndexSize p) v.

Abbreviation State := ((Memory (T := T)) * t)%type.

(** ** The block index *)

(** The entries copied into a new index: from [i] on, up to the front. *)
Fixpoint copy_entries (fuel : nat) (es : list (option BlockIndexEntry)) (i front mask : Z) :
    option (list (option BlockIndexEntry)) :=
  match fuel with
  | O => None
  | S fuel =>
      match es !! Z.to_nat i with
      | None => None
      | Some e =>
          let i := u64 (i + 1) .& mask in
          if i =? front then Some [e]
          else match copy_entries fuel es i front mask with Some l => Some (e :: l) | None => None end
      end
  end.

Definition old_entries : M State (list (option BlockIndexEntry)) :=
  used ← field pr_blockIndexSlotsUsed;
  if used =? 0 then mret []
  else
    raw ← field blockIndex;
    hs ← field headers;
    old ← the (raw ≫= fun n => hs !! n);
    size ← field pr_blockIndexSize;
    front ← field pr_blockIndexFront;
    let prevBlockSizeMask := u64 (size - 1) in
    the (copy_entries (Z.to_nat size) (entries old) (u64 (front - used) .& prevBlockSizeMask) front prevBlockSizeMask).

Definition new_block_index (numberOfFilledSlotsToExpose : Z) : M State bool :=
  ok ← mem (try_malloc malloc);
  if (ok : bool) then
    copied ← old_entries;
    set (fun p =>
      let newSize := u64 (pr_blockIndexSize p * 2) in
      let header := mkHeader newSize (u64 (numberOfFilledSlotsToExpose - 1))
        (copied ++ replicate (Z.to_nat newSize - length copied) None) (blockIndex p) in
      mk (tailIndex p) (headIndex p) (dequeueOptimisticCount p) (dequeueOvercommit p) (tailBlock p)
        (headers p ++ [header]) (Some (length (headers p))) (pr_blockIndexSlotsUsed p) newSize (Z.of_nat (length copied)));;
    mret true
  else mret false.

(** The current index. *)
Definition current : M State (nat * BlockIndexHeader) :=
  raw ← field blockIndex;
  n ← the raw;
  hs ← field headers;
  h ← the (hs !! n);
  mret (n, h).

(** The entry at the front is written; its number is published, or not. *)
Definition write_entry (b : Z) : M State unit :=
  c ← current;
  f ← field pr_blockIndexFront;
  blk ← field tailBlock;
  assert_that (Z.to_nat f <? length (entries c.2))%nat;;
  set (fun p => set_headers (<[c.1 := mkHeader (size c.2) (front c.2)
    (<[Z.to_nat f := Some (mkEntry b blk)]> (entries c.2)) (prev c.2)]> (headers p)) p).
Definition publish (f : Z) : M State unit :=
  c ← current;
  set (fun p => set_headers (<[c.1 := mkHeader (size c.2) f (entries c.2) (prev c.2)]> (headers p)) p).
Definition advance_front : M State unit :=
  set (fun p => set_indexFront (u64 (pr_blockIndexFront p + 1) .& u64 (pr_blockIndexSize p - 1)) p).

(** ** Construction *)

Definition fresh (size : Z) : t := mk 0 0 0 0 None [] None 0 size 0.

(** The constructor of a producer of a queue with this initial pool. *)
Definition initial_size (pool : Z) : Z :=
  let size := EXPLICIT_INITIAL_INDEX_SIZE ≫ 1 in
  let poolBasedIndexSize := ceil_to_pow_2 64 pool ≫ 1 in
  if size <? poolBasedIndexSize then poolBasedIndexSize else size.
Definition construct : M (Memory (T := T)) t := fun m =>
  match new_block_index 0 (m, fresh (initial_size (initialBlockPoolSize m))) with
  | Some (_, (m, p)) => Some (p, m)
  | None => None
  end.

(** ** Enqueuing *)

(** Is the block ahead of the tail block there and empty? *)
Definition block_ahead : M State (option nat) :=
  tb ← field tailBlock;
  match tb with
  | None => mret None
  | Some tb =>
      b ← mem (load_block tb);
      n ← the (Block.next b);
      nb ← mem (load_block n);
      e ← the (Block.is_empty explicit_context nb);
      mret (if (e : bool) then Some n else None)
  end.

(** A block put into the ring behind the tail block, as the new tail block. *)
Definition insert_block (newBlock : nat) : M State unit :=
  tb ← field tailBlock;
  match tb with
  | None => mem (store_block newBlock (Block.set_next (Some newBlock)))
  | Some tb =>
      b ← mem (load_block tb);
      mem (store_block newBlock (Block.set_next (Block.next b)));;
      mem (store_block tb (Block.set_next (Some newBlock)))
  end;;
  set (set_tailBlock (Some newBlock));;
  set (fun p => set_slotsUsed (u64 (pr_blockIndexSlotsUsed p + 1)) p).

(** Room in the block index for one more block, if it can be had. *)
Definition index_room (allocMode : AllocationMode) (expose : Z) : M State bool :=
  raw ← field blockIndex;
  used ← field pr_blockIndexSlotsUsed;
  size ← field pr_blockIndexSize;
  if bool_decide (raw = None) || (used =? size)
  then match allocMode with CannotAlloc => mret false | CanAlloc => new_block_index expose end
  else mret true.

(** The start of a new block. *)
Definition start_block (allocMode : AllocationMode) : M State bool :=
  ahead ← block_ahead;
  match ahead with
  | Some n =>
      set (set_tailBlock (Some n));;
      mem (store_block n (Block.reset_empty explicit_context));;
      mret true
  | None =>
      currentTailIndex ← field tailIndex;
      head ← field headIndex;
      assert_that (negb (circular_less_than 64 currentTailIndex head));;
      if full head currentTailIndex then mret false
      else
        used ← field pr_blockIndexSlotsUsed;
        room ← index_room allocMode used;
        if (room : bool) then
          newBlock ← mem (requisition_block malloc raw_flags allocMode);
          match newBlock with
          | None => mret false
          | Some newBlock =>
              mem (store_block newBlock (Block.reset_empty explicit_context));;
              insert_block newBlock;;
              mret true
          end
        else mret false
  end.

Definition enqueue (allocMode : AllocationMode) (element : T) : M State (outcome bool) :=
  currentTailIndex ← field tailIndex;
  let newTailIndex := u64 (1 + currentTailIndex) in
  if place currentTailIndex =? 0 then
    startBlock ← field tailBlock;
    originalBlockIndexSlotsUsed ← field pr_blockIndexSlotsUsed;
    started ← start_block allocMode;
    if (started : bool) then
      tb ← field tailBlock;
      tb ← the tb;
      if negb noexcept_ctor && ctor_throws element then
        set (set_slotsUsed originalBlockIndexSlotsUsed);;
        set (set_tailBlock (match startBlock with Some b => Some b | None => Some tb end));;
        mret Threw
      else
        (if noexcept_ctor then mret tt else put tb currentTailIndex element);;
        write_entry currentTailIndex;;
        f ← field pr_blockIndexFront;
        publish f;;
        advance_front;;
        (if noexcept_ctor then put tb currentTailIndex element else mret tt);;
        set (set_tailIndex newTailIndex);;
        mret (Returned true)
    else mret (Returned false)
  else
    tb ← field tailBlock;
    tb ← the tb;
    if negb noexcept_ctor && ctor_throws element then mret Threw
    else
      put tb currentTailIndex element;;
      set (set_tailIndex newTailIndex);;
      mret (Returned true).

(** ** Dequeuing *)

(** The slot of the index that has the block of an element. *)
Definition locate (h : BlockIndexHeader) (index : Z) : option Z :=
  match entries h !! Z.to_nat (front h) with
  | Some (Some e) =>
      let blockBaseIndex := QueueTraits.base index in
      let offset := u64 (blockBaseIndex - base e) / BLOCK_SIZE in
      Some (u64 (front h + offset) .& u64 (size h - 1))
  | _ => None
  end.
Definition entry_block (h : BlockIndexHeader) (indexIndex : Z) : option nat :=
  match entries h !! Z.to_nat indexIndex with Some (Some e) => block e | _ => None end.

Definition set_empty (b : nat) (index : Z) : M State unit :=
  blk ← mem (load_block b);
  r ← the (Block.set_empty explicit_context index blk);
  mem (store_block b (fun _ => r.2)).

Definition dequeue : M State (option T) :=
  tail ← field tailIndex;
  overcommit ← field dequeueOvercommit;
  optimistic ← field dequeueOptimisticCount;
  if circular_less_than 64 (u64 (optimistic - overcommit)) tail then
    myDequeueCount ← field dequeueOptimisticCount;
    set (set_optimistic (u64 (myDequeueCount + 1)));;
    assert_that (overcommit <=? myDequeueCount);;
    tail ← field tailIndex;
    if circular_less_than 64 (u64 (myDequeueCount - overcommit)) tail then
      index ← field headIndex;
      set (set_headIndex (u64 (index + 1)));;
      c ← current;
      i ← the (locate c.2 index);
      b ← the (entry_block c.2 i);
      el ← take b index;
      set_empty b index;;
      mret (Some el)
    else
      set (fun p => set_overcommit (u64 (dequeueOvercommit p + 1)) p);;
      mret None
  else mret None.

(** ** Bulk operations *)

(** The state of [enqueue_bulk] while it gets its blocks: the bytes of index
    left to cover, the index reached, and the first block it has got. *)
Record progress := mkProgress { blockBaseDiff : Z; currentTail : Z; firstAllocated : option nat }.
Definition next_block (g : progress) (first : nat) : progress :=
  mkProgress (u64 (blockBaseDiff g - BLOCK_SIZE)) (u64 (currentTail g + BLOCK_SIZE))
    (match firstAllocated g with None => Some first | f => f end).

(** The loop over the empty blocks ahead. The fuel is the number of blocks. *)
Fixpoint reuse_blocks (fuel : nat) (g : progress) : M State progress :=
  match fuel with
  | O => undefined
  | S fuel =>
      if 0 <? blockBaseDiff g then
        ahead ← block_ahead;
        match ahead with
        | Some n =>
            if decide (firstAllocated g = Some n) then mret g
            else
              let g := next_block g n in
              set (set_tailBlock (Some n));;
              write_entry (currentTail g);;
              advance_front;;
              reuse_blocks fuel g
        | None => mret g
        end
      else mret g
  end.

(** What a bulk operation goes back to. *)
Record origin := mkOrigin { startBlock : option nat; originalFront : Z; originalSlotsUsed : Z }.
Definition revert (o : origin) (first : option nat) : M State unit :=
  set (set_indexFront (originalFront o));;
  set (set_slotsUsed (originalSlotsUsed o));;
  set (set_tailBlock (match startBlock o with Some b => Some b | None => first end)).

(** The loop that gets new blocks from the pool; [None] after it has failed and
    undone its changes but for the blocks in the ring. *)
Fixpoint add_blocks (fuel : nat) (allocMode : AllocationMode) (o : origin) (g : progress) :
    M State (option (origin * progress)) :=
  match fuel with
  | O => undefined
  | S fuel =>
      if 0 <? blockBaseDiff g then
        let diff := u64 (blockBaseDiff g - BLOCK_SIZE) in
        let cur := u64 (currentTail g + BLOCK_SIZE) in
        head ← field headIndex;
        assert_that (negb (circular_less_than 64 cur head));;
        raw ← field blockIndex;
        used ← field pr_blockIndexSlotsUsed;
        size ← field pr_blockIndexSize;
        ready ←
          (if bool_decide (raw = None) || (used =? size) || full head cur then
             if full head cur then mret None
             else
               match allocMode with
               | CannotAlloc => mret None
               | CanAlloc =>
                   ok ← new_block_index (originalSlotsUsed o);
                   mret (if (ok : bool) then Some (mkOrigin (startBlock o) (originalSlotsUsed o) (originalSlotsUsed o)) else None)
               end
           else mret (Some o));
        match ready with
        | None => revert o (firstAllocated g);; mret None
        | Some o =>
            newBlock ← mem (requisition_block malloc raw_flags allocMode);
            match newBlock with
            | None => revert o (firstAllocated g);; mret None
            | Some newBlock =>
                let g := next_block g newBlock in
                mem (store_block newBlock (Block.set_all_empty explicit_context));;
                insert_block newBlock;;
                write_entry (currentTail g);;
                advance_front;;
                add_blocks fuel allocMode o g
            end
        end
      else mret (Some (o, g))
  end.

(** The emptiness of the new blocks is reset, from [block] to the tail block. *)
Fixpoint reset_blocks (fuel : nat) (block : nat) : M State unit :=
  match fuel with
  | O => undefined
  | S fuel =>
      mem (store_block block (Block.reset_empty explicit_context));;
      tb ← field tailBlock;
      if decide (tb = Some block) then mret tt
      else
        b ← mem (load_block block);
        n ← the (Block.next b);
        reset_blocks fuel n
  end.

(** [front.store] of the last slot written. *)
Definition publish_last : M State unit :=
  f ← field pr_blockIndexFront;
  size ← field pr_blockIndexSize;
  publish (u64 (f - 1) .& u64 (size - 1)).

(** The loop over the blocks; the index reached if a constructor has thrown. *)
Definition fill_blocks : nat -> option nat -> Z -> Z -> list T -> M State (option Z) :=
  fill_chain noexcept_ctor ctor_throws tailBlock set_tailBlock.

(** The elements constructed before the exception, from [i] on, destroyed. *)
Definition destroy_blocks : nat -> option nat -> option nat -> Z -> Z -> M State unit := destroy_chain.

(** The blocks for [count] elements; [None] if there are not enough. *)
Definition get_blocks (allocMode : AllocationMode) (count : Z) (o : origin) : M State (option (origin * option nat)) :=
  startTailIndex ← field tailIndex;
  let first := QueueTraits.base (u64 (startTailIndex - 1)) in
  let g := mkProgress (u64 (QueueTraits.base (u64 (startTailIndex + count - 1)) - first)) first None in
  if 0 <? blockBaseDiff g then
    let fuel := S (Z.to_nat (blockBaseDiff g / BLOCK_SIZE)) in
    g ← reuse_blocks fuel g;
    r ← add_blocks fuel allocMode o g;
    match r with
    | None => mret None
    | Some (o, g) =>
        b ← the (firstAllocated g);
        reset_blocks fuel b;;
        (if noexcept_ctor then publish_last else mret tt);;
        mret (Some (o, firstAllocated g))
    end
  else mret (Some (o, None)).

Definition enqueue_bulk (allocMode : AllocationMode) (items : list T) : M State (outcome bool) :=
  let count := Z.of_nat (length items) in
  startTailIndex ← field tailIndex;
  startBlock ← field tailBlock;
  f ← field pr_blockIndexFront;
  used ← field pr_blockIndexSlotsUsed;
  r ← get_blocks allocMode count (mkOrigin startBlock f used);
  match r with
  | None => mret (Returned false)
  | Some (o, first) =>
      let newTailIndex := u64 (startTailIndex + count) in
      let fuel := S (Z.to_nat (count / BLOCK_SIZE + 1)) in
      endBlock ← field tailBlock;
      assert_that (negb (place startTailIndex =? 0) || bool_decide (first <> None) || (count =? 0));;
      set (set_tailBlock (if (place startTailIndex =? 0) && bool_decide (first <> None) then first else startBlock));;
      thrown ← fill_blocks fuel endBlock startTailIndex newTailIndex items;
      match thrown with
      | None =>
          (if negb noexcept_ctor && bool_decide (first <> None) then publish_last else mret tt);;
          set (set_tailIndex newTailIndex);;
          mret (Returned true)
      | Some stop =>
          lastBlockEnqueued ← field tailBlock;
          revert o first;;
          destroy_blocks fuel (if place startTailIndex =? 0 then first else startBlock) lastBlockEnqueued startTailIndex stop;;
          mret Threw
      end
  end.

(** The loop of [dequeue_bulk] over the blocks. *)
Fixpoint take_blocks (fuel : nat) (h : BlockIndexHeader) (indexIndex i last : Z) : M State (list T) :=
  match fuel with
  | O => undefined
  | S fuel =>
      let endIndex := stop_index i last in
      b ← the (entry_block h indexIndex);
      xs ← take_block (Z.to_nat BLOCK_SIZE) b i endIndex;
      blk ← mem (load_block b);
      r ← the (Block.set_many_empty explicit_context i (u64 (endIndex - i)) blk);
      mem (store_block b (fun _ => r.2));;
      if endIndex =? last then mret xs
      else
        ys ← take_blocks fuel h (u64 (indexIndex + 1) .& u64 (size h - 1)) endIndex last;
        mret (xs ++ ys)
  end.

Definition dequeue_bulk (max : Z) : M State (list T) :=
  tail ← field tailIndex;
  overcommit ← field dequeueOvercommit;
  optimistic ← field dequeueOptimisticCount;
  let desiredCount := u64 (tail - u64 (optimistic - overcommit)) in
  if circular_less_than 64 0 desiredCount then
    let desiredCount := if desiredCount <? max then desiredCount else max in
    myDequeueCount ← field dequeueOptimisticCount;
    set (set_optimistic (u64 (myDequeueCount + desiredCount)));;
    assert_that (overcommit <=? myDequeueCount);;
    tail ← field tailIndex;
    let actualCount := u64 (tail - u64 (myDequeueCount - overcommit)) in
    if circular_less_than 64 0 actualCount then
      let actualCount := if desiredCount <? actualCount then desiredCount else actualCount in
      (if actualCount <? desiredCount
       then set (fun p => set_overcommit (u64 (dequeueOvercommit p + (desiredCount - actualCount))) p) else mret tt);;
      firstIndex ← field headIndex;
      set (set_headIndex (u64 (firstIndex + actualCount)));;
      c ← current;
      i ← the (locate c.2 firstIndex);
      take_blocks (S (Z.to_nat (actualCount / BLOCK_SIZE + 1))) c.2 i firstIndex (u64 (firstIndex + actualCount))
    else
      set (fun p => set_overcommit (u64 (dequeueOvercommit p + desiredCount)) p);;
      mret []
  else mret [].

(** ** Destruction *)

(** The half-dequeued block: the loop over the entries from [i] on. *)
Fixpoint find_half_dequeued (fuel : nat) (es : list (option BlockIndexEntry)) (i mask head : Z) : option BlockIndexEntry :=
  match fuel with
  | O => None
  | S fuel =>
      match es !! Z.to_nat i with
      | Some (Some e) =>
          if circular_less_than 64 (u64 (base e + BLOCK_SIZE)) head
          then find_half_dequeued fuel es (u64 (i + 1) .& mask) mask head else Some e
      | _ => None
      end
  end.

(** The elements of a block at the places from [i] on, before [stop]. *)
Definition elements_between (i stop : Z) (blk : Block.t T) : list T :=
  omap id (firstn (Z.to_nat (stop - i)) (drop (Z.to_nat i) (Block.elements blk))).

(** The elements of the blocks from the one behind the tail block on are
    destroyed. The answer is those elements. *)
Fixpoint destroy_elements (fuel : nat) (half : option nat) (b tb : nat) : M State (list T) :=
  match fuel with
  | O => undefined
  | S fuel =>
      blk ← mem (load_block b);
      b ← the (Block.next blk);
      blk ← mem (load_block b);
      e ← the (Block.is_empty explicit_context blk);
      els ←
        (if (e : bool) then mret []
         else
           head ← field headIndex;
           tail ← field tailIndex;
           let i := if decide (half = Some b) then place head else 0 in
           let lastValidIndex := if place tail =? 0 then BLOCK_SIZE else place tail in
           let stop := if decide (b = tb) then lastValidIndex else BLOCK_SIZE in
           destroy_in_block (Z.to_nat BLOCK_SIZE) b i stop;;
           mret (elements_between i stop blk));
      if decide (b = tb) then mret els
      else
        els' ← destroy_elements fuel half b tb;
        mret (els ++ els')
  end.

(** The blocks themselves. *)
Fixpoint destroy_ring (fuel : nat) (b tb : nat) : M State unit :=
  match fuel with
  | O => undefined
  | S fuel =>
      blk ← mem (load_block b);
      let nextBlock := Block.next blk in
      (if Block.dynamicallyAllocated blk then mem (destroy_block b) else mem (add_block_to_free_list b));;
      if decide (nextBlock = Some tb) then mret tt
      else n ← the nextBlock; destroy_ring fuel n tb
  end.

(** The indices freed, from the current one to the first. *)
Fixpoint free_indices (fuel : nat) (hs : list BlockIndexHeader) (n : option nat) : option (list nat) :=
  match n, fuel with
  | None, _ => Some []
  | Some _, O => None
  | Some n, S fuel =>
      match hs !! n with
      | Some h => match free_indices fuel hs (prev h) with Some l => Some (n :: l) | None => None end
      | None => None
      end
  end.

(** The elements destroyed, and the indices freed. *)
Definition destructor (fuel : nat) : M State (list T * list nat) :=
  tb ← field tailBlock;
  els ←
    match tb with
    | None => mret []
    | Some tb =>
        head ← field headIndex;
        half ←
          (if place head =? 0 then mret None
           else
             c ← current;
             f ← field pr_blockIndexFront;
             used ← field pr_blockIndexSlotsUsed;
             size ← field pr_blockIndexSize;
             e ← the (find_half_dequeued fuel (entries c.2) (u64 (f - used) .& u64 (size - 1)) (u64 (size - 1)) head);
             assert_that (circular_less_than 64 (base e) head);;
             mret (block e));
        els ← destroy_elements fuel half tb tb;
        destroy_ring fuel tb tb;;
        mret els
    end;
  hs ← field headers;
  raw ← field blockIndex;
  freed ← the (free_indices (length hs) hs raw);
  mret (els, freed).

End ExplicitProducer.
End ExplicitProducer.
