(* ===== verification/ExplicitRing.v ===== *)
(** * The ring of blocks of an explicit producer

    The blocks of a producer, from the tail block backwards, know each the next
    one, and the tail block knows the last: how the ring turns when a block is
    used again, and how it takes up a new block. *)
From S2P Require Import Prelude.
From S2P Require Import QueueTraits.
From S2P Require Import QueueBlock.
From S2P Require Import BlockPool.
From S2P Require Import BlockContents.
From S2P Require Import BlockMemory.
#[local] Open Scope Z_scope.

Section Ring.
Context {tr : Traits} {T : Type}.
Implicit Types (bs : gmap nat (Block.t T)) (ring : list nat) (m : Memory (T := T)).

(** The successor of the tail block is the last. *)
Definition successor ring (j : nat) : option nat :=
  match j with O => last ring | S j => ring !! j end.
Definition links bs ring : Prop :=
  forall j b, ring !! j = Some b -> exists blk, bs !! b = Some blk /\ Block.next blk = successor ring j.

(** The ring depends on its own blocks only, and on their links only. *)
Lemma links_ext bs bs' ring : (forall b, (b ∈ ring) -> bs' !! b = bs !! b) -> links bs ring -> links bs' ring.
Proof. intros He Hl j b Hj. rewrite He by (by eapply list_elem_of_lookup_2). by apply Hl. Qed.

Lemma links_touched l m m' ring : touched l m m' -> links (blocks m) ring -> links (blocks m') ring.
Proof.
  intros Ht Hl j b Hj. destruct (Hl j b Hj) as (blk & E & En). destruct (touched_next _ _ _ Ht b blk E) as (blk' & E' & En').
  exists blk'. split; [done|congruence].
Qed.

Lemma links_store m b blk blk' ring :
  blocks m !! b = Some blk -> Block.next blk' = Block.next blk -> links (blocks m) ring -> links (blocks (with_block b blk' m)) ring.
Proof. intros Eb En. eapply (links_touched [b]), touched_block; [done|done|left]. Qed.

(** The block behind the tail block becomes the tail block. *)
Lemma links_turn bs ring b : links bs (ring ++ [b]) -> links bs (b :: ring).
Proof.
  intros Hl [|j] c Hc.
  - injection Hc as <-. destruct (Hl (length ring) b) as (blk & Eb & En); [by apply list_lookup_middle|]. exists blk. split; [done|].
    rewrite En. destruct ring as [|a ring]; [done|]. cbn [length successor]. rewrite last_cons_cons.
    rewrite last_lookup, lookup_app_l by (cbn; lia). done.
  - destruct (Hl j c) as (cblk & Ec & En); [by apply lookup_app_l_Some|]. exists cblk. split; [done|]. rewrite En.
    destruct j as [|j]; cbn [successor]; [by rewrite last_snoc|].
    rewrite lookup_app_l by (apply lookup_lt_Some in Hc; cbn in Hc; lia). done.
Qed.

(** A new block becomes the tail block. *)
Lemma links_first bs b blk : bs !! b = Some blk -> links (<[b := Block.set_next (Some b) blk]> bs) [b].
Proof.
  intros Eb [|j] c Hc; [|done]. injection Hc as <-. exists (Block.set_next (Some b) blk). by rewrite lookup_insert_eq.
Qed.

Lemma links_insert bs a ring b blk ablk :
  links bs (a :: ring) -> NoDup (b :: a :: ring) -> bs !! b = Some blk -> bs !! a = Some ablk ->
  links (<[a := Block.set_next (Some b) ablk]> (<[b := Block.set_next (Block.next ablk) blk]> bs)) (b :: a :: ring).
Proof.
  intros Hl Hnd Eb Ea. apply NoDup_cons in Hnd as [Hb Hnd]. intros [|j] c Hc.
  - injection Hc as <-. exists (Block.set_next (Block.next ablk) blk). rewrite lookup_insert_ne by (intros ->; apply Hb; left).
    rewrite lookup_insert_eq. split; [done|]. destruct (Hl O a eq_refl) as (ablk' & Ea' & En). rewrite Ea in Ea'. injection Ea' as <-.
    cbn. by rewrite En.
  - destruct (Hl j c Hc) as (cblk & Ec & En). destruct (decide (c = a)) as [->|Hne].
    + assert (j = O) as -> by exact (NoDup_lookup (a :: ring) j O a Hnd Hc eq_refl). exists (Block.set_next (Some b) ablk).
      by rewrite lookup_insert_eq.
    + assert (c <> b) by (intros ->; apply Hb; by eapply list_elem_of_lookup_2).
      exists cblk. rewrite !lookup_insert_ne by done. split; [done|]. rewrite En. destruct j as [|j]; [|done]. cbn in Hc. congruence.
Qed.

(** The newest blocks are a chain, the oldest of them first. *)
Lemma links_linked bs ring (k : nat) : links bs ring -> linked bs (reverse (firstn k ring)).
Proof.
  intros Hl j b c Hb Hc. set (n := length (firstn k ring)). pose proof (lookup_lt_Some _ _ _ Hc) as Hlt. rewrite length_reverse in Hlt. fold n in Hlt.
  rewrite reverse_lookup in Hb by (fold n; lia). rewrite reverse_lookup in Hc by (fold n; lia). fold n in Hb, Hc.
  replace (n - S j)%nat with (S (n - S (S j)))%nat in Hb by lia. rewrite lookup_take_Some in Hb. rewrite lookup_take_Some in Hc.
  destruct (Hl _ _ (proj1 Hb)) as (blk & Eb & En). exists blk. split; [done|]. rewrite En. apply Hc.
Qed.

Lemma links_next bs a ring : links bs (a :: ring) -> exists blk, bs !! a = Some blk /\ Block.next blk = last (a :: ring).
Proof. intros Hl. by apply (Hl O). Qed.
End Ring.
