(* ===== verification/ExplicitIndex.v ===== *)
(** * The block index of an explicit producer

    The circular index has an entry for every block of the ring, and its entries
    end before the front at which the producer writes. What others may read ends
    at the slot that has been published. *)
From S2P Require Import Prelude.
From S2P Require Import QueueUtils.
From S2P Require Import QueueTraits.
From S2P Require Import QueueBlock.
From S2P Require Import BlockPool.
From S2P Require Import ExplicitProducer.
From S2P Require Import BlockContents.
From S2P Require Import BlockMemory.
#[local] Open Scope Z_scope.
Import ExplicitProducer.

(** The members that are not the index. *)
Definition same_members (p p' : t) : Prop :=
  tailIndex p' = tailIndex p /\ headIndex p' = headIndex p /\
  dequeueOptimisticCount p' = dequeueOptimisticCount p /\ dequeueOvercommit p' = dequeueOvercommit p /\
  tailBlock p' = tailBlock p.

Lemma members_refl p : same_members p p.
Proof. by repeat split. Qed.

Lemma members_trans p1 p2 p3 : same_members p1 p2 -> same_members p2 p3 -> same_members p1 p3.
Proof. intros (? & ? & ? & ? & ?) (? & ? & ? & ? & ?). repeat split; congruence. Qed.

#[export] Hint Resolve members_refl : core.

Section Index.
Context {tr : Traits} (checked : static_asserts = true) (fits : BLOCK_SIZE <= 2 ^ 62) {T : Type}.
Context (malloc : nat -> bool).
Implicit Types (m : Memory (T := T)) (p : t) (ring : list nat).

(** The entries from [F] backwards are those of the blocks of the ring from the
    [j0]-th on. *)
Definition window (es : list (option BlockIndexEntry)) (s F tb : Z) ring (j0 : nat) : Prop :=
  forall j b, (j0 <= j)%nat -> ring !! j = Some b ->
  es !! Z.to_nat ((F - Z.of_nat j) `mod` s) = Some (Some (mkEntry (u64 (tb - Z.of_nat j * BLOCK_SIZE)) (Some b))).

Record index_ok p ring (tb F : Z) (j0 : nat) : Prop := mkIndexOk {
  index_size : exists k, 0 <= k /\ pr_blockIndexSize p = 2 ^ k;
  index_bound : pr_blockIndexSize p * BLOCK_SIZE <= 2 ^ 64;
  index_used : pr_blockIndexSlotsUsed p = Z.of_nat (length ring);
  index_fits : Z.of_nat (length ring) <= pr_blockIndexSize p;
  index_front : 0 <= pr_blockIndexFront p < pr_blockIndexSize p;
  index_prev : forall k h, headers p !! k = Some h -> prev h = match k with O => None | S k => Some k end;
  index_current :
    match blockIndex p with
    | None => ring = [] /\ pr_blockIndexFront p = 0 /\ pr_blockIndexSize p * BLOCK_SIZE <= 2 ^ 63 /\ headers p = []
    | Some n => length (headers p) = S n /\ exists hdr, headers p !! n = Some hdr /\ size hdr = pr_blockIndexSize p /\
        length (entries hdr) = Z.to_nat (pr_blockIndexSize p) /\ window (entries hdr) (pr_blockIndexSize p) F tb ring j0
    end
}.

(** The last entry written is the one that others find. *)
Definition published p : Prop :=
  forall n hdr, blockIndex p = Some n -> headers p !! n = Some hdr ->
  pr_blockIndexSlotsUsed p <> 0 -> front hdr = (pr_blockIndexFront p - 1) `mod` pr_blockIndexSize p.

(** ** Sizes *)

(** Evaluation of a sequence of commands. *)
#[local] Ltac evaluate := cbv [mbind option_bind M_bind mret M_ret field set mem the assert_that fst snd].

Lemma size_power p ring tb F j0 :
  index_ok p ring tb F j0 -> exists k, 0 <= k <= 63 /\ pr_blockIndexSize p = 2 ^ k.
Proof.
  intros Hi. destruct (index_size _ _ _ _ _ Hi) as (k & Hk & E). exists k. split; [|done]. split; [done|].
  pose proof (index_bound _ _ _ _ _ Hi). pose proof (BLOCK_SIZE_bounds checked fits).
  assert (2 ^ k <= 2 ^ 63) as Hle by (rewrite <- E; nia). by apply (Z.pow_le_mono_r_iff 2) in Hle.
Qed.

Lemma mask_size p ring tb F j0 x :
  index_ok p ring tb F j0 -> u64 x .& u64 (pr_blockIndexSize p - 1) = x `mod` pr_blockIndexSize p.
Proof. intros Hi. destruct (size_power _ _ _ _ _ Hi) as (k & Hk & ->). by apply mask_mod. Qed.

Lemma size_pos p ring tb F j0 : index_ok p ring tb F j0 -> 0 < pr_blockIndexSize p <= 2 ^ 63.
Proof.
  intros Hi. destruct (size_power _ _ _ _ _ Hi) as (k & Hk & ->).
  split; [apply Z.pow_pos_nonneg; lia|]. apply Z.pow_le_mono_r; lia.
Qed.

Lemma copy_entries_spec es s (k : Z) f n fuel i :
  s = 2 ^ k -> 0 <= k <= 63 -> length es = Z.to_nat s -> (1 <= n <= fuel)%nat -> Z.of_nat n <= s ->
  0 <= i < s -> 0 <= f < s -> (i + Z.of_nat n) `mod` s = f ->
  exists l, copy_entries fuel es i f (u64 (s - 1)) = Some l /\ length l = n /\
    forall q, (q < n)%nat -> l !! q = es !! Z.to_nat ((i + Z.of_nat q) `mod` s).
Proof.
  intros Es Hk Hlen. revert fuel i. induction n as [|n IH]; intros fuel i Hn Hns Hi Hf Hif; [lia|].
  destruct fuel as [|fuel]; [lia|]. cbn [copy_entries].
  destruct (lookup_lt_is_Some_2 es (Z.to_nat i) ltac:(lia)) as [e Ee]. rewrite Ee.
  assert (u64 (i + 1) .& u64 (s - 1) = (i + 1) `mod` s) as -> by (rewrite Es; by apply mask_mod).
  assert (0 <= (i + 1) `mod` s < s) as Hmod by (apply Z.mod_pos_bound; lia).
  destruct (Z.eqb_spec ((i + 1) `mod` s) f) as [E|E].
  - assert (n = O) as ->.
    { destruct n as [|n]; [done|]. exfalso.
      apply (mod_distinct s (i + 1) (Z.of_nat (S n))); [lia|]. rewrite E, <- Hif. f_equal. lia. }
    exists [e]. split; [done|]. split; [done|]. intros [|q] Hq; [|lia]. rewrite Z.add_0_r, Z.mod_small by lia. done.
  - destruct n as [|n]; [by rewrite Nat2Z.inj_succ in Hif|].
    destruct (IH fuel ((i + 1) `mod` s)) as (l & -> & Hl & Hq); [lia|lia|done|done| |].
    { rewrite Zplus_mod_idemp_l. rewrite <- Hif. f_equal. lia. }
    exists (e :: l). split; [done|]. split; [cbn; lia|]. intros [|q] Hlt.
    + rewrite Z.add_0_r, Z.mod_small by lia. done.
    + cbn. rewrite Hq by lia. do 2 f_equal. rewrite Zplus_mod_idemp_l. f_equal. lia.
Qed.

(** ** A new index *)

(** The entries that go into a new index: those of the ring, oldest first. *)
Lemma old_entries_spec m p ring tb :
  index_ok p ring tb (pr_blockIndexFront p - 1) 0 ->
  exists l, old_entries (m, p) = Some (l, (m, p)) /\ length l = length ring /\
    forall j b, ring !! j = Some b ->
      l !! (length ring - 1 - j)%nat = Some (Some (mkEntry (u64 (tb - Z.of_nat j * BLOCK_SIZE)) (Some b))).
Proof.
  intros Hi. unfold old_entries. evaluate. rewrite (index_used _ _ _ _ _ Hi).
  destruct (Z.eqb_spec (Z.of_nat (length ring)) 0) as [E|E].
  - exists []. destruct ring; [|done]. done.
  - evaluate. pose proof (index_current _ _ _ _ _ Hi) as Hc. destruct (blockIndex p) as [n|]; [|destruct Hc as [-> _]; done].
    destruct Hc as (_ & hdr & Eh & Esz & Hlen & Hw). rewrite Eh.
    destruct (size_power _ _ _ _ _ Hi) as (k & Hk & Es). pose proof (index_front _ _ _ _ _ Hi) as Hf.
    pose proof (index_fits _ _ _ _ _ Hi) as Hr. rewrite (mask_size _ _ _ _ _ _ Hi).
    destruct (copy_entries_spec (entries hdr) (pr_blockIndexSize p) k (pr_blockIndexFront p) (length ring)
      (Z.to_nat (pr_blockIndexSize p)) ((pr_blockIndexFront p - Z.of_nat (length ring)) `mod` pr_blockIndexSize p))
      as (l & El & Hl & Hq); [done|done|done|lia|lia|apply Z.mod_pos_bound; lia|done| |].
    { rewrite Zplus_mod_idemp_l, Z.sub_add. by apply Z.mod_small. }
    rewrite El. exists l. split; [done|]. split; [done|]. intros j b Hj. pose proof (lookup_lt_Some _ _ _ Hj).
    rewrite Hq by lia. rewrite Zplus_mod_idemp_l. rewrite <- (Hw j b) by (done || lia). do 3 f_equal. lia.
Qed.

(** The slots of the index divide the index type. *)
Lemma slots_divide p ring tb F j0 :
  index_ok p ring tb F j0 -> exists q, 2 ^ 64 / BLOCK_SIZE = q * pr_blockIndexSize p /\ 2 ^ 64 = 2 ^ 64 / BLOCK_SIZE * BLOCK_SIZE.
Proof.
  intros Hi. destruct (size_power _ _ _ _ _ Hi) as (k & Hk & Es). pose proof (index_bound _ _ _ _ _ Hi) as Hb.
  destruct (BLOCK_SIZE_power checked fits) as (l & Hl & El). rewrite Es, El in *.
  rewrite <- Z.pow_add_r in Hb by lia. apply Z.pow_le_mono_r_iff in Hb; [|lia..].
  rewrite <- Z.pow_sub_r by lia. exists (2 ^ (64 - l - k)). rewrite <- !Z.pow_add_r by lia. split; f_equal; lia.
Qed.

Lemma new_block_index_spec m p ring tb expose :
  index_ok p ring tb (pr_blockIndexFront p - 1) 0 -> pr_blockIndexSize p * BLOCK_SIZE <= 2 ^ 63 ->
  exists p', new_block_index malloc expose (m, p) = Some (malloc (mallocs m), (set_mallocs (S (mallocs m)) m, p')) /\
    same_members p p' /\ index_ok p' ring tb (pr_blockIndexFront p' - 1) 0 /\
    if malloc (mallocs m)
    then Z.of_nat (length ring) < pr_blockIndexSize p' /\ is_Some (blockIndex p') /\
      (expose = pr_blockIndexSlotsUsed p -> published p')
    else p' = p.
Proof.
  intros Hi Hb. pose proof (size_pos _ _ _ _ _ Hi) as Hsp. pose proof (BLOCK_SIZE_bounds checked fits) as HB.
  destruct (size_power _ _ _ _ _ Hi) as (k & Hk & Es).
  unfold new_block_index, try_malloc. evaluate. destruct (malloc (mallocs m)); [|exists p; do 2 (split; [done|]); done].
  destruct (old_entries_spec (set_mallocs (S (mallocs m)) m) p ring tb Hi) as (l & -> & Hl & Hent).
  pose proof (index_used _ _ _ _ _ Hi) as Hu. pose proof (index_fits _ _ _ _ _ Hi) as Hr.
  eexists. split; [reflexivity|]. split; [by repeat split|].
  assert (u64 (pr_blockIndexSize p * 2) = pr_blockIndexSize p * 2) as Ed by (apply wrap_small; unfold in_width; nia).
  rewrite Ed. set (hdr := mkHeader (pr_blockIndexSize p * 2) (u64 (expose - 1))
      (l ++ replicate (Z.to_nat (pr_blockIndexSize p * 2) - length l) None) (blockIndex p)).
  split; [|split; [cbn; lia|split; [done|]]].
  - split; cbn; rewrite ?Hl; [|lia|done|lia|lia| |].
    + exists (k + 1). split; [lia|]. rewrite Es, Z.pow_add_r by lia. lia.
    + intros q h Hq. apply lookup_app_Some in Hq as [Hq|[Hge Hq]]; [by apply (index_prev _ _ _ _ _ Hi)|].
      apply list_lookup_singleton_Some in Hq as [Hq <-]. cbn. pose proof (index_current _ _ _ _ _ Hi) as Hc.
      destruct (blockIndex p) as [n|]; [destruct Hc as [Hc _]; by replace q with (S n) by lia|].
      destruct Hc as (_ & _ & _ & Hc). rewrite Hc in Hq. cbn in Hq. by replace q with O by lia.
    + split; [rewrite length_app; cbn; lia|]. exists hdr. split; [by apply list_lookup_middle|]. cbn. split; [done|].
      split; [rewrite length_app, length_replicate; lia|].
      intros j b _ Hj. pose proof (lookup_lt_Some _ _ _ Hj). rewrite Z.mod_small by lia.
      replace (Z.to_nat (Z.of_nat (length ring) - 1 - Z.of_nat j)) with (length ring - 1 - j)%nat by lia.
      rewrite lookup_app_l by lia. by apply Hent.
  - intros -> n h En Eh Hne. cbn in *. injection En as <-. rewrite list_lookup_middle in Eh by done. injection Eh as <-.
    cbn. rewrite Hu in *. rewrite Hl, Z.mod_small by lia. apply wrap_small. unfold in_width. lia.
Qed.

(** ** The entry of a new block *)

Lemma window_push es s F tb ring ring' :
  window es s (F - 1) tb ring 0 -> (forall j b, ring' !! S j = Some b -> ring !! j = Some b) ->
  window es s F (tb + BLOCK_SIZE) ring' 1.
Proof.
  intros Hw Hsub [|j] b Hj Hb; [lia|]. pose proof (Hw j b ltac:(lia) (Hsub j b Hb)) as E.
  replace (F - Z.of_nat (S j)) with (F - 1 - Z.of_nat j) by lia.
  by replace (tb + BLOCK_SIZE - Z.of_nat (S j) * BLOCK_SIZE) with (tb - Z.of_nat j * BLOCK_SIZE) by lia.
Qed.

Lemma window_mod es s F F' tb ring j0 : F `mod` s = F' `mod` s -> window es s F tb ring j0 -> window es s F' tb ring j0.
Proof. intros E Hw j b Hj Hb. rewrite <- (Hw j b Hj Hb). do 2 f_equal. by rewrite <- Zminus_mod_idemp_l, <- E, Zminus_mod_idemp_l. Qed.

(** The index of a larger ring, or of the same one turned. *)
Lemma index_push p p' ring ring' tb :
  index_ok p ring tb (pr_blockIndexFront p - 1) 0 -> is_Some (blockIndex p) ->
  headers p' = headers p -> blockIndex p' = blockIndex p -> pr_blockIndexSize p' = pr_blockIndexSize p ->
  pr_blockIndexFront p' = pr_blockIndexFront p -> pr_blockIndexSlotsUsed p' = Z.of_nat (length ring') ->
  Z.of_nat (length ring') <= pr_blockIndexSize p -> (forall j b, ring' !! S j = Some b -> ring !! j = Some b) ->
  index_ok p' ring' (tb + BLOCK_SIZE) (pr_blockIndexFront p') 1.
Proof.
  intros [Is Ib Iu If Ifr Ip Ic] Hraw Eh En Es Ef Eu Hfit Hsub. split; rewrite ?Es, ?Ef, ?Eh, ?En, ?Eu; try done.
  destruct (blockIndex p) as [n|]; [|by destruct Hraw]. destruct Ic as (Hl & hdr & Ehdr & Esz & Hlen & Hw).
  split; [done|]. exists hdr. split; [done|]. split; [done|]. split; [done|]. by eapply window_push.
Qed.

(** The index after its current header has changed. *)
Lemma index_header p n hdr hdr' ring tb F F' j0 j1 :
  index_ok p ring tb F j0 -> blockIndex p = Some n -> headers p !! n = Some hdr -> size hdr' = size hdr -> prev hdr' = prev hdr ->
  length (entries hdr') = length (entries hdr) ->
  (window (entries hdr) (pr_blockIndexSize p) F tb ring j0 -> window (entries hdr') (pr_blockIndexSize p) F' tb ring j1) ->
  index_ok (set_headers (<[n := hdr']> (headers p)) p) ring tb F' j1.
Proof.
  intros [Is Ib Iu If Ifr Ip Ic] En Eh Esz Ep El Hw. rewrite En in Ic. destruct Ic as (Hl & hdr0 & Eh0 & Esz0 & Hlen & Hw0).
  rewrite Eh in Eh0. injection Eh0 as <-. pose proof (lookup_lt_Some _ _ _ Eh) as Hn.
  split; cbn; try done.
  - intros k h Hk. destruct (decide (n = k)) as [<-|Hne]; [|rewrite list_lookup_insert_ne in Hk by done; by apply Ip].
    rewrite list_lookup_insert_eq in Hk by done. injection Hk as <-. rewrite Ep. by apply Ip.
  - rewrite En. split; [by rewrite length_insert|]. exists hdr'. split; [by apply list_lookup_insert_eq|]. split; [congruence|].
    split; [congruence|]. by apply Hw.
Qed.

Lemma current_some m p n hdr :
  blockIndex p = Some n -> headers p !! n = Some hdr -> current (m, p) = Some ((n, hdr), (m, p)).
Proof. intros En Eh. unfold current. evaluate. by rewrite En, Eh. Qed.

(** What neither writing nor publishing an entry changes. *)
Definition same_slots p p' : Prop :=
  blockIndex p' = blockIndex p /\ pr_blockIndexSlotsUsed p' = pr_blockIndexSlotsUsed p /\
  pr_blockIndexSize p' = pr_blockIndexSize p.

Lemma write_entry_spec p b ring tb :
  index_ok p (b :: ring) tb (pr_blockIndexFront p) 1 -> tailBlock p = Some b ->
  exists p', (forall m, write_entry (u64 tb) (m, p) = Some (tt, (m, p'))) /\ same_members p p' /\ same_slots p p' /\
    pr_blockIndexFront p' = pr_blockIndexFront p /\ index_ok p' (b :: ring) tb (pr_blockIndexFront p') 0.
Proof.
  intros Hi Etb. pose proof (size_pos _ _ _ _ _ Hi) as Hs. pose proof (index_front _ _ _ _ _ Hi) as Hf.
  pose proof (index_fits _ _ _ _ _ Hi) as Hfit. pose proof (index_current _ _ _ _ _ Hi) as Hc.
  destruct (blockIndex p) as [n|] eqn:En; [|by destruct Hc]. destruct Hc as (_ & hdr & Eh & Esz & Hlen & _).
  set (F := pr_blockIndexFront p) in *. set (s := pr_blockIndexSize p) in *.
  set (es := <[Z.to_nat F := Some (mkEntry (u64 tb) (Some b))]> (entries hdr)).
  exists (set_headers (<[n := mkHeader (size hdr) (front hdr) es (prev hdr)]> (headers p)) p).
  split; [|split; [by repeat split|split; [by repeat split|split; [done|]]]].
  - intros m. unfold write_entry. rewrite (bind_some _ _ _ _ _ (current_some m p n hdr En Eh)).
    rewrite (bind_some _ _ _ F (m, p)), (bind_some _ _ _ (tailBlock p) (m, p)) by done. cbn [fst snd]. rewrite Etb.
    by rewrite (bind_some _ _ _ tt (m, p)) by (apply assert_true, Nat.ltb_lt; lia).
  - eapply (index_header p n hdr); [exact Hi|done|done|done|done|by apply length_insert|]. cbn [entries]. intros Hw [|j] c _ Hj.
    + injection Hj as <-. cbn [pr_blockIndexFront set_headers]. rewrite !Z.sub_0_r, Z.mod_small by lia. unfold es.
      by rewrite list_lookup_insert_eq by lia.
    + cbn [pr_blockIndexFront set_headers]. fold F. unfold es. rewrite list_lookup_insert_ne; [by apply Hw; [lia|]|].
      pose proof (lookup_lt_Some _ _ _ Hj) as Hjl. cbn [length] in Hjl, Hfit.
      pose proof (Z.mod_pos_bound (F - Z.of_nat (S j)) s ltac:(lia)).
      pose proof (mod_distinct s (F - Z.of_nat (S j)) (Z.of_nat (S j)) ltac:(lia)) as Hd.
      rewrite Z.sub_add, (Z.mod_small F) in Hd by lia. fold s. lia.
Qed.

Lemma advance_front_spec p ring tb :
  index_ok p ring tb (pr_blockIndexFront p) 0 -> is_Some (blockIndex p) ->
  let F := (pr_blockIndexFront p + 1) `mod` pr_blockIndexSize p in
  (forall m : Memory (T := T), advance_front (m, p) = Some (tt, (m, set_indexFront F p))) /\ index_ok (set_indexFront F p) ring tb (F - 1) 0.
Proof.
  intros Hi Hraw F. pose proof (size_pos _ _ _ _ _ Hi) as Hs. split.
  - intros m. unfold advance_front, set, F. by rewrite (mask_size _ _ _ _ _ _ Hi).
  - destruct Hi as [Is Ib Iu If Ifr Ip Ic]. assert ((F - 1) `mod` pr_blockIndexSize p = pr_blockIndexFront p `mod` pr_blockIndexSize p) as EF
      by (unfold F; rewrite Zminus_mod_idemp_l; f_equal; lia).
    split; cbn; try done; [unfold F; apply Z.mod_pos_bound; lia|]. destruct (blockIndex p) as [n|]; [|by destruct Hraw].
    destruct Ic as (Hl & hdr & Eh & Esz & Hlen & Hw). split; [done|]. exists hdr. split; [done|]. split; [done|]. split; [done|].
    by eapply window_mod.
Qed.

(** A slot is published. *)
Lemma publish_spec p ring tb F j0 n hdr f :
  index_ok p ring tb F j0 -> blockIndex p = Some n -> headers p !! n = Some hdr ->
  let hdr' := mkHeader (size hdr) f (entries hdr) (prev hdr) in let p' := set_headers (<[n := hdr']> (headers p)) p in
  (forall m : Memory (T := T), publish f (m, p) = Some (tt, (m, p'))) /\ index_ok p' ring tb F j0 /\ headers p' !! n = Some hdr'.
Proof.
  intros Hi En Eh hdr' p'. split; [|split; [by eapply index_header|]].
  - intros m. unfold publish. by rewrite (bind_some _ _ _ _ _ (current_some m p n hdr En Eh)).
  - cbn. apply list_lookup_insert_eq. by eapply lookup_lt_Some.
Qed.

(** ** The block of an element *)

(** The slot found for an element has its block, wherever the indices have
    wrapped around. *)
Lemma locate_spec p n hdr ring tb i :
  index_ok p ring tb (pr_blockIndexFront p - 1) 0 -> published p -> blockIndex p = Some n -> headers p !! n = Some hdr ->
  tb `mod` BLOCK_SIZE = 0 -> i < tb + BLOCK_SIZE -> tb - Z.of_nat (length ring) * BLOCK_SIZE + BLOCK_SIZE <= i ->
  exists j b slot, locate hdr (u64 i) = Some slot /\ entry_block hdr slot = Some b /\ ring !! j = Some b /\
    slot = (pr_blockIndexFront p - 1 - Z.of_nat j) `mod` pr_blockIndexSize p /\
    tb - Z.of_nat j * BLOCK_SIZE <= i < tb - Z.of_nat j * BLOCK_SIZE + BLOCK_SIZE.
Proof.
  intros Hi Hpub En Eh Htb Hlt Hge. pose proof (BLOCK_SIZE_bounds checked fits) as HB.
  pose proof (size_pos _ _ _ _ _ Hi) as Hs. pose proof (index_fits _ _ _ _ _ Hi) as Hfit.
  pose proof (slots_divide _ _ _ _ _ Hi) as (q & Eq & EB). pose proof (index_bound _ _ _ _ _ Hi) as Hbound.
  pose proof (index_current _ _ _ _ _ Hi) as Hc. rewrite En in Hc. destruct Hc as (_ & hdr' & Eh' & Esz & Hlen & Hw).
  rewrite Eh in Eh'. injection Eh' as <-. set (s := pr_blockIndexSize p) in *. set (F := pr_blockIndexFront p - 1) in *.
  destruct (behind checked fits tb i Htb) as (j & Ej & Hj).
  assert (0 <= j < Z.of_nat (length ring)) as Hjr by nia.
  destruct (lookup_lt_is_Some_2 ring (Z.to_nat j) ltac:(lia)) as [b Eb].
  destruct ring as [|a ring]; [done|].
  pose proof (Hw O a ltac:(lia) eq_refl) as E0. rewrite Z.mul_0_l, !Z.sub_0_r in E0.
  exists (Z.to_nat j), b, ((F - j) `mod` s). rewrite Z2Nat.id by lia. split; [|split; [|done]].
  - unfold locate. rewrite (Hpub n hdr En Eh) by (rewrite (index_used _ _ _ _ _ Hi); cbn [length]; lia). fold s F. rewrite E0. cbn [base]. f_equal.
    rewrite (base_mod checked fits) by (by apply wrap_range).
    rewrite <- (place_mod checked fits), (place_wrap checked fits), (place_mod checked fits), wrap_sub_r.
    replace (u64 (u64 i - i `mod` BLOCK_SIZE - tb)) with (u64 (- (j * BLOCK_SIZE))).
    2:{ replace (u64 i - i `mod` BLOCK_SIZE - tb) with (u64 i - (i `mod` BLOCK_SIZE + tb)) by lia.
        rewrite wrap_sub_l. f_equal. lia. }
    rewrite Esz. erewrite (mask_size p (a :: ring)) by exact Hi. fold s.
    destruct (decide (j = 0)) as [->|Hj0].
    + replace (u64 (- (0 * BLOCK_SIZE)) / BLOCK_SIZE) with 0; [by rewrite Z.add_0_r, Zmod_mod, Z.sub_0_r|].
      by rewrite Z.mul_0_l.
    + replace (u64 (- (j * BLOCK_SIZE)) / BLOCK_SIZE) with (2 ^ 64 / BLOCK_SIZE - j).
      * rewrite Zplus_mod_idemp_l, Eq. replace (F + (q * s - j)) with (F - j + q * s) by lia. apply Z_mod_plus_full.
      * replace (u64 (- (j * BLOCK_SIZE))) with ((2 ^ 64 / BLOCK_SIZE - j) * BLOCK_SIZE); [by rewrite Z.div_mul by lia|].
        rewrite <- (wrap_period 64 (- (j * BLOCK_SIZE)) 1), wrap_small; [lia|].
        unfold in_width. nia.
  - unfold entry_block. rewrite <- (Z2Nat.id j) by lia. by rewrite (Hw _ _ ltac:(lia) Eb).
Qed.

End Index.
