(* ===== verification/ExplicitSpec.v ===== *)
(** * Explicit producers are queues

    [rep m others p h xs ring tb]: the producer [p], with its ring of blocks in
    the memory [m], is a queue with the elements [xs], of which [h] elements
    have been dequeued before the first one; the blocks [others] belong to
    other producers. The operations on one element are functions on the list
    and leave the blocks of others alone. *)
From S2P Require Import Prelude.
From S2P Require Import QueueUtils.
From S2P Require Import QueueTraits.
From S2P Require Import QueueBlock.
From S2P Require Import BlockPool.
From S2P Require Import ExplicitProducer.
From S2P Require Import BlockContents.
From S2P Require Import BlockMemory.
From S2P Require Import ExplicitRing.
From S2P Require Import ExplicitIndex.
#[local] Open Scope Z_scope.
Import ExplicitProducer.

Section Spec.
Context {tr : Traits} (checked : static_asserts = true) (fits : BLOCK_SIZE <= 2 ^ 62) {T : Type}.
Context (malloc : nat -> bool) (raw_flags : nat -> list bool).
Context (noexcept_ctor : bool) (ctor_throws : T -> bool).
Implicit Types (m : Memory (T := T)) (p : t) (ring : list nat) (xs : list T) (others : gset nat).
Abbreviation hold := (blocks_hold explicit_context).

(** ** The representation *)

(** There is less memory than there are indices. *)
Definition memory_bound m : Prop :=
  forall n, Z.of_nat (Z.to_nat (initialBlockPoolSize m) + granted malloc n) * BLOCK_SIZE < 2 ^ 63.

(** What the ring and the memory of a producer are, with the elements [f]. *)
Record blocks_ok m others ring (tb h : Z) (f : Z -> option T) : Prop := mkBlocksOk {
  ok_hold : hold (blocks m) ring tb h f;
  ok_links : links (blocks m) ring;
  ok_owns : owns malloc m ring others;
  ok_tb : tb `mod` BLOCK_SIZE = 0;
  ok_memory : memory_bound m
}.

Record rep m others p (h : Z) xs ring (tb : Z) : Prop := mkRep {
  rep_tail : tailIndex p = u64 (h + Z.of_nat (length xs));
  rep_head : headIndex p = u64 h;
  rep_optimistic : dequeueOptimisticCount p = u64 h;
  rep_overcommit : dequeueOvercommit p = 0;
  rep_tailBlock : tailBlock p = head ring;
  rep_range : tb < h + Z.of_nat (length xs) <= tb + BLOCK_SIZE;
  rep_oldest : tb - Z.of_nat (length ring) * BLOCK_SIZE + BLOCK_SIZE <= h;
  rep_blocks : blocks_ok m others ring tb h (elems xs h);
  rep_index : index_ok p ring tb (pr_blockIndexFront p - 1) 0;
  rep_published : published p
}.

Lemma bound_kept others m m' : keeps others m m' -> memory_bound m -> memory_bound m'.
Proof. intros [E _] Hm n. rewrite E. apply Hm. Qed.

Lemma ring_small m others ring : owns malloc m ring others -> NoDup ring -> memory_bound m -> Z.of_nat (length ring) * BLOCK_SIZE < 2 ^ 63.
Proof.
  intros Ho Hnd Hm. pose proof (granted_bound malloc m _ ring (own_pool _ _ _ _ Ho) Hnd) as Hg. specialize (Hm (mallocs m)).
  pose proof (BLOCK_SIZE_bounds checked fits). assert (forall b, (b ∈ ring) -> (b ∈ (list_to_set ring ∪ others : gset nat))) as Hin.
  { intros b Hb. apply elem_of_union. left. by apply elem_of_list_to_set. }
  specialize (Hg Hin). nia.
Qed.

Lemma ring_rep_small m others p h xs ring tb :
  rep m others p h xs ring tb -> Z.of_nat (length ring) * BLOCK_SIZE < 2 ^ 63 /\ 0 <= Z.of_nat (length xs) < 2 ^ 63.
Proof.
  intros R. pose proof (rep_blocks _ _ _ _ _ _ _ R) as [Hh _ Ho _ Hm].
  pose proof (ring_small _ _ _ Ho (hold_nodup _ _ _ _ _ Hh) Hm).
  pose proof (rep_range _ _ _ _ _ _ _ R). pose proof (rep_oldest _ _ _ _ _ _ _ R). lia.
Qed.

(** ** The block ahead *)

Lemma block_is_empty blk b0 h (f : Z -> option T) :
  block_has explicit_context blk b0 h f -> Block.is_empty explicit_context blk = Some (bool_decide (b0 + BLOCK_SIZE <= h)).
Proof.
  intros Hb. rewrite (Block.is_empty_spec checked fits _ _ _ (block_tracks _ _ _ _ Hb)). f_equal.
  apply bool_decide_ext, (gone_full checked fits).
Qed.

Lemma block_ahead_none m p : tailBlock p = None -> block_ahead (m, p) = Some (None, (m, p)).
Proof. intros E. unfold block_ahead. by rewrite (bind_some _ _ _ (tailBlock p) (m, p)), E by done. Qed.

Lemma block_ahead_some m p a ring b blk e :
  tailBlock p = Some a -> links (blocks m) (a :: ring) -> last (a :: ring) = Some b -> blocks m !! b = Some blk ->
  Block.is_empty explicit_context blk = Some e -> block_ahead (m, p) = Some (if e then Some b else None, (m, p)).
Proof.
  intros Et Hl El Eb Ee. unfold block_ahead. rewrite (bind_some _ _ _ (tailBlock p) (m, p)), Et by done.
  destruct (links_next _ _ _ Hl) as (ablk & Ea & En). rewrite (bind_some _ _ _ _ _ (mem_load m p a ablk Ea)), En, El.
  rewrite (bind_some _ _ _ b (m, p)) by done. rewrite (bind_some _ _ _ _ _ (mem_load m p b blk Eb)).
  by rewrite (bind_some _ _ _ _ _ (the_some _ _ _ Ee)).
Qed.

(** ** A new block *)

(** The block [b] has been made the tail block, and is not in the index yet. *)
Record started m others p (b : nat) ring (tb h : Z) (f : Z -> option T) : Prop := mkStarted {
  started_blocks : blocks_ok m others (b :: ring) tb h f;
  started_index : index_ok p (b :: ring) tb (pr_blockIndexFront p) 1;
  started_raw : is_Some (blockIndex p);
  started_tailBlock : tailBlock p = Some b
}.

Lemma index_raw p ring tb F j0 b : index_ok p ring tb F j0 -> (b ∈ ring) -> is_Some (blockIndex p).
Proof.
  intros Hi Hb. pose proof (index_current _ _ _ _ _ Hi) as Hc. destruct (blockIndex p); [done|]. destruct Hc as [-> _].
  by apply elem_of_nil in Hb.
Qed.

(** The block behind the tail block is used again. *)
Lemma reuse_spec m others p ring b tb h f :
  blocks_ok m others (ring ++ [b]) tb h f -> index_ok p (ring ++ [b]) tb (pr_blockIndexFront p - 1) 0 ->
  tb - Z.of_nat (length ring) * BLOCK_SIZE + BLOCK_SIZE <= h <= tb + BLOCK_SIZE -> (forall z, z < h \/ tb + BLOCK_SIZE <= z -> f z = None) ->
  exists blk, blocks m !! b = Some blk /\ let m' := with_block b (Block.reset_empty explicit_context blk) m in
    started m' others (set_tailBlock (Some b) p) b ring (tb + BLOCK_SIZE) h f /\ keeps others m m'.
Proof.
  intros [Hh Hl Ho Htb Hm] Hi Hold Hf. pose proof (BLOCK_SIZE_bounds checked fits) as HB.
  assert ((ring ++ [b]) !! length ring = Some b) as Hj by (by apply list_lookup_middle).
  destruct (hold_block _ _ _ _ _ Hh _ _ Hj) as (blk & Eb & Hblk). exists blk. split; [done|].
  assert ((b ∈ ring ++ [b])) as Hb by (apply elem_of_app; right; left).
  destruct (own_store malloc m (ring ++ [b]) others b (Block.reset_empty explicit_context blk) Ho Hb) as [Ho' Hk]. split; [|done].
  pose proof (hold_nodup _ _ _ _ _ Hh) as Hnd. apply NoDup_app in Hnd as (_ & Hnot & _).
  assert (b ∉ ring) as Hbr by (intros H; apply (Hnot b H); left).
  split; [split| | |done].
  - eapply hold_cons; [|done|apply with_block_lookup|].
    + eapply hold_frame; [|eapply hold_app, Hh]. intros c Hc. apply with_block_lookup_ne. by intros ->.
    + apply (reset_has checked fits); [|lia|intros z Hz; apply Hf; lia]. eapply has_blank; [exact Hblk|]. intros z Hz. apply Hf. lia.
  - eapply links_store; [done|apply (Block.reset_empty_spec checked fits)|by apply links_turn].
  - eapply own_perm; [|exact Ho']. symmetry. apply Permutation_cons_append.
  - by apply next_mod.
  - by eapply bound_kept.
  - eapply (index_push p); try done.
    + eapply index_raw; [exact Hi|exact Hb].
    + cbn. rewrite (index_used _ _ _ _ _ Hi), length_app. cbn [length]. f_equal. lia.
    + pose proof (index_fits _ _ _ _ _ Hi) as Hfit. rewrite length_app in Hfit. cbn [length] in *. lia.
    + intros j c Hc. by apply lookup_app_l_Some.
  - change (is_Some (blockIndex p)). eapply index_raw; [exact Hi|exact Hb].
Qed.

(** A change of the links of blocks only. *)
Definition relinked (bs bs' : gmap nat (Block.t T)) : Prop :=
  forall c cblk, bs !! c = Some cblk -> exists v, bs' !! c = Some (Block.set_next v cblk).

Lemma hold_relinked bs bs' ring tb h f : relinked bs bs' -> hold bs ring tb h f -> hold bs' ring tb h f.
Proof.
  intros Hr [Hnd Hb]. split; [done|]. intros j b Hj. destruct (Hb j b Hj) as (blk & E & H). destruct (Hr b blk E) as [v E'].
  exists (Block.set_next v blk). split; [done|]. by apply next_has.
Qed.

Lemma insert_block_spec m p ring b blk :
  links (blocks m) ring -> NoDup (b :: ring) -> blocks m !! b = Some blk -> tailBlock p = head ring ->
  exists m', insert_block b (m, p) = Some (tt, (m', set_slotsUsed (u64 (pr_blockIndexSlotsUsed p + 1)) (set_tailBlock (Some b) p))) /\
    links (blocks m') (b :: ring) /\ changed (b :: ring) m m' /\ relinked (blocks m) (blocks m').
Proof.
  intros Hl Hnd Eb Et. unfold insert_block. rewrite (bind_some _ _ _ (tailBlock p) (m, p)), Et by done.
  assert (forall cblk : Block.t T, Block.set_next (Block.next cblk) cblk = cblk) as Hsame by (by intros []).
  destruct ring as [|a ring]; cbn [head hd_error].
  - rewrite (bind_some _ _ _ _ _ (mem_store m p b blk _ Eb)). eexists. split; [reflexivity|]. split; [by apply links_first|].
    split; [apply changed_block; left|]. intros c cblk Ec. destruct (decide (b = c)) as [<-|Hne].
    + exists (Some b). rewrite with_block_lookup. congruence.
    + exists (Block.next cblk). rewrite with_block_lookup_ne by done. by rewrite Hsame.
  - pose proof Hnd as [Hb _]%NoDup_cons. destruct (links_next _ _ _ Hl) as (ablk & Ea & En).
    assert (b <> a) as Hba by (intros ->; apply Hb; left).
    erewrite bind_some.
    2:{ rewrite (bind_some _ _ _ _ _ (mem_load m p a ablk Ea)). rewrite (bind_some _ _ _ _ _ (mem_store m p b blk _ Eb)).
        apply mem_store. rewrite with_block_lookup_ne by done. exact Ea. }
    eexists. split; [reflexivity|]. split; [by apply links_insert|]. split.
    { eapply changed_trans; apply changed_block; [left|right; left]. }
    intros c cblk Ec. destruct (decide (a = c)) as [<-|Hac]; [exists (Some b); rewrite with_block_lookup; congruence|].
    rewrite with_block_lookup_ne by done. destruct (decide (b = c)) as [<-|Hbc].
    + exists (Block.next ablk). rewrite with_block_lookup. congruence.
    + exists (Block.next cblk). rewrite with_block_lookup_ne by done. by rewrite Hsame.
Qed.
(** A block from the pool, with the contents [blk'], is put into the ring. *)
Lemma insert_spec m m1 others p ring b blk blk' :
  links (blocks m) ring -> NoDup ring -> owns malloc m1 (b :: ring) others -> keeps (list_to_set ring ∪ others) m m1 -> b ∉ ring ->
  blocks m1 !! b = Some blk -> tailBlock p = head ring ->
  exists m', insert_block b (with_block b blk' m1, p) =
      Some (tt, (m', set_slotsUsed (u64 (pr_blockIndexSlotsUsed p + 1)) (set_tailBlock (Some b) p))) /\
    links (blocks m') (b :: ring) /\ owns malloc m' (b :: ring) others /\ keeps others m m' /\
    (exists v, blocks m' !! b = Some (Block.set_next v blk')) /\
    (forall c cblk, (c ∈ ring) -> blocks m !! c = Some cblk -> exists v, blocks m' !! c = Some (Block.set_next v cblk)).
Proof.
  intros Hl Hnd Ho Hk Hb Eb Et. set (m2 := with_block b blk' m1).
  assert (forall c, (c ∈ ring) -> blocks m2 !! c = blocks m !! c) as Hsame.
  { intros c Hc. unfold m2. rewrite with_block_lookup_ne by (by intros ->). apply Hk, elem_of_union. left. by apply elem_of_list_to_set. }
  destruct (own_store malloc m1 (b :: ring) others b blk' Ho) as [Ho2 Hk2]; [left|]. fold m2 in Ho2, Hk2.
  destruct (insert_block_spec m2 p ring b blk') as (m' & E & Hl' & Hc & Hr); [by eapply links_ext|by constructor|apply with_block_lookup|done|].
  destruct (own_changed malloc (b :: ring) m2 m' (b :: ring) others Ho2 (fun c H => H) Hc) as [Ho' Hk'].
  exists m'. split; [done|]. split; [done|]. split; [done|]. split; [|split].
  - eapply keeping_trans; [by eapply keeps_rest|]. by eapply keeping_trans.
  - apply Hr, with_block_lookup.
  - intros c cblk Hcr Ec. apply Hr. by rewrite Hsame.
Qed.

Lemma index_room_spec mode m p ring tb :
  index_ok p ring tb (pr_blockIndexFront p - 1) 0 -> Z.of_nat (length ring) * BLOCK_SIZE < 2 ^ 63 ->
  exists room m' p', index_room malloc mode (pr_blockIndexSlotsUsed p) (m, p) = Some (room, (m', p')) /\
    same_members p p' /\ index_ok p' ring tb (pr_blockIndexFront p' - 1) 0 /\ (published p -> published p') /\
    (m' = m \/ m' = set_mallocs (S (mallocs m)) m) /\
    if (room : bool) then Z.of_nat (length ring) < pr_blockIndexSize p' /\ is_Some (blockIndex p')
    else unavailable malloc mode m m'.
Proof.
  intros Hi Hsm. unfold index_room. rewrite (bind_some _ _ _ (blockIndex p) (m, p)), (bind_some _ _ _ (pr_blockIndexSlotsUsed p) (m, p)),
    (bind_some _ _ _ (pr_blockIndexSize p) (m, p)) by done. rewrite (index_used _ _ _ _ _ Hi).
  destruct (bool_decide (blockIndex p = None) || (Z.of_nat (length ring) =? pr_blockIndexSize p)) eqn:Efull.
  - destruct mode; [|exists false, m, p; do 4 (split; [done|]); split; [by left|by left]].
    assert (pr_blockIndexSize p * BLOCK_SIZE <= 2 ^ 63) as Hb.
    { apply orb_true_iff in Efull as [Ei|Es].
      - apply bool_decide_eq_true in Ei. pose proof (index_current _ _ _ _ _ Hi) as Hc. rewrite Ei in Hc. by destruct Hc as (_ & _ & ? & _).
      - apply Z.eqb_eq in Es. lia. }
    destruct (new_block_index_spec checked fits malloc m p ring tb (Z.of_nat (length ring)) Hi Hb) as (p' & E & Hsf & Hi' & Hok).
    eexists. eexists. exists p'. split; [exact E|]. split; [done|]. split; [done|]. destruct (malloc (mallocs m)) eqn:Em.
    + destruct Hok as (? & ? & Hpub). split; [intros _; apply Hpub; by rewrite (index_used _ _ _ _ _ Hi)|]. split; [by right|done].
    + subst p'. split; [done|]. split; [by right|]. by apply unavailable_next; right.
  - apply orb_false_iff in Efull as [Ei Es]. apply Z.eqb_neq in Es. apply bool_decide_eq_false in Ei.
    pose proof (index_fits _ _ _ _ _ Hi). exists true, m, p. do 4 (split; [done|]). split; [by left|].
    split; [lia|]. by destruct (blockIndex p).
Qed.

(** A change of the index, and of memory that is not the producer's. *)
Lemma blocks_ok_kept m m' others ring tb h f :
  blocks_ok m others ring tb h f -> owns malloc m' ring others -> keeps (list_to_set ring ∪ others) m m' -> blocks_ok m' others ring tb h f.
Proof.
  intros [Hh Hl Ho Htb Hm] Ho' Hk. assert (forall b, (b ∈ ring) -> blocks m' !! b = blocks m !! b) as Hsame.
  { intros b Hb. apply Hk, elem_of_union. left. by apply elem_of_list_to_set. }
  split; [by eapply hold_frame|by eapply links_ext|done|done|by eapply bound_kept].
Qed.

Lemma ring_rep_change m m' others p p' h xs ring tb :
  rep m others p h xs ring tb -> same_members p p' -> index_ok p' ring tb (pr_blockIndexFront p' - 1) 0 -> published p' ->
  owns malloc m' ring others -> keeps (list_to_set ring ∪ others) m m' -> rep m' others p' h xs ring tb.
Proof.
  intros [] (Et & Eh & Eo & Ec & Eb) Hi Hp Ho Hk. split; try done; try congruence. by eapply blocks_ok_kept.
Qed.

(** The block after a full one. *)
Lemma start_block_spec mode m others p h xs ring tb :
  rep m others p h xs ring tb -> h + Z.of_nat (length xs) = tb + BLOCK_SIZE ->
  exists ok m' p', start_block malloc raw_flags mode (m, p) = Some (ok, (m', p')) /\ keeps others m m' /\
    if (ok : bool)
    then same_members (set_tailBlock (tailBlock p') p) p' /\ exists b ring', started m' others p' b ring' (tb + BLOCK_SIZE) h (elems xs h) /\
      tb - Z.of_nat (length ring') * BLOCK_SIZE + BLOCK_SIZE <= h
    else rep m' others p' h xs ring tb /\
      (full (headIndex p) (tailIndex p) = true \/ unavailable malloc mode m m').
Proof.
  intros R Et. pose proof (BLOCK_SIZE_bounds checked fits) as HB. pose proof (rep_oldest _ _ _ _ _ _ _ R) as Hold.
  pose proof (ring_rep_small _ _ _ _ _ _ _ R) as [Hsm Hlen]. pose proof (rep_blocks _ _ _ _ _ _ _ R) as Hb.
  pose proof Hb as [Hh Hl Ho Htb Hm]. pose proof (rep_index _ _ _ _ _ _ _ R) as Hi.
  assert (forall z, z < h \/ tb + BLOCK_SIZE <= z -> elems xs h z = None) as Hf by (intros z Hz; apply elems_none; lia).
  unfold start_block.
  assert ((exists r b, ring = r ++ [b] /\ tb - Z.of_nat (length r) * BLOCK_SIZE + BLOCK_SIZE <= h /\ block_ahead (m, p) = Some (Some b, (m, p))) \/
    block_ahead (m, p) = Some (None, (m, p))) as [(r & b & -> & Hr & E)|E].
  { destruct ring as [|a ring']; [right; apply block_ahead_none, (rep_tailBlock _ _ _ _ _ _ _ R)|].
    destruct (@exists_last _ (a :: ring') ltac:(done)) as (r & b & Er). rewrite Er in *.
    destruct (hold_block _ _ _ _ _ Hh (length r) b) as (blk & Eb & Hblk); [by apply list_lookup_middle|].
    pose proof (block_ahead_some m p a ring' b blk _ ltac:(by rewrite (rep_tailBlock _ _ _ _ _ _ _ R), <- Er) ltac:(by rewrite Er)
      ltac:(by rewrite Er, last_snoc) Eb (block_is_empty _ _ _ _ Hblk)) as E.
    case_bool_decide; [left; by exists r, b|by right]. }
  - rewrite (bind_some _ _ _ _ _ E). rewrite (bind_some _ _ _ tt (m, set_tailBlock (Some b) p)) by done.
    destruct (reuse_spec m others p r b tb h _ Hb Hi) as (blk & Eb & Hs & Hk); [lia|done|].
    rewrite (bind_some _ _ _ _ _ (mem_store m _ b blk _ Eb)). do 3 eexists. split; [reflexivity|]. split; [done|].
    split; [by repeat split|]. exists b, r. split; [done|lia].
  - rewrite (bind_some _ _ _ _ _ E), (bind_some _ _ _ (tailIndex p) (m, p)), (bind_some _ _ _ (headIndex p) (m, p)) by done.
    rewrite (bind_some _ _ _ tt (m, p)).
    2:{ apply assert_true. rewrite (rep_tail _ _ _ _ _ _ _ R), (rep_head _ _ _ _ _ _ _ R), less_near by lia.
        apply negb_true_iff, Z.ltb_ge. lia. }
    destruct (full (headIndex p) (tailIndex p)) eqn:Efull; [exists false, m, p; split; [done|]; split; [done|]; split; [done|by left]|].
    rewrite (bind_some _ _ _ (pr_blockIndexSlotsUsed p) (m, p)) by done.
    destruct (index_room_spec mode m p ring tb Hi Hsm) as (room & m1 & p1 & E1 & Hsf & Hi1 & Hpub & Hm1 & Hroom).
    rewrite (bind_some _ _ _ _ _ E1). assert (owns malloc m1 ring others /\ keeps (list_to_set ring ∪ others) m m1) as [Ho1 Hk1].
    { destruct Hm1 as [->| ->]; [done|]. split; [by apply own_malloc|apply keeps_malloc]. }
    destruct room.
    2:{ exists false, m1, p1. split; [done|]. split; [by eapply keeps_rest|]. split; [eapply ring_rep_change; try done; apply Hpub, R|by right]. }
    destruct Hroom as [Hroom Hraw]. destruct (own_requisition malloc raw_flags mode m1 ring others Ho1) as (o & m2 & E2 & Hk2 & Hres).
    rewrite (bind_some _ _ _ _ _ (mem_some _ m1 p1 _ _ E2)). pose proof (keeping_trans _ _ _ _ Hk1 Hk2) as Hk12. destruct o as [b|].
    2:{ destruct Hres as [Ho2 Hwhy]. exists false, m2, p1. split; [done|]. split; [by eapply keeps_rest|].
        split; [eapply ring_rep_change; try done; apply Hpub, R|]. right.
        eapply unavailable_between; [apply Hk1|by apply unavailable_next|done]. }
    destruct Hres as (Ho2 & Hbr & blk & Eb & Hbl). rewrite (bind_some _ _ _ _ _ (mem_store m2 p1 b blk _ Eb)).
    assert (tailBlock p1 = head ring) as Et1 by (destruct Hsf as (_ & _ & _ & _ & ->); apply R).
    destruct (insert_spec m m2 others p1 ring b blk (Block.reset_empty explicit_context blk) Hl (hold_nodup _ _ _ _ _ Hh) Ho2 Hk12 Hbr Eb Et1)
      as (m3 & E3 & Hl3 & Ho3 & Hk3 & [v Eb3] & Hr3).
    rewrite (bind_some _ _ _ _ _ E3). eexists true, m3, _. split; [reflexivity|]. split; [done|].
    split; [destruct Hsf as (? & ? & ? & ? & _); by repeat split|]. exists b, ring. split; [|lia].
    pose proof (index_used _ _ _ _ _ Hi1) as Hu1. split; [split| |done|done].
    + eapply hold_cons; [|done|exact Eb3|].
      * split; [apply Hh|]. intros j c Hj. destruct (hold_block _ _ _ _ _ Hh j c Hj) as (cblk & Ec & Hc).
        destruct (Hr3 c cblk) as [w Ew]; [by eapply list_elem_of_lookup_2|done|]. eexists. split; [exact Ew|]. by apply next_has.
      * apply next_has, (reset_has checked fits); [done|lia|]. intros z Hz. apply Hf. lia.
    + done.
    + done.
    + by apply next_mod.
    + by eapply bound_kept.
    + eapply (index_push p1); try done; [cbn [pr_blockIndexSlotsUsed set_slotsUsed length]|cbn [length]; lia].
      rewrite Hu1, wrap_small; [lia|unfold in_width; lia].
Qed.

(** ** Enqueuing *)

(** The place of the tail is the first of a block when the last block is full. *)
Lemma boundary m others p h xs ring tb :
  rep m others p h xs ring tb -> (place (tailIndex p) =? 0) = (h + Z.of_nat (length xs) =? tb + BLOCK_SIZE).
Proof.
  intros R. rewrite (rep_tail _ _ _ _ _ _ _ R), (place_wrap checked fits). pose proof (rep_range _ _ _ _ _ _ _ R) as Hr.
  pose proof (ok_tb _ _ _ _ _ _ (rep_blocks _ _ _ _ _ _ _ R)) as Htb. pose proof (BLOCK_SIZE_bounds checked fits).
  destruct (Z.eqb_spec (h + Z.of_nat (length xs)) (tb + BLOCK_SIZE)) as [->|Hne].
  - apply Z.eqb_eq. rewrite (place_mod checked fits). by apply next_mod.
  - apply Z.eqb_neq. rewrite (place_in checked fits tb) by (done || lia). lia.
Qed.

Lemma ring_blocks_put m others b ring tb h f i x :
  blocks_ok m others (b :: ring) tb h f -> tb <= i < tb + BLOCK_SIZE -> f i = None ->
  exists m', (forall q : t, put b (u64 i) x (m, q) = Some (tt, (m', q))) /\ keeps others m m' /\
    blocks_ok m' others (b :: ring) tb h (upd f i (Some x)).
Proof.
  intros [Hh Hl Ho Htb Hm] Hi Hf.
  destruct (put_newest (ctx := explicit_context) checked fits malloc m others b ring tb h f i x Hh Ho Htb Hi Hf) as (m' & E & Hh' & Ho' & Hk & Ht).
  exists m'. split; [apply E|]. split; [done|]. split; [done|by eapply links_touched|done|done|by eapply bound_kept].
Qed.

Lemma elems_pushed m others ring tb h xs x :
  blocks_ok m others ring tb h (upd (elems xs h) (h + Z.of_nat (length xs)) (Some x)) -> blocks_ok m others ring tb h (elems (xs ++ [x]) h).
Proof.
  intros [Hh Hl Ho Htb Hm]. split; [|done..]. eapply (hold_ext checked fits); [|exact Hh]. intros z _. by rewrite elems_app.
Qed.

(** The block [b] enters the index. *)
Lemma index_entry_spec p b ring tb :
  index_ok p (b :: ring) tb (pr_blockIndexFront p) 1 -> tailBlock p = Some b ->
  exists p', same_members p p' /\ index_ok p' (b :: ring) tb (pr_blockIndexFront p' - 1) 0 /\ published p' /\
    forall m A (k : M (Memory (T := T) * t) A),
      (write_entry (u64 tb);; f ← field pr_blockIndexFront; publish f;; advance_front;; k) (m, p) = k (m, p').
Proof.
  intros Hi Et. destruct (write_entry_spec checked fits (T := T) p b ring tb Hi Et) as (p1 & E1 & Hsf1 & (En1 & Eu1 & Es1) & Ef1 & Hi1).
  pose proof (index_raw _ _ _ _ _ b Hi ltac:(left)) as [n En]. pose proof (index_current _ _ _ _ _ Hi1) as Hc.
  rewrite En1, En in Hc. destruct Hc as (_ & hdr & Eh & _).
  destruct (publish_spec (T := T) p1 (b :: ring) tb _ _ n hdr (pr_blockIndexFront p1) Hi1 ltac:(congruence) Eh) as (E2 & Hi2 & Eh2).
  set (p2 := set_headers _ p1) in *.
  destruct (advance_front_spec checked fits (T := T) p2 (b :: ring) tb Hi2) as (E3 & Hi3); [by exists n; cbn; rewrite En1|].
  eexists. split; [|split; [exact Hi3|split]].
  - destruct Hsf1 as (? & ? & ? & ? & ?). by repeat split.
  - intros k h Ek Eh' _. cbn in Ek, Eh' |- *. rewrite En1, En in Ek. injection Ek as <-. cbn in Eh2. rewrite Eh2 in Eh'. injection Eh' as <-.
    cbn. rewrite Zminus_mod_idemp_l. replace (pr_blockIndexFront p1 + 1 - 1) with (pr_blockIndexFront p1) by lia. symmetry.
    apply Z.mod_small, (index_front _ _ _ _ _ Hi1).
  - intros m A k. rewrite (bind_some _ _ _ _ _ (E1 m)), (bind_some _ _ _ (pr_blockIndexFront p1) (m, p1)) by done.
    by rewrite (bind_some _ _ _ _ _ (E2 m)), (bind_some _ _ _ _ _ (E3 m)).
Qed.

(** The element is the last one now. *)
Lemma ring_rep_pushed m m' others p p' h xs x ring ring' tb tb' :
  rep m others p h xs ring tb -> tb' < h + Z.of_nat (length xs) + 1 <= tb' + BLOCK_SIZE ->
  tb' - Z.of_nat (length ring') * BLOCK_SIZE + BLOCK_SIZE <= h -> blocks_ok m' others ring' tb' h (elems (xs ++ [x]) h) ->
  index_ok p' ring' tb' (pr_blockIndexFront p' - 1) 0 -> published p' ->
  same_members (set_tailBlock (tailBlock p') p) p' -> tailBlock p' = head ring' ->
  rep m' others (set_tailIndex (u64 (1 + tailIndex p)) p') h (xs ++ [x]) ring' tb'.
Proof.
  intros R Hr Hold Hb Hi Hp (Et & Eh & Eo & Ec & _) Etb. cbn in Et, Eh, Eo, Ec. split; cbn; rewrite ?Eh, ?Eo, ?Ec, ?length_app; cbn [length];
    try apply R; try done; try lia.
  - rewrite (rep_tail _ _ _ _ _ _ _ R), wrap_add_r. f_equal. lia.
  - destruct Hi. by split.
Qed.

Lemma enqueue_new_block mode m others p h xs ring tb x :
  rep m others p h xs ring tb -> throws noexcept_ctor ctor_throws x = false -> h + Z.of_nat (length xs) = tb + BLOCK_SIZE ->
  exists ok m' p', enqueue malloc raw_flags noexcept_ctor ctor_throws mode x (m, p) = Some (Returned ok, (m', p')) /\ keeps others m m' /\
    if (ok : bool) then exists ring' tb', rep m' others p' h (xs ++ [x]) ring' tb'
    else rep m' others p' h xs ring tb /\
      (full (headIndex p) (tailIndex p) = true \/ unavailable malloc mode m m').
Proof.
  intros R Hx Hbd. pose proof (BLOCK_SIZE_bounds checked fits) as HB. unfold enqueue, throws in *. rewrite Hx.
  rewrite (bind_some _ _ _ (tailIndex p) (m, p)) by done. rewrite (boundary _ _ _ _ _ _ _ R), (proj2 (Z.eqb_eq _ _) Hbd).
  rewrite (bind_some _ _ _ (tailBlock p) (m, p)), (bind_some _ _ _ (pr_blockIndexSlotsUsed p) (m, p)) by done.
  destruct (start_block_spec mode m others p h xs ring tb R Hbd) as (ok & m1 & p1 & E & Hk & Hok).
  rewrite (bind_some _ _ _ _ _ E). destruct ok; [|by exists false, m1, p1].
  destruct Hok as (Hsf & b & ring' & [Hb1 Hi1 Hraw Et1] & Hold).
  rewrite (bind_some _ _ _ (tailBlock p1) (m1, p1)) by done. rewrite Et1, (bind_some _ _ _ b (m1, p1)) by done.
  destruct (index_entry_spec p1 b ring' (tb + BLOCK_SIZE) Hi1 Et1) as (p2 & Hsf2 & Hi2 & Hp2 & Hk2).
  destruct (ring_blocks_put m1 others b ring' _ h _ (tb + BLOCK_SIZE) x Hb1) as (m2 & E2 & Hkk & Hb2); [lia|apply elems_none; lia|].
  rewrite (rep_tail _ _ _ _ _ _ _ R), Hbd.
  exists true, m2, (set_tailIndex (u64 (1 + u64 (tb + BLOCK_SIZE))) p2). split; [|split; [by eapply keeping_trans|]].
  - destruct noexcept_ctor.
    + rewrite (bind_some _ _ _ tt (m1, p1)) by done. rewrite Hk2. by rewrite (bind_some _ _ _ _ _ (E2 p2)).
    + rewrite (bind_some _ _ _ _ _ (E2 p1)). by rewrite Hk2.
  - exists (b :: ring'), (tb + BLOCK_SIZE). rewrite <- Hbd, <- (rep_tail _ _ _ _ _ _ _ R), Hbd.
    destruct Hsf as (? & ? & ? & ? & _), Hsf2 as (? & ? & ? & ? & ?). cbn in *.
    eapply ring_rep_pushed; [exact R|lia|cbn [length]; lia| |done|done|repeat split; cbn; congruence|cbn; congruence].
    apply elems_pushed. by rewrite Hbd.
Qed.

Lemma enqueue_in_block mode m others p h xs ring tb x :
  rep m others p h xs ring tb -> throws noexcept_ctor ctor_throws x = false -> h + Z.of_nat (length xs) <> tb + BLOCK_SIZE ->
  exists m' p', enqueue malloc raw_flags noexcept_ctor ctor_throws mode x (m, p) = Some (Returned true, (m', p')) /\ keeps others m m' /\
    rep m' others p' h (xs ++ [x]) ring tb.
Proof.
  intros R Hx Hbd. pose proof (rep_range _ _ _ _ _ _ _ R) as Hr. unfold enqueue, throws in *. rewrite Hx.
  rewrite (bind_some _ _ _ (tailIndex p) (m, p)) by done. rewrite (boundary _ _ _ _ _ _ _ R), (proj2 (Z.eqb_neq _ _) Hbd).
  destruct ring as [|b ring]; [pose proof (rep_oldest _ _ _ _ _ _ _ R); cbn [length] in *; lia|].
  rewrite (bind_some _ _ _ (tailBlock p) (m, p)) by done. rewrite (rep_tailBlock _ _ _ _ _ _ _ R), (bind_some _ _ _ b (m, p)) by done.
  rewrite (rep_tail _ _ _ _ _ _ _ R).
  destruct (ring_blocks_put m others b ring tb h _ (h + Z.of_nat (length xs)) x (rep_blocks _ _ _ _ _ _ _ R)) as (m' & E & Hk & Hb); [lia|apply elems_none; lia|].
  rewrite (bind_some _ _ _ _ _ (E _)). do 2 eexists. split; [reflexivity|]. split; [done|]. rewrite <- (rep_tail _ _ _ _ _ _ _ R).
  eapply ring_rep_pushed; [exact R|lia|apply R|by apply elems_pushed|apply R|apply R|by repeat split|apply R].
Qed.

(** An element enters the queue at its end, or nothing changes. *)
Lemma enqueue_spec mode m others p h xs ring tb x :
  rep m others p h xs ring tb -> throws noexcept_ctor ctor_throws x = false ->
  exists ok m' p', enqueue malloc raw_flags noexcept_ctor ctor_throws mode x (m, p) = Some (Returned ok, (m', p')) /\ keeps others m m' /\
    if (ok : bool) then exists ring' tb', rep m' others p' h (xs ++ [x]) ring' tb'
    else rep m' others p' h xs ring tb /\ place (tailIndex p) = 0 /\
      (full (headIndex p) (tailIndex p) = true \/ unavailable malloc mode m m').
Proof.
  intros R Hx. pose proof (boundary _ _ _ _ _ _ _ R) as Hbd.
  destruct (decide (h + Z.of_nat (length xs) = tb + BLOCK_SIZE)) as [Ht|Ht].
  - rewrite (proj2 (Z.eqb_eq _ _) Ht) in Hbd. apply Z.eqb_eq in Hbd.
    destruct (enqueue_new_block mode _ _ _ _ _ _ _ x R Hx Ht) as (ok & m' & p' & E & Hk & Hres).
    exists ok, m', p'. split; [done|]. split; [done|]. destruct ok; [done|]. destruct Hres as [? ?]. done.
  - destruct (enqueue_in_block mode _ _ _ _ _ _ _ x R Hx Ht) as (m' & p' & E & Hk & R').
    exists true, m', p'. split; [done|]. split; [done|]. by do 2 eexists.
Qed.
(** ** Dequeuing *)

(** Elements leave one block: the other blocks are as full as they were. *)
Lemma gone_apart tb h h' (j k : nat) :
  tb - Z.of_nat j * BLOCK_SIZE <= h <= h' -> h' <= tb - Z.of_nat j * BLOCK_SIZE + BLOCK_SIZE -> k <> j ->
  gone (tb - Z.of_nat k * BLOCK_SIZE) h = gone (tb - Z.of_nat k * BLOCK_SIZE) h'.
Proof.
  intros Hh Hh' Hk. pose proof (BLOCK_SIZE_bounds checked fits) as HB. destruct (decide (k < j)%nat).
  - assert (h' <= tb - Z.of_nat k * BLOCK_SIZE) by nia. rewrite !gone_empty by lia. done.
  - assert (tb - Z.of_nat k * BLOCK_SIZE + BLOCK_SIZE <= h) by nia.
    rewrite (proj2 (gone_full checked fits _ h)), (proj2 (gone_full checked fits _ h')) by lia. done.
Qed.

Lemma blocks_mark m others ring tb h h' f f' j b blk blk' :
  blocks_ok m others ring tb h f -> ring !! j = Some b -> blocks m !! b = Some blk ->
  block_has explicit_context blk' (tb - Z.of_nat j * BLOCK_SIZE) h' f' -> Block.next blk' = Block.next blk ->
  tb - Z.of_nat j * BLOCK_SIZE <= h <= h' -> h' <= tb - Z.of_nat j * BLOCK_SIZE + BLOCK_SIZE ->
  (forall z, ~ tb - Z.of_nat j * BLOCK_SIZE <= z < tb - Z.of_nat j * BLOCK_SIZE + BLOCK_SIZE -> f' z = f z) ->
  blocks_ok (with_block b blk' m) others ring tb h' f' /\ keeps others m (with_block b blk' m).
Proof.
  intros [Hh Hl Ho Htb Hm] Hj Eb Hb En Hlo Hhi Hf.
  destruct (own_store malloc m ring others b blk' Ho) as [Ho' Hk]; [by eapply list_elem_of_lookup_2|]. split; [|done].
  split; [|by eapply links_store|done|done|by eapply bound_kept].
  eapply (hold_insert checked fits); [exact Hh|exact Hj|done|done|]. intros k Hkj _. by eapply gone_apart.
Qed.

Lemma set_empty_some m p b i blk r blk' :
  blocks m !! b = Some blk -> Block.set_empty explicit_context i blk = Some (r, blk') ->
  set_empty b (u64 i) (m, p) = Some (tt, (with_block b blk' m, p)).
Proof.
  intros Eb Es. destruct (marks_wrap checked fits (ctx := explicit_context) i blk) as (Ws & _). unfold set_empty.
  rewrite (bind_some _ _ _ _ _ (mem_load m p b blk Eb)), Ws. rewrite (bind_some _ _ _ _ _ (the_some _ _ _ Es)).
  exact (mem_store m p b blk _ Eb).
Qed.

(** Where the first of the elements is. *)
Lemma locate_head m others p h xs ring tb q :
  rep m others p h xs ring tb -> xs <> [] -> blockIndex q = blockIndex p -> headers q = headers p ->
  exists n hdr j b slot, current (m, q) = Some ((n, hdr), (m, q)) /\ blockIndex p = Some n /\ headers p !! n = Some hdr /\
    locate hdr (u64 h) = Some slot /\ entry_block hdr slot = Some b /\ ring !! j = Some b /\
    slot = (pr_blockIndexFront p - 1 - Z.of_nat j) `mod` pr_blockIndexSize p /\
    tb - Z.of_nat j * BLOCK_SIZE <= h < tb - Z.of_nat j * BLOCK_SIZE + BLOCK_SIZE.
Proof.
  intros R Hxs En' Eh'. pose proof (rep_range _ _ _ _ _ _ _ R). pose proof (rep_oldest _ _ _ _ _ _ _ R) as Hold.
  pose proof (rep_index _ _ _ _ _ _ _ R) as Hi. pose proof (index_current _ _ _ _ _ Hi) as Hc.
  assert (0 < Z.of_nat (length xs)) by (destruct xs; [done|cbn; lia]).
  destruct (blockIndex p) as [n|] eqn:En; [|destruct Hc as [-> _]; cbn [length] in *; lia]. destruct Hc as (_ & hdr & Eh & _).
  destruct (locate_spec checked fits p n hdr ring tb h Hi (rep_published _ _ _ _ _ _ _ R) En Eh) as (j & b & slot & ? & ? & ? & ? & ?);
    [by apply (rep_blocks _ _ _ _ _ _ _ R)|lia|lia|].
  exists n, hdr, j, b, slot. split; [|done]. apply current_some; congruence.
Qed.

(** The first elements have left the queue. *)
Lemma rep_taken m m' others p h xs ring tb (k : nat) :
  rep m others p h xs ring tb -> (k <= length xs)%nat -> blocks_ok m' others ring tb (h + Z.of_nat k) (elems (drop k xs) (h + Z.of_nat k)) ->
  rep m' others (set_headIndex (u64 (h + Z.of_nat k)) (set_optimistic (u64 (h + Z.of_nat k)) p)) (h + Z.of_nat k) (drop k xs) ring tb.
Proof.
  intros R Hk Hb. split; cbn; rewrite ?length_drop; try apply R; try done.
  - rewrite (rep_tail _ _ _ _ _ _ _ R). f_equal. lia.
  - pose proof (rep_range _ _ _ _ _ _ _ R). lia.
  - pose proof (rep_oldest _ _ _ _ _ _ _ R). lia.
  - destruct (rep_index _ _ _ _ _ _ _ R). by split.
Qed.

(** The first element leaves the queue. *)
Lemma dequeue_spec m others p h xs ring tb :
  rep m others p h xs ring tb ->
  match xs with
  | [] => dequeue (m, p) = Some (None, (m, p))
  | x :: xs => exists m' p', dequeue (m, p) = Some (Some x, (m', p')) /\ keeps others m m' /\ rep m' others p' (h + 1) xs ring tb
  end.
Proof.
  intros R. pose proof (ring_rep_small _ _ _ _ _ _ _ R) as [_ Hlen].
  unfold dequeue. rewrite (bind_some _ _ _ (tailIndex p) (m, p)), (bind_some _ _ _ (dequeueOvercommit p) (m, p)),
    (bind_some _ _ _ (dequeueOptimisticCount p) (m, p)) by done.
  rewrite (rep_tail _ _ _ _ _ _ _ R), (rep_optimistic _ _ _ _ _ _ _ R), (rep_overcommit _ _ _ _ _ _ _ R).
  rewrite Z.sub_0_r, wrap_wrap by lia. rewrite less_near by lia. destruct xs as [|x xs].
  { by rewrite (proj2 (Z.ltb_ge _ _)) by (cbn; lia). }
  rewrite (proj2 (Z.ltb_lt _ _)) by (cbn; lia). rewrite (bind_some _ _ _ (dequeueOptimisticCount p) (m, p)) by done.
  rewrite (rep_optimistic _ _ _ _ _ _ _ R), wrap_add_l. set (p1 := set_optimistic (u64 (h + 1)) p). rewrite (bind_some _ _ _ tt (m, p1)) by done.
  rewrite (bind_some _ _ _ tt (m, p1)) by (apply assert_true, Z.leb_le, (wrap_range 64 h); lia).
  rewrite (bind_some _ _ _ (tailIndex p) (m, p1)) by done. rewrite Z.sub_0_r, wrap_wrap, (rep_tail _ _ _ _ _ _ _ R) by lia.
  rewrite less_near by lia. rewrite (proj2 (Z.ltb_lt _ _)) by (cbn; lia). rewrite (bind_some _ _ _ (headIndex p) (m, p1)) by done.
  rewrite (rep_head _ _ _ _ _ _ _ R), wrap_add_l. set (p2 := set_headIndex (u64 (h + 1)) p1). rewrite (bind_some _ _ _ tt (m, p2)) by done.
  destruct (locate_head _ _ _ _ _ _ _ p2 R ltac:(done) eq_refl eq_refl) as (n & hdr & j & b & slot & Ec & _ & _ & El & Ee & Hj & _ & Hh).
  rewrite (bind_some _ _ _ _ _ Ec). rewrite (bind_some _ _ _ _ _ (the_some _ _ _ El)), (bind_some _ _ _ _ _ (the_some _ _ _ Ee)).
  pose proof (rep_blocks _ _ _ _ _ _ _ R) as Hb. destruct (hold_block _ _ _ _ _ (ok_hold _ _ _ _ _ _ Hb) _ _ Hj) as (blk & Eb & Hblk).
  assert (place h = h - (tb - Z.of_nat j * BLOCK_SIZE)) as Hp by (apply (place_in checked fits); [apply back_mod, Hb|done]).
  destruct (destroy_has blk _ h _ h x Hblk Hh Hp) as (blk1 & Ed & Hblk1 & En1); [unfold elems; by rewrite Z.sub_diag|].
  destruct (set_empty_has checked fits blk1 _ h _ Hblk1 Hh Hp) as (blk2 & Ese & Hblk2 & En2).
  rewrite (bind_some _ _ _ _ _ (take_some checked fits m p2 b h blk x blk1 Eb ltac:(rewrite (get_has _ _ _ _ _ Hblk Hh Hp); unfold elems; by rewrite Z.sub_diag) Ed)).
  rewrite (bind_some _ _ _ _ _ (set_empty_some _ p2 b h blk1 _ blk2 (with_block_lookup _ _ _) Ese)), with_block_twice.
  destruct (blocks_mark m others ring tb h (h + 1) _ (elems xs (h + 1)) j b blk blk2 Hb Hj Eb) as [Hb' Hk]; [|congruence|lia|lia| |].
  - eapply has_ext; [|exact Hblk2]. intros z _. symmetry. apply elems_tail.
  - intros z Hz. rewrite (elems_tail x). unfold upd. rewrite decide_False; [done|]. intros ->. by apply Hz.
  - do 2 eexists. split; [reflexivity|]. split; [done|]. by apply (rep_taken _ _ _ _ _ (x :: xs) _ _ 1 R ltac:(cbn; lia)).
Qed.

(** ** Other producers *)

(** A producer is as it was when the blocks of its ring are. *)
Lemma ring_rep_frame m m' others others' p h xs ring tb :
  rep m others p h xs ring tb -> owns malloc m' ring others' -> initialBlockPoolSize m' = initialBlockPoolSize m ->
  (forall b, (b ∈ ring) -> blocks m' !! b = blocks m !! b) -> rep m' others' p h xs ring tb.
Proof.
  intros [? ? ? ? ? ? ? [Hh Hl _ Htb Hm] ? ?] Ho Hs He. split; try done. split; [by eapply hold_frame|by eapply links_ext|done|done|].
  intros n. rewrite Hs. apply Hm.
Qed.
End Spec.
