(* ===== verification/ExplicitBulk.v ===== *)
(** * Many elements at once, in an explicit producer

    [enqueue_bulk] first collects the blocks it needs: empty blocks of the ring
    are used again as long as there are any, then new blocks are taken from the
    pool. The blocks collected count as empty until all of them are there, and
    are reset together. When all blocks have been had, the elements fill them
    one after the other, and the queue has the new elements at its end. *)
From S2P Require Import Prelude.
From S2P Require Import QueueUtils.
From S2P Require Import QueueTraits.
From S2P Require Import QueueBlock.
From S2P Require Import BlockPool.
From S2P Require Import ProducerMemory.
From S2P Require Import ExplicitProducer.
From S2P Require Import BlockContents.
From S2P Require Import BlockMemory.
From S2P Require Import BlockChains.
From S2P Require Import ExplicitRing.
From S2P Require Import ExplicitIndex.
From S2P Require Import ExplicitSpec.
#[local] Open Scope Z_scope.
Import ExplicitProducer.

Section Bulk.
Context {tr : Traits} (checked : static_asserts = true) (fits : BLOCK_SIZE <= 2 ^ 62) {T : Type}.
Context (malloc : nat -> bool) (raw_flags : nat -> list bool).
Context (noexcept_ctor : bool) (ctor_throws : T -> bool).
Implicit Types (m : Memory (T := T)) (p : t) (ring : list nat) (xs : list T) (others : gset nat).
Abbreviation hold := (blocks_hold explicit_context).
Abbreviation rep := (rep malloc).

(** ** The blocks collected *)

(** A block without elements that counts as empty. *)
Definition spent (blk : Block.t T) : Prop := Block.tracks explicit_context blk Block.places /\ blank blk.

Lemma spent_next blk v : spent blk -> spent (Block.set_next v blk).
Proof. intros [[Ht Hr] Hb]. by split. Qed.

(** The first [d] blocks of the ring have been collected; the first block after
    them is the newest in use, and its first element has the index [tb]. *)
Record collected m others ring (d : nat) (tb h : Z) (f : Z -> option T) : Prop := mkCollected {
  col_hold : hold (blocks m) (drop d ring) tb h f;
  col_spent : forall j b, (j < d)%nat -> ring !! j = Some b -> exists blk, blocks m !! b = Some blk /\ spent blk;
  col_nodup : NoDup ring;
  col_links : links (blocks m) ring;
  col_owns : owns malloc m ring others;
  col_memory : memory_bound malloc m
}.

Lemma collected_none m others ring tb h f :
  blocks_ok malloc m others ring tb h f -> collected m others ring 0 tb h f.
Proof. intros [Hh Hl Ho Htb Hm]. split; try done; [lia|apply Hh]. Qed.

Lemma collected_ready m others ring tb h f :
  collected m others ring 0 tb h f -> tb `mod` BLOCK_SIZE = 0 -> blocks_ok malloc m others ring tb h f.
Proof. intros [] Htb. by split. Qed.

(** The members and the index of the producer [p] with [d] blocks collected, when
    [p0], [ring0] and [tb0] are what it had before. *)
Record collecting others p0 ring0 tb0 h f (d : nat) ring m p : Prop := mkCollecting {
  cng_blocks : collected m others ring d tb0 h f;
  cng_index : index_ok p ring (tb0 + Z.of_nat d * BLOCK_SIZE) (pr_blockIndexFront p - 1) 0;
  cng_tail : tailBlock p = head ring;
  cng_old : exists old, ring0 = drop d ring ++ old;
  cng_length : (d <= length ring)%nat;
  cng_oldest : tb0 + Z.of_nat d * BLOCK_SIZE - Z.of_nat (length ring) * BLOCK_SIZE + BLOCK_SIZE <= h;
  cng_members : same_members (set_tailBlock (tailBlock p) p0) p
}.

(** A new entry of the index, not published yet. *)
Lemma index_write_spec p b ring tb :
  index_ok p (b :: ring) tb (pr_blockIndexFront p) 1 -> tailBlock p = Some b ->
  exists p', same_members p p' /\ index_ok p' (b :: ring) tb (pr_blockIndexFront p' - 1) 0 /\
    forall m A (k : M (Memory (T := T) * t) A), (write_entry (u64 tb);; advance_front;; k) (m, p) = k (m, p').
Proof.
  intros Hi Et. destruct (write_entry_spec checked fits (T := T) p b ring tb Hi Et) as (p1 & E1 & Hsf1 & (En1 & _) & _ & Hi1).
  destruct (advance_front_spec checked fits (T := T) p1 (b :: ring) tb Hi1) as (E2 & Hi2).
  { rewrite En1. eapply index_raw; [exact Hi|left]. }
  eexists. split; [|split; [exact Hi2|]].
  - destruct Hsf1 as (? & ? & ? & ? & ?). by repeat split.
  - intros m A k. by rewrite (bind_some _ _ _ _ _ (E1 m)), (bind_some _ _ _ _ _ (E2 m)).
Qed.

Lemma publish_last_spec p ring tb :
  index_ok p ring tb (pr_blockIndexFront p - 1) 0 -> is_Some (blockIndex p) ->
  exists p', (forall m, publish_last (m, p) = Some (tt, (m, p'))) /\ same_members p p' /\
    index_ok p' ring tb (pr_blockIndexFront p' - 1) 0 /\ published p'.
Proof.
  intros Hi [n En]. pose proof (index_current _ _ _ _ _ Hi) as Hc. rewrite En in Hc. destruct Hc as (_ & hdr & Eh & _).
  destruct (publish_spec (T := T) p ring tb _ _ n hdr ((pr_blockIndexFront p - 1) `mod` pr_blockIndexSize p) Hi En Eh) as (E & Hi' & Eh').
  eexists. split; [|split; [|split; [exact Hi'|]]].
  - intros m. unfold publish_last. rewrite (bind_some _ _ _ (pr_blockIndexFront p) (m, p)), (bind_some _ _ _ (pr_blockIndexSize p) (m, p)) by done.
    rewrite (mask_size checked fits _ _ _ _ _ _ Hi). apply E.
  - by repeat split.
  - intros k hdr' Ek Ehdr' _. cbn in Ek. rewrite En in Ek. injection Ek as <-. rewrite Eh' in Ehdr'. by injection Ehdr' as <-.
Qed.

(** What remains to be collected: [K] blocks. *)
Definition at_progress (tb0 : Z) (K d : nat) ring : progress :=
  mkProgress (u64 (Z.of_nat K * BLOCK_SIZE)) (u64 (tb0 + Z.of_nat d * BLOCK_SIZE)) (match d with O => None | S d => ring !! d end).

Lemma next_progress tb0 K d ring ring' b :
  (d <= length ring)%nat -> (forall j c, (j < d)%nat -> ring !! j = Some c -> ring' !! j = Some c) ->
  next_block (at_progress tb0 (S K) d ring') b = at_progress tb0 K (S d) (b :: ring).
Proof.
  intros Hd Hsame. unfold next_block, at_progress. cbn [blockBaseDiff currentTail firstAllocated]. rewrite wrap_sub_l, wrap_add_l.
  f_equal; [f_equal; lia|f_equal; lia|]. destruct d as [|d]; [done|].
  change ((b :: ring) !! S d) with (ring !! d). destruct (lookup_lt_is_Some_2 ring d Hd) as [c Ec]. by rewrite (Hsame d c), Ec by (done || lia).
Qed.

Section Collect.
Context (others : gset nat) (p0 : t) (ring0 : list nat) (tb0 h : Z) (f : Z -> option T).
Context (Htb0 : tb0 `mod` BLOCK_SIZE = 0) (Hhead : h <= tb0 + BLOCK_SIZE).
Context (Hnone : forall z, z < h \/ tb0 + BLOCK_SIZE <= z -> f z = None).
Abbreviation collecting := (collecting others p0 ring0 tb0 h f).
Abbreviation progress_at := (at_progress tb0).

(** The block behind the tail block is collected. *)
Lemma collect_behind d ring b m p :
  collecting d (ring ++ [b]) m p -> (d <= length ring)%nat ->
  tb0 + Z.of_nat d * BLOCK_SIZE - Z.of_nat (length ring) * BLOCK_SIZE + BLOCK_SIZE <= h ->
  exists p', collecting (S d) (b :: ring) m p' /\
    forall A (k : M (Memory (T := T) * t) A),
      (write_entry (u64 (tb0 + Z.of_nat (S d) * BLOCK_SIZE));; advance_front;; k) (m, set_tailBlock (Some b) p) = k (m, p').
Proof.
  intros [[Hh Hs Hnd Hl Ho Hm] Hi Et [old Eg] _ Hold Hsf] Hd Hempty. pose proof (BLOCK_SIZE_bounds checked fits) as HB.
  assert (drop d (ring ++ [b]) = drop d ring ++ [b]) as Edrop by (by rewrite drop_app_le). rewrite Edrop in Hh, Eg.
  assert ((ring ++ [b]) !! length ring = Some b) as Hj by (by apply list_lookup_middle).
  assert (index_ok (set_tailBlock (Some b) p) (b :: ring) (tb0 + Z.of_nat (S d) * BLOCK_SIZE) (pr_blockIndexFront (set_tailBlock (Some b) p)) 1) as Hi1.
  { replace (tb0 + Z.of_nat (S d) * BLOCK_SIZE) with (tb0 + Z.of_nat d * BLOCK_SIZE + BLOCK_SIZE) by lia.
    eapply (index_push p); try done.
    - eapply index_raw; [exact Hi|]. by eapply list_elem_of_lookup_2.
    - cbn. rewrite (index_used _ _ _ _ _ Hi), length_app. cbn [length]. f_equal. lia.
    - pose proof (index_fits _ _ _ _ _ Hi) as Hfit. rewrite length_app in Hfit. cbn [length] in *. lia.
    - intros j c Hc. by apply lookup_app_l_Some. }
  destruct (index_write_spec _ b ring _ Hi1 eq_refl) as (p' & Hsf' & Hi' & E'). exists p'. split; [|intros A k; apply E'].
  pose proof Hnd as (Hndr & Hbr & _)%NoDup_app. assert (b ∉ ring) as Hbr' by (intros H; apply (Hbr b H); left).
  assert (tailBlock p' = Some b) as Et' by (by destruct Hsf' as (_ & _ & _ & _ & ->)).
  split; [split| | | | | |]; cbn [drop].
  - eapply hold_app, Hh.
  - intros [|j] c Hjd Hc; [|apply (Hs j c); [lia|by apply lookup_app_l_Some]]. injection Hc as <-.
    destruct (hold_block _ _ _ _ _ Hh (length (drop d ring)) b) as (blk & Eb & Hblk); [by apply list_lookup_middle|].
    exists blk. split; [done|]. rewrite length_drop, Nat2Z.inj_sub in Hblk by lia.
    split; [|eapply has_blank; [exact Hblk|intros z Hz; apply Hnone; lia]].
    replace Block.places with (gone (tb0 - (Z.of_nat (length ring) - Z.of_nat d) * BLOCK_SIZE) h); [apply Hblk|].
    apply (gone_full checked fits). lia.
  - by constructor.
  - by apply links_turn.
  - eapply own_perm; [|exact Ho]. symmetry. apply Permutation_cons_append.
  - done.
  - done.
  - done.
  - exists (b :: old). by rewrite <- app_assoc in Eg.
  - cbn [length]. lia.
  - cbn [length]. lia.
  - destruct Hsf as (? & ? & ? & ? & ?), Hsf' as (? & ? & ? & ? & ?). cbn in *. repeat split; cbn; congruence.
Qed.
(** Whether the block behind the tail block is empty. *)
Lemma behind_spec d ring b m p :
  collecting d (ring ++ [b]) m p ->
  (d = length (ring ++ [b]) /\ block_ahead (m, p) = Some (Some b, (m, p))) \/
  (d <= length ring)%nat /\ block_ahead (m, p) = Some (if bool_decide
    (tb0 + Z.of_nat d * BLOCK_SIZE - Z.of_nat (length ring) * BLOCK_SIZE + BLOCK_SIZE <= h) then Some b else None, (m, p)).
Proof.
  intros [[Hh Hs Hnd Hl Ho Hm] _ Et _ Hd _ _].
  assert ((ring ++ [b]) !! length ring = Some b) as Hj by (by apply list_lookup_middle).
  assert (exists a r, ring ++ [b] = a :: r) as (a & r & Er) by (destruct ring; cbn; by eauto).
  assert (forall blk e, blocks m !! b = Some blk -> Block.is_empty explicit_context blk = Some e ->
    block_ahead (m, p) = Some (if e then Some b else None, (m, p))) as Hahead.
  { intros blk e Eb Ee. eapply (block_ahead_some m p a r b blk); [by rewrite Et, Er|by rewrite <- Er|by rewrite <- Er, last_snoc|done|done]. }
  destruct (decide (d <= length ring)%nat) as [Hdr|Hdr].
  - right. split; [done|]. rewrite drop_app_le in Hh by done.
    destruct (hold_block _ _ _ _ _ Hh (length (drop d ring)) b) as (blk & Eb & Hblk); [by apply list_lookup_middle|].
    rewrite length_drop, Nat2Z.inj_sub in Hblk by done. rewrite (Hahead blk _ Eb (block_is_empty checked fits _ _ _ _ Hblk)).
    replace (tb0 - (Z.of_nat (length ring) - Z.of_nat d) * BLOCK_SIZE) with (tb0 + Z.of_nat d * BLOCK_SIZE - Z.of_nat (length ring) * BLOCK_SIZE) by lia.
    by case_bool_decide.
  - left. rewrite length_app in *. cbn [length] in *. split; [lia|]. destruct (Hs (length ring) b) as (blk & Eb & Ht & _); [lia|done|].
    rewrite (Hahead blk true Eb); [done|]. rewrite (Block.is_empty_spec checked fits _ _ _ Ht). by rewrite bool_decide_eq_true_2.
Qed.

Lemma more_blocks (K : nat) : Z.of_nat (S K) * BLOCK_SIZE < 2 ^ 64 -> (0 <? u64 (Z.of_nat (S K) * BLOCK_SIZE)) = true.
Proof. intros HK. pose proof (BLOCK_SIZE_bounds checked fits). apply Z.ltb_lt. rewrite wrap_small; [lia|unfold in_width; lia]. Qed.

(** The empty blocks of the ring are used again. *)
Lemma reuse_blocks_spec fuel : forall K d ring m p,
  collecting d ring m p -> Z.of_nat K * BLOCK_SIZE < 2 ^ 64 -> (K < fuel)%nat ->
  exists K' d' ring' p', reuse_blocks fuel (progress_at K d ring) (m, p) = Some (progress_at K' d' ring', (m, p')) /\
    collecting d' ring' m p' /\ (K' + d' = K + d)%nat.
Proof.
  pose proof (BLOCK_SIZE_bounds checked fits) as HB.
  induction fuel as [|fuel IH]; intros K d ring m p C HK Hfuel; [lia|]. cbn [reuse_blocks]. cbn [blockBaseDiff at_progress].
  destruct K as [|K]; [by exists O, d, ring, p|]. rewrite more_blocks by done.
  destruct ring as [|a r] eqn:Er.
  { rewrite (bind_some _ _ _ _ _ (block_ahead_none m p (cng_tail _ _ _ _ _ _ _ _ _ _ C))). by exists (S K), d, [], p. }
  rewrite <- Er in *. destruct (@exists_last _ ring ltac:(by rewrite Er)) as (ring' & b & ->). clear Er a r.
  pose proof (col_nodup _ _ _ _ _ _ _ (cng_blocks _ _ _ _ _ _ _ _ _ _ C)) as Hnd.
  destruct (behind_spec d ring' b m p C) as [[Ed E]|[Hd E]]; rewrite (bind_some _ _ _ _ _ E).
  - rewrite decide_True; [by exists (S K), d, (ring' ++ [b]), p|]. rewrite Ed, length_app. cbn [length firstAllocated at_progress].
    rewrite Nat.add_1_r. by apply list_lookup_middle.
  - case_bool_decide as Hempty; [|by exists (S K), d, (ring' ++ [b]), p]. rewrite decide_False.
    2:{ destruct d as [|d]; [done|]. intros E'. cbn in E'.
        pose proof (NoDup_lookup _ _ _ _ Hnd E' (list_lookup_middle ring' [] b (length ring') eq_refl)). lia. }
    rewrite (next_progress tb0 K d ring' (ring' ++ [b]) b Hd) by (intros j c _ Hc; by apply lookup_app_l_Some).
    destruct (collect_behind d ring' b m p C Hd Hempty) as (p' & C' & E'). cbv zeta.
    rewrite (bind_some _ _ _ tt (m, set_tailBlock (Some b) p)) by done. cbn [currentTail at_progress]. rewrite E'.
    destruct (IH K (S d) (b :: ring') m p' C') as (K' & d' & ring'' & p'' & E2 & C'' & Hsum); [lia|lia|].
    exists K', d', ring'', p''. split; [exact E2|]. split; [done|lia].
Qed.
(** A new block from the pool is collected. *)
Lemma collect_new d ring b m m1 p blk :
  collecting d ring m p -> is_Some (blockIndex p) -> Z.of_nat (length ring) < pr_blockIndexSize p ->
  owns malloc m1 (b :: ring) others -> keeps (list_to_set ring ∪ others) m m1 -> b ∉ ring -> blocks m1 !! b = Some blk -> blank blk ->
  exists m' p', collecting (S d) (b :: ring) m' p' /\ keeps others m m' /\
    forall A (k : M (Memory (T := T) * t) A),
      (insert_block b;; write_entry (u64 (tb0 + Z.of_nat (S d) * BLOCK_SIZE));; advance_front;; k)
        (with_block b (Block.set_all_empty explicit_context blk) m1, p) = k (m', p').
Proof.
  intros [[Hh Hs Hnd Hl Ho Hm] Hi Et [old Eg] Hd Hold Hsf] Hraw Hroom Ho1 Hk1 Hbr Eb Hbl.
  pose proof (BLOCK_SIZE_bounds checked fits) as HB. pose proof (index_used _ _ _ _ _ Hi) as Hu.
  pose proof (size_pos checked fits _ _ _ _ _ Hi) as Hsp.
  destruct (insert_spec malloc m m1 others p ring b blk (Block.set_all_empty explicit_context blk) Hl Hnd Ho1 Hk1 Hbr Eb Et)
    as (m' & E & Hl' & Ho' & Hk' & [v Eb'] & Hr').
  set (p1 := set_slotsUsed _ (set_tailBlock (Some b) p)) in *.
  assert (index_ok p1 (b :: ring) (tb0 + Z.of_nat (S d) * BLOCK_SIZE) (pr_blockIndexFront p1) 1) as Hi1.
  { replace (tb0 + Z.of_nat (S d) * BLOCK_SIZE) with (tb0 + Z.of_nat d * BLOCK_SIZE + BLOCK_SIZE) by lia.
    eapply (index_push p); try done; [|cbn [length]; lia].
    unfold p1. cbn [pr_blockIndexSlotsUsed set_slotsUsed length]. rewrite Hu, wrap_small; [lia|unfold in_width; lia]. }
  destruct (index_write_spec p1 b ring _ Hi1 eq_refl) as (p' & Hsf' & Hi' & E').
  exists m', p'. split; [|split; [done|]].
  2:{ intros A k. rewrite (bind_some _ _ _ _ _ E). apply E'. }
  destruct (Block.set_all_empty_spec checked fits explicit_context blk) as [Ht Hrest].
  split; [split| | | | | |]; cbn [drop].
  - destruct Hh as [Hndd Hhb]. split; [done|]. intros j c Hj. destruct (Hhb j c Hj) as (cblk & Ec & Hc).
    rewrite lookup_drop in Hj. destruct (Hr' c cblk) as [w Ew]; [by eapply list_elem_of_lookup_2|done|].
    eexists. split; [exact Ew|]. by apply next_has.
  - intros [|j] c Hjd Hc.
    + injection Hc as <-. eexists. split; [exact Eb'|]. apply spent_next. split; [done|]. unfold blank. by rewrite (proj1 Hrest).
    + destruct (Hs j c) as (cblk & Ec & Hc'); [lia|done|].
      destruct (Hr' c cblk) as [w Ew]; [by eapply list_elem_of_lookup_2|done|]. eexists. split; [exact Ew|]. by apply spent_next.
  - by constructor.
  - done.
  - done.
  - by eapply bound_kept.
  - done.
  - destruct Hsf' as (_ & _ & _ & _ & ->). done.
  - by exists old.
  - cbn [length]. lia.
  - cbn [length]. lia.
  - destruct Hsf as (? & ? & ? & ? & ?), Hsf' as (? & ? & ? & ? & ?). unfold p1 in *. cbn in *. repeat split; cbn; congruence.
Qed.
(** The index and the count of allocations may change at any time. *)
Lemma collecting_index d ring m m1 p p1 :
  collecting d ring m p -> same_members p p1 -> index_ok p1 ring (tb0 + Z.of_nat d * BLOCK_SIZE) (pr_blockIndexFront p1 - 1) 0 ->
  m1 = m \/ m1 = set_mallocs (S (mallocs m)) m ->
  collecting d ring m1 p1 /\ keeps others m m1.
Proof.
  intros [Hb Hi Et Hg Hd Hold Hsf] Hsf1 Hi1 Hm1. pose proof Hb as [Hh Hs Hnd Hl Ho Hm].
  assert (tailBlock p1 = tailBlock p) as Et1 by apply Hsf1. split; [|destruct Hm1 as [-> | ->]; [done|apply keeps_malloc]].
  split; [|done|congruence|done|done|done|].
  - destruct Hm1 as [-> | ->]; [done|]. split; try done. by apply own_malloc.
  - destruct Hsf as (? & ? & ? & ? & ?), Hsf1 as (? & ? & ? & ? & ?). cbn in *. repeat split; cbn; congruence.
Qed.

Context (Hheadidx : headIndex p0 = u64 h).

(** The index has room for one more entry, or grows, or the blocks are refused. *)
Lemma index_ready_spec mode o d ring m p cur :
  collecting d ring m p ->
  exists ready m1 p1,
    (if bool_decide (blockIndex p = None) || (pr_blockIndexSlotsUsed p =? pr_blockIndexSize p) || full (headIndex p) cur then
       if full (headIndex p) cur then mret None
       else
         match mode with
         | CannotAlloc => mret None
         | CanAlloc =>
             ok ← new_block_index malloc (originalSlotsUsed o);
             mret (if (ok : bool) then Some (mkOrigin (startBlock o) (originalSlotsUsed o) (originalSlotsUsed o)) else None)
         end
     else mret (Some o)) (m, p) = Some (ready, (m1, p1)) /\ keeps others m m1 /\
    match ready with
    | None => full (headIndex p) cur = true \/ unavailable malloc mode m m1
    | Some o1 => startBlock o1 = startBlock o /\ collecting d ring m1 p1 /\
        is_Some (blockIndex p1) /\ Z.of_nat (length ring) < pr_blockIndexSize p1
    end.
Proof.
  intros C. pose proof C as [[Hh Hs Hnd Hl Ho Hm] Hi _ _ _ _ _]. pose proof (ring_small checked fits malloc _ _ _ Ho Hnd Hm) as Hsm.
  rewrite (index_used _ _ _ _ _ Hi). destruct (full (headIndex p) cur) eqn:Ef; [rewrite orb_true_r; exists None, m, p; do 2 (split; [done|]); by left|]. rewrite orb_false_r.
  destruct (bool_decide (blockIndex p = None) || (Z.of_nat (length ring) =? pr_blockIndexSize p)) eqn:Eg.
  - destruct mode; [|exists None, m, p; do 2 (split; [done|]); right; by left].
    assert (pr_blockIndexSize p * BLOCK_SIZE <= 2 ^ 63) as Hb.
    { apply orb_true_iff in Eg as [Ei|Es]; [|apply Z.eqb_eq in Es; lia].
      apply bool_decide_eq_true in Ei. pose proof (index_current _ _ _ _ _ Hi) as Hc. rewrite Ei in Hc. by destruct Hc as (_ & _ & ? & _). }
    destruct (new_block_index_spec checked fits malloc m p ring _ (originalSlotsUsed o) Hi Hb) as (p1 & E & Hsf & Hi1 & Hok).
    rewrite (bind_some _ _ _ _ _ E).
    destruct (collecting_index d ring m (set_mallocs (S (mallocs m)) m) p p1 C Hsf Hi1 ltac:(by right)) as [C1 Hk].
    do 3 eexists. split; [reflexivity|]. split; [done|].
    destruct (malloc (mallocs m)) eqn:Em; [by destruct Hok as (? & ? & _)|]. right. by apply unavailable_next; right.
  - apply orb_false_iff in Eg as [Ei Es]. apply Z.eqb_neq in Es. apply bool_decide_eq_false in Ei.
    pose proof (index_fits _ _ _ _ _ Hi). exists (Some o), m, p. split; [done|]. split; [done|]. split; [done|]. split; [done|].
    split; [by destruct (blockIndex p)|lia].
Qed.

Lemma add_blocks_in_ring fuel mode : forall K o d ring m p,
  collecting d ring m p -> Z.of_nat K * BLOCK_SIZE < 2 ^ 64 -> (K < fuel)%nat ->
  exists r m' p', add_blocks malloc raw_flags fuel mode o (progress_at K d ring) (m, p) = Some (r, (m', p')) /\ keeps others m m' /\
    match r with
    | None => (exists j, (d <= j < K + d)%nat /\ full (u64 h) (u64 (tb0 + Z.of_nat j * BLOCK_SIZE + BLOCK_SIZE)) = true) \/ unavailable malloc mode m m'
    | Some (o', g) => startBlock o' = startBlock o /\ exists ring', g = progress_at 0 (K + d) ring' /\ collecting (K + d) ring' m' p'
    end.
Proof.
  pose proof (BLOCK_SIZE_bounds checked fits) as HB.
  induction fuel as [|fuel IH]; intros K o d ring m p C HK Hfuel; [lia|]. cbn [add_blocks]. cbn [blockBaseDiff currentTail at_progress].
  destruct K as [|K]; [exists (Some (o, progress_at 0 d ring)), m, p; split; [done|]; split; [done|]; split; [done|by exists ring]|].
  rewrite more_blocks by done. cbv zeta. pose proof C as [[Hh Hs Hnd Hl Ho Hm] Hi Et Hg Hd Hold Hsf].
  pose proof (ring_small checked fits malloc _ _ _ Ho Hnd Hm) as Hsm.
  assert (headIndex p = u64 h) as Eh by (rewrite <- Hheadidx; apply Hsf).
  rewrite (bind_some _ _ _ (headIndex p) (m, p)) by done. rewrite wrap_add_l. rewrite (bind_some _ _ _ tt (m, p)).
  2:{ apply assert_true. rewrite Eh, less_near by lia. apply negb_true_iff, Z.ltb_ge. lia. }
  set (cur := u64 (tb0 + Z.of_nat d * BLOCK_SIZE + BLOCK_SIZE)).
  rewrite (bind_some _ _ _ (blockIndex p) (m, p)), (bind_some _ _ _ (pr_blockIndexSlotsUsed p) (m, p)),
    (bind_some _ _ _ (pr_blockIndexSize p) (m, p)) by done.
  destruct (index_ready_spec mode o d ring m p cur C) as (ready & m1 & p1 & E1 & Hk1 & Hready). rewrite (bind_some _ _ _ _ _ E1).
  destruct ready as [o1|].
  2:{ eexists None, m1, _. split; [reflexivity|]. split; [done|]. destruct Hready as [Hfull|]; [left|by right].
      exists d. split; [lia|]. by rewrite <- Eh. }
  destruct Hready as (Ho1 & C1 & Hraw & Hroom). pose proof (col_owns _ _ _ _ _ _ _ (cng_blocks _ _ _ _ _ _ _ _ _ _ C1)) as Howns1.
  destruct (own_requisition malloc raw_flags mode m1 ring others Howns1) as (nb & m2 & E2 & Hk2 & Hres).
  rewrite (bind_some _ _ _ _ _ (mem_some _ m1 p1 _ _ E2)). pose proof (keeping_trans _ _ _ _ Hk1 (keeps_rest _ _ _ _ Hk2)) as Hk12.
  destruct nb as [b|].
  2:{ eexists None, m2, _. split; [reflexivity|]. split; [done|]. right. destruct Hres as [_ Hwhy].
      eapply unavailable_between; [apply Hk1|by apply unavailable_next|done]. }
  destruct Hres as (Ho2 & Hbr & blk & Eb & Hbl). rewrite (bind_some _ _ _ _ _ (mem_store m2 p1 b blk _ Eb)).
  rewrite (next_progress tb0 K d ring ring b Hd) by done.
  destruct (collect_new d ring b m1 m2 p1 blk C1 Hraw Hroom Ho2 Hk2 Hbr Eb Hbl) as (m3 & p3 & C3 & Hk3 & E3).
  cbn [currentTail at_progress]. rewrite E3.
  destruct (IH K o1 (S d) (b :: ring) m3 p3 C3) as (r & m' & p' & E & Hk & Hr); [lia|lia|].
  exists r, m', p'. split; [exact E|]. split; [exact (keeping_trans _ _ _ _ Hk1 (keeping_trans _ _ _ _ Hk3 Hk))|].
  destruct r as [[o' g]|].
  2:{ destruct Hr as [(j & Hj & Ej)|Hr]; [left; exists j; split; [lia|done]|right].
      eapply unavailable_between; [|exact Hr|done]. etransitivity; [apply Hk1|apply Hk3]. }
  destruct Hr as (Hso & ring' & Eg & C'). split; [congruence|]. exists ring'.
  by replace (S K + d)%nat with (K + S d)%nat by lia.
Qed.
End Collect.

(** ** The blocks in use *)

(** The oldest of the blocks collected is reset. *)
Lemma reset_step m others ring d tb h f b :
  collected m others ring (S d) tb h f -> ring !! d = Some b -> h <= tb + BLOCK_SIZE -> (forall z, z < h \/ tb + BLOCK_SIZE <= z -> f z = None) ->
  exists blk, blocks m !! b = Some blk /\ let m' := with_block b (Block.reset_empty explicit_context blk) m in
    collected m' others ring d (tb + BLOCK_SIZE) h f /\ keeps others m m'.
Proof.
  intros [Hh Hs Hnd Hl Ho Hm] Hb Hhead Hf. destruct (Hs d b ltac:(lia) Hb) as (blk & Eb & _ & Hbl). exists blk. split; [done|].
  destruct (own_store malloc m ring others b (Block.reset_empty explicit_context blk) Ho) as [Ho' Hk]; [by eapply list_elem_of_lookup_2|].
  split; [|done].
  assert (forall j c, ring !! j = Some c -> j <> d -> b <> c) as Hne by (intros j c Hj Hjd ->; by apply Hjd, (NoDup_lookup ring j d c)).
  split; try done.
  - rewrite (drop_S _ b) by done. eapply hold_cons; [| |apply with_block_lookup|].
    + eapply hold_frame; [|exact Hh]. intros c [j Hj]%list_elem_of_lookup. rewrite lookup_drop in Hj.
      apply with_block_lookup_ne, (Hne _ _ Hj). lia.
    + intros [j Hj]%list_elem_of_lookup. rewrite lookup_drop in Hj. apply (Hne _ _ Hj); [lia|done].
    + apply (reset_has checked fits); [done|lia|]. intros z Hz. apply Hf. lia.
  - intros j c Hj Hc. destruct (Hs j c ltac:(lia) Hc) as (cblk & Ec & Hsp). exists cblk. split; [|done].
    rewrite with_block_lookup_ne; [done|]. apply (Hne _ _ Hc). lia.
  - eapply links_store; [done|apply (Block.reset_empty_spec checked fits)|done].
Qed.

Lemma reset_blocks_spec fuel others ring p h f : forall d m tb b,
  collected m others ring (S d) tb h f -> ring !! d = Some b -> tailBlock p = head ring -> (d < fuel)%nat ->
  h <= tb + BLOCK_SIZE -> (forall z, z < h \/ tb + BLOCK_SIZE <= z -> f z = None) ->
  exists m', reset_blocks fuel b (m, p) = Some (tt, (m', p)) /\
    collected m' others ring 0 (tb + Z.of_nat (S d) * BLOCK_SIZE) h f /\ keeps others m m'.
Proof.
  pose proof (BLOCK_SIZE_bounds checked fits) as HB.
  induction fuel as [|fuel IH]; intros d m tb b C Hb Et Hfuel Hhead Hf; [lia|]. cbn [reset_blocks].
  destruct (reset_step m others ring d tb h f b C Hb Hhead Hf) as (blk & Eb & C' & Hk). set (m1 := with_block _ _ m) in *.
  rewrite (bind_some _ _ _ _ _ (mem_store m p b blk _ Eb)), (bind_some _ _ _ (tailBlock p) (m1, p)) by done. rewrite Et.
  destruct d as [|d].
  - rewrite decide_True by (by destruct ring). exists m1. split; [done|]. split; [|done].
    by replace (tb + Z.of_nat 1 * BLOCK_SIZE) with (tb + BLOCK_SIZE) by lia.
  - rewrite decide_False.
    2:{ intros E. assert (ring !! O = Some b) as E' by (by destruct ring).
        pose proof (NoDup_lookup _ _ _ _ (col_nodup _ _ _ _ _ _ _ C) Hb E'). lia. }
    destruct (col_links _ _ _ _ _ _ _ C' (S d) b Hb) as (blk1 & Eb1 & En). cbn [successor] in En.
    pose proof (lookup_lt_Some _ _ _ Hb) as Hlt. destruct (lookup_lt_is_Some_2 ring d ltac:(lia)) as [c Hc].
    rewrite (bind_some _ _ _ _ _ (mem_load m1 p b blk1 Eb1)), En, Hc, (bind_some _ _ _ c (m1, p)) by done.
    destruct (IH d m1 (tb + BLOCK_SIZE) c C' Hc Et) as (m' & E & C'' & Hk'); [lia|lia|intros z Hz; apply Hf; lia|].
    exists m'. split; [exact E|]. split; [|by eapply keeping_trans].
    by replace (tb + Z.of_nat (S (S d)) * BLOCK_SIZE) with (tb + BLOCK_SIZE + Z.of_nat (S d) * BLOCK_SIZE) by lia.
Qed.

(** The blocks for more elements. *)
Lemma ring_blocks_spec mode m others p h xs ring tb n o K :
  rep m others p h xs ring tb -> let t := h + Z.of_nat (length xs) in
  QueueTraits.base (u64 (t + n - 1)) = u64 (tb + Z.of_nat K * BLOCK_SIZE) -> Z.of_nat K * BLOCK_SIZE < 2 ^ 64 ->
  exists r m' p', get_blocks malloc raw_flags noexcept_ctor mode n o (m, p) = Some (r, (m', p')) /\ keeps others m m' /\
    match r with
    | None => (exists j, (j < K)%nat /\ full (u64 h) (u64 (tb + Z.of_nat j * BLOCK_SIZE + BLOCK_SIZE)) = true) \/ unavailable malloc mode m m'
    | Some (o', first) => startBlock o' = startBlock o /\ exists ring', blocks_ok malloc m' others ring' (tb + Z.of_nat K * BLOCK_SIZE) h (elems xs h) /\
        index_ok p' ring' (tb + Z.of_nat K * BLOCK_SIZE) (pr_blockIndexFront p' - 1) 0 /\
        (first = None \/ noexcept_ctor = true -> published p') /\ (K <> O -> is_Some (blockIndex p')) /\
        tailBlock p' = head ring' /\ same_members (set_tailBlock (tailBlock p') p) p' /\
        first = match K with O => None | S k => ring' !! k end /\ (K <= length ring')%nat /\ (K = O -> ring' = ring) /\
        (exists old, ring = drop K ring' ++ old) /\ tb + Z.of_nat K * BLOCK_SIZE - Z.of_nat (length ring') * BLOCK_SIZE + BLOCK_SIZE <= h
    end.
Proof.
  intros R t Ebase HK. pose proof (BLOCK_SIZE_bounds checked fits) as HB. pose proof (rep_range _ _ _ _ _ _ _ _ R) as Hr.
  pose proof (rep_blocks _ _ _ _ _ _ _ _ R) as Hb. pose proof (ok_tb _ _ _ _ _ _ _ Hb) as Htb. pose proof (rep_oldest _ _ _ _ _ _ _ _ R) as Hold.
  unfold get_blocks. rewrite (bind_some _ _ _ (tailIndex p) (m, p)) by done. rewrite (rep_tail _ _ _ _ _ _ _ _ R). fold t. cbv zeta.
  rewrite wrap_sub_l, (base_in checked fits tb (t - 1)) by (done || (unfold t; lia)).
  rewrite <- (wrap_sub_l _ (u64 t + n)), (wrap_add_l _ t n), wrap_sub_l, Ebase, wrap_sub_l, wrap_sub_r.
  replace (tb + Z.of_nat K * BLOCK_SIZE - tb) with (Z.of_nat K * BLOCK_SIZE) by lia. cbn [blockBaseDiff].
  destruct K as [|K].
  { exists (Some (o, None)), m, p. split; [done|]. split; [done|]. split; [done|]. exists ring. rewrite Z.mul_0_l, Z.add_0_r, drop_0.
    split; [done|]. split; [apply R|]. split; [intros _; apply R|]. split; [done|]. split; [apply R|]. split; [by destruct p|].
    split; [done|]. split; [lia|]. split; [done|]. split; [exists []; by rewrite app_nil_r|lia]. }
  rewrite more_blocks by done. set (fuel := S (Z.to_nat (u64 (Z.of_nat (S K) * BLOCK_SIZE) / BLOCK_SIZE))).
  assert (fuel = S (S K)) as Efuel.
  { unfold fuel. rewrite wrap_small by (unfold in_width; lia). rewrite Z.div_mul by lia. by rewrite Nat2Z.id. }
  assert (h <= tb + BLOCK_SIZE) as Hhead by lia.
  assert (forall z, z < h \/ tb + BLOCK_SIZE <= z -> elems xs h z = None) as Hnone by (intros z Hz; apply elems_none; lia).
  assert (collecting others p ring tb h (elems xs h) 0 ring m p) as C.
  { split; rewrite ?Z.mul_0_l, ?Z.add_0_r; [by apply collected_none|apply R|apply R|exists []; by rewrite app_nil_r|lia|lia|by destruct p]. }
  assert (mkProgress (u64 (Z.of_nat (S K) * BLOCK_SIZE)) (u64 tb) None = at_progress tb (S K) 0 ring) as ->
    by (unfold at_progress; by rewrite Z.mul_0_l, Z.add_0_r).
  destruct (reuse_blocks_spec others p ring tb h (elems xs h) Hhead Hnone fuel (S K) O ring m p C HK)
    as (K1 & d1 & ring1 & p1 & E1 & C1 & Hsum); [lia|]. rewrite (bind_some _ _ _ _ _ E1).
  destruct (add_blocks_in_ring others p ring tb h (elems xs h) Hhead (rep_head _ _ _ _ _ _ _ _ R) fuel mode K1 o d1 ring1 m p1 C1)
    as (r & m2 & p2 & E2 & Hk2 & Hres); [nia|lia|]. rewrite (bind_some _ _ _ _ _ E2).
  destruct r as [[o' g]|].
  2:{ exists None, m2, p2. split; [done|]. split; [done|]. destruct Hres as [(j & Hj & Ej)|?]; [left; exists j; split; [lia|done]|by right]. }
  destruct Hres as (Hso & ring' & -> & C2). replace (K1 + d1)%nat with (S K) in * by lia. cbn [firstAllocated at_progress].
  pose proof C2 as [Hcol Hi2 Et2 [old Eold] Hlen Hold2 Hsf2]. destruct (lookup_lt_is_Some_2 ring' K ltac:(lia)) as [b Hbk].
  rewrite (bind_some _ _ _ _ _ (the_some _ _ _ Hbk)).
  destruct (reset_blocks_spec fuel others ring' p2 h (elems xs h) K m2 tb b Hcol Hbk Et2 ltac:(lia) Hhead Hnone) as (m3 & E3 & C3 & Hk3).
  rewrite (bind_some _ _ _ _ _ E3).
  assert (is_Some (blockIndex p2)) as Hraw by (eapply index_raw; [exact Hi2|by eapply list_elem_of_lookup_2]).
  assert (exists p3, (if noexcept_ctor then publish_last else mret tt) (m3, p2) = Some (tt, (m3, p3)) /\ same_members p2 p3 /\
    index_ok p3 ring' (tb + Z.of_nat (S K) * BLOCK_SIZE) (pr_blockIndexFront p3 - 1) 0 /\ (noexcept_ctor = true -> published p3))
    as (p3 & E4 & Hsf3 & Hi3 & Hp3).
  { destruct noexcept_ctor; [|by exists p2].
    destruct (publish_last_spec p2 ring' _ Hi2 Hraw) as (p3 & E4 & ? & ? & ?). exists p3. by rewrite E4. }
  rewrite (bind_some _ _ _ _ _ E4). do 3 eexists. split; [reflexivity|]. split; [by eapply keeping_trans|]. split; [done|]. exists ring'.
  split; [apply collected_ready; [done|]; rewrite Z_mod_plus_full; done|]. split; [done|].
  split; [intros [?|?]; [congruence|by apply Hp3]|]. split; [intros _; eapply index_raw; [exact Hi3|by eapply list_elem_of_lookup_2]|].
  split; [destruct Hsf3 as (_ & _ & _ & _ & ->); done|].
  split; [destruct Hsf2 as (? & ? & ? & ? & ?), Hsf3 as (? & ? & ? & ? & ?); cbn in *; repeat split; cbn; congruence|].
  split; [done|]. split; [lia|]. split; [done|]. split; [by exists old|lia].
Qed.
(** ** The elements *)

(** The elements fill the newest [c] blocks of the ring, none of which throws. *)
Lemma fill_ring m others q h xs ring tb c b l ys fuel :
  blocks_ok malloc m others ring tb h (elems xs h) -> reverse (firstn c ring) = b :: l -> tailBlock q = Some b ->
  let t := h + Z.of_nat (length xs) in let n := Z.of_nat (length ys) in let b0 := tb - Z.of_nat (length l) * BLOCK_SIZE in
  b0 <= t < b0 + BLOCK_SIZE -> 0 < n < 2 ^ 63 -> tb < t + n <= tb + BLOCK_SIZE -> (length l < fuel)%nat ->
  Forall (fun y => throws noexcept_ctor ctor_throws y = false) ys ->
  exists m', fill_blocks noexcept_ctor ctor_throws fuel (head ring) (u64 t) (u64 (t + n)) ys (m, q) =
      Some (None, (m', set_tailBlock (head ring) q)) /\ keeps others m m' /\ blocks_ok malloc m' others ring tb h (elems (xs ++ ys) h).
Proof.
  intros [Hh Hl Ho Htb Hm] Ec Etb t n b0 Ht Hn Htn Hfuel Hys.
  assert (newest_of (b :: l) ring) as Hnew.
  { replace ring with (reverse (b :: l) ++ drop c ring) by (by rewrite <- Ec, reverse_involutive, take_drop). apply newest_reverse. }
  assert (head ring = last (b :: l)) as Ehead by (rewrite <- Ec, last_reverse; destruct ring, c; done).
  destruct (fill_chain_spec (ctx := explicit_context) checked fits noexcept_ctor ctor_throws tailBlock set_tailBlock ltac:(done) ltac:(done) ltac:(by intros []) l fuel b m
    q (elems xs h) t ys (head ring) ring tb h) as (k & m' & a & j & E & Hk & Htouch & Hh' & Hall & Hthrow & Ha & _ & Hlast); try done.
  - rewrite <- Ec. by apply links_linked.
  - intros z Hz. apply elems_none. unfold t in Hz. lia.
  - assert (k = length ys) as ->.
    { destruct (decide (k = length ys)) as [|Hne]; [done|]. destruct Hthrow as (y & Ey & Hy); [lia|].
      rewrite Forall_lookup in Hys. by rewrite (Hys _ _ Ey) in Hy. }
    rewrite firstn_all in Hh'. rewrite decide_True in E by done. rewrite (Hlast eq_refl) in Ha.
    assert (Some a = head ring) as Ea by (rewrite Ehead, last_lookup, <- Ha; done).
    exists m'. split; [by rewrite <- Ea in *|].
    destruct (own_touched malloc ring m m' ring others Ho (fun b H => H) Htouch) as [Ho' Hkeep]. split; [done|].
    split; [|by eapply links_touched|done|done|by eapply bound_kept].
    eapply (hold_ext checked fits); [|exact Hh']. intros z _. symmetry. apply elems_over.
Qed.

Lemma index_tail v p ring tb : index_ok p ring tb (pr_blockIndexFront p - 1) 0 -> index_ok (set_tailBlock v p) ring tb (pr_blockIndexFront p - 1) 0.
Proof. intros []. by split. Qed.

(** The block in which the first of the new elements goes. *)
Lemma first_place m others p h xs ring tb K ring' n :
  rep m others p h xs ring tb -> let t := h + Z.of_nat (length xs) in let tb' := tb + Z.of_nat K * BLOCK_SIZE in
  (K <= length ring')%nat -> (exists old, ring = drop K ring' ++ old) -> tb' - Z.of_nat (length ring') * BLOCK_SIZE + BLOCK_SIZE <= h ->
  0 < n -> t + n <= tb' + BLOCK_SIZE -> let first := match K with O => None | S k => ring' !! k end in
  exists k b, (if (t =? tb + BLOCK_SIZE) && bool_decide (first <> None) then first else tailBlock p) = Some b /\ ring' !! k = Some b /\
    ((t =? tb + BLOCK_SIZE) = true -> first <> None) /\
    (k <= K)%nat /\ tb' - Z.of_nat k * BLOCK_SIZE <= t < tb' - Z.of_nat k * BLOCK_SIZE + BLOCK_SIZE.
Proof.
  intros R t tb' Hlen [old Eold] Hold Hn Htn first. pose proof (BLOCK_SIZE_bounds checked fits) as HB.
  pose proof (rep_range _ _ _ _ _ _ _ _ R) as Hr. fold t in Hr. destruct (Z.eqb_spec t (tb + BLOCK_SIZE)) as [Et|Et].
  - destruct K as [|k]; [unfold tb' in *; lia|]. destruct (lookup_lt_is_Some_2 ring' k ltac:(lia)) as [b Eb].
    assert (first = Some b) as -> by done. exists k, b. rewrite bool_decide_eq_true_2 by done. split; [done|]. split; [done|].
    split; [done|]. split; [lia|]. unfold tb'. lia.
  - destruct (lookup_lt_is_Some_2 ring' K) as [b Eb].
    { assert (Z.of_nat K < Z.of_nat (length ring')); [|lia]. unfold tb' in *. nia. }
    exists K, b. rewrite (rep_tailBlock _ _ _ _ _ _ _ _ R), Eold, (drop_S _ b) by done. split; [done|]. split; [done|].
    split; [done|]. split; [lia|]. unfold tb'. lia.
Qed.

Lemma bulk_fill m m1 others p p1 h xs ring tb K ring' ys :
  rep m others p h xs ring tb -> let t := h + Z.of_nat (length xs) in let n := Z.of_nat (length ys) in let tb' := tb + Z.of_nat K * BLOCK_SIZE in
  blocks_ok malloc m1 others ring' tb' h (elems xs h) -> (K <= length ring')%nat -> (K = O -> ring' = ring) ->
  (exists old, ring = drop K ring' ++ old) -> tb' - Z.of_nat (length ring') * BLOCK_SIZE + BLOCK_SIZE <= h ->
  tb' < t + n <= tb' + BLOCK_SIZE -> Z.of_nat K <= n / BLOCK_SIZE + 1 ->
  Forall (fun y => throws noexcept_ctor ctor_throws y = false) ys -> let first := match K with O => None | S k => ring' !! k end in
  exists m2, (negb (t =? tb + BLOCK_SIZE) || bool_decide (first <> None) || (n =? 0)) = true /\
    fill_blocks noexcept_ctor ctor_throws (S (Z.to_nat (n / BLOCK_SIZE + 1))) (head ring') (u64 t) (u64 (t + n)) ys
      (m1, set_tailBlock (if (t =? tb + BLOCK_SIZE) && bool_decide (first <> None) then first else tailBlock p) p1) =
      Some (None, (m2, set_tailBlock (head ring') p1)) /\ keeps others m1 m2 /\ blocks_ok malloc m2 others ring' tb' h (elems (xs ++ ys) h).
Proof.
  intros R t n tb' Hb Hlen HK0 Hold Hold' Htn Hfuel Hys first. pose proof (BLOCK_SIZE_bounds checked fits) as HB.
  pose proof (rep_range _ _ _ _ _ _ _ _ R) as Hr. fold t in Hr.
  destruct (decide (n = 0)) as [En|Hn].
  - assert (K = O) as -> by (unfold tb' in *; nia). rewrite (HK0 eq_refl) in *. assert (ys = []) as -> by (destruct ys; [done|unfold n in En; cbn in En; lia]).
    exists m1. rewrite En, Z.add_0_r, app_nil_r. split; [by rewrite orb_true_r|]. split; [|done].
    rewrite andb_false_r, (rep_tailBlock _ _ _ _ _ _ _ _ R).
    exact (fill_chain_nil checked fits noexcept_ctor ctor_throws tailBlock set_tailBlock _ m1 (set_tailBlock (head ring) p1) t).
  - destruct (first_place m others p h xs ring tb K ring' n R Hlen Hold Hold') as (k & b & Ef & Ek & Hfirst & Hk & Hbk); [lia|fold t; fold tb'; lia|].
    fold first in Ef, Hfirst. fold t in Ef, Hfirst, Hbk. fold tb' in Hbk. rewrite Ef. pose proof (lookup_lt_Some _ _ _ Ek) as Hlt.
    assert (length (reverse (firstn k ring')) = k) as El by (rewrite length_reverse, length_take; lia).
    pose proof (ring_small checked fits malloc _ _ _ (ok_owns _ _ _ _ _ _ _ Hb) (hold_nodup _ _ _ _ _ (ok_hold _ _ _ _ _ _ _ Hb)) (ok_memory _ _ _ _ _ _ _ Hb)) as Hsm.
    destruct (fill_ring m1 others (set_tailBlock (Some b) p1) h xs ring' tb' (S k) b (reverse (firstn k ring')) ys (S (Z.to_nat (n / BLOCK_SIZE + 1))) Hb)
      as (m2 & E & Hkp & Hb2); try done; rewrite ?El; fold t; fold n; try lia.
    { by rewrite (take_S_r _ _ b), reverse_snoc by done. }
    exists m2. split; [|done]. destruct (t =? tb + BLOCK_SIZE); [|done]. cbn [negb orb]. rewrite bool_decide_eq_true_2 by (by apply Hfirst). done.
Qed.

Lemma explicit_enqueue_bulk mode m others p h xs ring tb ys :
  rep m others p h xs ring tb -> Z.of_nat (length ys) <= 2 ^ 63 -> Forall (fun y => throws noexcept_ctor ctor_throws y = false) ys ->
  exists ok m' p', enqueue_bulk malloc raw_flags noexcept_ctor ctor_throws mode ys (m, p) = Some (Returned ok, (m', p')) /\ keeps others m m' /\
    if (ok : bool) then exists ring' tb', rep m' others p' h (xs ++ ys) ring' tb'
    else (exists i, 0 <= i < Z.of_nat (length ys) /\ full (headIndex p) (u64 (tailIndex p + i)) = true) \/ unavailable malloc mode m m'.
Proof.
  intros R Hlen Hys. pose proof (BLOCK_SIZE_bounds checked fits) as HB. pose proof (rep_range _ _ _ _ _ _ _ _ R) as Hr.
  pose proof (boundary checked fits malloc _ _ _ _ _ _ _ R) as Hbd. pose proof (ok_tb _ _ _ _ _ _ _ (rep_blocks _ _ _ _ _ _ _ _ R)) as Htb.
  set (t := h + Z.of_nat (length xs)) in *. set (n := Z.of_nat (length ys)) in *.
  destruct (blocks_needed checked fits tb t n Htb Hr ltac:(lia)) as (K & Ebase & HK & Hfuel).
  unfold enqueue_bulk. rewrite (bind_some _ _ _ (tailIndex p) (m, p)), (bind_some _ _ _ (tailBlock p) (m, p)),
    (bind_some _ _ _ (pr_blockIndexFront p) (m, p)), (bind_some _ _ _ (pr_blockIndexSlotsUsed p) (m, p)) by done. fold n. cbv zeta.
  destruct (ring_blocks_spec mode m others p h xs ring tb n (mkOrigin (tailBlock p) (pr_blockIndexFront p) (pr_blockIndexSlotsUsed p)) K R Ebase)
    as (r & m1 & p1 & E & Hk & Hres); [lia|]. rewrite (bind_some _ _ _ _ _ E). destruct r as [[o first]|].
  2:{ exists false, m1, p1. split; [done|]. split; [done|]. destruct Hres as [(j & Hj & Ej)|?]; [left|by right].
      exists (tb + Z.of_nat j * BLOCK_SIZE + BLOCK_SIZE - t). split; [nia|].
      rewrite (rep_head _ _ _ _ _ _ _ _ R), (rep_tail _ _ _ _ _ _ _ _ R). fold t. rewrite wrap_add_l.
      by replace (t + (tb + Z.of_nat j * BLOCK_SIZE + BLOCK_SIZE - t)) with (tb + Z.of_nat j * BLOCK_SIZE + BLOCK_SIZE) by lia. }
  destruct Hres as (_ & ring' & Hb & Hi & Hpub & Hraw & Et1 & Hsf & Efirst & Hlen' & HK0 & Hold & Hold').
  rewrite (bind_some _ _ _ (tailBlock p1) (m1, p1)) by done. rewrite Hbd, Et1.
  destruct (bulk_fill m m1 others p p1 h xs ring tb K ring' ys R Hb Hlen' HK0 Hold Hold' HK Hfuel Hys) as (m2 & Eassert & E2 & Hk2 & Hb2).
  rewrite <- Efirst in *. fold t n in Eassert, E2. rewrite (bind_some _ _ _ tt (m1, p1)) by (by apply assert_true).
  rewrite (bind_some _ _ _ tt (m1, set_tailBlock (if (t =? tb + BLOCK_SIZE) && bool_decide (first <> None) then first else tailBlock p) p1)) by done.
  rewrite (rep_tail _ _ _ _ _ _ _ _ R). fold t. rewrite wrap_add_l. rewrite (bind_some _ _ _ _ _ E2).
  set (p2 := set_tailBlock (head ring') p1). pose proof (index_tail (head ring') p1 ring' _ Hi) as Hi2. fold p2 in Hi2.
  assert (exists p3, (if negb noexcept_ctor && bool_decide (first <> None) then publish_last else mret tt) (m2, p2) = Some (tt, (m2, p3)) /\
    same_members p2 p3 /\ index_ok p3 ring' (tb + Z.of_nat K * BLOCK_SIZE) (pr_blockIndexFront p3 - 1) 0 /\ published p3) as (p3 & E3 & Hsf3 & Hi3 & Hp3).
  { destruct (negb noexcept_ctor && bool_decide (first <> None)) eqn:Ep.
    - apply andb_true_iff in Ep as [_ Ef%bool_decide_eq_true].
      destruct (publish_last_spec p2 ring' _ Hi2) as (p3 & E3 & ? & ? & ?); [apply Hraw; intros ->; done|]. by exists p3.
    - exists p2. split; [done|]. split; [done|]. split; [done|]. apply Hpub.
      apply andb_false_iff in Ep as [Ep|Ef]; [right; by apply negb_false_iff in Ep|left]. apply bool_decide_eq_false in Ef.
      by destruct first; [destruct Ef|]. }
  rewrite (bind_some _ _ _ _ _ E3). exists true, m2, (set_tailIndex (u64 (t + n)) p3). split; [done|]. split; [by eapply keeping_trans|].
  exists ring', (tb + Z.of_nat K * BLOCK_SIZE). destruct Hsf as (Et & Eh & Eo & Ec & _), Hsf3 as (Et3 & Eh3 & Eo3 & Ec3 & Eb3).
  cbn in Et, Eh, Eo, Ec, Et3, Eh3, Eo3, Ec3, Eb3.
  split; cbn; rewrite ?Eh3, ?Eo3, ?Ec3, ?Eb3, ?Eh, ?Eo, ?Ec, ?length_app; try apply R; try done.
  - f_equal. unfold t, n. lia.
  - unfold t, n in HK. lia.
  - destruct Hi3. by split.
Qed.
(** ** Taking many elements *)

Lemma take_blocks_ring q n hdr ring tb others fuel :
  index_ok q ring tb (pr_blockIndexFront q - 1) 0 -> blockIndex q = Some n -> headers q !! n = Some hdr ->
  forall j b m i last f, blocks_ok malloc m others ring tb i f -> ring !! j = Some b ->
  let b0 := tb - Z.of_nat j * BLOCK_SIZE in b0 <= i < b0 + BLOCK_SIZE -> i <= last <= tb + BLOCK_SIZE -> last - i < 2 ^ 63 ->
  (0 < fuel)%nat -> last <= b0 + Z.of_nat fuel * BLOCK_SIZE -> (forall z, i <= z < last -> is_Some (f z)) ->
  exists ys m', take_blocks fuel hdr ((pr_blockIndexFront q - 1 - Z.of_nat j) `mod` pr_blockIndexSize q) (u64 i) (u64 last) (m, q) =
      Some (ys, (m', q)) /\ keeps others m m' /\ blocks_ok malloc m' others ring tb last (without f i last) /\
    Z.of_nat (length ys) = last - i /\ (forall k, (k < length ys)%nat -> ys !! k = f (i + Z.of_nat k)).
Proof.
  intros Hi En Eh. pose proof (BLOCK_SIZE_bounds checked fits) as HB. pose proof (index_current _ _ _ _ _ Hi) as Hc. rewrite En in Hc.
  destruct Hc as (_ & hdr' & Eh' & Esz & _ & Hw). rewrite Eh in Eh'. injection Eh' as <-.
  induction fuel as [|fuel IH]; intros j b m i last f Hb Hj b0 Hib Hl Hd Hpos Hfuel Hf; [lia|]. cbn [take_blocks].
  assert (b0 `mod` BLOCK_SIZE = 0) as Hb0 by apply back_mod, Hb.
  rewrite (stop_index_spec checked fits b0) by (done || lia). set (stop := Z.min (b0 + BLOCK_SIZE) last). cbv zeta.
  rewrite (bind_some _ _ _ b (m, q)) by (unfold entry_block; by rewrite (Hw j b ltac:(lia) Hj)).
  destruct (hold_block _ _ _ _ _ (ok_hold _ _ _ _ _ _ _ Hb) _ _ Hj) as (blk & Eb & Hblk). fold b0 in Hblk.
  assert (place i = i - b0) as Hp by (apply (place_in checked fits); done).
  destruct (take_block_spec checked fits (Z.to_nat BLOCK_SIZE) m q b blk b0 i f i stop Eb Hblk Hb0) as (ys & blk1 & E1 & Hblk1 & En1 & Hlen & Hys);
    [lia|lia|lia|intros z Hz; apply Hf; lia|].
  destruct (set_many_has checked fits blk1 b0 i stop _ Hblk1) as (blk2 & Em & Hblk2 & En2); [lia|lia|lia|done|].
  rewrite (bind_some _ _ _ _ _ E1), (bind_some _ _ _ _ _ (mem_load (with_block b blk1 m) q b blk1 (with_block_lookup m b blk1))).
  rewrite wrap_sub_l, wrap_sub_r, (wrap_small 64 (stop - i)) by (unfold in_width; lia).
  rewrite (proj2 (marks_wrap checked fits (ctx := explicit_context) i blk1)), (bind_some _ _ _ _ _ (the_some _ _ _ Em)). cbn [snd].
  rewrite (bind_some _ _ _ _ _ (mem_store (with_block b blk1 m) q b blk1 _ (with_block_lookup m b blk1))), with_block_twice.
  destruct (blocks_mark checked fits malloc m others ring tb i stop f (without f i stop) j b blk blk2 Hb Hj Eb Hblk2) as [Hb1 Hk1];
    [congruence|fold b0; lia|fold b0; lia|fold b0; intros z Hz; unfold without; rewrite decide_False; [done|lia]|].
  rewrite wrap_eqb by lia. destruct (Z.eqb_spec stop last) as [Es|Hne].
  - rewrite Es in *. by exists ys, (with_block b blk2 m).
  - destruct j as [|j]; [unfold b0 in *; lia|]. pose proof (lookup_lt_Some _ _ _ Hj) as Hlt.
    destruct (lookup_lt_is_Some_2 ring j ltac:(lia)) as [b' Hj']. assert (stop = tb - Z.of_nat j * BLOCK_SIZE) as Estop by (unfold b0 in *; lia).
    destruct (IH j b' (with_block b blk2 m) stop last (without f i stop) Hb1 Hj') as (zs & m' & E2 & Hk2 & Hb2 & Hlen2 & Hzs);
      rewrite <- ?Estop; try lia.
    { intros z Hz. unfold without. rewrite decide_False by lia. apply Hf. lia. }
    replace (u64 (_ + 1) .& u64 (size hdr - 1)) with ((pr_blockIndexFront q - 1 - Z.of_nat j) `mod` pr_blockIndexSize q).
    2:{ rewrite Esz. erewrite (mask_size checked fits) by exact Hi. rewrite Zplus_mod_idemp_l. f_equal. lia. }
    rewrite (bind_some _ _ _ _ _ E2). exists (ys ++ zs), m'. split; [done|]. split; [by eapply keeping_trans|]. split; [|split].
    + destruct Hb2 as [Hh Hl2 Ho Htb Hm]. split; [|done..]. eapply (hold_ext checked fits); [|exact Hh]. intros z _. apply without_without. lia.
    + rewrite length_app. lia.
    + apply elements_app; [done|]. intros k Hk. rewrite Hzs by done. rewrite Hlen. replace (i + (stop - i)) with stop by lia.
      unfold without. by rewrite decide_False by lia.
Qed.

Lemma explicit_dequeue_bulk m others p h xs ring tb max :
  rep m others p h xs ring tb -> 0 <= max ->
  let n := Z.to_nat max in
  exists m' p', dequeue_bulk max (m, p) = Some (firstn n xs, (m', p')) /\ keeps others m m' /\
    rep m' others p' (h + Z.of_nat (length (firstn n xs))) (drop n xs) ring tb.
Proof.
  intros R Hmax n. pose proof (rep_range _ _ _ _ _ _ _ _ R) as Hr. pose proof (BLOCK_SIZE_bounds checked fits) as HB.
  pose proof (ring_rep_small checked fits malloc _ _ _ _ _ _ _ R) as [_ Hsm]. set (len := Z.of_nat (length xs)) in *.
  unfold dequeue_bulk. rewrite (bind_some _ _ _ (tailIndex p) (m, p)), (bind_some _ _ _ (dequeueOvercommit p) (m, p)),
    (bind_some _ _ _ (dequeueOptimisticCount p) (m, p)) by done.
  rewrite (rep_tail _ _ _ _ _ _ _ _ R), (rep_optimistic _ _ _ _ _ _ _ _ R), (rep_overcommit _ _ _ _ _ _ _ _ R). fold len.
  rewrite Z.sub_0_r, wrap_wrap by lia. rewrite wrap_sub_l, wrap_sub_r. replace (h + len - h) with len by lia.
  rewrite (wrap_small 64 len) by (unfold in_width; lia).
  pose proof (less_near 0 len ltac:(lia)) as Hless. rewrite (wrap_small 64 len) in Hless by (unfold in_width; lia).
  change (u64 0) with 0 in Hless. rewrite Hless. destruct (Z.ltb_spec 0 len) as [Hpos|Hnil].
  2:{ assert (xs = []) as -> by (destruct xs; [done|unfold len in *; cbn in *; lia]). exists m, p. rewrite take_nil, drop_nil.
      split; [done|]. split; [done|]. by rewrite Z.add_0_r. }
  set (a := Z.of_nat (length (firstn n xs))). assert (0 <= a <= len) as Ha by (unfold a, len; rewrite length_take; lia).
  assert ((if len <? max then len else max) = a) as -> by (unfold a, len, n; rewrite length_take; case_match; lia).
  cbv zeta. rewrite (bind_some _ _ _ (dequeueOptimisticCount p) (m, p)) by done. rewrite (rep_optimistic _ _ _ _ _ _ _ _ R), wrap_add_l.
  set (p1 := set_optimistic (u64 (h + a)) p). rewrite (bind_some _ _ _ tt (m, p1)) by done.
  rewrite (bind_some _ _ _ tt (m, p1)) by (apply assert_true, Z.leb_le, (wrap_range 64 h); lia).
  rewrite (bind_some _ _ _ (tailIndex p) (m, p1)) by done. rewrite (rep_tail _ _ _ _ _ _ _ _ R). fold len.
  rewrite Z.sub_0_r, wrap_wrap by lia. rewrite (wrap_sub_l _ (h + len)), (wrap_sub_r _ (h + len)). replace (h + len - h) with len by lia.
  rewrite (wrap_small 64 len) by (unfold in_width; lia). rewrite Hless.
  assert ((if a <? len then a else len) = a) as -> by (case_match; lia). rewrite Z.ltb_irrefl.
  rewrite (bind_some _ _ _ tt (m, p1)) by done. rewrite (bind_some _ _ _ (headIndex p) (m, p1)) by done.
  rewrite (rep_head _ _ _ _ _ _ _ _ R), wrap_add_l. set (p2 := set_headIndex (u64 (h + a)) p1). rewrite (bind_some _ _ _ tt (m, p2)) by done.
  destruct (locate_head checked fits malloc m others p h xs ring tb p2 R ltac:(intros ->; cbn in *; lia) eq_refl eq_refl)
    as (k & hdr & j & b & slot & Ec & En & Eh & El & _ & Hj & -> & Hh).
  rewrite (bind_some _ _ _ _ _ Ec), (bind_some _ _ _ _ _ (the_some _ _ _ El)). cbn [snd].
  assert (index_ok p2 ring tb (pr_blockIndexFront p2 - 1) 0) as Hi by (destruct (rep_index _ _ _ _ _ _ _ _ R); by split).
  assert (0 < BLOCK_SIZE) as HB0 by lia. pose proof (Z_div_mod_eq_full a BLOCK_SIZE) as Ed. pose proof (Z.mod_pos_bound a BLOCK_SIZE HB0) as Hm.
  assert (0 <= a / BLOCK_SIZE) as Hdiv by (apply Z.div_pos; lia).
  destruct (take_blocks_ring p2 k hdr ring tb others (S (Z.to_nat (a / BLOCK_SIZE + 1))) Hi En Eh j b m h (h + a) (elems xs h)
    (rep_blocks _ _ _ _ _ _ _ _ R) Hj) as (ys & m' & E & Hk & Hb & Hl & Hys); try done; try lia.
  { intros z Hz. unfold elems, at_z. rewrite (proj2 (Z.ltb_ge _ _)) by lia. apply lookup_lt_is_Some. lia. }
  change (pr_blockIndexFront p2) with (pr_blockIndexFront p) in E. change (pr_blockIndexSize p2) with (pr_blockIndexSize p) in E.
  rewrite E. replace ys with (firstn n xs) by (symmetry; eapply taken_elems; [lia|exact Hys]).
  exists m', p2. split; [done|]. split; [done|]. rewrite <- drop_taken. unfold p2, p1, a.
  apply (rep_taken malloc m m' others p h xs ring tb _ R); [rewrite length_take; lia|].
  destruct Hb as [Hh' Hl' Ho' Htb' Hm']. split; [|done..]. eapply (hold_ext checked fits); [|exact Hh'].
  intros z _. symmetry. apply elems_without. rewrite length_take. lia.
Qed.
End Bulk.
