(* ===== verification/ExplicitLife.v ===== *)
(** * The construction and the destruction of explicit producers

    The constructor makes the first block index as large as the pool of blocks
    needs. The destructor finds the block that is partly dequeued by the block index,
    destroys the elements that are left, block after block, gives back the
    blocks of the pool, deletes the others, and frees every block index. *)
From S2P Require Import Prelude.
From S2P Require Import QueueUtils.
From S2P Require Import QueueTraits.
From S2P Require Import QueueBlock.
From S2P Require Import BlockPool.
From S2P Require Import ProducerMemory.
From S2P Require Import ExplicitProducer.
From S2P Require Import BlockContents.
From S2P Require Import BlockMemory.
From S2P Require Import ExplicitRing.
From S2P Require Import ExplicitIndex.
From S2P Require Import ExplicitSpec.
#[local] Open Scope Z_scope.
Import ExplicitProducer.

Section Life.
Context {tr : Traits} (checked : static_asserts = true) (fits : BLOCK_SIZE <= 2 ^ 62) {T : Type}.
Context (malloc : nat -> bool) (raw_flags : nat -> list bool).
Implicit Types (m : Memory (T := T)) (p : t) (ring : list nat) (xs : list T) (others : gset nat) (f : Z -> option T).
Abbreviation hold := (blocks_hold explicit_context).
Abbreviation rep := (rep malloc).

(** ** Construction *)

Section Construction.
Context (first_fits : EXPLICIT_INITIAL_INDEX_SIZE * BLOCK_SIZE <= 2 ^ 64).

Lemma initial_size_spec pool :
  0 <= pool -> pool * BLOCK_SIZE < 2 ^ 63 ->
  exists k, 0 <= k /\ initial_size pool = 2 ^ k /\ initial_size pool * BLOCK_SIZE <= 2 ^ 63.
Proof.
  intros Hp Hpb. destruct (BLOCK_SIZE_power checked fits) as (b & Hb & Eb).
  assert (exists i, 1 <= i /\ EXPLICIT_INITIAL_INDEX_SIZE = 2 ^ i) as (i & Hi & Ei).
  { unfold static_asserts in checked. rewrite !andb_true_iff in checked.
    destruct checked as (((((((((_ & _) & _) & _) & Hlt) & Hpow) & _) & _) & _) & _). apply Z.ltb_lt in Hlt.
    destruct (power_of_2_spec EXPLICIT_INITIAL_INDEX_SIZE) as (i & Hi & E); [lia|done|]. exists i. split; [|done].
    destruct (decide (i = 0)) as [->|]; [rewrite E in Hlt; done|lia]. }
  assert (forall x j, x = 2 ^ j -> 1 <= j -> x * BLOCK_SIZE <= 2 ^ 64 ->
    exists k, 0 <= k /\ x ≫ 1 = 2 ^ k /\ (x ≫ 1) * BLOCK_SIZE <= 2 ^ 63) as Hhalf.
  { intros x j -> Hj Hx. exists (j - 1). rewrite Z.shiftr_div_pow2, <- Z.pow_sub_r by lia. split; [lia|]. split; [done|].
    replace (2 ^ j) with (2 * 2 ^ (j - 1)) in Hx by (rewrite <- Z.pow_succ_r by lia; f_equal; lia). lia. }
  unfold initial_size. destruct (Z.ltb_spec (EXPLICIT_INITIAL_INDEX_SIZE ≫ 1) (ceil_to_pow_2 64 pool ≫ 1)) as [Hlt|Hge];
    [|by apply (Hhalf _ i)].
  assert (0 <= EXPLICIT_INITIAL_INDEX_SIZE ≫ 1) as Hnn
    by (apply Z.shiftr_nonneg; rewrite Ei; apply Z.pow_nonneg; lia).
  destruct (Z.eq_dec pool 0) as [->|Hne].
  { replace (ceil_to_pow_2 64 0 ≫ 1) with 0 in Hlt by (by vm_compute). lia. }
  pose proof (BLOCK_SIZE_bounds checked fits) as HB.
  assert (Z.log2_up pool <= 63 - b) as Hl.
  { apply Z.log2_up_le_pow2; [lia|]. rewrite Eb in Hpb.
    replace (2 ^ 63) with (2 ^ (63 - b) * 2 ^ b) in Hpb by (rewrite <- Z.pow_add_r by lia; f_equal; lia).
    assert (0 < 2 ^ b) by lia. nia. }
  assert (ceil_to_pow_2 64 pool = 2 ^ Z.log2_up pool) as Ec.
  { rewrite (ceil_to_pow_2_pos 64 pool); [|by right|unfold in_width; lia|lia]. apply wrap_small. unfold in_width.
    pose proof (Z.log2_up_nonneg pool). split; [apply Z.pow_nonneg; lia|]. apply Z.pow_lt_mono_r; lia. }
  destruct (decide (Z.log2_up pool = 0)) as [E0|].
  { rewrite Ec, E0 in Hlt. replace (2 ^ 0 ≫ 1) with 0 in Hlt by done. lia. }
  pose proof (Z.log2_up_nonneg pool). apply (Hhalf _ (Z.log2_up pool)); [done|lia|]. rewrite Ec, Eb, <- Z.pow_add_r by lia.
  apply Z.pow_le_mono_r; lia.
Qed.

(** A new producer has no elements, whether or not it got a block index. *)
Lemma construct_rep m others :
  0 <= initialBlockPoolSize m -> owns malloc m [] others -> memory_bound malloc m ->
  exists p m', construct malloc m = Some (p, m') /\ keeps others m m' /\ rep m' others p 0 [] [] (- BLOCK_SIZE).
Proof.
  intros Hnn Ho Hmem. pose proof (BLOCK_SIZE_bounds checked fits) as HB.
  destruct (initial_size_spec (initialBlockPoolSize m)) as (k & Hk & Es & Hs); [done| |].
  { specialize (Hmem O). nia. }
  assert (index_ok (fresh (initial_size (initialBlockPoolSize m))) [] (- BLOCK_SIZE) (0 - 1) 0) as Hi.
  { split; cbn; try done; try lia; [by exists k|..]; try (intros; by rewrite lookup_nil in *); rewrite Es; pose proof (Z.pow_pos_nonneg 2 k ltac:(lia) Hk); lia. }
  unfold construct.
  destruct (new_block_index_spec checked fits malloc m _ [] (- BLOCK_SIZE) 0 Hi Hs) as (p & E & Hsf & Hi' & _).
  cbn [pr_blockIndexSlotsUsed fresh] in E. rewrite E. exists p. eexists. split; [reflexivity|]. split; [apply keeps_malloc|].
  destruct Hsf as (Et & Eh & Eo & Ec & Eb).
  split; cbn; rewrite ?Et, ?Eh, ?Eo, ?Ec, ?Eb; try done; try lia.
  - split; [split; [apply NoDup_nil_2|done]|done|by apply own_malloc| |done].
    by rewrite <- (Z_mod_plus_full (- BLOCK_SIZE) 1), Z.mul_1_l, Z.add_opp_diag_l.
  - intros n hdr _ _ Hne. destruct Hne. by rewrite (index_used _ _ _ _ _ Hi').
Qed.
End Construction.

(** ** The block indices *)

Lemma free_headers hs (n fuel : nat) :
  (n < length hs)%nat -> (n < fuel)%nat -> (forall k h, hs !! k = Some h -> prev h = match k with O => None | S k => Some k end) ->
  free_indices fuel hs (Some n) = Some (reverse (seq 0 (S n))).
Proof.
  intros Hn Hf Hp. revert fuel Hf. induction n as [|n IH]; intros [|fuel] Hf; try lia; cbn [free_indices].
  - destruct (lookup_lt_is_Some_2 hs 0 Hn) as [h Eh]. rewrite Eh, (Hp _ _ Eh). by destruct fuel.
  - destruct (lookup_lt_is_Some_2 hs (S n) Hn) as [h Eh]. rewrite Eh, (Hp _ _ Eh), IH by lia.
    by rewrite (seq_S (S n)), reverse_snoc.
Qed.

Lemma free_all_indices p ring tb F j0 :
  index_ok p ring tb F j0 -> free_indices (length (headers p)) (headers p) (blockIndex p) = Some (reverse (seq 0 (length (headers p)))).
Proof.
  intros Hi. pose proof (index_current _ _ _ _ _ Hi) as Hc. destruct (blockIndex p) as [n|].
  - destruct Hc as [El _]. rewrite El. apply free_headers; [lia|lia|apply Hi].
  - destruct Hc as (_ & _ & _ & ->). done.
Qed.

(** ** The blocks *)

(** A block is deleted. *)
Lemma own_disposed m mine others b :
  owns malloc m (b :: mine) others -> b ∉ mine -> is_Some (blocks m !! b) ->
  destroy_block b m = Some (tt, set_blocks (delete b (blocks m)) m) /\
  owns malloc (set_blocks (delete b (blocks m)) m) mine others /\ keeps (list_to_set mine ∪ others) m (set_blocks (delete b (blocks m)) m).
Proof.
  intros [[Hu Hf Hnd Hi Hx Hn Hc] Ha Hs] Hb [blk Eb]. assert (b ∉ others) as Hbo by (apply Ha; left).
  assert (forall c, (c ∈ (list_to_set mine ∪ others : gset nat)) -> b <> c) as Hne.
  { intros c [Hcm%elem_of_list_to_set|Hco]%elem_of_union ->; done. }
  assert (forall c, (c ∈ (list_to_set mine ∪ others : gset nat)) -> (c ∈ (list_to_set (b :: mine) ∪ others : gset nat))) as Hsub by set_solver.
  assert (b ∈ (list_to_set (b :: mine) ∪ others : gset nat)) as Hbu by set_solver.
  unfold destroy_block. rewrite Eb. split; [done|]. split; [split; [split| |]|split; [done|split; [done|]]];
    cbn [blocks set_blocks freeList initialBlockPoolIndex initialBlockPoolSize mallocs]; try done.
  - intros c Hcm. rewrite lookup_delete_ne by (by apply Hne). by apply Hu, Hsub.
  - intros c Hcf. destruct (Hf c Hcf) as [Hcu Hcb]. split; [by intros H%Hsub|]. rewrite lookup_delete_ne; [done|]. by intros ->.
  - intros i Hr. destruct (Hi i Hr) as (Hiu & Hif & Hib). split; [by intros H%Hsub|]. split; [done|].
    rewrite lookup_delete_ne; [done|]. by intros ->.
  - intros c Hcb. apply Hn. destruct (decide (b = c)) as [->|]; [by eexists|]. by rewrite lookup_delete_ne in Hcb.
  - intros c Hcb. destruct (decide (b = c)) as [<-|Hbc]; [rewrite lookup_delete_eq in Hcb; by destruct Hcb|].
    rewrite lookup_delete_ne in Hcb by done. destruct (Hc c Hcb) as [Hcu|?]; [left|by right]. set_solver.
  - intros c Hcm. apply Ha. by right.
  - intros c Hcm. cbn. rewrite lookup_delete_ne; [done|]. by apply Hne.
Qed.

(** The blocks [b :: l] are given back or deleted, when each has the next one as
    its next, and the last one has the block [tb]. *)
Lemma destroy_ring_spec tb p others l : forall fuel b m,
  NoDup (b :: l) -> tb ∉ l -> owns malloc m (b :: l) others -> (length l < fuel)%nat ->
  (forall i c, (b :: l) !! i = Some c -> exists blk, blocks m !! c = Some blk /\ blank blk /\ Block.next blk = (l ++ [tb]) !! i) ->
  exists m', destroy_ring fuel b tb (m, p) = Some (tt, (m', p)) /\ owns malloc m' [] others /\ keeps others m m'.
Proof.
  induction l as [|c l IH]; intros fuel b m Hnd Htb Ho Hfuel Hch; (destruct fuel as [|fuel]; [lia|]); cbn [destroy_ring];
    destruct (Hch O b eq_refl) as (blk & Eb & Hbl & En); cbn in En; rewrite (bind_some _ _ _ _ _ (mem_load m p b blk Eb)).
  all: apply NoDup_cons in Hnd as [Hb Hnd].
  all: match type of Ho with owns _ _ (_ :: ?mine) _ =>
    assert (exists m1, (if Block.dynamicallyAllocated blk then mem (destroy_block b) else mem (add_block_to_free_list b)) (m, p) = Some (tt, (m1, p)) /\
      owns malloc m1 mine others /\ keeps (list_to_set mine ∪ others) m m1) as (m1 & E1 & Ho1 & Hk1) end.
  1,3: destruct (Block.dynamicallyAllocated blk);
    [destruct (own_disposed m _ others b Ho Hb) as (E & Ho1 & Hk1); [by eexists|]; eexists; split; [exact (mem_some _ _ _ _ _ E)|done]|
     destruct (own_free malloc raw_flags m _ others b blk Ho Hb Eb Hbl) as [Ho1 Hk1]; eexists; split; [reflexivity|done]].
  all: rewrite (bind_some _ _ _ _ _ E1), En.
  - rewrite decide_True by done. exists m1. split; [done|]. split; [done|]. by eapply keeps_rest.
  - rewrite decide_False by (intros [=->]; apply Htb; left). rewrite (bind_some _ _ _ c (m1, p)) by done.
    destruct (IH fuel c m1) as (m' & E & Ho' & Hk'); [done|by intros H; apply Htb; right|done|cbn in Hfuel; lia| |].
    + intros i d Hd. destruct (Hch (S i) d Hd) as (dblk & Ed & Hdb & Hdn). exists dblk. split; [|done].
      rewrite <- Ed. apply Hk1, elem_of_union. left. apply elem_of_list_to_set. by eapply list_elem_of_lookup_2.
    + exists m'. split; [done|]. split; [done|]. eapply keeping_trans; [by eapply keeps_rest|done].
Qed.

(** The ring from the tail block on, by [next]. *)
Lemma ring_order (bs : gmap nat (Block.t T)) a r i c :
  links bs (a :: r) -> (a :: reverse r) !! i = Some c -> exists blk, bs !! c = Some blk /\ Block.next blk = (reverse r ++ [a]) !! i.
Proof.
  intros Hl Hc. destruct i as [|i].
  - injection Hc as <-. destruct (Hl O a eq_refl) as (blk & Eb & En). exists blk. split; [done|]. rewrite En. cbn [successor].
    destruct r as [|b r] using rev_ind; [done|]. rewrite reverse_snoc. change (a :: r ++ [b]) with ((a :: r) ++ [b]). by rewrite last_snoc.
  - change (reverse r !! i = Some c) in Hc. pose proof (lookup_lt_Some _ _ _ Hc) as Hi. rewrite length_reverse in Hi. rewrite reverse_lookup in Hc by lia.
    destruct (Hl (S (length r - S i)) c Hc) as (blk & Eb & En). exists blk. split; [done|]. rewrite En. cbn [successor].
    destruct (decide (S i = length r)) as [Hlast|Hlt].
    + replace (length r - S i)%nat with O by lia. symmetry. rewrite Hlast. rewrite <- (length_reverse r). by apply list_lookup_middle.
    + rewrite lookup_app_l by (rewrite length_reverse; lia). rewrite reverse_lookup by lia.
      replace (length r - S i)%nat with (S (length r - S (S i))) by lia. done.
Qed.
(** ** The elements *)

(** The same block by the places of its elements. *)
Lemma has_shift blk b0 h f : block_has explicit_context blk b0 h f <-> block_has explicit_context blk 0 (h - b0) (fun z => f (b0 + z)).
Proof.
  assert (gone 0 (h - b0) = gone b0 h) as Eg by (apply set_eq; intros o; rewrite !elem_gone; lia).
  split; intros [Ht Hl He]; split; try done; [by rewrite Eg|by rewrite <- Eg].
Qed.

Lemma between_spec (blk : Block.t T) f i stop :
  0 <= i <= stop -> (forall z, i <= z < stop -> is_Some (f z) /\ Block.elements blk !! Z.to_nat z = Some (f z)) ->
  Z.of_nat (length (elements_between i stop blk)) = stop - i /\
  forall k, (k < length (elements_between i stop blk))%nat -> elements_between i stop blk !! k = f (i + Z.of_nat k).
Proof.
  unfold elements_between. intros Hi. assert (exists n : nat, stop = i + Z.of_nat n) as [n ->] by (exists (Z.to_nat (stop - i)); lia).
  assert (0 <= i) as Hi0 by lia. clear Hi. replace (Z.to_nat (i + Z.of_nat n - i)) with n by lia.
  revert i Hi0. induction n as [|n IH]; intros i Hi Hf; [rewrite take_0; cbn; split; lia|].
  destruct (Hf i ltac:(lia)) as [[x Ex] E]. rewrite (drop_S _ (Some x)) by (by rewrite E, Ex).
  destruct (IH (i + 1)) as [Hl Hk]; [lia|intros z Hz; apply Hf; lia|].
  replace (Z.to_nat (i + 1)) with (S (Z.to_nat i)) in * by lia. cbn [firstn omap list_omap id length] in *. split; [lia|].
  intros [|k] Hlt; [by rewrite Z.add_0_r, Ex|]. cbn [lookup list_lookup]. rewrite Hk by lia. f_equal. lia.
Qed.

(** The elements of one block are destroyed. *)
Lemma destroy_turn m p ring tb h f j c half tbk t :
  hold (blocks m) ring tb h (without f h (tb - Z.of_nat j * BLOCK_SIZE)) -> ring !! j = Some c -> tb `mod` BLOCK_SIZE = 0 ->
  headIndex p = u64 h -> tailIndex p = u64 t -> tb < t <= tb + BLOCK_SIZE -> h <= t -> (forall z, h <= z < t -> is_Some (f z)) -> (forall z, t <= z -> f z = None) ->
  (c = tbk <-> j = O) -> let b0 := tb - Z.of_nat j * BLOCK_SIZE in (half = Some c <-> b0 < h < b0 + BLOCK_SIZE) ->
  exists els m', (forall A (k : list T -> M (Memory (T := T) * ExplicitProducer.t) A), (blk ← mem (load_block c);
      e ← the (Block.is_empty explicit_context blk);
      els ←
        (if (e : bool) then mret []
         else
           head ← field headIndex;
           tail ← field tailIndex;
           let i := if decide (half = Some c) then place head else 0 in
           let lastValidIndex := if place tail =? 0 then BLOCK_SIZE else place tail in
           let stop := if decide (c = tbk) then lastValidIndex else BLOCK_SIZE in
           destroy_in_block (Z.to_nat BLOCK_SIZE) c i stop;;
           mret (elements_between i stop blk));
      k els) (m, p) = k els (m', p)) /\
    touched ring m m' /\ hold (blocks m') ring tb h (without f h (b0 + BLOCK_SIZE)) /\
    Z.of_nat (length els) = Z.max 0 (Z.min t (b0 + BLOCK_SIZE) - Z.max h b0) /\
    forall k, (k < length els)%nat -> els !! k = f (Z.max h b0 + Z.of_nat k).
Proof.
  intros Hh Hj Htb Eh Et Ht Hht Hf Hnone Htail b0 Hhalf. pose proof (BLOCK_SIZE_bounds checked fits) as HB. fold b0 in Hh.
  destruct (hold_block _ _ _ _ _ Hh _ _ Hj) as (blk & Eb & Hblk). fold b0 in Hblk.
  assert (forall (q : Block.t T -> M (Memory (T := T) * ExplicitProducer.t) (list T)) els m',
    (if bool_decide (b0 + BLOCK_SIZE <= h) then mret [] else q blk) (m, p) = Some (els, (m', p)) ->
    forall A (k : list T -> M (Memory (T := T) * ExplicitProducer.t) A), (blk ← mem (load_block c); e ← the (Block.is_empty explicit_context blk);
      els ← (if (e : bool) then mret [] else q blk); k els) (m, p) = k els (m', p)) as Hk.
  { intros q els m' E A k. rewrite (bind_some _ _ _ _ _ (mem_load m p c blk Eb)).
    rewrite (bind_some _ _ _ _ _ (the_some _ _ _ (block_is_empty checked fits _ _ _ _ Hblk))). by rewrite (bind_some _ _ _ _ _ E). }
  case_bool_decide as Hempty.
  { exists [], m. split; [by apply Hk|]. split; [apply touched_refl|]. split; [|cbn [length]; split; lia].
    eapply (hold_ext checked fits); [|exact Hh]. intros z _. unfold without. repeat case_decide; try done; lia. }
  assert (b0 `mod` BLOCK_SIZE = 0) as Hb0 by (by apply back_mod).
  assert ((if decide (half = Some c) then place (headIndex p) else 0) = Z.max h b0 - b0) as Ei.
  { rewrite Eh, (place_wrap checked fits). destruct (decide (half = Some c)) as [Hd|Hd]; [apply Hhalf in Hd; rewrite (place_in checked fits b0 h) by (done || lia); lia|].
    destruct (decide (b0 < h)) as [Hlt|]; [|lia]. destruct Hd. apply Hhalf. lia. }
  assert ((if decide (c = tbk) then (if place (tailIndex p) =? 0 then BLOCK_SIZE else place (tailIndex p)) else BLOCK_SIZE) = Z.min t (b0 + BLOCK_SIZE) - b0) as Estop.
  { rewrite Et, (place_wrap checked fits). destruct (decide (c = tbk)) as [Hd|Hd].
    - apply Htail in Hd as ->. replace b0 with tb in * by (unfold b0; lia). destruct (decide (t = tb + BLOCK_SIZE)) as [->|Hne].
      + rewrite (place_mod checked fits), next_mod by done. cbn. lia.
      + rewrite (place_in checked fits tb t) by (done || lia). destruct (Z.eqb_spec (t - tb) 0); lia.
    - assert (j <> O) by (by intros ?%Htail). unfold b0 in *. nia. }
  set (i := Z.max h b0 - b0). set (stop := Z.min t (b0 + BLOCK_SIZE) - b0).
  assert (b0 <= tb) as Hbt by (unfold b0; nia).
  destruct (destroy_in_block_spec (ctx := explicit_context) checked fits (Z.to_nat BLOCK_SIZE) m p c blk 0 (h - b0) (fun z => without f h b0 (b0 + z)) i stop Eb) as (blk' & E & Hblk' & En).
  - exact (proj1 (has_shift _ _ _ _) Hblk).
  - apply Zmod_0_l.
  - unfold i, stop. lia.
  - unfold stop. lia.
  - unfold i, stop. lia.
  - intros z Hz. unfold without. rewrite decide_False by lia. apply Hf. unfold i, stop in Hz. lia.
  - rewrite (wrap_small 64 i), (wrap_small 64 stop) in E by (unfold in_width, i, stop; lia).
    destruct (between_spec blk (fun z => f (b0 + z)) i stop) as [Hlen Hels]; [unfold i, stop; lia| |].
    { intros z Hz. split; [apply Hf; unfold i, stop in Hz; lia|]. rewrite (block_elements _ _ _ _ Hblk) by (unfold i, stop in Hz; lia).
      rewrite Z2Nat.id by (unfold i in Hz; lia). unfold without. rewrite decide_False; [done|]. lia. }
    exists (elements_between i stop blk), (with_block c blk' m). split.
    { apply Hk. cbv beta. rewrite (bind_some _ _ _ (headIndex p) (m, p)), (bind_some _ _ _ (tailIndex p) (m, p)) by done. cbv zeta.
      rewrite Ei, Estop. by rewrite (bind_some _ _ _ _ _ E). }
    split; [eapply touched_block; [done|done|by eapply list_elem_of_lookup_2]|].
    split; [|split; [rewrite Hlen; unfold i, stop; lia|intros k Hk'; rewrite Hels by done; f_equal; unfold i; lia]].
    eapply (hold_insert checked fits); [exact Hh|exact Hj| | |done]; fold b0.
    + apply (proj2 (has_shift _ _ _ _)). eapply has_ext; [|exact Hblk']. intros z Hz. unfold without.
      repeat case_decide; try done; try lia; try (symmetry; apply Hnone; unfold i, stop in *; lia); apply Hnone; unfold i, stop in *; lia.
    + intros z Hz. unfold without. repeat case_decide; (done || lia).
Qed.

Lemma destroy_elements_ring p ring tb h f half tbk t :
  tb `mod` BLOCK_SIZE = 0 ->
  headIndex p = u64 h -> tailIndex p = u64 t -> tb < t <= tb + BLOCK_SIZE -> h <= t -> (forall z, h <= z < t -> is_Some (f z)) -> (forall z, t <= z -> f z = None) ->
  head ring = Some tbk -> (forall j c, ring !! j = Some c -> half = Some c <-> tb - Z.of_nat j * BLOCK_SIZE < h < tb - Z.of_nat j * BLOCK_SIZE + BLOCK_SIZE) ->
  forall j fuel b blk m, blocks m !! b = Some blk -> Block.next blk = ring !! j -> (j < length ring)%nat -> (j < fuel)%nat -> links (blocks m) ring ->
  hold (blocks m) ring tb h (without f h (tb - Z.of_nat j * BLOCK_SIZE)) ->
  exists els m', destroy_elements fuel half b tbk (m, p) = Some (els, (m', p)) /\ touched ring m m' /\
    hold (blocks m') ring tb h (without f h (tb + BLOCK_SIZE)) /\
    Z.of_nat (length els) = t - Z.max h (tb - Z.of_nat j * BLOCK_SIZE) /\
    forall k, (k < length els)%nat -> els !! k = f (Z.max h (tb - Z.of_nat j * BLOCK_SIZE) + Z.of_nat k).
Proof.
  intros Htb Eh Et Ht Hht Hf Hnone Htk Hhalf. pose proof (BLOCK_SIZE_bounds checked fits) as HB.
  induction j as [|j IH]; intros fuel b blk m Eb En Hj Hfuel Hl Hh; (destruct fuel as [|fuel]; [lia|]); cbn [destroy_elements];
    rewrite (bind_some _ _ _ _ _ (mem_load m p b blk Eb)), En.
  - destruct (lookup_lt_is_Some_2 ring 0 Hj) as [c Hc]. rewrite Hc, (bind_some _ _ _ c (m, p)) by done.
    assert (c = tbk) as -> by (destruct ring; [done|injection Hc as <-; by injection Htk]).
    destruct (destroy_turn m p ring tb h f 0 tbk half tbk t Hh Hc Htb Eh Et Ht Hht Hf Hnone ltac:(done) (Hhalf _ _ Hc)) as (els & m1 & E & Htouch & Hh1 & Hn & Hels).
    rewrite E. rewrite decide_True by done. rewrite Z.mul_0_l, Z.sub_0_r in *. exists els, m1. split; [done|]. split; [done|]. split; [done|]. split; [lia|done].
  - destruct (lookup_lt_is_Some_2 ring (S j) Hj) as [c Hc]. rewrite Hc, (bind_some _ _ _ c (m, p)) by done.
    assert (c <> tbk) as Hne.
    { intros ->. assert (ring !! O = Some tbk) as H0 by (by destruct ring). pose proof (NoDup_lookup _ _ _ _ (hold_nodup _ _ _ _ _ Hh) Hc H0). lia. }
    destruct (destroy_turn m p ring tb h f (S j) c half tbk t Hh Hc Htb Eh Et Ht Hht Hf Hnone ltac:(done) (Hhalf _ _ Hc)) as (els & m1 & E & Htouch & Hh1 & Hn & Hels).
    rewrite E. rewrite decide_False by done.
    replace (tb - Z.of_nat (S j) * BLOCK_SIZE + BLOCK_SIZE) with (tb - Z.of_nat j * BLOCK_SIZE) in Hh1, Hn by lia.
    pose proof (links_touched _ _ _ _ Htouch Hl) as Hl1. destruct (Hl1 _ _ Hc) as (cblk & Ec & Enc).
    destruct (IH fuel c cblk m1 Ec Enc) as (els' & m' & E' & Htouch' & Hh' & Hn' & Hels'); [lia|lia|done|done|].
    rewrite (bind_some _ _ _ _ _ E'). exists (els ++ els'), m'. split; [done|]. split; [by eapply touched_trans|].
    split; [done|]. split; [rewrite length_app; nia|]. apply elements_app; [done|]. intros k Hk. rewrite Hels' by done. f_equal. nia.
Qed.

(** ** The block that is partly dequeued *)

Lemma find_half_spec p ring tb n hdr h fuel :
  index_ok p ring tb (pr_blockIndexFront p - 1) 0 -> blockIndex p = Some n -> headers p !! n = Some hdr ->
  Z.of_nat (length ring) * BLOCK_SIZE < 2 ^ 63 -> h <= tb + BLOCK_SIZE -> tb - Z.of_nat (length ring) * BLOCK_SIZE + BLOCK_SIZE <= h ->
  forall j, (j < length ring)%nat -> (j < fuel)%nat -> tb - Z.of_nat j * BLOCK_SIZE <= h ->
  exists k c, find_half_dequeued fuel (entries hdr) ((pr_blockIndexFront p - 1 - Z.of_nat j) `mod` pr_blockIndexSize p)
      (u64 (pr_blockIndexSize p - 1)) (u64 h) = Some (mkEntry (u64 (tb - Z.of_nat k * BLOCK_SIZE)) (Some c)) /\
    ring !! k = Some c /\ tb - Z.of_nat k * BLOCK_SIZE <= h <= tb - Z.of_nat k * BLOCK_SIZE + BLOCK_SIZE.
Proof.
  intros Hi En Eh Hsm Hhi Hlo. pose proof (BLOCK_SIZE_bounds checked fits) as HB. pose proof (index_current _ _ _ _ _ Hi) as Hc. rewrite En in Hc.
  destruct Hc as (_ & hdr' & Eh' & _ & _ & Hw). rewrite Eh in Eh'. injection Eh' as <-.
  induction fuel as [|fuel IH]; intros j Hj Hfuel Hb; [lia|]. cbn [find_half_dequeued].
  destruct (lookup_lt_is_Some_2 ring j Hj) as [c Ec]. rewrite (Hw j c ltac:(lia) Ec). cbn [base].
  rewrite wrap_add_l, less_near by nia. destruct (Z.ltb_spec (tb - Z.of_nat j * BLOCK_SIZE + BLOCK_SIZE) h) as [Hlt|Hge]; [|by exists j, c].
  destruct j as [|j]; [lia|]. rewrite (mask_size checked fits _ _ _ _ _ _ Hi), Zplus_mod_idemp_l.
  replace (pr_blockIndexFront p - 1 - Z.of_nat (S j) + 1) with (pr_blockIndexFront p - 1 - Z.of_nat j) by lia. apply IH; lia.
Qed.

Lemma half_spec m others p h xs ring tb fuel :
  rep m others p h xs ring tb -> ring <> [] -> (length ring <= fuel)%nat ->
  exists half, (if place (headIndex p) =? 0 then mret None
      else
        c ← current;
        f ← field pr_blockIndexFront;
        used ← field pr_blockIndexSlotsUsed;
        size ← field pr_blockIndexSize;
        e ← the (find_half_dequeued fuel (entries c.2) (u64 (f - used) .& u64 (size - 1)) (u64 (size - 1)) (headIndex p));
        assert_that (circular_less_than 64 (base e) (headIndex p));;
        mret (block e)) (m, p) = Some (half, (m, p)) /\
    forall j c, ring !! j = Some c -> half = Some c <-> tb - Z.of_nat j * BLOCK_SIZE < h < tb - Z.of_nat j * BLOCK_SIZE + BLOCK_SIZE.
Proof.
  intros R Hring Hfuel. pose proof (BLOCK_SIZE_bounds checked fits) as HB. pose proof (rep_index _ _ _ _ _ _ _ _ R) as Hi.
  pose proof (rep_blocks _ _ _ _ _ _ _ _ R) as [Hh _ _ Htb _]. pose proof (hold_nodup _ _ _ _ _ Hh) as Hnd.
  pose proof (ring_rep_small checked fits malloc _ _ _ _ _ _ _ R) as [Hsm _]. pose proof (rep_range _ _ _ _ _ _ _ _ R) as Hr.
  pose proof (rep_oldest _ _ _ _ _ _ _ _ R) as Hold. rewrite (rep_head _ _ _ _ _ _ _ _ R), (place_wrap checked fits).
  assert (forall j, tb - Z.of_nat j * BLOCK_SIZE < h < tb - Z.of_nat j * BLOCK_SIZE + BLOCK_SIZE -> place h <> 0) as Hin.
  { intros j Hj. rewrite (place_in checked fits (tb - Z.of_nat j * BLOCK_SIZE)); [lia|by apply back_mod|lia]. }
  destruct (Z.eqb_spec (place h) 0) as [E0|Hne].
  { exists None. split; [done|]. intros j c _. split; [done|]. by intros Hj%Hin. }
  assert (is_Some (blockIndex p)) as [n En].
  { destruct ring as [|a r]; [done|]. eapply index_raw; [exact Hi|left]. }
  pose proof (index_current _ _ _ _ _ Hi) as Hc. rewrite En in Hc. destruct Hc as (_ & hdr & Eh & _).
  rewrite (bind_some _ _ _ _ _ (current_some m p n hdr En Eh)), (bind_some _ _ _ (pr_blockIndexFront p) (m, p)),
    (bind_some _ _ _ (pr_blockIndexSlotsUsed p) (m, p)), (bind_some _ _ _ (pr_blockIndexSize p) (m, p)) by done.
  rewrite (mask_size checked fits _ _ _ _ _ _ Hi), (index_used _ _ _ _ _ Hi). cbn [snd].
  assert (0 < length ring)%nat as Hpos by (destruct ring; [done|cbn; lia]).
  destruct (find_half_spec p ring tb n hdr h fuel Hi En Eh Hsm ltac:(lia) Hold (length ring - 1)%nat) as (k & c & E & Hk & Hkb); [lia|lia|rewrite Nat2Z.inj_sub by lia; lia|].
  replace (pr_blockIndexFront p - 1 - Z.of_nat (length ring - 1)) with (pr_blockIndexFront p - Z.of_nat (length ring)) in E by lia.
  rewrite (bind_some _ _ _ _ _ (the_some _ _ _ E)). cbn [base block].
  assert (forall b0, b0 `mod` BLOCK_SIZE = 0 -> h <> b0) as Hnb by (intros b0 Hb0 ->; apply Hne; by rewrite (place_mod checked fits)).
  assert ((tb - Z.of_nat k * BLOCK_SIZE) `mod` BLOCK_SIZE = 0) as Hk0 by (by apply back_mod).
  pose proof (Hnb _ Hk0). pose proof (Hnb _ (next_mod _ Hk0)).
  rewrite (bind_some _ _ _ tt (m, p)) by (apply assert_true; rewrite less_near by lia; apply Z.ltb_lt; lia).
  exists (Some c). split; [done|]. intros j d Hj. split.
  - intros [=<-]. assert (j = k) as -> by (by eapply NoDup_lookup). lia.
  - intros Hb. assert (j = k) as -> by nia. congruence.
Qed.

(** ** Destruction *)

Lemma explicit_destructor m others p h xs ring tb fuel :
  rep m others p h xs ring tb -> (length ring <= fuel)%nat ->
  exists m', destructor fuel (m, p) = Some ((xs, reverse (seq 0 (length (headers p)))), (m', p)) /\
    keeps others m m' /\ owns malloc m' [] others.
Proof.
  intros R Hfuel. pose proof (BLOCK_SIZE_bounds checked fits) as HB. pose proof (rep_index _ _ _ _ _ _ _ _ R) as Hi.
  pose proof (rep_blocks _ _ _ _ _ _ _ _ R) as [Hh Hl Ho Htb Hm]. pose proof (rep_range _ _ _ _ _ _ _ _ R) as Hr.
  pose proof (rep_oldest _ _ _ _ _ _ _ _ R) as Hold.
  unfold destructor. rewrite (bind_some _ _ _ (tailBlock p) (m, p)), (rep_tailBlock _ _ _ _ _ _ _ _ R) by done.
  assert (forall els m', (hs ← field headers; raw ← field blockIndex; freed ← the (free_indices (length hs) hs raw); mret (els, freed)) (m', p) =
    Some ((els : list T, reverse (seq 0 (length (headers p)))), (m' : Memory (T := T), p))) as Hfree.
  { intros els m'. rewrite (bind_some _ _ _ (headers p) (m', p)), (bind_some _ _ _ (blockIndex p) (m', p)) by done.
    by rewrite (bind_some _ _ _ _ _ (the_some _ _ _ (free_all_indices _ _ _ _ _ Hi))). }
  destruct ring as [|a r].
  { cbn [head hd_error]. rewrite (bind_some _ _ _ [] (m, p)) by done. exists m. rewrite Hfree.
    assert (xs = []) as -> by (destruct xs; [done|cbn [length] in *; lia]). done. }
  cbn [head hd_error]. destruct (half_spec m others p h xs (a :: r) tb fuel R ltac:(done) Hfuel) as (half & Ehalf & Hhalf).
  set (t := h + Z.of_nat (length xs)) in *. set (f := elems xs h) in *. destruct (links_next _ _ _ Hl) as (blk & Eb & En).
  assert (Block.next blk = (a :: r) !! length r) as En' by (rewrite En, last_lookup; done). cbn [length] in *.
  destruct (destroy_elements_ring p (a :: r) tb h f half a t Htb (rep_head _ _ _ _ _ _ _ _ R) (rep_tail _ _ _ _ _ _ _ _ R) Hr ltac:(unfold t; lia))
    with (j := length r) (fuel := fuel) (b := a) (blk := blk) (m := m) as (els & m1 & E1 & Htouch & Hh1 & Hn & Hels); try done; try (cbn [length]; lia).
  { intros z Hz. unfold f, elems, at_z. rewrite (proj2 (Z.ltb_ge _ _)) by lia. apply lookup_lt_is_Some. unfold t in Hz. lia. }
  { intros z Hz. apply elems_none. unfold t in Hz. lia. }
  { eapply (hold_ext checked fits); [|exact Hh]. intros z _. unfold without. rewrite decide_False; [done|lia]. }
  destruct (own_touched malloc (a :: r) m m1 (a :: r) others Ho (fun b H => H) Htouch) as [Ho1 Hk1].
  destruct (destroy_ring_spec a p others (reverse r) fuel a m1) as (m' & E2 & Ho' & Hk').
  - pose proof (hold_nodup _ _ _ _ _ Hh1) as [Ha Hnd]%NoDup_cons. constructor; [by rewrite elem_of_reverse|by rewrite (reverse_Permutation r)].
  - pose proof (hold_nodup _ _ _ _ _ Hh1) as [Ha Hnd]%NoDup_cons. by rewrite elem_of_reverse.
  - eapply own_perm; [|exact Ho1]. by rewrite reverse_Permutation.
  - rewrite length_reverse. lia.
  - intros i c Hc. destruct (ring_order _ _ _ _ _ (links_touched _ _ _ _ Htouch Hl) Hc) as (cblk & Ec & Enc).
    exists cblk. split; [done|]. split; [|done].
    assert (c ∈ a :: r) as [j Hj]%list_elem_of_lookup.
    { apply list_elem_of_lookup_2 in Hc. apply elem_of_cons in Hc as [->|Hc]; [left|right; by rewrite elem_of_reverse in Hc]. }
    destruct (hold_block _ _ _ _ _ Hh1 _ _ Hj) as (cblk' & Ec' & Hcb). rewrite Ec in Ec'. injection Ec' as <-.
    eapply has_blank; [exact Hcb|]. intros z Hz. unfold without. case_decide; [done|]. apply elems_none. unfold t in *. nia.
  - erewrite bind_some.
    2:{ rewrite (bind_some _ _ _ (headIndex p) (m, p)) by done. rewrite (bind_some _ _ _ _ _ Ehalf).
        rewrite (bind_some _ _ _ _ _ E1), (bind_some _ _ _ _ _ E2). reflexivity. }
    exists m'. rewrite Hfree. split; [|split; [by eapply keeping_trans|done]]. do 4 f_equal.
    rewrite <- (firstn_all xs). apply (taken_elems xs els h); [rewrite firstn_all; unfold t in *; nia|]. intros k Hk. rewrite Hels by done. f_equal. nia.
Qed.
End Life.
