(* ===== verification/ExplicitQueue.v ===== *)
(** * An explicit producer from its construction on

    The queue of one producer, made from nothing and used by one thread, is
    a first-in first-out queue however long it is used: its 64-bit indices wrap
    around, its blocks are reused and its index grows. *)
From S2P Require Import Prelude.
From S2P Require Import QueueUtils.
From S2P Require Import QueueTraits.
From S2P Require Import QueueBlock.
From S2P Require Import BlockPool.
From S2P Require Import ProducerMemory.
From S2P Require Import ProducerFifo.
From S2P Require Import ExplicitProducer.
From S2P Require Import BlockContents.
From S2P Require Import BlockMemory.
From S2P Require Import ExplicitRing.
From S2P Require Import ExplicitIndex.
From S2P Require Import ExplicitSpec.
From S2P Require Import ExplicitBulk.
From S2P Require Import ExplicitLife.
#[local] Open Scope Z_scope.
Import ExplicitProducer ProducerFifo.

Module ExplicitQueue.

(** ** Runs *)

Section Run.
Context {tr : Traits} {T : Type}.
Context (malloc : nat -> bool) (raw_flags : nat -> list bool).
Context (noexcept_ctor : bool) (ctor_throws : T -> bool).
Abbreviation State := (Memory (T := T) * t)%type.

Definition apply (o : op T) : M State (answer T) :=
  match o with
  | Enqueue mode x => r ← enqueue malloc raw_flags noexcept_ctor ctor_throws mode x; mret (Enqueued r)
  | Dequeue => r ← dequeue; mret (Dequeued r)
  | EnqueueBulk mode xs => r ← enqueue_bulk malloc raw_flags noexcept_ctor ctor_throws mode xs; mret (Enqueued r)
  | DequeueBulk max => r ← dequeue_bulk max; mret (BulkDequeued r)
  end.
Definition run : list (op T) -> M State (list (answer T)) := ProducerFifo.run apply.
Abbreviation throws := (throws noexcept_ctor ctor_throws).

(** A producer of a queue with a pool of this many blocks. *)
Definition start (blockCount : Z) : option State :=
  match populate_initial_block_list malloc raw_flags blockCount no_memory with
  | Some (_, m) => match construct malloc m with Some (p, m) => Some (m, p) | None => None end
  | None => None
  end.

(** No constructor throws. *)
Definition harmless (o : op T) : Prop := counted o /\ Forall (fun x => throws x = false) (constructed o).

(** A bulk operation for which there are not enough blocks, and why: the queue
    would be too large, no memory is to be allocated, or an allocation failed. *)
Definition bulk_refused (s : State) (o : op T) : Prop :=
  exists mode xs s', o = EnqueueBulk mode xs /\
    enqueue_bulk malloc raw_flags noexcept_ctor ctor_throws mode xs s = Some (Returned false, s') /\
    ((exists i, 0 <= i < Z.of_nat (length xs) /\ full (headIndex s.2) (u64 (tailIndex s.2 + i)) = true) \/
     unavailable malloc mode s.1 s'.1).

(** A sequence of operations is followed up to a bulk operation that is refused,
    or to an operation in which a constructor throws. *)
Definition throwing (o : op T) : Prop := Exists (fun x => throws x = true) (constructed o).
Definition stops (s : State) (o : op T) : Prop := bulk_refused s o \/ throwing o.

(** ** The queue is a queue *)

Section Sound.
Context (checked : static_asserts = true) (fits : BLOCK_SIZE <= 2 ^ 62).
Context (index_fits : EXPLICIT_INITIAL_INDEX_SIZE * BLOCK_SIZE <= 2 ^ 64).

(** The state of a producer with the elements [xs]. *)
Definition holds (s : State) (xs : list T) : Prop :=
  exists h ring tb, rep malloc s.1 ∅ s.2 h xs ring tb.

Lemma apply_fifo o s xs :
  holds s xs -> harmless o ->
  (exists r s' ys, apply o s = Some (r, s') /\ fifo throws xs o r ys /\ holds s' ys) \/ bulk_refused s o.
Proof.
  destruct s as [m p]. intros (h & ring & tb & R) [Hn Ho]. destruct o as [mode x| |mode zs|max]; cbn [apply counted constructed] in *.
  - apply Forall_cons_1 in Ho as [Ho _].
    destruct (enqueue_spec checked fits malloc raw_flags noexcept_ctor ctor_throws mode _ _ _ _ _ _ _ x R Ho)
      as (ok & m' & p' & E & _ & R').
    left. rewrite (bind_some _ _ _ _ _ E). exists (Enqueued (Returned ok)), (m', p'), (if ok then xs ++ [x] else xs).
    split; [done|]. split; [by destruct ok; constructor|]. destruct ok; [by exists h|]. destruct R' as [R' _]. by exists h, ring, tb.
  - left. pose proof (dequeue_spec checked fits malloc _ _ _ _ _ _ _ R) as E. destruct xs as [|x xs].
    + rewrite (bind_some _ _ _ _ _ E). exists (Dequeued None), (m, p), []. split; [done|]. split; [constructor|]. by exists h, ring, tb.
    + destruct E as (m' & p' & E & _ & R'). rewrite (bind_some _ _ _ _ _ E). exists (Dequeued (Some x)), (m', p'), xs.
      split; [done|]. split; [constructor|]. by exists (h + 1), ring, tb.
  - destruct (explicit_enqueue_bulk checked fits malloc raw_flags noexcept_ctor ctor_throws mode _ _ _ _ _ _ _ zs R Hn Ho)
      as (ok & m' & p' & E & _ & R'). destruct ok.
    + left. rewrite (bind_some _ _ _ _ _ E). exists (Enqueued (Returned true)), (m', p'), (xs ++ zs).
      split; [done|]. split; [by constructor|]. by exists h.
    + right. by exists mode, zs, (m', p').
  - left. destruct (explicit_dequeue_bulk checked fits malloc _ _ _ _ _ _ _ max R) as (m' & p' & E & _ & R'); [apply Hn|].
    rewrite (bind_some _ _ _ _ _ E). do 3 eexists. split; [reflexivity|]. split; [constructor|]. by do 3 eexists.
Qed.

Lemma apply_or_stop o s xs :
  holds s xs -> counted o ->
  (exists r s' ys, apply o s = Some (r, s') /\ fifo throws xs o r ys /\ holds s' ys) \/ stops s o.
Proof.
  intros Hs Hn. destruct (decide (throwing o)) as [Ht|Ht]; [by right; right|].
  destruct (apply_fifo o s xs Hs) as [|Hb]; [|by left|by right; left].
  split; [done|]. apply not_Exists_Forall in Ht; [|intros x; apply _].
  eapply Forall_impl; [exact Ht|]. intros x Hx. by apply not_true_is_false.
Qed.

(** There is less memory than there are indices. *)
Definition enough_indices (blockCount : Z) : Prop :=
  forall n, (blockCount + Z.of_nat (granted malloc n)) * BLOCK_SIZE < 2 ^ 63.

Lemma start_holds blockCount :
  0 <= blockCount -> enough_indices blockCount -> exists s, start blockCount = Some s /\ holds s [].
Proof.
  intros Hc Hm. pose proof (BLOCK_SIZE_bounds checked fits) as HB. unfold start.
  destruct (populate_ok malloc raw_flags (T := T) blockCount Hc) as (m & -> & Hp & Hsz).
  assert (memory_bound malloc m) as Hmem.
  { intros n. specialize (Hm n). rewrite Hsz. destruct (_ || _); nia. }
  assert (0 <= initialBlockPoolSize m) as Hnn by (rewrite Hsz; destruct (_ || _); lia).
  destruct (construct_rep checked fits malloc index_fits m ∅) as (p & m' & -> & _ & R); [done| |done|].
  - apply own_nothing; [done|]. specialize (Hmem O). nia.
  - eexists. split; [reflexivity|]. by exists 0, [], (- BLOCK_SIZE).
Qed.

(** C11: a producer made from nothing is a first-in first-out queue: a sequence of operations, bulk operations included,
    runs without a failed assertion, a null pointer or an access out of bounds to its end, or to the first operation
    that is a bulk operation refused (the sub-queue would be too large, or there are no more blocks), or one in which a
    constructor throws; the elements come out in the order in which they went in, only an empty queue gives none, and a
    bulk operation takes as many as it asks for or all there are. There is no bound on the length of the sequence: the
    64-bit indices wrap around, blocks are reused and the block index grows. *)
Theorem explicit_producer_is_fifo blockCount ops :
  0 <= blockCount -> enough_indices blockCount -> Forall counted ops ->
  exists s ops1 ops2 rs s' xs, start blockCount = Some s /\ ops = ops1 ++ ops2 /\
    run ops1 s = Some (rs, s') /\ fifo_run throws [] ops1 rs xs /\
    match ops2 with [] => True | o :: _ => stops s' o end.
Proof.
  intros Hc Hm Hops. destruct (start_holds blockCount Hc Hm) as (s & Es & Hs).
  destruct (run_until throws apply holds counted stops apply_or_stop ops s [] Hs Hops)
    as (ops1 & ops2 & rs & s' & xs & Eo & Er & Hf & _ & Hstop). by exists s, ops1, ops2, rs, s', xs.
Qed.

(** C12: the destructor of an explicit producer, after whatever operations before a bulk operation is refused or a
    constructor throws, destroys exactly the elements that are left, in order, frees every block index, each once, and leaves no block behind that
    is not in the pool or on the free list, without elements. *)
Theorem explicit_destruction blockCount ops :
  0 <= blockCount -> enough_indices blockCount -> Forall counted ops ->
  exists s ops1 ops2 rs m p xs m', start blockCount = Some s /\ ops = ops1 ++ ops2 /\
    run ops1 s = Some (rs, (m, p)) /\ fifo_run throws [] ops1 rs xs /\
    match ops2 with [] => True | o :: _ => stops (m, p) o end /\
    destructor (base.size (blocks m)) (m, p) = Some ((xs, reverse (seq 0 (length (headers p)))), (m', p)) /\ all_back m'.
Proof.
  intros Hc Hm Hops. destruct (start_holds blockCount Hc Hm) as (s & Es & Hs).
  destruct (run_until throws apply holds counted stops apply_or_stop ops s [] Hs Hops)
    as (ops1 & ops2 & rs & [m p] & xs & Eo & Er & Hf & (h & ring & tb & R) & Hstop).
  pose proof (rep_blocks _ _ _ _ _ _ _ _ R) as Hb. pose proof (blocks_counted malloc m ring ∅ (ok_owns _ _ _ _ _ _ _ Hb) (hold_nodup _ _ _ _ _ (ok_hold _ _ _ _ _ _ _ Hb))) as Hl.
  destruct (explicit_destructor checked fits malloc raw_flags m ∅ p h xs ring tb (base.size (blocks m)) R Hl) as (m' & E & _ & Ho).
  exists s, ops1, ops2, rs, m, p, xs, m'. do 6 (split; [done|]).
  pose proof (own_pool _ _ _ _ Ho) as Hp. rewrite list_to_set_nil, (left_id_L ∅ (∪)) in Hp. by apply (pool_all_back malloc).
Qed.

End Sound.
End Run.

(** ** Examples *)

Definition small_traits : Traits := {|
  BLOCK_SIZE := 2;
  EXPLICIT_BLOCK_EMPTY_COUNTER_THRESHOLD := 2;
  EXPLICIT_INITIAL_INDEX_SIZE := 2;
  IMPLICIT_INITIAL_INDEX_SIZE := 2;
  INITIAL_IMPLICIT_PRODUCER_HASH_SIZE := 2;
  EXPLICIT_CONSUMER_CONSUMPTION_QUOTA_BEFORE_ROTATE := 2;
  Traits_MAX_SUBQUEUE_SIZE := const_numeric_max 64
|}.
Definition few (n : nat) : bool := (n <? 12)%nat.
Definition raw (n : nat) : list bool := [true; true].

Lemma few_enough : enough_indices (tr := small_traits) few 1.
Proof.
  intros n. assert (granted few n <= 12)%nat by (apply granted_le; intros i; apply Nat.ltb_lt). cbn. lia.
Qed.

(** Two rounds through the ring, more elements than the first index has room for. *)
Definition rounds : list (op nat) :=
  EnqueueBulk CanAlloc (seq 0 7) :: DequeueBulk 5 :: (Enqueue CanAlloc <$> seq 7 4) ++
  [EnqueueBulk CanAlloc (seq 11 3); Dequeue; DequeueBulk 20; Dequeue].

Lemma explicit_producer_is_fifo_witness :
  (exists s ops1 ops2 rs s' xs, start (tr := small_traits) few raw 1 = Some s /\ rounds = ops1 ++ ops2 /\
    run (tr := small_traits) few raw true (fun _ => false) ops1 s = Some (rs, s') /\
    fifo_run (throws true (fun _ => false)) [] ops1 rs xs /\
    match ops2 with [] => True | o :: _ => stops (tr := small_traits) few raw true (fun _ => false) s' o end) /\
  (s ← start (tr := small_traits) few raw 1;
   r ← run (tr := small_traits) few raw true (fun _ => false) rounds s; Some r.1) =
    Some ([Enqueued (Returned true); BulkDequeued (seq 0 5)] ++ replicate 5 (Enqueued (Returned true)) ++
      [Dequeued (Some 5%nat); BulkDequeued (seq 6 8); Dequeued None]).
Proof.
  split; [|by vm_compute].
  apply (explicit_producer_is_fifo (tr := small_traits) few raw true (fun _ => false)).
  - by vm_compute.
  - by vm_compute.
  - by vm_compute.
  - done.
  - exact few_enough.
  - repeat (constructor; [done|]). constructor.
Defined.

Lemma explicit_destruction_witness :
  (exists s ops1 ops2 rs m p xs m', start (tr := small_traits) few raw 1 = Some s /\ firstn 7 rounds = ops1 ++ ops2 /\
    run (tr := small_traits) few raw true (fun _ => false) ops1 s = Some (rs, (m, p)) /\
    fifo_run (throws true (fun _ => false)) [] ops1 rs xs /\
    match ops2 with [] => True | o :: _ => stops (tr := small_traits) few raw true (fun _ => false) (m, p) o end /\
    destructor (tr := small_traits) (base.size (blocks m)) (m, p) = Some ((xs, reverse (seq 0 (length (headers p)))), (m', p)) /\
    all_back (tr := small_traits) m') /\
  (s ← start (tr := small_traits) few raw 1; r ← run (tr := small_traits) few raw true (fun _ => false) (firstn 7 rounds) s;
   d ← destructor (tr := small_traits) 20 r.2; Some (d.1, freeList d.2.1, base.size (blocks d.2.1))) =
    Some (seq 5 9, [2; 1; 0], [0], 1)%nat.
Proof.
  split; [|by vm_compute].
  apply (explicit_destruction (tr := small_traits) few raw true (fun _ => false)).
  - by vm_compute.
  - by vm_compute.
  - by vm_compute.
  - done.
  - exact few_enough.
  - repeat (constructor; [done|]). constructor.
Defined.

(** ** Bulk operations that fail *)

(** The answers after a bulk operation that has been refused. *)
Definition after_refused_bulk (items : list nat) (ops : list (op nat)) : option (outcome bool * list (answer nat)) :=
  s ← start (tr := small_traits) few raw 1;
  b ← enqueue_bulk (tr := small_traits) few raw true (fun _ => false) CannotAlloc items s;
  r ← run (tr := small_traits) few raw true (fun _ => false) ops b.2;
  Some (b.1, r.1).

(** The blocks that a refused bulk operation leaves in the ring are not counted as slots of the index that are
    used: the index is written around without growing, the entry of a block with elements is overwritten, and the
    queue gives its fifth element first. *)
Theorem refused_bulk_breaks_order :
  after_refused_bulk [1; 2; 3; 4]%nat ((Enqueue CanAlloc <$> [1; 2; 3; 4; 5]%nat) ++ [Dequeue]) =
    Some (Returned false, replicate 5 (Enqueued (Returned true)) ++ [Dequeued (Some 5%nat)]).
Proof. by vm_compute. Qed.

(** A bulk operation that is given up because a constructor has thrown leaves the
    blocks that it had prepared in the ring, no longer marked as empty: the
    destructor destroys elements in them that were never constructed. *)
Theorem thrown_bulk_breaks_destruction :
  (s ← start (tr := small_traits) few raw 1;
   b ← enqueue_bulk (tr := small_traits) few raw false (fun x => x =? 5)%nat CanAlloc [1; 2; 3; 4; 5]%nat s;
   Some (b.1, bool_decide (destructor (tr := small_traits) 20 b.2 = None))) = Some (Threw, true).
Proof. by vm_compute. Qed.

End ExplicitQueue.
