(* ===== verification/ImplicitProducer.v ===== *)
(** * Implicit producers (utils/concurrentqueue.h, [ImplicitProducer])

    The sub-queue of a thread that has no producer token, as one thread sees it:
    it takes a block from the queue when it needs one and gives each back as
    soon as it is empty. A circular index says which block has which elements;
    its slots point to entries, which a larger index takes over from a smaller
    one. *)
From S2P Require Import Prelude.
From S2P Require Import QueueUtils.
From S2P Require Import QueueTraits.
From S2P Require Import QueueBlock.
From S2P Require Import BlockPool.
From S2P Require Import ProducerMemory.
#[local] Open Scope Z_scope.

Module ImplicitProducer.
Export ProducerMemory.
Section ImplicitProducer.
Context {tr : Traits} {T : Type}.
Context (malloc : nat -> bool) (raw_flags : nat -> list bool).
(** Whether the constructor of an element is [noexcept], and whether it throws
    when it is not. *)
Context (noexcept_ctor : bool) (ctor_throws : T -> bool).
(** What the pointer of a new entry is before it is written to. *)
Context (raw_value : option nat).

(** ** Data *)

Definition INVALID_BLOCK_BASE : Z := 1.

Record BlockIndexEntry := mkEntry { key : Z; value : option nat }.

(** An index; an entry is named by its number, and [entries] is that of the
    first entry allocated with the index. *)
Record BlockIndexHeader := mkHeader {
  capacity : Z;
  tail : Z;
  entries : nat;
  index : list nat;
  prev : option nat
}.

Record t := mk {
  tailIndex : Z;
  headIndex : Z;
  dequeueOptimisticCount : Z;
  dequeueOvercommit : Z;
  tailBlock : option nat;
  nextBlockIndexCapacity : Z;
  blockIndex : option nat;
  headers : list BlockIndexHeader;     (* all indices ever allocated, by number *)
  cells : list BlockIndexEntry         (* all entries ever allocated, by number *)
}.

Definition set_tailIndex v p := mk v (headIndex p) (dequeueOptimisticCount p) (dequeueOvercommit p) (tailBlock p)
  (nextBlockIndexCapacity p) (blockIndex p) (headers p) (cells p).
Definition set_headIndex v p := mk (tailIndex p) v (dequeueOptimisticCount p) (dequeueOvercommit p) (tailBlock p)
  (nextBlockIndexCapacity p) (blockIndex p) (headers p) (cells p).
Definition set_optimistic v p := mk (tailIndex p) (headIndex p) v (dequeueOvercommit p) (tailBlock p)
  (nextBlockIndexCapacity p) (blockIndex p) (headers p) (cells p).
Definition set_overcommit v p := mk (tailIndex p) (headIndex p) (dequeueOptimisticCount p) v (tailBlock p)
  (nextBlockIndexCapacity p) (blockIndex p) (headers p) (cells p).
Definition set_tailBlock v p := mk (tailIndex p) (headIndex p) (dequeueOptimisticCount p) (dequeueOvercommit p) v
  (nextBlockIndexCapacity p) (blockIndex p) (headers p) (cells p).
Definition set_headers v p := mk (tailIndex p) (headIndex p) (dequeueOptimisticCount p) (dequeueOvercommit p)
  (tailBlock p) (nextBlockIndexCapacity p) (blockIndex p) v (cells p).
Definition set_cells v p := mk (tailIndex p) (headIndex p) (dequeueOptimisticCount p) (dequeueOvercommit p)
  (tailBlock p) (nextBlockIndexCapacity p) (blockIndex p) (headers p) v.

Abbreviation State := ((Memory (T := T)) * t)%type.

(** ** The block index *)

(** The current index, and a slot of it with its entry. *)
Definition current : M State (nat * BlockIndexHeader) :=
  raw ← field blockIndex;
  n ← the raw;
  hs ← field headers;
  h ← the (hs !! n);
  mret (n, h).
Definition entry_at (h : BlockIndexHeader) (pos : Z) : M State (nat * BlockIndexEntry) :=
  n ← the (index h !! Z.to_nat pos);
  cs ← field cells;
  e ← the (cs !! n);
  mret (n, e).
Definition store_key (n : nat) (k : Z) : M State unit :=
  cs ← field cells;
  e ← the (cs !! n);
  set (set_cells (<[n := mkEntry k (value e)]> cs)).
Definition store_value (n : nat) (v : option nat) : M State unit :=
  cs ← field cells;
  e ← the (cs !! n);
  set (set_cells (<[n := mkEntry (key e) v]> cs)).
Definition store_tail (v : Z) : M State unit :=
  c ← current;
  set (fun p => set_headers (<[c.1 := mkHeader (capacity c.2) v (entries c.2) (index c.2) (prev c.2)]> (headers p)) p).

(** The slots of an index, from the one after [pos] on up to the tail. *)
Fixpoint copy_index (fuel : nat) (h : BlockIndexHeader) (pos : Z) : option (list nat) :=
  match fuel with
  | O => None
  | S fuel =>
      let pos := u64 (pos + 1) .& u64 (capacity h - 1) in
      match index h !! Z.to_nat pos with
      | None => None
      | Some n =>
          if pos =? tail h then Some [n]
          else match copy_index fuel h pos with Some l => Some (n :: l) | None => None end
      end
  end.

Definition new_block_index : M State bool :=
  raw ← field blockIndex;
  hs ← field headers;
  next ← field nextBlockIndexCapacity;
  old ← match raw with None => mret None | Some n => h ← the (hs !! n); mret (Some h) end;
  let prevCapacity := match old with None => 0 | Some h => capacity h end in
  let entryCount := match old with None => next | Some h => prevCapacity end in
  ok ← mem (try_malloc malloc);
  if (ok : bool) then
    copied ← match old with None => mret [] | Some h => the (copy_index (Z.to_nat (capacity h)) h (tail h)) end;
    assert_that (Z.of_nat (length copied) =? prevCapacity);;
    set (fun p =>
      let first := length (cells p) in
      let header := mkHeader next (u64 (prevCapacity - 1) .& u64 (next - 1)) first
        (copied ++ seq first (Z.to_nat entryCount)) raw in
      mk (tailIndex p) (headIndex p) (dequeueOptimisticCount p) (dequeueOvercommit p) (tailBlock p)
        (u64 (next ≪ 1)) (Some (length hs)) (headers p ++ [header])
        (cells p ++ replicate (Z.to_nat entryCount) (mkEntry INVALID_BLOCK_BASE raw_value)));;
    mret true
  else mret false.

(** The entry goes into the slot after the tail. *)
Definition take_slot (blockStartIndex : Z) (n : nat) (newTail : Z) : M State (option nat) :=
  store_key n blockStartIndex;;
  store_tail newTail;;
  mret (Some n).
Definition next_slot : M State (Z * (nat * BlockIndexEntry)) :=
  c ← current;
  let newTail := u64 (tail c.2 + 1) .& u64 (capacity c.2 - 1) in
  e ← entry_at c.2 newTail;
  mret (newTail, e).
(** The entry for a new block, if there is room. *)
Definition insert_block_index_entry (allocMode : AllocationMode) (blockStartIndex : Z) : M State (option nat) :=
  s ← next_slot;
  if (key s.2.2 =? INVALID_BLOCK_BASE) || bool_decide (value s.2.2 = None) then take_slot blockStartIndex s.2.1 s.1
  else
    match allocMode with
    | CannotAlloc => mret None
    | CanAlloc =>
        ok ← new_block_index;
        if (ok : bool) then
          s ← next_slot;
          assert_that (key s.2.2 =? INVALID_BLOCK_BASE);;
          take_slot blockStartIndex s.2.1 s.1
        else mret None
    end.
Definition rewind_block_index_tail : M State unit :=
  c ← current;
  store_tail (u64 (tail c.2 - 1) .& u64 (capacity c.2 - 1)).

Definition get_block_index_index_for_index (index : Z) : M State (Z * BlockIndexHeader) :=
  let index := QueueTraits.base index in
  c ← current;
  let localBlockIndex := c.2 in
  e ← entry_at localBlockIndex (tail localBlockIndex);
  let tailBase := key e.2 in
  assert_that (negb (tailBase =? INVALID_BLOCK_BASE));;
  let offset := u64 (index - tailBase) / BLOCK_SIZE in
  let idx := u64 (tail localBlockIndex + offset) .& u64 (capacity localBlockIndex - 1) in
  e ← entry_at localBlockIndex idx;
  assert_that ((key e.2 =? index) && bool_decide (value e.2 <> None));;
  mret (idx, localBlockIndex).
Definition get_block_index_entry_for_index (index : Z) : M State (nat * BlockIndexEntry) :=
  r ← get_block_index_index_for_index index;
  entry_at r.2 r.1.

(** ** Construction *)

Definition fresh : t := mk 0 0 0 0 None IMPLICIT_INITIAL_INDEX_SIZE None [] [].
Definition construct : M (Memory (T := T)) t := fun m =>
  match new_block_index (m, fresh) with
  | Some (_, (m, p)) => Some (p, m)
  | None => None
  end.

(** ** Enqueuing *)

Definition enqueue (allocMode : AllocationMode) (element : T) : M State (outcome bool) :=
  currentTailIndex ← field tailIndex;
  let newTailIndex := u64 (1 + currentTailIndex) in
  if place currentTailIndex =? 0 then
    head ← field headIndex;
    assert_that (negb (circular_less_than 64 currentTailIndex head));;
    if full head currentTailIndex then mret (Returned false)
    else
      idxEntry ← insert_block_index_entry allocMode currentTailIndex;
      match idxEntry with
      | None => mret (Returned false)
      | Some idxEntry =>
          newBlock ← mem (requisition_block malloc raw_flags allocMode);
          match newBlock with
          | None =>
              rewind_block_index_tail;;
              store_value idxEntry None;;
              mret (Returned false)
          | Some newBlock =>
              mem (store_block newBlock (Block.reset_empty implicit_context));;
              if negb noexcept_ctor && ctor_throws element then
                rewind_block_index_tail;;
                store_value idxEntry None;;
                mem (add_block_to_free_list newBlock);;
                mret Threw
              else
                (if noexcept_ctor then mret tt else put newBlock currentTailIndex element);;
                store_value idxEntry (Some newBlock);;
                set (set_tailBlock (Some newBlock));;
                (if noexcept_ctor then put newBlock currentTailIndex element else mret tt);;
                set (set_tailIndex newTailIndex);;
                mret (Returned true)
          end
      end
  else
    tb ← field tailBlock;
    tb ← the tb;
    if negb noexcept_ctor && ctor_throws element then mret Threw
    else
      put tb currentTailIndex element;;
      set (set_tailIndex newTailIndex);;
      mret (Returned true).

(** ** Dequeuing *)

(** A block that is empty goes back to the queue. *)
Definition release_block (idxEntry : nat) (b : nat) : M State unit :=
  store_value idxEntry None;;
  mem (add_block_to_free_list b).

Definition dequeue : M State (option T) :=
  tail ← field tailIndex;
  overcommit ← field dequeueOvercommit;
  optimistic ← field dequeueOptimisticCount;
  if circular_less_than 64 (u64 (optimistic - overcommit)) tail then
    myDequeueCount ← field dequeueOptimisticCount;
    set (set_optimistic (u64 (myDequeueCount + 1)));;
    assert_that (overcommit <=? myDequeueCount);;
    tail ← field tailIndex;
    if circular_less_than 64 (u64 (myDequeueCount - overcommit)) tail then
      index ← field headIndex;
      set (set_headIndex (u64 (index + 1)));;
      entry ← get_block_index_entry_for_index index;
      b ← the (value entry.2);
      el ← take b index;
      blk ← mem (load_block b);
      r ← the (Block.set_empty implicit_context index blk);
      mem (store_block b (fun _ => r.2));;
      (if (r.1 : bool) then release_block entry.1 b else mret tt);;
      mret (Some el)
    else
      set (fun p => set_overcommit (u64 (dequeueOvercommit p + 1)) p);;
      mret None
  else mret None.

(** ** Bulk operations *)

(** The blocks of the chain from [block] on are taken out of the index again;
    the one at [block] has the elements after those of [cur]. *)
Fixpoint undo_blocks (fuel : nat) (block : option nat) (cur : Z) : M State unit :=
  match block, fuel with
  | None, _ => mret tt
  | Some _, O => undefined
  | Some b, S fuel =>
      let cur := u64 (cur + BLOCK_SIZE) in
      entry ← get_block_index_entry_for_index cur;
      store_value entry.1 None;;
      rewind_block_index_tail;;
      blk ← mem (load_block b);
      undo_blocks fuel (Block.next blk) cur
  end.
(** Everything that has been allocated is given back. The fuel is the number of
    blocks. *)
Definition revert (fuel : nat) (start : Z) (startBlock first : option nat) : M State unit :=
  undo_blocks fuel first (QueueTraits.base (u64 (start - 1)));;
  mem (add_blocks_to_free_list fuel first);;
  set (set_tailBlock startBlock).

(** The loop that gets the blocks: the first of them; [None] if there are not
    enough. *)
Fixpoint get_blocks (fuel : nat) (total : nat) (allocMode : AllocationMode) (start : Z) (startBlock : option nat)
    (blockBaseDiff cur : Z) (first : option nat) : M State (option (option nat)) :=
  match fuel with
  | O => undefined
  | S fuel =>
      let blockBaseDiff := u64 (blockBaseDiff - BLOCK_SIZE) in
      let cur := u64 (cur + BLOCK_SIZE) in
      head ← field headIndex;
      assert_that (negb (circular_less_than 64 cur head));;
      if full head cur then revert total start startBlock first;; mret None
      else
        idxEntry ← insert_block_index_entry allocMode cur;
        match idxEntry with
        | None => revert total start startBlock first;; mret None
        | Some idxEntry =>
            newBlock ← mem (requisition_block malloc raw_flags allocMode);
            match newBlock with
            | None =>
                rewind_block_index_tail;;
                store_value idxEntry None;;
                revert total start startBlock first;;
                mret None
            | Some newBlock =>
                mem (store_block newBlock (Block.reset_empty implicit_context));;
                mem (store_block newBlock (Block.set_next None));;
                store_value idxEntry (Some newBlock);;
                (if negb (place start =? 0) || bool_decide (first <> None) then
                   tb ← field tailBlock;
                   tb ← the tb;
                   mem (store_block tb (Block.set_next (Some newBlock)))
                 else mret tt);;
                set (set_tailBlock (Some newBlock));;
                let first := match first with None => Some newBlock | Some b => Some b end in
                if 0 <? blockBaseDiff then get_blocks fuel total allocMode start startBlock blockBaseDiff cur first
                else mret (Some first)
            end
        end
  end.

(** The loop over the blocks; the index reached if a constructor has thrown. *)
Definition fill_blocks : nat -> option nat -> Z -> Z -> list T -> M State (option Z) :=
  fill_chain noexcept_ctor ctor_throws tailBlock set_tailBlock.

(** The elements constructed before the exception destroyed. *)
Definition destroy_blocks : nat -> option nat -> option nat -> Z -> Z -> M State unit := destroy_chain.

Definition enqueue_bulk (allocMode : AllocationMode) (items : list T) : M State (outcome bool) :=
  let count := Z.of_nat (length items) in
  startTailIndex ← field tailIndex;
  startBlock ← field tailBlock;
  let first := QueueTraits.base (u64 (startTailIndex - 1)) in
  let blockBaseDiff := u64 (QueueTraits.base (u64 (startTailIndex + count - 1)) - first) in
  let fuel := S (Z.to_nat (count / BLOCK_SIZE + 1)) in
  got ← (if 0 <? blockBaseDiff
         then get_blocks fuel fuel allocMode startTailIndex startBlock blockBaseDiff first None
         else mret (Some None));
  match got with
  | None => mret (Returned false)
  | Some firstAllocatedBlock =>
      endBlock ← field tailBlock;
      let newTailIndex := u64 (startTailIndex + count) in
      assert_that (negb (place startTailIndex =? 0) || bool_decide (firstAllocatedBlock <> None) || (count =? 0));;
      let atStart := (place startTailIndex =? 0) && bool_decide (firstAllocatedBlock <> None) in
      set (set_tailBlock (if atStart then firstAllocatedBlock else startBlock));;
      thrown ← fill_blocks fuel endBlock startTailIndex newTailIndex items;
      match thrown with
      | None =>
          set (set_tailIndex newTailIndex);;
          mret (Returned true)
      | Some stop =>
          lastBlockEnqueued ← field tailBlock;
          destroy_blocks fuel (if place startTailIndex =? 0 then firstAllocatedBlock else startBlock) lastBlockEnqueued
            startTailIndex stop;;
          revert fuel startTailIndex startBlock firstAllocatedBlock;;
          mret Threw
      end
  end.

(** The loop of [dequeue_bulk] over the blocks, from the slot [indexIndex] on. *)
Fixpoint take_blocks (fuel : nat) (h : BlockIndexHeader) (indexIndex i last : Z) : M State (list T) :=
  match fuel with
  | O => undefined
  | S fuel =>
      let endIndex := stop_index i last in
      entry ← entry_at h indexIndex;
      b ← the (value entry.2);
      xs ← take_block (Z.to_nat BLOCK_SIZE) b i endIndex;
      blk ← mem (load_block b);
      r ← the (Block.set_many_empty implicit_context i (u64 (endIndex - i)) blk);
      mem (store_block b (fun _ => r.2));;
      (if (r.1 : bool) then release_block entry.1 b else mret tt);;
      if endIndex =? last then mret xs
      else
        ys ← take_blocks fuel h (u64 (indexIndex + 1) .& u64 (capacity h - 1)) endIndex last;
        mret (xs ++ ys)
  end.

Definition dequeue_bulk (max : Z) : M State (list T) :=
  tail ← field tailIndex;
  overcommit ← field dequeueOvercommit;
  optimistic ← field dequeueOptimisticCount;
  let desiredCount := u64 (tail - u64 (optimistic - overcommit)) in
  if circular_less_than 64 0 desiredCount then
    let desiredCount := if desiredCount <? max then desiredCount else max in
    myDequeueCount ← field dequeueOptimisticCount;
    set (set_optimistic (u64 (myDequeueCount + desiredCount)));;
    assert_that (overcommit <=? myDequeueCount);;
    tail ← field tailIndex;
    let actualCount := u64 (tail - u64 (myDequeueCount - overcommit)) in
    if circular_less_than 64 0 actualCount then
      let actualCount := if desiredCount <? actualCount then desiredCount else actualCount in
      (if actualCount <? desiredCount
       then set (fun p => set_overcommit (u64 (dequeueOvercommit p + (desiredCount - actualCount))) p) else mret tt);;
      firstIndex ← field headIndex;
      set (set_headIndex (u64 (firstIndex + actualCount)));;
      r ← get_block_index_index_for_index firstIndex;
      take_blocks (S (Z.to_nat (actualCount / BLOCK_SIZE + 1))) r.2 r.1 firstIndex (u64 (firstIndex + actualCount))
    else
      set (fun p => set_overcommit (u64 (dequeueOvercommit p + desiredCount)) p);;
      mret []
  else mret [].

(** ** Destruction *)

(** The loop over the elements; a block is given back when the next one is
    reached. The answer is the elements destroyed. *)
Fixpoint destroy_elements (fuel : nat) (index tail : Z) (block : option nat) : M State (list T) :=
  if index =? tail then mret []
  else
    match fuel with
    | O => undefined
    | S fuel =>
        block ←
          (if (place index =? 0) || bool_decide (block = None) then
             match block with Some b => mem (add_block_to_free_list b) | None => mret tt end;;
             entry ← get_block_index_entry_for_index index;
             mret (value entry.2)
           else mret block);
        b ← the block;
        blk ← mem (load_block b);
        el ← the (Block.get index blk);
        blk' ← the (Block.destroy index blk);
        mem (store_block b (fun _ => blk'));;
        els ← destroy_elements fuel (u64 (index + 1)) tail (Some b);
        mret (el :: els)
    end.

(** The indices freed, from the current one to the first. *)
Fixpoint free_indices (fuel : nat) (hs : list BlockIndexHeader) (n : option nat) : option (list nat) :=
  match n, fuel with
  | None, _ => Some []
  | Some _, O => None
  | Some n, S fuel =>
      match hs !! n with
      | Some h => match free_indices fuel hs (prev h) with Some l => Some (n :: l) | None => None end
      | None => None
      end
  end.

(** The elements that are destroyed and the indices that are freed. *)
Definition destructor : M State (list T * list nat) :=
  tail ← field tailIndex;
  index ← field headIndex;
  assert_that ((index =? tail) || circular_less_than 64 index tail);;
  let forceFreeLastBlock := negb (index =? tail) in
  els ← destroy_elements (Z.to_nat (u64 (tail - index))) index tail None;
  tb ← field tailBlock;
  match tb with
  | Some b => if forceFreeLastBlock || negb (place tail =? 0) then mem (add_block_to_free_list b) else mret tt
  | None => mret tt
  end;;
  hs ← field headers;
  raw ← field blockIndex;
  freed ← the (free_indices (length hs) hs raw);
  mret (els, freed).

End ImplicitProducer.
End ImplicitProducer.
