(* ===== verification/ImplicitIndex.v ===== *)
(** * The block index of an implicit producer

    The slots of the index are counted back from a position: the entry of the
    [j]-th block from the newest is in the [j]-th slot back from the tail, and
    the slots that are left are free. What each operation of the index in
    [ImplicitProducer] does to that. *)
From S2P Require Import Prelude.
From S2P Require Import QueueUtils.
From S2P Require Import QueueTraits.
From S2P Require Import QueueBlock.
From S2P Require Import BlockPool.
From S2P Require Import ProducerMemory.
From S2P Require Import BlockContents.
From S2P Require Import BlockMemory.
From S2P Require Import ImplicitProducer.
#[local] Open Scope Z_scope.
Import ImplicitProducer.

(** The entry in the [j]-th slot back from the position [r]. *)
Definition slot (ix : list nat) (cs : list BlockIndexEntry) (s r : Z) (j : nat) : option (nat * BlockIndexEntry) :=
  match ix !! Z.to_nat ((r - Z.of_nat j) `mod` s) with
  | Some c => match cs !! c with Some e => Some (c, e) | None => None end
  | None => None
  end.

Lemma slot_mod ix cs s r j : slot ix cs s (r `mod` s) j = slot ix cs s r j.
Proof. unfold slot. by rewrite Zminus_mod_idemp_l. Qed.

Lemma slot_spec ix cs s r j c e :
  slot ix cs s r j = Some (c, e) <-> ix !! Z.to_nat ((r - Z.of_nat j) `mod` s) = Some c /\ cs !! c = Some e.
Proof.
  unfold slot. split.
  - destruct (ix !! _) as [d|]; [|done]. destruct (cs !! d) eqn:E; [|done]. intros H. by injection H as <- <-.
  - by intros [-> ->].
Qed.

(** The members that are not the index. *)
Definition same_fields (p p' : t) : Prop :=
  tailIndex p' = tailIndex p /\ headIndex p' = headIndex p /\
  dequeueOptimisticCount p' = dequeueOptimisticCount p /\ dequeueOvercommit p' = dequeueOvercommit p /\
  tailBlock p' = tailBlock p.

Lemma fields_refl p : same_fields p p.
Proof. by repeat split. Qed.

Lemma fields_trans p1 p2 p3 : same_fields p1 p2 -> same_fields p2 p3 -> same_fields p1 p3.
Proof. intros (? & ? & ? & ? & ?) (? & ? & ? & ? & ?). repeat split; congruence. Qed.

#[export] Hint Resolve fields_refl : core.

Section Index.
Context {tr : Traits} (checked : static_asserts = true) (fits : BLOCK_SIZE <= 2 ^ 62) {T : Type}.
Context (malloc : nat -> bool) (raw_value : option nat).
Implicit Types (m : Memory (T := T)) (p : t) (hdr : BlockIndexHeader) (live : list nat).

Record shape p (n : nat) hdr : Prop := mkShape {
  shape_current : blockIndex p = Some n;
  shape_header : headers p !! n = Some hdr;
  shape_power : exists k, 0 <= k /\ capacity hdr = 2 ^ k;
  shape_bound : capacity hdr * BLOCK_SIZE <= 2 ^ 64;
  shape_next : nextBlockIndexCapacity p = u64 (capacity hdr * 2);
  shape_length : length (index hdr) = Z.to_nat (capacity hdr);
  shape_tail : 0 <= tail hdr < capacity hdr;
  shape_nodup : NoDup (index hdr);
  shape_cells : forall c, c ∈ index hdr -> (c < length (cells p))%nat;
  shape_last : length (headers p) = S n;
  shape_prev : forall k h, headers p !! k = Some h -> prev h = match k with O => None | S k => Some k end
}.

(** The entries back from [r]. *)
Definition entries_ok p hdr (r : Z) (good : nat -> BlockIndexEntry -> Prop) : Prop :=
  forall j, Z.of_nat j < capacity hdr -> exists c e, slot (index hdr) (cells p) (capacity hdr) r j = Some (c, e) /\ good j e.

(** The entry of a block, or a free one. *)
Definition slot_ok live (tb : Z) (j : nat) (e : BlockIndexEntry) : Prop :=
  match live !! j with
  | Some b => e = mkEntry (u64 (tb - Z.of_nat j * BLOCK_SIZE)) (Some b)
  | None => key e = INVALID_BLOCK_BASE \/ value e = None
  end.

Record index_ok p n hdr live (tb : Z) : Prop := mkIndexOk {
  index_shape : shape p n hdr;
  index_fits : Z.of_nat (length live) <= capacity hdr;
  index_entries : entries_ok p hdr (tail hdr) (slot_ok live tb)
}.

(** ** Numbers *)

Lemma capacity_power p n hdr : shape p n hdr -> exists k, 0 <= k <= 63 /\ capacity hdr = 2 ^ k.
Proof.
  intros Hs. destruct (shape_power _ _ _ Hs) as (k & Hk & E). exists k. split; [|done]. split; [done|].
  pose proof (shape_bound _ _ _ Hs). pose proof (BLOCK_SIZE_bounds checked fits).
  assert (2 ^ k <= 2 ^ 63) as Hle by (rewrite <- E; nia). by apply (Z.pow_le_mono_r_iff 2) in Hle.
Qed.

Lemma capacity_range p n hdr : shape p n hdr -> 0 < capacity hdr <= 2 ^ 63.
Proof.
  intros Hs. destruct (capacity_power _ _ _ Hs) as (k & Hk & ->).
  split; [apply Z.pow_pos_nonneg; lia|]. apply Z.pow_le_mono_r; lia.
Qed.

Lemma mask_capacity p n hdr x : shape p n hdr -> u64 x .& u64 (capacity hdr - 1) = x `mod` capacity hdr.
Proof. intros Hs. destruct (capacity_power _ _ _ Hs) as (k & Hk & ->). by apply mask_mod. Qed.

(** The slots of the index divide the index type. *)
Lemma capacity_divides p n hdr :
  shape p n hdr -> exists q, 2 ^ 64 / BLOCK_SIZE = q * capacity hdr /\ 2 ^ 64 = 2 ^ 64 / BLOCK_SIZE * BLOCK_SIZE.
Proof.
  intros Hs. destruct (capacity_power _ _ _ Hs) as (k & Hk & Es). pose proof (shape_bound _ _ _ Hs) as Hb.
  destruct (BLOCK_SIZE_power checked fits) as (l & Hl & El). rewrite Es, El in *.
  rewrite <- Z.pow_add_r in Hb by lia. apply Z.pow_le_mono_r_iff in Hb; [|lia..].
  rewrite <- Z.pow_sub_r by lia. exists (2 ^ (64 - l - k)). rewrite <- !Z.pow_add_r by lia. split; f_equal; lia.
Qed.

Lemma key_valid tb j : tb `mod` BLOCK_SIZE = 0 -> (u64 (tb - j * BLOCK_SIZE) =? INVALID_BLOCK_BASE) = false.
Proof.
  intros Htb. apply Z.eqb_neq. intros E. pose proof (BLOCK_SIZE_bounds checked fits).
  assert (place (u64 (tb - j * BLOCK_SIZE)) = 0) as Hp.
  { rewrite (place_wrap checked fits), (place_mod checked fits). rewrite <- Htb, <- (Z_mod_plus_full tb (- j) BLOCK_SIZE). f_equal. lia. }
  rewrite E, (place_mod checked fits) in Hp. unfold INVALID_BLOCK_BASE in Hp. rewrite Z.mod_small in Hp by lia. done.
Qed.

(** ** Slots *)

Lemma slot_some p n hdr r j : shape p n hdr -> exists c e, slot (index hdr) (cells p) (capacity hdr) r j = Some (c, e).
Proof.
  intros Hs. pose proof (capacity_range _ _ _ Hs) as Hc. unfold slot.
  destruct (lookup_lt_is_Some_2 (index hdr) (Z.to_nat ((r - Z.of_nat j) `mod` capacity hdr))) as [c Ec].
  { rewrite (shape_length _ _ _ Hs). pose proof (Z.mod_pos_bound (r - Z.of_nat j) (capacity hdr)). lia. }
  rewrite Ec. destruct (lookup_lt_is_Some_2 (cells p) c) as [e Ee].
  { apply (shape_cells _ _ _ Hs). by eapply list_elem_of_lookup_2. }
  exists c, e. by rewrite Ee.
Qed.

(** Different slots have different entries. *)
Lemma slot_inj p n hdr r j j' c e e' :
  shape p n hdr -> Z.of_nat j < capacity hdr -> Z.of_nat j' < capacity hdr ->
  slot (index hdr) (cells p) (capacity hdr) r j = Some (c, e) -> slot (index hdr) (cells p) (capacity hdr) r j' = Some (c, e') -> j = j'.
Proof.
  intros Hs Hj Hj' [E _]%slot_spec [E' _]%slot_spec. pose proof (capacity_range _ _ _ Hs) as Hc. set (s := capacity hdr) in *.
  pose proof (NoDup_lookup _ _ _ _ (shape_nodup _ _ _ Hs) E E') as Epos.
  pose proof (Z.mod_pos_bound (r - Z.of_nat j) s). pose proof (Z.mod_pos_bound (r - Z.of_nat j') s).
  assert ((r - Z.of_nat j) `mod` s = (r - Z.of_nat j') `mod` s) as Em by lia.
  destruct (Nat.lt_trichotomy j j') as [Hlt|[|Hlt]]; [|done|]; exfalso.
  - apply (mod_distinct s (r - Z.of_nat j') (Z.of_nat j' - Z.of_nat j)); [lia|]. rewrite <- Em. f_equal. lia.
  - apply (mod_distinct s (r - Z.of_nat j) (Z.of_nat j - Z.of_nat j')); [lia|]. rewrite Em. f_equal. lia.
Qed.

Lemma entries_weaken p hdr r (good good' : nat -> BlockIndexEntry -> Prop) :
  entries_ok p hdr r good -> (forall j e, Z.of_nat j < capacity hdr -> good j e -> good' j e) -> entries_ok p hdr r good'.
Proof. intros He Hw j Hj. destruct (He j Hj) as (c & e & E & Hg). exists c, e. split; [done|by apply Hw]. Qed.

Lemma entries_mod p hdr r good : entries_ok p hdr (r `mod` capacity hdr) good <-> entries_ok p hdr r good.
Proof. unfold entries_ok. by setoid_rewrite slot_mod. Qed.

(** The same entries counted from the next position, and from the one before. *)
Lemma entries_push p hdr r (good good' : nat -> BlockIndexEntry -> Prop) (k : nat) :
  entries_ok p hdr r good -> capacity hdr = Z.of_nat (S k) ->
  (forall e, good k e -> good' O e) -> (forall j e, Z.of_nat (S j) < capacity hdr -> good j e -> good' (S j) e) ->
  entries_ok p hdr (r + 1) good'.
Proof.
  intros He Hk H0 HS [|j] Hj.
  - destruct (He k ltac:(lia)) as (c & e & E & Hg). exists c, e. split; [|by apply H0]. rewrite <- E. unfold slot.
    replace ((r + 1 - Z.of_nat 0) `mod` capacity hdr) with ((r - Z.of_nat k) `mod` capacity hdr); [done|].
    rewrite <- (Z_mod_plus_full (r - Z.of_nat k) 1). f_equal. lia.
  - destruct (He j ltac:(lia)) as (c & e & E & Hg). exists c, e. split; [|by apply HS]. rewrite <- E. unfold slot.
    by replace (r + 1 - Z.of_nat (S j)) with (r - Z.of_nat j) by lia.
Qed.

Lemma entries_pop p hdr r (good good' : nat -> BlockIndexEntry -> Prop) (k : nat) :
  entries_ok p hdr r good -> capacity hdr = Z.of_nat (S k) ->
  (forall e, good O e -> good' k e) -> (forall j e, Z.of_nat (S j) < capacity hdr -> good (S j) e -> good' j e) ->
  entries_ok p hdr (r - 1) good'.
Proof.
  intros He Hk H0 HS j Hj. destruct (decide (j = k)) as [->|Hne].
  - destruct (He O ltac:(lia)) as (c & e & E & Hg). exists c, e. split; [|by apply H0]. rewrite <- E. unfold slot.
    replace ((r - 1 - Z.of_nat k) `mod` capacity hdr) with ((r - Z.of_nat 0) `mod` capacity hdr); [done|].
    rewrite <- (Z_mod_plus_full (r - 1 - Z.of_nat k) 1). f_equal. lia.
  - destruct (He (S j) ltac:(lia)) as (c & e & E & Hg). exists c, e. split; [|apply HS; [lia|done]]. rewrite <- E. unfold slot.
    by replace (r - Z.of_nat (S j)) with (r - 1 - Z.of_nat j) by lia.
Qed.

(** One entry written. *)
Lemma entries_write p n hdr r (good good' : nat -> BlockIndexEntry -> Prop) j c e e' :
  shape p n hdr -> entries_ok p hdr r good -> Z.of_nat j < capacity hdr ->
  slot (index hdr) (cells p) (capacity hdr) r j = Some (c, e) -> good' j e' ->
  (forall k e, k <> j -> Z.of_nat k < capacity hdr -> good k e -> good' k e) ->
  entries_ok (set_cells (<[c := e']> (cells p)) p) hdr r good'.
Proof.
  intros Hs He Hj E Hg Hother k Hk. pose proof (proj1 (slot_spec _ _ _ _ _ _ _) E) as [Ep Ec].
  destruct (decide (k = j)) as [->|Hne].
  - exists c, e'. split; [|done]. apply slot_spec. split; [done|]. apply list_lookup_insert_eq. by eapply lookup_lt_Some.
  - destruct (He k Hk) as (d & x & Ex & Hx). exists d, x. split; [|by apply Hother].
    pose proof (proj1 (slot_spec _ _ _ _ _ _ _) Ex) as [Ed Ed']. apply slot_spec. split; [done|]. cbn.
    rewrite list_lookup_insert_ne; [done|]. intros <-. apply Hne. by eapply (slot_inj p n hdr r).
Qed.

(** ** The commands *)

Lemma current_index m p n hdr : shape p n hdr -> current (m, p) = Some ((n, hdr), (m, p)).
Proof.
  intros Hs. unfold current. rewrite (bind_some _ _ _ (blockIndex p) (m, p)) by done. rewrite (shape_current _ _ _ Hs).
  rewrite (bind_some _ _ _ n (m, p)) by done. rewrite (bind_some _ _ _ (headers p) (m, p)) by done.
  by rewrite (bind_some _ _ _ _ _ (the_some _ _ _ (shape_header _ _ _ Hs))).
Qed.

Lemma entry_at_some m p hdr r j c e pos :
  slot (index hdr) (cells p) (capacity hdr) r j = Some (c, e) -> pos = (r - Z.of_nat j) `mod` capacity hdr ->
  entry_at hdr pos (m, p) = Some ((c, e), (m, p)).
Proof.
  intros [E Ec]%slot_spec ->. unfold entry_at. rewrite (bind_some _ _ _ _ _ (the_some _ _ _ E)).
  rewrite (bind_some _ _ _ (cells p) (m, p)) by done. by rewrite (bind_some _ _ _ _ _ (the_some _ _ _ Ec)).
Qed.

Lemma store_key_some m p c e k :
  cells p !! c = Some e -> store_key c k (m, p) = Some (tt, (m, set_cells (<[c := mkEntry k (value e)]> (cells p)) p)).
Proof.
  intros E. unfold store_key. rewrite (bind_some _ _ _ (cells p) (m, p)) by done.
  by rewrite (bind_some _ _ _ _ _ (the_some _ _ _ E)).
Qed.

Lemma store_value_some m p c e v :
  cells p !! c = Some e -> store_value c v (m, p) = Some (tt, (m, set_cells (<[c := mkEntry (key e) v]> (cells p)) p)).
Proof.
  intros E. unfold store_value. rewrite (bind_some _ _ _ (cells p) (m, p)) by done.
  by rewrite (bind_some _ _ _ _ _ (the_some _ _ _ E)).
Qed.

Definition with_tail (v : Z) hdr : BlockIndexHeader := mkHeader (capacity hdr) v (entries hdr) (index hdr) (prev hdr).

Lemma store_tail_some m p n hdr v :
  shape p n hdr -> store_tail v (m, p) = Some (tt, (m, set_headers (<[n := with_tail v hdr]> (headers p)) p)).
Proof. intros Hs. unfold store_tail. by rewrite (bind_some _ _ _ _ _ (current_index m p n hdr Hs)). Qed.

Lemma shape_write p n hdr c e : shape p n hdr -> shape (set_cells (<[c := e]> (cells p)) p) n hdr.
Proof. intros []. split; try done. intros d Hd. cbn. rewrite length_insert. by apply shape_cells0. Qed.

Lemma shape_with_tail p n hdr v :
  shape p n hdr -> 0 <= v < capacity hdr -> shape (set_headers (<[n := with_tail v hdr]> (headers p)) p) n (with_tail v hdr).
Proof.
  intros [] Hv. split; try done; cbn.
  - apply list_lookup_insert_eq. by eapply lookup_lt_Some.
  - by rewrite length_insert.
  - intros k h Hk. destruct (decide (n = k)) as [<-|Hne]; [|rewrite list_lookup_insert_ne in Hk by done; by apply shape_prev0].
    rewrite list_lookup_insert_eq in Hk by (by eapply lookup_lt_Some). injection Hk as <-. by apply (shape_prev0 n hdr).
Qed.

Lemma rewind_some m p n hdr :
  shape p n hdr -> exists p', rewind_block_index_tail (m, p) = Some (tt, (m, p')) /\ same_fields p p' /\ cells p' = cells p /\
    shape p' n (with_tail ((tail hdr - 1) `mod` capacity hdr) hdr).
Proof.
  intros Hs. unfold rewind_block_index_tail. rewrite (bind_some _ _ _ _ _ (current_index m p n hdr Hs)). cbn [snd].
  rewrite (mask_capacity _ _ _ _ Hs), (store_tail_some _ _ _ _ _ Hs). eexists. split; [reflexivity|]. split; [by repeat split|].
  split; [done|]. apply shape_with_tail; [done|]. apply Z.mod_pos_bound. apply (capacity_range _ _ _ Hs).
Qed.

(** Where the block of an element is found: the tail may be [i] slots back from
    [r], and the block is [j] slots back. *)
Lemma get_block_index_some m p n hdr r i j tb x ci ei c b :
  shape p n hdr -> tb `mod` BLOCK_SIZE = 0 -> tail hdr = (r - Z.of_nat i) `mod` capacity hdr ->
  Z.of_nat i < capacity hdr -> Z.of_nat j < capacity hdr ->
  slot (index hdr) (cells p) (capacity hdr) r i = Some (ci, ei) -> key ei = u64 (tb - Z.of_nat i * BLOCK_SIZE) ->
  slot (index hdr) (cells p) (capacity hdr) r j = Some (c, mkEntry (u64 (tb - Z.of_nat j * BLOCK_SIZE)) (Some b)) ->
  tb - Z.of_nat j * BLOCK_SIZE <= x < tb - Z.of_nat j * BLOCK_SIZE + BLOCK_SIZE ->
  get_block_index_index_for_index (u64 x) (m, p) = Some (((r - Z.of_nat j) `mod` capacity hdr, hdr), (m, p)) /\
  get_block_index_entry_for_index (u64 x) (m, p) = Some ((c, mkEntry (u64 (tb - Z.of_nat j * BLOCK_SIZE)) (Some b)), (m, p)).
Proof.
  intros Hs Htb Et Hi Hj Ei Ek Ej Hx. pose proof (BLOCK_SIZE_bounds checked fits) as HB. pose proof (capacity_range _ _ _ Hs) as Hc.
  pose proof (shape_bound _ _ _ Hs) as Hbound.
  assert (get_block_index_index_for_index (u64 x) (m, p) = Some (((r - Z.of_nat j) `mod` capacity hdr, hdr), (m, p))) as E.
  2:{ split; [done|]. unfold get_block_index_entry_for_index. rewrite (bind_some _ _ _ _ _ E). cbn [fst snd].
      by rewrite (entry_at_some m p hdr r j _ _ _ Ej eq_refl). }
  unfold get_block_index_index_for_index. rewrite (base_in checked fits (tb - Z.of_nat j * BLOCK_SIZE)) by (done || by apply back_mod).
  rewrite (bind_some _ _ _ _ _ (current_index m p n hdr Hs)). cbn [snd].
  rewrite (bind_some _ _ _ _ _ (entry_at_some m p hdr r i _ _ _ Ei Et)). cbn [snd]. rewrite Ek, key_valid by done.
  rewrite (bind_some _ _ _ tt (m, p)) by done.
  set (offset := u64 (u64 (tb - Z.of_nat j * BLOCK_SIZE) - u64 (tb - Z.of_nat i * BLOCK_SIZE)) / BLOCK_SIZE).
  assert ((tail hdr + offset) `mod` capacity hdr = (r - Z.of_nat j) `mod` capacity hdr) as Eidx.
  { rewrite Et, Zplus_mod_idemp_l. destruct (capacity_divides _ _ _ Hs) as (q & Eq & EB).
    unfold offset. rewrite wrap_sub_l, wrap_sub_r.
    replace (tb - Z.of_nat j * BLOCK_SIZE - (tb - Z.of_nat i * BLOCK_SIZE)) with ((Z.of_nat i - Z.of_nat j) * BLOCK_SIZE) by lia.
    destruct (Z.le_gt_cases (Z.of_nat j) (Z.of_nat i)).
    - rewrite wrap_small by (unfold in_width; nia). rewrite Z.div_mul by lia. f_equal. lia.
    - rewrite <- (wrap_period 64 _ 1), Z.mul_1_l, wrap_small by (unfold in_width; nia).
      rewrite EB, <- Z.mul_add_distr_r, Z.div_mul by lia. rewrite Eq.
      rewrite <- (Z_mod_plus_full (r - Z.of_nat j) q). f_equal. lia. }
  rewrite (mask_capacity _ _ _ _ Hs), Eidx.
  rewrite (bind_some _ _ _ _ _ (entry_at_some m p hdr r j _ _ _ Ej eq_refl)). cbn [snd key value].
  by rewrite Z.eqb_refl, bool_decide_eq_true_2 by done.
Qed.

(** ** A larger index *)

Lemma copy_index_spec p n hdr fuel d :
  shape p n hdr -> 0 < Z.of_nat d <= capacity hdr -> (d <= fuel)%nat ->
  exists l, copy_index fuel hdr ((tail hdr - Z.of_nat d) `mod` capacity hdr) = Some l /\ length l = d /\
    forall q, (q < d)%nat -> l !! q = index hdr !! Z.to_nat ((tail hdr - Z.of_nat d + 1 + Z.of_nat q) `mod` capacity hdr).
Proof.
  intros Hs. pose proof (capacity_range _ _ _ Hs) as Hc. revert fuel. induction d as [|d IH]; intros fuel Hd Hf; [lia|].
  destruct fuel as [|fuel]; [lia|]. cbn [copy_index].
  set (s := capacity hdr) in *. set (pos := (tail hdr - Z.of_nat (S d)) `mod` s).
  assert (u64 (pos + 1) .& u64 (s - 1) = (tail hdr - Z.of_nat d) `mod` s) as ->.
  { unfold s at 1. rewrite (mask_capacity _ _ _ _ Hs). unfold pos. fold s. rewrite Zplus_mod_idemp_l. f_equal. lia. }
  pose proof (Z.mod_pos_bound (tail hdr - Z.of_nat d) s ltac:(lia)) as Hmod.
  destruct (lookup_lt_is_Some_2 (index hdr) (Z.to_nat ((tail hdr - Z.of_nat d) `mod` s))) as [c Ec].
  { rewrite (shape_length _ _ _ Hs). fold s. lia. }
  rewrite Ec. pose proof (shape_tail _ _ _ Hs) as Ht. fold s in Ht.
  destruct (Z.eqb_spec ((tail hdr - Z.of_nat d) `mod` s) (tail hdr)) as [E|E].
  - assert (d = O) as ->.
    { destruct d as [|d]; [done|]. exfalso. apply (mod_distinct s (tail hdr - Z.of_nat (S d)) (Z.of_nat (S d))); [lia|].
      rewrite E, Z.sub_add. by apply Z.mod_small. }
    exists [c]. split; [done|]. split; [done|]. intros [|q] Hq; [|lia]. cbn. rewrite <- Ec. do 3 f_equal. lia.
  - destruct d as [|d]; [by rewrite Z.sub_0_r, Z.mod_small in E|].
    destruct (IH fuel) as (l & -> & Hl & Hq); [lia|lia|]. exists (c :: l). split; [done|]. split; [by cbn; rewrite Hl|].
    intros [|q] Hlt; cbn [lookup list_lookup].
    + rewrite <- Ec. do 3 f_equal. lia.
    + rewrite Hq by lia. do 3 f_equal. lia.
Qed.

Lemma slot_more ix cs s r j c e cs' : slot ix cs s r j = Some (c, e) -> slot ix (cs ++ cs') s r j = Some (c, e).
Proof. intros [E Ec]%slot_spec. apply slot_spec. split; [done|]. by apply lookup_app_l_Some. Qed.

(** The copy starts after the tail and ends with it. *)
Definition copied hdr (l : list nat) : Prop :=
  length l = Z.to_nat (capacity hdr) /\
  forall q, (q < Z.to_nat (capacity hdr))%nat -> l !! q = index hdr !! Z.to_nat ((tail hdr + 1 + Z.of_nat q) `mod` capacity hdr).

Lemma copy_index_some p n hdr :
  shape p n hdr -> exists l, copy_index (Z.to_nat (capacity hdr)) hdr (tail hdr) = Some l /\ copied hdr l.
Proof.
  intros Hs. pose proof (capacity_range _ _ _ Hs) as Hc. set (s := capacity hdr) in *.
  destruct (copy_index_spec p n hdr (Z.to_nat s) (Z.to_nat s) Hs) as (l & El & Hl & Hq); [fold s; lia|lia|]. fold s in El, Hq.
  assert ((tail hdr - Z.of_nat (Z.to_nat s)) `mod` s = tail hdr) as Et.
  { rewrite <- (Z_mod_plus_full _ 1), Z.mul_1_l, Z2Nat.id, Z.sub_add by lia. apply Z.mod_small. apply (shape_tail _ _ _ Hs). }
  rewrite Et in El. exists l. split; [done|]. split; [done|]. intros q Hlt. rewrite Hq by done.
  f_equal. f_equal. fold s. rewrite <- (Z_mod_plus_full _ 1). f_equal. lia.
Qed.

Lemma copied_lookup p n hdr l q c :
  shape p n hdr -> copied hdr l -> l !! q = Some c ->
  (q < Z.to_nat (capacity hdr))%nat /\ index hdr !! Z.to_nat ((tail hdr + 1 + Z.of_nat q) `mod` capacity hdr) = Some c /\
  (c < length (cells p))%nat.
Proof.
  intros Hs [Hl Hq] E. pose proof (lookup_lt_Some _ _ _ E). rewrite Hq in E by lia. split; [lia|]. split; [done|].
  apply (shape_cells _ _ _ Hs). by eapply list_elem_of_lookup_2.
Qed.

Lemma copied_nodup p n hdr l : shape p n hdr -> copied hdr l -> NoDup l.
Proof.
  intros Hs Hl. pose proof (capacity_range _ _ _ Hs) as Hc. apply NoDup_alt. intros q1 q2 c E1 E2.
  destruct (copied_lookup _ _ _ _ _ _ Hs Hl E1) as (H1 & I1 & _). destruct (copied_lookup _ _ _ _ _ _ Hs Hl E2) as (H2 & I2 & _).
  set (s := capacity hdr) in *. pose proof (NoDup_lookup _ _ _ _ (shape_nodup _ _ _ Hs) I1 I2) as Epos.
  pose proof (Z.mod_pos_bound (tail hdr + 1 + Z.of_nat q1) s). pose proof (Z.mod_pos_bound (tail hdr + 1 + Z.of_nat q2) s).
  assert ((tail hdr + 1 + Z.of_nat q1) `mod` s = (tail hdr + 1 + Z.of_nat q2) `mod` s) as Emod by lia.
  destruct (Nat.lt_trichotomy q1 q2) as [Hlt|[|Hlt]]; [|done|]; exfalso.
  - apply (mod_distinct s (tail hdr + 1 + Z.of_nat q1) (Z.of_nat q2 - Z.of_nat q1)); [lia|]. rewrite Emod. f_equal. lia.
  - apply (mod_distinct s (tail hdr + 1 + Z.of_nat q2) (Z.of_nat q1 - Z.of_nat q2)); [lia|]. rewrite <- Emod. f_equal. lia.
Qed.

(** The new index, and the producer with it. *)
Definition larger p n hdr (l : list nat) : BlockIndexHeader :=
  mkHeader (capacity hdr * 2) (capacity hdr - 1) (length (cells p)) (l ++ seq (length (cells p)) (Z.to_nat (capacity hdr))) (Some n).
Definition grown p n hdr (l : list nat) : t :=
  mk (tailIndex p) (headIndex p) (dequeueOptimisticCount p) (dequeueOvercommit p) (tailBlock p) (u64 (capacity hdr * 2 * 2))
    (Some (length (headers p))) (headers p ++ [larger p n hdr l])
    (cells p ++ replicate (Z.to_nat (capacity hdr)) (mkEntry INVALID_BLOCK_BASE raw_value)).

Lemma new_block_index_some m p n hdr :
  shape p n hdr -> capacity hdr * BLOCK_SIZE <= 2 ^ 63 -> exists l, copied hdr l /\
  new_block_index malloc raw_value (m, p) =
    Some (malloc (mallocs m), (set_mallocs (S (mallocs m)) m, if malloc (mallocs m) then grown p n hdr l else p)).
Proof.
  intros Hs Hb. pose proof (capacity_range _ _ _ Hs) as Hc. pose proof (BLOCK_SIZE_bounds checked fits) as HB.
  destruct (copy_index_some p n hdr Hs) as (l & El & Hl). exists l. split; [done|].
  unfold new_block_index. rewrite (bind_some _ _ _ (blockIndex p) (m, p)), (bind_some _ _ _ (headers p) (m, p)),
    (bind_some _ _ _ (nextBlockIndexCapacity p) (m, p)) by done. rewrite (shape_current _ _ _ Hs).
  rewrite (bind_some _ _ _ (Some hdr) (m, p)).
  2:{ by rewrite (bind_some _ _ _ _ _ (the_some _ _ _ (shape_header _ _ _ Hs))). }
  set (m1 := set_mallocs (S (mallocs m)) m). rewrite (bind_some _ _ _ (malloc (mallocs m)) (m1, p)) by done.
  destruct (malloc (mallocs m)); [|done].
  destruct (shape_power _ _ _ Hs) as (k & Hk & Ek). set (s := capacity hdr) in *.
  assert (nextBlockIndexCapacity p = s * 2) as ->.
  { rewrite (shape_next _ _ _ Hs). fold s. apply wrap_small. unfold in_width. nia. }
  rewrite (bind_some _ _ _ l (m1, p)) by (by apply the_some). destruct Hl as [Hl _]. fold s in Hl.
  rewrite (bind_some _ _ _ tt (m1, p)) by (apply assert_true, Z.eqb_eq; rewrite Hl; lia).
  assert (s * 2 = 2 ^ (k + 1)) as E2 by (rewrite Z.pow_add_r, <- Ek by lia; lia).
  assert (2 ^ (k + 1) <= 2 ^ 63) as Hle by nia. apply Z.pow_le_mono_r_iff in Hle; [|lia..].
  assert (u64 (s - 1) .& u64 (s * 2 - 1) = s - 1) as Et by (rewrite E2, mask_mod, <- E2 by lia; apply Z.mod_small; lia).
  cbv zeta. rewrite Et. unfold grown, larger. fold s. rewrite Z.shiftl_mul_pow2 by lia. done.
Qed.

Lemma grown_shape p n hdr l :
  shape p n hdr -> capacity hdr * BLOCK_SIZE <= 2 ^ 63 -> copied hdr l -> shape (grown p n hdr l) (length (headers p)) (larger p n hdr l).
Proof.
  intros Hs Hb Hl. pose proof (capacity_range _ _ _ Hs) as Hc. destruct (shape_power _ _ _ Hs) as (k & Hk & Ek).
  split; cbn; try done; try lia.
  - by apply list_lookup_middle.
  - exists (k + 1). split; [lia|]. rewrite Z.pow_add_r, <- Ek by lia. lia.
  - rewrite length_app, length_seq, (proj1 Hl). lia.
  - apply NoDup_app. split; [by eapply copied_nodup|]. split; [|apply NoDup_seq].
    intros c [q Eq]%list_elem_of_lookup Hcseq%elem_of_seq. pose proof (copied_lookup _ _ _ _ _ _ Hs Hl Eq). lia.
  - intros c Hin. rewrite length_app, length_replicate. apply elem_of_app in Hin as [[q Eq]%list_elem_of_lookup|Hin%elem_of_seq]; [|lia].
    pose proof (copied_lookup _ _ _ _ _ _ Hs Hl Eq). lia.
  - rewrite length_app. cbn. lia.
  - intros q h Hq. apply lookup_app_Some in Hq as [Hq|[Hge Hq]]; [by apply (shape_prev _ _ _ Hs)|].
    apply list_lookup_singleton_Some in Hq as [Hq <-]. cbn. pose proof (shape_last _ _ _ Hs). by replace q with (S n) by lia.
Qed.

(** The old entries come first, counted back from the tail, and then new ones. *)
Lemma grown_old p n hdr l j c e :
  shape p n hdr -> copied hdr l -> Z.of_nat j < capacity hdr -> slot (index hdr) (cells p) (capacity hdr) (tail hdr) j = Some (c, e) ->
  slot (index (larger p n hdr l)) (cells (grown p n hdr l)) (capacity hdr * 2) (capacity hdr - 1) j = Some (c, e).
Proof.
  intros Hs [Hl Hq] Hj [E Ee]%slot_spec. pose proof (capacity_range _ _ _ Hs) as Hc. set (s := capacity hdr) in *.
  apply slot_spec. split; [|by apply lookup_app_l_Some]. rewrite Z.mod_small by lia. apply lookup_app_l_Some.
  replace (Z.to_nat (s - 1 - Z.of_nat j)) with (Z.to_nat s - 1 - j)%nat by lia. rewrite Hq by lia.
  rewrite <- E. do 2 f_equal. rewrite <- (Z_mod_plus_full (tail hdr - Z.of_nat j) 1). f_equal. lia.
Qed.

Lemma grown_free p n hdr l j :
  shape p n hdr -> copied hdr l -> capacity hdr <= Z.of_nat j < capacity hdr * 2 -> exists c,
  slot (index (larger p n hdr l)) (cells (grown p n hdr l)) (capacity hdr * 2) (capacity hdr - 1) j = Some (c, mkEntry INVALID_BLOCK_BASE raw_value).
Proof.
  intros Hs [Hl _] Hj. pose proof (capacity_range _ _ _ Hs) as Hc. set (s := capacity hdr) in *. set (e := Z.to_nat s).
  exists (length (cells p) + (2 * e - 1 - j))%nat. apply slot_spec. split.
  - rewrite <- (Z_mod_plus_full _ 1), Z.mul_1_l, Z.mod_small by lia. unfold larger. fold s. cbn [index].
    rewrite lookup_app_r, Hl by (rewrite Hl; lia). apply lookup_seq. lia.
  - cbn. fold s. rewrite lookup_app_r by lia. apply lookup_replicate_2. lia.
Qed.

Lemma larger_index_spec m p n hdr live tb :
  index_ok p n hdr live tb -> capacity hdr * BLOCK_SIZE <= 2 ^ 63 ->
  exists p', new_block_index malloc raw_value (m, p) = Some (malloc (mallocs m), (set_mallocs (S (mallocs m)) m, p')) /\ same_fields p p' /\
    if malloc (mallocs m)
    then exists n' hdr' c v, index_ok p' n' hdr' live tb /\ capacity hdr' = capacity hdr * 2 /\
      slot (index hdr') (cells p') (capacity hdr') (tail hdr' + 1) 0 = Some (c, mkEntry INVALID_BLOCK_BASE v)
    else p' = p.
Proof.
  intros [Hs Hfit He] Hb. pose proof (capacity_range _ _ _ Hs) as Hc.
  destruct (new_block_index_some m p n hdr Hs Hb) as (l & Hl & E). eexists. split; [exact E|].
  destruct (malloc (mallocs m)); [|by split]. split; [by repeat split|]. set (s := capacity hdr) in *.
  destruct (grown_free p n hdr l (2 * Z.to_nat s - 1) Hs Hl) as [cN EN]; [fold s; lia|]. fold s in EN.
  exists (length (headers p)), (larger p n hdr l), cN, raw_value. split; [|split; [done|]].
  - split; [by apply grown_shape|cbn; fold s; lia|]. intros j Hj. cbn [capacity larger tail]. fold s.
    destruct (decide (Z.of_nat j < s)) as [Hlt|Hge].
    + destruct (He j Hlt) as (c & e & Ee & Hg). exists c, e. split; [|done]. by apply grown_old.
    + destruct (grown_free p n hdr l j Hs Hl) as [c Ec]; [cbn in Hj; fold s in Hj |- *; lia|]. eexists c, _. split; [exact Ec|].
      unfold slot_ok. rewrite (proj2 (lookup_ge_None _ _)) by lia. by left.
  - rewrite <- EN. cbn [capacity larger tail]. fold s. unfold slot.
    replace ((s - 1 + 1 - Z.of_nat 0) `mod` (s * 2)) with ((s - 1 - Z.of_nat (2 * Z.to_nat s - 1)) `mod` (s * 2)); [done|].
    rewrite <- (Z_mod_plus_full (s - 1 - Z.of_nat (2 * Z.to_nat s - 1)) 1). f_equal. lia.
Qed.

(** ** An entry for a new block *)

(** The entry [c] has been taken for the block after the newest one. *)
Record pending p n hdr (c : nat) live (tb : Z) : Prop := mkPending {
  pending_shape : shape p n hdr;
  pending_fits : Z.of_nat (length live) < capacity hdr;
  pending_new : exists v, slot (index hdr) (cells p) (capacity hdr) (tail hdr) 0 = Some (c, mkEntry (u64 (tb + BLOCK_SIZE)) v);
  pending_rest : entries_ok p hdr (tail hdr) (fun j e => match j with O => True | S j => slot_ok live tb j e end)
}.

Lemma take_slot_some m p n hdr c e live tb :
  index_ok p n hdr live tb -> Z.of_nat (length live) < capacity hdr ->
  slot (index hdr) (cells p) (capacity hdr) (tail hdr + 1) 0 = Some (c, e) ->
  exists p' hdr', take_slot (u64 (tb + BLOCK_SIZE)) c ((tail hdr + 1) `mod` capacity hdr) (m, p) = Some (Some c, (m, p')) /\
    same_fields p p' /\ pending p' n hdr' c live tb.
Proof.
  intros [Hs Hfit He] Hlt E. pose proof (capacity_range _ _ _ Hs) as Hc. pose proof (proj1 (slot_spec _ _ _ _ _ _ _) E) as [Epos Ec].
  unfold take_slot. rewrite (bind_some _ _ _ _ _ (store_key_some m p c e _ Ec)).
  set (p1 := set_cells _ p). assert (shape p1 n hdr) as Hs1 by (by apply shape_write).
  rewrite (bind_some _ _ _ _ _ (store_tail_some m p1 n hdr _ Hs1)).
  exists (set_headers (<[n := with_tail ((tail hdr + 1) `mod` capacity hdr) hdr]> (headers p1)) p1), (with_tail ((tail hdr + 1) `mod` capacity hdr) hdr).
  split; [done|]. split; [by repeat split|].
  assert (entries_ok p hdr (tail hdr + 1) (fun j e => match j with O => True | S j => slot_ok live tb j e end)) as He1.
  { eapply (entries_push _ _ _ _ _ (Z.to_nat (capacity hdr) - 1)); [exact He|lia|done|done]. }
  assert (entries_ok p1 hdr (tail hdr + 1) (fun j e => match j with O => True | S j => slot_ok live tb j e end)) as He2.
  { eapply entries_write; [exact Hs|exact He1| |exact E|done|done]. lia. }
  split; [apply shape_with_tail; [done|apply Z.mod_pos_bound; lia]|done| |].
  - exists (value e). cbn [index capacity tail with_tail]. rewrite slot_mod. apply slot_spec. split; [done|].
    cbn. apply list_lookup_insert_eq. by eapply lookup_lt_Some.
  - apply (entries_mod p1 hdr). exact He2.
Qed.

Lemma next_slot_some m p n hdr c e :
  shape p n hdr -> slot (index hdr) (cells p) (capacity hdr) (tail hdr + 1) 0 = Some (c, e) ->
  next_slot (m, p) = Some (((tail hdr + 1) `mod` capacity hdr, (c, e)), (m, p)).
Proof.
  intros Hs E. unfold next_slot. rewrite (bind_some _ _ _ _ _ (current_index m p n hdr Hs)). cbn [snd]. rewrite (mask_capacity _ _ _ _ Hs).
  by rewrite (bind_some _ _ _ _ _ (entry_at_some m p hdr _ 0 c e ((tail hdr + 1) `mod` capacity hdr) E ltac:(f_equal; lia))).
Qed.

(** The slot after the tail is the last one back. *)
Lemma after_tail p hdr (k : nat) : capacity hdr = Z.of_nat (S k) ->
  slot (index hdr) (cells p) (capacity hdr) (tail hdr + 1) 0 = slot (index hdr) (cells p) (capacity hdr) (tail hdr) k.
Proof.
  intros Hk. unfold slot. replace ((tail hdr + 1 - Z.of_nat 0) `mod` capacity hdr) with ((tail hdr - Z.of_nat k) `mod` capacity hdr); [done|].
  rewrite <- (Z_mod_plus_full (tail hdr - Z.of_nat k) 1). f_equal. lia.
Qed.

Lemma insert_block_index_entry_spec mode m p n hdr live tb :
  index_ok p n hdr live tb -> tb `mod` BLOCK_SIZE = 0 -> Z.of_nat (length live) * BLOCK_SIZE <= 2 ^ 63 ->
  exists o m' p', insert_block_index_entry malloc raw_value mode (u64 (tb + BLOCK_SIZE)) (m, p) = Some (o, (m', p')) /\ same_fields p p' /\
    (m' = m \/ m' = set_mallocs (S (mallocs m)) m) /\
    match o with
    | Some c => exists n' hdr', pending p' n' hdr' c live tb
    | None => p' = p /\ unavailable malloc mode m m'
    end.
Proof.
  intros Hi Htb Hb. pose proof Hi as [Hs Hfit He]. pose proof (capacity_range _ _ _ Hs) as Hc. set (k := (Z.to_nat (capacity hdr) - 1)%nat).
  assert (capacity hdr = Z.of_nat (S k)) as Hk by lia. destruct (He k ltac:(lia)) as (c & e & E & Hg).
  rewrite <- (after_tail p hdr k Hk) in E.
  unfold insert_block_index_entry. rewrite (bind_some _ _ _ _ _ (next_slot_some m p n hdr c e Hs E)). cbn [fst snd].
  unfold slot_ok in Hg. destruct (live !! k) as [b|] eqn:Eb.
  - subst e. cbn [key value]. rewrite key_valid, bool_decide_eq_false_2 by done. cbn [orb].
    apply lookup_lt_Some in Eb. destruct mode; [|exists None, m, p; split; [done|]; split; [done|]; split; [by left|]; split; [done|by left]].
    destruct (larger_index_spec m p n hdr live tb Hi ltac:(nia)) as (p1 & E1 & Hsf & Hok). rewrite (bind_some _ _ _ _ _ E1).
    destruct (malloc (mallocs m)) eqn:Em; [|subst p1; exists None; do 2 eexists; split; [reflexivity|]; split; [done|]; split; [by right|]; split; [done|by apply unavailable_next; right]].
    destruct Hok as (n' & hdr' & c' & v & Hi' & Ec' & Es').
    rewrite (bind_some _ _ _ _ _ (next_slot_some _ p1 n' hdr' c' _ (index_shape _ _ _ _ _ Hi') Es')). cbn [fst snd key].
    rewrite (bind_some _ _ _ tt (set_mallocs (S (mallocs m)) m, p1)) by done.
    destruct (take_slot_some (set_mallocs (S (mallocs m)) m) p1 n' hdr' c' _ live tb Hi' ltac:(lia) Es') as (p2 & hdr2 & E2 & Hsf2 & Hp).
    exists (Some c'). do 2 eexists. split; [exact E2|]. split; [by eapply fields_trans|]. split; [by right|]. by exists n', hdr2.
  - assert ((key e =? INVALID_BLOCK_BASE) || bool_decide (value e = None) = true) as ->.
    { apply orb_true_iff. destruct Hg as [Hg|Hg]; [left; by apply Z.eqb_eq|right; by apply bool_decide_eq_true]. }
    apply lookup_ge_None in Eb.
    destruct (take_slot_some m p n hdr c e live tb Hi ltac:(lia) E) as (p2 & hdr2 & E2 & Hsf2 & Hp).
    exists (Some c). do 2 eexists. split; [exact E2|]. split; [done|]. split; [by left|]. by exists n, hdr2.
Qed.

(** The block is entered, or the entry is given back. *)
Lemma pending_commit m p n hdr c live tb b :
  pending p n hdr c live tb -> exists p', store_value c (Some b) (m, p) = Some (tt, (m, p')) /\ same_fields p p' /\
    index_ok p' n hdr (b :: live) (tb + BLOCK_SIZE).
Proof.
  intros [Hs Hfit (v & E) He]. pose proof (capacity_range _ _ _ Hs) as Hc. pose proof (proj1 (slot_spec _ _ _ _ _ _ _) E) as [_ Ec].
  rewrite (store_value_some m p c _ _ Ec). eexists. split; [reflexivity|]. split; [by repeat split|].
  split; [by apply shape_write|cbn [length]; lia|].
  eapply entries_write; [exact Hs|exact He| |exact E| |]; [lia| |].
  - unfold slot_ok. cbn. by rewrite Z.mul_0_l, Z.sub_0_r.
  - intros [|j] e' Hj Hlt; [done|]. unfold slot_ok. cbn [lookup list_lookup].
    by replace (tb + BLOCK_SIZE - Z.of_nat (S j) * BLOCK_SIZE) with (tb - Z.of_nat j * BLOCK_SIZE) by lia.
Qed.

Lemma pending_undo m p n hdr c live tb :
  pending p n hdr c live tb -> exists p' hdr',
    (forall A (k : M (Memory (T := T) * t) A), (rewind_block_index_tail;; store_value c None;; k) (m, p) = k (m, p')) /\
    same_fields p p' /\ index_ok p' n hdr' live tb.
Proof.
  intros [Hs Hfit (v & E) He]. pose proof (capacity_range _ _ _ Hs) as Hc. pose proof (proj1 (slot_spec _ _ _ _ _ _ _) E) as [Epos Ec].
  destruct (rewind_some m p n hdr Hs) as (p1 & E1 & Hsf & Ecells & Hs1). rewrite <- Ecells in Ec.
  exists (set_cells (<[c := mkEntry (u64 (tb + BLOCK_SIZE)) None]> (cells p1)) p1), (with_tail ((tail hdr - 1) `mod` capacity hdr) hdr). split.
  { intros A k. rewrite (bind_some _ _ _ _ _ E1). by rewrite (bind_some _ _ _ _ _ (store_value_some m p1 c _ None Ec)). }
  split; [done|]. set (k := (Z.to_nat (capacity hdr) - 1)%nat).
  assert (entries_ok p1 (with_tail ((tail hdr - 1) `mod` capacity hdr) hdr) (tail hdr)
    (fun j e => match j with O => True | S j => slot_ok live tb j e end)) as He1.
  { unfold entries_ok. cbn [index capacity with_tail]. by rewrite Ecells. }
  split; [by apply shape_write|cbn; lia|]. apply (entries_mod _ (with_tail _ hdr)).
  eapply (entries_pop _ _ _ (fun j e => match j with O => value e = None | S j => slot_ok live tb j e end) _ k); [|cbn; lia| |].
  - eapply (entries_write _ _ _ _ _ _ O); [exact Hs1|exact He1|cbn; lia| |done|].
    + cbn [index capacity with_tail]. rewrite Ecells. exact E.
    + by intros [|j].
  - intros e Hv. unfold slot_ok. rewrite (proj2 (lookup_ge_None _ _)) by lia. by right.
  - done.
Qed.

(** ** The entry of a block that is given back *)

Lemma release_index m p n hdr live b tb c e :
  index_ok p n hdr (live ++ [b]) tb -> slot (index hdr) (cells p) (capacity hdr) (tail hdr) (length live) = Some (c, e) ->
  exists p', store_value c None (m, p) = Some (tt, (m, p')) /\ same_fields p p' /\ index_ok p' n hdr live tb.
Proof.
  intros [Hs Hfit He] E. rewrite length_app in Hfit. cbn [length] in Hfit. pose proof (proj1 (slot_spec _ _ _ _ _ _ _) E) as [_ Ec].
  rewrite (store_value_some m p c _ _ Ec). eexists. split; [reflexivity|]. split; [by repeat split|].
  split; [by apply shape_write|lia|].
  eapply entries_write; [exact Hs|exact He| |exact E| |]; [lia| |].
  - unfold slot_ok. rewrite (proj2 (lookup_ge_None _ _)) by lia. by right.
  - intros j e' Hj Hlt. unfold slot_ok. destruct (decide (j < length live)%nat).
    + by rewrite lookup_app_l by lia.
    + rewrite !(proj2 (lookup_ge_None _ _)); [done|lia|rewrite length_app; cbn; lia].
Qed.

(** The block [j] back from the newest is found for each of its elements. *)
Lemma find_block m p n hdr live tb j b x :
  index_ok p n hdr live tb -> tb `mod` BLOCK_SIZE = 0 -> live !! j = Some b ->
  tb - Z.of_nat j * BLOCK_SIZE <= x < tb - Z.of_nat j * BLOCK_SIZE + BLOCK_SIZE ->
  exists c, slot (index hdr) (cells p) (capacity hdr) (tail hdr) j = Some (c, mkEntry (u64 (tb - Z.of_nat j * BLOCK_SIZE)) (Some b)) /\
    get_block_index_index_for_index (u64 x) (m, p) = Some (((tail hdr - Z.of_nat j) `mod` capacity hdr, hdr), (m, p)) /\
    get_block_index_entry_for_index (u64 x) (m, p) = Some ((c, mkEntry (u64 (tb - Z.of_nat j * BLOCK_SIZE)) (Some b)), (m, p)).
Proof.
  intros [Hs Hfit He] Htb Hj Hx. pose proof (capacity_range _ _ _ Hs) as Hc. pose proof (lookup_lt_Some _ _ _ Hj) as Hlt.
  destruct (He j ltac:(lia)) as (c & e & E & Hg). unfold slot_ok in Hg. rewrite Hj in Hg. subst e. exists c. split; [done|].
  destruct (He O ltac:(lia)) as (c0 & e0 & E0 & Hg0). destruct (lookup_lt_is_Some_2 live 0 ltac:(lia)) as [b0 Eb0].
  unfold slot_ok in Hg0. rewrite Eb0 in Hg0. subst e0.
  eapply (get_block_index_some m p n hdr (tail hdr) 0 j tb x); try done; try lia.
  rewrite Z.sub_0_r. symmetry. apply Z.mod_small. apply (shape_tail _ _ _ Hs).
Qed.

(** ** The entries of several new blocks given back *)

(** Counted from further back. *)
Lemma entries_shift p hdr r (d : nat) (good good' : nat -> BlockIndexEntry -> Prop) :
  entries_ok p hdr r good -> 0 < capacity hdr ->
  (forall j e, Z.of_nat j < capacity hdr -> good (Z.to_nat ((Z.of_nat j + Z.of_nat d) `mod` capacity hdr)) e -> good' j e) ->
  entries_ok p hdr (r - Z.of_nat d) good'.
Proof.
  intros He Hc Hg j Hj. set (s := capacity hdr) in *. pose proof (Z.mod_pos_bound (Z.of_nat j + Z.of_nat d) s Hc) as Hm.
  destruct (He (Z.to_nat ((Z.of_nat j + Z.of_nat d) `mod` s))) as (c & e & E & Hge); [fold s; lia|].
  exists c, e. split; [|by apply Hg]. rewrite <- E. unfold slot. fold s. rewrite Z2Nat.id by lia.
  rewrite Zminus_mod_idemp_r. by replace (r - (Z.of_nat j + Z.of_nat d)) with (r - Z.of_nat d - Z.of_nat j) by lia.
Qed.

(** The newest blocks [news], the oldest of them first, with the first [u] of
    them given back. *)
Definition undone news live (tb : Z) (u : nat) (j : nat) (e : BlockIndexEntry) : Prop :=
  if decide (j < length news)%nat
  then key e = u64 (tb + Z.of_nat (length news - j) * BLOCK_SIZE) /\
       value e = if decide (length news - 1 - j < u)%nat then None else news !! (length news - 1 - j)%nat
  else slot_ok live tb (j - length news) e.

Lemma slot_ok_undone news live tb j e :
  slot_ok (reverse news ++ live) (tb + Z.of_nat (length news) * BLOCK_SIZE) j e -> undone news live tb 0 j e.
Proof.
  unfold slot_ok, undone. case_decide as Hj.
  - rewrite lookup_app_l by (rewrite length_reverse; lia). rewrite decide_False by lia.
    rewrite reverse_lookup by lia. replace (length news - S j)%nat with (length news - 1 - j)%nat by lia.
    destruct (lookup_lt_is_Some_2 news (length news - 1 - j)%nat) as [b ->]; [lia|]. intros ->. cbn. split; [|done]. f_equal. rewrite Nat2Z.inj_sub by lia. lia.
  - rewrite lookup_app_r, length_reverse by (rewrite length_reverse; lia).
    replace (tb + Z.of_nat (length news) * BLOCK_SIZE - Z.of_nat j * BLOCK_SIZE) with (tb - Z.of_nat (j - length news) * BLOCK_SIZE) by
      (rewrite Nat2Z.inj_sub by lia; lia). done.
Qed.

(** The next one given back. *)
Lemma undo_step m p n hdr r news live tb u :
  shape p n hdr -> tb `mod` BLOCK_SIZE = 0 -> Z.of_nat (length news) + Z.of_nat (length live) <= capacity hdr ->
  tail hdr = (r - Z.of_nat u) `mod` capacity hdr -> (u < length news)%nat -> entries_ok p hdr r (undone news live tb u) ->
  exists p' hdr' c e, get_block_index_entry_for_index (u64 (tb + Z.of_nat (S u) * BLOCK_SIZE)) (m, p) = Some ((c, e), (m, p)) /\
    (forall A (k : M (Memory (T := T) * t) A), (store_value c None;; rewind_block_index_tail;; k) (m, p) = k (m, p')) /\
    same_fields p p' /\ shape p' n hdr' /\ capacity hdr' = capacity hdr /\ tail hdr' = (r - Z.of_nat (S u)) `mod` capacity hdr /\
    entries_ok p' hdr' r (undone news live tb (S u)).
Proof.
  intros Hs Htb Hfit Et Hu He. pose proof (capacity_range _ _ _ Hs) as Hc. pose proof (BLOCK_SIZE_bounds checked fits).
  set (j := (length news - 1 - u)%nat). destruct (He j) as (c & e & E & Hg); [lia|].
  destruct (He u) as (c0 & e0 & E0 & Hg0); [lia|]. unfold undone in Hg, Hg0.
  rewrite decide_True in Hg by lia. rewrite decide_True in Hg0 by lia. destruct Hg as [Hk Hv], Hg0 as [Hk0 _].
  rewrite decide_False in Hv by lia. replace (length news - 1 - j)%nat with u in Hv by lia.
  destruct (lookup_lt_is_Some_2 news u Hu) as [b Eb]. rewrite Eb in Hv. destruct e as [ek ev]. cbn in Hk, Hv. subst ek ev.
  set (tb1 := tb + Z.of_nat (length news) * BLOCK_SIZE).
  assert (forall q, (q <= length news)%nat -> tb + Z.of_nat (length news - q) * BLOCK_SIZE = tb1 - Z.of_nat q * BLOCK_SIZE) as Etb1
    by (intros q Hq; rewrite Nat2Z.inj_sub by lia; lia).
  rewrite Etb1 in E, Hk0 by lia.
  assert (tb1 `mod` BLOCK_SIZE = 0) as Htb1 by (unfold tb1; rewrite Z_mod_plus_full; done).
  destruct (get_block_index_some m p n hdr r u j tb1 (tb + Z.of_nat (S u) * BLOCK_SIZE) c0 e0 c b) as [_ Eg]; try done; try lia.
  { rewrite <- Etb1 by lia. replace (length news - j)%nat with (S u) by lia. lia. }
  pose proof (proj1 (slot_spec _ _ _ _ _ _ _) E) as [_ Ec].
  set (p1 := set_cells (<[c := mkEntry (u64 (tb1 - Z.of_nat j * BLOCK_SIZE)) None]> (cells p)) p).
  assert (shape p1 n hdr) as Hs1 by (by apply shape_write).
  destruct (rewind_some m p1 n hdr Hs1) as (p2 & E2 & Hsf & Ecells & Hs2).
  exists p2, (with_tail ((tail hdr - 1) `mod` capacity hdr) hdr), c, (mkEntry (u64 (tb1 - Z.of_nat j * BLOCK_SIZE)) (Some b)).
  split; [done|]. split. { intros A k. rewrite (bind_some _ _ _ _ _ (store_value_some m p c _ None Ec)). by rewrite (bind_some _ _ _ _ _ E2). }
  split; [eapply fields_trans; [|exact Hsf]; by repeat split|]. split; [done|]. split; [done|]. split.
  { cbn. rewrite Et, Zminus_mod_idemp_l. f_equal. lia. }
  assert (entries_ok p1 hdr r (undone news live tb (S u))) as He1; [|unfold entries_ok in *; cbn [capacity index with_tail]; by rewrite Ecells].
  eapply entries_write; [exact Hs|exact He| |exact E| |]; [lia| |].
  - unfold undone. rewrite decide_True by lia. cbn. rewrite decide_True, Etb1 by lia. done.
  - intros k e Hkj Hk. unfold undone. case_decide; [|done]. intros [-> ->]. split; [done|]. repeat case_decide; (done || lia).
Qed.

(** All given back: the index is what it was. *)
Lemma undone_all p n hdr r news live tb :
  shape p n hdr -> Z.of_nat (length news) + Z.of_nat (length live) <= capacity hdr ->
  tail hdr = (r - Z.of_nat (length news)) `mod` capacity hdr -> entries_ok p hdr r (undone news live tb (length news)) ->
  index_ok p n hdr live tb.
Proof.
  intros Hs Hfit Et He. pose proof (capacity_range _ _ _ Hs) as Hc. split; [done|lia|]. rewrite Et. apply entries_mod.
  eapply entries_shift; [exact He|lia|]. intros j e Hj Hg. unfold undone in Hg.
  destruct (decide (Z.of_nat j + Z.of_nat (length news) < capacity hdr)) as [Hlt|Hge].
  - rewrite Z.mod_small, decide_False in Hg by lia.
    by replace (Z.to_nat (Z.of_nat j + Z.of_nat (length news)) - length news)%nat with j in Hg by lia.
  - rewrite <- (Z_mod_plus_full _ (-1)), Z.mod_small, decide_True in Hg by lia. destruct Hg as [_ Hv].
    rewrite decide_True in Hv by lia. unfold slot_ok. rewrite (proj2 (lookup_ge_None _ _)) by lia. by right.
Qed.

End Index.
