(* ===== verification/ImplicitSpec.v ===== *)
(** * Implicit producers are queues

    [rep m others p h xs live tb]: the producer [p], with its blocks [live] in
    the memory [m], is a queue with the elements [xs], of which [h] elements
    have been dequeued before the first one; the blocks [others] belong to other
    producers. Every operation of ImplicitProducer is a function on the list
    and leaves the blocks of others alone. *)
From S2P Require Import Prelude.
From S2P Require Import QueueUtils.
From S2P Require Import QueueTraits.
From S2P Require Import QueueBlock.
From S2P Require Import BlockPool.
From S2P Require Import ProducerMemory.
From S2P Require Import BlockContents.
From S2P Require Import BlockMemory.
From S2P Require Import ImplicitProducer.
From S2P Require Import ImplicitIndex.
#[local] Open Scope Z_scope.
Import ImplicitProducer.

Section Spec.
Context {tr : Traits} (checked : static_asserts = true) (fits : BLOCK_SIZE <= 2 ^ 62) {T : Type}.
Context (malloc : nat -> bool) (raw_flags : nat -> list bool) (raw_value : option nat).
Context (noexcept_ctor : bool) (ctor_throws : T -> bool).
Implicit Types (m : Memory (T := T)) (p : t) (live : list nat) (xs : list T) (others : gset nat).
Abbreviation hold := (blocks_hold implicit_context).

(** What the index and the memory of a producer are, with the elements [f]. *)
Record blocks_ok m others p live (tb h : Z) (f : Z -> option T) : Prop := mkBlocksOk {
  ok_hold : hold (blocks m) live tb h f;
  ok_index : exists n hdr, index_ok p n hdr live tb;
  ok_owns : owns malloc m live others;
  ok_tb : tb `mod` BLOCK_SIZE = 0
}.

Record rep m others p (h : Z) xs live (tb : Z) : Prop := mkRep {
  rep_tail : tailIndex p = u64 (h + Z.of_nat (length xs));
  rep_head : headIndex p = u64 h;
  rep_optimistic : dequeueOptimisticCount p = u64 h;
  rep_overcommit : dequeueOvercommit p = 0;
  rep_tailBlock : live <> [] -> tailBlock p = head live;
  rep_range : tb < h + Z.of_nat (length xs) <= tb + BLOCK_SIZE;
  rep_oldest : 0 <= h - (tb - Z.of_nat (length live) * BLOCK_SIZE + BLOCK_SIZE) < BLOCK_SIZE;
  rep_near : tb + BLOCK_SIZE - h < 2 ^ 63;
  rep_blocks : blocks_ok m others p live tb h (elems xs h)
}.

(** ** Numbers *)

Lemma small_run n h tb : 0 <= h - (tb - n * BLOCK_SIZE + BLOCK_SIZE) < BLOCK_SIZE -> tb + BLOCK_SIZE - h < 2 ^ 63 -> n * BLOCK_SIZE <= 2 ^ 63.
Proof.
  intros Ho Hn. destruct (BLOCK_SIZE_power checked fits) as (k & Hk & E). pose proof (BLOCK_SIZE_bounds checked fits).
  assert (n * BLOCK_SIZE < 2 ^ 63 + BLOCK_SIZE) as Hlt by lia.
  assert (2 ^ 63 = 2 ^ (63 - k) * BLOCK_SIZE) as E2 by (rewrite E, <- Z.pow_add_r by lia; f_equal; lia).
  rewrite E2 in Hlt |- *. destruct (Z.le_gt_cases n (2 ^ (63 - k))); [apply Z.mul_le_mono_nonneg_r; lia|].
  assert ((2 ^ (63 - k) + 1) * BLOCK_SIZE <= n * BLOCK_SIZE) by (apply Z.mul_le_mono_nonneg_r; lia). lia.
Qed.

Lemma rep_small m others p h xs live tb : rep m others p h xs live tb -> Z.of_nat (length live) * BLOCK_SIZE <= 2 ^ 63.
Proof. intros R. eapply small_run; [apply (rep_oldest _ _ _ _ _ _ _ R)|apply (rep_near _ _ _ _ _ _ _ R)]. Qed.

(** Comparisons that are true are true of the numbers. *)
Lemma less_true a b : 0 <= b - a < 2 ^ 64 -> circular_less_than 64 (u64 a) (u64 b) = true -> b - a < 2 ^ 63.
Proof.
  intros Hab Hlt. destruct (Z.lt_ge_cases (b - a) (2 ^ 63)) as [|Hge]; [done|exfalso].
  unfold circular_less_than in Hlt. rewrite wrap_sub_l, wrap_sub_r in Hlt. apply Z.ltb_lt in Hlt.
  replace (wrap 64 (2 ^ (64 - 1))) with (2 ^ 63) in Hlt by done.
  rewrite <- (wrap_period 64 (a - b) 1), wrap_small in Hlt by (unfold in_width; lia). lia.
Qed.

Lemma not_full h tail : 0 <= tail - h -> tail - h + BLOCK_SIZE < 2 ^ 64 -> full (u64 h) (u64 tail) = false -> tail + BLOCK_SIZE - h < 2 ^ 63.
Proof.
  intros H1 H2 Hf. apply orb_false_iff in Hf as [Hf _]. apply negb_false_iff in Hf. rewrite wrap_add_l in Hf.
  pose proof (BLOCK_SIZE_bounds checked fits). apply less_true in Hf; lia.
Qed.

(** The place of the tail is the first of a block when the last block is full. *)
Lemma block_boundary tb i : tb `mod` BLOCK_SIZE = 0 -> tb < i <= tb + BLOCK_SIZE -> (place (u64 i) =? 0) = (i =? tb + BLOCK_SIZE).
Proof.
  intros Htb Hi. rewrite (place_wrap checked fits). pose proof (BLOCK_SIZE_bounds checked fits). destruct (Z.eqb_spec i (tb + BLOCK_SIZE)) as [->|Hne].
  - apply Z.eqb_eq. rewrite (place_mod checked fits). by apply next_mod.
  - apply Z.eqb_neq. rewrite (place_in checked fits tb) by (done || lia). lia.
Qed.

(** ** A new block *)

(** The index and the memory after a change to neither the blocks nor the
    entries. *)
Lemma blocks_ok_change m m' others p p' live tb h f n hdr :
  blocks_ok m others p live tb h f -> index_ok p' n hdr live tb -> owns malloc m' live others ->
  keeps (list_to_set live ∪ others) m m' -> blocks_ok m' others p' live tb h f.
Proof.
  intros [Hh _ Ho Htb] Hi Ho' [_ Hk]. split; [|by exists n, hdr|done|done].
  eapply hold_frame; [|done]. intros b Hb. apply Hk, elem_of_union. left. by apply elem_of_list_to_set.
Qed.

(** Nothing has been had, and why. *)
Record refused mode m others p live (tb h : Z) (f : Z -> option T) m' p' : Prop := mkRefused {
  ref_fields : same_fields p p';
  ref_keeps : keeps (list_to_set live ∪ others) m m';
  ref_blocks : blocks_ok m' others p' live tb h f;
  ref_why : unavailable malloc mode m m'
}.

(** A block has been had from the pool, and its entry is pending. *)
Record reserved m others p (c b : nat) live (tb h : Z) (f : Z -> option T) : Prop := mkReserved {
  res_hold : hold (blocks m) (b :: live) (tb + BLOCK_SIZE) h f;
  res_index : exists n hdr, pending p n hdr c live tb;
  res_owns : owns malloc m (b :: live) others;
  res_tb : tb `mod` BLOCK_SIZE = 0
}.

Lemma pending_refused mode m others p m1 m2 p1 n hdr c live tb h f :
  blocks_ok m others p live tb h f -> same_fields p p1 -> pending p1 n hdr c live tb -> owns malloc m2 live others ->
  keeps (list_to_set live ∪ others) m m2 ->
  unavailable malloc mode m m2 -> m1 = m2 ->
  exists p2, (forall A (k : M (Memory (T := T) * t) A), (rewind_block_index_tail;; store_value c None;; k) (m1, p1) = k (m1, p2)) /\
    refused mode m others p live tb h f m1 p2.
Proof.
  intros Hb Hsf Hp Ho Hk Hwhy ->. destruct (pending_undo checked fits m2 p1 n hdr c live tb Hp) as (p2 & hdr' & E & Hsf2 & Hi).
  exists p2. split; [done|]. split; [by eapply fields_trans|done|by eapply blocks_ok_change|done].
Qed.

Lemma reserve_spec mode m others p live tb h f :
  blocks_ok m others p live tb h f -> Z.of_nat (length live) * BLOCK_SIZE <= 2 ^ 63 -> h <= tb + BLOCK_SIZE ->
  (forall z, tb + BLOCK_SIZE <= z < tb + BLOCK_SIZE + BLOCK_SIZE -> f z = None) ->
  exists o m1 p1, insert_block_index_entry malloc raw_value mode (u64 (tb + BLOCK_SIZE)) (m, p) = Some (o, (m1, p1)) /\
    match o with
    | None => refused mode m others p live tb h f m1 p1
    | Some c => exists o m2, requisition_block malloc raw_flags mode m1 = Some (o, m2) /\
        match o with
        | None => exists p2, (forall A (k : M (Memory (T := T) * t) A), (rewind_block_index_tail;; store_value c None;; k) (m2, p1) = k (m2, p2)) /\
            refused mode m others p live tb h f m2 p2
        | Some b => exists blk, blocks m2 !! b = Some blk /\ same_fields p p1 /\ keeps (list_to_set live ∪ others) m m2 /\
            reserved (with_block b (Block.reset_empty implicit_context blk) m2) others p1 c b live tb h f
        end
    end.
Proof.
  intros Hb Hsm Hh Hf. pose proof Hb as [Hhold (n & hdr & Hi) Ho Htb]. pose proof (BLOCK_SIZE_bounds checked fits).
  destruct (insert_block_index_entry_spec checked fits malloc raw_value mode m p n hdr live tb Hi Htb Hsm) as (o & m1 & p1 & E & Hsf & Hm & Hres).
  exists o, m1, p1. split; [done|]. assert (owns malloc m1 live others /\ keeps (list_to_set live ∪ others) m m1) as [Ho1 Hk1].
  { destruct Hm as [->| ->]; [done|]. split; [by apply own_malloc|apply keeps_malloc]. }
  destruct o as [c|].
  2:{ destruct Hres as [-> Hwhy]. by split; [done|done|eapply blocks_ok_change|]. }
  destruct Hres as (n' & hdr' & Hp). destruct (own_requisition malloc raw_flags mode m1 live others Ho1) as (o & m2 & E2 & Hk2 & Hres).
  pose proof (keeping_trans _ _ _ _ Hk1 Hk2) as Hk12. exists o, m2. split; [done|]. destruct o as [b|].
  - destruct Hres as (Ho2 & Hbl & blk & Eb & Hblank). exists blk. split; [done|]. split; [done|].
    split; [done|].
    destruct (own_store malloc m2 (b :: live) others b (Block.reset_empty implicit_context blk) Ho2) as [Ho3 _]; [left|].
    split; [|by exists n', hdr'|done|done]. eapply hold_cons; [|done|apply with_block_lookup|].
    + eapply hold_frame; [|exact Hhold]. intros d Hd. rewrite with_block_lookup_ne by (by intros ->).
      apply Hk12, elem_of_union. left. by apply elem_of_list_to_set.
    + by apply (reset_has checked fits).
  - destruct Hres as [Ho2 Hwhy]. eapply (pending_refused mode m others p m2 m2 p1); try done.
    eapply unavailable_between; [apply Hk1|by apply unavailable_next|done].
Qed.

Lemma reserved_put m others p c b live tb h f i x :
  reserved m others p c b live tb h f -> tb + BLOCK_SIZE <= i < tb + BLOCK_SIZE + BLOCK_SIZE -> f i = None ->
  exists m', put b (u64 i) x (m, p) = Some (tt, (m', p)) /\ keeps others m m' /\ reserved m' others p c b live tb h (upd f i (Some x)).
Proof.
  intros [Hh Hi Ho Htb] Hr Hf. destruct (put_newest (ctx := implicit_context) checked fits malloc m others b live (tb + BLOCK_SIZE) h f i x) as (m' & E & Hh' & Ho' & Hk & _); try done.
  - by apply next_mod.
  - exists m'. split; [apply E|]. split; [done|]. by split.
Qed.

Lemma blocks_put m others p b live tb h f i x :
  blocks_ok m others p (b :: live) tb h f -> tb <= i < tb + BLOCK_SIZE -> f i = None ->
  exists m', (forall q : t, put b (u64 i) x (m, q) = Some (tt, (m', q))) /\ keeps others m m' /\
    blocks_ok m' others p (b :: live) tb h (upd f i (Some x)).
Proof.
  intros [Hh Hi Ho Htb] Hr Hf. destruct (put_newest (ctx := implicit_context) checked fits malloc m others b live tb h f i x) as (m' & E & Hh' & Ho' & Hk & _); try done.
  exists m'. split; [done|]. split; [done|]. by split.
Qed.

Lemma reserved_commit m others p c b live tb h f :
  reserved m others p c b live tb h f -> exists p', store_value c (Some b) (m, p) = Some (tt, (m, p')) /\ same_fields p p' /\
    blocks_ok m others p' (b :: live) (tb + BLOCK_SIZE) h f.
Proof.
  intros [Hh (n & hdr & Hi) Ho Htb]. destruct (pending_commit checked fits m p n hdr c live tb b Hi) as (p' & E & Hsf & Hi').
  exists p'. split; [done|]. split; [done|]. split; [done|by exists n, hdr|done|by apply next_mod].
Qed.

(** The block and the entry are given back. *)
Lemma reserved_cancel m others p c b live tb h f :
  reserved m others p c b live tb h f -> (forall z, tb + BLOCK_SIZE <= z < tb + BLOCK_SIZE + BLOCK_SIZE -> f z = None) ->
  exists m' p', (forall A (k : M (Memory (T := T) * t) A),
      (rewind_block_index_tail;; store_value c None;; mem (add_block_to_free_list b);; k) (m, p) = k (m', p')) /\
    same_fields p p' /\ keeps others m m' /\ blocks_ok m' others p' live tb h f.
Proof.
  intros [Hh (n & hdr & Hi) Ho Htb] Hf. destruct (pending_undo checked fits m p n hdr c live tb Hi) as (p' & hdr' & E & Hsf & Hi').
  destruct (hold_block _ _ _ _ _ Hh O b eq_refl) as (blk & Eb & Hb). rewrite Z.mul_0_l, Z.sub_0_r in Hb.
  pose proof (hold_nodup _ _ _ _ _ Hh) as [Hbl Hnd]%NoDup_cons.
  destruct (own_free malloc raw_flags m live others b blk Ho Hbl Eb) as [Ho' Hk]; [by eapply has_blank|].
  exists (set_freeList (b :: freeList m) m), p'. split.
  { intros A k. rewrite E. by rewrite (bind_some _ _ _ tt (set_freeList (b :: freeList m) m, p')) by done. }
  split; [done|]. split; [eapply keeps_weaken; [|done]; apply union_subseteq_r|].
  split; [|by exists n, hdr'|done|done]. cbn [blocks set_freeList]. split; [done|]. intros j d Hj.
  destruct (hold_block _ _ _ _ _ Hh (S j) d Hj) as (dblk & Ed & Hd). exists dblk. split; [done|].
  by replace (tb + BLOCK_SIZE - Z.of_nat (S j) * BLOCK_SIZE) with (tb - Z.of_nat j * BLOCK_SIZE) in Hd by lia.
Qed.

(** ** Enqueuing *)

Lemma rep_change m m' others p p' h xs live tb :
  rep m others p h xs live tb -> same_fields p p' -> blocks_ok m' others p' live tb h (elems xs h) -> rep m' others p' h xs live tb.
Proof. intros [] (Et & Eh & Eo & Ec & Eb) Hb. split; rewrite ?Et, ?Eh, ?Eo, ?Ec, ?Eb; done. Qed.

Lemma blocks_ok_fields m others p p' live tb h f :
  blocks_ok m others p live tb h f -> blockIndex p' = blockIndex p -> headers p' = headers p -> cells p' = cells p ->
  nextBlockIndexCapacity p' = nextBlockIndexCapacity p -> blocks_ok m others p' live tb h f.
Proof.
  intros [Hh (n & hdr & [[] ? Hent]) Ho Htb] E1 E2 E3 E4. split; [done| |done|done]. exists n, hdr. split; [|done|].
  - split; rewrite ?E1, ?E2, ?E3, ?E4; done.
  - intros j Hj. rewrite E3. by apply Hent.
Qed.

(** The element is the last one now. *)
Lemma rep_pushed m m' others p p' h xs x live live' tb tb' :
  rep m others p h xs live tb -> tb' < h + Z.of_nat (length xs) + 1 <= tb' + BLOCK_SIZE ->
  0 <= h - (tb' - Z.of_nat (length live') * BLOCK_SIZE + BLOCK_SIZE) < BLOCK_SIZE -> tb' + BLOCK_SIZE - h < 2 ^ 63 ->
  blocks_ok m' others p' live' tb' h (elems (xs ++ [x]) h) ->
  headIndex p' = headIndex p -> dequeueOptimisticCount p' = dequeueOptimisticCount p -> dequeueOvercommit p' = dequeueOvercommit p ->
  tailBlock p' = head live' ->
  rep m' others (set_tailIndex (u64 (1 + tailIndex p)) p') h (xs ++ [x]) live' tb'.
Proof.
  intros R Hr Ho Hn Hb Eh Eo Ec Et. split; cbn; rewrite ?Eh, ?Eo, ?Ec, ?length_app; cbn [length]; try apply R; try done; try lia.
  - rewrite (rep_tail _ _ _ _ _ _ _ R), wrap_add_r. f_equal. lia.
  - by eapply blocks_ok_fields.
Qed.

Lemma elems_snoc m others p live tb h xs x :
  blocks_ok m others p live tb h (upd (elems xs h) (h + Z.of_nat (length xs)) (Some x)) ->
  blocks_ok m others p live tb h (elems (xs ++ [x]) h).
Proof.
  intros [Hh Hi Ho Htb]. split; [|done..]. eapply (hold_ext checked fits); [|exact Hh]. intros z _. by rewrite elems_app.
Qed.

(** The element is constructed before the block is entered if its constructor
    may throw, and after it if not. *)
Lemma reserved_fill m others p c b live tb h f x :
  reserved m others p c b live tb h f -> f (tb + BLOCK_SIZE) = None ->
  exists m' p', (forall A (k : M (Memory (T := T) * t) A),
      ((if noexcept_ctor then mret tt else put b (u64 (tb + BLOCK_SIZE)) x);; store_value c (Some b);; set (set_tailBlock (Some b));;
       (if noexcept_ctor then put b (u64 (tb + BLOCK_SIZE)) x else mret tt);; k) (m, p) = k (m', set_tailBlock (Some b) p')) /\
    same_fields p p' /\ keeps others m m' /\
    blocks_ok m' others (set_tailBlock (Some b) p') (b :: live) (tb + BLOCK_SIZE) h (upd f (tb + BLOCK_SIZE) (Some x)).
Proof.
  intros Hr Hf. pose proof (BLOCK_SIZE_bounds checked fits). destruct noexcept_ctor.
  - destruct (reserved_commit m others p c b live tb h f Hr) as (p2 & E & Hsf & Hb).
    destruct (blocks_put m others p2 b live (tb + BLOCK_SIZE) h f (tb + BLOCK_SIZE) x Hb) as (m' & E2 & Hk & Hb2); [lia|done|].
    exists m', p2. split; [|split; [done|split; [done|by eapply blocks_ok_fields]]]. intros A k.
    rewrite (bind_some _ _ _ tt (m, p)) by done. rewrite (bind_some _ _ _ _ _ E).
    rewrite (bind_some _ _ _ tt (m, set_tailBlock (Some b) p2)) by done. by rewrite (bind_some _ _ _ _ _ (E2 _)).
  - destruct (reserved_put m others p c b live tb h f (tb + BLOCK_SIZE) x Hr) as (m' & E & Hk & Hr'); [lia|done|].
    destruct (reserved_commit m' others p c b live tb h _ Hr') as (p2 & E2 & Hsf & Hb).
    exists m', p2. split; [|split; [done|split; [done|by eapply blocks_ok_fields]]]. intros A k.
    rewrite (bind_some _ _ _ _ _ E), (bind_some _ _ _ _ _ E2). by rewrite (bind_some _ _ _ tt (m', set_tailBlock (Some b) p2)).
Qed.

Lemma reset_keeps m m2 others b blk : keeps others m m2 -> (b ∉ others) -> keeps others m (with_block b blk m2).
Proof. intros (Hs & Hn & Hk) Hb. split; [done|]. split; [done|]. intros d Hd. rewrite with_block_lookup_ne; [by apply Hk|]. by intros <-. Qed.

Lemma implicit_enqueue_new_block mode m others p h xs live tb x :
  rep m others p h xs live tb -> h + Z.of_nat (length xs) = tb + BLOCK_SIZE ->
  exists r m' p', enqueue malloc raw_flags noexcept_ctor ctor_throws raw_value mode x (m, p) = Some (r, (m', p')) /\ keeps others m m' /\
    match r with
    | Returned true => throws noexcept_ctor ctor_throws x = false /\ exists b, rep m' others p' h (xs ++ [x]) (b :: live) (tb + BLOCK_SIZE)
    | Returned false => rep m' others p' h xs live tb /\
        (full (headIndex p) (tailIndex p) = true \/ unavailable malloc mode m m')
    | Threw => throws noexcept_ctor ctor_throws x = true /\ rep m' others p' h xs live tb
    end.
Proof.
  intros R Ht. pose proof (BLOCK_SIZE_bounds checked fits) as HB. pose proof (rep_blocks _ _ _ _ _ _ _ R) as Hb.
  pose proof (rep_oldest _ _ _ _ _ _ _ R) as Hold. pose proof (rep_near _ _ _ _ _ _ _ R) as Hnear.
  unfold enqueue. rewrite (bind_some _ _ _ (tailIndex p) (m, p)) by done. rewrite (rep_tail _ _ _ _ _ _ _ R).
  rewrite (block_boundary tb) by (apply Hb || lia). rewrite (proj2 (Z.eqb_eq _ _) Ht).
  rewrite (bind_some _ _ _ (headIndex p) (m, p)) by done. rewrite (rep_head _ _ _ _ _ _ _ R).
  rewrite (bind_some _ _ _ tt (m, p)).
  2:{ apply assert_true. rewrite less_near by lia. apply negb_true_iff, Z.ltb_ge. lia. }
  rewrite Ht. destruct (full (u64 h) (u64 (tb + BLOCK_SIZE))) eqn:Efull.
  { exists (Returned false), m, p. split; [done|]. split; [done|]. split; [done|]. by left. }
  apply not_full in Efull; [|lia..].
  destruct (reserve_spec mode m others p live tb h (elems xs h) Hb (rep_small _ _ _ _ _ _ _ R)) as (o & m1 & p1 & E & Hres); [lia| |].
  { intros z Hz. apply elems_none. lia. }
  rewrite (bind_some _ _ _ _ _ E). destruct o as [c|].
  2:{ exists (Returned false), m1, p1. split; [done|]. destruct Hres as [Hsf Hk%keeps_rest Hb1 Hwhy]. split; [done|]. split; [by eapply rep_change|tauto]. }
  destruct Hres as (o & m2 & E2 & Hres). rewrite (bind_some _ _ _ _ _ (mem_some _ m1 p1 _ _ E2)). destruct o as [b|].
  2:{ destruct Hres as (p2 & E3 & [Hsf Hk%keeps_rest Hb2 Hwhy]). rewrite E3. exists (Returned false), m2, p2. split; [done|]. split; [done|].
      split; [by eapply rep_change|tauto]. }
  destruct Hres as (blk & Eb & Hsf & Hk & Hr). rewrite (bind_some _ _ _ _ _ (mem_store m2 p1 b blk _ Eb)).
  set (m3 := with_block b (Block.reset_empty implicit_context blk) m2) in *.
  assert (keeps others m m3) as Hk3 by (apply reset_keeps; [by eapply keeps_rest|apply (own_apart _ _ _ _ (res_owns _ _ _ _ _ _ _ _ _ Hr)); left]).
  change (negb noexcept_ctor && ctor_throws x) with (throws noexcept_ctor ctor_throws x).
  destruct (throws noexcept_ctor ctor_throws x) eqn:Ex.
  - destruct (reserved_cancel m3 others p1 c b live tb h _ Hr) as (m' & p' & E' & Hsf' & Hk' & Hb'); [intros z Hz; apply elems_none; lia|].
    exists Threw, m', p'. rewrite E'. split; [done|]. split; [by eapply keeping_trans|]. split; [done|].
    eapply rep_change; [done|by eapply fields_trans|done].
  - destruct (reserved_fill m3 others p1 c b live tb h _ x Hr) as (m4 & p4 & E4 & Hsf4 & Hk4 & Hb4); [apply elems_none; lia|].
    rewrite E4. do 3 eexists. split; [reflexivity|]. split; [by eapply keeping_trans|]. split; [done|].
    exists b. destruct (fields_trans _ _ _ Hsf Hsf4) as (_ & Eh & Eo & Ec & _). rewrite <- Ht, <- (rep_tail _ _ _ _ _ _ _ R).
    rewrite Ht. eapply rep_pushed; [exact R|lia|cbn [length]; lia|lia| |done..].
    apply elems_snoc. by rewrite Ht.
Qed.

Lemma implicit_enqueue_in_block mode m others p h xs live tb x :
  rep m others p h xs live tb -> h + Z.of_nat (length xs) <> tb + BLOCK_SIZE ->
  exists r m' p', enqueue malloc raw_flags noexcept_ctor ctor_throws raw_value mode x (m, p) = Some (r, (m', p')) /\ keeps others m m' /\
    if throws noexcept_ctor ctor_throws x then r = Threw /\ rep m' others p' h xs live tb
    else r = Returned true /\ rep m' others p' h (xs ++ [x]) live tb.
Proof.
  intros R Ht. pose proof (rep_range _ _ _ _ _ _ _ R) as Hr. pose proof (rep_oldest _ _ _ _ _ _ _ R) as Ho.
  pose proof (rep_blocks _ _ _ _ _ _ _ R) as Hb. pose proof (BLOCK_SIZE_bounds checked fits).
  destruct live as [|b live]; [cbn [length] in Ho; lia|].
  unfold enqueue. rewrite (bind_some _ _ _ (tailIndex p) (m, p)) by done. rewrite (rep_tail _ _ _ _ _ _ _ R).
  rewrite (block_boundary tb) by (apply Hb || lia). rewrite (proj2 (Z.eqb_neq _ _) Ht).
  rewrite (bind_some _ _ _ (tailBlock p) (m, p)) by done. rewrite (rep_tailBlock _ _ _ _ _ _ _ R) by done.
  rewrite (bind_some _ _ _ b (m, p)) by done.
  change (negb noexcept_ctor && ctor_throws x) with (throws noexcept_ctor ctor_throws x).
  destruct (throws noexcept_ctor ctor_throws x); [by exists Threw, m, p|].
  destruct (blocks_put m others p b live tb h _ (h + Z.of_nat (length xs)) x Hb) as (m' & E & Hk & Hb'); [lia|apply elems_none; lia|].
  rewrite (bind_some _ _ _ _ _ (E _)). do 3 eexists. split; [reflexivity|]. split; [done|]. split; [done|].
  rewrite <- (rep_tail _ _ _ _ _ _ _ R).
  eapply rep_pushed; [exact R|lia|lia|apply R|by apply elems_snoc|done..|]. by rewrite (rep_tailBlock _ _ _ _ _ _ _ R).
Qed.

(** An element enters the queue at its end, or nothing changes. *)
Lemma implicit_enqueue mode m others p h xs live tb x :
  rep m others p h xs live tb ->
  exists r m' p', enqueue malloc raw_flags noexcept_ctor ctor_throws raw_value mode x (m, p) = Some (r, (m', p')) /\ keeps others m m' /\
    match r with
    | Returned true => throws noexcept_ctor ctor_throws x = false /\ exists live' tb', rep m' others p' h (xs ++ [x]) live' tb'
    | Returned false => rep m' others p' h xs live tb /\ place (tailIndex p) = 0 /\
        (full (headIndex p) (tailIndex p) = true \/ unavailable malloc mode m m')
    | Threw => throws noexcept_ctor ctor_throws x = true /\ rep m' others p' h xs live tb
    end.
Proof.
  intros R. destruct (decide (h + Z.of_nat (length xs) = tb + BLOCK_SIZE)) as [Ht|Ht].
  - destruct (implicit_enqueue_new_block mode m others p h xs live tb x R Ht) as (r & m' & p' & E & Hk & Hres). exists r, m', p'.
    split; [done|]. split; [done|]. destruct r as [[]|]; [|split; [apply Hres|split; [|apply Hres]]|done].
    + destruct Hres as [? [b R']]. split; [done|]. by exists (b :: live), (tb + BLOCK_SIZE).
    + apply Z.eqb_eq. rewrite (rep_tail _ _ _ _ _ _ _ R), (block_boundary tb); [by apply Z.eqb_eq| |apply R].
      apply (rep_blocks _ _ _ _ _ _ _ R).
  - destruct (implicit_enqueue_in_block mode m others p h xs live tb x R Ht) as (r & m' & p' & E & Hk & Hres). exists r, m', p'.
    split; [done|]. split; [done|]. destruct (throws _ _ x); destruct Hres as [-> R']; [done|]. split; [done|]. by exists live, tb.
Qed.

(** ** Dequeuing *)

(** The oldest block with its elements. *)
Lemma last_block live : live <> [] -> exists init b, live = init ++ [b].
Proof. intros H. destruct live as [|b init _] using rev_ind; [done|]. by exists init, b. Qed.

(** The oldest block is given back when all its elements are gone. *)
Lemma release_some m others p n hdr live b tb c e blk :
  index_ok p n hdr (live ++ [b]) tb -> slot (index hdr) (cells p) (capacity hdr) (tail hdr) (length live) = Some (c, e) ->
  owns malloc m (live ++ [b]) others -> NoDup (live ++ [b]) -> blocks m !! b = Some blk -> blank blk ->
  exists m' p', release_block c b (m, p) = Some (tt, (m', p')) /\ same_fields p p' /\ keeps others m m' /\ blocks m' = blocks m /\
    index_ok p' n hdr live tb /\ owns malloc m' live others.
Proof.
  intros Hi Es Ho Hnd Eb Hbl. unfold release_block.
  destruct (release_index checked fits m p n hdr live b tb c e Hi Es) as (p' & E & Hsf & Hi'). rewrite (bind_some _ _ _ _ _ E).
  apply NoDup_app in Hnd as (Hnd & Hnot & _). assert (b ∉ live) as Hb by (intros H; apply (Hnot b H); left).
  destruct (own_free malloc raw_flags m live others b blk) as [Ho' Hk]; [|done|done|done|].
  { eapply own_perm; [|exact Ho]. symmetry. apply Permutation_cons_append. }
  exists (set_freeList (b :: freeList m) m), p'. split; [done|]. split; [done|].
  split; [eapply keeps_weaken; [|done]; apply union_subseteq_r|done].
Qed.

(** The marks of the oldest block have been set up to the index [e]: it is given
    back if that is its end. *)
Lemma retire_oldest m others p n hdr live b tb h e f c ent blk :
  hold (blocks m) (live ++ [b]) tb h f -> index_ok p n hdr (live ++ [b]) tb ->
  slot (index hdr) (cells p) (capacity hdr) (tail hdr) (length live) = Some (c, ent) -> owns malloc m (live ++ [b]) others ->
  let b0 := tb - Z.of_nat (length live) * BLOCK_SIZE in
  b0 <= h <= e -> e <= b0 + BLOCK_SIZE -> block_has implicit_context blk b0 e f -> (forall z, z < e -> f z = None) ->
  exists m' p' live', (forall A (k : M (Memory (T := T) * t) A), (mem (store_block b (fun _ => blk));;
      (if bool_decide (e = b0 + BLOCK_SIZE) then release_block c b else mret tt);; k) (m, p) = k (m', p')) /\
    same_fields p p' /\ keeps others m m' /\ hold (blocks m') live' tb e f /\ index_ok p' n hdr live' tb /\ owns malloc m' live' others /\
    live' = (if bool_decide (e = b0 + BLOCK_SIZE) then live else live ++ [b]).
Proof.
  intros Hh Hi Es Ho b0 Hhe He Hblk Hf. pose proof (BLOCK_SIZE_bounds checked fits) as HB.
  assert ((live ++ [b]) !! length live = Some b) as Hj by (by apply list_lookup_middle).
  destruct (hold_block _ _ _ _ _ Hh _ _ Hj) as (blk0 & Eb & _).
  destruct (own_store malloc m (live ++ [b]) others b blk Ho) as [Ho1 Hk1]; [apply elem_of_app; right; left|].
  assert (hold (blocks (with_block b blk m)) (live ++ [b]) tb e f) as Hh1.
  { eapply (hold_insert checked fits); [exact Hh|exact Hj|done|done|].
    intros k Hne Hk. rewrite length_app in Hk. cbn [length] in Hk. rewrite !(gone_empty); [done|nia|nia]. }
  case_bool_decide as Ee.
  - destruct (release_some (with_block b blk m) others p n hdr live b tb c ent blk Hi Es Ho1) as (m' & p' & E & Hsf & Hk & Ebs & Hi' & Ho').
    + apply Hh1.
    + apply with_block_lookup.
    + eapply has_blank; [exact Hblk|]. intros z Hz. apply Hf. lia.
    + exists m', p', live. split; [intros A k; rewrite (bind_some _ _ _ _ _ (mem_store m p b blk0 _ Eb)); by rewrite (bind_some _ _ _ _ _ E)|].
      split; [done|]. split; [by eapply keeping_trans|]. split; [rewrite Ebs; by eapply hold_app|done].
  - exists (with_block b blk m), p, (live ++ [b]). split; [|done]. intros A k. by rewrite (bind_some _ _ _ _ _ (mem_store m p b blk0 _ Eb)).
Qed.

(** The first element leaves the queue. *)
Lemma implicit_dequeue m others p h xs live tb :
  rep m others p h xs live tb ->
  match xs with
  | [] => dequeue (m, p) = Some (None, (m, p))
  | x :: xs => exists m' p' live', dequeue (m, p) = Some (Some x, (m', p')) /\ keeps others m m' /\ rep m' others p' (h + 1) xs live' tb
  end.
Proof.
  intros R. pose proof (rep_range _ _ _ _ _ _ _ R) as Hr. pose proof (rep_oldest _ _ _ _ _ _ _ R) as Hold.
  pose proof (rep_near _ _ _ _ _ _ _ R) as Hnear. pose proof (BLOCK_SIZE_bounds checked fits) as HB.
  unfold dequeue. rewrite (bind_some _ _ _ (tailIndex p) (m, p)), (bind_some _ _ _ (dequeueOvercommit p) (m, p)),
    (bind_some _ _ _ (dequeueOptimisticCount p) (m, p)) by done.
  rewrite (rep_tail _ _ _ _ _ _ _ R), (rep_optimistic _ _ _ _ _ _ _ R), (rep_overcommit _ _ _ _ _ _ _ R).
  rewrite Z.sub_0_r, wrap_wrap by lia. rewrite less_near by lia. destruct xs as [|x xs].
  { by rewrite (proj2 (Z.ltb_ge _ _)) by (cbn; lia). }
  rewrite (proj2 (Z.ltb_lt _ _)) by (cbn; lia). rewrite (bind_some _ _ _ (dequeueOptimisticCount p) (m, p)) by done.
  rewrite (rep_optimistic _ _ _ _ _ _ _ R). set (p1 := set_optimistic (u64 (u64 h + 1)) p). rewrite (bind_some _ _ _ tt (m, p1)) by done.
  rewrite (bind_some _ _ _ tt (m, p1)) by (apply assert_true, Z.leb_le, (wrap_range 64 h); lia).
  rewrite (bind_some _ _ _ (tailIndex p) (m, p1)) by done. rewrite Z.sub_0_r, wrap_wrap, (rep_tail _ _ _ _ _ _ _ R) by lia.
  rewrite less_near by lia. rewrite (proj2 (Z.ltb_lt _ _)) by (cbn; lia). rewrite (bind_some _ _ _ (headIndex p) (m, p1)) by done.
  rewrite (rep_head _ _ _ _ _ _ _ R). set (p2 := set_headIndex (u64 (u64 h + 1)) p1). rewrite (bind_some _ _ _ tt (m, p2)) by done.
  cbn [length] in Hr. destruct (last_block live) as (init & b & ->); [intros ->; cbn [length] in *; lia|].
  rewrite length_app in Hold. cbn [length] in Hold. set (b0 := tb - Z.of_nat (length init) * BLOCK_SIZE).
  assert (b0 <= h < b0 + BLOCK_SIZE) as Hh0 by lia.
  assert (blocks_ok m others p2 (init ++ [b]) tb h (elems (x :: xs) h)) as [Hhold (n & hdr & Hi) Ho Htb]
    by (eapply blocks_ok_fields; [apply R|done..]).
  assert ((init ++ [b]) !! length init = Some b) as Hj by (by apply list_lookup_middle).
  destruct (find_block checked fits m p2 n hdr _ tb _ b h Hi Htb Hj) as (c & Es & _ & Eg); [fold b0; lia|].
  rewrite (bind_some _ _ _ _ _ Eg), (bind_some _ _ _ b (m, p2)) by done.
  destruct (hold_block _ _ _ _ _ Hhold _ _ Hj) as (blk & Eb & Hblk). fold b0 in Hblk.
  assert (place h = h - b0) as Hp by (apply (place_in checked fits); [by apply back_mod|done]).
  destruct (destroy_has blk b0 h _ h x Hblk Hh0 Hp) as (blk1 & Ed & Hblk1 & _); [unfold elems; by rewrite Z.sub_diag|].
  destruct (set_empty_has checked fits blk1 b0 h _ Hblk1 Hh0 Hp) as (blk2 & Ese & Hblk2 & _). cbn [Block.uses_flags negb andb] in Ese.
  rewrite (bind_some _ _ _ _ _ (take_some checked fits m p2 b h blk x blk1 Eb ltac:(rewrite (get_has _ _ _ _ _ Hblk Hh0 Hp); unfold elems; by rewrite Z.sub_diag) Ed)).
  rewrite (bind_some _ _ _ _ _ (mem_load (with_block b blk1 m) p2 b blk1 (with_block_lookup m b blk1))).
  rewrite (proj1 (marks_wrap checked fits (ctx := implicit_context) h blk1)). rewrite (bind_some _ _ _ _ _ (the_some _ _ _ Ese)). cbn [fst snd].
  destruct (own_store malloc m (init ++ [b]) others b blk1 Ho) as [Ho1 Hk1]; [apply elem_of_app; right; left|].
  destruct (retire_oldest (with_block b blk1 m) others p2 n hdr init b tb h (h + 1) (upd (elems (x :: xs) h) h None) c
    (mkEntry (u64 b0) (Some b)) blk2) as (m' & p' & live' & E & Hsf & Hk & Hh' & Hi' & Ho' & El); try done; try (fold b0; lia).
  - eapply (hold_insert checked fits); [exact Hhold|exact Hj|exact Hblk1| |done].
    intros z Hz. unfold upd. rewrite decide_False; [done|]. fold b0 in Hz. lia.
  - intros z Hz. unfold upd. destruct (decide (z = h)) as [->|]; [done|]. apply elems_none. lia.
  - unfold b0 in E. rewrite E. exists m', p', live'. split; [done|]. split; [by eapply keeping_trans|].
    destruct Hsf as (Et & Eh & Eo & Ec & Eb'). split; rewrite ?Et, ?Eh, ?Eo, ?Ec, ?Eb'; unfold p2, p1;
      cbn [tailIndex headIndex dequeueOptimisticCount dequeueOvercommit tailBlock set_headIndex set_optimistic].
    + rewrite (rep_tail _ _ _ _ _ _ _ R). cbn [length]. f_equal. lia.
    + by rewrite wrap_add_l.
    + by rewrite wrap_add_l.
    + apply R.
    + intros Hne. rewrite (rep_tailBlock _ _ _ _ _ _ _ R) by (by destruct init). rewrite El. case_bool_decide; [|done].
      by destruct init.
    + lia.
    + rewrite El. case_bool_decide; rewrite ?length_app; cbn [length]; fold b0 in Hh0; unfold b0 in *; lia.
    + lia.
    + split; [|by exists n, hdr|done|done]. eapply (hold_ext checked fits); [|exact Hh'].
      intros z _. by rewrite (elems_tail x).
Qed.

(** ** Other producers *)

(** A producer is as it was when its blocks are. *)
Lemma rep_frame m m' others others' p h xs live tb :
  rep m others p h xs live tb -> owns malloc m' live others' -> (forall b, (b ∈ live) -> blocks m' !! b = blocks m !! b) ->
  rep m' others' p h xs live tb.
Proof.
  intros [? ? ? ? ? ? ? ? [Hh Hi _ Htb]] Ho He. split; try done. split; [by eapply hold_frame|done|done|done].
Qed.
End Spec.
