(* ===== verification/ImplicitBulk.v ===== *)
(** * The bulk operations of implicit producers

    A bulk operation of an implicit producer is all or nothing: its elements
    enter the queue at its end, or everything is given back, the blocks and
    their entries in the index, whether there is no memory or a constructor
    throws. *)
From S2P Require Import Prelude.
From S2P Require Import QueueUtils.
From S2P Require Import QueueTraits.
From S2P Require Import QueueBlock.
From S2P Require Import BlockPool.
From S2P Require Import ProducerMemory.
From S2P Require Import BlockContents.
From S2P Require Import BlockMemory.
From S2P Require Import BlockChains.
From S2P Require Import ImplicitProducer.
From S2P Require Import ImplicitIndex.
From S2P Require Import ImplicitSpec.
#[local] Open Scope Z_scope.
Import ImplicitProducer.

Section Bulk.
Context {tr : Traits} (checked : static_asserts = true) (fits : BLOCK_SIZE <= 2 ^ 62) {T : Type}.
Context (malloc : nat -> bool) (raw_flags : nat -> list bool) (raw_value : option nat).
Context (noexcept_ctor : bool) (ctor_throws : T -> bool).
Implicit Types (m : Memory (T := T)) (p : t) (live news pre : list nat) (xs : list T) (others : gset nat).
Abbreviation hold := (blocks_hold implicit_context).
Abbreviation blocks_ok := (blocks_ok malloc).
Abbreviation refused := (refused malloc).
Abbreviation reserved := (reserved malloc).

(** ** Giving back *)

(** The tail block once the blocks [news] have been had. *)
Definition newest (startBlock : option nat) news : option nat :=
  match last news with None => startBlock | Some b => Some b end.

(** What has been had so far: the blocks [news], the oldest first, after the
    blocks [live]; [pre] is the block of the last element, if it has room. *)
Record gathered m others p0 p pre news live (tb h : Z) (f : Z -> option T) : Prop := mkGathered {
  gat_blocks : blocks_ok m others p (reverse news ++ live) (tb + Z.of_nat (length news) * BLOCK_SIZE) h f;
  gat_linked : linked (blocks m) (pre ++ news);
  gat_end : forall b, last news = Some b -> exists blk, blocks m !! b = Some blk /\ Block.next blk = None;
  gat_fields : same_fields (set_tailBlock (tailBlock p) p0) p
}.

Lemma gat_chain m others p0 p pre news live tb h f :
  gathered m others p0 p pre news live tb h f -> chain (blocks m) news.
Proof. intros G. apply chain_linked; [|apply (gat_end _ _ _ _ _ _ _ _ _ _ G)]. eapply linked_suffix, G. Qed.

Lemma undo_blocks_spec m n r news live tb rest : forall u fuel p hdr,
  drop u news = rest -> chain (blocks m) news -> (length rest <= fuel)%nat ->
  shape p n hdr -> tb `mod` BLOCK_SIZE = 0 -> Z.of_nat (length news) + Z.of_nat (length live) <= capacity hdr ->
  tail hdr = (r - Z.of_nat u) `mod` capacity hdr -> (u <= length news)%nat -> entries_ok p hdr r (undone news live tb u) ->
  exists p' hdr', undo_blocks fuel (head rest) (u64 (tb + Z.of_nat u * BLOCK_SIZE)) (m, p) = Some (tt, (m, p')) /\ same_fields p p' /\
    index_ok p' n hdr' live tb.
Proof.
  induction rest as [|b rest IH]; intros u fuel p hdr Er Hch Hfuel Hs Htb Hfit Et Hu He.
  - assert (u = length news) as ->.
    { apply (f_equal length) in Er. rewrite length_drop in Er. cbn in Er. lia. }
    exists p, hdr. split; [by destruct fuel|]. split; [done|]. by eapply undone_all.
  - destruct fuel as [|fuel]; [cbn in Hfuel; lia|]. cbn [undo_blocks head hd_error].
    assert (u < length news)%nat as Hlt.
    { apply (f_equal length) in Er. rewrite length_drop in Er. cbn in Er. lia. }
    rewrite wrap_add_l. replace (tb + Z.of_nat u * BLOCK_SIZE + BLOCK_SIZE) with (tb + Z.of_nat (S u) * BLOCK_SIZE) by lia.
    destruct (undo_step checked fits m p n hdr r news live tb u Hs Htb Hfit Et Hlt He) as (p1 & hdr1 & c & e & E & E1 & Hsf & Hs1 & Ec & Et1 & He1).
    cbv zeta. rewrite (bind_some _ _ _ _ _ E), E1. cbn [fst].
    assert (news !! u = Some b) as Eb.
    { rewrite <- (Nat.add_0_r u), <- lookup_drop, Er. done. }
    destruct (Hch u b Eb) as (blk & Eblk & En). rewrite (bind_some _ _ _ _ _ (mem_load m p1 b blk Eblk)), En.
    assert (drop (S u) news = rest) as Er'.
    { rewrite <- (Nat.add_1_r u), <- drop_drop, Er. done. }
    assert (news !! S u = head rest) as ->.
    { pose proof (lookup_drop news (S u) 0) as Hl. rewrite Nat.add_0_r, Er' in Hl. rewrite <- Hl. by destruct rest. }
    destruct (IH (S u) fuel p1 hdr1 Er' Hch) as (p' & hdr' & E2 & Hsf2 & Hi); rewrite ?Ec; try done; try (cbn in Hfuel; lia).
    exists p', hdr'. split; [exact E2|]. split; [by eapply fields_trans|done].
Qed.

Lemma revert_spec m others p0 p startBlock pre news live tb h f fuel start :
  gathered m others p0 p pre news live tb h f -> startBlock = tailBlock p0 -> (length news <= fuel)%nat -> tb `mod` BLOCK_SIZE = 0 ->
  tb < start <= tb + BLOCK_SIZE -> (forall z, tb + BLOCK_SIZE <= z -> f z = None) ->
  exists m' p', revert fuel (u64 start) startBlock (head news) (m, p) = Some (tt, (m', p')) /\ same_fields p0 p' /\ keeps others m m' /\
    blocks_ok m' others p' live tb h f.
Proof.
  intros G -> Hfuel Htb Hstart Hf. destruct (gat_blocks _ _ _ _ _ _ _ _ _ _ G) as [Hh (n & hdr & [Hs Hfit He]) Ho _].
  pose proof (BLOCK_SIZE_bounds checked fits) as HB. rewrite length_app, length_reverse in Hfit.
  unfold revert. rewrite wrap_sub_l, (base_in checked fits tb) by (done || lia).
  destruct (undo_blocks_spec m n (tail hdr) news live tb news O fuel p hdr) as (p1 & hdr1 & E & Hsf & Hi); try done; try lia.
  { by eapply gat_chain. }
  { symmetry. rewrite Z.sub_0_r. apply Z.mod_small, (shape_tail _ _ _ Hs). }
  { eapply entries_weaken; [exact He|]. intros j e _ Hg. by apply slot_ok_undone. }
  rewrite Z.mul_0_l, Z.add_0_r in E. rewrite (bind_some _ _ _ _ _ E).
  assert (news ++ live ≡ₚ reverse news ++ live) as Hperm by (by rewrite reverse_Permutation).
  destruct (add_blocks_spec malloc raw_flags news fuel m live others) as (m' & E2 & Ebs & Ho' & Hk).
  - by eapply gat_chain.
  - done.
  - by eapply own_perm.
  - rewrite Hperm. apply Hh.
  - intros b blk Hb Eb. apply list_elem_of_lookup in Hb as [q Hq].
    assert ((reverse news ++ live) !! (length news - S q)%nat = Some b) as Hj.
    { pose proof (lookup_lt_Some _ _ _ Hq). rewrite lookup_app_l by (rewrite length_reverse; lia). rewrite reverse_lookup by lia.
      by replace (length news - S (length news - S q))%nat with q by lia. }
    destruct (hold_block _ _ _ _ _ Hh _ _ Hj) as (blk' & Eb' & Hblk). rewrite Eb in Eb'. injection Eb' as <-.
    eapply has_blank; [exact Hblk|]. intros z Hz. apply Hf. pose proof (lookup_lt_Some _ _ _ Hq). nia.
  - rewrite (bind_some _ _ _ _ _ (mem_some _ m p1 _ _ E2)). exists m', (set_tailBlock (tailBlock p0) p1). split; [done|].
    split; [|split; [done|apply (blocks_ok_fields malloc m' others p1); [|done..]; split; [|by exists n, hdr1|done|done]]].
    + destruct (gat_fields _ _ _ _ _ _ _ _ _ _ G) as (G1 & G2 & G3 & G4 & _), Hsf as (S1 & S2 & S3 & S4 & _).
      cbn in G1, G2, G3, G4. repeat split; cbn; congruence.
    + rewrite Ebs. eapply hold_drop. by rewrite length_reverse.
Qed.

(** ** Getting the blocks *)

Lemma hold_next (bs : gmap nat (Block.t T)) L tb h f b blk v : hold bs L tb h f -> bs !! b = Some blk -> hold (<[b := Block.set_next v blk]> bs) L tb h f.
Proof.
  intros [Hnd Hb] Eb. split; [done|]. intros j c Hj. destruct (Hb j c Hj) as (cblk & Ec & Hc). destruct (decide (b = c)) as [<-|Hne].
  - exists (Block.set_next v blk). rewrite lookup_insert_eq. split; [done|]. rewrite Eb in Ec. injection Ec as <-. by apply next_has.
  - exists cblk. by rewrite lookup_insert_ne.
Qed.

Lemma blocks_ok_next m others p L tb h f b blk v :
  blocks_ok m others p L tb h f -> blocks m !! b = Some blk -> (b ∈ L) ->
  blocks_ok (with_block b (Block.set_next v blk) m) others p L tb h f /\ keeps others m (with_block b (Block.set_next v blk) m).
Proof.
  intros [Hh Hi Ho Htb] Eb Hb. destruct (own_store malloc m L others b (Block.set_next v blk) Ho Hb) as [Ho' Hk]. split; [|done].
  split; [by apply hold_next|done|done|done].
Qed.

Lemma reserved_next m others p c b live tb h f blk v :
  reserved m others p c b live tb h f -> blocks m !! b = Some blk ->
  reserved (with_block b (Block.set_next v blk) m) others p c b live tb h f /\ keeps others m (with_block b (Block.set_next v blk) m).
Proof.
  intros [Hh Hi Ho Htb] Eb. destruct (own_store malloc m (b :: live) others b (Block.set_next v blk) Ho) as [Ho' Hk]; [left|].
  split; [|done]. split; [by apply hold_next|done|done|done].
Qed.

(** The block of the last element, if it has room for more. *)
Record room pre startBlock live : Prop := mkRoom {
  room_short : (length pre <= 1)%nat;
  room_start : pre <> [] -> startBlock = head pre;
  room_live : forall d, (d ∈ pre) -> (d ∈ live)
}.

Lemma room_nodup pre startBlock live news : room pre startBlock live -> NoDup (reverse news ++ live) -> NoDup (pre ++ news).
Proof.
  intros [Hs _ Hl] Hnd. apply NoDup_app in Hnd as (Hn & Hd & _). rewrite reverse_Permutation in Hn. apply NoDup_app.
  split; [destruct pre as [|? [|]]; [apply NoDup_nil_2|apply NoDup_singleton|cbn in Hs; lia]|]. split; [|done].
  intros d Hpre Hnews. apply (Hd d); [by apply elem_of_reverse|by apply Hl].
Qed.

(** A new block is linked to the one before it, if there is one. *)
Lemma link_spec m others p b L tb h f l :
  blocks_ok m others p L tb h f -> linked (blocks m) l -> NoDup l -> (forall d, (d ∈ l) -> (d ∈ L)) -> b ∉ l ->
  (l <> [] -> tailBlock p = last l) ->
  exists m', (if negb (bool_decide (l = [])) then
                tb ← field tailBlock; tb ← the tb; mem (store_block tb (Block.set_next (Some b)))
              else mret tt) (m, p) = Some (tt, (m', p)) /\
    keeps others m m' /\ blocks_ok m' others p L tb h f /\ linked (blocks m') (l ++ [b]) /\ blocks m' !! b = blocks m !! b.
Proof.
  intros Hok Hlink Hnd Hin Hb Ht. destruct l as [|c l _] using rev_ind.
  - rewrite bool_decide_eq_true_2 by done. exists m. split; [done|]. split; [done|]. split; [done|]. split; [|done].
    intros [|j] d e Hd He; done.
  - rewrite bool_decide_eq_false_2 by (by destruct l). cbn [negb].
    rewrite (bind_some _ _ _ (tailBlock p) (m, p)) by done. rewrite Ht, last_snoc by (by destruct l).
    rewrite (bind_some _ _ _ c (m, p)) by done. assert ((c ∈ L)) as Hc by (apply Hin, elem_of_app; right; left).
    destruct (own_used malloc m L others c (ok_owns _ _ _ _ _ _ _ _ Hok) Hc) as [cblk Ec].
    rewrite (mem_store m p c cblk _ Ec). eexists. split; [reflexivity|].
    destruct (blocks_ok_next m others p L tb h f c cblk (Some b) Hok Ec Hc) as [Hok' Hk]. split; [done|]. split; [done|].
    split; [rewrite <- app_assoc; by apply linked_snoc|]. apply with_block_lookup_ne. intros ->. apply Hb, elem_of_app. right. left.
Qed.

(** A block is had, and linked to the one before it. *)
Lemma gathered_more m others p0 p startBlock pre news live tb h f c b blk m1 p1 :
  gathered m others p0 p pre news live tb h f -> room pre startBlock live -> tailBlock p = newest startBlock news ->
  same_fields p p1 -> keeps (list_to_set (reverse news ++ live)) m m1 ->
  reserved m1 others p1 c b (reverse news ++ live) (tb + Z.of_nat (length news) * BLOCK_SIZE) h f -> blocks m1 !! b = Some blk ->
  exists m' p', (forall A (k : M (Memory (T := T) * t) A),
      (mem (store_block b (Block.set_next None));; store_value c (Some b);;
       (if negb (bool_decide (pre ++ news = [])) then
          tb ← field tailBlock; tb ← the tb; mem (store_block tb (Block.set_next (Some b)))
        else mret tt);;
       set (set_tailBlock (Some b));; k) (m1, p1) = k (m', p')) /\
    keeps others m1 m' /\ gathered m' others p0 p' pre (news ++ [b]) live tb h f /\ tailBlock p' = Some b.
Proof.
  intros G Hroom Ht Hsf [_ Hk1] Hr Eb. pose proof (ok_hold _ _ _ _ _ _ _ _ (gat_blocks _ _ _ _ _ _ _ _ _ _ G)) as Hh.
  destruct (reserved_next m1 others p1 c b _ _ h f blk None Hr Eb) as [Hr2 Hk2]. set (m2 := with_block b (Block.set_next None blk) m1) in *.
  destruct (reserved_commit checked fits malloc m2 others p1 c b _ _ h f Hr2) as (p2 & E2 & Hsf2 & Hok2).
  pose proof (hold_nodup _ _ _ _ _ (res_hold _ _ _ _ _ _ _ _ _ _ Hr2)) as [Hb _]%NoDup_cons.
  assert (forall d, (d ∈ pre ++ news) -> (d ∈ reverse news ++ live)) as Hin.
  { intros d [Hd|Hd]%elem_of_app; apply elem_of_app; [right; by apply (room_live _ _ _ Hroom)|left; by apply elem_of_reverse]. }
  destruct (link_spec m2 others p2 b (b :: reverse news ++ live) _ h f (pre ++ news) Hok2) as (m' & E3 & Hk3 & Hok3 & Hl3 & Eb3).
  - eapply linked_ext; [|apply G]. intros d Hd. unfold m2. rewrite with_block_lookup_ne; [|intros <-; by apply Hb, Hin].
    apply Hk1, elem_of_list_to_set. by apply Hin.
  - eapply room_nodup; [done|apply Hh].
  - intros d Hd. right. by apply Hin.
  - intros Hd. by apply Hb, Hin.
  - intros Hne. destruct (fields_trans _ _ _ Hsf Hsf2) as (_ & _ & _ & _ & ->). rewrite Ht. unfold newest.
    rewrite last_app. destruct (last news) eqn:El; [done|]. apply last_None in El as ->. rewrite app_nil_r in Hne.
    rewrite (room_start _ _ _ Hroom Hne). pose proof (room_short _ _ _ Hroom). by destruct pre as [|? [|]]; [| |cbn in *; lia].
  - exists m', (set_tailBlock (Some b) p2). split; [|split; [by eapply keeping_trans|split; [split|done]]].
    + intros A k. rewrite (bind_some _ _ _ _ _ (mem_store m1 p1 b blk _ Eb)). fold m2. rewrite (bind_some _ _ _ _ _ E2).
      by rewrite (bind_some _ _ _ _ _ E3).
    + rewrite reverse_snoc, length_app. cbn [length app].
      replace (tb + Z.of_nat (length news + 1) * BLOCK_SIZE) with (tb + Z.of_nat (length news) * BLOCK_SIZE + BLOCK_SIZE) by lia.
      by eapply blocks_ok_fields.
    + by rewrite app_assoc.
    + intros d Hd. rewrite last_snoc in Hd. injection Hd as <-. exists (Block.set_next None blk). rewrite Eb3.
      split; [apply with_block_lookup|done].
    + destruct (gat_fields _ _ _ _ _ _ _ _ _ _ G) as (G1 & G2 & G3 & G4 & _), (fields_trans _ _ _ Hsf Hsf2) as (S1 & S2 & S3 & S4 & _).
      cbn in G1, G2, G3, G4. repeat split; cbn; congruence.
Qed.

(** Nothing of it is lost when there is no more. *)
Lemma gathered_refused mode m others p0 p startBlock pre news live tb h f m' p' :
  gathered m others p0 p pre news live tb h f -> room pre startBlock live ->
  refused mode m others p (reverse news ++ live) (tb + Z.of_nat (length news) * BLOCK_SIZE) h f m' p' ->
  gathered m' others p0 p' pre news live tb h f.
Proof.
  intros [Hb Hl He Hf] Hroom [Hsf [_ Hk] Hb' _].
  assert (forall b, (b ∈ news) \/ (b ∈ live) -> blocks m' !! b = blocks m !! b) as Hsame.
  { intros b Hin. apply Hk, elem_of_union. left. by rewrite elem_of_list_to_set, elem_of_app, elem_of_reverse. }
  split; [done| | |].
  - eapply linked_ext; [|exact Hl]. intros b [Hb1|Hb1]%elem_of_app; apply Hsame; [right; by apply (room_live _ _ _ Hroom)|by left].
  - intros b Hlast. destruct (He b Hlast) as (blk & E & En). exists blk. split; [|done]. rewrite Hsame; [done|left].
    apply last_Some in Hlast as [l ->]. apply elem_of_app. right. left.
  - destruct Hf as (G1 & G2 & G3 & G4 & _), Hsf as (S1 & S2 & S3 & S4 & _). cbn in G1, G2, G3, G4. repeat split; cbn; congruence.
Qed.

(** The conditions of the numbers under which blocks are had. *)
Record ready live (tb h start : Z) (f : Z -> option T) : Prop := mkReady {
  ready_tb : tb `mod` BLOCK_SIZE = 0;
  ready_start : tb < start <= tb + BLOCK_SIZE;
  ready_head : h <= start;
  ready_oldest : 0 <= h - (tb - Z.of_nat (length live) * BLOCK_SIZE + BLOCK_SIZE) < BLOCK_SIZE;
  ready_none : forall z, start <= z -> f z = None
}.

(** Nothing has been had in the end. *)
Lemma reverted m m1 others p0 p startBlock pre news live tb h start f total :
  gathered m1 others p0 p pre news live tb h f -> ready live tb h start f -> startBlock = tailBlock p0 ->
  (length news <= total)%nat -> keeps others m m1 ->
  exists m' p', (revert total (u64 start) startBlock (head news);; mret None) (m1, p) = Some (@None (option nat), (m', p')) /\
    keeps others m m' /\ same_fields p0 p' /\ blocks_ok m' others p' live tb h f.
Proof.
  intros G [Htb Hstart Hh Hold Hnone] Hsb Hl Hk.
  destruct (revert_spec m1 others p0 p startBlock pre news live tb h f total start G Hsb Hl Htb Hstart) as (m' & p' & E & Hsf & Hk' & Hb).
  { intros z Hz. apply Hnone. lia. }
  exists m', p'. rewrite (bind_some _ _ _ _ _ E). split; [done|]. split; [by eapply keeping_trans|done].
Qed.

(** One turn of the loop. *)
Lemma get_blocks_turn mode others p0 startBlock pre live tb h start f total news m p fuel z :
  room pre startBlock live -> ready live tb h start f -> startBlock = tailBlock p0 -> headIndex p0 = u64 h ->
  (place (u64 start) =? 0) = bool_decide (pre = []) -> gathered m others p0 p pre news live tb h f ->
  tailBlock p = newest startBlock news ->
  (length news <= total)%nat -> let tbi := tb + Z.of_nat (length news) * BLOCK_SIZE in tbi + BLOCK_SIZE - h < 2 ^ 63 ->
  let turn := get_blocks malloc raw_flags raw_value (Datatypes.S fuel) total mode (u64 start) startBlock (u64 (z + BLOCK_SIZE))
    (u64 tbi) (head news) (m, p) in
  exists m' p', keeps others m m' /\
    ((turn = Some (None, (m', p')) /\ same_fields p0 p' /\ blocks_ok m' others p' live tb h f) \/
     exists b, gathered m' others p0 p' pre (news ++ [b]) live tb h f /\ tailBlock p' = Some b /\ tbi + BLOCK_SIZE + BLOCK_SIZE - h < 2 ^ 63 /\
       turn = (if 0 <? u64 z then get_blocks malloc raw_flags raw_value fuel total mode (u64 start) startBlock (u64 z)
           (u64 (tbi + BLOCK_SIZE)) (head (news ++ [b])) else mret (Some (head (news ++ [b])))) (m', p')).
Proof.
  intros Hroom Hready Hsb Hhead Hplace G Htl Htotal tbi Hnear. pose proof Hready as [Htb Hstart Hh Hold Hnone].
  pose proof (BLOCK_SIZE_bounds checked fits) as HB. cbv zeta. cbn [get_blocks].
  rewrite wrap_add_l, wrap_sub_l. replace (z + BLOCK_SIZE - BLOCK_SIZE) with z by lia.
  assert (headIndex p = u64 h) as Hhp by (destruct (gat_fields _ _ _ _ _ _ _ _ _ _ G) as (_ & -> & _); done).
  rewrite (bind_some _ _ _ (headIndex p) (m, p)) by done. rewrite Hhp, less_near by (unfold tbi in *; lia).
  rewrite (bind_some _ _ _ tt (m, p)) by (apply assert_true, negb_true_iff, Z.ltb_ge; unfold tbi; lia).
  pose proof (reverted m m others p0 p startBlock pre news live tb h start f total G Hready Hsb Htotal (keeping_refl _ _)) as (m0 & p0' & E0 & Hk0 & H0).
  destruct (full (u64 h) (u64 (tbi + BLOCK_SIZE))) eqn:Efull; [exists m0, p0'; split; [done|left; by split]|]. clear m0 p0' E0 Hk0 H0.
  apply not_full in Efull; [|done|done|unfold tbi; lia|lia].
  destruct (reserve_spec checked fits malloc raw_flags raw_value mode m others p (reverse news ++ live) tbi h f) as (o & m1 & p1 & E & Hres).
  - apply G.
  - eapply (small_run checked fits _ h tbi); [|done]. rewrite length_app, length_reverse. unfold tbi. lia.
  - unfold tbi. lia.
  - intros y Hy. apply Hnone. unfold tbi in Hy. lia.
  - rewrite (bind_some _ _ _ _ _ E).
    assert (forall m2 p2, refused mode m others p (reverse news ++ live) tbi h f m2 p2 -> exists m' p',
      (revert total (u64 start) startBlock (head news);; mret None) (m2, p2) = Some (@None (option nat), (m', p')) /\
      keeps others m m' /\ same_fields p0 p' /\ blocks_ok m' others p' live tb h f) as Hback.
    { intros m2 p2 Href. eapply reverted; [by eapply gathered_refused|done..|]. by eapply keeps_rest, Href. }
    destruct o as [c|]; [|destruct (Hback m1 p1 Hres) as (m' & p' & E' & Hk & H'); exists m', p'; split; [done|left; by split]].
    destruct Hres as (o & m2 & E2 & Hres). rewrite (bind_some _ _ _ _ _ (mem_some _ m1 p1 _ _ E2)). destruct o as [b|].
    2:{ destruct Hres as (p2 & E3 & Href). destruct (Hback m2 p2 Href) as (m' & p' & E' & Hk & H'). exists m', p'.
        split; [done|]. left. split; [by rewrite E3|done]. }
    destruct Hres as (blk & Eb & Hsf & Hk & Hr). rewrite (bind_some _ _ _ _ _ (mem_store m2 p1 b blk _ Eb)).
    pose proof (res_owns _ _ _ _ _ _ _ _ _ _ Hr) as Ho. pose proof (hold_nodup _ _ _ _ _ (res_hold _ _ _ _ _ _ _ _ _ _ Hr)) as [Hb _]%NoDup_cons.
    set (m3 := with_block b (Block.reset_empty implicit_context blk) m2) in *.
    assert (keeps others m m3) as Hk3 by (apply reset_keeps; [by eapply keeps_rest|apply (own_apart _ _ _ _ Ho); left]).
    destruct (gathered_more m others p0 p startBlock pre news live tb h f c b (Block.reset_empty implicit_context blk) m3 p1
      G Hroom Htl Hsf) as (m' & p' & E4 & Hk4 & G' & Htl').
    { apply reset_keeps; [eapply keeps_weaken; [|exact Hk]; apply union_subseteq_l|]. by rewrite elem_of_list_to_set. }
    { exact Hr. }
    { apply with_block_lookup. }
    exists m', p'. split; [by eapply keeping_trans|]. right. exists b. split; [done|]. split; [done|]. split; [lia|].
    assert (negb (place (u64 start) =? 0) || bool_decide (head news <> None) = negb (bool_decide (pre ++ news = []))) as ->.
    { rewrite Hplace. by destruct pre, news. }
    rewrite E4. by destruct news.
Qed.

Lemma get_blocks_spec mode others p0 startBlock pre live tb h start f total :
  room pre startBlock live -> ready live tb h start f -> startBlock = tailBlock p0 -> headIndex p0 = u64 h ->
  (place (u64 start) =? 0) = bool_decide (pre = []) ->
  forall d fuel news m p, gathered m others p0 p pre news live tb h f -> tailBlock p = newest startBlock news ->
  (d < fuel)%nat -> (length news + S d <= total)%nat -> Z.of_nat (S d) * BLOCK_SIZE < 2 ^ 64 ->
  tb + Z.of_nat (length news) * BLOCK_SIZE + BLOCK_SIZE - h < 2 ^ 63 ->
  exists r m' p', get_blocks malloc raw_flags raw_value fuel total mode (u64 start) startBlock (u64 (Z.of_nat (S d) * BLOCK_SIZE))
      (u64 (tb + Z.of_nat (length news) * BLOCK_SIZE)) (head news) (m, p) = Some (r, (m', p')) /\ keeps others m m' /\
    match r with
    | None => same_fields p0 p' /\ blocks_ok m' others p' live tb h f
    | Some first => exists news', first = head news' /\ length news' = (length news + S d)%nat /\
        gathered m' others p0 p' pre news' live tb h f /\ tailBlock p' = newest startBlock news' /\ tb + Z.of_nat (length news') * BLOCK_SIZE + BLOCK_SIZE - h < 2 ^ 63
    end.
Proof.
  intros Hroom Hready Hsb Hhead Hplace. pose proof (BLOCK_SIZE_bounds checked fits) as HB.
  induction d as [|d IH]; intros fuel news m p G Htl Hfuel Htotal Hd Hnear; (destruct fuel as [|fuel]; [lia|]).
  - replace (Z.of_nat 1 * BLOCK_SIZE) with (0 + BLOCK_SIZE) by lia.
    destruct (get_blocks_turn mode others p0 startBlock pre live tb h start f total news m p fuel 0) as (m' & p' & Hk & Hres);
      [done..|lia|lia|]. destruct Hres as [(E & Hback)|(b & G' & Htl' & Hnear' & E)].
    { by exists None, m', p'. }
    cbn [Z.ltb Z.compare] in E. exists (Some (head (news ++ [b]))), m', p'. split; [exact E|]. split; [done|].
    exists (news ++ [b]). rewrite length_app. cbn [length]. split; [done|]. split; [lia|]. split; [done|].
    split; [by unfold newest; rewrite last_snoc|lia].
  - replace (Z.of_nat (Datatypes.S (Datatypes.S d)) * BLOCK_SIZE) with (Z.of_nat (Datatypes.S d) * BLOCK_SIZE + BLOCK_SIZE) in * by lia.
    destruct (get_blocks_turn mode others p0 startBlock pre live tb h start f total news m p fuel (Z.of_nat (Datatypes.S d) * BLOCK_SIZE))
      as (m' & p' & Hk & Hres); [done..|lia|lia|]. destruct Hres as [(E & Hback)|(b & G' & Htl' & Hnear' & E)].
    { by exists None, m', p'. }
    rewrite (proj2 (Z.ltb_lt 0 _)) in E by (rewrite wrap_small; unfold in_width; lia).
    assert (length (news ++ [b]) = Datatypes.S (length news)) as El by (rewrite length_app; cbn; lia).
    destruct (IH fuel (news ++ [b]) m' p' G') as (r & m'' & p'' & E' & Hk' & Hres); rewrite ?El; try lia; [by unfold newest; rewrite last_snoc|].
    rewrite El in E'. replace (tb + Z.of_nat (Datatypes.S (length news)) * BLOCK_SIZE) with (tb + Z.of_nat (length news) * BLOCK_SIZE + BLOCK_SIZE) in E' by lia.
    exists r, m'', p''. rewrite E. split; [exact E'|]. split; [by eapply keeping_trans|]. destruct r as [first|]; [|done].
    destruct Hres as (news' & -> & Hl & G'' & Htl'' & Hn''). exists news'. split; [done|]. split; [lia|done].
Qed.

(** ** The whole operation *)

Lemma gathered_none m others p pre live tb h f :
  blocks_ok m others p live tb h f -> (length pre <= 1)%nat -> gathered m others p p pre [] live tb h f.
Proof.
  intros Hb Hpre. split; [by rewrite Z.mul_0_l, Z.add_0_r| |done|done]. rewrite app_nil_r. intros j b c Hj Hj'.
  apply lookup_lt_Some in Hj'. lia.
Qed.

(** Elements are constructed or destroyed. *)
Lemma gathered_touched m m' others p0 p p' pre news live tb h f g :
  gathered m others p0 p pre news live tb h f -> touched (reverse news ++ live) m m' ->
  hold (blocks m') (reverse news ++ live) (tb + Z.of_nat (length news) * BLOCK_SIZE) h g -> (exists v, p' = set_tailBlock v p) ->
  gathered m' others p0 p' pre news live tb h g /\ keeps others m m'.
Proof.
  intros [Hb Hl He Hf] Ht Hh [v ->]. destruct (own_touched malloc _ m m' _ others (ok_owns _ _ _ _ _ _ _ _ Hb) (fun b H => H) Ht) as [Ho Hk].
  split; [|done]. split.
  - apply (blocks_ok_fields malloc m' others p); [|done..]. split; [done|apply Hb|done|apply Hb].
  - by eapply linked_touched.
  - intros b Hlast. destruct (He b Hlast) as (blk & E & En). destruct (touched_next _ _ _ Ht b blk E) as (blk' & E' & En').
    exists blk'. split; [done|congruence].
  - destruct Hf as (G1 & G2 & G3 & G4 & _). cbn in G1, G2, G3, G4. by repeat split.
Qed.

(** The block of the last element, if there is room in it. *)
Lemma room_of m others p h xs live tb :
  rep malloc m others p h xs live tb -> let t := h + Z.of_nat (length xs) in
  exists pre rest, live = pre ++ rest /\ room pre (tailBlock p) live /\ (place (u64 t) =? 0) = bool_decide (pre = []) /\
    let b0 := tb + BLOCK_SIZE - Z.of_nat (length pre) * BLOCK_SIZE in b0 <= t < b0 + BLOCK_SIZE.
Proof.
  intros R t. pose proof (rep_range _ _ _ _ _ _ _ _ R) as Hr. pose proof (rep_oldest _ _ _ _ _ _ _ _ R) as Ho. fold t in Hr.
  rewrite (block_boundary checked fits tb) by (apply (rep_blocks _ _ _ _ _ _ _ _ R) || done). destruct (Z.eqb_spec t (tb + BLOCK_SIZE)) as [Et|Ht].
  - exists [], live. split; [done|]. split; [|split; [done|cbn; lia]]. split; [cbn; lia|done|intros d []%elem_of_nil].
  - destruct live as [|b live]; [cbn in Ho; lia|]. exists [b], live. split; [done|]. split; [|split; [done|cbn; lia]].
    split; [cbn; lia| |intros d ->%list_elem_of_singleton; left]. intros _. by rewrite (rep_tailBlock _ _ _ _ _ _ _ _ R).
Qed.

Lemma room_first pre startBlock live news b l :
  room pre startBlock live -> pre ++ news = b :: l ->
  (if bool_decide (pre = []) then head news else startBlock) = Some b /\ newest startBlock news = last (b :: l).
Proof.
  intros [Hs Hst _] E. unfold newest. rewrite <- E, last_app. destruct pre as [|c [|]]; [|injection E as -> ->|cbn in Hs; lia].
  - cbn in E |- *. rewrite E. by destruct (last (b :: l)) eqn:El; [|apply last_None in El].
  - rewrite (Hst ltac:(done)). split; [done|]. by destruct (last l).
Qed.

Lemma get_needed mode m others p h xs live tb pre K fuel :
  rep malloc m others p h xs live tb -> let t := h + Z.of_nat (length xs) in room pre (tailBlock p) live ->
  (place (u64 t) =? 0) = bool_decide (pre = []) -> Z.of_nat K * BLOCK_SIZE < 2 ^ 64 -> (K <= fuel)%nat ->
  exists r m' p', (if 0 <? u64 (Z.of_nat K * BLOCK_SIZE)
      then get_blocks malloc raw_flags raw_value fuel fuel mode (u64 t) (tailBlock p) (u64 (Z.of_nat K * BLOCK_SIZE)) (u64 tb) None
      else mret (Some None)) (m, p) = Some (r, (m', p')) /\ keeps others m m' /\
    match r with
    | None => rep malloc m' others p' h xs live tb
    | Some first => exists news, first = head news /\ length news = K /\ gathered m' others p p' pre news live tb h (elems xs h) /\
        tailBlock p' = newest (tailBlock p) news /\ tb + Z.of_nat K * BLOCK_SIZE + BLOCK_SIZE - h < 2 ^ 63
    end.
Proof.
  intros R t Hroom Hplace HK Hfuel. pose proof (BLOCK_SIZE_bounds checked fits) as HB.
  assert (gathered m others p p pre [] live tb h (elems xs h)) as G by (apply gathered_none; [apply R|apply Hroom]).
  destruct K as [|d].
  - exists (Some None), m, p. split; [done|]. split; [done|]. exists []. pose proof (rep_near _ _ _ _ _ _ _ _ R).
    split; [done|]. split; [done|]. split; [done|]. split; [done|lia].
  - rewrite (proj2 (Z.ltb_lt 0 _)) by (rewrite wrap_small; unfold in_width; lia).
    destruct (get_blocks_spec mode others p (tailBlock p) pre live tb h t (elems xs h) fuel Hroom) with (d := d) (fuel := fuel) (news := @nil nat)
      (m := m) (p := p) as (r & m' & p' & E & Hk & Hres); try done.
    + split; [apply (rep_blocks _ _ _ _ _ _ _ _ R)|apply R|unfold t; lia|apply R|]. intros z Hz. apply elems_none. unfold t in Hz. lia.
    + apply R.
    + pose proof (rep_near _ _ _ _ _ _ _ _ R). cbn [length]. lia.
    + cbn [length] in E. rewrite Z.mul_0_l, Z.add_0_r in E. exists r, m', p'. split; [exact E|]. split; [done|]. destruct r as [first|].
      * destruct Hres as (news & -> & Hl & G' & Htl & Hn). cbn [length] in Hl. exists news. rewrite Hl in Hn. done.
      * destruct Hres as [Hsf Hb]. by eapply rep_change.
Qed.

(** Everything is there: the elements are constructed, or none of them is. *)
Lemma bulk_write m0 m others p p1 h xs live tb pre rest news b l ys fuel :
  rep malloc m0 others p h xs live tb -> gathered m others p p1 pre news live tb h (elems xs h) ->
  live = pre ++ rest -> (length pre <= 1)%nat -> pre ++ news = b :: l -> let t := h + Z.of_nat (length xs) in let n := Z.of_nat (length ys) in
  let tb' := tb + Z.of_nat (length news) * BLOCK_SIZE in
  let b0 := tb + BLOCK_SIZE - Z.of_nat (length pre) * BLOCK_SIZE in b0 <= t < b0 + BLOCK_SIZE -> 0 < n -> tb' < t + n <= tb' + BLOCK_SIZE -> tb' + BLOCK_SIZE - h < 2 ^ 63 ->
  (length l < fuel)%nat ->
  exists r m' p', (thrown ← fill_blocks noexcept_ctor ctor_throws fuel (last (b :: l)) (u64 t) (u64 (t + n)) ys;
      match thrown with
      | None => set (set_tailIndex (u64 (t + n)));; mret (Returned true)
      | Some stop =>
          lastBlockEnqueued ← field tailBlock;
          destroy_blocks fuel (Some b) lastBlockEnqueued (u64 t) stop;;
          revert fuel (u64 t) (tailBlock p) (head news);;
          mret Threw
      end) (m, set_tailBlock (Some b) p1) = Some (r, (m', p')) /\ keeps others m m' /\
    match r with
    | Returned ok => ok = true /\ Forall (fun y => throws noexcept_ctor ctor_throws y = false) ys /\
        rep malloc m' others p' h (xs ++ ys) (reverse news ++ live) tb'
    | Threw => (exists y, (y ∈ ys) /\ throws noexcept_ctor ctor_throws y = true) /\ rep malloc m' others p' h xs live tb
    end.
Proof.
  intros R G Elive Hpre Epre t n tb' b0 Ht Hn Htn Hnear Hfuel. pose proof (BLOCK_SIZE_bounds checked fits) as HB.
  set (L := reverse news ++ live) in *. set (f := elems xs h) in *. pose proof (gat_blocks _ _ _ _ _ _ _ _ _ _ G) as Hok.
  assert (newest_of (b :: l) L) as Hnew.
  { rewrite <- Epre. unfold L. rewrite Elive, app_assoc. replace (reverse news ++ pre) with (reverse (pre ++ news)); [apply newest_reverse|].
    rewrite reverse_app. by destruct pre as [|? [|]]; [| |cbn in Hpre; lia]. }
  assert (forall z, t <= z -> f z = None) as Hnone by (intros z Hz; apply elems_none; unfold t in Hz; lia).
  assert (tb' - Z.of_nat (length l) * BLOCK_SIZE = b0) as Eb0.
  { apply (f_equal length) in Epre. rewrite length_app in Epre. cbn [length] in Epre. unfold tb', b0. nia. }
  pose proof (rep_range _ _ _ _ _ _ _ _ R) as Hr. fold t in Hr.
  destruct (fill_chain_spec (ctx := implicit_context) checked fits noexcept_ctor ctor_throws tailBlock set_tailBlock ltac:(done) ltac:(done) ltac:(by intros []) l fuel b m
    (set_tailBlock (Some b) p1) f t ys (last (b :: l)) L tb' h) as (q & m1 & c & k & E & Hq & Htouch & Hh1 & Hall & Hthrow & Hc & Hck & Hlast);
    try done.
  - apply Hok.
  - apply Hok.
  - rewrite <- Epre. apply G.
  - cbv zeta. by rewrite Eb0.
  - unfold t, n in *. lia.
  - unfold fill_blocks. rewrite (bind_some _ _ _ _ _ E). destruct (decide (q = length ys)) as [->|Hne].
    + rewrite firstn_all in Hh1. destruct (gathered_touched m m1 others p p1 _ pre news live tb h f _ G Htouch Hh1 ltac:(by exists (Some c))) as [G' Hk].
      exists (Returned true), m1, (set_tailIndex (u64 (t + n)) (set_tailBlock (Some c) p1)). split; [done|]. split; [done|]. split; [done|].
      split; [by rewrite firstn_all in Hall|].
      destruct (gat_fields _ _ _ _ _ _ _ _ _ _ G) as (_ & Eh & Eo & Ec & _). cbn in Eh, Eo, Ec.
      split; cbn; rewrite ?Eh, ?Eo, ?Ec, ?length_app; try apply R; try done.
      * f_equal. unfold t, n. lia.
      * intros _. rewrite (Hlast eq_refl) in Hc. specialize (Hnew _ _ Hc). cbn [length] in Hnew. fold L.
        replace (Datatypes.S (length l) - 1 - length l)%nat with O in Hnew by lia. by destruct L.
      * unfold t, n in Htn. lia.
      * pose proof (rep_oldest _ _ _ _ _ _ _ _ R). unfold L. rewrite length_app, length_reverse. unfold tb'. lia.
      * apply (blocks_ok_fields malloc m1 others (set_tailBlock (Some c) p1)); [|done..].
        destruct (gat_blocks _ _ _ _ _ _ _ _ _ _ G') as [Hh' Hi' Ho' Htb']. split; [|done..].
        eapply (hold_ext checked fits); [|exact Hh']. intros z _. symmetry. apply elems_over.
    + destruct Hthrow as (y & Ey & Hy); [lia|].
      rewrite (bind_some _ _ _ (Some c) (m1, set_tailBlock (Some c) p1)) by done.
      destruct (destroy_chain_spec (ctx := implicit_context) checked fits k fuel b l c m1 (set_tailBlock (Some c) p1) (over f t (firstn q ys)) t
        (t + Z.of_nat q) L tb' h) as (m2 & E2 & Htouch2 & Hh2); try done.
      * apply Hok.
      * eapply linked_touched; [exact Htouch|]. rewrite <- Epre. apply G.
      * apply lookup_lt_Some in Hc. cbn [length] in Hc. lia.
      * cbv zeta. by rewrite Eb0.
      * lia.
      * unfold t, n in *. lia.
      * intros z Hz. apply over_some. rewrite length_firstn. lia.
      * unfold destroy_blocks. rewrite (bind_some _ _ _ _ _ E2).
        assert (hold (blocks m2) L tb' h f) as Hh2'.
        { eapply (hold_ext checked fits); [|exact Hh2]. intros z _. rewrite <- (without_over f t (firstn q ys) z Hnone), length_firstn.
          do 2 f_equal. lia. }
        destruct (gathered_touched m m2 others p p1 (set_tailBlock (Some c) p1) pre news live tb h f f G (touched_trans _ _ _ _ Htouch Htouch2) Hh2')
          as [G' Hk]; [by exists (Some c)|].
        destruct (revert_spec m2 others p (set_tailBlock (Some c) p1) (tailBlock p) pre news live tb h f fuel t G' eq_refl)
          as (m' & p' & E3 & Hsf & Hk' & Hb).
        { apply (f_equal length) in Epre. rewrite length_app in Epre. cbn [length] in Epre. lia. }
        { apply (rep_blocks _ _ _ _ _ _ _ _ R). }
        { done. }
        { intros z Hz. apply Hnone. lia. }
        rewrite (bind_some _ _ _ _ _ E3). exists Threw, m', p'. split; [done|]. split; [by eapply keeping_trans|].
        split; [exists y; split; [by eapply list_elem_of_lookup_2|done]|by eapply rep_change].
Qed.

(** The elements enter the queue at its end, all of them or none. *)
Lemma implicit_enqueue_bulk mode m others p h xs live tb ys :
  rep malloc m others p h xs live tb -> Z.of_nat (length ys) <= 2 ^ 63 ->
  exists r m' p', enqueue_bulk malloc raw_flags noexcept_ctor ctor_throws raw_value mode ys (m, p) = Some (r, (m', p')) /\ keeps others m m' /\
    match r with
    | Returned true => Forall (fun y => throws noexcept_ctor ctor_throws y = false) ys /\
        exists live' tb', rep malloc m' others p' h (xs ++ ys) live' tb'
    | Returned false => rep malloc m' others p' h xs live tb
    | Threw => (exists y, (y ∈ ys) /\ throws noexcept_ctor ctor_throws y = true) /\ rep malloc m' others p' h xs live tb
    end.
Proof.
  intros R Hlen. pose proof (BLOCK_SIZE_bounds checked fits) as HB. pose proof (rep_range _ _ _ _ _ _ _ _ R) as Hr.
  pose proof (ok_tb _ _ _ _ _ _ _ _ (rep_blocks _ _ _ _ _ _ _ _ R)) as Htb.
  destruct (room_of m others p h xs live tb R) as (pre & rest & Elive & Hroom & Hplace & Hb0).
  set (t := h + Z.of_nat (length xs)) in *. set (n := Z.of_nat (length ys)) in *.
  destruct (blocks_needed checked fits tb t n Htb Hr ltac:(lia)) as (K & Ebase & HK & Hfuel).
  unfold enqueue_bulk. rewrite (bind_some _ _ _ (tailIndex p) (m, p)), (bind_some _ _ _ (tailBlock p) (m, p)) by done.
  rewrite (rep_tail _ _ _ _ _ _ _ _ R). fold t n. cbv zeta. rewrite wrap_sub_l, (base_in checked fits tb (t - 1)) by (done || lia).
  rewrite <- (wrap_sub_l _ (u64 t + n)), (wrap_add_l _ t n), wrap_sub_l, Ebase, wrap_sub_l, wrap_sub_r.
  replace (tb + Z.of_nat K * BLOCK_SIZE - tb) with (Z.of_nat K * BLOCK_SIZE) by lia. set (fuel := Datatypes.S (Z.to_nat (n / BLOCK_SIZE + 1))).
  destruct (get_needed mode m others p h xs live tb pre K fuel R Hroom Hplace) as (r & m1 & p1 & E & Hk & Hres); [lia|unfold fuel; lia|].
  fold t in E. rewrite (bind_some _ _ _ _ _ E). destruct r as [first|]; [|by exists (Returned false), m1, p1].
  destruct Hres as (news & -> & Hl & G & Htl & Hnear). rewrite (bind_some _ _ _ (tailBlock p1) (m1, p1)) by done.
  rewrite Hplace. destruct (decide (n = 0)) as [En|Hn].
  - assert (K = O) as -> by nia. apply nil_length_inv in Hl as ->. rewrite En, Z.add_0_r in *. cbn [head hd_error].
    assert (ys = []) as -> by (destruct ys; [done|unfold n in En; cbn in En; lia]). cbn [Z.eqb]. rewrite orb_true_r, andb_false_r.
    rewrite (bind_some _ _ _ tt (m1, p1)) by done. rewrite (bind_some _ _ _ tt (m1, set_tailBlock (tailBlock p) p1)) by done.
    cbn in Htl. rewrite Htl. unfold fill_blocks.
    pose proof (fill_chain_nil checked fits noexcept_ctor ctor_throws tailBlock set_tailBlock (Z.to_nat (n / BLOCK_SIZE + 1)) m1
      (set_tailBlock (tailBlock p) p1) t) as Efill.
    cbn [tailBlock set_tailBlock] in Efill. fold fuel in Efill. rewrite (bind_some _ _ _ _ _ Efill).
    assert (rep malloc m1 others (set_tailBlock (tailBlock p) p1) h xs live tb) as R1.
    { eapply rep_change; [exact R|destruct (gat_fields _ _ _ _ _ _ _ _ _ _ G) as (? & ? & ? & ? & _); by repeat split|].
      pose proof (gat_blocks _ _ _ _ _ _ _ _ _ _ G) as Hb. rewrite Z.mul_0_l, Z.add_0_r in Hb. by eapply blocks_ok_fields. }
    exists (Returned true), m1, (set_tailIndex (u64 t) (set_tailBlock (tailBlock p) p1)). split; [done|]. split; [done|]. split; [done|].
    exists live, tb. rewrite app_nil_r. pose proof (rep_tail _ _ _ _ _ _ _ _ R1) as Et. fold t in Et. rewrite <- Et. by destruct p1.
  - assert (exists b l, pre ++ news = b :: l) as (b & l & Epre).
    { destruct (pre ++ news) as [|b l] eqn:E0; [exfalso|by exists b, l]. apply app_eq_nil in E0 as [-> ->]. cbn in Hl, Hb0. nia. }
    destruct (room_first pre (tailBlock p) live news b l Hroom Epre) as [Ef El].
    assert ((if bool_decide (pre = []) && bool_decide (head news <> None) then head news else tailBlock p) = Some b) as ->.
    { rewrite <- Ef. case_bool_decide; cbn [andb]; [|done]. rewrite Ef. done. }
    rewrite (bind_some _ _ _ tt (m1, p1)).
    2:{ apply assert_true. case_bool_decide; cbn [negb orb]; [|done]. by rewrite Ef. }
    rewrite (bind_some _ _ _ tt (m1, set_tailBlock (Some b) p1)) by done. rewrite Ef, Htl, El.
    assert (length l < fuel)%nat as Hf.
    { apply (f_equal length) in Epre. rewrite length_app in Epre. cbn [length] in Epre. pose proof (room_short _ _ _ Hroom). unfold fuel. lia. }
    destruct (bulk_write m m1 others p p1 h xs live tb pre rest news b l ys fuel) as (r & m' & p' & E' & Hk' & Hres);
      rewrite ?Hl; try done; try lia.
    { apply Hroom. }
    exists r, m', p'. split; [exact E'|]. split; [by eapply keeping_trans|]. destruct r as [ok|]; [|done].
    destruct Hres as (-> & Hall & R'). split; [done|]. by do 2 eexists.
Qed.

(** ** Taking many elements *)

(** The blocks and the index when the elements before [h] are gone. *)
Record taking m others p n hdr live (tb h : Z) (f : Z -> option T) : Prop := mkTaking {
  tak_hold : hold (blocks m) live tb h f;
  tak_index : index_ok p n hdr live tb;
  tak_owns : owns malloc m live others
}.

(** The elements of the oldest block up to [stop]. *)
Lemma take_turn m others p n hdr init b tb i stop f :
  taking m others p n hdr (init ++ [b]) tb i f -> tb `mod` BLOCK_SIZE = 0 ->
  let b0 := tb - Z.of_nat (length init) * BLOCK_SIZE in b0 <= i <= stop -> stop <= b0 + BLOCK_SIZE -> i < b0 + BLOCK_SIZE ->
  (forall z, i <= z < stop -> is_Some (f z)) -> (forall z, z < i -> f z = None) ->
  exists ys m' p' live', (forall A (k : list T -> M (Memory (T := T) * t) A),
      (entry ← entry_at hdr ((tail hdr - Z.of_nat (length init)) `mod` capacity hdr);
       b ← the (value entry.2);
       xs ← take_block (Z.to_nat BLOCK_SIZE) b (u64 i) (u64 stop);
       blk ← mem (load_block b);
       r ← the (Block.set_many_empty implicit_context (u64 i) (u64 (u64 stop - u64 i)) blk);
       mem (store_block b (fun _ => r.2));;
       (if (r.1 : bool) then release_block entry.1 b else mret tt);;
       k xs) (m, p) = k ys (m', p')) /\
    same_fields p p' /\ keeps others m m' /\ taking m' others p' n hdr live' tb stop (without f i stop) /\
    live' = (if bool_decide (stop = b0 + BLOCK_SIZE) then init else init ++ [b]) /\
    Z.of_nat (length ys) = stop - i /\ (forall q, (q < length ys)%nat -> ys !! q = f (i + Z.of_nat q)).
Proof.
  intros [Hhold Hi Ho] Htb b0 Hr Hstop Hlt Hf Hgone. pose proof (BLOCK_SIZE_bounds checked fits) as HB.
  assert ((init ++ [b]) !! length init = Some b) as Hj by (by apply list_lookup_middle).
  destruct (find_block checked fits m p n hdr _ tb _ b i Hi Htb Hj) as (c & Es & _ & _); [fold b0; lia|].
  destruct (hold_block _ _ _ _ _ Hhold _ _ Hj) as (blk & Eb & Hblk). fold b0 in Hblk.
  assert (b0 `mod` BLOCK_SIZE = 0) as Hb0 by (by apply back_mod).
  assert (place i = i - b0) as Hp by (apply (place_in checked fits); [done|lia]).
  destruct (take_block_spec checked fits (Z.to_nat BLOCK_SIZE) m p b blk b0 i f i stop Eb Hblk Hb0) as (ys & blk1 & E1 & Hblk1 & _ & Hl & Hys);
    [lia|lia|lia|done|].
  destruct (set_many_has checked fits blk1 b0 i stop _ Hblk1) as (blk2 & Em & Hblk2 & _); [lia|lia|lia|done|].
  cbn [Block.uses_flags negb andb] in Em.
  destruct (own_store malloc m (init ++ [b]) others b blk1 Ho) as [Ho1 Hk1]; [apply elem_of_app; right; left|].
  destruct (retire_oldest checked fits malloc raw_flags (with_block b blk1 m) others p n hdr init b tb i stop (without f i stop) c
    (mkEntry (u64 b0) (Some b)) blk2) as (m' & p' & live' & E & Hsf & Hk & Hh' & Hi' & Ho' & El); try done; try (fold b0; lia).
  - eapply (hold_insert checked fits); [exact Hhold|exact Hj|exact Hblk1| |done].
    intros z Hz. unfold without. rewrite decide_False; [done|]. fold b0 in Hz. lia.
  - intros z Hz. unfold without. destruct (decide (i <= z < stop)); [done|]. apply Hgone. lia.
  - exists ys, m', p', live'. split; [|split; [done|split; [by eapply keeping_trans|split; [by split|done]]]]. intros A k.
    rewrite (bind_some _ _ _ _ _ (entry_at_some m p hdr (tail hdr) (length init) _ _ _ Es eq_refl)). cbn [snd value].
    rewrite (bind_some _ _ _ b (m, p)) by done. rewrite (bind_some _ _ _ _ _ E1).
    rewrite (bind_some _ _ _ _ _ (mem_load (with_block b blk1 m) p b blk1 (with_block_lookup m b blk1))).
    rewrite wrap_sub_l, wrap_sub_r, (wrap_small 64 (stop - i)) by (unfold in_width; lia).
    rewrite (proj2 (marks_wrap checked fits (ctx := implicit_context) i blk1)).
    rewrite (bind_some _ _ _ _ _ (the_some _ _ _ Em)). cbn [fst snd]. unfold b0 in E. apply E.
Qed.

Lemma take_blocks_spec fuel : forall m others p n hdr init b tb i last f,
  taking m others p n hdr (init ++ [b]) tb i f -> tb `mod` BLOCK_SIZE = 0 ->
  let b0 := tb - Z.of_nat (length init) * BLOCK_SIZE in b0 <= i < b0 + BLOCK_SIZE -> i <= last <= tb + BLOCK_SIZE -> last - i < 2 ^ 63 ->
  (0 < fuel)%nat -> last <= b0 + Z.of_nat fuel * BLOCK_SIZE ->
  (forall z, i <= z < last -> is_Some (f z)) -> (forall z, z < i -> f z = None) ->
  exists ys m' p' live', take_blocks fuel hdr ((tail hdr - Z.of_nat (length init)) `mod` capacity hdr) (u64 i) (u64 last) (m, p) = Some (ys, (m', p')) /\
    same_fields p p' /\ keeps others m m' /\ taking m' others p' n hdr live' tb last (without f i last) /\
    (exists gone, init ++ [b] = live' ++ gone) /\ 0 <= last - (tb - Z.of_nat (length live') * BLOCK_SIZE + BLOCK_SIZE) < BLOCK_SIZE /\
    Z.of_nat (length ys) = last - i /\ (forall q, (q < length ys)%nat -> ys !! q = f (i + Z.of_nat q)).
Proof.
  pose proof (BLOCK_SIZE_bounds checked fits) as HB.
  induction fuel as [|fuel IH]; intros m others p n hdr init b tb i last f Ht Htb b0 Hi Hl Hd Hpos Hfuel Hf Hgone; [lia|]. cbn [take_blocks].
  rewrite (stop_index_spec checked fits b0) by (try apply back_mod; done || lia). set (stop := Z.min (b0 + BLOCK_SIZE) last).
  destruct (take_turn m others p n hdr init b tb i stop f Ht Htb) as (ys & m1 & p1 & live1 & E & Hsf & Hk & Ht1 & El & Hlen & Hys);
    [fold b0; lia|fold b0; lia|fold b0; lia|intros z Hz; apply Hf; lia|done|].
  fold b0 in El. cbv zeta. rewrite E. rewrite wrap_eqb by lia. destruct (Z.eqb_spec stop last) as [Es|Hne].
  - rewrite Es in *. exists ys, m1, p1, live1. split; [done|]. split; [done|]. split; [done|]. split; [done|]. split; [|split; [|done]].
    + rewrite El. case_bool_decide; [by exists [b]|exists []; by rewrite app_nil_r].
    + rewrite El. case_bool_decide; rewrite ?length_app; cbn [length]; unfold b0 in *; lia.
  - assert (stop = b0 + BLOCK_SIZE) as Es by lia. rewrite bool_decide_eq_true_2 in El by done. subst live1.
    destruct (last_block init) as (init' & b' & ->).
    { intros ->. unfold b0 in *. cbn [length] in *. lia. }
    assert (b0 = tb - (Z.of_nat (length init') + 1) * BLOCK_SIZE) as Eb by (unfold b0; rewrite length_app; cbn [length]; lia).
    rewrite length_app in *. cbn [length] in *.
    pose proof (capacity_range checked fits p1 n hdr (index_shape _ _ _ _ _ (tak_index _ _ _ _ _ _ _ _ _ Ht1))) as Hc.
    rewrite (mask_capacity checked fits p1 n hdr) by apply Ht1. rewrite Zplus_mod_idemp_l.
    replace (tail hdr - Z.of_nat (length init' + 1) + 1) with (tail hdr - Z.of_nat (length init')) by lia.
    assert (tb - Z.of_nat (length init') * BLOCK_SIZE = stop) as Eb0 by lia.
    destruct (IH m1 others p1 n hdr init' b' tb stop last (without f i stop) Ht1 Htb) as (zs & m2 & p2 & live2 & E2 & Hsf2 & Hk2 & Ht2 & Hgo & Hold & Hlen2 & Hzs);
      rewrite ?Eb0; try lia.
    { intros z Hz. unfold without. rewrite decide_False by lia. apply Hf. lia. }
    { intros z Hz. unfold without. destruct (decide (i <= z < stop)); [done|]. apply Hgone. lia. }
    rewrite (bind_some _ _ _ _ _ E2). exists (ys ++ zs), m2, p2, live2. split; [done|]. split; [by eapply fields_trans|].
    split; [by eapply keeping_trans|]. split; [|split; [|split; [done|split]]].
    + destruct Ht2 as [Hh2 Hi2 Ho2]. split; [|done..]. eapply (hold_ext checked fits); [|exact Hh2]. intros z _. apply without_without. lia.
    + destruct Hgo as [gone Ego]. exists (gone ++ [b]). by rewrite Ego, app_assoc.
    + rewrite length_app. lia.
    + apply elements_app; [done|]. intros q Hq. rewrite Hzs by done. rewrite Hlen. replace (i + (stop - i)) with stop by lia.
      unfold without. by rewrite decide_False by lia.
Qed.

Lemma implicit_dequeue_bulk m others p h xs live tb max :
  rep malloc m others p h xs live tb -> 0 <= max ->
  let n := Z.to_nat max in
  exists m' p' live', dequeue_bulk max (m, p) = Some (firstn n xs, (m', p')) /\ keeps others m m' /\
    rep malloc m' others p' (h + Z.of_nat (length (firstn n xs))) (drop n xs) live' tb.
Proof.
  intros R Hmax n. pose proof (rep_range _ _ _ _ _ _ _ _ R) as Hr. pose proof (rep_oldest _ _ _ _ _ _ _ _ R) as Hold.
  pose proof (rep_near _ _ _ _ _ _ _ _ R) as Hnear. pose proof (BLOCK_SIZE_bounds checked fits) as HB.
  pose proof (ok_tb _ _ _ _ _ _ _ _ (rep_blocks _ _ _ _ _ _ _ _ R)) as Htb.
  set (len := Z.of_nat (length xs)) in *.
  unfold dequeue_bulk. rewrite (bind_some _ _ _ (tailIndex p) (m, p)), (bind_some _ _ _ (dequeueOvercommit p) (m, p)),
    (bind_some _ _ _ (dequeueOptimisticCount p) (m, p)) by done.
  rewrite (rep_tail _ _ _ _ _ _ _ _ R), (rep_optimistic _ _ _ _ _ _ _ _ R), (rep_overcommit _ _ _ _ _ _ _ _ R). fold len.
  rewrite Z.sub_0_r, wrap_wrap by lia. rewrite wrap_sub_l, wrap_sub_r. replace (h + len - h) with len by lia.
  rewrite (wrap_small 64 len) by (unfold in_width; lia).
  pose proof (less_near 0 len ltac:(lia)) as Hless. rewrite (wrap_small 64 len) in Hless by (unfold in_width; lia).
  change (u64 0) with 0 in Hless. rewrite Hless. destruct (Z.ltb_spec 0 len) as [Hpos|Hnil].
  2:{ assert (xs = []) as -> by (destruct xs; [done|unfold len in *; cbn in *; lia]). exists m, p, live. rewrite take_nil, drop_nil.
      split; [done|]. split; [done|]. by rewrite Z.add_0_r. }
  set (a := Z.of_nat (length (firstn n xs))). assert (0 <= a <= len) as Ha by (unfold a, len; rewrite length_take; lia).
  assert ((if len <? max then len else max) = a) as -> by (unfold a, len, n; rewrite length_take; case_match; lia).
  cbv zeta. rewrite (bind_some _ _ _ (dequeueOptimisticCount p) (m, p)) by done. rewrite (rep_optimistic _ _ _ _ _ _ _ _ R).
  set (p1 := set_optimistic (u64 (u64 h + a)) p). rewrite (bind_some _ _ _ tt (m, p1)) by done.
  rewrite (bind_some _ _ _ tt (m, p1)) by (apply assert_true, Z.leb_le, (wrap_range 64 h); lia).
  rewrite (bind_some _ _ _ (tailIndex p) (m, p1)) by done. rewrite (rep_tail _ _ _ _ _ _ _ _ R). fold len.
  rewrite Z.sub_0_r, wrap_wrap by lia. rewrite (wrap_sub_l _ (h + len)), (wrap_sub_r _ (h + len)). replace (h + len - h) with len by lia.
  rewrite (wrap_small 64 len) by (unfold in_width; lia). rewrite Hless.
  assert ((if a <? len then a else len) = a) as -> by (case_match; lia). rewrite Z.ltb_irrefl.
  rewrite (bind_some _ _ _ tt (m, p1)) by done. rewrite (bind_some _ _ _ (headIndex p) (m, p1)) by done.
  rewrite (rep_head _ _ _ _ _ _ _ _ R). set (p2 := set_headIndex (u64 (u64 h + a)) p1). rewrite (bind_some _ _ _ tt (m, p2)) by done.
  destruct (last_block live) as (init & b & ->); [intros ->; cbn [length] in *; lia|].
  rewrite length_app in Hold. cbn [length] in Hold. set (b0 := tb - Z.of_nat (length init) * BLOCK_SIZE).
  assert (blocks_ok m others p2 (init ++ [b]) tb h (elems xs h)) as [Hhold (k & hdr & Hi) Ho _]
    by (eapply blocks_ok_fields; [apply R|done..]).
  destruct (find_block checked fits m p2 k hdr _ tb (length init) b h Hi Htb) as (c & _ & Eg & _);
    [by apply list_lookup_middle|fold b0; lia|].
  rewrite (bind_some _ _ _ _ _ Eg). cbn [fst snd]. rewrite wrap_add_l.
  assert (0 < BLOCK_SIZE) as HB0 by lia. pose proof (Z_div_mod_eq_full a BLOCK_SIZE) as Ed. pose proof (Z.mod_pos_bound a BLOCK_SIZE HB0) as Hm.
  assert (0 <= a / BLOCK_SIZE) as Hdiv by (apply Z.div_pos; lia).
  destruct (take_blocks_spec (Datatypes.S (Z.to_nat (a / BLOCK_SIZE + 1))) m others p2 k hdr init b tb h (h + a) (elems xs h))
    as (ys & m' & p' & live' & E & Hsf & Hk & Ht & [gone Ego] & Hold' & Hl & Hys); try done; try lia; fold b0; try lia.
  { intros z Hz. unfold elems, at_z. rewrite (proj2 (Z.ltb_ge _ _)) by lia. apply lookup_lt_is_Some. lia. }
  { intros z Hz. apply elems_none. lia. }
  rewrite E. replace ys with (firstn n xs) by (symmetry; eapply taken_elems; [lia|exact Hys]).
  exists m', p', live'. split; [done|]. split; [done|]. destruct Hsf as (Et & Eh & Eo & Ec & Eb). rewrite <- drop_taken.
  split; rewrite ?Et, ?Eh, ?Eo, ?Ec, ?Eb; fold a; cbn; try done.
  - rewrite (rep_tail _ _ _ _ _ _ _ _ R). rewrite length_drop. f_equal. unfold a. rewrite Nat2Z.inj_sub; lia.
  - by rewrite wrap_add_l.
  - by rewrite wrap_add_l.
  - apply R.
  - intros Hne. rewrite (rep_tailBlock _ _ _ _ _ _ _ _ R) by (by destruct init). rewrite Ego. by destruct live'.
  - rewrite length_drop. unfold len, a in *. rewrite Nat2Z.inj_sub; lia.
  - lia.
  - destruct Ht as [Hh Hi' Ho']. split; [|by exists k, hdr|done|done]. eapply (hold_ext checked fits); [|exact Hh].
    intros z _. symmetry. apply elems_without. rewrite length_take. lia.
Qed.

End Bulk.
