(* ===== verification/ImplicitLife.v ===== *)
(** * The construction and the destruction of implicit producers

    The constructor allocates the first block index; the destructor destroys
    the elements that are left and gives back every block and every index. *)
From S2P Require Import Prelude.
From S2P Require Import QueueUtils.
From S2P Require Import QueueTraits.
From S2P Require Import QueueBlock.
From S2P Require Import BlockPool.
From S2P Require Import ProducerMemory.
From S2P Require Import BlockContents.
From S2P Require Import BlockMemory.
From S2P Require Import ImplicitProducer.
From S2P Require Import ImplicitIndex.
From S2P Require Import ImplicitSpec.
#[local] Open Scope Z_scope.
Import ImplicitProducer.

Section Life.
Context {tr : Traits} (checked : static_asserts = true) (fits : BLOCK_SIZE <= 2 ^ 62) {T : Type}.
Context (malloc : nat -> bool) (raw_flags : nat -> list bool) (raw_value : option nat).
Implicit Types (m : Memory (T := T)) (p : t) (live : list nat) (xs : list T) (others : gset nat).
Abbreviation hold := (blocks_hold implicit_context).
Abbreviation rep := (rep malloc).

(** ** Construction *)

Lemma initial_index_power : exists k, 1 <= k /\ IMPLICIT_INITIAL_INDEX_SIZE = 2 ^ k.
Proof.
  unfold static_asserts in checked. rewrite !andb_true_iff in checked.
  destruct checked as ((((_ & Hlt) & Hp) & _) & _). apply Z.ltb_lt in Hlt.
  destruct (power_of_2_spec IMPLICIT_INITIAL_INDEX_SIZE) as (i & Hi & E); [lia|done|]. exists i. split; [|done].
  destruct (decide (i = 0)) as [->|]; [rewrite E in Hlt; done|lia].
Qed.

(** The producer with its first index. *)
Definition first_index : BlockIndexHeader :=
  let n := IMPLICIT_INITIAL_INDEX_SIZE in mkHeader n (n - 1) 0 (seq 0 (Z.to_nat n)) None.
Definition constructed_producer : t :=
  let n := IMPLICIT_INITIAL_INDEX_SIZE in
  mk 0 0 0 0 None (u64 (n * 2)) (Some 0%nat) [first_index] (replicate (Z.to_nat n) (mkEntry INVALID_BLOCK_BASE raw_value)).

Lemma construct_some m :
  IMPLICIT_INITIAL_INDEX_SIZE * BLOCK_SIZE <= 2 ^ 64 ->
  construct malloc raw_value m = Some (if malloc (mallocs m) then constructed_producer else fresh, set_mallocs (S (mallocs m)) m).
Proof.
  intros Hb. unfold construct. set (m1 := set_mallocs (S (mallocs m)) m).
  assert (new_block_index malloc raw_value (m, fresh) =
    Some (malloc (mallocs m), (m1, if malloc (mallocs m) then constructed_producer else fresh))) as ->; [|done].
  unfold new_block_index. rewrite (bind_some _ _ _ None (m, fresh)), (bind_some _ _ _ [] (m, fresh)),
    (bind_some _ _ _ IMPLICIT_INITIAL_INDEX_SIZE (m, fresh)), (bind_some _ _ _ None (m, fresh)) by done.
  rewrite (bind_some _ _ _ (malloc (mallocs m)) (m1, fresh)) by done. destruct (malloc (mallocs m)); [|done].
  rewrite (bind_some _ _ _ [] (m1, fresh)), (bind_some _ _ _ tt (m1, fresh)) by done.
  cbv zeta. unfold set. rewrite (bind_some _ _ _ tt (m1, constructed_producer)); [done|].
  unfold constructed_producer, first_index. cbn [tailIndex headIndex dequeueOptimisticCount dequeueOvercommit tailBlock cells headers fresh length app].
  destruct initial_index_power as (k & Hk & E). rewrite E in *.
  pose proof (BLOCK_SIZE_bounds checked fits). assert (0 < 2 ^ k) by (apply Z.pow_pos_nonneg; lia).
  assert (2 ^ k <= 2 ^ 63) as Hle by nia. apply Z.pow_le_mono_r_iff in Hle; [|lia..].
  rewrite mask_mod by lia. rewrite Z.shiftl_mul_pow2 by lia. do 6 f_equal.
  rewrite <- (Z_mod_plus_full _ 1), Z.mod_small; lia.
Qed.

Lemma constructed_rep m others :
  IMPLICIT_INITIAL_INDEX_SIZE * BLOCK_SIZE <= 2 ^ 64 -> owns malloc m [] others -> rep m others constructed_producer 0 [] [] (- BLOCK_SIZE).
Proof.
  intros Hb Ho. pose proof (BLOCK_SIZE_bounds checked fits) as HB. destruct initial_index_power as (k & Hk & E).
  assert (0 < IMPLICIT_INITIAL_INDEX_SIZE) as Hn by (rewrite E; apply Z.pow_pos_nonneg; lia).
  split; cbn [tailIndex headIndex dequeueOptimisticCount dequeueOvercommit tailBlock constructed_producer length]; try done; try lia.
  split; [|exists 0%nat, first_index|done|].
  - split; [apply NoDup_nil_2|done].
  - split; [|cbn; lia|].
    + split; cbn; try done; try lia.
      * exists k. split; [lia|done].
      * by rewrite length_seq.
      * apply NoDup_seq.
      * intros c Hc%elem_of_seq. rewrite length_replicate. lia.
      * intros [|q] h Hq; [by injection Hq as <-|done].
    + intros j Hj. cbn [capacity tail index first_index cells constructed_producer] in *. set (n := IMPLICIT_INITIAL_INDEX_SIZE) in *.
      exists (Z.to_nat (n - 1 - Z.of_nat j)), (mkEntry INVALID_BLOCK_BASE raw_value). split; [|by left].
      apply slot_spec. rewrite Z.mod_small by lia. split; [apply lookup_seq; lia|apply lookup_replicate_2; lia].
  - by rewrite <- (Z_mod_plus_full (- BLOCK_SIZE) 1), Z.mul_1_l, Z.add_opp_diag_l.
Qed.

(** ** Destruction *)

Lemma free_indices_all hs (n fuel : nat) :
  (n < length hs)%nat -> (n < fuel)%nat -> (forall k h, hs !! k = Some h -> prev h = match k with O => None | S k => Some k end) ->
  free_indices fuel hs (Some n) = Some (reverse (seq 0 (S n))).
Proof.
  intros Hn Hf Hp. revert fuel Hf. induction n as [|n IH]; intros [|fuel] Hf; try lia; cbn [free_indices].
  - destruct (lookup_lt_is_Some_2 hs 0 Hn) as [h Eh]. rewrite Eh, (Hp _ _ Eh). by destruct fuel.
  - destruct (lookup_lt_is_Some_2 hs (S n) Hn) as [h Eh]. rewrite Eh, (Hp _ _ Eh), IH by lia.
    by rewrite (seq_S (S n)), reverse_snoc.
Qed.

(** The blocks [cur] are left, and the elements from [i] on. *)
Record destroying m others cur (tb h i last : Z) (f : Z -> option T) : Prop := mkDestroying {
  des_hold : hold (blocks m) cur tb h f;
  des_owns : owns malloc m cur others;
  des_some : forall z, i <= z < last -> is_Some (f z);
  des_none : forall z, z < i \/ last <= z -> f z = None
}.

(** A block without elements is given back. *)
Lemma destroying_free m others init b tb h i last f :
  destroying m others (init ++ [b]) tb h i last f ->
  (i = last \/ tb - Z.of_nat (length init) * BLOCK_SIZE + BLOCK_SIZE <= i) ->
  exists m', add_block_to_free_list b m = Some (tt, m') /\ keeps others m m' /\ destroying m' others init tb h i last f.
Proof.
  intros [Hh Ho Hs Hn] Hi. pose proof (BLOCK_SIZE_bounds checked fits) as HB.
  assert ((init ++ [b]) !! length init = Some b) as Hj by (by apply list_lookup_middle).
  destruct (hold_block _ _ _ _ _ Hh _ _ Hj) as (blk & Eb & Hblk).
  pose proof (hold_nodup _ _ _ _ _ Hh) as Hnd. apply NoDup_app in Hnd as (_ & Hnot & _).
  assert (b ∉ init) as Hb by (intros H; apply (Hnot b H); left).
  destruct (own_free malloc raw_flags m init others b blk) as [Ho' Hk]; [|done|done| |].
  { eapply own_perm; [|exact Ho]. symmetry. apply Permutation_cons_append. }
  { eapply has_blank; [exact Hblk|]. intros z Hz. apply Hn. lia. }
  eexists. split; [reflexivity|]. split; [by eapply keeps_rest|]. split; [by eapply hold_app|done..].
Qed.

(** The block with the element [i] is entered. *)
Lemma enter_block m others p n hdr live gone init b tb h i last f block :
  index_ok p n hdr live tb -> tb `mod` BLOCK_SIZE = 0 -> live = (init ++ [b]) ++ gone -> destroying m others (init ++ [b]) tb h i last f ->
  let b0 := tb - Z.of_nat (length init) * BLOCK_SIZE in
  (block = None /\ b0 <= i < b0 + BLOCK_SIZE \/ block = Some b /\ b0 < i <= b0 + BLOCK_SIZE) -> i < last <= tb + BLOCK_SIZE ->
  exists m' init' c gone', (if (place (u64 i) =? 0) || bool_decide (block = None) then
      match block with Some b => mem (add_block_to_free_list b) | None => mret tt end;;
      entry ← get_block_index_entry_for_index (u64 i);
      mret (value entry.2)
    else mret block) (m, p) = Some (Some c, (m', p)) /\ keeps others m m' /\
    live = (init' ++ [c]) ++ gone' /\ destroying m' others (init' ++ [c]) tb h i last f /\
    tb - Z.of_nat (length init') * BLOCK_SIZE <= i < tb - Z.of_nat (length init') * BLOCK_SIZE + BLOCK_SIZE.
Proof.
  intros Hi Htb -> Hd b0 Hblock Hr. pose proof (BLOCK_SIZE_bounds checked fits) as HB.
  assert (forall init' c gone' (m1 : Memory (T := T)), (init ++ [b]) ++ gone = (init' ++ [c]) ++ gone' ->
    tb - Z.of_nat (length init') * BLOCK_SIZE <= i < tb - Z.of_nat (length init') * BLOCK_SIZE + BLOCK_SIZE ->
    (entry ← get_block_index_entry_for_index (u64 i); mret (value entry.2)) (m1, p) = Some (Some c, (m1, p))) as Hget.
  { intros init' c gone' m1 E Hr'. destruct (find_block checked fits m1 p n hdr _ tb (length init') c i Hi Htb) as (e & _ & _ & Eg); [|done|].
    - rewrite E, <- app_assoc. by apply list_lookup_middle.
    - by rewrite (bind_some _ _ _ _ _ Eg). }
  destruct Hblock as [[-> Hb0]|[-> Hb0]].
  - rewrite bool_decide_eq_true_2, orb_true_r by done. exists m, init, b, gone. split; [|done].
    rewrite (bind_some _ _ _ tt (m, p)) by done. by eapply Hget.
  - rewrite bool_decide_eq_false_2, orb_false_r by done. rewrite (block_boundary checked fits b0) by (done || by apply back_mod).
    destruct (Z.eqb_spec i (b0 + BLOCK_SIZE)) as [Ei|Hne].
    + destruct (destroying_free m others init b tb h i last f Hd) as (m' & E & Hk & Hd'); [right; unfold b0 in Ei; lia|].
      destruct (last_block init) as (init' & c & ->); [intros ->; unfold b0 in Ei; cbn [length] in Ei; lia|].
      assert (b0 = tb - (Z.of_nat (length init') + 1) * BLOCK_SIZE) as Eb by (unfold b0; rewrite length_app; cbn [length]; lia).
      exists m', init', c, ([b] ++ gone). rewrite (bind_some _ _ _ _ _ (mem_some _ m p _ _ E)).
      split; [eapply (Hget init' c ([b] ++ gone)); [by rewrite !app_assoc|lia]|]. split; [done|]. split; [by rewrite !app_assoc|]. split; [done|lia].
    + exists m, init, b, gone. split; [done|]. split; [done|]. split; [done|]. split; [done|unfold b0 in *; lia].
Qed.

(** One element is destroyed. *)
Lemma destroying_one m others p init c tb h i last f :
  destroying m others (init ++ [c]) tb h i last f -> tb `mod` BLOCK_SIZE = 0 -> i < last ->
  let b0 := tb - Z.of_nat (length init) * BLOCK_SIZE in b0 <= i < b0 + BLOCK_SIZE ->
  exists x m', f i = Some x /\ (forall A (k : T -> M (Memory (T := T) * t) A), (blk ← mem (load_block c); el ← the (Block.get (u64 i) blk);
      blk' ← the (Block.destroy (u64 i) blk); mem (store_block c (fun _ => blk'));; k el) (m, p) = k x (m', p)) /\ keeps others m m' /\
    destroying m' others (init ++ [c]) tb h (i + 1) last (upd f i None).
Proof.
  intros [Hh Ho Hs Hn] Htb Hi b0 Hb0. assert ((init ++ [c]) !! length init = Some c) as Hj by (by apply list_lookup_middle).
  destruct (hold_block _ _ _ _ _ Hh _ _ Hj) as (blk & Eb & Hblk). fold b0 in Hblk. destruct (Hs i ltac:(lia)) as [x Ex].
  assert (place i = i - b0) as Hp by (apply (place_in checked fits); [by apply back_mod|done]).
  destruct (destroy_has blk b0 h f i x Hblk Hb0 Hp Ex) as (blk' & Ed & Hblk' & _).
  destruct (own_store malloc m (init ++ [c]) others c blk' Ho) as [Ho' Hk]; [apply elem_of_app; right; left|].
  exists x, (with_block c blk' m). split; [done|]. split; [|split; [done|split; [|done|..]]].
  - intros A k. rewrite (bind_some _ _ _ _ _ (mem_load m p c blk Eb)). destruct (block_wrap checked fits i blk) as (Wg & Wd & _). rewrite Wg, Wd.
    rewrite (bind_some _ _ _ x (m, p)) by (apply the_some; by rewrite (get_has _ _ _ _ _ Hblk Hb0 Hp)).
    rewrite (bind_some _ _ _ _ _ (the_some _ _ _ Ed)). by rewrite (bind_some _ _ _ _ _ (mem_store m p c blk _ Eb)).
  - eapply (hold_insert checked fits); [exact Hh|exact Hj|exact Hblk'| |done]. intros z Hz. unfold upd. rewrite decide_False; [done|].
    fold b0 in Hz. lia.
  - intros z Hz. unfold upd. rewrite decide_False by lia. apply Hs. lia.
  - intros z Hz. unfold upd. destruct (decide (z = i)); [done|]. apply Hn. lia.
Qed.

Lemma destroy_elements_spec others p n hdr live tb h last fuel : forall m gone init b i f block,
  index_ok p n hdr live tb -> tb `mod` BLOCK_SIZE = 0 -> live = (init ++ [b]) ++ gone -> destroying m others (init ++ [b]) tb h i last f ->
  let b0 := tb - Z.of_nat (length init) * BLOCK_SIZE in
  (block = None /\ b0 <= i < b0 + BLOCK_SIZE /\ i < last \/ block = Some b /\ b0 < i <= b0 + BLOCK_SIZE) ->
  i <= last -> tb < last <= tb + BLOCK_SIZE -> last - i < 2 ^ 63 -> last - i <= Z.of_nat fuel ->
  exists els m' f', destroy_elements fuel (u64 i) (u64 last) block (m, p) = Some (els, (m', p)) /\ keeps others m m' /\
    (exists c, head live = Some c /\ destroying m' others [c] tb h last last f') /\
    Z.of_nat (length els) = last - i /\ forall k, (k < length els)%nat -> els !! k = f (i + Z.of_nat k).
Proof.
  pose proof (BLOCK_SIZE_bounds checked fits) as HB.
  induction fuel as [|fuel IH]; intros m gone init b i f block Hi Htb El Hd b0 Hblock Hle Hl Hnear Hfuel; cbn [destroy_elements];
    rewrite wrap_eqb by lia; (destruct (Z.eqb_spec i last) as [->|Hne]; [|try lia]).
  1,2: destruct Hblock as [(_ & _ & Hlt)|[-> Hb0]]; [lia|]; assert (init = []) as -> by (destruct init; [done|unfold b0 in Hb0; cbn [length] in Hb0; lia]);
    exists [], m, f; split; [done|]; split; [done|]; split; [exists b; split; [by rewrite El|done]|cbn; split; [lia|lia]].
  destruct (enter_block m others p n hdr live gone init b tb h i last f block Hi Htb El Hd) as (m1 & init1 & c & gone1 & E & Hk & El1 & Hd1 & Hb1);
    [fold b0; tauto|lia|].
  rewrite (bind_some _ _ _ _ _ E), (bind_some _ _ _ c (m1, p)) by done.
  destruct (destroying_one m1 others p init1 c tb h i last f Hd1 Htb ltac:(lia) Hb1) as (x & m2 & Ex & E2 & Hk2 & Hd2). rewrite E2, wrap_add_l.
  destruct (IH m2 gone1 init1 c (i + 1) _ (Some c) Hi Htb El1 Hd2) as (els & m3 & f3 & E3 & Hk3 & Hend & Hlen & Hels); try lia; [right; split; [done|lia]|].
  rewrite (bind_some _ _ _ _ _ E3). exists (x :: els), m3, f3. split; [done|]. split; [by eapply keeping_trans; [|eapply keeping_trans]|].
  split; [done|]. split; [cbn [length]; lia|]. intros [|k] Hk'; [by rewrite Z.add_0_r, Ex|]. cbn [length] in Hk'. cbn [lookup list_lookup].
  rewrite Hels by lia. unfold upd. rewrite decide_False by lia. f_equal. lia.
Qed.

(** The elements that are left are destroyed in order, and everything is given
    back: the indices from the newest to the first, and the blocks. *)
Lemma implicit_destructor m others p h xs live tb :
  rep m others p h xs live tb ->
  exists m', destructor (m, p) = Some ((xs, reverse (seq 0 (length (headers p)))), (m', p)) /\ keeps others m m' /\ owns malloc m' [] others.
Proof.
  intros R. pose proof (rep_range _ _ _ _ _ _ _ _ R) as Hr. pose proof (rep_oldest _ _ _ _ _ _ _ _ R) as Hold.
  pose proof (rep_near _ _ _ _ _ _ _ _ R) as Hnear. pose proof (BLOCK_SIZE_bounds checked fits) as HB.
  pose proof (rep_blocks _ _ _ _ _ _ _ _ R) as [Hh (n & hdr & Hi) Ho Htb].
  set (last := h + Z.of_nat (length xs)) in *. unfold destructor.
  rewrite (bind_some _ _ _ (tailIndex p) (m, p)), (bind_some _ _ _ (headIndex p) (m, p)) by done.
  rewrite (rep_tail _ _ _ _ _ _ _ _ R), (rep_head _ _ _ _ _ _ _ _ R). fold last. rewrite wrap_eqb, less_near by lia.
  rewrite (bind_some _ _ _ tt (m, p)).
  2:{ apply assert_true. destruct (Z.eqb_spec h last); [done|]. apply Z.ltb_lt. lia. }
  rewrite wrap_sub_l, wrap_sub_r, (wrap_small 64 (last - h)) by (unfold in_width; lia).
  assert (destroying m others live tb h h last (elems xs h)) as Hd.
  { split; [done|done|..].
    - intros z Hz. unfold elems, at_z. rewrite (proj2 (Z.ltb_ge _ _)) by lia. apply lookup_lt_is_Some. lia.
    - intros z Hz. apply elems_none. fold last. lia. }
  assert (forall els (m' : Memory (T := T)), (hs ← field headers; raw ← field blockIndex; freed ← the (free_indices (length hs) hs raw); mret (els, freed)) (m', p) =
    Some ((els : list T, reverse (seq 0 (length (headers p)))), (m', p))) as Hfree.
  { intros els m'. rewrite (bind_some _ _ _ (headers p) (m', p)), (bind_some _ _ _ (blockIndex p) (m', p)) by done.
    rewrite (shape_current _ _ _ (index_shape _ _ _ _ _ Hi)). pose proof (shape_last _ _ _ (index_shape _ _ _ _ _ Hi)) as El.
    rewrite El. erewrite bind_some; [reflexivity|]. apply the_some, free_indices_all; [lia|lia|apply (shape_prev _ _ _ (index_shape _ _ _ _ _ Hi))]. }
  destruct (Z.eqb_spec h last) as [Eh|Hne].
  - replace (Z.to_nat (last - h)) with O by lia. cbn [destroy_elements]. rewrite Eh, Z.eqb_refl. cbn [negb orb].
    assert (xs = []) as -> by (destruct xs; [done|unfold last in Eh; cbn [length] in Eh; lia]).
    rewrite (bind_some _ _ _ [] (m, p)), (bind_some _ _ _ (tailBlock p) (m, p)) by done.
    rewrite (block_boundary checked fits tb last) by done. destruct (Z.eqb_spec last (tb + BLOCK_SIZE)) as [Et|Ht]; cbn [negb].
    + assert (live = []) as -> by (destruct live; [done|cbn [length] in Hold; lia]).
      exists m. rewrite (bind_some _ _ _ tt (m, p)) by (by destruct (tailBlock p)). split; [apply Hfree|done].
    + assert (length live = 1)%nat as Hlen by nia. destruct live as [|b [|]]; [done| |done].
      rewrite (rep_tailBlock _ _ _ _ _ _ _ _ R) by done. cbn [head hd_error].
      destruct (destroying_free m others [] b tb h h last _ Hd (or_introl Eh)) as (m' & E & Hk & Hd').
      rewrite (bind_some _ _ _ _ _ (mem_some _ m p _ _ E)). exists m'. split; [apply Hfree|]. split; [done|apply Hd'].
  - destruct (last_block live) as (init & b & ->); [intros ->; cbn [length] in *; lia|].
    rewrite length_app in Hold. cbn [length] in Hold.
    destruct (destroy_elements_spec others p n hdr (init ++ [b]) tb h last (Z.to_nat (last - h)) m [] init b h (elems xs h) None Hi Htb)
      as (els & m1 & f & E & Hk1 & (c & Ec & Hd1) & Hlen & Hels); try done; try lia; [by rewrite app_nil_r|left; split; [done|lia]|].
    assert (els = xs) as ->.
    { rewrite <- (firstn_all xs). apply (taken_elems xs els h); [|exact Hels]. rewrite firstn_all. unfold last in Hlen. lia. }
    rewrite (bind_some _ _ _ _ _ E), (bind_some _ _ _ (tailBlock p) (m1, p)) by done.
    rewrite (rep_tailBlock _ _ _ _ _ _ _ _ R), Ec by (by destruct init). cbn [negb orb].
    destruct (destroying_free m1 others [] c tb h last last f Hd1 (or_introl eq_refl)) as (m' & E' & Hk & Hd').
    rewrite (bind_some _ _ _ _ _ (mem_some _ m1 p _ _ E')). exists m'. split; [apply Hfree|].
    split; [by eapply keeping_trans|apply Hd'].
Qed.

End Life.
