(* ===== verification/ImplicitQueue.v ===== *)
(** * An implicit producer from its construction to its destruction

    The queue of one producer, made from nothing and used by one thread: it is
    a first-in first-out queue however long it is used, its bulk operations
    are all or nothing, and its destructor gives everything back. All of it
    needs the first block index, whose allocation the constructor does not
    check. *)
From S2P Require Import Prelude.
From S2P Require Import QueueUtils.
From S2P Require Import QueueTraits.
From S2P Require Import QueueBlock.
From S2P Require Import BlockPool.
From S2P Require Import ProducerMemory.
From S2P Require Import ProducerFifo.
From S2P Require Import BlockContents.
From S2P Require Import BlockMemory.
From S2P Require Import ImplicitProducer.
From S2P Require Import ImplicitIndex.
From S2P Require Import ImplicitSpec.
From S2P Require Import ImplicitBulk.
From S2P Require Import ImplicitLife.
#[local] Open Scope Z_scope.
Import ImplicitProducer ProducerFifo.

Module ImplicitQueue.

Section Run.
Context {tr : Traits} {T : Type}.
Context (malloc : nat -> bool) (raw_flags : nat -> list bool) (raw_value : option nat).
Context (noexcept_ctor : bool) (ctor_throws : T -> bool).
Abbreviation State := (Memory (T := T) * t)%type.
Abbreviation throws := (throws noexcept_ctor ctor_throws).

Definition apply (o : op T) : M State (answer T) :=
  match o with
  | Enqueue mode x => r ← enqueue malloc raw_flags noexcept_ctor ctor_throws raw_value mode x; mret (Enqueued r)
  | Dequeue => r ← dequeue; mret (Dequeued r)
  | EnqueueBulk mode xs => r ← enqueue_bulk malloc raw_flags noexcept_ctor ctor_throws raw_value mode xs; mret (Enqueued r)
  | DequeueBulk max => r ← dequeue_bulk max; mret (BulkDequeued r)
  end.
Definition run : list (op T) -> M State (list (answer T)) := ProducerFifo.run apply.

(** A producer of a queue with a pool of this many blocks. *)
Definition start (blockCount : Z) : option State :=
  match populate_initial_block_list malloc raw_flags blockCount no_memory with
  | Some (_, m) => match construct malloc raw_value m with Some (p, m) => Some (m, p) | None => None end
  | None => None
  end.

Section Sound.
Context (checked : static_asserts = true) (fits : BLOCK_SIZE <= 2 ^ 62).
Context (index_fits : IMPLICIT_INITIAL_INDEX_SIZE * BLOCK_SIZE <= 2 ^ 64).

(** The state of a producer with the elements [xs], all blocks its own. *)
Definition holds (s : State) (xs : list T) : Prop := exists h live tb, rep malloc s.1 ∅ s.2 h xs live tb.

Lemma apply_queue o s xs :
  holds s xs -> counted o -> exists r s' ys, apply o s = Some (r, s') /\ fifo throws xs o r ys /\ holds s' ys.
Proof.
  destruct s as [m p]. intros (h & live & tb & R) Ho. destruct o as [mode x| |mode zs|max]; cbn [apply counted] in *.
  - destruct (implicit_enqueue checked fits malloc raw_flags raw_value noexcept_ctor ctor_throws mode m ∅ p h xs live tb x R)
      as (r & m' & p' & E & _ & Hres). rewrite (bind_some _ _ _ _ _ E). destruct r as [[]|].
    + destruct Hres as (Hx & live' & tb' & R'). exists (Enqueued (Returned true)), (m', p'), (xs ++ [x]).
      split; [done|]. split; [by constructor|]. by exists h, live', tb'.
    + destruct Hres as [R' _]. exists (Enqueued (Returned false)), (m', p'), xs. split; [done|]. split; [constructor|]. by exists h, live, tb.
    + destruct Hres as [Hx R']. exists (Enqueued Threw), (m', p'), xs. split; [done|]. split; [by constructor|]. by exists h, live, tb.
  - pose proof (implicit_dequeue checked fits malloc raw_flags m ∅ p h xs live tb R) as E. destruct xs as [|x xs].
    + rewrite (bind_some _ _ _ _ _ E). exists (Dequeued None), (m, p), []. split; [done|]. split; [constructor|]. by exists h, live, tb.
    + destruct E as (m' & p' & live' & E & _ & R'). rewrite (bind_some _ _ _ _ _ E). exists (Dequeued (Some x)), (m', p'), xs.
      split; [done|]. split; [constructor|]. by exists (h + 1), live', tb.
  - destruct (implicit_enqueue_bulk checked fits malloc raw_flags raw_value noexcept_ctor ctor_throws mode m ∅ p h xs live tb zs R Ho)
      as (r & m' & p' & E & _ & Hres). rewrite (bind_some _ _ _ _ _ E). destruct r as [[]|].
    + destruct Hres as (Hx & live' & tb' & R'). exists (Enqueued (Returned true)), (m', p'), (xs ++ zs).
      split; [done|]. split; [by constructor|]. by exists h, live', tb'.
    + exists (Enqueued (Returned false)), (m', p'), xs. split; [done|]. split; [constructor|]. by exists h, live, tb.
    + destruct Hres as [Hx R']. exists (Enqueued Threw), (m', p'), xs. split; [done|].
      split; [constructor; by apply Exists_exists|]. by exists h, live, tb.
  - destruct (implicit_dequeue_bulk checked fits malloc raw_flags m ∅ p h xs live tb max R) as (m' & p' & live' & E & _ & R'); [apply Ho|].
    rewrite (bind_some _ _ _ _ _ E). do 3 eexists. split; [reflexivity|]. split; [constructor|]. by do 3 eexists.
Qed.

(** The number of the call of [malloc] for the first index. *)
Definition index_call (blockCount : Z) : nat := if blockCount =? 0 then 0 else 1.

Lemma start_some blockCount :
  in_width 64 (blockCount + 1) -> 0 <= blockCount -> exists m, owns malloc (set_mallocs (S (mallocs m)) m) [] ∅ /\
    start blockCount = Some (set_mallocs (S (mallocs m)) m, if malloc (index_call blockCount) then constructed_producer raw_value else fresh).
Proof.
  intros Hw Hc. destruct (populate_ok malloc raw_flags (T := T) blockCount Hc) as (m & E & Hp & Hsz).
  assert (mallocs m = index_call blockCount) as Em.
  { unfold populate_initial_block_list in E. unfold index_call. destruct (blockCount =? 0); [by injection E as <-|].
    destruct (malloc _); by injection E as <-. }
  exists m. unfold in_width in Hw. split; [|unfold start; by rewrite E, (construct_some checked fits), Em].
  apply own_malloc, own_nothing; [done|]. rewrite Hsz. destruct (_ || _); lia.
Qed.

Lemma start_queue blockCount :
  in_width 64 (blockCount + 1) -> 0 <= blockCount -> malloc (index_call blockCount) = true -> exists s, start blockCount = Some s /\ holds s [].
Proof.
  intros Hw Hc Hm. destruct (start_some blockCount Hw Hc) as (m & Ho & E). rewrite Hm in E. eexists. split; [exact E|].
  exists 0, [], (- BLOCK_SIZE). by apply (constructed_rep checked fits).
Qed.

(** C13: an implicit producer that has its first index is a first-in first-out queue: every sequence of operations, bulk
    operations and constructors that throw included, runs to its end, without a failed assertion, a null pointer or
    an access out of bounds; the elements come out in the order in which they went in, only an empty queue gives
    none, a bulk operation takes as many as it asks for or all there are, and puts in all of its elements or none.
    There is no bound on the length of the sequence. *)
Theorem implicit_producer_is_fifo blockCount ops :
  in_width 64 (blockCount + 1) -> 0 <= blockCount -> malloc (index_call blockCount) = true -> Forall counted ops ->
  exists s rs s' xs, start blockCount = Some s /\ run ops s = Some (rs, s') /\ fifo_run throws [] ops rs xs /\
    all_accepted ops rs = all_taken rs ++ xs.
Proof.
  intros Hw Hc Hm Hops. destruct (start_queue blockCount Hw Hc Hm) as (s & Es & Hs).
  destruct (run_fifo throws apply holds counted apply_queue ops s [] Hs Hops) as (rs & s' & xs & Er & Hf & _).
  exists s, rs, s', xs. split; [done|]. split; [done|]. split; [done|]. apply (fifo_run_order throws _ _ _ _ Hf).
Qed.

(** C14: the destructor of an implicit producer whose first index was allocated (without it the first enqueue follows a
    null pointer), after whatever operations, destroys exactly the elements that are left, in order, and gives back everything: every index ever allocated, each once, the newest first, and every block,
    with no element left in it. *)
Theorem implicit_destruction blockCount ops :
  in_width 64 (blockCount + 1) -> 0 <= blockCount -> malloc (index_call blockCount) = true -> Forall counted ops ->
  exists s rs m p xs m', start blockCount = Some s /\ run ops s = Some (rs, (m, p)) /\
    fifo_run throws [] ops rs xs /\ destructor (m, p) = Some ((xs, reverse (seq 0 (length (headers p)))), (m', p)) /\ all_back m'.
Proof.
  intros Hw Hc Hm Hops. destruct (start_queue blockCount Hw Hc Hm) as (s & Es & Hs).
  destruct (run_fifo throws apply holds counted apply_queue ops s [] Hs Hops) as (rs & [m p] & xs & Er & Hf & h & live & tb & R).
  destruct (implicit_destructor checked fits malloc raw_flags m ∅ p h xs live tb R) as (m' & E & _ & Ho).
  exists s, rs, m, p, xs, m'. split; [done|]. split; [done|]. split; [done|]. split; [done|].
  pose proof (own_pool _ _ _ _ Ho) as Hp. rewrite list_to_set_nil, (left_id_L ∅ (∪)) in Hp. by apply (pool_all_back malloc).
Qed.

(** C19: the constructor does not check whether its first index could be allocated: without it the first element that is
    enqueued makes the producer follow a null pointer, whether it may allocate memory or not. *)
Theorem no_index_is_fatal blockCount mode x :
  in_width 64 (blockCount + 1) -> 0 <= blockCount -> malloc (index_call blockCount) = false -> full 0 0 = false ->
  exists s, start blockCount = Some s /\ apply (Enqueue mode x) s = None.
Proof.
  intros Hw Hc Hm Hf. destruct (start_some blockCount Hw Hc) as (m & _ & E). rewrite Hm in E. eexists. split; [exact E|].
  set (m1 := set_mallocs (S (mallocs m)) m).
  assert (enqueue malloc raw_flags noexcept_ctor ctor_throws raw_value mode x (m1, fresh) = None) as E0;
    [|unfold apply, mbind, M_bind; by rewrite E0].
  unfold enqueue. rewrite (bind_some _ _ _ (0 : Z) (m1, fresh)) by done. replace (place 0) with 0 by done. cbn [Z.eqb].
  rewrite (bind_some _ _ _ (0 : Z) (m1, fresh)) by done. rewrite Hf.
  by rewrite (bind_some _ _ _ tt (m1, fresh)) by done.
Qed.

End Sound.
End Run.

(** ** Examples *)

Definition small_traits : Traits := {|
  BLOCK_SIZE := 2;
  EXPLICIT_BLOCK_EMPTY_COUNTER_THRESHOLD := 2;
  EXPLICIT_INITIAL_INDEX_SIZE := 2;
  IMPLICIT_INITIAL_INDEX_SIZE := 2;
  INITIAL_IMPLICIT_PRODUCER_HASH_SIZE := 2;
  EXPLICIT_CONSUMER_CONSUMPTION_QUOTA_BEFORE_ROTATE := 2;
  Traits_MAX_SUBQUEUE_SIZE := const_numeric_max 64
|}.
Definition few (n : nat) : bool := (n <? 9)%nat.
Definition raw (n : nat) : list bool := [true; true].
(** The constructor of 13 throws. *)
Definition unlucky (x : nat) : bool := (x =? 13)%nat.

(** The index grows, memory runs out and a constructor throws, in the middle of
    bulk operations. *)
Definition rounds : list (op nat) :=
  [Enqueue CanAlloc 1; EnqueueBulk CanAlloc [2; 3; 4; 5; 6]; Enqueue CanAlloc 13; DequeueBulk 2; EnqueueBulk CanAlloc [7; 8; 9; 10; 13; 11];
   EnqueueBulk CannotAlloc (seq 20 12); EnqueueBulk CanAlloc [12; 14; 15; 16; 17; 18]; EnqueueBulk CanAlloc (seq 40 12);
   Dequeue; DequeueBulk 4; DequeueBulk 100; Dequeue]%nat.

Lemma rounds_counted : Forall counted rounds.
Proof. repeat constructor; cbn; lia. Qed.

Lemma implicit_producer_is_fifo_witness :
  (exists s rs s' xs, start (tr := small_traits) few raw None 1 = Some s /\
    run (tr := small_traits) few raw None false unlucky rounds s = Some (rs, s') /\ fifo_run (throws false unlucky) [] rounds rs xs /\
    all_accepted rounds rs = all_taken rs ++ xs) /\
  (s ← start (tr := small_traits) few raw None 1; r ← run (tr := small_traits) few raw None false unlucky rounds s; Some r.1) =
    Some ([Enqueued (Returned true); Enqueued (Returned true); Enqueued Threw; BulkDequeued [1; 2]; Enqueued Threw;
      Enqueued (Returned false); Enqueued (Returned true); Enqueued (Returned false);
      Dequeued (Some 3); BulkDequeued [4; 5; 6; 12]; BulkDequeued [14; 15; 16; 17; 18]; Dequeued None])%nat.
Proof.
  split; [|by vm_compute].
  apply (implicit_producer_is_fifo (tr := small_traits) few raw None false unlucky).
  - by vm_compute.
  - by vm_compute.
  - by vm_compute.
  - by vm_compute.
  - done.
  - done.
  - exact rounds_counted.
Defined.

Lemma implicit_destruction_witness :
  (exists s rs m p xs m', start (tr := small_traits) few raw None 1 = Some s /\
    run (tr := small_traits) few raw None false unlucky (firstn 9 rounds) s = Some (rs, (m, p)) /\
    fifo_run (throws false unlucky) [] (firstn 9 rounds) rs xs /\
    destructor (tr := small_traits) (m, p) = Some ((xs, reverse (seq 0 (length (headers p)))), (m', p)) /\ all_back (tr := small_traits) m') /\
  (s ← start (tr := small_traits) few raw None 1; r ← run (tr := small_traits) few raw None false unlucky (firstn 9 rounds) s;
   d ← destructor (tr := small_traits) r.2; Some (d.1, freeList d.2.1)) = Some ([4; 5; 6; 12; 14; 15; 16; 17; 18], [2; 1; 0], [8; 6; 0; 5; 3; 9])%nat.
Proof.
  split; [|by vm_compute].
  apply (implicit_destruction (tr := small_traits) few raw None false unlucky).
  - by vm_compute.
  - by vm_compute.
  - by vm_compute.
  - by vm_compute.
  - done.
  - done.
  - apply Forall_take, rounds_counted.
Defined.

Lemma no_index_is_fatal_witness :
  (exists s, start (tr := small_traits) (fun _ => false) raw None 3 = Some s /\
    apply (tr := small_traits) (fun _ => false) raw None true unlucky (Enqueue CanAlloc 1%nat) s = None) /\
  full (tr := small_traits) 0 0 = false.
Proof.
  split; [|by vm_compute]. apply (no_index_is_fatal (tr := small_traits) (fun _ => false) raw None true unlucky).
  - by vm_compute.
  - by vm_compute.
  - by vm_compute.
  - by vm_compute.
  - done.
  - done.
  - by vm_compute.
Defined.

End ImplicitQueue.
