(* ===== verification/BlockOrigin.v ===== *)
(** * Where the blocks of a lock-free queue came from (utils/concurrentqueue.h)

    A block knows whether it has been allocated on its own or with the pool:
    its address says the same, whatever the producers do, and no block of the
    pool is ever freed on its own. The operations of producers are walked
    through one command at a time: [safe P c Q] says that [c] keeps [P] and
    answers with a [Q] if it comes to an end. *)
From S2P Require Import Prelude.
From S2P Require Import QueueTraits.
From S2P Require Import QueueBlock.
From S2P Require Import BlockPool.
From S2P Require Import ProducerMemory.
From S2P Require Import ExplicitProducer.
From S2P Require Import ImplicitProducer.
#[local] Open Scope Z_scope.
Import ProducerMemory.

(** ** Commands that keep an invariant *)

Definition safe {S A} (P : S -> Prop) (c : M S A) (Q : A -> Prop) : Prop :=
  forall s a s', P s -> c s = Some (a, s') -> P s' /\ Q a.
Abbreviation anything := (fun _ => True).

Section Rules.
Context {S : Type} (P : S -> Prop).

Lemma safe_bind {A B} (c : M S A) (k : A -> M S B) Q R :
  safe P c Q -> (forall a, Q a -> safe P (k a) R) -> safe P (c ≫= k) R.
Proof.
  intros Hc Hk s b s' Hs E. unfold mbind, M_bind in E. destruct (c s) as [[a s1]|] eqn:Ec; [|done].
  destruct (Hc s a s1 Hs Ec) as [Hs1 Ha]. by apply (Hk a Ha s1 b s').
Qed.

Lemma safe_weaken {A} (c : M S A) Q : safe P c Q -> safe P c anything.
Proof. intros Hc s a s' Hs E. by destruct (Hc s a s' Hs E). Qed.

Lemma safe_ret {A} (a : A) (Q : A -> Prop) : Q a -> safe P (mret a) Q.
Proof. intros Ha s b s' Hs [= <- <-]. by split. Qed.

Lemma safe_the {A} (o : option A) : safe P (the o) (fun a => o = Some a).
Proof. intros s a s' Hs E. destruct o as [x|]; [|done]. cbn in E. by injection E as <- <-. Qed.

Lemma safe_undefined {A} (Q : A -> Prop) : safe P undefined Q.
Proof. by intros s a s' Hs E. Qed.

Lemma safe_assert b : safe P (assert_that b) anything.
Proof. intros s a s' Hs E. destruct b; [|done]. cbn in E. by injection E as <- <-. Qed.

Lemma safe_gets {A} (f : S -> A) : safe P (gets f) anything.
Proof. intros s a s' Hs [= <- <-]. by split. Qed.
End Rules.

Section Origin.
Context {tr : Traits} {T : Type}.
(** The number of blocks of the pool. *)
Context (n : Z).
Implicit Types (m : Memory (T := T)) (blk : Block.t T).

Definition native (b : nat) blk : Prop := Block.dynamicallyAllocated blk = (n <=? Z.of_nat b).
Record native_memory m : Prop := mkNative {
  origin_size : initialBlockPoolSize m = n;
  origin_pool : forall b, Z.of_nat b < n -> is_Some (blocks m !! b);
  origin_native : forall b blk, blocks m !! b = Some blk -> native b blk
}.

(** ** Blocks *)

Lemma put_native b i x blk blk' : Block.put i x blk = Some blk' -> native b blk -> native b blk'.
Proof. unfold Block.put. destruct (_ !! _) as [[]|]; [done| |done]. by intros [= <-]. Qed.

Lemma destroy_native b i blk blk' : Block.destroy i blk = Some blk' -> native b blk -> native b blk'.
Proof. unfold Block.destroy. destruct (_ !! _) as [[]|]; [|done..]. by intros [= <-]. Qed.

Lemma set_empty_native b c i blk r : Block.set_empty c i blk = Some r -> native b blk -> native b r.2.
Proof. unfold Block.set_empty. repeat case_match; try done; by intros [= <-]. Qed.

Lemma set_many_native b c i k blk r : Block.set_many_empty c i k blk = Some r -> native b blk -> native b r.2.
Proof. unfold Block.set_many_empty. repeat case_match; try done; by intros [= <-]. Qed.

Lemma set_next_native b v blk : native b blk -> native b (Block.set_next v blk).
Proof. done. Qed.

Lemma set_all_native b c blk : native b blk -> native b (Block.set_all_empty c blk).
Proof. unfold Block.set_all_empty. by destruct (Block.uses_flags c). Qed.

Lemma reset_native b c blk : native b blk -> native b (Block.reset_empty c blk).
Proof. unfold Block.reset_empty. by destruct (Block.uses_flags c). Qed.

(** ** Memory *)

Context (malloc : nat -> bool) (raw_flags : nat -> list bool).

Lemma origin_blocks m m' : native_memory m -> blocks m' = blocks m -> initialBlockPoolSize m' = initialBlockPoolSize m -> native_memory m'.
Proof. intros [Hs Hp Hn] Eb Es. split; [congruence|by rewrite Eb|by rewrite Eb]. Qed.

Lemma safe_malloc : safe native_memory (try_malloc malloc) anything.
Proof. intros m b m' Hm [= <- <-]. split; [|done]. by apply (origin_blocks m). Qed.

Lemma safe_load b : safe native_memory (load_block b) (native b).
Proof.
  intros m blk m' Hm E. unfold load_block in E. destruct (blocks m !! b) eqn:Eb; [|done].
  injection E as -> ->. split; [done|]. by apply (origin_native _ Hm).
Qed.

Lemma safe_store b f : (forall blk, native b blk -> native b (f blk)) -> safe native_memory (store_block b f) anything.
Proof.
  intros Hf m [] m' Hm E. unfold store_block in E. destruct (blocks m !! b) as [blk|] eqn:Eb; [|done].
  injection E as <-. split; [|done]. destruct Hm as [Hs Hp Hn]. split; [done| |]; cbn.
  - intros c Hc. destruct (decide (b = c)) as [<-|Hne]; [rewrite lookup_insert_eq; by eexists|].
    rewrite lookup_insert_ne by done. by apply Hp.
  - intros c cblk. destruct (decide (b = c)) as [<-|Hne]; [rewrite lookup_insert_eq; intros [= <-]; by apply Hf, Hn|].
    rewrite lookup_insert_ne by done. apply Hn.
Qed.

(** A block that was allocated on its own. *)
Lemma safe_destroy b blk : native b blk -> Block.dynamicallyAllocated blk = true -> safe native_memory (destroy_block b) anything.
Proof.
  intros Hb Hd m [] m' Hm E. unfold destroy_block in E. destruct (blocks m !! b); [|done]. injection E as <-. split; [|done].
  destruct Hm as [Hs Hp Hn]. unfold native in Hb. rewrite Hd in Hb. symmetry in Hb. apply Z.leb_le in Hb. split; [done| |]; cbn.
  - intros c Hc. rewrite lookup_delete_ne; [by apply Hp|]. intros ->. lia.
  - intros c cblk [_ Ec]%lookup_delete_Some. by apply Hn.
Qed.

Lemma safe_free b : safe native_memory (add_block_to_free_list b) anything.
Proof. intros m [] m' Hm [= <-]. split; [|done]. by apply (origin_blocks m). Qed.

Lemma safe_frees fuel : forall b, safe native_memory (add_blocks_to_free_list fuel b) anything.
Proof.
  induction fuel as [|fuel IH]; intros [b|]; cbn [add_blocks_to_free_list]; try by apply safe_ret || apply safe_undefined.
  eapply safe_bind; [apply safe_load|]. intros blk _. eapply safe_bind; [apply safe_free|]. intros _ _. apply IH.
Qed.

Lemma safe_requisition mode : safe native_memory (requisition_block malloc raw_flags mode) anything.
Proof.
  unfold requisition_block. eapply safe_bind with (Q := anything).
  { intros m o m' Hm E. unfold try_get_block_from_initial_pool in E. destruct (_ <=? _); injection E as <- <-; [done|].
    split; [|done]. by apply (origin_blocks m). }
  intros [b|] _; [by apply safe_ret|]. eapply safe_bind with (Q := anything).
  { intros m o m' Hm E. unfold try_get_block_from_free_list in E. destruct (freeList m); injection E as <- <-; [done|].
    split; [|done]. by apply (origin_blocks m). }
  intros [b|] _; [by apply safe_ret|]. destruct mode; [|by apply safe_ret].
  intros m o m' Hm E. split; [|done]. unfold create_block in E. destruct (malloc (mallocs m)).
  - injection E as _ <-. destruct Hm as [Hs Hp Hn]. split; [done| |]; cbn; rewrite Hs.
    + intros c Hc. rewrite lookup_insert_ne by lia. by apply Hp.
    + intros c cblk. destruct (decide (Z.to_nat n + mallocs m = c)%nat) as [<-|Hne].
      * rewrite lookup_insert_eq. intros [= <-]. unfold native. cbn. symmetry. apply Z.leb_le. lia.
      * rewrite lookup_insert_ne by done. apply Hn.
  - injection E as _ <-. by apply (origin_blocks m).
Qed.

(** The constructor's blocks. *)
Lemma origin_populate blockCount m :
  0 <= blockCount -> populate_initial_block_list malloc raw_flags blockCount no_memory = Some (tt, m) ->
  initialBlockPoolSize m = n -> native_memory m.
Proof.
  intros Hc E Hs. unfold populate_initial_block_list in E. destruct (blockCount =? 0); [|destruct (malloc _)]; injection E as <-; cbn in Hs.
  1,3: split; cbn; [done|lia|intros b blk; by rewrite lookup_empty].
  split; cbn; [done| |].
  - intros b Hb. exists (pool_block raw_flags b). apply elem_of_list_to_map.
    + rewrite <- list_fmap_compose. cbn. rewrite list_fmap_id. apply NoDup_seq.
    + apply (list_elem_of_fmap_2' _ _ b); [|done]. apply elem_of_seq. lia.
  - intros b blk Hin%elem_of_list_to_map_2. apply list_elem_of_fmap in Hin as (i & [= -> ->] & Hi%elem_of_seq).
    unfold native. cbn. symmetry. apply Z.leb_gt. lia.
Qed.

(** ** Producers *)

Context {P : Type}.
Abbreviation State := (Memory (T := T) * P)%type.
Definition origins (s : State) : Prop := native_memory s.1.

Lemma safe_mem {A} (c : M Memory A) Q : safe native_memory c Q -> safe origins (mem c) Q.
Proof.
  intros Hc [m p] a [m' p'] Hs E. unfold mem in E. destruct (c m) as [[x m1]|] eqn:Ec; [|done]. injection E as <- <- <-.
  by apply (Hc m x m1).
Qed.

Lemma safe_field {A} (f : P -> A) : safe origins (field f) anything.
Proof. intros s a s' Hs [= <- <-]. by split. Qed.

Lemma safe_set (f : P -> P) : safe origins (set f) anything.
Proof. intros [m p] [] s' Hs [= <-]. by split. Qed.
End Origin.

Create HintDb origin.
#[export] Hint Resolve put_native destroy_native set_empty_native set_many_native set_next_native set_all_native reset_native : origin.
#[export] Hint Resolve safe_the safe_undefined safe_assert safe_field safe_set : origin.
#[export] Hint Resolve safe_malloc safe_load safe_destroy safe_free safe_frees safe_requisition : origin.
#[export] Hint Extern 1 (safe _ (mret _) _) => apply safe_ret; exact I : origin.
#[export] Hint Extern 1 (safe _ (store_block _ _) _) => apply safe_store; intros; eauto 3 with origin : origin.
#[export] Hint Extern 2 (safe _ (mem _) _) => eapply safe_mem; eauto 3 with origin : origin.

(** Walk through a command. *)
Ltac walk :=
  cbv zeta;
  lazymatch goal with
  | |- safe _ (match ?x with _ => _ end) _ => let E := fresh "E" in destruct x eqn:E; walk
  | |- safe _ (mbind _ (match ?x with _ => _ end)) _ => eapply safe_bind with (Q := anything); [walk|intros ? ?; cbv beta in *; walk]
  | |- safe _ (mbind _ (mbind _ _)) _ => eapply safe_bind with (Q := anything); [walk|intros ? ?; cbv beta in *; walk]
  | |- safe _ (mbind _ _) _ => eapply safe_bind; [solve [eauto 4 with origin]|intros ? ?; cbv beta in *; walk]
  | |- _ => try solve [eauto 4 with origin | eapply safe_weaken; eauto 4 with origin]
  end.

Section Producers.
Context {tr : Traits} {T P : Type} (n : Z) (malloc : nat -> bool) (raw_flags : nat -> list bool).
Context (noexcept_ctor : bool) (ctor_throws : T -> bool).
Abbreviation origins := (origins (T := T) (P := P) n).

Lemma safe_put b i x : safe origins (put b i x) anything.
Proof. unfold put. walk. Qed.
Lemma safe_take b i : safe origins (take b i) anything.
Proof. unfold take. walk. Qed.
#[local] Hint Resolve safe_put safe_take : origin.

Lemma safe_fill_block fuel : forall b i stop xs, safe origins (fill_block noexcept_ctor ctor_throws fuel b i stop xs) anything.
Proof. induction fuel; intros; cbn [fill_block]; walk. Qed.
Lemma safe_destroy_in_block fuel : forall b i stop, safe origins (destroy_in_block fuel b i stop) anything.
Proof. induction fuel; intros; cbn [destroy_in_block]; walk. Qed.
Lemma safe_take_block fuel : forall b i stop, safe origins (take_block fuel b i stop) anything.
Proof. induction fuel; intros; cbn [take_block]; walk. Qed.
#[local] Hint Resolve safe_fill_block safe_destroy_in_block safe_take_block : origin.

Lemma safe_fill_chain tail_block set_tail_block fuel : forall last i newTail xs,
  safe origins (fill_chain noexcept_ctor ctor_throws tail_block set_tail_block fuel last i newTail xs) anything.
Proof. induction fuel; intros; cbn [fill_chain]; walk. Qed.
Lemma safe_destroy_chain fuel : forall b last i stop, safe origins (destroy_chain fuel b last i stop) anything.
Proof. induction fuel; intros; cbn [destroy_chain]; walk. Qed.
End Producers.
#[export] Hint Resolve safe_put safe_take safe_take_block safe_destroy_in_block safe_fill_chain safe_destroy_chain : origin.

(** ** Explicit producers *)

Module ExplicitOrigin.
Import ExplicitProducer.
Section Explicit.
Context {tr : Traits} {T : Type} (n : Z) (malloc : nat -> bool) (raw_flags : nat -> list bool).
Context (noexcept_ctor : bool) (ctor_throws : T -> bool).
Abbreviation origins := (origins (T := T) (P := t) n).
Abbreviation keeping c := (safe origins c anything).

Lemma explicit_keeps_current : keeping current.
Proof. unfold current. walk. Qed.
#[local] Hint Resolve explicit_keeps_current : origin.
Lemma explicit_keeps_new_block_index k : keeping (new_block_index malloc k).
Proof. unfold new_block_index, old_entries. walk. Qed.
Lemma explicit_keeps_write_entry b : keeping (write_entry b).
Proof. unfold write_entry. walk. Qed.
Lemma explicit_keeps_publish f : keeping (publish f).
Proof. unfold publish. walk. Qed.
Lemma explicit_keeps_advance : keeping advance_front.
Proof. unfold advance_front. walk. Qed.
Lemma explicit_keeps_block_ahead : keeping block_ahead.
Proof. unfold block_ahead. walk. Qed.
Lemma explicit_keeps_insert_block b : keeping (insert_block b).
Proof. unfold insert_block. walk. Qed.
#[local] Hint Resolve explicit_keeps_new_block_index explicit_keeps_write_entry explicit_keeps_publish explicit_keeps_advance explicit_keeps_block_ahead explicit_keeps_insert_block : origin.
Lemma explicit_keeps_index_room mode k : keeping (index_room malloc mode k).
Proof. unfold index_room. walk. Qed.
#[local] Hint Resolve explicit_keeps_index_room : origin.
Lemma explicit_keeps_start_block mode : keeping (start_block malloc raw_flags mode).
Proof. unfold start_block. walk. Qed.
#[local] Hint Resolve explicit_keeps_start_block : origin.

Lemma explicit_keeps_enqueue mode x : keeping (enqueue malloc raw_flags noexcept_ctor ctor_throws mode x).
Proof. unfold enqueue. walk. Qed.

Lemma explicit_keeps_set_empty b i : keeping (set_empty b i).
Proof. unfold set_empty. walk. Qed.
#[local] Hint Resolve explicit_keeps_set_empty : origin.
Lemma explicit_keeps_dequeue : keeping dequeue.
Proof. unfold dequeue. walk. Qed.

Lemma explicit_keeps_reuse_blocks fuel : forall g, keeping (reuse_blocks fuel g).
Proof. induction fuel; intros; cbn [reuse_blocks]; walk. Qed.
Lemma explicit_keeps_revert o first : keeping (revert o first).
Proof. unfold revert. walk. Qed.
#[local] Hint Resolve explicit_keeps_reuse_blocks explicit_keeps_revert : origin.
Lemma explicit_keeps_add_blocks fuel : forall mode o g, keeping (add_blocks malloc raw_flags fuel mode o g).
Proof. induction fuel; intros; cbn [add_blocks]; walk. Qed.
Lemma explicit_keeps_reset_blocks fuel : forall b, keeping (reset_blocks fuel b).
Proof. induction fuel; intros; cbn [reset_blocks]; walk. Qed.
Lemma explicit_keeps_publish_last : keeping publish_last.
Proof. unfold publish_last. walk. Qed.
#[local] Hint Resolve explicit_keeps_add_blocks explicit_keeps_reset_blocks explicit_keeps_publish_last : origin.
Lemma explicit_keeps_get_blocks mode count o : keeping (get_blocks malloc raw_flags noexcept_ctor mode count o).
Proof. unfold get_blocks. walk. Qed.
#[local] Hint Resolve explicit_keeps_get_blocks : origin.
Lemma explicit_keeps_enqueue_bulk mode xs : keeping (enqueue_bulk malloc raw_flags noexcept_ctor ctor_throws mode xs).
Proof. unfold enqueue_bulk, fill_blocks, destroy_blocks. walk. Qed.

Lemma explicit_keeps_take_blocks fuel : forall h k i last, keeping (take_blocks fuel h k i last).
Proof. induction fuel; intros; cbn [take_blocks]; walk. Qed.
#[local] Hint Resolve explicit_keeps_take_blocks : origin.
Lemma explicit_keeps_dequeue_bulk max : keeping (dequeue_bulk max).
Proof. unfold dequeue_bulk. walk. Qed.

Lemma explicit_keeps_destroy_elements fuel : forall half b tb, keeping (destroy_elements fuel half b tb).
Proof. induction fuel; intros; cbn [destroy_elements]; walk. Qed.
Lemma explicit_keeps_destroy_ring fuel : forall b tb, keeping (destroy_ring fuel b tb).
Proof. induction fuel; intros; cbn [destroy_ring]; walk. Qed.
#[local] Hint Resolve explicit_keeps_destroy_elements explicit_keeps_destroy_ring : origin.
Lemma explicit_keeps_destructor fuel : keeping (destructor fuel).
Proof. unfold destructor. walk. Qed.

Lemma explicit_keeps_construct : safe (native_memory (T := T) n) (construct malloc) anything.
Proof.
  intros m p m' Hm E. unfold construct in E. destruct (new_block_index _ _ _) as [[b [m1 p1]]|] eqn:Ei; [|done]. injection E as <- <-.
  by destruct (explicit_keeps_new_block_index 0 _ _ _ (Hm : origins (m, _)) Ei).
Qed.
End Explicit.
End ExplicitOrigin.

(** ** Implicit producers *)

Module ImplicitOrigin.
Import ImplicitProducer.
Section Implicit.
Context {tr : Traits} {T : Type} (n : Z) (malloc : nat -> bool) (raw_flags : nat -> list bool).
Context (noexcept_ctor : bool) (ctor_throws : T -> bool) (raw_value : option nat).
Abbreviation origins := (origins (T := T) (P := t) n).
Abbreviation keeping c := (safe origins c anything).

Lemma implicit_keeps_current : keeping current.
Proof. unfold current. walk. Qed.
Lemma implicit_keeps_entry_at h pos : keeping (entry_at h pos).
Proof. unfold entry_at. walk. Qed.
Lemma implicit_keeps_store_key k v : keeping (store_key k v).
Proof. unfold store_key. walk. Qed.
Lemma implicit_keeps_store_value k v : keeping (store_value k v).
Proof. unfold store_value. walk. Qed.
#[local] Hint Resolve implicit_keeps_current implicit_keeps_entry_at implicit_keeps_store_key implicit_keeps_store_value : origin.
Lemma implicit_keeps_store_tail v : keeping (store_tail v).
Proof. unfold store_tail. walk. Qed.
Lemma implicit_keeps_new_block_index : keeping (new_block_index malloc raw_value).
Proof. unfold new_block_index. walk. Qed.
Lemma implicit_keeps_next_slot : keeping next_slot.
Proof. unfold next_slot. walk. Qed.
#[local] Hint Resolve implicit_keeps_store_tail implicit_keeps_new_block_index implicit_keeps_next_slot : origin.
Lemma implicit_keeps_take_slot i k v : keeping (take_slot i k v).
Proof. unfold take_slot. walk. Qed.
#[local] Hint Resolve implicit_keeps_take_slot : origin.
Lemma implicit_keeps_insert_entry mode i : keeping (insert_block_index_entry malloc raw_value mode i).
Proof. unfold insert_block_index_entry. walk. Qed.
Lemma implicit_keeps_rewind : keeping rewind_block_index_tail.
Proof. unfold rewind_block_index_tail. walk. Qed.
Lemma implicit_keeps_get_index i : keeping (get_block_index_index_for_index i).
Proof. unfold get_block_index_index_for_index. walk. Qed.
#[local] Hint Resolve implicit_keeps_insert_entry implicit_keeps_rewind implicit_keeps_get_index : origin.
Lemma implicit_keeps_get_entry i : keeping (get_block_index_entry_for_index i).
Proof. unfold get_block_index_entry_for_index. walk. Qed.
#[local] Hint Resolve implicit_keeps_get_entry : origin.

Lemma implicit_keeps_enqueue mode x : keeping (enqueue malloc raw_flags noexcept_ctor ctor_throws raw_value mode x).
Proof. unfold enqueue. walk. Qed.
Lemma implicit_keeps_release k b : keeping (release_block k b).
Proof. unfold release_block. walk. Qed.
#[local] Hint Resolve implicit_keeps_release : origin.
Lemma implicit_keeps_dequeue : keeping dequeue.
Proof. unfold dequeue. walk. Qed.

Lemma implicit_keeps_undo_blocks fuel : forall b cur, keeping (undo_blocks fuel b cur).
Proof. induction fuel; intros [b|] cur; cbn [undo_blocks]; walk. Qed.
#[local] Hint Resolve implicit_keeps_undo_blocks : origin.
Lemma implicit_keeps_revert fuel start startBlock first : keeping (revert fuel start startBlock first).
Proof. unfold revert. walk. Qed.
#[local] Hint Resolve implicit_keeps_revert : origin.
Lemma implicit_keeps_get_blocks fuel : forall total mode start startBlock diff cur first,
  keeping (get_blocks malloc raw_flags raw_value fuel total mode start startBlock diff cur first).
Proof. induction fuel; intros; cbn [get_blocks]; walk. Qed.
#[local] Hint Resolve implicit_keeps_get_blocks : origin.
Lemma implicit_keeps_enqueue_bulk mode xs : keeping (enqueue_bulk malloc raw_flags noexcept_ctor ctor_throws raw_value mode xs).
Proof. unfold enqueue_bulk, fill_blocks, destroy_blocks. walk. Qed.

Lemma implicit_keeps_take_blocks fuel : forall h k i last, keeping (take_blocks fuel h k i last).
Proof. induction fuel; intros; cbn [take_blocks]; walk. Qed.
#[local] Hint Resolve implicit_keeps_take_blocks : origin.
Lemma implicit_keeps_dequeue_bulk max : keeping (dequeue_bulk max).
Proof. unfold dequeue_bulk. walk. Qed.

Lemma implicit_keeps_destroy_elements fuel : forall i tail b, keeping (destroy_elements fuel i tail b).
Proof. induction fuel; intros; cbn [destroy_elements]; walk. Qed.
#[local] Hint Resolve implicit_keeps_destroy_elements : origin.
Lemma implicit_keeps_destructor : keeping destructor.
Proof. unfold destructor. walk. Qed.

Lemma implicit_keeps_construct : safe (native_memory (T := T) n) (construct malloc raw_value) anything.
Proof.
  intros m p m' Hm E. unfold construct in E. destruct (new_block_index _ _ _) as [[b [m1 p1]]|] eqn:Ei; [|done]. injection E as <- <-.
  by destruct (implicit_keeps_new_block_index _ _ _ (Hm : origins (m, _)) Ei).
Qed.
End Implicit.
End ImplicitOrigin.
