(* ===== verification/QueueStore.v ===== *)
(** * The producers of a lock-free queue in its memory (utils/concurrentqueue.h,
      [ProducerBase], the constructors and the destructor of [ConcurrentQueue])

    All producers of a queue, explicit and implicit, share its pool of blocks,
    its free list and [malloc]. Each keeps its promise while the others are at
    work: the class [SubQueues] has here the producers themselves as its
    instance, so that what LockFreeSpec shows of the queue's methods holds of
    the whole queue, down to its blocks. *)
From S2P Require Import Prelude.
From S2P Require Import QueueUtils.
From S2P Require Import QueueTraits.
From S2P Require Import QueueBlock.
From S2P Require Import BlockPool.
From S2P Require Import ProducerMemory.
From S2P Require Import ProducerHash.
From S2P Require Import ProducerList.
From S2P Require Import LockFreeQueue.
From S2P Require Import LockFreeSpec.
From S2P Require Import BlockContents.
From S2P Require Import BlockMemory.
From S2P Require Import ExplicitProducer.
From S2P Require Import ExplicitRing.
From S2P Require Import ExplicitIndex.
From S2P Require Import ExplicitSpec.
From S2P Require Import ExplicitBulk.
From S2P Require Import ExplicitLife.
From S2P Require Import ImplicitProducer.
From S2P Require Import ImplicitIndex.
From S2P Require Import ImplicitSpec.
From S2P Require Import ImplicitBulk.
From S2P Require Import ImplicitLife.
From S2P Require Import BlockOrigin.
#[local] Open Scope Z_scope.
Import ProducerMemory ExplicitOrigin ImplicitOrigin.

Module QueueStore.

Section Store.
Context {tr : Traits} {T : Type}.
(** The outcomes of the calls of [malloc]; those for the first index of an
    implicit producer are apart, as its constructor does not check them. *)
Context (malloc first_index : nat -> bool) (raw_flags : nat -> list bool) (raw_value : option nat).

(** ** Data *)

Inductive producer := Explicit (d : ExplicitProducer.t) | Implicit (d : ImplicitProducer.t).
Record t := mk { memory : Memory (T := T); producers : gmap nat producer; next_address : nat }.

(** ** The producers' operations *)

(** An operation of a producer, by its kind, and of the producer at the address
    [p]. *)
Definition by_kind {A} (explicit : M (Memory (T := T) * ExplicitProducer.t) A)
    (implicit : M (Memory (T := T) * ImplicitProducer.t) A) : M (Memory (T := T) * producer) A := fun '(m, d) =>
  match d with
  | Explicit d => match explicit (m, d) with Some (a, (m, d)) => Some (a, (m, Explicit d)) | None => None end
  | Implicit d => match implicit (m, d) with Some (a, (m, d)) => Some (a, (m, Implicit d)) | None => None end
  end.
Definition on_producer {A} (p : nat) (work : M (Memory (T := T) * producer) A) : M t A := fun s =>
  match producers s !! p with
  | Some d =>
      match work (memory s, d) with
      | Some (a, (m, d)) => Some (a, mk m (<[p := d]> (producers s)) (next_address s))
      | None => None
      end
  | None => None
  end.
(** A call that an exception does not leave: no constructor throws here. *)
Definition returns {S A} (m : M S (outcome A)) : M S A :=
  r ← m;
  match r with Returned a => mret a | Threw => undefined end.

Definition enqueue (p : nat) (mode : AllocationMode) (x : T) : M t bool :=
  on_producer p (by_kind (returns (ExplicitProducer.enqueue malloc raw_flags true (fun _ => false) mode x))
    (returns (ImplicitProducer.enqueue malloc raw_flags true (fun _ => false) raw_value mode x))).
Definition enqueue_bulk (p : nat) (mode : AllocationMode) (xs : list T) : M t bool :=
  on_producer p (by_kind (returns (ExplicitProducer.enqueue_bulk malloc raw_flags true (fun _ => false) mode xs))
    (returns (ImplicitProducer.enqueue_bulk malloc raw_flags true (fun _ => false) raw_value mode xs))).
Definition dequeue (p : nat) : M t (option T) := on_producer p (by_kind ExplicitProducer.dequeue ImplicitProducer.dequeue).
Definition dequeue_bulk (p : nat) (max : Z) : M t (list T) :=
  on_producer p (by_kind (ExplicitProducer.dequeue_bulk max) (ImplicitProducer.dequeue_bulk max)).

Definition indices (d : producer) : Z * Z :=
  match d with
  | Explicit d => (ExplicitProducer.tailIndex d, ExplicitProducer.headIndex d)
  | Implicit d => (ImplicitProducer.tailIndex d, ImplicitProducer.headIndex d)
  end.
Definition size_approx (p : nat) (s : t) : Z :=
  match producers s !! p with
  | Some d => let '(tail, head) := indices d in if circular_less_than 64 head tail then u64 (tail - head) else 0
  | None => 0
  end.

Definition on_memory {A} (m : M Memory A) : M t A := fun s =>
  match m (memory s) with Some (a, m) => Some (a, mk m (producers s) (next_address s)) | None => None end.
(** [create<ExplicitProducer>(this)], [create<ImplicitProducer>(this)]. *)
Definition create (isExplicit : bool) : M t (option nat) :=
  ok ← on_memory (try_malloc malloc);
  if (ok : bool) then
    d ← on_memory (if isExplicit then d ← ExplicitProducer.construct malloc; mret (Explicit d)
                   else d ← ImplicitProducer.construct first_index raw_value; mret (Implicit d));
    p ← gets next_address;
    modify (fun s => mk (memory s) (<[p := d]> (producers s)) (S p));;
    mret (Some p)
  else mret None.
(** The destructor and [free]: the elements it destroys. There are no more blocks
    in a producer's ring than there are blocks. *)
Definition destroy (p : nat) : M t (list T) := fun s =>
  match on_producer p (by_kind (ExplicitProducer.destructor (base.size (blocks (memory s)))) ImplicitProducer.destructor) s with
  | Some ((xs, _), s) => Some (xs, mk (memory s) (delete p (producers s)) (next_address s))
  | None => None
  end.

#[export] Instance store_queues : SubQueues t T := {
  sub_create := create;
  sub_size := size_approx;
  sub_enqueue := enqueue;
  sub_enqueue_bulk := enqueue_bulk;
  sub_dequeue := dequeue;
  sub_dequeue_bulk := dequeue_bulk;
  sub_destroy := destroy;
  sub_malloc := on_memory (try_malloc malloc)
}.

(** ** Construction and destruction *)

(** The constructors: the pool has the blocks that the arguments ask for. *)
Definition construct_with (blockCount : Z) : option (LockFreeQueue.t t) :=
  match populate_initial_block_list malloc raw_flags blockCount no_memory with
  | Some (_, m) => Some (LockFreeQueue.construct (mk m ∅ 0))
  | None => None
  end.
(** The arguments of the constructors. *)
Inductive arguments :=
| ForCapacity (capacity : Z)
| ForProducers (minCapacity maxExplicitProducers maxImplicitProducers : Z).
Definition pool_blocks (a : arguments) : Z :=
  match a with
  | ForCapacity capacity => LockFreeQueue.blocks_for capacity
  | ForProducers minCapacity maxExplicitProducers maxImplicitProducers =>
      LockFreeQueue.blocks_for_producers minCapacity maxExplicitProducers maxImplicitProducers
  end.
Definition construct (a : arguments) : option (LockFreeQueue.t t) := construct_with (pool_blocks a).

(** The blocks of the free list that were allocated one by one are destroyed, and
    then the array of the pool. *)
Fixpoint destroy_free_list (l : list nat) : M (Memory (T := T)) unit :=
  match l with
  | [] => mret tt
  | b :: l =>
      blk ← load_block b;
      (if Block.dynamicallyAllocated blk then destroy_block b else mret tt);;
      destroy_free_list l
  end.
Fixpoint destroy_array (count : nat) : M (Memory (T := T)) unit :=
  match count with
  | O => mret tt
  | S count => destroy_block count;; destroy_array count
  end.
Definition destroy_blocks : M (Memory (T := T)) unit :=
  l ← gets freeList;
  destroy_free_list l;;
  n ← gets initialBlockPoolSize;
  destroy_array (Z.to_nat n).
(** The elements destroyed, the number of hash tables freed, and the memory that
    is left. *)
Definition destructor (q : LockFreeQueue.t t) : option (list T * nat * Memory (T := T)) :=
  match LockFreeQueue.destructor q with
  | Some (xs, n, l) =>
      match destroy_blocks (memory (ProducerList.subs l)) with Some (_, m) => Some (xs, n, m) | None => None end
  | None => None
  end.

(** ** The blocks of all producers *)

Definition blocks_of (rings : gmap nat (gset nat)) : gset nat := ⋃ (map_to_list rings).*2.

Lemma elem_of_blocks_of rings b : b ∈ blocks_of rings <-> exists p B, rings !! p = Some B /\ (b ∈ B).
Proof.
  unfold blocks_of. rewrite elem_of_union_list. split.
  - intros (B & ([p B'] & -> & Hin%elem_of_map_to_list)%list_elem_of_fmap & Hb). by exists p, B'.
  - intros (p & B & E & Hb). exists B. split; [|done]. apply (list_elem_of_fmap_2' _ _ (p, B)); [|done].
    by apply elem_of_map_to_list.
Qed.

(** The blocks of the others. *)
Abbreviation others p rings := (blocks_of (delete p rings)).

Lemma elem_of_others rings p b : b ∈ others p rings <-> exists q B, q <> p /\ rings !! q = Some B /\ (b ∈ B).
Proof.
  rewrite elem_of_blocks_of. split.
  - intros (q & B & [Hne E]%lookup_delete_Some & Hb). by exists q, B.
  - intros (q & B & Hne & E & Hb). exists q, B. by rewrite lookup_delete_ne.
Qed.

Lemma blocks_of_split rings p B : rings !! p = Some B -> blocks_of rings = B ∪ others p rings.
Proof.
  intros E. apply set_eq. intros b. rewrite elem_of_union, elem_of_blocks_of, elem_of_others. split.
  - intros (q & C & Eq & Hb). destruct (decide (q = p)) as [->|Hne]; [left; congruence|right; by exists q, C].
  - intros [Hb|(q & C & _ & Eq & Hb)]; [by exists p, B|by exists q, C].
Qed.

Lemma others_insert rings p B : others p (<[p := B]> rings) = others p rings.
Proof. by rewrite delete_insert_eq. Qed.

(** ** Promises of a producer *)

Section Sound.
Context (checked : static_asserts = true) (fits : BLOCK_SIZE <= 2 ^ 62).
Context (explicit_fits : EXPLICIT_INITIAL_INDEX_SIZE * BLOCK_SIZE <= 2 ^ 64).
Context (implicit_fits : IMPLICIT_INITIAL_INDEX_SIZE * BLOCK_SIZE <= 2 ^ 64).
Context (indexed : forall n, first_index n = true).
Implicit Types (m : Memory (T := T)) (d : producer) (xs : list T) (B rest : gset nat).

(** The producer has the elements [xs] and the blocks [B]; [rest] are the blocks
    of the others. *)
Definition held m rest d xs B : Prop :=
  exists h ring tb, B = list_to_set ring /\
    match d with
    | Explicit d => ExplicitSpec.rep malloc m rest d h xs ring tb
    | Implicit d => ImplicitSpec.rep malloc m rest d h xs ring tb
    end.

Lemma held_owns m rest d xs B :
  held m rest d xs B -> pool_ok malloc m (B ∪ rest) /\ B ## rest /\ initialBlockPoolSize m < 2 ^ 64 - 1.
Proof.
  intros (h & ring & tb & -> & R). assert (owns malloc m ring rest) as [Hp Ha Hs] by (destruct d; apply R).
  split; [done|]. split; [|done]. intros b Hb%elem_of_list_to_set. by apply Ha.
Qed.

Lemma held_frame m m' rest rest' d xs B :
  held m rest d xs B -> pool_ok malloc m' (B ∪ rest') -> B ## rest' -> initialBlockPoolSize m' = initialBlockPoolSize m ->
  (forall b, b ∈ B -> blocks m' !! b = blocks m !! b) -> held m' rest' d xs B.
Proof.
  intros Hd Hp Ha Hs He. destruct (held_owns _ _ _ _ _ Hd) as (_ & _ & Hsz). destruct Hd as (h & ring & tb & -> & R).
  exists h, ring, tb. split; [done|].
  assert (owns malloc m' ring rest') as Ho.
  { split; [done| |by rewrite Hs]. intros b Hb Hr. rewrite elem_of_disjoint in Ha. apply (Ha b); [by apply elem_of_list_to_set|done]. }
  assert (forall b, (b ∈ ring) -> blocks m' !! b = blocks m !! b) as He' by (intros b Hb; by apply He, elem_of_list_to_set).
  destruct d; [by eapply ring_rep_frame|by eapply rep_frame].
Qed.

(** ** All producers *)

(** The producers [ps] with the elements [cs] and the blocks [rings]. *)
Record all_held m (ps : gmap nat producer) (cs : gmap nat (list T)) (rings : gmap nat (gset nat)) : Prop := mkAllHeld {
  all_each : forall p d, ps !! p = Some d -> exists xs B, cs !! p = Some xs /\ rings !! p = Some B /\ held m (others p rings) d xs B;
  all_contents : forall p, is_Some (cs !! p) -> is_Some (ps !! p);
  all_rings : forall p, is_Some (rings !! p) -> is_Some (ps !! p);
  all_pool : pool_ok malloc m (blocks_of rings);
  all_size : 0 <= initialBlockPoolSize m < 2 ^ 64 - 1;
  all_bound : memory_bound malloc m
}.

(** What becomes of the producers other than [p] when [p] has been at work. *)
Lemma others_held m m' ps cs rings rings' p q d :
  all_held m ps cs rings -> keeps (others p rings) m m' -> pool_ok malloc m' (blocks_of rings') ->
  delete p rings' = delete p rings -> (forall B, rings' !! p = Some B -> B ## others p rings) ->
  q <> p -> ps !! q = Some d -> exists xs B, cs !! q = Some xs /\ rings' !! q = Some B /\ held m' (others q rings') d xs B.
Proof.
  intros Ha (Hs & _ & Hk) Hp Hd Hnew Hne Eq. destruct (all_each _ _ _ _ Ha _ _ Eq) as (xs & B & Ec & Er & Hh).
  assert (forall r, r <> p -> rings' !! r = rings !! r) as Hsame.
  { intros r Hr. rewrite <- (lookup_delete_ne rings' p), Hd, lookup_delete_ne by done. done. }
  assert (rings' !! q = Some B) as Er' by (by rewrite Hsame). exists xs, B. split; [done|]. split; [done|].
  destruct (held_owns _ _ _ _ _ Hh) as (_ & Hdis & _). apply (held_frame m _ (others q rings)); [done| | |done|].
  - by rewrite <- (blocks_of_split _ _ _ Er').
  - apply elem_of_disjoint. intros b Hb (r & C & Hr & E & HbC)%elem_of_others. destruct (decide (r = p)) as [->|Hrp].
    + apply (proj1 (elem_of_disjoint _ _) (Hnew C E) b HbC). apply elem_of_others. by exists q, B.
    + apply (proj1 (elem_of_disjoint _ _) Hdis b Hb). apply elem_of_others. exists r, C. by rewrite <- Hsame.
  - intros b Hb. apply Hk, elem_of_others. by exists q, B.
Qed.

Lemma kept_bounds m m' ps cs rings X :
  all_held m ps cs rings -> keeps X m m' -> 0 <= initialBlockPoolSize m' < 2 ^ 64 - 1 /\ memory_bound malloc m'.
Proof. intros Ha Hk. split; [destruct Hk as [-> _]; apply Ha|eapply bound_kept, Ha; done]. Qed.

Lemma all_change m m' ps cs rings p d' xs' B' :
  all_held m ps cs rings -> keeps (others p rings) m m' -> held m' (others p rings) d' xs' B' ->
  all_held m' (<[p := d']> ps) (<[p := xs']> cs) (<[p := B']> rings).
Proof.
  intros Ha Hk Hd. destruct (held_owns _ _ _ _ _ Hd) as (Hp & Hdis & _). destruct (kept_bounds _ _ _ _ _ _ Ha Hk) as [Hs Hb].
  assert (pool_ok malloc m' (blocks_of (<[p := B']> rings))) as Hp'.
  { by rewrite (blocks_of_split _ p B'), others_insert by apply lookup_insert_eq. }
  assert (forall {A} (X : gmap nat A) x, (forall r, is_Some (X !! r) -> is_Some (ps !! r)) ->
    forall r, is_Some (<[p := x]> X !! r) -> is_Some (<[p := d']> ps !! r)) as Hdom.
  { intros A X x HX r. destruct (decide (p = r)) as [<-|Hne]; rewrite ?lookup_insert_eq, ?lookup_insert_ne by done; [by eauto|apply HX]. }
  split; [|by apply Hdom, Ha|by apply Hdom, Ha|done..]. intros q e Eq. destruct (decide (q = p)) as [->|Hne].
  - rewrite lookup_insert_eq in Eq. injection Eq as <-. exists xs', B'. by rewrite !lookup_insert_eq, others_insert.
  - rewrite lookup_insert_ne in Eq by done. rewrite (lookup_insert_ne cs) by done.
    eapply others_held; [exact Ha|exact Hk|done|apply delete_insert_eq| |done|done].
    intros B E. rewrite lookup_insert_eq in E. by injection E as <-.
Qed.

Lemma all_delete m m' ps cs rings p :
  all_held m ps cs rings -> keeps (others p rings) m m' -> pool_ok malloc m' (others p rings) ->
  all_held m' (delete p ps) (delete p cs) (delete p rings).
Proof.
  intros Ha Hk Hp. destruct (kept_bounds _ _ _ _ _ _ Ha Hk) as [Hs Hb].
  assert (forall {A} (X : gmap nat A), (forall r, is_Some (X !! r) -> is_Some (ps !! r)) ->
    forall r, is_Some (delete p X !! r) -> is_Some (delete p ps !! r)) as Hdom.
  { intros A X HX r. destruct (decide (p = r)) as [<-|Hne]; rewrite ?lookup_delete_eq, ?lookup_delete_ne by done; [done|apply HX]. }
  split; [|by apply Hdom, Ha|by apply Hdom, Ha|done..]. intros q e [Hne Eq]%lookup_delete_Some.
  rewrite (lookup_delete_ne cs) by done.
  eapply others_held; [exact Ha|exact Hk|done|apply delete_delete_eq| |done|done].
  intros B E. by rewrite lookup_delete_eq in E.
Qed.

(** Memory is allocated for something else. *)
Lemma all_malloc m ps cs rings : all_held m ps cs rings -> all_held (set_mallocs (S (mallocs m)) m) ps cs rings.
Proof.
  intros Ha. split; try apply Ha; [|by apply pool_ok_malloc, Ha]. intros p d Ep.
  destruct (all_each _ _ _ _ Ha _ _ Ep) as (xs & B & Ec & Er & Hd). exists xs, B. do 2 (split; [done|]).
  destruct (held_owns _ _ _ _ _ Hd) as (Hp & Hdis & _). eapply held_frame; [exact Hd|by apply pool_ok_malloc|done..].
Qed.

(** ** The state *)

Definition holds (s : t) (cs : gmap nat (list T)) : Prop :=
  (exists rings, all_held (memory s) (producers s) cs rings) /\ (forall p, is_Some (producers s !! p) -> (p < next_address s)%nat) /\
  native_memory (initialBlockPoolSize (memory s)) (memory s).

(** What one producer promises of an operation: an answer, and a list of elements
    afterwards if any. *)
Definition promised {A} (work : M (Memory * producer) A) xs (P : A -> option (list T) -> Prop) : Prop :=
  forall m rest d B, held m rest d xs B -> exists a m' d' o, work (m, d) = Some (a, (m', d')) /\ keeps rest m m' /\ P a o /\
    forall ys, o = Some ys -> exists B', held m' rest d' ys B'.

Lemma store_lookup s cs p xs :
  holds s cs -> cs !! p = Some xs -> exists d B rings, all_held (memory s) (producers s) cs rings /\
    producers s !! p = Some d /\ rings !! p = Some B /\ held (memory s) (others p rings) d xs B.
Proof.
  intros [[rings Ha] _] Ec. destruct (all_contents _ _ _ _ Ha p ltac:(by rewrite Ec)) as [d Ep].
  destruct (all_each _ _ _ _ Ha _ _ Ep) as (xs' & B & Ec' & Er & Hd). exists d, B, rings. rewrite Ec in Ec'. by injection Ec' as <-.
Qed.

(** An operation that leaves every block with its origin. *)
Definition careful {A} (work : M (Memory * producer) A) : Prop := forall n, safe (fun s : Memory (T := T) * producer => native_memory n s.1) work anything.

Lemma careful_by_kind {A} (explicit : M (Memory * ExplicitProducer.t) A) (implicit : M (Memory * ImplicitProducer.t) A) :
  (forall n, safe (origins n) explicit anything) -> (forall n, safe (origins n) implicit anything) -> careful (by_kind explicit implicit).
Proof.
  intros He Hi n [m [d|d]] a [m' d'] Hm E; unfold by_kind in E.
  - destruct (explicit (m, d)) as [[x [m1 d1]]|] eqn:E1; [|done]. injection E as <- <- <-. by apply (He n (m, d) x (m1, d1)).
  - destruct (implicit (m, d)) as [[x [m1 d1]]|] eqn:E1; [|done]. injection E as <- <- <-. by apply (Hi n (m, d) x (m1, d1)).
Qed.

Lemma safe_returns {S A} (P : S -> Prop) (c : M S (outcome A)) : safe P c anything -> safe P (returns c) anything.
Proof. intros Hc. unfold returns. eapply safe_bind; [exact Hc|]. intros [a|] _; [by apply safe_ret|apply safe_undefined]. Qed.

Lemma careful_kept {A} (work : M (Memory * producer) A) m d a m' d' X :
  careful work -> work (m, d) = Some (a, (m', d')) -> keeps X m m' ->
  native_memory (initialBlockPoolSize m) m -> native_memory (initialBlockPoolSize m') m'.
Proof. intros Hw E [Es _] Hm. rewrite Es. by apply (Hw _ (m, d) a (m', d') Hm E). Qed.

Lemma on_producer_spec {A} (work : M (Memory * producer) A) xs (P : A -> option (list T) -> Prop) p s cs :
  promised work xs P -> careful work -> holds s cs -> cs !! p = Some xs ->
  exists a s' o, on_producer p work s = Some (a, s') /\ P a o /\ forall ys, o = Some ys -> holds s' (<[p := ys]> cs).
Proof.
  intros Hw Hcare Hs Ec. destruct (store_lookup _ _ _ _ Hs Ec) as (d & B & rings & Ha & Ep & Er & Hd).
  destruct (Hw _ _ _ _ Hd) as (a & m' & d' & o & E & Hk & HP & Ho). exists a. eexists. exists o.
  split; [unfold on_producer; by rewrite Ep, E|]. split; [done|]. intros ys Eo. destruct (Ho ys Eo) as [B' Hd'].
  destruct Hs as (_ & Hn & Hnat). split; [|split].
  - exists (<[p := B']> rings). by eapply all_change.
  - cbn. intros q Hq. apply Hn. destruct (decide (p = q)) as [<-|Hne]; [by rewrite Ep|]. by rewrite lookup_insert_ne in Hq.
  - by eapply careful_kept.
Qed.

(** ** The laws *)

Lemma returns_some {S A} (m : M S (outcome A)) s a s' : m s = Some (Returned a, s') -> returns m s = Some (a, s').
Proof. intros E. unfold returns. by rewrite (bind_some _ _ _ _ _ E). Qed.

Lemma rep_held_explicit m rest (d : ExplicitProducer.t) h xs ring tb :
  ExplicitSpec.rep malloc m rest d h xs ring tb -> exists B, held m rest (Explicit d) xs B.
Proof. intros R. by exists (list_to_set ring), h, ring, tb. Qed.
Lemma rep_held_implicit m rest (d : ImplicitProducer.t) h xs ring tb :
  ImplicitSpec.rep malloc m rest d h xs ring tb -> exists B, held m rest (Implicit d) xs B.
Proof. intros R. by exists (list_to_set ring), h, ring, tb. Qed.

Lemma enqueue_promised mode x xs :
  promised (by_kind (returns (ExplicitProducer.enqueue malloc raw_flags true (fun _ => false) mode x))
      (returns (ImplicitProducer.enqueue malloc raw_flags true (fun _ => false) raw_value mode x))) xs
    (fun b o => o = Some (if b then xs ++ [x] else xs)).
Proof.
  intros m rest [d|d] B (h & ring & tb & -> & R).
  - destruct (enqueue_spec checked fits malloc raw_flags true (fun _ => false) mode _ _ _ _ _ _ _ x R eq_refl)
      as (ok & m' & d' & E & Hk & R'). exists ok, m', (Explicit d'). eexists. unfold by_kind. rewrite (returns_some _ _ _ _ E).
    do 3 (split; [done|]). intros ys [= <-]. destruct ok; [destruct R' as (? & ? & R')|destruct R' as [R' _]]; by eapply rep_held_explicit.
  - destruct (implicit_enqueue checked fits malloc raw_flags raw_value true (fun _ => false) mode _ _ _ _ _ _ _ x R)
      as ([ok|] & m' & d' & E & Hk & R'); [|by destruct R']. exists ok, m', (Implicit d'). eexists. unfold by_kind. rewrite (returns_some _ _ _ _ E).
    do 3 (split; [done|]). intros ys [= <-]. destruct ok; [destruct R' as (_ & ? & ? & R')|destruct R' as [R' _]]; by eapply rep_held_implicit.
Qed.

Lemma enqueue_careful mode x :
  careful (by_kind (returns (ExplicitProducer.enqueue malloc raw_flags true (fun _ : T => false) mode x))
      (returns (ImplicitProducer.enqueue malloc raw_flags true (fun _ : T => false) raw_value mode x))).
Proof. apply careful_by_kind; intros n; apply safe_returns; [apply explicit_keeps_enqueue|apply implicit_keeps_enqueue]. Qed.

Lemma enqueue_bulk_careful mode ys :
  careful (by_kind (returns (ExplicitProducer.enqueue_bulk malloc raw_flags true (fun _ : T => false) mode ys))
      (returns (ImplicitProducer.enqueue_bulk malloc raw_flags true (fun _ : T => false) raw_value mode ys))).
Proof. apply careful_by_kind; intros n; apply safe_returns; [apply explicit_keeps_enqueue_bulk|apply implicit_keeps_enqueue_bulk]. Qed.

Lemma dequeue_careful : careful (by_kind ExplicitProducer.dequeue ImplicitProducer.dequeue).
Proof. apply careful_by_kind; intros n; [apply explicit_keeps_dequeue|apply implicit_keeps_dequeue]. Qed.

Lemma dequeue_bulk_careful max : careful (by_kind (ExplicitProducer.dequeue_bulk max) (ImplicitProducer.dequeue_bulk max)).
Proof. apply careful_by_kind; intros n; [apply explicit_keeps_dequeue_bulk|apply implicit_keeps_dequeue_bulk]. Qed.

Lemma none_throws ys : Forall (fun y : T => throws true (fun _ => false) y = false) ys.
Proof. by apply Forall_true. Qed.

Lemma enqueue_bulk_promised mode ys xs :
  Z.of_nat (length ys) <= 2 ^ 63 ->
  promised (by_kind (returns (ExplicitProducer.enqueue_bulk malloc raw_flags true (fun _ => false) mode ys))
      (returns (ImplicitProducer.enqueue_bulk malloc raw_flags true (fun _ => false) raw_value mode ys))) xs
    (fun b o => b = true -> o = Some (xs ++ ys)).
Proof.
  intros Hn m rest [d|d] B (h & ring & tb & -> & R).
  - destruct (explicit_enqueue_bulk checked fits malloc raw_flags true (fun _ => false) mode _ _ _ _ _ _ _ ys R Hn (none_throws ys))
      as (ok & m' & d' & E & Hk & R'). exists ok, m', (Explicit d'), (if ok then Some (xs ++ ys) else None).
    unfold by_kind. rewrite (returns_some _ _ _ _ E). do 2 (split; [done|]). destruct ok; [|done]. split; [done|].
    intros zs [= <-]. destruct R' as (? & ? & R'). by eapply rep_held_explicit.
  - destruct (implicit_enqueue_bulk checked fits malloc raw_flags raw_value true (fun _ => false) mode _ _ _ _ _ _ _ ys R Hn)
      as ([ok|] & m' & d' & E & Hk & R'); [|by destruct R' as [(? & _ & ?) _]]. exists ok, m', (Implicit d'), (if ok then Some (xs ++ ys) else None).
    unfold by_kind. rewrite (returns_some _ _ _ _ E). do 2 (split; [done|]). destruct ok; [|done]. split; [done|].
    intros zs [= <-]. destruct R' as (_ & ? & ? & R'). by eapply rep_held_implicit.
Qed.

Lemma dequeue_promised xs :
  promised (by_kind ExplicitProducer.dequeue ImplicitProducer.dequeue) xs (fun r o => r = head xs /\ o = Some (tail xs)).
Proof.
  intros m rest [d|d] B (h & ring & tb & -> & R).
  - pose proof (dequeue_spec checked fits malloc _ _ _ _ _ _ _ R) as E. unfold by_kind. destruct xs as [|x xs].
    + exists None, m, (Explicit d), (Some []). rewrite E. do 3 (split; [done|]). intros ys [= <-]. by eapply rep_held_explicit.
    + destruct E as (m' & d' & E & Hk & R'). exists (Some x), m', (Explicit d'), (Some xs). rewrite E. do 3 (split; [done|]).
      intros ys [= <-]. by eapply rep_held_explicit.
  - pose proof (implicit_dequeue checked fits malloc raw_flags _ _ _ _ _ _ _ R) as E. unfold by_kind. destruct xs as [|x xs].
    + exists None, m, (Implicit d), (Some []). rewrite E. do 3 (split; [done|]). intros ys [= <-]. by eapply rep_held_implicit.
    + destruct E as (m' & d' & ? & E & Hk & R'). exists (Some x), m', (Implicit d'), (Some xs). rewrite E. do 3 (split; [done|]).
      intros ys [= <-]. by eapply rep_held_implicit.
Qed.

Lemma dequeue_bulk_promised max xs :
  0 <= max -> let n := Z.to_nat max in
  promised (by_kind (ExplicitProducer.dequeue_bulk max) (ImplicitProducer.dequeue_bulk max)) xs
    (fun r o => r = firstn n xs /\ o = Some (drop n xs)).
Proof.
  intros Hmax n m rest [d|d] B (h & ring & tb & -> & R).
  - destruct (explicit_dequeue_bulk checked fits malloc _ _ _ _ _ _ _ max R Hmax) as (m' & d' & E & Hk & R').
    unfold by_kind. rewrite E. do 4 eexists. do 3 (split; [done|]). intros ys [= <-]. by eapply rep_held_explicit.
  - destruct (implicit_dequeue_bulk checked fits malloc raw_flags _ _ _ _ _ _ _ max R Hmax) as (m' & d' & ? & E & Hk & R').
    unfold by_kind. rewrite E. do 4 eexists. do 3 (split; [done|]). intros ys [= <-]. by eapply rep_held_implicit.
Qed.

Lemma held_size m rest d xs B :
  held m rest d xs B -> (let '(tail, head) := indices d in
    if circular_less_than 64 head tail then u64 (tail - head) else 0) = Z.of_nat (length xs).
Proof.
  intros (h & ring & tb & -> & R).
  assert (indices d = (u64 (h + Z.of_nat (length xs)), u64 h) /\ Z.of_nat (length xs) < 2 ^ 63) as [-> Hn].
  { destruct d as [d|d]; cbn [indices].
    - rewrite (ExplicitSpec.rep_tail _ _ _ _ _ _ _ _ R), (ExplicitSpec.rep_head _ _ _ _ _ _ _ _ R). split; [done|].
      by apply (ring_rep_small checked fits malloc _ _ _ _ _ _ _ R).
    - rewrite (ImplicitSpec.rep_tail _ _ _ _ _ _ _ _ R), (ImplicitSpec.rep_head _ _ _ _ _ _ _ _ R). split; [done|].
      pose proof (ImplicitSpec.rep_range _ _ _ _ _ _ _ _ R). pose proof (rep_near _ _ _ _ _ _ _ _ R). lia. }
  rewrite less_near by lia. destruct (Z.ltb_spec h (h + Z.of_nat (length xs))); [|lia].
  rewrite wrap_sub_l, wrap_sub_r, wrap_small; [lia|]. unfold in_width. lia.
Qed.

Lemma malloc_spec s cs :
  holds s cs -> exists s', on_memory (try_malloc malloc) s = Some (malloc (mallocs (memory s)), s') /\ holds s' cs.
Proof.
  intros ([rings Ha] & Hn & Hnat). eexists. split; [reflexivity|]. split; [exists rings; by apply all_malloc|]. split; [done|].
  by apply (origin_blocks _ (memory s)).
Qed.

Lemma construct_explicit m rest :
  0 <= initialBlockPoolSize m -> owns malloc m [] rest -> memory_bound malloc m ->
  exists (d : ExplicitProducer.t) m' B, ExplicitProducer.construct malloc m = Some (d, m') /\ keeps rest m m' /\ held m' rest (Explicit d) [] B.
Proof.
  intros Hs Ho Hb. destruct (construct_rep checked fits malloc explicit_fits m rest Hs Ho Hb) as (d & m' & E & Hk & R).
  destruct (rep_held_explicit _ _ _ _ _ _ _ R) as [B Hd]. by exists d, m', B.
Qed.

Lemma construct_implicit m rest :
  owns malloc m [] rest ->
  exists (d : ImplicitProducer.t) m' B, ImplicitProducer.construct first_index raw_value m = Some (d, m') /\ keeps rest m m' /\ held m' rest (Implicit d) [] B.
Proof.
  intros Ho. exists (constructed_producer raw_value), (set_mallocs (S (mallocs m)) m), ∅.
  rewrite (construct_some checked fits) by done. rewrite indexed. split; [done|]. split; [apply keeps_malloc|].
  exists 0, [], (- BLOCK_SIZE). split; [done|]. by apply (constructed_rep checked fits), own_malloc.
Qed.

Lemma store_create e s cs :
  holds s cs -> exists r s', create e s = Some (r, s') /\
    match r with None => holds s' cs | Some p => cs !! p = None /\ holds s' (<[p := []]> cs) end.
Proof.
  intros Hs. destruct (malloc_spec s cs Hs) as (s1 & E & Hs1). unfold create. rewrite (bind_some _ _ _ _ _ E).
  destruct (malloc _); [|by exists None, s1]. destruct Hs1 as ([rings Ha] & Hn & Hnat).
  assert (owns malloc (memory s1) [] (blocks_of rings)) as Ho by (apply own_nothing; apply Ha).
  assert (exists d m' B, (if e then d ← ExplicitProducer.construct malloc; mret (Explicit d)
      else d ← ImplicitProducer.construct first_index raw_value; mret (Implicit d)) (memory s1) = Some (d, m') /\
    keeps (blocks_of rings) (memory s1) m' /\ held m' (blocks_of rings) d [] B /\ native_memory (initialBlockPoolSize (memory s1)) m')
    as (d & m' & B & Ec & Hk & Hd & Hnat').
  { destruct e.
    - destruct (construct_explicit _ _ (proj1 (all_size _ _ _ _ Ha)) Ho (all_bound _ _ _ _ Ha)) as (d & m' & B & Ec & H).
      exists (Explicit d), m', B. rewrite (bind_some _ _ _ _ _ Ec). split; [done|]. split; [apply H|]. split; [apply H|].
      by apply (explicit_keeps_construct _ malloc (memory s1) d m').
    - destruct (construct_implicit _ _ Ho) as (d & m' & B & Ec & H).
      exists (Implicit d), m', B. rewrite (bind_some _ _ _ _ _ Ec). split; [done|]. split; [apply H|]. split; [apply H|].
      by apply (implicit_keeps_construct _ first_index raw_value (memory s1) d m'). }
  set (p := next_address s1). assert (producers s1 !! p = None) as Ep.
  { apply eq_None_not_Some. intros Hp%Hn. unfold p in Hp. lia. }
  assert (cs !! p = None) as Ecs by (apply eq_None_not_Some; intros [? E']%(all_contents _ _ _ _ Ha); congruence).
  assert (rings !! p = None) as Er by (apply eq_None_not_Some; intros [? E']%(all_rings _ _ _ _ Ha); congruence).
  assert (others p rings = blocks_of rings) as Eo by (by rewrite delete_id).
  rewrite <- Eo in Hk, Hd. eexists (Some p), _. split.
  { erewrite bind_some by (unfold on_memory; rewrite Ec; reflexivity). reflexivity. }
  split; [done|]. split; [exists (<[p := B]> rings); by eapply all_change|]. split; [|cbn; by rewrite (proj1 Hk)].
  cbn. intros q Hq. destruct (decide (p = q)) as [<-|Hne]; [unfold p; lia|]. rewrite lookup_insert_ne in Hq by done. specialize (Hn q Hq). lia.
Qed.

Lemma store_destructor m rest d xs B :
  held m rest d xs B -> exists m' ids, by_kind (ExplicitProducer.destructor (base.size (blocks m))) ImplicitProducer.destructor (m, d) =
    Some ((xs, ids), (m', d)) /\ keeps rest m m' /\ pool_ok malloc m' rest.
Proof.
  intros (h & ring & tb & -> & R). destruct d as [d|d]; unfold by_kind.
  - pose proof (ExplicitSpec.rep_blocks _ _ _ _ _ _ _ _ R) as Hb.
    assert (length ring <= base.size (blocks m))%nat as Hl.
    { eapply blocks_counted; [apply Hb|eapply hold_nodup, Hb]. }
    destruct (explicit_destructor checked fits malloc raw_flags m rest d h xs ring tb _ R Hl) as (m' & -> & Hk & Ho).
    do 2 eexists. split; [done|]. split; [done|]. pose proof (own_pool _ _ _ _ Ho) as Hp. by rewrite list_to_set_nil, (left_id_L ∅ (∪)) in Hp.
  - destruct (implicit_destructor checked fits malloc raw_flags m rest d h xs ring tb R) as (m' & -> & Hk & Ho).
    do 2 eexists. split; [done|]. split; [done|]. pose proof (own_pool _ _ _ _ Ho) as Hp. by rewrite list_to_set_nil, (left_id_L ∅ (∪)) in Hp.
Qed.

Lemma destroy_spec p s cs xs :
  holds s cs -> cs !! p = Some xs -> exists s', destroy p s = Some (xs, s') /\ holds s' (delete p cs).
Proof.
  intros Hs Ec. destruct (store_lookup _ _ _ _ Hs Ec) as (d & B & rings & Ha & Ep & Er & Hd).
  destruct (store_destructor _ _ _ _ _ Hd) as (m' & ids & E & Hk & Hp). eexists.
  split; [unfold destroy, on_producer; by rewrite Ep, E|]. destruct Hs as (_ & Hn & Hnat). split; [|split]; cbn.
  - exists (delete p rings). rewrite delete_insert_eq. by eapply all_delete.
  - intros q. rewrite delete_insert_eq. intros [x [_ Hq]%lookup_delete_Some]. apply Hn. by rewrite Hq.
  - eapply careful_kept; [|exact E|exact Hk|done]. apply careful_by_kind; intros n; [apply explicit_keeps_destructor|apply implicit_keeps_destructor].
Qed.

(** The producers of a queue in its memory keep the laws of sub-queues. *)
#[export] Program Instance store_laws : SubQueuesLaws t T := {| sub_holds := holds |}.
Next Obligation. intros e s cs. apply store_create. Qed.
Next Obligation.
  intros p s cs xs Hs Ec. destruct (store_lookup _ _ _ _ Hs Ec) as (d & B & rings & _ & Ep & _ & Hd).
  cbn. unfold size_approx. rewrite Ep. by eapply held_size.
Qed.
Next Obligation.
  intros p mode x s cs xs Hs Ec. destruct (on_producer_spec _ xs _ p s cs (enqueue_promised mode x xs) (enqueue_careful mode x) Hs Ec) as (b & s' & o & E & -> & Ho).
  exists b, s'. split; [exact E|]. specialize (Ho _ eq_refl). destruct b; [done|]. by rewrite insert_id in Ho.
Qed.
Next Obligation.
  intros p mode ys s cs xs Hs Ec Hn.
  destruct (on_producer_spec _ xs _ p s cs (enqueue_bulk_promised mode ys xs Hn) (enqueue_bulk_careful mode ys) Hs Ec) as (b & s' & o & E & Hb & Ho).
  exists b, s'. split; [exact E|]. intros ->. by apply Ho, Hb.
Qed.
Next Obligation.
  intros p s cs xs Hs Ec. destruct (on_producer_spec _ xs _ p s cs (dequeue_promised xs) dequeue_careful Hs Ec) as (r & s' & o & E & [-> ->] & Ho).
  exists s'. split; [exact E|]. by apply Ho.
Qed.
Next Obligation.
  intros p max s cs xs Hs Ec Hmax.
  destruct (on_producer_spec _ xs _ p s cs (dequeue_bulk_promised max xs Hmax) (dequeue_bulk_careful max) Hs Ec) as (r & s' & o & E & [-> ->] & Ho).
  exists s'. split; [exact E|]. by apply Ho.
Qed.
Next Obligation. intros p s cs xs. apply destroy_spec. Qed.
Next Obligation. intros s cs Hs. destruct (malloc_spec s cs Hs) as (s' & E & Hs'). by exists (malloc (mallocs (memory s))), s'. Qed.

(** ** The queue *)

(** There is less memory than there are indices. *)
Definition enough_indices (blockCount : Z) : Prop :=
  forall n, (blockCount + Z.of_nat (granted malloc n)) * BLOCK_SIZE < 2 ^ 63.

Lemma construct_with_spec blockCount :
  0 <= blockCount -> enough_indices blockCount ->
  exists s, construct_with blockCount = Some (LockFreeQueue.construct s) /\ holds s ∅.
Proof.
  intros Hc Hm. pose proof (BLOCK_SIZE_bounds checked fits) as HB. unfold construct_with.
  destruct (populate_ok malloc raw_flags (T := T) blockCount Hc) as (m & E & Hp & Hsz). rewrite E. eexists. split; [reflexivity|].
  split; [|split; [cbn; intros p; rewrite lookup_empty; by intros [? ?]|by eapply origin_populate]]. exists ∅. cbn.
  assert (blocks_of ∅ = ∅) as Eb by done.
  assert (0 <= initialBlockPoolSize m <= blockCount) as Hs by (rewrite Hsz; destruct (_ || _); lia).
  split; rewrite ?Eb; try done; try (intros p; rewrite !lookup_empty; by intros [? ?]).
  - specialize (Hm O). cbn in Hm. nia.
  - intros n. specialize (Hm n). nia.
Qed.

Definition sizes (a : arguments) : Prop :=
  match a with ForCapacity capacity => in_width 64 capacity | ForProducers _ _ _ => True end.

Lemma pool_blocks_range a : sizes a -> 0 <= pool_blocks a.
Proof.
  destruct a as [capacity|x y z]; cbn; [|intros _; apply wrap_range; lia].
  intros Hc. unfold LockFreeQueue.blocks_for. pose proof (BLOCK_SIZE_bounds checked fits). unfold in_width in Hc.
  pose proof (Z.div_pos capacity BLOCK_SIZE). destruct (_ =? 0); lia.
Qed.

(** A program over the queue. *)
Lemma run_in_memory a ops :
  in_width 64 INITIAL_IMPLICIT_PRODUCER_HASH_SIZE -> sizes a -> enough_indices (pool_blocks a) ->
  LockFreeSpec.legal_program ops (∅, ∅) = true -> Z.of_nat (length ops) <= 2 ^ 32 ->
  exists q rs s' y, construct a = Some q /\ LockFreeSpec.run ops (q, ∅) = Some (rs, s') /\
    LockFreeSpec.promises (LockFreeSpec.mkSpec ∅ ∅ ∅) ops rs y /\ forall x, y = Some x -> LockFreeSpec.good s' x.
Proof.
  intros Hw Hc Hm Hlegal Hn.
  destruct (construct_with_spec _ (pool_blocks_range _ Hc) Hm) as (s & E & Hs).
  destruct (LockFreeSpec.run_serves ops (LockFreeQueue.construct s, ∅) (LockFreeSpec.mkSpec ∅ ∅ ∅)) as (rs & s' & y & Er & Hp & Hg).
  - by apply (LockFreeSpec.good_construct).
  - done.
  - cbn [snd LockFreeSpec.of_token]. by rewrite !dom_empty_L.
  - by exists (LockFreeQueue.construct s), rs, s', y.
Qed.

(** ** The last blocks *)

Lemma destroy_free_list_spec n (l : list nat) : forall m,
  NoDup l -> (forall b, (b ∈ l) -> exists blk, blocks m !! b = Some blk /\ native n b blk) ->
  exists m', destroy_free_list l m = Some (tt, m') /\ initialBlockPoolSize m' = initialBlockPoolSize m /\
    forall b, blocks m' !! b = if decide ((b ∈ l) /\ n <= Z.of_nat b) then None else blocks m !! b.
Proof.
  induction l as [|b l IH]; intros m Hnd Hl; cbn [destroy_free_list].
  { exists m. split; [done|]. split; [done|]. intros b. rewrite decide_False; [done|]. by intros [?%elem_of_nil _]. }
  apply NoDup_cons in Hnd as [Hb Hnd]. destruct (Hl b ltac:(left)) as (blk & Eb & Hblk).
  rewrite (bind_some _ _ _ _ _ (load_block_some m b blk Eb)).
  set (m1 := if Block.dynamicallyAllocated blk then set_blocks (delete b (blocks m)) m else m).
  rewrite (bind_some _ _ _ tt m1) by (unfold m1, destroy_block; destruct (Block.dynamicallyAllocated blk); [by rewrite Eb|done]).
  assert (forall c, blocks m1 !! c = if decide (c = b /\ n <= Z.of_nat b) then None else blocks m !! c) as Hm1.
  { intros c. unfold m1. rewrite Hblk. destruct (Z.leb_spec n (Z.of_nat b)); cbn.
    - destruct (decide (c = b)) as [->|Hne]; [by rewrite lookup_delete_eq, decide_True|].
      rewrite lookup_delete_ne, decide_False by naive_solver. done.
    - by rewrite decide_False by (intros [_ ?]; lia). }
  destruct (IH m1 Hnd) as (m' & E & Es & Hm').
  { intros c Hc. rewrite Hm1, decide_False; [apply Hl; by right|]. by intros [-> _]. }
  exists m'. split; [done|]. split; [rewrite Es; unfold m1; by destruct (Block.dynamicallyAllocated blk)|].
  intros c. rewrite Hm', Hm1. destruct (decide (c = b)) as [->|Hne].
  - rewrite (decide_False (P := (b ∈ l) /\ _)) by naive_solver. apply decide_ext. split; [intros [_ ?]; split; [left|done]|naive_solver].
  - rewrite (decide_False (P := c = b /\ _)) by naive_solver. apply decide_ext. rewrite elem_of_cons. naive_solver.
Qed.

Lemma destroy_array_spec k : forall m,
  (forall b, (b < k)%nat -> is_Some (blocks m !! b)) ->
  exists m', destroy_array k m = Some (tt, m') /\ forall b, blocks m' !! b = if decide (b < k)%nat then None else blocks m !! b.
Proof.
  induction k as [|k IH]; intros m Hk; cbn [destroy_array].
  { exists m. split; [done|]. intros b. by rewrite decide_False by lia. }
  destruct (Hk k ltac:(lia)) as [blk Ek].
  rewrite (bind_some _ _ _ tt (set_blocks (delete k (blocks m)) m)) by (unfold destroy_block; by rewrite Ek).
  destruct (IH (set_blocks (delete k (blocks m)) m)) as (m' & E & Hm').
  { intros b Hb. cbn. rewrite lookup_delete_ne by lia. apply Hk. lia. }
  exists m'. split; [done|]. intros b. rewrite Hm'. cbn. destruct (decide (b = k)) as [->|Hne].
  - rewrite lookup_delete_eq. rewrite (decide_True (P := (k < S k)%nat)) by lia. by destruct (decide _).
  - rewrite lookup_delete_ne by done. apply decide_ext. lia.
Qed.

Lemma last_blocks_destroyed m :
  pool_ok malloc m ∅ -> native_memory (initialBlockPoolSize m) m -> exists m', destroy_blocks m = Some (tt, m') /\ blocks m' = ∅.
Proof.
  intros Hp Hn. pose proof (pool_all_back malloc m Hp) as [Hnd Hback]. set (n := initialBlockPoolSize m) in *. unfold destroy_blocks.
  rewrite (bind_some _ _ _ (freeList m) m) by done.
  destruct (destroy_free_list_spec n (freeList m) m Hnd) as (m1 & E1 & Es1 & Hm1).
  { intros b Hb. destruct (pool_free _ _ _ Hp b Hb) as (_ & blk & Eb & _). exists blk. split; [done|]. by apply (origin_native _ _ Hn). }
  rewrite (bind_some _ _ _ _ _ E1). rewrite (bind_some _ _ _ n m1) by (unfold gets, n; by rewrite Es1).
  destruct (destroy_array_spec (Z.to_nat n) m1) as (m' & E' & Hm').
  { intros b Hb. rewrite Hm1, decide_False by lia. apply (origin_pool _ _ Hn). lia. }
  exists m'. split; [done|]. apply map_empty. intros b. rewrite Hm'. case_decide; [done|]. rewrite Hm1. case_decide as Hd; [done|].
  destruct (blocks m !! b) as [blk|] eqn:Eb; [|done]. destruct (Hback b blk Eb) as [_ [Hin|Hin]]; [|fold n in Hin; lia].
  destruct Hd. split; [done|lia].
Qed.

Lemma destructor_frees q cs :
  LockFreeQueue.holds q cs ->
  exists k m, destructor q = Some (LockFreeQueue.contents (LockFreeQueue.the_list q) cs, k, m) /\ blocks m = ∅.
Proof.
  intros Hq. destruct (LockFreeQueue.destructor_spec q cs Hq) as (k & l & E & _ & Hs & _).
  change (holds (ProducerList.subs l) ∅) in Hs. destruct Hs as ([rings Ha] & _ & Hn).
  assert (producers (ProducerList.subs l) = ∅) as Eps.
  { apply map_empty. intros p. apply eq_None_not_Some. intros [d Ed].
    by destruct (all_each _ _ _ _ Ha _ _ Ed) as (? & ? & [=] & _). }
  assert (rings = ∅) as ->.
  { apply map_empty. intros p. apply eq_None_not_Some. intros Hr%(all_rings _ _ _ _ Ha). rewrite Eps, lookup_empty in Hr. by destruct Hr. }
  destruct (last_blocks_destroyed (memory (ProducerList.subs l)) (all_pool _ _ _ _ Ha) Hn) as (m & Em & Hm).
  exists k, m. unfold destructor. by rewrite E, Em.
Qed.


(** C7: nothing is lost, nothing comes out twice and nothing leaks: the destructor of a queue, after any legal program of
    at most 2^32 operations without a refused bulk enqueue, where [malloc] may fail at any call but for the first index
    of an implicit producer ([indexed]), destroys exactly the elements that were accepted and have not come out, and
    every block, of the pool or not, exactly once. There is less memory than there are 64-bit indices. *)
Theorem queue_destruction_frees_all a ops q rs s' :
  in_width 64 INITIAL_IMPLICIT_PRODUCER_HASH_SIZE -> sizes a -> enough_indices (pool_blocks a) ->
  LockFreeSpec.legal_program ops (∅, ∅) = true -> Z.of_nat (length ops) <= 2 ^ 32 ->
  construct a = Some q -> LockFreeSpec.run ops (q, ∅) = Some (rs, s') -> LockFreeSpec.BulkRefused ∉ rs ->
  exists left k m, destructor s'.1 = Some (left, k, m) /\ LockFreeSpec.all_put ops rs ≡ₚ LockFreeSpec.all_got rs ++ left /\ blocks m = ∅.
Proof.
  intros Hw Hc Hm Hlegal Hn Eq Er Hr. destruct (run_in_memory a ops Hw Hc Hm Hlegal Hn) as (q' & rs' & s1 & y & Eq' & Er' & Hp & Hg).
  rewrite Eq in Eq'. injection Eq' as <-. rewrite Er in Er'. injection Er' as <- <-.
  destruct (LockFreeSpec.promises_contents ops rs s' y Hp Hr Hg) as (cs & Hcs & Hel).
  destruct (destructor_frees _ _ Hcs) as (k & m & Ed & Hm'). by exists (LockFreeQueue.contents (LockFreeQueue.the_list s'.1) cs), k, m.
Qed.

End Sound.
End Store.
Arguments t : clear implicits.

(** ** Examples *)

(** The fifth call of [malloc] fails, and all from the thirtieth on. *)
Definition scarce (n : nat) : bool := (n <? 30)%nat && negb (n =? 4)%nat.
Definition raw (n : nat) : list bool := [true; true].
Abbreviation a_queue := (construct (tr := ProducerHash.two_slots) (T := nat) scarce raw (ForCapacity 12)).
Abbreviation run_store := (LockFreeSpec.run (tr := ProducerHash.two_slots)
  (H := store_queues (tr := ProducerHash.two_slots) (T := nat) scarce (fun _ => true) raw None)).
Abbreviation destroy_store := (destructor (tr := ProducerHash.two_slots) (T := nat) scarce (fun _ => true) raw None).

Lemma scarce_enough : enough_indices (tr := ProducerHash.two_slots) scarce (pool_blocks (tr := ProducerHash.two_slots) (ForCapacity 12)).
Proof.
  intros n. assert (granted scarce n <= 30)%nat as Hg by (apply granted_le; intros i [Hi%Nat.ltb_lt _]%andb_true_iff; done).
  replace (pool_blocks _) with 6 by (by vm_compute). cbn. lia.
Qed.


(** The market is closed early: the last element of a producer is destroyed. *)
Definition early : list (LockFreeSpec.op (T := nat)) := firstn 12 LockFreeSpec.market.
Definition early_replies : list (LockFreeSpec.reply (T := nat)) := firstn 12 LockFreeSpec.market_replies.

Lemma early_not_refused : LockFreeSpec.BulkRefused ∉ early_replies.
Proof. intros Hin%list_elem_of_In. unfold early_replies in Hin. cbn in Hin. by repeat (destruct Hin as [Hin|Hin]; [done|]). Qed.

Lemma early_run : exists q s', a_queue = Some q /\ run_store early (q, ∅) = Some (early_replies, s') /\
  fst ∘ fst <$> destroy_store s'.1 = Some [12%nat].
Proof.
  assert ((q ← a_queue; r ← run_store early (q, ∅); d ← destroy_store r.2.1; Some (r.1, d.1.1)) = Some (early_replies, [12%nat])) as Hall
    by (by vm_compute).
  apply bind_Some in Hall as (q & Eq & Hall). apply bind_Some in Hall as ([rs s'] & Er & Hall).
  apply bind_Some in Hall as (d & Ed & Hall). apply (inj Some), pair_equal_spec in Hall as [Hrs Hleft].
  exists q, s'. split; [exact Eq|]. split; [rewrite <- Hrs; exact Er|]. apply fmap_Some. exists d. split; [exact Ed|]. symmetry. exact Hleft.
Qed.

Lemma queue_destruction_frees_all_witness :
  exists q s' left k m, a_queue = Some q /\ run_store early (q, ∅) = Some (early_replies, s') /\ destroy_store s'.1 = Some (left, k, m) /\
    LockFreeSpec.all_put early early_replies ≡ₚ LockFreeSpec.all_got early_replies ++ left /\ blocks m = ∅ /\ left = [12%nat].
Proof.
  destruct early_run as (q & s' & Eq & Er & Hleft).
  destruct (queue_destruction_frees_all (tr := ProducerHash.two_slots) scarce (fun _ => true) raw None
    ltac:(by vm_compute) ltac:(by vm_compute) ltac:(by vm_compute) ltac:(by vm_compute) ltac:(done) (ForCapacity 12) early q early_replies s'
    ltac:(by vm_compute) ltac:(by vm_compute) scarce_enough ltac:(by vm_compute) ltac:(by vm_compute) Eq Er early_not_refused)
    as (left & k & m & Ed & Hp & Hm).
  exists q, s', left, k, m. split; [exact Eq|]. split; [exact Er|]. split; [exact Ed|]. split; [exact Hp|]. split; [exact Hm|].
  rewrite Ed in Hleft. cbn in Hleft. by injection Hleft.
Defined.

End QueueStore.
