(* ===== verification/BlockingStore.v ===== *)
(** * The blocking queue over the real lock-free queue
    (utils/blockingconcurrentqueue.h with utils/concurrentqueue.h)

    The lock-free queue with its tokens as the inner queue that
    [BlockingConcurrentQueue] asks for, first over any sub-queues and then in
    memory: what the threads of a blocking queue take out, and what its
    destructor still finds, are the elements they put in. *)
From S2P Require Import Prelude.
From S2P Require Import Semaphore.
From S2P Require Import QueueTraits.
From S2P Require Import BlockPool.
From S2P Require Import ProducerMemory.
From S2P Require Import ProducerHash.
From S2P Require Import ProducerList.
From S2P Require Import LockFreeQueue.
From S2P Require Import LockFreeSpec.
From S2P Require Import QueueStore.
From S2P Require Import BlockingQueue.
Import (hints) ProducerList.ProducerList.
#[local] Open Scope Z_scope.

Module BlockingStore.
Import LockFreeSpec.LockFreeSpec.

Section Inner.
Context {tr : Traits} {S T : Type} `{SubQueues S T}.
(** The queue that the constructor makes, and the numbers of tokens. *)
Context (start : Z -> option (LockFreeQueue.t S)) (producers consumers : nat).
Abbreviation State := (LockFreeQueue.t S * gmap nat LockFreeQueue.ConsumerToken)%type.

(** ** The operations *)

(** The tokens there are. *)
Definition live (s : State) : gset nat * gset nat :=
  (dom (ProducerList.ProducerList.tokens (LockFreeQueue.producing s.1)), dom s.2).
(** The class promises something for legal operations. *)
Definition perform (o : op (T := T)) (s : State) : option (reply (T := T) * State) :=
  match legal o (live s) with Some _ => exec o s | None => None end.
(** An operation that may make a producer; their number is 32 bits wide. *)
Definition perform_growing (o : op (T := T)) (s : State) : option (reply (T := T) * State) :=
  if Z.of_nat (length (LockFreeQueue.the_list s.1)) + 1 <? 2 ^ 32 then perform o s else None.

(** A thread is known by its id, and says which method it calls for one
    element: [enqueue] or [enqueue_bulk], [try_dequeue] or [try_dequeue_bulk]. *)
Abbreviation caller := (Z * bool)%type.
Definition mode_of (alloc : bool) : AllocationMode := if alloc then CanAlloc else CannotAlloc.
Definition enqueue_op (w : caller) (alloc : bool) (tok : option nat) (xs : list T) : op (T := T) :=
  match w.2, xs, tok with
  | false, [x], None => Enqueue (mode_of alloc) w.1 x
  | false, [x], Some a => EnqueueToken (mode_of alloc) a x
  | _, _, None => EnqueueBulk (mode_of alloc) w.1 xs
  | _, _, Some a => EnqueueBulkToken (mode_of alloc) a xs
  end.
Definition dequeue_op (w : caller) (tok : option nat) (max : Z) : op (T := T) :=
  match negb w.2 && (max =? 1), tok with
  | true, None => TryDequeue
  | true, Some c => TryDequeueConsumer c
  | false, None => TryDequeueBulk max
  | false, Some c => TryDequeueBulkConsumer c max
  end.

(** The tokens of a blocking queue are those of its inner queue. They are made
    before the threads start. *)
Definition ProducerToken (a : nat) : op (T := T) := Token (ProducerList.ProducerList.Construct a).
Definition ConsumerToken (c : nat) : op (T := T) := NewConsumer c.
Definition setup : list (op (T := T)) := (ProducerToken <$> seq 0 producers) ++ (ConsumerToken <$> seq 0 consumers).
Fixpoint performs (ops : list (op (T := T))) (s : State) : option State :=
  match ops with
  | [] => Some s
  | o :: ops => match perform_growing o s with Some (_, s) => performs ops s | None => None end
  end.

(** The elements of the queue, in some order. *)
Definition has_elements `{!SubQueuesLaws S T} (s : State) (xs : list T) : Prop :=
  exists x, good s x /\ xs ≡ₚ elements (subqueues x) /\ Z.of_nat (length (LockFreeQueue.the_list s.1)) < 2 ^ 32 /\
    forall c, (c < consumers)%nat -> c ∈ dom s.2.

Context `{!SubQueuesLaws S T} (sized : Z -> Prop).

#[export] Instance lock_free_queue : ConcurrentQueue State T nat caller := {
  contains := has_elements;
  consumer c := (c < consumers)%nat;
  capacity_ok := sized;
  cq_construct capacity := q ← start capacity; performs setup (q, ∅);
  cq_enqueue w alloc tok xs s :=
    match perform_growing (enqueue_op w alloc tok xs) s with Some (Enqueued ok, s) => Some (ok, s) | _ => None end;
  cq_try_dequeue w tok max s :=
    match perform (dequeue_op w tok max) s with Some (Got ys, s) => Some (ys, s) | _ => None end }.

(** ** What an operation does to the elements *)

Lemma live_good s x : good s x -> live s = (dom (of_token x), dom s.2).
Proof. intros (_ & E & _). unfold live. by rewrite E. Qed.

Lemma perform_good o s x r s' :
  good s x -> Z.of_nat (length (LockFreeQueue.the_list s.1)) < 2 ^ 32 -> perform o s = Some (r, s') ->
  (length (LockFreeQueue.the_list s'.1) <= Datatypes.S (length (LockFreeQueue.the_list s.1)))%nat /\
  (r = BulkRefused /\ is_bulk o = true \/ exists x', promised x o r x' /\ good s' x' /\ legal o (live s) = Some (live s')).
Proof.
  intros Hg Hn E. unfold perform in E. rewrite (live_good s x Hg) in *. destruct s as [q cs].
  destruct (legal o (dom (of_token x), dom (q, cs).2)) as [l|] eqn:El; [|done].
  destruct (exec_serves o q cs x l Hg Hn El) as (r' & s1 & E' & Hlen & Hr). rewrite E in E'. injection E' as <- <-.
  split; [done|]. destruct Hr as [[-> Hb]|(_ & x' & Hp & Hg' & Hl)]; [by left|]. right. exists x'. do 2 (split; [done|]).
  rewrite (live_good s' x' Hg'). rewrite El in *. done.
Qed.

Lemma perform_some o s x l :
  good s x -> Z.of_nat (length (LockFreeQueue.the_list s.1)) < 2 ^ 32 -> legal o (live s) = Some l ->
  exists r s', perform o s = Some (r, s').
Proof.
  intros Hg Hn El. unfold perform. rewrite El. rewrite (live_good s x Hg) in El. destruct s as [q cs].
  destruct (exec_serves o q cs x l Hg Hn El) as (r & s' & E & _). by exists r, s'.
Qed.

(** The list of producers is as long as there are producers. *)
Lemma good_list s x : good s x -> length (LockFreeQueue.the_list s.1) = size (subqueues x).
Proof.
  intros (Hi & _). pose proof (inv_list _ _ _ Hi) as Hl.
  rewrite <- (size_list_to_set (C := gset nat)) by (by eapply LockFreeQueue.holds_nodup).
  rewrite <- (size_dom (D := gset nat)). f_equal. apply set_eq. intros p.
  rewrite elem_of_list_to_set, elem_of_dom. apply (ProducerList.ProducerList.inv_contents _ _ Hl).
Qed.

Lemma served_size n (cs : gmap nat (list T)) ys cs' : LockFreeQueue.served n cs ys cs' -> size cs' = size cs.
Proof.
  intros (w & _ & Hw & _ & ->). rewrite <- !(size_dom (D := gset nat)). f_equal. apply set_eq. intros p.
  rewrite !elem_of_dom. apply drain_domain. intros r. apply Hw.
Qed.

Lemma promised_got (x : spec (T := T)) o ys x' n : promised x o (Got ys) x' -> wants o = Some n -> LockFreeQueue.served n (subqueues x) ys (subqueues x').
Proof.
  intros Hp Hw. inversion Hp as [| | | | | | |? m ? cs Ho Hs| | |]; subst; [|by destruct o..].
  rewrite Hw in Ho. by injection Ho as ->.
Qed.

Lemma promised_wants (x : spec (T := T)) o r x' n : promised x o r x' -> wants o = Some n -> exists ys, r = Got ys.
Proof. intros Hp Hw. destruct Hp as [| | | | | | |? m ys ? Ho| | |]; try done; first [by exists ys|by destruct o]. Qed.

Lemma served_bound n (cs : gmap nat (list T)) ys cs' : LockFreeQueue.served n cs ys cs' -> (length ys <= n)%nat.
Proof. intros (w & _ & _ & -> & _). rewrite length_take. lia. Qed.

Lemma served_some n (cs : gmap nat (list T)) cs' : (0 < n)%nat -> LockFreeQueue.served n cs [] cs' -> elements cs = [].
Proof.
  intros Hn (w & Hnd & Hw & E & _). pose proof (contents_elements w cs Hnd Hw) as P.
  destruct (LockFreeQueue.contents w cs); [by apply Permutation_nil|]. destruct n; [lia|done].
Qed.

Lemma enqueue_items w alloc tok xs :
  (forall r, put_by (enqueue_op w alloc tok xs) r = match r with Enqueued true => xs | _ => [] end) /\
  consumers_only (enqueue_op w alloc tok xs) = false /\ (forall o', enqueue_op w alloc tok xs <> Token o').
Proof.
  unfold enqueue_op. destruct w as [id []], xs as [|x [|y xs]], tok as [a|]; cbn; (split; [|done]);
    intros [|[]| | |]; cbn; by rewrite ?app_nil_r.
Qed.

Lemma dequeue_wants w tok max :
  0 < max -> wants (dequeue_op w tok max) = Some (Z.to_nat max) /\ consumers_only (dequeue_op w tok max) = false /\
  (forall r, put_by (dequeue_op w tok max) r = []) /\ (forall o', dequeue_op w tok max <> Token o') /\
  is_bulk (dequeue_op w tok max) = false.
Proof.
  intros Hmax. unfold dequeue_op. destruct w as [id []], tok as [c|]; cbn; try destruct (Z.eqb_spec max 1) as [->|]; cbn;
    (split; [done|split; [done|split; [|split; done]]]); by intros [|[]| | |].
Qed.

(** Tokens stay as they are. *)
Lemma same_live (o : op (T := T)) s s' :
  legal o (live s) = Some (live s') -> consumers_only o = false -> (forall o', o <> Token o') -> live s' = live s.
Proof. intros El Hc Ht. apply (legal_same o _ _ El). destruct o; try done. by destruct (Ht o). Qed.

Lemma perform_growing_good o s x r s' :
  good s x -> perform_growing o s = Some (r, s') ->
  Z.of_nat (length (LockFreeQueue.the_list s'.1)) < 2 ^ 32 /\
  (r = BulkRefused /\ is_bulk o = true \/ exists x', promised x o r x' /\ good s' x' /\ legal o (live s) = Some (live s')).
Proof.
  intros Hg E. unfold perform_growing in E.
  destruct (Z.ltb_spec (Z.of_nat (length (LockFreeQueue.the_list s.1)) + 1) (2 ^ 32)) as [Hn|]; [|done].
  destruct (perform_good o s x r s' Hg ltac:(lia) E) as [Hlen Hr]. split; [lia|done].
Qed.

Lemma enqueue_keeps w alloc tok ys s ok s' xs :
  has_elements s xs -> perform_growing (enqueue_op w alloc tok ys) s = Some (Enqueued ok, s') ->
  exists xs', has_elements s' xs' /\ xs' ≡ₚ xs ++ (if ok : bool then ys else []).
Proof.
  intros (x & Hg & Hxs & Hn & Hc) E. destruct (perform_growing_good _ _ _ _ _ Hg E) as (Hn' & [[Hr _]|(x' & Hp & Hg' & Hl)]); [done|].
  destruct (enqueue_items w alloc tok ys) as (Hput & Hco & Ht). pose proof (same_live _ _ _ Hl Hco Ht) as El.
  exists (elements (subqueues x')). split.
  - exists x'. do 3 (split; [done|]). intros c Hcc. apply (f_equal snd) in El. cbn in El. rewrite El. by apply Hc.
  - pose proof (promised_elements x _ _ x' Hp) as P. rewrite Hput in P. cbn [got_by app] in P. rewrite <- P, Hxs. by destruct ok.
Qed.

Lemma dequeue_keeps w tok max s ys s' xs :
  0 < max < 2 ^ 64 -> has_elements s xs -> perform (dequeue_op w tok max) s = Some (Got ys, s') ->
  exists xs', has_elements s' xs' /\ xs ≡ₚ ys ++ xs' /\ Z.of_nat (length ys) <= max.
Proof.
  intros Hmax (x & Hg & Hxs & Hn & Hc) E. destruct (perform_good _ _ _ _ _ Hg Hn E) as (_ & [[Hr _]|(x' & Hp & Hg' & Hl)]); [done|].
  destruct (dequeue_wants w tok max ltac:(lia)) as (Hw & Hco & Hput & Ht & _). pose proof (same_live _ _ _ Hl Hco Ht) as El.
  pose proof (promised_got _ _ _ _ _ Hp Hw) as Hs. exists (elements (subqueues x')). split; [|split].
  - exists x'. split; [done|]. split; [done|]. split.
    + rewrite (good_list s' x' Hg'), (served_size _ _ _ _ Hs), <- (good_list s x Hg). done.
    + intros c Hcc. apply (f_equal snd) in El. cbn in El. rewrite El. by apply Hc.
  - pose proof (promised_elements x _ _ x' Hp) as P. rewrite Hput, app_nil_r in P. by rewrite Hxs, P.
  - pose proof (served_bound _ _ _ _ Hs). lia.
Qed.

Lemma dequeue_legal w tok max s :
  0 < max < 2 ^ 64 -> from_option (fun c => c ∈ dom s.2) True tok -> legal (dequeue_op w tok max) (live s) = Some (live s).
Proof.
  intros Hmax Htok. assert ((0 <=? max) && (max <? 2 ^ 64) = true) as Hb by (apply andb_true_iff; split; [apply Z.leb_le|apply Z.ltb_lt]; lia).
  unfold dequeue_op. destruct (negb w.2 && (max =? 1)), tok as [c|]; cbn [legal live snd] in *; rewrite ?Hb; try done; by rewrite decide_True.
Qed.

Lemma dequeue_finds tok max s xs :
  0 < max < 2 ^ 64 -> from_option (fun c => (c < consumers)%nat) True tok -> has_elements s xs -> xs <> [] ->
  exists w ys s', perform (dequeue_op w tok max) s = Some (Got ys, s') /\ ys <> [].
Proof.
  intros Hmax Htok (x & Hg & Hxs & Hn & Hc) Hne. exists (0, false).
  assert (from_option (fun c => c ∈ dom s.2) True tok) as Hd by (destruct tok; [by apply Hc|done]).
  pose proof (dequeue_legal (0, false) tok max s Hmax Hd) as Hl.
  destruct (perform_some _ s x _ Hg Hn Hl) as (r & s' & E).
  destruct (dequeue_wants (0, false) tok max ltac:(lia)) as (Hw & _ & _ & _ & Hb).
  destruct (perform_good _ _ _ _ _ Hg Hn E) as (_ & [[_ Hb']|(x' & Hp & _)]); [by rewrite Hb in Hb'|].
  destruct (promised_wants _ _ _ _ _ Hp Hw) as [ys ->]. exists ys, s'. split; [done|]. intros ->.
  pose proof (promised_got _ _ _ _ _ Hp Hw) as Hs. apply Hne, Permutation_nil. symmetry. rewrite Hxs.
  rewrite (served_some (Z.to_nat max) _ (subqueues x')); [done|lia|done].
Qed.


(** ** Construction *)

Definition is_setup (o : op (T := T)) : bool :=
  match o with Token (ProducerList.ProducerList.Construct _) | NewConsumer _ => true | _ => false end.

Lemma setup_promised (x : spec (T := T)) o r x' :
  is_setup o = true -> promised x o r x' -> elements (subqueues x') ≡ₚ elements (subqueues x).
Proof.
  intros Ho Hp. pose proof (promised_elements x o r x' Hp) as P.
  assert (put_by o r = [] /\ got_by r = []) as [E1 E2].
  { destruct Hp; try done; by destruct o. }
  rewrite E1, E2, app_nil_r in P. by rewrite P.
Qed.

Lemma performs_setup ops : forall s x (l : list nat),
  forallb is_setup ops = true -> good s x -> elements (subqueues x) = [] ->
  Z.of_nat (length (LockFreeQueue.the_list s.1) + length ops) < 2 ^ 32 -> legal_program ops (live s) = true ->
  (forall c, c ∈ l -> c ∈ dom s.2) ->
  exists s' x', performs ops s = Some s' /\ good s' x' /\ elements (subqueues x') = [] /\
    Z.of_nat (length (LockFreeQueue.the_list s'.1)) < 2 ^ 32 /\
    forall c, c ∈ l \/ NewConsumer c ∈ ops -> c ∈ dom s'.2.
Proof.
  induction ops as [|o ops IH]; intros s x l Hs Hg He Hn Hl Hc; cbn [performs forallb legal_program length] in *.
  - exists s, x. repeat (split; [done || lia|]). intros c [H'|H']; [by apply Hc|by apply elem_of_nil in H'].
  - apply andb_true_iff in Hs as [Ho Hs]. destruct (legal o (live s)) as [lv|] eqn:El; [|done].
    unfold perform_growing. rewrite (proj2 (Z.ltb_lt _ _)) by lia.
    destruct (perform_some o s x lv Hg ltac:(lia) El) as (r & s1 & E). rewrite E.
    destruct (perform_good o s x r s1 Hg ltac:(lia) E) as [Hlen [[_ Hb]|(x1 & Hp & Hg1 & Hl1)]].
    { by destruct o as [[]| | | | | | | | | | | | | | |]. }
    rewrite El in Hl1. injection Hl1 as ->. pose proof (setup_promised _ _ _ _ Ho Hp) as P. rewrite He in P.
    assert (forall c, c ∈ l \/ o = NewConsumer c -> c ∈ dom s1.2) as Hc1.
    { intros c Hc'. unfold live in El. destruct o as [[a| | |]|c'| | | | | | | | | | | | | |]; try done; cbn [legal fst snd] in El.
      - destruct Hc' as [Hc'|]; [|done].
        apply fmap_Some in El as (ts' & _ & [= _ Ed]). rewrite Ed. by apply Hc.
      - injection El as _ Ed. rewrite <- Ed. destruct Hc' as [Hc'|[= ->]]; [apply elem_of_union_r; by apply Hc|].
        apply elem_of_union_l. by apply elem_of_singleton. }
    destruct (IH s1 x1 (l ++ match o with NewConsumer c => [c] | _ => [] end) Hs Hg1) as (s2 & x2 & E2 & Hg2 & He2 & Hn2 & Hc2);
      [by apply Permutation_nil; symmetry|lia|done| |].
    { intros c [Hin|Hin]%elem_of_app; apply Hc1; [by left|right]. destruct o; try (by apply elem_of_nil in Hin).
      by apply list_elem_of_singleton in Hin as ->. }
    exists s2, x2. repeat (split; [done|]). intros c [Hin|[<-|Hin]%elem_of_cons]; apply Hc2; [left|left|by right]; apply elem_of_app.
    + by left.
    + right. by left.
Qed.

Lemma setup_is_setup : forallb is_setup setup = true.
Proof.
  unfold setup. rewrite forallb_app, andb_true_iff, !forallb_forall. split; intros o Ho; apply list_elem_of_In, list_elem_of_fmap in Ho;
    by destruct Ho as (? & -> & _).
Qed.

Lemma consumers_legal (l : list nat) : forall lv, legal_program (ConsumerToken <$> l) lv = true.
Proof. induction l as [|c l IH]; intros lv; [done|]. by apply IH. Qed.

Lemma setup_legal : legal_program setup (∅, ∅) = true.
Proof.
  unfold setup. assert (forall n k (ts : gset nat) cs, (forall a, a ∈ ts -> (a < k)%nat) ->
    legal_program ((ProducerToken <$> seq k n) ++ (ConsumerToken <$> seq 0 consumers)) (ts, cs) = true) as H'.
  { intros n. induction n as [|n IH]; intros k ts cs Hk; cbn [seq fmap list_fmap app]; [apply consumers_legal|].
    cbn [legal_program legal ProducerToken ProducerList.ProducerList.alive fst snd]. rewrite decide_False by (intros Hin%Hk; lia). cbn. apply IH.
    intros a [->%elem_of_singleton|Hin%Hk]%elem_of_union; lia. }
  apply H'. by intros a ?%elem_of_empty.
Qed.

Context (few : Z.of_nat (producers + consumers) < 2 ^ 32).
Context (starts : forall n, sized n -> exists q, start n = Some q /\ good (q, ∅) (mkSpec ∅ ∅ ∅)).

Lemma constructs n : sized n -> exists s, cq_construct n = Some s /\ has_elements s [].
Proof.
  intros Hn. destruct (starts n Hn) as (q & E & Hg).
  destruct (performs_setup setup (q, ∅) (mkSpec ∅ ∅ ∅) [] setup_is_setup Hg) as (s & x & Es & Hg' & He & Hl & Hc).
  - done.
  - rewrite (good_list _ _ Hg). unfold setup. cbn [subqueues]. rewrite map_size_empty, length_app, !length_fmap, !length_seq. lia.
  - rewrite (live_good _ _ Hg). cbn [of_token snd]. rewrite !dom_empty_L. apply setup_legal.
  - by intros c ?%elem_of_nil.
  - exists s. split; [cbn; by rewrite E|]. exists x. split; [done|]. rewrite He. split; [done|]. split; [done|].
    intros c Hcc. apply Hc. right. unfold setup. apply elem_of_app. right. apply list_elem_of_fmap. exists c. split; [done|].
    apply elem_of_seq. lia.
Qed.

#[export] Instance lock_free_laws : ConcurrentQueueLaws State T nat caller.
Proof.
  split; cbn.
  - intros n s Hn E. destruct (constructs n Hn) as (s' & E' & He). cbn in E'. rewrite E in E'. by injection E' as <-.
  - intros w alloc tok ys s ok s' xs Hc E. destruct (perform_growing _ s) as [[[] s1]|] eqn:Ep; try done.
    injection E as -> ->. by eapply enqueue_keeps.
  - intros w tok max s ys s' xs Hmax Hc E. destruct (perform _ s) as [[[] s1]|] eqn:Ep; try done.
    injection E as -> ->. by eapply dequeue_keeps.
  - intros tok max s xs Hmax Htok Hc Hne. destruct (dequeue_finds tok max s xs Hmax Htok Hc Hne) as (w & ys & s' & E & Hys).
    exists w, ys, s'. by rewrite E.
Qed.

End Inner.

(** ** In memory *)

Section InMemory.
Context {tr : Traits} {T : Type}.
Context (malloc first_index : nat -> bool) (raw_flags : nat -> list bool) (raw_value : option nat).
Context (checked : static_asserts = true) (fits : BLOCK_SIZE <= 2 ^ 62).
Context (explicit_fits : EXPLICIT_INITIAL_INDEX_SIZE * BLOCK_SIZE <= 2 ^ 64).
Context (implicit_fits : IMPLICIT_INITIAL_INDEX_SIZE * BLOCK_SIZE <= 2 ^ 64).
Context (indexed : forall n, first_index n = true).
Context (hashed : in_width 64 INITIAL_IMPLICIT_PRODUCER_HASH_SIZE).
Context (producers consumers : nat) (few : Z.of_nat (producers + consumers) < 2 ^ 32).

#[local] Instance store : SubQueues (QueueStore.t T) T := QueueStore.store_queues malloc first_index raw_flags raw_value.
#[local] Instance store_laws : SubQueuesLaws (QueueStore.t T) T :=
  QueueStore.store_laws malloc first_index raw_flags raw_value checked fits explicit_fits implicit_fits indexed.

Definition start (capacity : Z) : option (LockFreeQueue.t (QueueStore.t T)) :=
  QueueStore.construct malloc raw_flags (QueueStore.ForCapacity capacity).
Definition there_is_memory (capacity : Z) : Prop :=
  in_width 64 capacity /\ QueueStore.enough_indices malloc (QueueStore.pool_blocks (QueueStore.ForCapacity capacity)).

Lemma start_good n : there_is_memory n -> exists q, start n = Some q /\ good (q, ∅) (mkSpec ∅ ∅ ∅).
Proof.
  intros [Hn Hm].
  destruct (QueueStore.construct_with_spec malloc raw_flags (T := T) checked fits _ (QueueStore.pool_blocks_range checked fits (QueueStore.ForCapacity n) Hn) Hm) as (s & E & Hs).
  exists (LockFreeQueue.construct s). split; [done|]. by apply good_construct.
Qed.

#[local] Instance inner_queue : ConcurrentQueue _ T nat (Z * bool) :=
  lock_free_queue start producers consumers there_is_memory.
#[local] Instance inner_laws : ConcurrentQueueLaws _ T nat (Z * bool) :=
  lock_free_laws start producers consumers there_is_memory few start_good.
Import BlockingConcurrentQueue.

(** The destructor of the blocking queue is that of its parts; the semaphore
    has no elements. *)
Abbreviation queue := (t (Q := LockFreeQueue.t (QueueStore.t T) * gmap nat LockFreeQueue.ConsumerToken) (T := T) (Tok := nat)).
Definition destructor (q : queue) : option (list T * nat * Memory (T := T)) :=
  QueueStore.destructor malloc first_index raw_flags raw_value (inner q).1.

Lemma left_over (q : queue) xs :
  contains (inner q) xs -> exists left k m, destructor q = Some (left, k, m) /\ xs ≡ₚ left /\ blocks m = ∅.
Proof.
  intros (x & Hg & Hxs & _). pose proof (inv_list _ _ _ (proj1 Hg)) as Hl.
  destruct (QueueStore.destructor_frees malloc first_index raw_flags raw_value checked fits explicit_fits implicit_fits indexed _ _ Hl)
    as (k & m & E & Hm).
  eexists _, k, m. split; [exact E|]. split; [|done]. rewrite Hxs. symmetry. apply contents_elements.
  - by eapply LockFreeQueue.holds_nodup.
  - apply (ProducerList.ProducerList.inv_contents _ _ Hl).
Qed.

(** C9: the blocking queue as it is built, with its semaphore, its lock-free
    queue, their producers and blocks, and a [malloc] that may fail except for
    the first block index of an implicit producer: however its threads
    interleave, with tokens or without, as long as no bulk enqueue is refused,
    the elements that were put in are those taken out and those that the
    destructor finds, which frees every block; a thread that has got its tokens
    from the semaphore finds an element, if no timed wait has met a deadline that
    [sem_timedwait] refuses; and when threads are blocked and no other is within
    an operation nothing is left. Fewer than 2^63 elements are put in, and the
    threads with the refused deadlines are fewer than 2^31. *)
Theorem blocking_queue_in_memory capacity n :
  there_is_memory capacity ->
  exists q0, construct true capacity n = Some q0 /\
  forall schedule (q : queue), Forall (fun s => api_choice s.2) schedule -> run schedule q0 = Some q ->
  Z.of_nat (length (put q)) < 2 ^ 63 -> Z.of_nat n + forged q < 2 ^ 31 ->
  (exists left k m, destructor q = Some (left, k, m) /\ put q ≡ₚ taken q ++ left /\ blocks m = ∅) /\
  (forall i tok o need got, forged q = 0 -> threads q !! i = Some (Taking tok o need got) -> need <> 0 ->
     exists w q' ys, ys <> [] /\ turn i (Inner w) q = Some q' /\
       threads q' !! i = Some (Taking tok o (need - Z.of_nat (length ys)) (got ++ ys))) /\
  (forall i tok o, threads q !! i = Some (Acquiring tok o (LightweightSemaphore.SemaWait o)) -> turn i (Sema LightweightSemaphore.Go) q = None ->
     Forall resting (threads q) -> taken q ≡ₚ put q).
Proof.
  intros Hm. destruct (constructs start producers consumers there_is_memory few start_good capacity Hm) as (s & Es & _).
  assert (construct true capacity n = Some (mk s (LightweightSemaphore.mkShared 0 0) (repeat Outside n) [] [] 0)) as E0.
  { unfold construct. change (cq_construct capacity) with (@cq_construct _ _ _ _ inner_queue capacity) in Es. by rewrite Es. }
  eexists. split; [exact E0|]. intros schedule q Hc Hr Hput Hf. pose proof (breachable_inv capacity n _ schedule q Hm E0 Hc Hr Hput Hf) as I.
  split; [|split].
  - destruct (elements_owed _ I) as (xs & Hxs & Hcons & _). destruct (left_over q xs Hxs) as (left & k & m & E & P & Hb).
    exists left, k, m. split; [done|]. split; [|done]. rewrite <- Hcons, P. apply Permutation_app_comm.
  - intros i tok o need got. by apply taking_goes_on.
  - intros i tok o Hi Hb Hrest. by destruct (blocked_empty q i tok o I Hi Hb Hrest) as (_ & ? & _).
Qed.

End InMemory.

(** ** An instance *)

(** Two threads, a producer token and a consumer token: thread 1 enqueues two
    elements in bulk and one with the token; thread 0 takes one with its token
    and tries to take two at once. *)
Import BlockingConcurrentQueue.
Definition small : Traits := ProducerHash.two_slots.
#[local] Existing Instance small.
Lemma small_checked : static_asserts = true.
Proof. by vm_compute. Qed.
Lemma small_fits : BLOCK_SIZE <= 2 ^ 62.
Proof. by vm_compute. Qed.
Lemma small_explicit : EXPLICIT_INITIAL_INDEX_SIZE * BLOCK_SIZE <= 2 ^ 64.
Proof. by vm_compute. Qed.
Lemma small_implicit : IMPLICIT_INITIAL_INDEX_SIZE * BLOCK_SIZE <= 2 ^ 64.
Proof. by vm_compute. Qed.
Lemma small_indexed : forall n : nat, (fun _ : nat => true) n = true.
Proof. done. Qed.
Lemma small_hash : in_width 64 INITIAL_IMPLICIT_PRODUCER_HASH_SIZE.
Proof. by vm_compute. Qed.

Definition some_memory (n : nat) : bool := (n <? 30)%nat.
Abbreviation small_queue := (inner_queue (T := nat) some_memory (fun _ => true) QueueStore.raw None
  small_checked small_fits small_explicit small_implicit small_indexed 1 1).
Definition steps (i : nat) (cs : list (choice (T := nat) (Tok := nat) (W := Z * bool))) := (fun c => (i, c)) <$> cs.
Definition traffic : list (nat * choice (T := nat) (Tok := nat) (W := Z * bool)) :=
  steps 1 [Start (enqueue_bulk None [7; 8]%nat); Inner (42, true); Sema LightweightSemaphore.Go; Return] ++
  steps 0 [Start (wait_dequeue_tok 0%nat); Sema LightweightSemaphore.Go; Sema LightweightSemaphore.Go] ++
  steps 1 [Start (enqueue (Some 0%nat) 9%nat); Inner (42, false)] ++
  steps 0 [Inner (0, false); Return; Return] ++
  steps 1 [Sema LightweightSemaphore.Go; Return].

Lemma traffic_api : Forall (fun s => api_choice (H := small_queue) s.2) traffic.
Proof. repeat (apply Forall_cons; split; [try done; constructor; cbn; lia|]). constructor. Qed.

Lemma memory_for_12 : there_is_memory some_memory 12.
Proof.
  split; [by vm_compute|]. intros n.
  assert (granted some_memory n <= 30)%nat as Hg by (apply granted_le; intros i Hi; by apply Nat.ltb_lt).
  replace (QueueStore.pool_blocks _) with 6 by (by vm_compute). cbn. lia.
Qed.

Lemma blocking_queue_in_memory_witness :
  exists q0 q, construct (H := small_queue) true 12 2 = Some q0 /\ run (H := small_queue) traffic q0 = Some q /\
    (exists left k m, destructor some_memory (fun _ => true) QueueStore.raw None q = Some (left, k, m) /\
       put q ≡ₚ taken q ++ left /\ blocks m = ∅) /\ taken q = [7]%nat.
Proof.
  destruct (blocking_queue_in_memory (T := nat) some_memory (fun _ => true) QueueStore.raw None small_checked small_fits
    small_explicit small_implicit small_indexed small_hash 1 1 ltac:(lia) 12 2 memory_for_12) as (q0 & E0 & H).
  assert ((q0 ← construct (H := small_queue) true 12 2; q ← run (H := small_queue) traffic q0; Some (taken q, length (put q), forged q)) = Some ([7]%nat, 3%nat, 0)) as E
    by (by vm_compute).
  rewrite E0 in E. cbn [mbind option_bind] in E. apply bind_Some in E as (q & Er & [= Et Ep Ef]).
  exists q0, q. split; [exact E0|]. split; [exact Er|]. split; [|exact Et]. apply (H traffic q traffic_api Er); [rewrite Ep; lia|rewrite Ef; lia].
Defined.
End BlockingStore.
