(* ===== verification/QueueMove.v ===== *)
(** * The move and the swap of lock-free queues (utils/concurrentqueue.h)

    Queues are objects in memory here, since they point to each other's parts:
    the hash tables of a queue are linked by their [prev] down to a first table
    that is a member of the queue, so a swap has to link each chain to the first
    table of its new owner; and every producer points to its queue. *)
From S2P Require Import Prelude.
From S2P Require Import QueueTraits.
From S2P Require Import BlockPool.
From S2P Require Import ProducerHash.
#[local] Open Scope Z_scope.

Module QueueMove.

(** ** Data *)

(** The address of a table: the member [initialImplicitProducerHash] of a queue,
    or memory from [malloc]; and that of an array of entries: the member
    [initialImplicitProducerHashEntries], or the memory behind a table. *)
Inductive table := Initial (q : nat) | Heap (n : nat).
Inductive array := Members (q : nat) | Behind (n : nat).
#[export] Instance table_eq_dec : EqDecision table.
Proof. solve_decision. Defined.
Record ImplicitProducerHash := mkHash { capacity : Z; entries : array; prev : option table }.
Definition set_prev v h := mkHash (capacity h) (entries h) v.

(** The members of a queue that are swapped one by one. *)
Record movable := mkMovable {
  producerListTail : option nat;
  producerCount : Z;
  initialBlockPoolIndex : Z;
  initialBlockPool : option nat;
  initialBlockPoolSize : Z;
  freeListHead : option nat;
  nextExplicitConsumerId : Z;
  globalExplicitConsumerOffset : Z
}.
Record object := mkObject {
  members : movable;
  implicitProducerHash : option table;
  implicitProducerHashCount : Z;
  initialImplicitProducerHash : ImplicitProducerHash;
  initialImplicitProducerHashEntries : list ProducerHash.ImplicitProducerKVP;
  implicitProducerHashResizeInProgress : bool
}.
Definition set_members v o := mkObject v (implicitProducerHash o) (implicitProducerHashCount o)
  (initialImplicitProducerHash o) (initialImplicitProducerHashEntries o) (implicitProducerHashResizeInProgress o).
Definition set_hash v o := mkObject (members o) v (implicitProducerHashCount o)
  (initialImplicitProducerHash o) (initialImplicitProducerHashEntries o) (implicitProducerHashResizeInProgress o).
Definition set_hash_count v o := mkObject (members o) (implicitProducerHash o) v
  (initialImplicitProducerHash o) (initialImplicitProducerHashEntries o) (implicitProducerHashResizeInProgress o).
Definition set_initial_hash v o := mkObject (members o) (implicitProducerHash o) (implicitProducerHashCount o)
  v (initialImplicitProducerHashEntries o) (implicitProducerHashResizeInProgress o).
Definition set_initial_entries v o := mkObject (members o) (implicitProducerHash o) (implicitProducerHashCount o)
  (initialImplicitProducerHash o) v (implicitProducerHashResizeInProgress o).
Definition set_initial_array v h := mkHash (capacity h) v (prev h).

Record producer := mkProducer { next : option nat; parent : nat }.
(** All queues, the tables from [malloc] with their entries, and the
    producers. *)
Record world := mkWorld {
  objects : gmap nat object;
  tables : gmap nat ImplicitProducerHash;
  behind : gmap nat (list ProducerHash.ImplicitProducerKVP);
  producers : gmap nat producer
}.
Definition set_objects v w := mkWorld v (tables w) (behind w) (producers w).
Definition set_tables v w := mkWorld (objects w) v (behind w) (producers w).
Definition set_producers v w := mkWorld (objects w) (tables w) (behind w) v.

Definition load (q : nat) : M world object :=
  os ← gets objects;
  the (os !! q).
Definition update (q : nat) (f : object -> object) : M world unit :=
  o ← load q;
  modify (fun w => set_objects (<[q := f o]> (objects w)) w).
(** [std::swap] and [details::swap_relaxed] of a member of two queues. *)
Definition swap_member {A} (get : object -> A) (put : A -> object -> object) (a b : nat) : M world unit :=
  oa ← load a;
  ob ← load b;
  update a (put (get ob));;
  update b (put (get oa)).

Definition load_table (t : table) : M world ImplicitProducerHash :=
  match t with
  | Initial q => o ← load q; mret (initialImplicitProducerHash o)
  | Heap n => ts ← gets tables; the (ts !! n)
  end.
Definition store_prev (t : table) (v : option table) : M world unit :=
  match t with
  | Initial q => update q (fun o => set_initial_hash (set_prev v (initialImplicitProducerHash o)) o)
  | Heap n =>
      h ← load_table t;
      modify (fun w => set_tables (<[n := set_prev v h]> (tables w)) w)
  end.

Section Move.
Context {tr : Traits}.

(** ** The hash tables *)

Definition populate_initial_implicit_producer_hash (q : nat) : M world unit :=
  if INITIAL_IMPLICIT_PRODUCER_HASH_SIZE =? 0 then mret tt
  else
    update q (set_hash_count 0);;
    update q (set_initial_hash (mkHash INITIAL_IMPLICIT_PRODUCER_HASH_SIZE (Members q) None));;
    update q (set_initial_entries (replicate (Z.to_nat INITIAL_IMPLICIT_PRODUCER_HASH_SIZE) ProducerHash.newKVP));;
    update q (set_hash (Some (Initial q))).

(** The loop to the table in front of the first table of [other], which is
    linked to the first table of [this]. *)
Fixpoint relink (fuel : nat) (hash : table) (this other : nat) : M world unit :=
  match fuel with
  | O => undefined
  | S fuel =>
      h ← load_table hash;
      if decide (prev h = Some (Initial other)) then store_prev hash (Some (Initial this))
      else
        hash ← the (prev h);
        relink fuel hash this other
  end.
(** The tables that [this] has got from [other]. *)
Definition adopt_tables (this other : nat) : M world unit :=
  o ← load this;
  hash ← the (implicitProducerHash o);
  if decide (hash = Initial other) then update this (set_hash (Some (Initial this)))
  else
    ts ← gets tables;
    relink (S (size ts)) hash this other.

Definition swap_implicit_producer_hashes (this other : nat) : M world unit :=
  if INITIAL_IMPLICIT_PRODUCER_HASH_SIZE =? 0 then mret tt
  else
    swap_member initialImplicitProducerHashEntries set_initial_entries this other;;
    update this (fun o => set_initial_hash (set_initial_array (Members this) (initialImplicitProducerHash o)) o);;
    update other (fun o => set_initial_hash (set_initial_array (Members other) (initialImplicitProducerHash o)) o);;
    swap_member implicitProducerHashCount set_hash_count this other;;
    swap_member implicitProducerHash set_hash this other;;
    adopt_tables this other;;
    adopt_tables other this.

(** ** The producers *)

Fixpoint reown (fuel : nat) (p : option nat) (this : nat) : M world unit :=
  match p, fuel with
  | None, _ => mret tt
  | Some _, O => undefined
  | Some p, S fuel =>
      ps ← gets producers;
      d ← the (ps !! p);
      modify (fun w => set_producers (<[p := mkProducer (next d) this]> (producers w)) w);;
      reown fuel (next d) this
  end.
Definition reown_producers (this : nat) : M world unit :=
  o ← load this;
  ps ← gets producers;
  reown (size ps) (producerListTail (members o)) this.

(** ** The operations *)

(** The swap, which is also the move assignment. *)
Definition swap_internal (this other : nat) : M world unit :=
  if decide (this = other) then mret tt
  else
    swap_member members set_members this other;;
    swap_implicit_producer_hashes this other;;
    reown_producers this;;
    reown_producers other.

(** The members of a queue from which all has been moved. *)
Definition moved_from : movable := mkMovable None 0 0 None 0 None 0 0.
Definition raw_object (m : movable) : object := mkObject m None 0 (mkHash 0 (Members 0) None) [] false.
(** The move constructor of a queue at the new address [this]. *)
Definition move_construct (this other : nat) : M world unit :=
  o ← load other;
  modify (fun w => set_objects (<[this := raw_object (members o)]> (objects w)) w);;
  populate_initial_implicit_producer_hash this;;
  swap_implicit_producer_hashes this other;;
  update other (set_members moved_from);;
  reown_producers this.

(** ** What a queue has *)

(** The tables [l] by their addresses, from the one at [t] on, linked down to
    [last]. *)
Fixpoint segment (w : world) (t : option table) (l : list (nat * ProducerHash.ImplicitProducerHash)) (last : option table) : Prop :=
  match l with
  | [] => t = last
  | (n, h) :: l =>
      t = Some (Heap n) /\ exists hd, tables w !! n = Some hd /\ capacity hd = ProducerHash.capacity h /\ entries hd = Behind n /\
        behind w !! n = Some (ProducerHash.entries h) /\ segment w (prev hd) l last
  end.
Fixpoint listed (w : world) (p : option nat) (l : list nat) : Prop :=
  match l with
  | [] => p = None
  | x :: l => p = Some x /\ exists d, producers w !! x = Some d /\ listed w (next d) l
  end.

(** What moves with a queue. *)
Record contents := mkContents {
  c_members : movable;
  c_producers : list nat;
  c_hashing : ProducerHash.t
}.
Definition nothing : contents := mkContents moved_from [] ProducerHash.populate_initial_implicit_producer_hash.

(** The tables of the queue object [o] at [q]: those at the addresses [names], and
    the first one. *)
Definition has_tables (w : world) (q : nat) (o : object) (h : ProducerHash.t) (names : list nat) : Prop :=
  if INITIAL_IMPLICIT_PRODUCER_HASH_SIZE =? 0 then names = [] /\ h = ProducerHash.populate_initial_implicit_producer_hash
  else exists l, names = l.*1 /\ NoDup names /\ segment w (implicitProducerHash o) l (Some (Initial q)) /\
    initialImplicitProducerHash o = mkHash INITIAL_IMPLICIT_PRODUCER_HASH_SIZE (Members q) None /\
    h = ProducerHash.mk (l.*2 ++ [ProducerHash.mkHash INITIAL_IMPLICIT_PRODUCER_HASH_SIZE (initialImplicitProducerHashEntries o)])
      (implicitProducerHashCount o) false.
(** The queue at [q] has the contents [c]. *)
Record has (w : world) (q : nat) (c : contents) (names : list nat) : Prop := mkHas {
  has_object : exists o, objects w !! q = Some o /\ members o = c_members c /\ implicitProducerHashResizeInProgress o = false /\
    has_tables w q o (c_hashing c) names;
  has_producers : listed w (producerListTail (c_members c)) (c_producers c);
  has_distinct : NoDup (c_producers c)
}.
(** Its producers know that they are its. *)
Definition owns (w : world) (q : nat) (l : list nat) : Prop :=
  forall p, p ∈ l -> exists d, producers w !! p = Some d /\ parent d = q.

(** ** Segments *)

Lemma segment_frame w w' l : forall t last,
  (forall n, n ∈ l.*1 -> tables w' !! n = tables w !! n) -> behind w' = behind w -> segment w t l last -> segment w' t l last.
Proof.
  induction l as [|[n h] l IH]; intros t last Ht Hb; cbn [segment]; [done|]. intros (-> & hd & E & Ec & Ee & Eb & Hs).
  split; [done|]. exists hd. rewrite Ht by (cbn; left). rewrite Hb. do 4 (split; [done|]).
  apply IH; [|done|done]. intros m Hm. apply Ht. cbn. by right.
Qed.

Lemma segment_size w l t last : segment w t l last -> NoDup l.*1 -> (length l <= size (tables w))%nat.
Proof.
  intros Hs Hnd. rewrite <- (length_fmap fst), <- (size_list_to_set (C := gset nat) _ Hnd), <- (size_dom (D := gset nat)).
  apply subseteq_size. intros n Hn%elem_of_list_to_set. apply elem_of_dom. clear Hnd. revert t Hs Hn.
  induction l as [|[m h] l IH]; intros t Hs Hn; cbn in *; [by apply elem_of_nil in Hn|].
  destruct Hs as (_ & hd & E & _ & _ & _ & Hs). apply elem_of_cons in Hn as [->|Hn]; [by exists hd|by eapply IH].
Qed.

Lemma relink_spec this other l : forall fuel w n h,
  segment w (Some (Heap n)) ((n, h) :: l) (Some (Initial other)) -> NoDup ((n, h) :: l).*1 -> (length l < fuel)%nat ->
  exists ts, relink fuel (Heap n) this other w = Some (tt, set_tables ts w) /\
    segment (set_tables ts w) (Some (Heap n)) ((n, h) :: l) (Some (Initial this)) /\
    forall m, m ∉ ((n, h) :: l).*1 -> ts !! m = tables w !! m.
Proof.
  induction l as [|[m g] l IH]; intros [|fuel] w n h (_ & hd & E & Ec & Ee & Eb & Hs) Hnd Hf; try (cbn in Hf; lia); cbn [relink].
  all: rewrite (bind_some _ _ w hd w) by (cbn; unfold mbind, M_bind; cbn; by rewrite E).
  - cbn [segment] in Hs. rewrite decide_True by done. exists (<[n := set_prev (Some (Initial this)) hd]> (tables w)).
    unfold store_prev. rewrite (bind_some _ _ w hd w) by (cbn; unfold mbind, M_bind; cbn; by rewrite E). split; [done|]. split.
    + split; [done|]. exists (set_prev (Some (Initial this)) hd). cbn. by rewrite lookup_insert_eq.
    + intros k Hk. rewrite lookup_insert_ne; [done|]. intros ->. apply Hk. cbn. left.
  - pose proof Hs as [Ep _]. rewrite decide_False by (rewrite Ep; done). rewrite Ep, (bind_some _ _ w (Heap m) w) by done.
    rewrite Ep in Hs. apply NoDup_cons in Hnd as [Hn Hnd].
    destruct (IH fuel w m g Hs Hnd ltac:(cbn in Hf; lia)) as (ts & Er & Hs' & Ho). exists ts. split; [done|]. split.
    + split; [done|]. exists hd. cbn [tables set_tables]. rewrite Ho by done. rewrite Ep. done.
    + intros k Hk. apply Ho. intros H. apply Hk. cbn. by right.
Qed.

(** A chain of tables gets a new owner. *)
Lemma adopt_spec this other w o l :
  objects w !! this = Some o -> segment w (implicitProducerHash o) l (Some (Initial other)) -> NoDup l.*1 ->
  exists t ts, let w' := mkWorld (<[this := set_hash t o]> (objects w)) ts (behind w) (producers w) in
    adopt_tables this other w = Some (tt, w') /\ segment w' t l (Some (Initial this)) /\
    forall m, m ∉ l.*1 -> ts !! m = tables w !! m.
Proof.
  intros Eo Hs Hnd. unfold adopt_tables, load.
  rewrite (bind_some _ _ w o w) by (unfold mbind, M_bind; cbn; by rewrite Eo). destruct l as [|[n h] l].
  - cbn in Hs. rewrite Hs, (bind_some _ _ w (Initial other) w), decide_True by done. exists (Some (Initial this)), (tables w).
    split; [|done]. unfold update, load. rewrite (bind_some _ _ w o w) by (unfold mbind, M_bind; cbn; by rewrite Eo). done.
  - pose proof Hs as [E _]. rewrite E, (bind_some _ _ w (Heap n) w), decide_False by done.
    rewrite (bind_some _ _ w (tables w) w) by done. pose proof (segment_size _ _ _ _ Hs Hnd) as Hsz. rewrite E in Hs.
    destruct (relink_spec this other l (S (size (tables w))) w n h Hs Hnd) as (ts & Er & Hs' & Ho); [cbn in Hsz; lia|].
    assert (Ei : <[this := set_hash (implicitProducerHash o) o]> (objects w) = objects w).
    { rewrite insert_id; [done|]. rewrite Eo. by destruct o. }
    exists (implicitProducerHash o), ts. cbv zeta. rewrite Er, Ei, E. split; [done|]. by split.
Qed.


(** ** Two queues *)

(** The world with two of its queues replaced. *)
Definition two (a b : nat) (oa ob : object) (w : world) : world := set_objects (<[b := ob]> (<[a := oa]> (objects w))) w.

Section Two.
Context (a b : nat) (Hab : a <> b).

Lemma two_id w oa ob : objects w !! a = Some oa -> objects w !! b = Some ob -> two a b oa ob w = w.
Proof. intros Ea Eb. unfold two. rewrite (insert_id _ a), insert_id by done. by destruct w. Qed.

Lemma two_left w oa ob : objects (two a b oa ob w) !! a = Some oa.
Proof. cbn. by rewrite lookup_insert_ne, lookup_insert_eq. Qed.
Lemma two_right w oa ob : objects (two a b oa ob w) !! b = Some ob.
Proof. cbn. by rewrite lookup_insert_eq. Qed.
Lemma two_elsewhere w oa ob c : c <> a -> c <> b -> objects (two a b oa ob w) !! c = objects w !! c.
Proof. intros. cbn. by rewrite !lookup_insert_ne. Qed.

Lemma insert_left w oa ob o : <[a := o]> (objects (two a b oa ob w)) = objects (two a b o ob w).
Proof. cbn. by rewrite (insert_insert_ne _ a b), insert_insert_eq. Qed.
Lemma insert_right w oa ob o : <[b := o]> (objects (two a b oa ob w)) = objects (two a b oa o w).
Proof. cbn. by rewrite insert_insert_eq. Qed.

Lemma load_some q w o : objects w !! q = Some o -> load q w = Some (o, w).
Proof. intros E. unfold load, mbind, M_bind. cbn. by rewrite E. Qed.
Lemma update_some q f w o : objects w !! q = Some o -> update q f w = Some (tt, set_objects (<[q := f o]> (objects w)) w).
Proof. intros E. unfold update. by rewrite (bind_some _ _ w o w) by by apply load_some. Qed.

Lemma update_left w oa ob f : update a f (two a b oa ob w) = Some (tt, two a b (f oa) ob w).
Proof. rewrite (update_some _ _ _ oa) by apply two_left. by rewrite insert_left. Qed.
Lemma update_right w oa ob f : update b f (two a b oa ob w) = Some (tt, two a b oa (f ob) w).
Proof. rewrite (update_some _ _ _ ob) by apply two_right. by rewrite insert_right. Qed.
Lemma swap_two {A} (get : object -> A) put w oa ob :
  swap_member get put a b (two a b oa ob w) = Some (tt, two a b (put (get ob) oa) (put (get oa) ob) w).
Proof.
  unfold swap_member. rewrite (bind_some _ _ _ oa (two a b oa ob w)) by apply load_some, two_left.
  rewrite (bind_some _ _ _ ob (two a b oa ob w)) by apply load_some, two_right.
  rewrite (bind_some _ _ _ _ _ (update_left _ _ _ _)). apply update_right.
Qed.

End Two.

(** A queue's tables are the matter of its object and of their memory. *)
Lemma has_tables_frame w w' q o h names :
  (forall n, n ∈ names -> tables w' !! n = tables w !! n) -> behind w' = behind w -> has_tables w q o h names -> has_tables w' q o h names.
Proof.
  intros Ht Hb. unfold has_tables. destruct (_ =? 0); [done|]. intros (l & -> & Hnd & Hs & H). exists l. do 2 (split; [done|]).
  split; [by eapply segment_frame|done].
Qed.

(** The queue [o] at [q] with the tables of [o']. *)
Definition exchanged (q : nat) (o o' : object) : object :=
  mkObject (members o) (implicitProducerHash o') (implicitProducerHashCount o')
    (set_initial_array (Members q) (initialImplicitProducerHash o)) (initialImplicitProducerHashEntries o')
    (implicitProducerHashResizeInProgress o).

Lemma swap_hashes_spec a b w oa ob ha hb na nb :
  a <> b -> objects w !! a = Some oa -> objects w !! b = Some ob -> has_tables w a oa ha na -> has_tables w b ob hb nb ->
  (forall n, n ∈ na -> n ∉ nb) ->
  exists w' oa' ob', swap_implicit_producer_hashes a b w = Some (tt, w') /\
    objects w' = objects (two a b oa' ob' w) /\ producers w' = producers w /\ behind w' = behind w /\
    members oa' = members oa /\ members ob' = members ob /\
    implicitProducerHashResizeInProgress oa' = implicitProducerHashResizeInProgress oa /\
    implicitProducerHashResizeInProgress ob' = implicitProducerHashResizeInProgress ob /\
    has_tables w' a oa' hb nb /\ has_tables w' b ob' ha na /\
    forall n, n ∉ na -> n ∉ nb -> tables w' !! n = tables w !! n.
Proof.
  intros Hab Ea Eb Ha Hb Hd. unfold swap_implicit_producer_hashes, has_tables in *. destruct (_ =? 0) eqn:E0.
  - exists w, oa, ob. rewrite two_id by done. destruct Ha as [-> ->], Hb as [-> ->]. done.
  - destruct Ha as (la & -> & Hna & Hsa & Hia & ->), Hb as (lb & -> & Hnb & Hsb & Hib & ->).
    set (start := w) at 1. replace start with (two a b oa ob w) by by apply two_id. clear start.
    rewrite (bind_some _ _ _ _ _ (swap_two a b Hab _ _ _ _ _)). rewrite (bind_some _ _ _ _ _ (update_left a b Hab _ _ _ _)).
    rewrite (bind_some _ _ _ _ _ (update_right a b _ _ _ _)). do 2 rewrite (bind_some _ _ _ _ _ (swap_two a b Hab _ _ _ _ _)).
    match goal with |- context [two a b ?x ?y w] => change x with (exchanged a oa ob); change y with (exchanged b ob oa) end.
    set (w1 := two a b _ _ w).
    destruct (adopt_spec a b w1 _ lb (two_left a b Hab w _ _)) as (ta & ts1 & E1 & Hs1 & Ho1); [|done|].
    { by eapply segment_frame; [| |exact Hsb]. }
    rewrite (bind_some _ _ _ _ _ E1). clear E1. subst w1. rewrite (insert_left a b Hab) in Hs1 |- *.
    set (w2 := mkWorld _ ts1 _ _) in *.
    destruct (adopt_spec b a w2 _ la (two_right a b w _ _)) as (tb & ts2 & E2 & Hs2 & Ho2); [|done|].
    { eapply segment_frame; [| |exact Hsa]; [|done]. intros n Hn. apply Ho1. by apply Hd. }
    rewrite E2. clear E2. subst w2. cbn [objects tables] in *. rewrite insert_right in Hs2 |- *.
    eexists _, _, _. split; [reflexivity|]. cbn [objects]. do 7 (split; [done|]).
    split; [|split].
    + exists lb. do 2 (split; [done|]). cbn. split; [|by rewrite Hia].
      eapply segment_frame; [| |exact Hs1]; [|done]. intros n Hn. apply Ho2. intros Hn'. by eapply Hd.
    + exists la. do 2 (split; [done|]). split; [exact Hs2|]. cbn. by rewrite Hib.
    + intros n Hn Hn'. cbn. by rewrite Ho2, Ho1.
Qed.

(** ** The producers of a queue *)

Lemma listed_next w w' l : forall p, (forall x, next <$> producers w' !! x = next <$> producers w !! x) -> listed w p l -> listed w' p l.
Proof.
  induction l as [|x l IH]; intros p Hn; cbn; [done|]. intros (-> & d & E & Hl). split; [done|].
  specialize (Hn x) as Hx. rewrite E in Hx. apply fmap_Some in Hx as (d' & E' & Ed). exists d'. split; [done|].
  rewrite <- Ed. by apply IH.
Qed.

Lemma listed_size w l p : listed w p l -> NoDup l -> (length l <= size (producers w))%nat.
Proof.
  intros Hl Hnd. rewrite <- (size_list_to_set (C := gset nat) _ Hnd), <- (size_dom (D := gset nat)).
  apply subseteq_size. intros n Hn%elem_of_list_to_set. apply elem_of_dom. clear Hnd. revert p Hl Hn.
  induction l as [|x l IH]; intros p Hl Hn; cbn in *; [by apply elem_of_nil in Hn|].
  destruct Hl as (_ & d & E & Hl). apply elem_of_cons in Hn as [->|Hn]; [by exists d|by eapply IH].
Qed.

Definition reowned (this : nat) (l : list nat) (x : nat) (d : producer) : producer :=
  mkProducer (next d) (if decide (x ∈ l) then this else parent d).

Lemma reown_spec this l : forall fuel w p, listed w p l -> (length l <= fuel)%nat ->
  exists ps, reown fuel p this w = Some (tt, set_producers ps w) /\ forall x, ps !! x = reowned this l x <$> producers w !! x.
Proof.
  induction l as [|y l IH]; intros fuel w p; cbn [listed].
  - intros -> _. exists (producers w). destruct fuel; (split; [by destruct w|]); intros x; destruct (producers w !! x) as [[]|]; done.
  - intros (-> & d & E & Hl) Hf. destruct fuel as [|fuel]; [cbn in Hf; lia|]. cbn [reown].
    rewrite (bind_some _ _ w (producers w) w) by done. rewrite (bind_some _ _ w d w) by by rewrite E.
    set (w1 := set_producers (<[y := mkProducer (next d) this]> (producers w)) w). rewrite (bind_some _ _ w tt w1) by done.
    destruct (IH fuel w1 (next d)) as (ps & Er & Hps); [|cbn in Hf; lia|].
    { eapply listed_next; [|exact Hl]. intros x. unfold w1. cbn. destruct (decide (y = x)) as [<-|Hx].
      - by rewrite lookup_insert_eq, E.
      - by rewrite lookup_insert_ne. }
    exists ps. split; [done|]. intros x. rewrite Hps. unfold w1, reowned. cbn. destruct (decide (y = x)) as [<-|Hx].
    + rewrite lookup_insert_eq, E. cbn. rewrite (decide_True (P := y ∈ y :: l)) by left. by case_decide.
    + rewrite lookup_insert_ne by done. destruct (producers w !! x) as [e|]; [|done]. cbn. do 2 f_equal.
      apply decide_ext. rewrite elem_of_cons. naive_solver.
Qed.

Lemma reown_producers_spec this w o l :
  objects w !! this = Some o -> listed w (producerListTail (members o)) l -> NoDup l ->
  exists ps, reown_producers this w = Some (tt, set_producers ps w) /\ forall x, ps !! x = reowned this l x <$> producers w !! x.
Proof.
  intros E Hl Hnd. unfold reown_producers. rewrite (bind_some _ _ w o w) by by apply load_some.
  rewrite (bind_some _ _ w (producers w) w) by done. apply reown_spec; [done|by eapply listed_size].
Qed.

(** ** All queues *)

(** The queues of the program: each has its contents and is the parent of its
    producers; no table and no producer is part of two queues. *)
Definition separate (m : gmap nat (contents * list nat)) : Prop :=
  forall q q' c c' n n', q <> q' -> m !! q = Some (c, n) -> m !! q' = Some (c', n') ->
    n ## n' /\ c_producers c ## c_producers c'.
Record tenants (w : world) (m : gmap nat (contents * list nat)) : Prop := mkTenants {
  tenant : forall q c n, m !! q = Some (c, n) -> has w q c n /\ owns w q (c_producers c);
  apart : separate m
}.

(** What remains of a queue in a world that differs elsewhere. *)
Lemma has_frame w w' q c names :
  has w q c names -> objects w' !! q = objects w !! q -> (forall n, n ∈ names -> tables w' !! n = tables w !! n) ->
  behind w' = behind w -> (forall x, next <$> producers w' !! x = next <$> producers w !! x) -> has w' q c names.
Proof.
  intros [(o & E & Em & Er & Ht) Hl Hnd] Eo Etb Eb Ep. split; [|by eapply listed_next|done].
  exists o. rewrite Eo. do 3 (split; [done|]). by eapply has_tables_frame.
Qed.

Lemma reowned_next (ps : gmap nat producer) w this l :
  (forall x, ps !! x = reowned this l x <$> producers w !! x) -> forall x, next <$> ps !! x = next <$> producers w !! x.
Proof. intros H x. rewrite H. by destruct (producers w !! x). Qed.

Lemma reowned_owns (ps : gmap nat producer) w this l p :
  (forall x, ps !! x = reowned this l x <$> producers w !! x) -> listed w p l -> owns (set_producers ps w) this l.
Proof.
  intros H Hl x Hx. cbn. rewrite H. assert (is_Some (producers w !! x)) as [d ->].
  { clear H. revert p Hl. induction l as [|y l IH]; intros p Hl; [by apply elem_of_nil in Hx|].
    destruct Hl as (_ & d & E & Hl). apply elem_of_cons in Hx as [->|Hx]; [by exists d|by eapply IH]. }
  cbn. eexists. split; [done|]. cbn. by rewrite decide_True.
Qed.

Lemma reowned_other (ps : gmap nat producer) w this l q l' :
  (forall x, ps !! x = reowned this l x <$> producers w !! x) -> l' ## l -> owns w q l' -> owns (set_producers ps w) q l'.
Proof.
  intros H Hd Ho x Hx. destruct (Ho x Hx) as (d & E & <-). cbn. rewrite H, E. cbn. eexists. split; [done|]. cbn.
  rewrite decide_False; [done|]. intros Hx'. by eapply Hd.
Qed.

(** Between the swap of the lists and that of the parents, those of [late] are
    not yet known to their producers. *)
Record settled (late : list nat) (w : world) (m : gmap nat (contents * list nat)) : Prop := mkSettled {
  settled_tenant : forall q c n, m !! q = Some (c, n) -> has w q c n /\ (q ∉ late -> owns w q (c_producers c));
  settled_apart : separate m
}.

Lemma settled_tenants w m : settled [] w m -> tenants w m.
Proof.
  intros [Ht Ha]. split; [|done]. intros q c n E. destruct (Ht q c n E) as [H Ho]. split; [done|]. apply Ho, not_elem_of_nil.
Qed.

Lemma reown_producers_settled late w m a :
  is_Some (m !! a) -> settled (a :: late) w m ->
  exists w', reown_producers a w = Some (tt, w') /\ settled late w' m.
Proof.
  intros [[c n] Ea] [Ht Hap]. destruct (Ht a c n Ea) as [Ha _]. pose proof Ha as [(o & Eo & Em & _) Hl Hnd].
  destruct (reown_producers_spec a w o (c_producers c) Eo) as (ps & E & Hps); [by rewrite Em|done|].
  exists (set_producers ps w). split; [done|]. split; [|done]. intros q c' n' Eq. destruct (Ht q c' n' Eq) as [Hq Ho]. split.
  - eapply has_frame; [exact Hq|done..|]. by eapply reowned_next.
  - intros Hlate. destruct (decide (q = a)) as [->|Hne].
    + rewrite Ea in Eq. injection Eq as <- <-. by eapply reowned_owns.
    + eapply reowned_other; [done| |apply Ho; by apply not_elem_of_cons]. by eapply (Hap q a).
Qed.

(** ** Sequences of moves *)

Inductive op := Swap (this other : nat) | Construct (this other : nat).
Definition perform (o : op) : M world unit :=
  match o with Swap a b => swap_internal a b | Construct a b => move_construct a b end.
Fixpoint performs (ops : list op) : M world unit :=
  match ops with
  | [] => mret tt
  | o :: ops => perform o;; performs ops
  end.

(** What they mean: a swap exchanges what the queues have, and a new queue gets
    all of the other, to which nothing is left. *)
Definition perform_spec {A} (empty : A) (o : op) (m : gmap nat A) : option (gmap nat A) :=
  match o with
  | Swap a b =>
      x ← m !! a;
      y ← m !! b;
      Some (<[b := x]> (<[a := y]> m))
  | Construct a b =>
      match m !! a, m !! b with
      | None, Some y => Some (<[b := empty]> (<[a := y]> m))
      | _, _ => None
      end
  end.
Fixpoint performs_spec {A} (empty : A) (ops : list op) (m : gmap nat A) : option (gmap nat A) :=
  match ops with
  | [] => Some m
  | o :: ops => m ← perform_spec empty o m; performs_spec empty ops m
  end.

Lemma two_lookup {A} (m : gmap nat A) a b x y q z : a <> b ->
  <[b := x]> (<[a := y]> m) !! q = Some z -> (q = b /\ z = x) \/ (q = a /\ z = y) \/ (q <> a /\ q <> b /\ m !! q = Some z).
Proof. intros Hab. rewrite !lookup_insert_Some. naive_solver. Qed.

Lemma separate_swap m a b x y :
  a <> b -> m !! a = Some x -> m !! b = Some y -> separate m -> separate (<[b := x]> (<[a := y]> m)).
Proof.
  intros Hab Ea Eb Hs q q' c c' n n' Hne E E'.
  destruct (two_lookup _ _ _ _ _ _ _ Hab E) as [[-> F]|[[-> F]|(H1 & H2 & F)]];
    destruct (two_lookup _ _ _ _ _ _ _ Hab E') as [[-> F']|[[-> F']|(H3 & H4 & F')]]; simplify_eq.
  all: eapply Hs; [|eassumption..]; congruence.
Qed.

Lemma separate_construct m a b y :
  a <> b -> m !! b = Some y -> separate m -> separate (<[b := (nothing, [])]> (<[a := y]> m)).
Proof.
  intros Hab Eb Hs q q' c c' n n' Hne E E'.
  assert (Hnil : forall l : list nat, l ## []) by (intros l x _ Hx; by apply elem_of_nil in Hx).
  destruct (two_lookup _ _ _ _ _ _ _ Hab E) as [[-> F]|[[-> F]|(H1 & H2 & F)]];
    destruct (two_lookup _ _ _ _ _ _ _ Hab E') as [[-> F']|[[-> F']|(H3 & H4 & F')]]; simplify_eq; cbn; try done.
  all: first [by split; [|done] | by split; [intros x Hx; by apply elem_of_nil in Hx|intros x Hx; by apply elem_of_nil in Hx]
    | eapply Hs; [|eassumption..]; congruence].
Qed.

(** Two queues have new contents, the others have what they had. *)
Lemma exchange_settled w w2 m a b x y :
  a <> b -> tenants w m -> separate (<[b := y]> (<[a := x]> m)) -> has w2 a x.1 x.2 -> has w2 b y.1 y.2 ->
  (forall q, q <> a -> q <> b -> objects w2 !! q = objects w !! q) -> producers w2 = producers w -> behind w2 = behind w ->
  (forall q c n k, q <> a -> q <> b -> m !! q = Some (c, n) -> k ∈ n -> tables w2 !! k = tables w !! k) ->
  settled [a; b] w2 (<[b := y]> (<[a := x]> m)).
Proof.
  intros Hab [Ht _] Hs Ha Hb Eo Ep Eb Et. split; [|done]. intros q c n E.
  destruct (two_lookup _ _ _ _ _ _ _ Hab E) as [[-> F]|[[-> F]|(H1 & H2 & F)]].
  - subst y. split; [done|]. intros []. right. left.
  - subst x. split; [done|]. intros []. left.
  - destruct (Ht _ _ _ F) as [Hq Ho]. split; [|intros _ z Hz; rewrite Ep; by apply Ho].
    eapply has_frame; [exact Hq|by apply Eo| |done|by rewrite Ep]. intros k. by apply (Et q c n).
Qed.

Lemma swap_tenants w m a b x y :
  tenants w m -> m !! a = Some x -> m !! b = Some y ->
  exists w', swap_internal a b w = Some (tt, w') /\ tenants w' (<[b := x]> (<[a := y]> m)).
Proof.
  intros [Ht Hap] Ea Eb. unfold swap_internal. case_decide as Hab.
  - subst b. rewrite Ea in Eb. injection Eb as <-. exists w. rewrite insert_insert_eq, insert_id by done. done.
  - destruct x as [ca na], y as [cb nb]. destruct (Ht _ _ _ Ea) as [[(oa & Eoa & Ema & Era & Hta) Hla Hda] _].
    destruct (Ht _ _ _ Eb) as [[(ob & Eob & Emb & Erb & Htb) Hlb Hdb] _].
    destruct (Hap _ _ _ _ _ _ Hab Ea Eb) as [Hn Hp].
    set (w0 := w) at 1. replace w0 with (two a b oa ob w) by by apply two_id. clear w0.
    rewrite (bind_some _ _ _ _ _ (swap_two a b Hab _ _ _ _ _)). set (w1 := two a b _ _ w).
    destruct (swap_hashes_spec a b w1 _ _ (c_hashing ca) (c_hashing cb) na nb Hab (two_left a b Hab w _ _) (two_right a b w _ _))
      as (w2 & oa' & ob' & E2 & Eo & Ep & Ebh & Ma & Mb & Fa & Fb & Ha & Hb & Htt); [by eapply (has_tables_frame w)|by eapply (has_tables_frame w)|exact Hn|].
    rewrite (bind_some _ _ _ _ _ E2).
    assert (Hl : forall p l, listed w p l -> listed w2 p l) by (intros p l; apply listed_next; by rewrite Ep).
    assert (H2 : settled [a; b] w2 (<[b := (ca, na)]> (<[a := (cb, nb)]> m))).
    { apply (exchange_settled w); [done..|by apply separate_swap| | | |done|done|].
      - split; [|by apply Hl|done]. exists oa'. rewrite Eo, two_left, Ma, Fa by done. done.
      - split; [|by apply Hl|done]. exists ob'. rewrite Eo, two_right, Mb, Fb. done.
      - intros q H1 H2. rewrite Eo, two_elsewhere by done. unfold w1. by rewrite two_elsewhere.
      - intros q c n k H1 H2 F Hk. destruct (Hap _ _ _ _ _ _ H1 F Ea) as [Hna _], (Hap _ _ _ _ _ _ H2 F Eb) as [Hnb _].
        apply Htt; intros Hk'; [by eapply Hna|by eapply Hnb]. }
    destruct (reown_producers_settled [b] w2 (<[b := (ca, na)]> (<[a := (cb, nb)]> m)) a) as (w3 & E3 & H3); [|done|].
    { rewrite lookup_insert_ne, lookup_insert_eq by done. by eexists. }
    rewrite (bind_some _ _ _ _ _ E3).
    destruct (reown_producers_settled [] w3 (<[b := (ca, na)]> (<[a := (cb, nb)]> m)) b) as (w4 & E4 & H4); [|done|].
    { rewrite lookup_insert_eq. by eexists. }
    exists w4. split; [done|]. by apply settled_tenants.
Qed.

Lemma update_again q f w o :
  update q f (set_objects (<[q := o]> (objects w)) w) = Some (tt, set_objects (<[q := f o]> (objects w)) w).
Proof. rewrite (update_some _ _ _ o) by (cbn; by rewrite lookup_insert_eq). cbn. by rewrite insert_insert_eq. Qed.

Lemma populate_some q w o : objects w !! q = Some o -> INITIAL_IMPLICIT_PRODUCER_HASH_SIZE <> 0 ->
  populate_initial_implicit_producer_hash q w = Some (tt, set_objects (<[q := mkObject (members o) (Some (Initial q)) 0
    (mkHash INITIAL_IMPLICIT_PRODUCER_HASH_SIZE (Members q) None)
    (replicate (Z.to_nat INITIAL_IMPLICIT_PRODUCER_HASH_SIZE) ProducerHash.newKVP) (implicitProducerHashResizeInProgress o)]> (objects w)) w).
Proof.
  intros E Hne. unfold populate_initial_implicit_producer_hash. rewrite (proj2 (Z.eqb_neq _ _) Hne).
  rewrite (bind_some _ _ _ _ _ (update_some _ _ _ _ E)). do 2 rewrite (bind_some _ _ _ _ _ (update_again _ _ _ _)).
  apply update_again.
Qed.

(** The new queue has the tables of one to which nothing has been added. *)
Lemma populate_has w q m : objects w !! q = Some (raw_object m) ->
  exists o, populate_initial_implicit_producer_hash q w = Some (tt, set_objects (<[q := o]> (objects w)) w) /\
    members o = m /\ implicitProducerHashResizeInProgress o = false /\
    forall w', behind w' = behind w -> has_tables w' q o ProducerHash.populate_initial_implicit_producer_hash [].
Proof.
  intros E. destruct (decide (INITIAL_IMPLICIT_PRODUCER_HASH_SIZE = 0)) as [E0|Hne].
  - unfold populate_initial_implicit_producer_hash, has_tables. rewrite E0. cbn. exists (raw_object m).
    rewrite insert_id by done. split; [by destruct w|done].
  - rewrite (populate_some q w _ E Hne). eexists. split; [done|]. cbn. do 2 (split; [done|]). intros w' _.
    unfold has_tables, ProducerHash.populate_initial_implicit_producer_hash. rewrite (proj2 (Z.eqb_neq _ _) Hne).
    exists []. repeat (split; [constructor|]). done.
Qed.

Lemma construct_tenants w m a b y :
  tenants w m -> m !! a = None -> m !! b = Some y ->
  exists w', move_construct a b w = Some (tt, w') /\ tenants w' (<[b := (nothing, [])]> (<[a := y]> m)).
Proof.
  intros [Ht Hap] Ea Eb. assert (Hab : a <> b) by congruence. destruct y as [cb nb].
  destruct (Ht _ _ _ Eb) as [[(ob & Eob & Emb & Erb & Htb) Hlb Hdb] _].
  unfold move_construct. rewrite (bind_some _ _ _ _ _ (load_some _ _ _ Eob)).
  set (w0 := set_objects (<[a := raw_object (members ob)]> (objects w)) w). rewrite (bind_some _ _ w tt w0) by done.
  destruct (populate_has w0 a (members ob)) as (oa & E1 & Ma & Fa & Hta); [by cbn; rewrite lookup_insert_eq|].
  rewrite (bind_some _ _ _ _ _ E1). set (w1 := set_objects _ w0).
  destruct (swap_hashes_spec a b w1 oa ob ProducerHash.populate_initial_implicit_producer_hash (c_hashing cb) [] nb Hab)
    as (w2 & oa' & ob' & E2 & Eo & Ep & Ebh & Ma' & Mb' & Fa' & Fb' & Ha & Hb & Htt).
  { cbn. by rewrite lookup_insert_eq. } { cbn. by rewrite !lookup_insert_ne. } { by apply Hta. }
  { by eapply (has_tables_frame w). } { intros n []%elem_of_nil. }
  rewrite (bind_some _ _ _ _ _ E2).
  assert (Eb2 : objects w2 !! b = Some ob') by (rewrite Eo; apply two_right).
  rewrite (bind_some _ _ _ _ _ (update_some _ _ _ _ Eb2)). set (w3 := set_objects _ w2).
  assert (Hset : settled [a; b] w3 (<[b := (nothing, [])]> (<[a := (cb, nb)]> m))).
  { apply (exchange_settled w); [done..|by apply (separate_construct m _ _ (cb, nb))| | | |done|done|].
    - split; [| |done].
      + exists oa'. unfold w3. cbn [objects set_objects]. rewrite lookup_insert_ne, Eo, two_left, Ma', Ma, Fa' by done. do 3 (split; [done|]).
        by eapply (has_tables_frame w2).
      + eapply listed_next; [|exact Hlb]. unfold w3. cbn. by rewrite Ep.
    - split; [|done|constructor]. exists (set_members moved_from ob'). unfold w3. cbn [objects set_objects]. rewrite lookup_insert_eq.
      do 3 (split; [done || by cbn; rewrite Fb'|]). by eapply (has_tables_frame w2).
    - intros q H1 H2. unfold w3. cbn [objects set_objects]. rewrite lookup_insert_ne, Eo, two_elsewhere by done. cbn.
      by rewrite !lookup_insert_ne.
    - intros q c n k H1 H2 F Hk. destruct (Hap _ _ _ _ _ _ H2 F Eb) as [Hnb _]. apply Htt; [apply not_elem_of_nil|].
      intros Hk'. by eapply Hnb. }
  destruct (reown_producers_settled [] w3 (<[b := (nothing, [])]> (<[a := (cb, nb)]> m)) a) as (w4 & E4 & H4).
  { rewrite lookup_insert_ne, lookup_insert_eq by done. by eexists. }
  { destruct Hset as [Hs Hsep]. split; [|done]. intros q c n E. destruct (Hs q c n E) as [H Ho]. split; [done|]. intros Hq.
    destruct (decide (q = b)) as [->|Hqb].
    - rewrite lookup_insert_eq in E. injection E as <- <-. intros p []%elem_of_nil.
    - apply Ho. rewrite !not_elem_of_cons. split; [by apply not_elem_of_cons in Hq as [? _]|]. split; [done|apply not_elem_of_nil]. }
  exists w4. split; [done|]. by apply settled_tenants.
Qed.

Lemma perform_tenants w m m1 o :
  tenants w m -> perform_spec (nothing, []) o m = Some m1 -> exists w1, perform o w = Some (tt, w1) /\ tenants w1 m1.
Proof.
  intros Ht E1. destruct o as [a b|a b]; cbn in *.
  - apply bind_Some in E1 as (x & Ea & E1). apply bind_Some in E1 as (y & Eb & [= <-]). by apply swap_tenants.
  - destruct (m !! a) eqn:Ea; [done|]. destruct (m !! b) as [y|] eqn:Eb; [|done]. injection E1 as <-. by apply construct_tenants.
Qed.

(** C15: whatever the sequence of moves, assignments and swaps of queues, each
    queue has in the end what the sequence gives it, and the other queues what
    they had: the list of producers, the blocks, and the tables with all their
    entries down to the first, which is a member of the queue; its producers
    have it as their parent. *)
Theorem moves_give_contents ops : forall w m m',
  tenants w m -> performs_spec (nothing, []) ops m = Some m' ->
  exists w', performs ops w = Some (tt, w') /\ tenants w' m'.
Proof.
  induction ops as [|o ops IH]; intros w m m' Ht; cbn.
  - intros [= <-]. by exists w.
  - intros (m1 & E1 & E2)%bind_Some. destruct (perform_tenants w m m1 o Ht E1) as (w1 & E & H1).
    rewrite (bind_some _ _ _ _ _ E). by eapply IH.
Qed.

(** ** The blocking queue *)

(** A [BlockingConcurrentQueue] is a queue, at its own address, with a pointer
    to its semaphore. *)
Record blocking := mkBlocking { inner : world; sema : gmap nat (option nat) }.
Definition on_inner (f : M world unit) : M blocking unit := fun b =>
  match f (inner b) with Some (r, w) => Some (r, mkBlocking w (sema b)) | None => None end.
Definition load_sema (q : nat) : M blocking (option nat) :=
  s ← gets sema;
  the (s !! q).
Definition store_sema (q : nat) (v : option nat) : M blocking unit :=
  modify (fun b => mkBlocking (inner b) (<[q := v]> (sema b))).

Definition blocking_swap_internal (this other : nat) : M blocking unit :=
  if decide (this = other) then mret tt
  else
    on_inner (swap_internal this other);;
    x ← load_sema this;
    y ← load_sema other;
    store_sema this y;;
    store_sema other x.
Definition blocking_move_construct (this other : nat) : M blocking unit :=
  on_inner (move_construct this other);;
  x ← load_sema other;
  store_sema this x;;
  store_sema other None.

Definition blocking_perform (o : op) : M blocking unit :=
  match o with Swap a b => blocking_swap_internal a b | Construct a b => blocking_move_construct a b end.
Fixpoint blocking_performs (ops : list op) : M blocking unit :=
  match ops with
  | [] => mret tt
  | o :: ops => blocking_perform o;; blocking_performs ops
  end.

(** What a blocking queue has includes its semaphore. *)
Definition blocking_tenants (b : blocking) (m : gmap nat (contents * list nat * option nat)) : Prop :=
  tenants (inner b) (fst <$> m) /\ sema b = snd <$> m.

Lemma blocking_perform_tenants b m m1 o :
  blocking_tenants b m -> perform_spec (nothing, [], None) o m = Some m1 ->
  exists b1, blocking_perform o b = Some (tt, b1) /\ blocking_tenants b1 m1.
Proof.
  destruct b as [w s]. intros [Ht Es] E. cbn in Ht, Es. subst s. destruct o as [x y|x y]; cbn in *.
  - apply bind_Some in E as (vx & Ex & E). apply bind_Some in E as (vy & Ey & [= <-]).
    destruct (swap_tenants w (fst <$> m) x y vx.1 vy.1 Ht) as (w1 & Ew & H1); [by rewrite lookup_fmap, Ex|by rewrite lookup_fmap, Ey|].
    unfold blocking_swap_internal. destruct (decide (x = y)) as [->|Hxy].
    + rewrite Ex in Ey. injection Ey as <-. exists (mkBlocking w (snd <$> m)). rewrite !insert_insert_eq, insert_id by done. done.
    + rewrite (bind_some _ _ _ tt (mkBlocking w1 (snd <$> m))) by (unfold on_inner; cbn; by rewrite Ew).
      exists (mkBlocking w1 (<[y := vx.2]> (<[x := vy.2]> (snd <$> m)))). split; [|by split; [rewrite !fmap_insert|cbn; rewrite !fmap_insert]].
      unfold load_sema, mbind, M_bind. cbn. rewrite lookup_fmap, Ex. cbn. rewrite lookup_fmap, Ey. done.
  - destruct (m !! x) eqn:Ex; [done|]. destruct (m !! y) as [vy|] eqn:Ey; [|done]. injection E as <-.
    destruct (construct_tenants w (fst <$> m) x y vy.1 Ht) as (w1 & Ew & H1); [by rewrite lookup_fmap, Ex|by rewrite lookup_fmap, Ey|].
    unfold blocking_move_construct. rewrite (bind_some _ _ _ tt (mkBlocking w1 (snd <$> m))) by (unfold on_inner; cbn; by rewrite Ew).
    exists (mkBlocking w1 (<[y := None]> (<[x := vy.2]> (snd <$> m)))). split; [|by split; [rewrite !fmap_insert|cbn; rewrite !fmap_insert]].
    unfold load_sema, mbind, M_bind. cbn. rewrite !lookup_fmap, Ey. done.
Qed.

(** Blocking queues too have in the end what the sequence gives them, and the
    semaphore stays with the elements it counts. The one moved from has none:
    it can be assigned to and destroyed, but every other call on it would
    follow a null pointer. *)
Theorem blocking_moves_give_contents ops : forall b m m',
  blocking_tenants b m -> performs_spec (nothing, [], None) ops m = Some m' ->
  exists b', blocking_performs ops b = Some (tt, b') /\ blocking_tenants b' m'.
Proof.
  induction ops as [|o ops IH]; intros b m m' Ht; cbn.
  - intros [= <-]. by exists b.
  - intros (m1 & E1 & E2)%bind_Some. destruct (blocking_perform_tenants b m m1 o Ht E1) as (b1 & E & H1).
    rewrite (bind_some _ _ _ _ _ E). by eapply IH.
Qed.

End Move.

(** ** An instance *)

(** Two queues: the first has got a second table and two producers, the other
    has one producer in its first table. *)
Definition two_slots : Traits := ProducerHash.two_slots.
Definition kvp (key : Z) (v : nat) : ProducerHash.ImplicitProducerKVP := ProducerHash.mkKVP key (Some v).
Definition large_table : list ProducerHash.ImplicitProducerKVP := [ProducerHash.newKVP; kvp 41 7; kvp 42 8; ProducerHash.newKVP].
Definition members_of (tail : nat) (count : Z) : movable := mkMovable (Some tail) count 1 (Some 100%nat) 3 (Some 102%nat) 0 0.
Definition two_queues : world := mkWorld
  (<[0%nat := mkObject (members_of 7 2) (Some (Heap 5)) 2 (mkHash 2 (Members 0) None) [kvp 41 7; ProducerHash.newKVP] false]>
    (<[1%nat := mkObject (members_of 9 1) (Some (Initial 1)) 1 (mkHash 2 (Members 1) None) [ProducerHash.newKVP; kvp 43 9] false]> ∅))
  {[5%nat := mkHash 4 (Behind 5) (Some (Initial 0))]} {[5%nat := large_table]}
  (<[7%nat := mkProducer (Some 8%nat) 0]> (<[8%nat := mkProducer None 0]> (<[9%nat := mkProducer None 1]> ∅))).
Definition first_contents : contents * list nat :=
  (mkContents (members_of 7 2) [7; 8]%nat
    (ProducerHash.mk [ProducerHash.mkHash 4 large_table; ProducerHash.mkHash 2 [kvp 41 7; ProducerHash.newKVP]] 2 false), [5%nat]).
Definition second_contents : contents * list nat :=
  (mkContents (members_of 9 1) [9%nat] (ProducerHash.mk [ProducerHash.mkHash 2 [ProducerHash.newKVP; kvp 43 9]] 1 false), []).
Definition two_tenants : gmap nat (contents * list nat) := <[0%nat := first_contents]> (<[1%nat := second_contents]> ∅).

Lemma two_queues_tenants : tenants (tr := two_slots) two_queues two_tenants.
Proof.
  split.
  - intros q c n E. unfold two_tenants in E. rewrite !lookup_insert_Some, lookup_empty in E.
    destruct E as [[<- [= <- <-]]|(_ & [[<- [= <- <-]]|(_ & [=])])]; (split; [split|]); cbn.
    + eexists. do 3 (split; [reflexivity|]). exists [(5%nat, ProducerHash.mkHash 4 large_table)].
      split; [done|]. split; [apply NoDup_singleton|]. split; [|done]. split; [done|]. eexists. by repeat (split; [reflexivity|]).
    + split; [done|]. eexists. split; [reflexivity|]. split; [done|]. eexists. by split; [reflexivity|].
    + by apply (bool_decide_unpack _).
    + intros p [->|[->|[]%elem_of_nil]%elem_of_cons]%elem_of_cons; eexists; by split; [reflexivity|].
    + eexists. do 3 (split; [reflexivity|]). exists []. repeat (split; [constructor|]). done.
    + split; [done|]. eexists. by split; [reflexivity|].
    + by apply (bool_decide_unpack _).
    + intros p [->|[]%elem_of_nil]%elem_of_cons; eexists; by split; [reflexivity|].
  - intros q q' c c' n n' Hne E E'. unfold two_tenants in E, E'. rewrite !lookup_insert_Some, lookup_empty in E, E'.
    destruct E as [[<- [= <- <-]]|(_ & [[<- [= <- <-]]|(_ & [=])])], E' as [[<- [= <- <-]]|(_ & [[<- [= <- <-]]|(_ & [=])])]; try done;
      cbn; set_solver.
Qed.

(** As [std::swap] does it: a new queue is made from the first, the first gets
    the second's contents, and the second those of the new one. *)
Lemma moves_give_contents_witness :
  let ops := [Construct 2 0; Swap 0 1; Swap 1 2] in
  (exists w', performs (tr := two_slots) ops two_queues = Some (tt, w') /\ tenants (tr := two_slots) w'
    (<[0%nat := second_contents]> (<[1%nat := first_contents]> {[2%nat := (nothing (tr := two_slots), [])]}))) /\
  (fun r => (parent <$> producers r.2 !! 8%nat, parent <$> producers r.2 !! 9%nat)) <$> performs (tr := two_slots) ops two_queues =
    Some (Some 1%nat, Some 0%nat).
Proof.
  split; [|by vm_compute]. apply (moves_give_contents (tr := two_slots) _ _ two_tenants).
  - apply two_queues_tenants.
  - by vm_compute.
Defined.

End QueueMove.
