(* ===== verification/DataDump.v ===== *)
(** * The dump tool (tools/dataDump/dataDump.cpp)

    The three loops of the tool, each a client of the datastore and of the
    Thrift converter: it runs a query with fetch size 2, asks the converter for
    an object for each row, and lets the iterator go. The lists of ids and the
    queries of [main] follow. *)
From S2P Require Import Prelude External Topics ScheduleDay Intrusive.
From S2P Require Import DatastoreIterator ThriftConverter Datastore.
#[local] Open Scope Z_scope.

Module DataDump.
Import Datastore.Datastore.
Import (hints) DatastoreIterator.DatastoreIterator.

Section dump.
Context `{Libpq, FollyConv, Gregorian, ThriftConverter.ThriftRuntime}.
(** The address of the datastore. *)
Context (this : Z).

(** The datastore and what it uses, and the converter with the Thrift objects. *)
Record state := State { world : Datastore.world; thrift : ThriftConverter.state }.

(** How a loop ends: after some rows, with an exception that [createPopulated]
    lets through, or not within the iterations it was given. *)
Inductive ending := Ended (count : Z) | Threw (e : exn) | Running.

(** What is done with a row. [Converted true] is a row whose object is looked
    at for the log. *)
Inductive row_use := Converted (looked_at : bool) | Counted.

Definition test_query_use (topic : Topic) : row_use :=
  match topic with
  | Metamorphosis_Station | Metamorphosis_Schedule_Day => Converted true
  | _ => Counted
  end.

(** [createPopulated] on a row; the object is looked at through the pointer it
    gives, which is undefined if that is null. *)
Definition use_row (u : row_use) (topic : Topic) (d : DataObject) (s : state) : option (outcome unit * state) :=
  match u with
  | Counted => Some (Returns (), s)
  | Converted looked_at =>
      data ← DatastoreIterator.read d (mem (world s));
      '(r, th) ← ThriftConverter.createPopulated topic data (sizeInBytes d) (thrift s);
      match r with
      | Throws e => Some (Throws e, State (world s) th)
      | Returns sData =>
          if looked_at && bool_decide (sData = None) then None
          else Some (Returns (), State (world s) th)
      end
  end.

(** The loop [while ((data = iter->next()) != nullptr)] on the pointer [iter]. *)
Fixpoint rows (fuel : nat) (u : row_use) (topic : Topic) (iter : Z) (count : Z) (s : state)
    : option (ending * state) :=
  match fuel with
  | O => Some (Running, s)
  | S fuel =>
      px ← Intrusive.vars (ptrs (world s)) !! iter;
      p ← px;
      '(d, w) ← on_iter p DatastoreIterator.next (world s);
      let s := State w (thrift s) in
      match d with
      | None => Some (Ended count, s)
      | Some d =>
          '(r, s) ← use_row u topic d s;
          match r with
          | Throws e => Some (Threw e, s)
          | Returns _ => rows fuel u topic iter (count + 1) s
          end
      end
  end.

(** A test: the query, the loop if there is an iterator, and the end of [iter]. *)
Definition test (fuel : nat) (u : row_use) (topic : Topic) (q : DatastoreIterator.request) (iter : Z)
    (s : state) : option (ending * state) :=
  w ← exec this (Set_fetch 2) (world s);
  w ← data this iter q w;
  px ← Intrusive.vars (ptrs w) !! iter;
  '(r, s) ← match px with
            | Some _ => rows fuel u topic iter 0 (State w (thrift s))
            | None => Some (Ended 0, State w (thrift s))
            end;
  match r with
  | Running => Some (Running, s)
  | _ => w ← exec this (Drop iter) (world s); Some (r, State w (thrift s))
  end.

Definition testScheduleQuery2 (fuel : nat) (array : list Z) (dateFrom dateTo : date) :=
  test fuel (Converted false) Metamorphosis_Schedule_Day
    (DatastoreIterator.ByDates dateFrom dateTo array).
Definition testScheduleQuery (fuel : nat) (array : list Z) (dateFrom dateTo : string) :=
  test fuel (Converted false) Metamorphosis_Schedule_Day
    (DatastoreIterator.ByStrings dateFrom dateTo array).
Definition testQuery (fuel : nat) (array : list Z) (topic : Topic) :=
  test fuel (test_query_use topic) topic (DatastoreIterator.ByIds array topic).

(** ** main *)

Definition ids : list Z := [96541; 96446; 95856; 95643; 93825; 92394; 92160; 92022; 92020; 92008].
Definition ids2 : list Z :=
  [ScheduleDay.create_date_string 10003 "2016-05-08"; ScheduleDay.create_date_string 10003 "2016-05-09";
   ScheduleDay.create_date_string 10003 "2016-05-10"].
Definition ids4 : list Z :=
  [19556; 10121; 16300; 17693; 19635; 76990; 76965; 66268; 88533; 61474; 10153; 15451; 85932;
   95643; 78789; 47499; 11481; 65717; 20709; 34949; 83098; 59845; 56278; 82572; 21623; 48639;
   10269; 10760; 59155; 20675; 73812; 79632; 16496; 11461; 87122; 24125; 70975; 71662; 58698;
   69073; 72468; 65342; 90134; 59368; 66284; 15717; 38961; 17683; 71115; 58333; 73965; 16320;
   12009; 50500; 73467; 76126; 59952; 75479; 92008; 10991; 89535; 60121; 77107; 88801; 71209;
   55241; 19631; 60150; 17457; 66347; 68140; 74484; 10145; 17956; 34916; 19520; 64591; 62125;
   65791; 76367; 90136; 18086; 72014; 33725; 14791; 83173; 71205; 70337; 11118; 59366; 16879;
   23392; 26772; 64490; 11779; 66379; 72729; 44642; 21544; 11299; 26827; 24569; 91109; 24521;
   21617; 58625; 61628; 20655; 70993; 16584; 71040; 88770; 37771; 48859; 45399; 71214; 71799;
   49582; 11163; 32281; 74281; 11653; 97891; 74290; 34941; 34933; 78584; 74278; 73264; 67331;
   29058; 34290; 15085; 14776; 24935; 25270; 59839].

(** After the constructor of the datastore: the queries. A test that throws
    ends the program. *)
Definition main (fuel : nat) (s : state) : option (ending * state) :=
  '(r, s) ← testQuery fuel ids Metamorphosis_Station 1 s;
  match r with
  | Ended _ =>
      connected ← isConnected (world s);
      '(r, s) ← (if (connected : bool) then testQuery fuel ids2 Metamorphosis_Schedule_Day 2 s
                else Some (Ended 0, s));
      match r with
      | Ended _ =>
          '(r, s) ← testScheduleQuery fuel ids4 "2015-01-08" "2019-05-12" 3 s;
          match r with
          | Ended n => w ← destruct_store (world s); Some (Ended n, State w (thrift s))
          | _ => Some (r, s)
          end
      | _ => Some (r, s)
      end
  | _ => Some (r, s)
  end.

(** ** Rows can be read while they are used *)

Lemma next_readable o m :
  DatastoreIterator.sound o m ->
  exists d o' m', DatastoreIterator.next (o, m) = Some (d, (o', m')) /\ DatastoreIterator.sound o' m' /\
    forall x, d = Some x -> exists cell, DatastoreIterator.read x m' = Some cell /\
      sizeInBytes x = DatastoreIterator.cell_size cell.
Proof.
  intros Hs. destruct (DatastoreIterator.sound_next o m Hs) as (d & o' & m' & E & Hs').
  exists d, o', m'. split; [done|]. split; [done|]. intros x ->.
  destruct (DatastoreIterator.next_any o m (DatastoreIterator.sound_good _ _ Hs))
    as (o1 & m1 & _ & [(r & cell & E' & _ & _ & Hr & _)|(o2 & _ & E')]); rewrite E in E'.
  - injection E' as -> _ ->. exists cell. split; [done|by destruct cell].
  - revert E'. unfold mbind, DatastoreIterator.M_bind.
    destruct (DatastoreIterator.closeAndReset _) as [[? ?]|]; [|done]. by intros [=].
Qed.

(** *** The converter on a row *)

(** The bytes of every row of the topic can be read. *)
Definition readable (topic : Topic) : Prop :=
  forall bytes, exists v,
    ThriftConverter.thrift_read (ThriftConverter.class_of topic)
      (ThriftConverter.default_content (ThriftConverter.class_of topic)) bytes = (Returns (), v).

(** The Thrift objects that exist. *)
Definition thrift_objects (s : state) : nat := size (ThriftConverter.objects (thrift s)).

Definition converts (u : row_use) : nat := match u with Converted _ => 1 | Counted => 0 end.

Lemma createPopulated_adds topic data n th :
  readable topic -> ThriftConverter.wf th -> n = DatastoreIterator.cell_size data ->
  exists p th', ThriftConverter.createPopulated topic data n th = Some (Returns (Some p), th') /\
    ThriftConverter.wf th' /\
    size (ThriftConverter.objects th') = S (size (ThriftConverter.objects th)).
Proof.
  intros Hr Hwf ->.
  assert (forall th' o, ThriftConverter.added th th' (Some o) ->
    size (ThriftConverter.objects th') = S (size (ThriftConverter.objects th))) as Hsize.
  { intros th' o ->. apply map_size_insert_None, Hwf. lia. }
  rewrite ThriftConverter.createPopulated_cases. destruct (ThriftConverter.populated topic).
  - pose proof (ThriftConverter.createAndPopulate_spec (ThriftConverter.class_of topic) data
      (DatastoreIterator.cell_size data) th Hwf) as S.
    destruct (ThriftConverter.createAndPopulate _ _ _ _) as [[r th']|].
    + destruct S as [Hwf' S]. destruct data as [bytes|].
      * destruct S as [_ S]. unfold ThriftConverter.reads in S.
        destruct (Hr (take (Z.to_nat (u32 (DatastoreIterator.cell_size (Some bytes)))) bytes)) as [v Ev].
        rewrite Ev in S. destruct S as [-> S]. eexists _, th'. split; [done|]. split; [done|by eapply Hsize].
      * destruct S as [-> S]. eexists _, th'. split; [done|]. split; [done|by eapply Hsize].
    + destruct S as (bytes & -> & Hlt). cbn in Hlt. unfold wrap in Hlt.
      pose proof (Z.mod_le (Z.of_nat (length bytes)) (2 ^ 32)). lia.
  - destruct (ThriftConverter.create_default_spec (ThriftConverter.class_of topic) th Hwf) as (th' & -> & Hwf' & S).
    eexists _, th'. split; [done|]. split; [done|by eapply Hsize].
Qed.

Lemma use_row_adds u topic d s :
  readable topic -> ThriftConverter.wf (thrift s) ->
  (exists cell, DatastoreIterator.read d (mem (world s)) = Some cell /\
     sizeInBytes d = DatastoreIterator.cell_size cell) ->
  exists th, use_row u topic d s = Some (Returns (), State (world s) th) /\ ThriftConverter.wf th /\
    size (ThriftConverter.objects th) = (thrift_objects s + converts u)%nat.
Proof.
  intros Hr Hwf (data & Hd & Hsz). destruct s as [w th]. unfold thrift_objects, use_row in *. cbn in *.
  destruct u as [l|]; cbn; [|exists th; split; [done|]; split; [done|lia]].
  rewrite Hd. cbn.
  destruct (createPopulated_adds topic data (sizeInBytes d) th Hr Hwf Hsz) as (p & th' & -> & Hwf' & Hs). cbn.
  rewrite andb_false_r. exists th'. split; [done|]. split; [done|]. lia.
Qed.

(** *** The loop *)

(** A state in which the pointer [iter] holds the iterator at [p]. *)
Definition ready_loop (p iter : Z) (s : state) : Prop :=
  (exists it, lends this p (world s) it) /\
  Intrusive.vars (ptrs (world s)) !! iter = Some (Some p) /\ ThriftConverter.wf (thrift s).

Lemma rows_leak fuel u topic p iter count s :
  readable topic -> ready_loop p iter s ->
  exists r s', rows fuel u topic iter count s = Some (r, s') /\ ready_loop p iter s' /\
    ptrs (world s') = ptrs (world s) /\
    match r with
    | Ended n => exists k, n = count + Z.of_nat k /\
        thrift_objects s' = (thrift_objects s + k * converts u)%nat
    | Threw _ => False
    | Running => True
    end.
Proof.
  intros Hr. revert count s. induction fuel as [|fuel IH]; intros count s [[it HL] [Hv Hwf]]; cbn [rows].
  - eexists _, _. split; [done|]. split; [by split; [eexists|]|]. done.
  - rewrite Hv. cbn.
    destruct (next_readable it (mem (world s)) (lends_sound _ _ _ _ HL)) as (d & it' & m' & E & Hs & Hread).
    destruct (on_iter_lends this p (world s) it _ d it' m' HL E Hs) as (w & -> & HL' & Hp & _ & Hm). cbn.
    assert (ready_loop p iter (State w (thrift s))) as Hrl.
    { split; [by exists it'|]. cbn. by rewrite Hp. }
    destruct d as [d|].
    + destruct (use_row_adds u topic d (State w (thrift s)) Hr Hwf) as (th & -> & Hwf' & Hsize).
      { cbn. rewrite Hm. by apply Hread. }
      cbn. destruct Hrl as (H1' & H2' & _).
      destruct (IH (count + 1) (State w th)) as (r & s' & -> & Hrl' & Hp' & Hout); [done|].
      exists r, s'. split; [done|]. split; [done|]. cbn in Hp'. split; [congruence|].
      destruct r as [n|e|]; [|done|done]. destruct Hout as (k & -> & Hk). exists (S k).
      split; [lia|]. rewrite Hk. unfold thrift_objects in *. cbn in *. lia.
    + eexists _, _. split; [done|]. split; [done|]. split; [done|]. exists 0%nat.
      split; [lia|]. unfold thrift_objects. cbn. lia.
Qed.

(** *** A whole test *)

(** A datastore whose iterator nobody holds. *)
Definition idle (p iter : Z) (s : state) : Prop :=
  (exists it, lends this p (world s) it /\ DatastoreIterator.mState it = DatastoreIterator.Ready) /\
  Intrusive.vars (ptrs (world s)) = ∅ /\ ThriftConverter.wf (thrift s).

Lemma idle_test_data p iter q s :
  idle p iter s -> DatastoreIterator.request_ids q <> [] ->
  exists w1 w2 it, exec this (Set_fetch 2) (world s) = Some w1 /\ data this iter q w1 = Some w2 /\
    lends this p w2 it /\ Intrusive.vars (ptrs w2) = {[iter := Some p]}.
Proof.
  intros ([it [HL Hready]] & Hv & _) Hids. destruct (lends_store _ _ _ _ HL) as (ds & Hds & Hp).
  cbn [exec]. rewrite Hds. cbn.
  set (w1 := set_store (Some (setFetchSize 2 ds)) (world s)).
  assert (lends this p w1 it) as HL1.
  { destruct HL. split; cbn; [by eexists|done..]. }
  destruct (data_lends this p w1 it iter q HL1) as (w2 & it2 & E & HL2 & _ & Hd).
  { split; cbn; rewrite Hv; [by rewrite map_size_empty|by split]. }
  assert (DatastoreIterator.isReady it = true) as Hr by (by apply bool_decide_eq_true). rewrite Hr in Hd.
  destruct Hd as (_ & _ & _ & Hvars). exists w1, w2, it2. split; [done|]. split; [done|]. split; [done|].
  rewrite Hvars. cbn. by rewrite Hv.
Qed.

Lemma drop_last p iter w it :
  lends this p w it -> Intrusive.vars (ptrs w) = {[iter := Some p]} ->
  exists w' it', exec this (Drop iter) w = Some w' /\ lends this p w' it' /\
    DatastoreIterator.mState it' = DatastoreIterator.Ready /\ Intrusive.vars (ptrs w') = ∅.
Proof.
  intros HL Hv. cbn [exec].
  destruct (ptr_op_lends this p w it (Intrusive.Destroy iter) HL) as (w' & it' & E & HL' & _ & Ex & Hst).
  { split; [rewrite Hv, map_size_singleton; lia|]. rewrite Hv, lookup_singleton_eq. by eexists. }
  { done. }
  assert (Intrusive.vars (ptrs w') = ∅) as Hv'.
  { cbn in Ex. rewrite Hv, lookup_singleton_eq in Ex. cbn in Ex.
    destruct (Intrusive.release p _) as [h|]; [|done]. injection Ex as <-. cbn.
    by rewrite delete_singleton_eq. }
  exists w', it'. split; [done|]. split; [done|]. split; [|done].
  rewrite decide_True in Hst; [done|]. split.
  - apply Intrusive.refs_pointed. exists iter. by rewrite Hv, lookup_singleton_eq.
  - unfold holders. rewrite Hv'. by apply Intrusive.refs_fresh.
Qed.

Lemma test_leaks fuel u topic q p iter s :
  readable topic -> idle p iter s -> DatastoreIterator.request_ids q <> [] ->
  exists r s', test fuel u topic q iter s = Some (r, s') /\
    match r with
    | Ended n => exists k, n = Z.of_nat k /\ idle p iter s' /\
        thrift_objects s' = (thrift_objects s + k * converts u)%nat
    | Threw _ => False
    | Running => True
    end.
Proof.
  intros Hr Hi Hids. pose proof Hi as (_ & _ & Hwf).
  destruct (idle_test_data p iter q s Hi Hids) as (w1 & w2 & it & E1 & E2 & HL & Hv).
  unfold test. rewrite E1. cbn [mbind option_bind]. rewrite E2. cbn [mbind option_bind].
  rewrite Hv, lookup_singleton_eq. cbn [mbind option_bind].
  destruct (rows_leak fuel u topic p iter 0 (State w2 (thrift s)) Hr)
    as (r & s' & -> & ([it' HL'] & Hv' & Hwf') & Hp & Hout).
  { split; [by exists it|]. cbn. rewrite Hv. split; [apply lookup_singleton_eq|done]. }
  cbn in Hp. cbn [mbind option_bind]. destruct r as [n|e|]; [|done|by eexists _, _].
  destruct (drop_last p iter (world s') it' HL') as (w3 & it3 & E3 & HL3 & Hr3 & Hv3); [by rewrite Hp|].
  rewrite E3. cbn [mbind option_bind]. eexists _, _. split; [done|].
  destruct Hout as (k & -> & Hk). exists k. split; [lia|]. split; [|done].
  split; [by exists it3|done].
Qed.

(** What a test leaves: an exception does not come out of it; if it ends, the
    iterator is free for the next query, and each of its [k] rows has left
    [per_row] Thrift objects that nothing points to. *)
Definition leaves (p iter : Z) (s : state) (per_row : nat) (out : option (ending * state)) : Prop :=
  exists r s', out = Some (r, s') /\
    match r with
    | Ended n => exists k, n = Z.of_nat k /\ idle p iter s' /\
        thrift_objects s' = (thrift_objects s + k * per_row)%nat
    | Threw _ => False
    | Running => True
    end.

(** the tests, where the bytes of every row can be read and there is an id to
    ask for, meet no undefined behaviour whatever the server answers, and leave the iterator closed and
    free; but no object that the converter makes is ever deleted: a test of
    [k] rows leaks [k] of them. *)
Theorem tests_leak_rows fuel p iter s :
  idle p iter s ->
  (forall array topic, array <> [] -> readable topic ->
     leaves p iter s (converts (test_query_use topic)) (testQuery fuel array topic iter s)) /\
  (readable Metamorphosis_Schedule_Day ->
     (forall array from to, array <> [] -> leaves p iter s 1 (testScheduleQuery fuel array from to iter s)) /\
     (forall array from to, array <> [] -> leaves p iter s 1 (testScheduleQuery2 fuel array from to iter s))).
Proof.
  intros Hi. split; [intros array topic Ha Hr|intros Hr; split; intros array from to Ha];
    unfold leaves, testQuery, testScheduleQuery, testScheduleQuery2.
  - destruct (test_leaks fuel (test_query_use topic) topic (DatastoreIterator.ByIds array topic) p iter s Hr Hi Ha)
      as (r & s' & E & Hout). by exists r, s'.
  - destruct (test_leaks fuel (Converted false) _ (DatastoreIterator.ByStrings from to array) p iter s Hr Hi Ha)
      as (r & s' & E & Hout). by exists r, s'.
  - destruct (test_leaks fuel (Converted false) _ (DatastoreIterator.ByDates from to array) p iter s Hr Hi Ha)
      as (r & s' & E & Hout). by exists r, s'.
Qed.

(** The end of the datastore when nobody holds the iterator. *)
Lemma destroy_idle p iter s :
  idle p iter s -> exists w, destruct_store (world s) = Some w /\ iters w !! p = None.
Proof.
  intros ([it [HL _]] & Hv & _). destruct (lends_store _ _ _ _ HL) as (ds & Hds & Hp).
  destruct (lends_object _ _ _ _ HL) as (o & Ho & _). unfold destruct_store. rewrite Hds. cbn.
  rewrite Hp, Ho. cbn.
  assert (Intrusive.referenceCount o = 0) as ->.
  { unfold Intrusive.referenceCount. rewrite (Intrusive.inv_count _ _ _ (lends_inv _ _ _ _ HL) p o Ho).
    unfold Intrusive.temps. rewrite Hv. cbn. rewrite Nat.add_0_r. by rewrite Intrusive.refs_fresh. }
  cbn. unfold on_iter. rewrite (lends_iter _ _ _ _ HL). cbn.
  unfold DatastoreIterator.destruct_iterator, mbind, DatastoreIterator.M_bind.
  destruct (DatastoreIterator.sound_closeAndReset it _ (lends_sound _ _ _ _ HL)) as (it' & m' & -> & _). cbn.
  eexists. split; [done|]. cbn. apply lookup_delete_eq.
Qed.

Lemma idle_connected p iter s : idle p iter s -> is_Some (isConnected (world s)).
Proof.
  intros ([it [HL _]] & _ & _). destruct (lends_store _ _ _ _ HL) as (ds & Hds & <-). unfold isConnected.
  rewrite Hds. cbn. destruct (_ =? 0); [by eexists|]. rewrite (lends_iter _ _ _ _ HL). by eexists.
Qed.

Lemma idle_other p iter iter' s : idle p iter s -> idle p iter' s.
Proof. done. Qed.

(** the queries of [main], from a datastore that is ready: the program
    gets through them, whatever the server answers, and deletes the datastore
    with the iterator; the converter's objects are still there. *)
Theorem main_runs fuel p s :
  idle p 1 s -> readable Metamorphosis_Station -> readable Metamorphosis_Schedule_Day ->
  exists r s', main fuel s = Some (r, s') /\
    match r with
    | Ended n => iters (world s') !! p = None /\
        exists k, 0 <= n <= Z.of_nat k /\ thrift_objects s' = (thrift_objects s + k)%nat
    | Threw _ => False
    | Running => True
    end.
Proof.
  intros Hi Hst Hsd. unfold main.
  destruct (test_leaks fuel (Converted true) _ (DatastoreIterator.ByIds ids Metamorphosis_Station) p 1 s Hst Hi ltac:(done))
    as (r1 & s1 & E1 & H1').
  change (testQuery fuel ids Metamorphosis_Station 1 s = Some (r1, s1)) in E1. rewrite E1.
  cbn [mbind option_bind].
  destruct r1 as [n1|e|]; [|done|by eexists _, _]. destruct H1' as (k1 & -> & I1 & O1).
  destruct (idle_connected _ _ _ I1) as [connected ->]. cbn [mbind option_bind].
  assert (exists r2 s2, (if connected then testQuery fuel ids2 Metamorphosis_Schedule_Day 2 s1
                         else Some (Ended 0, s1)) = Some (r2, s2) /\
    match r2 with
    | Ended n => exists k, n = Z.of_nat k /\ idle p 2 s2 /\ thrift_objects s2 = (thrift_objects s1 + k * 1)%nat
    | Threw _ => False
    | Running => True
    end) as (r2 & s2 & E2 & H2').
  { destruct connected.
    - exact (test_leaks fuel (Converted true) _ (DatastoreIterator.ByIds ids2 Metamorphosis_Schedule_Day) p 2 s1 Hsd I1 ltac:(done)).
    - eexists _, _. split; [done|]. exists 0%nat. split; [done|]. split; [done|lia]. }
  rewrite E2. cbn [mbind option_bind].
  destruct r2 as [n2|e|]; [|done|by eexists _, _]. destruct H2' as (k2 & -> & I2 & O2).
  destruct (test_leaks fuel (Converted false) _
    (DatastoreIterator.ByStrings "2015-01-08" "2019-05-12" ids4) p 3 s2 Hsd I2 ltac:(done)) as (r3 & s3 & E3 & H3').
  change (testScheduleQuery fuel ids4 "2015-01-08" "2019-05-12" 3 s2 = Some (r3, s3)) in E3. rewrite E3.
  cbn [mbind option_bind].
  destruct r3 as [n3|e|]; [|done|by eexists _, _]. destruct H3' as (k3 & -> & I3 & O3).
  destruct (destroy_idle _ _ _ I3) as (w & -> & Hgone). cbn [mbind option_bind].
  eexists _, _. split; [done|]. split; [done|]. exists (k1 + k2 + k3)%nat. split; [lia|].
  unfold thrift_objects in *. cbn [converts thrift] in *. lia.
Qed.
End dump.

(** ** The toy server, and a converter whose reads succeed *)

#[local] Existing Instance DatastoreIterator.toy_server.
#[local] Instance copy_runtime : ThriftConverter.ThriftRuntime := {|
  ThriftConverter.content := list Byte.byte;
  ThriftConverter.default_content _ := [];
  ThriftConverter.thrift_read _ _ b := (Returns (), b) |}.

Definition new_state : state := State new_world (ThriftConverter.State ∅ 1 []).

Lemma new_idle iter : idle store_at 64 iter new_state.
Proof.
  pose proof new_fresh as F. split; [|split; [done|by intros p _]].
  exists DatastoreIterator.new_iterator. split; [|done]. exact (proj1 (fresh_lends _ _ _ _ F)).
Qed.

Lemma tests_leak_rows_witness :
  leaves store_at 64 10 new_state 1 (testQuery store_at 5 [7; 8] Metamorphosis_Station 10 new_state) /\
  option_map (fun out => (out.1, thrift_objects out.2))
    (testQuery store_at 5 [7; 8] Metamorphosis_Station 10 new_state) = Some (Ended 3, 3%nat).
Proof.
  split; [|vm_compute; reflexivity].
  exact (proj1 (tests_leak_rows store_at 5 64 10 new_state (new_idle 10)) [7; 8] Metamorphosis_Station ltac:(done)
    (fun bytes => ex_intro _ bytes eq_refl)).
Defined.

Lemma main_runs_witness :
  exists r s', main store_at 5 new_state = Some (r, s') /\ iters (world s') !! 64 = None.
Proof.
  destruct (main_runs store_at 5 64 new_state (new_idle 1) (fun bytes => ex_intro _ bytes eq_refl)
    (fun bytes => ex_intro _ bytes eq_refl)) as (r & s' & E & Hout).
  exists r, s'. split; [exact E|]. destruct r as [n|e|]; [exact (proj1 Hout)|destruct Hout|].
  vm_compute in E. discriminate E.
Defined.

(** A row whose bytes cannot be read: the converter gives null, and the test
    looks at the object. *)
Example unreadable_row_is_undefined :
  use_row (H2 := ThriftConverter.byte_runtime) (Converted true) Metamorphosis_Station
    (MkDataObject 0 (Some (0, 0)))
    (State (World None (Intrusive.State ∅ (Intrusive.Heap ∅ [])) ∅
       (DatastoreIterator.Memory {[0 := MkResult PGRES_TUPLES_OK [Some []]]} 1 []))
     (ThriftConverter.State ∅ 1 [])) = None.
Proof. by vm_compute. Qed.

End DataDump.
